(* ===== verification/_CoqProject ===== *)
-Q . S2P
Prelude.v
CircuitBreaker.v
Retry.v
Traffic.v
TrafficLayer.v
AuthDomain.v
AuthStore.v
AuthHandlers.v
AuthSteps.v
AuthProofs.v
AuditChain.v
AuditProofs.v
AuditLedger.v
AuditLedgerProofs.v
AuditGlobal.v
Counter.v
CounterStores.v
CounterProofs.v
CounterExact.v
CounterSweep.v
AccountDomain.v
AccountStore.v
AccountHandlers.v
AccountProofs.v
AccountConcurrency.v
Consumer.v
ConsumerProofs.v
AuditDecode.v
AuditFeeds.v
AuditFeedsProofs.v
AuditErasure.v
AuditAccess.v
AuditAccessProofs.v
ModerationDomain.v
ModerationStore.v
ModerationHandlers.v
ModerationEdge.v
ModerationSteps.v
ModerationRuns.v
ModerationProofs.v
ModerationAlone.v
ModerationSystem.v
ModerationSpecs.v
ModerationRules.v
ModerationAudit.v
Prog.v
Cqrs.v
CqrsProofs.v
SocialGraphDomain.v
SocialGraphStore.v
SocialGraphHandlers.v
SocialGraphEdge.v
SocialGraphPairs.v
SocialGraphContract.v
SocialGraphEvents.v
SocialGraphPages.v
SocialGraphBooks.v
SocialGraphCounter.v
SocialGraphRaces.v
EdgeToken.v
EdgeTokenProofs.v
RealtimeDomain.v
RealtimeCodec.v
RealtimeGateway.v
RealtimeProofs.v
RealtimeRuns.v
RealtimeSync.v
RealtimeSequence.v
RealtimeDelivery.v
EdgeTokenGates.v
MediaDomain.v
MediaStore.v
MediaPipeline.v
MediaHandlers.v
MediaEdge.v
MediaKeep.v
MediaProofs.v
MediaGate.v
MediaRuns.v
