(* ===== verification/Prelude.v ===== *)
(** * Core Platform: a verification library for its decision logic

    The platform is a fleet of Rust services (authentication, accounts, audit, counter
    analytics, content, ...) over Postgres, Redis, Scylla and Kafka, with shared crates
    for resilience and traffic shaping.  This library models the parts whose correctness
    is a matter of logic rather than of drivers: what each component decides, what it
    writes, in which order, and what survives when a call fails in between.

    ** The parts of the program and the files that model them

    - [CircuitBreaker], [Retry]: [crates/foundation/resilience].  The breaker's state
      machine and its tower service as phases of interleaved calls that may be dropped;
      backoff arithmetic, the retry loop, timeouts and the hot-swappable profile.
    - [Traffic], [TrafficLayer]: [crates/platform/traffic] and [traffic-redis].  The lease
      book each replica keeps, the Lua claim script on Redis, a fleet of replicas as a
      step relation; then profiles, catalog, section reload and the request path of the
      gRPC layer, which asks [Traffic]'s decision.
    - [AuthDomain], [AuthStore], [AuthHandlers], [AuthSteps], [AuthProofs]:
      [crates/services/auth].  Sessions, refresh tokens and subject links; the Postgres
      repositories, the Redis session cache and the outbox with its relay; login,
      refresh, logout, global sign-out, introspection; what any interleaving of store
      calls keeps; the theorems on the handlers.
    - [AccountDomain], [AccountStore], [AccountHandlers], [AccountProofs],
      [AccountConcurrency]: [crates/services/account] with the transaction kernel of
      [crates/storage/postgres].  Value objects and the account aggregate, the table's
      rows and the versioned save, the seventeen commands and five queries down to the
      gRPC conversions; well-formedness; commands under any interleaving.  This is the
      directory whose answers [AuthHandlers] takes as a parameter.
    - [AuditChain], [AuditProofs], [AuditLedger], [AuditLedgerProofs], [AuditGlobal]:
      [crates/services/audit].  Canonical bytes, the hash chain, checkpoints, holds; the
      ledger with its optimistic append, ingest, verification and crypto-shredding; the
      theorems on tamper evidence.
    - [Counter], [CounterStores], [CounterProofs], [CounterExact], [CounterSweep]:
      [crates/services/counter].  The windowed aggregator and its decoders; the three
      storage tiers, flush, reconciliation and queries; at-most-once and exact counting,
      the reconciliation sweep.
    - [Consumer], [ConsumerProofs]: [crates/platform/transport/src/kafka].  What a Kafka
      record becomes, the bounded retry, the dead letter and the commit of one worker; the
      topic, the group's durable offset and the supervisor that rebuilds a worker whose
      stream ended, as a step relation.
    - [AuditDecode], [AuditFeeds], [AuditFeedsProofs], [AuditErasure]: the feeds of
      [crates/services/audit/src/infrastructure].  The wire events of the account,
      session, moderation and generic topics and their mappings; the envelope cipher
      with one wrapped key per subject; the four consumers, which run on [Consumer] and
      write through [AuditLedger].  [AuditErasure] starts from the events that
      [AccountDomain] raises and follows them to the ledger and the key table.
    - [AuditAccess], [AuditAccessProofs]: the audit service's gRPC surface: caller gate,
      protobuf conversions, the four calls, the filtered query and the export.
    - [ModerationDomain], [ModerationStore], [ModerationHandlers], [ModerationEdge]:
      [crates/services/moderation].  Cases, decisions, enforcements, appeals and the
      penalty ledger; the Postgres, Scylla and Redis adapters and the outbox; the use
      cases; the nine calls and two consumers.
    - [ModerationSteps], [ModerationRuns], [ModerationProofs], [ModerationAlone],
      [ModerationSystem], [ModerationSpecs], [ModerationRules], [ModerationAudit]: what a
      store call keeps, use cases among other tasks and alone, the service as a step
      relation, exact effects and policy, and the decisions as the audit feed reads them.
    - [Cqrs], [CqrsProofs]: [crates/platform/cqrs], [crates/platform/validation] and the
      error traits of [crates/foundation].  The buses with their erased registries,
      envelopes, the command layers and the pipeline, in any monad; routing and
      idempotency.
    - [SocialGraphDomain], [SocialGraphStore], [SocialGraphHandlers], [SocialGraphEdge]:
      [crates/services/social-graph].  The relation aggregate and author tiers; the Scylla
      tables, Redis keys and topics behind the statements the adapters send; commands,
      queries and the tier backfill; the buses and the gRPC calls.
    - [SocialGraphPairs], [SocialGraphContract], [SocialGraphEvents], [SocialGraphPages],
      [SocialGraphBooks], [SocialGraphRaces]: what a command does to its pair, in a pool
      of requests; what is published and when; walks over pages; the cache of a service
      that is asked one thing at a time; concrete runs.  [SocialGraphCounter] puts the
      service where [CounterStores] has its source of counts.
    - [EdgeToken], [EdgeTokenProofs], [EdgeTokenGates]: [crates/platform/auth-context] and
      auth's token minter.  The key ring, minting and verification, the JWKS document and
      its refresher, the claims extractor; what a minted token is at the minters, at a
      gateway, and at the gates of [AuditAccess] and [RealtimeGateway].
    - [RealtimeDomain], [RealtimeCodec], [RealtimeGateway]: [crates/services/realtime].
      Channels, sequences and connections; the codec and the upstream mappings; handshake,
      registry and node channels on Redis, fan-out, connection table, socket tasks and
      subscriber.  [RealtimeProofs], [RealtimeRuns], [RealtimeSync], [RealtimeSequence],
      [RealtimeDelivery]: one connection and one event; a node as a step relation; its
      tables; the numbers of a stream; from the dispatcher to the queues.
    - [MediaDomain], [MediaStore], [MediaPipeline], [MediaHandlers], [MediaEdge]:
      [crates/services/media].  The asset and its lifecycle; the table, the delivery cache,
      the object store, the topic and the moderation gate behind the calls the adapters
      make; probes, renditions and the HLS ladder; the use cases; the gRPC calls and the
      three consumers.  [MediaKeep], [MediaProofs], [MediaGate], [MediaRuns]: what every task
      keeps of the assets; screening, takedowns and legal holds; what may be written before
      moderation has answered, with [ModerationEdge]'s own answer; concrete runs.
    - [Prog]: handlers as trees of calls and replies, pools of them, a rely-guarantee
      logic, and monitors along a run, which [Cqrs], the social graph and media use.
    - [Prelude]: results, the handler monad [act], field assignment, transition systems,
      machine integers, strings, shared lemmas and tactics.

    ** How state and operations are modelled

    A struct is a Record, an enum an Inductive with the source's constructors, an
    operation a function named as in the source.  A fallible function returns [result];
    a handler is an [act]: a function from a world (the tables, caches and topics it can
    reach) to the world it leaves and its result, so that the effects made before an
    error persist.  A backend call consumes an entry of the world's fault script, so a
    theorem that quantifies over worlds quantifies over failures.  What the code reads
    from the clock, a random source or an identifier generator is an argument.  Where
    calls of several tasks interleave, a step relation lists the atomic calls and [star]
    its runs; a handler is proved to be such a run ([login_reaches], [dispatch_is_a_run],
    ...), so an invariant of the steps holds of any concurrent execution.

    The social graph and media are written as programs ([prog]): a call and, for each
    reply, the rest of the handler.  A pool interleaves the calls of its tasks, answers
    each under a fault of its own and lets nature (the clock, a restart of Redis, a client
    with an upload URL) step in between.  What a task achieves while others run follows
    from what they leave alone ([rg]); what it publishes or writes, from its exchanges
    alone ([traces], [follows]).

    ** What the theorems show

    - Budgets and breakers: a fleet never exceeds a window's budget; half-open slots are
      counted and returned; a closed breaker stays below its threshold and an open one rejects until
      its cooldown; retries terminate and stay within their delays.
    - Authentication: logout and global sign-out are final under any later interleaving;
      a refresh rotates exactly one token; a replay kills the generation; one of two
      concurrent rotations wins; the outbox relay loses nothing.
    - Accounts: commands are serializable, in an order that has every command that reports
      success; every reachable row is well formed and its
      unique columns unique; erasure is final; the permission set is the union of grants
      and overrides.
    - Audit: a head pins its history, unless the bytes hashed for two of the records at
      hand are a collision of SHA-256; every interleaving
      leaves verifiable partitions; a commit is exactly once; erasure keeps evidence.
    - Feeds: a supervised group that has committed before, or starts at the earliest
      offset, commits past no record that is neither processed nor dead-lettered; the
      account events it commits past are in the ledger, blind but for an envelope that opens to its personal data with the subject's key; what a deletion request
      destroys and what it does not; every gRPC call is guarded by its permission.
    - Counting: each window is counted at most once, and while the stores answer on-time
      events exactly; a sweep of the reconciler heals every pair, and with a healthy social
      graph as its source it brings the ledger to the number of edges.
    - Moderation: under any interleaving and failure every enforcement executes a recorded
      decision with its reasons; an overturned appeal lifts what it executed; the screen
      fails closed; penalties are graduated; the exact effects of deciding a case.
    - Social graph: the two adjacency tables agree under any interleaving and failure; a
      command among requests on other pairs meets the contract of its pair; every request
      is answered; events follow acknowledged writes; page tokens cover a list; requests
      served one at a time leave counters, sets and tiers equal to the tables.
    - Buses: distinct messages are routed to their handlers; behind the idempotency layer
      each succeeds once.
    - Edge tokens: a minted token verifies at every minter that still holds its key and
      identifies its account at a gateway; an outage of the JWKS takes no key away.
    - Realtime: private streams stay with their owner; the tables of a node are the
      subscriptions of the sockets it serves; frames arrive in sequence, a gap is a shed
      frame; an event reaches exactly the connections it is for; a fault of the fabric
      leaves the record to be retried, and an acknowledged one was published to every node
      it is for; the handlers are runs of the step relation.
    - Media: whatever is stored as READY or delivered with URLs was screened and met its
      constraints; nothing is derived before the screen has passed; a finished takedown
      holds until a restoration; evidence held with nothing under way is kept; a hash of
      moderation's corpus ends quarantined.
    - Divergences the model exposed are theorems too ([refresh_fails_at_cap],
      [dropped_probe_wedges_breaker], [verify_email_ignores_the_suspension],
      [late_share_is_lost], [retried_decision_piles_up],
      [ban_below_another_subjects_version_lapses], [redis_outage_zeroes_the_counters],
      [concurrent_commands_break_a_pair], [minted_tokens_open_no_gate],
      [presence_lapses_under_live_connections], [overlapping_handlers_undo_moderation],
      [upload_urls_outlive_the_screen], ...).

    ** Bounds and fuel

    Machine integers keep their width: additions wrap or saturate as the release profile
    compiles them, and casts keep the low bits.  Loops are structural where the source
    recurses on data.  Otherwise the fuel is the source's own bound: the eight append
    attempts of an audit commit, the attempts of a retry policy, the batch sizes of the
    outbox relay and of a reconciliation page; or it is a measure that provably suffices:
    the length of the text a trim consumes, the five awaits of a breaker call.

    ** What is not modelled, and why

    - Third-party code and cryptography are parameters with documented laws: SHA-256, the
      AES-GCM and the key-management service, the random generator, signatures and JWTs,
      the identity provider, HyperLogLog, database collation, Unicode case tables,
      UUID parsing, order and derivation, base64, RFC 3339, chrono's range, the
      precision of a timestamp column, the JSON of page tokens and of the hash corpus, the
      signing of object URLs, image decoding and scaling, BlurHash, ffmpeg and ffprobe.
    - Drivers, pools, telemetry, server bootstrap, file watching and the generated
      protobuf code are I/O.  Stores are single databases: sharded topologies, Redis
      eviction (but of media's cache) and serde's encodings are outside the model.  A logged batch is one
      statement: what a reader sees of a batch under way is not modelled.
    - User-facing messages carry no decision.
    - The remaining services (chat, comment, engagement, post, profile,
      geo-discovery, notification, search, timeline) and the infra-config registry are
      not modelled: they come next, in that order of their own decision logic. *)

From Stdlib Require Export Ascii.
From stdpp Require Export base gmap strings list numbers option.

#[export] Set Default Goal Selector "!".

(** ** Results: the source's [Result<T, E>] *)

Inductive result (E A : Type) : Type :=
  | Ok (a : A)
  | Err (e : E).
Arguments Ok {E A} a.
Arguments Err {E A} e.

#[export] Instance result_eq_dec {E A} `{EqDecision E, EqDecision A} :
  EqDecision (result E A).
Proof. solve_decision. Defined.

#[export] Instance result_ret {E} : MRet (result E) := fun A a => Ok a.
#[export] Instance result_bind {E} : MBind (result E) := fun A B f m =>
  match m with Ok a => f a | Err e => Err e end.
#[export] Instance result_fmap {E} : FMap (result E) := fun A B f m =>
  match m with Ok a => Ok (f a) | Err e => Err e end.

(** [Result::map_err]. *)
Definition map_err {E F A} (f : E → F) (m : result E A) : result F A :=
  match m with Ok a => Ok a | Err e => Err (f e) end.

(** [Option::ok_or]. *)
Definition ok_or {E A} (o : option A) (e : E) : result E A :=
  match o with Some a => Ok a | None => Err e end.

Definition is_ok {E A} (m : result E A) : bool :=
  match m with Ok _ => true | Err _ => false end.

(** An early return [if c { return Err(e) }]. *)
Definition guard {E} (c : bool) (e : E) : result E unit :=
  if c then Ok tt else Err e.

Lemma result_bind_ok {E A B} (m : result E A) (f : A → result E B) (b : B) :
  (m ≫= f) = Ok b ↔ ∃ a, m = Ok a ∧ f a = Ok b.
Proof. destruct m; naive_solver. Qed.

Lemma ok_or_ok {E A} (o : option A) (e : E) (a : A) :
  ok_or o e = Ok a ↔ o = Some a.
Proof. destruct o; naive_solver. Qed.

Lemma guard_ok {E} (c : bool) (e : E) u : guard c e = Ok u ↔ c = true.
Proof. destruct c, u; naive_solver. Qed.

(** ** Handlers: effects on a world that persist when a later call fails

    A handler is a function from a world to the world it leaves behind and its
    result.  [?] in the source returns early with the error and with the effects
    made so far: that is [act]'s bind. *)

Definition act (W E A : Type) : Type := W → W * result E A.

Definition done_with {W E A} (a : A) : act W E A := λ w, (w, Ok a).

Definition act_bind {W E A B} (m : act W E A) (f : A → act W E B) : act W E B := λ w,
  match m w with
  | (w', Ok a) => f a w'
  | (w', Err e) => (w', Err e)
  end.

Declare Scope act_scope.
Delimit Scope act_scope with act.
Notation "'let!' x := m 'in' k" := (act_bind m (λ x, k))
  (at level 10, x binder, m at level 100, k at level 200) : act_scope.
#[global] Open Scope act_scope.

(** A fallible pure step inside a handler. *)
Definition lift {W E A} (r : result E A) : act W E A := fun w => (w, r).
Definition throw {W E A} (e : E) : act W E A := fun w => (w, Err e).
Definition gets {W E A} (f : W → A) : act W E A := fun w => (w, Ok (f w)).
Definition modify {W E} (f : W → W) : act W E unit := fun w => (f w, Ok tt).

(** [for x in xs { body(x)?; }]. *)
Fixpoint for_each {W E A} (body : A → act W E unit) (xs : list A) : act W E unit :=
  match xs with
  | [] => done_with tt
  | x :: xs => let! _ := body x in for_each body xs
  end.

Lemma act_bind_run {W E A B} (m : act W E A) (f : A → act W E B) (w : W) :
  act_bind m f w = match m w with (w', Ok a) => f a w' | (w', Err e) => (w', Err e) end.
Proof. reflexivity. Qed.

Lemma act_bind_ok {W E A B} (m : act W E A) (f : A → act W E B) w w' b :
  act_bind m f w = (w', Ok b) →
  ∃ w1 a, m w = (w1, Ok a) ∧ f a w1 = (w', Ok b).
Proof. rewrite act_bind_run. destruct (m w) as [? []]; naive_solver. Qed.

(** What a handler preserves whatever its outcome: [P] is a relation between the
    world before and the world after. *)
Definition preserves {W E A} (P : W → Prop) (m : act W E A) : Prop :=
  ∀ w, P w → P (m w).1.

Section preserves.
Context {W E : Type} (P : W → Prop).

Lemma preserves_bind {A B} (m : act W E A) (f : A → act W E B) :
  preserves P m → (∀ a, preserves P (f a)) → preserves P (act_bind m f).
Proof.
  intros Hm Hf w Hw. rewrite act_bind_run.
  specialize (Hm w Hw). destruct (m w) as [w' []]; simpl in *; [|done].
  by apply Hf.
Qed.
Lemma preserves_ret {A} (a : A) : preserves (E:=E) P (done_with a).
Proof. by intros w. Qed.
Lemma preserves_lift {A} (r : result E A) : preserves P (lift r).
Proof. by intros w. Qed.
Lemma preserves_throw {A} (e : E) : preserves (A:=A) P (throw e).
Proof. by intros w. Qed.
Lemma preserves_gets {A} (f : W → A) : preserves (E:=E) P (gets f).
Proof. by intros w. Qed.
Lemma preserves_modify (f : W → W) :
  (∀ w, P w → P (f w)) → preserves (E:=E) P (modify f).
Proof. intros Hf w Hw. by apply Hf. Qed.
Lemma preserves_for_each {A} (body : A → act W E unit) xs :
  (∀ x, x ∈ xs → preserves P (body x)) → preserves P (for_each body xs).
Proof.
  induction xs as [|x xs IH]; intros Hb; simpl; [apply preserves_ret|].
  apply preserves_bind; [apply Hb; set_solver|].
  intros _. apply IH. set_solver.
Qed.
End preserves.

Create HintDb preserves.
#[export] Hint Resolve preserves_bind preserves_ret preserves_lift preserves_throw
  preserves_gets preserves_modify preserves_for_each : preserves.

(** ** Field assignment

    [r <| f := v |>] is the source's [r.f = v].  A record opts in by an instance of
    [Fields], its identity written field by field; the setter of a field replaces
    that field in it, so [simpl] reads any other field through the assignment. *)

Class Fields (R : Type) := fields_eta : R → R.
Class SetField {R E : Type} (getter : R → E) := set_field : E → R → R.

Ltac solve_set_field R E getter :=
  let e := eval hnf in (fields_eta (R := R)) in
  let setter := constr:(fun (v : E) (r : R) => ltac:(
    let t := eval cbv beta in (e r) in
    let g := eval cbv beta in (getter r) in
    lazymatch eval pattern g in t with
    | ?f _ => let u := eval cbv beta in (f v) in exact u
    end)) in
  exact setter.

#[export] Hint Extern 1 (@SetField ?R ?E ?getter) =>
  solve_set_field R E getter : typeclass_instances.

#[warnings="-postfix-notation-not-level-1"]
Notation "r <| f := v |>" := (set_field (getter := f) v r)
  (at level 12, left associativity, f at level 9, v at level 200,
   format "r  '<|'  f  :=  v  '|>'").

(** ** Transition systems: zero or more steps *)

Section star.
Context {S : Type} (step : S → S → Prop).

Inductive star : S → S → Prop :=
  | star_refl s : star s s
  | star_step s1 s2 s3 : step s1 s2 → star s2 s3 → star s1 s3.

Lemma star_trans s1 s2 s3 : star s1 s2 → star s2 s3 → star s1 s3.
Proof. induction 1; eauto using star. Qed.

Lemma star_invariant (P : S → Prop) s s' :
  P s → (∀ s1 s2, step s1 s2 → P s1 → P s2) → star s s' → P s'.
Proof. intros Hs Hstep. induction 1; eauto. Qed.
End star.

(** ** Lists *)

Lemma existsb_false {A} (f : A → bool) (l : list A) :
  existsb f l = false ↔ ∀ x, x ∈ l → f x = false.
Proof.
  induction l as [|y l IH]; simpl; [set_solver|].
  rewrite orb_false_iff, IH. set_solver.
Qed.

(** ** Counting the entries of a finite map that satisfy a test *)

Section count.
Context {K V : Type} `{Countable K} (f : V → bool).

Definition count_if (m : gmap K V) : nat :=
  size (filter (λ kv : K * V, f kv.2 = true) m).

Lemma count_if_insert_None m k v :
  m !! k = None → count_if (<[k:=v]> m) = ((if f v then 1 else 0) + count_if m)%nat.
Proof.
  intros Hk. unfold count_if. destruct (f v) eqn:Hv.
  - rewrite map_filter_insert_True by done.
    rewrite map_size_insert_None; [done|].
    apply map_lookup_filter_None. left. done.
  - rewrite map_filter_insert_False by (simpl; congruence).
    by rewrite delete_id.
Qed.

Lemma count_if_delete m k v :
  m !! k = Some v → count_if m = ((if f v then 1 else 0) + count_if (delete k m))%nat.
Proof.
  intros Hk. rewrite <- (insert_delete_id m k v Hk) at 1.
  apply count_if_insert_None, lookup_delete_eq.
Qed.

Lemma count_if_update m k v v' :
  m !! k = Some v →
  (count_if (<[k:=v']> m) + (if f v then 1 else 0) =
   count_if m + (if f v' then 1 else 0))%nat.
Proof.
  intros Hk. rewrite (count_if_delete m k v Hk).
  rewrite <- insert_delete_eq.
  rewrite count_if_insert_None by apply lookup_delete_eq. lia.
Qed.

Lemma count_if_zero m : (∀ k v, m !! k = Some v → f v = false) → count_if m = O.
Proof.
  intros Hall. unfold count_if. apply map_size_empty_iff, map_empty.
  intros k. apply map_lookup_filter_None. destruct (m !! k) as [v|] eqn:E; [right|by left].
  intros v' Hv' Hf. simpl in Hf. rewrite (Hall k v') in Hf; [done|]. congruence.
Qed.

Lemma count_if_pos m k v : m !! k = Some v → f v = true → (1 ≤ count_if m)%nat.
Proof. intros Hk Hv. rewrite (count_if_delete m k v Hk), Hv. lia. Qed.
End count.

(** ** Machine integers and saturating arithmetic *)

Local Open Scope Z_scope.

Definition u32_max : Z := 2 ^ 32 - 1.
Definition u64_max : Z := 2 ^ 64 - 1.
Definition i64_max : Z := 2 ^ 63 - 1.

Definition is_u32 (z : Z) : Prop := 0 ≤ z ≤ u32_max.
Definition is_u64 (z : Z) : Prop := 0 ≤ z ≤ u64_max.

(** Unsigned addition as the release profile compiles it: it wraps. *)
Definition u32_add (a b : Z) : Z := (a + b) mod 2 ^ 32.
Definition u64_add (a b : Z) : Z := (a + b) mod 2 ^ 64.

(** Two's-complement 64-bit addition, wrapping. *)
Definition i64_add (a b : Z) : Z := (a + b + 2 ^ 63) mod 2 ^ 64 - 2 ^ 63.

Definition saturating_sub (a b : Z) : Z := Z.max 0 (a - b).
Definition u64_saturating_mul (a b : Z) : Z := Z.min u64_max (a * b).
Definition i64_saturating_add (a b : Z) : Z :=
  Z.max (- 2 ^ 63) (Z.min i64_max (a + b)).

Lemma u32_add_small a b : 0 ≤ a + b ≤ u32_max → u32_add a b = a + b.
Proof. unfold u32_add, u32_max. intros. apply Z.mod_small. lia. Qed.

Lemma u32_add_range a b : is_u32 (u32_add a b).
Proof.
  unfold is_u32, u32_add, u32_max.
  pose proof (Z.mod_pos_bound (a + b) (2 ^ 32) ltac:(lia)). lia.
Qed.

Lemma i64_add_small a b :
  - 2 ^ 63 ≤ a + b ≤ i64_max → i64_add a b = a + b.
Proof. unfold i64_add, i64_max. intros. rewrite Z.mod_small; lia. Qed.

(** Signed machine integers: [z as iN] keeps the low bits. *)
Definition as_signed (bits z : Z) : Z := (z + 2 ^ (bits - 1)) mod 2 ^ bits - 2 ^ (bits - 1).
Definition as_i16 (z : Z) : Z := as_signed 16 z.
Definition as_i32 (z : Z) : Z := as_signed 32 z.
Definition as_u16 (z : Z) : Z := z mod 2 ^ 16.
(** Two's-complement 32-bit addition, wrapping. *)
Definition i32_add (a b : Z) : Z := as_i32 (a + b).

Lemma as_signed_small bits z :
  0 < bits → - 2 ^ (bits - 1) ≤ z < 2 ^ (bits - 1) → as_signed bits z = z.
Proof.
  intros Hb Hz. unfold as_signed. rewrite Z.mod_small; [lia|].
  replace (2 ^ bits) with (2 * 2 ^ (bits - 1)); [lia|].
  rewrite <- Z.pow_succ_r by lia. f_equal. lia.
Qed.

#[export] Hint Resolve u32_add_range : core.

(** ** Sums over lists *)

Section sum_with.
Context {A : Type} (f : A → Z).

Fixpoint sum_with (l : list A) : Z :=
  match l with [] => 0 | x :: l => f x + sum_with l end.

Lemma sum_with_nonneg l : (∀ x, x ∈ l → 0 ≤ f x) → 0 ≤ sum_with l.
Proof.
  induction l as [|x l IH]; intros Hf; simpl; [lia|].
  pose proof (Hf x ltac:(set_solver)). assert (0 ≤ sum_with l) by (apply IH; set_solver). lia.
Qed.

Lemma sum_with_insert l i x y :
  l !! i = Some x → sum_with (<[i:=y]> l) = sum_with l - f x + f y.
Proof.
  revert i. induction l as [|z l IH]; intros [|i] Hi; simplify_eq/=; [lia|].
  rewrite (IH i Hi). lia.
Qed.

Lemma sum_with_elem l i x :
  (∀ x, x ∈ l → 0 ≤ f x) → l !! i = Some x → f x ≤ sum_with l.
Proof.
  revert i. induction l as [|z l IH]; intros i Hf Hi; [done|].
  pose proof (Hf z ltac:(set_solver)).
  pose proof (sum_with_nonneg l ltac:(set_solver)).
  destruct i; simplify_eq/=; [lia|].
  pose proof (IH i ltac:(set_solver) Hi). lia.
Qed.
End sum_with.

(** ** Strings

    A Rust [String] is UTF-8; the model keeps its bytes in a [string].
    [trim_is_empty s] is [s.trim().is_empty()]: every character of [s] is one of
    Unicode's White_Space characters, recognised by their UTF-8 encodings. *)

Definition byte_is (c : ascii) (n : nat) : bool := Nat.eqb (nat_of_ascii c) n.
Definition byte_in (c : ascii) (lo hi : nat) : bool :=
  Nat.leb lo (nat_of_ascii c) && Nat.leb (nat_of_ascii c) hi.

Fixpoint trim_is_empty (s : string) : bool :=
  match s with
  | "" => true
  | String a rest =>
      if byte_in a 9 13 || byte_is a 32 then trim_is_empty rest
      else match rest with
           | String b rest2 =>
               if byte_is a 194 && (byte_is b 133 || byte_is b 160)
               then trim_is_empty rest2
               else match rest2 with
                    | String c rest3 =>
                        if (byte_is a 225 && byte_is b 154 && byte_is c 128)
                           || (byte_is a 226 && byte_is b 128
                               && (byte_in c 128 138 || byte_in c 168 169 || byte_is c 175))
                           || (byte_is a 226 && byte_is b 129 && byte_is c 159)
                           || (byte_is a 227 && byte_is b 128 && byte_is c 128)
                        then trim_is_empty rest3 else false
                    | "" => false
                    end
           | "" => false
           end
  end%string.

(** Postgres refuses a [text] parameter with a zero byte. *)
Definition pg_text (s : string) : bool :=
  forallb (λ c, negb (byte_is c 0)) (String.list_ascii_of_string s).

Example trim_is_empty_blank : trim_is_empty "  " = true ∧ trim_is_empty " a" = false.
Proof. by vm_compute. Qed.

Lemma string_length_app (x y : string) :
  String.length (x +:+ y) = (String.length x + String.length y)%nat.
Proof. induction x as [|c x IH]; simpl; [done|]. by f_equal. Qed.

Lemma string_app_inj_l (s x y : string) : s +:+ x = s +:+ y → x = y.
Proof. induction s as [|c s IH]; simpl; [done|]. intros [= ?]. auto. Qed.

Lemma string_app_inj_r (x y s : string) : x +:+ s = y +:+ s → x = y.
Proof.
  revert y. induction x as [|c x IH]; intros [|c' y] E; [done|..];
    try (apply (f_equal String.length) in E; rewrite !string_length_app in E; simpl in E; lia).
  injection E as -> E. f_equal. by apply IH.
Qed.

(** Rust orders strings bytewise. *)
Definition string_le (a b : string) : Prop := String.leb a b = true.
#[export] Instance string_le_dec : RelDecision string_le.
Proof. intros a b. unfold string_le. apply _. Defined.

Lemma string_compare_trans a b c :
  String.compare a b ≠ Gt → String.compare b c ≠ Gt → String.compare a c ≠ Gt.
Proof.
  revert b c. induction a as [|x a IH]; intros [|y b] [|z c]; simpl; try done.
  unfold Ascii.compare. intros H1 H2.
  destruct (N.compare_spec (N_of_ascii x) (N_of_ascii y)) as [E1|L1|L1]; [| |done];
    destruct (N.compare_spec (N_of_ascii y) (N_of_ascii z)) as [E2|L2|L2]; [| |done| | |done];
    destruct (N.compare_spec (N_of_ascii x) (N_of_ascii z)) as [E3|L3|L3]; try lia; try done.
  by apply (IH b).
Qed.

Lemma string_le_compare a b : string_le a b ↔ String.compare a b ≠ Gt.
Proof. unfold string_le, String.leb. destruct (String.compare a b); split; congruence. Qed.

#[export] Instance string_le_po : PartialOrder string_le.
Proof.
  split; [split|].
  - intros a. destruct (String.leb_total a a); done.
  - intros a b c. rewrite !string_le_compare. apply string_compare_trans.
  - intros a b. apply String.leb_antisym.
Qed.
#[export] Instance string_le_total : Total string_le.
Proof. intros a b. apply String.leb_total. Qed.

(** ** Tactics *)

(** Splits the conditions of a handler or a guard that evaluated to a known result. *)
Ltac split_guards :=
  repeat first
    [ progress simplify_eq/=
    | match goal with
      | H : context [match ?x with _ => _ end] |- _ => destruct x eqn:?
      end ].

(** Turns boolean comparisons on [Z] in the hypotheses into propositions. *)
Ltac zbool :=
  repeat match goal with
    | H : (_ <? _) = true |- _ => apply Z.ltb_lt in H
    | H : (_ <? _) = false |- _ => apply Z.ltb_ge in H
    | H : (_ <=? _) = true |- _ => apply Z.leb_le in H
    | H : (_ <=? _) = false |- _ => apply Z.leb_gt in H
    | H : (_ =? _) = true |- _ => apply Z.eqb_eq in H
    | H : (_ =? _) = false |- _ => apply Z.eqb_neq in H
    | H : _ && _ = true |- _ => apply andb_true_iff in H as [? ?]
    | H : _ || _ = false |- _ => apply orb_false_iff in H as [? ?]
    | H : negb _ = true |- _ => apply negb_true_iff in H
    | H : negb _ = false |- _ => apply negb_false_iff in H
    end.
