(* ===== verification/CircuitBreaker.v ===== *)
(** * Resilience: circuit breaker, retry, backoff, timeout, profiles

    Models [crates/foundation/resilience].  [CircuitBreaker] is the state machine
    and the Tower service around it, as an automaton whose steps are the pieces of
    the call future between two awaits, so that any interleaving of calls,
    cancellations and configuration swaps is a run of [step].  [Backoff] and
    [Retry] are the retry loop and its delays; [Timeout] and [Profile] the
    deadline service and the hot-swappable handles.  Times and durations are [Z]
    in nanoseconds for the breaker and milliseconds for the backoff. *)

From S2P Require Import Prelude.
Local Open Scope Z_scope.

(** Errors of the middleware, over the inner service's error type. *)
Inductive ResilienceError (E : Type) : Type :=
  | CircuitOpen
  | Timeout (d : Z)
  | MaxRetriesExhausted (n : Z)
  | Inner (e : E).
Arguments CircuitOpen {E}.
Arguments Timeout {E} d.
Arguments MaxRetriesExhausted {E} n.
Arguments Inner {E} e.

Module Breaker.

Inductive CircuitState := Closed | Open | HalfOpen.

#[export] Instance CircuitState_eq_dec : EqDecision CircuitState.
Proof. solve_decision. Defined.

Record CircuitBreakerConfig := {
  failure_threshold : Z;
  success_threshold : Z;
  open_duration : Z;
  half_open_max_calls : Z;
}.

Definition default_config : CircuitBreakerConfig := {|
  failure_threshold := 5;
  success_threshold := 2;
  open_duration := 30 * 1000000000;
  half_open_max_calls := 1;
|}.

(** The mutable part of the state machine, behind its mutex. *)
Record State := {
  state_ : CircuitState;
  open_since : option Z;
  consecutive_failures : Z;
  consecutive_successes : Z;
  half_open_inflight : Z;
}.

Definition new : State := {|
  state_ := Closed;
  open_since := None;
  consecutive_failures := 0;
  consecutive_successes := 0;
  half_open_inflight := 0;
|}.

(** [open_since.is_some_and(|since| since.elapsed() >= config.open_duration)];
    [Instant::elapsed] saturates at zero. *)
Definition cooled_down (now : Z) (config : CircuitBreakerConfig) (since : option Z) : bool :=
  match since with
  | Some t => open_duration config <=? saturating_sub now t
  | None => false
  end.

Definition state (now : Z) (config : CircuitBreakerConfig) (i : State) : State * CircuitState :=
  let i' :=
    if bool_decide (state_ i = Open) && cooled_down now config (open_since i)
    then {| state_ := HalfOpen; open_since := open_since i;
            consecutive_failures := 0; consecutive_successes := 0;
            half_open_inflight := half_open_inflight i |}
    else i in
  (i', state_ i').

Definition on_success (config : CircuitBreakerConfig) (i : State) : State :=
  let successes := u32_add (consecutive_successes i) 1 in
  if bool_decide (state_ i = HalfOpen) && (success_threshold config <=? successes)
  then {| state_ := Closed; open_since := open_since i;
          consecutive_failures := 0; consecutive_successes := successes;
          half_open_inflight := 0 |}
  else {| state_ := state_ i; open_since := open_since i;
          consecutive_failures := 0; consecutive_successes := successes;
          half_open_inflight := half_open_inflight i |}.

Definition on_failure (now : Z) (config : CircuitBreakerConfig) (i : State) : State :=
  let failures := u32_add (consecutive_failures i) 1 in
  let tripped := {| state_ := Open; open_since := Some now;
                    consecutive_failures := failures; consecutive_successes := 0;
                    half_open_inflight := 0 |} in
  let counted := {| state_ := state_ i; open_since := open_since i;
                    consecutive_failures := failures; consecutive_successes := 0;
                    half_open_inflight := half_open_inflight i |} in
  match state_ i with
  | Closed => if failure_threshold config <=? failures then tripped else counted
  | HalfOpen => tripped
  | Open => counted
  end.

Definition set_inflight (n : Z) (i : State) : State :=
  {| state_ := state_ i; open_since := open_since i;
     consecutive_failures := consecutive_failures i;
     consecutive_successes := consecutive_successes i;
     half_open_inflight := n |}.

Definition try_acquire_half_open_slot (config : CircuitBreakerConfig) (i : State) : State * bool :=
  if half_open_inflight i <? half_open_max_calls config
  then (set_inflight (u32_add (half_open_inflight i) 1) i, true)
  else (i, false).

Definition release_half_open_slot (i : State) : State :=
  set_inflight (saturating_sub (half_open_inflight i) 1) i.

(** ** The service's call future

    A [Phase] is where the future of one [call] is suspended; [call_step] runs it
    to its next await.  [reply] is what the inner service answers. *)

Section Call.
Context {Resp E : Type}.

Inductive Phase :=
  | AtGate
  | AtSlot
  | AtInner (was_half_open : bool)
  | AtRecord (was_half_open : bool) (r : result E Resp)
  | AtRelease (r : result E Resp)
  | Done (r : result (ResilienceError E) Resp).

Definition call_step (now : Z) (config : CircuitBreakerConfig) (reply : result E Resp)
    (ph : Phase) (i : State) : Phase * State :=
  match ph with
  | AtGate =>
      let (i', s) := state now config i in
      match s with
      | Open => (Done (Err CircuitOpen), i')
      | HalfOpen => (AtSlot, i')
      | Closed => (AtInner false, i')
      end
  | AtSlot =>
      let (i', admitted) := try_acquire_half_open_slot config i in
      if admitted then (AtInner true, i') else (Done (Err CircuitOpen), i')
  | AtInner was_half_open => (AtRecord was_half_open reply, i)
  | AtRecord was_half_open r =>
      let i' := match r with
                | Ok _ => on_success config i
                | Err _ => on_failure now config i
                end in
      if was_half_open then (AtRelease r, i') else (Done (map_err Inner r), i')
  | AtRelease r => (Done (map_err Inner r), release_half_open_slot i)
  | Done r => (Done r, i)
  end.

(** The whole call with nothing interleaved: five awaits at most. *)
Fixpoint run_phases (fuel : nat) now config reply ph i : Phase * State :=
  match fuel with
  | O => (ph, i)
  | S fuel => let '(ph', i') := call_step now config reply ph i in
              run_phases fuel now config reply ph' i'
  end.

Definition call (now : Z) (config : CircuitBreakerConfig) (reply : result E Resp)
    (i : State) : Phase * State :=
  run_phases 5 now config reply AtGate i.

(** Calls made one after the other, each at its own time with its own reply. *)
Fixpoint calls config (l : list (Z * result E Resp)) (i : State) : list Phase * State :=
  match l with
  | [] => ([], i)
  | (now, reply) :: l =>
      let '(ph, i') := call now config reply i in
      let '(phs, i'') := calls config l i' in
      (ph :: phs, i'')
  end.

(** ** Concurrent calls on one shared breaker *)

Record System := {
  breaker : State;
  clock : Z;
  tasks : gmap nat Phase;
}.

Definition init : System := {| breaker := new; clock := 0; tasks := ∅ |}.

(** [ok_config] says which configurations the control plane ever stores; every
    operation samples one of them.  [cancel] allows dropping a call future at an
    await, as a caller that times out or disconnects does. *)
Inductive step (ok_config : CircuitBreakerConfig → Prop) (cancel : bool) :
    System → System → Prop :=
  | step_tick s t :
      clock s ≤ t →
      step ok_config cancel s {| breaker := breaker s; clock := t; tasks := tasks s |}
  | step_spawn s id :
      tasks s !! id = None →
      step ok_config cancel s
        {| breaker := breaker s; clock := clock s; tasks := <[id := AtGate]> (tasks s) |}
  | step_task s id ph config reply :
      tasks s !! id = Some ph →
      ok_config config →
      step ok_config cancel s
        {| breaker := (call_step (clock s) config reply ph (breaker s)).2;
           clock := clock s;
           tasks := <[id := (call_step (clock s) config reply ph (breaker s)).1]> (tasks s) |}
  | step_cancel s id :
      cancel = true →
      step ok_config cancel s
        {| breaker := breaker s; clock := clock s; tasks := delete id (tasks s) |}.

(** The same steps as an executable script. *)
Inductive Event :=
  | Tick (t : Z)
  | Spawn (id : nat)
  | Run (id : nat) (reply : result E Resp)
  | Cancel (id : nat).

Definition exec_event (config : CircuitBreakerConfig) (e : Event) (s : System) : option System :=
  match e with
  | Tick t =>
      if clock s <=? t
      then Some {| breaker := breaker s; clock := t; tasks := tasks s |} else None
  | Spawn id =>
      match tasks s !! id with
      | None => Some {| breaker := breaker s; clock := clock s;
                        tasks := <[id := AtGate]> (tasks s) |}
      | Some _ => None
      end
  | Run id reply =>
      match tasks s !! id with
      | Some ph =>
          let '(ph', i') := call_step (clock s) config reply ph (breaker s) in
          Some {| breaker := i'; clock := clock s; tasks := <[id := ph']> (tasks s) |}
      | None => None
      end
  | Cancel id =>
      Some {| breaker := breaker s; clock := clock s; tasks := delete id (tasks s) |}
  end.

Fixpoint exec config (es : list Event) (s : System) : option System :=
  match es with
  | [] => Some s
  | e :: es => exec_event config e s ≫= exec config es
  end.

(** A phase that holds a probe slot. *)
Definition holds (ph : Phase) : bool :=
  match ph with
  | AtInner true | AtRecord true _ | AtRelease _ => true
  | _ => false
  end.

(** A phase between the gate and the end of the call. *)
Definition past_gate (ph : Phase) : bool :=
  match ph with
  | AtGate | Done _ => false
  | _ => true
  end.

Definition holders (s : System) : nat :=
  count_if holds (tasks s).

End Call.

Arguments state : simpl never.
Arguments on_success : simpl never.
Arguments on_failure : simpl never.
Arguments try_acquire_half_open_slot : simpl never.
Arguments release_half_open_slot : simpl never.

(** ** Lemmas *)

Section Lemmas.
Context {Resp E : Type}.
Implicit Types (s : System (Resp:=Resp) (E:=E)) (ph : Phase (Resp:=Resp) (E:=E)).

Lemma state_fst now c i :
  (state now c i).1 = i ∨
  state_ i = Open ∧ cooled_down now c (open_since i) = true ∧
  state_ (state now c i).1 = HalfOpen ∧
  open_since (state now c i).1 = open_since i ∧
  half_open_inflight (state now c i).1 = half_open_inflight i.
Proof.
  unfold state. case_bool_decide as Hs; simpl; [|by left].
  destruct (cooled_down _ _ _) eqn:Hc; simpl; [right|left]; auto.
Qed.

Lemma state_snd now c i : (state now c i).2 = state_ (state now c i).1.
Proof. done. Qed.

Lemma clock_mono ok cancel s s' :
  star (step ok cancel) s s' → clock s ≤ clock s'.
Proof. induction 1 as [|s1 s2 s3 Hstep _ IH]; [lia|]. destruct Hstep; simpl in *; lia. Qed.

(** Outside a trip or a close, the slot counter follows the holders. *)
Lemma call_step_inflight now c reply ph i :
  half_open_max_calls c ≤ u32_max → 0 ≤ half_open_inflight i →
  let '(ph', i') := call_step now c reply ph i in
  0 ≤ half_open_inflight i' ∧
  (half_open_inflight i' ≤
     Z.max 0 (half_open_inflight i
              + (if holds ph' then 1 else 0) - (if holds ph then 1 else 0))) ∧
  (half_open_inflight i ≤ half_open_max_calls c →
   half_open_inflight i' ≤ half_open_max_calls c).
Proof.
  intros Hmax Hi. destruct ph as [| |w|w r|r|r]; cbn [call_step].
  - pose proof (state_fst now c i) as Hst. destruct (state now c i) as [i' cs]; simpl in *.
    assert (half_open_inflight i' = half_open_inflight i)
      by (destruct Hst as [->|(?&?&?&?&?)]; congruence).
    destruct cs; simpl; lia.
  - unfold try_acquire_half_open_slot. destruct (_ <? _) eqn:Hlt; zbool; simpl; [|lia].
    rewrite u32_add_small by lia. lia.
  - destruct w; simpl; lia.
  - destruct r; unfold on_success, on_failure; destruct w, (state_ i); simpl;
      repeat (case_match; simpl); lia.
  - unfold release_half_open_slot, saturating_sub. simpl. lia.
  - lia.
Qed.

Lemma holders_step ok s s' :
  (∀ c, ok c → 0 ≤ half_open_max_calls c ≤ u32_max) →
  step ok false s s' →
  0 ≤ half_open_inflight (breaker s) ≤ Z.of_nat (holders s) →
  0 ≤ half_open_inflight (breaker s') ≤ Z.of_nat (holders s').
Proof.
  intros Hok Hstep [Hlo Hhi].
  destruct Hstep as [s t Ht|s id Hid|s id ph c reply Hid Hc|]; unfold holders in *; simpl in *.
  - done.
  - rewrite count_if_insert_None by done. simpl. lia.
  - pose proof (call_step_inflight (clock s) c reply ph (breaker s)
      (proj2 (Hok c Hc)) Hlo) as Hcs.
    destruct (call_step _ _ _ _ _) as [ph' i']; simpl in *.
    pose proof (count_if_update holds (tasks s) id ph ph' Hid).
    assert ((if holds ph then 1 else 0) ≤ count_if holds (tasks s))%nat.
    { destruct (holds ph) eqn:Hp; [by eapply count_if_pos|lia]. }
    destruct (holds ph), (holds ph'); lia.
  - done.
Qed.

(** A wedged breaker: half-open, every slot taken, and nobody left to give one back. *)
Definition wedged (ok : CircuitBreakerConfig → Prop) s : Prop :=
  state_ (breaker s) = HalfOpen ∧
  (∀ c, ok c → half_open_max_calls c ≤ half_open_inflight (breaker s)) ∧
  (∀ id ph, tasks s !! id = Some ph →
     match ph with
     | AtGate | AtSlot => True
     | Done r => r = Err CircuitOpen
     | _ => False
     end).

Lemma wedged_step ok cancel s s' : step ok cancel s s' → wedged ok s → wedged ok s'.
Proof.
  intros Hstep (Hst & Hmax & Htasks).
  destruct Hstep as [s t Ht|s id Hid|s id ph c reply Hid Hc|s id]; unfold wedged; simpl in *.
  - done.
  - split_and!; [done..|]. intros id' ph. rewrite lookup_insert. case_decide; naive_solver.
  - specialize (Htasks id ph Hid) as Hph.
    assert (Hcall : (call_step (clock s) c reply ph (breaker s)).2 = breaker s ∧
      match (call_step (clock s) c reply ph (breaker s)).1 with
      | AtGate | AtSlot => True | Done r => r = Err CircuitOpen | _ => False end).
    { destruct ph as [| | | | |]; try done; cbn [call_step].
      - unfold state. rewrite Hst, bool_decide_eq_false_2 by done. simpl. by rewrite Hst.
      - unfold try_acquire_half_open_slot. specialize (Hmax c Hc).
        by rewrite (proj2 (Z.ltb_ge _ _) Hmax). }
    destruct Hcall as [-> Hph']. split_and!; [done..|].
    intros id' ph'. rewrite lookup_insert. case_decide; naive_solver.
  - split_and!; [done..|]. intros id' ph. rewrite lookup_delete. case_decide; naive_solver.
Qed.

(** While the cooldown has not elapsed, an open breaker stays open since the same
    instant and lets nobody new past the gate. *)
Lemma open_step ok cancel d since s s' :
  (∀ c, ok c → d ≤ open_duration c) →
  step ok cancel s s' →
  state_ (breaker s) = Open → open_since (breaker s) = Some since →
  clock s < since + d → since ≤ clock s →
  state_ (breaker s') = Open ∧ open_since (breaker s') = Some since ∧
  (∀ id ph', tasks s' !! id = Some ph' → past_gate ph' = true →
     ∃ ph, tasks s !! id = Some ph ∧ past_gate ph = true).
Proof.
  intros Hd Hstep Hst Hsince Hclock Hle.
  destruct Hstep as [s t Ht|s id Hid|s id ph c reply Hid Hc|s id]; simpl in *.
  - naive_solver.
  - split_and!; [done..|]. intros id' ph'. rewrite lookup_insert. case_decide; naive_solver.
  - assert (Hcall : state_ (call_step (clock s) c reply ph (breaker s)).2 = Open ∧
      open_since (call_step (clock s) c reply ph (breaker s)).2 = Some since ∧
      (past_gate (call_step (clock s) c reply ph (breaker s)).1 = true → past_gate ph = true)).
    { specialize (Hd c Hc). destruct ph as [| |w|w r|r|r]; simpl; try done.
      - unfold state, cooled_down. rewrite Hst, Hsince, bool_decide_eq_true_2 by done.
        rewrite (proj2 (Z.leb_gt _ _)) by (unfold saturating_sub; lia). simpl.
        rewrite Hst. done.
      - unfold try_acquire_half_open_slot. destruct (_ <? _); simpl; done.
      - destruct r; simpl; unfold on_success, on_failure; rewrite Hst; simpl;
          destruct w; simpl; done. }
    destruct Hcall as (? & ? & Hph'). split_and!; [done..|].
    intros id' ph'. rewrite lookup_insert. case_decide; naive_solver.
  - split_and!; [done..|]. intros id' ph. rewrite lookup_delete. case_decide; naive_solver.
Qed.

(** The streak bound that keeps a closed breaker closed. *)
Lemma closed_step ok cancel F s s' :
  1 ≤ F ≤ u32_max → (∀ c, ok c → failure_threshold c = F) →
  step ok cancel s s' →
  (state_ (breaker s) = Closed → 0 ≤ consecutive_failures (breaker s) < F) →
  (state_ (breaker s') = Closed → 0 ≤ consecutive_failures (breaker s') < F).
Proof.
  intros HF Hok Hstep IH.
  destruct Hstep as [s t Ht|s id Hid|s id ph c reply Hid Hc|s id]; simpl in *; [done..| |done].
  specialize (Hok c Hc). destruct ph as [| |w|w r|r|r]; cbn [call_step]; try done.
  - pose proof (state_fst (clock s) c (breaker s)) as Hst.
    destruct (state _ _ _) as [i' cs]; simpl in *.
    destruct Hst as [->|(?&?&?&?&?)]; destruct cs; simpl; auto; congruence.
  - unfold try_acquire_half_open_slot. destruct (_ <? _); simpl; done.
  - assert (Hrec : state_ (match r with Ok _ => on_success c (breaker s)
        | Err _ => on_failure (clock s) c (breaker s) end) = Closed →
      0 ≤ consecutive_failures (match r with Ok _ => on_success c (breaker s)
        | Err _ => on_failure (clock s) c (breaker s) end) < F).
    { destruct r; simpl; [unfold on_success; case_match; simpl; lia|].
      unfold on_failure. destruct (state_ (breaker s)) eqn:Hs; simpl; try done.
      specialize (IH eq_refl).
      rewrite u32_add_small by (unfold u32_max in *; lia).
      rewrite Hok. case_match; simpl; try done. zbool. lia. }
    destruct w; done.
Qed.

Definition drops (e : Event (Resp:=Resp) (E:=E)) : bool :=
  match e with Cancel _ => true | _ => false end.

Lemma exec_event_step config cancel e s s' :
  implb (drops e) cancel = true →
  exec_event config e s = Some s' → step (eq config) cancel s s'.
Proof.
  intros Hcan Hev. destruct e as [t|id|id reply|id]; simpl in Hev.
  - case_match; simplify_eq. apply step_tick. by apply Z.leb_le.
  - case_match; simplify_eq. by apply step_spawn.
  - destruct (tasks s !! id) as [ph|] eqn:Hid; [|done].
    destruct (call_step _ _ _ _ _) as [ph' i'] eqn:Hc. simplify_eq.
    pose proof (step_task (eq config) cancel s id ph config reply Hid eq_refl) as Hs.
    by rewrite Hc in Hs.
  - simplify_eq. by apply step_cancel.
Qed.

(** A script that drops no call is a run without cancellation. *)
Lemma exec_star config cancel es s s' :
  forallb (λ e, implb (drops e) cancel) es = true →
  exec config es s = Some s' → star (step (eq config) cancel) s s'.
Proof.
  revert s. induction es as [|e es IH]; intros s Hcan He; simpl in Hcan, He.
  { simplify_eq. apply star_refl. }
  apply andb_true_iff in Hcan as [Hc Hcan].
  apply bind_Some in He as (s1 & Hev & He). apply star_step with s1; [|by apply IH].
  by eapply exec_event_step.
Qed.

(** The steps of a run that leave the breaker half-open. *)
Definition probing (ok : CircuitBreakerConfig → Prop) s s' : Prop :=
  step ok false s s' ∧ state_ (breaker s') = HalfOpen.

Fixpoint exec_probing config (es : list (Event (Resp:=Resp) (E:=E))) s : option System :=
  match es with
  | [] => Some s
  | e :: es =>
      s' ← exec_event config e s;
      if bool_decide (state_ (breaker s') = HalfOpen) then exec_probing config es s' else None
  end.

Lemma exec_probing_star config es s s' :
  forallb (λ e, implb (drops e) false) es = true →
  exec_probing config es s = Some s' → star (probing (eq config)) s s'.
Proof.
  revert s. induction es as [|e es IH]; intros s Hcan He; simpl in Hcan, He.
  { simplify_eq. apply star_refl. }
  apply andb_true_iff in Hcan as [Hc Hcan].
  apply bind_Some in He as (s1 & Hev & He). case_bool_decide as Hh; [|done].
  apply star_step with s1; [|by apply IH]. split; [by eapply exec_event_step|done].
Qed.

(** While the breaker stays half-open, the slot counter moves exactly with the holders. *)
Lemma call_step_probing now c reply ph i :
  half_open_max_calls c ≤ u32_max → 0 ≤ half_open_inflight i →
  (holds ph = true → 1 ≤ half_open_inflight i) → state_ i = HalfOpen →
  let '(ph', i') := call_step now c reply ph i in
  state_ i' = HalfOpen →
  half_open_inflight i' =
    half_open_inflight i + (if holds ph' then 1 else 0) - (if holds ph then 1 else 0) ∧
  (holds ph = false → holds ph' = true → half_open_inflight i < half_open_max_calls c).
Proof.
  intros Hmax Hi Hpos Hst. destruct ph as [| |w|w r|r|r]; cbn [call_step].
  - unfold state. rewrite Hst, bool_decide_eq_false_2 by done. simpl. rewrite Hst. simpl.
    split; [lia|done].
  - unfold try_acquire_half_open_slot. destruct (_ <? _) eqn:Hlt; zbool; simpl; intros _.
    + rewrite u32_add_small by lia. split; [lia|done].
    + split; [lia|done].
  - destruct w; simpl; split; (done || lia).
  - destruct r; unfold on_success, on_failure; rewrite Hst; destruct w; simpl;
      repeat (case_match; simpl); try done; split; (done || lia).
  - unfold release_half_open_slot, saturating_sub. simpl in *. specialize (Hpos eq_refl).
    split; [lia|done].
  - simpl. split; [lia|done].
Qed.

Lemma probing_step ok s s' :
  (∀ c, ok c → 0 ≤ half_open_max_calls c ≤ u32_max) →
  probing ok s s' → state_ (breaker s) = HalfOpen →
  half_open_inflight (breaker s) = Z.of_nat (holders s) →
  half_open_inflight (breaker s') = Z.of_nat (holders s') ∧
  ∀ M, (∀ c, ok c → half_open_max_calls c ≤ M) →
    Z.of_nat (holders s) ≤ M → Z.of_nat (holders s') ≤ M.
Proof.
  intros Hok [Hstep Hst'] Hst Heq.
  destruct Hstep as [s t Ht|s id Hid|s id ph c reply Hid Hc|]; unfold holders in *; simpl in *.
  - done.
  - by rewrite count_if_insert_None.
  - pose proof (call_step_probing (clock s) c reply ph (breaker s)
      (proj2 (Hok c Hc)) ltac:(lia)) as Hcs.
    assert (Hpos : (if holds ph then 1 else 0) ≤ Z.of_nat (count_if holds (tasks s))).
    { destruct (holds ph) eqn:Hp; [|lia].
      pose proof (count_if_pos holds (tasks s) id ph Hid Hp). lia. }
    destruct (call_step _ _ _ _ _) as [ph' i']; simpl in *.
    destruct Hcs as [Hi Hlt]; [by destruct (holds ph); lia|done|done|].
    pose proof (count_if_update holds (tasks s) id ph ph' Hid).
    split; [destruct (holds ph), (holds ph'); lia|]. intros M HM Hle. specialize (HM c Hc).
    destruct (holds ph), (holds ph'); try specialize (Hlt eq_refl eq_refl); lia.
  - done.
Qed.

(** One uninterrupted call, by the state it finds. *)
Lemma call_closed now c (reply : result E Resp) i :
  state_ i = Closed →
  call now c reply i =
    (Done (map_err Inner reply),
     match reply with Ok _ => on_success c i | Err _ => on_failure now c i end).
Proof.
  intros Hs. unfold call, run_phases; cbn [call_step]. unfold state.
  rewrite Hs, bool_decide_eq_false_2 by done. cbn [andb fst snd]. rewrite Hs.
  cbn [call_step]. destruct reply; reflexivity.
Qed.

Lemma call_open now c (reply : result E Resp) i :
  state_ i = Open → cooled_down now c (open_since i) = false →
  call now c reply i = (Done (Err CircuitOpen), i).
Proof.
  intros Hs Hc. unfold call, run_phases; cbn [call_step]. unfold state.
  rewrite Hs, Hc, bool_decide_eq_true_2 by done. cbn [andb fst snd]. rewrite Hs.
  reflexivity.
Qed.

(** A probe that finds the breaker half-open with a free slot and succeeds. *)
Definition halfopen_keep (i : State) (successes : Z) : State :=
  {| state_ := HalfOpen; open_since := open_since i; consecutive_failures := 0;
     consecutive_successes := successes; half_open_inflight := 0 |}.
Definition halfopen_close (i : State) (successes : Z) : State :=
  {| state_ := Closed; open_since := open_since i; consecutive_failures := 0;
     consecutive_successes := successes; half_open_inflight := 0 |}.

Lemma probe_succeeds now c (v : Resp) (i : State) :
  state_ i = HalfOpen → half_open_inflight i = 0 → 1 ≤ half_open_max_calls c →
  0 ≤ consecutive_successes i < u32_max →
  run_phases 4 now c (Ok v : result E Resp) AtSlot i =
    (Done (Ok v),
     if success_threshold c <=? consecutive_successes i + 1
     then halfopen_close i (consecutive_successes i + 1)
     else halfopen_keep i (consecutive_successes i + 1)).
Proof.
  intros Hs Hi HM Hc. unfold run_phases; cbn [call_step].
  unfold try_acquire_half_open_slot. rewrite Hi, (proj2 (Z.ltb_lt _ _)) by lia.
  cbn [call_step]. unfold on_success. simpl. rewrite Hs, bool_decide_eq_true_2 by done.
  rewrite u32_add_small by lia. rewrite andb_true_l.
  destruct (_ <=? _); reflexivity.
Qed.

Lemma call_half_open now c (v : Resp) (i : State) :
  state_ i = HalfOpen → half_open_inflight i = 0 → 1 ≤ half_open_max_calls c →
  0 ≤ consecutive_successes i < u32_max →
  call now c (Ok v : result E Resp) i =
    (Done (Ok v),
     if success_threshold c <=? consecutive_successes i + 1
     then halfopen_close i (consecutive_successes i + 1)
     else halfopen_keep i (consecutive_successes i + 1)).
Proof.
  intros Hs Hi HM Hc. rewrite <- (probe_succeeds now c v i) by done.
  unfold call. cbn [run_phases call_step]. unfold state.
  rewrite Hs, bool_decide_eq_false_2 by done. cbn [andb]. by rewrite Hs.
Qed.

Lemma call_cooled now c (v : Resp) (i : State) :
  state_ i = Open → cooled_down now c (open_since i) = true →
  half_open_inflight i = 0 → 1 ≤ half_open_max_calls c →
  call now c (Ok v : result E Resp) i =
    (Done (Ok v),
     if success_threshold c <=? 1 then halfopen_close i 1 else halfopen_keep i 1).
Proof.
  intros Hs Hc Hi HM. pose proof (probe_succeeds now c v (halfopen_keep i 0)) as Hp.
  simpl in Hp. unfold call. cbn [run_phases call_step]. unfold state.
  rewrite Hs, Hc, bool_decide_eq_true_2, Hi by done. cbn [andb state_].
  cbn [run_phases] in Hp. apply Hp; (done || unfold u32_max; lia).
Qed.

Lemma calls_succeed_closed c now (v : Resp) n i :
  state_ i = Closed →
  (calls (E:=E) c (replicate n (now, Ok v)) i).1 = replicate n (Done (Ok v)) ∧
  state_ (calls (E:=E) c (replicate n (now, Ok v)) i).2 = Closed.
Proof.
  revert i. induction n as [|n IH]; intros i Hs; [done|]. cbn [replicate calls].
  rewrite call_closed by done.
  assert (Hs' : state_ (on_success c i) = Closed).
  { unfold on_success. rewrite Hs, bool_decide_eq_false_2 by done. done. }
  destruct (IH _ Hs') as [Hp Hst]. destruct (calls c _ _); simpl in *. by rewrite Hp.
Qed.

Lemma calls_half_open c now (v : Resp) n i :
  1 ≤ success_threshold c ≤ u32_max → 1 ≤ half_open_max_calls c ≤ u32_max →
  state_ i = HalfOpen → half_open_inflight i = 0 →
  0 ≤ consecutive_successes i < success_threshold c →
  (calls (E:=E) c (replicate n (now, Ok v)) i).1 = replicate n (Done (Ok v)) ∧
  state_ (calls (E:=E) c (replicate n (now, Ok v)) i).2 =
    if decide (consecutive_successes i + Z.of_nat n < success_threshold c)
    then HalfOpen else Closed.
Proof.
  intros HS HM. revert i. induction n as [|n IH]; intros i Hs Hi Hc.
  { simpl. rewrite decide_True by lia. done. }
  cbn [replicate calls]. rewrite call_half_open by (done || lia).
  destruct (Z.leb_spec (success_threshold c) (consecutive_successes i + 1)) as [H1|H1].
  - destruct (calls_succeed_closed c now v n
      (halfopen_close i (consecutive_successes i + 1)) eq_refl) as [Hp Hst].
    destruct (calls c _ _); simpl in *. rewrite Hp, Hst.
    rewrite decide_False by lia. done.
  - destruct (IH (halfopen_keep i (consecutive_successes i + 1)) eq_refl eq_refl)
      as [Hp Hst]; [simpl; lia|].
    destruct (calls c _ _); simpl in *. rewrite Hp, Hst. split; [done|].
    repeat case_decide; (done || lia).
Qed.

(** Failing calls against an open and against a closed breaker. *)
Lemma calls_open c now (e : E) m i :
  0 < open_duration c → state_ i = Open → open_since i = Some now →
  (calls (Resp:=Resp) c (replicate m (now, Err e)) i).1 =
    replicate m (Done (Err CircuitOpen)).
Proof.
  intros Hd. revert i. induction m as [|m IH]; intros i Hs Ho; simpl; [done|].
  rewrite call_open; [|done|].
  - pose proof (IH i Hs Ho). destruct (calls c _ i); simpl in *. by f_equal.
  - rewrite Ho. simpl. apply Z.leb_gt. unfold saturating_sub. lia.
Qed.

Lemma calls_closed c now (e : E) m i :
  0 < open_duration c → failure_threshold c ≤ u32_max →
  state_ i = Closed → 0 ≤ consecutive_failures i < failure_threshold c →
  (calls (Resp:=Resp) c (replicate m (now, Err e)) i).1 =
    replicate (m `min` Z.to_nat (failure_threshold c - consecutive_failures i))
      (Done (Err (Inner e))) ++
    replicate (m - Z.to_nat (failure_threshold c - consecutive_failures i))
      (Done (Err CircuitOpen)).
Proof.
  intros Hd HF. revert i. induction m as [|m IH]; intros i Hs Hf; simpl; [done|].
  rewrite call_closed by done. simpl. unfold on_failure. rewrite Hs.
  rewrite u32_add_small by lia.
  destruct (Z.to_nat (failure_threshold c - consecutive_failures i)) as [|k] eqn:Hk; [lia|].
  destruct (_ <=? _) eqn:Hle; zbool.
  - match goal with |- context [calls c _ ?i'] =>
      pose proof (calls_open c now e m i' Hd eq_refl eq_refl); destruct (calls c _ i') end.
    simpl in *. replace k with O by lia. rewrite Nat.min_0_r, Nat.sub_0_r. simpl. by f_equal.
  - match goal with |- context [calls c _ ?i'] =>
      pose proof (IH i' eq_refl) as IH'; destruct (calls c _ i') end.
    simpl in *. rewrite IH' by lia. f_equal.
    replace (Z.to_nat (failure_threshold c - (consecutive_failures i + 1))) with k by lia.
    done.
Qed.

(** Five failing calls trip the default breaker; after the cooldown one probe takes
    the slot and is dropped. *)
Definition leak_script (e : E) : list (Event (Resp:=Resp) (E:=E)) :=
  concat (map (λ id, [Spawn id; Run id (Err e); Run id (Err e); Run id (Err e); Cancel id])
    [0; 1; 2; 3; 4]%nat) ++
  [Tick (30 * 1000000000); Spawn 5; Run 5 (Err e); Run 5 (Err e); Cancel 5].
End Lemmas.

(** ** Properties *)

Section Properties.
Context {Resp E : Type}.

(** C4. Probe-slot accounting.  However calls interleave and whatever
    configurations are swapped in, as long as no call future is dropped the slot
    counter never exceeds the number of calls that hold a slot; so once those calls
    have returned, the next probe is admitted.  And from any point where the breaker
    is half-open and the counter equals the number of holders (as when it turns
    half-open with no probe left over from an earlier trial), the two stay equal for
    as long as the breaker stays half-open: every probe is counted, every one that
    ends is given back, and no more of them run at once than a configuration allows. *)
Theorem half_open_slots_are_returned (ok : CircuitBreakerConfig → Prop)
    (s : System (Resp:=Resp) (E:=E)) :
  (∀ c, ok c → 1 ≤ half_open_max_calls c ≤ u32_max) →
  star (step ok false) init s →
  0 ≤ half_open_inflight (breaker s) ≤ Z.of_nat (holders s) ∧
  (holders s = 0%nat → ∀ c, ok c → (try_acquire_half_open_slot c (breaker s)).2 = true) ∧
  (∀ s', state_ (breaker s) = HalfOpen → star (probing ok) s s' →
     half_open_inflight (breaker s) = Z.of_nat (holders s) →
     half_open_inflight (breaker s') = Z.of_nat (holders s') ∧
     ∀ M, (∀ c, ok c → half_open_max_calls c ≤ M) →
       Z.of_nat (holders s) ≤ M → Z.of_nat (holders s') ≤ M).
Proof.
  intros Hok Hstar.
  assert (Hok' : ∀ c, ok c → 0 ≤ half_open_max_calls c ≤ u32_max)
    by (intros c Hc; specialize (Hok c Hc); lia).
  assert (Hinv : 0 ≤ half_open_inflight (breaker s) ≤ Z.of_nat (holders s)).
  { revert Hstar. apply (star_invariant (step ok false)
      (λ s, 0 ≤ half_open_inflight (breaker s) ≤ Z.of_nat (holders s))).
    - unfold holders. simpl. rewrite count_if_zero; [lia|].
      intros k v. by rewrite lookup_empty.
    - intros s1 s2 Hst. by apply (holders_step ok s1 s2). }
  split_and!; [apply Hinv..| |].
  - intros Hz c Hc. specialize (Hok c Hc). rewrite Hz in Hinv.
    unfold try_acquire_half_open_slot. by rewrite (proj2 (Z.ltb_lt _ _)) by lia.
  - clear Hinv Hstar. intros s' Hst Hrun.
    induction Hrun as [s|s1 s2 s3 H12 _ IH]; intros Heq; [auto|].
    destruct (probing_step _ _ _ Hok' H12 Hst Heq) as [Heq' HM'].
    destruct (IH (proj2 H12) Heq') as [Heq'' HM'']. split; [done|]. auto.
Qed.

(** A closed breaker is below its trip threshold.  In every reachable state,
    with calls interleaved and cancelled at will, a breaker that is closed has seen
    fewer consecutive failures than the configured threshold. *)
Theorem closed_is_below_failure_threshold (ok : CircuitBreakerConfig → Prop) (F : Z)
    (cancel : bool) (s : System (Resp:=Resp) (E:=E)) :
  1 ≤ F ≤ u32_max → (∀ c, ok c → failure_threshold c = F) →
  star (step ok cancel) init s →
  state_ (breaker s) = Closed → 0 ≤ consecutive_failures (breaker s) < F.
Proof.
  intros HF Hok Hstar. revert Hstar.
  apply (star_invariant (step ok cancel)
    (λ s, state_ (breaker s) = Closed → 0 ≤ consecutive_failures (breaker s) < F)).
  - simpl. lia.
  - intros s1 s2 Hst. by apply (closed_step ok cancel F s1 s2).
Qed.

(** The cooldown is respected.  While less than every configured open duration
    has passed since the breaker opened, it stays open since that same instant, and
    every call that is past the gate then was already past it when it opened: no
    new request reaches the inner service. *)
Theorem open_rejects_until_cooldown (ok : CircuitBreakerConfig → Prop) (cancel : bool)
    (d since : Z) (s s' : System (Resp:=Resp) (E:=E)) :
  (∀ c, ok c → d ≤ open_duration c) →
  star (step ok cancel) s s' →
  state_ (breaker s) = Open → open_since (breaker s) = Some since → since ≤ clock s →
  clock s' < since + d →
  state_ (breaker s') = Open ∧ open_since (breaker s') = Some since ∧
  (∀ id ph', tasks s' !! id = Some ph' → past_gate ph' = true →
     ∃ ph, tasks s !! id = Some ph ∧ past_gate ph = true).
Proof.
  intros Hd Hstar. induction Hstar as [s|s1 s2 s3 Hst Hstar IH];
    intros Hopen Hsince Hle Hlt; [naive_solver|].
  pose proof (clock_mono _ _ _ _ Hstar) as Hm.
  assert (clock s1 ≤ clock s2) by (destruct Hst; simpl; lia).
  destruct (open_step ok cancel d since s1 s2) as (Ho2 & Hs2 & Hp2); [done..|lia|done|].
  destruct IH as (? & ? & Hp3); [done|done|lia|done|].
  split_and!; [done..|]. intros id ph' Hid Hph.
  destruct (Hp3 id ph' Hid Hph) as (ph & ? & ?). by eapply Hp2.
Qed.

(** The breaker trips after exactly [F] consecutive failures.  Failing calls
    made one after the other on a fresh breaker reach the inner service [F] times;
    every later one is rejected with [CircuitOpen] until the cooldown elapses. *)
Theorem trips_after_failure_threshold (c : CircuitBreakerConfig) (now : Z) (e : E) (n : nat) :
  1 ≤ failure_threshold c ≤ u32_max → 0 < open_duration c →
  (calls (Resp:=Resp) c (replicate n (now, Err e)) new).1 =
    replicate (n `min` Z.to_nat (failure_threshold c)) (Done (Err (Inner e))) ++
    replicate (n - Z.to_nat (failure_threshold c)) (Done (Err CircuitOpen)).
Proof.
  intros HF Hd. rewrite calls_closed by (simpl; try lia; done). simpl. by rewrite Z.sub_0_r.
Qed.

(** Recovery.  Successful calls made one after the other on an open breaker
    whose cooldown has elapsed are all let through, and the breaker closes with the
    [success_threshold]-th of them, not before. *)
Theorem recovers_after_success_threshold (c : CircuitBreakerConfig) (now : Z) (v : Resp)
    (n : nat) (i : State) :
  1 ≤ success_threshold c ≤ u32_max → 1 ≤ half_open_max_calls c ≤ u32_max →
  state_ i = Open → cooled_down now c (open_since i) = true → half_open_inflight i = 0 →
  (calls (E:=E) c (replicate n (now, Ok v)) i).1 = replicate n (Done (Ok v)) ∧
  state_ (calls (E:=E) c (replicate n (now, Ok v)) i).2 =
    if decide (n = 0%nat) then Open
    else if decide (Z.of_nat n < success_threshold c) then HalfOpen else Closed.
Proof.
  intros HS HM Hs Hc Hi. destruct n as [|n]; [done|]. cbn [replicate calls].
  rewrite call_cooled by (done || lia).
  destruct (Z.leb_spec (success_threshold c) 1) as [H1|H1].
  - destruct (calls_succeed_closed (E:=E) c now v n (halfopen_close i 1) eq_refl) as [Hp Hst].
    destruct (calls c _ _); simpl in *. subst. split; [done|].
    rewrite decide_False by lia. done.
  - destruct (calls_half_open (E:=E) c now v n (halfopen_keep i 1)) as [Hp Hst];
      [done|done|done|done|simpl; lia|].
    destruct (calls c _ _); simpl in *. subst. split; [done|].
    rewrite Hst. repeat case_decide; (done || lia).
Qed.

(** A dropped probe wedges the breaker.  With the default configuration a run
    exists in which a probe's future is dropped while it holds the only slot; from
    the state it leaves, with no call in flight, every call of every continuation
    is rejected with [CircuitOpen]: the breaker never closes again. *)
Theorem dropped_probe_wedges_breaker (e : E) :
  ∃ s : System (Resp:=Resp) (E:=E),
    star (step (eq default_config) true) init s ∧ tasks s = ∅ ∧
    state_ (breaker s) = HalfOpen ∧
    ∀ s' id r, star (step (eq default_config) true) s s' →
      state_ (breaker s') = HalfOpen ∧
      (tasks s' !! id = Some (Done r) → r = Err CircuitOpen).
Proof.
  assert (Hs : ∃ s, exec (Resp:=Resp) default_config (leak_script e) init = Some s ∧
    tasks s = ∅ ∧ state_ (breaker s) = HalfOpen ∧ half_open_inflight (breaker s) = 1).
  { eexists. split_and!; vm_compute; reflexivity. }
  destruct Hs as (s & He & Ht & Hst & Hin). exists s.
  split_and!; [by apply (exec_star _ true) in He|done|done|].
  intros s' id r Hstar.
  assert (Hw : wedged (eq default_config) s').
  { revert Hstar. apply (star_invariant _ (wedged (eq default_config))).
    - split_and!; [done|intros c <-; simpl; lia|]. intros ??. by rewrite Ht, lookup_empty.
    - intros ??. apply wedged_step. }
  destruct Hw as (? & _ & Hw). split; [done|]. intros Hid. apply (Hw _ _ Hid).
Qed.
End Properties.

(** ** Witnesses *)

(** Five failures trip the breaker; thirty seconds later a call finds it half-open, and a
    second one takes the only slot while a third is turned away. *)
Definition trip_script : list (Event (Resp:=unit) (E:=unit)) :=
  concat (map (λ id, [Spawn id; Run id (Err tt); Run id (Err tt); Run id (Err tt)])
    [0; 1; 2; 3; 4]%nat) ++
  [Tick (30 * 1000000000); Spawn 5; Run 5 (Ok tt)].
Definition probe_script : list (Event (Resp:=unit) (E:=unit)) :=
  [Spawn 6; Run 6 (Ok tt); Run 6 (Ok tt); Run 5 (Ok tt)].

Lemma half_open_slots_are_returned_witness :
  ∃ s s' : System (Resp:=unit) (E:=unit),
    star (step (eq default_config) false) init s ∧ star (probing (eq default_config)) s s' ∧
    half_open_inflight (breaker s) = 0 ∧ half_open_inflight (breaker s') = 1 ∧
    Z.of_nat (holders s') ≤ half_open_max_calls default_config ∧
    tasks s' !! 5%nat = Some (Done (Err CircuitOpen)).
Proof.
  assert (Hfacts : ∃ s s', exec default_config trip_script init = Some s ∧
    exec_probing default_config probe_script s = Some s' ∧
    state_ (breaker s) = HalfOpen ∧ half_open_inflight (breaker s) = 0 ∧
    holders s = 0%nat ∧ half_open_inflight (breaker s') = 1 ∧
    tasks s' !! 5%nat = Some (Done (Err CircuitOpen))).
  { do 2 eexists. split_and!; [vm_compute; reflexivity..|]. vm_compute. reflexivity. }
  destruct Hfacts as (s & s' & Hs & Hs' & Hst & Hz & Hh & H1 & Ht).
  pose proof (exec_star default_config false trip_script _ _ eq_refl Hs) as Hr.
  pose proof (exec_probing_star default_config probe_script _ _ eq_refl Hs') as Hr'.
  exists s, s'. split_and!; [exact Hr|exact Hr'|done|done| |done].
  apply (half_open_slots_are_returned (eq default_config) s);
    [|exact Hr|exact Hst|exact Hr'|by rewrite Hh|by intros c <-|by rewrite Hh].
  intros c <-. unfold u32_max. simpl. lia.
Defined.

Lemma closed_is_below_failure_threshold_witness :
  0 ≤ consecutive_failures (breaker (init (Resp:=unit) (E:=unit))) < 5.
Proof.
  apply (closed_is_below_failure_threshold (eq default_config) 5 true init).
  - unfold u32_max. lia.
  - intros c <-. reflexivity.
  - apply star_refl.
  - reflexivity.
Defined.

Definition opened : System (Resp:=unit) (E:=unit) :=
  {| breaker := on_failure 7 {| failure_threshold := 1; success_threshold := 1;
                                open_duration := 20; half_open_max_calls := 1 |} new;
     clock := 7; tasks := {[0%nat := AtGate]} |}.

Lemma open_rejects_until_cooldown_witness :
  state_ (breaker {| breaker := breaker opened; clock := 26; tasks := tasks opened |}) = Open.
Proof.
  apply (open_rejects_until_cooldown (λ c, 20 ≤ open_duration c) false 20 7 opened
    {| breaker := breaker opened; clock := 26; tasks := tasks opened |});
    [done| |reflexivity|reflexivity|simpl; lia|simpl; lia].
  eapply star_step; [apply (step_tick _ _ opened 26); simpl; lia|apply star_refl].
Defined.

Lemma trips_after_failure_threshold_witness :
  (calls (Resp:=unit) default_config (replicate 7 (0, Err tt)) new).1 =
    replicate 5 (Done (Err (Inner tt))) ++ replicate 2 (Done (Err CircuitOpen)).
Proof.
  exact (trips_after_failure_threshold default_config 0 tt 7
    ltac:(unfold u32_max; simpl; lia) ltac:(simpl; lia)).
Defined.

Lemma recovers_after_success_threshold_witness :
  state_ (calls (E:=unit) default_config (replicate 2 (30 * 1000000000, Ok tt))
    (on_failure 0 {| failure_threshold := 1; success_threshold := 1;
                     open_duration := 1; half_open_max_calls := 1 |} new)).2 = Closed.
Proof.
  apply (recovers_after_success_threshold (E:=unit) default_config (30 * 1000000000) tt 2
    (on_failure 0 {| failure_threshold := 1; success_threshold := 1;
                     open_duration := 1; half_open_max_calls := 1 |} new));
    (reflexivity || (unfold u32_max; simpl; lia)).
Defined.
End Breaker.
