(* ===== verification/Retry.v ===== *)
(** * Retry, backoff, timeout and resilience profiles

    Models the rest of [crates/foundation/resilience]: the exponential backoff and
    its jitter, the retry loop around an inner service, the timeout service and the
    profile whose handles the control plane swaps.  Delays are [Z] milliseconds. *)

From S2P Require Import Prelude CircuitBreaker.
Local Open Scope Z_scope.

Module Backoff.

Inductive JitterKind := JitterNone | JitterFull | JitterEqual.

Record ExponentialBackoff := {
  base_ms : Z;
  max_ms : Z;
  jitter : JitterKind;
}.

Definition default_backoff : ExponentialBackoff :=
  {| base_ms := 50; max_ms := 10000; jitter := JitterFull |}.

Inductive BackoffSpec := Exponential (base_ms max_ms : Z) (jitter : JitterKind).

Definition resolve (spec : BackoffSpec) : ExponentialBackoff :=
  match spec with
  | Exponential b m j => {| base_ms := b; max_ms := m; jitter := j |}
  end.

(** The configured fields are [u64]s. *)
Definition wf (b : ExponentialBackoff) : Prop := is_u64 (base_ms b) ∧ is_u64 (max_ms b).

(** [rand::rng().random_range(0..=n)]: the generator is a parameter; a draw stays
    in the range it is asked for. *)
Class Rng (rnd : Z → Z) : Prop := rng_in_range : ∀ n, 0 ≤ n → 0 ≤ rnd n ≤ n.

(** The exponent is clamped so that the shift stays within 64 bits. *)
Definition exponent (attempt : Z) : Z := Z.min (saturating_sub attempt 1) 30.

Definition cap (b : ExponentialBackoff) (attempt : Z) : Z :=
  Z.min (u64_saturating_mul (base_ms b) (Z.shiftl 1 (exponent attempt))) (max_ms b).

Definition next_delay (rnd : Z → Z) (b : ExponentialBackoff) (attempt : Z) : Z :=
  let c := cap b attempt in
  match jitter b with
  | JitterNone => c
  | JitterFull => rnd c
  | JitterEqual => c / 2 + rnd (c / 2)
  end.

Lemma exponent_range attempt : 0 ≤ exponent attempt ≤ 30.
Proof. unfold exponent, saturating_sub. lia. Qed.

Lemma cap_range b attempt : wf b → 0 ≤ cap b attempt ≤ max_ms b.
Proof.
  intros [[Hb _] [Hm _]]. unfold cap, u64_saturating_mul.
  rewrite Z.shiftl_1_l.
  pose proof (Z.pow_pos_nonneg 2 (exponent attempt) ltac:(lia)
    (proj1 (exponent_range attempt))).
  unfold u64_max. nia.
Qed.

(** Backoff delays are bounded.  Whatever the attempt number (a [u32]) and the
    random draw, the delay is between zero and the configured maximum; with equal
    jitter it is at least half the exponential cap; and no 64-bit addition or
    product on the way exceeds the width. *)
Theorem next_delay_bounded (rnd : Z → Z) `{Rng rnd} (b : ExponentialBackoff) (attempt : Z) :
  wf b → is_u32 attempt →
  0 ≤ next_delay rnd b attempt ≤ max_ms b ∧
  (jitter b = JitterEqual → cap b attempt / 2 ≤ next_delay rnd b attempt) ∧
  next_delay rnd b attempt ≤ u64_max ∧ Z.shiftl 1 (exponent attempt) ≤ u64_max.
Proof.
  intros Hwf Ha. pose proof (cap_range b attempt Hwf) as Hc.
  pose proof (exponent_range attempt). destruct Hwf as [_ [_ Hmu]].
  assert (Hhalf : 0 ≤ cap b attempt / 2 /\ cap b attempt / 2 + cap b attempt / 2 ≤ cap b attempt).
  { pose proof (Z.div_pos (cap b attempt) 2). pose proof (Z.mul_div_le (cap b attempt) 2). lia. }
  pose proof (rng_in_range (cap b attempt) ltac:(lia)).
  pose proof (rng_in_range (cap b attempt / 2) ltac:(lia)).
  assert (0 ≤ next_delay rnd b attempt ≤ max_ms b)
    by (unfold next_delay; destruct (jitter b); lia).
  split_and!; [lia|lia| |lia|].
  - intros Hj. unfold next_delay. rewrite Hj. lia.
  - rewrite Z.shiftl_1_l. unfold u64_max.
    pose proof (Z.pow_le_mono_r 2 (exponent attempt) 30 ltac:(lia) ltac:(lia)). lia.
Qed.

(** The computed cap is the documented formula.  Without jitter the delay is
    exactly [min(base_ms * 2^(attempt-1), max_ms)] for the first 31 attempts, and
    for every attempt when the maximum is reached by then, although the code clamps
    the exponent and saturates the product; and it never decreases with the
    attempt. *)
Theorem next_delay_is_capped_exponential (rnd : Z → Z) (b : ExponentialBackoff) (attempt : Z) :
  wf b → jitter b = JitterNone → 1 ≤ attempt →
  (attempt ≤ 31 ∨ max_ms b ≤ base_ms b * 2 ^ 30) →
  next_delay rnd b attempt = Z.min (base_ms b * 2 ^ (attempt - 1)) (max_ms b) ∧
  ∀ attempt', attempt ≤ attempt' → next_delay rnd b attempt ≤ next_delay rnd b attempt'.
Proof.
  intros [[Hb Hbu] [Hm Hmu]] Hj Ha Hbig.
  assert (Heq : ∀ k, next_delay rnd b k = Z.min (base_ms b * 2 ^ exponent k) (max_ms b)).
  { intros k. unfold next_delay, cap, u64_saturating_mul. rewrite Hj, Z.shiftl_1_l. lia. }
  assert (Hexp : exponent attempt = Z.min (attempt - 1) 30)
    by (unfold exponent, saturating_sub; lia).
  split.
  - rewrite Heq, Hexp. destruct (Z.le_gt_cases attempt 31) as [Hle|Hgt].
    { by replace (Z.min (attempt - 1) 30) with (attempt - 1) by lia. }
    replace (Z.min (attempt - 1) 30) with 30 by lia.
    pose proof (Z.pow_le_mono_r 2 30 (attempt - 1) ltac:(lia) ltac:(lia)).
    rewrite !Z.min_r by nia. done.
  - intros attempt' Hle. rewrite !Heq.
    pose proof (Z.pow_le_mono_r 2 (exponent attempt) (exponent attempt') ltac:(lia)
      ltac:(unfold exponent, saturating_sub; lia)). nia.
Qed.

Lemma next_delay_bounded_witness :
  0 ≤ next_delay (λ n, n / 2) default_backoff 7 ≤ 10000.
Proof.
  assert (Rng (λ n, n / 2)).
  { intros n Hn. pose proof (Z.div_pos n 2). pose proof (Z.mul_div_le n 2). lia. }
  apply (next_delay_bounded (λ n, n / 2) default_backoff 7).
  - unfold wf, is_u64, u64_max. simpl. lia.
  - unfold is_u32, u32_max. lia.
Defined.

Lemma next_delay_is_capped_exponential_witness :
  next_delay (λ n, n) {| base_ms := 50; max_ms := 10000; jitter := JitterNone |} 5 = 800.
Proof.
  destruct (next_delay_is_capped_exponential (λ n, n)
    {| base_ms := 50; max_ms := 10000; jitter := JitterNone |} 5) as [H _];
    [unfold wf, is_u64, u64_max; simpl; lia|reflexivity|lia|lia|exact H].
Defined.
End Backoff.

Module Retry.

Record RetryConfig (B : Type) := {
  max_attempts : Z;
  backoff : B;
}.
Arguments max_attempts {B} _.
Arguments backoff {B} _.

Definition default_exponential : RetryConfig Backoff.ExponentialBackoff :=
  {| max_attempts := 3; backoff := Backoff.default_backoff |}.

Record RetrySpec := {
  spec_max_attempts : Z;
  spec_backoff : Backoff.BackoffSpec;
}.

Definition resolve (spec : RetrySpec) : RetryConfig Backoff.ExponentialBackoff :=
  {| max_attempts := spec_max_attempts spec; backoff := Backoff.resolve (spec_backoff spec) |}.

(** [RetryPolicy] and its three implementations; [is_retryable] is the error's own
    [AppError] method. *)
Definition Policy (E : Type) : Type := E → Z → bool.
Definition default_policy {E} (is_retryable : E → bool) : Policy E := λ e _, is_retryable e.
Definition always_policy {E} : Policy E := λ _ _, true.
Definition never_policy {E} : Policy E := λ _ _, false.

Section Loop.
(** The inner service: its readiness poll and its call, both over its own state;
    [next_delay] is the backoff strategy of the configuration. *)
Context {Svc Req Resp E B : Type}.
Context (svc_ready : Svc → Svc * result E unit).
Context (svc_call : Req → Svc → Svc * result E Resp).
Context (next_delay : B → Z → Z).

(** One attempt: drive readiness on the same instance, then call. *)
Definition attempt_once (req : Req) (s : Svc) : Svc * result E Resp :=
  match svc_ready s with
  | (s', Err e) => (s', Err e)
  | (s', Ok _) => svc_call req s'
  end.

(** The loop from an attempt counter: the delays slept, the service it leaves and
    the outcome; [None] when the fuel runs out first. *)
Fixpoint loop (fuel : nat) (config : RetryConfig B) (policy : Policy E) (req : Req)
    (attempt : Z) (s : Svc) : option (list Z * Svc * result (ResilienceError E) Resp) :=
  match fuel with
  | O => None
  | S fuel =>
      let attempt := u32_add attempt 1 in
      let '(s', r) := attempt_once req s in
      match r with
      | Ok resp => Some ([], s', Ok resp)
      | Err e =>
          if (attempt <=? max_attempts config) && policy e attempt
          then match loop fuel config policy req attempt s' with
               | Some (ds, s'', r) => Some (next_delay (backoff config) attempt :: ds, s'', r)
               | None => None
               end
          else Some ([], s',
                 if max_attempts config <? attempt
                 then Err (MaxRetriesExhausted (max_attempts config))
                 else Err (Inner e))
      end
  end.

Definition call (fuel : nat) config policy req s := loop fuel config policy req 0 s.

(** The service after [n] more attempts, if each of them fails with an error the policy
    retries. *)
Fixpoint after_failures (policy : Policy E) (req : Req) (attempt : Z) (n : nat) (s : Svc) : option Svc :=
  match n with
  | O => Some s
  | S n => match attempt_once req s with
           | (s', Err e) =>
               if policy e (attempt + 1) then after_failures policy req (attempt + 1) n s' else None
           | (_, Ok _) => None
           end
  end.

(** What the outcome of a call that slept [n] times says about the attempts made:
    [n] of them failed with an error the policy retries, and the next one decided. *)
Definition explains (config : RetryConfig B) (policy : Policy E) (req : Req) (attempt : Z)
    (n : nat) (s s' : Svc) (r : result (ResilienceError E) Resp) : Prop :=
  ∃ sn, after_failures policy req attempt n s = Some sn ∧
  match r with
  | Ok resp => attempt_once req sn = (s', Ok resp)
  | Err (MaxRetriesExhausted k) =>
      k = max_attempts config ∧ attempt + Z.of_nat n = max_attempts config ∧
      ∃ e, attempt_once req sn = (s', Err e)
  | Err (Inner e) =>
      attempt + Z.of_nat n < max_attempts config ∧
      policy e (attempt + Z.of_nat n + 1) = false ∧ attempt_once req sn = (s', Err e)
  | _ => False
  end.

Lemma loop_total fuel config policy req attempt s :
  0 ≤ attempt ≤ max_attempts config → max_attempts config < u32_max →
  max_attempts config - attempt < Z.of_nat fuel →
  ∃ ds s' r, loop fuel config policy req attempt s = Some (ds, s', r) ∧
    attempt + Z.of_nat (length ds) ≤ max_attempts config ∧
    (∀ i d, ds !! i = Some d → d = next_delay (backoff config) (attempt + 1 + Z.of_nat i)) ∧
    explains config policy req attempt (length ds) s s' r.
Proof.
  revert attempt s. induction fuel as [|fuel IH]; intros attempt s Ha Hmax Hfuel; [lia|].
  cbn [loop]. rewrite u32_add_small by (unfold u32_max in *; lia).
  destruct (attempt_once req s) as [s' [resp|e]] eqn:Hat.
  { eexists _, _, _. split; [reflexivity|]. simpl. split_and!; [lia| |by exists s].
    intros i d. by rewrite lookup_nil. }
  destruct ((attempt + 1 <=? max_attempts config) && policy e (attempt + 1)) eqn:Hg.
  - apply andb_true_iff in Hg as [Hg Hpol]. zbool.
    destruct (IH (attempt + 1) s') as (ds & s'' & r & -> & Hlen & Hds & Haf); [lia..|].
    eexists _, _, _. split; [reflexivity|]. cbn [length]. split_and!; [lia| |].
    + intros [|i] d; simpl.
      * intros [= <-]. f_equal. lia.
      * intros Hd. rewrite (Hds i d Hd). f_equal. lia.
    + destruct Haf as (sn & Hsn & Hr). exists sn. split; [simpl; by rewrite Hat, Hpol|].
      replace (attempt + Z.of_nat (S (length ds))) with (attempt + 1 + Z.of_nat (length ds)) by lia.
      done.
  - eexists _, _, _. split; [reflexivity|]. simpl. split_and!; [lia| |].
    { intros i d. by rewrite lookup_nil. }
    exists s. split; [done|]. destruct (_ <? _) eqn:Hlt; zbool.
    + rewrite Z.add_0_r. split_and!; [done|lia|by exists e].
    + rewrite Z.add_0_r. rewrite (proj2 (Z.leb_le _ _)) in Hg by lia.
      simpl in Hg. split_and!; [lia|done|done].
Qed.

(** C36. The retry loop terminates within its budget, and its outcome is the one
    the attempts call for.  For every inner service and policy, and any retry
    budget below [u32::MAX], [max_attempts + 1] iterations are enough for the call
    to return.  It sleeps at most [max_attempts] times, the i-th time for the
    backoff's delay of attempt i, and retries only failures the policy retries;
    [MaxRetriesExhausted] means that all [max_attempts + 1] attempts failed, an inner
    error that it is the last attempt's and the policy declined to retry it within the
    budget, and a response is the last attempt's. *)
Theorem retry_terminates (config : RetryConfig B) (policy : Policy E) (req : Req) (s : Svc)
    (fuel : nat) :
  0 ≤ max_attempts config < u32_max → max_attempts config < Z.of_nat fuel →
  ∃ ds s' r, call fuel config policy req s = Some (ds, s', r) ∧
    Z.of_nat (length ds) ≤ max_attempts config ∧
    (∀ i d, ds !! i = Some d → d = next_delay (backoff config) (Z.of_nat i + 1)) ∧
    explains config policy req 0 (length ds) s s' r.
Proof.
  intros Hm Hf. destruct (loop_total fuel config policy req 0 s)
    as (ds & s' & r & Hl & Hlen & Hds & Hex); [lia..|].
  exists ds, s', r. split_and!; [done|lia| |done].
  intros i d Hd. rewrite (Hds i d Hd). f_equal. lia.
Qed.
End Loop.

(** A service that fails twice and then answers. *)
Lemma retry_terminates_witness :
  ∃ ds s' r, call (λ s, (s, Ok tt)) (λ _ s, (S s, if Nat.ltb s 2 then Err tt else Ok tt))
      (λ _ k, 10 * k) 6 {| max_attempts := 5; backoff := tt |} always_policy tt 0%nat
      = Some (ds, s', r) ∧ ds = [10; 20] ∧ s' = 3%nat ∧ r = Ok tt.
Proof.
  destruct (retry_terminates (λ s, (s, Ok tt))
    (λ (_ : unit) s, (S s, if Nat.ltb s 2 then Err tt else Ok tt))
    (λ _ k, 10 * k) {| max_attempts := 5; backoff := tt |} always_policy tt 0%nat 6)
    as (ds & s' & r & Hc & _); [unfold u32_max; simpl; lia|simpl; lia|].
  exists ds, s', r. split; [exact Hc|]. vm_compute in Hc. by injection Hc as <- <- <-.
Defined.
End Retry.

Module TimeoutService.

Record TimeoutConfig := { duration : Z }.
Definition default_timeout : TimeoutConfig := {| duration := 10 * 1000 |}.

Section Call.
(** [tokio::time::timeout]: [None] when the deadline elapses first. *)
Context {Fut Resp E : Type} (tokio_timeout : Z → Fut → option (result E Resp)).

(** The deadline is read once, when the call starts. *)
Definition call (config : TimeoutConfig) (fut : Fut) : result (ResilienceError E) Resp :=
  let d := duration config in
  match tokio_timeout d fut with
  | Some (Ok response) => Ok response
  | Some (Err e) => Err (Inner e)
  | None => Err (Timeout d)
  end.
End Call.
End TimeoutService.

(** ** Profiles: handles shared by the layers built from them

    An [Arc<ArcSwap<C>>] is a location of a store; a layer keeps the location, not
    the configuration. *)

Module Profile.
Import Breaker TimeoutService.

Record ResilienceProfileSpec := {
  timeout_spec : TimeoutConfig;
  circuit_breaker_spec : CircuitBreakerConfig;
  retry_spec : Retry.RetrySpec;
}.

(** The store: timeout cells, breaker-configuration cells, and the state machines
    of the breaker layers, each with the cell it reads. *)
Record Store := {
  timeouts : gmap nat TimeoutConfig;
  breakers : gmap nat CircuitBreakerConfig;
  machines : gmap nat (nat * State);
}.

Record ResilienceProfile := {
  timeout_handle : nat;
  breaker_handle : nat;
  retry : Retry.RetryConfig Backoff.ExponentialBackoff;
}.

Definition resolve (spec : ResilienceProfileSpec) (st : Store) : Store * ResilienceProfile :=
  let lt := fresh (dom (timeouts st)) in
  let lb := fresh (dom (breakers st)) in
  ({| timeouts := <[lt := timeout_spec spec]> (timeouts st);
      breakers := <[lb := circuit_breaker_spec spec]> (breakers st);
      machines := machines st |},
   {| timeout_handle := lt; breaker_handle := lb; retry := Retry.resolve (retry_spec spec) |}).

(** [timeout_layer]: the layer keeps the handle. *)
Definition timeout_layer (p : ResilienceProfile) : nat := timeout_handle p.

(** [circuit_breaker_layer]: a fresh state machine reading the profile's handle. *)
Definition circuit_breaker_layer (p : ResilienceProfile) (st : Store) : Store * nat :=
  let l := fresh (dom (machines st)) in
  ({| timeouts := timeouts st; breakers := breakers st;
      machines := <[l := (breaker_handle p, new)]> (machines st) |}, l).

Definition apply (p : ResilienceProfile) (spec : ResilienceProfileSpec) (st : Store) :
    Store * Retry.RetryConfig Backoff.ExponentialBackoff :=
  ({| timeouts := <[timeout_handle p := timeout_spec spec]> (timeouts st);
      breakers := <[breaker_handle p := circuit_breaker_spec spec]> (breakers st);
      machines := machines st |},
   Retry.resolve (retry_spec spec)).

(** The configuration a breaker layer samples on its next operation. *)
Definition layer_config (l : nat) (st : Store) : option CircuitBreakerConfig :=
  machines st !! l ≫= λ m, breakers st !! m.1.

(** Hot reload reaches every layer and resets none.  After [apply], every
    breaker layer built from the profile, before or since, samples the new
    thresholds and every timeout layer the new deadline, while the live circuit
    states are exactly what they were; layers of other profiles keep theirs. *)
Theorem apply_reconfigures_layers_without_reset (p : ResilienceProfile)
    (spec : ResilienceProfileSpec) (st : Store) (l : nat) (m : nat * State) :
  machines st !! l = Some m →
  let st' := (apply p spec st).1 in
  machines st' !! l = Some m ∧
  (m.1 = breaker_handle p → layer_config l st' = Some (circuit_breaker_spec spec)) ∧
  (m.1 ≠ breaker_handle p → layer_config l st' = layer_config l st) ∧
  timeouts st' !! timeout_layer p = Some (timeout_spec spec) ∧
  (apply p spec st).2 = (resolve spec st).2.(retry).
Proof.
  intros Hl. unfold layer_config, timeout_layer. simpl. rewrite Hl. simpl.
  split_and!; [done| | |by rewrite lookup_insert_eq|done].
  - intros ->. by rewrite lookup_insert_eq.
  - intros Hne. by rewrite lookup_insert_ne.
Qed.

Definition sample_spec (F : Z) : ResilienceProfileSpec := {|
  timeout_spec := default_timeout;
  circuit_breaker_spec := {| failure_threshold := F; success_threshold := 2;
    open_duration := 30; half_open_max_calls := 1 |};
  retry_spec := {| Retry.spec_max_attempts := 1;
    Retry.spec_backoff := Backoff.Exponential 20 500 Backoff.JitterFull |};
|}.

Definition empty_store : Store := {| timeouts := ∅; breakers := ∅; machines := ∅ |}.

Lemma apply_reconfigures_layers_without_reset_witness :
  let '(st, p) := resolve (sample_spec 5) empty_store in
  let '(st, l) := circuit_breaker_layer p st in
  layer_config l st = Some (circuit_breaker_spec (sample_spec 5)) ∧
  layer_config l (apply p (sample_spec 2) st).1 = Some (circuit_breaker_spec (sample_spec 2)).
Proof.
  simpl. split; [reflexivity|].
  apply (apply_reconfigures_layers_without_reset
    (resolve (sample_spec 5) empty_store).2 (sample_spec 2)
    (circuit_breaker_layer (resolve (sample_spec 5) empty_store).2
       (resolve (sample_spec 5) empty_store).1).1 0%nat
    ((resolve (sample_spec 5) empty_store).2.(breaker_handle), new));
    reflexivity.
Defined.
End Profile.
