(* ===== verification/Traffic.v ===== *)
(** * Ingress rate limiting

    Models [crates/foundation/traffic] (profiles and decisions),
    [crates/platform/traffic-redis] (the lease book of a replica and the Redis
    claim script) and the decision path of the gRPC traffic layer
    ([crates/platform/transport/src/grpc/layer/traffic.rs]).  [Fleet] is the whole
    fleet: several replicas with their own clocks sharing one Redis, as a step
    relation.  Times are [Z] milliseconds. *)

From S2P Require Import Prelude.
Local Open Scope Z_scope.

(** ** Configuration and decisions *)

Inductive Scope := PerMethod | PerCaller.
Inductive Mode := Local | Distributed.
Inductive BackendError := FailOpen | FailClosed.

#[export] Instance Scope_eq_dec : EqDecision Scope.
Proof. solve_decision. Defined.
#[export] Instance Mode_eq_dec : EqDecision Mode.
Proof. solve_decision. Defined.
#[export] Instance BackendError_eq_dec : EqDecision BackendError.
Proof. solve_decision. Defined.

Record TrafficConfig := {
  rps : Z;
  burst : Z;
  scope : Scope;
  mode : Mode;
  enforce : bool;
  lease_ms : option Z;
  on_backend_error : option BackendError;
}.

Inductive TrafficDecision := Allow | Throttle (retry_after : Z).

#[export] Instance TrafficDecision_eq_dec : EqDecision TrafficDecision.
Proof. solve_decision. Defined.

Record Quota := {
  quota_rps : Z;
  quota_burst : Z;
  quota_lease_ms : Z;
}.

Definition DEFAULT_LEASE_MS : Z := 1000.

Definition quota (config : TrafficConfig) : Quota := {|
  quota_rps := rps config;
  quota_burst := burst config;
  quota_lease_ms := default DEFAULT_LEASE_MS (lease_ms config);
|}.

Definition is_distributed (config : TrafficConfig) : bool :=
  bool_decide (mode config = Distributed).

(** ** The lease book of one replica *)

Module LeaseBook.

Record Lease := {
  window : Z;
  remaining : Z;
  exhausted : bool;
}.

Definition Book : Type := gmap string Lease.

(** [ceil(rps * lease_ms / 1000)], at least 1; the product is a [u64] product. *)
Definition window_budget (rps lease_ms : Z) : Z :=
  Z.max (((rps * lease_ms) mod 2 ^ 64 + 999) / 1000) 1.

Definition chunk (burst budget : Z) : Z := Z.min (Z.max burst 1) budget.

Definition until_next_window (now_ms lease_ms : Z) : Z := lease_ms - now_ms mod lease_ms.

Definition ttl (lease_ms : Z) : Z :=
  Z.max (Z.min u64_max (lease_ms * 2)) (u64_add lease_ms 1000).

(** The claim seam: [claim key window budget want ttl_ms], atomic, over the
    backing store's own world. *)
Class ClaimSource (W : Type) :=
  claim : string → Z → Z → Z → Z → act W string Z.

(** The lease of [key] as [check] finds it: created empty, rolled forward when it
    belongs to another window. *)
Definition current_lease (book : gmap string Lease) (key : string) (w : Z) : Lease :=
  match book !! key with
  | Some l => if window l =? w then l
              else {| window := w; remaining := 0; exhausted := false |}
  | None => {| window := w; remaining := 0; exhausted := false |}
  end.

(** [check]: the lease's mutex is held from the lookup to the end, the claim
    included, so one call is one step for its key. *)
Definition check `{ClaimSource W} (key : string) (q : Quota) (now_ms : Z) :
    act (gmap string Lease * W) string TrafficDecision := λ '(book, w),
  let lease_ms := Z.max (quota_lease_ms q) 1 in
  let win := now_ms / lease_ms in
  let budget := window_budget (quota_rps q) lease_ms in
  let want := chunk (quota_burst q) budget in
  let lease := current_lease book key win in
  if 0 <? remaining lease then
    ((<[key := {| window := win; remaining := remaining lease - 1;
                  exhausted := exhausted lease |}]> book, w), Ok Allow)
  else if exhausted lease then
    ((<[key := lease]> book, w), Ok (Throttle (until_next_window now_ms lease_ms)))
  else
    match claim key win budget want (ttl lease_ms) w with
    | (w', Err e) => ((<[key := lease]> book, w'), Err e)
    | (w', Ok granted) =>
        if granted =? 0 then
          ((<[key := {| window := win; remaining := 0; exhausted := true |}]> book, w'),
           Ok (Throttle (until_next_window now_ms lease_ms)))
        else
          ((<[key := {| window := win; remaining := granted - 1;
                        exhausted := exhausted lease |}]> book, w'), Ok Allow)
    end.

(** [prune]: entries of past windows go, unless their lock is held. *)
Definition prune (now_ms lease_ms : Z) (locked : string → bool) (book : gmap string Lease) :
    gmap string Lease :=
  let current := now_ms / Z.max lease_ms 1 in
  filter (λ kl : string * Lease, locked kl.1 || (current <=? window kl.2) = true) book.

Definition tracked_keys (book : gmap string Lease) : nat := size book.

End LeaseBook.
Import LeaseBook.

(** ** The Redis claim script *)

Module RedisClaims.

(** What the network does with one call: it answers, it fails before the script
    runs, or it loses the reply of a script that ran. *)
Inductive Fault := Answered | NotSent | ReplyLost.

(** The counters of the script, by (key, window), with their expiry instant; the
    server's clock; and the fate of the next call. *)
Record Redis := {
  counters : gmap (string * Z) (Z * Z);
  clock : Z;
  fault : Fault;
}.

Definition set_counters (m : gmap (string * Z) (Z * Z)) (r : Redis) : Redis :=
  {| counters := m; clock := clock r; fault := fault r |}.

(** [GET]: an entry is there until its expiry. *)
Definition get (r : Redis) (k : string * Z) : Z :=
  match counters r !! k with
  | Some (n, expiry) => if clock r <? expiry then n else 0
  | None => 0
  end.

(** The script: grant what is left, at most [want]; [INCRBY] and [PEXPIRE] when
    something is granted. *)
Definition claim_script (k : string * Z) (budget want ttl_ms : Z) (r : Redis) : Redis * Z :=
  let current := get r k in
  if budget <=? current then (r, 0)
  else
    let grant := Z.min (budget - current) want in
    (set_counters (<[k := (current + grant, clock r + ttl_ms)]> (counters r)) r, grant).

#[export] Instance RedisClaimSource : ClaimSource Redis :=
  λ key win budget want ttl_ms r,
    match fault r with
    | NotSent => (r, Err "quota backend unavailable")
    | ReplyLost => ((claim_script (key, win) budget want ttl_ms r).1,
                    Err "quota backend unavailable")
    | Answered => let '(r', granted) := claim_script (key, win) budget want ttl_ms r in
                  (r', Ok (Z.max granted 0))
    end.

End RedisClaims.
Import RedisClaims.

(** ** The fleet *)

Module Fleet.

Record State := {
  redis : Redis;
  replicas : list (gmap string Lease);
  (** how many requests have been admitted, by key and window *)
  admitted : gmap (string * Z) Z;
}.

Definition init (n : nat) : State := {|
  redis := {| counters := ∅; clock := 0; fault := Answered |};
  replicas := replicate n ∅;
  admitted := ∅;
|}.

Definition admitted_in (s : State) (k : string * Z) : Z := default 0 (admitted s !! k).

Section Steps.
(** The quota each key is charged under, and the bound on the distance between a
    replica's clock and the server's. *)
Context (quota_of : string → Quota) (skew : Z).

Definition lease_of (key : string) : Z := Z.max (quota_lease_ms (quota_of key)) 1.

(** Replica [i] handles a request under [key] at its local time [now]. *)
Definition do_check (i : nat) (key : string) (now : Z) (s : State) : State :=
  match replicas s !! i with
  | None => s
  | Some book =>
      let '((book', r'), d) := check key (quota_of key) now (book, redis s) in
      let k := (key, now / lease_of key) in
      {| redis := r';
         replicas := <[i := book']> (replicas s);
         admitted := match d with
                     | Ok Allow => <[k := admitted_in s k + 1]> (admitted s)
                     | _ => admitted s
                     end |}
  end.

Inductive step : State → State → Prop :=
  | step_tick s t f :
      clock (redis s) ≤ t →
      step s {| redis := {| counters := counters (redis s); clock := t; fault := f |};
                replicas := replicas s; admitted := admitted s |}
  | step_check s i key now :
      0 ≤ now → Z.abs (now - clock (redis s)) ≤ skew →
      step s (do_check i key now s)
  | step_prune s i book now_ms lease_ms locked :
      replicas s !! i = Some book →
      step s {| redis := redis s;
                replicas := <[i := prune now_ms lease_ms locked book]> (replicas s);
                admitted := admitted s |}
  | step_restart s i :
      step s {| redis := redis s; replicas := <[i := ∅]> (replicas s); admitted := admitted s |}.

(** ** The fleet-wide budget *)

(** The tokens of [k]'s window a book still holds, and what Redis has granted. *)
Definition rem (k : string * Z) (b : gmap string Lease) : Z :=
  match b !! k.1 with
  | Some l => if window l =? k.2 then remaining l else 0
  | None => 0
  end.
Definition granted (s : State) (k : string * Z) : Z :=
  match counters (redis s) !! k with Some (n, _) => n | None => 0 end.
Definition budget_of (key : string) : Z :=
  window_budget (quota_rps (quota_of key)) (lease_of key).

Definition book_ok (b : gmap string Lease) : Prop :=
  ∀ key l, b !! key = Some l → 0 ≤ remaining l.

Record inv (s : State) : Prop := {
  inv_books : ∀ b, b ∈ replicas s → book_ok b;
  inv_admitted : ∀ k, 0 ≤ admitted_in s k;
  inv_tokens : ∀ k, admitted_in s k + sum_with (rem k) (replicas s) ≤ granted s k;
  inv_budget : ∀ k, granted s k ≤ budget_of k.1;
  inv_expiry : ∀ k n e, counters (redis s) !! k = Some (n, e) →
    (k.2 + 1) * lease_of k.1 + skew ≤ e;
}.

Lemma rem_nonneg k b : book_ok b → 0 ≤ rem k b.
Proof.
  intros Hb. unfold rem. destruct (b !! k.1) as [l|] eqn:E; [|done].
  case_match; [by eapply Hb|done].
Qed.

Lemma rem_insert_ne k key l b : k.1 ≠ key → rem k (<[key:=l]> b) = rem k b.
Proof. intros Hne. unfold rem. by rewrite lookup_insert_ne. Qed.

Lemma rem_insert_eq key w l b : window l = w → rem (key, w) (<[key:=l]> b) = remaining l.
Proof. intros <-. unfold rem. simpl. by rewrite lookup_insert_eq, Z.eqb_refl. Qed.

(** Writing a lease of window [w] leaves the other windows with nothing more. *)
Lemma rem_insert_other k key l b :
  k ≠ (key, window l) → book_ok b → rem k (<[key:=l]> b) ≤ rem k b.
Proof.
  intros Hne Hb. destruct (decide (k.1 = key)) as [<-|Hk]; [|by rewrite rem_insert_ne].
  pose proof (rem_nonneg k b Hb). unfold rem at 1. rewrite lookup_insert_eq.
  case_match; zbool; [|done]. destruct k; simpl in *; naive_solver.
Qed.

Lemma book_ok_insert key l b : 0 ≤ remaining l → book_ok b → book_ok (<[key:=l]> b).
Proof. intros Hl Hb key' l'. rewrite lookup_insert. case_decide; naive_solver. Qed.

Lemma current_lease_ok b key w :
  book_ok b → window (current_lease b key w) = w ∧
  remaining (current_lease b key w) = rem (key, w) b ∧ 0 ≤ rem (key, w) b.
Proof.
  intros Hb. pose proof (rem_nonneg (key, w) b Hb). unfold current_lease, rem in *. simpl in *.
  destruct (b !! key) as [l|]; [|done]. destruct (window l =? w) eqn:E; zbool; done.
Qed.

Lemma budget_pos key : 1 ≤ budget_of key.
Proof. unfold budget_of, window_budget. lia. Qed.

(** What the Redis claim does to its counter. *)
Lemma claim_spec k budget want t r :
  1 ≤ budget → 1 ≤ want ≤ budget → 0 ≤ get r k ≤ budget →
  ∃ g, 0 ≤ g ∧ get r k + g ≤ budget ∧
  ((claim_script k budget want t r) = (r, 0) ∧ g = 0 ∨
   (claim_script k budget want t r) =
     (set_counters (<[k := (get r k + g, clock r + t)]> (counters r)) r, g) ∧ 1 ≤ g).
Proof.
  intros Hb Hw Hg. unfold claim_script. destruct (_ <=? _) eqn:E; zbool.
  - exists 0. split_and!; [lia..|]. by left.
  - exists (Z.min (budget - get r k) want). split_and!; [lia|lia|]. right. split; [reflexivity|lia].
Qed.

(** One check on one replica: it admits only against tokens it held or was granted. *)
Lemma check_spec key now b r b' r' d k0 :
  k0 = (key, now / lease_of key) →
  book_ok b → 0 ≤ get r k0 ≤ budget_of key →
  check key (quota_of key) now (b, r) = ((b', r'), d) →
  book_ok b' ∧
  (∀ k, k ≠ k0 → rem k b' ≤ rem k b) ∧
  ∃ g, 0 ≤ g ∧ get r k0 + g ≤ budget_of key ∧
    rem k0 b' + (if decide (d = Ok Allow) then 1 else 0) ≤ rem k0 b + g ∧
    (r' = r ∧ g = 0 ∨
     r' = set_counters (<[k0 := (get r k0 + g, clock r + ttl (lease_of key))]> (counters r)) r).
Proof.
  intros -> Hb Hget Hc. unfold check in Hc.
  fold (lease_of key) in Hc. fold (budget_of key) in Hc.
  revert Hget Hc. generalize (now / lease_of key) as lw. intros lw Hget Hc.
  destruct (current_lease_ok b key lw Hb) as (Hwin & Hrem & Hpos).
  pose proof (budget_pos key) as Hbp.
  destruct (0 <? remaining (current_lease b key lw)) eqn:Hr; zbool; simplify_eq.
  { split_and!; [apply book_ok_insert; simpl; [lia|done]| |].
    - intros k Hk. apply rem_insert_other; [|done]. done.
    - exists 0. rewrite rem_insert_eq by done. simpl. rewrite Hrem.
      split_and!; [lia|lia|lia|by left]. }
  destruct (exhausted (current_lease b key lw)) eqn:Hex; simplify_eq.
  { split_and!; [apply book_ok_insert; [lia|done]| |].
    - intros k Hk. apply rem_insert_other; [|done]. by rewrite Hwin.
    - exists 0. rewrite rem_insert_eq by done. rewrite Hrem.
      rewrite ?decide_False by done. split_and!; [lia|lia|lia|by left]. }
  destruct (claim_spec (key, lw) (budget_of key) (chunk (quota_burst (quota_of key)) (budget_of key))
    (ttl (lease_of key)) r) as (g & Hg & Hgb & Hcs); [done|unfold chunk; lia|done|].
  unfold claim, RedisClaimSource in Hc.
  assert (Hother : ∀ l k, window l = lw → k ≠ (key, lw) → rem k (<[key:=l]> b) ≤ rem k b).
  { intros l k Hl Hk. apply rem_insert_other; [|done]. by rewrite Hl. }
  destruct (fault r); [destruct Hcs as [[Hcs ->]|[Hcs Hg1]]; rewrite Hcs in Hc| |
    destruct Hcs as [[Hcs ->]|[Hcs Hg1]]; rewrite Hcs in Hc].
  - simpl in Hc. simplify_eq. split_and!; [by apply book_ok_insert|by intros; apply Hother|].
    exists 0. rewrite rem_insert_eq by done. simpl. rewrite ?decide_False by done.
    split_and!; [lia..|by left].
  - rewrite Z.max_l in Hc by lia. rewrite (proj2 (Z.eqb_neq _ _)) in Hc by lia. simplify_eq.
    split_and!; [apply book_ok_insert; simpl; [lia|done]|by intros; apply Hother|].
    exists g. rewrite rem_insert_eq by done. simpl. rewrite ?decide_True by done.
    split_and!; [lia..|by right].
  - simplify_eq. split_and!; [apply book_ok_insert; [lia|done]|by intros; apply Hother|].
    exists 0. rewrite rem_insert_eq by done. rewrite Hrem. rewrite ?decide_False by done.
    split_and!; [lia..|by left].
  - simplify_eq. split_and!; [apply book_ok_insert; [lia|done]|by intros; apply Hother|].
    exists 0. rewrite rem_insert_eq by done. rewrite Hrem. rewrite ?decide_False by done.
    split_and!; [lia..|by left].
  - simplify_eq. split_and!; [apply book_ok_insert; [lia|done]|by intros; apply Hother|].
    exists g. rewrite rem_insert_eq by done. rewrite Hrem. rewrite ?decide_False by done.
    split_and!; [lia..|by right].
Qed.

Context
  (Hlease : ∀ key, quota_lease_ms (quota_of key) ≤ 2 ^ 62)
  (Hclocks : ∀ key, 2 * skew ≤ Z.max (lease_of key) 1000).

Lemma ttl_outlives_window key : lease_of key + 2 * skew ≤ ttl (lease_of key).
Proof.
  specialize (Hlease key). specialize (Hclocks key). unfold lease_of in *.
  unfold ttl, u64_add, u64_max. rewrite Z.mod_small by lia. lia.
Qed.

Lemma window_bounds key now :
  now / lease_of key * lease_of key ≤ now < (now / lease_of key + 1) * lease_of key.
Proof.
  assert (0 < lease_of key) by (unfold lease_of; lia).
  pose proof (Z.mod_pos_bound now (lease_of key)). pose proof (Z.div_mod now (lease_of key)). nia.
Qed.

Lemma get_granted s k :
  inv s → clock (redis s) < (k.2 + 1) * lease_of k.1 + skew → get (redis s) k = granted s k.
Proof.
  intros Hinv Hlt. unfold get, granted. destruct (counters _ !! k) as [[n e]|] eqn:E; [|done].
  pose proof (inv_expiry s Hinv k n e E). by rewrite (proj2 (Z.ltb_lt _ _)) by lia.
Qed.

Lemma granted_nonneg s k : inv s → 0 ≤ granted s k.
Proof.
  intros Hinv. pose proof (inv_tokens s Hinv k). pose proof (inv_admitted s Hinv k).
  pose proof (sum_with_nonneg (rem k) (replicas s)
    (λ b Hb, rem_nonneg k b (inv_books s Hinv b Hb))). lia.
Qed.

(** Replacing a book by one with no more tokens keeps the invariant. *)
Lemma inv_shrink s i b' :
  inv s →
  (∀ b, replicas s !! i = Some b → book_ok b' ∧ ∀ k, rem k b' ≤ rem k b) →
  inv {| redis := redis s; replicas := <[i := b']> (replicas s); admitted := admitted s |}.
Proof.
  intros Hinv Hb'. destruct (replicas s !! i) as [b|] eqn:Hi.
  2:{ rewrite list_insert_ge by (by apply lookup_ge_None). by destruct s. }
  destruct (Hb' b eq_refl) as [Hok Hrem]. split; simpl.
  - intros x. rewrite list_elem_of_lookup. intros (j & Hj).
    apply list_lookup_insert_Some in Hj as [(_ & <- & _)|(_ & Hj)]; [done|].
    apply (inv_books s Hinv). rewrite list_elem_of_lookup. by exists j.
  - apply (inv_admitted s Hinv).
  - intros k. rewrite (sum_with_insert _ _ _ _ _ Hi).
    pose proof (inv_tokens s Hinv k). specialize (Hrem k).
    unfold admitted_in, granted in *. simpl. lia.
  - apply (inv_budget s Hinv).
  - apply (inv_expiry s Hinv).
Qed.

Lemma inv_check s i key now :
  0 ≤ now → Z.abs (now - clock (redis s)) ≤ skew → inv s → inv (do_check i key now s).
Proof.
  intros Hnow Habs Hinv. unfold do_check.
  destruct (replicas s !! i) as [b|] eqn:Hi; [|done].
  assert (Hb : book_ok b) by (apply (inv_books s Hinv), list_elem_of_lookup; eauto).
  pose proof (window_bounds key now) as Hw. pose proof (ttl_outlives_window key) as Httl.
  set (k0 := (key, now / lease_of key)).
  assert (Hget : get (redis s) k0 = granted s k0) by (apply get_granted; [done|simpl; lia]).
  pose proof (inv_budget s Hinv k0) as Hbud. pose proof (granted_nonneg s k0 Hinv).
  destruct (check key (quota_of key) now (b, redis s)) as [[b' r'] d] eqn:Hc.
  destruct (check_spec key now b (redis s) b' r' d k0 eq_refl Hb ltac:(rewrite Hget; done) Hc)
    as (Hb' & Hother & g & Hg & Hgb & Hrem & Hr').
  assert (Hadm : ∀ k, default 0 (match d with
      | Ok Allow => <[k0 := admitted_in s k0 + 1]> (admitted s) | _ => admitted s end !! k) =
    admitted_in s k + (if decide (k = k0) then if decide (d = Ok Allow) then 1 else 0 else 0)).
  { intros k. destruct (decide (d = Ok Allow)) as [->|Hd].
    - rewrite lookup_insert. unfold admitted_in. repeat case_decide; simplify_eq; simpl; lia.
    - destruct d as [[]|]; try done; unfold admitted_in; case_decide; lia. }
  assert (Hgr : ∀ k, match counters r' !! k with Some (n, _) => n | None => 0 end =
    granted s k + (if decide (k = k0) then g else 0)).
  { intros k. destruct Hr' as [[-> ->]| ->]; [unfold granted; destruct (decide (k = k0)); rewrite Z.add_0_r; done|].
    simpl. destruct (decide (k = k0)) as [->|Hk].
    - by rewrite lookup_insert_eq, Hget.
    - rewrite lookup_insert_ne by done. unfold granted. lia. }
  split; simpl.
  - intros x. rewrite list_elem_of_lookup. intros (j & Hj).
    apply list_lookup_insert_Some in Hj as [(_ & <- & _)|(_ & Hj)]; [done|].
    apply (inv_books s Hinv). rewrite list_elem_of_lookup. by exists j.
  - intros k. unfold admitted_in. simpl. rewrite Hadm.
    pose proof (inv_admitted s Hinv k). repeat case_decide; lia.
  - intros k. unfold admitted_in, granted. simpl. rewrite Hadm, Hgr.
    rewrite (sum_with_insert _ _ _ _ _ Hi). pose proof (inv_tokens s Hinv k).
    destruct (decide (k = k0)) as [->|Hk]; [lia|]. specialize (Hother k Hk). lia.
  - intros k. unfold granted. simpl. rewrite Hgr.
    destruct (decide (k = k0)) as [->|Hk]; [rewrite <- Hget; simpl; lia|].
    pose proof (inv_budget s Hinv k). lia.
  - intros k n e. destruct Hr' as [[-> _]| ->]; [apply (inv_expiry s Hinv)|].
    simpl. destruct (decide (k = k0)) as [->|Hk].
    + rewrite lookup_insert_eq. intros He. injection He as _ <-. simpl. lia.
    + rewrite lookup_insert_ne by done. apply (inv_expiry s Hinv).
Qed.

Lemma inv_step s s' : step s s' → inv s → inv s'.
Proof.
  intros Hst Hinv. destruct Hst as [s t f Ht|s i key now Hn Ha|s i b nm lm locked Hi|s i].
  - destruct Hinv. by split.
  - by apply inv_check.
  - apply inv_shrink; [done|]. intros b0 Hb0. simplify_eq.
    assert (Hb : book_ok b) by (apply (inv_books s Hinv), list_elem_of_lookup; eauto).
    split.
    + intros key l Hl. apply map_lookup_filter_Some in Hl as [Hl _]. by eapply Hb.
    + intros k. pose proof (rem_nonneg k b Hb). unfold rem at 1.
      destruct (prune _ _ _ b !! k.1) as [l|] eqn:E; [|done].
      apply map_lookup_filter_Some in E as [E _]. unfold rem. by rewrite E.
  - apply inv_shrink; [done|]. intros b Hb. split; [by intros ??; rewrite lookup_empty|].
    intros k. apply rem_nonneg, (inv_books s Hinv), list_elem_of_lookup. eauto.
Qed.

Lemma inv_init n : inv (init n).
Proof.
  assert (Hz : ∀ k, sum_with (rem k) (replicate n ∅) = 0)
    by (intros k; induction n; simpl; [|rewrite IHn]; done).
  split; unfold admitted_in, granted; simpl.
  - intros b Hb. apply elem_of_replicate in Hb as [-> _]. intros ??. by rewrite lookup_empty.
  - intros k. by rewrite lookup_empty.
  - intros k. rewrite Hz, !lookup_empty. simpl. lia.
  - intros k. rewrite lookup_empty. pose proof (budget_pos k.1). lia.
  - intros k n' e. by rewrite lookup_empty.
Qed.

(** C2. The fleet-wide budget holds.  Any number of replicas, with clocks at most
    [skew] away from the Redis server's, sharing the claim script, losing replies,
    restarting and pruning their books, never admit more requests for a key in one
    window than the window's global budget, as long as twice the skew is within the
    longer of the lease and a second. *)
Theorem fleet_respects_window_budget (n : nat) (s : State) (k : string * Z) :
  star step (init n) s →
  admitted_in s k ≤ budget_of k.1.
Proof.
  intros Hstar.
  assert (Hinv : inv s).
  { revert Hstar. apply (star_invariant step inv); [apply inv_init|].
    intros ??. apply inv_step. }
  pose proof (inv_tokens s Hinv k). pose proof (inv_budget s Hinv k).
  pose proof (sum_with_nonneg (rem k) (replicas s)
    (λ b Hb, rem_nonneg k b (inv_books s Hinv b Hb))). lia.
Qed.
End Steps.

(** Two replicas on one key: the third request of the window is throttled on either. *)
Definition demo_quota (_ : string) : Quota :=
  {| quota_rps := 2; quota_burst := 1; quota_lease_ms := 1000 |}.

Lemma fleet_respects_window_budget_witness :
  ∃ s, star (step demo_quota 0) (init 2) s ∧ admitted_in s ("k", 0) = 2 ∧
       admitted_in s ("k", 0) ≤ budget_of demo_quota "k".
Proof.
  set (s := do_check demo_quota 1 "k" 0 (do_check demo_quota 1 "k" 0
              (do_check demo_quota 0 "k" 0 (init 2)))).
  assert (Hs : star (step demo_quota 0) (init 2) s).
  { eapply star_step; [apply (step_check _ _ (init 2) 0 "k" 0); [lia|by vm_compute]|].
    eapply star_step; [apply (step_check _ _ _ 1 "k" 0); [lia|by vm_compute]|].
    eapply star_step; [apply (step_check _ _ _ 1 "k" 0); [lia|by vm_compute]|].
    apply star_refl. }
  exists s. split_and!; [exact Hs|by vm_compute|].
  apply (fleet_respects_window_budget demo_quota 0 ltac:(by intros ?; vm_compute)
    ltac:(by intros ?; vm_compute) 2 s ("k", 0) Hs).
Defined.
End Fleet.
