(* ===== verification/TrafficLayer.v ===== *)
(** * Traffic profiles, their catalog and the gRPC layer

    Models the live profile of [crates/foundation/traffic/src/profile.rs], the
    catalog and the [traffic] section of [crates/foundation/infra-config]
    ([catalog.rs], [traffic.rs]) and the request path of
    [crates/platform/transport/src/grpc/layer/traffic.rs].  The in-process
    limiter (the governor crate) and the distributed backend are parameters. *)

From S2P Require Import Prelude Traffic.
Local Open Scope Z_scope.

(** ** The catalog: named profiles, bindings, a default *)

Module Catalog.

Inductive ConfigError :=
  | UndefinedDefault (section default : string)
  | UnknownProfile (section dependency profile : string)
  | InvalidProfile (name : string) (what : string).

(** [for (k, v) in map { check(k, v)?; }]: the first failing entry, in the map's
    iteration order. *)
Definition check_all {V} (check : string → V → result ConfigError unit)
    (m : gmap string V) : result ConfigError unit :=
  foldr (λ kv acc, check kv.1 kv.2 ≫= λ _, acc) (Ok tt) (map_to_list m).

Definition validate_bindings {S} (section : string) (profiles : gmap string S)
    (bindings : gmap string string) (default : string) : result ConfigError unit :=
  match profiles !! default with
  | None => Err (UndefinedDefault section default)
  | Some _ =>
      check_all (λ dependency profile,
        match profiles !! profile with
        | Some _ => Ok tt
        | None => Err (UnknownProfile section dependency profile)
        end) bindings
  end.

Record Catalog (L : Type) := {
  profiles : gmap string L;
  bindings : gmap string string;
  default_name : string;
}.
Arguments profiles {L} _.
Arguments bindings {L} _.
Arguments default_name {L} _.

(** [None] is the [expect] that panics. *)
Definition profile_for {L} (c : Catalog L) (dependency : string) : option L :=
  let name := default (default_name c) (bindings c !! dependency) in
  match profiles c !! name with
  | Some l => Some l
  | None => profiles c !! default_name c
  end.

Definition profile {L} (c : Catalog L) (name : string) : option L := profiles c !! name.

Definition resolve {L} (c : Catalog L) (dependency : string) : option (string * bool * L) :=
  match bindings c !! dependency with
  | Some name => (λ l, (name, true, l)) <$> profiles c !! name
  | None => (λ l, (default_name c, false, l)) <$> profiles c !! default_name c
  end.

Lemma check_all_ok {V} check (m : gmap string V) :
  check_all check m = Ok tt ↔ ∀ k v, m !! k = Some v → check k v = Ok tt.
Proof.
  unfold check_all. setoid_rewrite <- elem_of_map_to_list.
  induction (map_to_list m) as [|[k v] l IH]; simpl.
  - split; [intros _ k v Hkv; by apply not_elem_of_nil in Hkv|done].
  - rewrite result_bind_ok. split.
    + intros ([] & Hc & Hr) k' v' Hin. apply elem_of_cons in Hin as [[= -> ->]|Hin]; [done|].
      by apply IH.
    + intros Hall. exists tt. split; [apply Hall; set_solver|].
      apply IH. intros. apply Hall. set_solver.
Qed.

Lemma validate_bindings_ok {S} section (ps : gmap string S) bs d :
  validate_bindings section ps bs d = Ok tt ↔
  is_Some (ps !! d) ∧ ∀ dep p, bs !! dep = Some p → is_Some (ps !! p).
Proof.
  unfold validate_bindings. destruct (ps !! d) as [l|] eqn:Hd.
  - rewrite check_all_ok. split.
    + intros Hall. split; [done|]. intros dep p Hp. specialize (Hall dep p Hp). case_match; done.
    + intros [_ Hall] dep p Hp. destruct (Hall dep p Hp) as [x ->]. done.
  - split; [done|]. intros [[? ?] _]. done.
Qed.
End Catalog.

(** ** Live profiles and the request path *)

Section TrafficLayer.

(** The governor: [keyed rps burst] builds a keyed limiter, [check_key] charges
    one cell and answers with the wait when there is none left; [retain_recent]
    drops the keys that no longer limit anything. *)
#[local] Set Default Proof Using "Type".
Context {Lim : Type} (keyed : Z → Z → Lim)
  (check_key : string → Lim → Lim * option Z) (retain_recent : Lim → Lim).

Record TrafficProfile := {
  config : TrafficConfig;
  limiter : Lim;
}.

(** [NonZeroU32::new(value).unwrap_or(MIN)]. *)
Definition nz (value : Z) : Z := if value =? 0 then 1 else value.

Definition build_limiter (c : TrafficConfig) : Lim := keyed (nz (rps c)) (nz (burst c)).

Definition resolve_spec (spec : TrafficConfig) : TrafficProfile :=
  {| config := spec; limiter := build_limiter spec |}.

Definition check_local (key : string) (p : TrafficProfile) : TrafficProfile * TrafficDecision :=
  let '(l', wait) := check_key key (limiter p) in
  ({| config := config p; limiter := l' |},
   match wait with None => Allow | Some w => Throttle w end).

Definition prune_profile (p : TrafficProfile) : TrafficProfile :=
  {| config := config p; limiter := retain_recent (limiter p) |}.

Definition apply_spec (spec : TrafficConfig) (p : TrafficProfile) : TrafficProfile :=
  let quota_changed := negb (rps spec =? rps (config p)) || negb (burst spec =? burst (config p)) in
  {| config := spec; limiter := if quota_changed then build_limiter spec else limiter p |}.

(** *** The [traffic] section and its registry *)

Record TrafficSection := {
  section_profiles : gmap string TrafficConfig;
  section_bindings : gmap string string;
  section_default : string;
}.

Definition validate_spec (name : string) (spec : TrafficConfig) :
    result Catalog.ConfigError unit :=
  if rps spec =? 0 then Err (Catalog.InvalidProfile name "rps must be > 0")
  else if burst spec =? 0 then Err (Catalog.InvalidProfile name "burst must be >= 1")
  else if is_distributed spec
          && negb (match lease_ms spec with Some ms => 0 <? ms | None => false end)
  then Err (Catalog.InvalidProfile name "mode distributed requires lease_ms > 0")
  else Ok tt.

Definition validate (s : TrafficSection) : result Catalog.ConfigError unit :=
  Catalog.validate_bindings "traffic" (section_profiles s) (section_bindings s)
    (section_default s) ≫= λ _,
  Catalog.check_all validate_spec (section_profiles s).

Definition from_section (s : TrafficSection) :
    result Catalog.ConfigError (Catalog.Catalog TrafficProfile) :=
  validate s ≫= λ _,
  Ok {| Catalog.profiles := resolve_spec <$> section_profiles s;
        Catalog.bindings := section_bindings s;
        Catalog.default_name := section_default s |}.

(** Profiles known at boot take the new contents; the topology stays. *)
Definition apply_section (s : TrafficSection) (c : Catalog.Catalog TrafficProfile) :
    Catalog.Catalog TrafficProfile * result Catalog.ConfigError unit :=
  match validate s with
  | Err e => (c, Err e)
  | Ok _ =>
      ({| Catalog.profiles :=
            map_imap (λ name p, Some (match section_profiles s !! name with
                                      | Some spec => apply_spec spec p
                                      | None => p
                                      end)) (Catalog.profiles c);
          Catalog.bindings := Catalog.bindings c;
          Catalog.default_name := Catalog.default_name c |}, Ok tt)
  end.

(** *** One request *)

(** The backend's answer to a check: a decision, or unavailable. *)
Context {Backend : Type}
  (backend_check : string → Quota → Backend → Backend * option TrafficDecision).

Definition distributed_check (p : TrafficProfile) (key : string) (backend : option Backend) :
    TrafficProfile * option Backend * TrafficDecision :=
  match backend with
  | None => let '(p', d) := check_local key p in (p', None, d)
  | Some b =>
      match backend_check key (quota (config p)) b with
      | (b', Some d) => (p, Some b', d)
      | (b', None) =>
          match on_backend_error (config p) with
          | Some FailClosed => (p, Some b', Throttle (quota_lease_ms (quota (config p))))
          | _ => let '(p', d) := check_local key p in (p', Some b', d)
          end
      end
  end.

(** The key charged: [identity] is the identity header's value when it is present
    and readable. *)
Definition extract_key (sc : Scope) (method : string) (identity : option string) : string :=
  match sc with
  | PerMethod => method
  | PerCaller =>
      match identity with
      | Some id => if decide (id = "") then method else String.append method (String.append "|" id)
      | None => method
      end
  end.

Inductive Outcome := Forwarded | Rejected (retry_ms : Z).

(** One increment of the throttle counter, by its labels. *)
Record Throttled := {
  label_profile : string;
  label_route : string;
  label_enforced : bool;
}.

Definition handle_decision (d : TrafficDecision) (profile_name route : string) (enf : bool) :
    list Throttled * Outcome :=
  match d with
  | Allow => ([], Forwarded)
  | Throttle retry_after =>
      ([{| label_profile := profile_name; label_route := route; label_enforced := enf |}],
       if enf then Rejected (Z.min retry_after u64_max) else Forwarded)
  end.

(** The decision for one request: distributed profiles ask the backend, local ones
    their own limiter. *)
Definition request_decision (p : TrafficProfile) (key : string) (backend : option Backend) :
    TrafficProfile * option Backend * TrafficDecision :=
  if is_distributed (config p) then distributed_check p key backend
  else let '(p', d) := check_local key p in (p', backend, d).

(** [TrafficService::call]: [None] is the catalog's panic; the registry is [None]
    when the deployment configures no limiting. *)
Definition call (registry : option (Catalog.Catalog TrafficProfile)) (backend : option Backend)
    (method : string) (identity : option string) :
    option (option (Catalog.Catalog TrafficProfile) * option Backend * list Throttled * Outcome) :=
  match registry with
  | None => Some (None, backend, [], Forwarded)
  | Some c =>
      match Catalog.resolve c method with
      | None => None
      | Some (name, bound, p) =>
          let key := extract_key (scope (config p)) method identity in
          let route := if bound : bool then method else "<unbound>" in
          let '(p', backend', d) := request_decision p key backend in
          let '(ms, o) := handle_decision d name route (enforce (config p)) in
          Some (Some {| Catalog.profiles := <[name := p']> (Catalog.profiles c);
                        Catalog.bindings := Catalog.bindings c;
                        Catalog.default_name := Catalog.default_name c |}, backend', ms, o)
      end
  end.

(** ** Lemmas *)

(** What validation buys: every name resolves, every quota is positive. *)
Definition spec_ok (spec : TrafficConfig) : Prop :=
  rps spec ≠ 0 ∧ burst spec ≠ 0 ∧
  (mode spec = Distributed → ∃ ms, lease_ms spec = Some ms ∧ 0 < ms).

Definition catalog_ok (c : Catalog.Catalog TrafficProfile) : Prop :=
  is_Some (Catalog.profiles c !! Catalog.default_name c) ∧
  (∀ dep name, Catalog.bindings c !! dep = Some name → is_Some (Catalog.profiles c !! name)) ∧
  (∀ name p, Catalog.profiles c !! name = Some p → spec_ok (config p)).

Lemma validate_spec_ok name spec : validate_spec name spec = Ok tt → spec_ok spec.
Proof.
  unfold validate_spec, is_distributed, spec_ok.
  destruct (rps spec =? 0) eqn:?; [done|]. destruct (burst spec =? 0) eqn:?; [done|].
  intros H. zbool. split_and!; [done..|]. intros Hm.
  rewrite bool_decide_eq_true_2 in H by done. simpl in H.
  destruct (lease_ms spec) as [ms|]; [|done]. destruct (0 <? ms) eqn:?; [|done].
  zbool. eauto.
Qed.

Lemma validate_ok s :
  validate s = Ok tt →
  is_Some (section_profiles s !! section_default s) ∧
  (∀ dep name, section_bindings s !! dep = Some name → is_Some (section_profiles s !! name)) ∧
  (∀ name spec, section_profiles s !! name = Some spec → spec_ok spec).
Proof.
  unfold validate. rewrite result_bind_ok. intros ([] & Hb & Hs).
  apply Catalog.validate_bindings_ok in Hb as [Hd Hb]. split_and!; [done..|].
  intros name spec Hn. apply (validate_spec_ok name).
  by apply (proj1 (Catalog.check_all_ok _ _) Hs).
Qed.

Lemma from_section_ok s c : from_section s = Ok c → catalog_ok c.
Proof.
  unfold from_section. rewrite result_bind_ok. intros ([] & Hv & [= <-]).
  apply validate_ok in Hv as (Hd & Hb & Hs). split_and!; simpl.
  - by rewrite lookup_fmap, fmap_is_Some.
  - intros dep name Hn. rewrite lookup_fmap, fmap_is_Some. eauto.
  - intros name p. rewrite lookup_fmap, fmap_Some. intros (spec & Hsp & ->). simpl. eauto.
Qed.

Lemma apply_section_ok s c : catalog_ok c → catalog_ok (apply_section s c).1.
Proof.
  intros (Hd & Hb & Hs). unfold apply_section. destruct (validate s) as [[]|] eqn:Hv; [|done].
  apply validate_ok in Hv as (_ & _ & Hsec). split_and!; simpl.
  - rewrite map_lookup_imap. destruct Hd as [p ->]. simpl. done.
  - intros dep name Hn. rewrite map_lookup_imap. destruct (Hb dep name Hn) as [p ->]. done.
  - intros name p. rewrite map_lookup_imap.
    destruct (Catalog.profiles c !! name) as [p0|] eqn:Hp; [|done]. simpl. intros [= <-].
    destruct (section_profiles s !! name) eqn:Hn; [by eapply Hsec|by eapply Hs].
Qed.

Lemma resolve_total c method :
  catalog_ok c → ∃ name bound p,
    Catalog.resolve c method = Some (name, bound, p) ∧
    Catalog.profiles c !! name = Some p ∧ spec_ok (config p).
Proof.
  intros (Hd & Hb & Hs). unfold Catalog.resolve.
  destruct (Catalog.bindings c !! method) as [name|] eqn:Hm.
  - destruct (Hb _ _ Hm) as [p Hp]. rewrite Hp. eexists _, _, _. split_and!; eauto.
  - destruct Hd as [p Hp]. rewrite Hp. eexists _, _, _. split_and!; eauto.
Qed.

Lemma check_local_config key p : config (check_local key p).1 = config p.
Proof. unfold check_local. destruct (check_key _ _). done. Qed.

Lemma request_decision_config p key b :
  config (request_decision p key b).1.1 = config p.
Proof.
  pose proof (check_local_config key p). unfold request_decision, distributed_check.
  destruct (is_distributed _); [|by destruct (check_local key p)].
  destruct b as [b|]; [|by destruct (check_local key p)].
  destruct (backend_check _ _ _) as [b' [d|]]; [done|].
  destruct (on_backend_error _) as [[]|]; try done; by destruct (check_local key p).
Qed.

Lemma call_ok c b method identity c' b' ms o :
  catalog_ok c → call (Some c) b method identity = Some (Some c', b', ms, o) → catalog_ok c'.
Proof.
  intros Hok Hc. destruct (resolve_total c method Hok) as (name & bound & p & Hr & Hp & Hsp).
  cbn [call] in Hc. rewrite Hr in Hc.
  pose proof (request_decision_config p (extract_key (scope (config p)) method identity) b) as Hcfg.
  destruct (request_decision _ _ _) as [[p' bk] d]. simpl in Hcfg.
  destruct (handle_decision d name _ _) as [ms' o'] eqn:Hh. injection Hc as <- _ _ _.
  destruct Hok as (Hd & Hb & Hs). split_and!; simpl.
  - rewrite lookup_insert. case_decide; done.
  - intros dep nm Hn. rewrite lookup_insert. case_decide; [done|eauto].
  - intros nm q. rewrite lookup_insert. case_decide; [|apply Hs].
    intros [= <-]. by rewrite Hcfg.
Qed.

(** A running server: requests and configuration reloads, in any order. *)
Inductive serve : Catalog.Catalog TrafficProfile * option Backend →
    Catalog.Catalog TrafficProfile * option Backend → Prop :=
  | serve_call c b method identity c' b' ms o :
      call (Some c) b method identity = Some (Some c', b', ms, o) →
      serve (c, b) (c', b')
  | serve_reload c b s : serve (c, b) ((apply_section s c).1, b).

(** ** Properties *)

(** Every method is limited.  Once a section has been accepted at boot, after
    any sequence of requests and reloads (valid or rejected ones), every method
    path, bound or not, resolves to a profile with a positive quota, and the
    request path never panics. *)
Theorem every_method_stays_limited (s : TrafficSection) (c0 : Catalog.Catalog TrafficProfile)
    (b0 : option Backend) (c : Catalog.Catalog TrafficProfile) (b : option Backend)
    (method : string) (identity : option string) :
  from_section s = Ok c0 → star serve (c0, b0) (c, b) →
  (∃ name bound p, Catalog.resolve c method = Some (name, bound, p) ∧ spec_ok (config p)) ∧
  is_Some (call (Some c) b method identity).
Proof.
  intros Hs Hstar.
  assert (Hok : catalog_ok (c, b).1).
  { revert Hstar. apply (star_invariant serve (λ st, catalog_ok st.1)).
    - by eapply from_section_ok.
    - intros s1 s2 [] Hok; simpl in *; [by eapply call_ok|by apply apply_section_ok]. }
  simpl in Hok. destruct (resolve_total c method Hok) as (name & bound & p & Hr & _ & Hsp).
  split; [eauto|]. simpl. rewrite Hr.
  destruct (request_decision _ _ _) as [[p' bk] d].
  destruct (handle_decision _ _ _ _). done.
Qed.

(** Enforcement.  For a request resolved to profile [p], the request is
    rejected exactly when the profile enforces and the decision is to throttle;
    each throttle decision, enforced or shadowed, is counted once.  For a
    distributed profile with a backend, the decision is the backend's; when the
    backend is unavailable a fail-closed profile throttles for its lease window
    and any other one uses the local limiter. *)
Theorem call_enforces_decision (c : Catalog.Catalog TrafficProfile) (b : option Backend)
    (method : string) (identity : option string) (name : string) (bound : bool)
    (p : TrafficProfile) c' b' ms o :
  Catalog.resolve c method = Some (name, bound, p) →
  call (Some c) b method identity = Some (c', b', ms, o) →
  let key := extract_key (scope (config p)) method identity in
  ∃ d, ms = (if decide (d = Allow) then []
             else [{| label_profile := name;
                      label_route := if bound then method else "<unbound>";
                      label_enforced := enforce (config p) |}]) ∧
  (o = Forwarded ↔ d = Allow ∨ enforce (config p) = false) ∧
  match mode (config p), b with
  | Distributed, Some bk =>
      match (backend_check key (quota (config p)) bk).2 with
      | Some dec => d = dec
      | None => if decide (on_backend_error (config p) = Some FailClosed)
                then d = Throttle (quota_lease_ms (quota (config p)))
                else d = (check_local key p).2
      end
  | _, _ => d = (check_local key p).2
  end.
Proof.
  clear keyed retain_recent. intros Hr Hc key. cbn [call] in Hc. rewrite Hr in Hc. fold key in Hc.
  destruct (request_decision p key b) as [[p' bk'] d] eqn:E.
  exists d. split_and!.
  - unfold handle_decision in Hc. destruct d; injection Hc as _ _ <- _; done.
  - unfold handle_decision in Hc. destruct d, (enforce (config p)); injection Hc as _ _ _ <-;
      naive_solver.
  - unfold request_decision, is_distributed in E. destruct (mode (config p)).
    + rewrite bool_decide_eq_false_2 in E by done. destruct (check_local key p).
      by simplify_eq.
    + rewrite bool_decide_eq_true_2 in E by done. unfold distributed_check in E.
      destruct b as [bk|]; [|destruct (check_local key p); by simplify_eq].
      destruct (backend_check _ _ _) as [bk2 [dec|]]; simpl; [by simplify_eq|].
      destruct (on_backend_error (config p)) as [[]|]; try case_decide;
        try destruct (check_local key p); by simplify_eq.
Qed.
End TrafficLayer.

(** ** Witnesses: a counting limiter and a backend that is down *)

Definition demo_spec (m : Mode) : TrafficConfig := {|
  rps := 10; burst := 2; scope := PerCaller; mode := m; enforce := true;
  lease_ms := Some 500; on_backend_error := Some FailClosed |}.

Definition demo_section : TrafficSection := {|
  section_profiles := {["std" := demo_spec Local; "dist" := demo_spec Distributed]};
  section_bindings := {["/post/Create" := "dist"]};
  section_default := "std" |}.

Definition demo_keyed (_ burst : Z) : Z := burst.
Definition demo_check (_ : string) (left : Z) : Z * option Z :=
  if 0 <? left then (left - 1, None) else (left, Some 100).
Definition demo_down (_ : string) (_ : Quota) (u : unit) : unit * option TrafficDecision :=
  (u, None).

Definition demo_catalog : Catalog.Catalog TrafficProfile := {|
  Catalog.profiles := resolve_spec demo_keyed <$> section_profiles demo_section;
  Catalog.bindings := section_bindings demo_section;
  Catalog.default_name := "std" |}.

Lemma every_method_stays_limited_witness :
  is_Some (call demo_check demo_down (Some demo_catalog) (Some tt) "/any" None).
Proof.
  apply (every_method_stays_limited demo_keyed demo_check demo_down demo_section demo_catalog
    (Some tt) demo_catalog (Some tt) "/any" None); [by vm_compute|apply star_refl].
Defined.

Lemma call_enforces_decision_witness :
  ∃ c' b' ms, call demo_check demo_down (Some demo_catalog) (Some tt) "/post/Create" (Some "u1")
    = Some (c', b', ms, Rejected 500) ∧ length ms = 1%nat.
Proof.
  destruct (call demo_check demo_down (Some demo_catalog) (Some tt) "/post/Create" (Some "u1"))
    as [[[[c' b'] ms] o]|] eqn:Hc; [|vm_compute in Hc; done].
  destruct (call_enforces_decision demo_check demo_down demo_catalog (Some tt) "/post/Create"
    (Some "u1") "dist" true (resolve_spec demo_keyed (demo_spec Distributed)) c' b' ms o)
    as (d & Hms & Ho & Hd); [by vm_compute|exact Hc|].
  exists c', b', ms. vm_compute in Hc. injection Hc as <- <- <- <-. done.
Defined.
