(* ===== verification/AuthDomain.v ===== *)
(** * Auth: the domain layer

    Models [crates/services/auth/src/domain] and its error type: the value
    objects, the domain events and the three aggregates (session, refresh token,
    subject link), each command a function to [result AuthError].  Instants and
    durations are [Z] nanoseconds; identifiers are opaque UUIDs, and an identifier
    the code draws with [Uuid::now_v7] is an argument of the operation. *)

From S2P Require Import Prelude.
Local Open Scope Z_scope.

Definition Uuid : Type := N.

(** ** Errors *)

(** A violated field: name, code, message. *)
Record FieldViolation := mk_violation {
  violation_field : string;
  violation_code : string;
  violation_message : string;
}.

Inductive AuthError :=
  | Storage (what : string)
  | Cache (what : string)
  | Validation (vs : list FieldViolation)
  | EventPublishFailed (what : string)
  | ConcurrentModification
  | SessionNotFound (id : Uuid)
  | SessionRevokedErr
  | SessionExpired
  | InvalidSessionTransition (from to : string)
  | RefreshTokenNotFound
  | RefreshTokenExpired
  | RefreshTokenReuseDetected
  | RefreshTokenAlreadyRotated
  | SubjectLinkNotFound (iss sub : string)
  | SubjectAlreadyLinked (iss sub : string)
  | TokenSigningFailed
  | SigningKeyUnavailable
  | InvalidTokenGeneration
  | IdpUnavailable
  | IdpAuthenticationFailed
  | IdpTokenRejected
  | ClaimsNormalizationFailed (what : string)
  | AccountNotActive (current : string)
  | AccountDirectoryUnavailable
  | DomainViolation (field message : string)
  | InvalidSessionId (s : string)
  | InvalidAccountId (s : string).

(** ** Value objects *)

Inductive SessionStatus := Active | Revoked | Expired.

#[export] Instance SessionStatus_eq_dec : EqDecision SessionStatus.
Proof. solve_decision. Defined.

Definition session_status_str (s : SessionStatus) : string :=
  match s with Active => "active" | Revoked => "revoked" | Expired => "expired" end.

Definition can_transition_to (s next : SessionStatus) : bool :=
  match s, next with
  | Active, Revoked | Active, Expired => true
  | _, _ => false
  end.

Definition session_status_is_terminal (s : SessionStatus) : bool :=
  match s with Revoked | Expired => true | Active => false end.

Definition parse_session_status (s : string) : result AuthError SessionStatus :=
  if decide (s = "active") then Ok Active
  else if decide (s = "revoked") then Ok Revoked
  else if decide (s = "expired") then Ok Expired
  else Err (DomainViolation "session_status" ("unknown session status: '" +:+ s +:+ "'")).

Inductive RefreshTokenStatus := TokenActive | TokenRotated | TokenRevoked.

#[export] Instance RefreshTokenStatus_eq_dec : EqDecision RefreshTokenStatus.
Proof. solve_decision. Defined.

Definition token_status_str (s : RefreshTokenStatus) : string :=
  match s with
  | TokenActive => "active" | TokenRotated => "rotated" | TokenRevoked => "revoked"
  end.

Definition parse_token_status (s : string) : result AuthError RefreshTokenStatus :=
  if decide (s = "active") then Ok TokenActive
  else if decide (s = "rotated") then Ok TokenRotated
  else if decide (s = "revoked") then Ok TokenRevoked
  else Err (DomainViolation "refresh_token_status"
              ("unknown refresh-token status: '" +:+ s +:+ "'")).

Inductive RevocationReason := Logout | GlobalLogout | RefreshReuse | Administrative.

Definition reason_str (r : RevocationReason) : string :=
  match r with
  | Logout => "logout" | GlobalLogout => "global_logout"
  | RefreshReuse => "refresh_reuse" | Administrative => "administrative"
  end.

Definition parse_reason (s : string) : result AuthError RevocationReason :=
  if decide (s = "logout") then Ok Logout
  else if decide (s = "global_logout") then Ok GlobalLogout
  else if decide (s = "refresh_reuse") then Ok RefreshReuse
  else if decide (s = "administrative") then Ok Administrative
  else Err (DomainViolation "revocation_reason" ("unknown revocation reason: '" +:+ s +:+ "'")).

(** [Generation]: an [i64] epoch. *)
Definition generation_initial : Z := 0.
Definition generation_next (g : Z) : Z := i64_saturating_add g 1.

Record IdpSubject := {
  issuer : string;
  subject : string;
}.

#[export] Instance IdpSubject_eq_dec : EqDecision IdpSubject.
Proof. solve_decision. Defined.

Definition idp_subject_new (iss sub : string) : result AuthError IdpSubject :=
  if trim_is_empty iss
  then Err (DomainViolation "idp_subject.issuer" "issuer must not be empty")
  else if trim_is_empty sub
  then Err (DomainViolation "idp_subject.subject" "subject must not be empty")
  else Ok {| issuer := iss; subject := sub |}.

Definition refresh_token_hash_new (hash : string) : result AuthError string :=
  if trim_is_empty hash
  then Err (DomainViolation "refresh_token_hash" "hash must not be empty")
  else Ok hash.

Record DeviceFingerprint := {
  user_agent : option string;
  ip_address : option string;
  device_id : option string;
}.

Definition same_device_as (a b : DeviceFingerprint) : bool :=
  match device_id a, device_id b with
  | Some x, Some y => bool_decide (x = y)
  | _, _ => true
  end.

Record AccessTokenClaims := {
  claims_account_id : Uuid;
  claims_session_id : Uuid;
  claims_generation : Z;
  claims_permissions : list string;
  claims_issued_at : Z;
  claims_expires_at : Z;
}.

(** Nanoseconds in a second; [Duration::num_seconds] truncates toward zero. *)
Definition NS : Z := 1000000000.
Definition num_seconds (d : Z) : Z := Z.quot d NS.

Definition expires_in_secs (c : AccessTokenClaims) (now : Z) : Z :=
  Z.max (num_seconds (claims_expires_at c - now)) 0.

(** ** Domain events *)

Inductive DomainEvent :=
  | SessionIssued (session_id account_id : Uuid) (subj : IdpSubject) (generation : Z)
      (issued_at expires_at absolute_expiry occurred_at : Z) (correlation_id : Uuid)
  | SessionRevoked (session_id account_id : Uuid) (generation : Z)
      (reason : RevocationReason) (occurred_at : Z) (correlation_id : Uuid)
  | SubjectLinked (account_id : Uuid) (subj : IdpSubject) (occurred_at : Z)
      (correlation_id : Uuid).

Definition event_type (e : DomainEvent) : string :=
  match e with
  | SessionIssued _ _ _ _ _ _ _ _ _ => "auth.session_issued"
  | SessionRevoked _ _ _ _ _ _ => "auth.session_revoked"
  | SubjectLinked _ _ _ _ => "auth.subject_linked"
  end.

(** ** The session aggregate *)

Module Session.

Record Session := {
  id : Uuid;
  account_id : Uuid;
  subject : IdpSubject;
  generation : Z;
  status : SessionStatus;
  device : DeviceFingerprint;
  issued_at : Z;
  expires_at : Z;
  absolute_expiry : Z;
  revoked_at : option Z;
  version : Z;
  pending_events : list DomainEvent;
}.

Record SessionIssueParams := {
  p_account_id : Uuid;
  p_subject : IdpSubject;
  p_generation : Z;
  p_device : DeviceFingerprint;
  p_issued_at : Z;
  p_expires_at : Z;
  p_absolute_expiry : Z;
  p_correlation_id : Uuid;
}.

(** [new_id] is the identifier drawn by [SessionId::new]. *)
Definition issue (new_id : Uuid) (p : SessionIssueParams) : result AuthError Session :=
  if p_expires_at p <=? p_issued_at p then
    Err (DomainViolation "session.expires_at" "session expiry must be after its issue time")
  else if p_absolute_expiry p <? p_expires_at p then
    Err (DomainViolation "session.absolute_expiry"
           "absolute expiry must be at or after the sliding expiry")
  else
    Ok {| id := new_id;
          account_id := p_account_id p;
          subject := p_subject p;
          generation := p_generation p;
          status := Active;
          device := p_device p;
          issued_at := p_issued_at p;
          expires_at := p_expires_at p;
          absolute_expiry := p_absolute_expiry p;
          revoked_at := None;
          version := 0;
          pending_events :=
            [SessionIssued new_id (p_account_id p) (p_subject p) (p_generation p)
               (p_issued_at p) (p_expires_at p) (p_absolute_expiry p) (p_issued_at p)
               (p_correlation_id p)] |}.

Definition reconstitute (id account_id : Uuid) (subject : IdpSubject) (generation : Z)
    (status : SessionStatus) (device : DeviceFingerprint)
    (issued_at expires_at absolute_expiry : Z) (revoked_at : option Z) (version : Z) : Session :=
  {| id := id; account_id := account_id; subject := subject; generation := generation;
     status := status; device := device; issued_at := issued_at; expires_at := expires_at;
     absolute_expiry := absolute_expiry; revoked_at := revoked_at; version := version;
     pending_events := [] |}.

Definition is_expired (s : Session) (now : Z) : bool :=
  (expires_at s <=? now) || (absolute_expiry s <=? now).

Definition is_valid_under (s : Session) (current_generation now : Z) : bool :=
  bool_decide (status s = Active) && negb (is_expired s now)
  && (generation s =? current_generation).

Definition ensure_mintable (s : Session) (now : Z) : result AuthError unit :=
  match status s with
  | Revoked => Err SessionRevokedErr
  | Expired => Err SessionExpired
  | Active => if is_expired s now then Err SessionExpired else Ok tt
  end.

Definition mint_access_token (s : Session) (now requested_ttl : Z) (permissions : list string) :
    result AuthError AccessTokenClaims :=
  ensure_mintable s now ≫= λ _,
  let horizon := Z.min (expires_at s) (absolute_expiry s) in
  let exp := Z.min (now + requested_ttl) horizon in
  if exp <=? now then Err SessionExpired
  else Ok {| claims_account_id := account_id s;
             claims_session_id := id s;
             claims_generation := generation s;
             claims_permissions := permissions;
             claims_issued_at := now;
             claims_expires_at := exp |}.

(** [touch] *)
Definition touch (v : Z) : Z := i64_add v 1.

Definition set_expires_at (e : Z) (s : Session) : Session :=
  {| id := id s; account_id := account_id s; subject := subject s; generation := generation s;
     status := status s; device := device s; issued_at := issued_at s; expires_at := e;
     absolute_expiry := absolute_expiry s; revoked_at := revoked_at s;
     version := touch (version s); pending_events := pending_events s |}.

Definition extend (s : Session) (now ttl : Z) : result AuthError Session :=
  ensure_mintable s now ≫= λ _,
  let proposed := Z.min (now + ttl) (absolute_expiry s) in
  Ok (if expires_at s <? proposed then set_expires_at proposed s else s).

Definition transition_to (s : Session) (next : SessionStatus) : result AuthError Session :=
  if can_transition_to (status s) next then
    Ok {| id := id s; account_id := account_id s; subject := subject s;
          generation := generation s; status := next; device := device s;
          issued_at := issued_at s; expires_at := expires_at s;
          absolute_expiry := absolute_expiry s; revoked_at := revoked_at s;
          version := version s; pending_events := pending_events s |}
  else Err (InvalidSessionTransition (session_status_str (status s)) (session_status_str next)).

Definition revoke (s : Session) (now : Z) (reason : RevocationReason) (correlation_id : Uuid) :
    result AuthError Session :=
  transition_to s Revoked ≫= λ s,
  Ok {| id := id s; account_id := account_id s; subject := subject s;
        generation := generation s; status := status s; device := device s;
        issued_at := issued_at s; expires_at := expires_at s;
        absolute_expiry := absolute_expiry s; revoked_at := Some now;
        version := touch (version s);
        pending_events := pending_events s ++
          [SessionRevoked (id s) (account_id s) (generation s) reason now correlation_id] |}.

Definition mark_expired (s : Session) (now : Z) : result AuthError Session :=
  if negb (is_expired s now) then
    Err (DomainViolation "session" "session has not yet reached its expiry")
  else
    transition_to s Expired ≫= λ s,
    Ok {| id := id s; account_id := account_id s; subject := subject s;
          generation := generation s; status := status s; device := device s;
          issued_at := issued_at s; expires_at := expires_at s;
          absolute_expiry := absolute_expiry s; revoked_at := revoked_at s;
          version := touch (version s); pending_events := pending_events s |}.

Definition drain_events (s : Session) : Session * list DomainEvent :=
  ({| id := id s; account_id := account_id s; subject := subject s;
      generation := generation s; status := status s; device := device s;
      issued_at := issued_at s; expires_at := expires_at s;
      absolute_expiry := absolute_expiry s; revoked_at := revoked_at s;
      version := version s; pending_events := [] |}, pending_events s).

End Session.

(** ** The refresh-token aggregate *)

Module RefreshToken.

Record RefreshToken := {
  id : Uuid;
  session_id : Uuid;
  account_id : Uuid;
  token_hash : string;
  status : RefreshTokenStatus;
  issued_at : Z;
  expires_at : Z;
  used_at : option Z;
  replaced_by : option Uuid;
  version : Z;
}.

Record RefreshTokenIssueParams := {
  p_session_id : Uuid;
  p_account_id : Uuid;
  p_token_hash : string;
  p_issued_at : Z;
  p_expires_at : Z;
}.

Definition issue (new_id : Uuid) (p : RefreshTokenIssueParams) : result AuthError RefreshToken :=
  if p_expires_at p <=? p_issued_at p then
    Err (DomainViolation "refresh_token.expires_at"
           "refresh-token expiry must be after its issue time")
  else Ok {| id := new_id; session_id := p_session_id p; account_id := p_account_id p;
             token_hash := p_token_hash p; status := TokenActive;
             issued_at := p_issued_at p; expires_at := p_expires_at p;
             used_at := None; replaced_by := None; version := 0 |}.

Definition reconstitute (id session_id account_id : Uuid) (token_hash : string)
    (status : RefreshTokenStatus) (issued_at expires_at : Z) (used_at : option Z)
    (replaced_by : option Uuid) (version : Z) : RefreshToken :=
  {| id := id; session_id := session_id; account_id := account_id; token_hash := token_hash;
     status := status; issued_at := issued_at; expires_at := expires_at; used_at := used_at;
     replaced_by := replaced_by; version := version |}.

Definition is_expired (t : RefreshToken) (now : Z) : bool := expires_at t <=? now.

Definition touch (v : Z) : Z := i64_add v 1.

(** The token after [rotate] and its successor. *)
Definition rotate (t : RefreshToken) (new_id : Uuid) (now : Z) (new_hash : string)
    (new_expires_at : Z) : result AuthError (RefreshToken * RefreshToken) :=
  match status t with
  | TokenRotated => Err RefreshTokenReuseDetected
  | TokenRevoked => Err RefreshTokenAlreadyRotated
  | TokenActive =>
      if is_expired t now then Err RefreshTokenExpired
      else
        issue new_id {| p_session_id := session_id t; p_account_id := account_id t;
                        p_token_hash := new_hash; p_issued_at := now;
                        p_expires_at := new_expires_at |} ≫= λ successor,
        Ok ({| id := id t; session_id := session_id t; account_id := account_id t;
               token_hash := token_hash t; status := TokenRotated;
               issued_at := issued_at t; expires_at := expires_at t;
               used_at := Some now; replaced_by := Some (id successor);
               version := touch (version t) |}, successor)
  end.

Definition revoke (t : RefreshToken) (now : Z) : result AuthError RefreshToken :=
  match status t with
  | TokenActive =>
      Ok {| id := id t; session_id := session_id t; account_id := account_id t;
            token_hash := token_hash t; status := TokenRevoked;
            issued_at := issued_at t; expires_at := expires_at t;
            used_at := Some now; replaced_by := replaced_by t; version := touch (version t) |}
  | TokenRotated => Err RefreshTokenAlreadyRotated
  | TokenRevoked => Err (InvalidSessionTransition "revoked" "revoked")
  end.

End RefreshToken.

(** ** The subject link *)

Module SubjectLink.

Record SubjectLink := {
  subject : IdpSubject;
  account_id : Uuid;
  linked_at : Z;
  version : Z;
  pending_events : list DomainEvent;
}.

Definition establish (subject : IdpSubject) (account_id : Uuid) (now : Z)
    (correlation_id : Uuid) : SubjectLink :=
  {| subject := subject; account_id := account_id; linked_at := now; version := 0;
     pending_events := [SubjectLinked account_id subject now correlation_id] |}.

Definition reconstitute (subject : IdpSubject) (account_id : Uuid) (linked_at version : Z) :
    SubjectLink :=
  {| subject := subject; account_id := account_id; linked_at := linked_at; version := version;
     pending_events := [] |}.

Definition drain_events (l : SubjectLink) : SubjectLink * list DomainEvent :=
  ({| subject := subject l; account_id := account_id l; linked_at := linked_at l;
      version := version l; pending_events := [] |}, pending_events l).

End SubjectLink.

(** ** Session lifecycle *)

Section SessionFacts.
Import Session.

(** The commands a session goes through after its issue. *)
Inductive evolves : Session → Session → Prop :=
  | evolves_extend s now ttl s' : extend s now ttl = Ok s' → evolves s s'
  | evolves_revoke s now reason corr s' : revoke s now reason corr = Ok s' → evolves s s'
  | evolves_expire s now s' : mark_expired s now = Ok s' → evolves s s'
  | evolves_drain s : evolves s (drain_events s).1.

Record session_wf (s : Session) : Prop := {
  wf_window : issued_at s < expires_at s ≤ absolute_expiry s;
  wf_revoked : status s = Revoked ↔ is_Some (revoked_at s);
}.

(** What never changes, what only grows, and what is final. *)
Definition session_progress (s s' : Session) : Prop :=
  id s' = id s ∧ account_id s' = account_id s ∧ subject s' = subject s ∧
  generation s' = generation s ∧ device s' = device s ∧ issued_at s' = issued_at s ∧
  absolute_expiry s' = absolute_expiry s ∧ expires_at s ≤ expires_at s' ∧
  (status s ≠ Active → status s' = status s ∧ expires_at s' = expires_at s).

Lemma session_progress_trans s1 s2 s3 :
  session_progress s1 s2 → session_progress s2 s3 → session_progress s1 s3.
Proof.
  unfold session_progress. intros H12 H23. destruct_and!. split_and!; try congruence; [lia|].
  intros Hs. destruct (decide (status s2 = Active)); naive_solver congruence.
Qed.

Lemma ensure_mintable_ok s now :
  ensure_mintable s now = Ok tt ↔ status s = Active ∧ is_expired s now = false.
Proof.
  unfold ensure_mintable. destruct (status s), (is_expired s now); naive_solver.
Qed.

Lemma transition_to_ok s next s' :
  transition_to s next = Ok s' →
  status s = Active ∧ next ≠ Active ∧ status s' = next ∧ id s' = id s ∧
  account_id s' = account_id s ∧ subject s' = subject s ∧ generation s' = generation s ∧
  device s' = device s ∧ issued_at s' = issued_at s ∧ expires_at s' = expires_at s ∧
  absolute_expiry s' = absolute_expiry s ∧ revoked_at s' = revoked_at s ∧
  version s' = version s ∧ pending_events s' = pending_events s.
Proof.
  unfold transition_to, can_transition_to. destruct (status s), next; naive_solver.
Qed.

Lemma evolves_ok s s' : evolves s s' → session_wf s → session_wf s' ∧ session_progress s s'.
Proof.
  unfold session_progress. intros Hev [Hw Hr].
  destruct Hev as [s now ttl s' He|s now reason corr s' He|s now s' He|s].
  - unfold extend in He. apply result_bind_ok in He as ([] & Hm & [= <-]).
    apply ensure_mintable_ok in Hm as [Ha _].
    destruct (_ <? _) eqn:Hlt; zbool.
    + split; [split; simpl; [lia|done]|]. simpl. split_and!; (done || lia).
    + split; [by split|]. split_and!; (done || lia).
  - unfold revoke in He. apply result_bind_ok in He as (s1 & Ht & [= <-]).
    apply transition_to_ok in Ht. destruct_and!. split; [split|]; simpl.
    + lia.
    + split; [done|congruence].
    + split_and!; simpl; (congruence || lia).
  - unfold mark_expired in He. destruct (negb _); [done|].
    apply result_bind_ok in He as (s1 & Ht & [= <-]).
    apply transition_to_ok in Ht. destruct_and!. split; [split|]; simpl.
    + lia.
    + split; [congruence|]. intros Hs. exfalso. assert (status s = Revoked) by (apply Hr; congruence).
      congruence.
    + split_and!; simpl; (congruence || lia).
  - split; [by split|]. simpl. split_and!; (done || lia).
Qed.

(** A session keeps its window and its terminal states.  Any sequence of
    commands on an issued session keeps the sliding expiry after the issue time and
    at or under the absolute cap, never changes the identity, generation, device or
    cap, never moves the expiry back, records a revocation time exactly when it is
    revoked, and never leaves [Revoked] or [Expired]. *)
Theorem session_lifecycle (new_id : Uuid) (p : SessionIssueParams) (s0 s1 s2 : Session) :
  issue new_id p = Ok s0 → star evolves s0 s1 → star evolves s1 s2 →
  session_wf s2 ∧ session_progress s1 s2 ∧ absolute_expiry s2 = p_absolute_expiry p ∧
  generation s2 = p_generation p.
Proof.
  intros Hi H01 H12.
  assert (Hinit : session_wf s0 ∧ absolute_expiry s0 = p_absolute_expiry p ∧
    generation s0 = p_generation p).
  { unfold issue in Hi. destruct (_ <=? _) eqn:H1; [done|]. destruct (_ <? _) eqn:H2; [done|].
    zbool. injection Hi as <-. split; [|done]. split; simpl; [lia|].
    split; [done|]. by intros [? ?]. }
  destruct Hinit as (Hw & Ha & Hg).
  assert (Hrun : ∀ s s', star evolves s s' → session_wf s → session_wf s' ∧ session_progress s s').
  { induction 1 as [s|s s' s'' Hst _ IH]; intros Hws.
    - split; [done|]. unfold session_progress. split_and!; (done || lia).
    - destruct (evolves_ok s s' Hst Hws) as [Hw' Hp]. destruct (IH Hw') as [Hw'' Hp'].
      split; [done|]. by eapply session_progress_trans. }
  destruct (Hrun _ _ H01 Hw) as [Hw1 Hp1]. destruct (Hrun _ _ H12 Hw1) as [Hw2 Hp2].
  split_and!; [done|done| |]; unfold session_progress in *; destruct_and!; congruence.
Qed.

(** Minted tokens live within their session.  A mint succeeds exactly when the
    session is active, unexpired and a positive lifetime is asked; the claims name
    the session, its account and its generation, and expire after now, at or before
    the requested lifetime, the sliding expiry and the absolute cap. *)
Theorem mint_within_session (s : Session) (now ttl : Z) (perms : list string) :
  (is_ok (mint_access_token s now ttl perms) = true ↔
     status s = Active ∧ is_expired s now = false ∧ 0 < ttl) ∧
  ∀ c, mint_access_token s now ttl perms = Ok c →
    now < claims_expires_at c ∧ claims_expires_at c ≤ now + ttl ∧
    claims_expires_at c ≤ expires_at s ∧ claims_expires_at c ≤ absolute_expiry s ∧
    claims_session_id c = id s ∧ claims_account_id c = account_id s ∧
    claims_generation c = generation s ∧ claims_permissions c = perms ∧
    0 ≤ expires_in_secs c now.
Proof.
  unfold mint_access_token. split.
  - destruct (ensure_mintable s now) as [[]|e] eqn:Hm; simpl.
    + apply ensure_mintable_ok in Hm as [Ha He]. rewrite He. unfold is_expired in He. zbool.
      destruct (_ <=? now) eqn:Hc in |- *; simpl; zbool; split; try done.
      * intros (_ & _ & Ht). lia.
      * intros _. split_and!; (done || lia).
    + split; [done|]. intros (Ha & He & _).
      rewrite (proj2 (ensure_mintable_ok s now) (conj Ha He)) in Hm. done.
  - intros c Hc. apply result_bind_ok in Hc as ([] & _ & Hc).
    destruct (_ <=? now) eqn:Hle in Hc; zbool; [done|]. injection Hc as <-. simpl.
    unfold expires_in_secs. simpl. split_and!; (done || lia).
Qed.
End SessionFacts.

Section RefreshFacts.
Import RefreshToken.

(** Refresh tokens rotate once.  Rotation succeeds exactly on an active,
    unexpired token with a positive new lifetime; the successor is an active token
    of the same session and account, linked from the rotated one; and the rotated
    token can neither be rotated again (that is the reuse signal, at any time and
    with any successor) nor revoked. *)
Theorem rotation_is_single_use (t : RefreshToken) (new_id : Uuid) (now : Z) (hash : string)
    (exp : Z) :
  (is_ok (rotate t new_id now hash exp) = true ↔
     status t = TokenActive ∧ now < expires_at t ∧ now < exp) ∧
  ∀ t' succ, rotate t new_id now hash exp = Ok (t', succ) →
    status t' = TokenRotated ∧ replaced_by t' = Some (id succ) ∧ id t' = id t ∧
    token_hash t' = token_hash t ∧ used_at t' = Some now ∧ version t' = touch (version t) ∧
    status succ = TokenActive ∧ session_id succ = session_id t ∧
    account_id succ = account_id t ∧ token_hash succ = hash ∧ version succ = 0 ∧
    (∀ id2 now2 hash2 exp2, rotate t' id2 now2 hash2 exp2 = Err RefreshTokenReuseDetected) ∧
    (∀ now2, revoke t' now2 = Err RefreshTokenAlreadyRotated).
Proof.
  unfold rotate, issue, is_expired. simpl. split.
  - destruct (status t); simpl; [|naive_solver..].
    destruct (expires_at t <=? now) eqn:H1; zbool; simpl; [naive_solver lia|].
    destruct (exp <=? now) eqn:H2; zbool; simpl; naive_solver lia.
  - intros t' succ Hr. destruct (status t) eqn:Hs; [|done..].
    destruct (expires_at t <=? now); [done|]. destruct (exp <=? now); [done|].
    simpl in Hr. injection Hr as <- <-. simpl. done.
Qed.
End RefreshFacts.

(** ** Witnesses *)

Definition demo_subject : IdpSubject := {| issuer := "iss"; subject := "sub" |}.
Definition demo_device : DeviceFingerprint :=
  {| user_agent := None; ip_address := None; device_id := Some "d1" |}.
Definition demo_params : Session.SessionIssueParams :=
  {| Session.p_account_id := 7%N; Session.p_subject := demo_subject; Session.p_generation := 0;
     Session.p_device := demo_device; Session.p_issued_at := 0;
     Session.p_expires_at := 1800 * NS; Session.p_absolute_expiry := 28800 * NS;
     Session.p_correlation_id := 99%N |}.
Definition demo_session : Session.Session :=
  match Session.issue 1%N demo_params with
  | Ok s => s
  | Err _ => Session.reconstitute 0%N 0%N demo_subject 0 Expired demo_device 0 0 0 None 0
  end.

Lemma session_lifecycle_witness :
  ∃ s, star evolves demo_session s ∧ Session.status s = Revoked ∧ session_wf s.
Proof.
  destruct (Session.revoke demo_session (5 * NS) Logout 99%N) as [s|] eqn:Hr;
    [|vm_compute in Hr; done].
  exists s. assert (Hs : star evolves demo_session s).
  { eapply star_step; [eapply evolves_revoke; exact Hr|apply star_refl]. }
  split_and!; [exact Hs|vm_compute in Hr; by injection Hr as <-|].
  apply (session_lifecycle 1%N demo_params demo_session demo_session s);
    [reflexivity|apply star_refl|exact Hs].
Defined.
