(* ===== verification/AuthStore.v ===== *)
(** * Auth: the storage adapters

    Models [crates/services/auth/src/infrastructure/{persistence,cache,event}]:
    the three Postgres repositories over their tables ([migrations/0001]), the Redis
    session cache and the outbox publisher, as operations on one [World].  Every
    operation first consumes one entry of the world's fault script, so that a run
    may fail at any call; the effects made before stay. *)

From S2P Require Import Prelude AuthDomain.
Local Open Scope Z_scope.

(** ** Rows *)

Record SessionRow := {
  sr_id : Uuid;
  sr_account_id : Uuid;
  sr_issuer : string;
  sr_subject : string;
  sr_generation : Z;
  sr_status : string;
  sr_device_user_agent : option string;
  sr_device_ip : option string;
  sr_device_id : option string;
  sr_issued_at : Z;
  sr_expires_at : Z;
  sr_absolute_expiry : Z;
  sr_revoked_at : option Z;
  sr_version : Z;
}.

Record RefreshTokenRow := {
  tr_id : Uuid;
  tr_session_id : Uuid;
  tr_account_id : Uuid;
  tr_token_hash : string;
  tr_status : string;
  tr_issued_at : Z;
  tr_expires_at : Z;
  tr_used_at : option Z;
  tr_replaced_by : option Uuid;
  tr_version : Z;
}.

Record SubjectLinkRow := {
  lr_issuer : string;
  lr_subject : string;
  lr_account_id : Uuid;
  lr_linked_at : Z;
  lr_version : Z;
}.

(** [TryFrom<SessionRow> for Session] *)
Definition session_of_row (r : SessionRow) : result AuthError Session.Session :=
  idp_subject_new (sr_issuer r) (sr_subject r) ≫= λ subject,
  parse_session_status (sr_status r) ≫= λ status,
  Ok (Session.reconstitute (sr_id r) (sr_account_id r) subject (sr_generation r) status
        {| user_agent := sr_device_user_agent r; ip_address := sr_device_ip r;
           device_id := sr_device_id r |}
        (sr_issued_at r) (sr_expires_at r) (sr_absolute_expiry r) (sr_revoked_at r)
        (sr_version r)).

(** [TryFrom<RefreshTokenRow> for RefreshToken] *)
Definition token_of_row (r : RefreshTokenRow) : result AuthError RefreshToken.RefreshToken :=
  parse_token_status (tr_status r) ≫= λ status,
  refresh_token_hash_new (tr_token_hash r) ≫= λ token_hash,
  Ok (RefreshToken.reconstitute (tr_id r) (tr_session_id r) (tr_account_id r) token_hash status
        (tr_issued_at r) (tr_expires_at r) (tr_used_at r) (tr_replaced_by r) (tr_version r)).

(** [TryFrom<SubjectLinkRow> for SubjectLink] *)
Definition link_of_row (r : SubjectLinkRow) : result AuthError SubjectLink.SubjectLink :=
  idp_subject_new (lr_issuer r) (lr_subject r) ≫= λ subject,
  Ok (SubjectLink.reconstitute subject (lr_account_id r) (lr_linked_at r) (lr_version r)).

(** ** The world *)

Record World := {
  sessions : gmap Uuid SessionRow;
  refresh_tokens : gmap Uuid RefreshTokenRow;
  subject_links : gmap (string * string) SubjectLinkRow;
  outbox : list DomainEvent;
  generations : gmap Uuid Z;
  blacklist : gmap Uuid Z;
  clock : Z;
  faults : list bool;
}.

Definition set_sessions m w := {| sessions := m; refresh_tokens := refresh_tokens w;
  subject_links := subject_links w; outbox := outbox w; generations := generations w;
  blacklist := blacklist w; clock := clock w; faults := faults w |}.
Definition set_tokens m w := {| sessions := sessions w; refresh_tokens := m;
  subject_links := subject_links w; outbox := outbox w; generations := generations w;
  blacklist := blacklist w; clock := clock w; faults := faults w |}.
Definition set_links m w := {| sessions := sessions w; refresh_tokens := refresh_tokens w;
  subject_links := m; outbox := outbox w; generations := generations w;
  blacklist := blacklist w; clock := clock w; faults := faults w |}.
Definition set_outbox l w := {| sessions := sessions w; refresh_tokens := refresh_tokens w;
  subject_links := subject_links w; outbox := l; generations := generations w;
  blacklist := blacklist w; clock := clock w; faults := faults w |}.
Definition set_generations m w := {| sessions := sessions w; refresh_tokens := refresh_tokens w;
  subject_links := subject_links w; outbox := outbox w; generations := m;
  blacklist := blacklist w; clock := clock w; faults := faults w |}.
Definition set_blacklist m w := {| sessions := sessions w; refresh_tokens := refresh_tokens w;
  subject_links := subject_links w; outbox := outbox w; generations := generations w;
  blacklist := m; clock := clock w; faults := faults w |}.
Definition set_faults l w := {| sessions := sessions w; refresh_tokens := refresh_tokens w;
  subject_links := subject_links w; outbox := outbox w; generations := generations w;
  blacklist := blacklist w; clock := clock w; faults := l |}.

Abbreviation handler A := (act World AuthError A).

(** The next backend call: it fails with [e] when the script says so. *)
Definition backend (e : AuthError) : handler unit := λ w,
  match faults w with
  | true :: fs => (set_faults fs w, Err e)
  | _ :: fs => (set_faults fs w, Ok tt)
  | [] => (w, Ok tt)
  end.

(** ** [PgSessionRepository] *)

Definition row_of_session (s : Session.Session) (version : Z) : SessionRow := {|
  sr_id := Session.id s;
  sr_account_id := Session.account_id s;
  sr_issuer := issuer (Session.subject s);
  sr_subject := subject (Session.subject s);
  sr_generation := Session.generation s;
  sr_status := session_status_str (Session.status s);
  sr_device_user_agent := user_agent (Session.device s);
  sr_device_ip := ip_address (Session.device s);
  sr_device_id := device_id (Session.device s);
  sr_issued_at := Session.issued_at s;
  sr_expires_at := Session.expires_at s;
  sr_absolute_expiry := Session.absolute_expiry s;
  sr_revoked_at := Session.revoked_at s;
  sr_version := version;
|}.

(** The columns an [UPDATE sessions] writes. *)
Definition update_session_row (s : Session.Session) (r : SessionRow) : SessionRow := {|
  sr_id := sr_id r;
  sr_account_id := sr_account_id r;
  sr_issuer := sr_issuer r;
  sr_subject := sr_subject r;
  sr_generation := sr_generation r;
  sr_status := session_status_str (Session.status s);
  sr_device_user_agent := sr_device_user_agent r;
  sr_device_ip := sr_device_ip r;
  sr_device_id := sr_device_id r;
  sr_issued_at := sr_issued_at r;
  sr_expires_at := Session.expires_at s;
  sr_absolute_expiry := sr_absolute_expiry r;
  sr_revoked_at := Session.revoked_at s;
  sr_version := Session.version s;
|}.

(** [save]: version 0 inserts, any other version updates the row that still has
    the version before it. *)
Definition session_save (s : Session.Session) : handler unit :=
  let! _ := backend (Storage "sessions") in λ w,
  let id := Session.id s in
  if Session.version s =? 0 then
    match sessions w !! id with
    | Some _ => (w, Err (Storage "duplicate key: sessions.id"))
    | None => (set_sessions (<[id := row_of_session s 0]> (sessions w)) w, Ok tt)
    end
  else
    match sessions w !! id with
    | Some r =>
        if sr_version r =? Session.version s - 1
        then (set_sessions (<[id := update_session_row s r]> (sessions w)) w, Ok tt)
        else (w, Err ConcurrentModification)
    | None => (w, Err ConcurrentModification)
    end.

Definition session_find_by_id (id : Uuid) : handler (option Session.Session) :=
  let! _ := backend (Storage "sessions") in λ w,
  match sessions w !! id with
  | None => (w, Ok None)
  | Some r => (w, Some <$> session_of_row r)
  end.

(** The rows of the account that are active, most recently issued first. *)
Definition insert_desc (r : SessionRow) : list SessionRow → list SessionRow :=
  fix go l := match l with
              | [] => [r]
              | x :: l' => if sr_issued_at x <? sr_issued_at r then r :: l else x :: go l'
              end.

Definition active_rows (account_id : Uuid) (m : gmap Uuid SessionRow) : list SessionRow :=
  foldr insert_desc []
    (filter (λ r, sr_account_id r = account_id ∧ sr_status r = "active")
       (map_to_list m).*2).

Definition list_active_by_account (account_id : Uuid) : handler (list Session.Session) :=
  let! _ := backend (Storage "sessions") in λ w,
  (w, foldr (λ r acc, session_of_row r ≫= λ s, acc ≫= λ l, Ok (s :: l)) (Ok [])
        (active_rows account_id (sessions w))).

(** ** [PgRefreshTokenRepository] *)

Definition row_of_token (t : RefreshToken.RefreshToken) (version : Z) : RefreshTokenRow := {|
  tr_id := RefreshToken.id t;
  tr_session_id := RefreshToken.session_id t;
  tr_account_id := RefreshToken.account_id t;
  tr_token_hash := RefreshToken.token_hash t;
  tr_status := token_status_str (RefreshToken.status t);
  tr_issued_at := RefreshToken.issued_at t;
  tr_expires_at := RefreshToken.expires_at t;
  tr_used_at := RefreshToken.used_at t;
  tr_replaced_by := RefreshToken.replaced_by t;
  tr_version := version;
|}.

(** A row with another status, use time, successor and version. *)
Definition update_token_row (status : string) (used_at : option Z) (replaced_by : option Uuid)
    (version : Z) (r : RefreshTokenRow) : RefreshTokenRow := {|
  tr_id := tr_id r;
  tr_session_id := tr_session_id r;
  tr_account_id := tr_account_id r;
  tr_token_hash := tr_token_hash r;
  tr_status := status;
  tr_issued_at := tr_issued_at r;
  tr_expires_at := tr_expires_at r;
  tr_used_at := used_at;
  tr_replaced_by := replaced_by;
  tr_version := version;
|}.

(** The rows carrying a hash. *)
Definition rows_with_hash (hash : string) (m : gmap Uuid RefreshTokenRow) : list RefreshTokenRow :=
  filter (λ r, tr_token_hash r = hash) (map_to_list m).*2.

Definition token_save (t : RefreshToken.RefreshToken) : handler unit :=
  let! _ := backend (Storage "refresh_tokens") in λ w,
  let id := RefreshToken.id t in
  if RefreshToken.version t =? 0 then
    match refresh_tokens w !! id, rows_with_hash (RefreshToken.token_hash t) (refresh_tokens w) with
    | None, [] => (set_tokens (<[id := row_of_token t 0]> (refresh_tokens w)) w, Ok tt)
    | Some _, _ => (w, Err (Storage "duplicate key: refresh_tokens.id"))
    | None, _ => (w, Err (Storage "duplicate key: uq_refresh_tokens_hash"))
    end
  else
    match refresh_tokens w !! id with
    | Some r =>
        if tr_version r =? RefreshToken.version t - 1
        then (set_tokens (<[id := update_token_row (token_status_str (RefreshToken.status t))
                (RefreshToken.used_at t) (RefreshToken.replaced_by t) (RefreshToken.version t) r]>
                (refresh_tokens w)) w, Ok tt)
        else (w, Err ConcurrentModification)
    | None => (w, Err ConcurrentModification)
    end.

(** The unique row with that hash, if any. *)
Definition find_by_hash (hash : string) : handler (option RefreshToken.RefreshToken) :=
  let! _ := backend (Storage "refresh_tokens") in λ w,
  match rows_with_hash hash (refresh_tokens w) with
  | [] => (w, Ok None)
  | r :: _ => (w, Some <$> token_of_row r)
  end.

(** [UPDATE refresh_tokens SET status = 'revoked', used_at = NOW() WHERE session_id = $1
    AND status = 'active'] *)
Definition revoke_row (session_id : Uuid) (now : Z) (r : RefreshTokenRow) : RefreshTokenRow :=
  if bool_decide (tr_session_id r = session_id) && bool_decide (tr_status r = "active")
  then update_token_row "revoked" (Some now) (tr_replaced_by r) (tr_version r) r
  else r.

Definition revoke_all_for_session (session_id : Uuid) : handler unit :=
  let! _ := backend (Storage "refresh_tokens") in
  modify (λ w, set_tokens (revoke_row session_id (clock w) <$> refresh_tokens w) w).

(** ** [PgSubjectLinkRepository] *)

Definition find_by_subject (s : IdpSubject) : handler (option SubjectLink.SubjectLink) :=
  let! _ := backend (Storage "subject_links") in λ w,
  match subject_links w !! (issuer s, subject s) with
  | None => (w, Ok None)
  | Some r => (w, Some <$> link_of_row r)
  end.

(** [INSERT ... ON CONFLICT DO NOTHING], and the affected-row count. *)
Definition link_save (l : SubjectLink.SubjectLink) : handler unit :=
  let! _ := backend (Storage "subject_links") in λ w,
  let s := SubjectLink.subject l in
  match subject_links w !! (issuer s, subject s) with
  | Some _ => (w, Err (SubjectAlreadyLinked (issuer s) (subject s)))
  | None =>
      (set_links (<[(issuer s, subject s) :=
         {| lr_issuer := issuer s; lr_subject := subject s;
            lr_account_id := SubjectLink.account_id l;
            lr_linked_at := SubjectLink.linked_at l; lr_version := 0 |}]> (subject_links w)) w,
       Ok tt)
  end.

(** ** [RedisSessionCache] *)

Definition generation_of (w : World) (account_id : Uuid) : Z :=
  default generation_initial (generations w !! account_id).

Definition current_generation (account_id : Uuid) : handler Z :=
  let! _ := backend (Cache "get") in gets (λ w, generation_of w account_id).

(** [INCR]: an absent counter starts at 0; the counter is a signed 64-bit integer
    and the command fails rather than overflow. *)
Definition bump_generation (account_id : Uuid) : handler Z :=
  let! _ := backend (Cache "incr") in λ w,
  let g := generation_of w account_id in
  if g =? i64_max then (w, Err (Cache "increment would overflow"))
  else (set_generations (<[account_id := g + 1]> (generations w)) w, Ok (g + 1)).

(** [SET key 1 EX secs] *)
Definition blacklist_session (session_id : Uuid) (ttl : Z) : handler unit :=
  let! _ := backend (Cache "set") in
  modify (λ w, set_blacklist
    (<[session_id := clock w + Z.max (num_seconds ttl) 1 * NS]> (blacklist w)) w).

Definition blacklisted (w : World) (session_id : Uuid) : bool :=
  match blacklist w !! session_id with Some e => clock w <? e | None => false end.

Definition is_blacklisted (session_id : Uuid) : handler bool :=
  let! _ := backend (Cache "exists") in gets (λ w, blacklisted w session_id).

(** ** [PgOutboxPublisher] *)

Definition publish (e : DomainEvent) : handler unit :=
  let! _ := backend (EventPublishFailed "outbox enqueue") in
  modify (λ w, set_outbox (outbox w ++ [e]) w).

Definition publish_all (es : list DomainEvent) : handler unit := for_each publish es.

(** ** [OutboxRelay]

    A row of [auth_outbox], in [created_at, id] order: its id and its event, [None]
    when the payload does not deserialize. *)
Record OutboxRow := {
  or_id : Uuid;
  or_payload : option DomainEvent;
}.

#[export] Instance RevocationReason_eq_dec : EqDecision RevocationReason.
Proof. solve_decision. Defined.
#[export] Instance DomainEvent_eq_dec : EqDecision DomainEvent.
Proof. solve_decision. Defined.
#[export] Instance OutboxRow_eq_dec : EqDecision OutboxRow.
Proof. solve_decision. Defined.

Definition BATCH : nat := 64.

(** Which database calls of a tick succeed. *)
Record TickFaults := {
  begin_ok : bool;
  select_ok : bool;
  delete_ok : bool;
  commit_ok : bool;
}.

Definition db_error : AuthError := EventPublishFailed "outbox drain".

(** The publishing loop: the rows published, and the failure that stopped it. *)
Fixpoint publish_rows (sink : DomainEvent → result AuthError unit) (rows : list OutboxRow) :
    list OutboxRow * option AuthError :=
  match rows with
  | [] => ([], None)
  | row :: rows =>
      match or_payload row with
      | None => ([], Some (EventPublishFailed "outbox row undeserializable"))
      | Some event =>
          match sink event with
          | Ok _ => let '(published, failure) := publish_rows sink rows in
                    (row :: published, failure)
          | Err e => ([], Some e)
          end
      end
  end.

(** [DELETE FROM auth_outbox WHERE id = ANY($1)] *)
Definition delete_rows (ids : list Uuid) (table : list OutboxRow) : list OutboxRow :=
  filter (λ row, or_id row ∉ ids) table.

(** [tick]: [locked] are the rows another relay's transaction holds.  The table
    afterwards, the rows whose events reached the sink, and the outcome. *)
Definition tick (sink : DomainEvent → result AuthError unit) (locked : list Uuid)
    (f : TickFaults) (table : list OutboxRow) :
    list OutboxRow * list OutboxRow * result AuthError nat :=
  if negb (begin_ok f) || negb (select_ok f) then (table, [], Err db_error)
  else
    let rows := take BATCH (filter (λ row, or_id row ∉ locked) table) in
    let '(published, failure) := publish_rows sink rows in
    if negb (bool_decide (published = [])) && negb (delete_ok f)
    then (table, published, Err db_error)
    else if negb (commit_ok f) then (table, published, Err db_error)
    else
      (if bool_decide (published = []) then table else delete_rows (or_id <$> published) table,
       published,
       match failure with
       | Some e => if bool_decide (published = []) then Err e else Ok (length published)
       | None => Ok (length published)
       end).
