(* ===== verification/AuthHandlers.v ===== *)
(** * Auth: the application layer

    Models [crates/services/auth/src/application]: the command handlers
    [LoginHandler], [RefreshHandler], [LogoutHandler], [LogoutAllSessionsHandler]
    and the query handlers [IntrospectHandler], [ListSessionsHandler], over the
    stores of [AuthStore].  The ports whose adapters call another system (the
    identity provider, the account directory, the token cryptography) and UUID
    text are the class [Ports]; an identifier or a refresh token drawn at random is
    an argument of the handler.  [now] is the instant the gRPC layer passes. *)

From S2P Require Import Prelude AuthDomain AuthStore.
Local Open Scope Z_scope.

(** ** Ports *)

Inductive AuthnGrant :=
  | AuthorizationCode (code redirect_uri code_verifier : string)
  | Password (username password : string).

Record NormalizedClaims := {
  nc_issuer : string;
  nc_subject : string;
}.

Inductive AccountActivation :=
  | AccountActive
  | AccountInactive (reason : string).

Record AccountSnapshot := {
  activation : AccountActivation;
  permissions : list string;
}.

Record GeneratedRefresh := {
  plaintext : string;
  hash : string;
}.

Class Ports := {
  parse_uuid : string → option Uuid;
  print_uuid : Uuid → string;
  authenticate : AuthnGrant → result AuthError NormalizedClaims;
  resolve_or_provision : IdpSubject → result AuthError Uuid;
  lookup_account : Uuid → result AuthError AccountSnapshot;
  mint_access : AccessTokenClaims → result AuthError string;
  verify_access : string → result AuthError AccessTokenClaims;
  hash_refresh : string → result AuthError string;
}.

Record SessionPolicy := {
  access_ttl : Z;
  session_ttl : Z;
  absolute_ttl : Z;
  refresh_ttl : Z;
}.

(** [test_default], which are also the configured defaults. *)
Definition default_policy : SessionPolicy := {|
  access_ttl := 600 * NS;
  session_ttl := 1800 * NS;
  absolute_ttl := 28800 * NS;
  refresh_ttl := 604800 * NS;
|}.

(** [ensure_valid] over the violations a payload reports. *)
Definition ensure_valid (vs : list FieldViolation) : result AuthError unit :=
  match vs with [] => Ok tt | _ => Err (Validation vs) end.

Record LoginCommand := {
  grant : AuthnGrant;
  login_device : DeviceFingerprint;
}.

Definition push_if (c : bool) (v : FieldViolation) : list FieldViolation :=
  if c then [v] else [].

Definition validate_login (c : LoginCommand) : list FieldViolation :=
  match grant c with
  | AuthorizationCode code redirect_uri _ =>
      push_if (trim_is_empty code) (mk_violation "code" "AUT-VAL-001" "code must not be empty") ++
      push_if (trim_is_empty redirect_uri)
        (mk_violation "redirect_uri" "AUT-VAL-002" "redirect_uri must not be empty")
  | Password username password =>
      push_if (trim_is_empty username)
        (mk_violation "username" "AUT-VAL-003" "username must not be empty") ++
      push_if (bool_decide (password = ""))
        (mk_violation "password" "AUT-VAL-004" "password must not be empty")
  end.

Record RefreshCommand := {
  refresh_token : string;
  refresh_device : DeviceFingerprint;
}.

Definition validate_refresh (c : RefreshCommand) : list FieldViolation :=
  push_if (trim_is_empty (refresh_token c))
    (mk_violation "refresh_token" "AUT-VAL-010" "refresh_token must not be empty").

Definition validate_logout (session_id : string) : list FieldViolation :=
  push_if (trim_is_empty session_id)
    (mk_violation "session_id" "AUT-VAL-020" "session_id must not be empty").

Definition validate_logout_all (account_id : string) : list FieldViolation :=
  push_if (trim_is_empty account_id)
    (mk_violation "account_id" "AUT-VAL-021" "account_id must not be empty").

Record IssuedSession := {
  is_account_id : Uuid;
  is_session_id : Uuid;
  is_access_token : string;
  is_refresh_token : string;
  is_access_expires_in : Z;
  is_first_link : bool;
}.

Record IntrospectionView := {
  active : bool;
  view_account_id : option string;
  view_session_id : option string;
  view_generation : Z;
  view_permissions : list string;
  view_expires_at : option Z;
}.

Definition inactive : IntrospectionView := {|
  active := false; view_account_id := None; view_session_id := None;
  view_generation := 0; view_permissions := []; view_expires_at := None;
|}.

Record SessionSummary := {
  sum_session_id : string;
  sum_status : SessionStatus;
  sum_generation : Z;
  sum_issued_at : Z;
  sum_expires_at : Z;
  sum_absolute_expiry : Z;
  sum_current : bool;
}.

Section Handlers.
Context `{Ports} (policy : SessionPolicy).

Definition parse_session_id (s : string) : result AuthError Uuid :=
  ok_or (parse_uuid s) (InvalidSessionId s).
Definition parse_account_id (s : string) : result AuthError Uuid :=
  ok_or (parse_uuid s) (InvalidAccountId s).

(** Only an active account gets a token; its permissions. *)
Definition gate_active (account_id : Uuid) : result AuthError (list string) :=
  lookup_account account_id ≫= λ snapshot,
  match activation snapshot with
  | AccountActive => Ok (permissions snapshot)
  | AccountInactive reason => Err (AccountNotActive reason)
  end.

(** The account of a subject, and whether a link has to be established. *)
Definition resolve_account (subject : IdpSubject) : handler (Uuid * bool) :=
  let! link := find_by_subject subject in
  match link with
  | Some link => done_with (SubjectLink.account_id link, false)
  | None =>
      let! account_id := lift (resolve_or_provision subject) in
      done_with (account_id, true)
  end.

Definition establish_link (needs_link : bool) (subject : IdpSubject) (account_id : Uuid)
    (now : Z) (correlation_id : Uuid) : handler bool :=
  if needs_link then
    let link := SubjectLink.establish subject account_id now correlation_id in
    let! _ := link_save link in
    let! _ := publish_all (SubjectLink.drain_events link).2 in
    done_with true
  else done_with false.

(** [LoginHandler::handle]; [generated] is what [generate_refresh] returns,
    [session_id] and [token_id] the identifiers drawn. *)
Definition login (cmd : LoginCommand) (now : Z) (correlation_id session_id token_id : Uuid)
    (generated : result AuthError GeneratedRefresh) : handler IssuedSession :=
  let! _ := lift (ensure_valid (validate_login cmd)) in
  let! claims := lift (authenticate (grant cmd)) in
  let! subject := lift (idp_subject_new (nc_issuer claims) (nc_subject claims)) in
  let! resolved := resolve_account subject in
  let '(account_id, needs_link) := resolved in
  let! permissions := lift (gate_active account_id) in
  let! first_link := establish_link needs_link subject account_id now correlation_id in
  let! generation := current_generation account_id in
  let! session := lift (Session.issue session_id {|
    Session.p_account_id := account_id;
    Session.p_subject := subject;
    Session.p_generation := generation;
    Session.p_device := login_device cmd;
    Session.p_issued_at := now;
    Session.p_expires_at := now + session_ttl policy;
    Session.p_absolute_expiry := now + absolute_ttl policy;
    Session.p_correlation_id := correlation_id |}) in
  let! _ := session_save session in
  let '(session, events) := Session.drain_events session in
  let! _ := publish_all events in
  let! generated := lift generated in
  let! refresh := lift (RefreshToken.issue token_id {|
    RefreshToken.p_session_id := Session.id session;
    RefreshToken.p_account_id := account_id;
    RefreshToken.p_token_hash := hash generated;
    RefreshToken.p_issued_at := now;
    RefreshToken.p_expires_at := now + refresh_ttl policy |}) in
  let! _ := token_save refresh in
  let! claims := lift (Session.mint_access_token session now (access_ttl policy) permissions) in
  let! access_token := lift (mint_access claims) in
  done_with {|
    is_account_id := account_id;
    is_session_id := Session.id session;
    is_access_token := access_token;
    is_refresh_token := plaintext generated;
    is_access_expires_in := expires_in_secs claims now;
    is_first_link := first_link |}.

(** [RefreshHandler::revoke_generation] *)
Definition revoke_generation (now : Z) (account_id session_id correlation_id : Uuid) :
    handler unit :=
  let! _ := bump_generation account_id in
  let! _ := revoke_all_for_session session_id in
  let! found := session_find_by_id session_id in
  match found with
  | Some session =>
      if decide (Session.status session = Active) then
        let! session := lift (Session.revoke session now RefreshReuse correlation_id) in
        let! _ := session_save session in
        let! _ := blacklist_session session_id (access_ttl policy) in
        publish_all (Session.drain_events session).2
      else done_with tt
  | None => done_with tt
  end.

(** [RefreshHandler::handle] *)
Definition refresh (cmd : RefreshCommand) (now : Z) (correlation_id token_id : Uuid)
    (generated : result AuthError GeneratedRefresh) : handler IssuedSession :=
  let! _ := lift (ensure_valid (validate_refresh cmd)) in
  let! presented := lift (hash_refresh (refresh_token cmd)) in
  let! found := find_by_hash presented in
  let! token := lift (ok_or found RefreshTokenNotFound) in
  let session_id := RefreshToken.session_id token in
  let account_id := RefreshToken.account_id token in
  let! generated := lift generated in
  match RefreshToken.rotate token token_id now (hash generated) (now + refresh_ttl policy) with
  | Err RefreshTokenReuseDetected =>
      let! _ := revoke_generation now account_id session_id correlation_id in
      throw RefreshTokenReuseDetected
  | Err other => throw other
  | Ok (token, successor) =>
      let! found := session_find_by_id session_id in
      let! session := lift (ok_or found (SessionNotFound session_id)) in
      let! generation := current_generation account_id in
      if negb (Session.is_valid_under session generation now) then throw SessionRevokedErr
      else if negb (same_device_as (Session.device session) (refresh_device cmd)) then
        throw (DomainViolation "device" "refresh device does not match the session's bound device")
      else
        let! permissions := lift (gate_active account_id) in
        let! _ := token_save token in
        let! _ := token_save successor in
        let! session := lift (Session.extend session now (session_ttl policy)) in
        let! _ := session_save session in
        let! claims :=
          lift (Session.mint_access_token session now (access_ttl policy) permissions) in
        let! access_token := lift (mint_access claims) in
        done_with {|
          is_account_id := account_id;
          is_session_id := session_id;
          is_access_token := access_token;
          is_refresh_token := plaintext generated;
          is_access_expires_in := expires_in_secs claims now;
          is_first_link := false |}
  end.

(** The revocation of one loaded session, shared by both logouts. *)
Definition revoke_session (session : Session.Session) (now : Z) (reason : RevocationReason)
    (correlation_id : Uuid) : handler unit :=
  let session_id := Session.id session in
  let! session := lift (Session.revoke session now reason correlation_id) in
  let! _ := session_save session in
  let! _ := blacklist_session session_id (access_ttl policy) in
  let! _ := revoke_all_for_session session_id in
  publish_all (Session.drain_events session).2.

(** [LogoutHandler::handle]; the outcome's [success] *)
Definition logout (cmd_session_id : string) (now : Z) (correlation_id : Uuid) : handler bool :=
  let! _ := lift (ensure_valid (validate_logout cmd_session_id)) in
  let! session_id := lift (parse_session_id cmd_session_id) in
  let! found := session_find_by_id session_id in
  let! session := lift (ok_or found (SessionNotFound session_id)) in
  if decide (Session.status session ≠ Active) then done_with true
  else
    let! _ := revoke_session session now Logout correlation_id in
    done_with true.

(** The loop of [LogoutAllSessionsHandler::handle] with its counter. *)
Fixpoint revoke_each (sessions : list Session.Session) (now : Z) (correlation_id : Uuid)
    (revoked : Z) : handler Z :=
  match sessions with
  | [] => done_with revoked
  | session :: sessions =>
      if decide (Session.status session ≠ Active)
      then revoke_each sessions now correlation_id revoked
      else
        let! _ := revoke_session session now GlobalLogout correlation_id in
        revoke_each sessions now correlation_id (revoked + 1)
  end.

(** [LogoutAllSessionsHandler::handle]: the new generation and the sessions revoked *)
Definition logout_all (cmd_account_id : string) (now : Z) (correlation_id : Uuid) :
    handler (Z * Z) :=
  let! _ := lift (ensure_valid (validate_logout_all cmd_account_id)) in
  let! account_id := lift (parse_account_id cmd_account_id) in
  let! generation := bump_generation account_id in
  let! sessions := list_active_by_account account_id in
  let! revoked := revoke_each sessions now correlation_id 0 in
  done_with (generation, revoked).

(** [IntrospectHandler::handle_at] *)
Definition introspect (access_token : string) (now : Z) : handler IntrospectionView :=
  match verify_access access_token with
  | Err _ => done_with inactive
  | Ok claims =>
      if claims_expires_at claims <=? now then done_with inactive
      else
        let! generation := current_generation (claims_account_id claims) in
        if negb (claims_generation claims =? generation) then done_with inactive
        else
          let! dead := is_blacklisted (claims_session_id claims) in
          if dead : bool then done_with inactive
          else done_with {|
            active := true;
            view_account_id := Some (print_uuid (claims_account_id claims));
            view_session_id := Some (print_uuid (claims_session_id claims));
            view_generation := claims_generation claims;
            view_permissions := claims_permissions claims;
            view_expires_at := Some (claims_expires_at claims) |}
  end.

(** [ListSessionsHandler::handle] *)
Definition list_sessions (cmd_account_id : string) (current : option string) :
    handler (list SessionSummary) :=
  let! account_id := lift (parse_account_id cmd_account_id) in
  let! sessions := list_active_by_account account_id in
  done_with ((λ s, {|
    sum_session_id := print_uuid (Session.id s);
    sum_status := Session.status s;
    sum_generation := Session.generation s;
    sum_issued_at := Session.issued_at s;
    sum_expires_at := Session.expires_at s;
    sum_absolute_expiry := Session.absolute_expiry s;
    sum_current := bool_decide (current = Some (print_uuid (Session.id s))) |}) <$> sessions).

End Handlers.
