(* ===== verification/AuthSteps.v ===== *)
(** * Auth: what the stores guarantee under any interleaving

    Every handler of [AuthHandlers] is a sequence of store operations
    ([login_reaches] ... ), so what each store operation preserves holds whatever
    way concurrent handlers interleave: generations only grow, a used refresh
    token never becomes active again, row versions never go back, the outbox only
    grows.  Also the save / find round trips and the outbox relay. *)

From S2P Require Import Prelude AuthDomain AuthStore AuthHandlers.
Local Open Scope Z_scope.

Definition set_clock c w := {| sessions := sessions w; refresh_tokens := refresh_tokens w;
  subject_links := subject_links w; outbox := outbox w; generations := generations w;
  blacklist := blacklist w; clock := c; faults := faults w |}.

(** How long a blacklist entry lives. *)
Definition blacklist_span (policy : SessionPolicy) : Z :=
  Z.max (num_seconds (access_ttl policy)) 1 * NS.

(** One store operation of some handler, or time passing.  A token is only written
    as active when it is issued. *)
Inductive store_step (policy : SessionPolicy) (w : World) : World → Prop :=
  | st_read e : store_step policy w (backend e w).1
  | st_session_save s : store_step policy w (session_save s w).1
  | st_token_save t :
      (RefreshToken.status t = TokenActive → RefreshToken.version t = 0) →
      store_step policy w (token_save t w).1
  | st_revoke_all sid : store_step policy w (revoke_all_for_session sid w).1
  | st_link_save l : store_step policy w (link_save l w).1
  | st_bump a : store_step policy w (bump_generation a w).1
  | st_blacklist sid : store_step policy w (blacklist_session sid (access_ttl policy) w).1
  | st_publish e : store_step policy w (publish e w).1
  | st_time c : clock w ≤ c → store_step policy w (set_clock c w).

Definition reaches (policy : SessionPolicy) : World → World → Prop := star (store_step policy).

Section Reaches.
Context `{Ports} (policy : SessionPolicy) (w0 : World).

Abbreviation Reach := (reaches policy w0).

Lemma reaches_snoc w w' : Reach w → store_step policy w w' → Reach w'.
Proof. intros Hr Hs. eapply star_trans; [exact Hr|]. eapply star_step; [exact Hs|]. apply star_refl. Qed.

Lemma backend_reaches e : preserves Reach (backend e).
Proof. intros w Hw. eapply reaches_snoc; [exact Hw|]. apply st_read. Qed.

Lemma read_reaches {A} e (k : unit → handler A) :
  (∀ w, (k tt w).1 = w) → preserves Reach (act_bind (backend e) k).
Proof.
  intros Hk. apply preserves_bind; [apply backend_reaches|]. intros [] w Hw. by rewrite Hk.
Qed.

Lemma session_find_by_id_reaches id : preserves Reach (session_find_by_id id).
Proof. apply read_reaches. intros w. by destruct (sessions w !! id). Qed.
Lemma list_active_by_account_reaches a : preserves Reach (list_active_by_account a).
Proof. by apply read_reaches. Qed.
Lemma find_by_hash_reaches h : preserves Reach (find_by_hash h).
Proof. apply read_reaches. intros w. by destruct (rows_with_hash _ _). Qed.
Lemma find_by_subject_reaches s : preserves Reach (find_by_subject s).
Proof. apply read_reaches. intros w. by destruct (subject_links w !! _). Qed.
Lemma current_generation_reaches a : preserves Reach (current_generation a).
Proof. by apply read_reaches. Qed.
Lemma is_blacklisted_reaches s : preserves Reach (is_blacklisted s).
Proof. by apply read_reaches. Qed.

Lemma session_save_reaches s : preserves Reach (session_save s).
Proof. intros w Hw. eapply reaches_snoc; [exact Hw|]. apply st_session_save. Qed.
Lemma token_save_reaches t :
  (RefreshToken.status t = TokenActive → RefreshToken.version t = 0) →
  preserves Reach (token_save t).
Proof. intros Ht w Hw. eapply reaches_snoc; [exact Hw|]. by apply st_token_save. Qed.
Lemma revoke_all_reaches sid : preserves Reach (revoke_all_for_session sid).
Proof. intros w Hw. eapply reaches_snoc; [exact Hw|]. apply st_revoke_all. Qed.
Lemma link_save_reaches l : preserves Reach (link_save l).
Proof. intros w Hw. eapply reaches_snoc; [exact Hw|]. apply st_link_save. Qed.
Lemma bump_generation_reaches a : preserves Reach (bump_generation a).
Proof. intros w Hw. eapply reaches_snoc; [exact Hw|]. apply st_bump. Qed.
Lemma blacklist_reaches sid : preserves Reach (blacklist_session sid (access_ttl policy)).
Proof. intros w Hw. eapply reaches_snoc; [exact Hw|]. apply st_blacklist. Qed.
Lemma publish_all_reaches es : preserves Reach (publish_all es).
Proof.
  apply preserves_for_each. intros e _ w Hw. eapply reaches_snoc; [exact Hw|]. apply st_publish.
Qed.

#[local] Hint Resolve session_find_by_id_reaches list_active_by_account_reaches
  find_by_hash_reaches find_by_subject_reaches current_generation_reaches
  is_blacklisted_reaches session_save_reaches revoke_all_reaches link_save_reaches
  bump_generation_reaches blacklist_reaches publish_all_reaches : preserves.

Lemma issue_version_0 id p t :
  RefreshToken.issue id p = Ok t →
  RefreshToken.version t = 0.
Proof. unfold RefreshToken.issue. case_match; naive_solver. Qed.

Lemma rotate_shape t id now h e t' succ :
  RefreshToken.rotate t id now h e = Ok (t', succ) →
  RefreshToken.status t' = TokenRotated ∧ RefreshToken.version succ = 0.
Proof.
  unfold RefreshToken.rotate. intros Hr. split_guards.
  apply result_bind_ok in Hr as (s & Hs & [= <- <-]). split; [done|by eapply issue_version_0].
Qed.

Lemma lift_reaches {A B} (r : result AuthError A) (k : A → handler B) :
  (∀ a, r = Ok a → preserves Reach (k a)) → preserves Reach (act_bind (lift r) k).
Proof. intros Hk w Hw. rewrite act_bind_run. destruct r; [by apply Hk|done]. Qed.

Lemma token_inserted_reaches t :
  RefreshToken.version t = 0 → preserves Reach (token_save t).
Proof. intros Ht. by apply token_save_reaches. Qed.
Lemma token_rotated_reaches t :
  RefreshToken.status t = TokenRotated → preserves Reach (token_save t).
Proof. intros Ht. apply token_save_reaches. congruence. Qed.

(** Follows a handler bind by bind and branch by branch. *)
Ltac follow :=
  repeat first
    [ match goal with
      | |- preserves _ (act_bind (lift _) _) => apply lift_reaches; intros ? ?
      | |- preserves _ (act_bind _ _) => apply preserves_bind; [|intros ?]
      end
    | solve [eauto 3 with preserves nocore]
    | case_decide
    | match goal with |- preserves _ (match ?x with _ => _ end) => destruct x eqn:? end ].

#[local] Hint Resolve token_inserted_reaches token_rotated_reaches issue_version_0 : preserves.

Lemma login_reaches cmd now corr sid tid gen :
  preserves Reach (login policy cmd now corr sid tid gen).
Proof. unfold login, resolve_account, establish_link. follow. Qed.

Lemma revoke_generation_reaches now a sid corr :
  preserves Reach (revoke_generation policy now a sid corr).
Proof. unfold revoke_generation. follow. Qed.

Lemma refresh_reaches cmd now corr tid gen :
  preserves Reach (refresh policy cmd now corr tid gen).
Proof.
  unfold refresh. follow; try (by apply revoke_generation_reaches).
  all: match goal with H : RefreshToken.rotate _ _ _ _ _ = Ok _ |- _ =>
         apply rotate_shape in H as [? ?] end; eauto with preserves.
Qed.

Lemma revoke_session_reaches s now reason corr :
  preserves Reach (revoke_session policy s now reason corr).
Proof. unfold revoke_session. follow. Qed.

Lemma logout_reaches sid now corr : preserves Reach (logout policy sid now corr).
Proof. unfold logout. follow. apply revoke_session_reaches. Qed.

Lemma revoke_each_reaches ss now corr n : preserves Reach (revoke_each policy ss now corr n).
Proof.
  revert n. induction ss as [|s ss IH]; intros n; simpl; [eauto with preserves|].
  case_decide; [apply IH|]. apply preserves_bind; [apply revoke_session_reaches|].
  intros _. apply IH.
Qed.

Lemma logout_all_reaches a now corr : preserves Reach (logout_all policy a now corr).
Proof. unfold logout_all. follow. apply revoke_each_reaches. Qed.

Lemma introspect_reaches tok now : preserves Reach (introspect tok now).
Proof. unfold introspect. follow. Qed.
End Reaches.

(** ** Stores only advance *)

Definition next_fault (w : World) : bool :=
  match faults w with b :: _ => b | [] => false end.

Lemma backend_run e w :
  backend e w = (set_faults (tail (faults w)) w, if next_fault w then Err e else Ok tt).
Proof. destruct w as [? ? ? ? ? ? ? [|[] ?]]; reflexivity. Qed.

Record token_le (r r' : RefreshTokenRow) : Prop := {
  tle_id : tr_id r' = tr_id r;
  tle_hash : tr_token_hash r' = tr_token_hash r;
  tle_session : tr_session_id r' = tr_session_id r;
  tle_account : tr_account_id r' = tr_account_id r;
  tle_version : tr_version r ≤ tr_version r';
  tle_used : tr_status r ≠ "active" → tr_status r' ≠ "active";
}.

Record session_le (r r' : SessionRow) : Prop := {
  sle_id : sr_id r' = sr_id r;
  sle_account : sr_account_id r' = sr_account_id r;
  sle_generation : sr_generation r' = sr_generation r;
  sle_cap : sr_absolute_expiry r' = sr_absolute_expiry r;
  sle_version : sr_version r ≤ sr_version r';
}.

Record store_le (policy : SessionPolicy) (w w' : World) : Prop := {
  le_clock : clock w ≤ clock w';
  le_generation : ∀ a, generation_of w a ≤ generation_of w' a;
  le_tokens : ∀ id r, refresh_tokens w !! id = Some r →
    ∃ r', refresh_tokens w' !! id = Some r' ∧ token_le r r';
  le_sessions : ∀ id r, sessions w !! id = Some r →
    ∃ r', sessions w' !! id = Some r' ∧ session_le r r';
  le_links : subject_links w ⊆ subject_links w';
  le_outbox : outbox w `prefix_of` outbox w';
  le_blacklist : ∀ sid e, blacklist w !! sid = Some e → e ≤ clock w + blacklist_span policy →
    ∃ e', blacklist w' !! sid = Some e' ∧ e ≤ e' ≤ clock w' + blacklist_span policy;
}.

Lemma token_le_refl r : token_le r r.
Proof. by split. Qed.
Lemma session_le_refl r : session_le r r.
Proof. by split. Qed.
Lemma token_le_trans r1 r2 r3 : token_le r1 r2 → token_le r2 r3 → token_le r1 r3.
Proof. intros [] []. split; try congruence; [lia|auto]. Qed.
Lemma session_le_trans r1 r2 r3 : session_le r1 r2 → session_le r2 r3 → session_le r1 r3.
Proof. intros [] []. split; try congruence; lia. Qed.
#[export] Hint Resolve token_le_refl session_le_refl token_le_trans session_le_trans : core.

#[export] Instance store_le_preorder policy : PreOrder (store_le policy).
Proof.
  split.
  - intros w. split; eauto; try done. intros sid e He Hb. exists e. split; [done|lia].
  - intros w1 w2 w3 [C1 G1 T1 S1 L1 O1 B1] [C2 G2 T2 S2 L2 O2 B2]. split.
    + lia.
    + intros a. specialize (G1 a). specialize (G2 a). lia.
    + intros id r Hr. destruct (T1 _ _ Hr) as (r1 & Hr1 & ?).
      destruct (T2 _ _ Hr1) as (r2 & Hr2 & ?). eauto.
    + intros id r Hr. destruct (S1 _ _ Hr) as (r1 & Hr1 & ?).
      destruct (S2 _ _ Hr1) as (r2 & Hr2 & ?). eauto.
    + by etrans.
    + by etrans.
    + intros sid e He Hb. destruct (B1 _ _ He Hb) as (e1 & He1 & ?).
      destruct (B2 _ _ He1) as (e2 & He2 & ?); [lia|]. exists e2. split; [done|lia].
Qed.

(** Changing one table leaves the others where they are. *)
Lemma store_le_same policy w w' :
  clock w' = clock w → generations w' = generations w →
  refresh_tokens w' = refresh_tokens w → sessions w' = sessions w →
  subject_links w' = subject_links w → outbox w' = outbox w → blacklist w' = blacklist w →
  store_le policy w w'.
Proof.
  intros Hc Hg Ht Hs Hl Ho Hb. split; rewrite ?Hc, ?Ht, ?Hs, ?Hl, ?Ho, ?Hb; eauto.
  - lia.
  - intros a. unfold generation_of. by rewrite Hg.
  - intros sid e He. exists e. split; [done|lia].
Qed.

Lemma insert_le {V} (le : V → V → Prop) (m : gmap Uuid V) k v :
  (∀ x, le x x) → (∀ x, m !! k = Some x → le x v) →
  ∀ i r, m !! i = Some r → ∃ r', <[k:=v]> m !! i = Some r' ∧ le r r'.
Proof.
  intros Hrefl Hk i r Hi. destruct (decide (i = k)) as [->|Hne].
  - exists v. rewrite lookup_insert_eq. eauto.
  - exists r. rewrite lookup_insert_ne by done. eauto.
Qed.

Lemma revoke_row_le sid now r : token_le r (revoke_row sid now r).
Proof.
  unfold revoke_row. case_match; [|done]. by split.
Qed.

Lemma set_sessions_le policy w k v :
  (∀ r, sessions w !! k = Some r → session_le r v) →
  store_le policy w (set_sessions (<[k:=v]> (sessions w)) w).
Proof.
  intros Hk. split; simpl; eauto; try done.
  - apply insert_le; eauto.
  - intros sid e He. exists e. split; [done|lia].
Qed.

Lemma set_tokens_le policy w m :
  (∀ id r, refresh_tokens w !! id = Some r → ∃ r', m !! id = Some r' ∧ token_le r r') →
  store_le policy w (set_tokens m w).
Proof.
  intros Hk. split; simpl; eauto; try done.
  intros sid e He. exists e. split; [done|lia].
Qed.

(** Past the fault script, an operation starts in a world that differs only there. *)
Lemma backend_le {A} policy e (k : unit → handler A) w :
  (∀ w1, store_le policy w1 (k tt w1).1) → store_le policy w (act_bind (backend e) k w).1.
Proof.
  intros Hk. rewrite act_bind_run, backend_run. destruct (next_fault w); simpl;
    [by apply store_le_same|].
  etrans; [|apply Hk]. by apply store_le_same.
Qed.

Lemma session_save_le policy s w : store_le policy w (session_save s w).1.
Proof.
  apply backend_le. intros w1. cbv zeta.
  destruct (_ =? 0).
  - destruct (sessions w1 !! _) as [r|] eqn:Hr; simpl; [done|].
    apply set_sessions_le. intros r. by rewrite Hr.
  - destruct (sessions w1 !! _) as [r|] eqn:Hr; simpl; [|done].
    destruct (_ =? _) eqn:Hv; simpl; [|done]. zbool.
    apply set_sessions_le. intros r'. rewrite Hr. intros [= <-]. split; simpl; (done || lia).
Qed.

Lemma token_save_le policy t w :
  (RefreshToken.status t = TokenActive → RefreshToken.version t = 0) →
  store_le policy w (token_save t w).1.
Proof.
  intros Ht. apply backend_le. intros w1. cbv zeta.
  destruct (_ =? 0) eqn:Hz; zbool.
  - destruct (refresh_tokens w1 !! _) as [r|] eqn:Hr; simpl; [done|].
    destruct (rows_with_hash _ _); simpl; [|done].
    apply set_tokens_le, insert_le; [done|]. intros r. by rewrite Hr.
  - destruct (refresh_tokens w1 !! _) as [r|] eqn:Hr; simpl; [|done].
    destruct (_ =? _) eqn:Hv; simpl; [|done]. zbool.
    apply set_tokens_le, insert_le; [done|]. intros r'. rewrite Hr. intros [= <-].
    split; simpl; [done..|lia|intros _].
    destruct (RefreshToken.status t) eqn:Hs; simpl; [|done..]. by rewrite Ht in Hz.
Qed.

Lemma store_step_le policy w w' : store_step policy w w' → store_le policy w w'.
Proof.
  destruct 1 as [e|s|t Ht|sid|l|a|sid|e|c Hc].
  1: rewrite backend_run; by apply store_le_same.
  1: apply session_save_le.
  1: by apply token_save_le.
  6: { split; simpl; eauto; try done. intros sid e He. exists e. split; [done|lia]. }
  1-5: apply backend_le; clear w; intros w; cbv zeta.
  - apply set_tokens_le. intros id r Hr. simpl. rewrite lookup_fmap, Hr. eexists. split; [done|]. apply revoke_row_le.
  - destruct (subject_links w !! _) eqn:Hl; simpl; [done|]. split; simpl; eauto; try done.
    + by apply insert_subseteq.
    + intros sid e He. exists e. split; [done|lia].
  - destruct (_ =? i64_max) eqn:Hg; simpl; [done|]. split; simpl; eauto; try done.
    + intros a'. unfold generation_of. simpl. destruct (decide (a = a')) as [<-|Hne].
      * rewrite lookup_insert_eq. simpl. lia.
      * by rewrite lookup_insert_ne.
    + intros sid e He. exists e. split; [done|lia].
  - split; simpl; eauto; try done. intros sid' e He Hb. 
    destruct (decide (sid = sid')) as [<-|Hne].
    + rewrite lookup_insert_eq. eexists. split; [done|].
      fold (blacklist_span policy). lia.
    + rewrite lookup_insert_ne by done. exists e. split; [done|lia].
  - split; simpl; eauto; try done.
    + by exists [e].
    + intros sid e' He. exists e'. split; [done|lia].
Qed.

Lemma reaches_le policy w w' : reaches policy w w' → store_le policy w w'.
Proof.
  induction 1 as [w|w1 w2 w3 Hs _ IH]; [reflexivity|]. trans w2; [by apply store_step_le|done].
Qed.

(** Stores only advance, whatever way handlers interleave.  Between any two
    points of any interleaving of store operations: no account's generation goes
    down, no refresh-token or session row disappears, goes back in version, or
    changes the identity, account, hash, generation or absolute cap it was issued
    with, a used refresh token never becomes active again, subject links are
    immutable, outbox rows are only appended, and a blacklist entry is never
    shortened. *)
Theorem stores_only_advance (policy : SessionPolicy) (w w' : World) :
  reaches policy w w' → store_le policy w w'.
Proof. apply reaches_le. Qed.

(** ** Optimistic locking *)

Lemma token_save_outcome t w :
  let '(w', r) := token_save t w in
  match r with
  | Ok _ => ∃ row, refresh_tokens w' !! RefreshToken.id t = Some row ∧
              tr_version row = RefreshToken.version t ∧
              (RefreshToken.version t ≠ 0 →
               ∃ old, refresh_tokens w !! RefreshToken.id t = Some old ∧
                 tr_version old = RefreshToken.version t - 1)
  | Err _ => refresh_tokens w' = refresh_tokens w
  end.
Proof.
  unfold token_save. rewrite act_bind_run, backend_run.
  destruct (next_fault w); [reflexivity|]. cbv zeta.
  destruct (RefreshToken.version t =? 0) eqn:Hz; zbool; simpl.
  - destruct (refresh_tokens w !! _); [reflexivity|].
    destruct (rows_with_hash _ _); [|reflexivity]. simpl.
    rewrite lookup_insert_eq. eexists. split; [done|]. simpl. split; [done|]. by intros ?.
  - destruct (refresh_tokens w !! _) as [r|] eqn:Hr; [|reflexivity].
    destruct (_ =? _) eqn:Hv; [|reflexivity]. zbool. simpl.
    rewrite lookup_insert_eq. eexists. split; [done|]. simpl. split; [done|]. by eauto.
Qed.

Lemma rotate_version t id now h e t' succ :
  RefreshToken.rotate t id now h e = Ok (t', succ) →
  RefreshToken.id t' = RefreshToken.id t ∧
  RefreshToken.version t' = RefreshToken.touch (RefreshToken.version t) ∧
  RefreshToken.status t = TokenActive.
Proof.
  unfold RefreshToken.rotate. intros Hr. split_guards.
  by apply result_bind_ok in Hr as (s & _ & [= <- <-]).
Qed.

(** A refresh token is spent once even by concurrent refreshes.  When two
    handlers load the same token and both rotate it, and one of them saves its
    rotation, the other's save fails and changes nothing, whatever either of them
    or any other handler did in between. *)
Theorem concurrent_rotation_wins_once (policy : SessionPolicy) (t t1 s1 t2 s2 : RefreshToken.RefreshToken)
    (id1 id2 : Uuid) (now1 now2 exp1 exp2 : Z) (hash1 hash2 : string) (wa wb wc wd : World)
    (res : result AuthError unit) :
  0 ≤ RefreshToken.version t < i64_max →
  RefreshToken.rotate t id1 now1 hash1 exp1 = Ok (t1, s1) →
  RefreshToken.rotate t id2 now2 hash2 exp2 = Ok (t2, s2) →
  token_save t1 wa = (wb, Ok tt) →
  reaches policy wb wc →
  token_save t2 wc = (wd, res) →
  is_ok res = false ∧ refresh_tokens wd = refresh_tokens wc.
Proof.
  intros Hv Hr1 Hr2 Hsave1 Hreach Hsave2.
  apply rotate_version in Hr1 as (Hid1 & Hv1 & _). apply rotate_version in Hr2 as (Hid2 & Hv2 & _).
  assert (Htouch : RefreshToken.touch (RefreshToken.version t) = RefreshToken.version t + 1).
  { apply i64_add_small. lia. }
  pose proof (token_save_outcome t1 wa) as H1. rewrite Hsave1 in H1.
  destruct H1 as (row & Hrow & Hver & _).
  destruct (le_tokens _ _ _ (reaches_le _ _ _ Hreach) _ _ Hrow) as (row' & Hrow' & Hle).
  pose proof (tle_version _ _ Hle) as Hmono.
  pose proof (token_save_outcome t2 wc) as H2. rewrite Hsave2 in H2.
  destruct res as [[]|e]; [|done]. destruct H2 as (_ & _ & _ & Hold).
  destruct Hold as (old & Hold & Hover); [lia|].
  rewrite Hid2, <- Hid1, Hrow' in Hold. simplify_eq. lia.
Qed.

(** ** What is saved is what is found *)

Lemma parse_session_status_str s : parse_session_status (session_status_str s) = Ok s.
Proof. by destruct s. Qed.
Lemma parse_token_status_str s : parse_token_status (token_status_str s) = Ok s.
Proof. by destruct s. Qed.

Definition subject_ok (s : IdpSubject) : bool :=
  negb (trim_is_empty (issuer s)) && negb (trim_is_empty (subject s)).

Lemma idp_subject_new_ok s : subject_ok s = true → idp_subject_new (issuer s) (subject s) = Ok s.
Proof.
  unfold subject_ok, idp_subject_new. intros Hs. zbool.
  destruct (trim_is_empty (issuer s)), (trim_is_empty (subject s)); try done. by destruct s.
Qed.

Lemma session_of_row_of s :
  subject_ok (Session.subject s) = true →
  session_of_row (row_of_session s (Session.version s)) = Ok (Session.drain_events s).1.
Proof.
  intros Hs. unfold session_of_row. simpl. rewrite (idp_subject_new_ok _ Hs). simpl.
  rewrite parse_session_status_str. simpl. unfold Session.reconstitute, Session.drain_events.
  by destruct s as [? ? ? ? ? [] ? ? ? ? ? ?].
Qed.

Lemma session_of_row_inv r s :
  session_of_row r = Ok s →
  r = row_of_session s (Session.version s) ∧ subject_ok (Session.subject s) = true ∧
  Session.pending_events s = [].
Proof.
  unfold session_of_row. intros Hr.
  apply result_bind_ok in Hr as (sub & Hsub & Hr). apply result_bind_ok in Hr as (st & Hst & [= <-]).
  unfold idp_subject_new in Hsub.
  destruct (trim_is_empty _) eqn:H1 in Hsub; [done|].
  destruct (trim_is_empty _) eqn:H2 in Hsub; [done|]. injection Hsub as <-.
  unfold parse_session_status in Hst.
  split_and!; [|unfold subject_ok; simpl; by rewrite H1, H2|done].
  destruct r; simpl in *. unfold row_of_session; simpl. f_equal.
  by repeat case_decide; simplify_eq/=.
Qed.

Lemma backend_quiet e w : faults w = [] → backend e w = (w, Ok tt).
Proof. intros Hq. unfold backend. by rewrite Hq. Qed.

Lemma session_find_quiet id w :
  faults w = [] →
  session_find_by_id id w =
    (w, match sessions w !! id with None => Ok None | Some r => Some <$> session_of_row r end).
Proof.
  intros Hq. unfold session_find_by_id. rewrite act_bind_run, (backend_quiet _ _ Hq).
  by destruct (sessions w !! id).
Qed.

(** The commands a handler applies to a loaded session before it saves it. *)
Inductive session_command (s : Session.Session) : Session.Session → Prop :=
  | cmd_extend now ttl s' : Session.extend s now ttl = Ok s' →
      Session.version s' ≠ Session.version s → session_command s s'
  | cmd_revoke now reason corr s' : Session.revoke s now reason corr = Ok s' → session_command s s'.

Lemma session_command_shape s s' :
  session_command s s' →
  Session.id s' = Session.id s ∧ Session.account_id s' = Session.account_id s ∧
  Session.subject s' = Session.subject s ∧ Session.generation s' = Session.generation s ∧
  Session.device s' = Session.device s ∧ Session.issued_at s' = Session.issued_at s ∧
  Session.absolute_expiry s' = Session.absolute_expiry s ∧
  Session.version s' = Session.touch (Session.version s).
Proof.
  intros [now ttl ? He Hne|now reason corr ? He].
  - apply result_bind_ok in He as (? & _ & [= <-]). destruct (_ <? _); done.
  - apply result_bind_ok in He as (s1 & Ht & [= <-]).
    apply transition_to_ok in Ht. destruct_and!. simpl. split_and!; congruence.
Qed.

Lemma session_save_update s w :
  faults w = [] → Session.version s ≠ 0 →
  session_save s w =
    match sessions w !! Session.id s with
    | Some r => if sr_version r =? Session.version s - 1
                then (set_sessions (<[Session.id s := update_session_row s r]> (sessions w)) w, Ok tt)
                else (w, Err ConcurrentModification)
    | None => (w, Err ConcurrentModification)
    end.
Proof.
  intros Hq Hv. unfold session_save. rewrite act_bind_run, (backend_quiet _ _ Hq). cbv zeta.
  by rewrite (proj2 (Z.eqb_neq _ _) Hv).
Qed.

Lemma session_save_insert s w :
  faults w = [] → Session.version s = 0 →
  session_save s w =
    match sessions w !! Session.id s with
    | Some _ => (w, Err (Storage "duplicate key: sessions.id"))
    | None => (set_sessions (<[Session.id s := row_of_session s 0]> (sessions w)) w, Ok tt)
    end.
Proof.
  intros Hq Hv. unfold session_save. rewrite act_bind_run, (backend_quiet _ _ Hq). cbv zeta.
  by rewrite Hv.
Qed.

(** Load, change, save, load.  When a session is loaded, extended or revoked,
    and saved while its row has not changed since, the save succeeds and the session
    found next is exactly the changed session with its events drained, although the
    update writes only four of the columns. *)
Theorem session_save_find (w : World) (id : Uuid) (s s' : Session.Session) (r : SessionRow) :
  faults w = [] → sessions w !! id = Some r → sr_id r = id → 0 ≤ sr_version r < i64_max →
  session_find_by_id id w = (w, Ok (Some s)) →
  session_command s s' →
  ∃ w', session_save s' w = (w', Ok tt) ∧
    session_find_by_id id w' = (w', Ok (Some (Session.drain_events s').1)) ∧
    (∀ id', id' ≠ id → sessions w' !! id' = sessions w !! id').
Proof.
  intros Hq Hr Hid Hver Hfind Hcmd. rewrite session_find_quiet, Hr in Hfind by done.
  assert (Hs : session_of_row r = Ok s).
  { destruct (session_of_row r); simplify_eq/=; congruence. }
  destruct (session_of_row_inv _ _ Hs) as (-> & Hsub & _). simpl in Hid, Hver. subst id.
  pose proof (session_command_shape _ _ Hcmd) as Hshape. destruct_and!.
  assert (Htouch : Session.version s' = Session.version s + 1).
  { etrans; [eassumption|]. apply i64_add_small. lia. }
  rewrite session_save_update by (done || lia).
  replace (Session.id s') with (Session.id s) by congruence. rewrite Hr. simpl.
  rewrite (proj2 (Z.eqb_eq _ _)) by lia. eexists. split; [done|]. split.
  - rewrite session_find_quiet by done. simpl. rewrite lookup_insert_eq.
    assert (Hrow : update_session_row s' (row_of_session s (Session.version s))
                   = row_of_session s' (Session.version s')).
    { unfold update_session_row, row_of_session. simpl. congruence. }
    rewrite Hrow, session_of_row_of; [done|]. congruence.
  - intros id' Hne. simpl. by rewrite lookup_insert_ne.
Qed.

(** ** The outbox relay *)

Lemma publish_rows_prefix sink rows :
  (publish_rows sink rows).1 `prefix_of` rows ∧
  (∀ row, row ∈ (publish_rows sink rows).1 →
     ∃ e, or_payload row = Some e ∧ sink e = Ok tt) ∧
  ((publish_rows sink rows).2 = None → (publish_rows sink rows).1 = rows).
Proof.
  induction rows as [|row rows (Hp & Hs & Hn)]; simpl; [split_and!; [done|set_solver|done]|].
  destruct (or_payload row) as [e|] eqn:He; simpl.
  2: { split_and!; [apply prefix_nil|set_solver|done]. }
  destruct (sink e) as [[]|f] eqn:Hse; simpl.
  2: { split_and!; [apply prefix_nil|set_solver|done]. }
  destruct (publish_rows sink rows) as [published failure]; simpl in *. split_and!.
  - by apply prefix_cons.
  - intros row' [->|Hin]%elem_of_cons; eauto.
  - intros Hf. by rewrite Hn.
Qed.

Lemma delete_rows_keeps ids table row :
  row ∈ table → row ∈ delete_rows ids table ∨ or_id row ∈ ids.
Proof.
  intros Hin. destruct (decide (or_id row ∈ ids)) as [|Hn]; [by right|left].
  by apply list_elem_of_filter.
Qed.

Lemma delete_rows_prefix (p l : list OutboxRow) :
  NoDup (or_id <$> p ++ l) → delete_rows (or_id <$> p) (p ++ l) = l.
Proof.
  rewrite fmap_app. intros (_ & Hdisj & _)%list.NoDup_app. unfold delete_rows. rewrite list.filter_app.
  assert (Hl : ∀ k : list OutboxRow, (∀ r, r ∈ k → or_id r ∉ or_id <$> p) →
    filter (λ row, or_id row ∉ or_id <$> p) k = k).
  { induction k as [|r k IH]; intros Hk; [done|]. rewrite filter_cons_True by (apply Hk; set_solver).
    rewrite IH; set_solver. }
  rewrite (Hl l).
  2: { intros r Hr Hin. apply (Hdisj (or_id r)); [done|]. apply list_elem_of_fmap; eauto. }
  assert (Hp : ∀ k : list OutboxRow, (∀ r, r ∈ k → or_id r ∈ or_id <$> p) →
    filter (λ row, or_id row ∉ or_id <$> p) k = []).
  { induction k as [|r k IH]; intros Hk; [done|]. rewrite filter_cons_False by (set_solver).
    apply IH. set_solver. }
  rewrite Hp; [done|]. intros r Hr. apply list_elem_of_fmap; eauto.
Qed.

Lemma filter_unlocked (table : list OutboxRow) : filter (λ row : OutboxRow, or_id row ∉ @nil Uuid) table = table.
Proof. induction table as [|r l IH]; [done|]. rewrite filter_cons_True by set_solver. by rewrite IH. Qed.

(** The outbox relay delivers at least once and in order.  Whatever fails
    during a tick: no row leaves the table unless the sink accepted its event, rows
    never move or appear, what was delivered is a prefix of the unlocked rows of the
    batch in table order, and the tick reports the number of deliveries exactly when
    it deleted them.  With no competing relay a successful tick splits the table into
    the delivered prefix and the rest. *)
Theorem relay_at_least_once_in_order (sink : DomainEvent → result AuthError unit)
    (locked : list Uuid) (f : TickFaults) (table table' delivered : list OutboxRow)
    (out : result AuthError nat) :
  NoDup (or_id <$> table) →
  tick sink locked f table = (table', delivered, out) →
  (∀ row, row ∈ table → row ∈ table' ∨ (∃ row', row' ∈ delivered ∧ or_id row' = or_id row)) ∧
  table' `sublist_of` table ∧
  delivered `prefix_of` take BATCH (filter (λ row, or_id row ∉ locked) table) ∧
  (∀ row, row ∈ delivered → ∃ e, or_payload row = Some e ∧ sink e = Ok tt) ∧
  (∀ n, out = Ok n → n = length delivered ∧ (locked = [] → table = delivered ++ table')) ∧
  (∀ e, out = Err e → table' = table).
Proof.
  intros Hnd Ht. unfold tick in Ht.
  destruct (negb (begin_ok f) || negb (select_ok f)).
  { simplify_eq. split_and!; [auto|done|apply prefix_nil|set_solver|done|done]. }
  destruct (publish_rows sink _) as [published failure] eqn:Hp.
  pose proof (publish_rows_prefix sink (take BATCH (filter (λ row, or_id row ∉ locked) table)))
    as (Hpre & Hsink & Hnone).
  rewrite Hp in Hpre, Hsink, Hnone. simpl in *.
  destruct (negb (bool_decide (published = [])) && negb (delete_ok f)).
  { simplify_eq. split_and!; [auto|done|done|done|done|done]. }
  destruct (negb (commit_ok f)).
  { simplify_eq. split_and!; [auto|done|done|done|done|done]. }
  assert (Htab : table' = delete_rows (or_id <$> delivered) table ∧ delivered = published ∧
    (∀ n, out = Ok n → n = length published) ∧ (∀ e, out = Err e → published = [])).
  { case_bool_decide as Hempty; simplify_eq/=.
    - split_and!; [|done|destruct failure; naive_solver|done].
      unfold delete_rows. simpl. symmetry. apply filter_unlocked.
    - split_and!; [done|done|destruct failure; naive_solver|destruct failure; naive_solver]. }
  destruct Htab as (-> & -> & Hn & Herr). split_and!; [| |done|done| |].
  - intros row Hin. destruct (delete_rows_keeps (or_id <$> published) table row Hin) as [|Hd];
      [by left|right]. apply list_elem_of_fmap in Hd as (row' & -> & ?). eauto.
  - apply sublist_filter.
  - intros n Hok. split; [by apply Hn|]. intros ->. rewrite filter_unlocked in Hpre.
    assert (published `prefix_of` table) as [rest ->] by (etrans; [exact Hpre|apply prefix_take]).
    f_equal. symmetry. by apply delete_rows_prefix.
  - intros e He. rewrite (Herr e He). apply filter_unlocked.
Qed.

(** ** Witnesses *)

Definition empty_world : World := {|
  sessions := ∅; refresh_tokens := ∅; subject_links := ∅; outbox := [];
  generations := ∅; blacklist := ∅; clock := 0; faults := [] |}.

Definition demo_token : RefreshToken.RefreshToken :=
  RefreshToken.reconstitute 5%N 1%N 7%N "h1" TokenActive 0 (604800 * NS) None None 0.

(** One session with one active refresh token. *)
Definition demo_world : World :=
  set_tokens {[5%N := row_of_token demo_token 0]}
    (set_sessions {[1%N := row_of_session demo_session 0]} empty_world).

Lemma stores_only_advance_witness :
  store_le default_policy demo_world (bump_generation 7%N demo_world).1.
Proof.
  apply (stores_only_advance default_policy demo_world).
  eapply star_step; [apply st_bump|apply star_refl].
Defined.

Lemma concurrent_rotation_wins_once_witness :
  ∃ t1 s1 t2 s2 wb,
    RefreshToken.rotate demo_token 8%N NS "h2" (700000 * NS) = Ok (t1, s1) ∧
    RefreshToken.rotate demo_token 9%N NS "h3" (700000 * NS) = Ok (t2, s2) ∧
    token_save t1 demo_world = (wb, Ok tt) ∧ is_ok (token_save t2 wb).2 = false.
Proof.
  destruct (RefreshToken.rotate demo_token 8%N NS _ _) as [[t1 s1]|] eqn:H1; [|by vm_compute in H1].
  destruct (RefreshToken.rotate demo_token 9%N NS _ _) as [[t2 s2]|] eqn:H2; [|by vm_compute in H2].
  destruct (token_save t1 demo_world) as [wb r] eqn:Hs.
  assert (Hr : r = Ok tt) by (vm_compute in H1; injection H1 as <- <-; vm_compute in Hs; congruence).
  subst r. exists t1, s1, t2, s2, wb. split_and!; [done|done|done|].
  eapply (concurrent_rotation_wins_once default_policy demo_token t1 s1 t2 s2 8%N 9%N NS NS
    (700000 * NS) (700000 * NS) "h2" "h3" demo_world wb wb (token_save t2 wb).1);
    [split; [done|by vm_compute]|exact H1|exact H2|exact Hs|apply star_refl|].
  apply surjective_pairing.
Defined.

Lemma session_save_find_witness :
  ∃ s' w', Session.revoke (Session.drain_events demo_session).1 NS Logout 3%N = Ok s' ∧
    session_save s' demo_world = (w', Ok tt) ∧
    session_find_by_id 1%N w' = (w', Ok (Some (Session.drain_events s').1)).
Proof.
  destruct (Session.revoke (Session.drain_events demo_session).1 NS Logout 3%N) as [s'|] eqn:Hr;
    [|by vm_compute in Hr].
  exists s'.
  destruct (session_save_find demo_world 1%N (Session.drain_events demo_session).1 s'
    (row_of_session demo_session 0)) as (w' & Hs & Hf & _);
    [reflexivity|reflexivity|reflexivity|split; by vm_compute|reflexivity| |eauto].
  eapply cmd_revoke. exact Hr.
Defined.

Definition demo_event : DomainEvent := SubjectLinked 7%N demo_subject 0 99%N.
Definition demo_table : list OutboxRow :=
  [{| or_id := 1%N; or_payload := Some demo_event |}; {| or_id := 2%N; or_payload := None |}].

Definition no_faults : TickFaults :=
  {| begin_ok := true; select_ok := true; delete_ok := true; commit_ok := true |}.

Lemma relay_at_least_once_in_order_witness :
  ∃ table' delivered out,
    tick (λ _, Ok tt) [] no_faults demo_table = (table', delivered, out) ∧
    out = Ok 1%nat ∧ demo_table = delivered ++ table'.
Proof.
  destruct (tick _ _ _ _) as [[table' delivered] out] eqn:Ht. exists table', delivered, out.
  assert (Hout : out = Ok 1%nat) by (vm_compute in Ht; by simplify_eq).
  split; [done|]. split; [done|].
  destruct (relay_at_least_once_in_order (λ _, Ok tt) [] no_faults demo_table table' delivered out) as
    (_ & _ & _ & _ & Hok & _); [|exact Ht|].
  - apply (bool_decide_unpack _). by vm_compute.
  - by apply (Hok 1%nat).
Defined.
