(* ===== verification/AuthProofs.v ===== *)
(** * Auth: correctness of the handlers

    What a successful store operation did ([..._ok]), the outcome of login, refresh
    and the logouts, and the finality of revocation: after a logout, a global
    sign-out or a detected reuse nothing that any later handler run does brings the
    session or its tokens back. *)

From S2P Require Import Prelude AuthDomain AuthStore AuthHandlers AuthSteps.
Local Open Scope Z_scope.

(** ** What a store operation that returned did *)

Lemma backend_ok e w w' u : backend e w = (w', Ok u) → w' = set_faults (tail (faults w)) w.
Proof. rewrite backend_run. destruct (next_fault w); naive_solver. Qed.

Ltac past_backend H :=
  let w1 := fresh "w" in let u := fresh "u" in let Hb := fresh "Hb" in
  apply act_bind_ok in H as (w1 & u & Hb & H); apply backend_ok in Hb; subst w1.

Lemma session_save_ok s w w' u :
  session_save s w = (w', Ok u) →
  ∃ row fs, w' = set_sessions (<[Session.id s := row]> (sessions w)) (set_faults fs w) ∧
    sr_status row = session_status_str (Session.status s) ∧
    sr_expires_at row = Session.expires_at s ∧
    ((Session.version s = 0 ∧ sessions w !! Session.id s = None ∧ row = row_of_session s 0) ∨
     ∃ old, sessions w !! Session.id s = Some old ∧ row = update_session_row s old ∧
       sr_version old = Session.version s - 1 ∧ Session.version s ≠ 0).
Proof.
  intros Hs. unfold session_save in Hs. past_backend Hs. cbv zeta in Hs. simpl in Hs.
  destruct (_ =? 0) eqn:Hz in Hs; zbool; destruct (sessions w !! _) as [old|] eqn:Ho; simplify_eq/=.
  - eexists _, _. split; [reflexivity|]. split_and!; [done|done|]. by left.
  - destruct (_ =? _) eqn:Hv in Hs; zbool; simplify_eq/=.
    eexists _, _. split; [reflexivity|]. split_and!; [done|done|]. right. eauto 10.
Qed.

Lemma token_save_ok t w w' u :
  token_save t w = (w', Ok u) →
  ∃ row fs, w' = set_tokens (<[RefreshToken.id t := row]> (refresh_tokens w)) (set_faults fs w) ∧
    ((RefreshToken.version t = 0 ∧ refresh_tokens w !! RefreshToken.id t = None ∧
      row = row_of_token t 0) ∨
     ∃ old, refresh_tokens w !! RefreshToken.id t = Some old ∧
       row = update_token_row (token_status_str (RefreshToken.status t)) (RefreshToken.used_at t)
               (RefreshToken.replaced_by t) (RefreshToken.version t) old).
Proof.
  intros Hs. unfold token_save in Hs. past_backend Hs. cbv zeta in Hs. simpl in Hs.
  destruct (_ =? 0) eqn:Hz in Hs; zbool;
    destruct (refresh_tokens w !! _) as [old|] eqn:Ho; simplify_eq/=.
  - destruct (rows_with_hash _ _); simplify_eq. eexists _, _. split; [reflexivity|]. by left.
  - destruct (_ =? _) in Hs; simplify_eq/=. eexists _, _. split; [reflexivity|]. right. eauto.
Qed.

Lemma session_find_ok id w w' s :
  session_find_by_id id w = (w', Ok (Some s)) →
  ∃ r fs, w' = set_faults fs w ∧ sessions w !! id = Some r ∧ session_of_row r = Ok s.
Proof.
  intros Hf. unfold session_find_by_id in Hf. past_backend Hf. simpl in Hf.
  destruct (sessions w !! id) as [r|]; simplify_eq/=.
  destruct (session_of_row r) eqn:Hr; simplify_eq/=. eexists _, _. eauto.
Qed.

Lemma find_by_hash_ok h w w' t :
  find_by_hash h w = (w', Ok (Some t)) →
  ∃ r fs, w' = set_faults fs w ∧ r ∈ rows_with_hash h (refresh_tokens w) ∧ token_of_row r = Ok t.
Proof.
  intros Hf. unfold find_by_hash in Hf. past_backend Hf. simpl in Hf.
  destruct (rows_with_hash _ _) as [|r l]; simplify_eq/=.
  destruct (token_of_row r) eqn:Hr; simplify_eq/=. eexists _, _. split_and!; [done|left|done].
Qed.

Lemma current_generation_ok a w w' g :
  current_generation a w = (w', Ok g) →
  g = generation_of w a ∧ ∃ fs, w' = set_faults fs w.
Proof.
  intros Hg. unfold current_generation in Hg. past_backend Hg.
  unfold gets in Hg. simplify_eq. split; [done|]. eauto.
Qed.

Lemma bump_generation_ok a w w' g :
  bump_generation a w = (w', Ok g) →
  g = generation_of w a + 1 ∧
  ∃ fs, w' = set_generations (<[a := g]> (generations w)) (set_faults fs w).
Proof.
  intros Hg. unfold bump_generation in Hg. past_backend Hg. cbv zeta in Hg.
  change (generation_of (set_faults _ w) a) with (generation_of w a) in Hg.
  destruct (_ =? i64_max); simplify_eq. split; [done|]. eauto.
Qed.

Lemma blacklist_session_ok sid policy w w' u :
  blacklist_session sid (access_ttl policy) w = (w', Ok u) →
  ∃ fs, w' = set_blacklist (<[sid := clock w + blacklist_span policy]> (blacklist w))
               (set_faults fs w).
Proof. intros Hb. unfold blacklist_session in Hb. past_backend Hb. unfold modify in Hb.
  simplify_eq. by eexists. Qed.

Lemma revoke_all_ok sid w w' u :
  revoke_all_for_session sid w = (w', Ok u) →
  ∃ fs, w' = set_tokens (revoke_row sid (clock w) <$> refresh_tokens w) (set_faults fs w).
Proof. intros Hb. unfold revoke_all_for_session in Hb. past_backend Hb. unfold modify in Hb.
  simplify_eq. by eexists. Qed.

Lemma publish_all_ok es w w' u :
  publish_all es w = (w', Ok u) → ∃ fs, w' = set_outbox (outbox w ++ es) (set_faults fs w).
Proof.
  revert w. induction es as [|e es IH]; intros w Hp; simpl in Hp.
  - injection Hp as <- _. exists (faults w). rewrite app_nil_r. by destruct w.
  - apply act_bind_ok in Hp as (w1 & [] & He & Hp). unfold publish in He. past_backend He.
    unfold modify in He. simplify_eq. apply IH in Hp as (fs & ->). exists fs. simpl.
    by rewrite <- app_assoc.
Qed.

Lemma act_lift_ok {A B} (r : result AuthError A) (k : A → handler B) w w' b :
  act_bind (lift r) k w = (w', Ok b) → ∃ a, r = Ok a ∧ k a w = (w', Ok b).
Proof. rewrite act_bind_run. destruct r; naive_solver. Qed.

(** Takes a successful handler run apart, one step: the pure or store step's result
    and its equation. *)
Tactic Notation "ok_step" hyp(H) "as" simple_intropattern(a) simple_intropattern(Ha) :=
  first [ apply act_lift_ok in H as (a & Ha & H)
        | apply act_bind_ok in H as (? & a & Ha & H) ].

(** ** Revoking a session *)

Lemma revoke_ok s now reason corr s' :
  Session.revoke s now reason corr = Ok s' →
  Session.status s = Active ∧ Session.status s' = Revoked ∧ Session.id s' = Session.id s ∧
  Session.pending_events s' = Session.pending_events s ++
    [SessionRevoked (Session.id s) (Session.account_id s) (Session.generation s) reason now corr].
Proof.
  intros Hr. apply result_bind_ok in Hr as (s1 & Ht & [= <-]).
  apply transition_to_ok in Ht. destruct_and!. simpl. split_and!; congruence.
Qed.

Definition tokens_dead (sid : Uuid) (m : gmap Uuid RefreshTokenRow) : Prop :=
  ∀ id r, m !! id = Some r → tr_session_id r = sid → tr_status r ≠ "active".

Lemma revoke_rows_dead sid now m : tokens_dead sid (revoke_row sid now <$> m).
Proof.
  intros id r. rewrite lookup_fmap. destruct (m !! id) as [r0|]; simpl; [|done].
  intros [= <-]. unfold revoke_row. repeat case_bool_decide; simpl; congruence.
Qed.

(** What a revocation leaves in the stores. *)
Record revoked_in (policy : SessionPolicy) (sid : Uuid) (w : World) : Prop := {
  ri_session : ∃ r, sessions w !! sid = Some r ∧ sr_status r = "revoked";
  ri_tokens : tokens_dead sid (refresh_tokens w);
  ri_blacklist : blacklist w !! sid = Some (clock w + blacklist_span policy);
}.

Lemma revoke_session_ok policy s now reason corr w w' u :
  revoke_session policy s now reason corr w = (w', Ok u) →
  revoked_in policy (Session.id s) w' ∧ clock w' = clock w ∧ generations w' = generations w ∧
  outbox w' = outbox w ++ Session.pending_events s ++
    [SessionRevoked (Session.id s) (Session.account_id s) (Session.generation s) reason now corr].
Proof.
  intros Hr. unfold revoke_session in Hr. cbv zeta in Hr.
  ok_step Hr as s' Ha. apply revoke_ok in Ha as (_ & Hst & Hid & Hev).
  ok_step Hr as [] Ha. apply session_save_ok in Ha as (row & fs & -> & Hrow & _).
  ok_step Hr as [] Ha. apply blacklist_session_ok in Ha as (fs' & ->).
  ok_step Hr as [] Ha. apply revoke_all_ok in Ha as (fs'' & ->).
  apply publish_all_ok in Hr as (fs3 & ->). simpl. split_and!; [|done|done|by rewrite Hev].
  split; simpl.
  - rewrite Hid, lookup_insert_eq. eexists. split; [done|]. by rewrite Hrow, Hst.
  - apply revoke_rows_dead.
  - by rewrite lookup_insert_eq.
Qed.

(** ** A session that is not active stays so *)

Definition keyed (w : World) : Prop := ∀ id r, sessions w !! id = Some r → sr_id r = id.

Record dead (sid : Uuid) (w : World) : Prop := {
  dead_keyed : keyed w;
  dead_row : ∃ r, sessions w !! sid = Some r ∧ sr_status r ≠ "active";
}.

(** A handler run, of any handler with any ports and arguments, that may fail
    anywhere; or time passing. *)
Inductive op_step (policy : SessionPolicy) (w : World) : World → Prop :=
  | op_login (P : Ports) cmd now corr sid tid gen :
      op_step policy w (login policy cmd now corr sid tid gen w).1
  | op_refresh (P : Ports) cmd now corr tid gen :
      op_step policy w (refresh policy cmd now corr tid gen w).1
  | op_logout (P : Ports) sid now corr : op_step policy w (logout policy sid now corr w).1
  | op_logout_all (P : Ports) a now corr : op_step policy w (logout_all policy a now corr w).1
  | op_introspect (P : Ports) tok now : op_step policy w (introspect tok now w).1
  | op_list (P : Ports) a cur : op_step policy w (list_sessions a cur w).1
  | op_time c : clock w ≤ c → op_step policy w (set_clock c w).

Lemma list_sessions_reaches `{Ports} policy w0 a cur :
  preserves (reaches policy w0) (list_sessions a cur).
Proof.
  unfold list_sessions. apply lift_reaches. intros aid _.
  apply preserves_bind; [apply list_active_by_account_reaches|eauto with preserves].
Qed.

Lemma op_step_reaches policy w w' : op_step policy w w' → reaches policy w w'.
Proof.
  destruct 1; [apply login_reaches|apply refresh_reaches|apply logout_reaches|
    apply logout_all_reaches|apply introspect_reaches|apply list_sessions_reaches|]; try apply star_refl.
  eapply star_step; [by apply st_time|apply star_refl].
Qed.

Lemma ops_reach policy w w' : star (op_step policy) w w' → reaches policy w w'.
Proof.
  induction 1 as [w|w1 w2 w3 Hs _ IH]; [apply star_refl|].
  eapply star_trans; [by eapply op_step_reaches|done].
Qed.

Section Dead.
Context (sid : Uuid).

Lemma dead_same_sessions {A} (m : handler A) :
  (∀ w, sessions (m w).1 = sessions w) → preserves (dead sid) m.
Proof. intros Hm w [Hk Hr]. split; [unfold keyed|]; by rewrite Hm. Qed.

Lemma backend_dead e : preserves (dead sid) (backend e).
Proof. apply dead_same_sessions. intros w. by rewrite backend_run. Qed.

Lemma past_backend_dead {A} e (k : unit → handler A) :
  (∀ w, sessions (k tt w).1 = sessions w) → preserves (dead sid) (act_bind (backend e) k).
Proof.
  intros Hk. apply preserves_bind; [apply backend_dead|]. intros []. by apply dead_same_sessions.
Qed.

Lemma find_by_hash_dead h : preserves (dead sid) (find_by_hash h).
Proof. apply past_backend_dead. intros w. by destruct (rows_with_hash _ _). Qed.
Lemma find_by_subject_dead s : preserves (dead sid) (find_by_subject s).
Proof. apply past_backend_dead. intros w. by destruct (subject_links w !! _). Qed.
Lemma list_active_dead a : preserves (dead sid) (list_active_by_account a).
Proof. by apply past_backend_dead. Qed.
Lemma session_find_dead id : preserves (dead sid) (session_find_by_id id).
Proof. apply past_backend_dead. intros w. by destruct (sessions w !! _). Qed.
Lemma current_generation_dead a : preserves (dead sid) (current_generation a).
Proof. by apply past_backend_dead. Qed.
Lemma is_blacklisted_dead a : preserves (dead sid) (is_blacklisted a).
Proof. by apply past_backend_dead. Qed.
Lemma link_save_dead l : preserves (dead sid) (link_save l).
Proof. apply past_backend_dead. intros w. cbv zeta. by destruct (subject_links w !! _). Qed.
Lemma bump_generation_dead a : preserves (dead sid) (bump_generation a).
Proof. apply past_backend_dead. intros w. cbv zeta. by destruct (_ =? _). Qed.
Lemma blacklist_dead a t : preserves (dead sid) (blacklist_session a t).
Proof. by apply past_backend_dead. Qed.
Lemma revoke_all_dead a : preserves (dead sid) (revoke_all_for_session a).
Proof. by apply past_backend_dead. Qed.
Lemma publish_all_dead es : preserves (dead sid) (publish_all es).
Proof. apply preserves_for_each. intros e _. by apply past_backend_dead. Qed.
Lemma token_save_dead t : preserves (dead sid) (token_save t).
Proof.
  apply past_backend_dead. intros w. cbv zeta.
  destruct (_ =? 0); destruct (refresh_tokens w !! _); try done.
  - by destruct (rows_with_hash _ _).
  - by destruct (_ =? _).
Qed.

(** The only save that could revive a session is an update to active of that id. *)
Lemma session_save_dead s :
  Session.status s ≠ Active ∨ Session.version s = 0 ∨ Session.id s ≠ sid →
  preserves (dead sid) (session_save s).
Proof.
  intros Hs w Hw. unfold session_save. rewrite act_bind_run, backend_run.
  destruct (next_fault w); [by destruct Hw as [Hk Hr]; split|]. simpl.
  set (w1 := set_faults _ w). assert (Hw1 : dead sid w1) by (by destruct Hw; split).
  change (sessions w) with (sessions w1). clearbody w1. clear Hw.
  destruct Hw1 as [Hk (r & Hr & Hst)].
  destruct (_ =? 0) eqn:Hz; zbool.
  - destruct (sessions w1 !! Session.id s) as [old|] eqn:Ho; simpl; [by split; eauto|]. split.
    + intros id r'. simpl. rewrite lookup_insert_Some. intros [(<- & <-)|(_ & ?)]; [done|by apply Hk].
    + exists r. simpl. rewrite lookup_insert_ne by congruence. done.
  - destruct (sessions w1 !! Session.id s) as [old|] eqn:Ho; simpl; [|by split; eauto].
    destruct (_ =? _); simpl; [|by split; eauto]. split.
    + intros id r'. simpl. rewrite lookup_insert_Some.
      intros [(<- & <-)|(_ & ?)]; [simpl; by apply Hk|by apply Hk].
    + simpl. destruct (decide (Session.id s = sid)) as [He|He].
      * rewrite He, lookup_insert_eq. eexists. split; [done|]. simpl.
        destruct (Session.status s); naive_solver.
      * exists r. by rewrite lookup_insert_ne.
Qed.
End Dead.

#[export] Hint Resolve find_by_hash_dead find_by_subject_dead list_active_dead session_find_dead
  current_generation_dead is_blacklisted_dead link_save_dead bump_generation_dead blacklist_dead
  revoke_all_dead publish_all_dead token_save_dead session_save_dead : preserves.

Lemma preserves_lift_bind {A B} (P : World → Prop) (r : result AuthError A) (k : A → handler B) :
  (∀ a, r = Ok a → preserves P (k a)) → preserves P (act_bind (lift r) k).
Proof. intros Hk w Hw. rewrite act_bind_run. destruct r; [by apply Hk|done]. Qed.

(** A bind whose first part also tells something of its result. *)
Lemma preserves_bind_post {A B} (P : World → Prop) (Q : A → Prop) (m : handler A)
    (k : A → handler B) :
  (∀ w, P w → P (m w).1 ∧ ∀ a, (m w).2 = Ok a → Q a) →
  (∀ a, Q a → preserves P (k a)) → preserves P (act_bind m k).
Proof.
  intros Hm Hk w Hw. rewrite act_bind_run. destruct (Hm w Hw) as [Hp Hq].
  destruct (m w) as [w1 [a|e]]; simpl in *; [|done]. apply Hk; auto.
Qed.

(** [found] when [sid] is dead: another session, or one that is not active. *)
Lemma session_find_not_active sid id w s :
  dead sid w → (session_find_by_id id w).2 = Ok (Some s) →
  Session.status s ≠ Active ∨ Session.id s ≠ sid.
Proof.
  intros [Hk (r & Hr & Hst)] Hf.
  destruct (session_find_by_id id w) as [w' res] eqn:He. simpl in Hf. subst res.
  apply session_find_ok in He as (r' & fs & _ & Hr' & Hrow).
  apply session_of_row_inv in Hrow as (-> & _ & _). pose proof (Hk _ _ Hr') as Hid. simpl in Hid.
  destruct (decide (Session.id s = sid)) as [Heq|]; [left|by right].
  subst id. rewrite Heq, Hr in Hr'. simplify_eq. simpl in Hst. intros Ha. by rewrite Ha in Hst.
Qed.

(** Follows a handler as [follow] does, with the equations of the pure steps. *)
Ltac follow_dead :=
  repeat first
    [ match goal with
      | |- preserves _ (act_bind (lift _) _) => apply preserves_lift_bind; intros ? ?
      | |- preserves _ (act_bind _ _) => apply preserves_bind; [|intros ?]
      end
    | solve [eauto 3 with preserves nocore]
    | case_decide
    | match goal with |- preserves _ (match ?x with _ => _ end) => destruct x eqn:? end ].

Lemma issue_session_version id p s : Session.issue id p = Ok s → Session.version s = 0.
Proof. unfold Session.issue. intros Hi. split_guards; done. Qed.

Section DeadHandlers.
Context `{Ports} (policy : SessionPolicy) (sid : Uuid).

Lemma login_dead cmd now corr s tid gen :
  preserves (dead sid) (login policy cmd now corr s tid gen).
Proof.
  unfold login, resolve_account, establish_link. follow_dead.
  apply session_save_dead. right. left. by eapply issue_session_version.
Qed.

Lemma revoked_save_dead s now reason corr s' :
  Session.revoke s now reason corr = Ok s' → preserves (dead sid) (session_save s').
Proof.
  intros Hr. apply session_save_dead. left. apply revoke_ok in Hr. destruct_and!. congruence.
Qed.

Lemma revoke_generation_dead now a s corr :
  preserves (dead sid) (revoke_generation policy now a s corr).
Proof. unfold revoke_generation. follow_dead. by eapply revoked_save_dead. Qed.

Lemma revoke_session_dead s now reason corr :
  preserves (dead sid) (revoke_session policy s now reason corr).
Proof. unfold revoke_session. follow_dead. by eapply revoked_save_dead. Qed.

Lemma logout_dead s now corr : preserves (dead sid) (logout policy s now corr).
Proof. unfold logout. follow_dead. apply revoke_session_dead. Qed.

Lemma revoke_each_dead ss now corr n : preserves (dead sid) (revoke_each policy ss now corr n).
Proof.
  revert n. induction ss as [|s ss IH]; intros n; simpl; [eauto with preserves|].
  case_decide; [apply IH|]. apply preserves_bind; [apply revoke_session_dead|].
  intros _. apply IH.
Qed.

Lemma logout_all_dead a now corr : preserves (dead sid) (logout_all policy a now corr).
Proof. unfold logout_all. follow_dead. apply revoke_each_dead. Qed.

Lemma extend_id s now ttl s' : Session.extend s now ttl = Ok s' → Session.id s' = Session.id s.
Proof. intros He. apply result_bind_ok in He as (? & _ & [= <-]). by destruct (_ <? _). Qed.

Lemma is_valid_under_ok s g now :
  Session.is_valid_under s g now = true →
  Session.status s = Active ∧ now < Session.expires_at s ∧ now < Session.absolute_expiry s ∧
  Session.generation s = g.
Proof.
  unfold Session.is_valid_under, Session.is_expired. intros Hv. zbool.
  split_and!; [by eapply bool_decide_eq_true_1|lia..].
Qed.
End DeadHandlers.

Section Final.
Context `{Ports} (policy : SessionPolicy).

Lemma refresh_dead sid cmd now corr tid gen :
  preserves (dead sid) (refresh policy cmd now corr tid gen).
Proof.
  unfold refresh.
  do 2 (apply preserves_lift_bind; intros ? _). apply preserves_bind; [eauto with preserves|].
  intros found. do 2 (apply preserves_lift_bind; intros ? _). cbv zeta.
  match goal with |- preserves _ (match ?x with _ => _ end) => destruct x as [[token succ]|e] end.
  2: destruct e; try (apply preserves_throw);
    apply preserves_bind; [apply revoke_generation_dead|eauto with preserves].
  apply (preserves_bind_post _ (λ found : option Session.Session, ∀ s, found = Some s →
    Session.status s ≠ Active ∨ Session.id s ≠ sid)).
  { intros w Hw. split; [by apply session_find_dead|]. intros ? Hf s ->.
    by eapply session_find_not_active. }
  intros f2 Hf2. apply preserves_lift_bind. intros s Hs. apply ok_or_ok in Hs.
  apply preserves_bind; [eauto with preserves|]. intros g.
  destruct (Session.is_valid_under s g now) eqn:Hv; simpl; [|eauto with preserves].
  apply is_valid_under_ok in Hv as (Hact & _).
  destruct (Hf2 s Hs) as [|Hne]; [done|]. follow_dead.
  apply session_save_dead. right. right. by erewrite extend_id.
Qed.

Lemma introspect_dead sid tok now : preserves (dead sid) (introspect tok now).
Proof. unfold introspect. follow_dead. Qed.

Lemma list_sessions_dead sid a cur : preserves (dead sid) (list_sessions a cur).
Proof. unfold list_sessions. follow_dead. Qed.
End Final.

Lemma ops_dead policy sid w w' : star (op_step policy) w w' → dead sid w → dead sid w'.
Proof.
  intros Hst Hd. eapply (star_invariant _ (dead sid)); [exact Hd| |exact Hst].
  clear. intros w w' Hst Hd. destruct Hst.
  - by apply login_dead.
  - by apply refresh_dead.
  - by apply logout_dead.
  - by apply logout_all_dead.
  - by apply introspect_dead.
  - by apply list_sessions_dead.
  - by destruct Hd; split.
Qed.

Lemma session_save_keyed s w : keyed w → keyed (session_save s w).1.
Proof.
  intros Hk. destruct (session_save s w) as [w' [u|e]] eqn:Hs; simpl.
  - apply session_save_ok in Hs as (row & fs & -> & _ & _ & Hrow).
    intros id r. simpl. rewrite lookup_insert_Some. intros [(<- & <-)|(_ & ?)]; [|by apply Hk].
    destruct Hrow as [(_ & _ & ->)|(old & Ho & -> & _)]; [done|]. simpl. by apply Hk.
  - assert (Hsame : sessions w' = sessions w).
    { unfold session_save in Hs. rewrite act_bind_run, backend_run in Hs.
      destruct (next_fault w); simplify_eq/=; [done|].
      destruct (_ =? 0), (sessions w !! _); simplify_eq/=; try done.
      destruct (_ =? _); by simplify_eq/=. }
    unfold keyed. by rewrite Hsame.
Qed.

Lemma reaches_keyed policy w w' : reaches policy w w' → keyed w → keyed w'.
Proof.
  intros Hr Hk. eapply (star_invariant _ keyed); [exact Hk| |exact Hr].
  clear. intros w w' Hst Hk.
  assert (Hsame : sessions w' = sessions w ∨ ∃ s, w' = (session_save s w).1).
  { destruct Hst as [e|s|t Ht|sid|l|a|sid|e|c Hc]; [left|right; eauto|left..|by left].
    all: unfold token_save, revoke_all_for_session, link_save, bump_generation, blacklist_session,
      publish; rewrite ?act_bind_run, backend_run; destruct (next_fault w); simpl; try done;
      repeat case_match; done. }
  destruct Hsame as [Hs|[s ->]]; [unfold keyed; by rewrite Hs|by apply session_save_keyed].
Qed.

(** ** Refresh *)

Lemma token_of_row_ok r t :
  token_of_row r = Ok t →
  tr_id r = RefreshToken.id t ∧ tr_session_id r = RefreshToken.session_id t ∧
  tr_account_id r = RefreshToken.account_id t ∧ tr_token_hash r = RefreshToken.token_hash t ∧
  tr_status r = token_status_str (RefreshToken.status t) ∧
  tr_expires_at r = RefreshToken.expires_at t ∧ tr_version r = RefreshToken.version t.
Proof.
  unfold token_of_row. intros Hr. apply result_bind_ok in Hr as (st & Hst & Hr).
  apply result_bind_ok in Hr as (h & Hh & [= <-]). simpl.
  unfold refresh_token_hash_new in Hh. destruct (trim_is_empty _); simplify_eq.
  split_and!; try done. unfold parse_token_status in Hst. by repeat case_decide; simplify_eq/=.
Qed.

Lemma rotate_ok t id now h e t' succ :
  RefreshToken.rotate t id now h e = Ok (t', succ) →
  now < RefreshToken.expires_at t ∧
  RefreshToken.status t' = TokenRotated ∧ RefreshToken.replaced_by t' = Some id ∧
  RefreshToken.used_at t' = Some now ∧
  succ = {| RefreshToken.id := id; RefreshToken.session_id := RefreshToken.session_id t;
            RefreshToken.account_id := RefreshToken.account_id t; RefreshToken.token_hash := h;
            RefreshToken.status := TokenActive; RefreshToken.issued_at := now;
            RefreshToken.expires_at := e; RefreshToken.used_at := None;
            RefreshToken.replaced_by := None; RefreshToken.version := 0 |}.
Proof.
  unfold RefreshToken.rotate, RefreshToken.is_expired. intros Hr. split_guards.
  apply result_bind_ok in Hr as (s & Hs & [= <- <-]). zbool. unfold RefreshToken.issue in Hs.
  destruct (_ <=? _); simplify_eq/=. done.
Qed.

Lemma extend_ok s now ttl s' :
  Session.extend s now ttl = Ok s' →
  Session.status s' = Session.status s ∧ Session.absolute_expiry s' = Session.absolute_expiry s ∧
  Session.account_id s' = Session.account_id s ∧ Session.generation s' = Session.generation s ∧
  (s' = s ∨ Session.expires_at s < Z.min (now + ttl) (Session.absolute_expiry s) ∧
            Session.expires_at s' = Z.min (now + ttl) (Session.absolute_expiry s)).
Proof.
  intros He. apply result_bind_ok in He as (? & _ & [= <-]).
  destruct (_ <? _) eqn:Hlt; zbool; simpl; auto 10.
Qed.

(** The facts of a refresh that returned a new pair: [r] is the presented token's
    row and [sr] its session's row before, [g] the drawn token. *)
Record refreshed `{Ports} (policy : SessionPolicy) (cmd : RefreshCommand) (now : Z) (tid : Uuid)
    (g : GeneratedRefresh) (w w' : World) (i : IssuedSession)
    (r : RefreshTokenRow) (sr : SessionRow) : Prop := {
  rf_presented : ∃ h, hash_refresh (refresh_token cmd) = Ok h ∧
    r ∈ rows_with_hash h (refresh_tokens w);
  rf_token_live : tr_status r = "active" ∧ now < tr_expires_at r;
  rf_session_live : sessions w !! tr_session_id r = Some sr ∧ sr_status sr = "active" ∧
    now < sr_expires_at sr ∧ sr_generation sr = generation_of w (tr_account_id r);
  rf_device : same_device_as {| user_agent := sr_device_user_agent sr; ip_address := sr_device_ip sr;
    device_id := sr_device_id sr |} (refresh_device cmd) = true;
  rf_rotated : ∃ r', refresh_tokens w' !! tr_id r = Some r' ∧ tr_status r' = "rotated" ∧
    tr_replaced_by r' = Some tid;
  rf_successor : refresh_tokens w !! tid = None ∧
    ∃ n, refresh_tokens w' !! tid = Some n ∧ tr_status n = "active" ∧
      tr_token_hash n = hash g ∧ tr_session_id n = tr_session_id r ∧
      tr_expires_at n = now + refresh_ttl policy;
  rf_other_tokens : ∀ id, id ≠ tr_id r → id ≠ tid → refresh_tokens w' !! id = refresh_tokens w !! id;
  rf_window : sr_expires_at sr < Z.min (now + session_ttl policy) (sr_absolute_expiry sr) ∧
    ∃ sr', sessions w' !! tr_session_id r = Some sr' ∧ sr_status sr' = "active" ∧
      sr_expires_at sr' = Z.min (now + session_ttl policy) (sr_absolute_expiry sr);
  rf_issued : is_session_id i = tr_session_id r ∧ is_account_id i = tr_account_id r ∧
    is_refresh_token i = plaintext g;
  rf_access : ∃ perms claims, gate_active (tr_account_id r) = Ok perms ∧
    mint_access claims = Ok (is_access_token i) ∧ claims_session_id claims = tr_session_id r ∧
    claims_generation claims = generation_of w (tr_account_id r) ∧
    claims_permissions claims = perms ∧ claims_expires_at claims ≤ now + access_ttl policy ∧
    claims_expires_at claims ≤ sr_absolute_expiry sr;
}.

Lemma mint_ok s now ttl perms c :
  Session.mint_access_token s now ttl perms = Ok c →
  claims_session_id c = Session.id s ∧ claims_generation c = Session.generation s ∧
  claims_permissions c = perms ∧ claims_expires_at c ≤ now + ttl ∧
  claims_expires_at c ≤ Session.absolute_expiry s.
Proof.
  intros Hm. apply result_bind_ok in Hm as (? & _ & Hm). cbv zeta in Hm.
  destruct (_ <=? _) in Hm; simplify_eq/=. split_and!; (done || lia).
Qed.

Lemma token_saved t w w' u :
  token_save t w = (w', Ok u) →
  ∃ row fs, w' = set_tokens (<[RefreshToken.id t := row]> (refresh_tokens w)) (set_faults fs w) ∧
    tr_status row = token_status_str (RefreshToken.status t) ∧
    tr_replaced_by row = RefreshToken.replaced_by t.
Proof.
  intros Hs. apply token_save_ok in Hs as (row & fs & -> & Hrow). exists row, fs.
  split; [done|]. by destruct Hrow as [(_ & _ & ->)|(old & _ & ->)].
Qed.

Lemma token_inserted t w w' u :
  RefreshToken.version t = 0 → token_save t w = (w', Ok u) →
  refresh_tokens w !! RefreshToken.id t = None ∧
  ∃ fs, w' = set_tokens (<[RefreshToken.id t := row_of_token t 0]> (refresh_tokens w))
              (set_faults fs w).
Proof.
  intros Hv Hs. unfold token_save in Hs. past_backend Hs. cbv zeta in Hs. simpl in Hs.
  rewrite Hv in Hs. simpl in Hs. destruct (refresh_tokens w !! _); simplify_eq.
  destruct (rows_with_hash _ _); simplify_eq. split; [done|]. by eexists.
Qed.

(** A session whose window did not move cannot be saved. *)
Lemma unmoved_session_not_saved s w w' u :
  sessions w !! Session.id s = Some (row_of_session s (Session.version s)) →
  session_save s w = (w', Ok u) → False.
Proof.
  intros Hr Hs. apply session_save_ok in Hs as (row & fs & -> & _ & _ & [(_ & Hn & _)|(old & Ho & _ & Hv)]).
  - congruence.
  - rewrite Hr in Ho. simplify_eq. simpl in Hv. lia.
Qed.

Section RefreshOutcome.
Context `{Ports} (policy : SessionPolicy).

Lemma refresh_ok cmd now corr tid gen w w' i :
  keyed w → refresh policy cmd now corr tid gen w = (w', Ok i) →
  ∃ g r sr, gen = Ok g ∧ refreshed policy cmd now tid g w w' i r sr.
Proof.
  intros Hk Hr. unfold refresh in Hr. cbv zeta in Hr.
  ok_step Hr as [] _. ok_step Hr as h Hh. ok_step Hr as found Hfound.
  ok_step Hr as t Ht. apply ok_or_ok in Ht as ->.
  apply find_by_hash_ok in Hfound as (r & fs & -> & Hin & Hrow).
  ok_step Hr as g Hgen.
  destruct (RefreshToken.rotate _ _ _ _ _) as [[t' succ]|e] eqn:Hrot.
  2: { destruct e; try done. by ok_step Hr as [] _. }
  pose proof (rotate_version _ _ _ _ _ _ _ Hrot) as (Hid & _ & Hact).
  apply rotate_ok in Hrot as (Hlive & Hst' & Hrep & _ & ->).
  apply token_of_row_ok in Hrow as (Hrid & Hrs & Hra & _ & Hrst & Hre & _).
  rewrite <- Hrs, <- Hra in *.
  ok_step Hr as found Hfind. ok_step Hr as s Hs. apply ok_or_ok in Hs as ->.
  apply session_find_ok in Hfind as (sr & fs1 & -> & Hsr & Hs). simpl in Hsr.
  ok_step Hr as gn Hgn. apply current_generation_ok in Hgn as (-> & fs2 & ->).
  destruct (Session.is_valid_under _ _ _) eqn:Hv in Hr; [|done]. simpl in Hr.
  destruct (same_device_as _ _) eqn:Hdev in Hr; [|done]. simpl in Hr.
  apply is_valid_under_ok in Hv as (Hsact & Hexp & Hcap & Hsgen).
  change (generation_of _ _) with (generation_of w (tr_account_id r)) in Hsgen.
  ok_step Hr as perms Hperms.
  ok_step Hr as [] Hsave. apply token_saved in Hsave as (row1 & fs3 & -> & Hst1 & Hrep1).
  ok_step Hr as [] Hsave. apply token_inserted in Hsave as (Hfresh & fs4 & ->); [|done].
  simpl in Hfresh.
  ok_step Hr as s' Hext. pose proof (extend_id _ _ _ _ Hext) as Hsid.
  apply extend_ok in Hext as (Hst & Habs & Hacc & Hg & Hwin).
  ok_step Hr as [] Hsave. ok_step Hr as claims Hmint. apply mint_ok in Hmint. destruct_and!.
  ok_step Hr as tok Htok. injection Hr as <- <-.
  pose proof (session_of_row_inv _ _ Hs) as (-> & _ & _). pose proof (Hk _ _ Hsr) as Hkey. simpl in Hkey.
  exists g, r, (row_of_session s (Session.version s)). split; [done|].
  destruct Hwin as [->|[Hlt Hwin]].
  { exfalso. eapply unmoved_session_not_saved; [|exact Hsave]. simpl. by rewrite Hkey. }
  apply session_save_ok in Hsave as (srow & fs5 & -> & Hsrow & Hsexp & _).
  apply lookup_insert_None in Hfresh as [Hfresh Hne]. rewrite Hid, <- Hrid in *.
  split; simpl.
  - eauto.
  - rewrite Hrst, Hact. split; [done|lia].
  - rewrite Hsact. done.
  - by destruct (Session.device s).
  - rewrite lookup_insert_ne by done. rewrite lookup_insert_eq. eexists. split; [done|].
    rewrite Hst1, Hst', Hrep1, Hrep. done.
  - split; [done|]. rewrite lookup_insert_eq. eexists. split; [done|]. simpl. done.
  - intros id Hn1 Hn2. by rewrite !lookup_insert_ne.
  - split; [done|]. rewrite Hsid, Hkey, lookup_insert_eq. eexists. split; [done|].
    rewrite Hsrow, Hst, Hsact. split; [done|congruence].
  - done.
  - eexists perms, claims. split_and!; try done; (congruence || lia).
Qed.
End RefreshOutcome.

Lemma keyed_empty : keyed empty_world.
Proof. intros id r Hr. simpl in Hr. by rewrite lookup_empty in Hr. Qed.

(** ** Introspection *)

Lemma introspect_active `{Ports} tok now w w' v :
  introspect tok now w = (w', Ok v) → active v = true →
  ∃ c, verify_access tok = Ok c ∧ now < claims_expires_at c ∧
    claims_generation c = generation_of w (claims_account_id c) ∧
    blacklisted w (claims_session_id c) = false.
Proof.
  unfold introspect. destruct (verify_access tok) as [c|]; [|intros [= <- <-]; done].
  intros Hi Hact. exists c. split; [done|].
  destruct (_ <=? now) eqn:He in Hi; [injection Hi as <- <-; done|]. zbool.
  ok_step Hi as g Hg. apply current_generation_ok in Hg as (-> & fs & ->).
  destruct (negb _) eqn:Hn in Hi; [injection Hi as <- <-; done|]. zbool.
  ok_step Hi as dead Hd. unfold is_blacklisted in Hd. past_backend Hd. unfold gets in Hd.
  injection Hd as <- <-. change (blacklisted (set_faults _ _) ?s) with (blacklisted w s) in Hi.
  destruct (blacklisted w _); [injection Hi as <- <-; done|]. done.
Qed.

Section Claims.
Context `{Ports} (policy : SessionPolicy).


Lemma logout_ok sid_str sid now corr w w1 b :
  parse_uuid sid_str = Some sid → keyed w →
  (∃ r, sessions w !! sid = Some r ∧ sr_status r = "active") →
  logout policy sid_str now corr w = (w1, Ok b) →
  revoked_in policy sid w1 ∧ clock w1 = clock w.
Proof.
  intros Hp Hk (r & Hr & Hact) Hl. unfold logout in Hl.
  ok_step Hl as [] _. ok_step Hl as sid' Hsid. unfold parse_session_id in Hsid.
  rewrite Hp in Hsid. injection Hsid as <-.
  ok_step Hl as found Hf. ok_step Hl as s Hs. apply ok_or_ok in Hs as ->.
  apply session_find_ok in Hf as (r' & fs & -> & Hr' & Hs). rewrite Hr in Hr'. injection Hr' as <-.
  apply session_of_row_inv in Hs as (-> & _ & _).
  assert (Ha : Session.status s = Active) by (simpl in Hact; by destruct (Session.status s)).
  rewrite decide_False in Hl by naive_solver.
  ok_step Hl as [] Hrev. injection Hl as <- _.
  apply revoke_session_ok in Hrev as (Hri & Hc & _). specialize (Hk _ _ Hr). simpl in Hk.
  by rewrite <- Hk.
Qed.

Lemma dead_tokens_stay sid w w' :
  reaches policy w w' → tokens_dead sid (refresh_tokens w) →
  ∀ id r, refresh_tokens w !! id = Some r → tr_session_id r = sid →
    ∃ r', refresh_tokens w' !! id = Some r' ∧ tr_status r' ≠ "active".
Proof.
  intros Hr Hd id r Hl Hs.
  destruct (le_tokens _ _ _ (reaches_le _ _ _ Hr) _ _ Hl) as (r' & Hl' & Hle).
  exists r'. split; [done|]. apply (tle_used _ _ Hle). by eapply Hd.
Qed.

(** C19. Logging out is final.  Once a logout of an active session has returned,
    then whatever handlers run afterwards, whether they succeed or fail anywhere, and
    however much time passes: the session is not active, each of its refresh tokens
    is not active, no refresh ever returns a pair for that session, and no access
    token minted for it before the logout introspects as active. *)
Theorem logout_is_final (sid_str : string) (sid : Uuid) (now k : Z) (corr : Uuid)
    (w w1 w2 : World) (b : bool) :
  reaches policy empty_world w →
  access_ttl policy = k * NS → 0 < k →
  parse_uuid sid_str = Some sid →
  (∃ r, sessions w !! sid = Some r ∧ sr_status r = "active") →
  logout policy sid_str now corr w = (w1, Ok b) →
  star (op_step policy) w1 w2 →
  (∃ r, sessions w2 !! sid = Some r ∧ sr_status r ≠ "active") ∧
  (∀ id r, refresh_tokens w1 !! id = Some r → tr_session_id r = sid →
     ∃ r', refresh_tokens w2 !! id = Some r' ∧ tr_status r' ≠ "active") ∧
  (∀ (P : Ports) cmd now' corr' tid gen w3 i,
     refresh policy cmd now' corr' tid gen w2 = (w3, Ok i) → is_session_id i ≠ sid) ∧
  (∀ (P : Ports) tok c w3 v,
     verify_access tok = Ok c → claims_session_id c = sid →
     claims_expires_at c ≤ clock w + access_ttl policy →
     introspect tok (clock w2) w2 = (w3, Ok v) → active v = false).
Proof.
  intros Hreach Httl Hk0 Hp Hact Hl Hops.
  pose proof (reaches_keyed _ _ _ Hreach keyed_empty) as Hkey.
  destruct (logout_ok _ _ _ _ _ _ _ Hp Hkey Hact Hl) as ([(r & Hr & Hst) Htok Hbl] & Hclock).
  assert (Hkey1 : keyed w1).
  { eapply reaches_keyed; [|exact Hkey]. replace w1 with (logout policy sid_str now corr w).1
      by (by rewrite Hl). apply logout_reaches, star_refl. }
  assert (Hd1 : dead sid w1) by (split; [done|]; exists r; by rewrite Hst).
  pose proof (ops_dead _ _ _ _ Hops Hd1) as Hd2. pose proof (ops_reach _ _ _ Hops) as Hr12.
  split_and!; [apply Hd2|by apply dead_tokens_stay| |].
  - intros P cmd now' corr' tid gen w3 i Href. apply refresh_ok in Href as (g & rr & sr & _ & Hrf);
      [|apply Hd2].
    destruct Hrf as [_ _ (Hsr & Hsact & _) _ _ _ _ _ (Hsid & _) _]. intros Heq. rewrite Heq in Hsid.
    destruct (dead_row _ _ Hd2) as (rd & Hrd & Hrst). congruence.
  - intros P tok c w3 v Hver Hsid Hexp Hi. apply not_true_is_false. intros Hv.
    apply introspect_active in Hi as (c' & Hver' & Hlt & _ & Hb); [|done].
    rewrite Hver in Hver'. injection Hver' as <-. rewrite Hsid in Hb.
    destruct (le_blacklist _ _ _ (reaches_le _ _ _ Hr12) _ _ Hbl) as (e & He & Hle); [lia|].
    unfold blacklisted in Hb. rewrite He in Hb. zbool.
    unfold blacklist_span, num_seconds in Hle. rewrite Httl, Z.quot_mul in Hle by done. unfold NS in *. lia.
Qed.
End Claims.

(** ** Global sign-out *)

Lemma elem_of_insert_desc r r' l : r' ∈ insert_desc r l ↔ r' = r ∨ r' ∈ l.
Proof.
  induction l as [|x l IH]; simpl; [set_solver|]. destruct (_ <? _); [set_solver|].
  rewrite elem_of_cons, IH. set_solver.
Qed.

Lemma length_insert_desc r l : length (insert_desc r l) = S (length l).
Proof. induction l as [|x l IH]; simpl; [done|]. destruct (_ <? _); simpl; [done|by rewrite IH]. Qed.

Lemma elem_of_sorted r rows : r ∈ foldr insert_desc [] rows ↔ r ∈ rows.
Proof. induction rows as [|x l IH]; simpl; [done|]. rewrite elem_of_insert_desc, IH. set_solver. Qed.

Lemma elem_of_active_rows a m r :
  r ∈ active_rows a m ↔ (∃ id, m !! id = Some r) ∧ sr_account_id r = a ∧ sr_status r = "active".
Proof.
  unfold active_rows. rewrite elem_of_sorted, list_elem_of_filter, list_elem_of_fmap. split.
  - intros ((Ha & Hs) & [id r'] & -> & Hin%elem_of_map_to_list). eauto.
  - intros ((id & Hin) & Ha & Hs). split; [done|]. exists (id, r). split; [done|].
    by apply elem_of_map_to_list.
Qed.

Lemma load_all_ok rows l :
  foldr (λ r acc, session_of_row r ≫= λ s, acc ≫= λ l, Ok (s :: l)) (Ok []) rows = Ok l →
  Forall2 (λ r s, session_of_row r = Ok s) rows l.
Proof.
  revert l. induction rows as [|r rows IH]; simpl; intros l Hl; [injection Hl as <-; constructor|].
  apply result_bind_ok in Hl as (s & Hs & Hl). apply result_bind_ok in Hl as (l' & Hl' & [= <-]).
  constructor; [done|by apply IH].
Qed.

Lemma list_active_ok a w w' l :
  list_active_by_account a w = (w', Ok l) →
  Forall2 (λ r s, session_of_row r = Ok s) (active_rows a (sessions w)) l ∧
  ∃ fs, w' = set_faults fs w.
Proof.
  intros Hl. unfold list_active_by_account in Hl. past_backend Hl. simpl in Hl.
  injection Hl as <- Hl. split; [by apply load_all_ok|eauto].
Qed.

Section SignOut.
Context `{Ports} (policy : SessionPolicy).

Lemma revoke_each_ok ss now corr n w w' m :
  keyed w → revoke_each policy ss now corr n w = (w', Ok m) →
  (∀ s, s ∈ ss → Session.status s = Active) →
  m = n + Z.of_nat (length ss) ∧ ∀ s, s ∈ ss → dead (Session.id s) w'.
Proof.
  revert n w. induction ss as [|s ss IH]; intros n w Hk Hr Hact; simpl in Hr.
  { injection Hr as _ <-. split; [simpl; lia|set_solver]. }
  rewrite decide_False in Hr by (intros Hn; apply Hn, Hact; set_solver).
  ok_step Hr as [] Hrev.
  assert (Hk1 : keyed x).
  { eapply reaches_keyed; [|exact Hk].
    pose proof (revoke_session_reaches policy w s now GlobalLogout corr w (star_refl _ _)) as Hx.
    by rewrite Hrev in Hx. }
  apply revoke_session_ok in Hrev as ([(r & Hrow & Hst) _ _] & _).
  assert (Hd : dead (Session.id s) x) by (split; [done|]; exists r; by rewrite Hst).
  destruct (IH _ _ Hk1 Hr) as [-> Hall]; [set_solver|]. split; [simpl length; lia|].
  intros s' [->|Hin]%elem_of_cons; [|by apply Hall].
  pose proof (revoke_each_dead policy (Session.id s) ss now corr (n + 1) x Hd) as Hx.
  by rewrite Hr in Hx.
Qed.

Lemma generation_after_bump a w g fs :
  generation_of (set_generations (<[a:=g]> (generations w)) (set_faults fs w)) a = g.
Proof. unfold generation_of. simpl. by rewrite lookup_insert_eq. Qed.

(** C30. Global sign-out is final.  When it returns, having run undisturbed, every session
    of the account is inactive and the count is the number that was active; and at any
    later point of any interleaving of the handlers' store calls, failing or not, no
    access token of an earlier generation introspects as active, and a refresh of the
    account only ever returns a pair for a session issued under the new generation or a
    later one. *)
Theorem global_signout_is_final (a_str : string) (a : Uuid) (now g n : Z) (corr : Uuid)
    (w w1 w2 : World) :
  reaches policy empty_world w →
  parse_uuid a_str = Some a →
  logout_all policy a_str now corr w = (w1, Ok (g, n)) →
  reaches policy w1 w2 →
  g = generation_of w a + 1 ∧ n = Z.of_nat (length (active_rows a (sessions w))) ∧
  (∀ sid r, sessions w !! sid = Some r → sr_account_id r = a →
     ∃ r1, sessions w1 !! sid = Some r1 ∧ sr_status r1 ≠ "active") ∧
  (∀ (P : Ports) tok c now' w3 v,
     verify_access tok = Ok c → claims_account_id c = a → claims_generation c < g →
     introspect tok now' w2 = (w3, Ok v) → active v = false) ∧
  (∀ (P : Ports) cmd now' corr' tid gen w3 i,
     refresh policy cmd now' corr' tid gen w2 = (w3, Ok i) → is_account_id i = a →
     ∃ sr, sessions w2 !! is_session_id i = Some sr ∧ g ≤ sr_generation sr).
Proof.
  intros Hreach Hp Hl H12. pose proof (reaches_keyed _ _ _ Hreach keyed_empty) as Hk.
  pose proof (logout_all_reaches policy w a_str now corr w (star_refl _ _)) as H01.
  pose proof (λ sid, logout_all_dead policy sid a_str now corr w) as Hkeep.
  rewrite Hl in H01, Hkeep. simpl in H01, Hkeep.
  unfold logout_all in Hl. ok_step Hl as [] _. ok_step Hl as a' Ha.
  unfold parse_account_id in Ha. rewrite Hp in Ha. injection Ha as <-.
  ok_step Hl as g' Hg. apply bump_generation_ok in Hg as (Hg & fs & ->).
  ok_step Hl as l Hlist. apply list_active_ok in Hlist as (Hrows & fs' & ->). simpl in Hrows.
  ok_step Hl as n' Hrev. injection Hl as <- <- <-.
  assert (Hgen : g' ≤ generation_of w2 a).
  { rewrite <- (generation_after_bump a w g' fs). etrans; [|apply (le_generation _ _ _ (reaches_le _ _ _ H12))].
    set (wb := set_faults fs' _) in Hrev.
    pose proof (revoke_each_reaches policy wb l now corr 0 wb (star_refl _ _)) as Hx.
    rewrite Hrev in Hx. apply (le_generation _ _ _ (reaches_le _ _ _ Hx)). }
  assert (Hactive : ∀ s, s ∈ l → Session.status s = Active).
  { intros s (j & Hj)%list_elem_of_lookup.
    destruct (Forall2_lookup_r _ _ _ _ _ Hrows Hj) as (r & Hr & Hs).
    apply list_elem_of_lookup_2, elem_of_active_rows in Hr as (_ & _ & Hst).
    apply session_of_row_inv in Hs as (-> & _ & _). simpl in Hst. by destruct (Session.status s). }
  apply revoke_each_ok in Hrev as [-> Hdead]; [|exact Hk|exact Hactive].
  split; [done|]. split; [by rewrite (Forall2_length Hrows)|]. split; [|split].
  - intros sid r Hr Hacc. destruct (decide (sr_status r = "active")) as [Hst|Hst].
    + assert (Hin : r ∈ active_rows a (sessions w)) by (apply elem_of_active_rows; eauto).
      apply list_elem_of_lookup in Hin as (j & Hj).
      destruct (Forall2_lookup_l _ _ _ _ _ Hrows Hj) as (s & Hs & Hrow).
      apply list_elem_of_lookup_2, Hdead in Hs as [_ Hd].
      apply session_of_row_inv in Hrow as (-> & _ & _).
      specialize (Hk _ _ Hr). simpl in Hk. by rewrite <- Hk.
    + apply Hkeep. split; [done|]. eauto.
  - intros P tok c now' w3 v Hver Hacc Hlt Hi. apply not_true_is_false. intros Hv.
    apply introspect_active in Hi as (c' & Hver' & _ & Heq & _); [|done].
    rewrite Hver in Hver'. injection Hver' as <-. rewrite Hacc in Heq. lia.
  - intros P cmd now' corr' tid gen w3 i Href Hacc.
    apply refresh_ok in Href as (gg & rr & sr & _ & Hrf);
      [|eapply reaches_keyed; [exact H12|]; by eapply reaches_keyed].
    destruct Hrf as [_ _ (Hsr & _ & _ & Hsg) _ _ _ _ _ (Hsid & Haid & _) _].
    exists sr. rewrite Hsid, Hsg, <- Haid, Hacc. done.
Qed.
End SignOut.

(** ** Reuse detection *)

Lemma past_quiet {A} e (k : unit → handler A) w :
  faults w = [] → act_bind (backend e) k w = k tt w.
Proof. intros Hq. by rewrite act_bind_run, (backend_quiet _ _ Hq). Qed.

Lemma find_by_hash_quiet h w r l t :
  faults w = [] → rows_with_hash h (refresh_tokens w) = r :: l → token_of_row r = Ok t →
  find_by_hash h w = (w, Ok (Some t)).
Proof. intros Hq Hr Ht. unfold find_by_hash. rewrite past_quiet by done. by rewrite Hr, Ht. Qed.

Lemma bump_generation_quiet a w :
  faults w = [] → generation_of w a ≠ i64_max →
  bump_generation a w =
    (set_generations (<[a := generation_of w a + 1]> (generations w)) w, Ok (generation_of w a + 1)).
Proof.
  intros Hq Hg. unfold bump_generation. rewrite past_quiet by done. cbv zeta.
  by rewrite (proj2 (Z.eqb_neq _ _) Hg).
Qed.

Lemma publish_all_quiet es w :
  faults w = [] → publish_all es w = (set_outbox (outbox w ++ es) w, Ok tt).
Proof.
  revert w. induction es as [|e es IH]; intros w Hq.
  - rewrite app_nil_r. by destruct w.
  - unfold publish_all. cbn [for_each]. rewrite act_bind_run. unfold publish at 1.
    rewrite past_quiet by done. unfold modify. fold (publish_all es). rewrite IH by done.
    simpl. by rewrite <- app_assoc.
Qed.

(** [revoke] on an active session. *)
Lemma revoke_active s now reason corr :
  Session.status s = Active →
  ∃ s', Session.revoke s now reason corr = Ok s' ∧
    Session.version s' = Session.touch (Session.version s).
Proof.
  intros Ha. unfold Session.revoke, Session.transition_to. rewrite Ha. simpl. eauto.
Qed.

Section Reuse.
Context `{Ports} (policy : SessionPolicy).

Lemma revoke_generation_quiet now a sid corr w sr s :
  faults w = [] → generation_of w a ≠ i64_max →
  sessions w !! sid = Some sr → sr_id sr = sid → session_of_row sr = Ok s →
  Session.status s = Active → 0 ≤ Session.version s < i64_max →
  ∃ w', revoke_generation policy now a sid corr w = (w', Ok tt) ∧
    generation_of w' a = generation_of w a + 1 ∧ revoked_in policy sid w' ∧
    outbox w' = outbox w ++
      [SessionRevoked sid (Session.account_id s) (Session.generation s) RefreshReuse now corr].
Proof.
  intros Hq Hg Hsr Hid Hs Hact Hver. unfold revoke_generation.
  rewrite act_bind_run, bump_generation_quiet by done. rewrite act_bind_run.
  unfold revoke_all_for_session. rewrite past_quiet by done. unfold modify.
  rewrite act_bind_run, session_find_quiet by done. simpl. rewrite Hsr, Hs. simpl.
  rewrite decide_True by done.
  destruct (revoke_active s now RefreshReuse corr Hact) as (s' & Hrev & Hv').
  pose proof (session_of_row_inv _ _ Hs) as (-> & _ & Hev). simpl in Hid.
  apply revoke_ok in Hrev as Hrk. destruct Hrk as (_ & Hst' & Hid' & Hev').
  assert (Htouch : Session.version s' = Session.version s + 1).
  { rewrite Hv'. apply i64_add_small. lia. }
  rewrite act_bind_run. unfold lift at 1. rewrite Hrev.
  rewrite act_bind_run, session_save_update by (done || lia). simpl.
  rewrite Hid', Hid, Hsr. simpl. rewrite (proj2 (Z.eqb_eq _ _)) by lia.
  rewrite act_bind_run. unfold blacklist_session. rewrite past_quiet by done. unfold modify.
  rewrite publish_all_quiet by done. simpl. eexists. split; [reflexivity|]. split_and!.
  - unfold generation_of. simpl. by rewrite lookup_insert_eq.
  - split; simpl.
    + rewrite lookup_insert_eq. eexists. split; [done|]. simpl. by rewrite Hst'.
    + apply revoke_rows_dead.
    + by rewrite lookup_insert_eq.
  - simpl. by rewrite Hev', Hev, Hid.
Qed.

(** Replaying a rotated refresh token kills the generation.  With the stores
    answering, a refresh presented with an already-rotated token returns the reuse
    error and has bumped the account's generation, revoked and blacklisted the token's
    session, made all of the session's refresh tokens inactive and queued exactly one
    revocation event with that reason. *)
Theorem reuse_kills_generation (cmd : RefreshCommand) (now : Z) (corr tid : Uuid)
    (g : GeneratedRefresh) (h : string) (w : World) (r : RefreshTokenRow)
    (l : list RefreshTokenRow) (t : RefreshToken.RefreshToken) (sr : SessionRow)
    (s : Session.Session) :
  reaches policy empty_world w → faults w = [] →
  trim_is_empty (refresh_token cmd) = false → hash_refresh (refresh_token cmd) = Ok h →
  rows_with_hash h (refresh_tokens w) = r :: l → token_of_row r = Ok t →
  tr_status r = "rotated" →
  generation_of w (tr_account_id r) ≠ i64_max →
  sessions w !! tr_session_id r = Some sr → session_of_row sr = Ok s →
  Session.status s = Active → 0 ≤ Session.version s < i64_max →
  ∃ w', refresh policy cmd now corr tid (Ok g) w = (w', Err RefreshTokenReuseDetected) ∧
    generation_of w' (tr_account_id r) = generation_of w (tr_account_id r) + 1 ∧
    revoked_in policy (tr_session_id r) w' ∧
    outbox w' = outbox w ++ [SessionRevoked (tr_session_id r) (Session.account_id s)
                               (Session.generation s) RefreshReuse now corr].
Proof.
  intros Hreach Hq Hne Hh Hrows Ht Hst Hg Hsr Hs Hact Hver.
  pose proof (reaches_keyed _ _ _ Hreach keyed_empty _ _ Hsr) as Hid.
  destruct (revoke_generation_quiet now (tr_account_id r) (tr_session_id r) corr w sr s)
    as (w' & Hrg & Hrest); [done..|]. exists w'. split; [|done].
  pose proof (token_of_row_ok _ _ Ht) as (_ & Hsid & Haid & _ & Hts & _).
  assert (Hrot : RefreshToken.status t = TokenRotated).
  { rewrite Hst in Hts. by destruct (RefreshToken.status t). }
  unfold refresh, validate_refresh. rewrite Hne. unfold push_if, ensure_valid.
  rewrite act_bind_run. unfold lift at 1. rewrite act_bind_run, Hh. unfold lift at 1.
  rewrite act_bind_run, (find_by_hash_quiet h w r l t) by done.
  rewrite act_bind_run. unfold lift at 1. cbn [ok_or]. cbv zeta.
  rewrite act_bind_run. unfold lift at 1.
  unfold RefreshToken.rotate. rewrite Hrot, <- Hsid, <- Haid.
  rewrite act_bind_run, Hrg. done.
Qed.
End Reuse.

(** ** Login *)

Lemma find_by_subject_ok s w w' o :
  find_by_subject s w = (w', Ok o) →
  (∃ fs, w' = set_faults fs w) ∧
  match subject_links w !! (issuer s, subject s) with
  | None => o = None
  | Some row => ∃ l, o = Some l ∧ SubjectLink.account_id l = lr_account_id row
  end.
Proof.
  intros Hf. unfold find_by_subject in Hf. past_backend Hf. simpl in Hf.
  destruct (subject_links w !! _) as [row|]; [|injection Hf as <- <-; eauto].
  destruct (link_of_row row) as [l|] eqn:Hl; [|done]. injection Hf as <- <-. split; [eauto|].
  exists l. split; [done|]. apply result_bind_ok in Hl as (sub & _ & [= <-]). done.
Qed.

Lemma link_save_ok l w w' u :
  link_save l w = (w', Ok u) →
  let key := (issuer (SubjectLink.subject l), subject (SubjectLink.subject l)) in
  subject_links w !! key = None ∧
  ∃ row fs, w' = set_links (<[key := row]> (subject_links w)) (set_faults fs w) ∧
    lr_account_id row = SubjectLink.account_id l.
Proof.
  intros Hs. unfold link_save in Hs. past_backend Hs. cbv zeta in Hs. simpl in Hs.
  destruct (subject_links w !! _) eqn:Hl; [done|]. injection Hs as <- _. split; [done|].
  eexists _, _. done.
Qed.

(** The facts of a login that returned a session. *)
Record logged_in `{Ports} (policy : SessionPolicy) (cmd : LoginCommand) (now : Z)
    (corr sid tid : Uuid) (g : GeneratedRefresh) (w w' : World) (i : IssuedSession)
    (sub : IdpSubject) (a : Uuid) : Prop := {
  lg_identity : ∃ c, authenticate (grant cmd) = Ok c ∧
    idp_subject_new (nc_issuer c) (nc_subject c) = Ok sub;
  lg_link : ∃ row, subject_links w' !! (issuer sub, subject sub) = Some row ∧
    lr_account_id row = a ∧
    (is_first_link i = true ↔ subject_links w !! (issuer sub, subject sub) = None);
  lg_session : sessions w !! sid = None ∧
    ∃ row, sessions w' = <[sid := row]> (sessions w) ∧ sr_account_id row = a ∧
      sr_status row = "active" ∧ sr_generation row = generation_of w a ∧
      sr_expires_at row = now + session_ttl policy ∧
      sr_absolute_expiry row = now + absolute_ttl policy ∧ sr_version row = 0;
  lg_token : refresh_tokens w !! tid = None ∧
    ∃ row, refresh_tokens w' = <[tid := row]> (refresh_tokens w) ∧ tr_session_id row = sid ∧
      tr_status row = "active" ∧ tr_token_hash row = hash g;
  lg_events : outbox w' = outbox w ++
    (if is_first_link i then [SubjectLinked a sub now corr] else []) ++
    [SessionIssued sid a sub (generation_of w a) now (now + session_ttl policy)
       (now + absolute_ttl policy) now corr];
  lg_issued : is_session_id i = sid ∧ is_account_id i = a ∧ is_refresh_token i = plaintext g;
  lg_access : ∃ perms claims, gate_active a = Ok perms ∧
    mint_access claims = Ok (is_access_token i) ∧ claims_session_id claims = sid ∧
    claims_generation claims = generation_of w a ∧ claims_permissions claims = perms ∧
    claims_expires_at claims ≤ now + access_ttl policy;
}.

Section Login.
Context `{Ports} (policy : SessionPolicy).

Lemma resolve_account_ok sub w w' a needs :
  resolve_account sub w = (w', Ok (a, needs)) →
  (∃ fs, w' = set_faults fs w) ∧
  match subject_links w !! (issuer sub, subject sub) with
  | None => needs = true
  | Some row => needs = false ∧ a = lr_account_id row
  end.
Proof.
  intros Hr. unfold resolve_account in Hr. ok_step Hr as o Ho.
  apply find_by_subject_ok in Ho as ((fs & ->) & Ho).
  destruct (subject_links w !! _) as [row|].
  - destruct Ho as (l & -> & Hl). injection Hr as <- <- <-. eauto.
  - subst o. ok_step Hr as a' Ha. injection Hr as <- <- <-. eauto.
Qed.

(** The link a login establishes, if it has to. *)
Lemma establish_link_ok needs sub a now corr w w' b :
  establish_link needs sub a now corr w = (w', Ok b) →
  b = needs ∧ ∃ links fs, w' = set_links links (set_faults fs
      (set_outbox (outbox w ++ if needs then [SubjectLinked a sub now corr] else []) w)) ∧
  (if needs then subject_links w !! (issuer sub, subject sub) = None ∧
                 ∃ row, links !! (issuer sub, subject sub) = Some row ∧ lr_account_id row = a
   else links = subject_links w).
Proof.
  destruct needs; simpl; intros He.
  - ok_step He as [] Hl. apply link_save_ok in Hl as (Hn & row & fs & -> & Hrow). simpl in *.
    ok_step He as [] Hp. apply publish_all_ok in Hp as (fs' & ->). injection He as <- <-.
    split; [done|]. eexists _, fs'. split; [reflexivity|]. split; [done|].
    simpl. rewrite lookup_insert_eq. eauto.
  - injection He as <- <-. split; [done|]. exists (subject_links w), (faults w).
    rewrite app_nil_r. by destruct w.
Qed.

(** A successful login binds, issues and mints.  It resolved the subject the
    identity provider vouched for to the account linked to it, or established the
    link if there was none, added exactly one active session of the account's current
    generation with the configured windows and one active refresh token carrying only
    the hash, queued the link and session events in that order, and minted an access
    token for that session with the permissions of an account the directory reports
    active. *)
Theorem login_issues_session (cmd : LoginCommand) (now : Z) (corr sid tid : Uuid)
    (gen : result AuthError GeneratedRefresh) (w w' : World) (i : IssuedSession) :
  login policy cmd now corr sid tid gen w = (w', Ok i) →
  ∃ g sub a, gen = Ok g ∧ logged_in policy cmd now corr sid tid g w w' i sub a.
Proof.
  intros Hl. unfold login in Hl.
  ok_step Hl as [] _. ok_step Hl as c Hc. ok_step Hl as sub Hsub.
  ok_step Hl as [a needs] Hres. apply resolve_account_ok in Hres as ((fs & ->) & Hlink).
  ok_step Hl as perms Hperms. ok_step Hl as first Hfirst.
  apply establish_link_ok in Hfirst as (-> & links & fs1 & -> & Hest). simpl in Hest.
  ok_step Hl as gn Hgn. apply current_generation_ok in Hgn as (-> & fs2 & ->).
  change (generation_of _ _) with (generation_of w a) in Hl.
  ok_step Hl as s Hs. unfold Session.issue in Hs. simpl in Hs.
  destruct (_ <=? _) in Hs; [done|]. destruct (_ <? _) in Hs; [done|]. injection Hs as <-.
  ok_step Hl as [] Hsave. apply session_save_ok in Hsave as (row & fs3 & -> & _ & _ & Hrow).
  simpl in Hrow. destruct Hrow as [(_ & Hnone & ->)|(old & _ & _ & _ & Hv)]; [|done].
  ok_step Hl as [] Hpub. apply publish_all_ok in Hpub as (fs4 & ->).
  ok_step Hl as g Hg. ok_step Hl as t Ht. unfold RefreshToken.issue in Ht. simpl in Ht.
  destruct (_ <=? _) in Ht; [done|]. injection Ht as <-.
  ok_step Hl as [] Hsave. apply token_inserted in Hsave as (Hfresh & fs5 & ->); [|done].
  ok_step Hl as claims Hmint. apply mint_ok in Hmint. destruct_and!.
  ok_step Hl as tok Htok. injection Hl as <- <-.
  exists g, sub, a. split; [done|]. split; simpl.
  - eauto.
  - destruct needs.
    + destruct Hest as (Hn & lrow & Hlrow & Hacc). exists lrow. done.
    + subst links. destruct (subject_links w !! _) as [lrow|] eqn:Hlw; [|done].
      exists lrow. split_and!; [done|by destruct Hlink|done].
  - split; [done|]. eexists. split; [reflexivity|]. done.
  - split; [done|]. eexists. split; [reflexivity|]. done.
  - by rewrite <- app_assoc.
  - done.
  - eauto 10.
Qed.

(** Everything a store holds. *)
Definition same_stores (w w' : World) : Prop :=
  sessions w' = sessions w ∧ refresh_tokens w' = refresh_tokens w ∧
  subject_links w' = subject_links w ∧ outbox w' = outbox w ∧
  generations w' = generations w ∧ blacklist w' = blacklist w.

Lemma same_stores_refl w : same_stores w w.
Proof. done. Qed.
#[local] Hint Resolve same_stores_refl : core.

Lemma resolve_account_stores sub w0 : preserves (same_stores w0) (resolve_account sub).
Proof.
  unfold resolve_account. apply preserves_bind.
  - unfold find_by_subject. intros w Hw. rewrite act_bind_run, backend_run.
    destruct (next_fault w); [done|]. simpl. by destruct (subject_links w !! _).
  - intros [l|]; eauto with preserves.
Qed.

(** Nobody without an active account gets in or leaves a trace.  When the
    directory does not report an active account, a login fails and changes no
    session, token, link, event, generation or blacklist entry: in particular it
    establishes no subject link. *)
Theorem login_requires_active_account (cmd : LoginCommand) (now : Z) (corr sid tid : Uuid)
    (gen : result AuthError GeneratedRefresh) (w : World) :
  (∀ a snapshot, lookup_account a = Ok snapshot → activation snapshot ≠ AccountActive) →
  is_ok (login policy cmd now corr sid tid gen w).2 = false ∧
  same_stores w (login policy cmd now corr sid tid gen w).1.
Proof.
  intros Hinactive.
  assert (Hgate : ∀ a, ∃ e, gate_active a = Err e).
  { intros a. unfold gate_active. destruct (lookup_account a) as [sn|] eqn:Hl; simpl; [|eauto].
    specialize (Hinactive a sn Hl). destruct (activation sn); [done|eauto]. }
  destruct (login _ _ _ _ _ _ _ _) as [w' res] eqn:Hl. simpl. unfold login in Hl.
  rewrite act_bind_run in Hl. destruct (ensure_valid _) as [[]|]; [|by simplify_eq/=].
  simpl in Hl. rewrite act_bind_run in Hl. destruct (authenticate _) as [c|]; [|by simplify_eq/=].
  simpl in Hl. rewrite act_bind_run in Hl. destruct (idp_subject_new _ _) as [sub|]; [|by simplify_eq/=].
  simpl in Hl. rewrite act_bind_run in Hl. pose proof (resolve_account_stores sub w w) as Hsame.
  destruct (resolve_account sub w) as [w1 [[a needs]|e]];
    [|simplify_eq/=; by split; [|apply Hsame]].
  rewrite act_bind_run in Hl. destruct (Hgate a) as [e He]. rewrite He in Hl. simplify_eq/=.
  by split; [|apply Hsame].
Qed.

(** A refresh cannot succeed once the session's window has reached its end.
    When the sessions of the presented token already expire at (or after) the instant
    the refresh would slide them to, which is the case in the last [session_ttl] before
    the absolute cap, no refresh returns a pair, although the session is valid: the
    unchanged session keeps its version and its save is refused. *)
Theorem refresh_fails_at_cap (cmd : RefreshCommand) (now : Z) (corr tid : Uuid) (h : string)
    (gen : result AuthError GeneratedRefresh) (w : World) :
  reaches policy empty_world w →
  hash_refresh (refresh_token cmd) = Ok h →
  (∀ r sr, r ∈ rows_with_hash h (refresh_tokens w) → sessions w !! tr_session_id r = Some sr →
     Z.min (now + session_ttl policy) (sr_absolute_expiry sr) ≤ sr_expires_at sr) →
  is_ok (refresh policy cmd now corr tid gen w).2 = false.
Proof.
  intros Hreach Hh Hcap. pose proof (reaches_keyed _ _ _ Hreach keyed_empty) as Hk.
  destruct (refresh policy cmd now corr tid gen w) as [w' [i|e]] eqn:Hr; [|done]. exfalso.
  apply refresh_ok in Hr as (g & r & sr & _ & Hrf); [|done].
  destruct Hrf as [(h' & Hh' & Hin) _ (Hsr & _) _ _ _ _ (Hlt & _) _ _].
  rewrite Hh in Hh'. injection Hh' as <-. specialize (Hcap r sr Hin Hsr). lia.
Qed.
End Login.

(** ** Witnesses *)

Definition demo_claims : AccessTokenClaims := {|
  claims_account_id := 7%N; claims_session_id := 1%N; claims_generation := 0;
  claims_permissions := ["read"]; claims_issued_at := 0; claims_expires_at := 600 * NS |}.

Definition demo_ports : Ports := {|
  parse_uuid s := if decide (s = "s1") then Some 1%N
                  else if decide (s = "a7") then Some 7%N else None;
  print_uuid _ := "id";
  authenticate _ := Ok {| nc_issuer := "iss"; nc_subject := "sub" |};
  resolve_or_provision _ := Ok 7%N;
  lookup_account _ := Ok {| activation := AccountActive; permissions := ["read"] |};
  mint_access _ := Ok "edge";
  verify_access _ := Ok demo_claims;
  hash_refresh p := Ok ("h" +:+ p) |}.

Definition demo_login : LoginCommand := {| grant := Password "u" "p"; login_device := demo_device |}.
Definition demo_generated (p : string) : GeneratedRefresh := {| plaintext := p; hash := "h" +:+ p |}.
Definition demo_refresh (p : string) : RefreshCommand :=
  {| refresh_token := p; refresh_device := demo_device |}.

(** After one login, and after one refresh of it. *)
Definition login_run (policy : SessionPolicy) :=
  @login demo_ports policy demo_login 0 9%N 1%N 5%N (Ok (demo_generated "one")) empty_world.
Definition refresh_run (policy : SessionPolicy) (w : World) :=
  @refresh demo_ports policy (demo_refresh "one") (60 * NS) 9%N 6%N (Ok (demo_generated "two")) w.

Lemma login_run_reaches policy : reaches policy empty_world (login_run policy).1.
Proof. apply (@login_reaches demo_ports), star_refl. Qed.
Lemma refresh_run_reaches policy w : reaches policy empty_world w →
  reaches policy empty_world (refresh_run policy w).1.
Proof. intros Hw. by apply (@refresh_reaches demo_ports). Qed.

Lemma login_issues_session_witness :
  ∃ i g sub a, (login_run default_policy).2 = Ok i ∧
    @logged_in demo_ports default_policy demo_login 0 9%N 1%N 5%N g empty_world
      (login_run default_policy).1 i sub a.
Proof.
  destruct (login_run default_policy) as [w [i|e]] eqn:Hl; [|by vm_compute in Hl]. simpl.
  destruct (@login_issues_session demo_ports default_policy _ _ _ _ _ _ _ _ _ Hl)
    as (g & sub & a & _ & Hin). eauto 10.
Defined.


Lemma logout_is_final_witness :
  ∃ w1, @logout demo_ports default_policy "s1" (90 * NS) 9%N (login_run default_policy).1
          = (w1, Ok true) ∧
    ∃ r, sessions w1 !! 1%N = Some r ∧ sr_status r ≠ "active".
Proof.
  destruct (@logout demo_ports default_policy "s1" (90 * NS) 9%N (login_run default_policy).1)
    as [w1 [b|e]] eqn:Hl; [|by vm_compute in Hl].
  assert (b = true) as -> by (vm_compute in Hl; congruence). exists w1. split; [done|].
  apply (@logout_is_final demo_ports default_policy "s1" 1%N (90 * NS) 600 9%N
    (login_run default_policy).1 w1 w1 true); [apply login_run_reaches|reflexivity|done|
    reflexivity| |exact Hl|apply star_refl].
  eexists. split; vm_compute; reflexivity.
Defined.

Lemma global_signout_is_final_witness :
  ∃ w1, @logout_all demo_ports default_policy "a7" (90 * NS) 9%N (login_run default_policy).1
          = (w1, Ok (1, 1)) ∧
    ∃ r, sessions w1 !! 1%N = Some r ∧ sr_status r ≠ "active".
Proof.
  destruct (@logout_all demo_ports default_policy "a7" (90 * NS) 9%N (login_run default_policy).1)
    as [w1 [b|e]] eqn:Hl; [|by vm_compute in Hl].
  assert (b = (1, 1)) as -> by (vm_compute in Hl; congruence). exists w1. split; [done|].
  destruct (@global_signout_is_final demo_ports default_policy "a7" 7%N (90 * NS) 1 1 9%N
    (login_run default_policy).1 w1 w1) as (_ & _ & Hall & _);
    [apply login_run_reaches|reflexivity|exact Hl|apply star_refl|].
  eapply Hall; vm_compute; reflexivity.
Defined.

(** A rotated token is presented again. *)
Definition replay_world : World := (refresh_run default_policy (login_run default_policy).1).1.

Lemma reuse_kills_generation_witness :
  ∃ w', @refresh demo_ports default_policy (demo_refresh "one") (90 * NS) 9%N 8%N
      (Ok (demo_generated "three")) replay_world = (w', Err RefreshTokenReuseDetected) ∧
    generation_of w' 7%N = 1.
Proof.
  assert (Hfacts : ∃ r l t sr s,
    rows_with_hash "hone" (refresh_tokens replay_world) = r :: l ∧ token_of_row r = Ok t ∧
    tr_status r = "rotated" ∧ tr_account_id r = 7%N ∧
    sessions replay_world !! tr_session_id r = Some sr ∧ session_of_row sr = Ok s ∧
    Session.status s = Active ∧ Session.version s = 1)
    by (do 5 eexists; split_and!; vm_compute; reflexivity).
  assert (Hquiet : faults replay_world = []) by (vm_compute; reflexivity).
  assert (Hgen : generation_of replay_world 7%N = 0) by (vm_compute; reflexivity).
  pose proof (refresh_run_reaches default_policy _ (login_run_reaches default_policy)) as Hreach.
  fold replay_world in Hreach.
  destruct Hfacts as (r & l & t & sr & s & Hrows & Ht & Hst & Ha & Hsr & Hs & Hact & Hv).
  generalize dependent replay_world. intros w Hrows Hsr Hquiet Hgen Hreach.
  destruct (@reuse_kills_generation demo_ports default_policy (demo_refresh "one") (90 * NS) 9%N 8%N
    (demo_generated "three") "hone" w r l t sr s) as (w' & Href & Hg & _);
    [done|done|reflexivity|reflexivity|done|done|done|rewrite Ha, Hgen; by vm_compute|done|done|done|
     rewrite Hv; split; by vm_compute|].
  exists w'. split; [exact Href|]. rewrite Ha, Hgen in Hg. exact Hg.
Defined.

(** An account directory that reports every account suspended. *)
Definition suspended_ports : Ports := {|
  parse_uuid := @parse_uuid demo_ports; print_uuid := @print_uuid demo_ports;
  authenticate := @authenticate demo_ports;
  resolve_or_provision := @resolve_or_provision demo_ports;
  lookup_account _ := Ok {| activation := AccountInactive "suspended"; permissions := [] |};
  mint_access := @mint_access demo_ports; verify_access := @verify_access demo_ports;
  hash_refresh := @hash_refresh demo_ports |}.

Lemma login_requires_active_account_witness :
  (@login suspended_ports default_policy demo_login 0 9%N 1%N 5%N (Ok (demo_generated "one"))
     empty_world).2 = Err (AccountNotActive "suspended") ∧
  same_stores empty_world (@login suspended_ports default_policy demo_login 0 9%N 1%N 5%N
     (Ok (demo_generated "one")) empty_world).1.
Proof.
  split; [reflexivity|]. apply (@login_requires_active_account suspended_ports default_policy).
  intros a sn [= <-]. done.
Defined.

(** A session issued with its window at the cap: its first refresh fails, the token
    is rotated all the same, and the client's retry is taken for a replay. *)
Definition cap_policy : SessionPolicy := {|
  access_ttl := 600 * NS; session_ttl := 1800 * NS; absolute_ttl := 1800 * NS;
  refresh_ttl := 604800 * NS |}.

Lemma refresh_fails_at_cap_witness :
  is_ok (refresh_run cap_policy (login_run cap_policy).1).2 = false ∧
  (tr_status <$> refresh_tokens (refresh_run cap_policy (login_run cap_policy).1).1 !! 5%N)
    = Some "rotated" ∧
  (refresh_run cap_policy (refresh_run cap_policy (login_run cap_policy).1).1).2
    = Err RefreshTokenReuseDetected.
Proof.
  split; [|split; vm_compute; reflexivity].
  apply (@refresh_fails_at_cap demo_ports cap_policy (demo_refresh "one") (60 * NS) 9%N 6%N "hone").
  - apply login_run_reaches.
  - reflexivity.
  - intros r sr Hin Hsr.
    assert (Hr : r = row_of_token (RefreshToken.reconstitute 5%N 1%N 7%N "hone" TokenActive 0
      (604800 * NS) None None 0) 0).
    { vm_compute in Hin. apply list_elem_of_singleton in Hin. rewrite Hin. by vm_compute. }
    subst r. vm_compute in Hsr. simplify_eq. vm_compute. done.
Defined.
