(* ===== verification/AuditChain.v ===== *)
(** * Audit: canonical bytes, hash chain, records, checkpoints, retention

    Models [crates/services/audit/src/domain].  Bytes are [list ascii]; a hash is
    the hex string of a SHA-256 digest, SHA-256 itself (the sha2 crate) being the
    class [Sha256].  A [BTreeMap] is its association list in key order.  Instants
    are nanoseconds. *)

From S2P Require Import Prelude.
Local Open Scope Z_scope.

Abbreviation Bytes := (list ascii).

(** But for [Validation], which no code of the crate constructs. *)
Inductive AuditError :=
  | MalformedAuditEvent (reason : string)
  | MissingLawfulBasis
  | UnknownEventCategory (category : string)
  | DuplicateEvent (event_id : string)
  | ChainHashMismatch (sequence : Z)
  | SequenceGap (partition : string)
  | ChainHeadConflict (partition : string)
  | CheckpointVerificationFailed
  | AnchorWitnessUnavailable
  | QueryForbidden
  | ExportForbidden
  | SubjectScopeViolation
  | CallerUnauthenticated
  | RecordForbidden
  | LedgerStoreUnavailable
  | ArchiveUnavailable
  | KeyVaultUnavailable
  | DurabilityNotConfirmed
  | SubjectKeyNotFound (subject : string)
  | ShredBlockedByLegalHold (subject : string)
  | CryptoShredFailed (subject : string)
  | PiiEnvelopeUndecryptable
  | RetentionFloorViolation
  | LegalHoldActive
  | RetentionPolicyNotFound (category : string)
  | EventDecodeFailed (topic reason : string)
  | UnrecordableEvent (reason : string)
  | EventConsumeFailed (reason : string)
  | DomainViolation (field message : string)
  | InvalidIdentifier (what : string).

Definition audit_http_status (e : AuditError) : Z :=
  match e with
  | MalformedAuditEvent _ => 400
  | QueryForbidden | ExportForbidden | SubjectScopeViolation | RecordForbidden => 403
  | CallerUnauthenticated => 401
  | DuplicateEvent _ | ChainHeadConflict _ | ShredBlockedByLegalHold _ | LegalHoldActive => 409
  | LedgerStoreUnavailable | ArchiveUnavailable | KeyVaultUnavailable
  | AnchorWitnessUnavailable => 503
  | DurabilityNotConfirmed => 504
  | SubjectKeyNotFound _ => 404
  | PiiEnvelopeUndecryptable => 410
  | ChainHashMismatch _ | SequenceGap _ | CheckpointVerificationFailed | CryptoShredFailed _
  | EventConsumeFailed _ => 500
  | _ => 422
  end.

Definition audit_is_retryable (e : AuditError) : bool :=
  match e with
  | LedgerStoreUnavailable | ArchiveUnavailable | KeyVaultUnavailable
  | AnchorWitnessUnavailable | DurabilityNotConfirmed | ChainHeadConflict _
  | CryptoShredFailed _ | EventConsumeFailed _ => true
  | _ => false
  end.

(** ** Hashes and the canonical writer *)

Class Sha256 := sha256 : Bytes → Bytes.

Definition hex_digit (n : nat) : ascii :=
  ascii_of_nat (if Nat.ltb n 10 then 48 + n else 87 + n).

(** [to_hex]: two lower-case digits per byte. *)
Fixpoint to_hex (bs : Bytes) : string :=
  match bs with
  | [] => ""
  | b :: bs =>
      String (hex_digit (nat_of_ascii b / 16))
        (String (hex_digit (nat_of_ascii b mod 16)) (to_hex bs))
  end.

(** [RecordHash] as its hex string. *)
Definition genesis_hash : string :=
  "0000000000000000000000000000000000000000000000000000000000000000".
Definition digest `{Sha256} (bs : Bytes) : string := to_hex (sha256 bs).

(** The [i]th byte, little end first. *)
Definition byte_at (v : Z) (i : nat) : ascii :=
  ascii_of_N (Z.to_N (Z.shiftr v (8 * Z.of_nat i) mod 256)).

(** [u64::to_le_bytes]; [i64::to_le_bytes] is that of its two's complement. *)
Definition le_bytes (v : Z) : Bytes := byte_at v <$> seq 0 8.
Definition i64_le_bytes (v : Z) : Bytes := le_bytes (v mod 2 ^ 64).

(** [CanonicalWriter]: the buffer after each append. *)
Definition put_bytes (v w : Bytes) : Bytes := w ++ le_bytes (Z.of_nat (length v)) ++ v.
Definition put_str (s : string) (w : Bytes) : Bytes := put_bytes (String.list_ascii_of_string s) w.
Definition put_u8 (v : Z) (w : Bytes) : Bytes := w ++ [ascii_of_N (Z.to_N v)].
Definition put_u64 (v : Z) (w : Bytes) : Bytes := w ++ le_bytes v.
Definition put_i64 (v : Z) (w : Bytes) : Bytes := w ++ i64_le_bytes v.

(** ** Classification *)

Inductive EventCategory :=
  | Authentication | Authorization | Moderation | Consent | DataAccess | DataExport
  | DataErasure | PrivilegedAction | Retention | Identity.

Definition requires_lawful_basis (c : EventCategory) : bool :=
  match c with
  | Moderation | Consent | DataAccess | DataExport | DataErasure => true
  | _ => false
  end.

Definition category_tag (c : EventCategory) : Z :=
  match c with
  | Authentication => 1 | Authorization => 2 | Moderation => 3 | Consent => 4
  | DataAccess => 5 | DataExport => 6 | DataErasure => 7 | PrivilegedAction => 8
  | Retention => 9 | Identity => 10
  end.

Inductive ActorType := UserActor | AdminActor | ServiceActor | SystemActor.
Definition actor_tag (a : ActorType) : Z :=
  match a with UserActor => 1 | AdminActor => 2 | ServiceActor => 3 | SystemActor => 4 end.

Inductive EventOutcome := Permitted | Denied | Executed | Failed.
Definition outcome_tag (o : EventOutcome) : Z :=
  match o with Permitted => 1 | Denied => 2 | Executed => 3 | Failed => 4 end.

Inductive LawfulBasis :=
  | Unspecified | BasisConsent | Contract | LegalObligation | VitalInterests | PublicTask
  | LegitimateInterests.

Definition basis_is_specified (b : LawfulBasis) : bool :=
  match b with Unspecified => false | _ => true end.

Definition basis_tag (b : LawfulBasis) : Z :=
  match b with
  | Unspecified => 0 | BasisConsent => 1 | Contract => 2 | LegalObligation => 3
  | VitalInterests => 4 | PublicTask => 5 | LegitimateInterests => 6
  end.

(** [string_id!]: a non-blank opaque identifier. *)
Definition string_id (field value : string) : result AuditError string :=
  if trim_is_empty value then Err (InvalidIdentifier field) else Ok value.

Definition category_digits (c : EventCategory) : string :=
  match c with
  | Authentication => "1" | Authorization => "2" | Moderation => "3" | Consent => "4"
  | DataAccess => "5" | DataExport => "6" | DataErasure => "7" | PrivilegedAction => "8"
  | Retention => "9" | Identity => "10"
  end.

(** [PartitionKey::derive] *)
Definition derive_partition (tenant : option string) (c : EventCategory) : string :=
  default "_global" tenant +:+ ":" +:+ category_digits c.

(** ** Events *)

Record PiiEnvelope := {
  subject_key_ref : string;
  ciphertext : Bytes;
  nonce : Bytes;
  algorithm : string;
}.

Definition pii_write_canonical (p : PiiEnvelope) (w : Bytes) : Bytes :=
  put_str (algorithm p) (put_bytes (nonce p) (put_bytes (ciphertext p)
    (put_str (subject_key_ref p) w))).

Record Actor := {
  actor_type : ActorType;
  actor_pseudonym : string;
  session_ref : string;
}.

Definition actor_write_canonical (a : Actor) (w : Bytes) : Bytes :=
  put_str (session_ref a) (put_str (actor_pseudonym a) (put_u8 (actor_tag (actor_type a)) w)).

Record ResourceRef := {
  resource_type : string;
  resource_id : string;
}.

Definition resource_write_canonical (r : ResourceRef) (w : Bytes) : Bytes :=
  put_str (resource_id r) (put_str (resource_type r) w).

(** [NewAuditEvent] and, once validated, [AuditEvent]: the same fields. *)
Record AuditEvent := {
  event_id : string;
  category : EventCategory;
  subject : option string;
  tenant : option string;
  actor : Actor;
  action : string;
  resource : ResourceRef;
  outcome : EventOutcome;
  lawful_basis : LawfulBasis;
  source_service : string;
  correlation_id : string;
  occurred_at : Z;
  pii : option PiiEnvelope;
  attributes : list (string * string);
}.

Definition try_new (input : AuditEvent) : result AuditError AuditEvent :=
  if requires_lawful_basis (category input) && negb (basis_is_specified (lawful_basis input))
  then Err MissingLawfulBasis
  else if trim_is_empty (action input)
  then Err (DomainViolation "action" "an audit event must name the action performed")
  else Ok input.

Definition has_pii (e : AuditEvent) : bool := bool_decide (is_Some (pii e)).

Definition timestamp_millis (t : Z) : Z := t / 1000000.

Definition put_option (o : option string) (w : Bytes) : Bytes :=
  match o with Some s => put_str s (put_u8 1 w) | None => put_u8 0 w end.

Definition canonical_bytes (e : AuditEvent) : Bytes :=
  let w := put_u8 (category_tag (category e)) (put_str (event_id e) []) in
  let w := put_option (subject e) w in
  let w := put_option (tenant e) w in
  let w := actor_write_canonical (actor e) w in
  let w := put_str (action e) w in
  let w := resource_write_canonical (resource e) w in
  let w := put_u8 (basis_tag (lawful_basis e)) (put_u8 (outcome_tag (outcome e)) w) in
  let w := put_str (correlation_id e) (put_str (source_service e) w) in
  let w := put_i64 (timestamp_millis (occurred_at e)) w in
  let w := match pii e with
           | Some p => pii_write_canonical p (put_u8 1 w)
           | None => put_u8 0 w
           end in
  let w := put_u64 (Z.of_nat (length (attributes e))) w in
  foldl (λ w kv, put_str kv.2 (put_str kv.1 w)) w (attributes e).

Definition content_hash `{Sha256} (e : AuditEvent) : string := digest (canonical_bytes e).

(** ** The chain *)

Record ChainHead := {
  head_sequence : Z;
  head_hash : string;
}.

Record ChainLink := {
  link_sequence : Z;
  prev_hash : string;
  record_hash : string;
}.

Definition genesis : ChainHead := {| head_sequence := 0; head_hash := genesis_hash |}.

Definition link_bytes (prev : string) (payload : Bytes) (sequence : Z) : Bytes :=
  put_u64 sequence (put_bytes payload (put_str prev [])).

Definition link_hash `{Sha256} (prev : string) (payload : Bytes) (sequence : Z) : string :=
  digest (link_bytes prev payload sequence).

Definition link_next `{Sha256} (h : ChainHead) (payload : Bytes) : ChainLink :=
  let sequence := u64_add (head_sequence h) 1 in
  {| link_sequence := sequence;
     prev_hash := head_hash h;
     record_hash := link_hash (head_hash h) payload sequence |}.

Definition head_apply (l : ChainLink) : ChainHead :=
  {| head_sequence := link_sequence l; head_hash := record_hash l |}.

Definition verify_link `{Sha256} (partition : string) (prev : ChainHead) (payload : Bytes)
    (l : ChainLink) : result AuditError ChainHead :=
  if negb (link_sequence l =? u64_add (head_sequence prev) 1) then Err (SequenceGap partition)
  else if negb (bool_decide (prev_hash l = head_hash prev))
  then Err (ChainHashMismatch (link_sequence l))
  else if negb (bool_decide (link_hash (prev_hash l) payload (link_sequence l) = record_hash l))
  then Err (ChainHashMismatch (link_sequence l))
  else Ok (head_apply l).

(** ** Records *)

Record AuditRecord := {
  event : AuditEvent;
  partition : string;
  link : ChainLink;
  recorded_at : Z;
  pii_erased : bool;
}.

Definition append `{Sha256} (e : AuditEvent) (p : string) (h : ChainHead) (recorded_at : Z) :
    AuditRecord * ChainHead :=
  let l := link_next h (canonical_bytes e) in
  ({| event := e; partition := p; link := l; recorded_at := recorded_at; pii_erased := false |},
   head_apply l).

Definition verify `{Sha256} (r : AuditRecord) (prev : ChainHead) : result AuditError ChainHead :=
  verify_link (partition r) prev (canonical_bytes (event r)) (link r).

Definition mark_pii_erased (r : AuditRecord) : AuditRecord * bool :=
  if has_pii (event r)
  then ({| event := event r; partition := partition r; link := link r;
           recorded_at := recorded_at r; pii_erased := true |}, true)
  else (r, false).

Definition read_pii (r : AuditRecord) : result AuditError PiiEnvelope :=
  if pii_erased r then Err PiiEnvelopeUndecryptable
  else ok_or (pii (event r)) PiiEnvelopeUndecryptable.

(** ** Checkpoints *)

Record MerkleCheckpoint := {
  root : string;
  head_count : Z;
  created_at : Z;
}.

Fixpoint insert_head (x : string * string) (l : list (string * string)) :=
  match l with
  | [] => [x]
  | y :: l' => if String.leb x.1 y.1 then x :: l else y :: insert_head x l'
  end.

(** [sort_by] on the partition key, stable. *)
Definition sort_heads (heads : list (string * string)) : list (string * string) :=
  foldr insert_head [] heads.

Definition root_bytes (heads : list (string * string)) : Bytes :=
  foldl (λ w ph, put_str ph.2 (put_str ph.1 w))
    (put_u64 (Z.of_nat (length heads)) []) (sort_heads heads).

Definition compute_root `{Sha256} (heads : list (string * string)) : string :=
  digest (root_bytes heads).

Definition checkpoint_over `{Sha256} (heads : list (string * string)) (created_at : Z) :
    MerkleCheckpoint :=
  {| root := compute_root heads; head_count := Z.of_nat (length heads); created_at := created_at |}.

Definition verify_against `{Sha256} (c : MerkleCheckpoint) (heads : list (string * string)) :
    result AuditError unit :=
  if negb (bool_decide (compute_root heads = root c))
     || negb (Z.of_nat (length heads) =? head_count c)
  then Err CheckpointVerificationFailed
  else Ok tt.

(** ** Retention and legal holds *)

Record RetentionPolicy := {
  policy_category : EventCategory;
  retention : Z;
}.

Definition floor (p : RetentionPolicy) (recorded_at : Z) : Z := recorded_at + retention p.
Definition is_past_floor (p : RetentionPolicy) (recorded_at now : Z) : bool :=
  floor p recorded_at <=? now.

Record LegalHold := {
  hold_id : string;
  hold_subject : string;
  placed_at : Z;
  released_at : option Z;
}.

Definition placed (id subject : string) (at_ : Z) : LegalHold :=
  {| hold_id := id; hold_subject := subject; placed_at := at_; released_at := None |}.

Definition is_active (h : LegalHold) (now : Z) : bool :=
  (placed_at h <=? now) &&
  match released_at h with None => true | Some released => now <? released end.

Definition covers (h : LegalHold) (subject : string) (now : Z) : bool :=
  is_active h now && bool_decide (hold_subject h = subject).

Definition authorize_erasure (subject : string) (holds : list LegalHold) (now : Z) :
    result AuditError unit :=
  if existsb (λ h, covers h subject now) holds then Err (ShredBlockedByLegalHold subject)
  else Ok tt.

Definition authorize_expiry (subject : option string) (recorded_at : Z) (p : RetentionPolicy)
    (holds : list LegalHold) (now : Z) : result AuditError unit :=
  if match subject with Some s => existsb (λ h, covers h s now) holds | None => false end
  then Err LegalHoldActive
  else if negb (is_past_floor p recorded_at now) then Err RetentionFloorViolation
  else Ok tt.
