(* ===== verification/AuditProofs.v ===== *)
(** * Audit: the encoding is unambiguous and a chain head pins its history

    Every encoder of the canonical writer is a prefix code ([PrefixInj]), so the
    canonical bytes of an event determine it; with that, two chains that verify from
    genesis to the same head carry the same events, unless the bytes hashed for two of
    their records collide under SHA-256.  Also erasure and legal holds. *)

From S2P Require Import Prelude AuditChain.
Local Open Scope Z_scope.

(** ** Prefix codes *)

(** [enc] can be read back from the front of any buffer, on the values in [P]. *)
Class PrefixInj {A} (P : A → Prop) (enc : A → Bytes) : Prop :=
  prefix_inj : ∀ a b x y, P a → P b → enc a ++ x = enc b ++ y → a = b ∧ x = y.

Lemma app_inj_len {A} (a b x y : list A) :
  length a = length b → a ++ x = b ++ y → a = b ∧ x = y.
Proof. intros Hl He. by apply app_inj_1. Qed.

Lemma byte_at_eq a b i :
  byte_at a i = byte_at b i →
  Z.shiftr a (8 * Z.of_nat i) mod 256 = Z.shiftr b (8 * Z.of_nat i) mod 256.
Proof.
  unfold byte_at. intros He. apply (f_equal N_of_ascii) in He.
  pose proof (Z.mod_pos_bound (Z.shiftr a (8 * Z.of_nat i)) 256 ltac:(lia)).
  pose proof (Z.mod_pos_bound (Z.shiftr b (8 * Z.of_nat i)) 256 ltac:(lia)).
  rewrite !N_ascii_embedding in He by lia. lia.
Qed.

Lemma le_bytes_length v : length (le_bytes v) = 8%nat.
Proof. unfold le_bytes. by rewrite length_fmap, length_seq. Qed.

Lemma le_bytes_inj a b :
  0 ≤ a < 2 ^ 64 → 0 ≤ b < 2 ^ 64 → le_bytes a = le_bytes b → a = b.
Proof.
  intros Ha Hb He.
  assert (Hbytes : ∀ i, (i < 8)%nat → byte_at a i = byte_at b i).
  { intros i Hi. assert (Hl : le_bytes a !! i = le_bytes b !! i) by congruence.
    unfold le_bytes in Hl. rewrite !list_lookup_fmap, lookup_seq_lt in Hl by done.
    simpl in Hl. congruence. }
  rewrite <- (Z.mod_small a (2 ^ 64)), <- (Z.mod_small b (2 ^ 64)) by lia.
  apply Z.bits_inj'. intros n Hn. rewrite !Z.testbit_mod_pow2 by lia.
  destruct (Z.ltb_spec n 64) as [Hlt|]; [|done]. simpl.
  set (i := Z.to_nat (n / 8)).
  assert (Hi : (i < 8)%nat) by (unfold i; pose proof (Z.div_lt_upper_bound n 8 8); lia).
  assert (Hdm : n = 8 * Z.of_nat i + n mod 8).
  { unfold i. rewrite Z2Nat.id by (apply Z.div_pos; lia). apply Z.div_mod. lia. }
  pose proof (Z.mod_pos_bound n 8 ltac:(lia)) as Hm.
  assert (Hbit : ∀ v, Z.testbit v n = Z.testbit (Z.shiftr v (8 * Z.of_nat i) mod 256) (n mod 8)).
  { intros v. change 256 with (2 ^ 8). rewrite Z.testbit_mod_pow2 by lia.
    rewrite (proj2 (Z.ltb_lt _ _)) by lia. rewrite Z.shiftr_spec by lia. simpl. f_equal. lia. }
  rewrite (Hbit a), (Hbit b). by rewrite (byte_at_eq a b i (Hbytes i Hi)).
Qed.

Definition u64_ok (v : Z) : Prop := 0 ≤ v < 2 ^ 64.
Definition i64_ok (v : Z) : Prop := - 2 ^ 63 ≤ v < 2 ^ 63.
Definition bytes_ok (v : Bytes) : Prop := Z.of_nat (length v) < 2 ^ 64.
Definition str_ok (s : string) : Prop := bytes_ok (String.list_ascii_of_string s).
Definition opt_ok (o : option string) : Prop := ∀ s, o = Some s → str_ok s.

Definition enc_bytes (v : Bytes) : Bytes := le_bytes (Z.of_nat (length v)) ++ v.
Definition enc_str (s : string) : Bytes := enc_bytes (String.list_ascii_of_string s).
Definition enc_option (o : option string) : Bytes :=
  match o with Some s => ascii_of_N 1 :: enc_str s | None => [ascii_of_N 0] end.
Definition enc_pair (kv : string * string) : Bytes := enc_str kv.1 ++ enc_str kv.2.

#[export] Instance le_bytes_prefix : PrefixInj u64_ok le_bytes.
Proof.
  intros a b x y Ha Hb He. apply app_inj_len in He as [He ->]; [|by rewrite !le_bytes_length].
  split; [by apply le_bytes_inj|done].
Qed.

#[export] Instance i64_le_bytes_prefix : PrefixInj i64_ok i64_le_bytes.
Proof.
  unfold i64_ok. intros a b x y Ha Hb He.
  apply (le_bytes_prefix (a mod 2 ^ 64) (b mod 2 ^ 64)) in He as [He ->];
    [|apply Z.mod_pos_bound; lia..].
  split; [|done]. pose proof (Z.div_mod a (2 ^ 64) ltac:(lia)).
  pose proof (Z.div_mod b (2 ^ 64) ltac:(lia)). lia.
Qed.

#[export] Instance enc_bytes_prefix : PrefixInj bytes_ok enc_bytes.
Proof.
  unfold bytes_ok. intros a b x y Ha Hb He. unfold enc_bytes in He. rewrite <- !app_assoc in He.
  apply (le_bytes_prefix _ _ _ _) in He as [He1 He2]; [|unfold u64_ok; lia..].
  apply app_inj_len in He2 as [-> ->]; [done|lia].
Qed.

#[export] Instance enc_str_prefix : PrefixInj str_ok enc_str.
Proof.
  intros a b x y Ha Hb He. apply enc_bytes_prefix in He as [He ->]; [|done..].
  split; [|done]. apply (f_equal String.string_of_list_ascii) in He.
  by rewrite !String.string_of_list_ascii_of_string in He.
Qed.

#[export] Instance enc_option_prefix : PrefixInj opt_ok enc_option.
Proof.
  intros [a|] [b|] x y Ha Hb He; unfold enc_option in He; cbn [app] in He; try done.
  2: { by apply (f_equal (drop 1)) in He. }
  apply (f_equal (drop 1)) in He. cbn [drop] in He. apply enc_str_prefix in He as [-> ->]; [done|by apply Ha|by apply Hb].
Qed.

#[export] Instance enc_pair_prefix : PrefixInj (λ kv, str_ok kv.1 ∧ str_ok kv.2) enc_pair.
Proof.
  intros [k v] [k' v'] x y [Ha1 Ha2] [Hb1 Hb2] He. unfold enc_pair in He. simpl in *.
  rewrite <- !app_assoc in He. apply enc_str_prefix in He as [-> He]; [|done..].
  apply enc_str_prefix in He as [-> ->]; done.
Qed.

(** Lists of the same length, item by item. *)
Lemma concat_prefix {A} (P : A → Prop) (enc : A → Bytes) `{PrefixInj A P enc} l k x y :
  Forall P l → Forall P k → length l = length k →
  concat (enc <$> l) ++ x = concat (enc <$> k) ++ y → l = k ∧ x = y.
Proof.
  intros Hl. revert k. induction Hl as [|a l Ha Hl IH]; intros k Hk Hlen He.
  - by destruct k.
  - destruct Hk as [|b k Hb Hk]; [done|]. simpl in *. rewrite <- !app_assoc in He.
    apply prefix_inj in He as [-> He]; [|done..].
    apply IH in He as [-> ->]; [done|done|lia].
Qed.

Lemma foldl_put_pairs l w :
  foldl (λ w kv, put_str kv.2 (put_str kv.1 w)) w l = w ++ concat (enc_pair <$> l).
Proof.
  revert w. induction l as [|kv l IH]; intros w; simpl; [by rewrite app_nil_r|].
  rewrite IH. unfold put_str, put_bytes, enc_pair, enc_str, enc_bytes. by rewrite <- !app_assoc.
Qed.

(** ** Canonical bytes of an event *)

Definition enc_u8 (v : Z) : Bytes := [ascii_of_N (Z.to_N v)].

#[export] Instance category_prefix : PrefixInj (λ _, True) (λ c, enc_u8 (category_tag c)).
Proof. intros [] [] x y _ _ He; try discriminate He; apply (f_equal (drop 1)) in He; by split. Qed.
#[export] Instance actor_prefix : PrefixInj (λ _, True) (λ c, enc_u8 (actor_tag c)).
Proof. intros [] [] x y _ _ He; try discriminate He; apply (f_equal (drop 1)) in He; by split. Qed.
#[export] Instance outcome_prefix : PrefixInj (λ _, True) (λ c, enc_u8 (outcome_tag c)).
Proof. intros [] [] x y _ _ He; try discriminate He; apply (f_equal (drop 1)) in He; by split. Qed.
#[export] Instance basis_prefix : PrefixInj (λ _, True) (λ c, enc_u8 (basis_tag c)).
Proof. intros [] [] x y _ _ He; try discriminate He; apply (f_equal (drop 1)) in He; by split. Qed.

Definition enc_pii (o : option PiiEnvelope) : Bytes :=
  match o with
  | Some p => ascii_of_N 1 :: enc_str (subject_key_ref p) ++ enc_bytes (ciphertext p) ++
                enc_bytes (nonce p) ++ enc_str (algorithm p)
  | None => [ascii_of_N 0]
  end.

Definition pii_ok (o : option PiiEnvelope) : Prop :=
  ∀ p, o = Some p → str_ok (subject_key_ref p) ∧ bytes_ok (ciphertext p) ∧ bytes_ok (nonce p) ∧
    str_ok (algorithm p).

#[export] Instance enc_pii_prefix : PrefixInj pii_ok enc_pii.
Proof.
  intros [a|] [b|] x y Ha Hb He; unfold enc_pii in He; cbn [app] in He; try done;
    apply (f_equal (drop 1)) in He; cbn [drop] in He; [|done].
  destruct (Ha a eq_refl) as (? & ? & ? & ?). destruct (Hb b eq_refl) as (? & ? & ? & ?).
  rewrite <- !app_assoc in He. apply enc_str_prefix in He as [? He]; [|done..].
  apply enc_bytes_prefix in He as [? He]; [|done..]. apply enc_bytes_prefix in He as [? He]; [|done..].
  apply enc_str_prefix in He as [? ->]; [|done..]. split; [|done]. destruct a, b; simpl in *; congruence.
Qed.

Definition encode (e : AuditEvent) : Bytes :=
  enc_str (event_id e) ++ enc_u8 (category_tag (category e)) ++
  enc_option (subject e) ++ enc_option (tenant e) ++
  enc_u8 (actor_tag (actor_type (actor e))) ++ enc_str (actor_pseudonym (actor e)) ++
  enc_str (session_ref (actor e)) ++ enc_str (action e) ++
  enc_str (resource_type (resource e)) ++ enc_str (resource_id (resource e)) ++
  enc_u8 (outcome_tag (outcome e)) ++ enc_u8 (basis_tag (lawful_basis e)) ++
  enc_str (source_service e) ++ enc_str (correlation_id e) ++
  i64_le_bytes (timestamp_millis (occurred_at e)) ++ enc_pii (pii e) ++
  le_bytes (Z.of_nat (length (attributes e))) ++ concat (enc_pair <$> attributes e) ++ [].

Lemma put_option_enc o w : put_option o w = w ++ enc_option o.
Proof.
  destruct o; simpl; [|done].
  unfold put_str, put_bytes, put_u8, enc_str, enc_bytes. by rewrite <- !app_assoc.
Qed.

Lemma put_pii_enc o w :
  match o with Some p => pii_write_canonical p (put_u8 1 w) | None => put_u8 0 w end = w ++ enc_pii o.
Proof.
  destruct o; simpl; [|done].
  unfold pii_write_canonical, put_str, put_bytes, put_u8, enc_str, enc_bytes. by rewrite <- !app_assoc.
Qed.

Lemma canonical_bytes_encode e : canonical_bytes e = encode e.
Proof.
  unfold canonical_bytes, encode. cbv zeta.
  rewrite foldl_put_pairs, put_pii_enc, !put_option_enc, app_nil_r.
  unfold actor_write_canonical, resource_write_canonical, put_u64, put_i64, put_str, put_bytes, put_u8,
    enc_str, enc_bytes, enc_u8. rewrite <- !app_assoc. reflexivity.
Qed.

(** Field lengths below 2^64 and a millisecond instant in [i64]: what memory and
    [DateTime] allow. *)
Record event_ok (e : AuditEvent) : Prop := {
  ok_id : str_ok (event_id e);
  ok_subject : opt_ok (subject e);
  ok_tenant : opt_ok (tenant e);
  ok_actor : str_ok (actor_pseudonym (actor e)) ∧ str_ok (session_ref (actor e));
  ok_action : str_ok (action e);
  ok_resource : str_ok (resource_type (resource e)) ∧ str_ok (resource_id (resource e));
  ok_source : str_ok (source_service e) ∧ str_ok (correlation_id e);
  ok_time : i64_ok (timestamp_millis (occurred_at e));
  ok_pii : pii_ok (pii e);
  ok_attributes : Forall (λ kv, str_ok kv.1 ∧ str_ok kv.2) (attributes e);
  ok_count : Z.of_nat (length (attributes e)) < 2 ^ 64;
  ok_size : bytes_ok (canonical_bytes e);
}.

(** The event with its instant at the millisecond the ledger keeps. *)
Definition at_millis (e : AuditEvent) : AuditEvent := {|
  event_id := event_id e; category := category e; subject := subject e; tenant := tenant e;
  actor := actor e; action := action e; resource := resource e; outcome := outcome e;
  lawful_basis := lawful_basis e; source_service := source_service e;
  correlation_id := correlation_id e; occurred_at := timestamp_millis (occurred_at e);
  pii := pii e; attributes := attributes e |}.

Lemma canonical_bytes_inj e1 e2 :
  event_ok e1 → event_ok e2 → canonical_bytes e1 = canonical_bytes e2 → at_millis e1 = at_millis e2.
Proof.
  intros [] [] He. rewrite !canonical_bytes_encode in He. unfold encode in He. destruct_and!.
  apply enc_str_prefix in He as [? He]; [|done..].
  apply category_prefix in He as [? He]; [|done..].
  apply enc_option_prefix in He as [? He]; [|done..].
  apply enc_option_prefix in He as [? He]; [|done..].
  apply actor_prefix in He as [? He]; [|done..].
  apply enc_str_prefix in He as [? He]; [|done..].
  apply enc_str_prefix in He as [? He]; [|done..].
  apply enc_str_prefix in He as [? He]; [|done..].
  apply enc_str_prefix in He as [? He]; [|done..].
  apply enc_str_prefix in He as [? He]; [|done..].
  apply outcome_prefix in He as [? He]; [|done..].
  apply basis_prefix in He as [? He]; [|done..].
  apply enc_str_prefix in He as [? He]; [|done..].
  apply enc_str_prefix in He as [? He]; [|done..].
  apply i64_le_bytes_prefix in He as [? He]; [|done..].
  apply enc_pii_prefix in He as [? He]; [|done..].
  apply le_bytes_prefix in He as [? He]; [|unfold u64_ok; lia..].
  apply (concat_prefix (λ kv, str_ok kv.1 ∧ str_ok kv.2) enc_pair) in He as [? _]; [|done|done|lia].
  destruct e1 as [? ? ? ? [] ? [] ? ? ? ? ? ? ?], e2 as [? ? ? ? [] ? [] ? ? ? ? ? ? ?].
  unfold at_millis. simpl in *. congruence.
Qed.

(** The canonical bytes of an event determine it.  Two events with the same
    canonical bytes agree in every field: identifiers, optional subject and tenant
    (present-but-empty differs from absent), actor, action, resource, outcome, lawful
    basis, envelope and every attribute, with the instant compared at the millisecond. *)
Theorem canonical_bytes_injective (e1 e2 : AuditEvent) :
  event_ok e1 → event_ok e2 → canonical_bytes e1 = canonical_bytes e2 → at_millis e1 = at_millis e2.
Proof. apply canonical_bytes_inj. Qed.

(** ** Digests *)

Lemma hex_digit_inj a b : (a < 16)%nat → (b < 16)%nat → hex_digit a = hex_digit b → a = b.
Proof.
  intros Ha Hb He.
  do 16 (destruct a as [|a]; [do 16 (destruct b as [|b]; [first [reflexivity|discriminate He]|]); lia|]).
  lia.
Qed.

Lemma to_hex_inj a b : to_hex a = to_hex b → a = b.
Proof.
  revert b. induction a as [|x a IH]; intros [|y b] He; cbn [to_hex] in He; try done.
  assert (Hd : hex_digit (nat_of_ascii x / 16) = hex_digit (nat_of_ascii y / 16) ∧
    hex_digit (nat_of_ascii x mod 16) = hex_digit (nat_of_ascii y mod 16) ∧
    to_hex a = to_hex b) by (split_and!; congruence).
  destruct Hd as (H1 & H2 & H3). apply IH in H3 as ->. f_equal.
  pose proof (nat_ascii_bounded x). pose proof (nat_ascii_bounded y).
  apply hex_digit_inj in H1; [|apply Nat.Div0.div_lt_upper_bound; lia..].
  apply hex_digit_inj in H2; [|apply Nat.mod_upper_bound; lia..].
  rewrite <- (ascii_nat_embedding x), <- (ascii_nat_embedding y). f_equal.
  rewrite (Nat.div_mod_eq (nat_of_ascii x) 16), (Nat.div_mod_eq (nat_of_ascii y) 16). congruence.
Qed.

(** These two buffers are different and have one digest. *)
Definition collide `{Sha256} (x y : Bytes) : Prop := x ≠ y ∧ sha256 x = sha256 y.

Lemma digest_inj `{Sha256} x y : digest x = digest y → x = y ∨ collide x y.
Proof.
  intros He. apply to_hex_inj in He. destruct (decide (x = y)) as [|Hne]; [by left|by right].
Qed.

Lemma link_bytes_inj p1 b1 s1 p2 b2 s2 :
  str_ok p1 → str_ok p2 → bytes_ok b1 → bytes_ok b2 → u64_ok s1 → u64_ok s2 →
  link_bytes p1 b1 s1 = link_bytes p2 b2 s2 → p1 = p2 ∧ b1 = b2 ∧ s1 = s2.
Proof.
  intros ? ? ? ? ? ? He.
  assert (Henc : ∀ p b s, link_bytes p b s = enc_str p ++ enc_bytes b ++ le_bytes s ++ []).
  { intros p b s. unfold link_bytes, put_u64, put_str, put_bytes, enc_str, enc_bytes.
    rewrite app_nil_r. by rewrite <- !app_assoc. }
  rewrite !Henc in He. apply enc_str_prefix in He as [-> He]; [|done..].
  apply enc_bytes_prefix in He as [-> He]; [|done..].
  apply le_bytes_prefix in He as [-> _]; done.
Qed.

(** ** Chains *)

Section Chain.
Context `{Sha256}.

(** The records verify one after the other from a head: the loop of the verifier. *)
Fixpoint verify_chain (h : ChainHead) (l : list AuditRecord) : result AuditError ChainHead :=
  match l with
  | [] => Ok h
  | r :: l => verify r h ≫= λ h', verify_chain h' l
  end.

Lemma verify_chain_app h l1 l2 :
  verify_chain h (l1 ++ l2) = (verify_chain h l1 ≫= λ h', verify_chain h' l2).
Proof.
  revert h. induction l1 as [|r l1 IH]; intros h; simpl; [done|].
  destruct (verify r h); simpl; [apply IH|done].
Qed.

Lemma verify_link_ok p h payload l h' :
  verify_link p h payload l = Ok h' ↔
  link_sequence l = u64_add (head_sequence h) 1 ∧ prev_hash l = head_hash h ∧
  link_hash (head_hash h) payload (link_sequence l) = record_hash l ∧ h' = head_apply l.
Proof.
  unfold verify_link.
  destruct (Z.eqb_spec (link_sequence l) (u64_add (head_sequence h) 1)); simpl; [|naive_solver].
  case_bool_decide as Hp; simpl; [|naive_solver].
  case_bool_decide as Hr; simpl; rewrite Hp in *; naive_solver.
Qed.

Lemma verify_ok r h h' :
  verify r h = Ok h' ↔
  link_sequence (link r) = u64_add (head_sequence h) 1 ∧ prev_hash (link r) = head_hash h ∧
  link_hash (head_hash h) (canonical_bytes (event r)) (link_sequence (link r)) = record_hash (link r) ∧
  h' = head_apply (link r).
Proof. apply verify_link_ok. Qed.

(** What [append] builds on a head verifies against it. *)
Lemma append_verifies e p h t : verify (append e p h t).1 h = Ok (append e p h t).2.
Proof. by apply verify_ok. Qed.

Lemma u64_succ n : 0 ≤ n < u64_max → u64_add n 1 = n + 1.
Proof. intros Hn. unfold u64_add, u64_max in *. apply Z.mod_small. lia. Qed.

(** The head of a verified chain counts its records. *)
Lemma verify_chain_sequence l h h' :
  0 ≤ head_sequence h → head_sequence h + Z.of_nat (length l) ≤ u64_max →
  verify_chain h l = Ok h' → head_sequence h' = head_sequence h + Z.of_nat (length l).
Proof.
  revert h. induction l as [|r l IH]; intros h H0 Hlen Hv; simpl in *; [injection Hv as <-; lia|].
  apply result_bind_ok in Hv as (h1 & Hr & Hv). apply verify_ok in Hr as (Hs & _ & _ & ->).
  rewrite u64_succ in Hs by lia. apply IH in Hv; simpl in *; lia.
Qed.

Lemma genesis_sequence l h :
  Z.of_nat (length l) ≤ u64_max → verify_chain genesis l = Ok h →
  head_sequence h = Z.of_nat (length l).
Proof. intros Hl Hv. apply verify_chain_sequence in Hv; simpl in *; lia. Qed.

Lemma verify_chain_snoc h l r h' :
  verify_chain h (l ++ [r]) = Ok h' ↔ ∃ g, verify_chain h l = Ok g ∧ verify r g = Ok h'.
Proof.
  rewrite verify_chain_app, result_bind_ok. simpl. setoid_rewrite result_bind_ok. split.
  - intros (g & Hv & k & Hr & [= ->]). eauto.
  - intros (g & Hv & Hr). eauto.
Qed.

(** A record of fields short enough for their length prefixes; the hash it links to
    is a hex digest or the genesis hash. *)
Definition record_ok (r : AuditRecord) : Prop :=
  event_ok (event r) ∧ str_ok (prev_hash (link r)).

(** Two records that carry the same event and the same link. *)
Definition same_record (r1 r2 : AuditRecord) : Prop :=
  at_millis (event r1) = at_millis (event r2) ∧ link r1 = link r2.

(** The bytes a record's hash is the digest of. *)
Definition hashed (r : AuditRecord) : Bytes :=
  link_bytes (prev_hash (link r)) (canonical_bytes (event r)) (link_sequence (link r)).

Lemma same_digest_same_record r1 r2 h1 h2 h :
  record_ok r1 → record_ok r2 → u64_ok (link_sequence (link r1)) → u64_ok (link_sequence (link r2)) →
  verify r1 h1 = Ok h → verify r2 h2 = Ok h →
  (same_record r1 r2 ∧ head_hash h1 = head_hash h2) ∨ collide (hashed r1) (hashed r2).
Proof.
  intros [He1 Hp1] [He2 Hp2] Hs1 Hs2 Hv1 Hv2.
  apply verify_ok in Hv1 as (Hq1 & Hprev1 & Hh1 & ->).
  apply verify_ok in Hv2 as (Hq2 & Hprev2 & Hh2 & Heq).
  assert (Hd : record_hash (link r1) = record_hash (link r2)) by (by injection Heq).
  rewrite <- Hh1, <- Hh2 in Hd. unfold link_hash in Hd.
  apply digest_inj in Hd as [Hb|Hcol]; [|right; unfold hashed; by rewrite Hprev1, Hprev2].
  apply link_bytes_inj in Hb as (Hp & Hc & Hq); [|congruence|congruence|apply He1|apply He2|done|done].
  left. split; [|done]. split; [by apply canonical_bytes_inj|].
  destruct (link r1), (link r2). simpl in *. congruence.
Qed.

(** C31. A chain head pins the whole history.  Two lists of records that verify from
    genesis to the same head (sequence and hash) are, record by record, the same
    events at the millisecond with the same links; or else at some position the two
    records are hashed from different bytes to one digest.  So no altered, inserted,
    dropped or reordered record can reach a head that was reached before, unless the
    bytes hashed for two of the records at hand are themselves a SHA-256 collision. *)
Theorem head_pins_history (l1 l2 : list AuditRecord) (h : ChainHead) :
  Forall record_ok l1 → Forall record_ok l2 →
  Z.of_nat (length l1) ≤ u64_max → Z.of_nat (length l2) ≤ u64_max →
  verify_chain genesis l1 = Ok h → verify_chain genesis l2 = Ok h →
  Forall2 same_record l1 l2 ∨
  ∃ i r1 r2, l1 !! i = Some r1 ∧ l2 !! i = Some r2 ∧ collide (hashed r1) (hashed r2).
Proof.
  intros Hok1 Hok2 Hlen1 Hlen2 Hv1 Hv2.
  assert (Hlen : length l1 = length l2).
  { apply genesis_sequence in Hv1, Hv2; [lia|done..]. }
  assert (Hhash : ∃ h1 h2, verify_chain genesis l1 = Ok h1 ∧ verify_chain genesis l2 = Ok h2 ∧
    head_hash h1 = head_hash h2) by eauto.
  clear h Hv1 Hv2. revert l2 Hok2 Hlen2 Hlen Hhash.
  induction l1 as [|r1 l1 IH] using rev_ind; intros l2 Hok2 Hlen2 Hlen (h1 & h2 & Hv1 & Hv2 & Hh).
  { destruct l2; [left; constructor|done]. }
  destruct l2 as [|r2 l2 _] using rev_ind; [rewrite length_app in Hlen; simpl in Hlen; lia|].
  rewrite !length_app in *. simpl in *.
  apply Forall_app in Hok1 as [Hok1 [Hr1 _]%list.Forall_cons].
  apply Forall_app in Hok2 as [Hok2 [Hr2 _]%list.Forall_cons].
  apply verify_chain_snoc in Hv1 as (g1 & Hv1 & Hl1). apply verify_chain_snoc in Hv2 as (g2 & Hv2 & Hl2).
  assert (Hu : ∀ n, u64_ok (u64_add n 1)) by (intros n; apply Z.mod_pos_bound; lia).
  assert (Hlink : link_sequence (link r1) = link_sequence (link r2) ∧
    u64_ok (link_sequence (link r1)) ∧ h1 = head_apply (link r1) ∧ h2 = head_apply (link r2)).
  { apply verify_ok in Hl1 as (-> & _ & _ & ->). apply verify_ok in Hl2 as (-> & _ & _ & ->).
    apply genesis_sequence in Hv1, Hv2; [|lia..]. split_and!; [f_equal; lia|apply Hu|done|done]. }
  destruct Hlink as (Hseq & Hus & -> & ->). unfold head_apply in Hl1, Hl2. simpl in Hh.
  rewrite Hseq, Hh in Hl1.
  destruct (same_digest_same_record r1 r2 g1 g2 _ Hr1 Hr2 Hus ltac:(by rewrite <- Hseq) Hl1 Hl2)
    as [[Hsame Hprev]|Hcol].
  - destruct (IH Hok1 ltac:(lia) l2 Hok2 ltac:(lia) ltac:(lia))
      as [Hall|(i & x1 & x2 & H1 & H2 & Hcol)]; [by eauto 10|left|right].
    + apply Forall2_app; [done|]. by constructor.
    + exists i, x1, x2. split_and!; [by apply lookup_app_l_Some..|done].
  - right. exists (length l1), r1, r2. split_and!; [by apply list_lookup_middle| |done].
    apply list_lookup_middle. lia.
Qed.
End Chain.
