(* ===== verification/AuditLedger.v ===== *)
(** * Audit: the ledger store and its use cases

    Models [crates/services/audit/src/{application,infrastructure/pg_*}]: the Postgres
    ledger, anchor and key vault, the archive port, and the commit, ingest, privileged,
    checkpoint, verify and crypto-shred use cases.  [Ledger] is the stores; every
    store call first consumes an entry of a fault script.  A stored row is its
    record (the JSON column round-trips).  [others] is what concurrent writers do to
    the stores at the points where a commit can be overtaken. *)

From S2P Require Import Prelude AuditChain AuditProofs.
Local Open Scope Z_scope.

(** A row of [subject_keys] but for its key. *)
Record SubjectKey := {
  created_at_ms : Z;
  wrapped_dek : option Bytes;
  wrap_nonce : option Bytes;
}.

(** [exports] are the archive's bundle objects by key; [draws] counts the reads of the
    system's random generator. *)
Record Ledger := {
  rows : list AuditRecord;
  archived : list AuditRecord;
  exports : gmap string Bytes;
  anchors : list (Z * MerkleCheckpoint);
  subject_keys : gmap string SubjectKey;
  clock : Z;
  draws : nat;
  faults : list bool;
}.

#[export] Instance ledger_fields : Fields Ledger := λ w, {|
  rows := rows w; archived := archived w; exports := exports w; anchors := anchors w;
  subject_keys := subject_keys w; clock := clock w; draws := draws w; faults := faults w |}.

Definition set_rows l w := w <| rows := l |>.
Definition set_archived l w := w <| archived := l |>.
Definition set_exports m w := w <| exports := m |>.
Definition set_anchors l w := w <| anchors := l |>.
Definition set_keys k w := w <| subject_keys := k |>.
Definition set_draws n w := w <| draws := n |>.
Definition set_faults l w := w <| faults := l |>.

Abbreviation use_case A := (act Ledger AuditError A).

Definition store (e : AuditError) : use_case unit := λ w,
  match faults w with
  | true :: fs => (set_faults fs w, Err e)
  | _ :: fs => (set_faults fs w, Ok tt)
  | [] => (w, Ok tt)
  end.

(** ** [PgLedger] *)

Definition record_seq (r : AuditRecord) : Z := link_sequence (link r).

Fixpoint insert_seq (r : AuditRecord) (l : list AuditRecord) : list AuditRecord :=
  match l with
  | [] => [r]
  | x :: l' => if record_seq r <=? record_seq x then r :: l else x :: insert_seq r l'
  end.

Definition in_partition (p : string) (l : list AuditRecord) : list AuditRecord :=
  filter (λ r, partition r = p) l.

(** [WHERE partition_key = $1 ORDER BY sequence_no] *)
Definition partition_rows (p : string) (w : Ledger) : list AuditRecord :=
  foldr insert_seq [] (in_partition p (rows w)).

(** [ORDER BY sequence_no DESC LIMIT 1] *)
Definition head_of (p : string) (w : Ledger) : ChainHead :=
  match list.last (partition_rows p w) with
  | Some r => {| head_sequence := record_seq r; head_hash := record_hash (link r) |}
  | None => genesis
  end.

Definition ledger_head (p : string) : use_case ChainHead :=
  let! _ := store LedgerStoreUnavailable in gets (head_of p).

Definition find_event (id : string) (l : list AuditRecord) : option AuditRecord :=
  list.head (filter (λ r, event_id (event r) = id) l).

Definition ledger_lookup (id : string) : use_case (option AuditRecord) :=
  let! _ := store LedgerStoreUnavailable in gets (λ w, find_event id (rows w)).

(** [INSERT ... ON CONFLICT (partition_key, sequence_no) DO NOTHING]: a taken slot is a
    lost race; a free slot with a known event id violates the unique index. *)
Definition ledger_append (r : AuditRecord) : use_case unit :=
  let! _ := store LedgerStoreUnavailable in λ w,
  if existsb (λ x, bool_decide (partition x = partition r) && (record_seq x =? record_seq r)) (rows w)
  then (w, Err (ChainHeadConflict (partition r)))
  else match find_event (event_id (event r)) (rows w) with
       | Some _ => (w, Err (DuplicateEvent (event_id (event r))))
       | None => (set_rows (rows w ++ [r]) w, Ok tt)
       end.

Definition read_partition (p : string) : use_case (list AuditRecord) :=
  let! _ := store LedgerStoreUnavailable in gets (partition_rows p).

Fixpoint insert_key (k : string) (l : list string) : list string :=
  match l with
  | [] => [k]
  | x :: l' => if String.eqb k x then l
               else if String.leb k x then k :: l else x :: insert_key k l'
  end.

(** [SELECT DISTINCT ON (partition_key) ... ORDER BY partition_key, sequence_no DESC] *)
Definition heads_of (w : Ledger) : list (string * string) :=
  (λ p, (p, head_hash (head_of p w))) <$> foldr insert_key [] (partition <$> rows w).

Definition partition_heads : use_case (list (string * string)) :=
  let! _ := store LedgerStoreUnavailable in gets heads_of.

(** ** Archive, anchor, key vault *)

Definition archive (r : AuditRecord) : use_case unit :=
  let! _ := store ArchiveUnavailable in modify (λ w, set_archived (archived w ++ [r]) w).

(** [store_export]: the object written and its opaque reference. *)
Definition store_export (export_id : string) (content : Bytes) : use_case string :=
  let! _ := store ArchiveUnavailable in
  let key := "exports/" +:+ export_id +:+ ".bundle" in
  let! _ := modify (λ w, set_exports (<[key := content]> (exports w)) w) in
  done_with ("worm://" +:+ key).

(** [INSERT ... ON CONFLICT (created_at_ms) DO NOTHING] *)
Definition anchor (c : MerkleCheckpoint) : use_case unit :=
  let! _ := store AnchorWitnessUnavailable in
  modify (λ w,
    let key := timestamp_millis (created_at c) in
    if existsb (λ kc, kc.1 =? key) (anchors w) then w
    else set_anchors (anchors w ++ [(key, c)]) w).

(** [ORDER BY created_at_ms DESC LIMIT 1] *)
Definition latest_of (l : list (Z * MerkleCheckpoint)) : option MerkleCheckpoint :=
  snd <$> foldr (λ kc best, match best with
                            | Some b => if b.1 <? kc.1 then Some kc else Some b
                            | None => Some kc
                            end) None l.

Definition latest_anchored : use_case (option MerkleCheckpoint) :=
  let! _ := store AnchorWitnessUnavailable in gets (λ w, latest_of (anchors w)).

Definition destroy_subject_key (key_ref : string) : use_case unit :=
  let! _ := store KeyVaultUnavailable in
  modify (λ w, set_keys (delete key_ref (subject_keys w)) w).

Definition key_exists (key_ref : string) : use_case bool :=
  let! _ := store KeyVaultUnavailable in gets (λ w, bool_decide (is_Some (subject_keys w !! key_ref))).

(** ** Commit *)

Record RecordProof := {
  proof_event_id : string;
  proof_partition : string;
  proof_sequence : Z;
  proof_record_hash : string;
  committed_at : Z;
}.

Inductive CommitOutcome :=
  | Committed (p : RecordProof)
  | AlreadyRecorded (p : RecordProof).

Definition outcome_proof (o : CommitOutcome) : RecordProof :=
  match o with Committed p | AlreadyRecorded p => p end.

Definition is_duplicate (o : CommitOutcome) : bool :=
  match o with AlreadyRecorded _ => true | Committed _ => false end.

Definition proof_of (r : AuditRecord) : RecordProof := {|
  proof_event_id := event_id (event r);
  proof_partition := partition r;
  proof_sequence := record_seq r;
  proof_record_hash := record_hash (link r);
  committed_at := recorded_at r |}.

Definition MAX_APPEND_RETRIES : nat := 8.

Section UseCases.
Context `{Sha256} (others : nat → Ledger → Ledger).

(** One attempt to chain the event onto the partition's head. *)
Definition append_next (tries : nat) (e : AuditEvent) (p : string) : use_case AuditRecord :=
  let! _ := modify (others (2 * tries + 1)%nat) in
  let! head := ledger_head p in
  let! _ := modify (others (2 * tries)%nat) in
  let! now := gets clock in
  let record := (append e p head now).1 in
  let! _ := ledger_append record in
  done_with record.

(** The attempt and, on a lost race, the [tries] attempts after it. *)
Fixpoint commit_loop (tries : nat) (e : AuditEvent) (p : string) : use_case CommitOutcome := λ w,
  match append_next tries e p w with
  | (w, Ok record) => (let! _ := archive record in done_with (Committed (proof_of record))) w
  | (w, Err (ChainHeadConflict c)) =>
      match tries with
      | S tries => commit_loop tries e p w
      | O => (w, Err (ChainHeadConflict c))
      end
  | (w, Err other) => (w, Err other)
  end.

Definition commit_event (e : AuditEvent) : use_case CommitOutcome :=
  let! existing := ledger_lookup (event_id e) in
  match existing with
  | Some r => done_with (AlreadyRecorded (proof_of r))
  | None => commit_loop (MAX_APPEND_RETRIES - 1) e (derive_partition (tenant e) (category e))
  end.

(** [IngestHandler::ingest] and [run_ingest] over the events a source yields. *)
Definition ingest (e : AuditEvent) : use_case CommitOutcome := commit_event e.

Fixpoint run_ingest (source : list AuditEvent) : use_case unit :=
  match source with
  | [] => done_with tt
  | e :: source => let! _ := ingest e in run_ingest source
  end.

(** [RecordPrivilegedHandler::record] *)
Definition record_privileged (e : AuditEvent) : use_case RecordProof :=
  let! outcome := commit_event e in done_with (outcome_proof outcome).

(** ** Checkpoint and verification *)

Definition create_and_anchor : use_case MerkleCheckpoint :=
  let! heads := partition_heads in
  let! now := gets clock in
  let checkpoint := checkpoint_over heads now in
  let! _ := anchor checkpoint in
  done_with checkpoint.

Inductive IntegrityStatus := Verified | HashMismatch | Gap | CheckpointDivergence.

Record IntegrityReport := {
  status : IntegrityStatus;
  verified_through : Z;
  divergence_at : option Z;
  checkpoint_root : option string;
}.

Definition verified (through : Z) : IntegrityReport := {|
  status := Verified; verified_through := through; divergence_at := None; checkpoint_root := None |}.

Fixpoint verify_walk (h : ChainHead) (l : list AuditRecord) : result AuditError IntegrityReport :=
  match l with
  | [] => Ok (verified (head_sequence h))
  | r :: l =>
      match verify r h with
      | Ok next => verify_walk next l
      | Err (ChainHashMismatch sequence) =>
          Ok {| status := HashMismatch; verified_through := head_sequence h;
                divergence_at := Some sequence; checkpoint_root := None |}
      | Err (SequenceGap _) =>
          Ok {| status := Gap; verified_through := head_sequence h;
                divergence_at := Some (record_seq r); checkpoint_root := None |}
      | Err other => Err other
      end
  end.

Definition verify_partition (p : string) : use_case IntegrityReport :=
  let! records := read_partition p in lift (verify_walk genesis records).

Definition verify_global : use_case IntegrityReport :=
  let! heads := partition_heads in λ w,
  match latest_anchored w with
  | (w, Ok None) => (w, Ok (verified 0))
  | (w, Err CheckpointVerificationFailed) =>
      (w, Ok {| status := CheckpointDivergence; verified_through := 0; divergence_at := None;
                checkpoint_root := None |})
  | (w, Err other) => (w, Err other)
  | (w, Ok (Some checkpoint)) =>
      (w, match verify_against checkpoint heads with
          | Ok _ => Ok {| status := Verified; verified_through := 0; divergence_at := None;
                          checkpoint_root := Some (root checkpoint) |}
          | Err CheckpointVerificationFailed =>
              Ok {| status := CheckpointDivergence; verified_through := 0; divergence_at := None;
                    checkpoint_root := Some (root checkpoint) |}
          | Err other => Err other
          end)
  end.

(** [CryptoShredHandler::shred] *)
Definition shred (subject key_ref : string) (holds : list LegalHold) : use_case unit :=
  let! now := gets clock in
  let! _ := lift (authorize_erasure subject holds now) in
  destroy_subject_key key_ref.

End UseCases.
