(* ===== verification/AuditLedgerProofs.v ===== *)
(** * Audit: the ledger is always a set of verifying chains

    Concurrent writers each chain their record on a head they read earlier; the slot
    check of the insert is what keeps every partition one unbroken chain
    ([ledger_always_verifies]).  Then the outcome of a commit, what a lost archive
    write means, erasure, and the global check. *)

From S2P Require Import Prelude AuditChain AuditProofs AuditLedger.
Local Open Scope Z_scope.

Section LedgerFacts.
Context `{Sha256}.

(** A head some writer may hold: that of the partition now or at an earlier time. *)
Definition was_head (p : string) (h : ChainHead) (w : Ledger) : Prop :=
  ∃ l1 l2, in_partition p (rows w) = l1 ++ l2 ∧ verify_chain genesis l1 = Ok h.

Definition set_clock c (w : Ledger) := w <| clock := c |>.

Definition partition_of (e : AuditEvent) : string := derive_partition (tenant e) (category e).

(** One store operation of some use case, by any process; or time passing, or the
    future of the stores' failures changing. *)
Inductive ledger_step (w : Ledger) : Ledger → Prop :=
  | l_append e h t : was_head (partition_of e) h w →
      ledger_step w (ledger_append (append e (partition_of e) h t).1 w).1
  | l_read e : ledger_step w (store e w).1
  | l_archive r : ledger_step w (archive r w).1
  | l_export m : ledger_step w (set_exports m w)
  | l_anchor c : ledger_step w (anchor c w).1
  | l_destroy k : ledger_step w (destroy_subject_key k w).1
  | l_keys ks : ledger_step w (set_keys ks w)
  | l_draws n : ledger_step w (set_draws n w)
  | l_time c : ledger_step w (set_clock c w)
  | l_faults fs : ledger_step w (set_faults fs w).

Record ledger_inv (w : Ledger) : Prop := {
  inv_chains : ∀ p, ∃ h, verify_chain genesis (in_partition p (rows w)) = Ok h;
  inv_unique : NoDup ((λ r, event_id (event r)) <$> rows w);
}.

(** *** Store operations *)

Definition next_fault (w : Ledger) : bool := match faults w with b :: _ => b | [] => false end.

Lemma store_run e w :
  store e w = (set_faults (tail (faults w)) w, if next_fault w then Err e else Ok tt).
Proof. destruct w as [? ? ? ? ? ? ? [|[] ?]]; reflexivity. Qed.

Lemma find_event_none id l :
  find_event id l = None → id ∉ ((λ r, event_id (event r)) <$> l).
Proof.
  unfold find_event. intros Hf (r & -> & Hin)%list_elem_of_fmap.
  assert (Hr : r ∈ filter (λ x, event_id (event x) = event_id (event r)) l)
    by (by apply list_elem_of_filter).
  destruct (filter _ l); [set_solver|done].
Qed.

Lemma find_event_some id l r : find_event id l = Some r → r ∈ l ∧ event_id (event r) = id.
Proof.
  unfold find_event. intros Hf.
  assert (Hr : r ∈ filter (λ x, event_id (event x) = id) l).
  { destruct (filter _ l); simplify_eq/=. left. }
  apply list_elem_of_filter in Hr. tauto.
Qed.

(** What an append does: nothing but consume a fault entry, or add the record at a
    free slot under a new event id. *)
Lemma ledger_append_run r w :
  let '(w', res) := ledger_append r w in
  match res with
  | Err _ => w' = set_faults (tail (faults w)) w
  | Ok _ => w' = set_rows (rows w ++ [r]) (set_faults (tail (faults w)) w) ∧
      (∀ x, x ∈ rows w → partition x = partition r → record_seq x ≠ record_seq r) ∧
      event_id (event r) ∉ ((λ r, event_id (event r)) <$> rows w)
  end.
Proof.
  unfold ledger_append. rewrite act_bind_run, store_run. destruct (next_fault w); [done|]. simpl.
  destruct (existsb _ _) eqn:Hex; [done|]. destruct (find_event _ _) eqn:Hf; [done|].
  split; [done|]. split; [|by apply find_event_none].
  intros x Hin Hp Hs. apply not_true_iff_false in Hex. apply Hex, existsb_exists.
  exists x. split; [by apply list_elem_of_In|]. rewrite bool_decide_true by done.
  by apply Z.eqb_eq.
Qed.

(** *** The invariant *)

Lemma in_partition_snoc p l r :
  in_partition p (l ++ [r]) = in_partition p l ++ if decide (partition r = p) then [r] else [].
Proof.
  unfold in_partition. by rewrite list.filter_app.
Qed.

(** A head whose next slot is free is the head now. *)
Lemma free_slot_is_head p h w g :
  was_head p h w → verify_chain genesis (in_partition p (rows w)) = Ok g →
  (∀ x, x ∈ rows w → partition x = p → record_seq x ≠ u64_add (head_sequence h) 1) →
  g = h.
Proof.
  intros (l1 & [|r l2] & Hl & Hv) Hg Hfree; rewrite Hl in Hg.
  { rewrite app_nil_r in Hg. congruence. }
  exfalso. rewrite verify_chain_app, Hv in Hg. simpl in Hg.
  apply result_bind_ok in Hg as (k & Hr & _). apply verify_ok in Hr as (Hs & _).
  assert (Hin : r ∈ in_partition p (rows w)) by (rewrite Hl; set_solver).
  apply list_elem_of_filter in Hin as [Hp Hin]. by apply (Hfree r).
Qed.

Lemma ledger_inv_same w w' : rows w' = rows w → ledger_inv w → ledger_inv w'.
Proof. intros Hr [? ?]. split; by rewrite Hr. Qed.

Lemma ledger_append_inv e h t w :
  was_head (partition_of e) h w → ledger_inv w →
  ledger_inv (ledger_append (append e (partition_of e) h t).1 w).1.
Proof.
  intros Hh Hinv. pose proof (ledger_append_run (append e (partition_of e) h t).1 w) as Hrun.
  destruct (ledger_append _ w) as [w' [[]|err]]; simpl in *; [|subst w'; by apply (ledger_inv_same w)].
  destruct Hrun as (-> & Hfree & Hnew). destruct Hinv as [Hc Hu]. split; simpl.
  - intros p. rewrite in_partition_snoc. destruct (Hc p) as (g & Hg). simpl.
    destruct (decide (partition_of e = p)) as [<-|]; [|rewrite app_nil_r; eauto].
    rewrite (free_slot_is_head _ h w g Hh Hg Hfree) in Hg.
    eexists. apply verify_chain_snoc. eexists. split; [exact Hg|apply append_verifies].
  - rewrite fmap_app. apply list.NoDup_app. split_and!; [done| |apply NoDup_singleton].
    intros x Hx. simpl. intros ->%list_elem_of_singleton. done.
Qed.

(** Every step keeps the rows or appends one. *)
Lemma ledger_step_rows w w' :
  ledger_step w w' → rows w `prefix_of` rows w' ∧ (ledger_inv w → ledger_inv w').
Proof.
  intros Hst. assert (Hkeep : rows w' = rows w → rows w `prefix_of` rows w' ∧ (ledger_inv w → ledger_inv w')).
  { intros Hr. split; [by rewrite Hr|by apply ledger_inv_same]. }
  destruct Hst as [e h t Hh|e|r|m|c|k|ks|n|c|fs]; [|apply Hkeep; rewrite ?store_run; done|..].
  { split; [|by apply ledger_append_inv].
    pose proof (ledger_append_run (append e (partition_of e) h t).1 w) as Hrun.
    destruct (ledger_append _ w) as [w' [[]|err]]; simpl in *; [|by subst].
    destruct Hrun as (-> & _). by eexists. }
  all: apply Hkeep; unfold archive, anchor, destroy_subject_key; rewrite ?act_bind_run, ?store_run;
    try (destruct (next_fault w)); simpl; try done.
  by destruct (existsb _ _).
Qed.

Lemma ledger_steps_rows w w' :
  star ledger_step w w' → rows w `prefix_of` rows w' ∧ (ledger_inv w → ledger_inv w').
Proof.
  induction 1 as [w|w1 w2 w3 Hs _ [IHp IHi]]; [done|].
  apply ledger_step_rows in Hs as [Hp Hi]. split; [by etrans|auto].
Qed.

Definition empty_ledger : Ledger := {| rows := []; archived := []; exports := ∅; anchors := [];
  subject_keys := ∅; clock := 0; draws := 0; faults := [] |}.

Lemma empty_inv : ledger_inv empty_ledger.
Proof. split; [intros p; by exists genesis|constructor]. Qed.

(** *** Reading a partition back *)

Lemma verified_sorted h l h' :
  0 ≤ head_sequence h → head_sequence h + Z.of_nat (length l) ≤ u64_max →
  verify_chain h l = Ok h' → foldr insert_seq [] l = l.
Proof.
  revert h. induction l as [|r l IH]; intros h H0 Hlen Hv; [done|]. cbn [foldr verify_chain length] in *.
  apply result_bind_ok in Hv as (k & Hr & Hv). apply verify_ok in Hr as (Hs & _ & _ & ->).
  rewrite u64_succ in Hs by lia.
  rewrite (IH (head_apply (link r))); [|simpl; lia..|done].
  destruct l as [|r2 l]; [done|]. simpl in Hv |- *. apply result_bind_ok in Hv as (k2 & Hr2 & _).
  apply verify_ok in Hr2 as (Hs2 & _). simpl in Hs2. rewrite u64_succ in Hs2 by (simpl in *; lia).
  unfold record_seq. by rewrite (proj2 (Z.leb_le _ _)) by lia.
Qed.

Lemma partition_length p w : (length (in_partition p (rows w)) ≤ length (rows w))%nat.
Proof. apply length_filter. Qed.

Lemma partition_rows_eq p w :
  ledger_inv w → Z.of_nat (length (rows w)) ≤ u64_max →
  partition_rows p w = in_partition p (rows w).
Proof.
  intros [Hc _] Hlen. destruct (Hc p) as (h & Hh). unfold partition_rows.
  apply (verified_sorted genesis _ h); [done| |done]. pose proof (partition_length p w). simpl. lia.
Qed.

Lemma verify_chain_last h l h' :
  verify_chain h l = Ok h' →
  h' = match list.last l with Some r => head_apply (link r) | None => h end.
Proof.
  destruct l as [|r l _] using rev_ind; intros Hv; [by injection Hv as <-|].
  apply verify_chain_snoc in Hv as (g & _ & Hr). apply verify_ok in Hr as (_ & _ & _ & ->).
  by rewrite last_snoc.
Qed.

(** The head query returns the head of the chain. *)
Lemma head_of_chain p w :
  ledger_inv w → Z.of_nat (length (rows w)) ≤ u64_max →
  verify_chain genesis (in_partition p (rows w)) = Ok (head_of p w).
Proof.
  intros Hinv Hlen. unfold head_of. rewrite partition_rows_eq by done.
  destruct (inv_chains _ Hinv p) as (h & Hh). rewrite Hh. f_equal.
  rewrite (verify_chain_last _ _ _ Hh). by destruct (list.last _).
Qed.

Lemma verify_walk_ok h l h' :
  verify_chain h l = Ok h' → verify_walk h l = Ok (verified (head_sequence h')).
Proof.
  revert h. induction l as [|r l IH]; intros h Hv; simpl in *; [by injection Hv as <-|].
  apply result_bind_ok in Hv as (k & Hr & Hv). rewrite Hr. by apply IH.
Qed.

(** C6. The ledger is always a set of unbroken chains.  However writers interleave,
    each appending a record chained on any head of the partition it ever read, with
    any store call failing: while fewer than 2^64 rows are stored, verifying any
    partition reports it verified through all its records, no event is recorded twice,
    and no row is ever changed, moved or removed. *)
Theorem ledger_always_verifies (w0 w w' : Ledger) (p : string) (res : result AuditError IntegrityReport) :
  star ledger_step empty_ledger w0 → star ledger_step w0 w →
  Z.of_nat (length (rows w)) ≤ u64_max →
  verify_partition p w = (w', res) →
  (res = Ok (verified (Z.of_nat (length (in_partition p (rows w))))) ∨
   res = Err LedgerStoreUnavailable) ∧
  NoDup ((λ r, event_id (event r)) <$> rows w) ∧ rows w0 `prefix_of` rows w ∧ rows w' = rows w.
Proof.
  intros H0 H1 Hlen Hver. destruct (ledger_steps_rows _ _ H0) as [_ Hi0].
  destruct (ledger_steps_rows _ _ H1) as [Hp Hi1]. pose proof (Hi1 (Hi0 empty_inv)) as Hinv.
  unfold verify_partition, read_partition in Hver. rewrite !act_bind_run, store_run in Hver.
  destruct (next_fault w); [injection Hver as <- <-; split_and!; [by right|apply Hinv|done|done]|].
  unfold gets, lift in Hver. injection Hver as <- Hres.
  change (partition_rows p (set_faults _ w)) with (partition_rows p w) in Hres.
  split_and!; [left|apply Hinv|done|done]. rewrite <- Hres, partition_rows_eq by done.
  pose proof (head_of_chain p w Hinv Hlen) as Hh. rewrite (verify_walk_ok _ _ _ Hh).
  do 2 f_equal. apply genesis_sequence in Hh; [done|]. pose proof (partition_length p w). lia.
Qed.

(** ** Commit *)

Lemma head_was_head p w :
  ledger_inv w → Z.of_nat (length (rows w)) ≤ u64_max → was_head p (head_of p w) w.
Proof.
  intros Hinv Hlen. exists (in_partition p (rows w)), []. rewrite app_nil_r.
  split; [done|by apply head_of_chain].
Qed.

(** A head read earlier is still one that was read. *)
Lemma was_head_later p h w w' : rows w `prefix_of` rows w' → was_head p h w → was_head p h w'.
Proof.
  intros [l Hl] (l1 & l2 & Hc & Hv). exists l1, (l2 ++ in_partition p l). split; [|done].
  rewrite Hl, app_assoc, <- Hc. unfold in_partition. by rewrite list.filter_app.
Qed.

Section Commit.
Context (others : nat → Ledger → Ledger).
Context (Hothers : ∀ i w, star ledger_step w (others i w)).

Lemma one_step w w' : ledger_step w w' → star ledger_step w w'.
Proof. intros Hs. eapply star_step; [exact Hs|apply star_refl]. Qed.

Lemma archive_run r w :
  archive r w = if next_fault w then (set_faults (tail (faults w)) w, Err ArchiveUnavailable)
    else (set_archived (archived w ++ [r]) (set_faults (tail (faults w)) w), Ok tt).
Proof. unfold archive. rewrite act_bind_run, store_run. by destruct (next_fault w). Qed.

(** One attempt: rows only grow; and unless the ledger overflows it is a run of steps
    whose record, if any, is in the ledger. *)
Lemma append_next_run tries e w w' res :
  append_next others tries e (partition_of e) w = (w', res) →
  rows w `prefix_of` rows w' ∧
  (ledger_inv w → Z.of_nat (length (rows w')) ≤ u64_max →
   star ledger_step w w' ∧
   match res with
   | Ok r => r ∈ rows w' ∧ event r = e ∧ partition r = partition_of e
   | Err err => err ≠ ArchiveUnavailable
   end).
Proof.
  unfold append_next, ledger_head, modify, gets, done_with. intros Hr.
  rewrite act_bind_run in Hr. set (w1 := others _ w) in Hr.
  pose proof (Hothers (2 * tries + 1) w) as H1. fold w1 in H1.
  rewrite !act_bind_run, store_run in Hr. set (w2 := set_faults _ w1) in Hr.
  assert (H2 : star ledger_step w1 w2).
  { apply one_step. pose proof (l_read w1 LedgerStoreUnavailable) as Hx. by rewrite store_run in Hx. }
  assert (H02 : star ledger_step w w2) by (by eapply star_trans).
  destruct (ledger_steps_rows _ _ H02) as [Hp02 Hi02].
  destruct (next_fault w1); [injection Hr as <- <-; split; [done|]; intros; by split|].
  rewrite !act_bind_run in Hr. set (w3 := others _ w2) in Hr.
  pose proof (Hothers (2 * tries) w2) as H23. fold w3 in H23.
  destruct (ledger_steps_rows _ _ H23) as [Hp23 _].
  set (r := (append e (partition_of e) (head_of (partition_of e) w2) (clock w3)).1) in Hr.
  pose proof (ledger_append_run r w3) as Hrun.
  destruct (ledger_append r w3) as [w4 app] eqn:Happ.
  assert (Hp34 : rows w3 `prefix_of` rows w4).
  { destruct app; [destruct Hrun as (-> & _); by eexists|by subst w4]. }
  assert (Hw' : w' = w4 ∧ match app with Ok _ => res = Ok r | Err err => res = Err err end).
  { destruct app as [[]|]; injection Hr as <- <-; done. }
  destruct Hw' as [-> Hres]. split; [by etrans; [exact Hp02|etrans]|].
  intros Hinv Hlen.
  assert (Hhead : was_head (partition_of e) (head_of (partition_of e) w2) w3).
  { apply (was_head_later _ _ w2); [done|]. apply head_was_head; [auto|].
    apply prefix_length in Hp23, Hp34. lia. }
  split.
  - eapply star_trans; [exact H02|]. eapply star_trans; [exact H23|]. apply one_step.
    pose proof (l_append w3 e _ (clock w3) Hhead) as Hx. fold r in Hx. by rewrite Happ in Hx.
  - destruct app as [[]|err]; subst res.
    + destruct Hrun as (-> & _). split; [simpl; set_solver|done].
    + intros ->. unfold ledger_append in Happ. rewrite act_bind_run, store_run in Happ.
      destruct (next_fault w3); [done|]. simpl in Happ. repeat case_match; done.
Qed.

(** What the retry loop leaves behind. *)
Lemma commit_loop_run tries e w w' res :
  commit_loop others tries e (partition_of e) w = (w', res) →
  rows w `prefix_of` rows w' ∧
  (ledger_inv w → Z.of_nat (length (rows w')) ≤ u64_max →
   star ledger_step w w' ∧
   match res with
   | Ok (Committed p) => ∃ r, r ∈ rows w' ∧ r ∈ archived w' ∧ event r = e ∧
       partition r = partition_of e ∧ p = proof_of r
   | Ok (AlreadyRecorded _) => False
   | Err ArchiveUnavailable => ∃ r, r ∈ rows w' ∧ event r = e
   | Err _ => True
   end).
Proof.
  revert w. induction tries as [|tries IH]; intros w Hr; cbn [commit_loop] in Hr;
    destruct (append_next _ _ _ _ _) as [w1 [r|err]] eqn:Hn;
    apply append_next_run in Hn as [Hp Hn].
  1,3: rewrite act_bind_run, archive_run in Hr; destruct (next_fault w1) eqn:Hf; injection Hr as <- <-;
    (split; [done|]); intros Hinv Hlen; destruct (Hn Hinv Hlen) as (Hs & Hin & He & Hpart);
    (split; [eapply star_trans; [exact Hs|]; apply one_step; pose proof (l_archive w1 r) as Hx;
      rewrite archive_run, Hf in Hx; exact Hx|]); eauto;
    exists r; simpl; split_and!; (done || set_solver).
  - assert (w' = w1 ∧ res = Err err) as [-> ->] by (destruct err; by injection Hr as <- <-).
    split; [done|]. intros Hinv Hlen. destruct (Hn Hinv Hlen) as [Hs Hne]. split; [done|by destruct err].
  - assert (Hcase : (w' = w1 ∧ res = Err err) ∨
      commit_loop others tries e (partition_of e) w1 = (w', res)).
    { destruct err; first [by left; injection Hr as <- <-|by right]. }
    destruct Hcase as [[-> ->]|Hloop].
    + split; [done|]. intros Hinv Hlen. destruct (Hn Hinv Hlen) as [Hs Hne]. split; [done|by destruct err].
    + destruct (IH _ Hloop) as [Hp' Hrest]. split; [by etrans|]. intros Hinv Hlen.
      destruct (Hn Hinv) as [Hs _]; [apply prefix_length in Hp'; lia|].
      destruct (Hrest (proj2 (ledger_steps_rows _ _ Hs) Hinv) Hlen) as [Hs' Hres].
      split; [by eapply star_trans|done].
Qed.

Lemma commit_event_run e w w' res :
  commit_event others e w = (w', res) →
  (star ledger_step w w' ∧ rows w' = rows w ∧ archived w' = archived w ∧ res = Err LedgerStoreUnavailable) ∨
  (∃ r, find_event (event_id e) (rows w) = Some r ∧ rows w' = rows w ∧ archived w' = archived w ∧
     star ledger_step w w' ∧ res = Ok (AlreadyRecorded (proof_of r))) ∨
  (∃ w1, find_event (event_id e) (rows w) = None ∧ rows w1 = rows w ∧ star ledger_step w w1 ∧
     commit_loop others (MAX_APPEND_RETRIES - 1) e (partition_of e) w1 = (w', res)).
Proof.
  intros Hc. unfold commit_event, ledger_lookup in Hc. rewrite !act_bind_run, store_run in Hc.
  assert (H1 : star ledger_step w (set_faults (tail (faults w)) w)).
  { apply one_step. pose proof (l_read w LedgerStoreUnavailable) as Hx. by rewrite store_run in Hx. }
  destruct (next_fault w) eqn:Hf; [left; injection Hc as <- <-; done|right].
  unfold gets in Hc. simpl in Hc. destruct (find_event _ _) as [r|] eqn:Hfind.
  - left. exists r. injection Hc as <- <-. done.
  - right. eexists. split; [done|]. split; [|split; [exact H1|exact Hc]]. done.
Qed.

(** C34. A commit records an event exactly once, and says which.  In a ledger that was
    empty at first, however other writers interfere and whatever call fails: a [Committed]
    answer carries the proof of a record of exactly this event that is in the ledger and in
    the archive, had no record before and has no other now; an [AlreadyRecorded] answer
    carries the proof of the record with this event id that was there, and nothing was
    written; and when the archive fails the record is in the ledger all the same. *)
Theorem commit_is_exactly_once (e : AuditEvent) (w w' : Ledger) (res : result AuditError CommitOutcome) :
  star ledger_step empty_ledger w → Z.of_nat (length (rows w')) ≤ u64_max →
  commit_event others e w = (w', res) →
  match res with
  | Ok (Committed p) => ∃ r, p = proof_of r ∧ event r = e ∧ r ∈ rows w' ∧ r ∈ archived w' ∧
      (∀ x, x ∈ rows w → event_id (event x) ≠ event_id e) ∧
      (∀ x, x ∈ rows w' → event_id (event x) = event_id e → x = r)
  | Ok (AlreadyRecorded p) => ∃ r, p = proof_of r ∧ event_id (event r) = event_id e ∧ r ∈ rows w ∧
      rows w' = rows w ∧ archived w' = archived w
  | Err ArchiveUnavailable => ∃ r, r ∈ rows w' ∧ event r = e
  | Err _ => True
  end.
Proof.
  intros H0 Hlen Hc. pose proof (proj2 (ledger_steps_rows _ _ H0) empty_inv) as Hinv.
  apply commit_event_run in Hc as [(_ & _ & _ & ->)|[(r & Hf & Hr & Ha & _ & ->)|(w1 & Hf & Hr & Hs & Hl)]]; [done| |].
  { apply find_event_some in Hf as [Hin Hid]. exists r. done. }
  assert (Hinv1 : ledger_inv w1) by (by apply (ledger_inv_same w)).
  apply commit_loop_run in Hl as [_ Hl]. destruct (Hl Hinv1 Hlen) as [Hs' Hres].
  destruct res as [[p|p]|err]; [|done|by destruct err].
  destruct Hres as (r & Hin & Har & He & _ & ->). exists r. split_and!; try done.
  - intros x Hx Hid. apply (find_event_none _ _ Hf), list_elem_of_fmap. eauto.
  - intros x Hx Hid. apply (ledger_steps_rows _ _ Hs') in Hinv1 as [_ Hnd].
    apply list_elem_of_lookup in Hin as [i Hi]. apply list_elem_of_lookup in Hx as [j Hj].
    assert (i = j) as ->; [|congruence]. eapply NoDup_lookup; [exact Hnd| |];
      rewrite list_lookup_fmap; [by rewrite Hi|]. rewrite Hj. simpl. by rewrite Hid, <- He.
Qed.

(** A record that missed the archive is never archived by redelivery.  When a
    commit fails because the archive is down, its record is in the ledger; whatever
    happens next, any later commit of the same event that returns reports a duplicate
    and writes nothing to the archive. *)
Theorem missed_archive_is_not_retried (e : AuditEvent) (w w1 w2 w3 : Ledger) (out : CommitOutcome) :
  star ledger_step empty_ledger w → Z.of_nat (length (rows w1)) ≤ u64_max →
  commit_event others e w = (w1, Err ArchiveUnavailable) → star ledger_step w1 w2 →
  commit_event others e w2 = (w3, Ok out) →
  is_duplicate out = true ∧ archived w3 = archived w2.
Proof.
  intros H0 Hlen Hc1 Hs Hc2. pose proof (proj2 (ledger_steps_rows _ _ H0) empty_inv) as Hinv.
  apply commit_event_run in Hc1 as [(_ & _ & _ & [=])|[(? & _ & _ & _ & _ & [=])|(wl & _ & Hr & _ & Hl)]].
  apply commit_loop_run in Hl as [_ Hl].
  destruct (Hl (ledger_inv_same _ _ Hr Hinv) Hlen) as [_ (r & Hin & He)].
  destruct (ledger_steps_rows _ _ Hs) as [[l Hl2] _].
  apply commit_event_run in Hc2 as [(_ & _ & _ & [=])|[(? & _ & _ & Ha & _ & [= ->])|(? & Hf & _)]]; [done|].
  exfalso. apply (find_event_none _ _ Hf), list_elem_of_fmap. exists r. rewrite He, Hl2. set_solver.
Qed.
End Commit.

(** ** Erasure *)

Lemma verify_chain_marked l h :
  verify_chain h ((λ r, (mark_pii_erased r).1) <$> l) = verify_chain h l.
Proof.
  revert h. induction l as [|r l IH]; intros h; [done|]. cbn [fmap list_fmap verify_chain].
  assert (Hv : verify (mark_pii_erased r).1 h = verify r h)
    by (unfold mark_pii_erased; by destruct (has_pii _)).
  rewrite Hv. destruct (verify r h); [apply IH|done].
Qed.

(** Erasure honours holds and keeps the evidence.  A crypto-shred under an active
    hold on the subject is refused and destroys nothing; otherwise, when the vault
    answers, the key is gone for good; either way no ledger row, archive object or
    anchor changes.  Marking any records erased leaves every verification of the chain
    as it was, and a marked record's envelope can no longer be read. *)
Theorem erasure_keeps_evidence (subject key_ref : string) (holds : list LegalHold) (w w' : Ledger)
    (res : result AuditError unit) (l : list AuditRecord) (h : ChainHead) (r : AuditRecord) :
  shred subject key_ref holds w = (w', res) →
  ((∃ hold, hold ∈ holds ∧ covers hold subject (clock w) = true) →
     res = Err (ShredBlockedByLegalHold subject) ∧ w' = w) ∧
  (res = Ok tt → subject_keys w' !! key_ref = None ∧
     (∀ hold, hold ∈ holds → covers hold subject (clock w) = false)) ∧
  (∀ k, k ≠ key_ref → subject_keys w' !! k = subject_keys w !! k) ∧
  rows w' = rows w ∧ archived w' = archived w ∧ anchors w' = anchors w ∧
  verify_chain h ((λ r, (mark_pii_erased r).1) <$> l) = verify_chain h l ∧
  is_ok (read_pii (mark_pii_erased r).1) = false.
Proof.
  intros Hs. unfold shred, gets in Hs. rewrite !act_bind_run in Hs.
  unfold authorize_erasure in Hs. rewrite verify_chain_marked.
  assert (Hread : is_ok (read_pii (mark_pii_erased r).1) = false).
  { unfold mark_pii_erased, read_pii, has_pii. case_bool_decide as Hp; [done|]. simpl.
    destruct (pii_erased r); [done|]. destruct (pii (event r)); [|done]. exfalso. eauto. }
  destruct (existsb _ holds) eqn:Hex.
  { injection Hs as <- <-. split_and!; done. }
  assert (Hno : ∀ hold, hold ∈ holds → covers hold subject (clock w) = false).
  { intros hold Hin. apply not_true_is_false. intros Hc.
    apply not_true_iff_false in Hex. apply Hex, existsb_exists.
    exists hold. by rewrite <- list_elem_of_In. }
  assert (Hblock : (∃ hold, hold ∈ holds ∧ covers hold subject (clock w) = true) →
    res = Err (ShredBlockedByLegalHold subject) ∧ w' = w).
  { intros (hold & Hin & Hc). by rewrite Hno in Hc. }
  unfold lift, destroy_subject_key in Hs. rewrite act_bind_run, store_run in Hs.
  destruct (next_fault w); injection Hs as <- <-; simpl;
    split_and!; try done; [intros _; split; [apply lookup_delete_eq|done]|intros k Hk; by rewrite lookup_delete_ne].
Qed.
End LedgerFacts.
