(* ===== verification/AuditGlobal.v ===== *)
(** * Audit: the global check

    The anchored root is over the partition heads at one instant.  It verifies against
    that ledger and no other: even an honest append after the checkpoint makes the
    global check report a divergence. *)

From S2P Require Import Prelude AuditChain AuditProofs AuditLedger AuditLedgerProofs.
Local Open Scope Z_scope.

Section Global.
Context `{Sha256}.

(** ** The sorted heads *)

Lemma insert_head_perm x l : insert_head x l ≡ₚ x :: l.
Proof.
  induction l as [|y l IH]; simpl; [done|]. destruct (String.leb _ _); [done|].
  rewrite IH. by constructor.
Qed.

Lemma sort_heads_perm l : sort_heads l ≡ₚ l.
Proof. induction l as [|x l IH]; simpl; [done|]. by rewrite insert_head_perm, IH. Qed.

Lemma elem_of_insert_key k x l : x ∈ insert_key k l ↔ x = k ∨ x ∈ l.
Proof.
  induction l as [|y l IH]; simpl; [set_solver|].
  destruct (String.eqb_spec k y) as [->|]; [set_solver|]. destruct (String.leb _ _); set_solver.
Qed.

Lemma elem_of_keys x l : x ∈ foldr insert_key [] l ↔ x ∈ l.
Proof. induction l as [|y l IH]; simpl; [done|]. rewrite elem_of_insert_key, IH. set_solver. Qed.

(** A partition has a head row exactly when it has records. *)
Lemma elem_of_heads p h w :
  (p, h) ∈ heads_of w ↔ h = head_hash (head_of p w) ∧ ∃ r, r ∈ rows w ∧ partition r = p.
Proof.
  unfold heads_of. rewrite list_elem_of_fmap. setoid_rewrite elem_of_keys.
  setoid_rewrite list_elem_of_fmap. split.
  - intros (q & [= -> ->] & (r & -> & Hin)). eauto.
  - intros (-> & r & Hin & <-). eauto.
Qed.

Definition head_ok (ph : string * string) : Prop := str_ok ph.1 ∧ str_ok ph.2.

(** Rows whose strings fit their length prefixes. *)
Definition row_ok (r : AuditRecord) : Prop :=
  record_ok r ∧ str_ok (partition r) ∧ str_ok (record_hash (link r)).

Lemma root_bytes_perm l1 l2 :
  Forall head_ok l1 → Forall head_ok l2 →
  Z.of_nat (length l1) < 2 ^ 64 → Z.of_nat (length l2) < 2 ^ 64 →
  root_bytes l1 = root_bytes l2 → l1 ≡ₚ l2.
Proof.
  intros H1 H2 Hl1 Hl2 He. unfold root_bytes in He. rewrite !foldl_put_pairs in He.
  unfold put_u64 in He. cbn [app] in He.
  rewrite <- (app_nil_r (concat _)), <- (app_nil_r (concat (enc_pair <$> sort_heads l2))) in He.
  apply le_bytes_prefix in He as [Hlen He]; [|unfold u64_ok; lia..].
  apply (concat_prefix (λ kv, str_ok kv.1 ∧ str_ok kv.2) enc_pair) in He as [He _].
  - by rewrite <- (sort_heads_perm l1), He, (sort_heads_perm l2).
  - by rewrite sort_heads_perm.
  - by rewrite sort_heads_perm.
  - rewrite (Permutation_length (sort_heads_perm l1)), (Permutation_length (sort_heads_perm l2)). lia.
Qed.

Lemma head_of_last p w r l :
  ledger_inv w → Z.of_nat (length (rows w)) ≤ u64_max →
  in_partition p (rows w) = l ++ [r] →
  head_of p w = head_apply (link r) ∧ ∃ g, verify_chain genesis l = Ok g ∧
    verify r g = Ok (head_of p w) ∧ head_sequence (head_of p w) = Z.of_nat (S (length l)).
Proof.
  intros Hinv Hlen Hp. pose proof (head_of_chain p w Hinv Hlen) as Hh.
  pose proof (partition_length p w) as Hpl. apply genesis_sequence in Hh as Hseq; [|lia].
  rewrite Hp in Hh, Hseq. rewrite length_app in Hseq. simpl in Hseq.
  apply verify_chain_snoc in Hh as (g & Hg & Hr). apply verify_ok in Hr as Heq.
  destruct Heq as (_ & _ & _ & Heq). split; [done|]. exists g. split_and!; (done || lia).
Qed.

Lemma rows_ok_head_ok w :
  ledger_inv w → Z.of_nat (length (rows w)) ≤ u64_max →
  Forall row_ok (rows w) → Forall head_ok (heads_of w).
Proof.
  intros Hinv Hlen Hok. rewrite Forall_forall in Hok. apply Forall_forall. intros [p h] Hin.
  apply list_elem_of_In, elem_of_heads in Hin as (-> & r & Hr & <-).
  assert (Hall : ∀ x, x ∈ rows w → row_ok x) by (intros x Hx; apply Hok; by apply list_elem_of_In).
  split; simpl; [by apply Hall|].
  destruct (in_partition (partition r) (rows w)) as [|x l _] eqn:Hp using rev_ind.
  { assert (r ∈ in_partition (partition r) (rows w)) by (by apply list_elem_of_filter).
    rewrite Hp in *. set_solver. }
  destruct (head_of_last _ _ _ _ Hinv Hlen Hp) as [-> _]. simpl. apply Hall.
  assert (Hx : x ∈ in_partition (partition r) (rows w)) by (rewrite Hp; set_solver).
  by apply list_elem_of_filter in Hx as [_ ?].
Qed.

(** Two records of the ledgers, or the two roots, are hashed from different bytes to one
    digest. *)
Definition ledgers_collide (w1 w2 : Ledger) : Prop :=
  (∃ r1 r2, r1 ∈ rows w1 ∧ r2 ∈ rows w2 ∧ collide (hashed r1) (hashed r2)) ∨
  collide (root_bytes (heads_of w1)) (root_bytes (heads_of w2)).

(** Two heads with one hash have one sequence. *)
Lemma head_hash_sequence p w1 w2 :
  ledger_inv w1 → ledger_inv w2 → Z.of_nat (length (rows w1)) ≤ u64_max →
  Z.of_nat (length (rows w2)) ≤ u64_max → Forall row_ok (rows w1) → Forall row_ok (rows w2) →
  in_partition p (rows w1) ≠ [] → in_partition p (rows w2) ≠ [] →
  head_hash (head_of p w1) = head_hash (head_of p w2) →
  length (in_partition p (rows w1)) = length (in_partition p (rows w2)) ∨ ledgers_collide w1 w2.
Proof.
  intros Hi1 Hi2 Hl1 Hl2 Ho1 Ho2 Hn1 Hn2 Hh. rewrite Forall_forall in Ho1, Ho2.
  destruct (in_partition p (rows w1)) as [|r1 l1 _] eqn:Hp1 using rev_ind; [done|].
  destruct (in_partition p (rows w2)) as [|r2 l2 _] eqn:Hp2 using rev_ind; [done|].
  assert (Hin1 : r1 ∈ rows w1).
  { assert (Hx : r1 ∈ in_partition p (rows w1)) by (rewrite Hp1; set_solver).
    by apply list_elem_of_filter in Hx as [_ ?]. }
  assert (Hin2 : r2 ∈ rows w2).
  { assert (Hx : r2 ∈ in_partition p (rows w2)) by (rewrite Hp2; set_solver).
    by apply list_elem_of_filter in Hx as [_ ?]. }
  assert (Hr1 : row_ok r1) by (by apply Ho1, list_elem_of_In).
  assert (Hr2 : row_ok r2) by (by apply Ho2, list_elem_of_In).
  destruct (head_of_last _ _ _ _ Hi1 Hl1 Hp1) as (He1 & g1 & _ & Hv1 & Hs1).
  destruct (head_of_last _ _ _ _ Hi2 Hl2 Hp2) as (He2 & g2 & _ & Hv2 & Hs2).
  rewrite He1 in Hv1, Hs1, Hh. rewrite He2 in Hv2, Hs2, Hh. simpl in Hh, Hs1, Hs2.
  apply verify_ok in Hv1 as (_ & Hq1 & Hd1 & _). apply verify_ok in Hv2 as (_ & Hq2 & Hd2 & _).
  rewrite <- Hd1, <- Hd2 in Hh. unfold link_hash in Hh. apply digest_inj in Hh as [Hb|Hcol];
    [left|right; left; exists r1, r2; unfold hashed; by rewrite Hq1, Hq2].
  pose proof (partition_length p w1) as Hpl1. pose proof (partition_length p w2) as Hpl2.
  rewrite Hp1, length_app in Hpl1. rewrite Hp2, length_app in Hpl2. simpl in Hpl1, Hpl2.
  destruct Hr1 as [[Hev1 Hpr1] _]. destruct Hr2 as [[Hev2 Hpr2] _].
  apply link_bytes_inj in Hb as (_ & _ & Hseq); [|congruence|congruence|apply Hev1|apply Hev2|..].
  - rewrite !length_app. simpl. lia.
  - unfold u64_ok, u64_max in *. lia.
  - unfold u64_ok, u64_max in *. lia.
Qed.

(** An anchored root accepts no ledger but its own.  Take a checkpoint of a ledger
    and let any further record be appended, honestly, by any writer: the checkpoint no
    longer verifies, so the global check reports a checkpoint divergence until the next
    checkpoint is anchored (or the bytes hashed for two of the records at hand, or for
    the two roots, are a SHA-256 collision). *)
Theorem growth_is_reported_as_divergence (w w' w'' : Ledger) (created : Z)
    (res : result AuditError IntegrityReport) :
  star ledger_step empty_ledger w → star ledger_step w w' → rows w ≠ rows w' →
  Z.of_nat (length (rows w')) ≤ u64_max → Forall row_ok (rows w') →
  latest_of (anchors w') = Some (checkpoint_over (heads_of w) created) →
  verify_global w' = (w'', res) →
  (∀ report, res = Ok report → status report = CheckpointDivergence) ∨ ledgers_collide w w'.
Proof.
  intros H0 Hs Hgrow Hlen Hok Hlatest Hver.
  destruct (ledger_steps_rows _ _ H0) as [_ Hi]. pose proof (Hi empty_inv) as Hinv.
  destruct (ledger_steps_rows _ _ Hs) as [[more Hrows] Hi']. pose proof (Hi' Hinv) as Hinv'.
  destruct more as [|r more]; [by rewrite app_nil_r in Hrows|].
  assert (Hlen0 : Z.of_nat (length (rows w)) ≤ u64_max) by (rewrite Hrows, length_app in Hlen; lia).
  assert (Hok0 : Forall row_ok (rows w)) by (rewrite Hrows in Hok; by apply Forall_app in Hok as [? _]).
  assert (Hkeys : ∀ l, (length (foldr insert_key [] l) ≤ length l)%nat).
  { assert (Hi1 : ∀ k l, (length (insert_key k l) ≤ S (length l))%nat).
    { intros k l. induction l as [|y l IH]; simpl; [lia|].
      destruct (String.eqb _ _); simpl; [lia|]. destruct (String.leb _ _); simpl; lia. }
    intros l. induction l as [|y l IH]; simpl; [lia|]. pose proof (Hi1 y (foldr insert_key [] l)). lia. }
  assert (Hdiff : verify_against (checkpoint_over (heads_of w) created) (heads_of w')
                  = Err CheckpointVerificationFailed ∨ ledgers_collide w w').
  { unfold verify_against, checkpoint_over. simpl. case_bool_decide as Hroot; [|by left]. simpl.
    unfold compute_root in Hroot. symmetry in Hroot. apply digest_inj in Hroot as [Hb|Hcol]; [|by right; right].
    symmetry in Hb. right.
    apply root_bytes_perm in Hb; [|by apply rows_ok_head_ok|by apply rows_ok_head_ok|
      unfold heads_of; rewrite length_fmap; unfold u64_max in *;
      match goal with |- context [foldr insert_key [] ?l] => pose proof (Hkeys l) as Hk end;
      rewrite length_fmap in Hk; lia..].
    assert (Hin' : (partition r, head_hash (head_of (partition r) w')) ∈ heads_of w').
    { apply elem_of_heads. split; [done|]. exists r. split; [rewrite Hrows; set_solver|done]. }
    rewrite Hb in Hin'. apply elem_of_heads in Hin' as (Hh & x & Hx & Hpx).
    assert (Hlt : (length (in_partition (partition r) (rows w)) <
                   length (in_partition (partition r) (rows w')))%nat).
    { rewrite Hrows. unfold in_partition. rewrite list.filter_app, length_app.
      rewrite filter_cons_True by done. simpl. lia. }
    destruct (head_hash_sequence (partition r) w w') as [Heq|]; try done; [| |lia].
    - intros Hnil. assert (Hc : x ∈ in_partition (partition r) (rows w)) by (by apply list_elem_of_filter).
      rewrite Hnil in Hc. set_solver.
    - intros Hnil. rewrite Hnil in Hlt. simpl in Hlt. lia. }
  destruct Hdiff as [Hdiff|]; [left|by right]. intros report ->.
  unfold verify_global, partition_heads in Hver. rewrite !act_bind_run, store_run in Hver.
  destruct (next_fault w'); [done|]. unfold gets, latest_anchored in Hver.
  rewrite act_bind_run, store_run in Hver. destruct (next_fault _); [done|]. simpl in Hver.
  change (heads_of (set_faults _ w')) with (heads_of w') in Hver.
  rewrite Hlatest, Hdiff in Hver. by injection Hver as _ <-.
Qed.
End Global.

(** ** Witnesses

    With the identity for SHA-256, which has no collision. *)

#[export] Instance demo_sha : Sha256 := λ bs, bs.

Definition demo_event (id : string) : AuditEvent := {|
  event_id := id; category := PrivilegedAction; subject := Some "s1"; tenant := Some "t";
  actor := {| actor_type := AdminActor; actor_pseudonym := "adm"; session_ref := "" |};
  action := "hold"; resource := {| resource_type := "subject"; resource_id := "s1" |};
  outcome := Executed; lawful_basis := Unspecified; source_service := "audit";
  correlation_id := ""; occurred_at := 1500000;
  pii := Some {| subject_key_ref := "k"; ciphertext := []; nonce := []; algorithm := "a" |};
  attributes := [("a", "b")] |}.

Definition nobody : nat → Ledger → Ledger := λ _ w, w.

Lemma nobody_steps i w : star ledger_step w (nobody i w).
Proof. apply star_refl. Qed.

(** One event committed, then a second. *)
Definition first_commit := commit_event nobody (demo_event "e1") empty_ledger.
Definition second_commit := commit_event nobody (demo_event "e2") first_commit.1.

Lemma run_steps e w w' res :
  star ledger_step empty_ledger w → Z.of_nat (length (rows w')) ≤ u64_max →
  commit_event nobody e w = (w', res) → star ledger_step w w'.
Proof.
  intros H0 Hlen Hc. pose proof (proj2 (ledger_steps_rows _ _ H0) empty_inv) as Hinv.
  apply (commit_event_run nobody) in Hc as
    [(Hs & _)|[(r & _ & _ & _ & Hs & _)|(w1 & _ & Hr & Hs & Hl)]]; [exact Hs|exact Hs|].
  eapply star_trans; [exact Hs|]. apply (commit_loop_run nobody nobody_steps) in Hl as [_ Hl].
  by apply Hl; [apply (ledger_inv_same w)|].
Qed.

Lemma first_steps : star ledger_step empty_ledger first_commit.1.
Proof.
  destruct first_commit as [w1 res] eqn:Hc. simpl.
  apply (run_steps (demo_event "e1") empty_ledger w1 res); [apply star_refl| |exact Hc].
  assert (Hl : (length (rows first_commit.1) ≤ 1)%nat) by (by vm_compute).
  rewrite Hc in Hl. simpl in Hl. unfold u64_max. lia.
Qed.

Lemma second_steps : star ledger_step first_commit.1 second_commit.1.
Proof.
  destruct second_commit as [w2 res] eqn:Hc. simpl.
  apply (run_steps (demo_event "e2") first_commit.1 w2 res); [apply first_steps| |exact Hc].
  assert (Hl : (length (rows second_commit.1) ≤ 2)%nat) by (by vm_compute).
  rewrite Hc in Hl. simpl in Hl. unfold u64_max. lia.
Qed.

(** Closed length bounds. *)
Lemma bytes_ok_by v : Z.of_nat (length v) <? 2 ^ 64 = true → bytes_ok v.
Proof. intros Hv. by apply Z.ltb_lt. Qed.
Ltac short := first [apply bytes_ok_by; vm_compute; reflexivity].

Lemma demo_event_ok id : id = "e1" ∨ id = "e2" → event_ok (demo_event id).
Proof.
  intros Hid. split.
  - destruct Hid as [-> | ->]; short.
  - intros s [= <-]. short.
  - intros s [= <-]. short.
  - split; short.
  - short.
  - split; short.
  - split; short.
  - split; vm_compute; congruence.
  - intros p [= <-]. split_and!; short.
  - repeat constructor; short.
  - vm_compute. reflexivity.
  - destruct Hid as [-> | ->]; short.
Qed.

Lemma canonical_bytes_injective_witness :
  event_ok (demo_event "e1") ∧ at_millis (demo_event "e1") = at_millis (demo_event "e1").
Proof.
  assert (Hok : event_ok (demo_event "e1")) by (apply demo_event_ok; auto).
  split; [exact Hok|].
  apply (canonical_bytes_injective (demo_event "e1") (demo_event "e1") Hok Hok). reflexivity.
Defined.

Definition demo_record : AuditRecord := (append (demo_event "e1") "t:8" genesis 0).1.

Lemma demo_record_ok : record_ok demo_record.
Proof. split; [by apply demo_event_ok; left|short]. Qed.

#[local] Instance event_fields : Fields AuditEvent := λ e, {|
  event_id := event_id e; category := category e; subject := subject e; tenant := tenant e;
  actor := actor e; action := action e; resource := resource e; outcome := outcome e;
  lawful_basis := lawful_basis e; source_service := source_service e;
  correlation_id := correlation_id e; occurred_at := occurred_at e; pii := pii e;
  attributes := attributes e |}.

(** The same event a microsecond later in the same millisecond. *)
Definition later_record : AuditRecord := {|
  event := demo_event "e1" <| occurred_at := 1500007 |>; partition := partition demo_record;
  link := link demo_record; recorded_at := 5; pii_erased := true |}.

(** The same event about another subject. *)
Definition forged_record : AuditRecord := {|
  event := demo_event "e1" <| subject := Some "s2" |>; partition := partition demo_record;
  link := link demo_record; recorded_at := 0; pii_erased := false |}.

Lemma later_record_ok : record_ok later_record.
Proof.
  destruct demo_record_ok as [Hok Hp]. split; [|exact Hp].
  destruct Hok. split; try assumption.
Qed.

Lemma head_pins_history_witness :
  ∃ h, verify_chain genesis [demo_record] = Ok h ∧ verify_chain genesis [later_record] = Ok h ∧
    demo_record ≠ later_record ∧ Forall2 same_record [demo_record] [later_record] ∧
    is_ok (verify_chain genesis [forged_record]) = false.
Proof.
  destruct (verify_chain genesis [demo_record]) as [h|e] eqn:Hv; [|by vm_compute in Hv].
  assert (Hv' : verify_chain genesis [later_record] = Ok h) by (rewrite <- Hv; vm_compute; reflexivity).
  exists h. split_and!; [done|done|by intros [=]| |vm_compute; reflexivity].
  destruct (head_pins_history [demo_record] [later_record] h) as [Hsame|(i & r1 & r2 & _ & _ & Hne & Heq)];
    [by constructor; [apply demo_record_ok|]|by constructor; [apply later_record_ok|]|
     vm_compute; congruence|vm_compute; congruence|exact Hv|exact Hv'|exact Hsame|].
  exfalso. by apply Hne.
Defined.

Lemma row_bound w n : (length (rows w) ≤ n)%nat → Z.of_nat n ≤ u64_max → Z.of_nat (length (rows w)) ≤ u64_max.
Proof. lia. Qed.

Lemma ledger_always_verifies_witness :
  ∃ report, (verify_partition "t:8" second_commit.1).2 = Ok report ∧ status report = Verified ∧
    verified_through report = 2.
Proof.
  destruct (verify_partition "t:8" second_commit.1) as [w' res] eqn:Hv.
  assert (Hlen : Z.of_nat (length (rows second_commit.1)) ≤ u64_max) by (vm_compute; congruence).
  destruct (ledger_always_verifies first_commit.1 second_commit.1 w' "t:8" res
    first_steps second_steps Hlen Hv) as ([Hres|Hres] & _).
  - exists (verified 2). rewrite Hres. split_and!; [|done|done].
    do 2 f_equal.
  - exfalso. assert (Hok : is_ok (verify_partition "t:8" second_commit.1).2 = true)
      by (vm_compute; reflexivity). by rewrite Hv, Hres in Hok.
Defined.

Lemma commit_is_exactly_once_witness :
  ∃ p r, second_commit.2 = Ok (Committed p) ∧ p = proof_of r ∧ r ∈ archived second_commit.1.
Proof.
  pose proof (commit_is_exactly_once nobody nobody_steps (demo_event "e2") first_commit.1
    second_commit.1 second_commit.2 first_steps) as Hc.
  assert (Hlen : Z.of_nat (length (rows second_commit.1)) ≤ u64_max) by (vm_compute; congruence).
  specialize (Hc Hlen (surjective_pairing _)).
  assert (Hnew : match second_commit.2 with Ok (Committed _) => true | _ => false end = true)
    by (vm_compute; reflexivity).
  destruct second_commit.2 as [[p|p]|e]; [|done|done].
  destruct Hc as (r & Hp & _ & _ & Har & _). eauto.
Defined.

(** The archive is down for the first event; its redelivery is a duplicate and the
    archive stays empty. *)
Definition archive_down : Ledger := set_faults [false; false; false; true] empty_ledger.
Definition lost_commit := commit_event nobody (demo_event "e1") archive_down.
Definition redelivery := commit_event nobody (demo_event "e1") lost_commit.1.

Lemma missed_archive_is_not_retried_witness :
  lost_commit.2 = Err ArchiveUnavailable ∧ length (rows lost_commit.1) = 1%nat ∧
  is_ok redelivery.2 = true ∧ archived redelivery.1 = [].
Proof.
  assert (H0 : star ledger_step empty_ledger archive_down) by (apply one_step, l_faults).
  assert (Hlen : Z.of_nat (length (rows lost_commit.1)) ≤ u64_max) by (vm_compute; congruence).
  assert (Hlost : lost_commit.2 = Err ArchiveUnavailable) by (vm_compute; reflexivity).
  assert (Hok : is_ok redelivery.2 = true) by (vm_compute; reflexivity).
  assert (Har : archived lost_commit.1 = []) by (vm_compute; reflexivity).
  split_and!; [exact Hlost|vm_compute; reflexivity|exact Hok|].
  destruct redelivery as [w3 [out|e]] eqn:Hr; [|done].
  unfold redelivery in Hr. destruct lost_commit as [w1 res] eqn:Hl. simpl in *. subst res.
  destruct (missed_archive_is_not_retried nobody nobody_steps (demo_event "e1") archive_down w1 w1 w3 out
    H0 Hlen Hl (star_refl _ _) Hr) as [_ ->]. exact Har.
Defined.

(** A hold on the subject refuses the shred; without it the key goes. *)
Definition keyed_ledger : Ledger := 
  set_keys {["k" := {| created_at_ms := 0; wrapped_dek := None; wrap_nonce := None |}]} empty_ledger.

Lemma erasure_keeps_evidence_witness :
  shred "s1" "k" [placed "h" "s1" 0] keyed_ledger
    = (keyed_ledger, Err (ShredBlockedByLegalHold "s1")) ∧
  subject_keys (shred "s1" "k" [] keyed_ledger).1 !! "k" = None.
Proof.
  split.
  - destruct (shred "s1" "k" [placed "h" "s1" 0] keyed_ledger) as [w' res] eqn:Hs.
    destruct (erasure_keeps_evidence "s1" "k" [placed "h" "s1" 0] keyed_ledger w' res [] genesis
      demo_record Hs) as [Hheld _].
    destruct Hheld as [-> ->]; [|done]. exists (placed "h" "s1" 0). split; [by left|reflexivity].
  - destruct (shred "s1" "k" [] keyed_ledger) as [w' res] eqn:Hs. simpl.
    destruct (erasure_keeps_evidence "s1" "k" [] keyed_ledger w' res [] genesis demo_record Hs)
      as (_ & Hgone & _). apply Hgone. assert (Hok : is_ok (shred "s1" "k" [] keyed_ledger).2 = true)
      by reflexivity. rewrite Hs in Hok. by destruct res as [[]|].
Defined.

(** A checkpoint over the ledger after the first event, anchored after the second. *)
Definition anchored : Ledger :=
  (anchor (checkpoint_over (heads_of first_commit.1) 0) second_commit.1).1.

Definition demo_second : AuditRecord :=
  (append (demo_event "e2") "t:8" (head_apply (link demo_record)) 0).1.

Lemma anchored_rows : rows anchored = [demo_record; demo_second].
Proof. vm_compute. reflexivity. Qed.

Lemma anchored_rows_ok : Forall row_ok (rows anchored).
Proof.
  rewrite anchored_rows. constructor; [|constructor; [|constructor]].
  - split; [apply demo_record_ok|split; short].
  - split; [split; [by apply demo_event_ok; right|short]|split; short].
Qed.

Lemma growth_is_reported_as_divergence_witness :
  ∃ report, (verify_global anchored).2 = Ok report ∧
    (status report = CheckpointDivergence ∨ ledgers_collide first_commit.1 anchored).
Proof.
  assert (Hs : star ledger_step first_commit.1 anchored).
  { eapply star_trans; [apply second_steps|]. apply one_step, l_anchor. }
  assert (Hgrow : rows first_commit.1 ≠ rows anchored).
  { intros He. apply (f_equal length) in He. vm_compute in He. lia. }
  assert (Hlen : Z.of_nat (length (rows anchored)) ≤ u64_max) by (vm_compute; congruence).
  assert (Hlatest : latest_of (anchors anchored) = Some (checkpoint_over (heads_of first_commit.1) 0))
    by (vm_compute; reflexivity).
  assert (Hok : is_ok (verify_global anchored).2 = true) by (vm_compute; reflexivity).
  destruct (verify_global anchored) as [w'' res] eqn:Hv.
  pose proof (growth_is_reported_as_divergence first_commit.1 anchored w'' 0 res first_steps Hs Hgrow
    Hlen anchored_rows_ok Hlatest Hv) as Hdiv.
  destruct res as [report|e]; [|done]. exists report. split; [done|].
  destruct Hdiv as [Hdiv|]; [left; by apply Hdiv|by right].
Defined.
