(* ===== verification/Counter.v ===== *)
(** * Counter analytics: the domain

    Models [crates/services/counter/src/domain], the event decoders of
    [infrastructure/decode] and the error type: metrics and entities, tumbling
    windows, observations, the windowed pre-aggregator and the validated read
    queries.  Instants are [Z] epoch milliseconds, counts 64-bit integers as [Z],
    an [f64] is Rocq's [spec_float] with binary64 rounding.  Whether an [i64]
    timestamp is a representable instant is the chrono crate's decision, the
    class [Chrono]. *)

From Stdlib Require Import SpecFloat.
From stdpp Require Import sorting.
From S2P Require Import Prelude.
Local Open Scope Z_scope.

(** ** Errors *)

Inductive CounterError :=
  | Validation
  | InvalidCounterQuery
  | UnsupportedMetric (metric : string)
  | InvalidTimeRange
  | InvalidTrendingScope (scope : string)
  | WindowAggregationFailed
  | InvalidDelta (metric : string)
  | ProbabilisticError
  | FlushFailed
  | CacheWriteFailed
  | SignalPublishFailed
  | HotStoreUnavailable
  | LedgerUnavailable
  | TimeSeriesUnavailable
  | StoreTimeout
  | ReconciliationFailed
  | DriftThresholdExceeded
  | SourceReplayFailed
  | EventDecodeFailed
  | UnknownEventType
  | UnmappedMetric
  | DomainViolation (field : string)
  | InvalidIdentifier (field : string)
  | EventConsumeFailed.

#[export] Instance CounterError_eq_dec : EqDecision CounterError.
Proof. solve_decision. Defined.

(** [validation::ValidationError] is not retryable either. *)
Definition is_retryable (e : CounterError) : bool :=
  match e with
  | FlushFailed | CacheWriteFailed | SignalPublishFailed | HotStoreUnavailable
  | LedgerUnavailable | TimeSeriesUnavailable | StoreTimeout | SourceReplayFailed => true
  | _ => false
  end.

(** ** Metrics and entities *)

Inductive MetricKind := Exact | Approximate.
Inductive Aggregation := Sum | Cardinality.
Inductive Metric :=
  | View | Impression | Click | Like | Share | Comment | Follower | Following
  | UniqueViewer | Reach.

#[export] Instance MetricKind_eq_dec : EqDecision MetricKind.
Proof. solve_decision. Defined.
#[export] Instance Aggregation_eq_dec : EqDecision Aggregation.
Proof. solve_decision. Defined.
#[export] Instance Metric_eq_dec : EqDecision Metric.
Proof. solve_decision. Defined.

Definition ALL : list Metric :=
  [View; Impression; Click; Like; Share; Comment; Follower; Following; UniqueViewer; Reach].

Definition metric_str (m : Metric) : string :=
  match m with
  | View => "view" | Impression => "impression" | Click => "click" | Like => "like"
  | Share => "share" | Comment => "comment" | Follower => "follower"
  | Following => "following" | UniqueViewer => "unique_viewer" | Reach => "reach"
  end.

Definition metric_try_from_str (s : string) : result CounterError Metric :=
  ok_or (list_find (λ m, metric_str m = s) ALL ≫= λ im, Some im.2) (UnsupportedMetric s).

Definition kind (m : Metric) : MetricKind :=
  match m with
  | Like | Share | Comment | Follower | Following => Exact
  | View | Impression | Click | UniqueViewer | Reach => Approximate
  end.

Definition aggregation (m : Metric) : Aggregation :=
  match m with UniqueViewer | Reach => Cardinality | _ => Sum end.

(** [CommentEntity] is [EntityKind::Comment]. *)
Inductive EntityKind := Post | Profile | Media | Hashtag | CommentEntity.

#[export] Instance EntityKind_eq_dec : EqDecision EntityKind.
Proof. solve_decision. Defined.

Definition kind_str (k : EntityKind) : string :=
  match k with
  | Post => "post" | Profile => "profile" | Media => "media" | Hashtag => "hashtag"
  | CommentEntity => "comment"
  end.

Definition kind_try_from_str (s : string) : result CounterError EntityKind :=
  if bool_decide (s = "post") then Ok Post
  else if bool_decide (s = "profile") then Ok Profile
  else if bool_decide (s = "media") then Ok Media
  else if bool_decide (s = "hashtag") then Ok Hashtag
  else if bool_decide (s = "comment") then Ok CommentEntity
  else Err (DomainViolation "entity_type").

(** [EntityId::new] and [MemberId::new]: any string that is not blank. *)
Definition entity_id_new (value : string) : result CounterError string :=
  if trim_is_empty value then Err (InvalidIdentifier "entity_id") else Ok value.
Definition member_id_new (value : string) : result CounterError string :=
  if trim_is_empty value then Err (InvalidIdentifier "member_id") else Ok value.

Record EntityRef := { entity_kind : EntityKind; entity_id : string }.

#[export] Instance EntityRef_eq_dec : EqDecision EntityRef.
Proof. solve_decision. Defined.

(** [decode::entity] *)
Definition entity (k id : string) : result CounterError EntityRef :=
  k ← kind_try_from_str k;
  id ← entity_id_new id;
  mret {| entity_kind := k; entity_id := id |}.

Definition result_option {E A} (r : result E A) : option A :=
  match r with Ok a => Some a | Err _ => None end.

#[export] Program Instance Metric_countable : Countable Metric :=
  inj_countable metric_str (λ s, result_option (metric_try_from_str s)) _.
Next Obligation. by intros []. Qed.

#[export] Program Instance EntityKind_countable : Countable EntityKind :=
  inj_countable kind_str (λ s, result_option (kind_try_from_str s)) _.
Next Obligation. by intros []. Qed.

#[export] Program Instance EntityRef_countable : Countable EntityRef :=
  inj_countable' (λ e, (entity_kind e, entity_id e))
                 (λ p, {| entity_kind := p.1; entity_id := p.2 |}) _.
Next Obligation. by intros []. Qed.

(** ** Windows *)

Definition u64_mul (a b : Z) : Z := (a * b) mod 2 ^ 64.

(** [WindowSize::from_millis] on a [u64]; a size is its milliseconds. *)
Definition window_size_from_millis (millis : Z) : result CounterError Z :=
  if millis =? 0 then Err (DomainViolation "window_ms") else Ok millis.

(** [WindowId::for_event] *)
Definition for_event (size occurred_at : Z) : Z :=
  let millis := if occurred_at <? 0 then 0 else occurred_at in millis / size.

Definition start_millis (window size : Z) : Z := u64_mul window size.
Definition end_millis (window size : Z) : Z := u64_add (start_millis window size) size.

Definition is_closed_at (window size watermark : Z) : bool :=
  let wm := if watermark <? 0 then 0 else watermark in end_millis window size <=? wm.

(** ** Observations *)

Record Observation := {
  obs_entity : EntityRef;
  obs_metric : Metric;
  amount : Z;
  unique_member : option string;
  occurred_at : Z;
}.

(** [Observation::sum] and [Observation::unique]. *)
Definition observation_sum e m amount at_ : result CounterError Observation :=
  if decide (aggregation m ≠ Sum) then Err (InvalidDelta (metric_str m))
  else Ok {| obs_entity := e; obs_metric := m; amount := amount; unique_member := None;
             occurred_at := at_ |}.

Definition observation_unique e m member at_ : result CounterError Observation :=
  if decide (aggregation m ≠ Cardinality) then Err (InvalidDelta (metric_str m))
  else Ok {| obs_entity := e; obs_metric := m; amount := 0; unique_member := Some member;
             occurred_at := at_ |}.

(** ** The windowed pre-aggregator *)

Record WindowKey := { key_entity : EntityRef; key_metric : Metric; key_window : Z }.

#[export] Instance WindowKey_eq_dec : EqDecision WindowKey.
Proof. solve_decision. Defined.
#[export] Program Instance WindowKey_countable : Countable WindowKey :=
  inj_countable' (λ k, (key_entity k, key_metric k, key_window k))
    (λ p, {| key_entity := p.1.1; key_metric := p.1.2; key_window := p.2 |}) _.
Next Obligation. by intros []. Qed.

Record WindowAccumulator := { acc_sum : Z; acc_members : gset string }.
Definition acc_default : WindowAccumulator := {| acc_sum := 0; acc_members := ∅ |}.

Record WindowDelta := { delta_key : WindowKey; sum : Z; unique_members : list string }.

Definition delta_entity d := key_entity (delta_key d).
Definition delta_metric d := key_metric (delta_key d).
Definition delta_window d := key_window (delta_key d).

Definition scalar (d : WindowDelta) : Z :=
  match aggregation (delta_metric d) with
  | Sum => sum d
  | Cardinality => Z.of_nat (length (unique_members d))
  end.

Record WindowAggregator := { size : Z; buckets : gmap WindowKey WindowAccumulator }.

Definition aggregator_new (size : Z) : WindowAggregator := {| size := size; buckets := ∅ |}.

Definition pending (a : WindowAggregator) : nat := base.size (buckets a).

Definition obs_key (size : Z) (o : Observation) : WindowKey := {|
  key_entity := obs_entity o; key_metric := obs_metric o;
  key_window := for_event size (occurred_at o) |}.

(** [fold]: the bucket is created before a missing member is noticed. *)
Definition fold (a : WindowAggregator) (o : Observation) :
    WindowAggregator * result CounterError unit :=
  let key := obs_key (size a) o in
  let acc := default acc_default (buckets a !! key) in
  let put acc := {| size := size a; buckets := <[key := acc]> (buckets a) |} in
  match aggregation (obs_metric o) with
  | Sum => (put {| acc_sum := i64_saturating_add (acc_sum acc) (amount o);
                   acc_members := acc_members acc |}, Ok tt)
  | Cardinality =>
      match unique_member o with
      | None => (put acc, Err (DomainViolation "unique_member"))
      | Some m => (put {| acc_sum := acc_sum acc; acc_members := {[m]} ∪ acc_members acc |}, Ok tt)
      end
  end.

(** The consumer's [for obs in observations { agg.fold(obs)?; }]. *)
Fixpoint fold_all (a : WindowAggregator) (os : list Observation) :
    WindowAggregator * result CounterError unit :=
  match os with
  | [] => (a, Ok tt)
  | o :: os => match fold a o with
               | (a, Ok _) => fold_all a os
               | (a, Err e) => (a, Err e)
               end
  end.

(** A [BTreeSet] iterates in order. *)
Definition delta_of (key : WindowKey) (acc : WindowAccumulator) : WindowDelta := {|
  delta_key := key; sum := acc_sum acc;
  unique_members := merge_sort string_le (elements (acc_members acc)) |}.

Fixpoint collect (keys : list WindowKey) (b : gmap WindowKey WindowAccumulator) :
    list WindowDelta * gmap WindowKey WindowAccumulator :=
  match keys with
  | [] => ([], b)
  | key :: keys =>
      match b !! key with
      | Some acc => let '(ds, b) := collect keys (delete key b) in (delta_of key acc :: ds, b)
      | None => collect keys b
      end
  end.

Definition cmp_then (c d : comparison) : comparison := match c with Eq => d | _ => c end.

Definition key_compare (a b : WindowKey) : comparison :=
  cmp_then (String.compare (kind_str (entity_kind (key_entity a)))
                           (kind_str (entity_kind (key_entity b))))
  (cmp_then (String.compare (entity_id (key_entity a)) (entity_id (key_entity b)))
  (cmp_then (String.compare (metric_str (key_metric a)) (metric_str (key_metric b)))
            (key_window a ?= key_window b))).

Definition delta_le (a b : WindowDelta) : Prop := key_compare (delta_key a) (delta_key b) ≠ Gt.
#[export] Instance delta_le_dec : RelDecision delta_le.
Proof. intros a b. unfold delta_le. apply _. Defined.

Definition remove_and_collect (a : WindowAggregator) (keys : list WindowKey) :
    WindowAggregator * list WindowDelta :=
  let '(ds, b) := collect keys (buckets a) in
  ({| size := size a; buckets := b |}, merge_sort delta_le ds).

Definition drain_closed (a : WindowAggregator) (watermark : Z) :
    WindowAggregator * list WindowDelta :=
  remove_and_collect a
    (filter (λ k, is_closed_at (key_window k) (size a) watermark = true)
            (map_to_list (buckets a)).*1).

Definition drain_all (a : WindowAggregator) : WindowAggregator * list WindowDelta :=
  remove_and_collect a (map_to_list (buckets a)).*1.

(** ** Decoders *)

Class Chrono := { timestamp_millis_opt : Z → option Z }.

Record HitWire := {
  hit_entity_type : string; hit_entity_id : string; actor_id : option string;
  hit_occurred_at_ms : Z }.
Inductive ReactionWire :=
  | Upserted (post_id : string) (old_kind : option string) (event_at_ms : Z)
  | Removed (post_id : string) (event_at_ms : Z).
Record FollowChangeWire := {
  follower_id : string; followee_id : string; follow_occurred_at_ms : Z }.
Inductive FollowWire := Followed (c : FollowChangeWire) | Unfollowed (c : FollowChangeWire).

Section Decode.
Context `{Chrono}.

(** [now] is what [Utc::now] answers where the timestamp is not representable. *)
Definition at_ms (ms now : Z) : Z := default now (timestamp_millis_opt ms).

(** [map_view] and [map_impression] are one function of their two metrics. *)
Definition map_hit (sum_metric unique_metric : Metric) (wire : HitWire) (now now' : Z) :
    result CounterError (list Observation) :=
  e ← entity (hit_entity_type wire) (hit_entity_id wire);
  hit ← observation_sum e sum_metric 1 (at_ms (hit_occurred_at_ms wire) now);
  match actor_id wire with
  | None => mret [hit]
  | Some actor =>
      member ← member_id_new actor;
      seen ← observation_unique e unique_metric member (at_ms (hit_occurred_at_ms wire) now');
      mret [hit; seen]
  end.

Definition map_view := map_hit View UniqueViewer.
Definition map_impression := map_hit Impression Reach.

Definition map_click (wire : HitWire) (now : Z) : result CounterError (list Observation) :=
  e ← entity (hit_entity_type wire) (hit_entity_id wire);
  hit ← observation_sum e Click 1 (at_ms (hit_occurred_at_ms wire) now);
  mret [hit].

Definition map_reaction (wire : ReactionWire) (now : Z) : result CounterError (list Observation) :=
  match wire with
  | Upserted _ (Some _) _ => mret []
  | Upserted post_id None ms =>
      e ← entity "post" post_id;
      o ← observation_sum e Like 1 (at_ms ms now);
      mret [o]
  | Removed post_id ms =>
      e ← entity "post" post_id;
      o ← observation_sum e Like (-1) (at_ms ms now);
      mret [o]
  end.

Definition map_follow (wire : FollowWire) (now : Z) : result CounterError (list Observation) :=
  let '(change, amount) := match wire with Followed c => (c, 1) | Unfollowed c => (c, -1) end in
  let when := at_ms (follow_occurred_at_ms change) now in
  followee ← entity "profile" (followee_id change);
  a ← observation_sum followee Follower amount when;
  follower ← entity "profile" (follower_id change);
  b ← observation_sum follower Following amount when;
  mret [a; b].

End Decode.

(** ** Read shapes and popularity *)

Definition f64 := spec_float.
Definition f64_of_Z (z : Z) : f64 := binary_normalize 53 1024 z 0 false.
Definition f64_add : f64 → f64 → f64 := SFadd 53 1024.
Definition f64_mul : f64 → f64 → f64 := SFmul 53 1024.
Definition f64_zero : f64 := S754_zero false.
(** The binary64 nearest to a decimal literal [n / d]. *)
Definition f64_ratio (n d : Z) : f64 := SFdiv 53 1024 (f64_of_Z n) (f64_of_Z d).

Record CounterValue := { cv_metric : Metric; cv_value : Z; cv_kind : MetricKind }.
Definition counter_value (m : Metric) (v : Z) : CounterValue :=
  {| cv_metric := m; cv_value := v; cv_kind := kind m |}.

Record CountSnapshot := { snap_entity : EntityRef; snap_values : list CounterValue }.

Definition snapshot_get (s : CountSnapshot) (m : Metric) : option Z :=
  (λ iv, cv_value iv.2) <$> list_find (λ v, cv_metric v = m) (snap_values s).

Record PopularityWeights := { w_view : f64; w_like : f64; w_share : f64; w_comment : f64 }.
Definition weights_default : PopularityWeights := {|
  w_view := f64_ratio 1 10; w_like := f64_of_Z 1; w_share := f64_of_Z 3; w_comment := f64_of_Z 2 |}.

Definition for_metric (w : PopularityWeights) (m : Metric) : f64 :=
  match m with
  | View => w_view w | Like => w_like w | Share => w_share w | Comment => w_comment w
  | _ => f64_zero
  end.

(** [PopularityScore::new] *)
Definition popularity_score_new (v : f64) : f64 :=
  match v with
  | S754_infinity _ | S754_nan => f64_zero
  | _ => if SFltb f64_zero v then v else f64_zero
  end.

Definition popularity (s : CountSnapshot) (w : PopularityWeights) : f64 :=
  popularity_score_new
    (foldl (λ total v, f64_add total (f64_mul (for_metric w (cv_metric v)) (f64_of_Z (cv_value v))))
           f64_zero (snap_values s)).

(** ** Validated read queries *)

Definition MAX_BATCH : nat := 256.
Definition MAX_TRENDING : Z := 100.

Record BatchGetQuery := { q_entities : list EntityRef; q_metrics : list Metric }.
Definition batch_get_query_new es ms : result CounterError BatchGetQuery :=
  match es with
  | [] => Err InvalidCounterQuery
  | _ => if bool_decide (MAX_BATCH < length es)%nat then Err InvalidCounterQuery
         else Ok {| q_entities := es; q_metrics := ms |}
  end.

Definition effective_metrics (q : BatchGetQuery) : list Metric :=
  match q_metrics q with [] => ALL | ms => ms end.

Record BatchReadout := { snapshots : list CountSnapshot; degraded : bool }.

Inductive TrendingScope := Global | HashtagScope | Category | Region.
Definition scope_str (s : TrendingScope) : string :=
  match s with
  | Global => "global" | HashtagScope => "hashtag" | Category => "category" | Region => "region"
  end.
Definition needs_key (s : TrendingScope) : bool := match s with Global => false | _ => true end.

Record TrendingQuery := {
  t_scope : TrendingScope; t_scope_key : option string; t_metric : Metric; t_limit : Z }.
Definition trending_query_new scope scope_key m limit : result CounterError TrendingQuery :=
  let scope_key := scope_key ≫= λ k, if trim_is_empty k then None else Some k in
  if needs_key scope && bool_decide (scope_key = None) then Err (InvalidTrendingScope (scope_str scope))
  else Ok {| t_scope := scope; t_scope_key := scope_key; t_metric := m;
             t_limit := Z.max 1 (Z.min MAX_TRENDING limit) |}.

Record TrendingItem := { item_entity : EntityRef; score : Z; rank : Z }.

Inductive TimeGranularity := Hour | Day | Week.
Record TimeSeriesQuery := {
  ts_entity : EntityRef; ts_metric : Metric; ts_granularity : TimeGranularity;
  ts_start : Z; ts_end : Z }.
Definition time_series_query_new e m g start end_ : result CounterError TimeSeriesQuery :=
  if end_ <=? start then Err InvalidTimeRange
  else Ok {| ts_entity := e; ts_metric := m; ts_granularity := g; ts_start := start;
             ts_end := end_ |}.
Record TimeSeriesBucket := { bucket_start : Z; value : Z }.

Example popularity_is_weighted_blend :
  popularity {| snap_entity := {| entity_kind := Post; entity_id := "p1" |};
                snap_values := [counter_value View 100; counter_value Like 10;
                                counter_value Share 5; counter_value Follower 999] |}
             weights_default = f64_of_Z 35.
Proof. vm_compute. reflexivity. Qed.

Example fold_collapses :
  let post := {| entity_kind := Post; entity_id := "p" |} in
  let o m v t := {| obs_entity := post; obs_metric := m; amount := v; unique_member := None;
                    occurred_at := t |} in
  let a := (fold_all (aggregator_new 5000) [o View 1 1000; o View 1 12000; o Like 2 1000; o View 1 4999]).1 in
  (λ d, (delta_metric d, delta_window d, sum d)) <$> (drain_all a).2
  = [(Like, 0, 2); (View, 0, 2); (View, 2, 1)] ∧
  pending (drain_closed a 14999).1 = 1%nat.
Proof. vm_compute. done. Qed.
