(* ===== verification/CounterStores.v ===== *)
(** * Counter analytics: the three storage tiers and the use cases

    Models [crates/services/counter/src/infrastructure] (Redis hot tier, Postgres
    ledger, Scylla time series, the consumers' and reconciler's loops) and
    [src/application]: flush, popularity, reconciliation and the three queries, as
    operations on one [World].  Every call to a store first consumes an entry of a
    fault script: it is answered, is not sent, or takes effect and its reply is lost. *)

From Stdlib Require Import SpecFloat.
From stdpp Require Import sorting.
From S2P Require Import Prelude Counter.
Local Open Scope Z_scope.

Inductive Fault := Answered | NotSent | ReplyLost.

(** A row key of the ledger and of the series: [(entity_kind, entity_id, metric)]. *)
Abbreviation RowKey := (string * string * string)%type.

Record World := {
  hashes : gmap (string * string) Z;
  hlls : gmap string (gset string);
  boards : gmap string (gmap string f64);
  windows : gset (RowKey * Z);
  totals : gmap RowKey Z;
  series : gmap (RowKey * Z) Z;
  published : list (string * string * f64);
  faults : list Fault;
}.

Definition set_hashes x w := {| hashes := x; hlls := hlls w; boards := boards w; windows := windows w;
  totals := totals w; series := series w; published := published w; faults := faults w |}.
Definition set_hlls x w := {| hashes := hashes w; hlls := x; boards := boards w; windows := windows w;
  totals := totals w; series := series w; published := published w; faults := faults w |}.
Definition set_boards x w := {| hashes := hashes w; hlls := hlls w; boards := x; windows := windows w;
  totals := totals w; series := series w; published := published w; faults := faults w |}.
Definition set_ledger x y w := {| hashes := hashes w; hlls := hlls w; boards := boards w; windows := x;
  totals := y; series := series w; published := published w; faults := faults w |}.
Definition set_series x w := {| hashes := hashes w; hlls := hlls w; boards := boards w;
  windows := windows w; totals := totals w; series := x; published := published w;
  faults := faults w |}.
Definition set_published x w := {| hashes := hashes w; hlls := hlls w; boards := boards w;
  windows := windows w; totals := totals w; series := series w; published := x;
  faults := faults w |}.
Definition set_faults x w := {| hashes := hashes w; hlls := hlls w; boards := boards w;
  windows := windows w; totals := totals w; series := series w; published := published w;
  faults := x |}.

Definition empty_world : World := {| hashes := ∅; hlls := ∅; boards := ∅; windows := ∅; totals := ∅;
  series := ∅; published := []; faults := [] |}.

Abbreviation use_case A := (act World CounterError A).

Definition next_fault (w : World) : Fault * World :=
  match faults w with [] => (Answered, w) | f :: fs => (f, set_faults fs w) end.

(** One request to a store: [effect] is what the store does with it, [e] how the
    adapter reports a lost request or reply. *)
Definition request {A} (e : CounterError) (effect : use_case A) : use_case A := λ w,
  match next_fault w with
  | (Answered, w) => effect w
  | (NotSent, w) => (w, Err e)
  | (ReplyLost, w) => ((effect w).1, Err e)
  end.

Definition is_i64 (z : Z) : bool := (- 2 ^ 63 <=? z) && (z <=? i64_max).

(** ** [RedisCounterStore] *)

(** HyperLogLog estimates a set of members; Lua's [unpack] raises on more values than
    its stack takes. *)
Class RedisEnv := { pfcount : gset string → Z; unpack_max : Z }.

Definition hash_key (e : EntityRef) : string :=
  "counter:c:{" +:+ kind_str (entity_kind e) +:+ ":" +:+ entity_id e +:+ "}".
Definition hll_key (e : EntityRef) (m : Metric) : string :=
  "counter:h:{" +:+ kind_str (entity_kind e) +:+ ":" +:+ entity_id e +:+ "}:" +:+ metric_str m.
Definition trend_key (scope : TrendingScope) (scope_key : option string) (m : Metric) : string :=
  "counter:t:" +:+ scope_str scope +:+ ":" +:+ default "_" scope_key +:+ ":" +:+ metric_str m.
Definition member (e : EntityRef) : string :=
  kind_str (entity_kind e) +:+ ":" +:+ entity_id e.

(** [str::split_once(':')] *)
Fixpoint split_once (s : string) : option (string * string) :=
  match s with
  | "" => None
  | String c s => if Ascii.eqb c ":" then Some ("", s)
                  else (λ p, (String c p.1, p.2)) <$> split_once s
  end%string.

Definition parse_member (s : string) : option EntityRef :=
  '(k, id) ← split_once s;
  k ← result_option (kind_try_from_str k);
  id ← result_option (entity_id_new id);
  mret {| entity_kind := k; entity_id := id |}.

(** [HINCRBY]: Redis refuses an increment that overflows. *)
Definition hincrby (key field : string) (by_ : Z) : use_case Z :=
  request CacheWriteFailed (λ w,
    let v := default 0 (hashes w !! (key, field)) + by_ in
    if is_i64 v then (set_hashes (<[(key, field) := v]> (hashes w)) w, Ok v)
    else (w, Err CacheWriteFailed)).

Definition hset (key field : string) (v : Z) : use_case unit :=
  request CacheWriteFailed (modify (λ w, set_hashes (<[(key, field) := v]> (hashes w)) w)).

Definition zincrby (key mem : string) (by_ : Z) : use_case unit :=
  request CacheWriteFailed (modify (λ w,
    let board := default ∅ (boards w !! key) in
    let s := f64_add (default f64_zero (board !! mem)) (f64_of_Z by_) in
    set_boards (<[key := <[mem := s]> board]> (boards w)) w)).

Section Redis.
Context `{RedisEnv}.

Definition pfadd (key : string) (members : list string) : use_case unit :=
  request CacheWriteFailed (λ w,
    if unpack_max <? Z.of_nat (length members) then (w, Err CacheWriteFailed)
    else (set_hlls (<[key := list_to_set members ∪ default ∅ (hlls w !! key)]> (hlls w)) w, Ok tt)).

Definition apply_delta (d : WindowDelta) : use_case unit :=
  let m := delta_metric d in
  match aggregation m with
  | Sum =>
      let! _ := hincrby (hash_key (delta_entity d)) (metric_str m) (sum d) in
      zincrby (trend_key Global None m) (member (delta_entity d)) (sum d)
  | Cardinality =>
      match unique_members d with
      | [] => done_with tt
      | members => pfadd (hll_key (delta_entity d) m) members
      end
  end.

Definition read_sums (e : EntityRef) (ms : list Metric) : use_case (list CounterValue) :=
  match ms with
  | [] => done_with []
  | _ => request HotStoreUnavailable (gets (λ w,
      omap (λ m, counter_value m <$> hashes w !! (hash_key e, metric_str m)) ms))
  end.

Fixpoint read_cards (e : EntityRef) (ms : list Metric) : use_case (list CounterValue) :=
  match ms with
  | [] => done_with []
  | m :: ms =>
      let! count := request HotStoreUnavailable
        (gets (λ w, pfcount (default ∅ (hlls w !! hll_key e m)))) in
      let! rest := read_cards e ms in
      done_with (if 0 <? count then counter_value m count :: rest else rest)
  end.

Fixpoint hot_read (es : list EntityRef) (ms : list Metric) : use_case (list CountSnapshot) :=
  match es with
  | [] => done_with []
  | e :: es =>
      let! sums := read_sums e (filter (λ m, aggregation m = Sum) ms) in
      let! cards := read_cards e (filter (λ m, aggregation m = Cardinality) ms) in
      let! rest := hot_read es ms in
      done_with ({| snap_entity := e; snap_values := sums ++ cards |} :: rest)
  end.

End Redis.

(** [overwrite] *)
Definition overwrite (e : EntityRef) (m : Metric) (v : Z) : use_case unit :=
  hset (hash_key e) (metric_str m) v.

(** [ZREVRANGE]: by score, then by member, both descending. *)
Definition board_ge (a b : string * f64) : Prop :=
  match SFcompare a.2 b.2 with
  | Some Gt => True
  | Some Eq => String.leb b.1 a.1 = true
  | _ => False
  end.
#[export] Instance board_ge_dec : RelDecision board_ge.
Proof. intros a b. unfold board_ge. destruct (SFcompare a.2 b.2) as [[]|]; apply _. Defined.

(** [f64 as i64] *)
Definition f64_to_i64 (f : f64) : Z :=
  match f with
  | S754_zero _ | S754_nan => 0
  | S754_infinity s => if s then - 2 ^ 63 else i64_max
  | S754_finite s m e =>
      let v := Z.shiftl (Zpos m) e in
      Z.max (- 2 ^ 63) (Z.min i64_max (if s then - v else v))
  end.

Fixpoint ranked (rank_ : Z) (l : list (string * f64)) : list TrendingItem :=
  match l with
  | [] => []
  | (mem, s) :: l =>
      match parse_member mem with
      | Some e => {| item_entity := e; score := f64_to_i64 s; rank := rank_ |} :: ranked (rank_ + 1) l
      | None => ranked (rank_ + 1) l
      end
  end.

Definition top_k scope scope_key (m : Metric) (limit : Z) : use_case (list TrendingItem) :=
  request HotStoreUnavailable (gets (λ w,
    ranked 0 (take (Z.to_nat limit)
      (merge_sort board_ge (map_to_list (default ∅ (boards w !! trend_key scope scope_key m))))))).

(** ** [PgCounterLedger] *)

Inductive FlushOutcome := Applied | AlreadyApplied.

Definition row_key (e : EntityRef) (m : Metric) : RowKey :=
  (kind_str (entity_kind e), entity_id e, metric_str m).
Definition window_row (k : WindowKey) : RowKey * Z :=
  (row_key (key_entity k) (key_metric k), key_window k).

(** [FLUSH_SQL] is one statement: a [bigint] overflow leaves both tables as they were. *)
Definition flush_sql (d : WindowDelta) : use_case FlushOutcome := λ w,
  let row := row_key (delta_entity d) (delta_metric d) in
  if negb (pg_text (entity_id (delta_entity d))) then (w, Err FlushFailed)
  else if decide (window_row (delta_key d) ∈ windows w) then (w, Ok AlreadyApplied)
  else
    let total := default 0 (totals w !! row) + scalar d in
    if is_i64 total
    then (set_ledger ({[window_row (delta_key d)]} ∪ windows w) (<[row := total]> (totals w)) w,
          Ok Applied)
    else (w, Err FlushFailed).

Definition flush_window (d : WindowDelta) : use_case FlushOutcome :=
  request FlushFailed (flush_sql d).

Definition read_total (e : EntityRef) (m : Metric) : use_case (option Z) :=
  request LedgerUnavailable (λ w,
    if pg_text (entity_id e) then (w, Ok (totals w !! row_key e m)) else (w, Err LedgerUnavailable)).

Definition set_total (e : EntityRef) (m : Metric) (v : Z) : use_case unit :=
  request FlushFailed (λ w,
    if pg_text (entity_id e)
    then (set_ledger (windows w) (<[row_key e m := v]> (totals w)) w, Ok tt)
    else (w, Err FlushFailed)).

(** The database's collation. *)
Class Collation := {
  collate_le : relation string;
  collate_dec :: RelDecision collate_le;
}.

Definition row_cursor (r : RowKey) : string := r.1.1 +:+ ":" +:+ r.1.2 +:+ ":" +:+ r.2.
Definition reconcile_cursor (e : EntityRef) (m : Metric) : string :=
  kind_str (entity_kind e) +:+ ":" +:+ entity_id e +:+ ":" +:+ metric_str m.

Definition parse_row (r : RowKey) : option (EntityRef * Metric) :=
  k ← result_option (kind_try_from_str r.1.1);
  id ← result_option (entity_id_new r.1.2);
  m ← result_option (metric_try_from_str r.2);
  mret ({| entity_kind := k; entity_id := id |}, m).

Section Ledger.
Context `{Collation}.

Definition cursor_le (a b : RowKey) : Prop := collate_le (row_cursor a) (row_cursor b).
#[export] Instance cursor_le_dec : RelDecision cursor_le.
Proof. intros a b. unfold cursor_le. apply _. Defined.

(** The [WHERE] clause of [LIST_RECONCILABLE_SQL], and its rows before the [LIMIT]. *)
Definition reconcilable (after : option string) (r : RowKey) : bool :=
  (String.eqb r.2 "follower" || String.eqb r.2 "following") &&
  match after with
  | None => true
  | Some c => negb (bool_decide (collate_le (row_cursor r) c))
  end.

Definition reconcilable_rows (after : option string) (w : World) : list RowKey :=
  merge_sort cursor_le (filter (λ r, reconcilable after r = true) (map_to_list (totals w)).*1).

Definition list_reconcilable (after : option string) (limit : nat) :
    use_case (list (EntityRef * Metric)) :=
  request LedgerUnavailable (gets (λ w, omap parse_row (take limit (reconcilable_rows after w)))).

End Ledger.

(** ** [ScyllaTimeSeriesStore] *)

Definition HOUR_MS : Z := 3600000.
Definition hour_bucket (ms : Z) : Z := ms / HOUR_MS * HOUR_MS.

Definition bucket_of (window_size window : Z) : Z := hour_bucket (start_millis window window_size).

Definition append (window_size : Z) (d : WindowDelta) : use_case unit :=
  request FlushFailed (modify (λ w,
    let cell := (row_key (delta_entity d) (delta_metric d), bucket_of window_size (delta_window d)) in
    set_series (<[cell := i64_add (default 0 (series w !! cell)) (scalar d)]> (series w)) w)).

Definition bucket_le (a b : TimeSeriesBucket) : Prop := bucket_start a ≤ bucket_start b.
#[export] Instance bucket_le_dec : RelDecision bucket_le.
Proof. intros a b. unfold bucket_le. apply _. Defined.

(** The partition's cells in clustering order; a start that is not a representable
    instant is left out. *)
Definition range `{Chrono} (q : TimeSeriesQuery) : use_case (list TimeSeriesBucket) :=
  request TimeSeriesUnavailable (gets (λ w,
    omap (λ b, (λ t, {| bucket_start := t; value := value b |}) <$> timestamp_millis_opt (bucket_start b))
      (merge_sort bucket_le
        (omap (λ kv, if decide (kv.1.1 = row_key (ts_entity q) (ts_metric q)
                                ∧ ts_start q ≤ kv.1.2 < ts_end q)
                     then Some {| bucket_start := kv.1.2; value := kv.2 |} else None)
              (map_to_list (series w)))))).

(** ** The use cases *)

Section UseCases.
Context `{RedisEnv} (window_size : Z).

Record FlushReport := { applied : nat; already_applied : nat }.

(** One turn of [DeltaFlusher::flush]'s loop. *)
Definition flush_one (d : WindowDelta) (report : FlushReport) : use_case FlushReport :=
  let! outcome := flush_window d in
  match outcome with
  | Applied =>
      let! _ := apply_delta d in
      let! _ := append window_size d in
      done_with {| applied := S (applied report); already_applied := already_applied report |}
  | AlreadyApplied =>
      done_with {| applied := applied report; already_applied := S (already_applied report) |}
  end.

Fixpoint flush_from (ds : list WindowDelta) (report : FlushReport) : use_case FlushReport :=
  match ds with
  | [] => done_with report
  | d :: ds => let! report := flush_one d report in flush_from ds report
  end.

Definition flush (ds : list WindowDelta) : use_case FlushReport :=
  flush_from ds {| applied := 0; already_applied := 0 |}.

Definition POPULARITY_METRICS : list Metric := [View; Like; Share; Comment].

Definition publish_popularity (e : EntityRef) (s : f64) : use_case unit :=
  request SignalPublishFailed
    (modify (λ w, set_published (published w ++ [(kind_str (entity_kind e), entity_id e, s)]) w)).

(** [PopularityPublisher::publish] *)
Definition publish (e : EntityRef) : use_case unit :=
  let! snaps := hot_read [e] POPULARITY_METRICS in
  let s := match snaps with snap :: _ => popularity snap weights_default | [] => f64_zero end in
  publish_popularity e s.

(** The refresh over the distinct entities of a batch; a failed publish is only logged. *)
Fixpoint publish_touched (seen : gset EntityRef) (ds : list WindowDelta) (w : World) : World :=
  match ds with
  | [] => w
  | d :: ds =>
      let e := delta_entity d in
      if decide (e ∈ seen) then publish_touched seen ds w
      else publish_touched ({[e]} ∪ seen) ds (publish e w).1
  end.

(** One tick of [run_flush_loop]: after an error the drained windows are gone. *)
Definition flush_tick (now : Z) (a : WindowAggregator) (w : World) : WindowAggregator * World :=
  let '(a, ds) := drain_closed a now in
  match ds with
  | [] => (a, w)
  | _ => match flush ds w with
         | (w, Ok _) => (a, publish_touched ∅ ds w)
         | (w, Err _) => (a, w)
         end
  end.

(** A worker: decoded events folded by its consumers, ticks of its flush loop. *)
Inductive WorkerAction := Ingest (os : list Observation) | Tick (now : Z).

Definition worker_step (s : WindowAggregator * World) (x : WorkerAction) : WindowAggregator * World :=
  match x with
  | Ingest os => ((fold_all s.1 os).1, s.2)
  | Tick now => flush_tick now s.1 s.2
  end.

Definition run_worker : list WorkerAction → WindowAggregator * World → WindowAggregator * World :=
  λ xs s, foldl worker_step s xs.

(** *** Queries *)

Fixpoint ledger_values (e : EntityRef) (ms : list Metric) : use_case (list CounterValue) :=
  match ms with
  | [] => done_with []
  | m :: ms =>
      let! total := read_total e m in
      let! rest := ledger_values e ms in
      done_with (match total with Some v => counter_value m v :: rest | None => rest end)
  end.

(** [BatchGetHandler::fallback] *)
Fixpoint fallback (es : list EntityRef) (ms : list Metric) : use_case (list CountSnapshot) :=
  match es with
  | [] => done_with []
  | e :: es =>
      let! values := ledger_values e ms in
      let! rest := fallback es ms in
      done_with ({| snap_entity := e; snap_values := values |} :: rest)
  end.

(** [elapsed]: the read timeout fires before the hot tier answers. *)
Definition batch_get (elapsed : bool) (q : BatchGetQuery) : use_case BatchReadout := λ w,
  let ms := effective_metrics q in
  let degrade := let! snaps := fallback (q_entities q) ms in
                 done_with {| snapshots := snaps; degraded := true |} in
  match hot_read (q_entities q) ms w with
  | (w, Ok snaps) => if elapsed then degrade w
                     else (w, Ok {| snapshots := snaps; degraded := false |})
  | (w, Err e) => if elapsed || is_retryable e then degrade w else (w, Err e)
  end.

(** An answer or, after a transient fault, nothing. *)
Definition or_empty {A} (m : use_case (list A)) : use_case (list A) := λ w,
  match m w with
  | (w, Ok l) => (w, Ok l)
  | (w, Err e) => if is_retryable e then (w, Ok []) else (w, Err e)
  end.

Definition get_trending (q : TrendingQuery) : use_case (list TrendingItem) :=
  or_empty (top_k (t_scope q) (t_scope_key q) (t_metric q) (t_limit q)).

Definition get_time_series `{Chrono} (q : TimeSeriesQuery) : use_case (list TimeSeriesBucket) :=
  or_empty (range q).

End UseCases.

(** ** Reconciliation *)

(** The social-graph service: followers and followings of a profile. *)
Inductive Status := NotFound | OtherStatus.
Class SocialGraph := { get_relation_status : string → result Status (Z * Z) }.

Inductive ReconcileOutcome :=
  | InSync | WithinTolerance (drift : Z) | Corrected (from to : Z) | NotApplicable.

Section Reconcile.
Context `{SocialGraph, Collation} (tolerance : Z).

(** [GrpcReconciliationSource::authoritative_count] *)
Definition authoritative_count (e : EntityRef) (m : Metric) : result CounterError (option Z) :=
  match m with
  | Follower | Following =>
      if decide (entity_kind e ≠ Profile) then Ok None
      else match get_relation_status (entity_id e) with
           | Ok (followers, following) =>
               Ok (Some (if decide (m = Follower) then followers else following))
           | Err NotFound => Ok None
           | Err OtherStatus => Err SourceReplayFailed
           end
  | _ => Ok None
  end.

(** Two's-complement subtraction and [i64::abs], wrapping. *)
Definition i64_sub (a b : Z) : Z := i64_add a (- b).
Definition i64_abs (a : Z) : Z := if a <? 0 then i64_sub 0 a else a.

Definition reconcile (e : EntityRef) (m : Metric) : use_case ReconcileOutcome :=
  if decide (kind m ≠ Exact) then done_with NotApplicable
  else
    let! found := lift (authoritative_count e m) in
    match found with
    | None => done_with NotApplicable
    | Some authoritative =>
        let! current := read_total e m in
        let current := default 0 current in
        let drift := i64_sub authoritative current in
        if drift =? 0 then done_with InSync
        else if i64_abs drift <=? tolerance then done_with (WithinTolerance drift)
        else
          let! _ := set_total e m authoritative in
          let! _ := overwrite e m authoritative in
          done_with (Corrected current authoritative)
    end.

Definition RECONCILE_BATCH : nat := 100.

(** One tick of [run_reconcile_loop]; a failed pair is only logged. *)
Definition reconcile_tick (cursor : option string) (w : World) : option string * World :=
  match list_reconcilable cursor RECONCILE_BATCH w with
  | (w, Err _) => (cursor, w)
  | (w, Ok []) => (None, w)
  | (w, Ok batch) =>
      (match list.last batch with Some (e, m) => Some (reconcile_cursor e m) | None => cursor end,
       foldl (λ w p, (reconcile p.1 p.2 w).1) w batch)
  end.

End Reconcile.
