(* ===== verification/CounterProofs.v ===== *)
(** * Counter analytics: windows are counted once, and on-time events exactly

    The keys of the three tiers are injective; what any sequence of flushes leaves in
    them is the sum of a set of deltas with distinct windows
    ([window_counted_at_most_once]); with that, a worker whose events arrive before
    their window is flushed counts every one of them in every tier
    ([on_time_counts_are_exact]), and what comes later or from a second worker is
    lost ([late_share_is_lost]). *)

From Stdlib Require Import SpecFloat.
From stdpp Require Import sorting.
From S2P Require Import Prelude Counter CounterStores.
Local Open Scope Z_scope.

(** ** Keys are injective *)

Fixpoint last_char (s : string) : option ascii :=
  match s with
  | "" => None
  | String c "" => Some c
  | String _ s => last_char s
  end%string.

Lemma last_char_app (x s : string) : s ≠ ""%string → last_char (x +:+ s) = last_char s.
Proof.
  intros Hs. induction x as [|c x IH]; [done|].
  simpl. destruct (x +:+ s) eqn:E; [|done].
  destruct x, s; simpl in *; try done.
Qed.

Lemma kind_str_inj k k' : kind_str k = kind_str k' → k = k'.
Proof. by destruct k, k'. Qed.
Lemma metric_str_inj m m' : metric_str m = metric_str m' → m = m'.
Proof. by destruct m, m'. Qed.

Lemma row_key_inj e m e' m' : row_key e m = row_key e' m' → e = e' ∧ m = m'.
Proof.
  unfold row_key. intros [= Hk Hi Hm]. apply kind_str_inj in Hk. apply metric_str_inj in Hm.
  destruct e, e'; simpl in *; by subst.
Qed.

#[export] Instance window_row_inj : Inj (=) (=) window_row.
Proof.
  intros [e m x] [e' m' x'] [= Hr]. unfold window_row in *; simpl in *.
  destruct (row_key_inj e m e' m') as [-> ->]; [unfold row_key; congruence|]. congruence.
Qed.

(** The part of a key after the kind, which is followed by a colon. *)
Lemma kind_prefix_inj k k' x x' :
  kind_str k +:+ ":" +:+ x = kind_str k' +:+ ":" +:+ x' → k = k' ∧ x = x'.
Proof. destruct k, k'; simpl; intros E; simplify_eq; done. Qed.

Lemma hash_key_inj e e' : hash_key e = hash_key e' → e = e'.
Proof.
  unfold hash_key. intros E. simplify_eq/=.
  apply kind_prefix_inj in E as [Hk Hi]. apply string_app_inj_r in Hi.
  destruct e, e'; simpl in *; by subst.
Qed.

Lemma hll_key_inj e m e' m' :
  aggregation m = Cardinality → aggregation m' = Cardinality →
  hll_key e m = hll_key e' m' → e = e' ∧ m = m'.
Proof.
  unfold hll_key. intros Hm Hm' E. simplify_eq/=.
  apply kind_prefix_inj in E as [Hk Hi].
  assert (m = m') as ->.
  { apply (f_equal last_char) in Hi.
    destruct m; try done; destruct m'; try done; exfalso;
      rewrite !last_char_app in Hi by done; vm_compute in Hi; congruence. }
  apply string_app_inj_r in Hi. destruct e, e'; simpl in *; by subst.
Qed.

Lemma entity_id_new_ok id : trim_is_empty id = false → entity_id_new id = Ok id.
Proof. unfold entity_id_new. by intros ->. Qed.
Lemma kind_round_trip k : kind_try_from_str (kind_str k) = Ok k.
Proof. by destruct k. Qed.
Lemma metric_round_trip m : metric_try_from_str (metric_str m) = Ok m.
Proof. by destruct m. Qed.

(** A member of a trending board is read back as its entity. *)
Lemma parse_member_member e :
  trim_is_empty (entity_id e) = false → parse_member (member e) = Some e.
Proof.
  intros Hid. unfold parse_member.
  assert (split_once (member e) = Some (kind_str (entity_kind e), entity_id e)) as ->
    by (destruct e as [[] id]; reflexivity).
  simpl. rewrite kind_round_trip, entity_id_new_ok by done. by destruct e.
Qed.

Lemma parse_row_row_key e m :
  trim_is_empty (entity_id e) = false → parse_row (row_key e m) = Some (e, m).
Proof.
  intros Hid. unfold parse_row, row_key; simpl.
  rewrite kind_round_trip, entity_id_new_ok, metric_round_trip by done. by destruct e.
Qed.

(** ** What a set of deltas amounts to *)

Definition delta_row (d : WindowDelta) : RowKey := row_key (delta_entity d) (delta_metric d).

Definition at_row (r : RowKey) (f : WindowDelta → Z) (d : WindowDelta) : Z :=
  if decide (delta_row d = r) then f d else 0.
Definition members_at (r : RowKey) (d : WindowDelta) : gset string :=
  if decide (delta_row d = r) then list_to_set (unique_members d) else ∅.
Definition at_cell (window_size : Z) (c : RowKey * Z) (d : WindowDelta) : Z :=
  if decide (delta_row d = c.1 ∧ bucket_of window_size (delta_window d) = c.2) then scalar d else 0.

(** An [i64] after any number of wrapping additions. *)
Definition wrap64 (z : Z) : Z := (z + 2 ^ 63) mod 2 ^ 64 - 2 ^ 63.

Record ledger_of (ds : list WindowDelta) (ws : gset (RowKey * Z)) (ts : gmap RowKey Z) : Prop := {
  lo_windows : ∀ k, window_row k ∈ ws ↔ k ∈ delta_key <$> ds;
  lo_nodup : NoDup (delta_key <$> ds);
  lo_totals : ∀ r, default 0 (ts !! r) = sum_with (at_row r scalar) ds;
}.

Record hot_of (ds : list WindowDelta) (hs : gmap (string * string) Z)
    (ls : gmap string (gset string)) : Prop := {
  ho_sums : ∀ e m, aggregation m = Sum →
    default 0 (hs !! (hash_key e, metric_str m)) = sum_with (at_row (row_key e m) sum) ds;
  ho_hlls : ∀ e m, aggregation m = Cardinality →
    default ∅ (ls !! hll_key e m) = ⋃ (members_at (row_key e m) <$> ds);
}.

Definition series_of (window_size : Z) (ds : list WindowDelta) (ss : gmap (RowKey * Z) Z) : Prop :=
  ∀ c, default 0 (ss !! c) = wrap64 (sum_with (at_cell window_size c) ds).

Lemma sum_with_app {A} (f : A → Z) l1 l2 : sum_with f (l1 ++ l2) = sum_with f l1 + sum_with f l2.
Proof. induction l1 as [|x l1 IH]; simpl; [done|]. rewrite IH. lia. Qed.

Lemma sum_with_snoc {A} (f : A → Z) l x : sum_with f (l ++ [x]) = sum_with f l + f x.
Proof. rewrite sum_with_app. simpl. lia. Qed.

Lemma wrap64_add a b : i64_add (wrap64 a) b = wrap64 (a + b).
Proof.
  unfold i64_add, wrap64. f_equal.
  replace ((a + 2 ^ 63) mod 2 ^ 64 - 2 ^ 63 + b + 2 ^ 63) with ((a + 2 ^ 63) mod 2 ^ 64 + b) by lia.
  rewrite Zplus_mod_idemp_l. f_equal. lia.
Qed.

Lemma wrap64_small z : - 2 ^ 63 ≤ z ≤ i64_max → wrap64 z = z.
Proof. unfold wrap64, i64_max. intros. rewrite Z.mod_small; lia. Qed.

(** ** One request *)

Lemma request_cases {A} e (effect : use_case A) w : ∃ fs,
  request e effect w = (set_faults fs w, Err e) ∨
  request e effect w = ((effect (set_faults fs w)).1, Err e) ∨
  request e effect w = effect (set_faults fs w).
Proof.
  unfold request, next_fault. destruct (faults w) as [|f fs] eqn:Hf.
  - exists []. right. right. f_equal. destruct w; simpl in *; by subst.
  - exists fs. destruct f; eauto.
Qed.

Lemma request_answered {A} e (effect : use_case A) w : faults w = [] → request e effect w = effect w.
Proof. unfold request, next_fault. by intros ->. Qed.

Lemma flush_window_counts d ds w :
  ledger_of ds (windows w) (totals w) →
  let '(w', r) := flush_window d w in
  hashes w' = hashes w ∧ hlls w' = hlls w ∧ series w' = series w ∧
  ((ledger_of ds (windows w') (totals w') ∧ r ≠ Ok Applied) ∨
   ledger_of (ds ++ [d]) (windows w') (totals w')).
Proof.
  intros [Hw Hn Ht]. unfold flush_window.
  assert (∀ fs, let '(w', r) := flush_sql d (set_faults fs w) in
    hashes w' = hashes w ∧ hlls w' = hlls w ∧ series w' = series w ∧
    ((ledger_of ds (windows w') (totals w') ∧ r ≠ Ok Applied) ∨
     ledger_of (ds ++ [d]) (windows w') (totals w'))) as Hsql.
  { intros fs. unfold flush_sql. simpl.
    destruct (negb _); [split_and!; try done; left; split; [by constructor|done]|].
    destruct (decide _) as [Hin|Hin]; [split_and!; try done; left; split; [by constructor|done]|].
    destruct (is_i64 _); [|split_and!; try done; left; split; [by constructor|done]].
    split_and!; try done. right. simpl. split.
    - intros k. rewrite fmap_app, elem_of_app, <- Hw. simpl. rewrite list_elem_of_singleton, elem_of_union,
        elem_of_singleton. split.
      + intros [E|]; [right; by apply (inj window_row)|by left].
      + intros [|E]; [by right|left; by rewrite E].
    - rewrite fmap_app. apply list.NoDup_app. split_and!; [done| |apply NoDup_singleton].
      intros k Hk ->%list_elem_of_singleton. apply Hw in Hk. done.
    - intros r. rewrite sum_with_snoc, <- Ht. unfold at_row. fold (delta_row d).
      destruct (decide (delta_row d = r)) as [<-|Hne].
      + by rewrite lookup_insert_eq.
      + rewrite lookup_insert_ne by done. lia. }
  destruct (request_cases FlushFailed (flush_sql d) w) as (fs & [->|[->| ->]]).
  - split_and!; try done. left. split; [by constructor|done].
  - specialize (Hsql fs). destruct (flush_sql d _) as [w' r]. simpl.
    destruct Hsql as (?&?&?&[[]|]); split_and!; try done; [left|right]; done.
  - apply Hsql.
Qed.

Lemma at_row_same d f : at_row (delta_row d) f d = f d.
Proof. unfold at_row. by rewrite decide_True. Qed.

Lemma hot_of_sum ds d hs ls v :
  aggregation (delta_metric d) = Sum → hot_of ds hs ls →
  v = default 0 (hs !! (hash_key (delta_entity d), metric_str (delta_metric d))) + sum d →
  hot_of (ds ++ [d]) (<[(hash_key (delta_entity d), metric_str (delta_metric d)) := v]> hs) ls.
Proof.
  intros Hm [Hs Hl] ->. split.
  - intros e m He. rewrite sum_with_snoc, <- Hs by done. unfold at_row, delta_row.
    destruct (decide (row_key (delta_entity d) (delta_metric d) = row_key e m)) as [E|Hne].
    + apply row_key_inj in E as [<- <-]. by rewrite lookup_insert_eq.
    + rewrite lookup_insert_ne; [lia|]. intros E%pair_eq. destruct E as [<-%hash_key_inj <-%metric_str_inj]. done.
  - intros e m He. rewrite fmap_app, union_list_app_L. simpl. rewrite <- Hl by done.
    unfold members_at, delta_row. rewrite decide_False; [set_solver|].
    intros E%row_key_inj. destruct E. congruence.
Qed.

Lemma hot_of_members ds d hs ls :
  aggregation (delta_metric d) = Cardinality → hot_of ds hs ls →
  hot_of (ds ++ [d]) hs
    (<[hll_key (delta_entity d) (delta_metric d) :=
        list_to_set (unique_members d)
        ∪ default ∅ (ls !! hll_key (delta_entity d) (delta_metric d))]> ls).
Proof.
  intros Hm [Hs Hl]. split.
  - intros e m He. rewrite sum_with_snoc, <- Hs by done. unfold at_row, delta_row.
    rewrite decide_False; [lia|]. intros E%row_key_inj. destruct E. congruence.
  - intros e m He. rewrite fmap_app, union_list_app_L. simpl. rewrite <- Hl by done.
    unfold members_at, delta_row.
    destruct (decide (row_key (delta_entity d) (delta_metric d) = row_key e m)) as [E|Hne].
    + apply row_key_inj in E as [<- <-]. rewrite lookup_insert_eq. simpl. set_solver.
    + rewrite lookup_insert_ne; [set_solver|].
      intros E%hll_key_inj; [|done..]. destruct E as [<- <-]. done.
Qed.

Lemma hot_of_no_members ds d hs ls :
  aggregation (delta_metric d) = Cardinality → unique_members d = [] →
  hot_of ds hs ls → hot_of (ds ++ [d]) hs ls.
Proof.
  intros Hm Hu [Hs Hl]. split; intros e m He.
  - rewrite sum_with_snoc, <- Hs by done. unfold at_row, delta_row.
    rewrite decide_False; [lia|]. intros E%row_key_inj. destruct E. congruence.
  - rewrite fmap_app, union_list_app_L. simpl. rewrite <- Hl by done.
    unfold members_at. rewrite Hu. case_decide; set_solver.
Qed.

Section Counts.
Context `{RedisEnv}.

Lemma zincrby_frame k mem v w :
  let w' := (zincrby k mem v w).1 in
  windows w' = windows w ∧ totals w' = totals w ∧ series w' = series w ∧
  hashes w' = hashes w ∧ hlls w' = hlls w.
Proof. unfold zincrby. edestruct (@request_cases unit) as (fs & [->|[->| ->]]); done. Qed.

Lemma apply_delta_counts d ds w :
  hot_of ds (hashes w) (hlls w) →
  let '(w', r) := apply_delta d w in
  windows w' = windows w ∧ totals w' = totals w ∧ series w' = series w ∧
  ((hot_of ds (hashes w') (hlls w') ∧ r ≠ Ok tt) ∨ hot_of (ds ++ [d]) (hashes w') (hlls w')).
Proof.
  intros Hh. unfold apply_delta. destruct (aggregation (delta_metric d)) eqn:Hm.
  - unfold hincrby. rewrite act_bind_run.
    set (eff := λ w : World, _). destruct (request_cases CacheWriteFailed eff w)
      as (fs & Hr).
    assert (∀ w1 r1, eff (set_faults fs w) = (w1, r1) →
      windows w1 = windows w ∧ totals w1 = totals w ∧ series w1 = series w ∧
      ((hot_of ds (hashes w1) (hlls w1) ∧ is_ok r1 = false) ∨
       hot_of (ds ++ [d]) (hashes w1) (hlls w1))) as Heff.
    { intros w1 r1. subst eff. cbv beta zeta. destruct (is_i64 _); intros [= <- <-]; simpl.
      - split_and!; try done. right. by apply hot_of_sum.
      - split_and!; try done. left. done. }
    destruct (eff (set_faults fs w)) as [w1 r1]. destruct (Heff w1 r1 eq_refl) as (?&?&?&Hc).
    destruct Hr as [->|[->| ->]]; simpl.
    + split_and!; try done. by left.
    + split_and!; try done. destruct Hc as [[??]|]; [left|right]; done.
    + destruct r1 as [v|e].
      * destruct Hc as [[??]|Hc]; [done|].
        pose proof (zincrby_frame (trend_key Global None (delta_metric d))
          (member (delta_entity d)) (sum d) w1) as (?&?&?&Hh'&Hl').
        destruct (zincrby _ _ _ w1) as [w2 r2]. simpl in *.
        split_and!; try congruence. right. by rewrite Hh', Hl'.
      * split_and!; try done. destruct Hc as [[??]|]; [left|right]; done.
  - destruct (unique_members d) as [|u us] eqn:Hu.
    + simpl. split_and!; try done. right. by apply hot_of_no_members.
    + rewrite <- Hu. unfold pfadd. set (eff := λ w : World, _).
      destruct (request_cases CacheWriteFailed eff w) as (fs & Hr).
      assert (∀ w1 r1, eff (set_faults fs w) = (w1, r1) →
        windows w1 = windows w ∧ totals w1 = totals w ∧ series w1 = series w ∧
        ((hot_of ds (hashes w1) (hlls w1) ∧ r1 ≠ Ok tt) ∨
         hot_of (ds ++ [d]) (hashes w1) (hlls w1))) as Heff.
      { intros w1 r1. subst eff. cbv beta. destruct (_ <? _); intros [= <- <-]; simpl.
        - split_and!; try done. left. done.
        - split_and!; try done. right. by apply hot_of_members. }
      destruct (eff (set_faults fs w)) as [w1 r1]. destruct (Heff w1 r1 eq_refl) as (?&?&?&Hc).
      destruct Hr as [->|[->| ->]]; simpl; split_and!; try done.
      * by left.
      * destruct Hc as [[??]|]; [left|right]; done.
Qed.

Lemma append_counts size d ds w :
  series_of size ds (series w) →
  let '(w', r) := append size d w in
  windows w' = windows w ∧ totals w' = totals w ∧ hashes w' = hashes w ∧ hlls w' = hlls w ∧
  ((series_of size ds (series w') ∧ r ≠ Ok tt) ∨ series_of size (ds ++ [d]) (series w')).
Proof.
  intros Hs. unfold append. set (eff := modify _).
  assert (∀ fs, series_of size (ds ++ [d]) (series (eff (set_faults fs w)).1)) as Heff.
  { intros fs [r b]. simpl. rewrite sum_with_snoc, <- wrap64_add, <- Hs.
    unfold at_cell; simpl. fold (delta_row d).
    destruct (decide (delta_row d = r ∧ bucket_of size (delta_window d) = b)) as [[<- <-]|Hne].
    - by rewrite lookup_insert_eq.
    - rewrite lookup_insert_ne by (intros E%pair_eq; by apply Hne). rewrite (Hs (r, b)), wrap64_add. f_equal. lia. }
  destruct (request_cases FlushFailed eff w) as (fs & [->|[->| ->]]); simpl; split_and!; try done.
  - left. done.
  - right. apply (Heff fs).
  - right. apply (Heff fs).
Qed.

(** The three tiers hold [ds], [hot] and [cold]: the hot tier never holds a window
    the ledger does not, nor the series one the hot tier does not. *)
Record tiers (size : Z) (ds hot cold : list WindowDelta) (w : World) : Prop := {
  t_ledger : ledger_of ds (windows w) (totals w);
  t_hot : hot_of hot (hashes w) (hlls w);
  t_series : series_of size cold (series w);
  t_hot_sub : hot `sublist_of` ds;
  t_cold_sub : cold `sublist_of` hot;
}.

Lemma flush_one_counts size d rep ds hot cold w :
  tiers size ds hot cold w → ∃ ds' hot' cold',
  tiers size ds' hot' cold' (flush_one size d rep w).1 ∧ (ds' = ds ∨ ds' = ds ++ [d]).
Proof.
  intros [Hl Hh Hs Hsub Hsub']. unfold flush_one. rewrite act_bind_run.
  pose proof (flush_window_counts d ds w Hl) as Hf.
  destruct (flush_window d w) as [w1 r1]. destruct Hf as (E1 & E2 & E3 & Hc).
  assert (Hh1 : hot_of hot (hashes w1) (hlls w1)) by congruence.
  assert (Hs1 : series_of size cold (series w1)) by congruence.
  destruct Hc as [[Hl1 Hr]|Hl1].
  { exists ds, hot, cold. destruct r1 as [[]|]; simpl; [done|..]; split; try by left.
    all: by constructor. }
  assert (Hd : hot `sublist_of` ds ++ [d]) by by apply sublist_inserts_r.
  exists (ds ++ [d]). destruct r1 as [[]|]; simpl;
    [|by exists hot, cold; split; [by constructor|by right]..].
  rewrite act_bind_run.
  pose proof (apply_delta_counts d hot w1 Hh1) as Ha.
  destruct (apply_delta d w1) as [w2 r2]. destruct Ha as (F1 & F2 & F3 & Hc).
  rewrite <- F1, <- F2 in Hl1. rewrite <- F3 in Hs1.
  destruct Hc as [[Hh2 Hr]|Hh2].
  { exists hot, cold. split; [|by right]. destruct r2 as [[]|]; [done|]. by constructor. }
  exists (hot ++ [d]).
  assert (Hd2 : hot ++ [d] `sublist_of` ds ++ [d]) by by apply sublist_app.
  assert (Hd3 : cold `sublist_of` hot ++ [d]) by by apply sublist_inserts_r.
  destruct r2 as [[]|]; [|by exists cold; split; [by constructor|by right]].
  rewrite act_bind_run.
  pose proof (append_counts size d cold w2 Hs1) as Hp.
  destruct (append size d w2) as [w3 r3]. destruct Hp as (G1 & G2 & G3 & G4 & Hc).
  rewrite <- G1, <- G2 in Hl1. rewrite <- G3, <- G4 in Hh2.
  assert (Hd4 : cold ++ [d] `sublist_of` hot ++ [d]) by by apply sublist_app.
  destruct Hc as [[Hs3 Hr]|Hs3]; [exists cold|exists (cold ++ [d])];
    (split; [destruct r3 as [[]|]; by constructor|by right]).
Qed.

Lemma flush_from_counts size batch rep ds hot cold w :
  tiers size ds hot cold w → ∃ ds' hot' cold',
  tiers size ds' hot' cold' (flush_from size batch rep w).1 ∧
  ∃ new, ds' = ds ++ new ∧ new `sublist_of` batch.
Proof.
  revert rep ds hot cold w. induction batch as [|d batch IH]; intros rep ds hot cold w Ht; simpl.
  { exists ds, hot, cold. split; [done|]. exists []. by rewrite app_nil_r. }
  rewrite act_bind_run.
  destruct (flush_one_counts size d rep ds hot cold w Ht) as (ds1 & hot1 & cold1 & Ht1 & Hd).
  destruct (flush_one size d rep w) as [w1 [rep1|e]]; simpl in *.
  - destruct (IH rep1 _ _ _ _ Ht1) as (ds2 & hot2 & cold2 & Ht2 & new & -> & Hn).
    exists (ds1 ++ new), hot2, cold2. split; [done|]. destruct Hd as [->| ->].
    + exists new. split; [done|]. by apply sublist_cons.
    + exists (d :: new). rewrite <- app_assoc. split; [done|]. by apply sublist_skip.
  - exists ds1, hot1, cold1. split; [done|]. destruct Hd as [->| ->].
    + exists []. rewrite app_nil_r. split; [done|]. apply sublist_nil_l.
    + exists [d]. split; [done|]. apply sublist_skip, sublist_nil_l.
Qed.

Lemma tiers_empty size fs : tiers size [] [] [] (set_faults fs empty_world).
Proof.
  split; [| | |done..].
  - split; [|apply NoDup_nil_2|]; simpl; [set_solver|done].
  - by split.
  - intros c. done.
Qed.

(** Batches flushed one after the other, whichever worker drained each of them. *)
Definition flush_all (size : Z) (batches : list (list WindowDelta)) (w : World) : World :=
  foldl (λ w batch, (flush size batch w).1) w batches.

(** A window is counted at most once in every tier.  Whatever batches workers
    flush, in whatever order, delivered again or overlapping, and whatever requests
    fail or lose their reply: the ledger's windows are those of a set of flushed
    deltas with distinct windows, every durable total is the sum of those deltas,
    and the hot counters, the unique-member sets and the hour cells of the time
    series hold sums over sublists of that same set. *)
Theorem window_counted_at_most_once size batches fs :
  ∃ ds hot cold, tiers size ds hot cold (flush_all size batches (set_faults fs empty_world)) ∧
    ds `sublist_of` concat batches.
Proof.
  assert (∀ ds hot cold w, tiers size ds hot cold w → ∃ ds' hot' cold',
    tiers size ds' hot' cold' (flush_all size batches w) ∧
    ∃ new, ds' = ds ++ new ∧ new `sublist_of` concat batches) as Hall.
  { unfold flush_all, flush. induction batches as [|b bs IH]; intros ds hot cold w Ht; simpl.
    - exists ds, hot, cold. split; [done|]. exists []. by rewrite app_nil_r.
    - destruct (flush_from_counts size b {| applied := 0; already_applied := 0 |} _ _ _ _ Ht)
        as (ds1 & hot1 & cold1 & Ht1 & n1 & -> & Hn1).
      destruct (IH _ _ _ _ Ht1) as (ds2 & hot2 & cold2 & Ht2 & n2 & -> & Hn2).
      exists ((ds ++ n1) ++ n2), hot2, cold2. split; [done|].
      exists (n1 ++ n2). rewrite app_assoc. split; [done|]. by apply sublist_app. }
  destruct (Hall _ _ _ _ (tiers_empty size fs)) as (ds & hot & cold & Ht & new & -> & Hn).
  by exists new, hot, cold.
Qed.
End Counts.
