(* ===== verification/CounterExact.v ===== *)
(** * Counter analytics: events on time are counted exactly

    The aggregator's buckets and the flushed deltas are tied to the log of the events
    a worker folded; when every event precedes the flush of its window, the tiers
    hold exactly the log ([on_time_counts_are_exact]).  An event after the flush of
    its window, from the same or another worker, is in no tier
    ([late_share_is_lost]). *)

From Stdlib Require Import SpecFloat.
From stdpp Require Import sorting.
From S2P Require Import Prelude Counter CounterStores CounterProofs.
Local Open Scope Z_scope.

(** ** The log of folded events *)

Section Log.
Context (ws : Z).

Definition in_window (k : WindowKey) (f : Observation → Z) (o : Observation) : Z :=
  if decide (obs_key ws o = k) then f o else 0.
Definition amount_in (k : WindowKey) (os : list Observation) : Z :=
  sum_with (in_window k amount) os.

Definition member_in (k : WindowKey) (o : Observation) : gset string :=
  if decide (obs_key ws o = k) then option_to_set (unique_member o) else ∅.
Definition members_in (k : WindowKey) (os : list Observation) : gset string :=
  ⋃ (member_in k <$> os).

(** What an event can add to a count. *)
Definition weight (o : Observation) : Z :=
  match aggregation (obs_metric o) with Sum => Z.abs (amount o) | Cardinality => 1 end.
Definition is_unique (o : Observation) : Z :=
  match aggregation (obs_metric o) with Sum => 0 | Cardinality => 1 end.

Lemma weight_nonneg o : 0 ≤ weight o.
Proof. unfold weight. destruct (aggregation _); lia. Qed.
Lemma is_unique_nonneg o : 0 ≤ is_unique o.
Proof. unfold is_unique. destruct (aggregation _); lia. Qed.
Lemma in_window_nonneg k f o : (∀ o, 0 ≤ f o) → 0 ≤ in_window k f o.
Proof. intros Hf. unfold in_window. specialize (Hf o). case_decide; lia. Qed.

Lemma sum_with_le {A} (f g : A → Z) l :
  (∀ x, x ∈ l → f x ≤ g x) → sum_with f l ≤ sum_with g l.
Proof.
  induction l as [|x l IH]; intros Hfg; simpl; [lia|].
  pose proof (Hfg x ltac:(set_solver)). pose proof (IH ltac:(set_solver)). lia.
Qed.

Lemma sum_with_ext {A} (f g : A → Z) l :
  (∀ x, x ∈ l → f x = g x) → sum_with f l = sum_with g l.
Proof.
  induction l as [|x l IH]; intros Hfg; simpl; [done|].
  rewrite (Hfg x ltac:(set_solver)), IH; [done|set_solver].
Qed.

Lemma sum_with_abs {A} (f : A → Z) l : Z.abs (sum_with f l) ≤ sum_with (λ x, Z.abs (f x)) l.
Proof. induction l as [|x l IH]; simpl; lia. Qed.

Lemma sum_with_zero {A} (f : A → Z) l : (∀ x, x ∈ l → f x = 0) → sum_with f l = 0.
Proof.
  induction l as [|x l IH]; intros Hf; simpl; [done|].
  rewrite (Hf x ltac:(set_solver)), IH; [done|set_solver].
Qed.

Lemma sum_with_plus {A} (f g : A → Z) l :
  sum_with (λ x, f x + g x) l = sum_with f l + sum_with g l.
Proof. induction l as [|x l IH]; simpl; [done|]. rewrite IH. lia. Qed.

(** One key's share of a sum over distinct keys. *)
Lemma sum_with_point `{EqDecision K} (k0 : K) (v : Z) keys :
  NoDup keys →
  sum_with (λ k, if decide (k0 = k) then v else 0) keys = if decide (k0 ∈ keys) then v else 0.
Proof.
  induction keys as [|k keys IH]; intros Hn; simpl; [done|].
  apply list.NoDup_cons in Hn as [Hk Hn]. rewrite (IH Hn).
  destruct (decide (k0 = k)) as [->|Hne].
  - rewrite decide_False by done. rewrite decide_True by set_solver. lia.
  - destruct (decide (k0 ∈ keys)); [rewrite decide_True by set_solver|
      rewrite decide_False by set_solver]; lia.
Qed.

(** Grouping the events of some windows by window. *)
Lemma sum_by_window (p : WindowKey → bool) (f : Observation → Z) os keys :
  NoDup keys →
  sum_with (λ k, if p k then sum_with (in_window k f) os else 0) keys =
  sum_with (λ o, if p (obs_key ws o) && bool_decide (obs_key ws o ∈ keys) then f o else 0) os.
Proof.
  intros Hn. induction os as [|o os IH]; simpl.
  - apply sum_with_zero. intros k _. by destruct (p k).
  - rewrite <- IH.
    transitivity (sum_with (λ k, (if decide (obs_key ws o = k)
        then (if p (obs_key ws o) then f o else 0) else 0)
      + (if p k then sum_with (in_window k f) os else 0)) keys).
    + apply sum_with_ext. intros k _. unfold in_window at 1.
      destruct (decide (obs_key ws o = k)) as [->|]; destruct (p k); lia.
    + rewrite sum_with_plus, (sum_with_point _ _ _ Hn). f_equal.
      case_bool_decide; [rewrite decide_True by done|rewrite decide_False by done];
        by destruct (p (obs_key ws o)).
Qed.

Lemma weight_by_window (f : Observation → Z) os keys :
  NoDup keys → (∀ o, 0 ≤ f o) →
  sum_with (λ k, sum_with (in_window k f) os) keys ≤ sum_with f os.
Proof.
  intros Hn Hf. rewrite (sum_by_window (λ _, true) f os keys Hn).
  apply sum_with_le. intros o _. specialize (Hf o). simpl. case_bool_decide; lia.
Qed.

Lemma weight_of_window k os :
  sum_with (in_window k weight) os ≤ sum_with weight os.
Proof.
  apply sum_with_le. intros o _. pose proof (weight_nonneg o). unfold in_window. case_decide; lia.
Qed.

Lemma amount_in_bound k os :
  aggregation (key_metric k) = Sum → Z.abs (amount_in k os) ≤ sum_with (in_window k weight) os.
Proof.
  intros Hk. unfold amount_in. etransitivity; [apply sum_with_abs|].
  apply sum_with_le. intros o _. unfold in_window, weight.
  destruct (decide (obs_key ws o = k)) as [<-|]; [|done]. simpl in Hk. rewrite Hk. lia.
Qed.

Lemma members_in_bound k os f :
  aggregation (key_metric k) = Cardinality →
  (∀ o, aggregation (obs_metric o) = Cardinality → f o = 1) →
  Z.of_nat (base.size (members_in k os)) ≤ sum_with (in_window k f) os.
Proof.
  intros Hk Hf. unfold members_in. induction os as [|o os IH]; [by vm_compute|].
  cbn [sum_with]. rewrite fmap_cons, union_list_cons.
  assert (base.size (member_in k o ∪ ⋃ (member_in k <$> os)) ≤
          base.size (member_in k o) + base.size (⋃ (member_in k <$> os)))%nat.
  { rewrite size_union_alt. apply Nat.add_le_mono_l, subseteq_size. set_solver. }
  assert (Z.of_nat (base.size (member_in k o)) ≤ in_window k f o); [|lia].
  unfold member_in, in_window. destruct (decide (obs_key ws o = k)) as [<-|].
  - rewrite (Hf o Hk). destruct (unique_member o) as [u|]; [change (Z.of_nat (base.size ({[u]} : gset string)) ≤ 1);
      rewrite size_singleton; lia|by vm_compute].
  - by rewrite size_empty.
Qed.

Lemma amount_in_snoc k os o : amount_in k (os ++ [o]) = amount_in k os + in_window k amount o.
Proof. apply sum_with_snoc. Qed.
Lemma members_in_snoc k os o : members_in k (os ++ [o]) = members_in k os ∪ member_in k o.
Proof. unfold members_in. rewrite fmap_app, union_list_app_L. simpl. set_solver. Qed.

(** ** Buckets and deltas that hold the log of their window *)

Definition bucket_ok (os : list Observation) (k : WindowKey) (acc : WindowAccumulator) : Prop :=
  match aggregation (key_metric k) with
  | Sum => acc_sum acc = amount_in k os
  | Cardinality => acc_members acc = members_in k os
  end.

Definition delta_ok (os : list Observation) (d : WindowDelta) : Prop :=
  match aggregation (delta_metric d) with
  | Sum => sum d = amount_in (delta_key d) os
  | Cardinality => NoDup (unique_members d) ∧
                   list_to_set (unique_members d) = members_in (delta_key d) os
  end.

Lemma delta_of_ok os k acc : bucket_ok os k acc → delta_ok os (delta_of k acc).
Proof.
  unfold bucket_ok, delta_ok, delta_of, delta_metric; simpl.
  destruct (aggregation _); [done|]. intros <-. split.
  - rewrite merge_sort_Permutation. apply NoDup_elements.
  - apply set_eq. intros x. rewrite elem_of_list_to_set, merge_sort_Permutation. set_solver.
Qed.

Lemma delta_ok_other os o d : obs_key ws o ≠ delta_key d → delta_ok os d → delta_ok (os ++ [o]) d.
Proof.
  intros Hne. unfold delta_ok.
  rewrite amount_in_snoc, members_in_snoc. unfold in_window, member_in.
  rewrite !decide_False by done. rewrite Z.add_0_r, (right_id_L ∅ (∪)). done.
Qed.

Lemma delta_ok_members os d :
  aggregation (delta_metric d) = Cardinality → delta_ok os d →
  length (unique_members d) = base.size (members_in (delta_key d) os).
Proof.
  intros Hm. unfold delta_ok. rewrite Hm. intros [Hn <-].
  by rewrite size_list_to_set.
Qed.

Lemma scalar_bound os d :
  delta_ok os d → Z.abs (scalar d) ≤ sum_with (in_window (delta_key d) weight) os.
Proof.
  intros Hd. unfold scalar. destruct (aggregation (delta_metric d)) eqn:Hm.
  - unfold delta_ok in Hd. rewrite Hm in Hd. rewrite Hd. by apply amount_in_bound.
  - rewrite (delta_ok_members os d Hm Hd), Z.abs_eq by lia.
    apply members_in_bound; [done|]. unfold weight. by intros o ->.
Qed.

Lemma sum_bound os ds f :
  NoDup (delta_key <$> ds) → Forall (delta_ok os) ds → (∀ d, Z.abs (f d) ≤ Z.abs (scalar d)) →
  Z.abs (sum_with f ds) ≤ sum_with weight os.
Proof.
  intros Hn Hds Hf. etransitivity; [apply sum_with_abs|].
  etransitivity; [|apply (weight_by_window weight os (delta_key <$> ds) Hn), weight_nonneg].
  clear Hn. induction Hds as [|d ds Hd Hds IH]; [done|].
  rewrite fmap_cons. cbn [sum_with].
  pose proof (scalar_bound os d Hd). specialize (Hf d). lia.
Qed.

Lemma row_sum_bound os ds r :
  NoDup (delta_key <$> ds) → Forall (delta_ok os) ds →
  Z.abs (sum_with (at_row r scalar) ds) ≤ sum_with weight os.
Proof. intros ??. apply sum_bound; [done..|]. intros d. unfold at_row. case_decide; lia. Qed.
End Log.

(** ** A worker's store when every request is answered *)

Section Worker.
Context `{RedisEnv} (ws : Z).

(** The tiers hold exactly [ds]. *)
Record holds (ds : list WindowDelta) (w : World) : Prop := {
  h_ledger : ledger_of ds (windows w) (totals w);
  h_hot : hot_of ds (hashes w) (hlls w);
  h_series : series_of ws ds (series w);
  h_faults : faults w = [];
}.

(** What the events of a log must satisfy for no store to refuse them. *)
Record acceptable (os : list Observation) : Prop := {
  ac_total : sum_with weight os ≤ i64_max;
  ac_members : sum_with is_unique os ≤ unpack_max;
}.

Lemma sum_rows_of_sum_metric e m ds :
  aggregation m = Sum →
  sum_with (at_row (row_key e m) sum) ds = sum_with (at_row (row_key e m) scalar) ds.
Proof.
  intros Hm. apply sum_with_ext. intros d _. unfold at_row, delta_row, scalar.
  case_decide as E; [|done]. apply row_key_inj in E as [_ ->]. by rewrite Hm.
Qed.

Lemma is_i64_abs z : Z.abs z ≤ i64_max → is_i64 z = true.
Proof. unfold is_i64, i64_max. intros. apply andb_true_iff. split; apply Z.leb_le; lia. Qed.

Lemma flush_sql_new os ds d w :
  acceptable os → Forall (delta_ok ws os) (ds ++ [d]) → NoDup (delta_key <$> ds ++ [d]) →
  pg_text (entity_id (delta_entity d)) = true →
  ledger_of ds (windows w) (totals w) → faults w = [] →
  ∃ w', flush_window d w = (w', Ok Applied) ∧ faults w' = [].
Proof.
  intros [Hac _] Hok Hn Hpg Hl Hf. unfold flush_window. rewrite request_answered by done.
  unfold flush_sql. rewrite Hpg. simpl. rewrite decide_False.
  - rewrite is_i64_abs; [by eexists|]. fold (delta_row d).
    rewrite (lo_totals _ _ _ Hl (delta_row d)).
    rewrite <- (at_row_same d scalar), <- sum_with_snoc.
    etransitivity; [by apply (row_sum_bound ws os)|done].
  - rewrite (lo_windows _ _ _ Hl). rewrite fmap_app in Hn.
    apply list.NoDup_app in Hn as (_ & Hd & _). intros Hin. apply (Hd _ Hin). simpl. set_solver.
Qed.

Lemma apply_delta_new os ds d w :
  acceptable os → Forall (delta_ok ws os) (ds ++ [d]) → NoDup (delta_key <$> ds ++ [d]) →
  hot_of ds (hashes w) (hlls w) → faults w = [] →
  ∃ w', apply_delta d w = (w', Ok tt) ∧ faults w' = [].
Proof.
  intros [Hac Hup] Hok Hn [Hs _] Hf. unfold apply_delta.
  destruct (aggregation (delta_metric d)) eqn:Hm.
  - unfold hincrby. rewrite act_bind_run, request_answered by done.
    rewrite Hs by done. rewrite is_i64_abs.
    + unfold zincrby. rewrite request_answered by done. by eexists.
    + rewrite <- (at_row_same d sum), <- sum_with_snoc. unfold delta_row.
      rewrite sum_rows_of_sum_metric by done.
      etransitivity; [by apply (row_sum_bound ws os)|done].
  - destruct (unique_members d) eqn:Hu; [by eexists|]. rewrite <- Hu.
    unfold pfadd. rewrite request_answered by done.
    apply Forall_app in Hok as [_ Hok]. apply list.Forall_cons in Hok as [Hok _].
    assert (Z.of_nat (length (unique_members d)) ≤ unpack_max) as Hle.
    { rewrite (delta_ok_members ws os d Hm Hok).
      etransitivity; [apply (members_in_bound ws _ _ is_unique); [done|]|].
      { unfold is_unique. by intros o ->. }
      etransitivity; [|done]. apply sum_with_le. intros o _.
      pose proof (is_unique_nonneg o). unfold in_window. case_decide; lia. }
    apply Z.ltb_ge in Hle. rewrite Hle. by eexists.
Qed.

Lemma flush_one_new os ds d rep w :
  acceptable os → Forall (delta_ok ws os) (ds ++ [d]) → NoDup (delta_key <$> ds ++ [d]) →
  pg_text (entity_id (delta_entity d)) = true → holds ds w →
  ∃ w', flush_one ws d rep w =
    (w', Ok {| applied := S (applied rep); already_applied := already_applied rep |}) ∧
    holds (ds ++ [d]) w'.
Proof.
  intros Hac Hok Hn Hpg [Hl Hh Hs Hf]. unfold flush_one. rewrite act_bind_run.
  pose proof (flush_window_counts d ds w Hl) as Hc.
  destruct (flush_sql_new os ds d w) as (w1 & E1 & Hf1); [done..|]. rewrite E1 in Hc |- *.
  destruct Hc as (G1 & G2 & G3 & [[_ ?]|Hl1]); [done|].
  rewrite <- G1, <- G2 in Hh. rewrite <- G3 in Hs. simpl. rewrite act_bind_run.
  pose proof (apply_delta_counts d ds w1 Hh) as Hc.
  destruct (apply_delta_new os ds d w1) as (w2 & E2 & Hf2); [done..|]. rewrite E2 in Hc |- *.
  destruct Hc as (F1 & F2 & F3 & [[_ ?]|Hh2]); [done|].
  rewrite <- F1, <- F2 in Hl1. rewrite <- F3 in Hs. rewrite act_bind_run.
  pose proof (append_counts ws d ds w2 Hs) as Hc. unfold append in *.
  rewrite request_answered in Hc |- * by done. simpl in *.
  destruct Hc as (_ & _ & _ & _ & [[_ ?]|Hs3]); [done|].
  eexists. split; [done|]. by constructor.
Qed.

Lemma flush_from_new os ds batch rep w :
  acceptable os → Forall (delta_ok ws os) (ds ++ batch) → NoDup (delta_key <$> ds ++ batch) →
  (∀ d, d ∈ batch → pg_text (entity_id (delta_entity d)) = true) → holds ds w →
  ∃ w' rep', flush_from ws batch rep w = (w', Ok rep') ∧ holds (ds ++ batch) w'.
Proof.
  intros Hac. revert ds rep w. induction batch as [|d batch IH]; intros ds rep w Hok Hn Hpg Hh.
  { simpl. rewrite app_nil_r. by eexists _, _. }
  replace (ds ++ d :: batch) with ((ds ++ [d]) ++ batch) in * by by rewrite <- app_assoc.
  destruct (flush_one_new os ds d rep w) as (w1 & E1 & Hh1); [done| | |by apply Hpg; left|done|].
  { by apply Forall_app in Hok as [? _]. }
  { rewrite fmap_app in Hn. by apply list.NoDup_app in Hn as [? _]. }
  destruct (IH (ds ++ [d]) {| applied := S (applied rep); already_applied := already_applied rep |} w1)
    as (w2 & rep2 & E2 & Hh2); [done..|by intros; apply Hpg; right|done|].
  exists w2, rep2. split; [|done]. simpl. by rewrite act_bind_run, E1.
Qed.

(** Publishing popularity touches no count. *)
Lemma read_cards_answered e ms w : faults w = [] → ∃ vs, read_cards e ms w = (w, Ok vs).
Proof.
  intros Hf. induction ms as [|m ms IH]; simpl; [by eexists|].
  rewrite act_bind_run, request_answered by done. simpl.
  rewrite act_bind_run. destruct IH as [vs ->]. by eexists.
Qed.

Lemma hot_read_answered es ms w : faults w = [] → ∃ snaps, hot_read es ms w = (w, Ok snaps).
Proof.
  intros Hf. induction es as [|e es IH]; simpl; [by eexists|].
  rewrite act_bind_run.
  assert (∃ vs, read_sums e (filter (λ m, aggregation m = Sum) ms) w = (w, Ok vs)) as [vs ->].
  { unfold read_sums. destruct (filter _ _); [by eexists|].
    rewrite request_answered by done. by eexists. }
  rewrite act_bind_run.
  destruct (read_cards_answered e (filter (λ m, aggregation m = Cardinality) ms) w Hf) as [us ->].
  rewrite act_bind_run. destruct IH as [snaps ->]. by eexists.
Qed.

Lemma publish_touched_holds seen batch ds w : holds ds w → holds ds (publish_touched seen batch w).
Proof.
  revert seen w. induction batch as [|d batch IH]; intros seen w Hh; simpl; [done|].
  case_decide; [by apply IH|]. apply IH. unfold publish. rewrite act_bind_run.
  destruct Hh as [? ? ? Hf].
  destruct (hot_read_answered [delta_entity d] POPULARITY_METRICS w Hf) as [snaps ->].
  unfold publish_popularity. rewrite request_answered by done. by constructor.
Qed.
End Worker.

(** ** Draining *)

Lemma collect_spec keys b :
  NoDup keys →
  let '(ds, b') := collect keys b in
  (∀ k, b' !! k = if decide (k ∈ keys) then None else b !! k) ∧
  (∀ d, d ∈ ds ↔ ∃ acc, delta_key d ∈ keys ∧ b !! delta_key d = Some acc ∧
                        d = delta_of (delta_key d) acc) ∧
  NoDup (delta_key <$> ds).
Proof.
  revert b. induction keys as [|k keys IH]; intros b Hn; simpl.
  { split_and!; [done| |apply NoDup_nil_2]. intros d. split; [by intros ?%not_elem_of_nil|].
    by intros (? & ?%not_elem_of_nil & _). }
  apply list.NoDup_cons in Hn as [Hk Hn].
  destruct (b !! k) as [acc|] eqn:Hb.
  - specialize (IH (delete k b) Hn). destruct (collect keys (delete k b)) as [ds b'].
    destruct IH as (H1 & H2 & H3). split_and!.
    + intros k'. rewrite H1. destruct (decide (k' = k)) as [->|Hne].
      * rewrite decide_False by done. rewrite lookup_delete_eq.
        by rewrite decide_True by set_solver.
      * rewrite lookup_delete_ne by done. destruct (decide (k' ∈ keys));
          [rewrite decide_True by set_solver|rewrite decide_False by set_solver]; done.
    + intros d. rewrite elem_of_cons, H2. split.
      * intros [->|(a & Hd & Ha & E)]; simpl.
        -- exists acc. split_and!; [by left|done|done].
        -- exists a. split_and!; [by right| |done].
           by rewrite lookup_delete_ne in Ha by set_solver.
      * intros (a & [E|Hd]%elem_of_cons & Ha & E').
        -- left. rewrite E in Ha, E'. congruence.
        -- right. exists a. split_and!; [done| |done]. rewrite lookup_delete_ne by set_solver. done.
    + rewrite fmap_cons. apply list.NoDup_cons. split; [|done].
      intros (d & E & Hd)%list_elem_of_fmap. apply H2 in Hd as (a & Hin & _).
      simpl in E. by rewrite <- E in Hin.
  - specialize (IH b Hn). destruct (collect keys b) as [ds b'].
    destruct IH as (H1 & H2 & H3). split_and!; [| |done].
    + intros k'. rewrite H1. destruct (decide (k' = k)) as [->|Hne].
      * rewrite decide_False by done. by rewrite decide_True by set_solver.
      * destruct (decide (k' ∈ keys));
          [rewrite decide_True by set_solver|rewrite decide_False by set_solver]; done.
    + intros d. rewrite H2. split; intros (a & Hd & Ha & E); exists a; split_and!; try done.
      * by right.
      * apply elem_of_cons in Hd as [Ek|]; [rewrite Ek in Ha; congruence|done].
Qed.

Lemma drain_closed_spec a now :
  let closed k := is_closed_at (key_window k) (size a) now = true in
  let '(a', ds) := drain_closed a now in
  size a' = size a ∧
  (∀ k acc, buckets a' !! k = Some acc → buckets a !! k = Some acc ∧ ¬ closed k) ∧
  (∀ k, is_Some (buckets a !! k) → closed k ∨ is_Some (buckets a' !! k)) ∧
  (∀ d, d ∈ ds → closed (delta_key d) ∧
        ∃ acc, buckets a !! delta_key d = Some acc ∧ d = delta_of (delta_key d) acc) ∧
  (∀ k, is_Some (buckets a !! k) → closed k → k ∈ delta_key <$> ds) ∧
  NoDup (delta_key <$> ds).
Proof.
  intros closed. unfold drain_closed, remove_and_collect. set (keys := filter _ _).
  assert (NoDup keys) as Hn by apply list.NoDup_filter, NoDup_fst_map_to_list.
  assert (∀ k, k ∈ keys ↔ closed k ∧ is_Some (buckets a !! k)) as Hin.
  { intros k. unfold keys. rewrite list_elem_of_filter, list_elem_of_fmap. split.
    - intros [Hc ([k' acc] & -> & Hx%elem_of_map_to_list)]. simpl. split; [done|by exists acc].
    - intros [Hc [acc Hacc]]. split; [done|]. exists (k, acc). split; [done|].
      by apply elem_of_map_to_list. }
  clearbody keys. pose proof (collect_spec keys (buckets a) Hn) as Hc.
  destruct (collect keys (buckets a)) as [ds b]. destruct Hc as (H1 & H2 & H3). simpl.
  split_and!; [done| | | | |].
  - intros k acc. rewrite H1. case_decide as Hk; [done|]. intros Hb. split; [done|].
    intros ?. apply Hk, Hin. by split; [|exists acc].
  - intros k Hk. rewrite H1. case_decide as Hd; [left|right; done]. by apply Hin.
  - intros d. rewrite merge_sort_Permutation, H2. intros (acc & Hd & Ha & E).
    split; [by apply Hin|by exists acc].
  - intros k [acc Hacc] Hk. apply list_elem_of_fmap. exists (delta_of k acc). split; [done|].
    rewrite merge_sort_Permutation. apply H2. exists acc. split_and!; [|done..].
    apply Hin. by split; [|exists acc].
  - by rewrite merge_sort_Permutation.
Qed.

Lemma elem_of_app_fmap_keys (k : WindowKey) ds ds' :
  k ∈ delta_key <$> ds ++ ds' → k ∈ delta_key <$> ds ∨ k ∈ delta_key <$> ds'.
Proof. by rewrite fmap_app, elem_of_app. Qed.

(** ** The worker's invariant *)

Section Invariant.
Context `{RedisEnv} (ws : Z).

Definition well_formed (o : Observation) : Prop :=
  pg_text (entity_id (obs_entity o)) = true ∧
  (aggregation (obs_metric o) = Cardinality → is_Some (unique_member o)).

(** [os] is the log, [ticks] the instants of the flushes so far. *)
Record worker_inv (os : list Observation) (ticks : list Z) (ds : list WindowDelta)
    (s : WindowAggregator * World) : Prop := {
  wi_size : size s.1 = ws;
  wi_buckets : ∀ k acc, buckets s.1 !! k = Some acc →
    bucket_ok ws os k acc ∧ (k ∉ delta_key <$> ds) ∧ k ∈ obs_key ws <$> os;
  wi_log : ∀ o, o ∈ os → obs_key ws o ∈ delta_key <$> ds ∨ is_Some (buckets s.1 !! obs_key ws o);
  wi_deltas : Forall (delta_ok ws os) ds;
  wi_closed : ∀ k, k ∈ delta_key <$> ds → k ∈ obs_key ws <$> os ∧
    ∃ t, t ∈ ticks ∧ is_closed_at (key_window k) ws t = true;
  wi_holds : holds ws ds s.2;
}.

Lemma worker_inv_init : worker_inv [] [] [] (aggregator_new ws, empty_world).
Proof.
  split; simpl; try done.
  - intros o. set_solver.
  - intros k. set_solver.
  - split; [| | |done].
    + split; [set_solver|apply NoDup_nil_2|done].
    + by split.
    + intros c. done.
Qed.

Lemma saturating_add_exact k os o :
  sum_with weight (os ++ [o]) ≤ i64_max → aggregation (key_metric k) = Sum → obs_key ws o = k →
  i64_saturating_add (amount_in ws k os) (amount o) = amount_in ws k (os ++ [o]).
Proof.
  intros Hw Hk Ho. pose proof (amount_in_bound ws k (os ++ [o]) Hk) as Hb.
  pose proof (weight_of_window ws k (os ++ [o])).
  assert (in_window ws k amount o = amount o) as E by (unfold in_window; by rewrite decide_True).
  rewrite amount_in_snoc, E in Hb |- *. unfold i64_saturating_add. unfold i64_max in *. lia.
Qed.

Lemma fold_inv os ticks ds a w o :
  worker_inv os ticks ds (a, w) → sum_with weight (os ++ [o]) ≤ i64_max → well_formed o →
  (∀ t, t ∈ ticks → is_closed_at (for_event ws (occurred_at o)) ws t = false) →
  ∃ a', fold a o = (a', Ok tt) ∧ worker_inv (os ++ [o]) ticks ds (a', w).
Proof.
  intros [Hsz Hb Hlog Hds Hcl Hh] Hw [Hpg Hmem] Hlate. simpl in *. unfold fold. rewrite Hsz.
  set (k := obs_key ws o).
  assert (k ∉ delta_key <$> ds) as Hfresh.
  { intros (_ & t & Ht & Hc)%Hcl. specialize (Hlate t Ht). subst k. simpl in Hc. congruence. }
  set (acc := default acc_default (buckets a !! k)).
  assert (bucket_ok ws os k acc) as Hacc.
  { subst acc. destruct (buckets a !! k) as [acc|] eqn:E; simpl; [by apply Hb in E as []|].
    assert (∀ o', o' ∈ os → obs_key ws o' ≠ k) as Hno.
    { intros o' Ho' Eo. destruct (Hlog o' Ho') as [Hd|[x Hx]]; congruence. }
    unfold bucket_ok. destruct (aggregation _); simpl; symmetry.
    - apply sum_with_zero. intros o' Ho'. unfold in_window. case_decide as Ek; [by destruct (Hno o' Ho')|done].
    - unfold members_in. apply empty_union_list_L, Forall_fmap, list.Forall_forall.
      intros o' Ho'. simpl. unfold member_in. case_decide as Ek; [by destruct (Hno o' Ho')|done]. }
  assert (∀ acc', bucket_ok ws (os ++ [o]) k acc' →
    worker_inv (os ++ [o]) ticks ds ({| size := ws; buckets := <[k:=acc']> (buckets a) |}, w))
    as Hput.
  { intros acc' Hacc'. split; simpl; [done| | | | |done].
    - intros k' x Hx. destruct (decide (k' = k)) as [->|Hne].
      + rewrite lookup_insert_eq in Hx. injection Hx as <-. split_and!; [done..|].
        rewrite fmap_app. simpl. set_solver.
      + rewrite lookup_insert_ne in Hx by done. destruct (Hb k' x Hx) as (Hx1 & ? & ?).
        split_and!; [|done|rewrite fmap_app; set_solver].
        unfold bucket_ok in *. rewrite amount_in_snoc, members_in_snoc. unfold in_window, member_in.
        rewrite !decide_False by done. by rewrite Z.add_0_r, (right_id_L ∅ (∪)).
    - intros o' [Ho'|Ho']%elem_of_app.
      + destruct (Hlog o' Ho') as [?|[x Hx]]; [by left|right].
        destruct (decide (obs_key ws o' = k)) as [->|Hne];
          [rewrite lookup_insert_eq|rewrite lookup_insert_ne by done]; eauto.
      + right. apply list_elem_of_singleton in Ho' as ->. fold k. rewrite lookup_insert_eq. eauto.
    - apply list.Forall_forall. intros d Hd. apply delta_ok_other.
      + intros E. apply Hfresh. fold k in E. rewrite E. by apply list_elem_of_fmap_2.
      + by eapply list.Forall_forall.
    - intros k' Hk'. destruct (Hcl k' Hk') as [? ?]. split; [|done]. rewrite fmap_app. set_solver. }
  destruct (aggregation (obs_metric o)) eqn:Hm.
  - eexists. split; [done|]. apply Hput. unfold bucket_ok in *. subst k. simpl in *.
    rewrite Hm in *. simpl. rewrite Hacc. by apply saturating_add_exact.
  - destruct (Hmem eq_refl) as [u Hu]. rewrite Hu. eexists. split; [done|]. apply Hput.
    unfold bucket_ok in *. subst k. simpl in *. rewrite Hm in *. simpl.
    rewrite Hacc, members_in_snoc. unfold member_in. rewrite decide_True, Hu by done.
    simpl. set_solver.
Qed.

Lemma flush_tick_inv os ticks ds a w now :
  worker_inv os ticks ds (a, w) → acceptable os → (∀ o, o ∈ os → well_formed o) →
  let s' := flush_tick ws now a w in
  (∃ ds', worker_inv os (now :: ticks) ds' s') ∧
  ∀ k, is_Some (buckets s'.1 !! k) → is_closed_at (key_window k) ws now = false.
Proof.
  intros [Hsz Hb Hlog Hds Hcl Hh] Hac Hwf. simpl in *. unfold flush_tick.
  pose proof (drain_closed_spec a now) as Hd. destruct (drain_closed a now) as [a' batch].
  rewrite Hsz in Hd. destruct Hd as (Hsz' & Hb' & Hkeep & Hbatch & Hall & Hn).
  assert (Forall (delta_ok ws os) (ds ++ batch)) as Hok.
  { apply Forall_app. split; [done|]. apply list.Forall_forall. intros d Hd.
    apply Hbatch in Hd as (_ & acc & Hacc & ->). by apply delta_of_ok, Hb. }
  assert (∀ k, k ∈ delta_key <$> batch → is_Some (buckets a !! k) ∧
            is_closed_at (key_window k) ws now = true) as Hkeys.
  { intros k (d & -> & Hd)%list_elem_of_fmap. apply Hbatch in Hd as (Hc & acc & Hacc & _).
    split; [by exists acc|done]. }
  assert (NoDup (delta_key <$> ds ++ batch)) as Hnd.
  { rewrite fmap_app. apply list.NoDup_app. split_and!; [apply Hh| |done].
    intros k Hk [[acc Hacc] _]%Hkeys. by apply Hb in Hacc as (_ & ? & _). }
  assert (∀ d, d ∈ batch → pg_text (entity_id (delta_entity d)) = true) as Hpg.
  { intros d Hd. destruct (Hkeys (delta_key d)) as [[acc Hacc] _]; [by apply list_elem_of_fmap_2|].
    apply Hb in Hacc as (_ & _ & (o & E & Ho)%list_elem_of_fmap).
    unfold delta_entity. rewrite E. by apply Hwf. }
  destruct (flush_from_new ws os ds batch {| applied := 0; already_applied := 0 |} w)
    as (w' & rep & Ef & Hh'); [done..|].
  assert (∀ w1, holds ws (ds ++ batch) w1 →
    worker_inv os (now :: ticks) (ds ++ batch) (a', w1)) as Hinv.
  { intros w1 Hw1. split; simpl; try done.
    - intros k acc Hk. apply Hb' in Hk as [Hk Hc]. destruct (Hb k acc Hk) as (? & Hd & ?).
      split_and!; [done| |done]. rewrite fmap_app, elem_of_app. intros [|[_ ?]%Hkeys]; done.
    - intros o Ho. rewrite fmap_app, elem_of_app. destruct (Hlog o Ho) as [?|Hs]; [by left; left|].
      destruct (Hkeep _ Hs) as [Hc|]; [left; right; by apply Hall|by right].
    - intros k [Hk|Hk]%elem_of_app_fmap_keys.
      + destruct (Hcl k Hk) as (? & t & ? & ?). split; [done|]. exists t. split; [by right|done].
      + apply Hkeys in Hk as [[acc Hacc] Hc]. split; [by apply Hb in Hacc as (_ & _ & ?)|].
        exists now. split; [by left|done]. }
  assert (∀ k, is_Some (buckets a' !! k) → is_closed_at (key_window k) ws now = false) as Hopen.
  { intros k [acc Hk]. apply Hb' in Hk as [_ Hc]. by apply not_true_is_false. }
  destruct batch as [|d batch].
  { split; [|done]. rewrite app_nil_r in Hinv. eexists. by apply Hinv. }
  unfold flush. rewrite Ef. split; [|done]. eexists. apply Hinv. by apply publish_touched_holds.
Qed.

(** Every event comes before any flush of its window: [ticks] are the instants of
    the flushes so far. *)
Fixpoint on_time (ticks : list Z) (xs : list WorkerAction) : Prop :=
  match xs with
  | [] => True
  | Ingest os :: xs =>
      (∀ o t, o ∈ os → t ∈ ticks → is_closed_at (for_event ws (occurred_at o)) ws t = false) ∧
      on_time ticks xs
  | Tick t :: xs => on_time (t :: ticks) xs
  end.

Definition ingested (xs : list WorkerAction) : list Observation :=
  concat ((λ x, match x with Ingest os => os | Tick _ => [] end) <$> xs).

Lemma acceptable_prefix os os' : acceptable (os ++ os') → acceptable os.
Proof.
  intros [H1 H2]. rewrite sum_with_app in H1, H2.
  pose proof (sum_with_nonneg weight os' (λ o _, weight_nonneg o)).
  pose proof (sum_with_nonneg is_unique os' (λ o _, is_unique_nonneg o)). split; lia.
Qed.

Lemma fold_all_inv os ticks ds a w os' :
  worker_inv os ticks ds (a, w) → acceptable (os ++ os') → (∀ o, o ∈ os' → well_formed o) →
  (∀ o t, o ∈ os' → t ∈ ticks → is_closed_at (for_event ws (occurred_at o)) ws t = false) →
  worker_inv (os ++ os') ticks ds ((fold_all a os').1, w).
Proof.
  revert os a. induction os' as [|o os' IH]; intros os a Hi Hac Hwf Ht; [by rewrite app_nil_r|].
  replace (os ++ o :: os') with ((os ++ [o]) ++ os') in * by by rewrite <- app_assoc.
  destruct (fold_inv os ticks ds a w o) as (a' & E & Hi').
  - done.
  - by apply acceptable_prefix in Hac as [? _].
  - apply Hwf. by left.
  - intros t. apply Ht. by left.
  - simpl. rewrite E. apply IH; [done..| |].
    + intros o' Ho'. apply Hwf. by right.
    + intros o' t Ho'. apply Ht. by right.
Qed.

Lemma run_worker_inv xs os ticks ds s :
  worker_inv os ticks ds s → acceptable (os ++ ingested xs) →
  (∀ o, o ∈ os ++ ingested xs → well_formed o) → on_time ticks xs →
  ∃ ticks' ds', worker_inv (os ++ ingested xs) ticks' ds' (run_worker ws xs s).
Proof.
  revert os ticks ds s. induction xs as [|x xs IH]; intros os ticks ds [a w] Hi Hac Hwf Ht.
  { rewrite app_nil_r. by exists ticks, ds. }
  unfold run_worker, ingested in *. rewrite fmap_cons in *. simpl concat in *. cbn [foldl].
  destruct x as [os'|now]; simpl in *.
  - rewrite app_assoc in *. destruct Ht as [Ht1 Ht2]. apply (IH _ ticks ds); [|done..].
    apply fold_all_inv; [done|by apply acceptable_prefix in Hac| |done].
    intros o Ho. apply Hwf. set_solver.
  - destruct (flush_tick_inv os ticks ds a w now Hi) as [[ds' Hi'] _].
    { by apply acceptable_prefix in Hac. } { intros o Ho. apply Hwf. set_solver. }
    by apply (IH os (now :: ticks) ds').
Qed.
End Invariant.

(** ** Exact counts *)

Definition about (e : EntityRef) (m : Metric) (o : Observation) : bool :=
  bool_decide (obs_entity o = e ∧ obs_metric o = m).
Definition count_of (e : EntityRef) (m : Metric) (os : list Observation) : Z :=
  sum_with (λ o, if about e m o then amount o else 0) os.
Definition members_of (e : EntityRef) (m : Metric) (os : list Observation) : gset string :=
  ⋃ ((λ o, if about e m o then option_to_set (unique_member o) else ∅) <$> os).

(** The events of an hour cell: those whose window starts in it. *)
Definition count_in_cell (ws : Z) (e : EntityRef) (m : Metric) (b : Z) (os : list Observation) : Z :=
  sum_with (λ o, if about e m o && bool_decide (bucket_of ws (for_event ws (occurred_at o)) = b)
                 then amount o else 0) os.

Section Totals.
Context `{RedisEnv} (ws : Z).

Lemma about_row e m e' m' : row_key e m = row_key e' m' ↔ e = e' ∧ m = m'.
Proof. split; [apply row_key_inj|]. by intros [-> ->]. Qed.

(** The deltas of a sum metric add up to the events of their windows. *)
Lemma sums_of_log (q : WindowKey → bool) f os ds e m :
  aggregation m = Sum → Forall (delta_ok ws os) ds → NoDup (delta_key <$> ds) →
  (∀ o, o ∈ os → obs_key ws o ∈ delta_key <$> ds) →
  (∀ d, d ∈ ds → f d = if bool_decide (delta_row d = row_key e m) && q (delta_key d)
                       then sum d else 0) →
  sum_with f ds = sum_with (λ o, if about e m o && q (obs_key ws o) then amount o else 0) os.
Proof.
  intros Hm Hok Hn Hcov Hf.
  set (p := λ k, bool_decide (key_entity k = e ∧ key_metric k = m) && q k).
  transitivity (sum_with (λ k, if p k then sum_with (in_window ws k amount) os else 0)
                         (delta_key <$> ds)).
  - clear Hn Hcov. induction Hok as [|d ds Hd Hds IH]; [done|].
    rewrite fmap_cons. cbn [sum_with]. rewrite IH by (intros; apply Hf; by right).
    f_equal. rewrite (Hf d) by by left. subst p. cbv beta.
    rewrite (bool_decide_ext (delta_row d = row_key e m)
      (key_entity (delta_key d) = e ∧ key_metric (delta_key d) = m)) by apply about_row.
    case_bool_decide as E; [|done]. simpl. destruct (q (delta_key d)); [|done].
    destruct E as [_ E]. unfold delta_ok, delta_metric in Hd. by rewrite E, Hm in Hd.
  - rewrite (sum_by_window ws p amount os (delta_key <$> ds) Hn). apply sum_with_ext.
    intros o Ho. rewrite (bool_decide_eq_true_2 (obs_key ws o ∈ delta_key <$> ds)) by auto.
    rewrite andb_true_r. done.
Qed.

Lemma members_of_log os ds e m :
  aggregation m = Cardinality → Forall (delta_ok ws os) ds →
  (∀ o, o ∈ os → obs_key ws o ∈ delta_key <$> ds) →
  ⋃ (members_at (row_key e m) <$> ds) = members_of e m os.
Proof.
  intros Hm Hok Hcov. apply set_eq. intros x. unfold members_of.
  rewrite !elem_of_union_list. setoid_rewrite list_elem_of_fmap. split.
  - intros (X & (d & -> & Hd) & Hx). unfold members_at in Hx. case_decide as E; [|set_solver].
    apply about_row in E as [Ee Em]. pose proof (proj1 (list.Forall_forall _ _) Hok d Hd) as Hdok.
    unfold delta_ok in Hdok. rewrite Em, Hm in Hdok. destruct Hdok as [_ Hmem].
    rewrite Hmem in Hx. apply elem_of_union_list in Hx as (Y & (o & -> & Ho)%list_elem_of_fmap & Hx).
    unfold member_in in Hx. case_decide as Ek; [|set_solver].
    eexists. split; [by exists o|]. unfold about. rewrite bool_decide_true; [done|].
    unfold delta_entity, delta_metric in *. by rewrite <- Ek in Ee, Em.
  - intros (X & (o & -> & Ho) & Hx). unfold about in Hx. case_bool_decide as E; [|set_solver].
    pose proof (Hcov o Ho) as Hk. apply list_elem_of_fmap in Hk as (d & Ek & Hd).
    eexists. split; [by exists d|]. unfold members_at. rewrite decide_True.
    + pose proof (proj1 (list.Forall_forall _ _) Hok d Hd) as Hdok.
      unfold delta_ok, delta_metric in Hdok. rewrite <- Ek in Hdok. simpl in Hdok.
      destruct E as [_ E]. rewrite E, Hm in Hdok. destruct Hdok as [_ ->].
      apply elem_of_union_list. eexists. split; [by apply list_elem_of_fmap_2|].
      unfold member_in. by rewrite decide_True.
    + unfold delta_row, delta_entity, delta_metric. rewrite <- Ek. by apply about_row.
Qed.

(** C5. A worker counts every event that is on time, exactly, in all three tiers.
    Let a worker start from empty stores and fold any events in any order, with flush
    ticks at any instants in between and every store request answered, such that no event
    comes after a flush of its own window; the events are well formed and small enough in
    total for the integer columns and for one [PFADD].  After a last tick past every
    window nothing is pending, and for every entity and metric: a sum metric's durable
    total and hot counter are both the sum of its events' amounts and each hour cell of
    the time series the sum of the events of that hour; a cardinality metric's HyperLogLog
    was fed exactly the set of members of its events. *)
Theorem on_time_counts_are_exact xs now e m :
  let os := ingested xs in
  (∀ o, o ∈ os → well_formed o) → acceptable os → on_time ws [] xs →
  (∀ o, o ∈ os → is_closed_at (for_event ws (occurred_at o)) ws now = true) →
  let '(a, w) := run_worker ws (xs ++ [Tick now]) (aggregator_new ws, empty_world) in
  pending a = 0%nat ∧
  match aggregation m with
  | Sum =>
      default 0 (totals w !! row_key e m) = count_of e m os ∧
      default 0 (hashes w !! (hash_key e, metric_str m)) = count_of e m os ∧
      ∀ b, default 0 (series w !! (row_key e m, b)) = count_in_cell ws e m b os
  | Cardinality => default ∅ (hlls w !! hll_key e m) = members_of e m os
  end.
Proof.
  intros os Hwf Hac Ht Hend.
  destruct (run_worker_inv ws xs [] [] [] (aggregator_new ws, empty_world))
    as (ticks & ds0 & Hi); [apply worker_inv_init|done..|].
  change ([] ++ ingested xs) with os in Hi.
  unfold run_worker. rewrite foldl_app. fold (run_worker ws xs (aggregator_new ws, empty_world)).
  destruct (run_worker ws xs _) as [a0 w0]. cbn [foldl worker_step fst snd].
  destruct (flush_tick_inv ws os ticks ds0 a0 w0 now Hi Hac Hwf) as [[ds Hi'] Hopen].
  destruct (flush_tick ws now a0 w0) as [a w]. destruct Hi' as [_ Hb Hlog Hok _ [Hl Hh Hs _]].
  simpl in *.
  assert (buckets a = ∅) as Hempty.
  { apply map_empty. intros k. destruct (buckets a !! k) as [acc|] eqn:E; [|done]. exfalso.
    destruct (Hb k acc E) as (_ & _ & (o & -> & Ho)%list_elem_of_fmap).
    pose proof (Hopen _ (ex_intro _ acc E)) as Hc. simpl in Hc. rewrite (Hend o Ho) in Hc. done. }
  assert (∀ o, o ∈ os → obs_key ws o ∈ delta_key <$> ds) as Hcov.
  { intros o Ho. destruct (Hlog o Ho) as [?|[acc Hacc]]; [done|].
    by rewrite Hempty, lookup_empty in Hacc. }
  split; [unfold pending; by rewrite Hempty, map_size_empty|].
  destruct (aggregation m) eqn:Hm.
  - assert (∀ f, (∀ d, d ∈ ds → f d = at_row (row_key e m) sum d) →
              sum_with f ds = count_of e m os) as Hsum.
    { intros f Hf. rewrite (sums_of_log (λ _, true) f os ds e m Hm Hok); [|apply Hl|done|].
      - apply sum_with_ext. intros o _. by rewrite andb_true_r.
      - intros d Hd. rewrite Hf, andb_true_r by done. unfold at_row.
        case_decide; [by rewrite bool_decide_true|by rewrite bool_decide_false]. }
    split_and!.
    + rewrite (lo_totals _ _ _ Hl), <- (sum_rows_of_sum_metric e m ds Hm). by apply Hsum.
    + rewrite (ho_sums _ _ _ Hh e m Hm). by apply Hsum.
    + intros b. rewrite Hs, wrap64_small.
      * rewrite (sums_of_log (λ k, bool_decide (bucket_of ws (key_window k) = b))
          (at_cell ws (row_key e m, b)) os ds e m Hm Hok); [done|apply Hl|done|]. intros d Hd. unfold at_cell, scalar, delta_window; simpl.
        destruct (decide _) as [[E1 E2]|Hne].
        -- rewrite !bool_decide_true by done. simpl.
           apply about_row in E1 as [_ Em]. by rewrite Em, Hm.
        -- destruct (bool_decide (delta_row d = row_key e m)) eqn:E1; [|done].
           destruct (bool_decide (bucket_of _ _ = b)) eqn:E2; [|done].
           apply bool_decide_eq_true in E1, E2. by destruct Hne.
      * destruct Hac as [Hac _].
        assert (Z.abs (sum_with (at_cell ws (row_key e m, b)) ds) ≤ sum_with weight os) as Hle.
        { apply (sum_bound ws); [apply Hl|done|]. intros d. unfold at_cell. case_decide; lia. }
        unfold i64_max in *. lia.
  - rewrite (ho_hlls _ _ _ Hh e m Hm). by apply members_of_log.
Qed.
End Totals.

(** ** Late events *)

Section Late.
Context `{RedisEnv} (ws : Z).

(** An idle worker that folds an event of a window already in the ledger and then
    flushes it changes no count. *)
Lemma late_event_is_dropped a w ds o now :
  size a = ws → buckets a = ∅ → holds ws ds w → obs_key ws o ∈ delta_key <$> ds → well_formed o →
  is_closed_at (for_event ws (occurred_at o)) ws now = true →
  holds ws ds (run_worker ws [Ingest [o]; Tick now] (a, w)).2.
Proof.
  intros Hsz Hb Hh Hk [Hpg Hmem] Hc. unfold run_worker. cbn [foldl worker_step fst snd fold_all].
  assert (∃ acc, fold a o =
    ({| size := ws; buckets := {[obs_key ws o := acc]} |}, Ok tt)) as [acc ->].
  { unfold fold. rewrite Hsz, Hb. destruct (aggregation _); [by eexists|].
    destruct (Hmem eq_refl) as [u ->]. by eexists. }
  cbn [fst]. unfold flush_tick.
  pose proof (drain_closed_spec {| size := ws; buckets := {[obs_key ws o := acc]} |} now) as Hd.
  destruct (drain_closed _ now) as [a' batch].
  destruct Hd as (_ & _ & _ & Hbatch & _ & Hn). simpl in *.
  assert (∀ d, d ∈ batch → delta_key d = obs_key ws o) as Hkeys.
  { intros d Hd. apply Hbatch in Hd as (_ & acc' & [Hd _]%lookup_singleton_Some & _). done. }
  assert (∀ ds' rep, (∀ d, d ∈ ds' → d ∈ batch) → ∃ rep', flush_from ws ds' rep w = (w, Ok rep')) as Hf.
  { induction ds' as [|d ds' IH]; intros rep Hsub; simpl; [by eexists|].
    assert (delta_key d = obs_key ws o) as Ed by (apply Hkeys, Hsub; by left).
    assert (flush_window d w = (w, Ok AlreadyApplied)) as E.
    { unfold flush_window. rewrite request_answered by apply Hh. unfold flush_sql.
      unfold delta_entity. rewrite Ed. simpl. rewrite Hpg. simpl.
      rewrite decide_True; [done|]. apply Hh. done. }
    rewrite act_bind_run. unfold flush_one. rewrite act_bind_run, E. simpl.
    destruct (IH {| applied := applied rep; already_applied := S (already_applied rep) |})
      as [rep' ->]; [intros; apply Hsub; by right|]. by eexists. }
  destruct batch as [|d batch]; [done|].
  unfold flush. destruct (Hf (d :: batch) {| applied := 0; already_applied := 0 |}) as [rep' ->];
    [done|]. by apply publish_touched_holds.
Qed.

(** What reaches a window after its flush is lost.  Let two events of a sum
    metric fall in one window.  When a worker flushes the window after the first
    event, the second one, folded later by the same worker or by another worker that
    shares the stores, is accepted and flushed without error but added to nothing:
    durable total and hot counter stay at the first event's amount. *)
Theorem late_share_is_lost o1 o2 t1 t2 :
  well_formed o1 → well_formed o2 → aggregation (obs_metric o1) = Sum →
  obs_key ws o2 = obs_key ws o1 → Z.abs (amount o1) ≤ i64_max → 0 ≤ unpack_max →
  is_closed_at (for_event ws (occurred_at o1)) ws t1 = true →
  is_closed_at (for_event ws (occurred_at o1)) ws t2 = true →
  let shows v w :=
    default 0 (totals w !! row_key (obs_entity o1) (obs_metric o1)) = v ∧
    default 0 (hashes w !! (hash_key (obs_entity o1), metric_str (obs_metric o1))) = v in
  let first := run_worker ws [Ingest [o1]; Tick t1] (aggregator_new ws, empty_world) in
  shows (amount o1) first.2 ∧
  shows (amount o1) (run_worker ws [Ingest [o2]; Tick t2] first).2 ∧
  shows (amount o1) (run_worker ws [Ingest [o2]; Tick t2] (aggregator_new ws, first.2)).2.
Proof.
  intros Hw1 Hw2 Hm Hk Ha Hu Hc1 Hc2 shows.
  assert (acceptable [o1]) as Hac.
  { split; simpl; unfold weight, is_unique; rewrite Hm; lia. }
  assert (∀ o, o ∈ [o1] → well_formed o) as Hwf by by intros o ->%list_elem_of_singleton.
  pose proof (fold_all_inv ws [] [] [] (aggregator_new ws) empty_world [o1] (worker_inv_init ws)
    Hac Hwf ltac:(set_solver)) as Hi.
  destruct (flush_tick_inv ws [o1] [] [] _ _ t1 Hi Hac Hwf) as [[ds Hi'] Hopen].
  unfold run_worker at 1. cbn [foldl worker_step fst snd].
  destruct (flush_tick ws t1 _ empty_world) as [a1 w1].
  destruct Hi' as [Hsz Hb Hlog Hok _ Hh]. simpl in *.
  assert (buckets a1 = ∅) as Hempty.
  { apply map_empty. intros k. destruct (buckets a1 !! k) as [acc|] eqn:E; [|done]. exfalso.
    destruct (Hb k acc E) as (_ & _ & ->%list_elem_of_singleton).
    pose proof (Hopen _ (ex_intro _ acc E)) as Hc. simpl in Hc. congruence. }
  assert (obs_key ws o1 ∈ delta_key <$> ds) as Hin.
  { destruct (Hlog o1 ltac:(by left)) as [?|[acc Hacc]]; [done|].
    by rewrite Hempty, lookup_empty in Hacc. }
  assert (∀ w, holds ws ds w → shows (amount o1) w) as Hshow.
  { intros w [Hl Hhot _ _]. unfold shows.
    rewrite (lo_totals _ _ _ Hl), (ho_sums _ _ _ Hhot) by done.
    rewrite <- (sum_rows_of_sum_metric _ _ ds Hm).
    rewrite (sums_of_log ws (λ _, true) _ [o1] ds (obs_entity o1) (obs_metric o1) Hm Hok);
      [|apply Hl|by intros o ->%list_elem_of_singleton|].
    - simpl. unfold about. rewrite bool_decide_true by done. simpl. lia.
    - intros d _. rewrite andb_true_r. unfold at_row.
      case_decide; [by rewrite bool_decide_true|by rewrite bool_decide_false]. }
  assert (is_closed_at (for_event ws (occurred_at o2)) ws t2 = true) as Hc2'.
  { apply (f_equal key_window) in Hk. simpl in Hk. by rewrite Hk. }
  split_and!; [by apply Hshow|..]; apply Hshow; apply late_event_is_dropped; try done;
    by rewrite Hk.
Qed.
End Late.

(** ** Concrete runs *)

Definition demo_redis : RedisEnv := {| pfcount := λ s, Z.of_nat (base.size s); unpack_max := 7999 |}.
Definition demo_post : EntityRef := {| entity_kind := Post; entity_id := "p1" |}.
Definition demo_view (t : Z) : Observation := {|
  obs_entity := demo_post; obs_metric := View; amount := 1; unique_member := None; occurred_at := t |}.
Definition demo_viewer (u : string) (t : Z) : Observation := {|
  obs_entity := demo_post; obs_metric := UniqueViewer; amount := 0; unique_member := Some u;
  occurred_at := t |}.
Definition demo_run : list WorkerAction :=
  [Ingest [demo_view 1000; demo_viewer "ana" 1000]; Tick 4999; Ingest [demo_view 4000; demo_view 6000];
   Tick 5000; Ingest [demo_viewer "bo" 7000; demo_viewer "ana" 8000]].

Lemma on_time_counts_are_exact_witness :
  let s := run_worker (H := demo_redis) 5000 (demo_run ++ [Tick 10000]) (aggregator_new 5000, empty_world) in
  pending s.1 = 0%nat ∧
  default 0 (totals s.2 !! row_key demo_post View) = count_of demo_post View (ingested demo_run) ∧
  default ∅ (hlls s.2 !! hll_key demo_post UniqueViewer)
  = members_of demo_post UniqueViewer (ingested demo_run) ∧
  count_of demo_post View (ingested demo_run) = 3.
Proof.
  assert (∀ o, o ∈ ingested demo_run → well_formed o) as Hwf.
  { intros o Ho. unfold ingested, demo_run in Ho. simpl in Ho. set_unfold.
    destruct_or?; subst; (split; [done|]); simpl; intros ?; [done|eauto|done|done|eauto|eauto]. }
  assert (acceptable (H := demo_redis) (ingested demo_run)) as Hac.
  { split; vm_compute; congruence. }
  assert (on_time 5000 [] demo_run) as Ht.
  { simpl. split_and!; [..|done]; intros o t Ho Hti; set_unfold;
      destruct_or?; subst; done || vm_compute; reflexivity. }
  assert (∀ o, o ∈ ingested demo_run →
    is_closed_at (for_event 5000 (occurred_at o)) 5000 10000 = true) as Hend.
  { apply list.Forall_forall. repeat constructor. }
  pose proof (on_time_counts_are_exact (H := demo_redis) 5000 demo_run 10000 demo_post View
    Hwf Hac Ht Hend) as H1.
  pose proof (on_time_counts_are_exact (H := demo_redis) 5000 demo_run 10000 demo_post UniqueViewer
    Hwf Hac Ht Hend) as H2.
  destruct (run_worker _ _ _) as [a w]. simpl in *.
  destruct H1 as [? [? _]], H2 as [_ ?]. by split_and!.
Defined.

Lemma late_share_is_lost_witness :
  let first := run_worker (H := demo_redis) 5000 [Ingest [demo_view 1000]; Tick 5000]
                 (aggregator_new 5000, empty_world) in
  default 0 (totals (run_worker (H := demo_redis) 5000 [Ingest [demo_view 2000]; Tick 6000] first).2
             !! row_key demo_post View) = 1.
Proof.
  apply (late_share_is_lost (H := demo_redis) 5000 (demo_view 1000) (demo_view 2000) 5000 6000);
    try done; vm_compute; congruence.
Defined.
