(* ===== verification/CounterSweep.v ===== *)
(** * Counter analytics: reconciliation

    One sweep of the reconciliation loop heals every reconcilable pair of the ledger
    ([sweep_heals_every_pair]), whatever the database's collation: the cursor pages
    through the rows without skipping one.  It compares the source with the ledger
    only, so a hot write lost after the ledger counted a window stays lost
    ([lost_hot_write_is_never_healed]). *)

From stdpp Require Import sorting.
From S2P Require Import Prelude Counter CounterStores CounterProofs CounterExact.
Local Open Scope Z_scope.

(** ** The candidate scan *)

Section Scan.
Context `{Collation} `{!PartialOrder collate_le} `{!Total collate_le}.

(** Rows the service itself wrote: keys of valid entities. *)
Definition valid_row (r : RowKey) : Prop :=
  ∃ e m, r = row_key e m ∧ trim_is_empty (entity_id e) = false ∧ pg_text (entity_id e) = true.
Definition valid_rows (w : World) : Prop := ∀ r, is_Some (totals w !! r) → valid_row r.

Definition same_rows (w w' : World) : Prop := ∀ r, is_Some (totals w !! r) ↔ is_Some (totals w' !! r).

Lemma reconcilable_metric after e m :
  reconcilable after (row_key e m) = true → m = Follower ∨ m = Following.
Proof. unfold reconcilable. destruct m; simpl; auto; done. Qed.

Lemma row_cursor_inj after r r' :
  valid_row r → valid_row r' → reconcilable after r = true → reconcilable after r' = true →
  row_cursor r = row_cursor r' → r = r'.
Proof.
  intros (e & m & -> & _) (e' & m' & -> & _) Hm%reconcilable_metric Hm'%reconcilable_metric.
  unfold row_cursor, row_key; simpl. intros [Hk Hi]%kind_prefix_inj. rewrite Hk.
  assert (m = m') as ->.
  { apply (f_equal last_char) in Hi. rewrite !last_char_app in Hi by by destruct m, m'.
    destruct Hm as [-> | ->], Hm' as [-> | ->]; done. }
  f_equal. f_equal. by apply string_app_inj_r in Hi.
Qed.

#[local] Instance cursor_le_trans : Transitive cursor_le.
Proof. intros a b c. unfold cursor_le. apply transitivity. Qed.
#[local] Instance cursor_le_total : Total cursor_le.
Proof. intros a b. apply (total collate_le). Qed.

Lemma elem_of_reconcilable_rows after w r :
  r ∈ reconcilable_rows after w ↔ reconcilable after r = true ∧ is_Some (totals w !! r).
Proof.
  unfold reconcilable_rows. rewrite merge_sort_Permutation, list_elem_of_filter, list_elem_of_fmap.
  split.
  - intros [? ([r' v] & -> & Hv%elem_of_map_to_list)]. split; [done|by exists v].
  - intros [? [v Hv]]. split; [done|]. exists (r, v). split; [done|]. by apply elem_of_map_to_list.
Qed.

Lemma NoDup_reconcilable_rows after w : NoDup (reconcilable_rows after w).
Proof.
  unfold reconcilable_rows. rewrite merge_sort_Permutation.
  apply list.NoDup_filter, NoDup_fst_map_to_list.
Qed.

(** The sorted rows are determined by which rows exist. *)
Lemma rows_unique after l w :
  valid_rows w → NoDup l → Sorted cursor_le l → (∀ r, r ∈ l ↔ r ∈ reconcilable_rows after w) →
  l = reconcilable_rows after w.
Proof.
  intros Hv Hn Hs Hin. apply (Sorted_unique_strong cursor_le).
  - intros r r' Hr%Hin Hr' H1 H2.
    apply elem_of_reconcilable_rows in Hr as [Ha Hr], Hr' as [Hb Hr'].
    apply (row_cursor_inj after); eauto. by apply (anti_symm collate_le).
  - done.
  - apply (Sorted_merge_sort cursor_le).
  - apply NoDup_Permutation; [done|apply NoDup_reconcilable_rows|done].
Qed.

Lemma rows_same after w w' :
  valid_rows w → same_rows w w' → reconcilable_rows after w' = reconcilable_rows after w.
Proof.
  intros Hv Hs. apply rows_unique; [done|apply NoDup_reconcilable_rows| |].
  - apply (Sorted_merge_sort cursor_le).
  - intros r. rewrite !elem_of_reconcilable_rows. by rewrite (Hs r).
Qed.

(** The page after the [i]th row starts at the next one. *)
Lemma rows_after w i r :
  valid_rows w → reconcilable_rows None w !! i = Some r →
  reconcilable_rows (Some (row_cursor r)) w = drop (S i) (reconcilable_rows None w).
Proof.
  intros Hv Hi. symmetry. set (l := reconcilable_rows None w) in *.
  assert (StronglySorted cursor_le l) as Hs by apply (StronglySorted_merge_sort cursor_le).
  assert (NoDup l) as Hn by apply NoDup_reconcilable_rows.
  assert (∀ x, x ∈ l → reconcilable None x = true ∧ is_Some (totals w !! x)) as Hl
    by (intros x; apply elem_of_reconcilable_rows).
  pose proof (list_elem_of_lookup_2 _ _ _ Hi) as Hrl.
  assert (∀ x, x ∈ l ↔ x ∈ take i l ++ r :: drop (S i) l) as Hsplit
    by (intros x; by rewrite (take_drop_middle l i r Hi)).
  rewrite <- (take_drop_middle l i r Hi) in Hs, Hn.
  apply StronglySorted_app in Hs as (Hlt & _ & [Hgt Hs]%StronglySorted_cons).
  apply list.NoDup_app in Hn as (_ & _ & [Hr Hn2]%list.NoDup_cons).
  apply rows_unique; [done|done|by apply StronglySorted_Sorted|].
  intros x. rewrite elem_of_reconcilable_rows. split.
  - intros Hx. assert (x ∈ l) as Hxl by (apply Hsplit; set_solver).
    destruct (Hl x Hxl) as [Hx1 Hx2]. split; [|done].
    unfold reconcilable in *. apply andb_true_iff in Hx1 as [-> _]. simpl.
    rewrite bool_decide_false; [done|]. intros Hle. apply Hr.
    assert (x = r) as <-; [|done].
    apply (row_cursor_inj None); [by apply Hv, Hl|by apply Hv, Hl|by apply Hl|by apply Hl|].
    apply (anti_symm collate_le); [done|].
    by apply (proj1 (list.Forall_forall _ _) Hgt x Hx).
  - intros [Hx Hsome]. unfold reconcilable in Hx. apply andb_true_iff in Hx as [Hm Hc].
    assert (x ∈ l) as Hxl.
    { apply elem_of_reconcilable_rows. split; [|done]. unfold reconcilable. by rewrite Hm. }
    apply negb_true_iff, bool_decide_eq_false in Hc.
    apply Hsplit in Hxl as [Hx|[->|Hx]%elem_of_cons]%elem_of_app; [|by destruct (Hc (reflexivity _))|done].
    destruct Hc. apply Hlt; [done|by left].
Qed.
End Scan.

(** ** One pair *)

Section Pair.
Context `{SocialGraph} (tolerance : Z) (Htol : 0 ≤ tolerance).

(** The value a reconciliation of a pair at [c] must set, if any. *)
Definition heal (e : EntityRef) (m : Metric) (c : Z) : option Z :=
  match authoritative_count e m with
  | Ok (Some v) => if Z.abs (v - c) <=? tolerance then None else Some v
  | _ => None
  end.

Definition hot_field (e : EntityRef) (m : Metric) : string * string := (hash_key e, metric_str m).

(** The source's answer and the total differ by an [i64]. *)
Definition in_range (e : EntityRef) (m : Metric) (c : Z) : Prop :=
  match authoritative_count e m with Ok (Some v) => Z.abs (v - c) ≤ i64_max | _ => True end.

Lemma i64_drift v c : Z.abs (v - c) ≤ i64_max → i64_sub v c = v - c ∧ i64_abs (v - c) = Z.abs (v - c).
Proof.
  unfold i64_sub, i64_abs, i64_max. intros. rewrite i64_add_small by (unfold i64_max; lia).
  split; [lia|]. destruct (v - c <? 0) eqn:E; [|apply Z.ltb_ge in E; lia].
  apply Z.ltb_lt in E. unfold i64_sub. rewrite i64_add_small by (unfold i64_max; lia). lia.
Qed.

Lemma reconcile_answered e m c w :
  kind m = Exact → faults w = [] → pg_text (entity_id e) = true →
  totals w !! row_key e m = Some c → in_range e m c →
  (reconcile tolerance e m w).1 =
  match heal e m c with
  | None => w
  | Some v => set_hashes (<[hot_field e m := v]> (hashes w))
                (set_ledger (windows w) (<[row_key e m := v]> (totals w)) w)
  end.
Proof.
  intros Hk Hf Hpg Hc Hr. unfold reconcile, heal, in_range in *.
  rewrite decide_False by (intros []; done). rewrite act_bind_run. unfold lift.
  destruct (authoritative_count e m) as [[v|]|]; [|done..].
  rewrite act_bind_run. unfold read_total. rewrite request_answered, Hpg, Hc by done. 
  cbv beta iota zeta. change (default 0 (Some c)) with c.
  destruct (i64_drift v c Hr) as [-> ->]. destruct (v - c =? 0) eqn:E0.
  { apply Z.eqb_eq in E0. rewrite E0. by rewrite (proj2 (Z.leb_le (Z.abs 0) tolerance)) by (simpl; lia). }
  destruct (Z.abs (v - c) <=? tolerance); [done|].
  rewrite act_bind_run. unfold set_total. rewrite request_answered, Hpg by done.
  rewrite act_bind_run. unfold overwrite, hset. by rewrite request_answered by done.
Qed.
End Pair.

(** ** The sweep *)

Section Sweep.
Context `{SocialGraph, Collation} `{!PartialOrder collate_le} `{!Total collate_le}.
Context (tolerance : Z) (Htol : 0 ≤ tolerance) (w0 : World) (Hvalid : valid_rows w0).
Context (Hrange : ∀ e m c, totals w0 !! row_key e m = Some c → in_range e m c).

Definition untouched (w : World) (e : EntityRef) (m : Metric) : Prop :=
  totals w !! row_key e m = totals w0 !! row_key e m ∧
  hashes w !! hot_field e m = hashes w0 !! hot_field e m.

Definition healed (w : World) (e : EntityRef) (m : Metric) : Prop :=
  match totals w0 !! row_key e m ≫= heal tolerance e m with
  | None => untouched w e m
  | Some v => totals w !! row_key e m = Some v ∧ hashes w !! hot_field e m = Some v
  end.

(** Some pairs are healed, the others as they were. *)
Record swept (done_ : EntityRef → Metric → Prop) (w : World) : Prop := {
  sw_faults : faults w = [];
  sw_rows : same_rows w0 w;
  sw_pairs : ∀ e m, untouched w e m ∨ healed w e m;
  sw_done : ∀ e m, done_ e m → healed w e m;
}.

Lemma swept_mono (P Q : EntityRef → Metric → Prop) w :
  swept P w → (∀ e m, Q e m → P e m) → swept Q w.
Proof. intros []. split; eauto. Qed.

Lemma heal_again e m c v : heal tolerance e m c = Some v → heal tolerance e m v = None.
Proof.
  unfold heal. destruct (authoritative_count e m) as [[v'|]|]; [|done..].
  destruct (_ <=? _); [done|]. intros [= ->]. rewrite Z.sub_diag.
  by rewrite (proj2 (Z.leb_le (Z.abs 0) tolerance)).
Qed.

Lemma in_range_again e m c v : heal tolerance e m c = Some v → in_range e m v.
Proof.
  unfold heal, in_range. destruct (authoritative_count e m) as [[v'|]|]; [|done..].
  destruct (_ <=? _); [done|]. intros [= ->]. rewrite Z.sub_diag. unfold i64_max. simpl. lia.
Qed.

Lemma reconcile_swept P e m w :
  swept P w → kind m = Exact → is_Some (totals w0 !! row_key e m) →
  swept (λ e' m', P e' m' ∨ (e' = e ∧ m' = m)) (reconcile tolerance e m w).1.
Proof.
  intros [Hf Hrows Hpairs Hdone] Hk [c Hc].
  assert (pg_text (entity_id e) = true) as Hpg.
  { destruct (Hvalid (row_key e m)) as (e' & m' & [-> ->]%row_key_inj & _ & ?); eauto. }
  assert (healed w e m ∨ untouched w e m ∧ ∃ v, heal tolerance e m c = Some v) as Hcase.
  { unfold healed. rewrite Hc. simpl. destruct (heal tolerance e m c) eqn:E.
    - destruct (Hpairs e m) as [?|Hh]; [right; eauto|left].
      unfold healed in Hh. rewrite Hc in Hh. simpl in Hh. by rewrite E in Hh.
    - left. destruct (Hpairs e m) as [?|Hh]; [done|].
      unfold healed in Hh. rewrite Hc in Hh. simpl in Hh. by rewrite E in Hh. }
  destruct Hcase as [Hh|[[Hu1 Hu2] [v Hv]]].
  - assert ((reconcile tolerance e m w).1 = w) as ->.
    { unfold healed, untouched in Hh. rewrite Hc in Hh. simpl in Hh.
      destruct (heal tolerance e m c) as [v|] eqn:E.
      - destruct Hh as [Ht _]. rewrite (reconcile_answered tolerance Htol e m v) by eauto using in_range_again.
        by rewrite (heal_again e m c v E).
      - destruct Hh as [Ht _]. rewrite (reconcile_answered tolerance Htol e m c) by eauto. by rewrite E. }
    split; [done..|]. intros e' m' [?|[-> ->]]; auto.
  - rewrite (reconcile_answered tolerance Htol e m c) by (eauto; congruence). rewrite Hv.
    assert (∀ e' m', (e' = e ∧ m' = m) ∨
      (row_key e' m' ≠ row_key e m ∧ hot_field e' m' ≠ hot_field e m)) as Hother.
    { intros e' m'. destruct (decide (row_key e' m' = row_key e m)) as [E|E];
        [left; by apply row_key_inj|right]. split; [done|].
      intros E'%pair_eq. destruct E' as [->%hash_key_inj ->%metric_str_inj]. done. }
    set (w' := set_hashes _ _).
    assert (healed w' e m) as Hh.
    { unfold healed. rewrite Hc. simpl. rewrite Hv. simpl. by rewrite !lookup_insert_eq. }
    assert (∀ e' m', (e' = e ∧ m' = m) ∨ (totals w' !! row_key e' m' = totals w !! row_key e' m' ∧
      hashes w' !! hot_field e' m' = hashes w !! hot_field e' m')) as Hkeep.
    { intros e' m'. destruct (Hother e' m') as [?|[? ?]]; [by left|right]. simpl.
      by rewrite !lookup_insert_ne by done. }
    assert (∀ e' m', healed w e' m' → healed w' e' m') as Hstay.
    { intros e' m' Hx. destruct (Hkeep e' m') as [[-> ->]|[E1 E2]]; [done|].
      unfold healed, untouched in *. by rewrite E1, E2. }
    split; [done| | |].
    + intros r. rewrite (Hrows r). simpl. destruct (decide (r = row_key e m)) as [->|Hne];
        [|by rewrite lookup_insert_ne]. rewrite lookup_insert_eq, Hu1, Hc. by split; eauto.
    + intros e' m'. destruct (Hkeep e' m') as [[-> ->]|[E1 E2]]; [by right|].
      destruct (Hpairs e' m') as [?|?]; [left|right; auto]. unfold untouched in *. by rewrite E1, E2.
    + intros e' m' [?|[-> ->]]; auto.
Qed.

Lemma reconcile_all_swept P (batch : list (EntityRef * Metric)) w :
  swept P w → (∀ p, p ∈ batch → kind p.2 = Exact ∧ is_Some (totals w0 !! row_key p.1 p.2)) →
  swept (λ e m, P e m ∨ (e, m) ∈ batch) (foldl (λ w p, (reconcile tolerance p.1 p.2 w).1) w batch).
Proof.
  revert P w. induction batch as [|[e m] batch IH]; intros P w Hs Hb; simpl.
  { eapply swept_mono; [done|]. intros e m [?|?%not_elem_of_nil]; done. }
  destruct (Hb (e, m) ltac:(by left)) as [Hk Hc]. simpl in *.
  pose proof (reconcile_swept P e m w Hs Hk Hc) as Hs1.
  eapply swept_mono; [apply (IH _ _ Hs1); intros p Hp; apply Hb; by right|].
  intros e' m' [?|[[= -> ->]|?]%elem_of_cons]; auto.
Qed.

(** *** Pages *)

Lemma elem_of_drop_take {A} i n (l : list A) x : x ∈ take n (drop i l) → x ∈ l.
Proof.
  intros Hx. apply (elem_of_take) in Hx as (j & Hj & _). rewrite lookup_drop in Hj.
  by apply list_elem_of_lookup_2 in Hj.
Qed.

(** The cursor of a page's last pair is its last row. *)
Lemma exists_last_pair (page : list RowKey) p batch :
  (λ p, row_key p.1 p.2) <$> p :: batch = page →
  ∃ e m j, list.last (p :: batch) = Some (e, m) ∧ page !! j = Some (row_key e m) ∧ S j = length page.
Proof.
  intros <-. destruct (list.last (p :: batch)) as [[e m]|] eqn:El.
  - rewrite last_lookup in El. exists e, m, (pred (length (p :: batch))). split_and!; [done| |].
    + rewrite list_lookup_fmap, El. done.
    + by rewrite length_fmap.
  - by apply last_None in El.
Qed.

Definition rows : list RowKey := reconcilable_rows None w0.

Lemma parse_page (l : list RowKey) :
  (∀ r, r ∈ l → r ∈ rows) → (λ p, row_key p.1 p.2) <$> omap parse_row l = l.
Proof.
  induction l as [|r l IH]; intros Hl; [done|].
  destruct (proj1 (elem_of_reconcilable_rows None w0 r) (Hl r ltac:(by left))) as [_ Hr].
  destruct (Hvalid r Hr) as (e & m & -> & Hid & _).
  change (omap parse_row (row_key e m :: l)) with
    (match parse_row (row_key e m) with Some p => p :: omap parse_row l | None => omap parse_row l end).
  rewrite parse_row_row_key, fmap_cons by done. cbn [fst snd]. f_equal. apply IH.
  intros; apply Hl; by right.
Qed.

Lemma page_pairs (l : list RowKey) p :
  (∀ r, r ∈ l → r ∈ rows) → p ∈ omap parse_row l →
  kind p.2 = Exact ∧ is_Some (totals w0 !! row_key p.1 p.2).
Proof.
  intros Hl Hp. assert (row_key p.1 p.2 ∈ l) as Hr.
  { rewrite <- (parse_page l Hl). by apply (list_elem_of_fmap_2 (λ p, row_key p.1 p.2)). }
  apply Hl, elem_of_reconcilable_rows in Hr as [Hm ?]. split; [|done].
  by apply reconcilable_metric in Hm as [-> | ->].
Qed.

(** The cursor that starts a page at the [i]th row. *)
Definition cursor_at (i : nat) : option string :=
  match i with O => None | S j => row_cursor <$> rows !! j end.

Lemma rows_from i w :
  (i ≤ length rows)%nat → same_rows w0 w → reconcilable_rows (cursor_at i) w = drop i rows.
Proof.
  intros Hi Hs. rewrite (rows_same _ w0 w Hvalid Hs). destruct i as [|j]; [done|].
  destruct (lookup_lt_is_Some_2 rows j ltac:(lia)) as [r Hr]. simpl. rewrite Hr. simpl.
  by apply rows_after.
Qed.

Definition in_rows (n : nat) (e : EntityRef) (m : Metric) : Prop := row_key e m ∈ take n rows.

Lemma list_reconcilable_answered cursor limit w :
  faults w = [] →
  list_reconcilable cursor limit w = (w, Ok (omap parse_row (take limit (reconcilable_rows cursor w)))).
Proof. intros Hf. unfold list_reconcilable. by rewrite request_answered. Qed.

(** One tick at row [i] heals the next page and moves past it, or wraps. *)
Lemma tick_swept P i w :
  (i ≤ length rows)%nat → swept P w →
  let '(cursor, w') := reconcile_tick tolerance (cursor_at i) w in
  swept (λ e m, P e m ∨ row_key e m ∈ take RECONCILE_BATCH (drop i rows)) w' ∧
  ∃ i', (i' ≤ length rows)%nat ∧ cursor = cursor_at i' ∧
        (i + RECONCILE_BATCH ≤ length rows → i' = i + RECONCILE_BATCH)%nat.
Proof.
  intros Hi Hs. unfold reconcile_tick.
  rewrite list_reconcilable_answered, rows_from by (done || apply Hs).
  set (page := take RECONCILE_BATCH (drop i rows)).
  assert (∀ r, r ∈ page → r ∈ rows) as Hsub.
  { intros r Hr. eapply elem_of_drop_take; exact Hr. }
  pose proof (parse_page page Hsub) as Hpage.
  pose proof (reconcile_all_swept P (omap parse_row page) w Hs
    (λ p Hp, page_pairs page p Hsub Hp)) as Hs'.
  assert (length page = RECONCILE_BATCH `min` (length rows - i))%nat as Hlen
    by (unfold page; by rewrite length_take, length_drop).
  destruct (omap parse_row page) as [|p batch] eqn:Ebatch.
  - rewrite fmap_nil in Hpage. split.
    + eapply swept_mono; [exact Hs'|]. intros e m [?|Hx]; [by left|].
      rewrite <- Hpage in Hx. by apply not_elem_of_nil in Hx.
    + exists O. split_and!; [lia|done|]. rewrite <- Hpage in Hlen. cbn [length] in Hlen.
      unfold RECONCILE_BATCH in *. lia.
  - split.
    + eapply swept_mono; [exact Hs'|]. intros e m [?|Hx]; [by left|right].
      rewrite <- Hpage in Hx. apply list_elem_of_fmap in Hx as ([e' m'] & E & Hin).
      by apply row_key_inj in E as [-> ->].
    + destruct (exists_last_pair page p batch Hpage) as (e & m & j & -> & Hj & El).
      exists (i + S j)%nat. unfold page in Hj.
      pose proof (lookup_lt_Some _ _ _ Hj) as Hlt. fold page in Hlt.
      rewrite lookup_take_lt, lookup_drop in Hj by lia.
      split_and!; [lia| |lia]. rewrite Nat.add_succ_r. cbn [cursor_at]. rewrite Hj. done.
Qed.

Definition sweep (n : nat) : option string * World :=
  Nat.iter n (λ s, reconcile_tick tolerance s.1 s.2) (None, w0).

Lemma sweep_swept n :
  faults w0 = [] →
  swept (in_rows (n * RECONCILE_BATCH)) (sweep n).2 ∧
  ∃ i, (i ≤ length rows)%nat ∧ (sweep n).1 = cursor_at i ∧
       (n * RECONCILE_BATCH ≤ length rows → i = n * RECONCILE_BATCH)%nat.
Proof.
  intros Hf. induction n as [|n [IH (i & Hi & Hc & Hi')]].
  { split.
    - split; [done|by intros r|left; by split|]. intros e m. unfold in_rows. by rewrite take_0, elem_of_nil.
    - exists O. split_and!; [lia|done|done]. }
  unfold sweep in *. rewrite Nat.iter_succ. destruct (Nat.iter n _ (None, w0)) as [c w].
  cbn [fst snd] in *. subst c. pose proof (tick_swept _ i w Hi IH) as Ht.
  destruct (reconcile_tick tolerance (cursor_at i) w) as [c' w'].
  destruct Ht as [Hs (i' & Hle & -> & Hnext)]. cbn [fst snd]. split.
  - eapply swept_mono; [exact Hs|]. intros e m. unfold in_rows.
    destruct (decide (n * RECONCILE_BATCH ≤ length rows)%nat) as [Hn|Hn].
    + rewrite (Hi' Hn). replace (S n * RECONCILE_BATCH)%nat
        with (n * RECONCILE_BATCH + RECONCILE_BATCH)%nat by lia.
      rewrite <- take_take_drop, elem_of_app. done.
    + rewrite !take_ge by lia. by left.
  - exists i'. split_and!; [done|done|]. intros Hn.
    rewrite Hnext, Hi' by (unfold RECONCILE_BATCH in *; lia). unfold RECONCILE_BATCH. lia.
Qed.
End Sweep.

(** A reconciliation sweep heals every reconcilable pair, whatever the collation
    the database orders and pages by.  Let the ledger hold rows the service wrote,
    nobody else write, and every request be answered.  After [n] ticks of the loop
    from the start, [n] pages covering the reconcilable rows, every follower or
    following pair of the ledger with total [c] and authoritative count [v] is
    settled: if they are within the tolerance the total and the hot counter are as
    they were, otherwise both are [v].  Ticks after the wrap undo nothing. *)
Theorem sweep_heals_every_pair `{SocialGraph, Collation, !PartialOrder collate_le, !Total collate_le}
    tolerance w n e m c v :
  0 ≤ tolerance → faults w = [] → valid_rows w →
  (∀ e m c, totals w !! row_key e m = Some c → in_range e m c) →
  (length (reconcilable_rows None w) ≤ n * RECONCILE_BATCH)%nat →
  totals w !! row_key e m = Some c → authoritative_count e m = Ok (Some v) →
  let w' := (sweep tolerance w n).2 in
  if Z.abs (v - c) <=? tolerance
  then totals w' !! row_key e m = Some c ∧
       hashes w' !! hot_field e m = hashes w !! hot_field e m
  else totals w' !! row_key e m = Some v ∧ hashes w' !! hot_field e m = Some v.
Proof.
  intros Htol Hf Hv Hr Hn Hc Ha. cbv zeta.
  destruct (sweep_swept tolerance Htol w Hv Hr n Hf) as [Hs _].
  pose proof (sw_done _ _ _ _ Hs e m) as Hh. unfold in_rows, rows in Hh.
  rewrite take_ge in Hh by done.
  assert (row_key e m ∈ reconcilable_rows None w) as Hin.
  { apply elem_of_reconcilable_rows. split; [|by exists c].
    unfold authoritative_count in Ha. by destruct m. }
  specialize (Hh Hin). unfold healed, untouched in Hh. rewrite Hc in Hh. simpl in Hh.
  unfold heal in Hh. rewrite Ha in Hh. by destruct (_ <=? _).
Qed.


(** A hot write lost after the ledger counted its window is never healed.  When
    the hot tier does not answer the flush of a new follower window, the flush fails
    with the ledger advanced and the hot counter behind; as long as the source
    agrees with the ledger, reconciling the pair answers in sync and leaves the hot
    counter behind, and flushing the window again skips it. *)
Theorem lost_hot_write_is_never_healed `{RedisEnv, SocialGraph} ws tolerance ds d w :
  holds ws ds w → delta_metric d = Follower → delta_key d ∉ delta_key <$> ds →
  pg_text (entity_id (delta_entity d)) = true →
  let total := default 0 (totals w !! delta_row d) + sum d in
  is_i64 total = true →
  authoritative_count (delta_entity d) Follower = Ok (Some total) →
  let '(w', r) := flush ws [d] (set_faults [Answered; NotSent] w) in
  r = Err CacheWriteFailed ∧
  totals w' !! delta_row d = Some total ∧ hashes w' = hashes w ∧
  reconcile tolerance (delta_entity d) Follower w' = (w', Ok InSync) ∧
  flush ws [d] w' = (w', Ok {| applied := 0; already_applied := 1 |}).
Proof.
  intros [Hl _ _ Hf] Hm Hnew Hpg total Hi Ha.
  assert (scalar d = sum d) as Hsc by (unfold scalar; by rewrite Hm).
  assert (window_row (delta_key d) ∉ windows w) as Hw by (by rewrite (lo_windows _ _ _ Hl)).
  unfold flush, flush_from, flush_one, flush_window, request. rewrite !act_bind_run.
  cbn [next_fault faults set_faults]. unfold flush_sql. rewrite Hpg.
  cbn [negb windows totals set_faults]. rewrite decide_False by done. fold (delta_row d).
  rewrite Hsc. fold total. rewrite Hi. cbn [fst snd].
  unfold apply_delta. rewrite Hm. cbn [aggregation]. unfold hincrby, request.
  rewrite !act_bind_run. cbn [next_fault faults set_faults set_ledger].
  set (w' := set_faults [] _).
  assert (faults w' = []) as Hf' by done.
  assert (totals w' !! delta_row d = Some total) as Ht by apply lookup_insert_eq.
  split_and!; [done|done|done| |].
  - unfold reconcile. rewrite decide_False by (intros []; done).
    rewrite act_bind_run. unfold lift. rewrite Ha, act_bind_run.
    unfold read_total. rewrite request_answered, Hpg by done.
    unfold delta_row in Ht. rewrite Hm in Ht. rewrite Ht. cbv beta iota zeta.
    change (default 0 (Some total)) with total.
    unfold i64_sub. rewrite i64_add_small by (unfold i64_max; lia). by rewrite Z.add_opp_diag_r.
  - rewrite act_bind_run. rewrite act_bind_run. unfold request.
    unfold next_fault. rewrite Hf'. cbn [negb].
    rewrite decide_True by (simpl; set_solver). done.
Qed.

(** ** Concrete runs *)

(** The bytewise collation. *)
#[local] Instance bytewise : Collation := {| collate_le := string_le |}.

#[local] Instance bytewise_order : PartialOrder (collate_le (Collation := bytewise)) := string_le_po.
#[local] Instance bytewise_total : Total (collate_le (Collation := bytewise)) := string_le_total.

Definition demo_graph : SocialGraph := {| get_relation_status := λ _, Ok (12, 3) |}.
Definition demo_profile : EntityRef := {| entity_kind := Profile; entity_id := "ana" |}.
Definition demo_world : World :=
  set_ledger ∅ {[row_key demo_profile Follower := 10]} empty_world.

Lemma demo_row r c : totals demo_world !! r = Some c → r = row_key demo_profile Follower ∧ c = 10.
Proof. simpl. intros [<- <-]%lookup_singleton_Some. done. Qed.

Lemma sweep_heals_every_pair_witness :
  totals (sweep (H := demo_graph) (H0 := bytewise) 1 demo_world 1).2 !! row_key demo_profile Follower
  = Some 12.
Proof.
  refine (proj1 (sweep_heals_every_pair (H := demo_graph) (H0 := bytewise) 1 demo_world 1
    demo_profile Follower 10 12 _ _ _ _ _ _ _)).
  - lia.
  - done.
  - intros r [c [-> _]%demo_row]. by exists demo_profile, Follower.
  - intros e m c [[-> ->]%row_key_inj ->]%demo_row. vm_compute. congruence.
  - apply Nat.leb_le. vm_compute. reflexivity.
  - vm_compute. reflexivity.
  - vm_compute. reflexivity.
Defined.

Definition demo_delta : WindowDelta := {|
  delta_key := {| key_entity := demo_profile; key_metric := Follower; key_window := 7 |};
  sum := 12; unique_members := [] |}.

Lemma lost_hot_write_is_never_healed_witness :
  let w := (flush (H := demo_redis) 5000 [demo_delta] (set_faults [Answered; NotSent] empty_world)).1 in
  reconcile (H := demo_graph) 0 demo_profile Follower w = (w, Ok InSync) ∧ hashes w = ∅.
Proof.
  pose proof (lost_hot_write_is_never_healed (H := demo_redis) (H0 := demo_graph) 5000 0 []
    demo_delta empty_world) as Hlost.
  assert (holds 5000 [] empty_world) as Hh by apply (worker_inv_init 5000).
  specialize (Hlost Hh eq_refl ltac:(apply not_elem_of_nil) eq_refl eq_refl eq_refl).
  destruct (flush (H := demo_redis) _ _ _) as [w r]. simpl in *.
  destruct Hlost as (_ & _ & -> & E & _). split; [exact E|reflexivity].
Defined.
