(* ===== verification/AccountDomain.v ===== *)
(** * Account: the domain layer

    Models [crates/services/account/src/domain] and its error type: the validated value
    objects, the MFA and GDPR entities, the domain events and the [Account] aggregate
    with every one of its mutations.  Instants are [Z] nanoseconds since the epoch and
    identifiers opaque UUIDs; what the code reads from the clock or draws from the
    UUID generator is an argument.  Unicode case mapping and [Debug] quoting are the
    operations of [StdText], the [uuid] crate's parser and printer those of [UuidText]. *)

From S2P Require Import Prelude.
From stdpp Require Import pretty sorting.
Local Open Scope Z_scope.

Definition Uuid : Type := N.

(** Rust's [str] operations that rest on Unicode tables.  [to_lowercase] and
    [to_uppercase] are idempotent, and on ASCII text they map the ASCII letters. *)
Definition is_ascii_text (s : string) : bool :=
  forallb (λ c, byte_in c 0 127) (String.list_ascii_of_string s).

Definition ascii_lower (c : ascii) : ascii :=
  if byte_in c 65 90 then ascii_of_nat (nat_of_ascii c + 32) else c.
Definition ascii_upper (c : ascii) : ascii :=
  if byte_in c 97 122 then ascii_of_nat (nat_of_ascii c - 32) else c.
Definition map_bytes (f : ascii → ascii) (s : string) : string :=
  String.string_of_list_ascii (f <$> String.list_ascii_of_string s).

Class StdText := {
  to_lowercase : string → string;
  to_uppercase : string → string;
  debug_str : string → string;
  to_lowercase_idem s : to_lowercase (to_lowercase s) = to_lowercase s;
  to_uppercase_idem s : to_uppercase (to_uppercase s) = to_uppercase s;
  to_lowercase_ascii s : is_ascii_text s = true → to_lowercase s = map_bytes ascii_lower s;
  to_uppercase_ascii s : is_ascii_text s = true → to_uppercase s = map_bytes ascii_upper s;
}.

(** The [uuid] crate's parser and printer. *)
Class UuidText := {
  parse_uuid : string → option Uuid;
  hyphenated : Uuid → string;
}.

(** The [chrono] crate: [now + Duration::seconds(n)], which panics ([None]) when the
    sum leaves the crate's range of instants. *)
Definition NS : Z := 10 ^ 9.
Definition MAX_UTC : Z := 8210266876799999999999.

Class Chrono := {
  add_seconds : Z → Z → option Z;
  add_seconds_sum now n t : add_seconds now n = Some t → t = now + n * NS;
  add_seconds_total now n :
    0 ≤ now → 0 ≤ n → now + n * NS ≤ MAX_UTC → is_Some (add_seconds now n);
}.

(** ** Errors *)

Inductive StorageError :=
  | UniqueViolation (constraint : string)
  | ForeignKeyViolation (constraint : string)
  | NotNullViolation (detail : string)
  | CheckViolation (constraint : string)
  | Deadlock
  | SerializationFailure
  | PoolTimedOut
  | PoolClosed
  | RowNotFound
  | Migration (message : string)
  | Connection (message : string)
  | Configuration (message : string)
  | ShardNotFound (shard_id : Z)
  | ShardRoutingFailed (reason : string)
  | Database (code message : string).

Record FieldViolation := mk_violation {
  violation_field : string;
  violation_code : string;
  violation_message : string;
}.

Inductive AccountError :=
  | Storage (e : StorageError)
  | Validation (vs : list FieldViolation)
  | AccountNotFound (id : string)
  | IdentityAlreadyRegistered (identity_id : string)
  | EmailAlreadyRegistered (email : string)
  | AccountNotActive (current : string)
  | InvalidStatusTransition (from to : string)
  | EmailAlreadyVerified
  | ConcurrentModification
  | MfaAlreadyEnrolled
  | MfaNotEnrolled
  | InvalidKycTransition (from to : string)
  | GdprDeletionAlreadyRequested
  | AccountAlreadyAnonymized
  | RoleAlreadyAssigned (role : string)
  | RoleNotAssigned (role : string)
  | DomainViolation (field message : string)
  | InvalidAccountId (s : string)
  | InvalidIdentityId (s : string)
  | InvalidEmail (s : string)
  | InvalidPhone (s : string)
  | InvalidCountryCode (s : string)
  | InvalidAccountStatus (s : string)
  | InvalidKycStatus (s : string)
  | InvalidAccountRole (s : string)
  | EventPublishFailed (what : string).

Definition storage_http_status (e : StorageError) : Z :=
  match e with
  | UniqueViolation _ => 409
  | ForeignKeyViolation _ | NotNullViolation _ | CheckViolation _ => 422
  | Deadlock | SerializationFailure | PoolTimedOut | PoolClosed => 503
  | RowNotFound => 404
  | Migration _ => 500
  | Connection _ => 503
  | Configuration _ => 500
  | ShardNotFound _ => 503
  | ShardRoutingFailed _ => 500
  | Database _ _ => 500
  end.

Definition storage_is_retryable (e : StorageError) : bool :=
  match e with Deadlock | SerializationFailure | PoolTimedOut => true | _ => false end.

(** [ValidationError] answers 422 and is never retryable. *)
Definition http_status (e : AccountError) : Z :=
  match e with
  | Storage e => storage_http_status e
  | Validation _ => 422
  | AccountNotFound _ => 404
  | IdentityAlreadyRegistered _ | EmailAlreadyRegistered _ | EmailAlreadyVerified
  | ConcurrentModification | MfaAlreadyEnrolled | GdprDeletionAlreadyRequested
  | RoleAlreadyAssigned _ => 409
  | EventPublishFailed _ => 500
  | _ => 422
  end.

Definition is_retryable (e : AccountError) : bool :=
  match e with
  | Storage e => storage_is_retryable e
  | ConcurrentModification => true
  | _ => false
  end.

(** How a call can end short of a value: an [Err], or a panic that unwinds the task. *)
Inductive Abort :=
  | Fails (e : AccountError)
  | Panics.

Abbreviation outcome A := (result Abort A).
Definition fails {A} (e : AccountError) : outcome A := Err (Fails e).
(** A [Result] of the source where a panic is possible too. *)
Definition checked {A} (r : result AccountError A) : outcome A := map_err Fails r.

(** ** Text *)

(** One leading White_Space character, recognised by its UTF-8 encoding. *)
Definition strip_space (s : string) : option string :=
  match s with
  | "" => None
  | String a rest =>
      if byte_in a 9 13 || byte_is a 32 then Some rest
      else match rest with
           | String b rest2 =>
               if byte_is a 194 && (byte_is b 133 || byte_is b 160) then Some rest2
               else match rest2 with
                    | String c rest3 =>
                        if (byte_is a 225 && byte_is b 154 && byte_is c 128)
                           || (byte_is a 226 && byte_is b 128
                               && (byte_in c 128 138 || byte_in c 168 169 || byte_is c 175))
                           || (byte_is a 226 && byte_is b 129 && byte_is c 159)
                           || (byte_is a 227 && byte_is b 128 && byte_is c 128)
                        then Some rest3 else None
                    | "" => None
                    end
           | "" => None
           end
  end%string.

(** [str::trim_start]: the fuel is the length of the text, and every round drops a
    byte at least. *)
Fixpoint trim_start_fuel (n : nat) (s : string) : string :=
  match n with
  | O => s
  | S n => match strip_space s with Some rest => trim_start_fuel n rest | None => s end
  end.
Definition trim_start (s : string) : string := trim_start_fuel (String.length s) s.

(** [str::trim_end]: what is left once only white space remains is dropped. *)
Fixpoint trim_end (s : string) : string :=
  match s with
  | "" => ""
  | String c rest => if trim_is_empty s then "" else String c (trim_end rest)
  end%string.

Definition trim (s : string) : string := trim_end (trim_start s).

(** [s.chars().any(|c| c.is_whitespace())] *)
Fixpoint has_whitespace (s : string) : bool :=
  match s with
  | "" => false
  | String _ rest => match strip_space s with Some _ => true | None => has_whitespace rest end
  end%string.

Definition contains_byte (n : nat) (s : string) : bool :=
  existsb (λ c, byte_is c n) (String.list_ascii_of_string s).

(** [s.rfind('@')] with the two slices around it. *)
Fixpoint rsplit_at (n : nat) (s : string) : option (string * string) :=
  match s with
  | "" => None
  | String c rest =>
      match rsplit_at n rest with
      | Some (before, after) => Some (String c before, after)
      | None => if byte_is c n then Some ("", rest) else None
      end
  end%string.

Definition starts_with_byte (n : nat) (s : string) : bool :=
  match s with String c _ => byte_is c n | "" => false end%string.
Fixpoint ends_with_byte (n : nat) (s : string) : bool :=
  match s with
  | "" => false
  | String c "" => byte_is c n
  | String _ rest => ends_with_byte n rest
  end%string.

Definition str_len (s : string) : Z := Z.of_nat (String.length s).

(** ** Value objects *)

Definition EmailAddress : Type := string.
Definition PhoneNumber : Type := string.
Definition CountryCode : Type := string.
Definition IdentityId : Type := string.
Definition PasswordHash : Type := string.
Definition RecoveryCodeHash : Type := string.
Definition EncryptedBytes : Type := list Byte.byte.
(** [AccountId] wraps a UUID. *)
Abbreviation AccountId := Uuid.

Definition EMAIL_MAX_LEN : Z := 254.

(** [EmailAddress::new] *)
Definition email_new `{StdText} (value : string) : result AccountError EmailAddress :=
  let s := to_lowercase (trim value) in
  if decide (s = "") then Err (InvalidEmail "email must not be empty")
  else if EMAIL_MAX_LEN <? str_len s then
    Err (InvalidEmail ("email exceeds maximum length of " +:+ pretty EMAIL_MAX_LEN +:+ " characters"))
  else if has_whitespace s then Err (InvalidEmail "email must not contain whitespace")
  else match rsplit_at 64 s with
  | None => Err (InvalidEmail "email must contain '@'")
  | Some (local, domain) =>
      if decide (local = "") then Err (InvalidEmail "email local part must not be empty")
      else if bool_decide (domain = "") || negb (contains_byte 46 domain) then
        Err (InvalidEmail "email domain part must be non-empty and contain at least one dot")
      else if starts_with_byte 46 domain || ends_with_byte 46 domain then
        Err (InvalidEmail "email domain must not start or end with a dot")
      else Ok s
  end.

(** [EmailAddress::anonymised] *)
Definition email_anonymised `{UuidText} (account_id : AccountId) : EmailAddress :=
  "anon-" +:+ hyphenated account_id +:+ "@deleted.invalid".

Definition PHONE_MIN_LEN : Z := 8.
Definition PHONE_MAX_LEN : Z := 15.

(** [PhoneNumber::new] *)
Definition phone_new (s : string) : result AccountError PhoneNumber :=
  match s with
  | String c digits =>
      if negb (byte_is c 43) then
        Err (InvalidPhone "phone number must start with '+' (E.164 format)")
      else if negb (forallb (λ d, byte_in d 48 57) (String.list_ascii_of_string digits)) then
        Err (InvalidPhone "phone number must contain only digits after '+'")
      else if negb ((PHONE_MIN_LEN <=? str_len s) && (str_len s <=? PHONE_MAX_LEN)) then
        Err (InvalidPhone ("phone number length must be between " +:+ pretty PHONE_MIN_LEN
          +:+ " and " +:+ pretty PHONE_MAX_LEN +:+ " characters (got "
          +:+ pretty (str_len s) +:+ ")"))
      else Ok s
  | EmptyString => Err (InvalidPhone "phone number must start with '+' (E.164 format)")
  end.

Definition is_ascii_alphabetic (c : ascii) : bool := byte_in c 65 90 || byte_in c 97 122.

(** [CountryCode::new] *)
Definition country_new `{StdText} (value : string) : result AccountError CountryCode :=
  let s := to_uppercase (trim value) in
  if negb (str_len s =? 2)
     || negb (forallb is_ascii_alphabetic (String.list_ascii_of_string s))
  then Err (InvalidCountryCode
              ("country code must be exactly 2 ASCII letters (got " +:+ debug_str s +:+ ")"))
  else Ok s.

Definition IDENTITY_MAX_LEN : Z := 255.

(** [IdentityId::new] *)
Definition identity_new (s : string) : result AccountError IdentityId :=
  if decide (s = "") then Err (InvalidIdentityId "identity_id must not be empty")
  else if IDENTITY_MAX_LEN <? str_len s then
    Err (InvalidIdentityId ("identity_id exceeds maximum length of "
           +:+ pretty IDENTITY_MAX_LEN +:+ " characters"))
  else Ok s.

Inductive AccountStatus := PendingVerification | Active | Suspended | Deactivated | Deleted.
#[export] Instance AccountStatus_eq_dec : EqDecision AccountStatus.
Proof. solve_decision. Defined.

Definition account_status_str (s : AccountStatus) : string :=
  match s with
  | PendingVerification => "pending_verification"
  | Active => "active"
  | Suspended => "suspended"
  | Deactivated => "deactivated"
  | Deleted => "deleted"
  end.

Definition can_transition_to (s next : AccountStatus) : bool :=
  match s, next with
  | PendingVerification, Active | PendingVerification, Deleted
  | Active, Suspended | Active, Deactivated | Active, Deleted
  | Suspended, Active | Suspended, Deactivated | Suspended, Deleted
  | Deactivated, Active | Deactivated, Deleted => true
  | _, _ => false
  end.

Definition account_status_try_from (s : string) : result AccountError AccountStatus :=
  if decide (s = "pending_verification") then Ok PendingVerification
  else if decide (s = "active") then Ok Active
  else if decide (s = "suspended") then Ok Suspended
  else if decide (s = "deactivated") then Ok Deactivated
  else if decide (s = "deleted") then Ok Deleted
  else Err (InvalidAccountStatus s).

Inductive KycStatus := NotStarted | Submitted | InReview | Approved | Rejected.
#[export] Instance KycStatus_eq_dec : EqDecision KycStatus.
Proof. solve_decision. Defined.

Definition kyc_status_str (s : KycStatus) : string :=
  match s with
  | NotStarted => "not_started"
  | Submitted => "submitted"
  | InReview => "in_review"
  | Approved => "approved"
  | Rejected => "rejected"
  end.

Definition kyc_can_transition_to (s next : KycStatus) : bool :=
  match s, next with
  | NotStarted, Submitted | Submitted, InReview
  | InReview, Approved | InReview, Rejected | Rejected, Submitted => true
  | _, _ => false
  end.

Definition kyc_status_try_from (s : string) : result AccountError KycStatus :=
  if decide (s = "not_started") then Ok NotStarted
  else if decide (s = "submitted") then Ok Submitted
  else if decide (s = "in_review") then Ok InReview
  else if decide (s = "approved") then Ok Approved
  else if decide (s = "rejected") then Ok Rejected
  else Err (InvalidKycStatus s).

Inductive AccountRole :=
  | User | ContentModerator | SupportAgent | FinanceOperator | Admin | SuperAdmin.
#[export] Instance AccountRole_eq_dec : EqDecision AccountRole.
Proof. solve_decision. Defined.

Definition account_role_str (r : AccountRole) : string :=
  match r with
  | User => "user"
  | ContentModerator => "content_moderator"
  | SupportAgent => "support_agent"
  | FinanceOperator => "finance_operator"
  | Admin => "admin"
  | SuperAdmin => "super_admin"
  end.

Definition granted_permissions (r : AccountRole) : list string :=
  match r with
  | User | ContentModerator | SupportAgent | FinanceOperator => []
  | Admin => ["audit:read"; "audit:verify"]
  | SuperAdmin => ["audit:read"; "audit:verify"; "audit:export"; "audit:record"]
  end.

Definition privilege_level (r : AccountRole) : Z :=
  match r with
  | User => 1
  | ContentModerator => 2
  | SupportAgent => 2
  | FinanceOperator => 3
  | Admin => 4
  | SuperAdmin => 5
  end.

Definition account_role_try_from (s : string) : result AccountError AccountRole :=
  if decide (s = "user") then Ok User
  else if decide (s = "content_moderator") then Ok ContentModerator
  else if decide (s = "support_agent") then Ok SupportAgent
  else if decide (s = "finance_operator") then Ok FinanceOperator
  else if decide (s = "admin") then Ok Admin
  else if decide (s = "super_admin") then Ok SuperAdmin
  else Err (InvalidAccountRole s).

(** ** Entities *)

Module MfaState.
Record t := mk {
  enforced : bool;
  totp_secret : option EncryptedBytes;
  totp_enrolled_at : option Z;
  recovery_codes : list RecoveryCodeHash;
  backup_verified_at : option Z;
}.
#[global] Instance fields : Fields t := λ m, {|
  enforced := enforced m; totp_secret := totp_secret m;
  totp_enrolled_at := totp_enrolled_at m; recovery_codes := recovery_codes m;
  backup_verified_at := backup_verified_at m |}.

Definition default : t := mk false None None [] None.

Definition is_enrolled (m : t) : bool := bool_decide (is_Some (totp_secret m)).

(** [Vec::remove] at the first position of [x], when there is one. *)
Fixpoint remove_first {A} `{EqDecision A} (x : A) (l : list A) : option (list A) :=
  match l with
  | [] => None
  | y :: l => if decide (y = x) then Some l else cons y <$> remove_first x l
  end.

Definition consume_recovery_code (now : Z) (code_hash : string) (m : t) : t * bool :=
  match remove_first code_hash (recovery_codes m) with
  | Some codes => (m <| recovery_codes := codes |> <| backup_verified_at := Some now |>, true)
  | None => (m, false)
  end.

Definition enroll (now : Z) (secret : EncryptedBytes) (codes : list RecoveryCodeHash) (m : t) : t :=
  m <| totp_secret := Some secret |> <| recovery_codes := codes |>
    <| totp_enrolled_at := Some now |>.

Definition revoke (m : t) : t :=
  m <| totp_secret := None |> <| totp_enrolled_at := None |> <| recovery_codes := [] |>
    <| backup_verified_at := None |> <| enforced := false |>.
End MfaState.

Module GdprRecord.
Record t := mk {
  data_processing_consented_at : option Z;
  marketing_consented_at : option Z;
  consent_ip : option string;
  last_consent_version : option string;
  deletion_requested_at : option Z;
  deletion_scheduled_at : option Z;
  anonymized_at : option Z;
  data_export_requested_at : option Z;
  data_export_completed_at : option Z;
}.
#[global] Instance fields : Fields t := λ g, {|
  data_processing_consented_at := data_processing_consented_at g;
  marketing_consented_at := marketing_consented_at g; consent_ip := consent_ip g;
  last_consent_version := last_consent_version g;
  deletion_requested_at := deletion_requested_at g;
  deletion_scheduled_at := deletion_scheduled_at g; anonymized_at := anonymized_at g;
  data_export_requested_at := data_export_requested_at g;
  data_export_completed_at := data_export_completed_at g |}.

Definition default : t := mk None None None None None None None None None.

Definition is_anonymized (g : t) : bool := bool_decide (is_Some (anonymized_at g)).

Definition has_pending_deletion (g : t) : bool :=
  bool_decide (is_Some (deletion_requested_at g)) && bool_decide (anonymized_at g = None).

(** [None] is chrono's panic. *)
Definition request_deletion `{Chrono} (now retention_days : Z) (g : t) : option t :=
  scheduled ← add_seconds now (retention_days * 86400);
  Some (g <| deletion_requested_at := Some now |>
          <| deletion_scheduled_at := Some scheduled |>).
End GdprRecord.

(** ** Domain events *)

Inductive DomainEvent :=
  | AccountCreated (account_id : AccountId) (identity_id : IdentityId) (email : EmailAddress)
      (role : AccountRole) (status : AccountStatus)
      (country_of_residence : option CountryCode) (occurred_at : Z) (correlation_id : Uuid)
  | EmailVerified (account_id : AccountId) (email : EmailAddress) (verified_at occurred_at : Z)
      (correlation_id : Uuid)
  | PasswordChanged (account_id : AccountId) (occurred_at : Z) (correlation_id : Uuid)
  | EmailChanged (account_id : AccountId) (old_email new_email : EmailAddress)
      (occurred_at : Z) (correlation_id : Uuid)
  | PhoneChanged (account_id : AccountId) (new_phone : option PhoneNumber) (occurred_at : Z)
      (correlation_id : Uuid)
  | MfaEnrolled (account_id : AccountId) (recovery_codes_count : nat) (occurred_at : Z)
      (correlation_id : Uuid)
  | MfaRevoked (account_id : AccountId) (occurred_at : Z) (correlation_id : Uuid)
  | RoleAssigned (account_id : AccountId) (role : AccountRole) (occurred_at : Z)
      (correlation_id : Uuid)
  | RoleRevoked (account_id : AccountId) (role : AccountRole) (occurred_at : Z)
      (correlation_id : Uuid)
  | AccountSuspended (account_id : AccountId) (reason : string) (occurred_at : Z)
      (correlation_id : Uuid)
  | AccountActivated (account_id : AccountId) (occurred_at : Z) (correlation_id : Uuid)
  | AccountDeactivated (account_id : AccountId) (occurred_at : Z) (correlation_id : Uuid)
  | AccountDeleted (account_id : AccountId) (deleted_by : option AccountId) (occurred_at : Z)
      (correlation_id : Uuid)
  | KycStatusChanged (account_id : AccountId) (old_status new_status : KycStatus)
      (occurred_at : Z) (correlation_id : Uuid)
  | GdprDeletionRequested (account_id : AccountId) (retention_days scheduled_deletion_at : Z)
      (occurred_at : Z) (correlation_id : Uuid)
  | GdprDataExportRequested (account_id : AccountId) (requested_at occurred_at : Z)
      (correlation_id : Uuid).

Definition event_type (e : DomainEvent) : string :=
  match e with
  | AccountCreated _ _ _ _ _ _ _ _ => "account.created"
  | EmailVerified _ _ _ _ _ => "account.email_verified"
  | PasswordChanged _ _ _ => "account.password_changed"
  | EmailChanged _ _ _ _ _ => "account.email_changed"
  | PhoneChanged _ _ _ _ => "account.phone_changed"
  | MfaEnrolled _ _ _ _ => "account.mfa_enrolled"
  | MfaRevoked _ _ _ => "account.mfa_revoked"
  | RoleAssigned _ _ _ _ => "account.role_assigned"
  | RoleRevoked _ _ _ _ => "account.role_revoked"
  | AccountSuspended _ _ _ _ => "account.suspended"
  | AccountActivated _ _ _ => "account.activated"
  | AccountDeactivated _ _ _ => "account.deactivated"
  | AccountDeleted _ _ _ _ => "account.deleted"
  | KycStatusChanged _ _ _ _ _ => "account.kyc_status_changed"
  | GdprDeletionRequested _ _ _ _ _ => "account.gdpr_deletion_requested"
  | GdprDataExportRequested _ _ _ _ => "account.gdpr_data_export_requested"
  end.

(** The partition key of an event. *)
Definition event_key (e : DomainEvent) : AccountId :=
  match e with
  | AccountCreated a _ _ _ _ _ _ _ | EmailVerified a _ _ _ _ | PasswordChanged a _ _
  | EmailChanged a _ _ _ _ | PhoneChanged a _ _ _ | MfaEnrolled a _ _ _ | MfaRevoked a _ _
  | RoleAssigned a _ _ _ | RoleRevoked a _ _ _ | AccountSuspended a _ _ _
  | AccountActivated a _ _ | AccountDeactivated a _ _ | AccountDeleted a _ _ _
  | KycStatusChanged a _ _ _ _ | GdprDeletionRequested a _ _ _ _
  | GdprDataExportRequested a _ _ _ => a
  end.

(** ** The aggregate *)

Record AccountCreateParams := mk_create_params {
  p_identity_id : IdentityId;
  p_email : EmailAddress;
  p_password_hash : option PasswordHash;
  p_phone : option PhoneNumber;
  p_role : AccountRole;
  p_country_of_residence : option CountryCode;
  p_created_by : option AccountId;
  p_correlation_id : Uuid;
}.

Module Account.
Record t := mk {
  id : AccountId;
  version : Z;
  status : AccountStatus;
  suspension_reason : option string;
  deactivated_at : option Z;
  identity_id : IdentityId;
  email : EmailAddress;
  email_verified : bool;
  email_verified_at : option Z;
  phone : option PhoneNumber;
  phone_verified : bool;
  phone_verified_at : option Z;
  password_hash : option PasswordHash;
  password_changed_at : option Z;
  failed_login_attempts : Z;
  locked_until : option Z;
  last_login_at : option Z;
  mfa : MfaState.t;
  kyc_status : KycStatus;
  kyc_reviewed_at : option Z;
  kyc_reviewer_id : option AccountId;
  date_of_birth : option Z;
  country_of_residence : option CountryCode;
  gdpr : GdprRecord.t;
  roles : list AccountRole;
  permission_overrides : list string;
  created_by : option AccountId;
  created_at : Z;
  updated_at : Z;
  pending_events : list DomainEvent;
}.

#[global] Instance fields : Fields t := λ a, {|
  id := id a; version := version a; status := status a;
  suspension_reason := suspension_reason a; deactivated_at := deactivated_at a;
  identity_id := identity_id a; email := email a; email_verified := email_verified a;
  email_verified_at := email_verified_at a; phone := phone a;
  phone_verified := phone_verified a; phone_verified_at := phone_verified_at a;
  password_hash := password_hash a; password_changed_at := password_changed_at a;
  failed_login_attempts := failed_login_attempts a; locked_until := locked_until a;
  last_login_at := last_login_at a; mfa := mfa a; kyc_status := kyc_status a;
  kyc_reviewed_at := kyc_reviewed_at a; kyc_reviewer_id := kyc_reviewer_id a;
  date_of_birth := date_of_birth a; country_of_residence := country_of_residence a;
  gdpr := gdpr a; roles := roles a; permission_overrides := permission_overrides a;
  created_by := created_by a; created_at := created_at a; updated_at := updated_at a;
  pending_events := pending_events a |}.

Definition create (new_id : AccountId) (now : Z) (p : AccountCreateParams) : t := {|
  id := new_id; version := 0; status := PendingVerification;
  suspension_reason := None; deactivated_at := None;
  identity_id := p_identity_id p; email := p_email p; email_verified := false;
  email_verified_at := None; phone := p_phone p; phone_verified := false;
  phone_verified_at := None; password_hash := p_password_hash p;
  password_changed_at := None; failed_login_attempts := 0; locked_until := None;
  last_login_at := None; mfa := MfaState.default; kyc_status := NotStarted;
  kyc_reviewed_at := None; kyc_reviewer_id := None; date_of_birth := None;
  country_of_residence := p_country_of_residence p; gdpr := GdprRecord.default;
  roles := [p_role p]; permission_overrides := []; created_by := p_created_by p;
  created_at := now; updated_at := now;
  pending_events :=
    [AccountCreated new_id (p_identity_id p) (p_email p) (p_role p) PendingVerification
       (p_country_of_residence p) now (p_correlation_id p)] |}.

(** *** Private helpers *)

Definition require_active (a : t) : outcome unit :=
  if decide (status a = Active) then Ok tt
  else fails (AccountNotActive (account_status_str (status a))).

Definition transition_status (next : AccountStatus) (a : t) : outcome t :=
  if can_transition_to (status a) next then Ok (a <| status := next |>)
  else fails (InvalidStatusTransition (account_status_str (status a)) (account_status_str next)).

Definition touch (now : Z) (a : t) : t :=
  a <| version := i64_add (version a) 1 |> <| updated_at := now |>.

Definition push_event (e : DomainEvent) (a : t) : t :=
  a <| pending_events := pending_events a ++ [e] |>.

(** *** Mutations: [now] is what [Utc::now()] returns, [cid] the correlation id *)

Definition verify_email (now : Z) (cid : Uuid) (a : t) : outcome t :=
  if email_verified a then fails EmailAlreadyVerified
  else
    a ← transition_status Active a;
    let a := a <| email_verified := true |> <| email_verified_at := Some now |> in
    let a := touch now a in
    Ok (push_event (EmailVerified (id a) (email a) now now cid) a).

Definition verify_phone (now : Z) (cid : Uuid) (a : t) : outcome t :=
  _ ← require_active a;
  if decide (phone a = None) then
    fails (DomainViolation "phone" "no phone number is set on this account")
  else
    let a := touch now a in
    let a := a <| phone_verified := true |> <| phone_verified_at := Some now |> in
    Ok (push_event (PhoneChanged (id a) (phone a) now cid) a).

Definition change_password (now : Z) (new_hash : PasswordHash) (cid : Uuid) (a : t) : outcome t :=
  _ ← require_active a;
  let a := a <| password_hash := Some new_hash |> in
  let a := touch now a in
  let a := a <| password_changed_at := Some now |> in
  Ok (push_event (PasswordChanged (id a) now cid) a).

Definition change_email (now : Z) (new_email : EmailAddress) (cid : Uuid) (a : t) : outcome t :=
  _ ← require_active a;
  let old_email := email a in
  let a := a <| email := new_email |> <| email_verified := false |>
             <| email_verified_at := None |> in
  let a := touch now a in
  Ok (push_event (EmailChanged (id a) old_email new_email now cid) a).

Definition change_phone (now : Z) (new_phone : option PhoneNumber) (cid : Uuid) (a : t) : outcome t :=
  _ ← require_active a;
  let a := a <| phone := new_phone |> <| phone_verified := false |>
             <| phone_verified_at := None |> in
  let a := touch now a in
  Ok (push_event (PhoneChanged (id a) new_phone now cid) a).

(** Two clock readings: the enrolment's and [touch_now]'s. *)
Definition enroll_mfa (t1 now : Z) (secret : EncryptedBytes) (codes : list RecoveryCodeHash)
    (cid : Uuid) (a : t) : outcome t :=
  _ ← require_active a;
  if MfaState.is_enrolled (mfa a) then fails MfaAlreadyEnrolled
  else
    let a := a <| mfa := MfaState.enroll t1 secret codes (mfa a) |> in
    let a := touch now a in
    Ok (push_event (MfaEnrolled (id a) (length codes) now cid) a).

Definition revoke_mfa (now : Z) (cid : Uuid) (a : t) : outcome t :=
  _ ← require_active a;
  if negb (MfaState.is_enrolled (mfa a)) then fails MfaNotEnrolled
  else
    let a := a <| mfa := MfaState.revoke (mfa a) |> in
    let a := touch now a in
    Ok (push_event (MfaRevoked (id a) now cid) a).

Definition assign_role (now : Z) (role : AccountRole) (cid : Uuid) (a : t) : outcome t :=
  if decide (role ∈ roles a) then fails (RoleAlreadyAssigned (account_role_str role))
  else
    let a := a <| roles := roles a ++ [role] |> in
    let a := touch now a in
    Ok (push_event (RoleAssigned (id a) role now cid) a).

Definition revoke_role (now : Z) (role : AccountRole) (cid : Uuid) (a : t) : outcome t :=
  match MfaState.remove_first role (roles a) with
  | None => fails (RoleNotAssigned (account_role_str role))
  | Some rest =>
      if decide (length (roles a) = 1%nat) then
        fails (DomainViolation "roles" "cannot revoke the last role from an account")
      else
        let a := a <| roles := rest |> in
        let a := touch now a in
        Ok (push_event (RoleRevoked (id a) role now cid) a)
  end.

Definition suspend (now : Z) (reason : string) (cid : Uuid) (a : t) : outcome t :=
  a ← transition_status Suspended a;
  let a := a <| suspension_reason := Some reason |> in
  let a := touch now a in
  Ok (push_event (AccountSuspended (id a) reason now cid) a).

Definition activate (now : Z) (cid : Uuid) (a : t) : outcome t :=
  a ← transition_status Active a;
  let a := a <| suspension_reason := None |> in
  let a := touch now a in
  Ok (push_event (AccountActivated (id a) now cid) a).

Definition deactivate (now : Z) (cid : Uuid) (a : t) : outcome t :=
  a ← transition_status Deactivated a;
  let a := touch now a in
  let a := a <| deactivated_at := Some now |> in
  Ok (push_event (AccountDeactivated (id a) now cid) a).

Definition delete (now : Z) (deleted_by : option AccountId) (cid : Uuid) (a : t) : outcome t :=
  a ← transition_status Deleted a;
  let a := touch now a in
  Ok (push_event (AccountDeleted (id a) deleted_by now cid) a).

Definition update_kyc_status (now : Z) (new_status : KycStatus) (reviewer : AccountId)
    (cid : Uuid) (a : t) : outcome t :=
  if negb (kyc_can_transition_to (kyc_status a) new_status) then
    fails (InvalidKycTransition (kyc_status_str (kyc_status a)) (kyc_status_str new_status))
  else
    let old_status := kyc_status a in
    let a := a <| kyc_status := new_status |> <| kyc_reviewed_at := Some now |>
               <| kyc_reviewer_id := Some reviewer |> in
    let a := touch now a in
    Ok (push_event (KycStatusChanged (id a) old_status new_status now cid) a).

(** Two clock readings: the request's and [touch_now]'s. *)
Definition request_gdpr_deletion `{Chrono} (t1 now : Z) (retention_days : Z) (cid : Uuid)
    (a : t) : outcome t :=
  if GdprRecord.has_pending_deletion (gdpr a) then fails GdprDeletionAlreadyRequested
  else match GdprRecord.request_deletion t1 retention_days (gdpr a) with
  | None => Err Panics
  | Some g =>
      match GdprRecord.deletion_scheduled_at g with
      | None => Err Panics
      | Some scheduled =>
          let a := a <| gdpr := g |> in
          let a := touch now a in
          Ok (push_event (GdprDeletionRequested (id a) retention_days scheduled now cid) a)
      end
  end.

Definition request_gdpr_data_export (now : Z) (cid : Uuid) (a : t) : outcome t :=
  let a := touch now a in
  let a := a <| gdpr := gdpr a <| GdprRecord.data_export_requested_at := Some now |> |> in
  Ok (push_event (GdprDataExportRequested (id a) now now cid) a).

(** [let _ = self.transition_status(Deleted)] keeps the status when it is refused. *)
Definition anonymize (now : Z) (cid : Uuid) (a : t) : outcome t :=
  if GdprRecord.is_anonymized (gdpr a) then fails AccountAlreadyAnonymized
  else
    let a := a <| gdpr := gdpr a <| GdprRecord.anonymized_at := Some now |> |>
               <| phone := None |> <| phone_verified := false |>
               <| phone_verified_at := None |> <| password_hash := None |>
               <| date_of_birth := None |> <| mfa := MfaState.revoke (mfa a) |> in
    let a := match transition_status Deleted a with Ok a' => a' | Err _ => a end in
    let a := touch now a in
    Ok (push_event (AccountDeleted (id a) None now cid) a).

Definition record_login (now : Z) (a : t) : t :=
  let a := a <| failed_login_attempts := 0 |> <| locked_until := None |>
             <| last_login_at := Some now |> in
  touch now a.

(** Two clock readings: the lock's and [touch]'s. *)
Definition record_failed_login `{Chrono} (t1 now : Z) (max_attempts lockout_duration_secs : Z)
    (a : t) : outcome t :=
  let a := a <| failed_login_attempts := i32_add (failed_login_attempts a) 1 |> in
  if max_attempts <=? as_u16 (failed_login_attempts a) then
    match add_seconds t1 (as_signed 64 lockout_duration_secs) with
    | None => Err Panics
    | Some until => Ok (touch now (a <| locked_until := Some until |>))
    end
  else Ok (touch now a).

(** *** Reads *)

Definition drain_events (a : t) : t * list DomainEvent :=
  (a <| pending_events := [] |>, pending_events a).

Definition is_active (a : t) : bool := bool_decide (status a = Active).

Definition is_locked (now : Z) (a : t) : bool :=
  match locked_until a with Some until => now <? until | None => false end.

Definition has_role (role : AccountRole) (a : t) : bool := bool_decide (role ∈ roles a).

(** [Vec::sort_unstable] on strings: bytewise order. *)
Definition sort_unstable (l : list string) : list string := merge_sort string_le l.

(** [Vec::dedup]: consecutive duplicates. *)
Fixpoint dedup (l : list string) : list string :=
  match l with
  | [] => []
  | x :: l' => match dedup l' with
               | y :: d => if String.eqb x y then y :: d else x :: y :: d
               | [] => [x]
               end
  end.

Definition effective_permissions (a : t) : list string :=
  dedup (sort_unstable ((roles a ≫= granted_permissions) ++ permission_overrides a)).
End Account.
