(* ===== verification/AccountStore.v ===== *)
(** * Account: the Postgres table, the repository and the event publisher

    Models [crates/services/account/src/infrastructure/{persistence,event}] with the
    transaction kernel of [crates/storage/postgres]: the flat row, its conversions from
    and to the aggregate, the CAS-protected [save], the reads, and the publication of
    the aggregate's events after a durable write.  [World] is the table and the topic;
    every call to a backend first consumes an entry of a fault script. *)

From S2P Require Import Prelude AccountDomain.
Local Open Scope Z_scope.

(** What a [TIMESTAMPTZ] column keeps of an instant. *)
Class PgTime := {
  pg_instant : Z → Z;
  pg_instant_idem t : pg_instant (pg_instant t) = pg_instant t;
  pg_instant_mono t u : t ≤ u → pg_instant t ≤ pg_instant u;
}.

Module AccountRow.
Record t := mk {
  id : Uuid;
  identity_id : string;
  status : string;
  suspension_reason : option string;
  deactivated_at : option Z;
  email : string;
  email_verified : bool;
  email_verified_at : option Z;
  phone : option string;
  phone_verified : bool;
  phone_verified_at : option Z;
  password_hash : option string;
  password_changed_at : option Z;
  failed_login_attempts : Z;
  locked_until : option Z;
  last_login_at : option Z;
  mfa_enforced : bool;
  mfa_totp_secret : option (list Byte.byte);
  mfa_totp_enrolled_at : option Z;
  mfa_recovery_codes : list string;
  mfa_backup_verified_at : option Z;
  kyc_status : string;
  kyc_reviewed_at : option Z;
  kyc_reviewer_id : option Uuid;
  date_of_birth : option Z;
  country_of_residence : option string;
  gdpr_data_processing_consented_at : option Z;
  gdpr_marketing_consented_at : option Z;
  gdpr_consent_ip : option string;
  gdpr_last_consent_version : option string;
  gdpr_deletion_requested_at : option Z;
  gdpr_deletion_scheduled_at : option Z;
  gdpr_anonymized_at : option Z;
  gdpr_data_export_requested_at : option Z;
  gdpr_data_export_completed_at : option Z;
  roles : list string;
  permission_overrides : list string;
  version : Z;
  created_at : Z;
  updated_at : Z;
  created_by : option Uuid;
}.

#[global] Instance fields : Fields t := λ r, {|
  id := id r; identity_id := identity_id r; status := status r; suspension_reason :=
  suspension_reason r; deactivated_at := deactivated_at r; email := email r;
  email_verified := email_verified r; email_verified_at := email_verified_at r; phone :=
  phone r; phone_verified := phone_verified r; phone_verified_at := phone_verified_at r;
  password_hash := password_hash r; password_changed_at := password_changed_at r;
  failed_login_attempts := failed_login_attempts r; locked_until := locked_until r;
  last_login_at := last_login_at r; mfa_enforced := mfa_enforced r; mfa_totp_secret :=
  mfa_totp_secret r; mfa_totp_enrolled_at := mfa_totp_enrolled_at r; mfa_recovery_codes :=
  mfa_recovery_codes r; mfa_backup_verified_at := mfa_backup_verified_at r; kyc_status :=
  kyc_status r; kyc_reviewed_at := kyc_reviewed_at r; kyc_reviewer_id := kyc_reviewer_id
  r; date_of_birth := date_of_birth r; country_of_residence := country_of_residence r;
  gdpr_data_processing_consented_at := gdpr_data_processing_consented_at r;
  gdpr_marketing_consented_at := gdpr_marketing_consented_at r; gdpr_consent_ip :=
  gdpr_consent_ip r; gdpr_last_consent_version := gdpr_last_consent_version r;
  gdpr_deletion_requested_at := gdpr_deletion_requested_at r; gdpr_deletion_scheduled_at
  := gdpr_deletion_scheduled_at r; gdpr_anonymized_at := gdpr_anonymized_at r;
  gdpr_data_export_requested_at := gdpr_data_export_requested_at r;
  gdpr_data_export_completed_at := gdpr_data_export_completed_at r; roles := roles r;
  permission_overrides := permission_overrides r; version := version r; created_at :=
  created_at r; updated_at := updated_at r; created_by := created_by r |}.

(** The text columns, which Postgres checks for zero bytes. *)
Definition texts (r : t) : list string :=
  [identity_id r; status r; email r; kyc_status r]
  ++ option_list (suspension_reason r) ++ option_list (phone r)
  ++ option_list (password_hash r) ++ option_list (country_of_residence r)
  ++ option_list (gdpr_consent_ip r) ++ option_list (gdpr_last_consent_version r)
  ++ mfa_recovery_codes r ++ roles r ++ permission_overrides r.
End AccountRow.

Section Rows.
Context `{StdText} `{PgTime}.

(** The parameters [save] binds, as the columns will hold them; [ver] and [upd] are the
    version and [updated_at] columns, which the two statements bind differently. *)
Definition to_row (ver upd : Z) (a : Account.t) : AccountRow.t :=
  let mfa := Account.mfa a in
  let gdpr := Account.gdpr a in {|
  AccountRow.id := Account.id a;
  AccountRow.identity_id := Account.identity_id a;
  AccountRow.status := account_status_str (Account.status a);
  AccountRow.suspension_reason := Account.suspension_reason a;
  AccountRow.deactivated_at := pg_instant <$> Account.deactivated_at a;
  AccountRow.email := Account.email a;
  AccountRow.email_verified := Account.email_verified a;
  AccountRow.email_verified_at := pg_instant <$> Account.email_verified_at a;
  AccountRow.phone := Account.phone a;
  AccountRow.phone_verified := Account.phone_verified a;
  AccountRow.phone_verified_at := pg_instant <$> Account.phone_verified_at a;
  AccountRow.password_hash := Account.password_hash a;
  AccountRow.password_changed_at := pg_instant <$> Account.password_changed_at a;
  AccountRow.failed_login_attempts := as_i16 (Account.failed_login_attempts a);
  AccountRow.locked_until := pg_instant <$> Account.locked_until a;
  AccountRow.last_login_at := pg_instant <$> Account.last_login_at a;
  AccountRow.mfa_enforced := MfaState.enforced mfa;
  AccountRow.mfa_totp_secret := MfaState.totp_secret mfa;
  AccountRow.mfa_totp_enrolled_at := pg_instant <$> MfaState.totp_enrolled_at mfa;
  AccountRow.mfa_recovery_codes := MfaState.recovery_codes mfa;
  AccountRow.mfa_backup_verified_at := pg_instant <$> MfaState.backup_verified_at mfa;
  AccountRow.kyc_status := kyc_status_str (Account.kyc_status a);
  AccountRow.kyc_reviewed_at := pg_instant <$> Account.kyc_reviewed_at a;
  AccountRow.kyc_reviewer_id := Account.kyc_reviewer_id a;
  AccountRow.date_of_birth := Account.date_of_birth a;
  AccountRow.country_of_residence := Account.country_of_residence a;
  AccountRow.gdpr_data_processing_consented_at :=
    pg_instant <$> GdprRecord.data_processing_consented_at gdpr;
  AccountRow.gdpr_marketing_consented_at :=
    pg_instant <$> GdprRecord.marketing_consented_at gdpr;
  AccountRow.gdpr_consent_ip := GdprRecord.consent_ip gdpr;
  AccountRow.gdpr_last_consent_version := GdprRecord.last_consent_version gdpr;
  AccountRow.gdpr_deletion_requested_at := pg_instant <$> GdprRecord.deletion_requested_at gdpr;
  AccountRow.gdpr_deletion_scheduled_at := pg_instant <$> GdprRecord.deletion_scheduled_at gdpr;
  AccountRow.gdpr_anonymized_at := pg_instant <$> GdprRecord.anonymized_at gdpr;
  AccountRow.gdpr_data_export_requested_at :=
    pg_instant <$> GdprRecord.data_export_requested_at gdpr;
  AccountRow.gdpr_data_export_completed_at :=
    pg_instant <$> GdprRecord.data_export_completed_at gdpr;
  AccountRow.roles := account_role_str <$> Account.roles a;
  AccountRow.permission_overrides := Account.permission_overrides a;
  AccountRow.version := ver;
  AccountRow.created_at := pg_instant (Account.created_at a);
  AccountRow.updated_at := pg_instant upd;
  AccountRow.created_by := Account.created_by a |}.

(** [Option::map(f).transpose()] and [collect::<Result<_, _>>()]. *)
Definition transpose {E A B} (f : A → result E B) (o : option A) : result E (option B) :=
  match o with Some x => y ← f x; Ok (Some y) | None => Ok None end.
Fixpoint try_collect {E A B} (f : A → result E B) (l : list A) : result E (list B) :=
  match l with
  | [] => Ok []
  | x :: l => y ← f x; ys ← try_collect f l; Ok (y :: ys)
  end.

(** [TryFrom<AccountRow> for Account] *)
Definition try_from (r : AccountRow.t) : result AccountError Account.t :=
  identity ← identity_new (AccountRow.identity_id r);
  st ← account_status_try_from (AccountRow.status r);
  em ← email_new (AccountRow.email r);
  ph ← transpose phone_new (AccountRow.phone r);
  kyc ← kyc_status_try_from (AccountRow.kyc_status r);
  country ← transpose country_new (AccountRow.country_of_residence r);
  rs ← try_collect account_role_try_from (AccountRow.roles r);
  Ok {|
    Account.id := AccountRow.id r;
    Account.version := AccountRow.version r;
    Account.status := st;
    Account.suspension_reason := AccountRow.suspension_reason r;
    Account.deactivated_at := AccountRow.deactivated_at r;
    Account.identity_id := identity;
    Account.email := em;
    Account.email_verified := AccountRow.email_verified r;
    Account.email_verified_at := AccountRow.email_verified_at r;
    Account.phone := ph;
    Account.phone_verified := AccountRow.phone_verified r;
    Account.phone_verified_at := AccountRow.phone_verified_at r;
    Account.password_hash := AccountRow.password_hash r;
    Account.password_changed_at := AccountRow.password_changed_at r;
    Account.failed_login_attempts := AccountRow.failed_login_attempts r;
    Account.locked_until := AccountRow.locked_until r;
    Account.last_login_at := AccountRow.last_login_at r;
    Account.mfa := {|
      MfaState.enforced := AccountRow.mfa_enforced r;
      MfaState.totp_secret := AccountRow.mfa_totp_secret r;
      MfaState.totp_enrolled_at := AccountRow.mfa_totp_enrolled_at r;
      MfaState.recovery_codes := AccountRow.mfa_recovery_codes r;
      MfaState.backup_verified_at := AccountRow.mfa_backup_verified_at r |};
    Account.kyc_status := kyc;
    Account.kyc_reviewed_at := AccountRow.kyc_reviewed_at r;
    Account.kyc_reviewer_id := AccountRow.kyc_reviewer_id r;
    Account.date_of_birth := AccountRow.date_of_birth r;
    Account.country_of_residence := country;
    Account.gdpr := {|
      GdprRecord.data_processing_consented_at := AccountRow.gdpr_data_processing_consented_at r;
      GdprRecord.marketing_consented_at := AccountRow.gdpr_marketing_consented_at r;
      GdprRecord.consent_ip := AccountRow.gdpr_consent_ip r;
      GdprRecord.last_consent_version := AccountRow.gdpr_last_consent_version r;
      GdprRecord.deletion_requested_at := AccountRow.gdpr_deletion_requested_at r;
      GdprRecord.deletion_scheduled_at := AccountRow.gdpr_deletion_scheduled_at r;
      GdprRecord.anonymized_at := AccountRow.gdpr_anonymized_at r;
      GdprRecord.data_export_requested_at := AccountRow.gdpr_data_export_requested_at r;
      GdprRecord.data_export_completed_at := AccountRow.gdpr_data_export_completed_at r |};
    Account.roles := rs;
    Account.permission_overrides := AccountRow.permission_overrides r;
    Account.created_by := AccountRow.created_by r;
    Account.created_at := AccountRow.created_at r;
    Account.updated_at := AccountRow.updated_at r;
    Account.pending_events := [] |}.
End Rows.

(** ** The table and the topic *)

(** What a backend call meets: it works, it is refused before any effect, or its effect
    happens and the answer is lost. *)
Inductive fault := Healthy | Refused (e : StorageError) | AckLost (e : StorageError).

(** [EventEnvelope<DomainEvent>] as the account publisher fills it. *)
Record EventEnvelope := mk_envelope {
  envelope_topic : string;
  envelope_key : string;
  envelope_payload : DomainEvent;
  envelope_headers : list (string * string);
}.

(** [kafka] is the publisher [build_publisher] chose: Kafka when a broker is configured,
    the log otherwise. *)
Record World := mk_world {
  accounts : gmap Uuid AccountRow.t;
  topic : list EventEnvelope;
  kafka : bool;
  faults : list fault;
}.
#[global] Instance world_fields : Fields World := λ w, {|
  accounts := accounts w; topic := topic w; kafka := kafka w; faults := faults w |}.

Abbreviation use_case A := (act World Abort A).

Definition backend : use_case fault := λ w,
  match faults w with
  | f :: fs => (w <| faults := fs |>, Ok f)
  | [] => (w, Ok Healthy)
  end.

(** [TransactionManager::exec] on the single pool: the body runs on the table, an error
    rolls back, and a commit whose answer is lost has still committed. *)
Definition run_on_shard (body : gmap Uuid AccountRow.t → result AccountError (gmap Uuid AccountRow.t)) :
    use_case unit :=
  let! f := backend in
  match f with
  | Refused e => throw (Fails (Storage e))
  | _ => λ w,
      match body (accounts w) with
      | Err e => (w, Err (Fails e))
      | Ok rows =>
          (w <| accounts := rows |>,
           match f with AckLost e => Err (Fails (Storage e)) | _ => Ok tt end)
      end
  end.

(** A read outside any transaction. *)
Definition read {A} (f : gmap Uuid AccountRow.t → A) : use_case A :=
  let! ft := backend in
  match ft with
  | Healthy => gets (λ w, f (accounts w))
  | Refused e | AckLost e => throw (Fails (Storage e))
  end.

(** ** The statements *)

Definition rows_where (P : AccountRow.t → bool) (rows : gmap Uuid AccountRow.t) : list AccountRow.t :=
  filter (λ r, P r = true) (snd <$> map_to_list rows).

Definition has_identity (x : string) (r : AccountRow.t) : bool :=
  String.eqb (AccountRow.identity_id r) x.
Definition has_email (x : string) (r : AccountRow.t) : bool := String.eqb (AccountRow.email r) x.
Definition has_status (x : string) (r : AccountRow.t) : bool := String.eqb (AccountRow.status r) x.

Definition pg_refuses_text : AccountError :=
  Storage (Database "22021" "invalid byte sequence for encoding UTF8: 0x00").

(** [INSERT INTO accounts ...] under the primary key and the two unique indexes. *)
Definition insert_row (r : AccountRow.t) (rows : gmap Uuid AccountRow.t) :
    result AccountError (gmap Uuid AccountRow.t) :=
  if negb (forallb pg_text (AccountRow.texts r)) then Err pg_refuses_text
  else if decide (is_Some (rows !! AccountRow.id r)) then
    Err (Storage (UniqueViolation "accounts_pkey"))
  else if existsb (has_identity (AccountRow.identity_id r)) (snd <$> map_to_list rows) then
    Err (Storage (UniqueViolation "accounts_identity_id_uidx"))
  else if existsb (has_email (AccountRow.email r)) (snd <$> map_to_list rows) then
    Err (Storage (UniqueViolation "accounts_email_uidx"))
  else Ok (<[AccountRow.id r := r]> rows).

(** [UPDATE accounts SET ... WHERE id = $1 AND version = $37]: [identity_id],
    [created_at] and [created_by] are not assigned, the version is the row's plus one. *)
Definition update_row (expected : Z) (r : AccountRow.t) (rows : gmap Uuid AccountRow.t) :
    result AccountError (gmap Uuid AccountRow.t) :=
  if negb (forallb pg_text (AccountRow.texts r)) then Err pg_refuses_text
  else match rows !! AccountRow.id r with
  | None => Err ConcurrentModification
  | Some old =>
      if negb (AccountRow.version old =? expected) then Err ConcurrentModification
      else if i64_max <=? AccountRow.version old then
        Err (Storage (Database "22003" "bigint out of range"))
      else if existsb (has_email (AccountRow.email r))
                (snd <$> map_to_list (delete (AccountRow.id r) rows)) then
        Err (Storage (UniqueViolation "accounts_email_uidx"))
      else Ok (<[AccountRow.id r :=
        r <| AccountRow.identity_id := AccountRow.identity_id old |>
          <| AccountRow.created_at := AccountRow.created_at old |>
          <| AccountRow.created_by := AccountRow.created_by old |>
          <| AccountRow.version := AccountRow.version old + 1 |> ]> rows)
  end.

(** ** The publisher *)

Definition TOPIC_ACCOUNT_EVENTS : string := "account.v1.events".

Section Repository.
Context `{StdText} `{UuidText} `{PgTime}.

Definition envelope_of (e : DomainEvent) : EventEnvelope :=
  let key := hyphenated (event_key e) in {|
  envelope_topic := TOPIC_ACCOUNT_EVENTS;
  envelope_key := key;
  envelope_payload := e;
  envelope_headers := [("event_type", event_type e); ("account_id", key)] |}.

Definition publish (e : DomainEvent) : use_case unit := λ w,
  if negb (kafka w) then (w, Ok tt)
  else match backend w with
  | (w, Ok (Refused _)) => (w, Err (Fails (EventPublishFailed "kafka")))
  | (w, Ok f) =>
      (w <| topic := topic w ++ [envelope_of e] |>,
       match f with AckLost _ => Err (Fails (EventPublishFailed "kafka")) | _ => Ok tt end)
  | (w, Err a) => (w, Err a)
  end.

(** ** [PgAccountRepository] *)

(** What the write of [save] does to the table: an INSERT of version 1 for an aggregate
    of version 0, an UPDATE of the row the mutation started from otherwise.  [db_now] is
    the database's [NOW()]. *)
Definition write_rows (db_now : Z) (a : Account.t) (rows : gmap Uuid AccountRow.t) :
    result AccountError (gmap Uuid AccountRow.t) :=
  if Account.version a =? 0 then insert_row (to_row 1 (Account.updated_at a) a) rows
  else
    let expected_version := as_signed 64 (Account.version a - 1) in
    update_row expected_version (to_row 0 db_now a) rows.

Definition save (db_now : Z) (a : Account.t) : use_case unit :=
  let! _ := run_on_shard (write_rows db_now a) in
  for_each publish (Account.pending_events a).

Definition decode_opt (o : option AccountRow.t) : outcome (option Account.t) :=
  checked (transpose try_from o).

Definition find_by_id (id : AccountId) : use_case (option Account.t) :=
  let! row := read (λ rows, rows !! id) in lift (decode_opt row).

Definition find_by_identity_id (identity : IdentityId) : use_case (option Account.t) :=
  let! row := read (λ rows, list.head (rows_where (has_identity identity) rows)) in
  lift (decode_opt row).

(** [ORDER BY created_at DESC]; rows of one [created_at] come in an order the database
    chooses, here that of the table. *)
Fixpoint insert_newest (r : AccountRow.t) (l : list AccountRow.t) : list AccountRow.t :=
  match l with
  | [] => [r]
  | x :: l' => if AccountRow.created_at x <=? AccountRow.created_at r then r :: l
               else x :: insert_newest r l'
  end.

Definition list_by_status (st : AccountStatus) (limit offset : Z) : use_case (list Account.t) :=
  let! page := read (λ rows,
    take (Z.to_nat limit) (drop (Z.to_nat offset)
      (foldr insert_newest [] (rows_where (has_status (account_status_str st)) rows)))) in
  lift (checked (try_collect try_from page)).

Definition count_rows (P : AccountRow.t → bool) (rows : gmap Uuid AccountRow.t) : Z :=
  Z.of_nat (length (rows_where P rows)).

Definition exists_by_email (em : EmailAddress) : use_case bool :=
  let! count := read (count_rows (has_email em)) in done_with (0 <? count).

Definition exists_by_identity_id (identity : IdentityId) : use_case bool :=
  let! count := read (count_rows (has_identity identity)) in done_with (0 <? count).

Definition count_by_status (st : AccountStatus) : use_case Z :=
  read (count_rows (has_status (account_status_str st))).
End Repository.
