(* ===== verification/AccountHandlers.v ===== *)
(** * Account: commands, queries and the gRPC edge

    Models [crates/services/account/src/application], [app.rs], [service.rs] and
    [infrastructure/grpc]: the seventeen commands with their validation and handlers,
    the five queries and their views, the bus and the request conversions.  A handler's
    clock readings, the fresh identifier and the correlation id are its [Ctx]. *)

From S2P Require Import Prelude AccountDomain AccountStore.
Local Open Scope Z_scope.

(** ** Commands *)

Inductive Command :=
  | CreateAccountCommand (identity_id email : string) (phone password_hash
      country_of_residence role created_by : option string)
  | VerifyEmailCommand (account_id : string)
  | VerifyPhoneCommand (account_id : string)
  | ChangePasswordCommand (account_id new_password_hash : string)
  | EnrollMfaCommand (account_id : string) (totp_secret_ciphertext : list Byte.byte)
      (recovery_code_hashes : list string)
  | RevokeMfaCommand (account_id : string)
  | UpdateKycStatusCommand (account_id new_status reviewer_id : string)
  | SuspendAccountCommand (account_id reason : string)
  | ReactivateAccountCommand (account_id : string)
  | DeactivateAccountCommand (account_id : string)
  | RecordLoginCommand (account_id : string)
  | RecordFailedLoginCommand (account_id : string) (max_attempts lockout_duration_secs : Z)
  | RequestGdprDeletionCommand (account_id : string) (retention_days : Z)
  | AnonymizeAccountCommand (account_id : string)
  | RequestDataExportCommand (account_id : string)
  | AssignRoleCommand (account_id role : string)
  | RevokeRoleCommand (account_id role : string).

(** [validation_if c f code msg]: [if c { violations.push(...) }] *)
Definition violation_if (c : bool) (field code msg : string) : list FieldViolation :=
  if c then [mk_violation field code msg] else [].

Definition validate_create (identity email : string) (phone country : option string) :
    list FieldViolation :=
  violation_if (trim_is_empty identity) "identity_id" "VAL-2001" "identity_id must not be empty"
  ++ (let email := trim email in
      if decide (email = "") then [mk_violation "email" "VAL-2002" "email must not be empty"]
      else violation_if (negb (contains_byte 64 email) || (254 <? str_len email))
             "email" "VAL-2003" "email format is invalid")
  ++ (match phone with
      | Some p => violation_if (negb (starts_with_byte 43 p) || (str_len p <? 7))
          "phone" "VAL-2004" "phone must be in E.164 format (e.g. +12025551234)"
      | None => []
      end)
  ++ match country with
     | Some c => violation_if (negb (str_len c =? 2)
          || negb (forallb is_ascii_alphabetic (String.list_ascii_of_string c)))
          "country_of_residence" "VAL-2005"
          "country_of_residence must be an ISO 3166-1 alpha-2 code"
     | None => []
     end.

(** [Validate::validate]; no violation is [Ok(())]. *)
Definition validate (c : Command) : list FieldViolation :=
  match c with
  | CreateAccountCommand identity email phone _ country _ _ =>
      validate_create identity email phone country
  | ChangePasswordCommand _ hash =>
      violation_if (trim_is_empty hash) "new_password_hash" "VAL-2010"
        "new_password_hash must not be empty"
  | EnrollMfaCommand _ secret codes =>
      violation_if (bool_decide (secret = [])) "totp_secret_ciphertext" "VAL-2020"
        "TOTP secret ciphertext must not be empty"
      ++ violation_if (Z.of_nat (length codes) <? 6) "recovery_code_hashes" "VAL-2021"
        "at least 6 recovery code hashes are required"
  | UpdateKycStatusCommand _ new_status reviewer =>
      violation_if (trim_is_empty new_status) "new_status" "VAL-2030"
        "new_status must not be empty"
      ++ violation_if (trim_is_empty reviewer) "reviewer_id" "VAL-2031"
        "reviewer_id must not be empty"
  | SuspendAccountCommand _ reason =>
      violation_if (trim_is_empty reason) "reason" "VAL-2040"
        "suspension reason must not be empty"
  | AssignRoleCommand _ role =>
      violation_if (trim_is_empty role) "role" "VAL-2060" "role must not be empty"
  | RevokeRoleCommand _ role =>
      violation_if (trim_is_empty role) "role" "VAL-2070" "role must not be empty"
  | _ => []
  end.

(** ** Handlers *)

(** What a handler reads from outside its store: two clock readings, the database's
    [NOW()], the fresh identifier and the envelope's correlation id. *)
Record Ctx := mk_ctx {
  first_now : Z;
  now : Z;
  db_now : Z;
  new_id : AccountId;
  cid : Uuid;
}.

Section Handlers.
Context `{StdText} `{UuidText} `{PgTime} `{Chrono}.

Definition load_account (id_str : string) : use_case Account.t :=
  let! uuid := lift (ok_or (parse_uuid id_str)
    (Fails (DomainViolation "account_id" "invalid UUID format"))) in
  let! found := find_by_id uuid in
  lift (ok_or found (Fails (AccountNotFound id_str))).

(** The account a [CreateAccountCommand] asks for, once both uniqueness probes passed. *)
Definition create_params (identity : IdentityId) (email : EmailAddress) (phone password_hash
    country role created_by : option string) (correlation : Uuid) :
    outcome AccountCreateParams :=
  phone ← checked (transpose phone_new phone);
  country ← checked (transpose country_new country);
  role ← checked (transpose account_role_try_from
    (r ← role; if trim_is_empty r then None else Some r));
  created_by ← transpose (λ s, ok_or (parse_uuid s)
    (Fails (DomainViolation "created_by" "invalid UUID format"))) created_by;
  Ok {| p_identity_id := identity; p_email := email; p_password_hash := password_hash;
        p_phone := phone; p_role := default User role; p_country_of_residence := country;
        p_created_by := created_by; p_correlation_id := correlation |}.

Definition create_account (x : Ctx) (identity_id email : string) (phone password_hash
    country role created_by : option string) : use_case unit :=
  let! identity := lift (checked (identity_new (trim identity_id))) in
  let! em := lift (checked (email_new (trim email))) in
  let! taken := exists_by_identity_id identity in
  if taken : bool then throw (Fails (IdentityAlreadyRegistered identity_id))
  else
    let! taken := exists_by_email em in
    if taken : bool then throw (Fails (EmailAlreadyRegistered email))
    else
      let! params := lift (create_params identity em phone password_hash country role
                             created_by (cid x)) in
      save (db_now x) (Account.create (new_id x) (now x) params).

Definition verify_email (x : Ctx) (id_str : string) : use_case unit :=
  let! a := load_account id_str in
  let! a := lift (Account.verify_email (now x) (cid x) a) in
  save (db_now x) a.

Definition verify_phone (x : Ctx) (id_str : string) : use_case unit :=
  let! a := load_account id_str in
  let! a := lift (Account.verify_phone (now x) (cid x) a) in
  save (db_now x) a.

Definition change_password (x : Ctx) (id_str new_hash : string) : use_case unit :=
  let! a := load_account id_str in
  let! a := lift (Account.change_password (now x) new_hash (cid x) a) in
  save (db_now x) a.

Definition enroll_mfa (x : Ctx) (id_str : string) (secret : list Byte.byte)
    (codes : list string) : use_case unit :=
  let! a := load_account id_str in
  let! a := lift (Account.enroll_mfa (first_now x) (now x) secret codes (cid x) a) in
  save (db_now x) a.

Definition revoke_mfa (x : Ctx) (id_str : string) : use_case unit :=
  let! a := load_account id_str in
  let! a := lift (Account.revoke_mfa (now x) (cid x) a) in
  save (db_now x) a.

Definition update_kyc_status (x : Ctx) (id_str new_status reviewer_id : string) : use_case unit :=
  let! st := lift (match kyc_status_try_from (trim new_status) with
                   | Ok st => Ok st
                   | Err _ => fails (InvalidKycStatus new_status)
                   end) in
  let! reviewer := lift (ok_or (parse_uuid (trim reviewer_id))
    (Fails (DomainViolation "reviewer_id" "reviewer_id must be a valid UUID"))) in
  let! a := load_account id_str in
  let! a := lift (Account.update_kyc_status (now x) st reviewer (cid x) a) in
  save (db_now x) a.

Definition suspend_account (x : Ctx) (id_str reason : string) : use_case unit :=
  let! a := load_account id_str in
  let! a := lift (Account.suspend (now x) reason (cid x) a) in
  save (db_now x) a.

Definition reactivate_account (x : Ctx) (id_str : string) : use_case unit :=
  let! a := load_account id_str in
  let! a := lift (Account.activate (now x) (cid x) a) in
  save (db_now x) a.

Definition deactivate_account (x : Ctx) (id_str : string) : use_case unit :=
  let! a := load_account id_str in
  let! a := lift (Account.deactivate (now x) (cid x) a) in
  save (db_now x) a.

Definition record_login (x : Ctx) (id_str : string) : use_case unit :=
  let! a := load_account id_str in
  save (db_now x) (Account.record_login (now x) a).

Definition record_failed_login (x : Ctx) (id_str : string) (max_attempts lockout : Z) :
    use_case unit :=
  let! a := load_account id_str in
  let! a := lift (Account.record_failed_login (first_now x) (now x) max_attempts lockout a) in
  save (db_now x) a.

Definition request_gdpr_deletion (x : Ctx) (id_str : string) (retention_days : Z) : use_case unit :=
  let! a := load_account id_str in
  let! a := lift (Account.request_gdpr_deletion (first_now x) (now x) retention_days (cid x) a) in
  save (db_now x) a.

Definition anonymize_account (x : Ctx) (id_str : string) : use_case unit :=
  let! a := load_account id_str in
  let! a := lift (Account.anonymize (now x) (cid x) a) in
  save (db_now x) a.

Definition request_data_export (x : Ctx) (id_str : string) : use_case unit :=
  let! a := load_account id_str in
  let! a := lift (Account.request_gdpr_data_export (now x) (cid x) a) in
  save (db_now x) a.

(** [AccountRole::try_from(cmd.role.trim())] with the error naming the raw text. *)
Definition parse_role (role : string) : outcome AccountRole :=
  match account_role_try_from (trim role) with
  | Ok r => Ok r
  | Err _ => fails (InvalidAccountRole role)
  end.

Definition assign_role (x : Ctx) (id_str role : string) : use_case unit :=
  let! r := lift (parse_role role) in
  let! a := load_account id_str in
  let! a := lift (Account.assign_role (now x) r (cid x) a) in
  save (db_now x) a.

Definition revoke_role (x : Ctx) (id_str role : string) : use_case unit :=
  let! r := lift (parse_role role) in
  let! a := load_account id_str in
  let! a := lift (Account.revoke_role (now x) r (cid x) a) in
  save (db_now x) a.

(** [InMemoryCommandBus::dispatch]: [App::build] registers each command's handler once,
    and puts no layer around the bus. *)
Definition dispatch (x : Ctx) (c : Command) : use_case unit :=
  match c with
  | CreateAccountCommand identity email phone hash country role by_ =>
      create_account x identity email phone hash country role by_
  | VerifyEmailCommand i => verify_email x i
  | VerifyPhoneCommand i => verify_phone x i
  | ChangePasswordCommand i hash => change_password x i hash
  | EnrollMfaCommand i secret codes => enroll_mfa x i secret codes
  | RevokeMfaCommand i => revoke_mfa x i
  | UpdateKycStatusCommand i st reviewer => update_kyc_status x i st reviewer
  | SuspendAccountCommand i reason => suspend_account x i reason
  | ReactivateAccountCommand i => reactivate_account x i
  | DeactivateAccountCommand i => deactivate_account x i
  | RecordLoginCommand i => record_login x i
  | RecordFailedLoginCommand i max lockout => record_failed_login x i max lockout
  | RequestGdprDeletionCommand i days => request_gdpr_deletion x i days
  | AnonymizeAccountCommand i => anonymize_account x i
  | RequestDataExportCommand i => request_data_export x i
  | AssignRoleCommand i role => assign_role x i role
  | RevokeRoleCommand i role => revoke_role x i role
  end.

(** [ValidationCommandBus::dispatch]: the layer the command contract describes. *)
Definition validated_dispatch (x : Ctx) (c : Command) : use_case unit :=
  match validate c with
  | [] => dispatch x c
  | vs => throw (Fails (Validation vs))
  end.

(** ** Queries *)

Record AccountView := mk_view {
  v_id : string;
  v_identity_id : string;
  v_status : string;
  v_suspension_reason : option string;
  v_deactivated_at : option Z;
  v_email : string;
  v_email_verified : bool;
  v_email_verified_at : option Z;
  v_phone : option string;
  v_phone_verified : bool;
  v_kyc_status : string;
  v_roles : list string;
  v_permission_overrides : list string;
  v_permissions : list string;
  v_country_of_residence : option string;
  v_last_login_at : option Z;
  v_is_locked : bool;
  v_mfa_enforced : bool;
  v_version : Z;
  v_created_at : Z;
  v_updated_at : Z;
  v_created_by : option string;
}.

(** [From<&Account> for AccountView]; [is_locked] reads the clock. *)
Definition account_view (t : Z) (a : Account.t) : AccountView := {|
  v_id := hyphenated (Account.id a);
  v_identity_id := Account.identity_id a;
  v_status := account_status_str (Account.status a);
  v_suspension_reason := Account.suspension_reason a;
  v_deactivated_at := Account.deactivated_at a;
  v_email := Account.email a;
  v_email_verified := Account.email_verified a;
  v_email_verified_at := Account.email_verified_at a;
  v_phone := Account.phone a;
  v_phone_verified := Account.phone_verified a;
  v_kyc_status := kyc_status_str (Account.kyc_status a);
  v_roles := account_role_str <$> Account.roles a;
  v_permission_overrides := Account.permission_overrides a;
  v_permissions := Account.effective_permissions a;
  v_country_of_residence := Account.country_of_residence a;
  v_last_login_at := Account.last_login_at a;
  v_is_locked := Account.is_locked t a;
  v_mfa_enforced := MfaState.enforced (Account.mfa a);
  v_version := Account.version a;
  v_created_at := Account.created_at a;
  v_updated_at := Account.updated_at a;
  v_created_by := hyphenated <$> Account.created_by a |}.

Definition get_account_by_id (t : Z) (id_str : string) : use_case AccountView :=
  let! a := load_account id_str in done_with (account_view t a).

Definition get_account_by_identity_id (t : Z) (identity : string) : use_case AccountView :=
  let! i := lift (checked (identity_new identity)) in
  let! found := find_by_identity_id i in
  let! a := lift (ok_or found (Fails (AccountNotFound identity))) in
  done_with (account_view t a).

Record AccountStatusView := mk_status_view {
  sv_account_id : string;
  sv_status : AccountStatus;
  sv_suspension_reason : option string;
  sv_is_locked : bool;
}.

Definition get_account_status (t : Z) (id_str : string) : use_case AccountStatusView :=
  let! a := load_account id_str in
  done_with {| sv_account_id := id_str; sv_status := Account.status a;
               sv_suspension_reason := Account.suspension_reason a;
               sv_is_locked := Account.is_locked t a |}.

Record GdprRecordView := mk_gdpr_view {
  gv_account_id : string;
  gv_data_processing_consented_at : option Z;
  gv_marketing_consented_at : option Z;
  gv_deletion_requested_at : option Z;
  gv_deletion_scheduled_at : option Z;
  gv_anonymized_at : option Z;
  gv_data_export_requested_at : option Z;
  gv_data_export_completed_at : option Z;
  gv_last_consent_version : option string;
}.

Definition get_gdpr_record (id_str : string) : use_case GdprRecordView :=
  let! a := load_account id_str in
  let g := Account.gdpr a in
  done_with {|
    gv_account_id := id_str;
    gv_data_processing_consented_at := GdprRecord.data_processing_consented_at g;
    gv_marketing_consented_at := GdprRecord.marketing_consented_at g;
    gv_deletion_requested_at := GdprRecord.deletion_requested_at g;
    gv_deletion_scheduled_at := GdprRecord.deletion_scheduled_at g;
    gv_anonymized_at := GdprRecord.anonymized_at g;
    gv_data_export_requested_at := GdprRecord.data_export_requested_at g;
    gv_data_export_completed_at := GdprRecord.data_export_completed_at g;
    gv_last_consent_version := GdprRecord.last_consent_version g |}.

Record AccountListView := mk_list_view { lv_accounts : list AccountView; lv_total : Z }.

(** The two reads run concurrently, each on the table it finds; the model runs them in
    the order they are written. *)
Definition list_accounts_by_status (t : Z) (st : string) (limit offset : Z) :
    use_case AccountListView :=
  let! s := lift (checked (account_status_try_from st)) in
  let limit := Z.max 1 (Z.min 1000 limit) in
  let offset := Z.max offset 0 in
  let! found := list_by_status s limit offset in
  let! total := count_by_status s in
  done_with {| lv_accounts := account_view t <$> found; lv_total := total |}.
End Handlers.

(** ** The gRPC edge *)

Inductive Code :=
  | Unimplemented | Internal | NotFound | Aborted | AlreadyExists | FailedPrecondition
  | Unavailable | InvalidArgument.

(** [cqrs_error_to_status] on an error of a handler (the bus knows every command). *)
Definition error_to_code (e : AccountError) : Code :=
  let s := http_status e in
  if s =? 404 then NotFound
  else if (s =? 409) && is_retryable e then Aborted
  else if s =? 409 then AlreadyExists
  else if (s =? 400) || (s =? 422) then FailedPrecondition
  else if (s =? 503) || (s =? 502) then Unavailable
  else Internal.

Definition account_status_str_to_i32 (s : string) : Z :=
  if decide (s = "pending_verification") then 1
  else if decide (s = "active") then 2
  else if decide (s = "suspended") then 3
  else if decide (s = "deactivated") then 4
  else if decide (s = "deleted") then 5
  else 0.

Definition account_status_i32_to_str (v : Z) : option string :=
  if v =? 1 then Some "pending_verification"
  else if v =? 2 then Some "active"
  else if v =? 3 then Some "suspended"
  else if v =? 4 then Some "deactivated"
  else if v =? 5 then Some "deleted"
  else None.

Definition kyc_status_str_to_i32 (s : string) : Z :=
  if decide (s = "not_started") then 1
  else if decide (s = "submitted") then 2
  else if decide (s = "in_review") then 3
  else if decide (s = "approved") then 4
  else if decide (s = "rejected") then 5
  else 0.

Definition kyc_status_i32_to_str (v : Z) : option string :=
  if v =? 1 then Some "not_started"
  else if v =? 2 then Some "submitted"
  else if v =? 3 then Some "in_review"
  else if v =? 4 then Some "approved"
  else if v =? 5 then Some "rejected"
  else None.

Definition account_role_i32_to_str (v : Z) : option string :=
  if v =? 1 then Some "user"
  else if v =? 2 then Some "content_moderator"
  else if v =? 3 then Some "support_agent"
  else if v =? 4 then Some "finance_operator"
  else if v =? 5 then Some "admin"
  else if v =? 6 then Some "super_admin"
  else None.

(** The command messages of [account.v1.AccountService]. *)
Inductive Request :=
  | CreateAccountRequest (identity_id email phone password_hash country_of_residence
      created_by : string)
  | VerifyEmailRequest (account_id : string)
  | VerifyPhoneRequest (account_id : string)
  | ChangePasswordRequest (account_id new_password_hash : string)
  | EnrollMfaRequest (account_id : string) (totp_secret : list Byte.byte)
  | RevokeMfaRequest (account_id : string)
  | UpdateKycStatusRequest (account_id : string) (kyc_status : Z) (reviewer_id : string)
  | SuspendAccountRequest (account_id reason : string)
  | ReactivateAccountRequest (account_id : string)
  | DeactivateAccountRequest (account_id : string)
  | RecordLoginRequest (account_id : string)
  | RecordFailedLoginRequest (account_id : string)
  | RequestGdprDeletionRequest (account_id : string)
  | AnonymizeAccountRequest (account_id : string)
  | RequestDataExportRequest (account_id : string)
  | AssignRoleRequest (account_id : string) (role : Z)
  | RevokeRoleRequest (account_id : string) (role : Z).

(** [Some(s).filter(|s| !s.is_empty())] *)
Definition non_empty (s : string) : option string := if decide (s = "") then None else Some s.

Definition request_command (r : Request) : result Code Command :=
  match r with
  | CreateAccountRequest identity email phone hash country by_ =>
      Ok (CreateAccountCommand identity email (non_empty phone) (non_empty hash)
            (non_empty country) None (non_empty by_))
  | VerifyEmailRequest i => Ok (VerifyEmailCommand i)
  | VerifyPhoneRequest i => Ok (VerifyPhoneCommand i)
  | ChangePasswordRequest i hash => Ok (ChangePasswordCommand i hash)
  | EnrollMfaRequest i secret => Ok (EnrollMfaCommand i secret [])
  | RevokeMfaRequest i => Ok (RevokeMfaCommand i)
  | UpdateKycStatusRequest i v reviewer =>
      st ← ok_or (kyc_status_i32_to_str v) InvalidArgument;
      Ok (UpdateKycStatusCommand i st reviewer)
  | SuspendAccountRequest i reason => Ok (SuspendAccountCommand i reason)
  | ReactivateAccountRequest i => Ok (ReactivateAccountCommand i)
  | DeactivateAccountRequest i => Ok (DeactivateAccountCommand i)
  | RecordLoginRequest i => Ok (RecordLoginCommand i)
  | RecordFailedLoginRequest i => Ok (RecordFailedLoginCommand i 5 900)
  | RequestGdprDeletionRequest i => Ok (RequestGdprDeletionCommand i 30)
  | AnonymizeAccountRequest i => Ok (AnonymizeAccountCommand i)
  | RequestDataExportRequest i => Ok (RequestDataExportCommand i)
  | AssignRoleRequest i v =>
      role ← ok_or (account_role_i32_to_str v) InvalidArgument; Ok (AssignRoleCommand i role)
  | RevokeRoleRequest i v =>
      role ← ok_or (account_role_i32_to_str v) InvalidArgument; Ok (RevokeRoleCommand i role)
  end.

(** A command call: the response, or the status code; a panic aborts the task and the
    transport answers [Internal]. *)
Definition serve `{StdText} `{UuidText} `{PgTime} `{Chrono} (x : Ctx) (r : Request) (w : World) :
    World * result Code unit :=
  match request_command r with
  | Err c => (w, Err c)
  | Ok c =>
      match dispatch x c w with
      | (w, Ok _) => (w, Ok tt)
      | (w, Err (Fails e)) => (w, Err (error_to_code e))
      | (w, Err Panics) => (w, Err Internal)
      end
  end.

(** [proto::AccountView] *)
Record ProtoAccountView := mk_proto_view {
  pv_id : string;
  pv_identity_id : string;
  pv_status : Z;
  pv_suspension_reason : string;
  pv_email : string;
  pv_email_verified : bool;
  pv_phone : string;
  pv_phone_verified : bool;
  pv_kyc_status : Z;
  pv_country_of_residence : string;
  pv_roles : list string;
  pv_permissions : list string;
  pv_version : Z;
  pv_created_at : Z;
  pv_updated_at : Z;
}.

Definition account_view_to_proto (v : AccountView) : ProtoAccountView := {|
  pv_id := v_id v;
  pv_identity_id := v_identity_id v;
  pv_status := account_status_str_to_i32 (v_status v);
  pv_suspension_reason := default "" (v_suspension_reason v);
  pv_email := v_email v;
  pv_email_verified := v_email_verified v;
  pv_phone := default "" (v_phone v);
  pv_phone_verified := v_phone_verified v;
  pv_kyc_status := kyc_status_str_to_i32 (v_kyc_status v);
  pv_country_of_residence := default "" (v_country_of_residence v);
  pv_roles := v_roles v;
  pv_permissions := v_permissions v;
  pv_version := v_version v;
  pv_created_at := v_created_at v;
  pv_updated_at := v_updated_at v |}.

(** [proto::AccountStatusView]: what the auth and gateway services read. *)
Definition status_view_to_proto (v : AccountStatusView) : string * Z * string :=
  (sv_account_id v, account_status_str_to_i32 (account_status_str (sv_status v)),
   default "" (sv_suspension_reason v)).
