(* ===== verification/AccountProofs.v ===== *)
(** * Account: well-formed accounts

    The value objects' canonical forms, the well-formedness of an account, that every
    mutation preserves it and moves the version by one, the lifecycle, the permission
    set, and the round trip through the table's row. *)

From stdpp Require Import sorting.
From S2P Require Import Prelude AccountDomain AccountStore.
Local Open Scope Z_scope.

(** ** Canonical text *)

Lemma strip_space_trims s :
  strip_space s = None → s ≠ "" → trim_is_empty s = false.
Proof.
  destruct s as [|a [|b [|c rest]]]; intros Hs Hne; simpl in *; [done|..];
    repeat case_match; done.
Qed.

Lemma trim_start_id s : strip_space s = None → trim_start s = s.
Proof. unfold trim_start. intros Hs. destruct s; simpl in *; [done|]. by rewrite Hs. Qed.

Lemma trim_end_id s : has_whitespace s = false → trim_end s = s.
Proof.
  induction s as [|c s IH]; intros Hw; [done|].
  assert (strip_space (String c s) = None ∧ has_whitespace s = false) as [Hs Hr].
  { cbn [has_whitespace] in Hw. by destruct (strip_space (String c s)). }
  cbn [trim_end]. rewrite strip_space_trims by done. by rewrite IH.
Qed.

Lemma trim_id s : has_whitespace s = false → trim s = s.
Proof.
  intros Hw. unfold trim. rewrite trim_start_id; [by apply trim_end_id|].
  destruct s; [done|]. cbn [has_whitespace] in Hw. by case_match.
Qed.

Lemma letter_is_no_space c s : is_ascii_alphabetic c = true → strip_space (String c s) = None.
Proof.
  intros Hc. destruct c as [[] [] [] [] [] [] [] []]; try discriminate Hc;
    destruct s as [|? []]; reflexivity.
Qed.

Lemma letters_no_space s :
  forallb is_ascii_alphabetic (String.list_ascii_of_string s) = true → has_whitespace s = false.
Proof.
  induction s as [|c s IH]; [done|]. intros Hs. cbn [has_whitespace].
  simpl in Hs. apply andb_true_iff in Hs as [Hc Hs]. rewrite letter_is_no_space by done. auto.
Qed.

Section Values.
Context `{StdText}.

(** A value that passed its constructor is a fixed point of it: what is stored reads
    back as itself. *)
Lemma email_new_canonical v e : email_new v = Ok e → email_new e = Ok e.
Proof.
  unfold email_new. intros He.
  assert (e = to_lowercase (trim v)) as ->.
  { repeat case_match; by simplify_eq. }
  assert (has_whitespace (to_lowercase (trim v)) = false) as Hw by (repeat case_match; done).
  rewrite (trim_id _ Hw), to_lowercase_idem. exact He.
Qed.

Lemma country_new_canonical v c : country_new v = Ok c → country_new c = Ok c.
Proof.
  unfold country_new. intros Hc.
  destruct (_ || _) eqn:Hb; [done|]. injection Hc as Hc.
  apply orb_false_iff in Hb as [Hlen Hl]. apply negb_false_iff in Hl. rewrite Hc in *.
  assert (to_uppercase c = c) as Hu by (by rewrite <- Hc, to_uppercase_idem).
  rewrite (trim_id c) by (by apply letters_no_space). rewrite Hu, Hlen, Hl. done.
Qed.

Lemma phone_new_canonical v p : phone_new v = Ok p → phone_new p = Ok p.
Proof.
  intros Hp. assert (v = p) as <-; [|done].
  unfold phone_new in Hp. repeat case_match; by simplify_eq.
Qed.

Lemma identity_new_canonical v i : identity_new v = Ok i → identity_new i = Ok i.
Proof.
  intros Hi. assert (v = i) as <-; [|done].
  unfold identity_new in Hi. repeat case_match; by simplify_eq.
Qed.
End Values.

Lemma account_status_roundtrip s : account_status_try_from (account_status_str s) = Ok s.
Proof. by destruct s. Qed.
Lemma kyc_status_roundtrip s : kyc_status_try_from (kyc_status_str s) = Ok s.
Proof. by destruct s. Qed.
Lemma account_role_roundtrip r : account_role_try_from (account_role_str r) = Ok r.
Proof. by destruct r. Qed.

(** ** The mutations of the aggregate *)

Section Mutations.
Context `{StdText} `{Chrono}.
Import Account.

(** One successful mutation.  [u32]/[u64]/[u16] arguments are within their types. *)
Inductive mutates (a a' : t) : Prop :=
  | by_verify_email now cid : verify_email now cid a = Ok a' → mutates a a'
  | by_verify_phone now cid : verify_phone now cid a = Ok a' → mutates a a'
  | by_change_password now h cid : change_password now h cid a = Ok a' → mutates a a'
  | by_change_email now e cid :
      email_new e = Ok e → change_email now e cid a = Ok a' → mutates a a'
  | by_change_phone now p cid :
      (∀ x, p = Some x → phone_new x = Ok x) → change_phone now p cid a = Ok a' → mutates a a'
  | by_enroll_mfa t1 now s cs cid : enroll_mfa t1 now s cs cid a = Ok a' → mutates a a'
  | by_revoke_mfa now cid : revoke_mfa now cid a = Ok a' → mutates a a'
  | by_assign_role now r cid : assign_role now r cid a = Ok a' → mutates a a'
  | by_revoke_role now r cid : revoke_role now r cid a = Ok a' → mutates a a'
  | by_suspend now reason cid : suspend now reason cid a = Ok a' → mutates a a'
  | by_activate now cid : activate now cid a = Ok a' → mutates a a'
  | by_deactivate now cid : deactivate now cid a = Ok a' → mutates a a'
  | by_delete now d cid : delete now d cid a = Ok a' → mutates a a'
  | by_update_kyc now s r cid : update_kyc_status now s r cid a = Ok a' → mutates a a'
  | by_request_gdpr_deletion t1 now d cid :
      0 ≤ d → request_gdpr_deletion t1 now d cid a = Ok a' → mutates a a'
  | by_request_gdpr_data_export now cid :
      request_gdpr_data_export now cid a = Ok a' → mutates a a'
  | by_anonymize now cid : anonymize now cid a = Ok a' → mutates a a'
  | by_record_login now : a' = record_login now a → mutates a a'
  | by_record_failed_login t1 now m l :
      record_failed_login t1 now m l a = Ok a' → mutates a a'.

(** ** Well-formed accounts *)

(** No identifying or authenticating data is left. *)
Definition erased (a : t) : Prop :=
  status a = Deleted ∧ phone a = None ∧ password_hash a = None ∧ date_of_birth a = None ∧
  mfa a = MfaState.default.

Record account_wf (a : t) : Prop := {
  wf_identity : identity_new (identity_id a) = Ok (identity_id a);
  wf_email : email_new (email a) = Ok (email a);
  wf_phone p : phone a = Some p → phone_new p = Ok p;
  wf_country c : country_of_residence a = Some c → country_new c = Ok c;
  wf_email_verified : email_verified a = bool_decide (is_Some (email_verified_at a));
  wf_phone_verified : phone_verified a = bool_decide (is_Some (phone_verified_at a));
  wf_verified_phone : phone_verified a = true → is_Some (phone a);
  wf_pending : status a = PendingVerification → email_verified a = false;
  wf_suspended : status a = Suspended → is_Some (suspension_reason a);
  wf_deactivated : status a = Deactivated → is_Some (deactivated_at a);
  wf_roles : roles a ≠ [] ∧ NoDup (roles a);
  wf_enrolled : is_Some (MfaState.totp_secret (mfa a)) ↔ is_Some (MfaState.totp_enrolled_at (mfa a));
  wf_unenrolled : MfaState.totp_secret (mfa a) = None → mfa a = MfaState.default;
  wf_kyc : kyc_status a = NotStarted ↔ kyc_reviewer_id a = None;
  wf_kyc_at : is_Some (kyc_reviewer_id a) ↔ is_Some (kyc_reviewed_at a);
  wf_deletion t1 : GdprRecord.deletion_requested_at (gdpr a) = Some t1 →
    ∃ t2, GdprRecord.deletion_scheduled_at (gdpr a) = Some t2 ∧ t1 ≤ t2;
  wf_anonymized : is_Some (GdprRecord.anonymized_at (gdpr a)) → erased a;
  wf_attempts : - 2 ^ 31 ≤ failed_login_attempts a < 2 ^ 31;
}.

Lemma remove_first_spec {A} `{EqDecision A} (x : A) l l' :
  MfaState.remove_first x l = Some l' → ∃ l1 l2, l = l1 ++ x :: l2 ∧ l' = l1 ++ l2.
Proof.
  revert l'. induction l as [|y l IH]; intros l' Hr; simpl in Hr; [done|].
  case_decide as Hd; simplify_eq.
  - by exists [], l'.
  - apply fmap_Some in Hr as (l2 & Hl2 & ->). destruct (IH _ Hl2) as (u & v & -> & ->).
    by exists (y :: u), v.
Qed.

Lemma require_active_ok a u : require_active a = Ok u → status a = Active.
Proof. unfold require_active. by case_decide. Qed.

Lemma transition_ok next a a' :
  transition_status next a = Ok a' →
  can_transition_to (status a) next = true ∧ a' = a <| status := next |>.
Proof. unfold transition_status. case_match; naive_solver. Qed.

Lemma is_enrolled_spec m : MfaState.is_enrolled m = true ↔ is_Some (MfaState.totp_secret m).
Proof. apply bool_decide_eq_true. Qed.

(** The status after [anonymize]'s ignored transition: every status but [Deleted] may
    become [Deleted]. *)
Lemma to_deleted s : s ≠ Deleted → can_transition_to s Deleted = true.
Proof. by destruct s. Qed.

Lemma as_signed_range bits z :
  0 < bits → - 2 ^ (bits - 1) ≤ as_signed bits z < 2 ^ (bits - 1).
Proof.
  intros Hb. unfold as_signed.
  assert (2 ^ bits = 2 * 2 ^ (bits - 1)) as Hp.
  { rewrite <- Z.pow_succ_r by lia. f_equal. lia. }
  assert (0 < 2 ^ (bits - 1)) by (apply Z.pow_pos_nonneg; lia).
  pose proof (Z.mod_pos_bound (z + 2 ^ (bits - 1)) (2 ^ bits) ltac:(lia)). lia.
Qed.

(** The refused transition [anonymize] ignores is the one of an account already deleted. *)
Lemma anonymize_ok now cid a a' : anonymize now cid a = Ok a' →
  GdprRecord.anonymized_at (gdpr a) = None ∧
  a' = push_event (AccountDeleted (id a) None now cid) (touch now
    (a <| gdpr := gdpr a <| GdprRecord.anonymized_at := Some now |> |>
       <| phone := None |> <| phone_verified := false |>
       <| phone_verified_at := None |> <| password_hash := None |>
       <| date_of_birth := None |> <| mfa := MfaState.revoke (mfa a) |>
       <| status := Deleted |>)).
Proof.
  unfold anonymize, transition_status. intros Ha.
  destruct (GdprRecord.is_anonymized (gdpr a)) eqn:Hg; [done|]. injection Ha as <-. split.
  - unfold GdprRecord.is_anonymized in Hg. apply bool_decide_eq_false in Hg.
    by apply eq_None_not_Some.
  - simpl. destruct (decide (status a = Deleted)) as [Hs|Hs].
    + rewrite Hs. destruct a. simpl in Hs |- *. rewrite Hs. reflexivity.
    + rewrite (to_deleted _ Hs). reflexivity.
Qed.

(** Opens a successful mutation into the record it returns. *)
Ltac open_mutation :=
  unfold verify_email, verify_phone, change_password, change_email,
    change_phone, enroll_mfa, revoke_mfa, assign_role, revoke_role, suspend, activate,
    deactivate, delete, update_kyc_status, request_gdpr_deletion, request_gdpr_data_export,
    record_failed_login in *;
  repeat match goal with
  | H : (_ ≫= _) = Ok _ |- _ => apply result_bind_ok in H as (? & ? & ?)
  | H : require_active _ = Ok _ |- _ => apply require_active_ok in H
  | H : transition_status _ _ = Ok _ |- _ => apply transition_ok in H as [? ->]
  | H : anonymize _ _ _ = Ok _ |- _ => apply anonymize_ok in H as [? ->]
  | H : Ok _ = Ok _ |- _ => injection H as H
  | H : fails _ = Ok _ |- _ => discriminate H
  | H : Err _ = Ok _ |- _ => discriminate H
  | H : (if decide ?P then _ else _) = Ok _ |- _ => destruct (decide P)
  | H : (if ?b then _ else _) = Ok _ |- _ => destruct b eqn:?
  | H : match ?x with _ => _ end = Ok _ |- _ => destruct x eqn:?
  end.

Lemma mutates_frame a a' : mutates a a' →
  id a' = id a ∧ version a' = i64_add (version a) 1 ∧ identity_id a' = identity_id a ∧
  created_at a' = created_at a ∧ created_by a' = created_by a ∧
  ∃ es, pending_events a' = pending_events a ++ es ∧ Forall (λ e, event_key e = id a) es.
Proof.
  intros Hm.
  destruct Hm; subst; open_mutation; subst; simpl;
    repeat split; try (eexists; split; [reflexivity|]; by repeat constructor);
    try (exists []; split; [by rewrite app_nil_r|constructor]).
Qed.

Lemma request_deletion_ok t1 d g g' : 0 ≤ d →
  GdprRecord.request_deletion t1 d g = Some g' →
  ∃ t2, g' = g <| GdprRecord.deletion_requested_at := Some t1 |>
               <| GdprRecord.deletion_scheduled_at := Some t2 |> ∧ t1 ≤ t2.
Proof.
  intros Hd Hg. apply bind_Some in Hg as (t2 & Ht & [= <-]). exists t2. split; [done|].
  apply add_seconds_sum in Ht. unfold NS in Ht. nia.
Qed.

Lemma NoDup_snoc {A} (l : list A) x : NoDup l → x ∉ l → NoDup (l ++ [x]).
Proof. intros Hl Hx. apply list.NoDup_app. split; [done|]. split; [set_solver|apply NoDup_singleton]. Qed.

Lemma mutates_wf a a' : mutates a a' → account_wf a → account_wf a'.
Proof.
  intros Hm Hwf. destruct Hwf.
  destruct Hm; subst; open_mutation; subst.
  all: constructor; simpl; try done.
  all: try (intros Ha; destruct (wf_anonymized0 Ha) as (Hs & ?);
            solve [congruence | rewrite Hs in *; discriminate | by repeat split]).
  all: try (apply (as_signed_range 32); lia).
  - by destruct (phone a).
  - split; [by destruct (roles a)|]. apply NoDup_snoc; naive_solver.
  - destruct (remove_first_spec _ _ _ Heqo) as (u & v & Hr & ->). rewrite Hr in *. split.
    + rewrite length_app in *. simpl in *. destruct u, v; simpl in *; (done || lia).
    + destruct wf_roles0 as [_ Hn]. apply list.NoDup_app in Hn as (Hu & Hd & Hv).
      apply list.NoDup_cons in Hv as [_ Hv]. apply list.NoDup_app. set_solver.
  - split; [|done]. intros ->. revert Heqb. destruct (kyc_status a); discriminate.
  - apply request_deletion_ok in Heqo as (t2 & -> & Ht); [|done]. simpl. naive_solver.
  - apply request_deletion_ok in Heqo as (t2 & -> & Ht); [|done].
    exact wf_anonymized0.
Qed.
(** ** The lifecycle *)

Lemma mutates_anonymized a a' : mutates a a' →
  is_Some (GdprRecord.anonymized_at (gdpr a)) → is_Some (GdprRecord.anonymized_at (gdpr a')).
Proof.
  intros Hm Ha. destruct Hm; subst; open_mutation; subst; simpl; try done.
  apply request_deletion_ok in Heqo as (t2 & -> & _); done.
Qed.

(** [anonymize] clears the phone, the password, the birth date and the second factor, but
    keeps the e-mail address, the identity, the country, the consent address and the
    reason of a past suspension. *)
Lemma anonymize_keeps_identifiers now cid a a' : anonymize now cid a = Ok a' →
  erased a' ∧ email a' = email a ∧ identity_id a' = identity_id a ∧
  country_of_residence a' = country_of_residence a ∧
  GdprRecord.consent_ip (gdpr a') = GdprRecord.consent_ip (gdpr a) ∧
  suspension_reason a' = suspension_reason a.
Proof. intros [_ ->]%anonymize_ok. by repeat split. Qed.

(** Verifying the e-mail address restores any account whose address is unverified,
    a suspended or deactivated one included, with the suspension's reason left in
    place; and an active account whose address changed can never verify the new one. *)
Theorem verify_email_ignores_the_suspension now cid a :
  email_verified a = false →
  (status a = Suspended ∨ status a = Deactivated →
   ∃ a', verify_email now cid a = Ok a' ∧ status a' = Active ∧ email_verified a' = true ∧
         suspension_reason a' = suspension_reason a ∧
         version a' = i64_add (version a) 1) ∧
  (∀ e t c b, change_email t e c a = Ok b →
   ∀ now' cid', verify_email now' cid' b = fails (InvalidStatusTransition "active" "active")).
Proof.
  intros Hv. split.
  - intros Hs. unfold verify_email, transition_status. rewrite Hv.
    destruct Hs as [-> | ->]; simpl; eexists; by split_and!.
  - intros e t c b Hb now' cid'. unfold change_email in Hb.
    apply result_bind_ok in Hb as (u & Hu%require_active_ok & [= <-]).
    unfold verify_email, transition_status. simpl. by rewrite Hu.
Qed.

(** The lifecycle: a mutation keeps the status or moves it along an edge of
    [can_transition_to]; the review status moves along an edge of its own machine or
    stays; and a deleted account stays deleted. *)
Theorem mutations_follow_the_lifecycle (a a' : t) :
  mutates a a' →
  (status a' = status a ∨
   can_transition_to (status a) (status a') = true) ∧
  (kyc_status a' = kyc_status a ∨
   kyc_can_transition_to (kyc_status a) (kyc_status a') = true).
Proof.
  intros Hm.
  destruct Hm; subst; open_mutation; subst; simpl; auto.
  - split; [auto|right]. by apply negb_false_iff.
  - split; [|auto]. destruct (decide (status a = Deleted)) as [Hd|Hd]; [auto|right].
    by apply to_deleted.
Qed.
End Mutations.

(** ** The permission set *)

Definition string_lt (x y : string) : Prop := string_le x y ∧ x ≠ y.

Lemma elem_of_dedup x l : x ∈ Account.dedup l ↔ x ∈ l.
Proof.
  induction l as [|y l IH]; [done|]. cbn [Account.dedup]. rewrite elem_of_cons, <- IH.
  destruct (Account.dedup l) as [|z d]; [set_solver|].
  destruct (String.eqb_spec y z) as [->|]; set_solver.
Qed.

Lemma dedup_sorted l :
  StronglySorted string_le l → StronglySorted string_lt (Account.dedup l).
Proof.
  induction 1 as [|x l Hl IH Hx]; [constructor|]. cbn [Account.dedup].
  assert (∀ y, y ∈ Account.dedup l → string_le x y) as Hle.
  { intros y. rewrite elem_of_dedup. by apply list.Forall_forall. }
  destruct (Account.dedup l) as [|y d] eqn:Hd; [repeat constructor|].
  destruct (String.eqb_spec x y) as [->|Hne]; [done|].
  constructor; [done|]. apply list.Forall_forall. intros z Hz.
  split; [by apply Hle|]. intros ->. apply elem_of_cons in Hz as [->|Hz]; [done|].
  inversion IH as [|? ? ? Hy]; subst. apply list.Forall_forall with (x := z) in Hy; [|done].
  destruct Hy as [Hyz Hn]. apply Hn, (anti_symm string_le); [done|]. apply Hle. set_solver.
Qed.

(** The permissions minted into a token are exactly the union of what the assigned
    roles grant and of the account's overrides, strictly increasing in bytewise order:
    sorted, without a duplicate, and a function of that union alone. *)
Theorem effective_permissions_spec (a : Account.t) :
  StronglySorted string_lt (Account.effective_permissions a) ∧
  ∀ p, p ∈ Account.effective_permissions a ↔
    p ∈ Account.permission_overrides a ∨
    ∃ r, r ∈ Account.roles a ∧ p ∈ granted_permissions r.
Proof.
  unfold Account.effective_permissions. split.
  - apply dedup_sorted, StronglySorted_merge_sort; apply _.
  - intros p. rewrite elem_of_dedup. unfold Account.sort_unstable.
    rewrite (merge_sort_Permutation string_le), elem_of_app, list_elem_of_bind. naive_solver.
Qed.


(** ** Rows *)

Section Rows.
Context `{StdText} `{Chrono} `{PgTime}.

Definition stored_mfa (m : MfaState.t) : MfaState.t :=
  m <| MfaState.totp_enrolled_at := pg_instant <$> MfaState.totp_enrolled_at m |>
    <| MfaState.backup_verified_at := pg_instant <$> MfaState.backup_verified_at m |>.

Definition stored_gdpr (g : GdprRecord.t) : GdprRecord.t := {|
  GdprRecord.data_processing_consented_at := pg_instant <$> GdprRecord.data_processing_consented_at g;
  GdprRecord.marketing_consented_at := pg_instant <$> GdprRecord.marketing_consented_at g;
  GdprRecord.consent_ip := GdprRecord.consent_ip g;
  GdprRecord.last_consent_version := GdprRecord.last_consent_version g;
  GdprRecord.deletion_requested_at := pg_instant <$> GdprRecord.deletion_requested_at g;
  GdprRecord.deletion_scheduled_at := pg_instant <$> GdprRecord.deletion_scheduled_at g;
  GdprRecord.anonymized_at := pg_instant <$> GdprRecord.anonymized_at g;
  GdprRecord.data_export_requested_at := pg_instant <$> GdprRecord.data_export_requested_at g;
  GdprRecord.data_export_completed_at := pg_instant <$> GdprRecord.data_export_completed_at g |}.

(** What the table keeps of an account: the instants to the column's precision, the
    failure count to sixteen bits, no pending event. *)
Definition stored (ver upd : Z) (a : Account.t) : Account.t :=
  a <| Account.version := ver |>
    <| Account.deactivated_at := pg_instant <$> Account.deactivated_at a |>
    <| Account.email_verified_at := pg_instant <$> Account.email_verified_at a |>
    <| Account.phone_verified_at := pg_instant <$> Account.phone_verified_at a |>
    <| Account.password_changed_at := pg_instant <$> Account.password_changed_at a |>
    <| Account.failed_login_attempts := as_i16 (Account.failed_login_attempts a) |>
    <| Account.locked_until := pg_instant <$> Account.locked_until a |>
    <| Account.last_login_at := pg_instant <$> Account.last_login_at a |>
    <| Account.mfa := stored_mfa (Account.mfa a) |>
    <| Account.kyc_reviewed_at := pg_instant <$> Account.kyc_reviewed_at a |>
    <| Account.gdpr := stored_gdpr (Account.gdpr a) |>
    <| Account.created_at := pg_instant (Account.created_at a) |>
    <| Account.updated_at := pg_instant upd |>
    <| Account.pending_events := [] |>.

Lemma try_collect_fmap {E A B} (f : A → B) (g : B → result E A) l :
  (∀ x, g (f x) = Ok x) → try_collect g (f <$> l) = Ok l.
Proof.
  intros Hg. induction l as [|x l IH]; [done|].
  rewrite fmap_cons. cbn [try_collect]. rewrite Hg, IH. reflexivity.
Qed.

Lemma transpose_ok {E A B} (f : A → result E B) (o : option A) (o' : option B) :
  transpose f o = Ok o' → ∀ y, o' = Some y → ∃ x, o = Some x ∧ f x = Ok y.
Proof. destruct o as [x|]; simpl; [destruct (f x) eqn:?|]; naive_solver. Qed.

Lemma transpose_id {E A} (f : A → result E A) (o : option A) :
  (∀ x, o = Some x → f x = Ok x) → transpose f o = Ok o.
Proof. destruct o as [x|]; simpl; [|done]. intros Hf. by rewrite Hf. Qed.

Lemma try_from_to_row ver upd a :
  account_wf a → try_from (to_row ver upd a) = Ok (stored ver upd a).
Proof.
  intros []. unfold try_from. simpl.
  rewrite wf_identity0. simpl. rewrite account_status_roundtrip. simpl. rewrite wf_email0. simpl.
  rewrite transpose_id by done. simpl. rewrite kyc_status_roundtrip. simpl.
  rewrite transpose_id by done. simpl.
  rewrite (try_collect_fmap _ _ _ account_role_roundtrip). simpl. reflexivity.
Qed.

Lemma is_Some_stored (o : option Z) : is_Some (pg_instant <$> o) ↔ is_Some o.
Proof. by rewrite fmap_is_Some. Qed.

Lemma stored_wf ver upd a : account_wf a → account_wf (stored ver upd a).
Proof.
  intros []. constructor; simpl; try done.
  - rewrite wf_email_verified0. apply bool_decide_ext. by rewrite is_Some_stored.
  - rewrite wf_phone_verified0. apply bool_decide_ext. by rewrite is_Some_stored.
  - intros Hs. apply is_Some_stored. auto.
  - by rewrite is_Some_stored.
  - intros Hm. rewrite (wf_unenrolled0 Hm). done.
  - by rewrite is_Some_stored.
  - intros t1 (u1 & Hu & ->)%fmap_Some. destruct (wf_deletion0 _ Hu) as (u2 & -> & Hle).
    eexists. split; [done|]. by apply pg_instant_mono.
  - rewrite is_Some_stored. intros Ha. destruct (wf_anonymized0 Ha) as (? & ? & ? & ? & Hm).
    repeat split; simpl; try done. by rewrite Hm.
  - pose proof (as_signed_range 16 (Account.failed_login_attempts a) ltac:(lia)).
    unfold as_i16. lia.
Qed.

(** The create parameters the handler builds are valid values. *)
Record params_ok (p : AccountCreateParams) : Prop := {
  ok_identity : identity_new (p_identity_id p) = Ok (p_identity_id p);
  ok_email : email_new (p_email p) = Ok (p_email p);
  ok_phone x : p_phone p = Some x → phone_new x = Ok x;
  ok_country c : p_country_of_residence p = Some c → country_new c = Ok c;
}.

Lemma create_wf i now p : params_ok p → account_wf (Account.create i now p).
Proof.
  intros []. constructor; simpl; try done.
  - split; [done|]. apply NoDup_singleton.
Qed.

(** ** The lockout *)

(** [n] failed logins in a row, each loaded from and saved to the table; [t1] is the
    clock reading of the last one. *)
Inductive failures (m l : Z) : nat → Z → Account.t → Account.t → Prop :=
  | failures_none t a : failures m l 0 t a a
  | failures_more n t t1 now ver upd a b c :
      failures m l n t a b → Account.record_failed_login t1 now m l b = Ok c →
      failures m l (S n) t1 a (stored ver upd c).

Lemma attempts_wrap z : as_u16 (i32_add (as_i16 z) 1) = (z + 1) mod 2 ^ 16.
Proof.
  unfold as_u16, i32_add, as_i32, as_i16.
  pose proof (as_signed_range 16 z ltac:(lia)).
  rewrite (as_signed_small 32) by lia. unfold as_signed.
  replace (_ - 2 ^ (16 - 1) + 1) with ((z + 2 ^ (16 - 1)) mod 2 ^ 16 + (1 - 2 ^ (16 - 1))) by lia.
  rewrite Zplus_mod_idemp_l. f_equal. lia.
Qed.

Lemma record_failed_login_ok t1 now m l a a' :
  Account.record_failed_login t1 now m l a = Ok a' →
  Account.failed_login_attempts a' = i32_add (Account.failed_login_attempts a) 1 ∧
  (m ≤ as_u16 (Account.failed_login_attempts a') →
   Account.locked_until a' = Some (t1 + as_signed 64 l * NS)).
Proof.
  unfold Account.record_failed_login. simpl. intros Hr.
  destruct (Z.leb_spec m (as_u16 (i32_add (Account.failed_login_attempts a) 1))).
  - destruct (add_seconds _ _) as [until|] eqn:Hu; [|done]. apply add_seconds_sum in Hu as ->.
    injection Hr as <-. done.
  - injection Hr as <-. simpl. split; [done|lia].
Qed.

(** The lockout counts consecutive failures modulo 65536, the width the row stores:
    the [n]-th failure since the last success locks the account for the configured time
    from its own instant when [n mod 65536] reaches the threshold, and the counter the
    threshold is compared with is exactly [n mod 65536]. *)
Theorem lockout_counts_failures (m l : Z) (n : nat) (t1 : Z) (a b : Account.t) :
  Account.failed_login_attempts a = 0 → failures m l n t1 a b →
  as_u16 (Account.failed_login_attempts b) = Z.of_nat n mod 2 ^ 16 ∧
  ((0 < n)%nat → m ≤ Z.of_nat n mod 2 ^ 16 →
   Account.locked_until b = Some (pg_instant (t1 + as_signed 64 l * NS))).
Proof.
  intros Ha Hf.
  assert (as_u16 (Account.failed_login_attempts b) = Z.of_nat n mod 2 ^ 16 ∧
          - 2 ^ 15 ≤ Account.failed_login_attempts b < 2 ^ 15 ∧
          ((0 < n)%nat → m ≤ Z.of_nat n mod 2 ^ 16 →
           Account.locked_until b = Some (pg_instant (t1 + as_signed 64 l * NS)))) as (? & _ & ?);
    [|done].
  induction Hf as [t a|n t t1 now ver upd a b c Hf IH Hr].
  - rewrite Ha. split_and!; [done|lia|lia|lia].
  - destruct (IH Ha) as (Hn & Hrange & _). apply record_failed_login_ok in Hr as [Hc Hl].
    simpl. rewrite Hc in *.
    assert (as_u16 (i32_add (Account.failed_login_attempts b) 1) = Z.of_nat (S n) mod 2 ^ 16) as E.
    { rewrite <- (as_signed_small 16 (Account.failed_login_attempts b)) by lia.
      change (as_signed 16 ?z) with (as_i16 z). rewrite attempts_wrap.
      rewrite <- Zplus_mod_idemp_l. 
      change (Account.failed_login_attempts b mod 2 ^ 16)
        with (as_u16 (Account.failed_login_attempts b)).
      rewrite Hn, Zplus_mod_idemp_l. f_equal. lia. }
    pose proof (as_signed_range 16 (i32_add (Account.failed_login_attempts b) 1) ltac:(lia)) as Hr.
    split_and!; [|unfold as_i16; lia..|].
    + rewrite <- E. unfold as_u16, as_i16, as_signed.
      replace (2 ^ 16) with (2 * 2 ^ 15) by lia.
      rewrite Zminus_mod_idemp_l. f_equal. lia.
    + intros _ Hm. rewrite Hl by lia. done.
Qed.
End Rows.

(** ** A concrete environment: ASCII case mapping, microsecond columns *)

Lemma map_bytes_idem f s : (∀ c, f (f c) = f c) → map_bytes f (map_bytes f s) = map_bytes f s.
Proof.
  intros Hf. unfold map_bytes. rewrite String.list_ascii_of_string_of_list_ascii.
  f_equal. rewrite <- list_fmap_compose. apply list_fmap_ext. intros i c _. apply Hf.
Qed.

Definition ascii_text : StdText := {|
  to_lowercase := map_bytes ascii_lower;
  to_uppercase := map_bytes ascii_upper;
  debug_str s := s;
  to_lowercase_idem s := map_bytes_idem ascii_lower s
    ltac:(intros [[] [] [] [] [] [] [] []]; reflexivity);
  to_uppercase_idem s := map_bytes_idem ascii_upper s
    ltac:(intros [[] [] [] [] [] [] [] []]; reflexivity);
  to_lowercase_ascii s _ := eq_refl;
  to_uppercase_ascii s _ := eq_refl |}.

(** Identifiers written in unary. *)
Definition unary_uuid : UuidText := {|
  parse_uuid s := Some (N.of_nat (String.length s));
  hyphenated u := String.string_of_list_ascii (replicate (N.to_nat u) (ascii_of_nat 48)) |}.

#[program] Definition micros : PgTime := {| pg_instant t := t / 1000 * 1000 |}.
Next Obligation. intros t. simpl. by rewrite Z.div_mul. Qed.
Next Obligation.
  intros t u Htu. simpl. pose proof (Z.div_le_mono t u 1000 ltac:(lia) Htu). lia.
Qed.

#[program] Definition utc_range : Chrono := {|
  add_seconds now n := if now + n * NS <=? MAX_UTC then Some (now + n * NS) else None |}.
Next Obligation. intros now n t Ht. simpl in Ht. case_match; by simplify_eq. Qed.
Next Obligation. intros now n _ _ Hle. simpl. by rewrite (proj2 (Z.leb_le _ _) Hle). Qed.

Section Witnesses.
#[local] Existing Instance ascii_text.
#[local] Existing Instance micros.
#[local] Existing Instance utc_range.

Definition demo_params : AccountCreateParams := {|
  p_identity_id := "idp|ana"; p_email := "ana@example.com"; p_password_hash := None;
  p_phone := None; p_role := User; p_country_of_residence := None; p_created_by := None;
  p_correlation_id := 1%N |}.
Definition demo_account : Account.t := Account.create 3%N 0 demo_params.

(** Activated without verification, then suspended. *)
Definition demo_suspended : Account.t :=
  demo_account <| Account.status := Suspended |> <| Account.suspension_reason := Some "spam" |>.

Lemma verify_email_ignores_the_suspension_witness :
  ∃ a', Account.verify_email 5 1%N demo_suspended = Ok a' ∧ Account.status a' = Active ∧
        Account.suspension_reason a' = Some "spam".
Proof.
  destruct (verify_email_ignores_the_suspension 5 1%N demo_suspended eq_refl) as [Hs _].
  destruct Hs as (a' & Ha & Hst & _ & Hr & _); [by left|].
  exists a'. split; [exact Ha|]. split; [exact Hst|exact Hr].
Defined.

Lemma mutations_follow_the_lifecycle_witness :
  can_transition_to PendingVerification Active = true.
Proof.
  destruct (mutations_follow_the_lifecycle demo_account
    (match Account.verify_email 5 1%N demo_account with Ok a => a | Err _ => demo_account end))
    as [[E|E] _].
  - by apply (by_verify_email _ _ 5 1%N).
  - discriminate E.
  - exact E.
Defined.

Definition demo_locked : Account.t :=
  match Account.record_failed_login 7 8 1 900 demo_account with
  | Ok a => stored 2 9 a
  | Err _ => demo_account
  end.

Lemma lockout_counts_failures_witness :
  failures 1 900 1 7 demo_account demo_locked ∧
  Account.locked_until demo_locked = Some (pg_instant (7 + as_signed 64 900 * NS)).
Proof.
  assert (failures 1 900 1 7 demo_account demo_locked) as Hf.
  { eapply (failures_more 1 900 0 0 7 8 2 9); [constructor|reflexivity]. }
  split; [exact Hf|].
  apply (lockout_counts_failures 1 900 1 7 demo_account demo_locked eq_refl Hf); [lia|].
  by vm_compute.
Defined.
End Witnesses.
