(* ===== verification/AccountConcurrency.v ===== *)
(** * Account: commands under any interleaving

    A command is a sequence of store calls; [step] lets any number of commands
    interleave at those calls, with the backends failing at will.  The table such a run
    leaves is the table its committed commands leave one after the other
    ([history_serializes]): the version column makes load-mutate-save atomic.  What every
    sequential command keeps, hence what every reachable table satisfies: keys and
    unique indexes, well-formed rows, and that an erased account stays erased. *)

From S2P Require Import Prelude AccountDomain AccountStore AccountHandlers AccountProofs.
Local Open Scope Z_scope.

Section Concurrency.
Context `{StdText} `{UuidText} `{PgTime} `{Chrono}.

(** ** What a command does between its load and its save *)

(** The text the handler loads by and the mutation it applies; [None] for
    [CreateAccount]. *)
Definition plan (x : Ctx) (c : Command) : option (outcome (string * (Account.t → outcome Account.t))) :=
  match c with
  | CreateAccountCommand _ _ _ _ _ _ _ => None
  | VerifyEmailCommand i => Some (Ok (i, Account.verify_email (now x) (cid x)))
  | VerifyPhoneCommand i => Some (Ok (i, Account.verify_phone (now x) (cid x)))
  | ChangePasswordCommand i h => Some (Ok (i, Account.change_password (now x) h (cid x)))
  | EnrollMfaCommand i s cs =>
      Some (Ok (i, Account.enroll_mfa (first_now x) (now x) s cs (cid x)))
  | RevokeMfaCommand i => Some (Ok (i, Account.revoke_mfa (now x) (cid x)))
  | UpdateKycStatusCommand i st reviewer => Some (
      st ← match kyc_status_try_from (trim st) with
           | Ok s => Ok s | Err _ => fails (InvalidKycStatus st) end;
      r ← ok_or (parse_uuid (trim reviewer))
            (Fails (DomainViolation "reviewer_id" "reviewer_id must be a valid UUID"));
      Ok (i, Account.update_kyc_status (now x) st r (cid x)))
  | SuspendAccountCommand i reason => Some (Ok (i, Account.suspend (now x) reason (cid x)))
  | ReactivateAccountCommand i => Some (Ok (i, Account.activate (now x) (cid x)))
  | DeactivateAccountCommand i => Some (Ok (i, Account.deactivate (now x) (cid x)))
  | RecordLoginCommand i => Some (Ok (i, λ a, Ok (Account.record_login (now x) a)))
  | RecordFailedLoginCommand i m l =>
      Some (Ok (i, Account.record_failed_login (first_now x) (now x) m l))
  | RequestGdprDeletionCommand i d =>
      Some (Ok (i, Account.request_gdpr_deletion (first_now x) (now x) d (cid x)))
  | AnonymizeAccountCommand i => Some (Ok (i, Account.anonymize (now x) (cid x)))
  | RequestDataExportCommand i =>
      Some (Ok (i, Account.request_gdpr_data_export (now x) (cid x)))
  | AssignRoleCommand i r =>
      Some (r ← parse_role r; Ok (i, Account.assign_role (now x) r (cid x)))
  | RevokeRoleCommand i r =>
      Some (r ← parse_role r; Ok (i, Account.revoke_role (now x) r (cid x)))
  end.

(** Every command but [CreateAccount] is its plan: load, mutate, save. *)
Lemma dispatch_plan x c p w : plan x c = Some p →
  dispatch x c w =
  (let! p := lift p in
   let! a := load_account p.1 in
   let! a := lift (p.2 a) in
   save (db_now x) a) w.
Proof.
  destruct c; intros [= <-]; try reflexivity; simpl;
    unfold update_kyc_status, assign_role, revoke_role; rewrite !act_bind_run; unfold lift;
    repeat (case_match; simplify_eq/=; try reflexivity);
    repeat (rewrite !act_bind_run; case_match; simplify_eq/=; try reflexivity).
Qed.

(** A command's arguments are within their types ([u32] days). *)
Definition args_ok (c : Command) : Prop :=
  match c with
  | RequestGdprDeletionCommand _ days => is_u32 days
  | RecordFailedLoginCommand _ m l => 0 ≤ m < 2 ^ 16 ∧ is_u64 l
  | _ => True
  end.

Lemma plan_mutates x c i f a a' :
  args_ok c → plan x c = Some (Ok (i, f)) → f a = Ok a' → mutates a a'.
Proof.
  destruct c; simpl; intros Hok Hp Hf; simplify_eq/=; try (econstructor; eassumption).
  - apply result_bind_ok in Hp as (st & _ & Hp). apply result_bind_ok in Hp as (r & _ & Hp).
    simplify_eq. by econstructor.
  - simplify_eq. by eapply by_record_login.
  - eapply by_request_gdpr_deletion; [|eassumption]. unfold is_u32 in Hok. lia.
  - apply result_bind_ok in Hp as (r & _ & Hp). simplify_eq. by econstructor.
  - apply result_bind_ok in Hp as (r & _ & Hp). simplify_eq. by econstructor.
Qed.

(** ** The table *)

Abbreviation rows := (gmap Uuid AccountRow.t).

(** A row the service wrote: the row of a well-formed account. *)
Definition row_ok (r : AccountRow.t) : Prop :=
  ∃ a ver upd, account_wf a ∧ r = to_row ver upd a.

Record table_inv (m : rows) : Prop := {
  inv_key u r : m !! u = Some r → AccountRow.id r = u;
  inv_version u r : m !! u = Some r → 1 ≤ AccountRow.version r ≤ i64_max;
  inv_row u r : m !! u = Some r → row_ok r;
  inv_identity u1 u2 r1 r2 : m !! u1 = Some r1 → m !! u2 = Some r2 →
    AccountRow.identity_id r1 = AccountRow.identity_id r2 → u1 = u2;
  inv_email u1 u2 r1 r2 : m !! u1 = Some r1 → m !! u2 = Some r2 →
    AccountRow.email r1 = AccountRow.email r2 → u1 = u2;
}.

Lemma table_inv_empty : table_inv ∅.
Proof. by split; intros *; rewrite ?lookup_empty. Qed.

Lemma existsb_rows (P : AccountRow.t → bool) (m : rows) :
  existsb P (snd <$> map_to_list m) = false ↔ ∀ u r, m !! u = Some r → P r = false.
Proof.
  rewrite existsb_false. split.
  - intros Hall u r Hu. apply Hall. apply list_elem_of_fmap. exists (u, r).
    split; [done|]. by apply elem_of_map_to_list.
  - intros Hall r Hr. apply list_elem_of_fmap in Hr as ([u r'] & -> & Hin).
    apply elem_of_map_to_list in Hin. by eapply Hall.
Qed.

Lemma insert_row_ok r m m' : insert_row r m = Ok m' →
  m' = <[AccountRow.id r := r]> m ∧ m !! AccountRow.id r = None ∧
  (∀ u r0, m !! u = Some r0 → AccountRow.identity_id r0 ≠ AccountRow.identity_id r ∧
     AccountRow.email r0 ≠ AccountRow.email r) ∧
  forallb pg_text (AccountRow.texts r) = true.
Proof.
  unfold insert_row. intros Hi. destruct (forallb _ _) eqn:Ht; [|done]. simpl in Hi.
  case_decide as Hn; [done|].
  destruct (existsb (has_identity _) _) eqn:Hid; [done|].
  destruct (existsb (has_email _) _) eqn:Hem; [done|]. injection Hi as <-.
  rewrite existsb_rows in Hid, Hem. split_and!; [done|by apply eq_None_not_Some| |done].
  intros u r0 Hu. specialize (Hid _ _ Hu). specialize (Hem _ _ Hu).
  unfold has_identity, has_email in *. by rewrite String.eqb_neq in Hid, Hem.
Qed.

Lemma update_row_ok expected r m m' : update_row expected r m = Ok m' →
  ∃ old, m !! AccountRow.id r = Some old ∧ AccountRow.version old = expected ∧
    AccountRow.version old < i64_max ∧
    (∀ u r0, u ≠ AccountRow.id r → m !! u = Some r0 → AccountRow.email r0 ≠ AccountRow.email r) ∧
    forallb pg_text (AccountRow.texts r) = true ∧
    m' = <[AccountRow.id r :=
      r <| AccountRow.identity_id := AccountRow.identity_id old |>
        <| AccountRow.created_at := AccountRow.created_at old |>
        <| AccountRow.created_by := AccountRow.created_by old |>
        <| AccountRow.version := AccountRow.version old + 1 |> ]> m.
Proof.
  unfold update_row. intros Hu. destruct (forallb _ _) eqn:Ht; [|done]. simpl in Hu.
  destruct (m !! _) as [old|] eqn:Hold; [|done].
  destruct (Z.eqb_spec (AccountRow.version old) expected) as [Hv|]; [|done]. simpl in Hu.
  destruct (Z.leb_spec i64_max (AccountRow.version old)) as [|Hlt]; [done|].
  destruct (existsb _ _) eqn:Hem; [done|]. injection Hu as <-.
  rewrite existsb_rows in Hem. exists old. split_and!; try done.
  intros u r0 Hne Hr0. specialize (Hem u r0). rewrite lookup_delete_ne in Hem by done.
  specialize (Hem Hr0). by apply String.eqb_neq in Hem.
Qed.

(** ** Sequential commands *)

(** A world where every backend answers. *)
Definition calm (m : rows) : World :=
  {| accounts := m; topic := []; kafka := false; faults := [] |}.

(** One command run alone to success. *)
Definition serial (x : Ctx) (c : Command) (m m' : rows) : Prop :=
  args_ok c ∧ dispatch x c (calm m) = (calm m', Ok tt).

(** These commands run alone, one after the other, each to success. *)
Fixpoint alone (l : list (Ctx * Command)) (m m' : rows) : Prop :=
  match l with
  | [] => m' = m
  | p :: l => ∃ m1, serial p.1 p.2 m m1 ∧ alone l m1 m'
  end.

Lemma alone_app l1 l2 m m' :
  alone (l1 ++ l2) m m' ↔ ∃ m1, alone l1 m m1 ∧ alone l2 m1 m'.
Proof.
  revert m. induction l1 as [|p l1 IH]; intros m; simpl; [naive_solver|].
  setoid_rewrite IH. naive_solver.
Qed.

(** The account a [CreateAccountCommand] inserts when its probes find nothing. *)
Definition creates (x : Ctx) (c : Command) (a : Account.t) : Prop :=
  ∃ identity email phone hash country role by_ i e p,
    c = CreateAccountCommand identity email phone hash country role by_ ∧
    identity_new (trim identity) = Ok i ∧ email_new (trim email) = Ok e ∧
    create_params i e phone hash country role by_ (cid x) = Ok p ∧
    a = Account.create (new_id x) (now x) p.

Lemma checked_ok {A} (r : result AccountError A) a : checked r = Ok a ↔ r = Ok a.
Proof. destruct r; split; intros E; by simplify_eq/=. Qed.

Lemma create_params_ok i e phone hash country role by_ corr p :
  identity_new i = Ok i → email_new e = Ok e →
  create_params i e phone hash country role by_ corr = Ok p →
  params_ok p ∧ p_identity_id p = i ∧ p_email p = e.
Proof.
  intros Hi He Hp. unfold create_params in Hp.
  apply result_bind_ok in Hp as (ph & Hph%checked_ok & Hp).
  apply result_bind_ok in Hp as (co & Hco%checked_ok & Hp).
  apply result_bind_ok in Hp as (ro & _ & Hp). apply result_bind_ok in Hp as (cb & _ & Hp).
  simplify_eq/=. split; [|done]. split; simpl; [done|done|..].
  - intros x ->. destruct (transpose_ok _ _ _ Hph x eq_refl) as (y & _ & Hy).
    by eapply phone_new_canonical.
  - intros x ->. destruct (transpose_ok _ _ _ Hco x eq_refl) as (y & _ & Hy).
    by eapply country_new_canonical.
Qed.

Lemma creates_wf x c a : creates x c a → account_wf a ∧ Account.version a = 0.
Proof.
  intros (identity & email & phone & hash & country & role & by_ & i & e & p & -> & Hi & He & Hp & ->).
  apply identity_new_canonical in Hi. apply email_new_canonical in He.
  apply create_params_ok in Hp as (Hp & _); [|done..]. split; [by apply create_wf|done].
Qed.

Lemma publish_log es w : kafka w = false → for_each publish es w = (w, Ok tt).
Proof.
  intros Hk. induction es as [|e es IH]; [done|]. simpl. rewrite act_bind_run.
  unfold publish at 1. rewrite Hk. exact IH.
Qed.

Lemma save_calm t a m m' : write_rows t a m = Ok m' → save t a (calm m) = (calm m', Ok tt).
Proof.
  intros Hw. unfold save, run_on_shard, backend. rewrite !act_bind_run. simpl.
  rewrite Hw. by apply publish_log.
Qed.

Lemma load_calm i u r a m :
  parse_uuid i = Some u → m !! u = Some r → try_from r = Ok a →
  load_account i (calm m) = (calm m, Ok a).
Proof.
  intros Hp Hr Ha. unfold load_account. rewrite Hp. cbv [act_bind lift ok_or].
  unfold find_by_id, read, backend. cbv [act_bind lift gets]. cbn [faults calm accounts].
  rewrite Hr. unfold decode_opt, transpose. rewrite Ha. done.
Qed.

Lemma serial_mutation x c i f u r a a' m m' :
  args_ok c → plan x c = Some (Ok (i, f)) → parse_uuid i = Some u → m !! u = Some r →
  try_from r = Ok a → f a = Ok a' → write_rows (db_now x) a' m = Ok m' → serial x c m m'.
Proof.
  intros Hok Hp Hu Hr Ha Hf Hw. split; [done|].
  rewrite (dispatch_plan _ _ _ _ Hp). cbv [act_bind lift]. simpl.
  rewrite (load_calm _ _ _ _ _ Hu Hr Ha), Hf. by apply save_calm.
Qed.

Lemma count_rows_zero (P : AccountRow.t → bool) m :
  existsb P (snd <$> map_to_list m) = false → count_rows P m = 0.
Proof.
  unfold count_rows, rows_where. generalize (snd <$> map_to_list m). intros l Hl.
  replace (filter _ l) with (@nil AccountRow.t); [done|].
  induction l as [|r l IH]; [done|]. simpl in Hl. apply orb_false_iff in Hl as [Hr Hl].
  rewrite filter_cons_False by congruence. auto.
Qed.

Lemma serial_create x c a m m' :
  args_ok c → creates x c a → write_rows (db_now x) a m = Ok m' → serial x c m m'.
Proof.
  intros Hok Hc Hw. pose proof (creates_wf _ _ _ Hc) as [_ Hv].
  destruct Hc as (identity & email & phone & hash & country & role & by_ & i & e & p & -> & Hi & He & Hp & Ha).
  split; [done|].
  pose proof (create_params_ok _ _ _ _ _ _ _ _ _ (identity_new_canonical _ _ Hi)
    (email_new_canonical _ _ He) Hp) as (_ & Hpi & Hpe).
  pose proof Hw as Hw'. unfold write_rows in Hw'. rewrite Hv in Hw'. simpl in Hw'.
  apply insert_row_ok in Hw' as (_ & _ & Hfresh & _). subst a. simpl in Hfresh.
  rewrite Hpi, Hpe in Hfresh.
  unfold dispatch, create_account. rewrite Hi, He. cbv [act_bind lift checked map_err].
  unfold exists_by_identity_id, exists_by_email, read, backend.
  cbv [act_bind lift gets done_with]. cbn [faults calm accounts].
  assert (∀ P : AccountRow.t → bool, (∀ u r, m !! u = Some r → P r = false) →
            count_rows P m = 0) as Hnone.
  { intros P HP. by apply count_rows_zero, existsb_rows. }
  rewrite (Hnone (has_identity i)); [|by intros u r Hr; apply String.eqb_neq, (Hfresh _ _ Hr)].
  cbn [Z.ltb Z.compare faults calm accounts].
  rewrite (Hnone (has_email e)); [|by intros u r Hr; apply String.eqb_neq, (Hfresh _ _ Hr)].
  cbn [Z.ltb Z.compare]. rewrite Hp. by apply save_calm.
Qed.

(** ** Interleaved commands *)

(** A command in flight: about to save the account it mutated or created, or publishing
    the events of a committed one. *)
Inductive Client :=
  | Saving (x : Ctx) (c : Command) (a : Account.t)
  | Publishing (es : list DomainEvent).

Record Config := mk_config { world : World; clients : gmap nat Client }.

(** What a store call shows of its command: it has loaded (or created) its account and
    goes on to save it, or it has been told that its write is committed. *)
Inductive Label :=
  | Begins (x : Ctx) (c : Command)
  | Saved (x : Ctx) (c : Command)
  | Quiet.

(** One store call of one command; [step_faults] sets what the next calls meet, and a
    command can die at any point.  The probes of a creation may have read any earlier
    table, so they constrain nothing here. *)
Inductive acts : Label → Config → Config → Prop :=
  | step_faults w cl fs : acts Quiet (mk_config w cl) (mk_config (w <| faults := fs |>) cl)
  | step_load k x c i f w cl w' a a' :
      cl !! k = None → args_ok c → plan x c = Some (Ok (i, f)) →
      load_account i w = (w', Ok a) → f a = Ok a' →
      acts (Begins x c) (mk_config w cl) (mk_config w' (<[k := Saving x c a']> cl))
  | step_create k x c w cl a :
      cl !! k = None → args_ok c → creates x c a →
      acts (Begins x c) (mk_config w cl) (mk_config w (<[k := Saving x c a]> cl))
  | step_commit k x c a w cl w' :
      cl !! k = Some (Saving x c a) →
      run_on_shard (write_rows (db_now x) a) w = (w', Ok tt) →
      acts (Saved x c) (mk_config w cl) (mk_config w' (<[k := Publishing (Account.pending_events a)]> cl))
  | step_save_fails k x c a w cl w' e :
      cl !! k = Some (Saving x c a) →
      run_on_shard (write_rows (db_now x) a) w = (w', Err e) →
      acts Quiet (mk_config w cl) (mk_config w' (delete k cl))
  | step_publish k e es w cl w' :
      cl !! k = Some (Publishing (e :: es)) → publish e w = (w', Ok tt) →
      acts Quiet (mk_config w cl) (mk_config w' (<[k := Publishing es]> cl))
  | step_publish_fails k e es w cl w' err :
      cl !! k = Some (Publishing (e :: es)) → publish e w = (w', Err err) →
      acts Quiet (mk_config w cl) (mk_config w' (delete k cl))
  | step_ends k w cl : acts Quiet (mk_config w cl) (mk_config w (delete k cl)).

Definition step (c c' : Config) : Prop := ∃ l, acts l c c'.

Lemma acts_step l c c' : acts l c c' → step c c'.
Proof. by exists l. Qed.

(** A run with what it shows. *)
Inductive history : list Label → Config → Config → Prop :=
  | history_nil c : history [] c c
  | history_cons l ls c1 c2 c3 :
      acts l c1 c2 → history ls c2 c3 → history (l :: ls) c1 c3.

Lemma runs_are_histories c c' : star step c c' ↔ ∃ ls, history ls c c'.
Proof.
  split.
  - induction 1 as [c|c1 c2 c3 [l Hl] _ [ls IH]]; eauto using history.
  - intros [ls Hs]. induction Hs; [constructor|]. eapply star_step; [by eapply acts_step|done].
Qed.

Lemma history_app ls1 ls2 c1 c2 c3 :
  history ls1 c1 c2 → history ls2 c2 c3 → history (ls1 ++ ls2) c1 c3.
Proof. induction 1; simpl; eauto using history. Qed.

(** The commands that got as far as their save, and those told that it was committed,
    which are all that can report success. *)
Definition began : list Label → list (Ctx * Command) :=
  omap (λ l, match l with Begins x c => Some (x, c) | _ => None end).
Definition saved : list Label → list (Ctx * Command) :=
  omap (λ l, match l with Saved x c => Some (x, c) | _ => None end).

(** The commands about to save. *)
Definition saving (cl : Client) : list (Ctx * Command) :=
  match cl with Saving x c _ => [(x, c)] | Publishing _ => [] end.
Definition inflight (cl : gmap nat Client) : list (Ctx * Command) :=
  map_to_list cl ≫= λ kc, saving kc.2.

Lemma inflight_delete k v (cl : gmap nat Client) :
  cl !! k = Some v → inflight cl ≡ₚ saving v ++ inflight (delete k cl).
Proof. intros Hk. unfold inflight. by rewrite <- (map_to_list_delete cl k v Hk). Qed.

Lemma inflight_insert k v (cl : gmap nat Client) :
  inflight (<[k := v]> cl) ≡ₚ saving v ++ inflight (delete k cl).
Proof. by rewrite (inflight_delete k v) , delete_insert_eq by apply lookup_insert_eq. Qed.

Lemma inflight_fresh k v (cl : gmap nat Client) :
  cl !! k = None → inflight (<[k := v]> cl) ≡ₚ saving v ++ inflight cl.
Proof. intros Hk. by rewrite inflight_insert, delete_id. Qed.

Lemma inflight_drop k (cl : gmap nat Client) : inflight (delete k cl) ⊆+ inflight cl.
Proof.
  destruct (cl !! k) as [v|] eqn:Hk; [|by rewrite delete_id].
  rewrite (inflight_delete k v cl Hk). by apply submseteq_inserts_l.
Qed.

(** What one step does to a row: nothing, or one mutation of the account it holds. *)
Definition row_step (r r' : AccountRow.t) : Prop :=
  r' = r ∨ AccountRow.version r < AccountRow.version r' ∧
    ∃ a a' ver upd, try_from r = Ok a ∧ mutates a a' ∧ account_wf a' ∧ r' = to_row ver upd a'.

(** Rows are never removed, and a rewritten row has a higher version. *)
Definition rows_grow (m m' : rows) : Prop :=
  ∀ u r, m !! u = Some r → ∃ r', m' !! u = Some r' ∧ row_step r r'.

Definition loaded (m : rows) (x : Ctx) (c : Command) (a' : Account.t) : Prop :=
  ∃ i f u r a r', plan x c = Some (Ok (i, f)) ∧ parse_uuid i = Some u ∧
    AccountRow.id r = u ∧ 1 ≤ AccountRow.version r ≤ i64_max ∧ row_ok r ∧
    try_from r = Ok a ∧ f a = Ok a' ∧ m !! u = Some r' ∧
    (r' = r ∨ AccountRow.version r < AccountRow.version r').

Definition client_ok (m : rows) (cl : Client) : Prop :=
  match cl with
  | Saving x c a => args_ok c ∧ (creates x c a ∨ loaded m x c a)
  | Publishing _ => True
  end.

Lemma client_ok_grow m m' cl : rows_grow m m' → client_ok m cl → client_ok m' cl.
Proof.
  intros Hg. destruct cl as [x c a|es]; [|done]. intros [Hok [Hc|Hl]]; split; auto.
  right. destruct Hl as (i & f & u & r & b & r' & ? & ? & ? & ? & ? & ? & ? & Hr' & Hv).
  destruct (Hg _ _ Hr') as (r2 & Hr2 & Hv2). exists i, f, u, r, b, r2. split_and!; try done; try lia.
  destruct Hv as [->|]; destruct Hv2 as [->|[? _]]; auto; right; lia.
Qed.

Lemma row_ok_decodes r : row_ok r → ∃ a, try_from r = Ok a ∧ account_wf a ∧
  Account.id a = AccountRow.id r ∧ Account.version a = AccountRow.version r ∧
  Account.identity_id a = AccountRow.identity_id r ∧
  Account.created_at a = AccountRow.created_at r ∧
  Account.created_by a = AccountRow.created_by r.
Proof.
  intros (a & ver & upd & Ha & ->). exists (stored ver upd a).
  split_and!; try done; [by apply try_from_to_row|by apply stored_wf].
Qed.

(** The write of a mutation that commits replaced the very row it was computed from. *)
Lemma commit_mutation x c m m' a' :
  table_inv m → args_ok c → loaded m x c a' → write_rows (db_now x) a' m = Ok m' →
  ∃ i f u r a, plan x c = Some (Ok (i, f)) ∧ parse_uuid i = Some u ∧ m !! u = Some r ∧
    try_from r = Ok a ∧ f a = Ok a' ∧ mutates a a' ∧ account_wf a' ∧
    m' = <[u := to_row (AccountRow.version r + 1) (db_now x) a']> m ∧
    AccountRow.version r < i64_max ∧
    ∀ u0 r0, u0 ≠ u → m !! u0 = Some r0 → AccountRow.email r0 ≠ Account.email a'.
Proof.
  intros Hinv Hok (i & f & u & r & a & r' & Hp & Hu & Hid & Hver & Hrow & Ha & Hf & Hr' & Hv) Hw.
  pose proof (plan_mutates _ _ _ _ _ _ Hok Hp Hf) as Hm.
  destruct (mutates_frame _ _ Hm) as (Hid' & Hver' & Hident & Hcr & Hby & _).
  destruct (row_ok_decodes _ Hrow) as (b & Hb & Hwf & Hbi & Hbv & Hbd & Hbc & Hbb).
  rewrite Ha in Hb. injection Hb as <-.
  assert (Account.version a' ≠ 0 ∧
          as_signed 64 (Account.version a' - 1) = AccountRow.version r) as [Hnz Hexp].
  { rewrite Hver', Hbv. unfold i64_add, as_signed, i64_max in *.
    destruct (Z.eq_dec (AccountRow.version r) (2 ^ 63 - 1)) as [->|]; [done|].
    rewrite (Z.mod_small (AccountRow.version r + 1 + 2 ^ 63)) by lia.
    split; [lia|]. rewrite Z.mod_small by lia. lia. }
  unfold write_rows in Hw. rewrite (proj2 (Z.eqb_neq _ _) Hnz), Hexp in Hw.
  apply update_row_ok in Hw as (old & Hold & Hov & Hmax & Hem & _ & ->).
  cbn [to_row AccountRow.id] in *. rewrite Hid', Hbi, Hid in *.
  assert (old = r') as -> by congruence. destruct Hv as [->|]; [|lia].
  exists i, f, u, r, a. split_and!; try done; [by eapply mutates_wf|].
  f_equal. unfold to_row. rewrite Hident, Hcr, Hby, Hbd, Hbc, Hbb. simpl.
  destruct Hrow as (b & ver & upd & _ & ->). simpl. by rewrite !pg_instant_idem.
Qed.

Lemma table_inv_set m u r :
  table_inv m → AccountRow.id r = u → 1 ≤ AccountRow.version r ≤ i64_max → row_ok r →
  (∀ u0 r0, u0 ≠ u → m !! u0 = Some r0 →
     AccountRow.identity_id r0 ≠ AccountRow.identity_id r ∧
     AccountRow.email r0 ≠ AccountRow.email r) →
  table_inv (<[u := r]> m).
Proof.
  intros [Hk Hv Hr Hi He] Hid Hver Hok Hdis. split.
  - intros u0 r0 [[<- <-]|[_ Hu]]%lookup_insert_Some; eauto.
  - intros u0 r0 [[<- <-]|[_ Hu]]%lookup_insert_Some; eauto.
  - intros u0 r0 [[<- <-]|[_ Hu]]%lookup_insert_Some; eauto.
  - intros u1 u2 r1 r2 [[<- <-]|[Hn1 Hu1]]%lookup_insert_Some
      [[<- <-]|[Hn2 Hu2]]%lookup_insert_Some E; [done|..|by eapply Hi].
    + by destruct (Hdis u2 r2) as [[] _].
    + by destruct (Hdis u1 r1) as [[] _].
  - intros u1 u2 r1 r2 [[<- <-]|[Hn1 Hu1]]%lookup_insert_Some
      [[<- <-]|[Hn2 Hu2]]%lookup_insert_Some E; [done|..|by eapply He].
    + by destruct (Hdis u2 r2) as [_ []].
    + by destruct (Hdis u1 r1) as [_ []].
Qed.

Lemma write_keeps_table x c a m m' :
  table_inv m → client_ok m (Saving x c a) → write_rows (db_now x) a m = Ok m' →
  table_inv m' ∧ rows_grow m m' ∧ serial x c m m'.
Proof.
  intros Hinv [Hok [Hc|Hl]] Hw.
  - pose proof (serial_create _ _ _ _ _ Hok Hc Hw) as Hs.
    pose proof (creates_wf _ _ _ Hc) as [Hwf Hv].
    unfold write_rows in Hw. rewrite Hv in Hw. simpl in Hw.
    apply insert_row_ok in Hw as (-> & Hnone & Hfresh & _). split_and!; [|  |done].
    + apply table_inv_set; [done|done|simpl; unfold i64_max; lia| |by eauto].
      by exists a, 1, (Account.updated_at a).
    + intros u r Hu. exists r. split; [|by left]. rewrite lookup_insert_ne; [done|congruence].
  - pose proof (commit_mutation _ _ _ _ _ Hinv Hok Hl Hw)
      as (i & f & u & r & b & Hp & Hu & Hr & Hb & Hf & Hm & Hwf & -> & Hmax & Hem).
    assert (1 ≤ AccountRow.version r ≤ i64_max) as Hver by (by eapply inv_version).
    destruct (row_ok_decodes r) as (b' & Hb' & _ & Hbi & _ & Hbd & _); [by eapply inv_row|].
    rewrite Hb in Hb'. injection Hb' as <-.
    destruct (mutates_frame _ _ Hm) as (Hid & _ & Hident & _).
    split_and!; [| |by eapply serial_mutation].
    + apply table_inv_set; [done| |simpl; lia| |].
      * simpl. rewrite Hid, Hbi. by eapply inv_key.
      * by exists a, (AccountRow.version r + 1), (db_now x).
      * intros u0 r0 Hne Hr0. simpl. split; [|by eauto]. rewrite Hident, Hbd.
        intros E. apply Hne. by eapply inv_identity.
    + intros u0 r0 Hr0. destruct (decide (u0 = u)) as [->|].
      * rewrite lookup_insert_eq. eexists. split; [done|]. right. simpl.
        assert (r0 = r) as -> by congruence. split; [lia|].
        by exists b, a, (AccountRow.version r + 1), (db_now x).
      * rewrite lookup_insert_ne by done. exists r0. split; [done|by left].
Qed.

Definition config_ok (c : Config) : Prop :=
  table_inv (accounts (world c)) ∧
  ∀ k cl, clients c !! k = Some cl → client_ok (accounts (world c)) cl.

Lemma backend_accounts w : accounts (backend w).1 = accounts w.
Proof. unfold backend. by destruct (faults w). Qed.

Lemma read_accounts {A} (f : rows → A) w : accounts (read f w).1 = accounts w.
Proof.
  unfold read. rewrite act_bind_run. pose proof (backend_accounts w).
  destruct (backend w) as [w' [[]|]]; done.
Qed.

Lemma load_accounts i w w' a : load_account i w = (w', Ok a) →
  accounts w' = accounts w ∧ ∃ u r, parse_uuid i = Some u ∧ accounts w !! u = Some r ∧
    try_from r = Ok a.
Proof.
  unfold load_account. intros Hl. apply act_bind_ok in Hl as (w1 & u & [= <- Hu] & Hl).
  apply act_bind_ok in Hl as (w2 & o & Hf & [= -> Ho]).
  apply ok_or_ok in Hu. apply ok_or_ok in Ho as ->.
  unfold find_by_id in Hf. apply act_bind_ok in Hf as (w3 & row & Hr & [= -> Hd]).
  pose proof (read_accounts (λ m, m !! u) w) as Hacc. rewrite Hr in Hacc. split; [done|].
  unfold read in Hr. rewrite act_bind_run in Hr. pose proof (backend_accounts w) as Hb.
  destruct (backend w) as [w4 [[]|]]; simpl in *; try done. unfold gets in Hr.
  injection Hr as -> <-. rewrite Hacc in Hd.
  unfold decode_opt in Hd. apply checked_ok in Hd. exists u.
  destruct (accounts w !! u) as [r|]; simpl in Hd; [|done].
  apply result_bind_ok in Hd as (b & Hb' & [= ->]). by exists r.
Qed.

Lemma run_on_shard_accounts body w w' res : run_on_shard body w = (w', res) →
  body (accounts w) = Ok (accounts w') ∨ accounts w' = accounts w ∧ is_ok res = false.
Proof.
  unfold run_on_shard, throw. rewrite act_bind_run. intros Hr. pose proof (backend_accounts w) as Hb.
  destruct (backend w) as [w1 [[]|]]; simpl in *; simplify_eq; auto; rewrite <- Hb;
    destruct (body (accounts w1)); simplify_eq/=; auto.
Qed.

Lemma publish_accounts e w : accounts (publish e w).1 = accounts w.
Proof.
  unfold publish. destruct (kafka w); [|done]. simpl. pose proof (backend_accounts w).
  destruct (backend w) as [w' [[]|]]; done.
Qed.

Lemma clients_insert (m : rows) (cl : gmap nat Client) k c :
  (∀ k c, cl !! k = Some c → client_ok m c) → client_ok m c →
  ∀ k0 c0, <[k := c]> cl !! k0 = Some c0 → client_ok m c0.
Proof. intros Hall Hc k0 c0 [[_ <-]|[_ ?]]%lookup_insert_Some; eauto. Qed.

Lemma clients_delete (m : rows) (cl : gmap nat Client) k :
  (∀ k c, cl !! k = Some c → client_ok m c) →
  ∀ k0 c0, delete k cl !! k0 = Some c0 → client_ok m c0.
Proof. intros Hall k0 c0 [_ ?]%lookup_delete_Some; eauto. Qed.

(** What one step does: the commands it commits, alone on the table, lead to the new one;
    the one told so is among them, and all of them were about to save. *)
Definition effect (l : Label) (c c' : Config) (o : list (Ctx * Command)) : Prop :=
  alone o (accounts (world c)) (accounts (world c')) ∧ saved [l] `sublist_of` o ∧
  o ++ inflight (clients c') ⊆+ began [l] ++ inflight (clients c).

Lemma acts_ok l c c' : config_ok c → acts l c c' →
  config_ok c' ∧ rows_grow (accounts (world c)) (accounts (world c')) ∧ ∃ o, effect l c c' o.
Proof.
  assert (∀ m, rows_grow m m) as Hrefl by (intros m u r Hu; exists r; split; [done|by left]).
  assert (∀ l w cl, config_ok (mk_config w cl) → ∀ w' cl', accounts w' = accounts w →
    (∀ k c, cl' !! k = Some c → client_ok (accounts w) c) →
    saved [l] = [] → inflight cl' ⊆+ began [l] ++ inflight cl →
    config_ok (mk_config w' cl') ∧ rows_grow (accounts w) (accounts w') ∧
    ∃ o, effect l (mk_config w cl) (mk_config w' cl') o) as Hsame.
  { intros l0 w cl [Ht Hcl] w' cl' E Hcl' Hs Hin. unfold config_ok. simpl in Ht, Hcl |- *. rewrite E.
    split_and!; [done..|]. exists []. split_and!; [done|change (saved [l0] `sublist_of` []); by rewrite Hs|done]. }
  assert (∀ l w cl k x c a w' cl', config_ok (mk_config w cl) → cl !! k = Some (Saving x c a) →
    write_rows (db_now x) a (accounts w) = Ok (accounts w') →
    (∀ m, (∀ k c, cl !! k = Some c → client_ok m c) → ∀ k c, cl' !! k = Some c → client_ok m c) →
    saved [l] `sublist_of` [(x, c)] → inflight cl' ≡ₚ inflight (delete k cl) →
    config_ok (mk_config w' cl') ∧ rows_grow (accounts w) (accounts w') ∧
    ∃ o, effect l (mk_config w cl) (mk_config w' cl') o) as Hwrite.
  { intros l0 w cl k x c0 a w' cl' [Ht Hcl] Hk Hw Hcl' Hs Hin. simpl in *.
    destruct (write_keeps_table _ _ _ _ _ Ht (Hcl _ _ Hk) Hw) as (? & Hg & Hser).
    split_and!; [split; [done|]|done|].
    - simpl. apply Hcl'. intros k0 c1 Hc1. eapply client_ok_grow; eauto.
    - exists [(x, c0)]. split_and!; [by exists (accounts w')|done|].
      simpl. rewrite Hin, (inflight_delete k _ cl Hk). simpl. by apply submseteq_inserts_l. }
  intros Hc Hs. destruct Hs as [w cl fs|k x c i f w cl w' a a' Hk Hok Hp Hl Hf|k x c w cl a Hk Hok Ha
    |k x c a w cl w' Hk Hw|k x c a w cl w' e Hk Hw|k e es w cl w' Hk Hp|k e es w cl w' err Hk Hp|k w cl];
    pose proof Hc as [Htab Hcl]; simpl in Htab, Hcl.
  - by apply (Hsame _ _ _ Hc (w <| faults := fs |>) cl).
  - apply load_accounts in Hl as [E (u & r & Hu & Hr & Hra)]. apply (Hsame _ _ _ Hc); [done| |done|].
    + apply clients_insert; [done|]. split; [done|]. right. exists i, f, u, r, a, r.
      split_and!; try done; [by eapply inv_key|by eapply inv_version|by eapply inv_version
        |by eapply inv_row|auto].
    + by rewrite inflight_fresh.
  - apply (Hsame _ _ _ Hc); [done| |done|by rewrite inflight_fresh].
    apply clients_insert; [done|]. split; auto.
  - apply run_on_shard_accounts in Hw as [Hw|[_ [=]]].
    apply (Hwrite _ _ _ k x c a _ _ Hc); [done|done| |done|by rewrite inflight_insert].
    intros m Hm. by apply clients_insert.
  - apply run_on_shard_accounts in Hw as [Hw|[E _]].
    + apply (Hwrite _ _ _ k x c a _ _ Hc); [done|done| |by apply sublist_nil_l|done].
      intros m Hm. by apply clients_delete.
    + apply (Hsame _ _ _ Hc); [done|by apply clients_delete|done|apply inflight_drop].
  - pose proof (publish_accounts e w) as E. rewrite Hp in E.
    apply (Hsame _ _ _ Hc); [done|by apply clients_insert|done|].
    rewrite inflight_insert. apply inflight_drop.
  - pose proof (publish_accounts e w) as E. rewrite Hp in E.
    apply (Hsame _ _ _ Hc); [done|by apply clients_delete|done|apply inflight_drop].
  - apply (Hsame _ _ _ Hc); [done|by apply clients_delete|done|apply inflight_drop].
Qed.

Lemma step_ok c c' : config_ok c → step c c' →
  config_ok c' ∧ rows_grow (accounts (world c)) (accounts (world c')).
Proof. intros Hc [l Hl]. by destruct (acts_ok _ _ _ Hc Hl) as (? & ? & _). Qed.

Definition start (w : World) : Config := mk_config w ∅.

Lemma start_ok w : table_inv (accounts w) → config_ok (start w).
Proof.
  intros Ht. split; [done|]. intros k c Hk.
  change (@empty (gmap nat Client) _ !! k = Some c) in Hk. by rewrite lookup_empty in Hk.
Qed.

Lemma history_serializes ls c c' : config_ok c → history ls c c' →
  ∃ o, alone o (accounts (world c)) (accounts (world c')) ∧ saved ls `sublist_of` o ∧
    o ++ inflight (clients c') ⊆+ began ls ++ inflight (clients c).
Proof.
  intros Hc Hs. induction Hs as [c|l ls c1 c2 c3 H12 _ IH].
  - by exists [].
  - destruct (acts_ok _ _ _ Hc H12) as (Hc2 & _ & o1 & Hm1 & Hs1 & Hb1).
    destruct (IH Hc2) as (o2 & Hm2 & Hs2 & Hb2). exists (o1 ++ o2). split_and!.
    + apply alone_app. eauto.
    + change (l :: ls) with ([l] ++ ls). unfold saved. rewrite omap_app. by apply sublist_app.
    + change (l :: ls) with ([l] ++ ls). unfold began. rewrite omap_app, <- !(assoc_L (++)).
      rewrite (submseteq_skips_l o1 _ _ Hb2), (Permutation_app_swap_app o1).
      rewrite (submseteq_skips_l _ _ _ Hb1). by rewrite Permutation_app_swap_app.
Qed.

Lemma steps_ok c c' : config_ok c → star step c c' → config_ok c'.
Proof. intros Hc. apply star_invariant; [done|]. intros c1 c2 H12 Hc1. by eapply step_ok. Qed.

Lemma reachable_ok w c : accounts w = ∅ → star step (start w) c → config_ok c.
Proof.
  intros Hw Hs. eapply steps_ok; [|exact Hs]. apply start_ok. rewrite Hw. apply table_inv_empty.
Qed.

Lemma row_step_row r r' : row_ok r → row_step r r' → row_ok r'.
Proof. intros Hr [->|(_ & a & a' & ver & upd & _ & _ & Hwf & ->)]; [done|]. by exists a', ver, upd. Qed.

(** What an erased row holds. *)
Definition erased_row (r : AccountRow.t) : Prop :=
  is_Some (AccountRow.gdpr_anonymized_at r) ∧ AccountRow.status r = "deleted" ∧
  AccountRow.phone r = None ∧ AccountRow.password_hash r = None ∧
  AccountRow.date_of_birth r = None ∧ AccountRow.mfa_totp_secret r = None ∧
  AccountRow.mfa_recovery_codes r = [].

Lemma anonymized_row_erased ver upd a :
  account_wf a → is_Some (GdprRecord.anonymized_at (Account.gdpr a)) →
  erased_row (to_row ver upd a).
Proof.
  intros Hwf Ha. destruct (wf_anonymized _ Hwf Ha) as (Hs & Hp & Hh & Hd & Hm).
  unfold erased_row. simpl. rewrite Hs, Hm. split_and!; try done. by apply fmap_is_Some.
Qed.

Lemma row_step_anonymized r r' : row_ok r → row_step r r' →
  is_Some (AccountRow.gdpr_anonymized_at r) → is_Some (AccountRow.gdpr_anonymized_at r').
Proof.
  intros Hr [->|(_ & a & a' & ver & upd & Ha & Hm & _ & ->)] Han; [done|].
  simpl. apply fmap_is_Some. apply (mutates_anonymized _ _ Hm).
  destruct Hr as (b & v & u & Hb & ->). rewrite try_from_to_row in Ha by done.
  injection Ha as <-. done.
Qed.

(** C33. Erasure is final: a row that was anonymized is, in every later table of every
    interleaving, still there, still deleted, and without phone, password, birth date,
    second factor or recovery code. *)
Theorem erasure_is_final (w : World) (c c' : Config) (u : Uuid) (r : AccountRow.t) :
  accounts w = ∅ → star step (start w) c → star step c c' →
  accounts (world c) !! u = Some r → is_Some (AccountRow.gdpr_anonymized_at r) →
  ∃ r', accounts (world c') !! u = Some r' ∧ erased_row r'.
Proof.
  intros Hw H0' Hs Hr Ha. pose proof (reachable_ok _ _ Hw H0') as Hc. clear H0' Hw.
  revert r Hr Ha. induction Hs as [c|c1 c2 c3 H12 _ IH]; intros r Hr Ha.
  - exists r. split; [done|]. destruct Hc as [Ht _].
    destruct (inv_row _ Ht _ _ Hr) as (a & ver & upd & Hwf & ->).
    apply anonymized_row_erased; [done|]. by apply fmap_is_Some in Ha.
  - destruct (step_ok _ _ Hc H12) as (Hc2 & Hg).
    destruct (Hg _ _ Hr) as (r2 & Hr2 & Hst). apply (IH Hc2 _ Hr2).
    eapply row_step_anonymized; [|done..]. eapply inv_row; [apply Hc|done].
Qed.

(** C3. Account commands are serializable.  Let any number of commands interleave at
    their store calls from an empty table, each backend failing or losing its answer at
    will, each command dying at any point.  Then some order of commands, run alone one
    after the other and each to success, leaves the very table the run left.  In that
    order is, in the order of their commits, every command that was told its write is
    committed, so every one that reported success; and it holds no command that did not
    get as far as its save, none more often.  No update is lost, and none is computed
    from a stale row. *)
Theorem commands_are_serializable (w : World) (ls : list Label) (c : Config) :
  accounts w = ∅ → history ls (start w) c →
  ∃ order, alone order ∅ (accounts (world c)) ∧
    saved ls `sublist_of` order ∧ order ⊆+ began ls.
Proof.
  intros Hw Hs. destruct (history_serializes ls (start w) c) as (o & Ha & Hsv & Hb); [|done|].
  - apply start_ok. rewrite Hw. apply table_inv_empty.
  - simpl in Ha, Hb. rewrite Hw in Ha. exists o. split_and!; [done|done|].
    rewrite app_nil_r in Hb. by etrans; [apply submseteq_inserts_r|].
Qed.

(** C24. Every row any interleaving leaves is well formed: it decodes, its aggregate
    satisfies every invariant of [account_wf] (verified flags agree with their
    timestamps, a verified phone exists, at least one role and none twice, MFA and
    review fields are set together, an erased account holds no phone, password, birth
    date or second factor, ...), and no two rows share an e-mail address or identity. *)
Theorem reachable_tables_are_well_formed (w : World) (c : Config) :
  accounts w = ∅ → star step (start w) c →
  (∀ u r, accounts (world c) !! u = Some r →
     ∃ a, try_from r = Ok a ∧ account_wf a ∧ Account.id a = u ∧
          Account.version a = AccountRow.version r ∧ 1 ≤ Account.version a ≤ i64_max) ∧
  (∀ u1 u2 r1 r2, accounts (world c) !! u1 = Some r1 → accounts (world c) !! u2 = Some r2 →
     AccountRow.identity_id r1 = AccountRow.identity_id r2 ∨
     AccountRow.email r1 = AccountRow.email r2 → u1 = u2).
Proof.
  intros Hw Hs. apply reachable_ok in Hs as [Ht _]; [|done].
  split.
  - intros u r Hu. destruct (row_ok_decodes r) as (a & Ha & Hwf & Hid & Hv & _).
    { by eapply inv_row. }
    exists a. rewrite Hid, Hv. split_and!; try done; by eapply inv_version || by eapply inv_key.
  - intros u1 u2 r1 r2 H1' H2' [E|E]; [by eapply inv_identity|by eapply inv_email].
Qed.

(** ** Every dispatched command is such a run *)

(** A part of a handler that leaves the table and the topic alone. *)
Definition reads {A} (m : use_case A) : Prop := ∀ w, ∃ fs, (m w).1 = w <| faults := fs |>.

Lemma reads_ret {A} (r : outcome A) : reads (lift r).
Proof. intros w. exists (faults w). by destruct w. Qed.
Lemma reads_backend : reads backend.
Proof. intros w. unfold backend. destruct w as [? ? ? [|f fs]]; eexists; reflexivity. Qed.
Lemma reads_bind {A B} (m : use_case A) (f : A → use_case B) :
  reads m → (∀ a, reads (f a)) → reads (act_bind m f).
Proof.
  intros Hm Hf w. rewrite act_bind_run. destruct (Hm w) as [fs E].
  destruct (m w) as [w' [a|e]]; simpl in *; [|by exists fs].
  destruct (Hf a w') as [fs' E']. exists fs'. by rewrite E', E.
Qed.
Lemma reads_read {A} (f : rows → A) : reads (read f).
Proof.
  apply reads_bind; [apply reads_backend|]. intros [] w; exists (faults w); by destruct w.
Qed.
Lemma reads_load i : reads (load_account i).
Proof.
  apply reads_bind; [apply reads_ret|]. intros u. apply reads_bind; [|intros; apply reads_ret].
  apply reads_bind; [apply reads_read|]. intros. apply reads_ret.
Qed.
Lemma reads_exists (P : AccountRow.t → bool) :
  reads (act_bind (read (count_rows P)) (λ n, done_with (0 <? n))).
Proof. apply reads_bind; [apply reads_read|]. intros n. apply (reads_ret (Ok _)). Qed.

(** A run that begins and saves nothing. *)
Definition silent (ls : list Label) : Prop := began ls = [] ∧ saved ls = [].

Lemma reads_run {A} (m : use_case A) w : reads m → history [Quiet] (start w) (start (m w).1).
Proof. intros Hm. destruct (Hm w) as [fs ->]. eauto using history, step_faults. Qed.

Lemma publish_run es w : ∃ ls, silent ls ∧
  history ls (mk_config w {[0%nat := Publishing es]}) (start (for_each publish es w).1).
Proof.
  revert w. induction es as [|e es IH]; intros w; simpl.
  - exists [Quiet]. split; [done|]. eapply history_cons; [apply (step_ends 0%nat)|].
    rewrite delete_singleton_eq. constructor.
  - rewrite act_bind_run. destruct (publish e w) as [w' [[]|err]] eqn:Hp.
    + destruct (IH w') as (ls & Hls & Hs). exists (Quiet :: ls). split; [done|].
      eapply history_cons; [eapply (step_publish 0%nat); [apply lookup_singleton_eq|exact Hp]|].
      by rewrite insert_singleton_eq.
    + exists [Quiet]. split; [done|].
      eapply history_cons; [eapply (step_publish_fails 0%nat); [apply lookup_singleton_eq|exact Hp]|].
      rewrite delete_singleton_eq. constructor.
Qed.

Lemma save_run x c a w : ∃ ls,
  began ls = [] ∧ (is_ok (save (db_now x) a w).2 = true → saved ls = [(x, c)]) ∧
  history ls (mk_config w {[0%nat := Saving x c a]}) (start (save (db_now x) a w).1).
Proof.
  unfold save. rewrite act_bind_run.
  destruct (run_on_shard _ w) as [w' [[]|e]] eqn:Hw.
  - destruct (publish_run (Account.pending_events a) w') as (ls & [Hb Hls] & Hs).
    exists (Saved x c :: ls). split_and!; [exact Hb|by intros _; unfold saved; simpl; f_equal|].
    eapply history_cons; [eapply (step_commit 0%nat); [apply lookup_singleton_eq|exact Hw]|].
    by rewrite insert_singleton_eq.
  - exists [Quiet]. split_and!; [done|by intros [=]|].
    eapply history_cons; [eapply (step_save_fails 0%nat); [apply lookup_singleton_eq|exact Hw]|].
    rewrite delete_singleton_eq. constructor.
Qed.

(** A run of one command that shows the command as saved if it reports success. *)
Definition reported (x : Ctx) (c : Command) (res : outcome unit) (ls : list Label) : Prop :=
  is_ok res = true → began ls = [(x, c)] ∧ saved ls = [(x, c)].

(** The interleavings contain this program run alone for this command. *)
Definition runs (x : Ctx) (c : Command) (m : use_case unit) (w : World) : Prop :=
  ∃ ls, reported x c (m w).2 ls ∧ history ls (start w) (start (m w).1).

Lemma runs_fails x c e w : runs x c (lift (Err e)) w.
Proof. exists []. split; [by intros [=]|constructor]. Qed.

Lemma runs_read {A} (m : use_case A) (k : A → use_case unit) x c w :
  reads m → (∀ a w', (m w).2 = Ok a → runs x c (k a) w') → runs x c (act_bind m k) w.
Proof.
  intros Hm Hk. pose proof (reads_run m w Hm) as Hr. unfold runs. rewrite act_bind_run.
  destruct (m w) as [w' [a|e]]; simpl in *; [|by exists [Quiet]].
  destruct (Hk a w' eq_refl) as (ls & Hls & Hs). exists (Quiet :: ls). split; [done|].
  by apply (history_app [Quiet] ls _ (start w')).
Qed.

Lemma plan_run x c p w : args_ok c → plan x c = Some p → runs x c (dispatch x c) w.
Proof.
  intros Hok Hp. unfold runs. rewrite (dispatch_plan _ _ _ _ Hp).
  destruct p as [[i f]|e]; [|apply runs_fails].
  cbv [act_bind lift]. simpl. pose proof (reads_run (load_account i) w (reads_load i)) as Hrun.
  destruct (load_account i w) as [w' [a|e]] eqn:Hl; simpl in *; [|by exists [Quiet]].
  destruct (f a) as [a'|e] eqn:Hf; simpl; [|by exists [Quiet]].
  destruct (save_run x c a' w') as (ls & Hb & Hls & Hs). exists (Begins x c :: ls).
  split; [by intros Hok'; split; [unfold began; simpl; f_equal; exact Hb|apply Hls]|].
  eapply history_cons; [eapply (step_load 0%nat); [by apply lookup_empty|exact Hok|exact Hp|exact Hl|exact Hf]|].
  exact Hs.
Qed.

Lemma create_run x c w : plan x c = None → runs x c (dispatch x c) w.
Proof.
  destruct c as [identity email phone hash country role by_| | | | | | | | | | | | | | | |];
    try done. intros _. cbn [dispatch]. unfold create_account.
  apply runs_read; [apply reads_ret|]. intros i w1 Hi. apply checked_ok in Hi.
  apply runs_read; [apply reads_ret|]. intros e w2 He. apply checked_ok in He.
  apply runs_read; [apply reads_exists|]. intros [] w3 _; [apply runs_fails|].
  apply runs_read; [apply reads_exists|]. intros [] w4 _; [apply runs_fails|].
  apply runs_read; [apply reads_ret|]. intros p w5 Hp.
  destruct (save_run x (CreateAccountCommand identity email phone hash country role by_)
    (Account.create (new_id x) (now x) p) w5) as (ls & Hb & Hls & Hs).
  exists (Begins x (CreateAccountCommand identity email phone hash country role by_) :: ls).
  split; [by intros Hok; split; [unfold began; simpl; f_equal; exact Hb|apply Hls]|].
  eapply history_cons; [eapply (step_create 0%nat); [by apply lookup_empty|exact I|]|exact Hs].
  by repeat eexists.
Qed.

(** The interleavings [step] describes contain every dispatched command; one that reports
    success is told there that its write is committed. *)
Lemma dispatch_is_a_run x c w : args_ok c → runs x c (dispatch x c) w.
Proof.
  intros Hok. destruct (plan x c) as [p|] eqn:Hp; [by eapply plan_run|by apply create_run].
Qed.

(** Two commands that load at the same point: the first to save wins, and the save of the
    other is refused. *)
Lemma race_run x1 c1 i1 f1 a1 a1' x2 c2 i2 f2 a2 a2' w w1 w2 e :
  args_ok c1 → plan x1 c1 = Some (Ok (i1, f1)) →
  load_account i1 w = (w, Ok a1) → f1 a1 = Ok a1' →
  args_ok c2 → plan x2 c2 = Some (Ok (i2, f2)) →
  load_account i2 w = (w, Ok a2) → f2 a2 = Ok a2' →
  run_on_shard (write_rows (db_now x2) a2') w = (w1, Ok tt) →
  run_on_shard (write_rows (db_now x1) a1') w1 = (w2, Err e) →
  ∃ c, world c = w2 ∧
    history [Begins x1 c1; Begins x2 c2; Saved x2 c2; Quiet] (start w) c.
Proof.
  intros Ho1 Hp1 Hl1 Hf1 Ho2 Hp2 Hl2 Hf2 Hw1 Hw2. eexists. split.
  2: { eapply history_cons; [by eapply (step_load 0%nat x1); [apply lookup_empty|..]|].
       eapply history_cons; [by eapply (step_load 1%nat x2)|].
       eapply history_cons; [by eapply (step_commit 1%nat x2 c2 a2')|].
       eapply history_cons; [by eapply (step_save_fails 0%nat x1 c1 a1')|]. constructor. }
  done.
Qed.
End Concurrency.

(** ** A concrete run *)

Section Demo.
#[local] Existing Instance ascii_text.
#[local] Existing Instance unary_uuid.
#[local] Existing Instance micros.
#[local] Existing Instance utc_range.

Definition demo_world : World :=
  {| accounts := ∅; topic := []; kafka := true; faults := [] |}.
Definition demo_ctx (t : Z) : Ctx :=
  {| first_now := t; now := t; db_now := t; new_id := 3%N; cid := 1%N |}.
Definition demo_create : Command :=
  CreateAccountCommand "idp|ana" " Ana@Example.com " (Some "+12025551234") None (Some "fr") None None.

Fixpoint run_all (t : Z) (cs : list Command) (w : World) : World :=
  match cs with [] => w | c :: cs => run_all (t + NS) cs (dispatch (demo_ctx t) c w).1 end.

Lemma run_all_steps t cs w : Forall args_ok cs → star step (start w) (start (run_all t cs w)).
Proof.
  intros Hcs. revert t w. induction Hcs as [|c cs Hc _ IH]; intros t w; [constructor|].
  destruct (dispatch_is_a_run (demo_ctx t) c w Hc) as (ls & _ & Hs).
  eapply star_trans; [by apply runs_are_histories; exists ls|]. apply IH.
Qed.

Definition demo_commands : list Command :=
  [demo_create; VerifyEmailCommand "xxx"; VerifyPhoneCommand "xxx"; SuspendAccountCommand "xxx" "spam"].
Definition demo_erasure : list Command :=
  [AnonymizeAccountCommand "xxx"].

Example demo_status :
  AccountRow.status <$> accounts (run_all 0 demo_commands demo_world) !! 3%N = Some "suspended".
Proof. vm_compute. reflexivity. Qed.

(** Ana's account is created; her link is followed twice at once, both
    commands load the row, and the second wins the race. *)
Abbreviation created := (dispatch (demo_ctx 0) demo_create demo_world).1.
Abbreviation won := (dispatch (demo_ctx 6) (VerifyEmailCommand "xxx") created).1.

Lemma raced : ∃ c, accounts (world c) = accounts won ∧
  history [Begins (demo_ctx 5) (VerifyEmailCommand "xxx");
           Begins (demo_ctx 6) (VerifyEmailCommand "xxx");
           Saved (demo_ctx 6) (VerifyEmailCommand "xxx"); Quiet] (start created) c.
Proof.
  pose proof (λ a1 a1' a2 a2' w1 w2 e, race_run (demo_ctx 5) (VerifyEmailCommand "xxx") "xxx"
    (Account.verify_email 5 1%N) a1 a1' (demo_ctx 6) (VerifyEmailCommand "xxx") "xxx"
    (Account.verify_email 6 1%N) a2 a2' created w1 w2 e I eq_refl) as Hrace.
  edestruct Hrace as (c & Hc & Hs);
    [vm_compute; reflexivity|vm_compute; reflexivity|exact I|reflexivity
    |vm_compute; reflexivity|vm_compute; reflexivity|vm_compute; reflexivity
    |vm_compute; reflexivity|].
  exists c. split; [|exact Hs]. rewrite Hc. vm_compute. reflexivity.
Qed.

Lemma commands_are_serializable_witness :
  ∃ ls c order, history ls (start demo_world) c ∧
    saved ls = [(demo_ctx 0, demo_create); (demo_ctx 6, VerifyEmailCommand "xxx")] ∧
    (demo_ctx 5, VerifyEmailCommand "xxx") ∈ began ls ∧
    alone order ∅ (accounts (world c)) ∧ saved ls `sublist_of` order ∧ order ⊆+ began ls.
Proof.
  destruct (dispatch_is_a_run (demo_ctx 0) demo_create demo_world I) as (ls0 & Hrep & Hs0).
  destruct (Hrep ltac:(vm_compute; reflexivity)) as [Hb Hsv]. destruct raced as (c & _ & Hs).
  pose proof (history_app _ _ _ _ _ Hs0 Hs) as Hall.
  destruct (commands_are_serializable demo_world _ c eq_refl Hall) as (order & Ho).
  exists (ls0 ++ [Begins (demo_ctx 5) (VerifyEmailCommand "xxx");
           Begins (demo_ctx 6) (VerifyEmailCommand "xxx");
           Saved (demo_ctx 6) (VerifyEmailCommand "xxx"); Quiet]), c, order.
  split; [exact Hall|]. split; [|split; [|exact Ho]].
  - unfold saved. rewrite omap_app. change (saved ls0 ++ [(demo_ctx 6, VerifyEmailCommand "xxx")] =
      [(demo_ctx 0, demo_create); (demo_ctx 6, VerifyEmailCommand "xxx")]). by rewrite Hsv.
  - unfold began. rewrite omap_app. apply elem_of_app. right. by left.
Defined.

Lemma reachable_tables_are_well_formed_witness :
  ∃ r a, accounts (run_all 0 demo_commands demo_world) !! 3%N = Some r ∧ try_from r = Ok a ∧
    account_wf a.
Proof.
  destruct (reachable_tables_are_well_formed demo_world
    (start (run_all 0 demo_commands demo_world)) eq_refl) as [Hwf _].
  { apply run_all_steps. repeat constructor. }
  destruct (accounts (run_all 0 demo_commands demo_world) !! 3%N) as [r|] eqn:E.
  - destruct (Hwf 3%N r E) as (a & Ha & Hok & _). exists r, a.
    split; [reflexivity|]. split; [exact Ha|exact Hok].
  - exfalso. revert E. vm_compute. congruence.
Defined.

Lemma erasure_is_final_witness :
  ∃ r', accounts (run_all (9 * NS) [ReactivateAccountCommand "xxx"; RecordLoginCommand "xxx"]
                    (run_all 0 (demo_commands ++ demo_erasure) demo_world)) !! 3%N = Some r' ∧
        erased_row r'.
Proof.
  destruct (accounts (run_all 0 (demo_commands ++ demo_erasure) demo_world) !! 3%N) as [r|] eqn:E.
  - apply (erasure_is_final demo_world (start (run_all 0 (demo_commands ++ demo_erasure) demo_world))
      (start (run_all (9 * NS) [ReactivateAccountCommand "xxx"; RecordLoginCommand "xxx"]
                    (run_all 0 (demo_commands ++ demo_erasure) demo_world))) 3%N r eq_refl).
    + apply run_all_steps. repeat constructor.
    + apply run_all_steps. repeat constructor.
    + exact E.
    + revert E. vm_compute. intros [= <-]. by eexists.
  - exfalso. revert E. vm_compute. congruence.
Defined.

Definition event_types (w : World) : list string :=
  (λ e, event_type (envelope_payload e)) <$> topic w.

(** The write commits before its event is published: when the publication is refused the
    command fails, the account stays verified, and running the command again cannot
    publish the event either. *)
Example refused_publication_loses_the_event :
  let w := run_all 0 [demo_create] demo_world in
  let '(w1, r1) := dispatch (demo_ctx 5) (VerifyEmailCommand "xxx")
    (w <| faults := [Healthy; Healthy; Refused PoolTimedOut] |>) in
  let '(w2, r2) := dispatch (demo_ctx 6) (VerifyEmailCommand "xxx") w1 in
  r1 = Err (Fails (EventPublishFailed "kafka")) ∧ r2 = Err (Fails EmailAlreadyVerified) ∧
  AccountRow.status <$> accounts w2 !! 3%N = Some "active" ∧
  event_types w2 = ["account.created"].
Proof. vm_compute. repeat split. Qed.

(** Two commands on one account may publish in the opposite order of their commits.  A
    suspension is committed, a reactivation then runs to its end, and only then does the
    suspension publish: the account is active, and the last event of its key says it was
    suspended. *)
Definition reversed_run : outcome World :=
  let w0 := run_all 0 [demo_create; VerifyEmailCommand "xxx"] demo_world in
  a ← (load_account "xxx" w0).2;
  a' ← Account.suspend 5 "spam" 1%N a;
  let w1 := (run_on_shard (write_rows 5 a') w0).1 in
  let w2 := (dispatch (demo_ctx 6) (ReactivateAccountCommand "xxx") w1).1 in
  Ok (for_each publish (Account.pending_events a') w2).1.

Example publications_can_reverse_commits :
  (λ w, (AccountRow.status <$> accounts w !! 3%N, event_types w)) <$> reversed_run =
  Ok (Some "active", ["account.created"; "account.email_verified"; "account.activated";
                      "account.suspended"]).
Proof. vm_compute. reflexivity. Qed.
End Demo.
