(* ===== verification/Consumer.v ===== *)
(** * Transport: consuming a topic at least once

    Models [crates/platform/transport/src/kafka/consumer] and [config/consumer.rs]: the
    message a record becomes, the outcome of processing it, the bounded retry, the
    dead-letter publication and the commit of the offset.  [Worker] is one process: the
    stores its handler works on, what it published and committed, and the script of the
    broker's refusals.  [System] adds the topic's log and the supervised consumer, which
    is rebuilt from the group's durable offset after every end of its stream. *)

From S2P Require Import Prelude.
From stdpp Require Import pretty.
Local Open Scope Z_scope.

(** ** Outcomes and the retry policy *)

Inductive ProcessOutcome := Done | Retry (reason : string) | Reject (reason : string).

Class ClassifyError (E : Type) := {
  error_is_retryable : E → bool;
  error_text : E → string;
}.

Definition from_result `{ClassifyError E} (r : result E unit) : ProcessOutcome :=
  match r with
  | Ok _ => Done
  | Err e => if error_is_retryable e then Retry (error_text e) else Reject (error_text e)
  end.

(** Durations in nanoseconds. *)
Record RetryPolicy := {
  max_attempts : Z;
  base_backoff : Z;
  max_backoff : Z;
}.

Definition default_policy : RetryPolicy :=
  {| max_attempts := 5; base_backoff := 100 * 10 ^ 6; max_backoff := 30 * 10 ^ 9 |}.

Definition DURATION_MAX : Z := u64_max * 10 ^ 9 + (10 ^ 9 - 1).

(** [backoff_for] before the jitter's factor, which the random generator draws. *)
Definition backoff_cap (p : RetryPolicy) (attempt : Z) : Z :=
  let exponent := Z.min (Z.max 0 (attempt - 1)) 31 in
  let scaled := Z.min DURATION_MAX (base_backoff p * 2 ^ exponent) in
  Z.min scaled (max_backoff p).

Definition backoff_for (jittered : Z → Z) (p : RetryPolicy) (attempt : Z) : Z :=
  jittered (backoff_cap p attempt).

(** ** Records and messages *)

Inductive TransportError :=
  | KafkaProducer (text : string)
  | KafkaConsumer (text : string)
  | KafkaConfig (text : string)
  | EmptyPayload
  | JsonCodec (text : string).

Definition transport_text (e : TransportError) : string :=
  match e with
  | KafkaProducer t => "Kafka error: Kafka producer error: " +:+ t
  | KafkaConsumer t => "Kafka error: Kafka consumer error: " +:+ t
  | KafkaConfig t => "Kafka error: Kafka client configuration error: " +:+ t
  | EmptyPayload => "Kafka error: message payload is empty"
  | JsonCodec t => "codec error: JSON serialization error: " +:+ t
  end.

Record KafkaRecord := {
  rec_topic : string;
  rec_partition : Z;
  rec_offset : Z;
  rec_key : option string;
  rec_headers : list (string * option string);
  rec_timestamp : option Z;
  rec_payload : option string;
}.

(** [str::from_utf8]: no overlong form, no surrogate, nothing past U+10FFFF. *)
Definition continuation (c : ascii) : bool := byte_in c 128 191.

Fixpoint is_utf8 (s : string) : bool :=
  match s with
  | "" => true
  | String a s1 =>
      if byte_in a 0 127 then is_utf8 s1 else
      match s1 with
      | String b s2 =>
          if byte_in a 194 223 then continuation b && is_utf8 s2 else
          match s2 with
          | String c s3 =>
              if byte_in a 224 239 then
                byte_in b (if byte_is a 224 then 160 else 128) (if byte_is a 237 then 159 else 191)
                && continuation c && is_utf8 s3
              else
              match s3 with
              | String d s4 =>
                  byte_in a 240 244
                  && byte_in b (if byte_is a 240 then 144 else 128)
                       (if byte_is a 244 then 143 else 191)
                  && continuation c && continuation d && is_utf8 s4
              | "" => false
              end
          | "" => false
          end
      | "" => false
      end
  end%string.

(** [.and_then(|b| from_utf8(b).ok()).unwrap_or("")] *)
Definition utf8_or_empty (b : option string) : string :=
  match b with
  | Some s => if is_utf8 s then s else ""
  | None => ""
  end.

Module ConsumedMessage.
Record t {T : Type} := mk {
  topic : string;
  partition : Z;
  offset : Z;
  key : string;
  headers : gmap string string;
  timestamp_ms : option Z;
  raw_payload : string;
  payload : result TransportError T;
}.
Arguments t : clear implicits.

Definition is_trace_header (k : string) : bool :=
  bool_decide (k = "traceparent") || bool_decide (k = "tracestate").

Definition user_headers (hs : list (string * option string)) : gmap string string :=
  foldl (λ m kv, if is_trace_header kv.1 then m else <[kv.1 := utf8_or_empty kv.2]> m) ∅ hs.

(** [KafkaConsumerHandle::stream]: the item a record becomes. *)
Definition of_record {T} (from_slice : string → result string T) (r : KafkaRecord) : t T := {|
  topic := rec_topic r;
  partition := rec_partition r;
  offset := rec_offset r;
  key := utf8_or_empty (rec_key r);
  headers := user_headers (rec_headers r);
  timestamp_ms := rec_timestamp r;
  raw_payload := default "" (rec_payload r);
  payload := match rec_payload r with
             | None => Err EmptyPayload
             | Some bytes => map_err JsonCodec (from_slice bytes)
             end |}.
End ConsumedMessage.

(** ** The worker process *)

Record DeadLetter := {
  dead_topic : string;
  dead_key : string;
  dead_payload : string;
  dead_headers : gmap string string;
}.

(** How a publication fails: the broker never had the record, or only the
    acknowledgement was lost. *)
Inductive SendFault := NotSent (text : string) | Unacknowledged (text : string).

Record Worker {S : Type} := {
  stores : S;
  published : list DeadLetter;
  committing : list (string * Z * Z);
  slept : list Z;
  wall_ms : Z;
  send_faults : list (option SendFault);
  commit_faults : list (option TransportError);
}.
Arguments Worker : clear implicits.

#[export] Instance worker_fields {S} : Fields (Worker S) := λ w, {|
  stores := stores w; published := published w; committing := committing w; slept := slept w;
  wall_ms := wall_ms w; send_faults := send_faults w; commit_faults := commit_faults w |}.

Definition DLQ_SUFFIX : string := ".dlq".
Definition MAX_DLQ_ERROR_LEN : nat := 1024.

(** [s.chars().take(n)] *)
Fixpoint take_chars (n : nat) (s : string) : string :=
  match s with
  | "" => ""
  | String c s' =>
      if continuation c then String c (take_chars n s')
      else match n with
           | O => ""
           | S n => String c (take_chars n s')
           end
  end%string.

Section Runner.
Context {S T : Type}.
Context (from_slice : string → result string T) (process : T → S → S * ProcessOutcome).
Context (jittered : Z → Z) (policy : RetryPolicy).

Abbreviation Message := (ConsumedMessage.t T).
Abbreviation step_of A := (act (Worker S) TransportError A).

(** [publish_raw] *)
Definition publish_raw (d : DeadLetter) : step_of unit := λ w,
  let fault := match send_faults w with f :: _ => f | [] => None end in
  let w := w <| send_faults := tail (send_faults w) |> in
  let stored := w <| published := published w ++ [d] |> in
  match fault with
  | None => (stored, Ok tt)
  | Some (NotSent text) => (w, Err (KafkaProducer text))
  | Some (Unacknowledged text) => (stored, Err (KafkaProducer text))
  end.

(** [SystemTime::now().duration_since(UNIX_EPOCH)] in milliseconds, 0 before the epoch. *)
Definition failed_at (w : Worker S) : Z := if 0 <=? wall_ms w then as_signed 64 (wall_ms w) else 0.

Definition dead_letter_of (m : Message) (reason_kind reason : string) (attempts now : Z) :
    DeadLetter := {|
  dead_topic := ConsumedMessage.topic m +:+ DLQ_SUFFIX;
  dead_key := ConsumedMessage.key m;
  dead_payload := ConsumedMessage.raw_payload m;
  dead_headers :=
    <["x-dlq-failed-at-ms" := pretty now]>
    (<["x-dlq-attempts" := pretty attempts]>
    (<["x-dlq-error" := take_chars MAX_DLQ_ERROR_LEN reason]>
    (<["x-dlq-reason" := reason_kind]>
    (<["x-dlq-offset" := pretty (ConsumedMessage.offset m)]>
    (<["x-dlq-partition" := pretty (ConsumedMessage.partition m)]>
    {["x-dlq-origin-topic" := ConsumedMessage.topic m]}))))) |}.

Definition dead_letter (m : Message) (reason_kind reason : string) (attempts : Z) : step_of unit :=
  let! now := gets failed_at in
  publish_raw (dead_letter_of m reason_kind reason attempts now).

(** [KafkaConsumerHandle::commit]: queues the offset past the message. *)
Definition commit (m : Message) : step_of unit := λ w,
  let fault := match commit_faults w with f :: _ => f | [] => None end in
  let w := w <| commit_faults := tail (commit_faults w) |> in
  match fault with
  | Some e => (w, Err e)
  | None =>
      (w <| committing := committing w ++
             [(ConsumedMessage.topic m, ConsumedMessage.partition m,
               i64_add (ConsumedMessage.offset m) 1)] |>, Ok tt)
  end.

Definition sleep (d : Z) : step_of unit := modify (λ w, w <| slept := slept w ++ [d] |>).

Definition call (event : T) : step_of ProcessOutcome := λ w,
  let '(s, o) := process event (stores w) in (w <| stores := s |>, Ok o).

(** The retry loop from [attempt] on; [retries] is [max_attempts - attempt]. *)
Fixpoint attempt_from (retries : nat) (attempt : Z) (event : T) (m : Message) : step_of unit :=
  let! o := call event in
  match o with
  | Done => done_with tt
  | Reject reason => dead_letter m "reject" reason attempt
  | Retry reason =>
      match retries with
      | O => dead_letter m "retry-exhausted" reason attempt
      | Datatypes.S retries =>
          let! _ := sleep (backoff_for jittered policy attempt) in
          attempt_from retries (attempt + 1) event m
      end
  end.

Definition attempts_left : nat := Z.to_nat (max_attempts policy - 1).

(** The body of [run_consumer]'s loop on one item of the stream. *)
Definition handle_item (item : result string KafkaRecord) : step_of unit :=
  match item with
  | Err text => throw (KafkaConsumer text)
  | Ok r =>
      let m := ConsumedMessage.of_record from_slice r in
      let! _ := match ConsumedMessage.payload m with
                | Err e => dead_letter m "decode" (transport_text e) 0
                | Ok event => attempt_from attempts_left 1 event m
                end in
      commit m
  end.

Definition run_consumer (stream : list (result string KafkaRecord)) : step_of unit :=
  for_each handle_item stream.
End Runner.

(** ** Where a consumer starts *)

Inductive AutoOffsetReset := Earliest | Latest.

Record ConsumerConfig := {
  group_id : string;
  auto_offset_reset : AutoOffsetReset;
  enable_auto_commit : bool;
  heartbeat_interval_ms : Z;
  session_timeout_ms : Z;
}.

Definition ConsumerConfig_new (group : string) : ConsumerConfig := {|
  group_id := group; auto_offset_reset := Latest; enable_auto_commit := false;
  heartbeat_interval_ms := 3000; session_timeout_ms := 10000 |}.
