(* ===== verification/ConsumerProofs.v ===== *)
(** * Transport: no record is skipped by a supervised consumer

    The system around the runner of [Consumer]: a topic's log that producers extend, the
    group's durable offsets, and the consumer that the services' supervisors rebuild
    whenever its stream or process ends ([spawn_ingest] and its siblings in
    [crates/services/audit/src/service.rs]).  A restarted consumer reads from the durable
    offset, or where [auto_offset_reset] says when the group has none. *)

From S2P Require Import Prelude Consumer.
From stdpp Require Import pretty.
Local Open Scope Z_scope.

Section Supervised.
Context {S T : Type}.
Context (from_slice : string → result string T) (process : T → S → S * ProcessOutcome).
Context (jittered : Z → Z) (policy : RetryPolicy) (config : ConsumerConfig).
(** What everything else does to the stores the handler works on, a handler killed
    part-way included. *)
Context (env : S → S → Prop).

Abbreviation TopicPartition := (string * Z)%type.

Record System := {
  log : gmap TopicPartition (list KafkaRecord);
  durable : gmap TopicPartition Z;
  session : option (TopicPartition → Z);
  worker : Worker S;
}.

#[export] Instance system_fields : Fields System := λ y, {|
  log := log y; durable := durable y; session := session y; worker := worker y |}.

Definition partition_log (tp : TopicPartition) (y : System) : list KafkaRecord :=
  default [] (log y !! tp).

(** Where a consumer starts on a partition. *)
Definition start_position (y : System) (tp : TopicPartition) : Z :=
  match durable y !! tp with
  | Some o => o
  | None => match auto_offset_reset config with
            | Earliest => 0
            | Latest => Z.of_nat (length (partition_log tp y))
            end
  end.

Definition advance (tp : TopicPartition) (pos : TopicPartition → Z) : TopicPartition → Z :=
  λ q, if decide (q = tp) then pos q + 1 else pos q.

Definition handle : result string KafkaRecord → act (Worker S) TransportError unit :=
  handle_item from_slice process jittered policy.

Inductive system_step (y : System) : System → Prop :=
  | s_produce tp r :
      rec_topic r = tp.1 → rec_partition r = tp.2 →
      rec_offset r = Z.of_nat (length (partition_log tp y)) → rec_offset r < i64_max →
      system_step y (y <| log := <[tp := partition_log tp y ++ [r]]> (log y) |>)
  | s_start : session y = None → system_step y (y <| session := Some (start_position y) |>)
  | s_poll tp pos r w : session y = Some pos →
      partition_log tp y !! Z.to_nat (pos tp) = Some r → 0 ≤ pos tp →
      handle (Ok r) (worker y) = (w, Ok tt) →
      system_step y (y <| worker := w |> <| session := Some (advance tp pos) |>)
  | s_poll_ends tp pos r w e : session y = Some pos →
      partition_log tp y !! Z.to_nat (pos tp) = Some r → 0 ≤ pos tp →
      handle (Ok r) (worker y) = (w, Err e) →
      system_step y (y <| worker := w |> <| session := None |>)
  | s_stop : system_step y (y <| session := None |>)
  | s_commit tp o : (tp.1, tp.2, o) ∈ committing (worker y) →
      system_step y (y <| durable := <[tp := o]> (durable y) |>)
  | s_env a : env (stores (worker y)) a →
      system_step y (y <| worker := worker y <| stores := a |> |>)
  | s_broker now sf cf :
      system_step y (y <| worker :=
        worker y <| wall_ms := now |> <| send_faults := sf |> <| commit_faults := cf |> |>).

(** A consumer about to start: nothing read, nothing queued, whatever is in the log. *)
Record fresh (y : System) : Prop := {
  fresh_session : session y = None;
  fresh_commits : committing (worker y) = [];
  fresh_log : ∀ tp i r, partition_log tp y !! i = Some r →
    rec_topic r = tp.1 ∧ rec_partition r = tp.2 ∧ rec_offset r = Z.of_nat i ∧ rec_offset r < i64_max;
}.

Definition initial (a : S) : System := {|
  log := ∅; durable := ∅; session := None;
  worker := {| stores := a; published := []; committing := []; slept := []; wall_ms := 0;
               send_faults := []; commit_faults := [] |} |}.

Lemma initial_fresh a : fresh (initial a).
Proof. split; [done|done|]. intros tp i r. unfold partition_log. simpl. by rewrite lookup_empty. Qed.

(** The record is on its dead-letter topic, verbatim and with its coordinates. *)
Definition parks (d : DeadLetter) (r : KafkaRecord) : Prop :=
  dead_topic d = rec_topic r +:+ ".dlq" ∧ dead_payload d = default "" (rec_payload r) ∧
  dead_headers d !! "x-dlq-origin-topic" = Some (rec_topic r) ∧
  dead_headers d !! "x-dlq-partition" = Some (pretty (rec_partition r)) ∧
  dead_headers d !! "x-dlq-offset" = Some (pretty (rec_offset r)).

(** ** One item *)

(** An effect that processing an event to completion establishes and that nothing
    undoes. *)
Context (Effect : T → S → Prop).
Hypothesis effect_done : ∀ e s s', process e s = (s', Done) → Effect e s'.
Hypothesis effect_kept : ∀ e e' s, Effect e s → Effect e (process e' s).1.
Hypothesis effect_env : ∀ e s s', env s s' → Effect e s → Effect e s'.

Definition settled (r : KafkaRecord) (w : Worker S) : Prop :=
  (∃ bytes e, rec_payload r = Some bytes ∧ from_slice bytes = Ok e ∧ Effect e (stores w)) ∨
  ∃ d, d ∈ published w ∧ parks d r.

(** Settled records stay settled, and nothing queued is forgotten. *)
Record grows (w w' : Worker S) : Prop := {
  grows_settled : ∀ r, settled r w → settled r w';
  grows_parked : ∀ d, d ∈ published w → d ∈ published w';
  grows_commits : committing w' = committing w;
}.

Lemma grows_refl w : grows w w.
Proof. by split. Qed.

Lemma grows_trans w1 w2 w3 : grows w1 w2 → grows w2 w3 → grows w1 w3.
Proof. intros [A1 B1 C1] [A2 B2 C2]. split; [auto|auto|congruence]. Qed.

Lemma grows_intro w w' :
  (∀ e, Effect e (stores w) → Effect e (stores w')) → (∀ d, d ∈ published w → d ∈ published w') →
  committing w' = committing w → grows w w'.
Proof.
  intros He Hp Hc. split; [|done|done].
  intros r [(b & e & Hb & Hs & Hi)|(d & Hd & Hr)]; [left; eauto 6|right; eauto].
Qed.

Lemma publish_raw_run d w w' res :
  publish_raw d w = (w', res) → grows w w' ∧ (res = Ok tt → d ∈ published w').
Proof.
  unfold publish_raw. intros Hp.
  destruct (match send_faults w with f :: _ => f | [] => None end) as [[t|t]|];
    injection Hp as <- <-; (split; [apply grows_intro; simpl; set_solver|set_solver]).
Qed.

Lemma dead_letter_parks r kind reason n now :
  parks (dead_letter_of (ConsumedMessage.of_record from_slice r) kind reason n now) r.
Proof.
  unfold parks, dead_letter_of. cbn.
  split_and!; [done|done|..]; rewrite ?lookup_insert_ne by done;
    [by apply lookup_singleton_eq|by rewrite lookup_insert_eq|by rewrite lookup_insert_eq].
Qed.

Lemma dead_letter_run r kind reason n w w' res :
  dead_letter (ConsumedMessage.of_record from_slice r) kind reason n w = (w', res) →
  grows w w' ∧ (res = Ok tt → settled r w').
Proof.
  unfold dead_letter, gets. rewrite act_bind_run. intros [Hg Hok]%publish_raw_run.
  split; [exact Hg|]. intros Hres. right. eexists. split; [by apply Hok|apply dead_letter_parks].
Qed.

Lemma call_run e w w' res :
  call process e w = (w', res) →
  grows w w' ∧ ∃ o, res = Ok o ∧ process e (stores w) = (stores w', o).
Proof.
  unfold call. destruct (process e (stores w)) as [s o] eqn:Hp. intros [= <- <-]. simpl.
  split; [|eauto]. apply grows_intro; simpl; [|done|done].
  intros e' He. pose proof (effect_kept e' e (stores w) He) as Hk. by rewrite Hp in Hk.
Qed.

Lemma attempt_run r retries n e w w' res bytes :
  rec_payload r = Some bytes → from_slice bytes = Ok e →
  attempt_from process jittered policy retries n e (ConsumedMessage.of_record from_slice r) w
    = (w', res) →
  grows w w' ∧ (res = Ok tt → settled r w').
Proof.
  intros Hb He. revert n w. induction retries as [|retries IH]; intros n w;
    cbn [attempt_from]; rewrite act_bind_run;
    destruct (call process e w) as [w1 res1] eqn:Hc; intros Hrun;
    apply call_run in Hc as (Hg & o & -> & Hp); destruct o as [|reason|reason].
  1,4: injection Hrun as <- <-; split; [done|]; intros _; left; eauto 6.
  1,2,4: apply dead_letter_run in Hrun as [Hg2 Hok]; split; [by eapply grows_trans|exact Hok].
  unfold sleep, modify in Hrun. rewrite act_bind_run in Hrun. apply IH in Hrun as [Hg2 Hok].
  split; [|exact Hok]. eapply grows_trans; [exact Hg|]. eapply grows_trans; [|exact Hg2].
  apply grows_intro; done.
Qed.

Lemma commit_run (m : ConsumedMessage.t T) (w w' : Worker S) res :
  commit m w = (w', res) →
  stores w' = stores w ∧ published w' = published w ∧
  committing w' = if is_ok res
    then committing w ++ [(ConsumedMessage.topic m, ConsumedMessage.partition m,
                           i64_add (ConsumedMessage.offset m) 1)]
    else committing w.
Proof.
  unfold commit. destruct (match commit_faults w with f :: _ => f | [] => None end);
    by intros [= <- <-].
Qed.

Lemma settled_same r w w' :
  stores w' = stores w → published w' = published w → settled r w → settled r w'.
Proof. unfold settled. by intros -> ->. Qed.

(** Whatever its outcome, an item only settles records; when its commit is queued the
    record it read is settled. *)
Lemma handle_run r w w' res :
  handle (Ok r) w = (w', res) →
  (∀ x, settled x w → settled x w') ∧
  (is_ok res = true → settled r w') ∧
  committing w' = if is_ok res
    then committing w ++ [(rec_topic r, rec_partition r, i64_add (rec_offset r) 1)]
    else committing w.
Proof.
  unfold handle, handle_item. intros Hrun. set (m := ConsumedMessage.of_record from_slice r) in *.
  rewrite act_bind_run in Hrun.
  destruct (match ConsumedMessage.payload m with
            | Ok event => attempt_from process jittered policy (attempts_left policy) 1 event m
            | Err e => dead_letter m "decode" (transport_text e) 0
            end w) as [w1 res1] eqn:Hp.
  assert (grows w w1 ∧ (res1 = Ok tt → settled r w1)) as [Hg Hok].
  { subst m. cbn [ConsumedMessage.payload ConsumedMessage.of_record] in Hp.
    destruct (rec_payload r) as [bytes|] eqn:Hb; [|by eapply dead_letter_run].
    destruct (from_slice bytes) as [e|t] eqn:He; cbn [map_err] in Hp;
      [exact (attempt_run r _ _ _ _ _ _ bytes Hb He Hp)|by eapply dead_letter_run]. }
  destruct Hg as [Hs _ Hc]. destruct res1 as [[]|err]; [|injection Hrun as <- <-; split_and!; [done|intros [=]|done]].
  apply commit_run in Hrun as (Hst & Hpub & Hcm). rewrite Hc in Hcm.
  split_and!; [|intros _|exact Hcm].
  - intros x Hx. apply (settled_same x w1); auto.
  - apply (settled_same r w1); auto.
Qed.

(** ** The invariant, of one partition from the offset [base] *)

Section Partition.
Context (tp : TopicPartition) (base : Z).

(** The group has committed on the partition before, or starts at its beginning. *)
Definition based (y : System) : Prop :=
  match durable y !! tp with
  | Some o => base = o ∧ 0 ≤ o ≤ Z.of_nat (length (partition_log tp y))
  | None => base = 0 ∧ auto_offset_reset config = Earliest
  end.

Definition covered (o : Z) (y : System) : Prop :=
  0 ≤ o ≤ Z.of_nat (length (partition_log tp y)) ∧
  ∀ i r, base ≤ Z.of_nat i < o → partition_log tp y !! i = Some r → settled r (worker y).

Record safe (y : System) : Prop := {
  safe_log : ∀ q i r, partition_log q y !! i = Some r →
    rec_topic r = q.1 ∧ rec_partition r = q.2 ∧ rec_offset r = Z.of_nat i ∧ rec_offset r < i64_max;
  safe_commits : ∀ o, (tp.1, tp.2, o) ∈ committing (worker y) → covered o y;
  safe_durable : ∀ o, durable y !! tp = Some o → covered o y;
  safe_none : durable y !! tp = None → base = 0 ∧ auto_offset_reset config = Earliest;
  safe_session : ∀ pos, session y = Some pos → covered (pos tp) y;
}.

Lemma safe_fresh y : fresh y → based y → safe y.
Proof.
  intros [Hs Hc Hl] Hb. unfold based in Hb. split; [exact Hl|..].
  - rewrite Hc. intros o []%elem_of_nil.
  - intros o Ho. rewrite Ho in Hb. destruct Hb as [-> Hb]. split; [exact Hb|]. intros i r. lia.
  - intros Hn. by rewrite Hn in Hb.
  - intros pos. by rewrite Hs.
Qed.

Lemma covered_later o y y' :
  (∀ x, settled x (worker y) → settled x (worker y')) →
  partition_log tp y `prefix_of` partition_log tp y' → covered o y → covered o y'.
Proof.
  intros Hs [l Hl] [Hb Hc]. split; [rewrite Hl, length_app; lia|].
  intros i r Hi Hr. apply Hs, (Hc i); [done|]. rewrite Hl, lookup_app_l in Hr; [done|lia].
Qed.

(** A step that only settles records and leaves log, commits, durable offsets as they
    were, or ends the session, is harmless. *)
Lemma safe_quiet y w s :
  (∀ x, settled x (worker y) → settled x w) → committing w = committing (worker y) →
  (s = session y ∨ s = None) → safe y → safe (y <| worker := w |> <| session := s |>).
Proof.
  intros Hs Hc Hsess [Hl Hcm Hd Hn Hss].
  assert (Hk : ∀ o, covered o y → covered o (y <| worker := w |> <| session := s |>))
    by (intros o; by apply covered_later).
  split; simpl; [done|rewrite Hc; auto|auto|done|].
  intros pos Hp. apply Hk, Hss. destruct Hsess; congruence.
Qed.

Lemma partition_log_insert p q l y :
  partition_log q (y <| log := <[p := l]> (log y) |>) =
    if decide (q = p) then l else partition_log q y.
Proof.
  unfold partition_log. simpl. case_decide as Hq; [subst q; by rewrite lookup_insert_eq|].
  by rewrite lookup_insert_ne by congruence.
Qed.

Lemma safe_produce y p r :
  rec_topic r = p.1 → rec_partition r = p.2 →
  rec_offset r = Z.of_nat (length (partition_log p y)) → rec_offset r < i64_max →
  safe y → safe (y <| log := <[p := partition_log p y ++ [r]]> (log y) |>).
Proof.
  intros Ht Hp Ho Hmax [Hl Hcm Hd Hn Hss].
  assert (Hk : ∀ o, covered o y →
    covered o (y <| log := <[p := partition_log p y ++ [r]]> (log y) |>)).
  { intros o. apply covered_later; [done|]. rewrite partition_log_insert.
    case_decide as Hq; [subst p; by eexists|done]. }
  split; simpl; [|auto|auto|auto|auto].
  intros q i x. rewrite partition_log_insert. case_decide as Hq; [|apply Hl].
  subst q. rewrite lookup_app_Some. intros [Hx|[Hi Hx]]; [by apply Hl|].
  apply list_lookup_singleton_Some in Hx as [Hz <-]. split_and!; try done. lia.
Qed.

Lemma safe_poll y p pos r w :
  session y = Some pos → partition_log p y !! Z.to_nat (pos p) = Some r → 0 ≤ pos p →
  handle (Ok r) (worker y) = (w, Ok tt) → safe y →
  safe (y <| worker := w |> <| session := Some (advance p pos) |>).
Proof.
  intros Hpos Hr H0 Hrun Hsafe. destruct (safe_log _ Hsafe _ _ _ Hr) as (Ht & Hp & Ho & Hmax).
  pose proof (lookup_lt_Some _ _ _ Hr) as Hlt.
  apply handle_run in Hrun as (Hs & Hset & Hc). specialize (Hset eq_refl). simpl in Hc.
  set (y' := y <| worker := w |> <| session := Some (advance p pos) |>).
  assert (Hk : ∀ o, covered o y → covered o y') by (intros o; by apply covered_later).
  assert (Hnext : p = tp → covered (pos tp + 1) y').
  { intros ->. split; [change (partition_log tp y') with (partition_log tp y); lia|].
    intros i x Hi Hx. change (partition_log tp y') with (partition_log tp y) in Hx.
    destruct (decide (Z.of_nat i = pos tp)) as [He|Hne].
    - rewrite <- He, Nat2Z.id in Hr. simplify_eq. exact Hset.
    - apply Hs. destruct (safe_session _ Hsafe pos Hpos) as [_ Hcov]. apply (Hcov i); [lia|done]. }
  destruct Hsafe as [Hl Hcm Hd Hn Hss].
  split; simpl; [exact Hl| |intros o Hq; by apply Hk, Hd|exact Hn|].
  - intros o Hin. rewrite Hc in Hin.
    apply elem_of_app in Hin as [Hin|[= Hq1 Hq2 ->]%list_elem_of_singleton]; [by apply Hk, Hcm|].
    assert (p = tp) as -> by (destruct p, tp; simpl in *; congruence).
    rewrite Ho, i64_add_small by (unfold i64_max in *; lia).
    replace (Z.of_nat (Z.to_nat (pos tp)) + 1) with (pos tp + 1) by lia. by apply Hnext.
  - intros pos' [= <-]. unfold advance. case_decide as Hq; [by apply Hnext|]. by apply Hk, Hss.
Qed.

Lemma safe_step y y' : system_step y y' → safe y → safe y'.
Proof.
  intros Hst Hsafe.
  destruct Hst as [p r Ht Hp Ho Hmax|Hnone|p pos r w Hpos Hr H0 Hrun|p pos r w e Hpos Hr H0 Hrun
                  | |p o Hin|a Ha|now sf cf].
  - by apply safe_produce.
  - destruct Hsafe as [Hl Hcm Hd Hn Hss]. split; simpl; try done. intros pos [= <-].
    unfold start_position. destruct (durable y !! tp) eqn:Hdur; [by apply Hd|].
    destruct (Hn eq_refl) as [_ ->]. split; [lia|]. intros i r. lia.
  - by eapply safe_poll.
  - pose proof (handle_run r (worker y) w (Err e) Hrun) as (Hs & _ & Hc).
    apply (safe_quiet y w None); auto.
  - apply (safe_quiet y (worker y) None); auto.
  - destruct Hsafe as [Hl Hcm Hd Hn Hss]. split; simpl; try done.
    + intros o'. destruct (decide (tp = p)) as [->|Hq].
      * rewrite lookup_insert_eq. intros [= <-]. by apply Hcm.
      * rewrite lookup_insert_ne by congruence. apply Hd.
    + destruct (decide (tp = p)) as [->|Hq]; [by rewrite lookup_insert_eq|].
      by rewrite lookup_insert_ne by congruence.
  - eapply (safe_quiet y _ (session y)); [|done|by left|done].
    intros x [(b & ev & Hb & Hs & He)|Hx]; [left|by right]. exists b, ev. eauto.
  - eapply (safe_quiet y _ (session y)); [|done|by left|done]. intros x. by apply settled_same.
Qed.

Lemma durable_means_settled y0 y o i r :
  fresh y0 → based y0 → star system_step y0 y →
  durable y !! tp = Some o → base ≤ Z.of_nat i < o → partition_log tp y !! i = Some r →
  settled r (worker y).
Proof.
  intros Hf Hb Hst Hd Hi Hr.
  assert (Hsafe : safe y).
  { revert Hst. apply star_invariant; [by apply safe_fresh|]. intros y1 y2. by apply safe_step. }
  destruct (safe_durable _ Hsafe o Hd) as [_ Hc]. by apply (Hc i).
Qed.
End Partition.

(** C23. No record is skipped.  A consumer group that has committed on a partition before, or
    starts it at the earliest offset, is rebuilt by its supervisor after any stream error,
    refused dead letter or crash, while its commits become durable in any order or never.
    Every record between its first offset and a durable one had its effect on the handler's
    stores or is on the dead-letter topic, verbatim and with its coordinates. *)
Theorem no_record_is_skipped (tp : TopicPartition) (base : Z) (y0 y : System) (o : Z) (i : nat)
    (r : KafkaRecord) :
  fresh y0 → based tp base y0 → star system_step y0 y →
  durable y !! tp = Some o → base ≤ Z.of_nat i < o → partition_log tp y !! i = Some r →
  settled r (worker y).
Proof. apply durable_means_settled. Qed.
End Supervised.

(** ** The retry loop *)

Section Attempts.
Context {S T : Type}.
Context (process : T → S → S * ProcessOutcome) (jittered : Z → Z) (policy : RetryPolicy).

(** The stores after [k] attempts, and the outcome of the attempt after them. *)
Definition after (e : T) (k : nat) (s : S) : S := Nat.iter k (λ s, (process e s).1) s.
Definition outcome_of (e : T) (k : nat) (s : S) : ProcessOutcome := (process e (after e k s)).2.

Definition is_retry (o : ProcessOutcome) : bool := match o with Retry _ => true | _ => false end.

Lemma after_succ e k s : after e (Datatypes.S k) s = after e k (process e s).1.
Proof. unfold after. by rewrite Nat.iter_succ_r. Qed.

Lemma dead_letter_keeps (m : ConsumedMessage.t T) kind reason n (w w' : Worker S) res :
  dead_letter m kind reason n w = (w', res) → stores w' = stores w ∧ slept w' = slept w.
Proof.
  unfold dead_letter, gets, publish_raw. rewrite act_bind_run.
  destruct (match send_faults w with f :: _ => f | [] => None end) as [[t|t]|];
    by intros [= <- <-].
Qed.

(** Retries are bounded and spaced.  Processing one message makes at most
    [max_attempts] attempts (one when that is zero), retries only after retryable
    failures, sleeps the capped exponential backoff between attempts and at the end either
    is done with nothing published, or has tried to dead-letter the message for the last
    attempt's reason; a cap on a backoff is never exceeded. *)
Theorem retries_are_bounded (m : ConsumedMessage.t T) (retries : nat) (n : Z) (e : T)
    (w w' : Worker S) (res : result TransportError unit) :
  0 ≤ base_backoff policy → 0 ≤ max_backoff policy →
  attempt_from process jittered policy retries n e m w = (w', res) →
  ∃ k, (k ≤ retries)%nat ∧
    (∀ j, (j < k)%nat → is_retry (outcome_of e j (stores w)) = true) ∧
    stores w' = after e (Datatypes.S k) (stores w) ∧
    slept w' = slept w ++ ((λ j, backoff_for jittered policy (n + Z.of_nat j)) <$> seq 0 k) ∧
    (∀ j, 0 ≤ backoff_cap policy j ≤ max_backoff policy) ∧
    match outcome_of e k (stores w) with
    | Done => res = Ok tt ∧ published w' = published w
    | Reject reason => ∃ w1, dead_letter m "reject" reason (n + Z.of_nat k) w1 = (w', res)
    | Retry reason => k = retries ∧
        ∃ w1, dead_letter m "retry-exhausted" reason (n + Z.of_nat k) w1 = (w', res)
    end.
Proof.
  intros Hbase Hmax.
  assert (Hcap : ∀ j, 0 ≤ backoff_cap policy j ≤ max_backoff policy).
  { intros j. unfold backoff_cap, DURATION_MAX, u64_max.
    assert (0 ≤ base_backoff policy * 2 ^ Z.min (Z.max 0 (j - 1)) 31)
      by (apply Z.mul_nonneg_nonneg; lia). lia. }
  enough (Hloop : ∀ n w, attempt_from process jittered policy retries n e m w = (w', res) →
    ∃ k, (k ≤ retries)%nat ∧ (∀ j, (j < k)%nat → is_retry (outcome_of e j (stores w)) = true) ∧
      stores w' = after e (Datatypes.S k) (stores w) ∧
      slept w' = slept w ++ ((λ j, backoff_for jittered policy (n + Z.of_nat j)) <$> seq 0 k) ∧
      match outcome_of e k (stores w) with
      | Done => res = Ok tt ∧ published w' = published w
      | Reject reason => ∃ w1, dead_letter m "reject" reason (n + Z.of_nat k) w1 = (w', res)
      | Retry reason => k = retries ∧
          ∃ w1, dead_letter m "retry-exhausted" reason (n + Z.of_nat k) w1 = (w', res)
      end).
  { intros (k & H1 & H2 & H3 & H4 & H5)%Hloop. exists k. split_and!; auto. }
  clear n w Hcap. induction retries as [|retries IH]; intros n w; cbn [attempt_from];
    rewrite act_bind_run; unfold call; destruct (process e (stores w)) as [s o] eqn:Hp;
    intros Hrun; assert (Ho : outcome_of e 0 (stores w) = o) by (unfold outcome_of, after; simpl; by rewrite Hp);
    assert (Hs : s = (process e (stores w)).1) by (by rewrite Hp).
  all: destruct o as [|reason|reason].
  1,4: injection Hrun as <- <-; exists 0%nat; rewrite Ho; simpl; rewrite app_nil_r;
       split_and!; [lia|lia|exact Hs|done|done|done].
  1,2,4: exists 0%nat; rewrite Ho; simpl; rewrite app_nil_r, Z.add_0_r;
    pose proof (dead_letter_keeps _ _ _ _ _ _ _ Hrun) as [Hst Hsl];
    split_and!; [lia|lia|rewrite Hst; exact Hs|exact Hsl|..]; eauto.
  unfold sleep, modify in Hrun. rewrite act_bind_run in Hrun. simpl in Hrun.
  apply IH in Hrun as (k & Hk & Hret & Hst & Hsl & Hend). simpl in *.
  exists (Datatypes.S k). assert (Hout : ∀ j, outcome_of e (Datatypes.S j) (stores w) = outcome_of e j s).
  { intros j. unfold outcome_of. by rewrite after_succ, <- Hs. }
  rewrite Hout. replace (n + Z.of_nat (Datatypes.S k)) with (n + 1 + Z.of_nat k) by lia.
  split_and!; [lia| | | |].
  - intros [|j] Hj; [by rewrite Ho|]. rewrite Hout. apply Hret. lia.
  - rewrite after_succ, <- Hs. exact Hst.
  - rewrite Hsl, <- app_assoc. f_equal. cbn [seq fmap list_fmap app]. f_equal; [f_equal; lia|].
    rewrite <- seq_shift, <- list_fmap_compose. apply list_fmap_ext. intros _ j _. simpl. f_equal. lia.
  - destruct (outcome_of e k s) as [|reason'|reason']; [done| |done]. destruct Hend as [-> Hd]. eauto.
Qed.
End Attempts.

(** ** Concrete runs *)

Module Demo.
(** A handler that keeps the texts it is given and rejects ["bad"]. *)
Definition process (e : string) (s : list string) : list string * ProcessOutcome :=
  if bool_decide (e = "bad") then (s, Reject "bad") else (s ++ [e], Done).

Definition record (offset : Z) (payload : string) : KafkaRecord := {|
  rec_topic := "t"; rec_partition := 0; rec_offset := offset; rec_key := None; rec_headers := [];
  rec_timestamp := None; rec_payload := Some payload |}.

Definition Effect (e : string) (s : list string) : Prop := e ∈ s.
Definition nobody (s s' : list string) : Prop := s = s'.

Abbreviation reaches config := (star (system_step (Ok (E := string)) process (λ d, d) default_policy
  config nobody)).

Definition earliest : ConsumerConfig := {|
  group_id := "g"; auto_offset_reset := Earliest; enable_auto_commit := false;
  heartbeat_interval_ms := 3000; session_timeout_ms := 10000 |}.

Lemma effect_done e s s' : process e s = (s', Done) → Effect e s'.
Proof. unfold process, Effect. case_bool_decide; intros [=]; subst. set_solver. Qed.
Lemma effect_kept e e' s : Effect e s → Effect e (process e' s).1.
Proof. unfold process, Effect. case_bool_decide; simpl; set_solver. Qed.
Lemma effect_env e s s' : nobody s s' → Effect e s → Effect e s'.
Proof. by intros <-. Qed.

Definition start : System := initial (S := list string) [].
Definition tp : string * Z := ("t", 0).

(** A record is produced, read, dead-lettered and committed. *)
Definition produced : System := start <| log := {[tp := [record 0 "bad"]]} |>.
Definition reading : System := produced <| session := Some (start_position earliest produced) |>.
Definition after_item : Worker (list string) :=
  (handle (Ok (E := string)) process (λ d, d) default_policy (Ok (record 0 "bad")) (worker reading)).1.
Definition committed : System :=
  (reading <| worker := after_item |> <| session := Some (advance tp (start_position earliest produced)) |>)
    <| durable := {[tp := 1]} |>.

Lemma committed_reachable : reaches earliest start committed.
Proof.
  eapply star_step; [by apply (s_produce _ _ _ _ _ _ _ tp (record 0 "bad"))|].
  eapply star_step; [by apply s_start|].
  eapply star_step; [eapply (s_poll _ _ _ _ _ _ _ tp _ (record 0 "bad")); [done|done|done|]; reflexivity|].
  eapply star_step; [apply (s_commit _ _ _ _ _ _ _ tp 1); by left|]. apply star_refl.
Qed.

Lemma no_record_is_skipped_witness : settled (Ok (E := string)) Effect (record 0 "bad") (worker committed).
Proof.
  apply (no_record_is_skipped (Ok (E := string)) process (λ d, d) default_policy earliest nobody Effect
    effect_done effect_kept effect_env tp 0 start committed 1 0 (record 0 "bad"));
    [apply initial_fresh|by split|exact committed_reachable|reflexivity|done|reflexivity].
Defined.

Definition flaky (e : string) (s : nat) : nat * ProcessOutcome :=
  (S s, if (s <? 2)%nat then Retry "down" else Done).
Definition fresh_worker : Worker nat := worker (initial 0%nat).
Definition demo_message : ConsumedMessage.t string := ConsumedMessage.of_record (Ok (E := string)) (record 0 "x").
Definition demo_attempts :=
  attempt_from flaky (λ d, d) default_policy (attempts_left default_policy) 1 "x" demo_message fresh_worker.

Lemma retries_are_bounded_witness :
  demo_attempts.2 = Ok tt ∧ slept demo_attempts.1 = [100000000; 200000000] ∧
  ∃ k, (k ≤ 4)%nat ∧ stores demo_attempts.1 = after flaky "x" (S k) 0%nat.
Proof.
  split_and!; [reflexivity|reflexivity|].
  destruct (retries_are_bounded flaky (λ d, d) default_policy demo_message
    (attempts_left default_policy) 1 "x" fresh_worker demo_attempts.1 demo_attempts.2)
    as (k & Hk & _ & Hst & _); [done|done|apply surjective_pairing|].
  exists k. split; [exact Hk|exact Hst].
Defined.

(** ** The default offset reset *)

(** The configuration [build_consumer] of the audit worker uses. *)
Definition audit_config : ConsumerConfig := ConsumerConfig_new "audit-ingest".
Definition broker_down : list (option SendFault) := [Some (NotSent "down")].

(** The default reset policy loses records.  With [ConsumerConfig::new] as the audit
    worker uses it, a record that could be neither processed nor dead-lettered is dropped
    when the supervisor rebuilds the consumer before the group's first commit: the
    restarted consumer starts at the end of the log and commits past the record. *)
Theorem latest_reset_skips_a_record :
  ∃ y, reaches audit_config start y ∧ durable y !! tp = Some 2 ∧
    partition_log tp y !! 0%nat = Some (record 0 "bad") ∧
    ¬ settled (Ok (E := string)) Effect (record 0 "bad") (worker y).
Proof.
  eexists. split_and!.
  - eapply star_step; [by apply s_start|].
    eapply star_step; [by apply (s_produce _ _ _ _ _ _ _ tp (record 0 "bad"))|].
    eapply star_step; [apply (s_broker _ _ _ _ _ _ _ 0 broker_down [])|].
    eapply star_step; [eapply (s_poll_ends _ _ _ _ _ _ _ tp _ (record 0 "bad")); [done|done|done|]; reflexivity|].
    eapply star_step; [by apply s_start|].
    eapply star_step; [by apply (s_produce _ _ _ _ _ _ _ tp (record 1 "good"))|].
    eapply star_step; [eapply (s_poll _ _ _ _ _ _ _ tp _ (record 1 "good")); [done|done|done|]; reflexivity|].
    eapply star_step; [apply (s_commit _ _ _ _ _ _ _ tp 2); by left|]. apply star_refl.
  - reflexivity.
  - reflexivity.
  - intros [(b & e & [= <-] & [= <-] & Hin)|(d & Hd & _)].
    + apply list_elem_of_singleton in Hin. discriminate.
    + by apply elem_of_nil in Hd.
Qed.
End Demo.
