(* ===== verification/AuditDecode.v ===== *)
(** * Audit: decoding the feeds

    Models [crates/services/audit/src/infrastructure/{decode,account_decode,auth_decode,
    moderation_decode}.rs]: the wire shapes the consumers read and the audit events they
    become, and the shape the account service's own events take on the wire
    ([crates/services/account/src/domain/event]).  serde's JSON codec, base64, RFC 3339
    rendering and name-based UUIDs are parameters. *)

From stdpp Require Import pretty.
From S2P Require Import Prelude AccountDomain AuditChain.
Local Open Scope Z_scope.

(** [Uuid::new_v5(namespace, name)], chrono's [to_rfc3339] and [from_timestamp_millis]
    ([None] out of range), base64's standard alphabet. *)
Class FeedText := {
  new_v5 : Uuid → string → Uuid;
  to_rfc3339 : Z → string;
  from_timestamp_millis : Z → option Z;
  b64_decode : string → option Bytes;
  b64_error : string → string;
}.

(** [BTreeMap::insert] on the association list in key order. *)
Fixpoint btree_insert {V} (k : string) (v : V) (l : list (string * V)) : list (string * V) :=
  match l with
  | [] => [(k, v)]
  | (x, u) :: l' =>
      if String.eqb k x then (k, v) :: l'
      else if String.leb k x then (k, v) :: l else (x, u) :: btree_insert k v l'
  end.

(** [.map(f).transpose()?] *)
Definition transpose {E A} (o : option (result E A)) : result E (option A) :=
  match o with
  | None => Ok None
  | Some (Ok a) => Ok (Some a)
  | Some (Err e) => Err e
  end.

Definition join (parts : list string) : string := String.concat ":" parts.

(** ** [account.v1.events] *)

Module BareAccountEventWire.
Record t := mk { account_id : string; occurred_at : Z; correlation_id : string }.
End BareAccountEventWire.

Module AccountCreatedWire.
Record t := mk {
  account_id : string; email : string; role : string; status : string;
  country_of_residence : option string; occurred_at : Z; correlation_id : string }.

Definition pii_plaintext (w : t) : string :=
  "email=" +:+ email w +:+ ";country=" +:+ default "" (country_of_residence w).
End AccountCreatedWire.

Module EmailChangedWire.
Record t := mk {
  account_id : string; old_email : string; new_email : string; occurred_at : Z;
  correlation_id : string }.

Definition pii_plaintext (w : t) : string :=
  "old_email=" +:+ old_email w +:+ ";new_email=" +:+ new_email w.
End EmailChangedWire.

Module EmailVerifiedWire.
Record t := mk { account_id : string; email : string; occurred_at : Z; correlation_id : string }.

Definition pii_plaintext (w : t) : string := "email=" +:+ email w.
End EmailVerifiedWire.

Module PhoneChangedWire.
Record t := mk {
  account_id : string; new_phone : option string; occurred_at : Z; correlation_id : string }.

Definition pii_plaintext (w : t) : option string := (λ p, "phone=" +:+ p) <$> new_phone w.
End PhoneChangedWire.

Module MfaEnrolledWire.
Record t := mk {
  account_id : string; recovery_codes_count : Z; occurred_at : Z; correlation_id : string }.
End MfaEnrolledWire.

Module RoleWire.
Record t := mk { account_id : string; role : string; occurred_at : Z; correlation_id : string }.
End RoleWire.

Module AccountSuspendedWire.
Record t := mk { account_id : string; reason : string; occurred_at : Z; correlation_id : string }.
End AccountSuspendedWire.

Module AccountDeletedWire.
Record t := mk {
  account_id : string; deleted_by : option string; occurred_at : Z; correlation_id : string }.
End AccountDeletedWire.

Module KycStatusChangedWire.
Record t := mk {
  account_id : string; old_status : string; new_status : string; occurred_at : Z;
  correlation_id : string }.
End KycStatusChangedWire.

Module GdprDeletionRequestedWire.
Record t := mk {
  account_id : string; retention_days : Z; scheduled_deletion_at : Z; occurred_at : Z;
  correlation_id : string }.
End GdprDeletionRequestedWire.

Module GdprDataExportRequestedWire.
Record t := mk { account_id : string; occurred_at : Z; correlation_id : string }.
End GdprDataExportRequestedWire.

Module AccountEventWire.
Inductive t :=
  | AccountCreated (w : AccountCreatedWire.t)
  | EmailChanged (w : EmailChangedWire.t)
  | EmailVerified (w : EmailVerifiedWire.t)
  | PhoneChanged (w : PhoneChangedWire.t)
  | PasswordChanged (w : BareAccountEventWire.t)
  | MfaEnrolled (w : MfaEnrolledWire.t)
  | MfaRevoked (w : BareAccountEventWire.t)
  | RoleAssigned (w : RoleWire.t)
  | RoleRevoked (w : RoleWire.t)
  | AccountSuspended (w : AccountSuspendedWire.t)
  | AccountActivated (w : BareAccountEventWire.t)
  | AccountDeactivated (w : BareAccountEventWire.t)
  | AccountDeleted (w : AccountDeletedWire.t)
  | KycStatusChanged (w : KycStatusChangedWire.t)
  | GdprDeletionRequested (w : GdprDeletionRequestedWire.t)
  | GdprDataExportRequested (w : GdprDataExportRequestedWire.t)
  | Other.
End AccountEventWire.

(** The JSON of an account [DomainEvent] as [AccountEventWire] reads it: fields by name,
    identifiers as hyphenated text, enums in snake case, the fields it lacks dropped. *)
Definition account_wire `{UuidText} (e : DomainEvent) : AccountEventWire.t :=
  match e with
  | AccountCreated a _ email role status country t c => AccountEventWire.AccountCreated
      (AccountCreatedWire.mk (hyphenated a) email (account_role_str role)
         (account_status_str status) country t (hyphenated c))
  | EmailVerified a email _ t c =>
      AccountEventWire.EmailVerified (EmailVerifiedWire.mk (hyphenated a) email t (hyphenated c))
  | PasswordChanged a t c =>
      AccountEventWire.PasswordChanged (BareAccountEventWire.mk (hyphenated a) t (hyphenated c))
  | EmailChanged a old new t c =>
      AccountEventWire.EmailChanged (EmailChangedWire.mk (hyphenated a) old new t (hyphenated c))
  | PhoneChanged a phone t c =>
      AccountEventWire.PhoneChanged (PhoneChangedWire.mk (hyphenated a) phone t (hyphenated c))
  | MfaEnrolled a n t c =>
      AccountEventWire.MfaEnrolled (MfaEnrolledWire.mk (hyphenated a) (Z.of_nat n) t (hyphenated c))
  | MfaRevoked a t c =>
      AccountEventWire.MfaRevoked (BareAccountEventWire.mk (hyphenated a) t (hyphenated c))
  | RoleAssigned a r t c =>
      AccountEventWire.RoleAssigned (RoleWire.mk (hyphenated a) (account_role_str r) t (hyphenated c))
  | RoleRevoked a r t c =>
      AccountEventWire.RoleRevoked (RoleWire.mk (hyphenated a) (account_role_str r) t (hyphenated c))
  | AccountSuspended a reason t c => AccountEventWire.AccountSuspended
      (AccountSuspendedWire.mk (hyphenated a) reason t (hyphenated c))
  | AccountActivated a t c =>
      AccountEventWire.AccountActivated (BareAccountEventWire.mk (hyphenated a) t (hyphenated c))
  | AccountDeactivated a t c =>
      AccountEventWire.AccountDeactivated (BareAccountEventWire.mk (hyphenated a) t (hyphenated c))
  | AccountDeleted a by_ t c => AccountEventWire.AccountDeleted
      (AccountDeletedWire.mk (hyphenated a) (hyphenated <$> by_) t (hyphenated c))
  | KycStatusChanged a old new t c => AccountEventWire.KycStatusChanged
      (KycStatusChangedWire.mk (hyphenated a) (kyc_status_str old) (kyc_status_str new) t (hyphenated c))
  | GdprDeletionRequested a days at_ t c => AccountEventWire.GdprDeletionRequested
      (GdprDeletionRequestedWire.mk (hyphenated a) days at_ t (hyphenated c))
  | GdprDataExportRequested a _ t c => AccountEventWire.GdprDataExportRequested
      (GdprDataExportRequestedWire.mk (hyphenated a) t (hyphenated c))
  end.

(** ** [auth.v1.events] *)

Module SessionIssuedWire.
Record t := mk {
  session_id : string; account_id : string; generation : Z; expires_at : Z;
  absolute_expiry : Z; occurred_at : Z; correlation_id : string }.
End SessionIssuedWire.

Module SessionRevokedWire.
Record t := mk {
  session_id : string; account_id : string; generation : Z; reason : string; occurred_at : Z;
  correlation_id : string }.
End SessionRevokedWire.

Module AuthEventWire.
Inductive t :=
  | SessionIssued (w : SessionIssuedWire.t)
  | SessionRevoked (w : SessionRevokedWire.t)
  | Other.
End AuthEventWire.

(** ** [moderation.v1.events] *)

Module SubjectRefWire.
Record t := mk { entity_type : string; entity_id : string; actor_id : string; surface : string }.
End SubjectRefWire.

Inductive DecisionAuthorWire := Reviewer (id : string) | Rule (id : string).

Module DecisionRecordedWire.
Record t := mk {
  decision_id : string; subject : SubjectRefWire.t; author : DecisionAuthorWire;
  action : string; category : string; policy_version : string; rationale : string;
  reverses : option string; occurred_at : Z; correlation_id : string }.
End DecisionRecordedWire.

Module EnforcementAppliedWire.
Record t := mk {
  enforcement_id : string; subject : SubjectRefWire.t; action : string; version : Z;
  expires_at : option Z; occurred_at : Z; correlation_id : string }.
End EnforcementAppliedWire.

Module ModerationEventWire.
Inductive t :=
  | DecisionRecorded (w : DecisionRecordedWire.t)
  | EnforcementApplied (w : EnforcementAppliedWire.t)
  | Other.
End ModerationEventWire.

(** ** [audit.v1.events] *)

Module PiiWire.
Record t := mk {
  subject_key_ref : string; ciphertext_b64 : string; nonce_b64 : string; algorithm : string }.
End PiiWire.

Module AuditEventWire.
Record t := mk {
  event_id : string; category : string; subject_pseudonym : option string;
  tenant_id : option string; actor_type : string; actor_pseudonym : string;
  session_ref : string; action : string; resource_type : string; resource_id : string;
  outcome : string; lawful_basis : option string; source_service : string;
  correlation_id : string; occurred_at_ms : Z; pii : option PiiWire.t;
  attributes : list (string * string) }.
End AuditEventWire.

Definition category_from_str (s : string) : result AuditError EventCategory :=
  match s with
  | "authentication" => Ok Authentication
  | "authorization" => Ok Authorization
  | "moderation" => Ok Moderation
  | "consent" => Ok Consent
  | "data_access" => Ok DataAccess
  | "data_export" => Ok DataExport
  | "data_erasure" => Ok DataErasure
  | "privileged_action" => Ok PrivilegedAction
  | "retention" => Ok Retention
  | other => Err (UnknownEventCategory other)
  end%string.

Definition actor_type_from_str (s : string) : ActorType :=
  match s with
  | "user" => UserActor
  | "admin" => AdminActor
  | "service" => ServiceActor
  | _ => SystemActor
  end%string.

Definition outcome_from_str (s : string) : result AuditError EventOutcome :=
  match s with
  | "permitted" => Ok Permitted
  | "denied" => Ok Denied
  | "executed" => Ok Executed
  | "failed" => Ok Failed
  | other => Err (MalformedAuditEvent ("unknown outcome '" +:+ other +:+ "'"))
  end%string.

Definition lawful_basis_from_str (s : string) : LawfulBasis :=
  match s with
  | "consent" => BasisConsent
  | "contract" => Contract
  | "legal_obligation" => LegalObligation
  | "vital_interests" => VitalInterests
  | "public_task" => PublicTask
  | "legitimate_interests" => LegitimateInterests
  | _ => Unspecified
  end%string.

(** [value.filter(|v| !v.trim().is_empty())] *)
Definition non_blank (value : option string) : option string :=
  match value with
  | Some v => if trim_is_empty v then None else Some v
  | None => None
  end.

Section Decode.
Context `{UuidText} `{FeedText}.

Definition derive_id (namespace : Uuid) (parts : list string) : string :=
  hyphenated (new_v5 namespace (join parts)).

Definition NS_AUDIT_ACCOUNT : Uuid := 0x61756469745f616363745f6576745f35%N.
Definition SOURCE_ACCOUNT : string := "account".

(** The fields every feed's event shares. *)
Definition feed_event (id : string) (cat : EventCategory) (subject_id : string)
    (actor_ty : ActorType) (actor_id session : string) (act : string) (res : ResourceRef)
    (out : EventOutcome) (basis : LawfulBasis) (source correlation : string) (at_ : Z)
    (envelope : option PiiEnvelope) (attrs : list (string * string)) :
    result AuditError AuditEvent :=
  event_id ← string_id "event_id" id;
  subject ← string_id "subject_pseudonym" subject_id;
  pseudonym ← string_id "actor_pseudonym" actor_id;
  try_new {|
    AuditChain.event_id := event_id; category := cat; AuditChain.subject := Some subject;
    tenant := None;
    actor := {| actor_type := actor_ty; actor_pseudonym := pseudonym; session_ref := session |};
    action := act; resource := res; outcome := out; lawful_basis := basis;
    source_service := source; correlation_id := correlation; occurred_at := at_;
    pii := envelope; attributes := attrs |}.

Definition account_event (act : string) (cat : EventCategory) (actor_ty : ActorType)
    (actor_id account_id : string) (at_ : Z) (correlation : string) (basis : LawfulBasis)
    (envelope : option PiiEnvelope) (attrs : list (string * string)) :
    result AuditError AuditEvent :=
  feed_event (derive_id NS_AUDIT_ACCOUNT [act; account_id; to_rfc3339 at_]) cat account_id
    actor_ty actor_id "" act {| resource_type := "account"; resource_id := account_id |}
    Executed basis SOURCE_ACCOUNT correlation at_ envelope attrs.

Definition insert_non_empty (k v : string) (l : list (string * string)) : list (string * string) :=
  if String.eqb v "" then l else btree_insert k v l.

Definition map_account_created (w : AccountCreatedWire.t) (sealed_pii : PiiEnvelope) :=
  let '(AccountCreatedWire.mk account_id _ role status _ t c) := w in
  account_event "account.created" Identity SystemActor SOURCE_ACCOUNT account_id t c Contract
    (Some sealed_pii) (insert_non_empty "status" status (insert_non_empty "role" role [])).

Definition map_email_changed (w : EmailChangedWire.t) (sealed_pii : PiiEnvelope) :=
  let '(EmailChangedWire.mk account_id _ _ t c) := w in
  account_event "account.email_changed" Authentication UserActor account_id account_id t c
    Contract (Some sealed_pii) [].

Definition map_email_verified (w : EmailVerifiedWire.t) (sealed_pii : PiiEnvelope) :=
  let '(EmailVerifiedWire.mk account_id _ t c) := w in
  account_event "account.email_verified" Authentication UserActor account_id account_id t c
    Contract (Some sealed_pii) [].

Definition map_phone_changed (w : PhoneChangedWire.t) (sealed_pii : option PiiEnvelope) :=
  let '(PhoneChangedWire.mk account_id new_phone t c) := w in
  account_event "account.phone_changed" Authentication UserActor account_id account_id t c
    (match sealed_pii with Some _ => Contract | None => Unspecified end) sealed_pii
    (match new_phone with None => btree_insert "phone_removed" "true" [] | Some _ => [] end).

Definition map_gdpr_deletion_requested (w : GdprDeletionRequestedWire.t) :=
  let '(GdprDeletionRequestedWire.mk account_id retention_days scheduled t c) := w in
  account_event "account.gdpr_deletion_requested" DataErasure UserActor account_id account_id t c
    LegalObligation None
    (btree_insert "scheduled_deletion_at" (to_rfc3339 scheduled)
       (btree_insert "retention_days" (pretty retention_days) [])).

Definition map_gdpr_data_export_requested (w : GdprDataExportRequestedWire.t) :=
  let '(GdprDataExportRequestedWire.mk account_id t c) := w in
  account_event "account.gdpr_data_export_requested" DataExport UserActor account_id account_id
    t c LegalObligation None [].

Definition bare (w : BareAccountEventWire.t) (act : string) (cat : EventCategory)
    (actor_ty : ActorType) :=
  let '(BareAccountEventWire.mk account_id t c) := w in
  account_event act cat actor_ty
    (match actor_ty with UserActor => account_id | _ => SOURCE_ACCOUNT end) account_id t c
    Unspecified None [].

Definition map_password_changed w := bare w "account.password_changed" Authentication UserActor.
Definition map_mfa_revoked w := bare w "account.mfa_revoked" Authentication UserActor.

Definition map_mfa_enrolled (w : MfaEnrolledWire.t) :=
  let '(MfaEnrolledWire.mk account_id count t c) := w in
  account_event "account.mfa_enrolled" Authentication UserActor account_id account_id t c
    Unspecified None (btree_insert "recovery_codes_count" (pretty count) []).

Definition map_account_activated w := bare w "account.activated" Identity SystemActor.
Definition map_account_deactivated w := bare w "account.deactivated" Identity SystemActor.

Definition map_account_suspended (w : AccountSuspendedWire.t) :=
  let '(AccountSuspendedWire.mk account_id reason t c) := w in
  account_event "account.suspended" Identity SystemActor SOURCE_ACCOUNT account_id t c
    Unspecified None (insert_non_empty "reason" reason []).

Definition map_account_deleted (w : AccountDeletedWire.t) :=
  let '(AccountDeletedWire.mk account_id deleted_by t c) := w in
  let '(actor_ty, actor_id) := match deleted_by with
                               | Some admin => (AdminActor, admin)
                               | None => (SystemActor, SOURCE_ACCOUNT)
                               end in
  account_event "account.deleted" Identity actor_ty actor_id account_id t c Unspecified None [].

Definition role_event (w : RoleWire.t) (act : string) :=
  let '(RoleWire.mk account_id role t c) := w in
  account_event act Authorization SystemActor SOURCE_ACCOUNT account_id t c Unspecified None
    (btree_insert "role" role []).

Definition map_role_assigned w := role_event w "account.role_assigned".
Definition map_role_revoked w := role_event w "account.role_revoked".

Definition map_kyc_status_changed (w : KycStatusChangedWire.t) :=
  let '(KycStatusChangedWire.mk account_id old_status new_status t c) := w in
  account_event "account.kyc_status_changed" Identity SystemActor SOURCE_ACCOUNT account_id t c
    Unspecified None
    (btree_insert "new_status" new_status (btree_insert "old_status" old_status [])).

(** *** Sessions *)

Definition NS_AUDIT_AUTH : Uuid := 0x61756469745f617574685f6576745f35%N.
Definition SOURCE_AUTH : string := "auth".

Definition session_resource (id : string) : ResourceRef :=
  {| resource_type := "session"; resource_id := id |}.

Definition map_session_issued (w : SessionIssuedWire.t) : result AuditError AuditEvent :=
  let '(SessionIssuedWire.mk session_id account_id generation expires_at absolute_expiry t c) := w in
  feed_event (derive_id NS_AUDIT_AUTH ["auth.session_issued"; session_id]) Authentication
    account_id UserActor account_id session_id "auth.session_issued" (session_resource session_id)
    Executed Unspecified SOURCE_AUTH c t None
    (btree_insert "absolute_expiry" (to_rfc3339 absolute_expiry)
      (btree_insert "expires_at" (to_rfc3339 expires_at)
        (btree_insert "generation" (pretty generation) (btree_insert "session_id" session_id [])))).

(** The authority a revocation reason stands for. *)
Definition revoking_actor (reason account_id : string) : ActorType * string :=
  if String.eqb reason "administrative" then (AdminActor, SOURCE_AUTH)
  else if String.eqb reason "logout" || String.eqb reason "global_logout"
  then (UserActor, account_id)
  else (SystemActor, SOURCE_AUTH).

Definition map_session_revoked (w : SessionRevokedWire.t) : result AuditError AuditEvent :=
  let '(SessionRevokedWire.mk session_id account_id generation reason t c) := w in
  let '(actor_ty, actor_id) := revoking_actor reason account_id in
  feed_event (derive_id NS_AUDIT_AUTH ["auth.session_revoked"; session_id]) Authentication
    account_id actor_ty actor_id session_id "auth.session_revoked" (session_resource session_id)
    Executed Unspecified SOURCE_AUTH c t None
    (btree_insert "reason" reason
      (btree_insert "generation" (pretty generation) (btree_insert "session_id" session_id []))).

(** *** Moderation *)

Definition NS_AUDIT_MODERATION : Uuid := 0x61756469745f6d6f645f6576745f7635%N.
Definition SOURCE_MODERATION : string := "moderation".

Definition subject_resource (s : SubjectRefWire.t) : ResourceRef :=
  {| resource_type := SubjectRefWire.entity_type s; resource_id := SubjectRefWire.entity_id s |}.

Definition map_decision_recorded (w : DecisionRecordedWire.t) (sealed_rationale : PiiEnvelope) :
    result AuditError AuditEvent :=
  let '(DecisionRecordedWire.mk decision_id subject author action category policy_version _
          reverses t c) := w in
  let out := if String.eqb action "no_action" then Permitted else Executed in
  let '(actor_ty, author_id, author_kind) := match author with
    | Reviewer id => (AdminActor, id, "reviewer")
    | Rule id => (SystemActor, id, "rule")
    end in
  let attrs := btree_insert "author_kind" author_kind
    (btree_insert "category" category
      (btree_insert "policy_version" policy_version (btree_insert "decision_id" decision_id []))) in
  let attrs := match reverses with Some r => btree_insert "reverses" r attrs | None => attrs end in
  feed_event (derive_id NS_AUDIT_MODERATION ["moderation.decision_recorded"; decision_id])
    Moderation (SubjectRefWire.actor_id subject) actor_ty author_id ""
    ("moderation.decide." +:+ action) (subject_resource subject) out LegalObligation
    SOURCE_MODERATION c t (Some sealed_rationale) attrs.

Definition map_enforcement_applied (w : EnforcementAppliedWire.t) : result AuditError AuditEvent :=
  let '(EnforcementAppliedWire.mk enforcement_id subject action version expires_at t c) := w in
  let attrs := btree_insert "version" (pretty version)
    (btree_insert "enforcement_id" enforcement_id []) in
  let attrs := match expires_at with
               | Some e => btree_insert "expires_at" (to_rfc3339 e) attrs
               | None => attrs
               end in
  feed_event
    (derive_id NS_AUDIT_MODERATION ["moderation.enforcement_applied"; enforcement_id; pretty version])
    Moderation (SubjectRefWire.actor_id subject) SystemActor SOURCE_MODERATION ""
    ("moderation.enforce." +:+ action) (subject_resource subject) Executed LegalObligation
    SOURCE_MODERATION c t None attrs.

(** *** The generic feed *)

Definition b64 (s : string) : result AuditError Bytes :=
  ok_or (b64_decode s) (MalformedAuditEvent ("invalid base64 PII envelope: " +:+ b64_error s)).

Definition decode_pii (w : PiiWire.t) : result AuditError PiiEnvelope :=
  ciphertext ← b64 (PiiWire.ciphertext_b64 w);
  nonce ← (if String.eqb (PiiWire.nonce_b64 w) "" then Ok [] else b64 (PiiWire.nonce_b64 w));
  key_ref ← string_id "subject_key_ref" (PiiWire.subject_key_ref w);
  Ok {| subject_key_ref := key_ref; ciphertext := ciphertext; nonce := nonce;
        algorithm := PiiWire.algorithm w |}.

Definition map_audit_event (w : AuditEventWire.t) : result AuditError AuditEvent :=
  category ← category_from_str (AuditEventWire.category w);
  pseudonym ← string_id "actor_pseudonym" (AuditEventWire.actor_pseudonym w);
  envelope ← transpose (decode_pii <$> AuditEventWire.pii w);
  event_id ← string_id "event_id" (AuditEventWire.event_id w);
  subject ← transpose (string_id "subject_pseudonym" <$> non_blank (AuditEventWire.subject_pseudonym w));
  tenant ← transpose (string_id "tenant_id" <$> non_blank (AuditEventWire.tenant_id w));
  out ← outcome_from_str (AuditEventWire.outcome w);
  try_new {|
    AuditChain.event_id := event_id; AuditChain.category := category;
    AuditChain.subject := subject; AuditChain.tenant := tenant;
    actor := {| actor_type := actor_type_from_str (AuditEventWire.actor_type w);
                actor_pseudonym := pseudonym;
                session_ref := AuditEventWire.session_ref w |};
    action := AuditEventWire.action w;
    resource := {| resource_type := AuditEventWire.resource_type w;
                   resource_id := AuditEventWire.resource_id w |};
    AuditChain.outcome := out;
    lawful_basis := default Unspecified (lawful_basis_from_str <$> AuditEventWire.lawful_basis w);
    source_service := AuditEventWire.source_service w;
    correlation_id := AuditEventWire.correlation_id w;
    occurred_at := default 0 (from_timestamp_millis (AuditEventWire.occurred_at_ms w));
    pii := envelope; attributes := AuditEventWire.attributes w |}.
End Decode.
