(* ===== verification/AuditFeeds.v ===== *)
(** * Audit: the subject cipher, the feed consumers, the guarded reads

    Models [crates/services/audit/src/infrastructure/{envelope,subject_cipher,consumer}.rs],
    [infrastructure/grpc/{access,handler}.rs] and [application/query.rs].  The cipher keeps
    one wrapped data key per subject in [subject_keys]; the consumers seal, map and commit
    the events of the account, auth, moderation and audit feeds, and a deletion request
    also destroys the subject's key.  AES-GCM, KMS, the random generator and the token
    verifier are parameters.  [others] is what concurrent writers do to the stores at the
    points where a sealing or a commit can be overtaken. *)

From stdpp Require Import pretty.
From S2P Require Import Prelude AccountDomain AuditChain AuditLedger AuditDecode Consumer.
Local Open Scope Z_scope.

(** ** Errors, as the consumer runner sees them *)

Definition audit_error_text (e : AuditError) : string :=
  match e with
  | MalformedAuditEvent reason => "malformed audit event: " +:+ reason
  | MissingLawfulBasis => "audit event is missing its required lawful basis / category"
  | UnknownEventCategory c => "unknown audit event category: '" +:+ c +:+ "'"
  | DuplicateEvent id => "duplicate audit event '" +:+ id +:+ "' already recorded"
  | ChainHashMismatch n => "ledger hash chain mismatch at sequence " +:+ pretty n
  | SequenceGap p => "ledger sequence gap detected in partition '" +:+ p +:+ "'"
  | ChainHeadConflict p => "ledger chain head conflict in partition '" +:+ p +:+ "'"
  | CheckpointVerificationFailed => "checkpoint verification failed against the external witness"
  | AnchorWitnessUnavailable => "the external anchor/witness is unavailable"
  | QueryForbidden => "audit query is forbidden for this caller"
  | ExportForbidden => "audit export is forbidden for this caller"
  | SubjectScopeViolation =>
      "audit access crosses a subject/tenant scope it is not authorized for"
  | CallerUnauthenticated => "audit caller is not authenticated"
  | RecordForbidden => "recording on the privileged audit lane is forbidden for this caller"
  | LedgerStoreUnavailable => "the append-only ledger store is unavailable"
  | ArchiveUnavailable => "the WORM archive is unavailable"
  | KeyVaultUnavailable => "the key vault is unavailable"
  | DurabilityNotConfirmed => "audit durability was not confirmed within the deadline"
  | SubjectKeyNotFound s => "no encryption key found for subject '" +:+ s +:+ "'"
  | ShredBlockedByLegalHold s =>
      "crypto-shred blocked: subject '" +:+ s +:+ "' is under an active legal hold"
  | CryptoShredFailed s => "crypto-shred failed for subject '" +:+ s +:+ "'"
  | PiiEnvelopeUndecryptable => "PII envelope is undecryptable (subject erased via crypto-shred)"
  | RetentionFloorViolation => "operation violates the retention floor for this record"
  | LegalHoldActive => "operation blocked by an active legal hold"
  | RetentionPolicyNotFound c => "no retention policy resolved for category '" +:+ c +:+ "'"
  | EventDecodeFailed t r => "failed to decode audit event from topic '" +:+ t +:+ "': " +:+ r
  | UnrecordableEvent r => "event carries nothing recordable: " +:+ r
  | EventConsumeFailed r => "failed to consume audit event: " +:+ r
  | DomainViolation f m => "domain invariant violated on '" +:+ f +:+ "': " +:+ m
  | InvalidIdentifier w => "invalid identifier: '" +:+ w +:+ "'"
  end.

#[export] Instance audit_classify : ClassifyError AuditError :=
  {| error_is_retryable := audit_is_retryable; error_text := audit_error_text |}.

(** ** Envelope encryption *)

(** AES-256-GCM under a key and a nonce, and the operating system's random generator:
    the bytes of the [i]th read of [n] bytes, or its error. *)
Class Crypto := {
  aead_encrypt : Bytes → Bytes → Bytes → option Bytes;
  aead_decrypt : Bytes → Bytes → Bytes → option Bytes;
  os_random : nat → nat → result string Bytes;
}.

(** What the AEAD and the generator guarantee: decryption inverts encryption and a read
    yields the bytes it was asked for. *)
Class CryptoLaws `{Crypto} := {
  aead_inverse k n p c : aead_encrypt k n p = Some c → aead_decrypt k n c = Some p;
  os_random_length i n b : os_random i n = Ok b → length b = n;
}.

Definition KEY_LEN : nat := 32.
Definition NONCE_LEN : nat := 12.
Definition ALGORITHM : string := "AES-256-GCM".

Record Sealed := { sealed_ciphertext : Bytes; sealed_nonce : Bytes }.

Record WrappedDek := { wrapped : Bytes; wrapping_nonce : Bytes }.

(** Custody of the key-encryption key. *)
Class KekCustodian := {
  kek_wrap : Bytes → use_case WrappedDek;
  kek_unwrap : Bytes → Bytes → use_case Bytes;
}.

Section Envelope.
Context `{Crypto}.

Definition crypto_err (message : string) : AuditError := DomainViolation "pii" message.

Definition random_bytes (n : nat) (failed : string → AuditError) : use_case Bytes := λ w,
  (set_draws (S (draws w)) w, map_err failed (os_random (draws w) n)).

Definition random_key : use_case Bytes :=
  random_bytes KEY_LEN (λ e, DomainViolation "dek" ("CSPRNG failure: " +:+ e)).

Definition seal_bytes (key plaintext : Bytes) : use_case Sealed :=
  let! nonce := random_bytes NONCE_LEN (λ e, crypto_err ("CSPRNG failure: " +:+ e)) in
  let! c := lift (ok_or (aead_encrypt key nonce plaintext) (crypto_err "AEAD seal failed")) in
  done_with {| sealed_ciphertext := c; sealed_nonce := nonce |}.

Definition open_bytes (key ciphertext nonce : Bytes) : result AuditError Bytes :=
  if negb (Nat.eqb (length nonce) NONCE_LEN) then Err PiiEnvelopeUndecryptable
  else ok_or (aead_decrypt key nonce ciphertext) PiiEnvelopeUndecryptable.

Definition to_key (bytes : Bytes) : result AuditError Bytes :=
  if Nat.eqb (length bytes) KEY_LEN then Ok bytes
  else Err (DomainViolation "dek" "unwrapped DEK has the wrong length").

(** The key-encryption key of the service's environment. *)
Definition LocalKek (kek : Bytes) : KekCustodian := {|
  kek_wrap dek :=
    let! s := seal_bytes kek dek in
    done_with {| wrapped := sealed_ciphertext s; wrapping_nonce := sealed_nonce s |};
  kek_unwrap w nonce := lift (dek ← open_bytes kek w nonce; to_key dek) |}.

(** KMS under a key id: [encrypt] and [decrypt] are the remote service. *)
Definition KmsKek (encrypt : string → Bytes → use_case Bytes) (decrypt : Bytes → use_case Bytes)
    (key_id : string) : KekCustodian := {|
  kek_wrap dek :=
    let! w := encrypt key_id dek in done_with {| wrapped := w; wrapping_nonce := [] |};
  kek_unwrap w _ := let! dek := decrypt w in lift (to_key dek) |}.
End Envelope.

(** ** The subject cipher *)

Section Cipher.
Context `{Crypto} `{KekCustodian} (others : nat → Ledger → Ledger).

Definition key_ref (subject : string) : string := "dek:" +:+ subject.

Definition fetch_dek (key : string) : use_case (option Bytes) :=
  let! _ := store KeyVaultUnavailable in
  let! row := gets (λ w, subject_keys w !! key) in
  match row with
  | Some {| wrapped_dek := Some wd; wrap_nonce := nonce |} =>
      let! dek := kek_unwrap wd (default [] nonce) in done_with (Some dek)
  | _ => done_with None
  end.

(** [INSERT ... ON CONFLICT (key_ref) DO UPDATE ... WHERE wrapped_dek IS NULL]: an absent
    row is added, a row without a key filled, one with a key kept. *)
Definition upsert_dek (key : string) (d : WrappedDek) : use_case unit :=
  let! _ := store KeyVaultUnavailable in modify (λ w,
    match subject_keys w !! key with
    | None => set_keys (<[key := {| created_at_ms := timestamp_millis (clock w);
                                    wrapped_dek := Some (wrapped d);
                                    wrap_nonce := Some (wrapping_nonce d) |}]> (subject_keys w)) w
    | Some row =>
        match wrapped_dek row with
        | Some _ => w
        | None => set_keys (<[key := {| created_at_ms := created_at_ms row;
                                        wrapped_dek := Some (wrapped d);
                                        wrap_nonce := Some (wrapping_nonce d) |}]> (subject_keys w)) w
        end
    end).

Definition dek_for (key : string) : use_case Bytes :=
  let! found := fetch_dek key in
  match found with
  | Some dek => done_with dek
  | None =>
      let! dek := random_key in
      let! d := kek_wrap dek in
      let! _ := modify (others 20) in
      let! _ := upsert_dek key d in
      let! _ := modify (others 21) in
      let! again := fetch_dek key in
      lift (ok_or again KeyVaultUnavailable)
  end.

Definition seal (subject plaintext : string) : use_case PiiEnvelope :=
  let key := key_ref subject in
  let! dek := dek_for key in
  let! s := seal_bytes dek (String.list_ascii_of_string plaintext) in
  let! r := lift (string_id "subject_key_ref" key) in
  done_with {| subject_key_ref := r; ciphertext := sealed_ciphertext s;
               nonce := sealed_nonce s; algorithm := ALGORITHM |}.

(** ** The consumers *)

Context `{Sha256} `{UuidText} `{FeedText}.

Definition ingest_mapped (e : result AuditError AuditEvent) : use_case unit :=
  let! event := lift e in
  let! _ := ingest others event in done_with tt.

Definition subject_of (id : string) : use_case string := lift (string_id "subject_pseudonym" id).

(** The body of [run_account_ingest_consumer] on one event. *)
Definition consume_account (w : AccountEventWire.t) : use_case unit :=
  match w with
  | AccountEventWire.AccountCreated e =>
      let! subject := subject_of (AccountCreatedWire.account_id e) in
      let! pii := seal subject (AccountCreatedWire.pii_plaintext e) in
      ingest_mapped (map_account_created e pii)
  | AccountEventWire.EmailChanged e =>
      let! subject := subject_of (EmailChangedWire.account_id e) in
      let! pii := seal subject (EmailChangedWire.pii_plaintext e) in
      ingest_mapped (map_email_changed e pii)
  | AccountEventWire.GdprDeletionRequested e =>
      let! subject := subject_of (GdprDeletionRequestedWire.account_id e) in
      let! _ := ingest_mapped (map_gdpr_deletion_requested e) in
      let! key := lift (string_id "subject_key_ref" (key_ref subject)) in
      shred subject key []
  | AccountEventWire.GdprDataExportRequested e =>
      ingest_mapped (map_gdpr_data_export_requested e)
  | AccountEventWire.EmailVerified e =>
      let! subject := subject_of (EmailVerifiedWire.account_id e) in
      let! pii := seal subject (EmailVerifiedWire.pii_plaintext e) in
      ingest_mapped (map_email_verified e pii)
  | AccountEventWire.PhoneChanged e =>
      let! subject := subject_of (PhoneChangedWire.account_id e) in
      let! pii := match PhoneChangedWire.pii_plaintext e with
                  | Some plaintext => let! p := seal subject plaintext in done_with (Some p)
                  | None => done_with None
                  end in
      ingest_mapped (map_phone_changed e pii)
  | AccountEventWire.PasswordChanged e => ingest_mapped (map_password_changed e)
  | AccountEventWire.MfaEnrolled e => ingest_mapped (map_mfa_enrolled e)
  | AccountEventWire.MfaRevoked e => ingest_mapped (map_mfa_revoked e)
  | AccountEventWire.RoleAssigned e => ingest_mapped (map_role_assigned e)
  | AccountEventWire.RoleRevoked e => ingest_mapped (map_role_revoked e)
  | AccountEventWire.AccountActivated e => ingest_mapped (map_account_activated e)
  | AccountEventWire.AccountDeactivated e => ingest_mapped (map_account_deactivated e)
  | AccountEventWire.AccountSuspended e => ingest_mapped (map_account_suspended e)
  | AccountEventWire.AccountDeleted e => ingest_mapped (map_account_deleted e)
  | AccountEventWire.KycStatusChanged e => ingest_mapped (map_kyc_status_changed e)
  | AccountEventWire.Other => done_with tt
  end.

(** [run_auth_ingest_consumer], [run_moderation_ingest_consumer] and
    [run_audit_ingest_consumer]. *)
Definition consume_auth (w : AuthEventWire.t) : use_case unit :=
  match w with
  | AuthEventWire.SessionIssued e => ingest_mapped (map_session_issued e)
  | AuthEventWire.SessionRevoked e => ingest_mapped (map_session_revoked e)
  | AuthEventWire.Other => done_with tt
  end.

Definition consume_moderation (w : ModerationEventWire.t) : use_case unit :=
  match w with
  | ModerationEventWire.DecisionRecorded e =>
      let! subject := subject_of (SubjectRefWire.actor_id (DecisionRecordedWire.subject e)) in
      let! sealed := seal subject (DecisionRecordedWire.rationale e) in
      ingest_mapped (map_decision_recorded e sealed)
  | ModerationEventWire.EnforcementApplied e => ingest_mapped (map_enforcement_applied e)
  | ModerationEventWire.Other => done_with tt
  end.

Definition consume_audit (w : AuditEventWire.t) : use_case unit := ingest_mapped (map_audit_event w).

(** [ProcessOutcome::from_result] on a consumer's result. *)
Definition process_with {E} (consume : E → use_case unit) (e : E)
    (w : Ledger) : Ledger * ProcessOutcome :=
  let '(w, r) := consume e w in (w, from_result r).
End Cipher.
