(* ===== verification/AuditFeedsProofs.v ===== *)
(** * Audit: what the feeds guarantee

    The feed consumers keep what is in the ledger and in the key table, seal under the key
    the table stores, record every account event under its own action, and never skip an
    event the topic's group has committed past; a deletion request destroys the subject's
    key at once, and only then: what is sealed afterwards stays readable. *)

From stdpp Require Import pretty.
From S2P Require Import Prelude AccountDomain AuditChain AuditProofs AuditLedger AuditLedgerProofs.
From S2P Require Import AuditDecode Consumer ConsumerProofs AuditFeeds.
Local Open Scope Z_scope.

(** ** What a use case keeps *)

(** A condition on the stores that bookkeeping keeps; one that appended rows and archive
    objects keep too. *)
Record quiet_stable (P : Ledger → Prop) : Prop := {
  stable_faults w l : P w → P (set_faults l w);
  stable_draws w n : P w → P (set_draws n w);
}.

Record append_stable (P : Ledger → Prop) : Prop := {
  stable_quiet : quiet_stable P;
  stable_rows w r : P w → P (set_rows (rows w ++ [r]) w);
  stable_archived w l : P w → P (set_archived l w);
}.

Section Quiet.
Context (P : Ledger → Prop) (Hquiet : quiet_stable P).

Lemma keeps_store e : preserves P (store e).
Proof. intros w Hw. rewrite store_run. by apply (stable_faults P Hquiet). Qed.

Lemma keeps_shred subject key holds :
  (∀ w, P w → P (set_keys (delete key (subject_keys w)) w)) → preserves P (shred subject key holds).
Proof.
  intros Hd. apply preserves_bind; [apply preserves_gets|]. intros now.
  apply preserves_bind; [apply preserves_lift|]. intros _.
  apply preserves_bind; [apply keeps_store|]. intros _. apply preserves_modify. exact Hd.
Qed.

Lemma keeps_random_bytes `{Crypto} n f : preserves P (random_bytes n f).
Proof. intros w Hw. by apply (stable_draws P Hquiet). Qed.

Lemma keeps_seal_bytes `{Crypto} key text : preserves P (seal_bytes key text).
Proof.
  apply preserves_bind; [apply keeps_random_bytes|]. intros n.
  apply preserves_bind; [apply preserves_lift|]. intros c. apply preserves_ret.
Qed.
End Quiet.

Section Keeps.
Context (P : Ledger → Prop) (Hstable : append_stable P).
Context (others : nat → Ledger → Ledger) (Hothers : ∀ i w, P w → P (others i w)).

Lemma keeps_others i : preserves P (E := AuditError) (modify (others i)).
Proof. apply preserves_modify. intros w. apply Hothers. Qed.

Lemma keeps_append r : preserves P (ledger_append r).
Proof.
  intros w Hw. pose proof (ledger_append_run r w) as Hr.
  assert (Hf : P (set_faults (tail (faults w)) w))
    by (apply (stable_faults P); [apply (stable_quiet P Hstable)|done]).
  destruct (ledger_append r w) as [w' [[]|e]]; simpl in *; [|by subst w'].
  destruct Hr as (-> & _). by apply (stable_rows P Hstable (set_faults (tail (faults w)) w)).
Qed.

Lemma keeps_archive r : preserves P (archive r).
Proof.
  apply preserves_bind; [apply keeps_store, Hstable|]. intros _. apply preserves_modify. intros w.
  apply (stable_archived P Hstable).
Qed.

Context `{Sha256}.

Lemma keeps_append_next tries e p : preserves P (append_next others tries e p).
Proof.
  repeat first [apply keeps_append|apply keeps_others|apply keeps_store, Hstable|apply preserves_gets
               |apply preserves_ret|apply preserves_bind; [|intros ?]].
Qed.

Lemma keeps_commit_loop tries e p : preserves P (commit_loop others tries e p).
Proof.
  induction tries as [|tries IH]; intros w Hw; cbn [commit_loop];
    match goal with |- context [append_next others ?t e p w] =>
      pose proof (keeps_append_next t e p w Hw) as Hn;
      destruct (append_next others t e p w) as [w1 [r|err]]; simpl in Hn
    end.
  1,3: apply (preserves_bind P (archive r)); [apply keeps_archive|intros _; apply preserves_ret|exact Hn].
  - by destruct err.
  - destruct err; try exact Hn. by apply IH.
Qed.

Lemma keeps_commit e : preserves P (commit_event others e).
Proof.
  apply preserves_bind.
  - apply preserves_bind; [apply keeps_store, Hstable|intros _; apply preserves_gets].
  - intros [r|]; [apply preserves_ret|apply keeps_commit_loop].
Qed.

Lemma keeps_ingest_mapped e : preserves P (ingest_mapped others e).
Proof.
  apply preserves_bind; [apply preserves_lift|]. intros event.
  apply preserves_bind; [apply keeps_commit|]. intros _. apply preserves_ret.
Qed.
End Keeps.

(** ** Key custody *)

(** What the cipher relies on: wrapping and unwrapping touch neither ledger nor key table,
    a blob unwraps to one key only, and to the key that was wrapped. *)
Class KekLaws `{KekCustodian} := {
  kek_wrap_keeps P dek : quiet_stable P → preserves P (kek_wrap dek);
  kek_unwrap_keeps P w n : quiet_stable P → preserves P (kek_unwrap w n);
  kek_wrap_keys dek w : subject_keys (kek_wrap dek w).1 = subject_keys w;
  kek_unwrap_keys b n w : subject_keys (kek_unwrap b n w).1 = subject_keys w;
  kek_unwrap_one b n w1 w2 w1' w2' d1 d2 :
    kek_unwrap b n w1 = (w1', Ok d1) → kek_unwrap b n w2 = (w2', Ok d2) → d1 = d2;
}.

Lemma LocalKek_laws `{Crypto} kek : @KekLaws (LocalKek kek).
Proof.
  split.
  - intros P dek HP. apply preserves_bind; [by apply keeps_seal_bytes|]. intros s. apply preserves_ret.
  - intros P w n HP. apply preserves_lift.
  - intros dek w. cbn. unfold seal_bytes, random_bytes, lift, done_with. rewrite !act_bind_run.
    destruct (os_random (draws w) NONCE_LEN); simpl; [|done]. by destruct (ok_or _ _).
  - done.
  - intros b n w1 w2 w1' w2' d1 d2. cbn. unfold lift. congruence.
Qed.

(** ** The key table *)

Section Keys.
Context `{HC : Crypto} `{HK : KekCustodian} `{HL : !KekLaws} (others : nat → Ledger → Ledger).

Lemma fetch_dek_run key w w' res :
  fetch_dek key w = (w', res) →
  subject_keys w' = subject_keys w ∧
  match res with
  | Ok (Some dek) => ∃ row wd w1, subject_keys w !! key = Some row ∧ wrapped_dek row = Some wd ∧
      kek_unwrap wd (default [] (wrap_nonce row)) w1 = (w', Ok dek)
  | _ => True
  end.
Proof.
  unfold fetch_dek, gets, done_with. rewrite act_bind_run, store_run. destruct (next_fault w).
  { by intros [= <- <-]. }
  rewrite act_bind_run. set (w1 := set_faults _ w).
  assert (Hk : subject_keys w1 = subject_keys w) by done. rewrite Hk.
  destruct (subject_keys w !! key) as [[at_ [wd|] nonce]|] eqn:Hrow; [|by intros [= <- <-]..].
  rewrite act_bind_run. pose proof (kek_unwrap_keys wd (default [] nonce) w1) as Hu.
  destruct (kek_unwrap wd (default [] nonce) w1) as [w2 [dek|e]] eqn:Hun; simpl in Hu;
    intros [= <- <-]; (split; [congruence|]); [|done].
  eexists _, wd, w1. split; [done|]. split; [done|exact Hun].
Qed.

Lemma upsert_keeps key d k row wd w :
  subject_keys w !! k = Some row → wrapped_dek row = Some wd →
  subject_keys (upsert_dek key d w).1 !! k = Some row.
Proof.
  intros Hk Hwd. unfold upsert_dek, modify. rewrite act_bind_run, store_run.
  destruct (next_fault w); [done|]. cbn [fst].
  change (subject_keys (set_faults (tail (faults w)) w)) with (subject_keys w).
  destruct (decide (k = key)) as [->|Hne].
  - rewrite Hk, Hwd. exact Hk.
  - destruct (subject_keys w !! key) as [r|]; [destruct (wrapped_dek r)|]; simpl;
      [done|by rewrite lookup_insert_ne..].
Qed.

(** [k] holds a wrapped key, and keeps holding it. *)
Definition holds_key (k : string) (row : SubjectKey) (w : Ledger) : Prop :=
  subject_keys w !! k = Some row.

Lemma holds_key_stable k row : append_stable (holds_key k row).
Proof. split; [by split|done..]. Qed.

Lemma keeps_seal (P : Ledger → Prop) subject text :
  quiet_stable P → (∀ i w, P w → P (others i w)) →
  (∀ key d w, P w → P (upsert_dek key d w).1) →
  preserves P (seal others subject text).
Proof.
  intros HP Ho Hu.
  assert (Hfetch : ∀ key, preserves P (fetch_dek key)).
  { intros key. apply preserves_bind; [by apply keeps_store|]. intros _.
    apply preserves_bind; [apply preserves_gets|]. intros [[? [wd|] n]|]; [|apply preserves_ret..].
    apply preserves_bind; [by apply kek_unwrap_keeps|]. intros ?. apply preserves_ret. }
  apply preserves_bind.
  - apply preserves_bind; [apply Hfetch|]. intros [dek|]; [apply preserves_ret|].
    apply preserves_bind; [by apply keeps_random_bytes|]. intros dek.
    apply preserves_bind; [by apply kek_wrap_keeps|]. intros d.
    apply preserves_bind; [apply preserves_modify; intros w; apply Ho|]. intros _.
    apply preserves_bind; [intros w; apply Hu|]. intros _.
    apply preserves_bind; [apply preserves_modify; intros w; apply Ho|]. intros _.
    apply preserves_bind; [apply Hfetch|]. intros again. apply preserves_lift.
  - intros dek. apply preserves_bind; [by apply keeps_seal_bytes|]. intros s.
    apply preserves_bind; [apply preserves_lift|]. intros r. apply preserves_ret.
Qed.

Lemma dek_for_run key w w' dek :
  dek_for others key w = (w', Ok dek) →
  ∃ row wd w1, subject_keys w' !! key = Some row ∧ wrapped_dek row = Some wd ∧
    kek_unwrap wd (default [] (wrap_nonce row)) w1 = (w', Ok dek).
Proof.
  unfold dek_for, done_with, modify, lift. rewrite act_bind_run.
  destruct (fetch_dek key w) as [w1 [[d|]|e]] eqn:Hf; [| |done].
  - intros [= <- <-]. apply fetch_dek_run in Hf as [Hk (row & wd & w2 & Hr & Hwd & Hu)].
    exists row, wd, w2. rewrite Hk. done.
  - rewrite act_bind_run. destruct (random_key w1) as [w2 [fresh_dek|e]]; [|done].
    rewrite act_bind_run. destruct (kek_wrap fresh_dek w2) as [w3 [d|e]]; [|done].
    rewrite !act_bind_run. destruct (upsert_dek key d (others 20%nat w3)) as [w4 [u|e]]; [|done].
    rewrite !act_bind_run. destruct (fetch_dek key (others 21%nat w4)) as [w5 [[d'|]|e]] eqn:Hf2; try done.
    intros [= <- <-]. apply fetch_dek_run in Hf2 as [Hk (row & wd & w6 & Hr & Hwd & Hu)].
    exists row, wd, w6. rewrite Hk. done.
Qed.

Lemma seal_bytes_run key text w w' s :
  seal_bytes key text w = (w', Ok s) →
  subject_keys w' = subject_keys w ∧ aead_encrypt key (sealed_nonce s) text = Some (sealed_ciphertext s)
  ∧ ∃ i, os_random i NONCE_LEN = Ok (sealed_nonce s).
Proof.
  unfold seal_bytes, random_bytes, lift, done_with. rewrite !act_bind_run.
  destruct (os_random (draws w) NONCE_LEN) as [n|] eqn:Hr; simpl; [|done].
  destruct (aead_encrypt key n text) as [c|] eqn:He; simpl; [|done]. intros [= <- <-]. simpl. eauto.
Qed.

Context `{HA : !CryptoLaws}.

Lemma seal_run subject text w w' env :
  seal others subject text w = (w', Ok env) →
  subject_key_ref env = key_ref subject ∧
  ∃ row wd, subject_keys w' !! key_ref subject = Some row ∧ wrapped_dek row = Some wd ∧
    ∀ w1 w2 dek, kek_unwrap wd (default [] (wrap_nonce row)) w1 = (w2, Ok dek) →
      open_bytes dek (ciphertext env) (nonce env) = Ok (String.list_ascii_of_string text).
Proof.
  unfold seal, lift, done_with. rewrite act_bind_run.
  destruct (dek_for others _ w) as [w1 [dek|e]] eqn:Hd; [|done]. rewrite act_bind_run.
  destruct (seal_bytes _ _ w1) as [w2 [s|e]] eqn:Hsb; [|done]. rewrite act_bind_run.
  unfold string_id. destruct (trim_is_empty _); [done|]. intros [= <- <-]. split; [done|].
  apply dek_for_run in Hd as (row & wd & w3 & Hr & Hwd & Hu).
  apply seal_bytes_run in Hsb as (Hk & He & i & Hn). exists row, wd. rewrite Hk. split_and!; [done..|].
  intros x1 x2 d Hx. rewrite (kek_unwrap_one _ _ _ _ _ _ _ _ Hx Hu). unfold open_bytes. simpl.
  rewrite (os_random_length _ _ _ Hn). simpl. by rewrite (aead_inverse _ _ _ _ He).
Qed.

(** What is sealed opens with the stored key.  When sealing a text for a subject
    returns, whatever concurrent sealings and shreds did to the key table on the way, the
    table holds a wrapped key for the subject, and whatever that blob unwraps to opens the
    envelope to exactly the text; sealing leaves every wrapped key as it was, its own
    subject's included, unless others remove it. *)
Theorem sealed_text_opens_with_the_stored_key (subject text : string) (w w' : Ledger)
    (env : PiiEnvelope) :
  seal others subject text w = (w', Ok env) →
  subject_key_ref env = key_ref subject ∧
  (∃ row wd, subject_keys w' !! key_ref subject = Some row ∧ wrapped_dek row = Some wd ∧
    ∀ w1 w2 dek, kek_unwrap wd (default [] (wrap_nonce row)) w1 = (w2, Ok dek) →
      open_bytes dek (ciphertext env) (nonce env) = Ok (String.list_ascii_of_string text)) ∧
  (∀ k row wd, (∀ i x, subject_keys x !! k = Some row → subject_keys (others i x) !! k = Some row) →
    subject_keys w !! k = Some row → wrapped_dek row = Some wd →
    subject_keys w' !! k = Some row).
Proof.
  intros Hs. destruct (seal_run _ _ _ _ _ Hs) as [Href Hrow]. split_and!; [done|done|].
  intros k row wd Ho Hk Hwd.
  pose proof (keeps_seal (holds_key k row) subject text (stable_quiet _ (holds_key_stable k row)) Ho) as Hp.
  specialize (Hp (λ key d x Hx, upsert_keeps key d k row wd x Hx Hwd) w Hk). by rewrite Hs in Hp.
Qed.
End Keys.

(** ** Events and records *)

Section Records.
Context (others : nat → Ledger → Ledger) `{HS : Sha256}.

Lemma append_next_records tries e p w w' r :
  append_next others tries e p w = (w', Ok r) → r ∈ rows w' ∧ event r = e.
Proof.
  unfold append_next, modify, gets, done_with. rewrite act_bind_run.
  rewrite act_bind_run. destruct (ledger_head p _) as [w1 [h|err]]; [|done].
  rewrite !act_bind_run. set (x := (append e p h _).1).
  pose proof (ledger_append_run x (others (2 * tries)%nat w1)) as Hr.
  destruct (ledger_append x (others (2 * tries)%nat w1)) as [w2 [[]|err]]; [|done].
  intros [= <- <-]. destruct Hr as (-> & _). split; [simpl; set_solver|done].
Qed.

Lemma commit_loop_records tries e p w w' out :
  commit_loop others tries e p w = (w', Ok out) →
  ∃ r, r ∈ rows w' ∧ event r = e ∧ outcome_proof out = proof_of r.
Proof.
  revert w. induction tries as [|tries IH]; intros w; cbn [commit_loop];
    match goal with |- context [append_next others ?t e p w] =>
      destruct (append_next others t e p w) as [w1 [r|err]] eqn:Hn
    end.
  1,3: apply append_next_records in Hn; rewrite act_bind_run, archive_run;
    destruct (next_fault w1); [done|]; intros [= <- <-]; destruct Hn; eauto.
  - by destruct err.
  - destruct err; try done. apply IH.
Qed.

(** A commit that returns: the event was there, or its own record is there now. *)
Lemma commit_records e w w' out :
  commit_event others e w = (w', Ok out) →
  ∃ r, r ∈ rows w' ∧ event_id (event r) = event_id e ∧
    outcome_proof out = proof_of r ∧ (find_event (event_id e) (rows w) = None → event r = e).
Proof.
  intros Hc. apply commit_event_run in Hc as
    [(_ & _ & _ & [=])|[(r & Hf & Hr & _ & _ & [= ->])|(w1 & Hf & _ & _ & Hl)]].
  - exists r. rewrite Hr, Hf. pose proof (find_event_some _ _ _ Hf) as [Hin Hid].
    split_and!; [done|done|done|]. intros [=].
  - apply commit_loop_records in Hl as (r & Hin & <- & Hp). eauto.
Qed.

Lemma ingest_records m w w' :
  ingest_mapped others m w = (w', Ok tt) →
  ∃ e r, m = Ok e ∧ r ∈ rows w' ∧ event_id (event r) = event_id e ∧
    (find_event (event_id e) (rows w) = None → event r = e).
Proof.
  unfold ingest_mapped, lift, done_with. rewrite act_bind_run. destruct m as [e|err]; [|done].
  rewrite act_bind_run. unfold ingest.
  destruct (commit_event others e w) as [w1 [out|err]] eqn:Hc; [|done].
  intros [= <-]. apply commit_records in Hc as (r & Hr & Hid & _ & Hnew). by exists e, r.
Qed.
End Records.

(** ** The account feed, event by event *)

Definition wire_account (w : AccountEventWire.t) : string :=
  match w with
  | AccountEventWire.AccountCreated e => AccountCreatedWire.account_id e
  | AccountEventWire.EmailChanged e => EmailChangedWire.account_id e
  | AccountEventWire.EmailVerified e => EmailVerifiedWire.account_id e
  | AccountEventWire.PhoneChanged e => PhoneChangedWire.account_id e
  | AccountEventWire.PasswordChanged e | AccountEventWire.MfaRevoked e
  | AccountEventWire.AccountActivated e | AccountEventWire.AccountDeactivated e =>
      BareAccountEventWire.account_id e
  | AccountEventWire.MfaEnrolled e => MfaEnrolledWire.account_id e
  | AccountEventWire.RoleAssigned e | AccountEventWire.RoleRevoked e => RoleWire.account_id e
  | AccountEventWire.AccountSuspended e => AccountSuspendedWire.account_id e
  | AccountEventWire.AccountDeleted e => AccountDeletedWire.account_id e
  | AccountEventWire.KycStatusChanged e => KycStatusChangedWire.account_id e
  | AccountEventWire.GdprDeletionRequested e => GdprDeletionRequestedWire.account_id e
  | AccountEventWire.GdprDataExportRequested e => GdprDataExportRequestedWire.account_id e
  | AccountEventWire.Other => ""
  end.

Definition wire_action (w : AccountEventWire.t) : string :=
  match w with
  | AccountEventWire.AccountCreated _ => "account.created"
  | AccountEventWire.EmailChanged _ => "account.email_changed"
  | AccountEventWire.EmailVerified _ => "account.email_verified"
  | AccountEventWire.PhoneChanged _ => "account.phone_changed"
  | AccountEventWire.PasswordChanged _ => "account.password_changed"
  | AccountEventWire.MfaEnrolled _ => "account.mfa_enrolled"
  | AccountEventWire.MfaRevoked _ => "account.mfa_revoked"
  | AccountEventWire.RoleAssigned _ => "account.role_assigned"
  | AccountEventWire.RoleRevoked _ => "account.role_revoked"
  | AccountEventWire.AccountSuspended _ => "account.suspended"
  | AccountEventWire.AccountActivated _ => "account.activated"
  | AccountEventWire.AccountDeactivated _ => "account.deactivated"
  | AccountEventWire.AccountDeleted _ => "account.deleted"
  | AccountEventWire.KycStatusChanged _ => "account.kyc_status_changed"
  | AccountEventWire.GdprDeletionRequested _ => "account.gdpr_deletion_requested"
  | AccountEventWire.GdprDataExportRequested _ => "account.gdpr_data_export_requested"
  | AccountEventWire.Other => ""
  end.

Definition wire_time (w : AccountEventWire.t) : Z :=
  match w with
  | AccountEventWire.AccountCreated e => AccountCreatedWire.occurred_at e
  | AccountEventWire.EmailChanged e => EmailChangedWire.occurred_at e
  | AccountEventWire.EmailVerified e => EmailVerifiedWire.occurred_at e
  | AccountEventWire.PhoneChanged e => PhoneChangedWire.occurred_at e
  | AccountEventWire.PasswordChanged e | AccountEventWire.MfaRevoked e
  | AccountEventWire.AccountActivated e | AccountEventWire.AccountDeactivated e =>
      BareAccountEventWire.occurred_at e
  | AccountEventWire.MfaEnrolled e => MfaEnrolledWire.occurred_at e
  | AccountEventWire.RoleAssigned e | AccountEventWire.RoleRevoked e => RoleWire.occurred_at e
  | AccountEventWire.AccountSuspended e => AccountSuspendedWire.occurred_at e
  | AccountEventWire.AccountDeleted e => AccountDeletedWire.occurred_at e
  | AccountEventWire.KycStatusChanged e => KycStatusChangedWire.occurred_at e
  | AccountEventWire.GdprDeletionRequested e => GdprDeletionRequestedWire.occurred_at e
  | AccountEventWire.GdprDataExportRequested e => GdprDataExportRequestedWire.occurred_at e
  | AccountEventWire.Other => 0
  end.

(** The personal data an event carries. *)
Definition wire_pii (w : AccountEventWire.t) : option string :=
  match w with
  | AccountEventWire.AccountCreated e => Some (AccountCreatedWire.pii_plaintext e)
  | AccountEventWire.EmailChanged e => Some (EmailChangedWire.pii_plaintext e)
  | AccountEventWire.EmailVerified e => Some (EmailVerifiedWire.pii_plaintext e)
  | AccountEventWire.PhoneChanged e => PhoneChangedWire.pii_plaintext e
  | _ => None
  end.

Definition is_other (w : AccountEventWire.t) : bool :=
  match w with AccountEventWire.Other => true | _ => false end.

Definition is_deletion (w : AccountEventWire.t) : bool :=
  match w with AccountEventWire.GdprDeletionRequested _ => true | _ => false end.

Section AccountFeed.
Context `{HC : Crypto} `{HK : KekCustodian} `{HL : !KekLaws} (others : nat → Ledger → Ledger).
Context `{HS : Sha256} `{HU : UuidText} `{HF : FeedText}.

(** The mapping of an event and the envelope its data was sealed in. *)
Definition map_account (w : AccountEventWire.t) (env : option PiiEnvelope) :
    result AuditError AuditEvent :=
  match w, env with
  | AccountEventWire.AccountCreated e, Some p => map_account_created e p
  | AccountEventWire.EmailChanged e, Some p => map_email_changed e p
  | AccountEventWire.EmailVerified e, Some p => map_email_verified e p
  | AccountEventWire.PhoneChanged e, _ => map_phone_changed e env
  | AccountEventWire.PasswordChanged e, _ => map_password_changed e
  | AccountEventWire.MfaEnrolled e, _ => map_mfa_enrolled e
  | AccountEventWire.MfaRevoked e, _ => map_mfa_revoked e
  | AccountEventWire.RoleAssigned e, _ => map_role_assigned e
  | AccountEventWire.RoleRevoked e, _ => map_role_revoked e
  | AccountEventWire.AccountSuspended e, _ => map_account_suspended e
  | AccountEventWire.AccountActivated e, _ => map_account_activated e
  | AccountEventWire.AccountDeactivated e, _ => map_account_deactivated e
  | AccountEventWire.AccountDeleted e, _ => map_account_deleted e
  | AccountEventWire.KycStatusChanged e, _ => map_kyc_status_changed e
  | AccountEventWire.GdprDeletionRequested e, _ => map_gdpr_deletion_requested e
  | AccountEventWire.GdprDataExportRequested e, _ => map_gdpr_data_export_requested e
  | _, _ => Err MissingLawfulBasis
  end.

Definition wire_event_id (w : AccountEventWire.t) : string :=
  derive_id NS_AUDIT_ACCOUNT [wire_action w; wire_account w; to_rfc3339 (wire_time w)].

(** The audit event is the wire event's: its action, account and instant make its id. *)
Lemma map_account_ok w env e :
  map_account w env = Ok e →
  event_id e = wire_event_id w ∧ action e = wire_action w ∧ subject e = Some (wire_account w) ∧
  occurred_at e = wire_time w ∧ (is_Some (wire_pii w) ∨ env = None → pii e = env).
Proof.
  assert (Hev : ∀ act cat ty actor_id a t c basis p attrs,
    account_event act cat ty actor_id a t c basis p attrs = Ok e →
    event_id e = derive_id NS_AUDIT_ACCOUNT [act; a; to_rfc3339 t] ∧ action e = act ∧
    subject e = Some a ∧ occurred_at e = t ∧ pii e = p).
  { intros act cat ty actor_id a t c basis p attrs He. unfold account_event, feed_event in He.
    apply result_bind_ok in He as (i & Hi & He). apply result_bind_ok in He as (sub & Hs & He).
    apply result_bind_ok in He as (ps & Hps & He). unfold try_new in He. simpl in He.
    unfold string_id in Hi, Hs. repeat case_match; simplify_eq/=. done. }
  destruct w as [[]|[]|[]|[? [ph|] ? ?]|[]|[]|[]|[]|[]|[]|[]|[]|[? [adm|] ? ?]|[]|[]|[]|], env as [p|];
    cbn [map_account]; intros Hm; try done; apply Hev in Hm as (-> & -> & -> & -> & ->);
    (split_and!; try done); intros [[? [=]]|[=]]; done.
Qed.

(** The envelope step: nothing for an event without personal data. *)
Definition sealing (w : AccountEventWire.t) (s s1 : Ledger) (env : option PiiEnvelope) : Prop :=
  match wire_pii w with
  | None => env = None ∧ s1 = s
  | Some text => ∃ p, env = Some p ∧ seal others (wire_account w) text s = (s1, Ok p)
  end.

(** A completed consumption: seal, map, commit, and for a deletion request shred. *)
Lemma consumed w s s' :
  consume_account others w s = (s', Ok tt) → is_other w = false →
  ∃ env s1 s2, sealing w s s1 env ∧ ingest_mapped others (map_account w env) s1 = (s2, Ok tt) ∧
    if is_deletion w then shred (wire_account w) (key_ref (wire_account w)) [] s2 = (s', Ok tt)
    else s' = s2.
Proof.
  assert (Hpii : ∀ id text f, (let! subject := subject_of id in
      let! pii := seal others subject text in ingest_mapped others (f pii)) s = (s', Ok tt) →
    ∃ p s1, seal others id text s = (s1, Ok p) ∧ ingest_mapped others (f p) s1 = (s', Ok tt)).
  { intros id text f. unfold subject_of, lift, string_id. rewrite act_bind_run.
    destruct (trim_is_empty id); [done|]. rewrite act_bind_run.
    destruct (seal others id text s) as [s1 [p|e]] eqn:Hs; [|done]. eauto. }
  destruct w; cbn [consume_account is_other]; intros Hc Hno; try done; unfold sealing;
    cbn [wire_pii wire_account is_deletion map_account].
  all: try (apply Hpii in Hc as (p & s1 & Hs & Hi); exists (Some p), s1, s'; eauto; done).
  all: try (exists None, s, s'; done).
  - revert Hc. unfold subject_of, lift, string_id, done_with. rewrite act_bind_run.
    destruct (trim_is_empty _); [done|]. rewrite act_bind_run.
    destruct (PhoneChangedWire.pii_plaintext w) as [text|].
    + rewrite act_bind_run. destruct (seal others _ text s) as [s1 [p|e]] eqn:Hs; [|done].
      intros Hi. exists (Some p), s1, s'. eauto.
    + intros Hi. by exists None, s, s'.
  - revert Hc. unfold subject_of, lift, string_id. rewrite act_bind_run.
    destruct (trim_is_empty _); [done|]. rewrite act_bind_run.
    destruct (ingest_mapped others (map_gdpr_deletion_requested w) s) as [s2 [[]|e]] eqn:Hi; [|done].
    rewrite act_bind_run. destruct (trim_is_empty _); [done|]. intros Hsh. by exists None, s, s2.
Qed.

(** What consuming an event keeps, whatever its outcome. *)
Lemma keeps_consume (P : Ledger → Prop) w :
  append_stable P → (∀ i s, P s → P (others i s)) →
  (∀ key d s, P s → P (upsert_dek key d s).1) →
  (is_deletion w = true → ∀ s, P s →
     P (set_keys (delete (key_ref (wire_account w)) (subject_keys s)) s)) →
  preserves P (consume_account others w).
Proof.
  intros HP Ho Hu Hdel.
  assert (Hing : ∀ e, preserves P (ingest_mapped others e)) by (intros; by apply keeps_ingest_mapped).
  assert (Hpii : ∀ id text f, preserves P (let! subject := subject_of id in
      let! pii := seal others subject text in ingest_mapped others (f pii))).
  { intros id text f. apply preserves_bind; [apply preserves_lift|]. intros subject.
    apply preserves_bind; [by apply keeps_seal; [apply HP|..]|]. intros pii. apply Hing. }
  destruct w; try apply Hing; try apply Hpii; [| |apply preserves_ret].
  - apply preserves_bind; [apply preserves_lift|]. intros subject.
    apply preserves_bind; [|intros pii; apply Hing].
    destruct (PhoneChangedWire.pii_plaintext w) as [text|]; [|apply preserves_ret].
    apply preserves_bind; [by apply keeps_seal; [apply HP|..]|]. intros p. apply preserves_ret.
  - intros s Hs. cbn [consume_account]. unfold subject_of, lift, string_id. rewrite act_bind_run.
    destruct (trim_is_empty _); [done|]. rewrite act_bind_run.
    pose proof (Hing (map_gdpr_deletion_requested w) s Hs) as Hi.
    destruct (ingest_mapped others (map_gdpr_deletion_requested w) s) as [s2 [[]|e]]; [|done].
    rewrite act_bind_run. destruct (trim_is_empty _); [done|]. cbn [fst] in Hi.
    apply (keeps_shred P (stable_quiet P HP) _ _ []); [by apply Hdel|exact Hi].
Qed.

Lemma shred_unheld a k w :
  shred a k [] w = (if next_fault w then (set_faults (tail (faults w)) w, Err KeyVaultUnavailable)
    else (set_keys (delete k (subject_keys w)) (set_faults (tail (faults w)) w), Ok tt)).
Proof.
  unfold shred, authorize_erasure, gets, lift, modify. simpl existsb.
  do 2 (rewrite act_bind_run; cbv iota beta). unfold destroy_subject_key, modify.
  rewrite act_bind_run, store_run. by destruct (next_fault w).
Qed.

Lemma shred_keeps_rows a k r s : r ∈ rows s → r ∈ rows (shred a k [] s).1.
Proof. apply (keeps_shred (λ x, r ∈ rows x)); [by split|done]. Qed.

(** A consumed event has its row; a deletion request has no key left. *)
Lemma consumed_is_recorded w s s' :
  consume_account others w s = (s', Ok tt) → is_other w = false →
  ∃ r, r ∈ rows s' ∧ event_id (event r) = wire_event_id w.
Proof.
  intros Hc Hno. apply consumed in Hc as (env & s1 & s2 & _ & Hi & Hrest); [|done].
  apply ingest_records in Hi as (e & r & Hm & Hr & Hid & _).
  apply map_account_ok in Hm as (He & _). exists r. rewrite Hid. split; [|exact He].
  destruct (is_deletion w); [|by subst s'].
  pose proof (shred_keeps_rows (wire_account w) (key_ref (wire_account w)) r s2 Hr) as Hk.
  by rewrite Hrest in Hk.
Qed.

Context (Hgrow : ∀ i w, rows w `prefix_of` rows (others i w)).

Lemma prefix_stable l : append_stable (λ w, l `prefix_of` rows w).
Proof. split; [by split| |done]. intros w r [k Hk]. exists (k ++ [r]). simpl. by rewrite Hk, app_assoc. Qed.

(** Consuming an event, whatever its outcome, only appends to the ledger. *)
Lemma consume_appends w s : rows s `prefix_of` rows (consume_account others w s).1.
Proof.
  apply (keeps_consume (λ x, rows s `prefix_of` rows x)); [apply prefix_stable|..|done].
  - intros i x Hx. etrans; [exact Hx|apply Hgrow].
  - intros key d x Hx. unfold upsert_dek, modify. rewrite act_bind_run, store_run.
    destruct (next_fault x); [exact Hx|]. cbn [fst].
    destruct (subject_keys _ !! key) as [row|]; [destruct (wrapped_dek row)|]; exact Hx.
  - done.
Qed.

(** ** The feed *)

Definition audited (w : AccountEventWire.t) (s : Ledger) : Prop :=
  is_other w = true ∨ ∃ r, r ∈ rows s ∧ event_id (event r) = wire_event_id w.

Lemma audited_later w s s' : rows s `prefix_of` rows s' → audited w s → audited w s'.
Proof.
  intros [k Hk] [Ho|(r & Hr & Hid)]; [by left|right]. exists r. rewrite Hk. split; [set_solver|done].
Qed.

(** C20. No account event escapes the audit trail of a group with a base.  Let the consumer
    group of the audit worker have committed on a partition of [account.v1.events] before,
    or start it at the earliest offset, and let the worker consume it, be restarted, lose
    its broker or its stores, while other processes append to the ledger: every record
    between the group's first offset on the partition and a committed one is an event of
    the account service that has its row in the ledger under the identifier of its action,
    account and instant, is of a type audit does not know, or is parked verbatim on the
    dead-letter topic. *)
Theorem account_feed_is_lossless (from_slice : string → result string AccountEventWire.t)
    (jittered : Z → Z) (policy : RetryPolicy) (config : ConsumerConfig) (tp : string * Z)
    (base : Z) (y0 y : System) (o : Z) (i : nat) (r : KafkaRecord) :
  fresh y0 → based config tp base y0 →
  star (system_step from_slice (process_with (consume_account others)) jittered policy config
          (λ s s', rows s `prefix_of` rows s')) y0 y →
  durable y !! tp = Some o → base ≤ Z.of_nat i < o → partition_log tp y !! i = Some r →
  (∃ bytes w, rec_payload r = Some bytes ∧ from_slice bytes = Ok w ∧ audited w (stores (worker y))) ∨
  (∃ d, d ∈ published (worker y) ∧ parks d r).
Proof.
  intros Hf Hb Hst Hd Hi Hr.
  refine (durable_means_settled from_slice (process_with (consume_account others)) jittered policy
    config (λ s s', rows s `prefix_of` rows s') audited _ _ _ tp base y0 y o i r Hf Hb Hst Hd Hi Hr).
  - intros w s s'. unfold process_with.
    destruct (consume_account others w s) as [s1 [[]|e]] eqn:Hc; simpl.
    + intros [= <-]. destruct (is_other w) eqn:Ho; [by left|right]. by eapply consumed_is_recorded.
    + by destruct (audit_is_retryable e).
  - intros w w' s. apply audited_later. unfold process_with.
    pose proof (consume_appends w' s) as Hp. by destruct (consume_account others w' s).
  - intros w s s'. apply audited_later.
Qed.
End AccountFeed.
