(* ===== verification/AuditErasure.v ===== *)
(** * Audit: the account feed and erasure, end to end

    What the events of the account service become in the ledger, and what a deletion
    request destroys and what it does not: sealing after it starts a new key that no later
    account event destroys.  Concrete instances of every parameter close the file. *)

From stdpp Require Import pretty.
From S2P Require Import Prelude AccountDomain AccountProofs AuditChain AuditProofs AuditLedger.
From S2P Require Import AuditLedgerProofs AuditGlobal AuditDecode Consumer ConsumerProofs.
From S2P Require Import AuditFeeds AuditFeedsProofs.
Local Open Scope Z_scope.

(** The event with its personal data blanked. *)
Definition redact (e : DomainEvent) : DomainEvent :=
  match e with
  | AccountCreated a _ _ role status _ t c => AccountCreated a "" "" role status None t c
  | EmailVerified a _ v t c => EmailVerified a "" v t c
  | EmailChanged a _ _ t c => EmailChanged a "" "" t c
  | PhoneChanged a p t c => PhoneChanged a ((λ _, ""%string) <$> p) t c
  | e => e
  end.

Definition event_time (e : DomainEvent) : Z :=
  match e with
  | AccountCreated _ _ _ _ _ _ t _ | EmailVerified _ _ _ t _ | PasswordChanged _ t _
  | EmailChanged _ _ _ t _ | PhoneChanged _ _ t _ | MfaEnrolled _ _ t _ | MfaRevoked _ t _
  | RoleAssigned _ _ t _ | RoleRevoked _ _ t _ | AccountSuspended _ _ t _
  | AccountActivated _ t _ | AccountDeactivated _ t _ | AccountDeleted _ _ t _
  | KycStatusChanged _ _ _ t _ | GdprDeletionRequested _ _ _ t _
  | GdprDataExportRequested _ _ t _ => t
  end.

Section Erasure.
Context `{HC : Crypto} `{HA : !CryptoLaws} `{HK : KekCustodian} `{HL : !KekLaws}.
Context (others : nat → Ledger → Ledger).
Context `{HS : Sha256} `{HU : UuidText} `{HF : FeedText}.

Lemma wire_of_event e :
  wire_action (account_wire e) = event_type e ∧ wire_account (account_wire e) = hyphenated (event_key e)
  ∧ wire_time (account_wire e) = event_time e ∧ is_other (account_wire e) = false.
Proof. by destruct e. Qed.

Lemma map_redacted e env :
  map_account (account_wire (redact e)) env = map_account (account_wire e) env.
Proof. destruct e as [| | | |? [p|]| | | | | | | | | | |]; reflexivity. Qed.

Lemma upsert_keeps_rows (P : list AuditRecord → Prop) key d s :
  P (rows s) → P (rows (upsert_dek key d s).1).
Proof.
  intros Hs. unfold upsert_dek, modify. rewrite act_bind_run, store_run.
  destruct (next_fault s); [exact Hs|]. cbn [fst].
  destruct (subject_keys _ !! key) as [row|]; [destruct (wrapped_dek row)|]; exact Hs.
Qed.

(** Every account event maps: nothing the account service publishes is rejected. *)
Lemma account_events_map e env :
  (∀ u, trim_is_empty (hyphenated u) = false) →
  (is_Some (wire_pii (account_wire e)) → is_Some env) →
  is_ok (map_account (account_wire e) env) = true.
Proof.
  intros Hid Henv.
  assert (Hev : ∀ act cat ty actor_id a t c basis p attrs,
    trim_is_empty actor_id = false → trim_is_empty act = false →
    requires_lawful_basis cat && negb (basis_is_specified basis) = false →
    is_ok (account_event act cat ty actor_id (hyphenated a) t c basis p attrs) = true).
  { intros act cat ty actor_id a t c basis p attrs Hac Hact Hb.
    unfold account_event, feed_event, string_id, derive_id, try_new. rewrite !Hid, Hac. simpl.
    by rewrite Hb, Hact. }
  destruct e as [| | | |? [ph|]| | | | | | | |? [adm|]| | |], env as [p|];
    cbn [account_wire map_account wire_pii] in *;
    try (destruct (Henv (mk_is_Some _ _ eq_refl)); done);
    apply Hev; try apply Hid; done.
Qed.

(** C35. Account events are audited as what they are, and blindly.  Every event of the
    account service maps.  When the consumer completes one that was not recorded before,
    the ledger holds its record, with the event's own type as action, its account as
    subject, its instant, and no envelope unless it carries personal data; that envelope
    opens to the data with whatever key the table holds for the account; and the record
    but for the envelope is the one of the event with its personal data blanked out. *)
Theorem account_events_are_audited (e : DomainEvent) (s s' : Ledger) :
  (∀ u, trim_is_empty (hyphenated u) = false) →
  (∀ i x, find_event (wire_event_id (account_wire e)) (rows x) = None →
     find_event (wire_event_id (account_wire e)) (rows (others i x)) = None) →
  (∀ i x k row, subject_keys x !! k = Some row → subject_keys (others i x) !! k = Some row) →
  (∀ env, (is_Some (wire_pii (account_wire e)) → is_Some env) →
     is_ok (map_account (account_wire e) env) = true) ∧
  (consume_account others (account_wire e) s = (s', Ok tt) →
   find_event (wire_event_id (account_wire e)) (rows s) = None →
   ∃ r, r ∈ rows s' ∧ action (event r) = event_type e ∧
     subject (event r) = Some (hyphenated (event_key e)) ∧ occurred_at (event r) = event_time e ∧
     (wire_pii (account_wire e) = None → pii (event r) = None) ∧
     (∀ text, wire_pii (account_wire e) = Some text → ∃ env dek_row wd,
        pii (event r) = Some env ∧
        subject_keys s' !! key_ref (hyphenated (event_key e)) = Some dek_row ∧
        wrapped_dek dek_row = Some wd ∧
        ∀ w1 w2 dek, kek_unwrap wd (default [] (wrap_nonce dek_row)) w1 = (w2, Ok dek) →
          open_bytes dek (ciphertext env) (nonce env) = Ok (String.list_ascii_of_string text)) ∧
     map_account (account_wire (redact e)) (pii (event r)) = Ok (event r)).
Proof.
  intros Hid Hnew Hkeep. split; [intros env; by apply account_events_map|].
  intros Hc Hfind. destruct (wire_of_event e) as (Hact & Hacc & Htime & Hno).
  set (w := account_wire e) in *.
  apply consumed in Hc as (env & s1 & s2 & Hseal & Hi & Hrest); [|done].
  assert (Hfind1 : find_event (wire_event_id w) (rows s1) = None).
  { unfold sealing in Hseal. destruct (wire_pii w) as [text|]; [|by destruct Hseal as [_ ->]].
    destruct Hseal as (p & _ & Hs).
    pose proof (keeps_seal others (λ x, find_event (wire_event_id w) (rows x) = None)
      (wire_account w) text) as Hk.
    specialize (Hk ltac:(by split) Hnew
      (upsert_keeps_rows (λ l, find_event (wire_event_id w) l = None)) s Hfind). by rewrite Hs in Hk. }
  pose proof Hi as Hing. apply ingest_records in Hi as (ev & r & Hm & Hr & Hrid & Hev).
  pose proof (map_account_ok _ _ _ Hm) as (Heid & Heact & Hesub & Het & Hepii).
  specialize (Hev ltac:(by rewrite Heid)). subst ev.
  assert (Hr' : r ∈ rows s').
  { destruct (is_deletion w); [|by subst s'].
    pose proof (shred_keeps_rows (wire_account w) (key_ref (wire_account w)) r s2 Hr) as Hk.
    by rewrite Hrest in Hk. }
  exists r. rewrite Heact, Hesub, Het, Hact, Hacc, Htime. split_and!; try done.
  - intros Hn. unfold sealing in Hseal. rewrite Hn in Hseal. destruct Hseal as [-> _]. by apply Hepii; right.
  - intros text Ht. unfold sealing in Hseal. rewrite Ht in Hseal. destruct Hseal as (p & -> & Hs).
    destruct (seal_run _ _ _ _ _ _ Hs) as (_ & row & wd & Hrow & Hwd & Hopen).
    exists p, row, wd. rewrite Hepii by (left; eauto). split_and!; [done| |done|exact Hopen].
    assert (Hk : preserves (holds_key (key_ref (wire_account w)) row)
      (ingest_mapped others (map_account w (Some p)))).
    { apply keeps_ingest_mapped; [apply holds_key_stable|]. intros i x. apply Hkeep. }
    specialize (Hk s1 Hrow). rewrite Hing in Hk. rewrite <- Hacc.
    destruct (is_deletion w) eqn:Hd; [by destruct w|]. by subst s'.
  - rewrite map_redacted. fold w. rewrite Hepii; [done|].
    unfold sealing in Hseal. destruct (wire_pii w); [left; eauto|right; by destruct Hseal].
Qed.

(** ** Erasure *)

Lemma key_ref_inj a b : key_ref a = key_ref b → a = b.
Proof. unfold key_ref. intros Hab. by apply (inj (String.append "dek:")) in Hab. Qed.

(** A deletion request is recorded, then the key goes.  When the consumer completes one,
    the request has its row, the account's key row is gone, every other key and every
    earlier row of the ledger is where it was, and no legal hold was looked at: a shred of
    the account that a hold would refuse is not refused here. *)
Theorem deletion_request_erases (e : GdprDeletionRequestedWire.t) (s s' : Ledger) :
  (∀ i x, rows x `prefix_of` rows (others i x)) →
  (∀ i x k row, subject_keys x !! k = Some row → subject_keys (others i x) !! k = Some row) →
  consume_account others (AccountEventWire.GdprDeletionRequested e) s = (s', Ok tt) →
  let a := GdprDeletionRequestedWire.account_id e in
  subject_keys s' !! key_ref a = None ∧
  (∃ r, r ∈ rows s' ∧
     event_id (event r) = wire_event_id (AccountEventWire.GdprDeletionRequested e)) ∧
  rows s `prefix_of` rows s' ∧
  (∀ k row, k ≠ key_ref a → subject_keys s !! k = Some row → subject_keys s' !! k = Some row) ∧
  (∀ hold now, covers hold a now = true →
     authorize_erasure a [hold] now = Err (ShredBlockedByLegalHold a)).
Proof.
  intros Hgrow Hkeep Hc a. set (w := AccountEventWire.GdprDeletionRequested e) in *.
  pose proof (consume_appends others Hgrow w s) as Hp. rewrite Hc in Hp.
  pose proof (consumed_is_recorded others w s s' Hc eq_refl) as Hrec.
  apply consumed in Hc as (env & s1 & s2 & Hseal & Hi & Hrest); [|done].
  simpl in Hseal, Hrest. destruct Hseal as [-> ->].
  assert (Hk : subject_keys s' = delete (key_ref a) (subject_keys s2)).
  { revert Hrest. rewrite shred_unheld. destruct (next_fault s2); by intros [= <-]. }
  split_and!; [by rewrite Hk, lookup_delete_eq|exact Hrec|exact Hp|..].
  - intros k row Hne Hrow. rewrite Hk, lookup_delete_ne by done.
    pose proof (keeps_ingest_mapped (holds_key k row) (holds_key_stable k row) others
      (λ i x, Hkeep i x k row) (map_account w None) s Hrow) as Hh. by rewrite Hi in Hh.
  - intros hold now Hcov. unfold authorize_erasure. simpl. by rewrite Hcov.
Qed.

Lemma anonymize_event now cid a a' :
  Account.anonymize now cid a = Ok a' →
  ∃ i, Account.pending_events a' = Account.pending_events a ++ [AccountDeleted i None now cid].
Proof.
  unfold Account.anonymize. destruct (GdprRecord.is_anonymized _); [done|]. cbv zeta.
  match goal with |- context [Account.transition_status Deleted ?b] =>
    assert (Hb : Account.pending_events b = Account.pending_events a) by reflexivity;
    generalize b, Hb end.
  clear. intros b Hb. set (c := match Account.transition_status Deleted b with
                                | Ok x => x | Err _ => b end).
  assert (Hc : Account.pending_events c = Account.pending_events b).
  { subst c. unfold Account.transition_status. by destruct (can_transition_to _ _). }
  clearbody c. intros [= <-]. exists (Account.id (Account.touch now c)).
  rewrite <- Hb, <- Hc. reflexivity.
Qed.

(** The feed on a sequence of events, whatever the outcome of each. *)
Definition consume_all (es : list AccountEventWire.t) (s : Ledger) : Ledger :=
  foldl (λ s w, (consume_account others w s).1) s es.

Lemma keeps_wrapped_key w k row wd :
  (∀ i x, subject_keys x !! k = Some row → subject_keys (others i x) !! k = Some row) →
  wrapped_dek row = Some wd → (is_deletion w = true → key_ref (wire_account w) ≠ k) →
  preserves (holds_key k row) (consume_account others w).
Proof.
  intros Hkeep Hwd Hdel. apply keeps_consume; [apply holds_key_stable|exact Hkeep|..].
  - intros key d x Hx. by eapply upsert_keeps.
  - intros Hd x Hx. unfold holds_key in *. simpl. by rewrite lookup_delete_ne by auto.
Qed.

(** Personal data received after the erasure outlives it.  An event with personal data
    that is consumed at any time, a deletion request of its account having been carried out
    before or not, leaves a key of the account in the table; and no sequence of later
    events removes that key unless it holds another deletion request of the account.  The
    account service emits none: while a deletion is pending it refuses a second request,
    and what it emits when it finally anonymizes the account destroys nothing. *)
Theorem pii_after_the_request_outlives_the_erasure (w : AccountEventWire.t) (text : string)
    (es : list AccountEventWire.t) (s s1 : Ledger) :
  (∀ i x k row, subject_keys x !! k = Some row → subject_keys (others i x) !! k = Some row) →
  wire_pii w = Some text → consume_account others w s = (s1, Ok tt) →
  (∀ v, v ∈ es → is_deletion v = true → wire_account v ≠ wire_account w) →
  (∃ row wd, subject_keys (consume_all es s1) !! key_ref (wire_account w) = Some row ∧
     wrapped_dek row = Some wd) ∧
  (∀ (HCh : Chrono) t1 now days cid a, GdprRecord.has_pending_deletion (Account.gdpr a) = true →
     Account.request_gdpr_deletion t1 now days cid a = fails GdprDeletionAlreadyRequested) ∧
  (∀ now cid a a', Account.anonymize now cid a = Ok a' → ∃ ev,
     Account.pending_events a' = Account.pending_events a ++ [ev] ∧
     is_deletion (account_wire ev) = false).
Proof.
  intros Hkeep Ht Hc Hes. split_and!.
  - assert (Hno : is_other w = false) by (by destruct w).
    assert (Hnd : is_deletion w = false) by (by destruct w).
    apply consumed in Hc as (env & s2 & s3 & Hseal & Hi & Hrest); [|done].
    rewrite Hnd in Hrest. subst s3. unfold sealing in Hseal. rewrite Ht in Hseal.
    destruct Hseal as (p & -> & Hs).
    destruct (seal_run _ _ _ _ _ _ Hs) as (_ & row & wd & Hrow & Hwd & _). exists row, wd. split; [|exact Hwd].
    pose proof (keeps_ingest_mapped (holds_key (key_ref (wire_account w)) row)
      (holds_key_stable _ row) others (λ i x, Hkeep i x _ row) (map_account w (Some p)) s2 Hrow) as Hh.
    rewrite Hi in Hh. simpl in Hh. clear Hi Hrow. unfold consume_all.
    revert s1 Hh. induction es as [|v es IH]; intros s1 Hh; [exact Hh|]. simpl.
    apply IH; [intros u Hu; apply Hes; by right|].
    apply (keeps_wrapped_key v _ row wd); [intros i x; apply Hkeep|exact Hwd| |exact Hh].
    intros Hd Heq. apply (Hes v); [by left|exact Hd|by apply key_ref_inj].
  - intros HCh t1 now days cid a Hp. unfold Account.request_gdpr_deletion. by rewrite Hp.
  - intros now cid a a' (i & Hi)%anonymize_event. by exists (AccountDeleted i None now cid).
Qed.
End Erasure.

(** ** Concrete parameters and runs *)

Module Demo.
(** A cipher that puts the key before the text, and a generator that counts. *)
Definition strip (k c : Bytes) : option Bytes :=
  if bool_decide (take (length k) c = k) then Some (drop (length k) c) else None.

#[export] Instance crypto : Crypto := {|
  aead_encrypt k n p := Some (k ++ p);
  aead_decrypt k n c := strip k c;
  os_random i n := Ok (replicate n (ascii_of_nat i)) |}.

#[export] Instance crypto_laws : CryptoLaws.
Proof.
  split.
  - intros k n p c [= <-]. unfold aead_decrypt, crypto, strip.
    by rewrite take_app_length, bool_decide_true, drop_app_length.
  - intros i n b [= <-]. apply length_replicate.
Qed.

#[export] Instance kek : KekCustodian := LocalKek (replicate KEY_LEN "k"%char).
#[export] Instance kek_laws : KekLaws := LocalKek_laws (replicate KEY_LEN "k"%char).

#[export] Instance uuid_text : UuidText := {|
  parse_uuid s := Some (N.of_nat (String.length s));
  hyphenated u := "u" +:+ pretty u |}.

Lemma uuid_not_blank u : trim_is_empty (hyphenated u) = false.
Proof. cbn. by destruct (pretty u) as [|b [|c ?]]. Qed.

#[export] Instance feed_text : FeedText := {|
  new_v5 ns name := foldl (λ a c, (a * 256 + N_of_ascii c)%N) ns (String.list_ascii_of_string name);
  to_rfc3339 t := pretty t;
  from_timestamp_millis m := Some (m * 1000000);
  b64_decode s := Some (String.list_ascii_of_string s);
  b64_error s := s |}.

Abbreviation consume := (consume_account nobody).

(** A deletion request, then a change of address, then the final anonymization. *)
Definition deletion : AccountEventWire.t :=
  account_wire (GdprDeletionRequested 7%N 30 100 10 1%N).
Definition change : DomainEvent := EmailChanged 7%N "old@x" "new@x" 20 2%N.
Definition anonymized : AccountEventWire.t := account_wire (AccountDeleted 7%N None 30 3%N).

Definition keyed : Ledger := (consume (account_wire (EmailVerified 7%N "old@x" 1 1 1%N)) empty_ledger).1.
Definition erased : Ledger := (consume deletion keyed).1.
Definition changed : Ledger := (consume (account_wire change) erased).1.

Lemma nobody_keeps {A} (f : Ledger → option A) i x a : f x = Some a → f (nobody i x) = Some a.
Proof. done. Qed.

Lemma sealed_text_opens_with_the_stored_key_witness :
  ∃ env row, (seal nobody "u7" "email=a" empty_ledger).2 = Ok env ∧
    subject_keys (seal nobody "u7" "email=a" empty_ledger).1 !! "dek:u7"%string = Some row.
Proof.
  destruct (seal nobody "u7" "email=a" empty_ledger) as [w' [env|e]] eqn:Hs; [|by vm_compute in Hs].
  destruct (sealed_text_opens_with_the_stored_key nobody "u7" "email=a" empty_ledger w' env Hs)
    as (_ & (row & wd & Hrow & _) & _).
  exists env, row. split; [reflexivity|exact Hrow].
Defined.

Lemma account_events_are_audited_witness :
  ∃ r, r ∈ rows changed ∧ action (event r) = "account.email_changed"%string.
Proof.
  destruct (consume (account_wire change) erased) as [s' [[]|e]] eqn:Hc; [|by vm_compute in Hc].
  assert (changed = s') as Hs by (unfold changed; by rewrite Hc).
  destruct (account_events_are_audited nobody change erased s') as [_ Haud];
    [exact uuid_not_blank|done|done|].
  destruct (Haud Hc) as (r & Hr & Hact & _); [vm_compute; reflexivity|].
  exists r. rewrite Hs. split; [exact Hr|exact Hact].
Defined.

Lemma deletion_request_erases_witness :
  is_Some (subject_keys keyed !! "dek:u7"%string) ∧ subject_keys erased !! "dek:u7"%string = None.
Proof.
  split; [vm_compute; eauto|].
  destruct (consume deletion keyed) as [s' [[]|e]] eqn:Hc; [|by vm_compute in Hc].
  assert (erased = s') as -> by (unfold erased; by rewrite Hc).
  destruct (deletion_request_erases nobody
    (GdprDeletionRequestedWire.mk (hyphenated 7%N) 30 100 10 (hyphenated 1%N)) keyed s') as [Hgone _];
    [done|done|exact Hc|exact Hgone].
Defined.

Lemma pii_after_the_request_outlives_the_erasure_witness :
  subject_keys erased !! "dek:u7"%string = None ∧
  ∃ row wd, subject_keys (consume_all nobody [anonymized] changed) !! "dek:u7"%string = Some row ∧
    wrapped_dek row = Some wd.
Proof.
  split; [vm_compute; reflexivity|].
  destruct (consume (account_wire change) erased) as [s' [[]|e]] eqn:Hc; [|by vm_compute in Hc].
  assert (changed = s') as -> by (unfold changed; by rewrite Hc).
  destruct (pii_after_the_request_outlives_the_erasure nobody (account_wire change)
    "old_email=old@x;new_email=new@x" [anonymized] erased s') as [Hk _];
    [done|reflexivity|exact Hc|by intros v ->%list_elem_of_singleton|exact Hk].
Defined.

(** The worker reads one record from an offset the group committed before. *)
Definition tp : string * Z := ("account.v1.events", 0).
Definition record : KafkaRecord := {|
  rec_topic := "account.v1.events"; rec_partition := 0; rec_offset := 0; rec_key := None;
  rec_headers := []; rec_timestamp := None; rec_payload := Some "u7"%string |}.
Definition password_changed (id : string) : result string AccountEventWire.t :=
  Ok (AccountEventWire.PasswordChanged (BareAccountEventWire.mk id 5 "c")).
Definition start : System := initial empty_ledger <| durable := {[tp := 0]} |>.

Definition audit_config : ConsumerConfig := ConsumerConfig_new "audit-account".

Abbreviation handle_record :=
  (handle password_changed (process_with consume) (λ d, d) default_policy).
Abbreviation reaches := (star (system_step password_changed (process_with consume) (λ d, d)
  default_policy audit_config (λ s s', rows s `prefix_of` rows s')) start).

Definition produced : System := start <| log := {[tp := [record]]} |>.
Definition reading : System := produced <| session := Some (start_position audit_config produced) |>.
Definition item : Worker Ledger := (handle_record (Ok record) (worker reading)).1.
Definition read : System :=
  reading <| worker := item |> <| session := Some (advance tp (start_position audit_config produced)) |>.
Definition committed : System := read <| durable := {[tp := 1]} |>.

Lemma feed_committed_reachable : reaches committed.
Proof.
  eapply star_step; [by apply (s_produce _ _ _ _ _ _ _ tp record)|].
  eapply star_step; [by apply s_start|].
  eapply (star_step _ _ read).
  { eapply (s_poll _ _ _ _ _ _ _ tp _ record); [reflexivity|reflexivity|done|].
    unfold item. vm_compute. reflexivity. }
  eapply star_step; [apply (s_commit _ _ _ _ _ _ _ tp 1); vm_compute; by left|]. apply star_refl.
Qed.

Lemma account_feed_is_lossless_witness :
  (∃ bytes w, rec_payload record = Some bytes ∧ password_changed bytes = Ok w ∧
     audited w (stores (worker committed))) ∨
  (∃ d, d ∈ published (worker committed) ∧ parks d record).
Proof.
  apply (account_feed_is_lossless nobody (λ _ _, reflexivity _) password_changed (λ d, d)
    default_policy audit_config tp 0 start committed 1 0 record);
    [by split; intros|by split|exact feed_committed_reachable|reflexivity|done|reflexivity].
Defined.
End Demo.
