(* ===== verification/AuditAccess.v ===== *)
(** * Audit: the guarded gRPC surface

    Models [crates/services/audit/src/infrastructure/grpc/{access,handler}.rs],
    [infrastructure/codec.rs] and [application/query.rs]: the caller gate, the four calls
    of [audit.v1], the protobuf mapping, the filtered query and the export.  The token
    verifier and the tonic runtime are parameters. *)

From stdpp Require Import pretty.
From S2P Require Import Prelude AccountDomain AuditChain AuditLedger AuditDecode.
Local Open Scope Z_scope.

(** ** Queries and exports *)

Record LedgerQuery := {
  q_subject : option string;
  q_tenant : option string;
  q_category : option EventCategory;
  q_from : option Z;
  q_to : option Z;
  q_limit : Z;
}.

#[export] Instance query_fields : Fields LedgerQuery := λ q, {|
  q_subject := q_subject q; q_tenant := q_tenant q; q_category := q_category q;
  q_from := q_from q; q_to := q_to q; q_limit := q_limit q |}.

Definition MAX_PAGE : Z := 500.

#[export] Instance event_category_eq_dec : EqDecision EventCategory.
Proof. solve_decision. Defined.

(** [$n IS NULL OR column = $n] *)
Definition matches {A} `{EqDecision A} (filter : option A) (column : option A) : bool :=
  match filter with None => true | Some a => bool_decide (column = Some a) end.

Definition selects (q : LedgerQuery) (r : AuditRecord) : bool :=
  let at_ms := timestamp_millis (occurred_at (event r)) in
  matches (q_subject q) (subject (event r))
  && matches (q_tenant q) (tenant (event r))
  && matches (q_category q) (Some (category (event r)))
  && match q_from q with None => true | Some t => timestamp_millis t <=? at_ms end
  && match q_to q with None => true | Some t => at_ms <=? timestamp_millis t end.

Definition recorded_ms (r : AuditRecord) : Z := timestamp_millis (recorded_at r).

Fixpoint insert_recorded (r : AuditRecord) (l : list AuditRecord) : list AuditRecord :=
  match l with
  | [] => [r]
  | x :: l' => if recorded_ms r <=? recorded_ms x then r :: l else x :: insert_recorded r l'
  end.

Definition page_limit (q : LedgerQuery) : Z :=
  if (q_limit q =? 0) || (MAX_PAGE <? as_signed 64 (q_limit q)) then MAX_PAGE
  else as_signed 64 (q_limit q).

Record ExportManifest := {
  manifest_export_id : string;
  record_count : Z;
  content_hash_hex : string;
  artifact_ref : string;
  generated_at : Z;
}.

Section Reads.
Context `{Sha256}.
(** The order in which the database scans the table decides among equal keys. *)
Context (scan : list AuditRecord → list AuditRecord).

Definition select_page (q : LedgerQuery) (l : list AuditRecord) : list AuditRecord :=
  take (Z.to_nat (page_limit q)) (foldr insert_recorded [] (filter (λ r, selects q r = true) (scan l))).

(** [PgLedger::query]; Postgres refuses a negative limit. *)
Definition ledger_query (q : LedgerQuery) : use_case (list AuditRecord) :=
  let! _ := store LedgerStoreUnavailable in
  if page_limit q <? 0 then throw LedgerStoreUnavailable
  else gets (λ w, select_page q (rows w)).

(** [QueryHandler::query] *)
Definition query (q : LedgerQuery) : use_case (list AuditRecord) := ledger_query q.

Definition bundle_bytes (records : list AuditRecord) : Bytes :=
  foldl (λ w r, put_str (record_hash (link r)) (put_u64 (record_seq r) (put_str (partition r) w)))
    (put_u64 (Z.of_nat (length records)) []) records.

(** [ExportHandler::export] *)
Definition export (export_id : string) (q : LedgerQuery) : use_case ExportManifest :=
  let! records := ledger_query q in
  let content := bundle_bytes records in
  let! artifact := store_export export_id content in
  let! now := gets clock in
  done_with {| manifest_export_id := export_id;
               record_count := Z.of_nat (length records);
               content_hash_hex := digest content;
               artifact_ref := artifact;
               generated_at := now |}.
End Reads.

(** ** The caller gate *)

Definition PERM_RECORD : string := "audit:record".
Definition PERM_READ : string := "audit:read".
Definition PERM_EXPORT : string := "audit:export".
Definition PERM_VERIFY : string := "audit:verify".

Record Caller := {
  principal : string;
  permissions : gset string;
}.

Definition require (c : Caller) (permission : string) (denial : AuditError) :
    result AuditError unit :=
  if bool_decide (permission ∈ permissions c) then Ok tt else Err denial.

Class CallerGate := gate_verify : option string → result AuditError Caller.

(** The verifier of edge tokens: the principal and its permissions, or [None]. *)
Definition AuthContextCallerGate (decode : string → option (string * list string)) : CallerGate :=
  λ bearer,
    token ← ok_or bearer CallerUnauthenticated;
    p ← ok_or (decode token) CallerUnauthenticated;
    Ok {| principal := p.1; permissions := list_to_set p.2 |}.

Definition DenyAllGate : CallerGate := λ _, Err CallerUnauthenticated.

(** [build_gate]: without a configured verifier everything is denied. *)
Definition build_gate (authz : option (string → option (string * list string))) : CallerGate :=
  match authz with Some decode => AuthContextCallerGate decode | None => DenyAllGate end.

(** [MetadataValue::to_str]: visible ASCII, blanks and tabs. *)
Definition header_text (v : string) : option string :=
  if forallb (λ c, byte_in c 32 126 || byte_is c 9) (String.list_ascii_of_string v)
  then Some v else None.

(** [split_once(' ')] *)
Fixpoint split_once_space (s : string) : option (string * string) :=
  match s with
  | "" => None
  | String c s' =>
      if byte_is c 32 then Some ("", s')
      else match split_once_space s' with
           | Some (a, b) => Some (String c a, b)
           | None => None
           end
  end%string.

Definition bearer_of (authorization : option string) : option string :=
  v ← authorization;
  v ← header_text v;
  p ← split_once_space v;
  if String.eqb (map_bytes ascii_lower p.1) "bearer"
  then (if String.eqb (trim p.2) "" then None else Some (trim p.2)) else None.

Definition authorize (gate : CallerGate) (authorization : option string) (permission : string)
    (denial : AuditError) : result AuditError Caller :=
  caller ← gate (bearer_of authorization);
  _ ← require caller permission denial;
  Ok caller.

(** ** The protobuf mapping *)

Module Pb.
Record Timestamp := { seconds : Z; nanos : Z }.

Record Actor := { type_ : Z; actor_pseudonym : string; session_ref : string }.

Record PiiEnvelope := {
  subject_key_id : string; ciphertext : Bytes; nonce : Bytes; algorithm : string }.

Record AuditEvent := {
  event_id : string; category : Z; subject_pseudonym : string; tenant_id : string;
  actor : option Actor; action : string; resource : option (string * string); outcome : Z;
  lawful_basis : Z; source_service : string; correlation_id : string;
  occurred_at : option Timestamp; pii : option PiiEnvelope; attributes : gmap string string }.

Record AuditRecord := {
  event : option AuditEvent; partition_key : string; sequence_no : Z; record_hash : string;
  prev_hash : string; recorded_at : option Timestamp; pii_erased : bool }.

Record RecordPrivilegedRequest := { req_event : option AuditEvent; privileged_action : Z }.

Record RecordPrivilegedResponse := {
  proof_event_id : string; proof_partition_key : string; proof_sequence_no : Z;
  proof_record_hash : string; committed_at : option Timestamp }.

Record QueryRequest := {
  query_subject : string; query_tenant : string; query_category : Z;
  query_from : option Timestamp; query_to : option Timestamp; page_size : Z }.

Record ExportRequest := {
  export_subject : string; export_tenant : string; export_from : option Timestamp;
  export_to : option Timestamp }.

Record ExportManifest := {
  export_id : string; record_count : Z; content_hash : string; artifact_ref : string;
  generated_at : option Timestamp }.

Record VerifyIntegrityResponse := {
  status : Z; verified_through_sequence : Z; checkpoint_root : string;
  divergence_at_sequence : Z }.
End Pb.

Definition ts_to_pb (t : Z) : Pb.Timestamp :=
  {| Pb.seconds := t / NS; Pb.nanos := t mod NS |}.

(** [DateTime::from_timestamp(seconds, nanos)]; [None] outside chrono's range. *)
Class UtcRange := from_timestamp : Z → Z → option Z.

Definition ts_from_pb `{UtcRange} (ts : option Pb.Timestamp) : Z :=
  default 0 (t ← ts; from_timestamp (Pb.seconds t) (Z.max (Pb.nanos t) 0)).

Definition category_to_pb (c : EventCategory) : Z :=
  match c with
  | Authentication => 1 | Authorization => 2 | Moderation => 3 | Consent => 4 | DataAccess => 5
  | DataExport => 6 | DataErasure => 7 | PrivilegedAction => 8 | Retention => 9 | Identity => 10
  end.

Definition category_from_pb (v : Z) : result AuditError EventCategory :=
  match v with
  | 1 => Ok Authentication | 2 => Ok Authorization | 3 => Ok Moderation | 4 => Ok Consent
  | 5 => Ok DataAccess | 6 => Ok DataExport | 7 => Ok DataErasure | 8 => Ok PrivilegedAction
  | 9 => Ok Retention | 10 => Ok Identity
  | _ => Err (UnknownEventCategory (pretty v))
  end.

Definition actor_type_to_pb (a : ActorType) : Z :=
  match a with UserActor => 1 | AdminActor => 2 | ServiceActor => 3 | SystemActor => 4 end.

Definition actor_type_from_pb (v : Z) : ActorType :=
  match v with 1 => UserActor | 2 => AdminActor | 3 => ServiceActor | _ => SystemActor end.

Definition outcome_to_pb (o : EventOutcome) : Z :=
  match o with Permitted => 1 | Denied => 2 | Executed => 3 | Failed => 4 end.

Definition outcome_from_pb (v : Z) : result AuditError EventOutcome :=
  match v with
  | 1 => Ok Permitted | 2 => Ok Denied | 3 => Ok Executed | 4 => Ok Failed
  | _ => Err (MalformedAuditEvent "unspecified outcome")
  end.

Definition lawful_basis_to_pb (b : LawfulBasis) : Z :=
  match b with
  | Unspecified => 0 | BasisConsent => 1 | Contract => 2 | LegalObligation => 3
  | VitalInterests => 4 | PublicTask => 5 | LegitimateInterests => 6
  end.

Definition lawful_basis_from_pb (v : Z) : LawfulBasis :=
  match v with
  | 1 => BasisConsent | 2 => Contract | 3 => LegalObligation | 4 => VitalInterests
  | 5 => PublicTask | 6 => LegitimateInterests | _ => Unspecified
  end.

Inductive PrivilegedActionType := BreakGlassAccess | LegalHoldPlace | LegalHoldRelease.

Definition privileged_action_from_pb (v : Z) : result AuditError PrivilegedActionType :=
  match v with
  | 1 => Ok BreakGlassAccess | 2 => Ok LegalHoldPlace | 3 => Ok LegalHoldRelease
  | _ => Err (MalformedAuditEvent "unspecified privileged action")
  end.

Definition optional_id (value : string) : option string :=
  if trim_is_empty value then None else Some value.

Definition actor_to_pb (a : Actor) : Pb.Actor :=
  {| Pb.type_ := actor_type_to_pb (actor_type a); Pb.actor_pseudonym := actor_pseudonym a;
     Pb.session_ref := session_ref a |}.

Definition actor_from_pb (a : Pb.Actor) : result AuditError Actor :=
  pseudonym ← string_id "actor_pseudonym" (Pb.actor_pseudonym a);
  Ok {| actor_type := actor_type_from_pb (Pb.type_ a); actor_pseudonym := pseudonym;
        session_ref := Pb.session_ref a |}.

Definition pii_to_pb (p : PiiEnvelope) : Pb.PiiEnvelope :=
  {| Pb.subject_key_id := subject_key_ref p; Pb.ciphertext := ciphertext p;
     Pb.nonce := nonce p; Pb.algorithm := algorithm p |}.

Definition pii_from_pb (p : Pb.PiiEnvelope) : result AuditError PiiEnvelope :=
  key ← string_id "subject_key_ref" (Pb.subject_key_id p);
  Ok {| subject_key_ref := key; ciphertext := Pb.ciphertext p; nonce := Pb.nonce p;
        algorithm := Pb.algorithm p |}.

(** A protobuf map and the [BTreeMap] it is collected into. *)
Definition btree_of (m : gmap string string) : list (string * string) :=
  foldr (λ kv, btree_insert kv.1 kv.2) [] (map_to_list m).

Definition event_to_pb (e : AuditEvent) : Pb.AuditEvent := {|
  Pb.event_id := event_id e; Pb.category := category_to_pb (category e);
  Pb.subject_pseudonym := default "" (subject e); Pb.tenant_id := default "" (tenant e);
  Pb.actor := Some (actor_to_pb (actor e)); Pb.action := action e;
  Pb.resource := Some (resource_type (resource e), resource_id (resource e));
  Pb.outcome := outcome_to_pb (outcome e); Pb.lawful_basis := lawful_basis_to_pb (lawful_basis e);
  Pb.source_service := source_service e; Pb.correlation_id := correlation_id e;
  Pb.occurred_at := Some (ts_to_pb (occurred_at e)); Pb.pii := pii_to_pb <$> pii e;
  Pb.attributes := list_to_map (attributes e) |}.

Definition event_from_pb `{UtcRange} (m : Pb.AuditEvent) :
    result AuditError AuditEvent :=
  category ← category_from_pb (Pb.category m);
  actor ← (a ← ok_or (Pb.actor m) (MalformedAuditEvent "missing actor"); actor_from_pb a);
  let resource := match Pb.resource m with
                  | Some r => {| resource_type := r.1; resource_id := r.2 |}
                  | None => {| resource_type := ""; resource_id := "" |}
                  end in
  event_id ← string_id "event_id" (Pb.event_id m);
  subject ← transpose (string_id "subject_pseudonym" <$> optional_id (Pb.subject_pseudonym m));
  tenant ← transpose (string_id "tenant_id" <$> optional_id (Pb.tenant_id m));
  out ← outcome_from_pb (Pb.outcome m);
  pii ← transpose (pii_from_pb <$> Pb.pii m);
  try_new {|
    AuditChain.event_id := event_id; AuditChain.category := category;
    AuditChain.subject := subject; AuditChain.tenant := tenant; AuditChain.actor := actor;
    AuditChain.action := Pb.action m; AuditChain.resource := resource;
    AuditChain.outcome := out; AuditChain.lawful_basis := lawful_basis_from_pb (Pb.lawful_basis m);
    AuditChain.source_service := Pb.source_service m;
    AuditChain.correlation_id := Pb.correlation_id m;
    AuditChain.occurred_at := ts_from_pb (Pb.occurred_at m);
    AuditChain.pii := pii; AuditChain.attributes := btree_of (Pb.attributes m) |}.

Definition record_to_pb (r : AuditRecord) : Pb.AuditRecord := {|
  Pb.event := Some (event_to_pb (event r)); Pb.partition_key := partition r;
  Pb.sequence_no := record_seq r; Pb.record_hash := record_hash (link r);
  Pb.prev_hash := prev_hash (link r); Pb.recorded_at := Some (ts_to_pb (recorded_at r));
  Pb.pii_erased := pii_erased r |}.

Definition proof_to_pb (p : RecordProof) : Pb.RecordPrivilegedResponse := {|
  Pb.proof_event_id := proof_event_id p; Pb.proof_partition_key := proof_partition p;
  Pb.proof_sequence_no := proof_sequence p; Pb.proof_record_hash := proof_record_hash p;
  Pb.committed_at := Some (ts_to_pb (committed_at p)) |}.

Definition integrity_status_to_pb (s : IntegrityStatus) : Z :=
  match s with Verified => 1 | HashMismatch => 2 | Gap => 3 | CheckpointDivergence => 4 end.

Definition integrity_report_to_pb (r : IntegrityReport) : Pb.VerifyIntegrityResponse := {|
  Pb.status := integrity_status_to_pb (status r);
  Pb.verified_through_sequence := verified_through r;
  Pb.checkpoint_root := default "" (checkpoint_root r);
  Pb.divergence_at_sequence := default 0 (divergence_at r) |}.

Definition export_manifest_to_pb (m : ExportManifest) : Pb.ExportManifest := {|
  Pb.export_id := manifest_export_id m; Pb.record_count := record_count m;
  Pb.content_hash := content_hash_hex m; Pb.artifact_ref := artifact_ref m;
  Pb.generated_at := Some (ts_to_pb (generated_at m)) |}.

Definition query_from_pb `{UtcRange} (m : Pb.QueryRequest) : result AuditError LedgerQuery :=
  subject ← transpose (string_id "subject_pseudonym" <$> optional_id (Pb.query_subject m));
  tenant ← transpose (string_id "tenant_id" <$> optional_id (Pb.query_tenant m));
  category ← (if Pb.query_category m =? 0 then Ok None
              else Some <$> category_from_pb (Pb.query_category m));
  Ok {| q_subject := subject; q_tenant := tenant; q_category := category;
        q_from := (λ t, ts_from_pb (Some t)) <$> Pb.query_from m;
        q_to := (λ t, ts_from_pb (Some t)) <$> Pb.query_to m;
        q_limit := Pb.page_size m |}.

(** ** The calls *)

Inductive StatusCode :=
  | InvalidArgument | Unauthenticated | PermissionDenied | NotFound | Aborted | Unavailable
  | DeadlineExceeded | Internal.

Definition to_status (e : AuditError) : StatusCode :=
  match audit_http_status e with
  | 400 | 422 => InvalidArgument
  | 401 => Unauthenticated
  | 403 => PermissionDenied
  | 404 | 410 => NotFound
  | 409 => Aborted
  | 503 => Unavailable
  | 504 => DeadlineExceeded
  | _ => Internal
  end.

Abbreviation rpc A := (act Ledger StatusCode A).

(** [.map_err(to_status)?] *)
Definition serving {A} (m : use_case A) : rpc A := λ w, let '(w, r) := m w in (w, map_err to_status r).

Section Handler.
Context `{Sha256} `{UtcRange} (gate : CallerGate) (scan : list AuditRecord → list AuditRecord).
Context (others : nat → Ledger → Ledger).
(** [Some w] when the commit deadline elapses first, leaving the stores as [w]. *)
Context (elapsed : Ledger → option Ledger).

Definition gated (authorization : option string) (permission : string) (denial : AuditError) :
    rpc unit :=
  serving (let! _ := lift (authorize gate authorization permission denial) in done_with tt).

Definition record_privileged_rpc (authorization : option string) (req : Pb.RecordPrivilegedRequest) :
    rpc Pb.RecordPrivilegedResponse :=
  let! _ := gated authorization PERM_RECORD RecordForbidden in
  let! m := lift (ok_or (Pb.req_event req) InvalidArgument) in
  let! e := serving (lift (event_from_pb m)) in
  let! _ := serving (lift (privileged_action_from_pb (Pb.privileged_action req))) in
  let! proof := λ w, match elapsed w with
                     | None => serving (record_privileged others e) w
                     | Some w' => (w', Err (to_status DurabilityNotConfirmed))
                     end in
  done_with (proof_to_pb proof).

Definition query_rpc (authorization : option string) (req : Pb.QueryRequest) :
    rpc (list Pb.AuditRecord) :=
  let! _ := gated authorization PERM_READ QueryForbidden in
  let! spec := serving (lift (query_from_pb req)) in
  let! records := serving (query scan spec) in
  done_with (record_to_pb <$> records).

Definition export_rpc (new_id : string) (authorization : option string) (req : Pb.ExportRequest) :
    rpc Pb.ExportManifest :=
  let! _ := gated authorization PERM_EXPORT ExportForbidden in
  let! subject := serving (lift (transpose (string_id "subject_pseudonym" <$>
                                            optional_id (Pb.export_subject req)))) in
  let! tenant := serving (lift (transpose (string_id "tenant_id" <$>
                                           optional_id (Pb.export_tenant req)))) in
  let spec := {| q_subject := subject; q_tenant := tenant; q_category := None;
                 q_from := (λ t, ts_from_pb (Some t)) <$> Pb.export_from req;
                 q_to := (λ t, ts_from_pb (Some t)) <$> Pb.export_to req;
                 q_limit := MAX_PAGE |} in
  let! manifest := serving (export scan new_id spec) in
  done_with (export_manifest_to_pb manifest).

Definition verify_integrity_rpc (authorization : option string) (partition_key : string) :
    rpc Pb.VerifyIntegrityResponse :=
  let! _ := gated authorization PERM_VERIFY QueryForbidden in
  let! report := (if trim_is_empty partition_key then serving verify_global
                  else let! p := serving (lift (string_id "partition_key" partition_key)) in
                       serving (verify_partition p)) in
  done_with (integrity_report_to_pb report).
End Handler.
