(* ===== verification/AuditAccessProofs.v ===== *)
(** * Audit: the guarded surface answers right

    Every call runs the gate before it touches the stores; a query returns exactly the
    selected records, oldest first and at most one page of them; what the protobuf mapping
    sends back is what it was sent. *)

From stdpp Require Import sorting pretty.
From S2P Require Import Prelude AccountDomain AuditChain AuditProofs AuditLedger AuditLedgerProofs.
From S2P Require Import AuditGlobal AuditDecode AuditFeedsProofs AuditAccess.
Local Open Scope Z_scope.

(** ** [BTreeMap]s *)

Definition key_lt (a b : string * string) : Prop := string_le a.1 b.1 ∧ a.1 ≠ b.1.

Abbreviation btree := (StronglySorted key_lt).

Lemma key_lt_trans a b c : key_lt a b → key_lt b c → key_lt a c.
Proof.
  intros [H1 N1] [H2 N2]. split; [by etrans|]. intros He. apply N1, (anti_symm string_le); [done|].
  by rewrite He.
Qed.

Lemma elem_of_btree_insert k v (l : list (string * string)) x :
  x ∈ btree_insert k v l → x = (k, v) ∨ x ∈ l.
Proof.
  induction l as [|[k' v'] l IH]; simpl; [set_solver|].
  destruct (String.eqb k k'); [set_solver|]. destruct (String.leb k k'); set_solver.
Qed.

Lemma btree_insert_sorted k v l : btree l → btree (btree_insert k v l).
Proof.
  induction 1 as [|[k' v'] l Hl IH Hall]; simpl; [by repeat constructor|].
  rewrite list.Forall_forall in Hall.
  destruct (String.eqb_spec k k') as [->|Hne].
  { constructor; [done|]. apply list.Forall_forall. intros y Hy. by apply (Hall y). }
  destruct (String.leb k k') eqn:Hle; constructor.
  - by constructor; [|apply list.Forall_forall].
  - apply list.Forall_forall. intros y [->|Hy]%elem_of_cons; [done|].
    apply (key_lt_trans _ (k', v')); [done|by apply Hall].
  - done.
  - apply list.Forall_forall. intros y [->|Hy]%elem_of_btree_insert; [|by apply Hall].
    split; simpl; [|congruence]. destruct (total string_le k k') as [Hk|Hk]; [|done].
    unfold string_le in Hk. congruence.
Qed.

Lemma btree_insert_map k v l :
  list_to_map (btree_insert k v l) = <[k := v]> (list_to_map l : gmap string string).
Proof.
  induction l as [|[k' v'] l IH]; simpl; [done|].
  destruct (String.eqb_spec k k') as [->|Hne]; simpl; [by rewrite insert_insert_eq|].
  destruct (String.leb k k'); simpl; [done|]. rewrite IH. by apply insert_insert_ne.
Qed.

Lemma btree_nodup l : btree l → NoDup l.*1.
Proof.
  induction 1 as [|x l Hl IH Hall]; simpl; [constructor|].
  rewrite list.Forall_forall in Hall. apply list.NoDup_cons. split; [|done].
  intros (y & He & Hy)%list_elem_of_fmap. by destruct (Hall y Hy).
Qed.

(** Two ordered association lists of one map are equal. *)
Lemma btree_unique l1 l2 :
  btree l1 → btree l2 → (list_to_map l1 : gmap string string) = list_to_map l2 → l1 = l2.
Proof.
  intros H1 H2 Hm. apply (StronglySorted_unique_strong key_lt); [|done|done|].
  - intros x y _ _ [Hxy Hn] [Hyx _]. by destruct Hn; apply (anti_symm string_le).
  - apply (list_to_map_inj (M := gmap string)); [by apply btree_nodup..|exact Hm].
Qed.

Lemma btree_of_sorted m : btree (btree_of m) ∧ list_to_map (btree_of m) = m.
Proof.
  unfold btree_of. assert (Hall : ∀ l : list (string * string),
    btree (foldr (λ kv, btree_insert kv.1 kv.2) [] l) ∧
    list_to_map (foldr (λ kv, btree_insert kv.1 kv.2) [] l) = (list_to_map l : gmap string string)).
  { induction l as [|[k v] l [IHs IHm]]; simpl; [by repeat constructor|].
    split; [by apply btree_insert_sorted|]. by rewrite btree_insert_map, IHm. }
  destruct (Hall (map_to_list m)) as [Hs Hm]. by rewrite Hm, list_to_map_to_list.
Qed.

Lemma btree_of_list l : btree l → btree_of (list_to_map l) = l.
Proof. intros Hl. destruct (btree_of_sorted (list_to_map l)) as [Hs Hm]. by apply btree_unique. Qed.

(** ** The protobuf mapping *)

(** What a validated event satisfies by construction. *)
Record valid_event `{UtcRange} (e : AuditEvent) : Prop := {
  valid_id : trim_is_empty (event_id e) = false;
  valid_subject s : subject e = Some s → trim_is_empty s = false;
  valid_tenant t : tenant e = Some t → trim_is_empty t = false;
  valid_actor : trim_is_empty (actor_pseudonym (actor e)) = false;
  valid_key p : pii e = Some p → trim_is_empty (subject_key_ref p) = false;
  valid_new : try_new e = Ok e;
  valid_attributes : btree (attributes e);
  valid_instant : from_timestamp (occurred_at e / NS) (occurred_at e mod NS) = Some (occurred_at e);
}.

Lemma optional_id_back o :
  (∀ s, o = Some s → trim_is_empty s = false) →
  optional_id (default "" o) = o ∧ ∀ f, transpose (string_id f <$> o) = Ok o.
Proof.
  destruct o as [s|]; intros Ho; [|done]. specialize (Ho s eq_refl).
  unfold optional_id, string_id. simpl. by rewrite Ho.
Qed.

(** A privileged event survives the wire.  Decoding the protobuf form of any validated
    event, its attributes sent as an unordered map and its instant as seconds and
    nanoseconds, yields the event. *)
Theorem event_survives_the_wire `{UtcRange} (e : AuditEvent) :
  valid_event e → event_from_pb (event_to_pb e) = Ok e.
Proof.
  intros [Hid Hsub Hten Hact Hkey Hnew Hattr Hat]. unfold event_from_pb, event_to_pb, ts_from_pb.
  cbn [Pb.category Pb.actor Pb.resource Pb.event_id Pb.subject_pseudonym Pb.tenant_id Pb.outcome
    Pb.pii Pb.action Pb.lawful_basis Pb.source_service Pb.correlation_id Pb.occurred_at Pb.attributes].
  assert (Hcat : category_from_pb (category_to_pb (category e)) = Ok (category e)) by (by destruct (category e)).
  assert (Hout : outcome_from_pb (outcome_to_pb (outcome e)) = Ok (outcome e)) by (by destruct (outcome e)).
  assert (Hbasis : lawful_basis_from_pb (lawful_basis_to_pb (lawful_basis e)) = lawful_basis e)
    by (by destruct (lawful_basis e)).
  assert (Hactor : actor_from_pb (actor_to_pb (actor e)) = Ok (actor e)).
  { unfold actor_from_pb, actor_to_pb, string_id. simpl. rewrite Hact. simpl.
    destruct (actor e) as [ty p s]. simpl. by destruct ty. }
  assert (Hpii : transpose (pii_from_pb <$> (pii_to_pb <$> pii e)) = Ok (pii e)).
  { destruct (pii e) as [p|]; [|done]. unfold pii_from_pb, pii_to_pb, string_id. simpl.
    rewrite (Hkey p eq_refl). by destruct p. }
  assert (Hevid : string_id "event_id" (event_id e) = Ok (event_id e)) by (unfold string_id; by rewrite Hid).
  destruct (optional_id_back _ Hsub) as [Hs1 Hs2]. destruct (optional_id_back _ Hten) as [Ht1 Ht2].
  rewrite Hcat. cbn [mbind result_bind]. cbn [ok_or]. cbn [mbind result_bind]. rewrite Hactor.
  cbn [mbind result_bind]. rewrite Hevid. cbn [mbind result_bind].
  rewrite Hs1, Hs2. cbn [mbind result_bind]. rewrite Ht1, Ht2. cbn [mbind result_bind].
  rewrite Hout. cbn [mbind result_bind]. rewrite Hpii. cbn [mbind result_bind].
  rewrite Hbasis, btree_of_list by done. unfold ts_to_pb. cbn [Pb.seconds Pb.nanos mbind option_bind].
  rewrite Z.max_l by (apply Z.mod_pos_bound; unfold NS; lia). rewrite Hat. cbn [default].
  transitivity (try_new e); [f_equal|exact Hnew]. by destruct e as [? ? ? ? ? ? [] ? ? ? ? ? ? ?].
Qed.

(** ** Queries *)

Definition recorded_le (x y : AuditRecord) : Prop := recorded_ms x ≤ recorded_ms y.

Lemma insert_recorded_perm r l : insert_recorded r l ≡ₚ r :: l.
Proof.
  induction l as [|x l IH]; simpl; [done|]. destruct (_ <=? _); [done|]. rewrite IH. by constructor.
Qed.

Lemma sort_recorded_perm l : foldr insert_recorded [] l ≡ₚ l.
Proof. induction l as [|x l IH]; simpl; [done|]. by rewrite insert_recorded_perm, IH. Qed.

Lemma insert_recorded_sorted r l :
  StronglySorted recorded_le l → StronglySorted recorded_le (insert_recorded r l).
Proof.
  induction 1 as [|x l Hl IH Hall]; simpl; [by repeat constructor|].
  destruct (recorded_ms r <=? recorded_ms x) eqn:Hle; zbool; (constructor; [by try constructor|]).
  - constructor; [exact Hle|]. rewrite list.Forall_forall in Hall |- *.
    intros y Hy. specialize (Hall y Hy). unfold recorded_le in *. lia.
  - rewrite insert_recorded_perm. constructor; [unfold recorded_le; lia|exact Hall].
Qed.

Lemma sort_recorded_sorted l : StronglySorted recorded_le (foldr insert_recorded [] l).
Proof. induction l; simpl; [constructor|by apply insert_recorded_sorted]. Qed.

Lemma page_limit_bound q :
  0 ≤ q_limit q < 2 ^ 63 → 0 < page_limit q ≤ MAX_PAGE.
Proof.
  intros Hq. unfold page_limit, MAX_PAGE. rewrite as_signed_small by lia.
  destruct (q_limit q =? 0) eqn:H0; simpl; [lia|]. destruct (500 <? q_limit q) eqn:H1; [lia|].
  apply Z.eqb_neq in H0. apply Z.ltb_ge in H1. lia.
Qed.

Section Queries.
Context `{Sha256} (scan : list AuditRecord → list AuditRecord) (Hscan : ∀ l, scan l ≡ₚ l).

Lemma select_page_spec q l :
  ∃ rest, select_page scan q l ++ rest ≡ₚ filter (λ r, selects q r = true) l ∧
    StronglySorted recorded_le (select_page scan q l ++ rest) ∧
    (rest = [] ∨ length (select_page scan q l) = Z.to_nat (page_limit q)).
Proof.
  set (sorted := foldr insert_recorded [] (filter (λ r, selects q r = true) (scan l))).
  exists (drop (Z.to_nat (page_limit q)) sorted). unfold select_page. fold sorted.
  rewrite take_drop. split_and!; [|apply sort_recorded_sorted|].
  - unfold sorted. rewrite sort_recorded_perm. by rewrite (Hscan l).
  - rewrite length_take. destruct (decide (length sorted ≤ Z.to_nat (page_limit q))%nat) as [Hle|Hgt].
    + left. by apply drop_ge.
    + right. lia.
Qed.

Lemma ledger_query_run q w :
  (page_limit q <? 0) = false →
  ledger_query scan q w = (set_faults (tail (faults w)) w,
    if next_fault w then Err LedgerStoreUnavailable else Ok (select_page scan q (rows w))).
Proof.
  intros Hq. unfold ledger_query, gets. rewrite act_bind_run, store_run, Hq.
  by destruct (next_fault w).
Qed.

Lemma export_count id q w w' m :
  (page_limit q <? 0) = false → export scan id q w = (w', Ok m) →
  record_count m = Z.of_nat (length (select_page scan q (rows w))).
Proof.
  intros Hq. unfold export. rewrite act_bind_run, ledger_query_run by done.
  destruct (next_fault w); [done|]. cbv zeta. rewrite act_bind_run.
  destruct (store_export id _ _) as [w1 [a|e]]; [|done].
  unfold gets, done_with. rewrite act_bind_run. by intros [= _ <-].
Qed.

(** A query answers its filter, and an export is silently one page.  A query that
    returns changes nothing and yields matching records only, the oldest first, at most
    500; it leaves a match out only when the page is full of records no younger.  An
    export returns the digest and the bundle of such a page: with more than 500 matches its
    manifest reports exactly 500 records and nothing tells the rest is missing. *)
Theorem query_answers_the_filter (q : LedgerQuery) (w w' : Ledger) (out : list AuditRecord) :
  0 ≤ q_limit q < 2 ^ 63 → query scan q w = (w', Ok out) →
  rows w' = rows w ∧ (length out ≤ 500)%nat ∧
  (∃ rest, out ++ rest ≡ₚ filter (λ r, selects q r = true) (rows w) ∧
     StronglySorted recorded_le (out ++ rest) ∧
     (rest = [] ∨ length out = Z.to_nat (page_limit q))) ∧
  (∀ id x x' m, rows x = rows w → export scan id (q <| q_limit := MAX_PAGE |>) x = (x', Ok m) →
     (500 < length (filter (λ r, selects q r = true) (rows w)))%nat → record_count m = 500).
Proof.
  intros Hq. pose proof (page_limit_bound q Hq) as Hpage. unfold query.
  rewrite ledger_query_run by (apply Z.ltb_ge; lia).
  destruct (next_fault w); [done|]. intros [= <- <-]. split; [done|]. split; [|split; [apply select_page_spec|]].
  - unfold select_page. rewrite length_take. unfold MAX_PAGE in Hpage. lia.
  - intros id x x' m Hx Hexp Hmany. apply export_count in Hexp; [|reflexivity]. rewrite Hexp, Hx.
    set (q' := q <| q_limit := MAX_PAGE |>).
    destruct (select_page_spec q' (rows w)) as (rest & Hperm & _ & Hfull).
    change (filter (λ r, selects q' r = true) (rows w)) with (filter (λ r, selects q r = true) (rows w)) in Hperm.
    apply Permutation_length in Hperm. rewrite length_app in Hperm.
    change (page_limit q') with 500 in Hfull.
    assert (length (select_page scan q' (rows w)) ≤ 500)%nat
      by (unfold select_page; rewrite length_take; change (page_limit q') with 500; lia).
    destruct Hfull as [->|Hfull]; simpl in Hperm; lia.
Qed.
End Queries.

(** ** The gate *)

Inductive Call :=
  | CallRecord (req : Pb.RecordPrivilegedRequest)
  | CallQuery (req : Pb.QueryRequest)
  | CallExport (new_id : string) (req : Pb.ExportRequest)
  | CallVerify (partition_key : string).

Definition permission_of (c : Call) : string :=
  match c with
  | CallRecord _ => PERM_RECORD
  | CallQuery _ => PERM_READ
  | CallExport _ _ => PERM_EXPORT
  | CallVerify _ => PERM_VERIFY
  end.

Section Gate.
Context `{Sha256} `{UtcRange} (gate : CallerGate) (scan : list AuditRecord → list AuditRecord).
Context (others : nat → Ledger → Ledger) (elapsed : Ledger → option Ledger).

(** A call, its reply dropped. *)
Definition serve (c : Call) (authorization : option string) : rpc unit :=
  match c with
  | CallRecord req => let! _ := record_privileged_rpc gate others elapsed authorization req in done_with tt
  | CallQuery req => let! _ := query_rpc gate scan authorization req in done_with tt
  | CallExport id req => let! _ := export_rpc gate scan id authorization req in done_with tt
  | CallVerify p => let! _ := verify_integrity_rpc gate authorization p in done_with tt
  end.

Lemma gated_run authorization permission denial w :
  gated gate authorization permission denial w =
    (w, map_err to_status (_ ← authorize gate authorization permission denial; Ok tt)).
Proof.
  unfold gated, serving, lift, done_with. rewrite act_bind_run.
  by destruct (authorize _ _ _ _).
Qed.

(** A call whose gate refuses does nothing else. *)
Lemma serve_refused c authorization w :
  ∃ denial, to_status denial = PermissionDenied ∧ ∀ e,
    authorize gate authorization (permission_of c) denial = Err e →
    serve c authorization w = (w, Err (to_status e)).
Proof.
  destruct c; eexists; (split; [|intros e He; cbn [serve];
    unfold record_privileged_rpc, query_rpc, export_rpc, verify_integrity_rpc;
    rewrite act_bind_run, act_bind_run, gated_run; cbn [permission_of] in He; rewrite He; reflexivity]);
    reflexivity.
Qed.

(** C37. Every call is guarded.  A call without a verified caller, or whose caller lacks the
    call's own permission, reads and changes nothing and is answered with the gate's denial
    or with a permission error; without a configured verifier every call is refused; and a
    privileged action is acknowledged only with the proof of a record of its event that is
    in the ledger. *)
Theorem every_call_is_guarded (c : Call) (authorization : option string) (w : Ledger) :
  (∀ e, gate (bearer_of authorization) = Err e →
     serve c authorization w = (w, Err (to_status e))) ∧
  (∀ caller, gate (bearer_of authorization) = Ok caller →
     permission_of c ∉ permissions caller →
     serve c authorization w = (w, Err PermissionDenied)) ∧
  (gate = build_gate None → serve c authorization w = (w, Err Unauthenticated)) ∧
  (∀ req w' reply,
     record_privileged_rpc gate others elapsed authorization req w = (w', Ok reply) →
     ∃ m e r, Pb.req_event req = Some m ∧ event_from_pb m = Ok e ∧ r ∈ rows w' ∧
       event_id (event r) = event_id e ∧ reply = proof_to_pb (proof_of r)).
Proof.
  destruct (serve_refused c authorization w) as (denial & Hden & Hserve).
  assert (Hgate : ∀ e, gate (bearer_of authorization) = Err e →
    serve c authorization w = (w, Err (to_status e))).
  { intros e He. apply Hserve. unfold authorize. by rewrite He. }
  split_and!; [exact Hgate|..].
  - intros caller Hc Hp. rewrite <- Hden. apply Hserve. unfold authorize. rewrite Hc. simpl.
    unfold require. by rewrite bool_decide_false.
  - intros Hg. apply (Hgate CallerUnauthenticated). by rewrite Hg.
  - intros req w' reply. unfold record_privileged_rpc, lift, done_with. rewrite act_bind_run, gated_run.
    destruct (authorize gate authorization PERM_RECORD RecordForbidden); simpl; [|done]. rewrite act_bind_run.
    destruct (Pb.req_event req) as [m|]; simpl; [|done]. rewrite act_bind_run.
    unfold serving. destruct (event_from_pb m) as [e|] eqn:He; simpl; [|done]. rewrite act_bind_run.
    destruct (privileged_action_from_pb _); simpl; [|done]. rewrite act_bind_run.
    destruct (elapsed w); [done|]. unfold record_privileged, done_with. rewrite act_bind_run.
    destruct (commit_event others e w) as [w1 [out|err]] eqn:Hc; simpl; [|done]. intros [= <- <-].
    apply commit_records in Hc as (r & Hr & Hid & Hpr & _). exists m, e, r. by rewrite Hpr.
Qed.
End Gate.

(** ** Concrete calls *)

Module Demo.
#[export] Instance utc : UtcRange := λ s n, Some (s * NS + n).

Definition scan (l : list AuditRecord) : list AuditRecord := l.

Lemma demo_event_valid : valid_event (demo_event "e1").
Proof.
  split; try reflexivity; try (intros ? [= <-]; reflexivity). by repeat constructor.
Qed.

Lemma event_survives_the_wire_witness :
  event_from_pb (event_to_pb (demo_event "e1")) = Ok (demo_event "e1").
Proof. apply (event_survives_the_wire (demo_event "e1")). exact demo_event_valid. Defined.

(** An operator who may read but not record. *)
Definition reader : CallerGate :=
  AuthContextCallerGate (λ token, if String.eqb token "t" then Some ("ops"%string, [PERM_READ]) else None).
Definition blank : Pb.RecordPrivilegedRequest := {| Pb.req_event := None; Pb.privileged_action := 1 |}.

Lemma every_call_is_guarded_witness :
  is_ok (authorize reader (Some "bearer t"%string) PERM_READ QueryForbidden) = true ∧
  serve reader scan nobody (λ _, None) (CallRecord blank) (Some "bearer t"%string) empty_ledger
    = (empty_ledger, Err PermissionDenied).
Proof.
  split; [reflexivity|].
  destruct (every_call_is_guarded reader scan nobody (λ _, None) (CallRecord blank)
    (Some "bearer t"%string) empty_ledger) as (_ & Hlacks & _).
  apply (Hlacks {| principal := "ops"; permissions := list_to_set [PERM_READ] |}); [reflexivity|].
  by vm_compute.
Defined.

Definition everything : LedgerQuery := {|
  q_subject := None; q_tenant := Some "t"; q_category := None; q_from := None; q_to := None;
  q_limit := 1 |}.

Lemma query_answers_the_filter_witness :
  ∃ out, (query scan everything second_commit.1).2 = Ok out ∧ (length out ≤ 500)%nat.
Proof.
  destruct (query scan everything second_commit.1) as [w' [out|e]] eqn:Hq; [|by vm_compute in Hq].
  destruct (query_answers_the_filter scan (λ l, reflexivity l) everything second_commit.1 w' out)
    as (_ & Hlen & _); [unfold everything; simpl; lia|exact Hq|].
  exists out. split; [reflexivity|exact Hlen].
Defined.
End Demo.
