(* ===== verification/ModerationDomain.v ===== *)
(** * Moderation: the domain layer

    Models [crates/services/moderation/src/domain], its error type and
    [application/policy.rs]: the subject references and identifiers, the enumerations
    with their textual forms, the [Case], [Decision], [EnforcementAction], [Appeal],
    [Report] and [PenaltyLedger] aggregates, the penalty policy and the domain events.
    Instants and durations are [Z] nanoseconds; a sum of a clock reading and a configured
    duration stays in chrono's range.  Name-based and time-ordered UUIDs are the
    operations of [UuidV5] and [UuidV7]. *)

From S2P Require Import Prelude AccountDomain.
Local Open Scope Z_scope.

(** [Uuid::new_v5], and the UUIDs that [Uuid::now_v7] yields to one call, which are never
    the same twice. *)
Class UuidV5 := { new_v5 : Uuid → string → Uuid }.
Class UuidV7 := {
  now_v7 : nat → Uuid;
  now_v7_inj m n : now_v7 m = now_v7 n → m = n;
}.

(** ** Errors *)

Inductive RedisStorageError :=
  | Timeout (message : string)
  | Disconnected (message : string)
  | Io (message : string)
  | Backpressure
  | Canceled
  | PoolExhausted (message : string)
  | Authentication (message : string)
  | WrongType (message : string)
  | InvalidRedisArgument (message : string)
  | InvalidCommand (message : string)
  | Cluster (message : string)
  | Sentinel (message : string)
  | RedisConfiguration (message : string)
  | Tls (message : string)
  | Protocol (message : string)
  | Parse (message : string)
  | NotFound
  | Unknown (message : string).

Definition redis_http_status (e : RedisStorageError) : Z :=
  match e with
  | Timeout _ | Disconnected _ | Io _ | Backpressure | Canceled | PoolExhausted _ | Cluster _
  | Sentinel _ => 503
  | Authentication _ | RedisConfiguration _ | Tls _ | Protocol _ | InvalidCommand _ | Parse _
  | Unknown _ => 500
  | WrongType _ | InvalidRedisArgument _ => 422
  | NotFound => 404
  end.

Definition redis_is_retryable (e : RedisStorageError) : bool :=
  match e with
  | Timeout _ | Disconnected _ | Io _ | Backpressure | Canceled | PoolExhausted _ | Cluster _
  | Sentinel _ => true
  | _ => false
  end.

(** The evidence history's Scylla errors never surface: its sink is best-effort. *)
Inductive ModerationError :=
  | Records (e : StorageError)
  | Cache (e : RedisStorageError)
  | CaseNotFound (id : string)
  | InvalidCaseTransition (from to : string)
  | CaseAlreadyResolved
  | DecisionNotFound (id : string)
  | DecisionImmutable
  | EnforcementNotFound (id : string)
  | EnforcementAlreadyReversed
  | InvalidEnforcementTransition (from to : string)
  | PolicyVersionNotFound (version : string)
  | UnknownPolicyCategory (category : string)
  | AppealNotFound (id : string)
  | AppealAlreadyResolved
  | AppealWindowClosed
  | NotAppealable
  | ReportNotFound (id : string)
  | DuplicateReport
  | SelfReportRejected
  | ContentBlocked (category : string)
  | ScreenUnavailable
  | HashCorpusUnavailable
  | ClassifierUnavailable
  | SignalRejected (reason : string)
  | AccountDirectoryUnavailable
  | DomainViolation (field message : string)
  | InvalidSubjectRef (message : string)
  | InvalidIdentifier (text : string)
  | ConcurrentModification
  | EventPublishFailed (message : string).

Definition moderation_http_status (e : ModerationError) : Z :=
  match e with
  | Records e => storage_http_status e
  | Cache e => redis_http_status e
  | CaseNotFound _ | DecisionNotFound _ | EnforcementNotFound _ | PolicyVersionNotFound _
  | AppealNotFound _ | ReportNotFound _ => 404
  | CaseAlreadyResolved | DecisionImmutable | EnforcementAlreadyReversed | AppealAlreadyResolved
  | DuplicateReport | ConcurrentModification => 409
  | ContentBlocked _ => 451
  | ScreenUnavailable | HashCorpusUnavailable | ClassifierUnavailable
  | AccountDirectoryUnavailable => 503
  | EventPublishFailed _ => 500
  | _ => 422
  end.

Definition moderation_is_retryable (e : ModerationError) : bool :=
  match e with
  | Records e => storage_is_retryable e
  | Cache e => redis_is_retryable e
  | ScreenUnavailable | HashCorpusUnavailable | ClassifierUnavailable
  | AccountDirectoryUnavailable | ConcurrentModification => true
  | _ => false
  end.

Abbreviation outcome A := (result ModerationError A).

(** ** Enumerations *)

Inductive EntityType := Post | Comment | ChatMessage | Media | AccountEntity | ProfileEntity.
Inductive PolicyCategory :=
  | Spam | Harassment | Hate | ViolentExtremism | Csam | Ncii | SelfHarm | Misinformation
  | OtherCategory.
Inductive ActionType :=
  | NoAction | Warn | VisibilityLimit | AgeGate | RemoveContent | RestrictActor | Suspend | Ban.
Inductive CaseStatus := Open | Triaged | Actioned | Dismissed | Appealed.
Inductive EnforcementStatus := EnforcementActive | Expired | Reversed.
Inductive AppealStatus := Filed | UnderReview | Upheld | Overturned.

#[export] Instance entity_type_eq_dec : EqDecision EntityType.
Proof. solve_decision. Defined.
#[export] Instance policy_category_eq_dec : EqDecision PolicyCategory.
Proof. solve_decision. Defined.
#[export] Instance action_type_eq_dec : EqDecision ActionType.
Proof. solve_decision. Defined.
#[export] Instance case_status_eq_dec : EqDecision CaseStatus.
Proof. solve_decision. Defined.
#[export] Instance enforcement_status_eq_dec : EqDecision EnforcementStatus.
Proof. solve_decision. Defined.
#[export] Instance appeal_status_eq_dec : EqDecision AppealStatus.
Proof. solve_decision. Defined.

Definition entity_type_str (e : EntityType) : string :=
  match e with
  | Post => "post" | Comment => "comment" | ChatMessage => "chat_message" | Media => "media"
  | AccountEntity => "account" | ProfileEntity => "profile"
  end.

Definition category_str (c : PolicyCategory) : string :=
  match c with
  | Spam => "spam" | Harassment => "harassment" | Hate => "hate"
  | ViolentExtremism => "violent_extremism" | Csam => "csam" | Ncii => "ncii"
  | SelfHarm => "self_harm" | Misinformation => "misinformation" | OtherCategory => "other"
  end.

Definition action_str (a : ActionType) : string :=
  match a with
  | NoAction => "no_action" | Warn => "warn" | VisibilityLimit => "visibility_limit"
  | AgeGate => "age_gate" | RemoveContent => "remove_content" | RestrictActor => "restrict_actor"
  | Suspend => "suspend" | Ban => "ban"
  end.

Definition case_status_str (s : CaseStatus) : string :=
  match s with
  | Open => "open" | Triaged => "triaged" | Actioned => "actioned" | Dismissed => "dismissed"
  | Appealed => "appealed"
  end.

Definition enforcement_status_str (s : EnforcementStatus) : string :=
  match s with EnforcementActive => "active" | Expired => "expired" | Reversed => "reversed" end.

Definition appeal_status_str (s : AppealStatus) : string :=
  match s with
  | Filed => "filed" | UnderReview => "under_review" | Upheld => "upheld"
  | Overturned => "overturned"
  end.

(** The values of [all] by their text, which [TryFrom<&str>] matches. *)
Definition value_of {A} (str : A → string) (all : list A) (s : string) : option A :=
  list_find (λ a, str a = s) all ≫= λ found, Some found.2.

Definition parse {A} (str : A → string) (all : list A) (e : ModerationError) (s : string) :
    outcome A := ok_or (value_of str all s) e.

Definition all_entity_types := [Post; Comment; ChatMessage; Media; AccountEntity; ProfileEntity].
Definition all_categories :=
  [Spam; Harassment; Hate; ViolentExtremism; Csam; Ncii; SelfHarm; Misinformation; OtherCategory].
Definition all_actions :=
  [NoAction; Warn; VisibilityLimit; AgeGate; RemoveContent; RestrictActor; Suspend; Ban].
Definition all_case_statuses := [Open; Triaged; Actioned; Dismissed; Appealed].
Definition all_enforcement_statuses := [EnforcementActive; Expired; Reversed].
Definition all_appeal_statuses := [Filed; UnderReview; Upheld; Overturned].

Definition unknown_error (field what s : string) : ModerationError :=
  DomainViolation field ("unknown " +:+ what +:+ ": '" +:+ s +:+ "'").

Definition entity_type_from_str (s : string) : outcome EntityType :=
  parse entity_type_str all_entity_types (unknown_error "entity_type" "entity type" s) s.
Definition category_from_str (s : string) : outcome PolicyCategory :=
  parse category_str all_categories (UnknownPolicyCategory s) s.
Definition action_from_str (s : string) : outcome ActionType :=
  parse action_str all_actions (unknown_error "action_type" "action type" s) s.
Definition case_status_from_str (s : string) : outcome CaseStatus :=
  parse case_status_str all_case_statuses (unknown_error "case_status" "case status" s) s.
Definition enforcement_status_from_str (s : string) : outcome EnforcementStatus :=
  parse enforcement_status_str all_enforcement_statuses
    (unknown_error "enforcement_status" "enforcement status" s) s.
Definition appeal_status_from_str (s : string) : outcome AppealStatus :=
  parse appeal_status_str all_appeal_statuses (unknown_error "appeal_status" "appeal status" s) s.

Lemma entity_type_round_trip e : entity_type_from_str (entity_type_str e) = Ok e.
Proof. by destruct e. Qed.
Lemma category_round_trip c : category_from_str (category_str c) = Ok c.
Proof. by destruct c. Qed.
Lemma action_round_trip a : action_from_str (action_str a) = Ok a.
Proof. by destruct a. Qed.
Lemma case_status_round_trip s : case_status_from_str (case_status_str s) = Ok s.
Proof. by destruct s. Qed.
Lemma enforcement_status_round_trip s :
  enforcement_status_from_str (enforcement_status_str s) = Ok s.
Proof. by destruct s. Qed.
Lemma appeal_status_round_trip s : appeal_status_from_str (appeal_status_str s) = Ok s.
Proof. by destruct s. Qed.

Definition is_zero_tolerance (c : PolicyCategory) : bool :=
  match c with Csam | Ncii | ViolentExtremism => true | _ => false end.
Definition is_appealable (c : PolicyCategory) : bool := match c with Csam => false | _ => true end.

Definition severity_rank (a : ActionType) : Z :=
  match a with
  | NoAction => 0 | Warn => 1 | VisibilityLimit => 2 | AgeGate => 3 | RemoveContent => 4
  | RestrictActor => 5 | Suspend => 6 | Ban => 7
  end.
Definition is_actor_level (a : ActionType) : bool :=
  match a with RestrictActor | Suspend | Ban => true | _ => false end.
Definition is_enforced (a : ActionType) : bool := match a with NoAction => false | _ => true end.

(** [ActionType::max] *)
Definition harsher (a b : ActionType) : ActionType :=
  if severity_rank a <? severity_rank b then b else a.

Definition case_can_transition_to (s next : CaseStatus) : bool :=
  match s, next with
  | Open, (Triaged | Actioned | Dismissed) | Triaged, (Actioned | Dismissed)
  | Actioned, Appealed | Appealed, (Actioned | Dismissed) => true
  | _, _ => false
  end.
Definition case_is_resolved (s : CaseStatus) : bool :=
  match s with Actioned | Dismissed => true | _ => false end.

Definition appeal_can_transition_to (s next : AppealStatus) : bool :=
  match s, next with
  | Filed, (UnderReview | Upheld | Overturned) | UnderReview, (Upheld | Overturned) => true
  | _, _ => false
  end.
Definition appeal_is_terminal (s : AppealStatus) : bool :=
  match s with Upheld | Overturned => true | _ => false end.

(** ** Value objects *)

Abbreviation ActorId := Uuid.
Abbreviation CaseId := Uuid.
Abbreviation DecisionId := Uuid.
Abbreviation EnforcementId := Uuid.
Abbreviation AppealId := Uuid.
Abbreviation ReportId := Uuid.

(** The bytes of [MODERATIONNSUUID]. *)
Definition MODERATION_NAMESPACE : Uuid := 0x4d4f4445524154494f4e4e5355554944%N.

Record SubjectRef := mk_subject {
  entity_type : EntityType;
  entity_id : string;
  actor_id : ActorId;
  surface : string;
}.
#[export] Instance subject_eq_dec : EqDecision SubjectRef.
Proof. solve_decision. Defined.

Definition SubjectRef_new (e : EntityType) (id : string) (actor : ActorId) (place : string) :
    outcome SubjectRef :=
  if trim_is_empty id then Err (InvalidSubjectRef "entity_id must not be empty")
  else Ok {| entity_type := e; entity_id := id; actor_id := actor; surface := place |}.

Definition canonical_key (s : SubjectRef) : string :=
  entity_type_str (entity_type s) +:+ "|" +:+ entity_id s +:+ "|" +:+ surface s.

Definition case_id_for_subject `{UuidV5} (s : SubjectRef) : CaseId :=
  new_v5 MODERATION_NAMESPACE (canonical_key s).
Definition report_id_for `{UuidV5} `{UuidText} (reporter : ActorId) (s : SubjectRef) : ReportId :=
  new_v5 MODERATION_NAMESPACE (hyphenated reporter +:+ "|" +:+ canonical_key s).

(** An [f64]: sign, mantissa and binary exponent of a finite value. *)
Inductive F64 := NaN | Infinite (negative : bool) | Finite (negative : bool) (mant : N) (exp : Z).

Definition f64_zero : F64 := Finite false 0 0.
Definition f64_one : F64 := Finite false 1 0.
Definition f64_half : F64 := Finite false 1 (-1).

(** [value > 1.0] on a non-negative finite value *)
Definition exceeds_one (m : N) (e : Z) : bool :=
  if 0 <=? e then 1 <? Z.of_N m * 2 ^ e else 2 ^ (- e) <? Z.of_N m.

(** [Confidence::clamped] *)
Definition Confidence_clamped (v : F64) : F64 :=
  match v with
  | NaN | Infinite true => f64_zero
  | Infinite false => f64_one
  | Finite true m e => if N.eqb m 0 then v else f64_zero
  | Finite false m e => if exceeds_one m e then f64_one else v
  end.

Module Signal.
Record t := mk {
  source : string;
  category : PolicyCategory;
  confidence : F64;
  observed_at : Z;
}.

Definition new (src : string) (cat : PolicyCategory) (conf : F64) (at_ : Z) : outcome t :=
  if trim_is_empty src then Err (SignalRejected "signal source must not be empty")
  else Ok {| source := src; category := cat; confidence := conf; observed_at := at_ |}.
End Signal.

Definition PolicyVersion_new (value : string) : outcome string :=
  if trim_is_empty value
  then Err (DomainViolation "policy_version" "policy version must not be empty")
  else Ok value.

Definition INITIAL_VERSION : Z := 1.
Definition next_after (version : Z) : Z := i64_saturating_add version 1.

Module Strike.
Record t := mk {
  category : PolicyCategory;
  points : Z;
  recorded_at : Z;
  expires_at : Z;
}.

Definition is_active (now : Z) (s : t) : bool := now <? expires_at s.
End Strike.

Module PenaltyPolicy.
Record t := mk {
  decay_window : Z;
  default_weight : Z;
  weights : list (PolicyCategory * Z);
  escalation : list (Z * ActionType);
}.

(** [sort_by_key] is stable: an element goes in front of the strictly greater ones. *)
Fixpoint insert_tier (x : Z * ActionType) (l : list (Z * ActionType)) : list (Z * ActionType) :=
  match l with
  | [] => [x]
  | y :: l' => if x.1 <=? y.1 then x :: l else y :: insert_tier x l'
  end.
Definition sort_tiers (l : list (Z * ActionType)) : list (Z * ActionType) := foldr insert_tier [] l.

Definition new (window weight : Z) (ws : list (PolicyCategory * Z)) (tiers : list (Z * ActionType)) :
    outcome t :=
  if window <=? 0 then Err (DomainViolation "penalty_policy.decay_window" "decay window must be positive")
  else match tiers with
       | [] => Err (DomainViolation "penalty_policy.escalation"
                      "escalation ladder must have at least one tier")
       | _ => Ok {| decay_window := window; default_weight := weight; weights := ws;
                    escalation := sort_tiers tiers |}
       end.

Definition weight_for (cat : PolicyCategory) (p : t) : Z :=
  match list_find (λ cw, cw.1 = cat) (weights p) with
  | Some (_, (_, w)) => w
  | None => default_weight p
  end.

Definition recommended_action (active_points : Z) (p : t) : ActionType :=
  match list.last (filter (λ ta, (ta.1 <=? active_points) = true) (escalation p)) with
  | Some (_, a) => a
  | None => NoAction
  end.

Definition DAYS : Z := 86400 * 10 ^ 9.

Definition standard_weights : list (PolicyCategory * Z) :=
  [(Spam, 1); (Harassment, 2); (Hate, 3); (ViolentExtremism, 6); (Csam, 6); (Ncii, 6)].
Definition standard_tiers : list (Z * ActionType) :=
  [(1, Warn); (3, RestrictActor); (5, Suspend); (6, Ban)].
(** [PenaltyPolicy::standard]: what [new] returns on these arguments. *)
Definition standard : t := {|
  decay_window := 90 * DAYS; default_weight := 1; weights := standard_weights;
  escalation := standard_tiers |}.

Example standard_is_new : new (90 * DAYS) 1 standard_weights standard_tiers = Ok standard.
Proof. reflexivity. Qed.
End PenaltyPolicy.

(** ** Domain events *)

Inductive DecisionAuthor := Reviewer (id : string) | Rule (id : string).

Definition author_id (a : DecisionAuthor) : string :=
  match a with Reviewer id | Rule id => id end.
Definition author_is_automated (a : DecisionAuthor) : bool :=
  match a with Rule _ => true | Reviewer _ => false end.

Inductive DomainEvent :=
  | CaseOpened (case_id : CaseId) (subject : SubjectRef) (actor : ActorId)
      (category : PolicyCategory) (occurred_at : Z) (correlation_id : Uuid)
  | CaseResolved (case_id : CaseId) (decision_id : DecisionId) (actor : ActorId)
      (action : ActionType) (category : PolicyCategory) (occurred_at : Z) (correlation_id : Uuid)
  | DecisionRecorded (decision_id : DecisionId) (subject : SubjectRef) (author : DecisionAuthor)
      (action : ActionType) (category : PolicyCategory) (policy_version rationale : string)
      (reverses : option DecisionId) (occurred_at : Z) (correlation_id : Uuid)
  | EnforcementApplied (enforcement_id : EnforcementId) (subject : SubjectRef) (actor : ActorId)
      (action : ActionType) (version : Z) (applied_at : Z) (expires_at : option Z)
      (occurred_at : Z) (correlation_id : Uuid)
  | EnforcementReversed (enforcement_id : EnforcementId) (subject : SubjectRef) (actor : ActorId)
      (version : Z) (occurred_at : Z) (correlation_id : Uuid)
  | AppealResolved (appeal_id : AppealId) (decision_id : DecisionId) (actor : ActorId)
      (overturned : bool) (occurred_at : Z) (correlation_id : Uuid).

Definition event_type (e : DomainEvent) : string :=
  match e with
  | CaseOpened _ _ _ _ _ _ => "moderation.case_opened"
  | CaseResolved _ _ _ _ _ _ _ => "moderation.case_resolved"
  | DecisionRecorded _ _ _ _ _ _ _ _ _ _ => "moderation.decision_recorded"
  | EnforcementApplied _ _ _ _ _ _ _ _ _ => "moderation.enforcement_applied"
  | EnforcementReversed _ _ _ _ _ _ => "moderation.enforcement_reversed"
  | AppealResolved _ _ _ _ _ _ => "moderation.appeal_resolved"
  end.

Definition event_actor (e : DomainEvent) : ActorId :=
  match e with
  | CaseOpened _ _ a _ _ _ | CaseResolved _ _ a _ _ _ _ | EnforcementApplied _ _ a _ _ _ _ _ _
  | EnforcementReversed _ _ a _ _ _ | AppealResolved _ _ a _ _ _ => a
  | DecisionRecorded _ s _ _ _ _ _ _ _ _ => actor_id s
  end.

(** ** The case *)

Record CaseOpenParams := {
  o_subject : SubjectRef;
  o_category : PolicyCategory;
  o_queue : string;
  o_priority : string;
  o_opened_at : Z;
  o_correlation_id : Uuid;
}.

Module Case.
Record t := mk {
  id : CaseId;
  subject : SubjectRef;
  status : CaseStatus;
  category : PolicyCategory;
  queue : string;
  priority : string;
  assignee : option string;
  signals : list Signal.t;
  opened_at : Z;
  version : Z;
  pending_events : list DomainEvent;
}.
#[global] Instance fields : Fields t := λ c, {|
  id := id c; subject := subject c; status := status c; category := category c;
  queue := queue c; priority := priority c; assignee := assignee c; signals := signals c;
  opened_at := opened_at c; version := version c; pending_events := pending_events c |}.

(** [Case::open] *)
Definition open_new `{UuidV5} (p : CaseOpenParams) : t :=
  let cid := case_id_for_subject (o_subject p) in {|
  id := cid; subject := o_subject p; status := Open; category := o_category p;
  queue := o_queue p; priority := o_priority p; assignee := None; signals := [];
  opened_at := o_opened_at p; version := 0;
  pending_events := [CaseOpened cid (o_subject p) (actor_id (o_subject p)) (o_category p)
                       (o_opened_at p) (o_correlation_id p)] |}.

Definition touch (c : t) : t := c <| version := i64_add (version c) 1 |>.

Definition ensure_not_resolved (c : t) : outcome unit :=
  guard (negb (case_is_resolved (status c))) CaseAlreadyResolved.

Definition transition_to (next : CaseStatus) (c : t) : outcome t :=
  if case_can_transition_to (status c) next then Ok (c <| status := next |>)
  else Err (InvalidCaseTransition (case_status_str (status c)) (case_status_str next)).

Definition add_signal (s : Signal.t) (c : t) : outcome t :=
  _ ← ensure_not_resolved c;
  Ok (touch (c <| signals := signals c ++ [s] |>)).

Definition assign (reviewer : string) (c : t) : outcome t :=
  _ ← ensure_not_resolved c;
  let c := c <| assignee := Some reviewer |> in
  c ← (if decide (status c = Open) then transition_to Triaged c else Ok c);
  Ok (touch c).

Definition resolve (decision : DecisionId) (action : ActionType) (now : Z) (corr : Uuid) (c : t) :
    outcome t :=
  _ ← ensure_not_resolved c;
  c ← transition_to (if is_enforced action then Actioned else Dismissed) c;
  let c := touch c in
  Ok (c <| pending_events := pending_events c ++
             [CaseResolved (id c) decision (actor_id (subject c)) action (category c) now corr] |>).

Definition mark_appealed (c : t) : outcome t :=
  c ← transition_to Appealed c; Ok (touch c).

Definition close_appeal (overturned : bool) (c : t) : outcome t :=
  c ← transition_to (if overturned then Dismissed else Actioned) c; Ok (touch c).

Definition drain_events (c : t) : t * list DomainEvent :=
  (c <| pending_events := [] |>, pending_events c).
End Case.

(** ** The decision ledger's entries *)

Record DecisionParams := {
  d_subject : SubjectRef;
  d_action : ActionType;
  d_category : PolicyCategory;
  d_policy_version : string;
  d_rationale : string;
  d_author : DecisionAuthor;
  d_decided_at : Z;
}.

Module Decision.
Record t := mk {
  id : DecisionId;
  subject : SubjectRef;
  action : ActionType;
  category : PolicyCategory;
  policy_version : string;
  rationale : string;
  author : DecisionAuthor;
  reverses : option DecisionId;
  decided_at : Z;
}.

(** [Decision::build], with the id that [DecisionId::new] draws once the rationale is
    accepted. *)
Definition build (new_id : DecisionId) (p : DecisionParams) (rev : option DecisionId) : outcome t :=
  if trim_is_empty (d_rationale p)
  then Err (DomainViolation "decision.rationale" "a decision must record a rationale")
  else Ok {| id := new_id; subject := d_subject p; action := d_action p;
             category := d_category p; policy_version := d_policy_version p;
             rationale := d_rationale p; author := d_author p; reverses := rev;
             decided_at := d_decided_at p |}.

Definition record (new_id : DecisionId) (p : DecisionParams) : outcome t := build new_id p None.
Definition record_reversal (new_id : DecisionId) (p : DecisionParams) (original : DecisionId) :
    outcome t := build new_id p (Some original).

Definition is_automated (d : t) : bool := author_is_automated (author d).
End Decision.

(** ** The enforcement action *)

Record EnforcementParams := {
  e_subject : SubjectRef;
  e_action : ActionType;
  e_decision_id : DecisionId;
  e_version : Z;
  e_applied_at : Z;
  e_expires_at : option Z;
  e_correlation_id : Uuid;
}.

Module Enforcement.
Record t := mk {
  id : EnforcementId;
  subject : SubjectRef;
  action : ActionType;
  status : EnforcementStatus;
  version : Z;
  decision_id : DecisionId;
  applied_at : Z;
  expires_at : option Z;
  reversed_at : option Z;
  pending_events : list DomainEvent;
}.
#[global] Instance fields : Fields t := λ e, {|
  id := id e; subject := subject e; action := action e; status := status e;
  version := version e; decision_id := decision_id e; applied_at := applied_at e;
  expires_at := expires_at e; reversed_at := reversed_at e;
  pending_events := pending_events e |}.

Definition apply_new (new_id : EnforcementId) (p : EnforcementParams) : outcome t :=
  if negb (is_enforced (e_action p))
  then Err (DomainViolation "enforcement.action" "no_action does not produce an enforcement")
  else if (match e_expires_at p with Some exp => exp <=? e_applied_at p | None => false end)
  then Err (DomainViolation "enforcement.expires_at" "expiry must be after the applied time")
  else Ok {| id := new_id; subject := e_subject p; action := e_action p;
             status := EnforcementActive; version := e_version p;
             decision_id := e_decision_id p; applied_at := e_applied_at p;
             expires_at := e_expires_at p; reversed_at := None;
             pending_events :=
               [EnforcementApplied new_id (e_subject p) (actor_id (e_subject p)) (e_action p)
                  (e_version p) (e_applied_at p) (e_expires_at p) (e_applied_at p)
                  (e_correlation_id p)] |}.

Definition has_reached_expiry (now : Z) (e : t) : bool :=
  match expires_at e with Some exp => exp <=? now | None => false end.

Definition is_active (now : Z) (e : t) : bool :=
  bool_decide (status e = EnforcementActive) && negb (has_reached_expiry now e).

Definition reverse (now : Z) (corr : Uuid) (e : t) : outcome t :=
  match status e with
  | Reversed => Err EnforcementAlreadyReversed
  | Expired => Err (InvalidEnforcementTransition (enforcement_status_str (status e))
                      (enforcement_status_str Reversed))
  | EnforcementActive =>
      let e := e <| status := Reversed |> <| reversed_at := Some now |> in
      Ok (e <| pending_events := pending_events e ++
                 [EnforcementReversed (id e) (subject e) (actor_id (subject e)) (version e) now corr] |>)
  end.

Definition mark_expired (now : Z) (e : t) : outcome t :=
  if negb (bool_decide (status e = EnforcementActive))
  then Err (InvalidEnforcementTransition (enforcement_status_str (status e))
              (enforcement_status_str Expired))
  else if negb (has_reached_expiry now e)
  then Err (DomainViolation "enforcement" "enforcement has not reached its expiry")
  else Ok (e <| status := Expired |>).

Definition drain_events (e : t) : t * list DomainEvent :=
  (e <| pending_events := [] |>, pending_events e).
End Enforcement.

(** ** The appeal *)

Module Appeal.
Record t := mk {
  id : AppealId;
  decision_id : DecisionId;
  actor_id : ActorId;
  statement : string;
  status : AppealStatus;
  filed_at : Z;
  resolved_at : option Z;
  pending_events : list DomainEvent;
}.
#[global] Instance fields : Fields t := λ a, {|
  id := id a; decision_id := decision_id a; actor_id := actor_id a; statement := statement a;
  status := status a; filed_at := filed_at a; resolved_at := resolved_at a;
  pending_events := pending_events a |}.

Definition file (new_id : AppealId) (decision : DecisionId) (actor : ActorId) (text : string)
    (at_ : Z) : outcome t :=
  if trim_is_empty text
  then Err (DomainViolation "appeal.statement" "an appeal must include a statement")
  else Ok {| id := new_id; decision_id := decision; actor_id := actor; statement := text;
             status := Filed; filed_at := at_; resolved_at := None; pending_events := [] |}.

Definition transition_to (next : AppealStatus) (a : t) : outcome t :=
  if appeal_is_terminal (status a) then Err AppealAlreadyResolved
  else if negb (appeal_can_transition_to (status a) next)
  then Err (DomainViolation "appeal.status"
              ("illegal appeal transition " +:+ appeal_status_str (status a) +:+ " → " +:+
               appeal_status_str next))
  else Ok (a <| status := next |>).

Definition start_review (a : t) : outcome t := transition_to UnderReview a.

Definition resolve (overturn : bool) (now : Z) (corr : Uuid) (a : t) : outcome t :=
  a ← transition_to (if overturn then Overturned else Upheld) a;
  let a := a <| resolved_at := Some now |> in
  Ok (a <| pending_events := pending_events a ++
             [AppealResolved (id a) (decision_id a) (actor_id a) overturn now corr] |>).

Definition drain_events (a : t) : t * list DomainEvent :=
  (a <| pending_events := [] |>, pending_events a).
End Appeal.

(** ** The report *)

Module Report.
Record t := mk {
  id : ReportId;
  reporter_id : ActorId;
  subject : SubjectRef;
  category : PolicyCategory;
  reason : string;
  reported_at : Z;
}.

Definition file `{UuidV5} `{UuidText} (reporter : ActorId) (s : SubjectRef)
    (cat : PolicyCategory) (why : string) (at_ : Z) : outcome t :=
  if bool_decide (reporter = actor_id s) then Err SelfReportRejected
  else Ok {| id := report_id_for reporter s; reporter_id := reporter; subject := s;
             category := cat; reason := why; reported_at := at_ |}.
End Report.

(** ** The penalty ledger *)

Module PenaltyLedger.
Record t := mk {
  actor_id : ActorId;
  strikes : list Strike.t;
  version : Z;
}.

Definition empty (actor : ActorId) : t := {| actor_id := actor; strikes := []; version := 0 |}.

Definition record_strike (cat : PolicyCategory) (now : Z) (p : PenaltyPolicy.t) (l : t) : t := {|
  actor_id := actor_id l;
  strikes := strikes l ++
    [{| Strike.category := cat; Strike.points := PenaltyPolicy.weight_for cat p;
        Strike.recorded_at := now; Strike.expires_at := now + PenaltyPolicy.decay_window p |}];
  version := i64_add (version l) 1 |}.

(** The sum of a [u32] iterator, which wraps. *)
Definition active_points (now : Z) (l : t) : Z :=
  foldl u32_add 0 (Strike.points <$> filter (λ s, Strike.is_active now s = true) (strikes l)).

Definition active_strike_count (now : Z) (l : t) : nat :=
  length (filter (λ s, Strike.is_active now s = true) (strikes l)).

Definition recommended_action (now : Z) (p : PenaltyPolicy.t) (l : t) : ActionType :=
  PenaltyPolicy.recommended_action (active_points now l) p.
End PenaltyLedger.

(** ** The application's policy *)

Record ModerationPolicy := {
  penalty : PenaltyPolicy.t;
  restrict_actor_ttl : Z;
  suspend_ttl : Z;
  screen_policy_version : string;
}.

Definition expiry_for (p : ModerationPolicy) (a : ActionType) (now : Z) : option Z :=
  match a with
  | RestrictActor => Some (now + restrict_actor_ttl p)
  | Suspend => Some (now + suspend_ttl p)
  | _ => None
  end.

(** [ModerationPolicy::standard]; the screen's time limit is the caller's timer. *)
Definition standard_policy : ModerationPolicy := {|
  penalty := PenaltyPolicy.standard;
  restrict_actor_ttl := 7 * PenaltyPolicy.DAYS;
  suspend_ttl := 30 * PenaltyPolicy.DAYS;
  screen_policy_version := "screen-corpus-1" |}.
