(* ===== verification/ModerationStore.v ===== *)
(** * Moderation: the stores

    Models [crates/services/moderation/src/infrastructure/{persistence,cache,event,
    history,directory,classifier}]: the Postgres tables and their statements, the Redis
    projection of restrictions and the screen corpus, the event publisher that fans out
    to Kafka and the Scylla evidence history, and the account directory's client.
    [World] is all of them with a script of faults per backend.  Before every backend
    call the other handlers get their turn: [others] is what they do to the world.
    The JSON columns keep their values; the corpus entries' JSON is decoded by a
    parameter. *)

From S2P Require Import Prelude AccountDomain.
From S2P Require AccountStore.
From S2P Require Import ModerationDomain.
Local Open Scope Z_scope.

(** ** Rows *)

Module CaseRow.
Record t := mk {
  id : Uuid; entity_type : string; entity_id : string; actor_id : Uuid; surface : string;
  status : string; category : string; queue : string; priority : string;
  assignee : option string; signals : list Signal.t; opened_at : Z; version : Z;
}.
#[global] Instance fields : Fields t := λ r, {|
  id := id r; entity_type := entity_type r; entity_id := entity_id r; actor_id := actor_id r;
  surface := surface r; status := status r; category := category r; queue := queue r;
  priority := priority r; assignee := assignee r; signals := signals r;
  opened_at := opened_at r; version := version r |}.
End CaseRow.

Module DecisionRow.
Record t := mk {
  id : Uuid; entity_type : string; entity_id : string; actor_id : Uuid; surface : string;
  action : string; category : string; policy_version : string; rationale : string;
  author_kind : string; author_id : string; reverses : option Uuid; decided_at : Z;
}.
End DecisionRow.

Module EnforcementRow.
Record t := mk {
  id : Uuid; entity_type : string; entity_id : string; actor_id : Uuid; surface : string;
  action : string; status : string; version : Z; decision_id : Uuid; applied_at : Z;
  expires_at : option Z; reversed_at : option Z;
}.
#[global] Instance fields : Fields t := λ r, {|
  id := id r; entity_type := entity_type r; entity_id := entity_id r; actor_id := actor_id r;
  surface := surface r; action := action r; status := status r; version := version r;
  decision_id := decision_id r; applied_at := applied_at r; expires_at := expires_at r;
  reversed_at := reversed_at r |}.
End EnforcementRow.

Module PenaltyRow.
Record t := mk { actor_id : Uuid; strikes : list Strike.t; version : Z }.
End PenaltyRow.

Module AppealRow.
Record t := mk {
  id : Uuid; decision_id : Uuid; actor_id : Uuid; statement : string; status : string;
  filed_at : Z; resolved_at : option Z;
}.
#[global] Instance fields : Fields t := λ r, {|
  id := id r; decision_id := decision_id r; actor_id := actor_id r; statement := statement r;
  status := status r; filed_at := filed_at r; resolved_at := resolved_at r |}.
End AppealRow.

Definition subject_from (e entity_id : string) (actor : Uuid) (place : string) : outcome SubjectRef :=
  e ← entity_type_from_str e; SubjectRef_new e entity_id actor place.

Definition case_of_row (r : CaseRow.t) : outcome Case.t :=
  s ← subject_from (CaseRow.entity_type r) (CaseRow.entity_id r) (CaseRow.actor_id r)
        (CaseRow.surface r);
  st ← case_status_from_str (CaseRow.status r);
  cat ← category_from_str (CaseRow.category r);
  Ok {| Case.id := CaseRow.id r; Case.subject := s; Case.status := st; Case.category := cat;
        Case.queue := CaseRow.queue r; Case.priority := CaseRow.priority r;
        Case.assignee := CaseRow.assignee r; Case.signals := CaseRow.signals r;
        Case.opened_at := CaseRow.opened_at r; Case.version := CaseRow.version r;
        Case.pending_events := [] |}.

Definition author_of (kind id : string) : outcome DecisionAuthor :=
  if String.eqb kind "reviewer" then Ok (Reviewer id)
  else if String.eqb kind "rule" then Ok (Rule id)
  else Err (DomainViolation "decision.author_kind" ("unknown author kind: '" +:+ kind +:+ "'")).

Definition decision_of_row (r : DecisionRow.t) : outcome Decision.t :=
  s ← subject_from (DecisionRow.entity_type r) (DecisionRow.entity_id r) (DecisionRow.actor_id r)
        (DecisionRow.surface r);
  author ← author_of (DecisionRow.author_kind r) (DecisionRow.author_id r);
  action ← action_from_str (DecisionRow.action r);
  cat ← category_from_str (DecisionRow.category r);
  pv ← PolicyVersion_new (DecisionRow.policy_version r);
  Ok {| Decision.id := DecisionRow.id r; Decision.subject := s; Decision.action := action;
        Decision.category := cat; Decision.policy_version := pv;
        Decision.rationale := DecisionRow.rationale r; Decision.author := author;
        Decision.reverses := DecisionRow.reverses r;
        Decision.decided_at := DecisionRow.decided_at r |}.

Definition enforcement_of_row (r : EnforcementRow.t) : outcome Enforcement.t :=
  s ← subject_from (EnforcementRow.entity_type r) (EnforcementRow.entity_id r)
        (EnforcementRow.actor_id r) (EnforcementRow.surface r);
  action ← action_from_str (EnforcementRow.action r);
  st ← enforcement_status_from_str (EnforcementRow.status r);
  Ok {| Enforcement.id := EnforcementRow.id r; Enforcement.subject := s;
        Enforcement.action := action; Enforcement.status := st;
        Enforcement.version := EnforcementRow.version r;
        Enforcement.decision_id := EnforcementRow.decision_id r;
        Enforcement.applied_at := EnforcementRow.applied_at r;
        Enforcement.expires_at := EnforcementRow.expires_at r;
        Enforcement.reversed_at := EnforcementRow.reversed_at r;
        Enforcement.pending_events := [] |}.

Definition ledger_of_row (r : PenaltyRow.t) : PenaltyLedger.t := {|
  PenaltyLedger.actor_id := PenaltyRow.actor_id r;
  PenaltyLedger.strikes := PenaltyRow.strikes r;
  PenaltyLedger.version := PenaltyRow.version r |}.

Definition appeal_of_row (r : AppealRow.t) : outcome Appeal.t :=
  st ← appeal_status_from_str (AppealRow.status r);
  Ok {| Appeal.id := AppealRow.id r; Appeal.decision_id := AppealRow.decision_id r;
        Appeal.actor_id := AppealRow.actor_id r; Appeal.statement := AppealRow.statement r;
        Appeal.status := st; Appeal.filed_at := AppealRow.filed_at r;
        Appeal.resolved_at := AppealRow.resolved_at r; Appeal.pending_events := [] |}.

Section Rows.
Context `{AccountStore.PgTime}.
Let instant := AccountStore.pg_instant.

Definition row_of_case (c : Case.t) : CaseRow.t := {|
  CaseRow.id := Case.id c;
  CaseRow.entity_type := entity_type_str (entity_type (Case.subject c));
  CaseRow.entity_id := entity_id (Case.subject c);
  CaseRow.actor_id := actor_id (Case.subject c);
  CaseRow.surface := surface (Case.subject c);
  CaseRow.status := case_status_str (Case.status c);
  CaseRow.category := category_str (Case.category c);
  CaseRow.queue := Case.queue c; CaseRow.priority := Case.priority c;
  CaseRow.assignee := Case.assignee c; CaseRow.signals := Case.signals c;
  CaseRow.opened_at := instant (Case.opened_at c); CaseRow.version := Case.version c |}.

Definition row_of_decision (d : Decision.t) : DecisionRow.t := {|
  DecisionRow.id := Decision.id d;
  DecisionRow.entity_type := entity_type_str (entity_type (Decision.subject d));
  DecisionRow.entity_id := entity_id (Decision.subject d);
  DecisionRow.actor_id := actor_id (Decision.subject d);
  DecisionRow.surface := surface (Decision.subject d);
  DecisionRow.action := action_str (Decision.action d);
  DecisionRow.category := category_str (Decision.category d);
  DecisionRow.policy_version := Decision.policy_version d;
  DecisionRow.rationale := Decision.rationale d;
  DecisionRow.author_kind := if Decision.is_automated d then "rule" else "reviewer";
  DecisionRow.author_id := author_id (Decision.author d);
  DecisionRow.reverses := Decision.reverses d;
  DecisionRow.decided_at := instant (Decision.decided_at d) |}.

Definition row_of_enforcement (e : Enforcement.t) : EnforcementRow.t := {|
  EnforcementRow.id := Enforcement.id e;
  EnforcementRow.entity_type := entity_type_str (entity_type (Enforcement.subject e));
  EnforcementRow.entity_id := entity_id (Enforcement.subject e);
  EnforcementRow.actor_id := actor_id (Enforcement.subject e);
  EnforcementRow.surface := surface (Enforcement.subject e);
  EnforcementRow.action := action_str (Enforcement.action e);
  EnforcementRow.status := enforcement_status_str (Enforcement.status e);
  EnforcementRow.version := Enforcement.version e;
  EnforcementRow.decision_id := Enforcement.decision_id e;
  EnforcementRow.applied_at := instant (Enforcement.applied_at e);
  EnforcementRow.expires_at := instant <$> Enforcement.expires_at e;
  EnforcementRow.reversed_at := instant <$> Enforcement.reversed_at e |}.

Definition row_of_ledger (l : PenaltyLedger.t) : PenaltyRow.t := {|
  PenaltyRow.actor_id := PenaltyLedger.actor_id l;
  PenaltyRow.strikes := PenaltyLedger.strikes l;
  PenaltyRow.version := PenaltyLedger.version l |}.

Definition row_of_appeal (a : Appeal.t) : AppealRow.t := {|
  AppealRow.id := Appeal.id a; AppealRow.decision_id := Appeal.decision_id a;
  AppealRow.actor_id := Appeal.actor_id a; AppealRow.statement := Appeal.statement a;
  AppealRow.status := appeal_status_str (Appeal.status a);
  AppealRow.filed_at := instant (Appeal.filed_at a);
  AppealRow.resolved_at := instant <$> Appeal.resolved_at a |}.
End Rows.

(** The text parameters of each statement. *)
Definition case_texts (r : CaseRow.t) : list string :=
  [CaseRow.entity_type r; CaseRow.entity_id r; CaseRow.surface r; CaseRow.status r;
   CaseRow.category r; CaseRow.queue r; CaseRow.priority r] ++ option_list (CaseRow.assignee r)
  ++ (Signal.source <$> CaseRow.signals r).
Definition decision_texts (r : DecisionRow.t) : list string :=
  [DecisionRow.entity_type r; DecisionRow.entity_id r; DecisionRow.surface r; DecisionRow.action r;
   DecisionRow.category r; DecisionRow.policy_version r; DecisionRow.rationale r;
   DecisionRow.author_kind r; DecisionRow.author_id r].
Definition enforcement_texts (r : EnforcementRow.t) : list string :=
  [EnforcementRow.entity_type r; EnforcementRow.entity_id r; EnforcementRow.surface r;
   EnforcementRow.action r; EnforcementRow.status r].
Definition appeal_texts (r : AppealRow.t) : list string := [AppealRow.statement r; AppealRow.status r].

(** ** The world *)

(** What a backend call meets: it works, it is refused before any effect, or its effect
    happens and the answer is lost. *)
Inductive fault (E : Type) := Healthy | Refused (e : E) | AckLost (e : E).
Arguments Healthy {E}.
Arguments Refused {E} e.
Arguments AckLost {E} e.

(** What [get_account_by_id] answers. *)
Inductive DirectoryAnswer := AccountFound | AccountMissing | DirectoryFailed.

Module EventEnvelope.
Record t := mk {
  topic : string; key : string; payload : DomainEvent; headers : list (string * string);
}.
End EventEnvelope.

(** A row of [moderation.evidence_history]. *)
Module HistoryRow.
Record t := mk {
  actor_id : Uuid; occurred_at : Z; event_id : Uuid; event_type : string; entity_type : string;
  entity_id : string; category : string; action : string; event : DomainEvent;
}.
End HistoryRow.

(** A Redis string of [mod:enf:{actor}]: the version and, with [EX], its end. *)
Record Restriction := mk_restriction { r_version : Z; r_deadline : option Z }.

Record World := mk_world {
  cases : gmap Uuid CaseRow.t;
  decisions : gmap Uuid DecisionRow.t;
  enforcements : gmap Uuid EnforcementRow.t;
  penalty_ledgers : gmap Uuid PenaltyRow.t;
  appeals : gmap Uuid AppealRow.t;
  restrictions : gmap string Restriction;
  corpus : gmap string string;
  topic : list EventEnvelope.t;
  kafka : bool;
  history : list HistoryRow.t;
  clock : Z;
  draws : nat;
  calls : nat;
  pg_faults : list (fault StorageError);
  redis_faults : list (fault RedisStorageError);
  kafka_faults : list (fault string);
  scylla_faults : list (fault string);
  directory : list DirectoryAnswer;
}.
#[global] Instance world_fields : Fields World := λ w, {|
  cases := cases w; decisions := decisions w; enforcements := enforcements w;
  penalty_ledgers := penalty_ledgers w; appeals := appeals w; restrictions := restrictions w;
  corpus := corpus w; topic := topic w; kafka := kafka w; history := history w;
  clock := clock w; draws := draws w; calls := calls w; pg_faults := pg_faults w;
  redis_faults := redis_faults w; kafka_faults := kafka_faults w;
  scylla_faults := scylla_faults w; directory := directory w |}.

Abbreviation use_case A := (act World ModerationError A).

Definition pg_refuses_text : ModerationError :=
  Records (Database "22021" "invalid byte sequence for encoding UTF8: 0x00").
Definition check_texts (texts : list string) : outcome unit :=
  guard (forallb pg_text texts) pg_refuses_text.

(** ** The statements *)

Definition upsert_case (r : CaseRow.t) (t : gmap Uuid CaseRow.t) : gmap Uuid CaseRow.t :=
  match t !! CaseRow.id r with
  | None => <[CaseRow.id r := r]> t
  | Some old =>
      <[CaseRow.id r :=
        old <| CaseRow.status := CaseRow.status r |> <| CaseRow.category := CaseRow.category r |>
            <| CaseRow.queue := CaseRow.queue r |> <| CaseRow.priority := CaseRow.priority r |>
            <| CaseRow.assignee := CaseRow.assignee r |> <| CaseRow.signals := CaseRow.signals r |>
            <| CaseRow.version := CaseRow.version r |>]> t
  end.

(** [ON CONFLICT (id) DO NOTHING] *)
Definition insert_decision (r : DecisionRow.t) (t : gmap Uuid DecisionRow.t) : gmap Uuid DecisionRow.t :=
  match t !! DecisionRow.id r with
  | None => <[DecisionRow.id r := r]> t
  | Some _ => t
  end.

Definition upsert_enforcement (r : EnforcementRow.t) (t : gmap Uuid EnforcementRow.t) :
    gmap Uuid EnforcementRow.t :=
  match t !! EnforcementRow.id r with
  | None => <[EnforcementRow.id r := r]> t
  | Some old =>
      <[EnforcementRow.id r :=
        old <| EnforcementRow.status := EnforcementRow.status r |>
            <| EnforcementRow.reversed_at := EnforcementRow.reversed_at r |>]> t
  end.

Definition upsert_appeal (r : AppealRow.t) (t : gmap Uuid AppealRow.t) : gmap Uuid AppealRow.t :=
  match t !! AppealRow.id r with
  | None => <[AppealRow.id r := r]> t
  | Some old =>
      <[AppealRow.id r := old <| AppealRow.status := AppealRow.status r |>
                              <| AppealRow.resolved_at := AppealRow.resolved_at r |>]> t
  end.

Definition of_subject (s : SubjectRef) (r : EnforcementRow.t) : bool :=
  String.eqb (EnforcementRow.entity_type r) (entity_type_str (entity_type s))
  && String.eqb (EnforcementRow.entity_id r) (entity_id s)
  && String.eqb (EnforcementRow.surface r) (surface s).

(** [SELECT COALESCE(MAX(version), 0)] *)
Definition max_version (s : SubjectRef) (t : gmap Uuid EnforcementRow.t) : Z :=
  let versions := EnforcementRow.version <$> filter (λ r, of_subject s r = true) (snd <$> map_to_list t) in
  match versions with [] => 0 | v :: vs => foldl Z.max v vs end.

Definition active_of (actor : ActorId) (r : EnforcementRow.t) : bool :=
  bool_decide (EnforcementRow.actor_id r = actor) && String.eqb (EnforcementRow.status r) "active".

(** [ORDER BY opened_at DESC] *)
Fixpoint insert_opened (r : CaseRow.t) (l : list CaseRow.t) : list CaseRow.t :=
  match l with
  | [] => [r]
  | x :: l' => if CaseRow.opened_at x <=? CaseRow.opened_at r then r :: l else x :: insert_opened r l'
  end.

Definition in_queue (name : string) (status : option string) (r : CaseRow.t) : bool :=
  String.eqb (CaseRow.queue r) name
  && match status with Some s => String.eqb (CaseRow.status r) s | None => true end.

Definition select_queue (name : string) (status : option string) (limit : Z) (t : gmap Uuid CaseRow.t) :
    list CaseRow.t :=
  take (Z.to_nat limit)
    (foldr insert_opened [] (filter (λ r, in_queue name status r = true) (snd <$> map_to_list t))).

(** ** The backends *)

Definition enforcement_key `{UuidText} (actor : ActorId) : string :=
  "mod:enf:{" +:+ hyphenated actor +:+ "}".
Definition corpus_key (algorithm value : string) : string :=
  "mod:corpus:{" +:+ algorithm +:+ "}:" +:+ value.

Definition TOPIC_MODERATION_EVENTS : string := "moderation.v1.events".

Definition envelope_of `{UuidText} (e : DomainEvent) : EventEnvelope.t :=
  let key := hyphenated (event_actor e) in {|
  EventEnvelope.topic := TOPIC_MODERATION_EVENTS; EventEnvelope.key := key;
  EventEnvelope.payload := e;
  EventEnvelope.headers := [("event_type", event_type e); ("actor_id", key)] |}.

Definition subject_cols (s : SubjectRef) : string * string :=
  (entity_type_str (entity_type s), entity_id s).

Definition timestamp_millis (t : Z) : Z := t / 10 ^ 6.

(** [project]: the typed columns of an event. *)
Definition project (e : DomainEvent) : Z * (string * string) * string * string :=
  match e with
  | CaseOpened _ s _ cat at_ _ => (timestamp_millis at_, subject_cols s, category_str cat, "")
  | CaseResolved _ _ _ action cat at_ _ =>
      (timestamp_millis at_, ("", ""), category_str cat, action_str action)
  | DecisionRecorded _ s _ action cat _ _ _ at_ _ =>
      (timestamp_millis at_, subject_cols s, category_str cat, action_str action)
  | EnforcementApplied _ s _ action _ _ _ at_ _ =>
      (timestamp_millis at_, subject_cols s, "", action_str action)
  | EnforcementReversed _ s _ _ at_ _ => (timestamp_millis at_, subject_cols s, "", "")
  | AppealResolved _ _ _ _ at_ _ => (timestamp_millis at_, ("", ""), "", "")
  end.

Definition history_row (event_id : Uuid) (e : DomainEvent) : HistoryRow.t :=
  let '(at_, (et, eid), cat, action) := project e in {|
  HistoryRow.actor_id := event_actor e; HistoryRow.occurred_at := at_;
  HistoryRow.event_id := event_id; HistoryRow.event_type := event_type e;
  HistoryRow.entity_type := et; HistoryRow.entity_id := eid; HistoryRow.category := cat;
  HistoryRow.action := action; HistoryRow.event := e |}.

(** ** The content screen's values *)

Record ContentHash := { algorithm : string; hash_value : string }.
Record CorpusMatch := { match_categories : list PolicyCategory; match_reference : string }.

(** serde's [StoredMatch]: the categories and the reference of a corpus entry. *)
Class CorpusJson := { decode_entry : string → result string (list string * string) }.

Definition parse_entry `{CorpusJson} (raw : string) : outcome CorpusMatch :=
  stored ← map_err (λ t, SignalRejected ("malformed corpus entry: " +:+ t)) (decode_entry raw);
  cats ← mapM category_from_str stored.1;
  Ok {| match_categories := cats; match_reference := stored.2 |}.

(** ** The adapters *)

Section Adapters.
Context `{UuidText} `{UuidV7} `{AccountStore.PgTime} `{CorpusJson}.
Context (others : nat → World → World).

(** The other handlers' turn. *)
Definition turn : use_case unit := modify (λ w, others (calls w) (w <| calls := S (calls w) |>)).

(** Takes the next entry of a script. *)
Definition next {E} (script : World → list (fault E)) (drop : World → World) : use_case (fault E) :=
  let! _ := turn in
  λ w, (drop w, Ok (match script w with f :: _ => f | [] => Healthy end)).

Definition pg_call : use_case (fault StorageError) :=
  next pg_faults (λ w, w <| pg_faults := tail (pg_faults w) |>).
Definition redis_call : use_case (fault RedisStorageError) :=
  next redis_faults (λ w, w <| redis_faults := tail (redis_faults w) |>).
Definition kafka_call : use_case (fault string) :=
  next kafka_faults (λ w, w <| kafka_faults := tail (kafka_faults w) |>).
Definition scylla_call : use_case (fault string) :=
  next scylla_faults (λ w, w <| scylla_faults := tail (scylla_faults w) |>).

(** A single autocommitted statement. *)
Definition execute (texts : list string) (f : World → World) : use_case unit :=
  let! ft := pg_call in
  match ft with
  | Refused e => throw (Records e)
  | Healthy => let! _ := lift (check_texts texts) in modify f
  | AckLost e => let! _ := lift (check_texts texts) in let! _ := modify f in throw (Records e)
  end.

Definition fetch {A} (f : World → outcome A) : use_case A :=
  let! ft := pg_call in
  match ft with
  | Healthy => λ w, (w, f w)
  | Refused e | AckLost e => throw (Records e)
  end.

Definition new_id : use_case Uuid := λ w, (w <| draws := S (draws w) |>, Ok (now_v7 (draws w))).

Definition optional {A B} (f : A → outcome B) (o : option A) : outcome (option B) :=
  match o with None => Ok None | Some a => b ← f a; Ok (Some b) end.

(** *** [PgCaseRepository] *)

Definition case_save (c : Case.t) : use_case unit :=
  let r := row_of_case c in
  execute (case_texts r) (λ w, w <| cases := upsert_case r (cases w) |>).

Definition case_find_by_id (id : CaseId) : use_case (option Case.t) :=
  fetch (λ w, optional case_of_row (cases w !! id)).

Definition case_list_queue (name : string) (status : option CaseStatus) (limit : Z) :
    use_case (list Case.t) :=
  fetch (λ w, _ ← check_texts [name];
              mapM case_of_row (select_queue name (case_status_str <$> status) limit (cases w))).

(** *** [PgDecisionRepository] *)

Definition decision_append (d : Decision.t) : use_case unit :=
  let r := row_of_decision d in
  execute (decision_texts r) (λ w, w <| decisions := insert_decision r (decisions w) |>).

Definition decision_find_by_id (id : DecisionId) : use_case (option Decision.t) :=
  fetch (λ w, optional decision_of_row (decisions w !! id)).

(** *** [PgEnforcementRepository] *)

Definition enforcement_save (e : Enforcement.t) : use_case unit :=
  let r := row_of_enforcement e in
  execute (enforcement_texts r) (λ w, w <| enforcements := upsert_enforcement r (enforcements w) |>).

Definition enforcement_find_by_id (id : EnforcementId) : use_case (option Enforcement.t) :=
  fetch (λ w, optional enforcement_of_row (enforcements w !! id)).

Definition next_version (s : SubjectRef) : use_case Z :=
  fetch (λ w, _ ← check_texts [entity_id s; surface s]; Ok (next_after (max_version s (enforcements w)))).

Definition list_active_for_actor (actor : ActorId) : use_case (list Enforcement.t) :=
  fetch (λ w, mapM enforcement_of_row
                (filter (λ r, active_of actor r = true) (snd <$> map_to_list (enforcements w)))).

(** *** [PgPenaltyRepository] and [PgAppealRepository] *)

Definition penalty_load (actor : ActorId) : use_case PenaltyLedger.t :=
  fetch (λ w, Ok (match penalty_ledgers w !! actor with
                  | Some r => ledger_of_row r
                  | None => PenaltyLedger.empty actor
                  end)).

Definition penalty_save (l : PenaltyLedger.t) : use_case unit :=
  let r := row_of_ledger l in
  execute [] (λ w, w <| penalty_ledgers := <[PenaltyRow.actor_id r := r]> (penalty_ledgers w) |>).

Definition appeal_save (a : Appeal.t) : use_case unit :=
  let r := row_of_appeal a in
  execute (appeal_texts r) (λ w, w <| appeals := upsert_appeal r (appeals w) |>).

Definition appeal_find_by_id (id : AppealId) : use_case (option Appeal.t) :=
  fetch (λ w, optional appeal_of_row (appeals w !! id)).

(** *** [RedisEnforcementProjection] *)

Definition redis_read {A} (f : World → A) : use_case A :=
  let! ft := redis_call in
  match ft with
  | Healthy => gets f
  | Refused e | AckLost e => throw (Cache e)
  end.

Definition redis_write (f : World → World) : use_case unit :=
  let! ft := redis_call in
  match ft with
  | Refused e => throw (Cache e)
  | Healthy => modify f
  | AckLost e => let! _ := modify f in throw (Cache e)
  end.

(** [GET]: an entry past its end is gone. *)
Definition stored_version (key : string) (w : World) : option Z :=
  match restrictions w !! key with
  | Some r => match r_deadline r with
              | Some d => if clock w <? d then Some (r_version r) else None
              | None => Some (r_version r)
              end
  | None => None
  end.

Definition NANOS : Z := 10 ^ 9.

(** [(exp - Utc::now()).num_seconds().max(1)] from now on. *)
Definition deadline_of (now exp : Z) : Z := now + Z.max (Z.quot (exp - now) NANOS) 1 * NANOS.

Definition set_actor_restriction (actor : ActorId) (version : Z) (expires_at : option Z) :
    use_case unit :=
  let key := enforcement_key actor in
  let! current := redis_read (stored_version key) in
  if (match current with Some c => version <? c | None => false end) then done_with tt
  else redis_write (λ w, w <| restrictions :=
         <[key := mk_restriction version (deadline_of (clock w) <$> expires_at)]> (restrictions w) |>).

Definition clear_actor_restriction (actor : ActorId) (version : Z) : use_case unit :=
  let key := enforcement_key actor in
  let! current := redis_read (stored_version key) in
  if (match current with Some c => c <=? version | None => true end)
  then redis_write (λ w, w <| restrictions := delete key (restrictions w) |>)
  else done_with tt.

Definition is_actor_restricted (actor : ActorId) : use_case bool :=
  redis_read (λ w, bool_decide (is_Some (stored_version (enforcement_key actor) w))).

(** *** [RedisScreenCorpus] *)

Fixpoint corpus_screen (hashes : list ContentHash) : use_case (option CorpusMatch) :=
  match hashes with
  | [] => done_with None
  | h :: hs =>
      let! ft := redis_call in
      match ft with
      | Refused _ | AckLost _ => throw HashCorpusUnavailable
      | Healthy =>
          let! raw := gets (λ w, corpus w !! corpus_key (algorithm h) (hash_value h)) in
          match raw with
          | Some raw => let! m := lift (parse_entry raw) in done_with (Some m)
          | None => corpus_screen hs
          end
      end
  end.

(** *** The publishers *)

(** [ScyllaEvidenceHistory], whose failure [FanoutEventPublisher] logs. *)
Definition append_history (e : DomainEvent) : use_case unit :=
  let! id := new_id in
  let! ft := scylla_call in
  match ft with
  | Refused _ => done_with tt
  | Healthy | AckLost _ => modify (λ w, w <| history := history w ++ [history_row id e] |>)
  end.

(** [KafkaEventPublisher], or [LogEventPublisher] without a broker. *)
Definition publish_primary (e : DomainEvent) : use_case unit :=
  let! enabled := gets kafka in
  if enabled then
    let! ft := kafka_call in
    match ft with
    | Refused text => throw (EventPublishFailed text)
    | Healthy => modify (λ w, w <| topic := topic w ++ [envelope_of e] |>)
    | AckLost text =>
        let! _ := modify (λ w, w <| topic := topic w ++ [envelope_of e] |>) in
        throw (EventPublishFailed text)
    end
  else done_with tt.

Definition publish (e : DomainEvent) : use_case unit :=
  let! _ := append_history e in publish_primary e.

Definition publish_all (es : list DomainEvent) : use_case unit := for_each publish es.

(** *** [GrpcAccountDirectory] and [LogClassifierGateway] *)

Definition actor_exists (actor : ActorId) : use_case bool :=
  let! _ := turn in
  let! answer := λ w, (w <| directory := tail (directory w) |>,
                       Ok (match directory w with a :: _ => a | [] => DirectoryFailed end)) in
  match answer with
  | AccountFound => done_with true
  | AccountMissing => done_with false
  | DirectoryFailed => throw AccountDirectoryUnavailable
  end.

Definition request_classification (s : SubjectRef) : use_case unit := done_with tt.
End Adapters.
