(* ===== verification/ModerationHandlers.v ===== *)
(** * Moderation: the use cases

    Models [crates/services/moderation/src/application/{command,query}], the two ingest
    consumers ([infrastructure/consumer]) and the gRPC surface ([infrastructure/grpc]).
    [now] is the wall clock a call reads at its edge and [corr] the correlation id of its
    envelope. *)

From S2P Require Import Prelude AccountDomain.
From S2P Require AccountStore.
From S2P Require Import Consumer ModerationDomain ModerationStore.
Local Open Scope Z_scope.

(** ** Commands and outcomes *)

Record OpenCaseCommand := {
  oc_subject : SubjectRef;
  oc_category : PolicyCategory;
  oc_queue : string;
  oc_priority : string;
}.

Record DecideCaseCommand := {
  dc_case_id : CaseId;
  dc_action : ActionType;
  dc_category : PolicyCategory;
  dc_rationale : string;
  dc_reviewer_id : string;
  dc_policy_version : string;
}.

Record DecideOutcome := {
  out_decision : Decision.t;
  out_enforcement : option Enforcement.t;
}.

Record ResolveAppealCommand := {
  ra_appeal_id : AppealId;
  ra_overturn : bool;
  ra_rationale : string;
  ra_reviewer_id : string;
}.

Record ScreenCommand := {
  sc_subject : SubjectRef;
  sc_hashes : list ContentHash;
  sc_text : option string;
  sc_categories : list PolicyCategory;
}.

Inductive ScreenVerdict := Allow | Block | Review.

Record ScreenOutcome := {
  verdict : ScreenVerdict;
  matched_categories : list PolicyCategory;
  out_reference : option string;
  out_enforcement_id : option EnforcementId;
}.

Record IngestReportCommand := {
  ir_reporter_id : ActorId;
  ir_subject : SubjectRef;
  ir_category : PolicyCategory;
  ir_reason : string;
}.

Record IngestSignalCommand := {
  is_subject : SubjectRef;
  is_source : string;
  is_category : PolicyCategory;
  is_confidence : F64;
}.

Record StatementOfReasons := {
  sor_decision_id : DecisionId;
  sor_subject : SubjectRef;
  sor_category : PolicyCategory;
  sor_action : ActionType;
  sor_policy_version : string;
  sor_facts : string;
  sor_automated : bool;
  sor_decided_at : Z;
}.

(** [command::decision_recorded] *)
Definition decision_recorded (d : Decision.t) (corr : Uuid) : DomainEvent :=
  DecisionRecorded (Decision.id d) (Decision.subject d) (Decision.author d) (Decision.action d)
    (Decision.category d) (Decision.policy_version d) (Decision.rationale d) (Decision.reverses d)
    (Decision.decided_at d) corr.

Section Handlers.
Context `{UuidText} `{UuidV5} `{UuidV7} `{AccountStore.PgTime} `{CorpusJson}.
Context (others : nat → World → World) (policy : ModerationPolicy).

Abbreviation case_save := (case_save others).
Abbreviation case_find_by_id := (case_find_by_id others).
Abbreviation decision_append := (decision_append others).
Abbreviation decision_find_by_id := (decision_find_by_id others).
Abbreviation enforcement_save := (enforcement_save others).
Abbreviation list_active_for_actor := (list_active_for_actor others).
Abbreviation appeal_save := (appeal_save others).
Abbreviation appeal_find_by_id := (appeal_find_by_id others).
Abbreviation set_actor_restriction := (set_actor_restriction others).
Abbreviation clear_actor_restriction := (clear_actor_restriction others).
Abbreviation publish := (publish others).
Abbreviation publish_all := (publish_all others).

(** ** Cases *)

(** [OpenCaseHandler::handle]: the case and whether it was created. *)
Definition open_case (cmd : OpenCaseCommand) (now : Z) (corr : Uuid) : use_case (Case.t * bool) :=
  let! found := case_find_by_id (case_id_for_subject (oc_subject cmd)) in
  match found with
  | Some existing => done_with (existing, false)
  | None =>
      let case := Case.open_new {|
        o_subject := oc_subject cmd; o_category := oc_category cmd; o_queue := oc_queue cmd;
        o_priority := oc_priority cmd; o_opened_at := now; o_correlation_id := corr |} in
      let! _ := case_save case in
      let '(case, events) := Case.drain_events case in
      let! _ := publish_all events in
      done_with (case, true)
  end.

Definition load_case (id : CaseId) : use_case Case.t :=
  let! found := case_find_by_id id in
  lift (ok_or found (CaseNotFound (hyphenated id))).

Definition assign_case (id : CaseId) (reviewer : string) : use_case Case.t :=
  let! case := load_case id in
  let! case := lift (Case.assign reviewer case) in
  let! _ := case_save case in
  done_with case.

(** ** Deciding *)

(** A strike in [category] on the actor's ledger. *)
Definition strike (actor : ActorId) (category : PolicyCategory) (now : Z) :
    use_case PenaltyLedger.t :=
  let! ledger := penalty_load others actor in
  done_with (PenaltyLedger.record_strike category now (penalty policy) ledger).

(** The enforcement of [decision] on [subject] at the subject's next version. *)
Definition new_enforcement (subject : SubjectRef) (action : ActionType) (decision : DecisionId)
    (now : Z) (expires : option Z) (corr : Uuid) : use_case Enforcement.t :=
  let! version := next_version others subject in
  let! id := new_id in
  let! e := lift (Enforcement.apply_new id {|
    e_subject := subject; e_action := action; e_decision_id := decision; e_version := version;
    e_applied_at := now; e_expires_at := expires; e_correlation_id := corr |}) in
  let! _ := enforcement_save e in
  done_with e.

(** A decision is recorded and its evidence published, at every site that decides. *)
Definition record_decision (build : DecisionId → outcome Decision.t) (corr : Uuid) :
    use_case Decision.t :=
  let! id := new_id in
  let! decision := lift (build id) in
  let! _ := decision_append decision in
  let! _ := publish (decision_recorded decision corr) in
  done_with decision.

(** Step 3 of [DecideCaseHandler::handle], and the publication of the enforcement. *)
Definition strike_and_publish (cmd : DecideCaseCommand) (subject : SubjectRef) (now : Z)
    (e : Enforcement.t) : use_case Enforcement.t :=
  let! ledger := strike (actor_id subject) (dc_category cmd) now in
  let! _ := penalty_save others ledger in
  let '(e, events) := Enforcement.drain_events e in
  let! _ := publish_all events in
  done_with e.

(** Steps 2 and 3. *)
Definition enforce (cmd : DecideCaseCommand) (subject : SubjectRef) (decision : DecisionId)
    (now : Z) (corr : Uuid) : use_case Enforcement.t :=
  let action := dc_action cmd in
  let! e := new_enforcement subject action decision now (expiry_for policy action now) corr in
  let! _ := (if is_actor_level action
             then set_actor_restriction (actor_id subject) (Enforcement.version e)
                    (Enforcement.expires_at e)
             else done_with tt) in
  strike_and_publish cmd subject now e.

(** Step 4. *)
Definition conclude (decision : Decision.t) (enforcement : option Enforcement.t) (case : Case.t)
    (action : ActionType) (now : Z) (corr : Uuid) : use_case DecideOutcome :=
  let! case := lift (Case.resolve (Decision.id decision) action now corr case) in
  let! _ := case_save case in
  let '(case, events) := Case.drain_events case in
  let! _ := publish_all events in
  done_with {| out_decision := decision; out_enforcement := enforcement |}.

Definition decision_params (cmd : DecideCaseCommand) (subject : SubjectRef) (policy_version : string)
    (now : Z) : DecisionParams := {|
  d_subject := subject; d_action := dc_action cmd; d_category := dc_category cmd;
  d_policy_version := policy_version; d_rationale := dc_rationale cmd;
  d_author := Reviewer (dc_reviewer_id cmd); d_decided_at := now |}.

(** The case of the command, once nothing speaks against deciding it. *)
Definition admit_decision (cmd : DecideCaseCommand) : use_case (Case.t * string) :=
  let! case := load_case (dc_case_id cmd) in
  let! policy_version := lift (PolicyVersion_new (dc_policy_version cmd)) in
  let! known := (if is_actor_level (dc_action cmd)
                 then actor_exists others (actor_id (Case.subject case)) else done_with true) in
  let! _ := lift (guard known (DomainViolation "actor" "cannot enforce against an unknown actor")) in
  done_with (case, policy_version).

Definition decide_case (cmd : DecideCaseCommand) (now : Z) (corr : Uuid) : use_case DecideOutcome :=
  let! '(case, policy_version) := admit_decision cmd in
  let subject := Case.subject case in
  let params := decision_params cmd subject policy_version now in
  let! decision := record_decision (λ id, Decision.record id params) corr in
  let! enforcement := (if is_enforced (dc_action cmd)
                       then let! e := enforce cmd subject (Decision.id decision) now corr in
                            done_with (Some e)
                       else done_with None) in
  conclude decision enforcement case (dc_action cmd) now corr.

(** [DecideCaseHandler::recommended_action] *)
Definition recommended_action (actor : ActorId) (now : Z) : use_case ActionType :=
  let! ledger := penalty_load others actor in
  done_with (PenaltyLedger.recommended_action now (penalty policy) ledger).

(** ** Appeals *)

Definition load_decision (id : DecisionId) : use_case Decision.t :=
  let! found := decision_find_by_id id in
  lift (ok_or found (DecisionNotFound (hyphenated id))).

Definition file_appeal (decision_id : DecisionId) (actor : ActorId) (statement : string) (now : Z) :
    use_case Appeal.t :=
  let! decision := load_decision decision_id in
  let! _ := lift (guard (is_appealable (Decision.category decision)) NotAppealable) in
  let! id := new_id in
  let! appeal := lift (Appeal.file id decision_id actor statement now) in
  let! _ := appeal_save appeal in
  let! found := case_find_by_id (case_id_for_subject (Decision.subject decision)) in
  let! _ := match found with
            | Some case =>
                let! case := lift (Case.mark_appealed case) in case_save case
            | None => done_with tt
            end in
  done_with appeal.

(** The loop of step 2 of [ResolveAppealHandler::handle] on one enforcement. *)
Definition reverse_if_of (original : Decision.t) (now : Z) (corr : Uuid) (e : Enforcement.t) :
    use_case unit :=
  if bool_decide (Enforcement.decision_id e = Decision.id original) && Enforcement.is_active now e
  then
    let! e := lift (Enforcement.reverse now corr e) in
    let! _ := enforcement_save e in
    let! _ := (if is_actor_level (Enforcement.action e)
               then clear_actor_restriction (actor_id (Decision.subject original))
                      (Enforcement.version e)
               else done_with tt) in
    publish_all (Enforcement.drain_events e).2
  else done_with tt.

Definition overturn (cmd : ResolveAppealCommand) (original : Decision.t) (now : Z) (corr : Uuid) :
    use_case Decision.t :=
  let params := {|
    d_subject := Decision.subject original; d_action := NoAction;
    d_category := Decision.category original;
    d_policy_version := Decision.policy_version original; d_rationale := ra_rationale cmd;
    d_author := Reviewer (ra_reviewer_id cmd); d_decided_at := now |} in
  let! rev := record_decision (λ id, Decision.record_reversal id params (Decision.id original)) corr in
  let! active := list_active_for_actor (actor_id (Decision.subject original)) in
  let! _ := for_each (reverse_if_of original now corr) active in
  done_with rev.

(** Step 3 and the publication of the outcome. *)
Definition finish_appeal (original : Decision.t) (overturned : bool) (appeal : Appeal.t)
    (reversal : option Decision.t) : use_case (Appeal.t * option Decision.t) :=
  let! found := case_find_by_id (case_id_for_subject (Decision.subject original)) in
  let! _ := match found with
            | Some case =>
                let! case := lift (Case.close_appeal overturned case) in case_save case
            | None => done_with tt
            end in
  let '(appeal, events) := Appeal.drain_events appeal in
  let! _ := publish_all events in
  done_with (appeal, reversal).

Definition resolve_appeal (cmd : ResolveAppealCommand) (now : Z) (corr : Uuid) :
    use_case (Appeal.t * option Decision.t) :=
  let! found := appeal_find_by_id (ra_appeal_id cmd) in
  let! appeal := lift (ok_or found (AppealNotFound (hyphenated (ra_appeal_id cmd)))) in
  let! original := load_decision (Appeal.decision_id appeal) in
  let! appeal := lift (Appeal.resolve (ra_overturn cmd) now corr appeal) in
  let! _ := appeal_save appeal in
  let! reversal := (if ra_overturn cmd
                    then let! rev := overturn cmd original now corr in done_with (Some rev)
                    else done_with None) in
  finish_appeal original (ra_overturn cmd) appeal reversal.

(** ** The screen *)

(** [tokio::time::timeout] around the corpus lookup: [elapsed] tells after how many
    hashes the timer fires, if it does. *)
Definition timed_screen (elapsed : World → option nat) (hashes : list ContentHash) :
    use_case (option CorpusMatch) := λ w,
  match elapsed w with
  | Some n => ((corpus_screen others (take n hashes) w).1, Err ScreenUnavailable)
  | None => corpus_screen others hashes w
  end.

Definition screen_match (cmd : ScreenCommand) (m : CorpusMatch) (now : Z) (corr : Uuid) :
    use_case ScreenOutcome :=
  let category := default OtherCategory (head (match_categories m)) in
  let subject := sc_subject cmd in
  let params := {|
    d_subject := subject; d_action := RemoveContent; d_category := category;
    d_policy_version := screen_policy_version policy;
    d_rationale := "automated screen match: " +:+ match_reference m;
    d_author := Rule "screen:hash-match"; d_decided_at := now |} in
  let! decision := record_decision (λ id, Decision.record id params) corr in
  let! e := new_enforcement subject RemoveContent (Decision.id decision) now None corr in
  let! _ := publish_all (Enforcement.drain_events e).2 in
  let! ledger := strike (actor_id subject) category now in
  let! _ := (if is_actor_level (PenaltyLedger.recommended_action now (penalty policy) ledger)
             then set_actor_restriction (actor_id subject) (Enforcement.version e) None
             else done_with tt) in
  let! _ := penalty_save others ledger in
  done_with {| verdict := Block; matched_categories := match_categories m;
               out_reference := Some (match_reference m);
               out_enforcement_id := Some (Enforcement.id e) |}.

Definition screen (elapsed : World → option nat) (cmd : ScreenCommand) (now : Z) (corr : Uuid) :
    use_case ScreenOutcome :=
  let! hit := timed_screen elapsed (sc_hashes cmd) in
  match hit with
  | None => done_with {| verdict := Allow; matched_categories := []; out_reference := None;
                         out_enforcement_id := None |}
  | Some m => screen_match cmd m now corr
  end.

(** ** Ingestion *)

Definition open_or_load (s : SubjectRef) (cat : PolicyCategory) (now : Z) (corr : Uuid) :
    use_case Case.t :=
  let! found := case_find_by_id (case_id_for_subject s) in
  match found with
  | Some case => done_with case
  | None => done_with (Case.open_new {|
      o_subject := s; o_category := cat; o_queue := "default"; o_priority := "normal";
      o_opened_at := now; o_correlation_id := corr |})
  end.

(** The part the two ingest handlers share. *)
Definition add_to_case (s : SubjectRef) (cat : PolicyCategory) (src : string) (conf : F64) (now : Z)
    (corr : Uuid) : use_case Case.t :=
  let! case := open_or_load s cat now corr in
  let! signal := lift (Signal.new src cat conf now) in
  match Case.add_signal signal case with
  | Err _ => done_with case
  | Ok case =>
      let! _ := case_save case in
      let '(case, events) := Case.drain_events case in
      let! _ := publish_all events in
      done_with case
  end.

Definition ingest_report (cmd : IngestReportCommand) (now : Z) (corr : Uuid) : use_case CaseId :=
  let! _ := lift (Report.file (ir_reporter_id cmd) (ir_subject cmd) (ir_category cmd)
                    (ir_reason cmd) now) in
  let! case := add_to_case (ir_subject cmd) (ir_category cmd) "report" (Confidence_clamped f64_half)
                 now corr in
  let! _ := request_classification (ir_subject cmd) in
  done_with (Case.id case).

Definition ingest_signal (cmd : IngestSignalCommand) (now : Z) (corr : Uuid) : use_case CaseId :=
  let! case := add_to_case (is_subject cmd) (is_category cmd) (is_source cmd) (is_confidence cmd)
                 now corr in
  done_with (Case.id case).

(** ** Queries *)

Definition list_queue (name : string) (status : option CaseStatus) (limit : Z) :
    use_case (list Case.t) := case_list_queue others name status limit.

Definition statement_of_reasons (id : DecisionId) : use_case StatementOfReasons :=
  let! d := load_decision id in
  done_with {| sor_decision_id := Decision.id d; sor_subject := Decision.subject d;
               sor_category := Decision.category d; sor_action := Decision.action d;
               sor_policy_version := Decision.policy_version d; sor_facts := Decision.rationale d;
               sor_automated := Decision.is_automated d; sor_decided_at := Decision.decided_at d |}.

(** [EnforcementStateView] *)
Definition enforcement_state (actor : ActorId) (now : Z) : use_case (bool * list Enforcement.t) :=
  let! restricted := is_actor_restricted others actor in
  let! active := list_active_for_actor actor in
  done_with (restricted, filter (λ e, Enforcement.is_active now e = true) active).
End Handlers.
