(* ===== verification/ModerationEdge.v ===== *)
(** * Moderation: the gRPC surface and the ingest consumers

    Models [crates/services/moderation/src/infrastructure/{grpc,consumer}]: the protobuf
    messages and their conversions, the nine calls, and what the consumers of
    [moderation.reports] and [moderation.signals] do with an event.  [wall] is what
    [Utc::now()] reads at the edge of a call. *)

From S2P Require Import Prelude AccountDomain.
From S2P Require AccountStore.
From S2P Require Import Consumer ModerationDomain ModerationStore ModerationHandlers.
Local Open Scope Z_scope.

(** ** Messages *)

Module Pb.
Record Timestamp := { seconds : Z; nanos : Z }.
Record SubjectRef := { entity_type : Z; entity_id : string; actor_id : string; surface : string }.
Record SignalSummary := {
  source : string; signal_category : Z; confidence : F64; observed_at : Timestamp }.
Record CaseView := {
  case_id : string; case_subject : SubjectRef; case_status : Z; case_category : Z;
  queue : string; priority : string; assignee : string; signals : list SignalSummary;
  opened_at : Timestamp }.
Record Decision := {
  decision_id : string; subject : SubjectRef; action : Z; category : Z; policy_version : string;
  rationale : string; decided_by : string; automated : bool; reverses_decision_id : string;
  decided_at : Timestamp }.
Record EnforcementView := {
  enforcement_id : string; enforced_subject : SubjectRef; enforced_action : Z; status : Z;
  version : Z; applied_at : Timestamp; expires_at : option Timestamp }.
Record AppealView := {
  appeal_id : string; appealed_decision_id : string; appeal_status : Z; statement : string;
  filed_at : Timestamp; resolved_at : option Timestamp }.
Record StatementOfReasons := {
  reasons_decision_id : string; reasons_subject : SubjectRef; reasons_category : Z;
  reasons_action : Z; reasons_policy_version : string; facts : string; legal_ground : string;
  reasons_automated : bool; territorial_eu : bool; reasons_decided_at : Timestamp }.
Record ScreenRequest := {
  screen_subject : option SubjectRef; hashes : list ContentHash; text : string;
  categories : list Z }.
Record DecideCaseRequest := {
  decide_case_id : string; decide_action : Z; decide_category : Z; decide_rationale : string;
  decide_reviewer_id : string; decide_policy_version : string }.
End Pb.

(** The payloads of [moderation.reports] and [moderation.signals]. *)
Module ReportEvent.
Record t := mk {
  reporter_id : string; entity_type : string; entity_id : string; actor_id : string;
  surface : string; category : string; reason : string }.
End ReportEvent.

Module SignalEvent.
Record t := mk {
  entity_type : string; entity_id : string; actor_id : string; surface : string;
  source : string; category : string; confidence : F64 }.
End SignalEvent.

Inductive StatusCode :=
  | InvalidArgument | FailedPrecondition | Unauthenticated | PermissionDenied | NotFoundStatus
  | AlreadyExists | Aborted | Unavailable | Internal.

Definition status (e : ModerationError) : StatusCode :=
  match moderation_http_status e with
  | 401 => Unauthenticated
  | 403 | 451 => PermissionDenied
  | 404 => NotFoundStatus
  | 409 => if moderation_is_retryable e then Aborted else AlreadyExists
  | 400 | 422 => FailedPrecondition
  | 502 | 503 => Unavailable
  | _ => Internal
  end.

(** ** Enumerations *)

Definition entity_type_to_proto (e : EntityType) : Z :=
  match e with
  | Post => 1 | Comment => 2 | ChatMessage => 3 | Media => 4 | AccountEntity => 5
  | ProfileEntity => 6
  end.
Definition category_to_proto (c : PolicyCategory) : Z :=
  match c with
  | Spam => 1 | Harassment => 2 | Hate => 3 | ViolentExtremism => 4 | Csam => 5 | Ncii => 6
  | SelfHarm => 7 | Misinformation => 8 | OtherCategory => 9
  end.
Definition action_to_proto (a : ActionType) : Z :=
  match a with
  | NoAction => 1 | Warn => 2 | RemoveContent => 3 | AgeGate => 4 | VisibilityLimit => 5
  | RestrictActor => 6 | Suspend => 7 | Ban => 8
  end.
Definition case_status_to_proto (s : CaseStatus) : Z :=
  match s with Open => 1 | Triaged => 2 | Actioned => 3 | Dismissed => 4 | Appealed => 5 end.
Definition enforcement_status_to_proto (s : EnforcementStatus) : Z :=
  match s with EnforcementActive => 1 | Expired => 2 | Reversed => 3 end.
Definition appeal_status_to_proto (s : AppealStatus) : Z :=
  match s with Filed => 1 | UnderReview => 2 | Upheld => 3 | Overturned => 4 end.
Definition verdict_to_proto (v : ScreenVerdict) : Z :=
  match v with Allow => 1 | Block => 2 | Review => 3 end.

(** The value a protobuf number stands for; [None] is unspecified or unknown. *)
Definition of_proto {A} (to_proto : A → Z) (all : list A) (v : Z) : option A :=
  list_find (λ a, to_proto a = v) all ≫= λ found, Some found.2.

Definition entity_type_from_proto (v : Z) : result StatusCode EntityType :=
  ok_or (of_proto entity_type_to_proto all_entity_types v) InvalidArgument.
Definition category_from_proto (v : Z) : result StatusCode PolicyCategory :=
  ok_or (of_proto category_to_proto all_categories v) InvalidArgument.
Definition action_from_proto (v : Z) : result StatusCode ActionType :=
  ok_or (of_proto action_to_proto all_actions v) InvalidArgument.
Definition case_status_filter (v : Z) : option CaseStatus :=
  of_proto case_status_to_proto all_case_statuses v.

(** [v as f32]: round to nearest, ties to even, on a 24-bit significand. *)
Definition round_even (m : N) (k : N) : N :=
  (let q := N.shiftr m k in
   let r := m - N.shiftl q k in
   let half := N.shiftl 1 (k - 1) in
   if (r <? half) then q else if (half <? r) then q + 1
   else if N.even q then q else q + 1)%N.

Definition as_f32 (v : F64) : F64 :=
  match v with
  | Finite s m e =>
      let lsb := Z.max (e + Z.of_N (N.size m) - 24) (-149) in
      let '(m, e) := if lsb <=? e then (m, e) else (round_even m (Z.to_N (lsb - e)), lsb) in
      if 128 <? Z.of_N (N.size m) + e then Infinite s else Finite s m e
  | _ => v
  end.

Definition to_ts (t : Z) : Pb.Timestamp := {| Pb.seconds := t / NANOS; Pb.nanos := t mod NANOS |}.

Section Edge.
Context `{UuidText} `{UuidV5} `{UuidV7} `{AccountStore.PgTime} `{CorpusJson}.

(** ** Requests *)

Definition defaulted (s fallback : string) : string := if trim_is_empty s then fallback else s.

Definition ActorId_try_from (s : string) : outcome ActorId :=
  ok_or (parse_uuid s) (InvalidIdentifier s).

(** [Uuid::parse_str] of an id in a request: the v7 ids through [status], the case id
    directly. *)
Definition id_from (s : string) : result StatusCode Uuid :=
  map_err status (ok_or (parse_uuid s) (InvalidIdentifier s)).
Definition parse_case_id (s : string) : result StatusCode CaseId := ok_or (parse_uuid s) InvalidArgument.

Definition subject_from_proto (s : option Pb.SubjectRef) : result StatusCode SubjectRef :=
  s ← ok_or s InvalidArgument;
  e ← entity_type_from_proto (Pb.entity_type s);
  actor ← id_from (Pb.actor_id s);
  map_err status (SubjectRef_new e (Pb.entity_id s) actor (Pb.surface s)).

(** ** Responses *)

Definition subject_to_proto (s : SubjectRef) : Pb.SubjectRef := {|
  Pb.entity_type := entity_type_to_proto (entity_type s); Pb.entity_id := entity_id s;
  Pb.actor_id := hyphenated (actor_id s); Pb.surface := surface s |}.

Definition signal_summary (s : Signal.t) : Pb.SignalSummary := {|
  Pb.source := Signal.source s; Pb.signal_category := category_to_proto (Signal.category s);
  Pb.confidence := as_f32 (Signal.confidence s); Pb.observed_at := to_ts (Signal.observed_at s) |}.

Definition case_view (c : Case.t) : Pb.CaseView := {|
  Pb.case_id := hyphenated (Case.id c); Pb.case_subject := subject_to_proto (Case.subject c);
  Pb.case_status := case_status_to_proto (Case.status c);
  Pb.case_category := category_to_proto (Case.category c); Pb.queue := Case.queue c;
  Pb.priority := Case.priority c; Pb.assignee := default "" (Case.assignee c);
  Pb.signals := signal_summary <$> Case.signals c; Pb.opened_at := to_ts (Case.opened_at c) |}.

Definition decision_to_proto (d : Decision.t) : Pb.Decision := {|
  Pb.decision_id := hyphenated (Decision.id d); Pb.subject := subject_to_proto (Decision.subject d);
  Pb.action := action_to_proto (Decision.action d);
  Pb.category := category_to_proto (Decision.category d);
  Pb.policy_version := Decision.policy_version d; Pb.rationale := Decision.rationale d;
  Pb.decided_by := author_id (Decision.author d); Pb.automated := Decision.is_automated d;
  Pb.reverses_decision_id := from_option hyphenated "" (Decision.reverses d);
  Pb.decided_at := to_ts (Decision.decided_at d) |}.

Definition enforcement_view (e : Enforcement.t) : Pb.EnforcementView := {|
  Pb.enforcement_id := hyphenated (Enforcement.id e);
  Pb.enforced_subject := subject_to_proto (Enforcement.subject e);
  Pb.enforced_action := action_to_proto (Enforcement.action e);
  Pb.status := enforcement_status_to_proto (Enforcement.status e);
  Pb.version := Enforcement.version e; Pb.applied_at := to_ts (Enforcement.applied_at e);
  Pb.expires_at := to_ts <$> Enforcement.expires_at e |}.

Definition appeal_view (a : Appeal.t) : Pb.AppealView := {|
  Pb.appeal_id := hyphenated (Appeal.id a);
  Pb.appealed_decision_id := hyphenated (Appeal.decision_id a);
  Pb.appeal_status := appeal_status_to_proto (Appeal.status a);
  Pb.statement := Appeal.statement a; Pb.filed_at := to_ts (Appeal.filed_at a);
  Pb.resolved_at := to_ts <$> Appeal.resolved_at a |}.

Definition statement_to_proto (s : StatementOfReasons) : Pb.StatementOfReasons := {|
  Pb.reasons_decision_id := hyphenated (sor_decision_id s);
  Pb.reasons_subject := subject_to_proto (sor_subject s);
  Pb.reasons_category := category_to_proto (sor_category s);
  Pb.reasons_action := action_to_proto (sor_action s);
  Pb.reasons_policy_version := sor_policy_version s; Pb.facts := sor_facts s;
  Pb.legal_ground := ""; Pb.reasons_automated := sor_automated s; Pb.territorial_eu := false;
  Pb.reasons_decided_at := to_ts (sor_decided_at s) |}.

(** ** The calls *)

Context (others : nat → World → World) (policy : ModerationPolicy).
Context (elapsed : World → option nat) (wall : Z).

Abbreviation rpc A := (act World StatusCode A).

Definition serving {A} (m : use_case A) : rpc A := λ w, let '(w, r) := m w in (w, map_err status r).

(** [Self::envelope]: a fresh correlation id. *)
Definition with_envelope {A} (m : Uuid → use_case A) : rpc A :=
  serving (let! corr := new_id in m corr).

Definition screen_rpc (req : Pb.ScreenRequest) : rpc (Z * list Z * string) :=
  let! subject := lift (subject_from_proto (Pb.screen_subject req)) in
  let! cats := lift (mapM category_from_proto (Pb.categories req)) in
  let cmd := {| sc_subject := subject; sc_hashes := Pb.hashes req;
                sc_text := if String.eqb (Pb.text req) "" then None else Some (Pb.text req);
                sc_categories := cats |} in
  let! out := with_envelope (screen others policy elapsed cmd wall) in
  done_with (verdict_to_proto (verdict out), category_to_proto <$> matched_categories out,
             default "" (out_reference out)).

Definition open_case_rpc (subject : option Pb.SubjectRef) (category : Z) (reason : string) :
    rpc (Pb.CaseView * bool) :=
  let! s := lift (subject_from_proto subject) in
  let! cat := lift (category_from_proto category) in
  let cmd := {| oc_subject := s; oc_category := cat; oc_queue := defaulted reason "default";
                oc_priority := "normal" |} in
  let! '(case, created) := with_envelope (open_case others cmd wall) in
  done_with (case_view case, created).

Definition assign_case_rpc (case_id reviewer : string) : rpc Pb.CaseView :=
  let! id := lift (parse_case_id case_id) in
  let! case := with_envelope (λ _, assign_case others id reviewer) in
  done_with (case_view case).

Definition decide_case_rpc (req : Pb.DecideCaseRequest) : rpc (Pb.Decision * option Pb.EnforcementView) :=
  let! id := lift (parse_case_id (Pb.decide_case_id req)) in
  let! action := lift (action_from_proto (Pb.decide_action req)) in
  let! cat := lift (category_from_proto (Pb.decide_category req)) in
  let cmd := {| dc_case_id := id; dc_action := action; dc_category := cat;
                dc_rationale := Pb.decide_rationale req;
                dc_reviewer_id := Pb.decide_reviewer_id req;
                dc_policy_version := Pb.decide_policy_version req |} in
  let! out := with_envelope (decide_case others policy cmd wall) in
  done_with (decision_to_proto (out_decision out), enforcement_view <$> out_enforcement out).

Definition list_queue_rpc (queue : string) (status_filter page_size : Z) :
    rpc (list Pb.CaseView * string) :=
  let limit := if page_size <=? 0 then 50 else page_size in
  let! cases := with_envelope (λ _, list_queue others queue (case_status_filter status_filter) limit) in
  done_with (case_view <$> cases, "").

Definition file_appeal_rpc (decision_id actor_id statement : string) : rpc Pb.AppealView :=
  let! decision := lift (id_from decision_id) in
  let! actor := lift (id_from actor_id) in
  let! appeal := with_envelope (λ _, file_appeal others decision actor statement wall) in
  done_with (appeal_view appeal).

Definition resolve_appeal_rpc (appeal_id : string) (overturn : bool) (rationale reviewer : string) :
    rpc (Pb.AppealView * option Pb.Decision) :=
  let! id := lift (id_from appeal_id) in
  let cmd := {| ra_appeal_id := id; ra_overturn := overturn; ra_rationale := rationale;
                ra_reviewer_id := reviewer |} in
  let! '(appeal, reversal) := with_envelope (resolve_appeal others cmd wall) in
  done_with (appeal_view appeal, decision_to_proto <$> reversal).

Definition get_statement_of_reasons (decision_id : string) : rpc Pb.StatementOfReasons :=
  let! id := lift (id_from decision_id) in
  let! s := with_envelope (λ _, statement_of_reasons others id) in
  done_with (statement_to_proto s).

Definition get_enforcement_state (actor_id : string) : rpc (bool * list Pb.EnforcementView) :=
  let! actor := lift (id_from actor_id) in
  let! '(restricted, active) := with_envelope (λ _, enforcement_state others actor wall) in
  done_with (restricted, enforcement_view <$> active).

(** ** The consumers *)

Definition event_subject (entity entity_id actor surface : string) : outcome SubjectRef :=
  e ← entity_type_from_str entity; a ← ActorId_try_from actor; SubjectRef_new e entity_id a surface.

Definition build_report (e : ReportEvent.t) : outcome IngestReportCommand :=
  s ← event_subject (ReportEvent.entity_type e) (ReportEvent.entity_id e) (ReportEvent.actor_id e)
        (ReportEvent.surface e);
  reporter ← ActorId_try_from (ReportEvent.reporter_id e);
  cat ← category_from_str (ReportEvent.category e);
  Ok {| ir_reporter_id := reporter; ir_subject := s; ir_category := cat;
        ir_reason := ReportEvent.reason e |}.

Definition build_signal (e : SignalEvent.t) : outcome IngestSignalCommand :=
  s ← event_subject (SignalEvent.entity_type e) (SignalEvent.entity_id e) (SignalEvent.actor_id e)
        (SignalEvent.surface e);
  cat ← category_from_str (SignalEvent.category e);
  Ok {| is_subject := s; is_source := SignalEvent.source e; is_category := cat;
        is_confidence := Confidence_clamped (SignalEvent.confidence e) |}.

Definition consume {C} (cmd : outcome C) (handle : C → Z → Uuid → use_case CaseId) : use_case unit :=
  let! cmd := lift cmd in
  let! corr := new_id in
  let! _ := handle cmd wall corr in done_with tt.

Definition consume_report (e : ReportEvent.t) : use_case unit :=
  consume (build_report e) (ingest_report others).
Definition consume_signal (e : SignalEvent.t) : use_case unit :=
  consume (build_signal e) (ingest_signal others).

(** [ProcessOutcome::from_result] on the handler's result. *)
Definition process_with {E} `{ClassifyError ModerationError} (m : E → use_case unit) (e : E)
    (w : World) : World * ProcessOutcome :=
  let '(w, r) := m e w in (w, from_result r).
End Edge.
