(* ===== verification/ModerationSteps.v ===== *)
(** * Moderation: what the stores guarantee under any interleaving

    [store_step] lists the atomic effects of the handlers on the stores, each with what
    its handler has established by then.  [sound] is the agreement of the tables and the
    topic that every step keeps; [kept] facts survive every step.  [triple] follows one
    handler through its calls while other handlers take steps of their own in between. *)

From S2P Require Import Prelude AccountDomain.
From S2P Require AccountStore.
From S2P Require Import ModerationDomain ModerationStore.
Local Open Scope Z_scope.

(** ** What the tables say *)

Definition decision_row_ok (r : DecisionRow.t) : Prop :=
  trim_is_empty (DecisionRow.rationale r) = false
  ∧ trim_is_empty (DecisionRow.policy_version r) = false.

Definition appealable_row (r : DecisionRow.t) : Prop :=
  ∃ c, DecisionRow.category r = category_str c ∧ is_appealable c = true.

(** The subject columns a row shares with a subject. *)
Definition names_subject (s : SubjectRef) (e id : string) (actor : Uuid) (place : string) : Prop :=
  e = entity_type_str (entity_type s) ∧ id = entity_id s ∧ actor = actor_id s ∧ place = surface s.
Definition decision_about (s : SubjectRef) (r : DecisionRow.t) : Prop :=
  names_subject s (DecisionRow.entity_type r) (DecisionRow.entity_id r) (DecisionRow.actor_id r)
    (DecisionRow.surface r).
Definition enforcement_about (s : SubjectRef) (r : EnforcementRow.t) : Prop :=
  names_subject s (EnforcementRow.entity_type r) (EnforcementRow.entity_id r)
    (EnforcementRow.actor_id r) (EnforcementRow.surface r).

(** An original decision that orders what the enforcement executes. *)
Definition authorizes (d : DecisionRow.t) (e : EnforcementRow.t) : Prop :=
  DecisionRow.entity_type d = EnforcementRow.entity_type e
  ∧ DecisionRow.entity_id d = EnforcementRow.entity_id e
  ∧ DecisionRow.actor_id d = EnforcementRow.actor_id e
  ∧ DecisionRow.surface d = EnforcementRow.surface e
  ∧ DecisionRow.action d = EnforcementRow.action e
  ∧ DecisionRow.action d ≠ "no_action" ∧ DecisionRow.reverses d = None.

Definition appealed (w : World) (o : DecisionId) : Prop :=
  ∃ id a, appeals w !! id = Some a ∧ AppealRow.decision_id a = o.

Definition same_decision_subject (r o : DecisionRow.t) : Prop :=
  DecisionRow.entity_type r = DecisionRow.entity_type o
  ∧ DecisionRow.entity_id r = DecisionRow.entity_id o
  ∧ DecisionRow.actor_id r = DecisionRow.actor_id o
  ∧ DecisionRow.surface r = DecisionRow.surface o.

(** A reversal lifts a decision somebody appealed and whose category may be appealed. *)
Definition reversal_sound (w : World) (r : DecisionRow.t) : Prop :=
  ∀ o, DecisionRow.reverses r = Some o →
    DecisionRow.action r = "no_action" ∧ appealed w o ∧
    ∃ original, decisions w !! o = Some original ∧ appealable_row original
      ∧ same_decision_subject r original.

Definition reversed_by_decision (w : World) (e : EnforcementRow.t) : Prop :=
  ∃ rid r, decisions w !! rid = Some r ∧ DecisionRow.reverses r = Some (EnforcementRow.decision_id e).

(** The stored row an event reports. *)
Definition event_backed (w : World) (ev : DomainEvent) : Prop :=
  match ev with
  | CaseOpened id _ _ _ _ _ => is_Some (cases w !! id)
  | CaseResolved id did _ action _ _ _ =>
      is_Some (cases w !! id) ∧
      ∃ d, decisions w !! did = Some d ∧ DecisionRow.action d = action_str action
  | DecisionRecorded id s author action cat pv text rev _ _ =>
      ∃ d, decisions w !! id = Some d ∧ decision_about s d
        ∧ DecisionRow.author_id d = author_id author ∧ DecisionRow.action d = action_str action
        ∧ DecisionRow.category d = category_str cat ∧ DecisionRow.policy_version d = pv
        ∧ DecisionRow.rationale d = text ∧ DecisionRow.reverses d = rev
  | EnforcementApplied id s _ action version _ _ _ _ =>
      ∃ e, enforcements w !! id = Some e ∧ enforcement_about s e
        ∧ EnforcementRow.action e = action_str action ∧ EnforcementRow.version e = version
  | EnforcementReversed id s _ version _ _ =>
      ∃ e, enforcements w !! id = Some e ∧ enforcement_about s e
        ∧ EnforcementRow.version e = version ∧ EnforcementRow.status e = "reversed"
  | AppealResolved id did actor _ _ _ =>
      ∃ a, appeals w !! id = Some a ∧ AppealRow.decision_id a = did ∧ AppealRow.actor_id a = actor
  end.

Record sound (w : World) : Prop := {
  s_decision id r : decisions w !! id = Some r →
    DecisionRow.id r = id ∧ decision_row_ok r ∧ reversal_sound w r;
  s_enforcement id e : enforcements w !! id = Some e →
    EnforcementRow.id e = id ∧
    (∃ d, decisions w !! EnforcementRow.decision_id e = Some d ∧ authorizes d e) ∧
    (EnforcementRow.status e = "active" ∨
     EnforcementRow.status e = "reversed" ∧ reversed_by_decision w e);
  s_appeal id a : appeals w !! id = Some a →
    AppealRow.id a = id ∧ trim_is_empty (AppealRow.statement a) = false ∧
    ∃ d, decisions w !! AppealRow.decision_id a = Some d ∧ appealable_row d;
  s_penalty id r : penalty_ledgers w !! id = Some r → PenaltyRow.actor_id r = id;
  s_topic m : m ∈ topic w → event_backed w (EventEnvelope.payload m);
}.

(** ** The steps *)

Record same_stores (w w' : World) : Prop := {
  q_cases : cases w' = cases w;
  q_decisions : decisions w' = decisions w;
  q_enforcements : enforcements w' = enforcements w;
  q_penalties : penalty_ledgers w' = penalty_ledgers w;
  q_appeals : appeals w' = appeals w;
  q_restrictions : restrictions w' = restrictions w;
  q_topic : topic w' = topic w;
  q_history : history w' = history w;
}.

Section Steps.
Context `{UuidText} `{AccountStore.PgTime}.

(** [own] are the identifiers whoever takes the step may insert. *)
Inductive store_step (own : Uuid → Prop) (w : World) : World → Prop :=
  | st_quiet w' : same_stores w w' → store_step own w w'
  | st_case c : store_step own w (w <| cases := upsert_case (row_of_case c) (cases w) |>)
  | st_decision d :
      own (Decision.id d) → decisions w !! Decision.id d = None →
      decision_row_ok (row_of_decision d) → reversal_sound w (row_of_decision d) →
      store_step own w (w <| decisions := <[Decision.id d := row_of_decision d]> (decisions w) |>)
  | st_enforce e d :
      own (Enforcement.id e) → enforcements w !! Enforcement.id e = None →
      Enforcement.status e = EnforcementActive →
      decisions w !! Enforcement.decision_id e = Some d → authorizes d (row_of_enforcement e) →
      store_step own w
        (w <| enforcements := <[Enforcement.id e := row_of_enforcement e]> (enforcements w) |>)
  | st_reverse id old at_ :
      enforcements w !! id = Some old → reversed_by_decision w old →
      store_step own w
        (w <| enforcements := <[id := old <| EnforcementRow.status := "reversed" |>
                                         <| EnforcementRow.reversed_at := at_ |>]> (enforcements w) |>)
  | st_penalty r :
      store_step own w
        (w <| penalty_ledgers := <[PenaltyRow.actor_id r := r]> (penalty_ledgers w) |>)
  | st_file a d :
      own (Appeal.id a) → appeals w !! Appeal.id a = None → Appeal.status a = Filed →
      trim_is_empty (Appeal.statement a) = false →
      decisions w !! Appeal.decision_id a = Some d → appealable_row d →
      store_step own w (w <| appeals := <[Appeal.id a := row_of_appeal a]> (appeals w) |>)
  | st_close id old (upheld : bool) at_ :
      appeals w !! id = Some old →
      store_step own w
        (w <| appeals := <[id := old <| AppealRow.status := if upheld then "upheld" else "overturned" |>
                                    <| AppealRow.resolved_at := at_ |>]> (appeals w) |>)
  | st_restrict m : store_step own w (w <| restrictions := m |>)
  | st_publish e :
      event_backed w e → store_step own w (w <| topic := topic w ++ [envelope_of e] |>)
  | st_history h : store_step own w (w <| history := history w ++ [h] |>).

Definition any_id : Uuid → Prop := λ _, True.
Abbreviation steps := (star (store_step any_id)).

Lemma store_step_any own w w' : store_step own w w' → store_step any_id w w'.
Proof. destruct 1; by econstructor. Qed.
Lemma steps_any own w w' : star (store_step own) w w' → steps w w'.
Proof. induction 1; eauto using star, store_step_any. Qed.

(** ** Facts that no step undoes *)

(** [w'] knows everything [w] recorded. *)
Record grows (w w' : World) : Prop := {
  g_cases id : is_Some (cases w !! id) → is_Some (cases w' !! id);
  g_decisions id r : decisions w !! id = Some r → decisions w' !! id = Some r;
  g_enforcements id e : enforcements w !! id = Some e →
    ∃ e', enforcements w' !! id = Some e' ∧
      e' <| EnforcementRow.status := EnforcementRow.status e |>
         <| EnforcementRow.reversed_at := EnforcementRow.reversed_at e |> = e ∧
      (EnforcementRow.status e' = EnforcementRow.status e ∨ EnforcementRow.status e' = "reversed");
  g_appeals id a : appeals w !! id = Some a →
    ∃ a', appeals w' !! id = Some a' ∧
      a' <| AppealRow.status := AppealRow.status a |>
         <| AppealRow.resolved_at := AppealRow.resolved_at a |> = a;
  g_topic : topic w `prefix_of` topic w';
}.

Lemma enforcement_row_eta e :
  e <| EnforcementRow.status := EnforcementRow.status e |>
    <| EnforcementRow.reversed_at := EnforcementRow.reversed_at e |> = e.
Proof. by destruct e. Qed.
Lemma appeal_row_eta a :
  a <| AppealRow.status := AppealRow.status a |>
    <| AppealRow.resolved_at := AppealRow.resolved_at a |> = a.
Proof. by destruct a. Qed.

#[global] Instance grows_preorder : PreOrder grows.
Proof.
  split.
  - intros w. split; eauto using enforcement_row_eta, appeal_row_eta.
  - intros x y z [c1 d1 e1 a1 t1] [c2 d2 e2 a2 t2]. split; eauto; [| |by trans (topic y)].
    + intros id e He. destruct (e1 id e He) as (e' & He' & E1 & S1).
      destruct (e2 id e' He') as (e'' & He'' & E2 & S2). exists e''. split_and!; [done| |].
      * rewrite <- E1, <- E2. by destruct e''.
      * destruct S2 as [-> | ->]; auto.
    + intros id a Ha. destruct (a1 id a Ha) as (a' & Ha' & A1).
      destruct (a2 id a' Ha') as (a'' & Ha'' & A2). exists a''. split; [done|].
      rewrite <- A1, <- A2. by destruct a''.
Qed.

Lemma upsert_case_keeps r t id : is_Some (t !! id) → is_Some (upsert_case r t !! id).
Proof.
  intros Hid. unfold upsert_case.
  destruct (t !! CaseRow.id r); destruct (decide (CaseRow.id r = id)) as [->|Hne];
    by rewrite ?lookup_insert_eq, ?lookup_insert_ne by done.
Qed.

Lemma same_stores_grows w w' : same_stores w w' → grows w w'.
Proof.
  intros [q1 q2 q3 q4 q5 q6 q7 q8].
  split; intros; rewrite ?q1, ?q2, ?q3, ?q5, ?q7; eauto using enforcement_row_eta, appeal_row_eta.
Qed.

#[local] Hint Resolve enforcement_row_eta appeal_row_eta prefix_app_r : core.

Lemma step_grows own w w' : store_step own w w' → grows w w'.
Proof.
  destruct 1 as [w' Hq|c|d ? Hnone|e d ? Hnone|id old at_ Hold|r|a d ? Hnone|id old up at_ Hold|m|e|h];
    [by apply same_stores_grows|split; simpl; eauto..].
  - intros id. apply upsert_case_keeps.
  - intros id r Hr. by rewrite lookup_insert_ne by congruence.
  - intros id e' He'. exists e'. rewrite lookup_insert_ne by congruence. eauto.
  - intros id' e He. destruct (decide (id = id')) as [->|Hne].
    + assert (e = old) as -> by congruence. rewrite lookup_insert_eq.
      eexists. split; [done|]. split; [by destruct old|by right].
    + rewrite lookup_insert_ne by done. eauto.
  - intros id a' Ha'. exists a'. rewrite lookup_insert_ne by congruence. eauto.
  - intros id' a Ha. destruct (decide (id = id')) as [->|Hne].
    + assert (a = old) as -> by congruence. rewrite lookup_insert_eq.
      eexists. split; [done|]. by destruct old.
    + rewrite lookup_insert_ne by done. eauto.
Qed.

Lemma steps_grow own w w' : star (store_step own) w w' → grows w w'.
Proof. induction 1 as [|? ? ? Hs _ IH]; [reflexivity|]. rewrite (step_grows _ _ _ Hs). exact IH. Qed.

(** Facts that later worlds inherit. *)
Definition kept (P : World → Prop) : Prop := ∀ w w', grows w w' → P w → P w'.

Lemma kept_and P Q : kept P → kept Q → kept (λ w, P w ∧ Q w).
Proof. intros HP HQ w w' Hg [??]. eauto. Qed.
Lemma kept_True : kept (λ _, True).
Proof. done. Qed.
Lemma kept_decision id r : kept (λ w, decisions w !! id = Some r).
Proof. intros w w' [? Hd ???]. apply Hd. Qed.
Lemma kept_appealed o : kept (λ w, appealed w o).
Proof.
  intros w w' Hg (id & a & Ha & <-). destruct (g_appeals _ _ Hg id a Ha) as (a' & Ha' & E).
  exists id, a'. split; [done|]. by rewrite <- E.
Qed.
Lemma kept_reversal_sound r : kept (λ w, reversal_sound w r).
Proof.
  intros w w' Hg Hr o Ho. destruct (Hr o Ho) as (Hact & Happ & d & Hd & Hrest).
  split_and!; [done|by eapply kept_appealed|]. exists d. split; [by eapply kept_decision|done].
Qed.
Lemma kept_reversed_by e : kept (λ w, reversed_by_decision w e).
Proof. intros w w' Hg (rid & r & Hr & E). exists rid, r. split; [by eapply kept_decision|done]. Qed.

Lemma enforcement_fields e e' :
  e' <| EnforcementRow.status := EnforcementRow.status e |>
     <| EnforcementRow.reversed_at := EnforcementRow.reversed_at e |> = e →
  EnforcementRow.id e' = EnforcementRow.id e ∧
  EnforcementRow.entity_type e' = EnforcementRow.entity_type e ∧
  EnforcementRow.entity_id e' = EnforcementRow.entity_id e ∧
  EnforcementRow.actor_id e' = EnforcementRow.actor_id e ∧
  EnforcementRow.surface e' = EnforcementRow.surface e ∧
  EnforcementRow.action e' = EnforcementRow.action e ∧
  EnforcementRow.version e' = EnforcementRow.version e ∧
  EnforcementRow.decision_id e' = EnforcementRow.decision_id e ∧
  EnforcementRow.expires_at e' = EnforcementRow.expires_at e.
Proof. intros E. rewrite <- E. by destruct e'. Qed.

Lemma appeal_fields a a' :
  a' <| AppealRow.status := AppealRow.status a |>
     <| AppealRow.resolved_at := AppealRow.resolved_at a |> = a →
  AppealRow.decision_id a' = AppealRow.decision_id a ∧
  AppealRow.actor_id a' = AppealRow.actor_id a ∧
  AppealRow.statement a' = AppealRow.statement a ∧ AppealRow.id a' = AppealRow.id a.
Proof. intros E. rewrite <- E. by destruct a'. Qed.

Lemma kept_event_backed e : kept (λ w, event_backed w e).
Proof.
  intros w w' Hg. destruct e; simpl.
  - apply (g_cases _ _ Hg).
  - intros (Hc & d & Hd & E). split; [by apply (g_cases _ _ Hg)|].
    exists d. split; [by apply (g_decisions _ _ Hg)|done].
  - intros (d & Hd & E). exists d. split; [by apply (g_decisions _ _ Hg)|done].
  - intros (e & He & [] & E). destruct (g_enforcements _ _ Hg _ _ He) as (e' & He' & F & _).
    apply enforcement_fields in F as (? & ? & ? & ? & ? & ? & ? & ? & ?).
    exists e'. split_and!; [done| |intuition congruence..]. split; [congruence|].
    intuition congruence.
  - intros (e & He & [] & E). destruct (g_enforcements _ _ Hg _ _ He) as (e' & He' & F & S).
    apply enforcement_fields in F as (? & ? & ? & ? & ? & ? & ? & ? & ?).
    exists e'. split_and!; [done| |intuition congruence..]. split; [congruence|].
    intuition congruence.
  - intros (a & Ha & E). destruct (g_appeals _ _ Hg _ _ Ha) as (a' & Ha' & F).
    apply appeal_fields in F as (? & ? & ? & ?). exists a'. intuition congruence.
Qed.

(** ** Soundness is an invariant of the steps *)

(** A row of [w] keeps what [sound] says of it in a later world. *)
Lemma sound_decision_kept w w' id r :
  grows w w' → sound w → decisions w !! id = Some r →
  DecisionRow.id r = id ∧ decision_row_ok r ∧ reversal_sound w' r.
Proof.
  intros Hg Hs Hr. destruct (s_decision _ Hs id r Hr) as (? & ? & ?).
  split_and!; [done..|by eapply kept_reversal_sound].
Qed.
Lemma sound_enforcement_kept w w' id e :
  grows w w' → sound w → enforcements w !! id = Some e →
  EnforcementRow.id e = id ∧
  (∃ d, decisions w' !! EnforcementRow.decision_id e = Some d ∧ authorizes d e) ∧
  (EnforcementRow.status e = "active" ∨
   EnforcementRow.status e = "reversed" ∧ reversed_by_decision w' e).
Proof.
  intros Hg Hs He. destruct (s_enforcement _ Hs id e He) as (? & (d & Hd & Ha) & Hst).
  split_and!; [done|exists d; split; [by eapply kept_decision|done]|].
  destruct Hst as [|[]]; [by left|right; split; [done|by eapply kept_reversed_by]].
Qed.
Lemma sound_appeal_kept w w' id a :
  grows w w' → sound w → appeals w !! id = Some a →
  AppealRow.id a = id ∧ trim_is_empty (AppealRow.statement a) = false ∧
  ∃ d, decisions w' !! AppealRow.decision_id a = Some d ∧ appealable_row d.
Proof.
  intros Hg Hs Ha. destruct (s_appeal _ Hs id a Ha) as (? & ? & d & Hd & Happ).
  split_and!; [done..|exists d; split; [by eapply kept_decision|done]].
Qed.
Lemma sound_topic_kept w w' m :
  grows w w' → sound w → m ∈ topic w → event_backed w' (EventEnvelope.payload m).
Proof. intros Hg Hs Hm. eapply kept_event_backed; [done|by apply s_topic]. Qed.

Lemma step_sound own w w' : store_step own w w' → sound w → sound w'.
Proof.
  intros Hstep Hs. pose proof (step_grows _ _ _ Hstep) as Hg.
  assert (Hd := λ id r, sound_decision_kept w w' id r Hg Hs).
  assert (He := λ id e, sound_enforcement_kept w w' id e Hg Hs).
  assert (Ha := λ id a, sound_appeal_kept w w' id a Hg Hs).
  assert (Ht := λ m, sound_topic_kept w w' m Hg Hs). assert (Hp := s_penalty _ Hs).
  destruct Hstep as [w' [_ q2 q3 q4 q5 _ q7 _]|c|d Hown Hnone Hok Hrev|e d Hown Hnone Hact Hdec Hauth
                    |id old at_ Hold Hby|r|a d Hown Hnone Hfiled Htext Hdec Happ
                    |id old up at_ Hold|m|e Hback|h];
    split; simpl in *; intros; try (by eauto).
  - apply Hd. by rewrite <- q2.
  - apply He. by rewrite <- q3.
  - apply Ha. by rewrite <- q5.
  - apply Hp. by rewrite <- q4.
  - apply Ht. by rewrite <- q7.
  - destruct (decide (id = Decision.id d)) as [->|Hne].
    + rewrite lookup_insert_eq in *. simplify_eq. split_and!; [done..|].
      by eapply kept_reversal_sound.
    + rewrite lookup_insert_ne in * by done. by apply Hd.
  - destruct (decide (id = Enforcement.id e)) as [->|Hne].
    + rewrite lookup_insert_eq in *. simplify_eq. split_and!; [done|by exists d|left].
      simpl. by rewrite Hact.
    + rewrite lookup_insert_ne in * by done. by apply He.
  - destruct (decide (id0 = id)) as [->|Hne].
    + rewrite lookup_insert_eq in *. simplify_eq.
      destruct (He id old Hold) as (? & (d & ? & Hauth) & _). simpl.
      split_and!; [done|by exists d|right]. split; [done|exact Hby].
    + rewrite lookup_insert_ne in * by done. by apply He.
  - destruct (decide (id = PenaltyRow.actor_id r)) as [->|Hne]; simplify_map_eq; [done|by apply Hp].
  - destruct (decide (id = Appeal.id a)) as [->|Hne].
    + rewrite lookup_insert_eq in *. simplify_eq. split_and!; [done..|]. by exists d.
    + rewrite lookup_insert_ne in * by done. by apply Ha.
  - destruct (decide (id0 = id)) as [->|Hne].
    + rewrite lookup_insert_eq in *. simplify_eq. by apply (Ha id old Hold).
    + rewrite lookup_insert_ne in * by done. by apply Ha.
  - match goal with H : _ ∈ _ ++ _ |- _ => apply elem_of_app in H as [H|H%list_elem_of_singleton] end;
      [by apply Ht|]. subst. simpl. by eapply kept_event_backed.
Qed.

Lemma steps_sound own w w' : star (store_step own) w w' → sound w → sound w'.
Proof. induction 1; eauto using step_sound. Qed.
End Steps.
