(* ===== verification/ModerationRuns.v ===== *)
(** * Moderation: following a handler among others

    [wp m Φ w] says of one call started in [w], while other handlers take steps before
    each of its backend calls: what it does to the stores is a run of [store_step]s, the
    tables agree when it stops, and if it returns a value [Φ] holds of it there. *)

From S2P Require Import Prelude AccountDomain.
From S2P Require AccountStore.
From S2P Require Import ModerationDomain ModerationStore ModerationSteps.
Local Open Scope Z_scope.

(** ** Decoded rows *)

Lemma parse_inv {A} (str : A → string) all e s (a : A) : parse str all e s = Ok a → s = str a.
Proof.
  unfold parse, value_of. intros Hp. apply ok_or_ok in Hp.
  destruct (list_find _ all) as [[i x]|] eqn:Hf; simplify_eq/=.
  by apply list_find_Some in Hf as (_ & <- & _).
Qed.

Lemma subject_from_inv e id actor place s :
  subject_from e id actor place = Ok s → names_subject s e id actor place.
Proof.
  unfold subject_from, SubjectRef_new. intros Hs.
  apply result_bind_ok in Hs as (et & Het & Hs). apply parse_inv in Het as ->.
  by destruct (trim_is_empty id); simplify_eq.
Qed.

Lemma decision_of_row_inv r d :
  decision_of_row r = Ok d →
  Decision.id d = DecisionRow.id r ∧ decision_about (Decision.subject d) r ∧
  DecisionRow.action r = action_str (Decision.action d) ∧
  DecisionRow.category r = category_str (Decision.category d) ∧
  Decision.policy_version d = DecisionRow.policy_version r ∧
  Decision.rationale d = DecisionRow.rationale r ∧
  Decision.reverses d = DecisionRow.reverses r.
Proof.
  unfold decision_of_row. intros Hd.
  apply result_bind_ok in Hd as (s & Hs%subject_from_inv & Hd).
  apply result_bind_ok in Hd as (author & _ & Hd).
  apply result_bind_ok in Hd as (action & Ha%parse_inv & Hd).
  apply result_bind_ok in Hd as (cat & Hc%parse_inv & Hd).
  apply result_bind_ok in Hd as (pv & Hpv & Hd). unfold PolicyVersion_new in Hpv.
  destruct (trim_is_empty (DecisionRow.policy_version r)); simplify_eq. simpl. done.
Qed.

Lemma enforcement_of_row_inv r e :
  enforcement_of_row r = Ok e →
  Enforcement.id e = EnforcementRow.id r ∧ enforcement_about (Enforcement.subject e) r ∧
  EnforcementRow.action r = action_str (Enforcement.action e) ∧
  EnforcementRow.status r = enforcement_status_str (Enforcement.status e) ∧
  Enforcement.version e = EnforcementRow.version r ∧
  Enforcement.decision_id e = EnforcementRow.decision_id r ∧
  Enforcement.expires_at e = EnforcementRow.expires_at r ∧ Enforcement.pending_events e = [].
Proof.
  unfold enforcement_of_row. intros Hd.
  apply result_bind_ok in Hd as (s & Hs%subject_from_inv & Hd).
  apply result_bind_ok in Hd as (action & Ha%parse_inv & Hd).
  apply result_bind_ok in Hd as (st & Hst%parse_inv & Hd). simplify_eq. simpl. done.
Qed.

Lemma appeal_of_row_inv r a :
  appeal_of_row r = Ok a →
  Appeal.id a = AppealRow.id r ∧ Appeal.decision_id a = AppealRow.decision_id r ∧
  Appeal.actor_id a = AppealRow.actor_id r ∧ Appeal.pending_events a = [].
Proof. unfold appeal_of_row. intros Hd. apply result_bind_ok in Hd as (st & _ & Hd). by simplify_eq. Qed.

Lemma optional_some {A B} (f : A → outcome B) o b :
  optional f o = Ok (Some b) → ∃ a, o = Some a ∧ f a = Ok b.
Proof.
  destruct o as [a|]; simpl; [|done]. intros Ho.
  apply result_bind_ok in Ho as (b' & Hb & ?). simplify_eq. by exists a.
Qed.

(** ** The logic *)

Section Runs.
Context `{UuidText} `{UuidV5} `{UuidV7} `{AccountStore.PgTime} `{CorpusJson}.
Context (others : nat → World → World).

(** The identifiers of other calls. *)
Definition foreign (id : Uuid) : Prop := ∀ n, id ≠ now_v7 n.

Definition unused (id : Uuid) (w : World) : Prop :=
  decisions w !! id = None ∧ enforcements w !! id = None ∧ appeals w !! id = None.
Definition fresh (w : World) : Prop := ∀ n, (draws w ≤ n)%nat → unused (now_v7 n) w.

(** Other handlers take steps and leave this call's identifiers alone. *)
Definition neighbours : Prop :=
  ∀ i x, star (store_step foreign) x (others i x) ∧ draws (others i x) = draws x.

Context (Hothers : neighbours).

Abbreviation steps := (star (store_step any_id)).

Record good (w : World) : Prop := { good_sound : sound w; good_fresh : fresh w }.

(** What happens while a call waits. *)
Record meanwhile (w w' : World) : Prop := {
  m_steps : steps w w';
  m_draws : draws w' = draws w;
  m_unused n : unused (now_v7 n) w → unused (now_v7 n) w';
}.

Definition wp {A} (m : use_case A) (Φ : A → World → Prop) (w : World) : Prop :=
  let '(w', r) := m w in steps w w' ∧ good w' ∧ ∀ a, r = Ok a → Φ a w'.

Lemma wp_bind {A B} (m : use_case A) (f : A → use_case B) Φ w :
  wp m (λ a, wp (f a) Φ) w → wp (act_bind m f) Φ w.
Proof.
  unfold wp. rewrite act_bind_run. destruct (m w) as [w1 [a|e]]; [|naive_solver].
  intros (Hs & Hg & Hf). specialize (Hf a eq_refl). destruct (f a w1) as [w2 r].
  destruct Hf as (Hs2 & ? & ?). split_and!; [by eapply star_trans|done..].
Qed.

Lemma wp_ret {A} (a : A) Φ w : good w → Φ a w → wp (done_with a) Φ w.
Proof. intros Hg HΦ. split_and!; [constructor|done|]. by intros ? [= <-]. Qed.
Lemma wp_lift {A} (r : outcome A) Φ w : good w → (∀ a, r = Ok a → Φ a w) → wp (lift r) Φ w.
Proof. intros Hg HΦ. split_and!; [constructor|done..]. Qed.
Lemma wp_throw {A} e (Φ : A → World → Prop) w : good w → wp (throw e) Φ w.
Proof. intros Hg. by split_and!; [constructor|..]. Qed.
Lemma wp_gets {A} (f : World → A) Φ w : good w → Φ (f w) w → wp (gets f) Φ w.
Proof. intros Hg HΦ. split_and!; [constructor|done|]. by intros ? [= <-]. Qed.

Lemma wp_weaken {A} (m : use_case A) (Φ Ψ : A → World → Prop) w :
  wp m Φ w → (∀ a w', good w' → Φ a w' → Ψ a w') → wp m Ψ w.
Proof. unfold wp. destruct (m w) as [w' r]. naive_solver. Qed.

(** A loop whose body establishes a lasting fact about each element. *)
Lemma wp_for_each {A} (body : A → use_case unit) (Q : A → World → Prop) (xs : list A)
    (Φ : unit → World → Prop) w :
  (∀ x, kept (Q x)) →
  (∀ x, x ∈ xs → ∀ w1, good w1 → grows w w1 → wp (body x) (λ _, Q x) w1) →
  good w → (∀ w', good w' → grows w w' → (∀ x, x ∈ xs → Q x w') → Φ tt w') →
  wp (for_each body xs) Φ w.
Proof.
  intros HQ. revert w. induction xs as [|x xs IH]; intros w Hb Hg HΦ; simpl.
  { apply wp_ret; [done|]. apply HΦ; [done|reflexivity|set_solver]. }
  apply wp_bind. assert (Hx := Hb x ltac:(set_solver) w Hg ltac:(reflexivity)).
  unfold wp in Hx |- *. destruct (body x w) as [w2 r] eqn:E. destruct Hx as (Hs2 & Hg2 & Hq).
  assert (Hgr : grows w w2) by (by eapply steps_grow).
  split_and!; [done..|]. intros [] Hr. apply IH.
  - intros y Hy w1 Hg1 Hgr1. apply Hb; [set_solver|done|by trans w2].
  - done.
  - intros w' Hg' Hgr' Hall. apply HΦ; [done|by trans w2|].
    intros y [->|Hy]%elem_of_cons; [|by apply Hall]. eapply HQ, Hq; done.
Qed.

(** *** The identifiers *)

Lemma same_stores_steps w w' : same_stores w w' → steps w w'.
Proof. intros Hq. eapply star_step; [by apply st_quiet|constructor]. Qed.

Lemma same_stores_unused w w' id : same_stores w w' → unused id w → unused id w'.
Proof. intros [_ q2 q3 _ q5 _ _ _]. unfold unused. by rewrite q2, q3, q5. Qed.

Lemma foreign_step_unused n w w' :
  store_step foreign w w' → unused (now_v7 n) w → unused (now_v7 n) w'.
Proof.
  intros Hs (Hd & He & Ha).
  destruct Hs as [w' Hq|c|d Hown|e d Hown|id old at_ Hold|r|a d Hown|id old up at_ Hold|m|e|h];
    [eapply same_stores_unused; [done|by split_and!]|..]; split_and!; simpl; try done;
    rewrite lookup_insert_ne; try done; try (by apply Hown); congruence.
Qed.

Lemma others_meanwhile i w : meanwhile w (others i w).
Proof.
  destruct (Hothers i w) as [Hs Hd]. split; [by eapply steps_any|done|].
  intros n. clear Hd. induction Hs as [|x y z Hxy _ IH]; [done|].
  intros Hu. by eapply IH, foreign_step_unused.
Qed.

Lemma meanwhile_quiet w w' : same_stores w w' → draws w' = draws w → meanwhile w w'.
Proof.
  intros Hq Hd. split; [by apply same_stores_steps|done|]. intros n. by apply same_stores_unused.
Qed.
Lemma meanwhile_trans w1 w2 w3 : meanwhile w1 w2 → meanwhile w2 w3 → meanwhile w1 w3.
Proof. intros [] []. split; [by eapply star_trans|congruence|auto]. Qed.

Lemma meanwhile_good w w' : meanwhile w w' → good w → good w'.
Proof.
  intros [Hs Hd Hu] [Hg Hf]. split; [by eapply steps_sound|].
  intros n Hn. apply Hu, Hf. lia.
Qed.

Lemma meanwhile_grows w w' : meanwhile w w' → grows w w'.
Proof. intros []. by eapply steps_grow. Qed.

Lemma wp_turn Φ w :
  good w → (∀ w', meanwhile w w' → good w' → Φ tt w') → wp (turn others) Φ w.
Proof.
  intros Hg HΦ. unfold wp, turn, modify.
  set (w1 := w <| calls := S (calls w) |>).
  assert (Hm : meanwhile w (others (calls w) w1)).
  { eapply meanwhile_trans; [|apply others_meanwhile]. by apply meanwhile_quiet. }
  split_and!; [apply Hm|by eapply meanwhile_good|]. intros [] _. apply HΦ; [done|].
  by eapply meanwhile_good.
Qed.

Lemma wp_next {E} script drop (Φ : fault E → World → Prop) w :
  (∀ x, same_stores x (drop x)) → (∀ x, draws (drop x) = draws x) → good w →
  (∀ f w', meanwhile w w' → good w' → Φ f w') → wp (next others script drop) Φ w.
Proof.
  intros Hdrop Hdr Hg HΦ. apply wp_bind, wp_turn; [done|]. intros w1 Hm1 Hg1.
  assert (Hm : meanwhile w1 (drop w1)) by (by apply meanwhile_quiet).
  split_and!; [apply Hm|by eapply meanwhile_good|]. intros f _.
  apply HΦ; [by eapply meanwhile_trans|by eapply meanwhile_good].
Qed.

Lemma wp_fetch {A} (f : World → outcome A) Φ w :
  good w → (∀ a w', meanwhile w w' → good w' → f w' = Ok a → Φ a w') →
  wp (fetch others f) Φ w.
Proof.
  intros Hg HΦ. apply wp_bind, wp_next; [done..|]. intros ft w1 Hm Hg1.
  destruct ft; [|by apply wp_throw..].
  unfold wp. split_and!; [constructor|done|]. intros a Ha. by eapply HΦ.
Qed.

(** A statement that takes one step and inserts no identifier it did not draw. *)
Lemma wp_execute texts f Φ w :
  good w →
  (∀ w1, meanwhile w w1 → good w1 → store_step any_id w1 (f w1) ∧ fresh (f w1)) →
  (∀ w1, meanwhile w w1 → grows w (f w1) → good (f w1) → Φ tt (f w1)) →
  wp (execute others texts f) Φ w.
Proof.
  intros Hg Hstep HΦ. apply wp_bind, wp_next; [done..|]. intros ft w1 Hm Hg1.
  destruct (Hstep w1 Hm Hg1) as [Hs Hf].
  assert (Hg2 : good (f w1)) by (split; [by eapply step_sound, good_sound|done]).
  assert (Hgr : grows w (f w1)).
  { trans w1; [by apply meanwhile_grows|by eapply step_grows]. }
  assert (Hmod : ∀ Ψ : unit → World → Prop, Ψ tt (f w1) → wp (modify f) Ψ w1).
  { intros Ψ HΨ. split_and!; [by eapply star_step; [|constructor]|done|]. by intros [] _. }
  destruct ft; [|by apply wp_throw|]; apply wp_bind, wp_lift; try done; intros [] _.
  - by apply Hmod, HΦ.
  - apply wp_bind, Hmod. by apply wp_throw.
Qed.

Lemma wp_redis_read {A} (f : World → A) Φ w :
  good w → (∀ w', meanwhile w w' → good w' → Φ (f w') w') → wp (redis_read others f) Φ w.
Proof.
  intros Hg HΦ. apply wp_bind, wp_next; [done..|]. intros ft w1 Hm Hg1.
  destruct ft; [|by apply wp_throw..]. apply wp_gets; auto.
Qed.

Lemma wp_new_id Φ w :
  good w →
  (∀ n w', same_stores w w' → draws w' = S n → good w' → unused (now_v7 n) w' → Φ (now_v7 n) w') →
  wp new_id Φ w.
Proof.
  intros [Hs Hf] HΦ. unfold wp, new_id. set (w' := w <| draws := S (draws w) |>).
  assert (Hq : same_stores w w') by done.
  assert (Hg : good w').
  { split; [by eapply step_sound; [by apply (st_quiet any_id)|]|].
    intros n Hn. eapply same_stores_unused; [done|]. apply Hf. simpl in Hn. lia. }
  split_and!; [by apply same_stores_steps|done|]. intros ? [= <-].
  apply HΦ; [done..|]. eapply same_stores_unused; [done|]. by apply Hf.
Qed.

(** *** The adapters *)

(** A step that inserts no identifier keeps those this call has yet to draw. *)
Lemma fresh_same w w' :
  decisions w' = decisions w → enforcements w' = enforcements w → appeals w' = appeals w →
  draws w' = draws w → fresh w → fresh w'.
Proof.
  intros E1 E2 E3 Hd Hf n Hn. rewrite Hd in Hn. unfold unused. rewrite E1, E2, E3. by apply Hf.
Qed.

Ltac keep_fresh :=
  match goal with
  | Hg : good ?w |- fresh _ => solve [apply (fresh_same w); [done..|by apply good_fresh]]
  end.

(** An insertion under the identifier [id] this call drew before. *)
Lemma fresh_insert w w' id :
  draws w' = draws w → (∀ n, (draws w ≤ n)%nat → now_v7 n ≠ id) →
  (∀ k, k ≠ id → decisions w' !! k = decisions w !! k ∧ enforcements w' !! k = enforcements w !! k
                 ∧ appeals w' !! k = appeals w !! k) →
  fresh w → fresh w'.
Proof.
  intros Hd Hid Hk Hf n Hn. rewrite Hd in Hn.
  destruct (Hk _ (Hid n Hn)) as (E1 & E2 & E3). unfold unused. rewrite E1, E2, E3. by apply Hf.
Qed.

Lemma drawn_differs n w m : (n < draws w)%nat → (draws w ≤ m)%nat → now_v7 m ≠ now_v7 n.
Proof. intros Hn Hm E. apply now_v7_inj in E. lia. Qed.

Definition drawn (id : Uuid) (w : World) : Prop :=
  ∃ n, id = now_v7 n ∧ (n < draws w)%nat ∧ unused id w.

Lemma drawn_meanwhile id w w' : meanwhile w w' → drawn id w → drawn id w'.
Proof.
  intros [_ Hd Hu] (n & -> & Hn & Hun). exists n. split_and!; [done|lia|by apply Hu].
Qed.

Lemma wp_draw Φ w :
  good w → (∀ id w', same_stores w w' → good w' → drawn id w' → Φ id w') → wp new_id Φ w.
Proof.
  intros Hg HΦ. apply wp_new_id; [done|]. intros n w' Hq Hd Hg' Hu. apply HΦ; [done..|].
  exists n. split_and!; [done|lia|done].
Qed.

Lemma wp_case_save c Φ w :
  good w →
  (∀ w', grows w w' → good w' → is_Some (cases w' !! Case.id c) → Φ tt w') →
  wp (case_save others c) Φ w.
Proof.
  intros Hg HΦ. apply wp_execute; [done| |].
  - intros w1 _ Hg1. split; [apply st_case|keep_fresh].
  - intros w1 _ Hgr Hg1. apply HΦ; [done..|]. simpl. unfold upsert_case. simpl.
    destruct (cases w1 !! Case.id c); by rewrite lookup_insert_eq.
Qed.

Lemma wp_case_find id Φ w :
  good w →
  (∀ o w', grows w w' → good w' → (∀ c, o = Some c → Case.pending_events c = []) → Φ o w') →
  wp (case_find_by_id others id) Φ w.
Proof.
  intros Hg HΦ. apply wp_fetch; [done|]. intros a w' Hm Hg' Ho.
  apply HΦ; [by apply meanwhile_grows|done|]. intros c ->.
  apply optional_some in Ho as (r & _ & Hc). unfold case_of_row in Hc.
  apply result_bind_ok in Hc as (? & _ & Hc). apply result_bind_ok in Hc as (? & _ & Hc).
  apply result_bind_ok in Hc as (? & _ & Hc). by simplify_eq.
Qed.

Lemma wp_decision_append d Φ w :
  good w → drawn (Decision.id d) w → decision_row_ok (row_of_decision d) →
  reversal_sound w (row_of_decision d) →
  (∀ w', grows w w' → good w' → decisions w' !! Decision.id d = Some (row_of_decision d) → Φ tt w') →
  wp (decision_append others d) Φ w.
Proof.
  intros Hg Hdr Hok Hrev HΦ.
  assert (Hins : ∀ w1, meanwhile w w1 →
    insert_decision (row_of_decision d) (decisions w1)
    = <[Decision.id d := row_of_decision d]> (decisions w1)).
  { intros w1 Hm. unfold insert_decision. simpl.
    destruct (drawn_meanwhile _ _ _ Hm Hdr) as (n & _ & _ & Hu & _). by rewrite Hu. }
  apply wp_execute; [done| |].
  - intros w1 Hm Hg1. simpl. rewrite (Hins w1 Hm).
    destruct (drawn_meanwhile _ _ _ Hm Hdr) as (n & Hn & Hlt & Hu & _). split.
    + apply st_decision; [done..|]. eapply kept_reversal_sound; [by apply meanwhile_grows|done].
    + apply (fresh_insert w1 _ (now_v7 n)); [done|intros m; by apply drawn_differs| |by apply good_fresh].
      intros k Hk. simpl. by rewrite lookup_insert_ne by congruence.
  - intros w1 Hm Hgr Hg1. apply HΦ; [done..|]. simpl. by rewrite (Hins w1 Hm), lookup_insert_eq.
Qed.

Lemma wp_decision_find id Φ w :
  good w →
  (∀ o w', grows w w' → good w' →
    (∀ d, o = Some d → Decision.id d = id ∧
       ∃ r, decisions w' !! id = Some r ∧ decision_of_row r = Ok d) → Φ o w') →
  wp (decision_find_by_id others id) Φ w.
Proof.
  intros Hg HΦ. apply wp_fetch; [done|]. intros o w' Hm Hg' Ho.
  apply HΦ; [by apply meanwhile_grows|done|]. intros d ->.
  apply optional_some in Ho as (r & Hr & Hd). split; [|by exists r].
  destruct (s_decision _ (good_sound _ Hg') id r Hr) as (<- & _).
  by apply decision_of_row_inv in Hd as [-> _].
Qed.

Lemma wp_next_version s Φ w :
  good w → (∀ v w', grows w w' → good w' → Φ v w') → wp (next_version others s) Φ w.
Proof. intros Hg HΦ. apply wp_fetch; [done|]. intros v w' Hm Hg' _. apply HΦ; [by apply meanwhile_grows|done]. Qed.

Lemma wp_enforcement_insert e d Φ w :
  good w → drawn (Enforcement.id e) w → Enforcement.status e = EnforcementActive →
  decisions w !! Enforcement.decision_id e = Some d → authorizes d (row_of_enforcement e) →
  (∀ w', grows w w' → good w' →
    enforcements w' !! Enforcement.id e = Some (row_of_enforcement e) → Φ tt w') →
  wp (enforcement_save others e) Φ w.
Proof.
  intros Hg Hdr Hst Hd Hauth HΦ.
  assert (Hins : ∀ w1, meanwhile w w1 →
    upsert_enforcement (row_of_enforcement e) (enforcements w1)
    = <[Enforcement.id e := row_of_enforcement e]> (enforcements w1)).
  { intros w1 Hm. unfold upsert_enforcement. simpl.
    destruct (drawn_meanwhile _ _ _ Hm Hdr) as (n & _ & _ & _ & Hu & _). by rewrite Hu. }
  apply wp_execute; [done| |].
  - intros w1 Hm Hg1. simpl. rewrite (Hins w1 Hm).
    destruct (drawn_meanwhile _ _ _ Hm Hdr) as (n & Hn & Hlt & _ & Hu & _). split.
    + eapply st_enforce; [done..| |exact Hauth].
      eapply kept_decision; [by apply meanwhile_grows|done].
    + apply (fresh_insert w1 _ (now_v7 n)); [done|intros m; by apply drawn_differs| |by apply good_fresh].
      intros k Hk. simpl. by rewrite lookup_insert_ne by congruence.
  - intros w1 Hm Hgr Hg1. apply HΦ; [done..|]. simpl. by rewrite (Hins w1 Hm), lookup_insert_eq.
Qed.

(** Saving a loaded enforcement that was reversed since. *)
Lemma wp_enforcement_reverse e old Φ w :
  good w → enforcements w !! Enforcement.id e = Some old → Enforcement.status e = Reversed →
  reversed_by_decision w old →
  (∀ w' new, grows w w' → good w' → enforcements w' !! Enforcement.id e = Some new →
    EnforcementRow.status new = "reversed" → Φ tt w') →
  wp (enforcement_save others e) Φ w.
Proof.
  intros Hg Hold Hst Hby HΦ.
  assert (Hins : ∀ w1, meanwhile w w1 → ∃ old1, enforcements w1 !! Enforcement.id e = Some old1 ∧
    reversed_by_decision w1 old1 ∧
    upsert_enforcement (row_of_enforcement e) (enforcements w1)
    = <[Enforcement.id e := old1 <| EnforcementRow.status := "reversed" |>
          <| EnforcementRow.reversed_at := EnforcementRow.reversed_at (row_of_enforcement e) |>]>
        (enforcements w1)).
  { intros w1 Hm. apply meanwhile_grows in Hm as Hgr.
    destruct (g_enforcements _ _ Hgr _ _ Hold) as (old1 & Hold1 & F & _). exists old1.
    split_and!; [done| |].
    - apply enforcement_fields in F as (_ & _ & _ & _ & _ & _ & _ & E & _).
      destruct (kept_reversed_by _ _ _ Hgr Hby) as (rid & r & ? & ?). exists rid, r. by rewrite E.
    - unfold upsert_enforcement. simpl. by rewrite Hold1, Hst. }
  apply wp_execute; [done| |].
  - intros w1 Hm Hg1. simpl. destruct (Hins w1 Hm) as (old1 & Hold1 & Hby1 & ->). split.
    + by apply st_reverse.
    + intros n Hn. destruct (good_fresh _ Hg1 n Hn) as (? & He & ?). split_and!; [done| |done]. simpl.
      rewrite lookup_insert_ne; congruence.
  - intros w1 Hm Hgr Hg1. destruct (Hins w1 Hm) as (old1 & Hold1 & Hby1 & E).
    eapply HΦ; [done..| |]; simpl; [rewrite E; apply lookup_insert_eq|done].
Qed.

Lemma mapM_elem {A B} (f : A → outcome B) l k :
  mapM f l = Ok k → (∀ y, y ∈ k → ∃ x, x ∈ l ∧ f x = Ok y) ∧ (∀ x, x ∈ l → ∃ y, y ∈ k ∧ f x = Ok y).
Proof.
  revert k. induction l as [|x l IH]; intros k Hk; simpl in Hk.
  - injection Hk as <-. split; set_solver.
  - apply result_bind_ok in Hk as (y & Hy & Hk). apply result_bind_ok in Hk as (k' & Hk' & [= <-]).
    destruct (IH k' Hk') as [I1 I2]. split; intros z; rewrite elem_of_cons; intros [->|Hz].
    + exists x. set_solver.
    + destruct (I1 z Hz) as (x' & ? & ?). exists x'. set_solver.
    + exists y. set_solver.
    + destruct (I2 z Hz) as (y' & ? & ?). exists y'. set_solver.
Qed.

Lemma wp_list_active actor Φ w :
  good w →
  (∀ l w', grows w w' → good w' →
    (∀ e, e ∈ l → ∃ r, enforcements w' !! Enforcement.id e = Some r ∧ enforcement_of_row r = Ok e
                       ∧ active_of actor r = true) →
    (∀ id r, enforcements w' !! id = Some r → active_of actor r = true →
       ∃ e, e ∈ l ∧ enforcement_of_row r = Ok e) → Φ l w') →
  wp (list_active_for_actor others actor) Φ w.
Proof.
  intros Hg HΦ. apply wp_fetch; [done|]. intros l w' Hm Hg' Hl.
  apply mapM_elem in Hl as [I1 I2]. apply HΦ; [by apply meanwhile_grows|done|..].
  - intros e He. destruct (I1 e He) as (r & [Hact Hr]%list_elem_of_filter & Hre).
    apply list_elem_of_fmap in Hr as ([id r'] & -> & Hin%elem_of_map_to_list).
    exists r'. split_and!; [|done..].
    destruct (s_enforcement _ (good_sound _ Hg') id r' Hin) as (Hid & _).
    apply enforcement_of_row_inv in Hre as [-> _]. simpl. by rewrite Hid.
  - intros id r Hr Hact. apply I2. apply list_elem_of_filter. split; [done|].
    apply list_elem_of_fmap. exists (id, r). by rewrite elem_of_map_to_list.
Qed.

Lemma wp_penalty_load actor Φ w :
  good w → (∀ l w', grows w w' → good w' → Φ l w') → wp (penalty_load others actor) Φ w.
Proof. intros Hg HΦ. apply wp_fetch; [done|]. intros l w' Hm Hg' _. apply HΦ; [by apply meanwhile_grows|done]. Qed.

Lemma wp_penalty_save l Φ w :
  good w → (∀ w', grows w w' → good w' → Φ tt w') → wp (penalty_save others l) Φ w.
Proof.
  intros Hg HΦ. apply wp_execute; [done| |by eauto].
  intros w1 _ Hg1. split; [apply st_penalty|keep_fresh].
Qed.

Lemma wp_appeal_insert a d Φ w :
  good w → drawn (Appeal.id a) w → Appeal.status a = Filed →
  trim_is_empty (Appeal.statement a) = false →
  decisions w !! Appeal.decision_id a = Some d → appealable_row d →
  (∀ w', grows w w' → good w' → Φ tt w') → wp (appeal_save others a) Φ w.
Proof.
  intros Hg Hdr Hst Htext Hd Happ HΦ. apply wp_execute; [done| |by eauto].
  intros w1 Hm Hg1. simpl.
  destruct (drawn_meanwhile _ _ _ Hm Hdr) as (n & Hn & Hlt & _ & _ & Hu).
  assert (upsert_appeal (row_of_appeal a) (appeals w1) = <[Appeal.id a := row_of_appeal a]> (appeals w1)) as ->.
  { unfold upsert_appeal. simpl. by rewrite Hu. }
  split.
  - eapply st_file; [done..| |exact Happ]. eapply kept_decision; [by apply meanwhile_grows|done].
  - apply (fresh_insert w1 _ (now_v7 n)); [done|intros m; by apply drawn_differs| |by apply good_fresh].
    intros k Hk. simpl. by rewrite lookup_insert_ne by congruence.
Qed.

Lemma wp_appeal_close a old (upheld : bool) Φ w :
  good w → appeals w !! Appeal.id a = Some old →
  Appeal.status a = (if upheld then Upheld else Overturned) →
  (∀ w', grows w w' → good w' → Φ tt w') → wp (appeal_save others a) Φ w.
Proof.
  intros Hg Hold Hst HΦ. apply wp_execute; [done| |by eauto].
  intros w1 Hm Hg1. simpl.
  destruct (g_appeals _ _ (meanwhile_grows _ _ Hm) _ _ Hold) as (old1 & Hold1 & _).
  unfold upsert_appeal. simpl. rewrite Hold1. split.
  - replace (appeal_status_str (Appeal.status a)) with (if upheld then "upheld" else "overturned")
      by (rewrite Hst; by destruct upheld).
    by apply st_close.
  - intros n Hn. destruct (good_fresh _ Hg1 n Hn) as (? & ? & Ha). split_and!; [done..|]. simpl.
    rewrite lookup_insert_ne; congruence.
Qed.

Lemma wp_appeal_find id Φ w :
  good w →
  (∀ o w', grows w w' → good w' →
    (∀ a, o = Some a → Appeal.id a = id ∧
       ∃ r, appeals w' !! id = Some r ∧ appeal_of_row r = Ok a) → Φ o w') →
  wp (appeal_find_by_id others id) Φ w.
Proof.
  intros Hg HΦ. apply wp_fetch; [done|]. intros o w' Hm Hg' Ho.
  apply HΦ; [by apply meanwhile_grows|done|]. intros a ->.
  apply optional_some in Ho as (r & Hr & Ha). split; [|by exists r].
  destruct (s_appeal _ (good_sound _ Hg') id r Hr) as (<- & _).
  by apply appeal_of_row_inv in Ha as [-> _].
Qed.

Lemma wp_redis_write m Φ w :
  good w → (∀ w', grows w w' → good w' → Φ tt w') →
  wp (redis_write others (λ w, w <| restrictions := m w |>)) Φ w.
Proof.
  intros Hg HΦ. apply wp_bind, wp_next; [done..|]. intros ft w1 Hm Hg1.
  set (w2 := w1 <| restrictions := m w1 |>).
  assert (Hs : store_step any_id w1 w2) by apply st_restrict.
  assert (Hg2 : good w2).
  { split; [by eapply step_sound, good_sound|keep_fresh]. }
  assert (Hgr : grows w w2) by (trans w1; [by apply meanwhile_grows|by eapply step_grows]).
  assert (Hmod : ∀ Ψ : unit → World → Prop, Ψ tt w2 →
    wp (modify (λ w, w <| restrictions := m w |>)) Ψ w1).
  { intros Ψ HΨ. split_and!; [by eapply star_step; [|constructor]|done|]. by intros [] _. }
  destruct ft; [by apply Hmod, HΦ|by apply wp_throw|]. apply wp_bind, Hmod. by apply wp_throw.
Qed.

Lemma wp_set_restriction actor v ex Φ w :
  good w → (∀ w', grows w w' → good w' → Φ tt w') →
  wp (set_actor_restriction others actor v ex) Φ w.
Proof.
  intros Hg HΦ. apply wp_bind, wp_redis_read; [done|]. intros w1 Hm Hg1.
  apply meanwhile_grows in Hm.
  destruct (match stored_version _ w1 with Some c => _ | None => _ end); [by apply wp_ret; auto|].
  apply wp_redis_write; [done|]. intros w2 Hgr. apply HΦ. by trans w1.
Qed.

Lemma wp_clear_restriction actor v Φ w :
  good w → (∀ w', grows w w' → good w' → Φ tt w') →
  wp (clear_actor_restriction others actor v) Φ w.
Proof.
  intros Hg HΦ. apply wp_bind, wp_redis_read; [done|]. intros w1 Hm Hg1.
  apply meanwhile_grows in Hm.
  destruct (match stored_version _ w1 with Some c => _ | None => _ end); [|by apply wp_ret; auto].
  apply wp_redis_write; [done|]. intros w2 Hgr. apply HΦ. by trans w1.
Qed.

Lemma wp_corpus_screen hashes Φ w :
  good w → (∀ o w', grows w w' → good w' → Φ o w') → wp (corpus_screen others hashes) Φ w.
Proof.
  revert w. induction hashes as [|h hs IH]; intros w Hg HΦ; simpl.
  - apply wp_ret; [done|by apply HΦ].
  - apply wp_bind, wp_next; [done..|]. intros ft w1 Hm Hg1. apply meanwhile_grows in Hm.
    destruct ft; [|by apply wp_throw..]. apply wp_bind, wp_gets; [done|].
    destruct (corpus w1 !! _) as [raw|].
    + apply wp_bind, wp_lift; [done|]. intros m _. apply wp_ret; auto.
    + apply IH; [done|]. intros o w2 Hgr. apply HΦ. by trans w1.
Qed.

Lemma wp_topic e w1 (Φ : unit → World → Prop) :
  good w1 → event_backed w1 e →
  (∀ w', grows w1 w' → good w' → Φ tt w') →
  wp (modify (λ w, w <| topic := topic w ++ [envelope_of e] |>)) Φ w1.
Proof.
  intros Hg He HΦ. assert (Hs : store_step any_id w1 (w1 <| topic := topic w1 ++ [envelope_of e] |>)).
  { by apply st_publish. }
  assert (Hg2 : good (w1 <| topic := topic w1 ++ [envelope_of e] |>)).
  { split; [by eapply step_sound, good_sound|keep_fresh]. }
  split_and!; [by eapply star_step; [|constructor]|done|]. intros [] _.
  apply HΦ; [by eapply step_grows|done].
Qed.

Lemma wp_publish e Φ w :
  good w → event_backed w e → (∀ w', grows w w' → good w' → Φ tt w') →
  wp (publish others e) Φ w.
Proof.
  intros Hg He HΦ. apply wp_bind. unfold append_history. apply wp_bind, wp_draw; [done|].
  intros id w1 Hq Hg1 _. apply same_stores_grows in Hq.
  assert (Hprimary : ∀ w2, grows w w2 → good w2 → wp (publish_primary others e) Φ w2).
  { intros w2 Hgr Hg2. apply wp_bind, wp_gets; [done|]. destruct (kafka w2); [|by apply wp_ret; auto].
    apply wp_bind, wp_next; [done..|]. intros ft w3 Hm Hg3. apply meanwhile_grows in Hm.
    assert (Hw3 : grows w w3) by (by trans w2).
    assert (He3 : event_backed w3 e) by (by eapply kept_event_backed).
    destruct ft; [|by apply wp_throw|apply wp_bind]; apply wp_topic; try done; intros w4 Hgr4 Hg4.
    - apply HΦ; [by trans w3|done].
    - by apply wp_throw. }
  apply wp_bind, wp_next; [done..|]. intros ft w2 Hm Hg2. apply meanwhile_grows in Hm.
  assert (Hw2 : grows w w2) by (by trans w1).
  assert (Hhist : wp (modify (λ w, w <| history := history w ++ [history_row id e] |>))
                     (λ _ w, wp (publish_primary others e) Φ w) w2).
  { assert (Hs : store_step any_id w2 (w2 <| history := history w2 ++ [history_row id e] |>))
      by apply st_history.
    assert (Hg3 : good (w2 <| history := history w2 ++ [history_row id e] |>)).
    { split; [by eapply step_sound, good_sound|keep_fresh]. }
    split_and!; [by eapply star_step; [|constructor]|done|]. intros [] _.
    apply Hprimary; [|done]. trans w2; [done|by eapply step_grows]. }
  destruct ft; [exact Hhist|apply wp_ret; [done|by apply Hprimary]|exact Hhist].
Qed.

Lemma wp_publish_all es Φ w :
  good w → (∀ e, e ∈ es → event_backed w e) → (∀ w', grows w w' → good w' → Φ tt w') →
  wp (publish_all others es) Φ w.
Proof.
  intros Hg He HΦ. apply (wp_for_each _ (λ _ _, True)); [done| |done|by auto].
  intros e Hin w1 Hg1 Hgr. apply wp_publish; [done| |done].
  eapply kept_event_backed; [done|by apply He].
Qed.

Lemma wp_actor_exists actor Φ w :
  good w → (∀ b w', grows w w' → good w' → Φ b w') → wp (actor_exists others actor) Φ w.
Proof.
  intros Hg HΦ. apply wp_bind, wp_turn; [done|]. intros w1 Hm Hg1. apply wp_bind.
  assert (Hm2 : meanwhile w1 (w1 <| directory := tail (directory w1) |>)) by (by apply meanwhile_quiet).
  assert (Hg2 : good (w1 <| directory := tail (directory w1) |>)) by (by eapply meanwhile_good).
  split_and!; [apply Hm2|done|]. intros a _.
  assert (Hgr : grows w (w1 <| directory := tail (directory w1) |>)).
  { trans w1; by apply meanwhile_grows. }
  destruct a; [apply wp_ret; auto..|by apply wp_throw].
Qed.
End Runs.
