(* ===== verification/ModerationProofs.v ===== *)
(** * Moderation: every enforcement has its reasons

    Each handler of [ModerationHandlers] is followed through its calls with the logic of
    [ModerationRuns].  The theorems: whatever calls run, concurrently and with whatever
    failures, the tables and the topic agree; and an overturned appeal lifts what its
    decision had ordered. *)

From S2P Require Import Prelude AccountDomain.
From S2P Require AccountStore.
From S2P Require Import ModerationDomain ModerationStore ModerationHandlers ModerationSteps.
From S2P Require Import ModerationRuns.
Local Open Scope Z_scope.

Section Follow.
Context `{UuidText} `{UuidV5} `{UuidV7} `{AccountStore.PgTime} `{CorpusJson}.
Context (others : nat → World → World) (policy : ModerationPolicy).
Context (Hothers : neighbours others).

Abbreviation holds := (λ _ _, True).

(** Introduces what the next call leaves. *)
Ltac follows :=
  lazymatch goal with
  | |- wp (lift _) _ _ => apply wp_lift; [done|]
  | |- wp (done_with _) _ _ => apply wp_ret; [done|]
  | |- wp (throw _) _ _ => by apply wp_throw
  | |- _ => apply wp_bind
  end.

(** ** Cases *)

Definition case_events_ok (c : Case.t) : Prop :=
  ∀ e, e ∈ Case.pending_events c → ∃ s a cat t corr, e = CaseOpened (Case.id c) s a cat t corr.

Lemma loaded_events_ok c : Case.pending_events c = [] → case_events_ok c.
Proof. intros E e He. rewrite E in He. by apply not_elem_of_nil in He. Qed.

Lemma opened_events_ok p : case_events_ok (Case.open_new p).
Proof. intros e ->%list_elem_of_singleton. simpl. by repeat eexists. Qed.

Lemma wp_open_case cmd now corr w : good w → wp (open_case others cmd now corr) holds w.
Proof.
  intros Hg. apply wp_bind, wp_case_find; [done..|]. intros [c|] w1 _ Hg1 _; [by follows|].
  apply wp_bind, wp_case_save; [done..|]. intros w2 _ Hg2 Hid. apply wp_bind.
  apply wp_publish_all; [done..| |intros; by follows].
  intros e He. destruct (opened_events_ok _ e He) as (? & ? & ? & ? & ? & ->). exact Hid.
Qed.

Lemma wp_load_case id Φ w :
  good w → (∀ c w', grows w w' → good w' → Case.pending_events c = [] → Φ c w') →
  wp (load_case others id) Φ w.
Proof.
  intros Hg HΦ. apply wp_bind, wp_case_find; [done..|]. intros o w1 Hgr Hg1 Hp.
  follows. intros c ->%ok_or_ok. by apply HΦ; auto.
Qed.

Lemma wp_assign_case id reviewer w : good w → wp (assign_case others id reviewer) holds w.
Proof.
  intros Hg. apply wp_bind, wp_load_case; [done|]. intros c w1 _ Hg1 _.
  follows. follows. intros c' _. apply wp_bind, wp_case_save; [done..|]. intros. by follows.
Qed.

(** ** Decisions and enforcements *)

Lemma record_inv id p d : Decision.record id p = Ok d →
  Decision.id d = id ∧ trim_is_empty (Decision.rationale d) = false ∧
  Decision.policy_version d = d_policy_version p ∧ Decision.subject d = d_subject p ∧
  Decision.action d = d_action p ∧ Decision.reverses d = None.
Proof. unfold Decision.record, Decision.build. case_match; naive_solver. Qed.

Lemma record_reversal_inv id p o d : Decision.record_reversal id p o = Ok d →
  Decision.id d = id ∧ trim_is_empty (Decision.rationale d) = false ∧
  Decision.policy_version d = d_policy_version p ∧ Decision.subject d = d_subject p ∧
  Decision.action d = d_action p ∧ Decision.reverses d = Some o.
Proof. unfold Decision.record_reversal, Decision.build. case_match; naive_solver. Qed.

Lemma decision_event_backed d corr w :
  decisions w !! Decision.id d = Some (row_of_decision d) → event_backed w (decision_recorded d corr).
Proof. intros Hd. exists (row_of_decision d). by split_and!. Qed.

(** Recording a decision. *)
Lemma wp_record_decision (build : DecisionId → outcome Decision.t) corr Φ w :
  good w →
  (∀ id d, build id = Ok d → Decision.id d = id ∧ trim_is_empty (Decision.rationale d) = false ∧
     trim_is_empty (Decision.policy_version d) = false ∧ reversal_sound w (row_of_decision d)) →
  (∀ d id w', grows w w' → good w' → build id = Ok d →
     decisions w' !! Decision.id d = Some (row_of_decision d) → Φ d w') →
  wp (record_decision others build corr) Φ w.
Proof.
  intros Hg Hb HΦ. apply wp_bind, wp_draw; [done..|]. intros id w1 Hq Hg1 Hdr.
  apply same_stores_grows in Hq. follows. follows. intros d Hd.
  destruct (Hb id d Hd) as (Hid & Htext & Hpv & Hrev).
  apply wp_bind, wp_decision_append; [done|done|by rewrite Hid|done| |].
  { by eapply kept_reversal_sound. }
  intros w2 Hgr2 Hg2 Hrow. apply wp_bind, wp_publish; [done..|by apply decision_event_backed|].
  intros w3 Hgr3 Hg3. follows. eapply HΦ; [|done..|by eapply kept_decision].
  trans w1; [done|by trans w2].
Qed.

Lemma wp_new_enforcement s action did now expires corr d Φ w :
  good w → decisions w !! did = Some d → decision_about s d →
  DecisionRow.action d = action_str action → DecisionRow.reverses d = None →
  (∀ e w', grows w w' → good w' → (∀ ev, ev ∈ Enforcement.pending_events e → event_backed w' ev) →
     enforcements w' !! Enforcement.id e = Some (row_of_enforcement e) →
     Enforcement.subject e = s → Enforcement.action e = action →
     Enforcement.expires_at e = expires → Φ e w') →
  wp (new_enforcement others s action did now expires corr) Φ w.
Proof.
  intros Hg Hd (E1 & E2 & E3 & E4) Hact Hrev HΦ.
  apply wp_bind, wp_next_version; [done..|]. intros v w1 Hgr1 Hg1.
  apply wp_bind, wp_draw; [done..|]. intros id w2 Hq Hg2 Hdr. apply same_stores_grows in Hq.
  follows. follows. intros e He. unfold Enforcement.apply_new in He. simpl in He.
  destruct (is_enforced action) eqn:Henf; simpl in He; [|done].
  destruct (match expires with Some _ => _ | None => _ end); [done|]. injection He as <-.
  assert (Hgr : grows w w2) by (by trans w1).
  apply wp_bind. eapply (wp_enforcement_insert _ Hothers _ d); [done..| | |].
  - simpl. by eapply kept_decision.
  - split_and!; simpl; [congruence..| |done]. rewrite Hact. by destruct action.
  - intros w3 Hgr3 Hg3 Hrow. follows. apply HΦ; [by trans w2|done| |done..].
    intros ev ->%list_elem_of_singleton. simpl in *. eexists. split_and!; [exact Hrow|done..].
Qed.

Lemma wp_strike actor cat now Φ w :
  good w → (∀ l w', grows w w' → good w' → Φ l w') → wp (strike others policy actor cat now) Φ w.
Proof.
  intros Hg HΦ. apply wp_bind, wp_penalty_load; [done..|]. intros l w1 Hgr Hg1. follows. by apply HΦ.
Qed.

Lemma wp_strike_and_publish cmd s now e Φ w :
  good w → (∀ ev, ev ∈ Enforcement.pending_events e → event_backed w ev) →
  (∀ e' w', grows w w' → good w' → Φ e' w') →
  wp (strike_and_publish others policy cmd s now e) Φ w.
Proof.
  intros Hg Hev HΦ. apply wp_bind, wp_strike; [done|]. intros l w1 Hgr1 Hg1.
  apply wp_bind, wp_penalty_save; [done..|]. intros w2 Hgr2 Hg2.
  assert (Hw : grows w w2) by (by trans w1).
  apply wp_bind, wp_publish_all; [done..| |].
  - intros ev Hin. eapply kept_event_backed; [exact Hw|by apply Hev].
  - intros w3 Hgr3 Hg3. follows. apply HΦ; [by trans w2|done].
Qed.

Lemma wp_enforce cmd s did now corr d w Φ :
  good w → decisions w !! did = Some d → decision_about s d →
  DecisionRow.action d = action_str (dc_action cmd) → DecisionRow.reverses d = None →
  (∀ e w', grows w w' → good w' → Φ e w') →
  wp (enforce others policy cmd s did now corr) Φ w.
Proof.
  intros Hg Hd Hs Hact Hrev HΦ. apply wp_bind. eapply wp_new_enforcement; [done..|].
  intros e w1 Hgr1 Hg1 Hev _ _ _ _. apply wp_bind.
  assert (Hrest : ∀ w2, grows w1 w2 → good w2 →
    wp (strike_and_publish others policy cmd s now e) Φ w2).
  { intros w2 Hgr2 Hg2. apply wp_strike_and_publish; [done| |].
    - intros ev Hin. eapply kept_event_backed; [done|by apply Hev].
    - intros e' w3 Hgr3. apply HΦ. trans w1; [done|by trans w2]. }
  destruct (is_actor_level (dc_action cmd)); [by apply wp_set_restriction|].
  follows. by apply Hrest.
Qed.

Lemma resolve_inv did action now corr c c' :
  Case.resolve did action now corr c = Ok c' → Case.pending_events c = [] →
  Case.pending_events c' =
    [CaseResolved (Case.id c') did (actor_id (Case.subject c)) action (Case.category c) now corr].
Proof.
  unfold Case.resolve, Case.transition_to. intros Hr E. apply result_bind_ok in Hr as (? & _ & Hr).
  apply result_bind_ok in Hr as (c1 & Hc1 & Hr). case_match; simplify_eq/=. by rewrite E.
Qed.

Lemma wp_conclude d enf c action now corr w :
  good w → Case.pending_events c = [] → decisions w !! Decision.id d = Some (row_of_decision d) →
  Decision.action d = action → wp (conclude others d enf c action now corr) holds w.
Proof.
  intros Hg Hp Hd Hact. follows. follows. intros c' Hc'. apply resolve_inv in Hc'; [|done].
  apply wp_bind, wp_case_save; [done..|]. intros w1 Hgr1 Hg1 Hsome.
  apply wp_bind, wp_publish_all; [done..| |intros; by follows].
  intros ev Hev. rewrite Hc' in Hev. apply list_elem_of_singleton in Hev as ->.
  split; [done|]. eexists. split; [by eapply kept_decision|]. by rewrite <- Hact.
Qed.

Lemma wp_admit_decision cmd Φ w :
  good w →
  (∀ c pv w', good w' → Case.pending_events c = [] → trim_is_empty pv = false → Φ (c, pv) w') →
  wp (admit_decision others cmd) Φ w.
Proof.
  intros Hg HΦ. apply wp_bind, wp_load_case; [done|]. intros c w1 _ Hg1 Hp.
  follows. follows. intros pv Hpv. unfold PolicyVersion_new in Hpv.
  destruct (trim_is_empty (dc_policy_version cmd)) eqn:Hblank; simplify_eq. apply wp_bind.
  destruct (is_actor_level (dc_action cmd)).
  - apply wp_actor_exists; [done..|]. intros known w2 _ Hg2. follows. follows. intros [] _.
    follows. by apply HΦ.
  - follows. follows. follows. intros [] _. follows. by apply HΦ.
Qed.

Lemma wp_decide_case cmd now corr w : good w → wp (decide_case others policy cmd now corr) holds w.
Proof.
  intros Hg. apply wp_bind, wp_admit_decision; [done|]. intros c pv w1 Hg1 Hp Hpv.
  apply wp_bind, wp_record_decision; [done| |].
  { intros id d (? & ? & E & ? & ? & Hrev)%record_inv. split_and!; [done..|by rewrite E|].
    intros o Ho. simpl in Ho. congruence. }
  intros d id w2 _ Hg2 (_ & _ & _ & Hs & Hact & Hrev)%record_inv Hd. apply wp_bind.
  destruct (is_enforced (dc_action cmd)); [|follows; by apply wp_conclude].
  apply wp_bind. eapply wp_enforce; [done|exact Hd|unfold decision_about; simpl; by rewrite Hs|simpl; by rewrite Hact|done|].
  intros e w3 Hgr3 Hg3. follows. apply wp_conclude; [done..| |done]. by eapply kept_decision.
Qed.

(** ** Appeals *)

Lemma wp_load_decision id Φ w :
  good w →
  (∀ d r w', grows w w' → good w' → Decision.id d = id → decisions w' !! id = Some r →
     decision_of_row r = Ok d → Φ d w') →
  wp (load_decision others id) Φ w.
Proof.
  intros Hg HΦ. apply wp_bind, wp_decision_find; [done..|]. intros o w1 Hgr Hg1 Ho.
  follows. intros d ->%ok_or_ok. destruct (Ho d eq_refl) as (? & r & ? & ?). by eapply HΦ.
Qed.

Lemma wp_file_appeal did actor text now w :
  good w → wp (file_appeal others did actor text now) holds w.
Proof.
  intros Hg. apply wp_bind, wp_load_decision; [done|]. intros d r w1 _ Hg1 Hid Hr Hdr.
  follows. follows. intros [] Happ%guard_ok. apply wp_bind, wp_draw; [done..|].
  intros id w2 Hq Hg2 Hdrawn. apply same_stores_grows in Hq.
  follows. follows. intros a Ha. unfold Appeal.file in Ha.
  destruct (trim_is_empty text) eqn:Htext; [done|]. injection Ha as <-.
  apply wp_bind. eapply (wp_appeal_insert _ Hothers _ r); [done..|simpl; by eapply kept_decision| |].
  { exists (Decision.category d). split; [|done]. by destruct (decision_of_row_inv _ _ Hdr) as (_ & _ & _ & ? & _). }
  intros w3 _ Hg3. apply wp_bind, wp_case_find; [done..|]. intros [c|] w4 _ Hg4 _.
  - follows. follows. follows. intros c' _. apply wp_case_save; [done..|].
    intros w5 _ Hg5 _. by follows.
  - follows. follows. by follows.
Qed.

(** What the loop of an overturn establishes of one enforcement: it is lifted unless it
    had lapsed. *)
Definition lifted (now : Z) (did : DecisionId) (e : Enforcement.t) (w : World) : Prop :=
  Enforcement.decision_id e = did → Enforcement.has_reached_expiry now e = false →
  ∃ row, enforcements w !! Enforcement.id e = Some row ∧ EnforcementRow.status row = "reversed".

Lemma kept_lifted now did e : kept (lifted now did e).
Proof.
  intros w w' Hg Hl Hd Hx. destruct (Hl Hd Hx) as (row & Hrow & Hst).
  destruct (g_enforcements _ _ Hg _ _ Hrow) as (row' & Hrow' & _ & [S | S]).
  all: exists row'; split; [done|congruence].
Qed.

(** [r] is the row [e] was decoded from, [row] the same row when the loop reaches it. *)
Lemma wp_reverse_if_of original now corr e r row rid rev w :
  good w → enforcement_of_row r = Ok e → EnforcementRow.status r = "active" →
  enforcements w !! Enforcement.id e = Some row →
  row <| EnforcementRow.status := EnforcementRow.status r |>
      <| EnforcementRow.reversed_at := EnforcementRow.reversed_at r |> = r →
  decisions w !! rid = Some rev → DecisionRow.reverses rev = Some (Decision.id original) →
  wp (reverse_if_of others original now corr e) (λ _, lifted now (Decision.id original) e) w.
Proof.
  intros Hg Her Hst Hrow F Hrev Hreverses. unfold reverse_if_of.
  destruct (enforcement_of_row_inv _ _ Her) as (_ & Habout & _ & Hstatus & Hv & Hdec & _ & Hpend).
  apply enforcement_fields in F as (F1 & F2 & F3 & F4 & F5 & F6 & F7 & F8 & F9).
  assert (Hact : Enforcement.status e = EnforcementActive).
  { rewrite Hst in Hstatus. by destruct (Enforcement.status e). }
  destruct (bool_decide (Enforcement.decision_id e = Decision.id original)) eqn:Hof; simpl.
  2:{ follows. apply bool_decide_eq_false in Hof. by intros ?. }
  apply bool_decide_eq_true in Hof. unfold Enforcement.is_active.
  rewrite Hact. rewrite bool_decide_true by done. simpl.
  destruct (Enforcement.has_reached_expiry now e) eqn:Hexp; simpl.
  { follows. intros _. by rewrite Hexp. }
  follows. follows. intros e' He'. unfold Enforcement.reverse in He'. rewrite Hact in He'.
  injection He' as <-. apply wp_bind. eapply (wp_enforcement_reverse _ Hothers _ row); [done..| |].
  { exists rid, rev. split; [done|]. by rewrite Hreverses, F8, <- Hdec, Hof. }
  intros w1 new Hgr1 Hg1 Hnew Hnst. simpl in Hnew. apply wp_bind.
  destruct (g_enforcements _ _ Hgr1 _ _ Hrow) as (new' & Hnew' & G & _).
  assert (new' = new) as -> by congruence.
  apply enforcement_fields in G as (? & ? & ? & ? & ? & ? & ? & ? & ?).
  assert (Hrest : ∀ w2, grows w1 w2 → good w2 →
    wp (publish_all others (Enforcement.pending_events e ++
          [EnforcementReversed (Enforcement.id e) (Enforcement.subject e)
             (actor_id (Enforcement.subject e)) (Enforcement.version e) now corr]))
       (λ _, lifted now (Decision.id original) e) w2).
  { intros w2 Hgr2 Hg2. apply wp_publish_all; [done..| |].
    - intros ev Hev. rewrite Hpend in Hev. apply list_elem_of_singleton in Hev as ->.
      eapply kept_event_backed; [done|]. simpl. exists new.
      destruct Habout as (? & ? & ? & ?).
      split_and!; [done| |congruence|done]. split_and!; congruence.
    - intros w3 Hgr3 Hg3. eapply kept_lifted; [|by intros _ _; exists new]. by trans w2. }
  simpl. destruct (is_actor_level (Enforcement.action e)).
  - by apply wp_clear_restriction.
  - follows. by apply Hrest.
Qed.

Lemma wp_overturn cmd original orow arow aid now corr Φ w :
  good w → decisions w !! Decision.id original = Some orow → decision_of_row orow = Ok original →
  appeals w !! aid = Some arow → AppealRow.decision_id arow = Decision.id original →
  (∀ rev w', grows w w' → good w' →
     decisions w' !! Decision.id rev = Some (row_of_decision rev) →
     Decision.reverses rev = Some (Decision.id original) →
     (∀ id r, enforcements w !! id = Some r →
        EnforcementRow.decision_id r = Decision.id original →
        ∃ r', enforcements w' !! id = Some r' ∧
          (EnforcementRow.status r' = "reversed" ∨
           ∃ t, EnforcementRow.expires_at r' = Some t ∧ t ≤ now)) → Φ rev w') →
  wp (overturn others cmd original now corr) Φ w.
Proof.
  intros Hg Ho Hoo Ha Hda HΦ.
  destruct (decision_of_row_inv _ _ Hoo) as (_ & Habout & _ & _ & Hpv & _).
  destruct (s_decision _ (good_sound _ Hg) _ _ Ho) as (_ & (_ & Hblank) & _).
  destruct (s_appeal _ (good_sound _ Hg) _ _ Ha) as (_ & _ & d' & Hd' & Happ).
  assert (d' = orow) as -> by congruence.
  apply wp_bind, wp_record_decision; [done| |].
  { intros id d (? & ? & E & Es & Ea & Er)%record_reversal_inv.
    split_and!; [done..|by rewrite E; simpl; rewrite Hpv|].
    intros o Hrev. simpl in Hrev. assert (o = Decision.id original) as -> by congruence.
    split_and!; [simpl; by rewrite Ea|by exists aid, arow|]. exists orow. split; [done|]. split; [done|].
    unfold same_decision_subject. simpl. rewrite Es. simpl. destruct Habout as (? & ? & ? & ?).
    by split_and!. }
  intros rev id w1 Hgr1 Hg1 (_ & _ & _ & _ & _ & Er)%record_reversal_inv Hrow.
  apply wp_bind, wp_list_active; [done..|]. intros active w2 Hgr2 Hg2 Hin Hall.
  apply wp_bind. eapply (wp_for_each _ Hothers _ (lifted now (Decision.id original))); [apply kept_lifted| |done|].
  { intros e He w3 Hg3 Hgr3. destruct (Hin e He) as (r & Hr & Her & Hactive).
    apply andb_true_iff in Hactive as [_ Hst%String.eqb_eq].
    destruct (g_enforcements _ _ Hgr3 _ _ Hr) as (r3 & Hr3 & F & _).
    eapply (wp_reverse_if_of _ _ _ _ r r3 (Decision.id rev) (row_of_decision rev)); [done..| |exact Er]. eapply kept_decision; [|exact Hrow]. by trans w2. }
  intros w3 Hg3 Hgr3 Hlifted. follows.
  assert (Hgr : grows w w2) by (by trans w1).
  apply HΦ; [by trans w2|done|eapply kept_decision; [|exact Hrow]; by trans w2|exact Er|].
  intros k r0 Hr0 Hd0.
  destruct (g_enforcements _ _ Hgr _ _ Hr0) as (r2 & Hr2 & F & _).
  apply enforcement_fields in F as (_ & _ & _ & Factor & _ & _ & _ & Fdec & _).
  destruct (g_enforcements _ _ Hgr3 _ _ Hr2) as (r3 & Hr3 & G & S).
  exists r3. split; [done|].
  destruct (s_enforcement _ (good_sound _ Hg2) _ _ Hr2) as (Hid2 & (d & Hd & Hauth) & Hst2).
  destruct Hst2 as [Hst2|[Hst2 _]]; [|left; destruct S as [-> | ->]; done].
  assert (Hactor : active_of (actor_id (Decision.subject original)) r2 = true).
  { unfold active_of. rewrite Hst2. apply andb_true_iff. split; [|done]. apply bool_decide_eq_true.
    assert (Horow : decisions w2 !! EnforcementRow.decision_id r2 = Some orow).
    { rewrite Fdec, Hd0. by eapply kept_decision. }
    assert (d = orow) as -> by congruence. destruct Hauth as (_ & _ & <- & _). apply Habout. }
  destruct (Hall _ _ Hr2 Hactor) as (e & He & Her).
  destruct (enforcement_of_row_inv _ _ Her) as (Eid & _ & _ & _ & _ & Edec & Eexp & _).
  destruct (Enforcement.has_reached_expiry now e) eqn:Hexp.
  - right. unfold Enforcement.has_reached_expiry in Hexp. rewrite Eexp in Hexp.
    destruct (EnforcementRow.expires_at r2) as [t|] eqn:Ht; [|done]. exists t.
    apply enforcement_fields in G as (_ & _ & _ & _ & _ & _ & _ & _ & G).
    split; [congruence|by apply Z.leb_le].
  - left. destruct (Hlifted e He ltac:(congruence) Hexp) as (row & Hrow3 & Hrev).
    rewrite Eid, Hid2 in Hrow3. congruence.
Qed.

(** ** Resolving an appeal *)

Lemma appeal_resolve_inv over now corr a a' :
  Appeal.resolve over now corr a = Ok a' →
  Appeal.id a' = Appeal.id a ∧ Appeal.decision_id a' = Appeal.decision_id a ∧
  Appeal.actor_id a' = Appeal.actor_id a ∧
  Appeal.status a' = (if negb over then Upheld else Overturned) ∧
  Appeal.pending_events a' = Appeal.pending_events a ++
    [AppealResolved (Appeal.id a) (Appeal.decision_id a) (Appeal.actor_id a) over now corr].
Proof.
  unfold Appeal.resolve, Appeal.transition_to. intros Hr.
  apply result_bind_ok in Hr as (x & Hx & Hr). destruct over; repeat case_match; by simplify_eq/=.
Qed.

(** What an overturned appeal against [did] leaves of the enforcements that [w] had. *)
Definition lifted_all (now : Z) (did : DecisionId) (w w' : World) : Prop :=
  ∀ id r, enforcements w !! id = Some r → EnforcementRow.decision_id r = did →
    ∃ r', enforcements w' !! id = Some r' ∧
      (EnforcementRow.status r' = "reversed" ∨ ∃ t, EnforcementRow.expires_at r' = Some t ∧ t ≤ now).

Lemma lifted_all_later now did w w1 w2 w3 :
  grows w w1 → grows w2 w3 → lifted_all now did w1 w2 → lifted_all now did w w3.
Proof.
  intros Hw Hg Hall id r Hr Hd. destruct (g_enforcements _ _ Hw _ _ Hr) as (r1 & Hr1 & F & _).
  apply enforcement_fields in F as (_ & _ & _ & _ & _ & _ & _ & Fd & _).
  destruct (Hall id r1 Hr1 ltac:(congruence)) as (r2 & Hr2 & Hst).
  destruct (g_enforcements _ _ Hg _ _ Hr2) as (r3 & Hr3 & G & S).
  apply enforcement_fields in G as (_ & _ & _ & _ & _ & _ & _ & _ & Gx).
  exists r3. split; [done|]. destruct Hst as [Hst|(t & Ht & Hle)].
  - left. destruct S; congruence.
  - right. exists t. split; [congruence|done].
Qed.

Lemma wp_finish_appeal original over a rev Φ w :
  good w → (∀ ev, ev ∈ Appeal.pending_events a → event_backed w ev) →
  (∀ a' w', grows w w' → good w' → Appeal.decision_id a' = Appeal.decision_id a → Φ (a', rev) w') →
  wp (finish_appeal others original over a rev) Φ w.
Proof.
  intros Hg Hev HΦ. apply wp_bind, wp_case_find; [done..|]. intros o w1 Hgr1 Hg1 _.
  assert (Hrest : ∀ w2, grows w1 w2 → good w2 →
    wp (let '(a0, events) := Appeal.drain_events a in
        let! _ := publish_all others events in done_with (a0, rev)) Φ w2).
  { intros w2 Hgr2 Hg2. assert (Hw : grows w w2) by (by trans w1). simpl.
    apply wp_bind, wp_publish_all; [done..| |].
    - intros ev Hin. eapply kept_event_backed; [exact Hw|by apply Hev].
    - intros w3 Hgr3 Hg3. follows. apply HΦ; [by trans w2|done|done]. }
  apply wp_bind. destruct o as [c|]; [|follows; by apply Hrest].
  follows. follows. intros c' _. apply wp_case_save; [done..|]. intros w2 Hgr2 Hg2 _. by apply Hrest.
Qed.

Lemma wp_resolve_appeal cmd now corr w :
  good w →
  wp (resolve_appeal others cmd now corr)
     (λ out w', ra_overturn cmd = true →
        ∃ rev, out.2 = Some rev ∧ decisions w' !! Decision.id rev = Some (row_of_decision rev) ∧
          Decision.reverses rev = Some (Appeal.decision_id out.1) ∧
          lifted_all now (Appeal.decision_id out.1) w w') w.
Proof.
  intros Hg. apply wp_bind, wp_appeal_find; [done..|]. intros o w1 Hgr1 Hg1 Ho.
  follows. follows. intros a ->%ok_or_ok. destruct (Ho a eq_refl) as (Haid & arow & Harow & Hdec).
  destruct (appeal_of_row_inv _ _ Hdec) as (_ & Hadid & Haactor & Hpend).
  apply wp_bind, wp_load_decision; [done|]. intros original orow w2 Hgr2 Hg2 Hoid Horow Hod.
  follows. follows. intros a' (Eid & Edid & Eactor & Est & Epend)%appeal_resolve_inv.
  destruct (g_appeals _ _ Hgr2 _ _ Harow) as (arow2 & Harow2 & F2).
  rewrite <- Haid, <- Eid in Harow2.
  apply wp_bind. eapply (wp_appeal_close _ Hothers a' arow2 (negb (ra_overturn cmd))); [done..|].
  intros w3 Hgr3 Hg3. destruct (g_appeals _ _ Hgr3 _ _ Harow2) as (arow3 & Harow3 & F3).
  apply appeal_fields in F2 as (? & ? & _), F3 as (? & ? & _).
  assert (Hback : ∀ ev, ev ∈ Appeal.pending_events a' → event_backed w3 ev).
  { intros ev. rewrite Epend, Hpend. intros ->%list_elem_of_singleton. exists arow3.
    split_and!; congruence. }
  assert (Hw3 : grows w w3) by (trans w1; [done|by trans w2]).
  apply wp_bind. destruct (ra_overturn cmd).
  - apply wp_bind. eapply (wp_overturn _ _ orow arow3); [done| |exact Hod|exact Harow3|congruence|].
    { rewrite Hoid. eapply kept_decision; [exact Hgr3|exact Horow]. }
    intros rev w4 Hgr4 Hg4 Hrow Hrev Hall. follows. apply wp_finish_appeal; [done| |].
    { intros ev Hev. eapply kept_event_backed; [done|by apply Hback]. }
    intros a'' w5 Hgr5 Hg5 Ead _. exists rev. simpl. rewrite Ead, Edid, <- Hoid.
    split_and!; [done|by eapply kept_decision|done|]. by eapply lifted_all_later.
  - follows. by apply wp_finish_appeal.
Qed.

(** ** The screen *)

Lemma wp_timed_screen elapsed hashes Φ w :
  good w → (∀ o w', good w' → Φ o w') → wp (timed_screen others elapsed hashes) Φ w.
Proof.
  intros Hg HΦ. unfold timed_screen, wp. destruct (elapsed w) as [n|].
  - assert (Hs : wp (corpus_screen others (take n hashes)) holds w) by (by apply wp_corpus_screen).
    unfold wp in Hs. destruct (corpus_screen others (take n hashes) w) as [w' r].
    destruct Hs as (? & ? & _). by split_and!.
  - apply wp_corpus_screen; [done..|]. intros o w' _. apply HΦ.
Qed.

(** What a block leaves: the content's removal, without end. *)
Definition removed (s : SubjectRef) (id : option EnforcementId) (w : World) : Prop :=
  ∃ eid row, id = Some eid ∧ enforcements w !! eid = Some row ∧ enforcement_about s row ∧
    EnforcementRow.action row = "remove_content" ∧ EnforcementRow.expires_at row = None.

Lemma kept_removed s id : kept (removed s id).
Proof.
  intros w w' Hg (eid & row & -> & Hrow & (A1 & A2 & A3 & A4) & Hact & Hend).
  destruct (g_enforcements _ _ Hg _ _ Hrow) as (row' & Hrow' & F & _).
  apply enforcement_fields in F as (? & ? & ? & ? & ? & ? & ? & ? & ?).
  exists eid, row'. split_and!; [done..| |congruence|congruence]. split_and!; congruence.
Qed.

Lemma wp_screen_match cmd m now corr w :
  good w → trim_is_empty (screen_policy_version policy) = false →
  wp (screen_match others policy cmd m now corr)
    (λ out w', removed (sc_subject cmd) (out_enforcement_id out) w') w.
Proof.
  intros Hg Hpv. apply wp_bind, wp_record_decision; [done| |].
  { intros id d (? & ? & E & ? & ? & Hrev)%record_inv. split_and!; [done..|by rewrite E|].
    intros o Ho. simpl in Ho. congruence. }
  intros d id w1 _ Hg1 (_ & _ & _ & Hs & Hact & Hrev)%record_inv Hd. apply wp_bind.
  eapply wp_new_enforcement;
    [done|exact Hd|unfold decision_about; simpl; by rewrite Hs|simpl; by rewrite Hact|done|].
  intros e w2 Hgr2 Hg2 Hev Hrow Hes Hea Hend.
  assert (Hrem : removed (sc_subject cmd) (Some (Enforcement.id e)) w2).
  { eexists _, _. split_and!; [done|exact Hrow|unfold enforcement_about; simpl; by rewrite Hes| |].
    - simpl. by rewrite Hea.
    - simpl. by rewrite Hend. }
  apply wp_bind, wp_publish_all; [done..|].
  intros w3 Hgr3 Hg3. apply wp_bind, wp_strike; [done|]. intros l w4 Hgr4 Hg4.
  assert (Hsave : ∀ w5, grows w4 w5 → good w5 → wp (let! _ := penalty_save others l in
      done_with {| verdict := Block; matched_categories := match_categories m;
                   out_reference := Some (match_reference m);
                   out_enforcement_id := Some (Enforcement.id e) |})
      (λ out w', removed (sc_subject cmd) (out_enforcement_id out) w') w5).
  { intros w5 Hgr5 Hg5. apply wp_bind, wp_penalty_save; [done..|]. intros w6 Hgr6 Hg6. follows.
    eapply kept_removed; [|exact Hrem]. trans w3; [done|]. trans w4; [done|]. by trans w5. }
  apply wp_bind. destruct (is_actor_level _).
  - apply wp_set_restriction; [done..|]. intros w5 Hgr5 Hg5. by apply Hsave.
  - follows. by apply Hsave.
Qed.

Lemma wp_screen elapsed cmd now corr w :
  good w → trim_is_empty (screen_policy_version policy) = false →
  wp (screen others policy elapsed cmd now corr)
    (λ out w', verdict out = Allow ∨ removed (sc_subject cmd) (out_enforcement_id out) w') w.
Proof.
  intros Hg Hpv. apply wp_bind, wp_timed_screen; [done|].
  intros [m|] w1 Hg1; [|follows; by left].
  eapply wp_weaken; [by apply wp_screen_match|]. intros. by right.
Qed.

(** ** Ingestion *)

Lemma add_signal_inv s c c' :
  Case.add_signal s c = Ok c' →
  Case.id c' = Case.id c ∧ Case.pending_events c' = Case.pending_events c.
Proof. unfold Case.add_signal. intros Hc. apply result_bind_ok in Hc as (? & _ & Hc). by simplify_eq/=. Qed.

Lemma wp_open_or_load s cat now corr Φ w :
  good w → (∀ c w', good w' → case_events_ok c → Φ c w') →
  wp (open_or_load others s cat now corr) Φ w.
Proof.
  intros Hg HΦ. apply wp_bind, wp_case_find; [done..|]. intros [c|] w1 _ Hg1 Hp; follows.
  - apply HΦ; [done|]. by apply loaded_events_ok, Hp.
  - apply HΦ; [done|]. apply opened_events_ok.
Qed.

Lemma wp_add_to_case s cat src conf now corr w :
  good w → wp (add_to_case others s cat src conf now corr) holds w.
Proof.
  intros Hg. apply wp_bind, wp_open_or_load; [done|]. intros c w1 Hg1 Hev.
  follows. follows. intros sg _. destruct (Case.add_signal sg c) as [c'|] eqn:Hc; [|by follows].
  apply add_signal_inv in Hc as [Hid Hpend]. apply wp_bind, wp_case_save; [done..|].
  intros w2 _ Hg2 Hsome. apply wp_bind, wp_publish_all; [done..| |intros; by follows].
  intros e He. rewrite Hpend in He. destruct (Hev e He) as (? & ? & ? & ? & ? & ->).
  by rewrite <- Hid.
Qed.

Lemma wp_ingest_report cmd now corr w : good w → wp (ingest_report others cmd now corr) holds w.
Proof.
  intros Hg. follows. follows. intros _ _. apply wp_bind.
  eapply wp_weaken; [by apply wp_add_to_case|]. intros c w1 Hg1 _.
  apply wp_bind, wp_ret; [done|]. by follows.
Qed.

Lemma wp_ingest_signal cmd now corr w : good w → wp (ingest_signal others cmd now corr) holds w.
Proof.
  intros Hg. apply wp_bind. eapply wp_weaken; [by apply wp_add_to_case|]. intros. by follows.
Qed.

(** ** Queries *)

Lemma wp_list_queue name status limit w : good w → wp (list_queue others name status limit) holds w.
Proof. intros Hg. by apply wp_fetch. Qed.

Lemma wp_statement id w : good w → wp (statement_of_reasons others id) holds w.
Proof. intros Hg. apply wp_bind, wp_load_decision; [done|]. intros. by follows. Qed.

Lemma wp_enforcement_state actor now w : good w → wp (enforcement_state others actor now) holds w.
Proof.
  intros Hg. apply wp_bind, wp_redis_read; [done..|]. intros w1 _ Hg1.
  apply wp_bind, wp_list_active; [done..|]. intros. by follows.
Qed.
End Follow.
