(* ===== verification/ModerationAlone.v ===== *)
(** * Moderation: a call on its own

    [does s m Φ] is a call [m] that starts in the stores [s] with no other handler and no
    failure in the way: [Φ] holds of its answer and the stores it leaves, which are given
    exactly, but for the count of backend calls. *)

From S2P Require Import Prelude AccountDomain.
From S2P Require AccountStore.
From S2P Require Import ModerationDomain ModerationStore ModerationHandlers ModerationSteps.
From S2P Require Import ModerationRuns.
Local Open Scope Z_scope.

(** Nobody else takes steps. *)
Definition nobody : nat → World → World := λ _ w, w.
Lemma nobody_neighbours `{UuidText} `{UuidV7} `{AccountStore.PgTime} : neighbours nobody.
Proof. intros i x. split; [constructor|done]. Qed.

Definition ticked (n : nat) (w : World) : World := w <| calls := n |>.

(** No failure is due. *)
Record calm (w : World) : Prop := {
  calm_pg : pg_faults w = [];
  calm_redis : redis_faults w = [];
  calm_kafka : kafka_faults w = [];
  calm_scylla : scylla_faults w = [];
  calm_broker : kafka w = true;
}.

Section Alone.
Context `{UuidText} `{UuidV5} `{UuidV7} `{AccountStore.PgTime} `{CorpusJson}.

Definition does {A} (s : World) (m : use_case A) (Φ : outcome A → World → Prop) : Prop :=
  ∀ n, ∃ n' s' r, m (ticked n s) = (ticked n' s', r) ∧ Φ r s'.

Lemma does_bind {A B} s (m : use_case A) (f : A → use_case B) Φ :
  does s m (λ r s', match r with Ok a => does s' (f a) Φ | Err e => Φ (Err e) s' end) →
  does s (act_bind m f) Φ.
Proof.
  intros Hm n. destruct (Hm n) as (n' & s' & r & E & HΦ). rewrite act_bind_run, E.
  destruct r as [a|e]; [|by exists n', s', (Err e)]. apply HΦ.
Qed.

Lemma does_ret {A} s (a : A) (Φ : outcome A → World → Prop) : Φ (Ok a) s → does s (done_with a) Φ.
Proof. intros HΦ n. by exists n, s, (Ok a). Qed.
Lemma does_lift {A} s (r : outcome A) (Φ : outcome A → World → Prop) : Φ r s → does s (lift r) Φ.
Proof. intros HΦ n. by exists n, s, r. Qed.

Lemma does_weaken {A} s (m : use_case A) (Φ Ψ : outcome A → World → Prop) :
  does s m Φ → (∀ r s', Φ r s' → Ψ r s') → does s m Ψ.
Proof. intros Hm HΦ n. destruct (Hm n) as (n' & s' & r & E & ?). exists n', s', r. auto. Qed.

(** Statements do not look at the count of calls. *)
Definition blind {A} (f : World → A) : Prop := ∀ n w, f (ticked n w) = f w.
Definition blind_write (f : World → World) : Prop := ∀ n w, f (ticked n w) = ticked n (f w).

(** A healthy backend answers. *)
Lemma does_next {E} s script drop (Φ : outcome (fault E) → World → Prop) :
  blind script → (∀ n, drop (ticked n s) = ticked n s) → script s = [] → Φ (Ok Healthy) s →
  does s (next nobody script drop) Φ.
Proof.
  intros Hb Hd Hs HΦ n. exists (S n), s, (Ok Healthy). split; [|done].
  trans (drop (ticked (S n) s),
         @Ok ModerationError (fault E)
           (match script (ticked (S n) s) with f :: _ => f | [] => Healthy end)); [done|]. by rewrite Hd, Hb, Hs.
Qed.

Lemma drop_pg s n : calm s → (ticked n s) <| pg_faults := tail (pg_faults (ticked n s)) |> = ticked n s.
Proof. intros [E _ _ _ _]. destruct s. simpl in E. by subst. Qed.
Lemma drop_redis s n :
  calm s → (ticked n s) <| redis_faults := tail (redis_faults (ticked n s)) |> = ticked n s.
Proof. intros [_ E _ _ _]. destruct s. simpl in E. by subst. Qed.
Lemma drop_kafka s n :
  calm s → (ticked n s) <| kafka_faults := tail (kafka_faults (ticked n s)) |> = ticked n s.
Proof. intros [_ _ E _ _]. destruct s. simpl in E. by subst. Qed.
Lemma drop_scylla s n :
  calm s → (ticked n s) <| scylla_faults := tail (scylla_faults (ticked n s)) |> = ticked n s.
Proof. intros [_ _ _ E _]. destruct s. simpl in E. by subst. Qed.

Lemma does_modify s f (Φ : outcome unit → World → Prop) :
  blind_write f → Φ (Ok tt) (f s) → does s (modify f) Φ.
Proof. intros Hf HΦ n. exists n, (f s), (Ok tt). split; [|done]. unfold modify. by rewrite Hf. Qed.
Lemma does_gets {A} s (f : World → A) (Φ : outcome A → World → Prop) :
  blind f → Φ (Ok (f s)) s → does s (gets f) Φ.
Proof. intros Hf HΦ n. exists n, s, (Ok (f s)). split; [|done]. unfold gets. by rewrite Hf. Qed.

(** ** The adapters *)

Lemma does_execute s texts f (Φ : outcome unit → World → Prop) :
  calm s → forallb pg_text texts = true → blind_write f → Φ (Ok tt) (f s) →
  does s (execute nobody texts f) Φ.
Proof.
  intros Hc Ht Hf HΦ. apply does_bind, does_next; [done|by intros; apply drop_pg|apply Hc|].
  apply does_bind, does_lift. unfold check_texts. rewrite Ht. by apply does_modify.
Qed.

Lemma does_fetch {A} s (f : World → outcome A) (Φ : outcome A → World → Prop) :
  calm s → blind f → Φ (f s) s → does s (fetch nobody f) Φ.
Proof.
  intros Hc Hf HΦ. apply does_bind, does_next; [done|by intros; apply drop_pg|apply Hc|].
  intros n. exists n, s, (f s). by rewrite Hf.
Qed.

Lemma does_new_id s (Φ : outcome Uuid → World → Prop) :
  Φ (Ok (now_v7 (draws s))) (s <| draws := S (draws s) |>) → does s new_id Φ.
Proof. intros HΦ n. by exists n, (s <| draws := S (draws s) |>), (Ok (now_v7 (draws s))). Qed.

Lemma does_redis_read {A} s (f : World → A) (Φ : outcome A → World → Prop) :
  calm s → blind f → Φ (Ok (f s)) s → does s (redis_read nobody f) Φ.
Proof.
  intros Hc Hf HΦ. apply does_bind, does_next; [done|by intros; apply drop_redis|apply Hc|].
  by apply does_gets.
Qed.
Lemma does_redis_write s f (Φ : outcome unit → World → Prop) :
  calm s → blind_write f → Φ (Ok tt) (f s) → does s (redis_write nobody f) Φ.
Proof.
  intros Hc Hf HΦ. apply does_bind, does_next; [done|by intros; apply drop_redis|apply Hc|].
  by apply does_modify.
Qed.

(** The projection's entry after [set_actor_restriction]. *)
Definition restricted (actor : ActorId) (v : Z) (expires : option Z) (s : World) : World :=
  if (match stored_version (enforcement_key actor) s with Some c => v <? c | None => false end) then s
  else s <| restrictions := <[enforcement_key actor :=
              mk_restriction v (deadline_of (clock s) <$> expires)]> (restrictions s) |>.

Lemma does_set_restriction s actor v expires (Φ : outcome unit → World → Prop) :
  calm s → Φ (Ok tt) (restricted actor v expires s) →
  does s (set_actor_restriction nobody actor v expires) Φ.
Proof.
  unfold restricted. intros Hc HΦ. apply does_bind, does_redis_read; [done..|].
  destruct (match stored_version _ s with Some c => _ | None => _ end); [by apply does_ret|].
  by apply does_redis_write.
Qed.

(** Publishing draws the history row's identifier. *)
Definition published (e : DomainEvent) (s : World) : World :=
  s <| draws := S (draws s) |> <| history := history s ++ [history_row (now_v7 (draws s)) e] |>
    <| topic := topic s ++ [envelope_of e] |>.

Lemma does_publish s e (Φ : outcome unit → World → Prop) :
  calm s → Φ (Ok tt) (published e s) → does s (publish nobody e) Φ.
Proof.
  intros Hc HΦ. apply does_bind, does_bind, does_new_id, does_bind.
  set (s1 := s <| draws := S (draws s) |>). assert (Hc1 : calm s1) by (by destruct Hc).
  apply does_next; [done|by intros; apply drop_scylla|apply Hc1|]. apply does_modify; [done|].
  set (s2 := s1 <| history := _ |>). assert (Hc2 : calm s2) by (by destruct Hc1).
  apply does_bind, does_gets; [done|]. rewrite (calm_broker _ Hc2). apply does_bind.
  apply does_next; [done|by intros; apply drop_kafka|apply Hc2|]. by apply does_modify.
Qed.

Lemma published_calm e s : calm s → calm (published e s).
Proof. by intros []. Qed.
Lemma restricted_calm actor v expires s : calm s → calm (restricted actor v expires s).
Proof. intros []. unfold restricted. by destruct (match stored_version _ s with Some c => _ | None => _ end). Qed.

Lemma does_publish_one s e (Φ : outcome unit → World → Prop) :
  calm s → Φ (Ok tt) (published e s) → does s (publish_all nobody [e]) Φ.
Proof. intros Hc HΦ. apply does_bind, does_publish; [done|]. by apply does_ret. Qed.

Lemma does_actor_exists s actor rest (Φ : outcome bool → World → Prop) :
  directory s = AccountFound :: rest → Φ (Ok true) (s <| directory := rest |>) →
  does s (actor_exists nobody actor) Φ.
Proof.
  intros Hd HΦ n. exists (S n), (s <| directory := rest |>), (Ok true). split; [|done].
  unfold actor_exists, turn, modify. rewrite !act_bind_run. simpl. by rewrite Hd.
Qed.
End Alone.
