(* ===== verification/ModerationSystem.v ===== *)
(** * Moderation: the running service

    [serve] is one request of the gRPC surface or one event of an ingest topic, served
    while other handlers take steps between its backend calls; [system_step] adds the
    passing of time and whatever else leaves the stores alone.  The theorems are about
    every run: the tables and the topic agree, nothing recorded is lost, and an
    overturned appeal lifts what its decision had ordered. *)

From stdpp Require Import pretty.
From S2P Require Import Prelude AccountDomain.
From S2P Require AccountStore.
From S2P Require Import ModerationDomain ModerationStore ModerationHandlers ModerationEdge.
From S2P Require Import ModerationSteps ModerationRuns ModerationAlone ModerationProofs.
Local Open Scope Z_scope.

(** What reaches the service. *)
Inductive Request :=
  | ScreenCall (req : Pb.ScreenRequest)
  | OpenCaseCall (subject : option Pb.SubjectRef) (category : Z) (reason : string)
  | AssignCaseCall (case_id reviewer : string)
  | DecideCaseCall (req : Pb.DecideCaseRequest)
  | ListQueueCall (queue : string) (status_filter page_size : Z)
  | FileAppealCall (decision_id actor_id statement : string)
  | ResolveAppealCall (appeal_id : string) (overturn : bool) (rationale reviewer : string)
  | StatementCall (decision_id : string)
  | EnforcementStateCall (actor_id : string)
  | ReportArrives (e : ReportEvent.t)
  | SignalArrives (e : SignalEvent.t).

Section System.
Context `{UuidText} `{UuidV5} `{AccountStore.PgTime} `{CorpusJson}.
Context (policy : ModerationPolicy).

(** The world after the service has answered. *)
Definition serve `{UuidV7} (others : nat → World → World) (elapsed : World → option nat) (wall : Z)
    (req : Request) (w : World) : World :=
  match req with
  | ScreenCall r => (screen_rpc others policy elapsed wall r w).1
  | OpenCaseCall s c reason => (open_case_rpc others wall s c reason w).1
  | AssignCaseCall id reviewer => (assign_case_rpc others id reviewer w).1
  | DecideCaseCall r => (decide_case_rpc others policy wall r w).1
  | ListQueueCall q st n => (list_queue_rpc others q st n w).1
  | FileAppealCall d a text => (file_appeal_rpc others wall d a text w).1
  | ResolveAppealCall a o text rev => (resolve_appeal_rpc others wall a o text rev w).1
  | StatementCall d => (get_statement_of_reasons others d w).1
  | EnforcementStateCall a => (get_enforcement_state others wall a w).1
  | ReportArrives e => (consume_report others wall e w).1
  | SignalArrives e => (consume_signal others wall e w).1
  end.

(** A request draws identifiers nobody has drawn before. *)
Inductive system_step (w : World) : World → Prop :=
  | sys_serve (V : UuidV7) others elapsed wall req :
      neighbours others → fresh w → system_step w (serve others elapsed wall req w)
  | sys_quiet w' : same_stores w w' → system_step w w'.

(** ** Every request is a run of steps *)

Definition runs `{UuidV7} {E A} (m : act World E A) (w : World) : Prop :=
  star (store_step any_id) w (m w).1 ∧ good (m w).1.

Lemma wp_runs `{UuidV7} {A} (m : use_case A) w : wp m (λ _ _, True) w → runs m w.
Proof. unfold wp, runs. destruct (m w). naive_solver. Qed.

Lemma runs_pure `{UuidV7} {E A} (m : act World E A) w : (m w).1 = w → good w → runs m w.
Proof. unfold runs. intros ->. by split; [constructor|]. Qed.

(** What is decoded before and converted after does not touch the stores. *)
Lemma runs_decoded `{UuidV7} {E A B} (r : result E A) (f : A → act World E B) w :
  good w → (∀ a, runs (f a) w) → runs (let! a := lift r in f a) w.
Proof.
  intros Hg Hf. destruct r as [a|e]; [|by apply runs_pure].
  destruct (Hf a) as [? ?]. unfold runs. rewrite act_bind_run. by split.
Qed.
Lemma runs_converted `{UuidV7} {E A B} (m : act World E A) (g : A → act World E B) w :
  (∀ a w', (g a w').1 = w') → runs m w → runs (let! a := m in g a) w.
Proof.
  unfold runs. intros Hg. rewrite act_bind_run. destruct (m w) as [w' [a|e]]; [|done]. by rewrite Hg.
Qed.

Lemma runs_envelope `{UuidV7} {A B} (m : Uuid → use_case A) (g : A → act World StatusCode B) w :
  (∀ a w', (g a w').1 = w') → good w →
  (∀ corr w', good w' → wp (m corr) (λ _ _, True) w') → runs (let! a := with_envelope m in g a) w.
Proof.
  intros Hconv Hg Hm. apply runs_converted; [done|].
  assert (Hw : wp (let! corr := new_id in m corr) (λ _ _, True) w).
  { apply wp_bind, wp_draw; [done|]. intros. by apply Hm. }
  apply wp_runs in Hw. unfold runs, with_envelope, serving in *.
  by destruct (act_bind new_id m w).
Qed.

Lemma runs_consume `{UuidV7} {C} (cmd : outcome C) wall
    (handle : C → Z → Uuid → use_case CaseId) w :
  good w → (∀ c corr w', good w' → wp (handle c wall corr) (λ _ _, True) w') →
  runs (consume wall cmd handle) w.
Proof.
  intros Hg Hh. apply runs_decoded; [done|]. intros c. apply wp_runs, wp_bind, wp_draw; [done|].
  intros corr w1 _ Hg1 _. apply wp_bind. eapply wp_weaken; [by apply Hh|]. intros. by apply wp_ret.
Qed.

Lemma serve_runs `{UuidV7} others elapsed wall req w :
  neighbours others → trim_is_empty (screen_policy_version policy) = false → good w →
  star (store_step any_id) w (serve others elapsed wall req w) ∧
  good (serve others elapsed wall req w).
Proof.
  intros Hn Hpv Hg.
  destruct req; simpl; try (apply runs_consume; [done|]; intros);
    repeat (apply runs_decoded; [done|]; intros ?); try (apply runs_envelope; [by intros []|done|]; intros).
  - eapply wp_weaken; [by apply wp_screen|done].
  - by apply wp_open_case.
  - by apply wp_assign_case.
  - by apply wp_decide_case.
  - by apply wp_list_queue.
  - by apply wp_file_appeal.
  - eapply wp_weaken; [by apply wp_resolve_appeal|done].
  - by apply wp_statement.
  - by apply wp_enforcement_state.
  - by apply wp_ingest_report.
  - by apply wp_ingest_signal.
Qed.

Lemma system_step_runs w w' :
  trim_is_empty (screen_policy_version policy) = false → sound w → system_step w w' →
  star (store_step any_id) w w'.
Proof.
  intros Hpv Hs [V others elapsed wall req Hn Hf|w1 Hq]; [by apply serve_runs|].
  eapply star_step; [by apply st_quiet|constructor].
Qed.

(** C1. Whatever requests arrive, concurrently and with whatever backend failures, and
    however far each gets: the tables agree.  Every decision is recorded with a rationale
    and a policy version; every enforcement executes the action of a recorded, original
    decision about the same subject, and a reversed enforcement has a reversal of that
    decision; every reversal is of a decision somebody appealed, whose category may be
    appealed, about the same subject; every published event reports a row that is there.
    And no run removes a case, a decision, an enforcement, an appeal or a published event,
    or changes anything of a decision, of an enforcement but its reversal, or of an appeal
    but its resolution.  (The strikes of a penalty ledger and the signals of a case are
    not covered: those rows are saved whole, and the last of two concurrent saves wins.) *)
Theorem every_enforcement_is_reasoned w0 w :
  trim_is_empty (screen_policy_version policy) = false → sound w0 → star system_step w0 w →
  sound w ∧ grows w0 w.
Proof.
  intros Hpv Hs Hrun. induction Hrun as [w|w1 w2 w3 Hstep _ IH]; [by split|].
  apply system_step_runs in Hstep; [|done..].
  destruct (IH (steps_sound _ _ _ Hstep Hs)) as [? Hgr]. split; [done|].
  by trans w2; [eapply steps_grow|].
Qed.

(** C22. When the handler reports an appeal as overturned, the reversing decision is in the
    ledger, and every enforcement that was in force on the strength of the appealed
    decision is reversed, unless it had lapsed by then. *)
Theorem overturn_lifts_enforcement `{UuidV7} others cmd now corr w w' a rev :
  neighbours others → sound w → fresh w →
  resolve_appeal others cmd now corr w = (w', Ok (a, rev)) → ra_overturn cmd = true →
  ∃ r, rev = Some r ∧ decisions w' !! Decision.id r = Some (row_of_decision r) ∧
    Decision.reverses r = Some (Appeal.decision_id a) ∧
    ∀ id e, enforcements w !! id = Some e →
      EnforcementRow.decision_id e = Appeal.decision_id a →
      ∃ e', enforcements w' !! id = Some e' ∧
        (EnforcementRow.status e' = "reversed" ∨
         ∃ t, EnforcementRow.expires_at e' = Some t ∧ t ≤ now).
Proof.
  intros Hn Hs Hf Hrun Hover.
  assert (Hwp := wp_resolve_appeal others Hn cmd now corr w {| good_sound := Hs; good_fresh := Hf |}).
  unfold wp in Hwp. rewrite Hrun in Hwp. destruct Hwp as (_ & _ & HΦ).
  exact (HΦ _ eq_refl Hover).
Qed.
End System.

(** ** A run *)

Module Demo.
Definition digits (s : string) : option N :=
  foldl (λ a c, n ← a; if (48 <=? N_of_ascii c)%N && (N_of_ascii c <=? 57)%N
                       then Some (n * 10 + (N_of_ascii c - 48))%N else None)
    (Some 0%N) (String.list_ascii_of_string s).
#[export] Instance decimal_uuid : UuidText := {| parse_uuid := digits; hyphenated := pretty |}.
#[export] Instance short_v5 : UuidV5 := {|
  new_v5 ns name := (1000000 + foldl (λ a c, a * 31 + N_of_ascii c) (ns mod 1000)
                                 (String.list_ascii_of_string name) mod 1000000)%N |}.
#[export, program] Instance counting_v7 : UuidV7 := {| now_v7 := N.of_nat |}.
Next Obligation. intros m n Hmn. lia. Qed.
#[export, program] Instance micros : AccountStore.PgTime := {|
  AccountStore.pg_instant t := t / 1000 * 1000 |}.
Next Obligation. intros t. simpl. by rewrite Z.div_mul. Qed.
Next Obligation.
  intros t u Htu. simpl. pose proof (Z.div_le_mono t u 1000 ltac:(lia) Htu). lia.
Qed.
(** An entry holds one category's text. *)
#[export] Instance one_category : CorpusJson := {| decode_entry raw := Ok ([raw], "ref") |}.

Definition empty : World := {|
  cases := ∅; decisions := ∅; enforcements := ∅; penalty_ledgers := ∅; appeals := ∅;
  restrictions := ∅; corpus := ∅; topic := []; kafka := true; history := []; clock := 0;
  draws := 0; calls := 0; pg_faults := []; redis_faults := []; kafka_faults := [];
  scylla_faults := []; directory := [AccountFound] |}.

Lemma empty_good : good empty.
Proof.
  split; [|by intros n _; split_and!; apply lookup_empty].
  split; simpl; intros; [by simplify_map_eq..|set_solver].
Qed.

Definition untimed : World → option nat := λ _, None.
Abbreviation run := (serve standard_policy nobody untimed).

Lemma run_good wall req w : good w → good (run wall req w).
Proof. intros Hg. by apply serve_runs; [apply nobody_neighbours|..]. Qed.
Lemma run_step wall req w : good w → system_step standard_policy w (run wall req w).
Proof. intros Hg. apply sys_serve; [apply nobody_neighbours|apply Hg]. Qed.

Definition post : ReportEvent.t := {|
  ReportEvent.reporter_id := "7"; ReportEvent.entity_type := "post"; ReportEvent.entity_id := "p";
  ReportEvent.actor_id := "9"; ReportEvent.surface := "feed"; ReportEvent.category := "hate";
  ReportEvent.reason := "" |}.
Definition case_id : Uuid := case_id_for_subject (mk_subject Post "p" 9%N "feed").
Definition suspend : Pb.DecideCaseRequest := {|
  Pb.decide_case_id := hyphenated case_id; Pb.decide_action := 7; Pb.decide_category := 3;
  Pb.decide_rationale := "hateful"; Pb.decide_reviewer_id := "r"; Pb.decide_policy_version := "v1" |}.

Definition reported : World := run 1000000 (ReportArrives post) empty.
Definition decided : World := run 2000000 (DecideCaseCall suspend) reported.
Definition appealed : World := run 3000000 (FileAppealCall "3" "9" "sorry") decided.
Definition resolved : World := run 4000000 (ResolveAppealCall "9" true "mistake" "s") appealed.

Definition statuses (w : World) := EnforcementRow.status <$> enforcements w.

Lemma run_reverses :
  statuses decided !! 5%N = Some "active" ∧ statuses resolved !! 5%N = Some "reversed" ∧
  event_type ∘ EventEnvelope.payload <$> topic resolved
  = ["moderation.case_opened"; "moderation.decision_recorded"; "moderation.enforcement_applied";
     "moderation.case_resolved"; "moderation.decision_recorded"; "moderation.enforcement_reversed";
     "moderation.appeal_resolved"] ∧
  restrictions decided !! enforcement_key 9%N
  = Some (mk_restriction 1 (Some (2592000 * NANOS))) ∧ restrictions resolved = ∅.
Proof. by vm_compute. Qed.

Lemma reported_good : good reported. Proof. exact (run_good 1000000 (ReportArrives post) _ empty_good). Qed.
Lemma decided_good : good decided. Proof. exact (run_good 2000000 (DecideCaseCall suspend) _ reported_good). Qed.
Lemma appealed_good : good appealed. Proof. exact (run_good 3000000 (FileAppealCall "3" "9" "sorry") _ decided_good). Qed.

Lemma run_resolved : star (system_step standard_policy) empty resolved.
Proof.
  eapply star_step; [exact (run_step 1000000 (ReportArrives post) _ empty_good)|].
  eapply star_step; [exact (run_step 2000000 (DecideCaseCall suspend) _ reported_good)|].
  eapply star_step; [exact (run_step 3000000 (FileAppealCall "3" "9" "sorry") _ decided_good)|].
  eapply star_step; [exact (run_step 4000000 (ResolveAppealCall "9" true "mistake" "s") _ appealed_good)|constructor].
Qed.

Lemma every_enforcement_is_reasoned_witness :
  statuses resolved !! 5%N = Some "reversed" ∧ sound resolved ∧ grows empty resolved.
Proof.
  split; [by vm_compute|].
  apply (every_enforcement_is_reasoned standard_policy empty resolved);
    [reflexivity|apply empty_good|apply run_resolved].
Defined.

Definition mistake : ResolveAppealCommand := {|
  ra_appeal_id := 9%N; ra_overturn := true; ra_rationale := "mistake"; ra_reviewer_id := "s" |}.
Definition overturned : Appeal.t * option Decision.t :=
  match (resolve_appeal nobody mistake 4000000 100%N appealed).2 with
  | Ok out => out
  | Err _ => ({| Appeal.id := 0%N; Appeal.decision_id := 0%N; Appeal.actor_id := 0%N;
                 Appeal.statement := ""; Appeal.status := Filed; Appeal.filed_at := 0;
                 Appeal.resolved_at := None; Appeal.pending_events := [] |}, None)
  end.

Lemma overturn_lifts_enforcement_witness :
  ∃ r, overturned.2 = Some r ∧ Appeal.decision_id overturned.1 = 3%N ∧
    (EnforcementRow.decision_id <$> enforcements appealed !! 5%N) = Some 3%N ∧
    Decision.reverses r = Some 3%N.
Proof.
  destruct (overturn_lifts_enforcement nobody mistake 4000000 100%N appealed
              (resolve_appeal nobody mistake 4000000 100%N appealed).1 overturned.1 overturned.2)
    as (r & Hr & _ & Hrev & _).
  - apply nobody_neighbours.
  - apply appealed_good.
  - apply appealed_good.
  - by vm_compute.
  - reflexivity.
  - exists r. split; [exact Hr|]. split; [by vm_compute|]. split; [by vm_compute|].
    rewrite Hrev. by vm_compute.
Defined.
End Demo.
