(* ===== verification/ModerationSpecs.v ===== *)
(** * Moderation: what the use cases do

    The exact effect of a decision on a case, on its own and without failures, and what
    follows where the code's steps do not undo one another. *)

From S2P Require Import Prelude AccountDomain.
From S2P Require AccountStore.
From S2P Require Import ModerationDomain ModerationStore ModerationHandlers ModerationEdge.
From S2P Require Import ModerationSteps ModerationRuns ModerationAlone ModerationProofs.
From S2P Require Import ModerationSystem.
Local Open Scope Z_scope.

Section Decide.
Context `{UuidText} `{UuidV5} `{UuidV7} `{AccountStore.PgTime} `{CorpusJson}.
Context (policy : ModerationPolicy).

(** The decision and the enforcement that a command records. *)
Definition decided (cmd : DecideCaseCommand) (s : SubjectRef) (now : Z) (id : DecisionId) : Decision.t := {|
  Decision.id := id; Decision.subject := s; Decision.action := dc_action cmd;
  Decision.category := dc_category cmd; Decision.policy_version := dc_policy_version cmd;
  Decision.rationale := dc_rationale cmd; Decision.author := Reviewer (dc_reviewer_id cmd);
  Decision.reverses := None; Decision.decided_at := now |}.

Definition ordered (d : Decision.t) (now version : Z) (id : EnforcementId) : Enforcement.t := {|
  Enforcement.id := id; Enforcement.subject := Decision.subject d;
  Enforcement.action := Decision.action d; Enforcement.status := EnforcementActive;
  Enforcement.version := version; Enforcement.decision_id := Decision.id d;
  Enforcement.applied_at := now;
  Enforcement.expires_at := expiry_for policy (Decision.action d) now;
  Enforcement.reversed_at := None; Enforcement.pending_events := [] |}.

Definition applied (e : Enforcement.t) (corr : Uuid) : DomainEvent :=
  EnforcementApplied (Enforcement.id e) (Enforcement.subject e) (actor_id (Enforcement.subject e))
    (Enforcement.action e) (Enforcement.version e) (Enforcement.applied_at e)
    (Enforcement.expires_at e) (Enforcement.applied_at e) corr.

Definition ledger_of (actor : ActorId) (w : World) : PenaltyLedger.t :=
  match penalty_ledgers w !! actor with
  | Some r => ledger_of_row r
  | None => PenaltyLedger.empty actor
  end.

(** The command is one the stores accept for the case [c]. *)
Record well_formed (cmd : DecideCaseCommand) (c : Case.t) : Prop := {
  f_case_texts : forallb pg_text (case_texts (row_of_case c)) = true;
  f_version : trim_is_empty (dc_policy_version cmd) = false;
  f_rationale : trim_is_empty (dc_rationale cmd) = false;
  f_texts : forallb pg_text [dc_policy_version cmd; dc_rationale cmd; dc_reviewer_id cmd] = true;
  f_ttl now : match expiry_for policy (dc_action cmd) now with Some t => now < t | None => True end;
}.

(** Nothing speaks against it up to its effect on the case itself. *)
Record admissible (cmd : DecideCaseCommand) (c : Case.t) (w : World) : Prop := {
  a_calm : calm w;
  a_fresh : fresh w;
  a_case : optional case_of_row (cases w !! dc_case_id cmd) = Ok (Some c);
  a_form : well_formed cmd c;
  a_actor : is_actor_level (dc_action cmd) = true → head (directory w) = Some AccountFound;
}.

(** The last step of the handler on the case, once the decision [d] has been carried out
    with the events [evs]. *)
Definition concluded (d : Decision.t) (enforcement : option Enforcement.t) (c : Case.t) (now : Z)
    (corr : Uuid) (evs : list DomainEvent) (w : World) (out : outcome DecideOutcome) (w' : World) : Prop :=
  match Case.resolve (Decision.id d) (Decision.action d) now corr c with
  | Ok c' =>
      out = Ok {| out_decision := d; out_enforcement := enforcement |}
      ∧ cases w' = upsert_case (row_of_case c') (cases w)
      ∧ EventEnvelope.payload <$> topic w'
        = (EventEnvelope.payload <$> topic w) ++ evs ++ Case.pending_events c'
  | Err err =>
      out = Err err ∧ cases w' = cases w
      ∧ EventEnvelope.payload <$> topic w' = (EventEnvelope.payload <$> topic w) ++ evs
  end.

(** What the handler leaves: [out] and [w'] from [w].  A dismissal records the decision and
    nothing else; any other action is enforced and puts a strike on the actor. *)
Definition decide_post (cmd : DecideCaseCommand) (c : Case.t) (now : Z) (corr : Uuid) (w : World)
    (out : outcome DecideOutcome) (w' : World) : Prop :=
  let s := Case.subject c in
  let d := decided cmd s now (now_v7 (draws w)) in
  decisions w' = <[Decision.id d := row_of_decision d]> (decisions w) ∧
  if is_enforced (dc_action cmd) then
    let e := ordered d now (next_after (max_version s (enforcements w))) (now_v7 (2 + draws w)) in
    enforcements w' = <[Enforcement.id e := row_of_enforcement e]> (enforcements w)
    ∧ penalty_ledgers w' = <[PenaltyLedger.actor_id (ledger_of (actor_id s) w) :=
         row_of_ledger (PenaltyLedger.record_strike (dc_category cmd) now (penalty policy)
                          (ledger_of (actor_id s) w))]> (penalty_ledgers w)
    ∧ restrictions w' = restrictions (if is_actor_level (dc_action cmd)
                                      then restricted (actor_id s) (Enforcement.version e)
                                             (Enforcement.expires_at e) w
                                      else w)
    ∧ concluded d (Some e) c now corr [decision_recorded d corr; applied e corr] w out w'
  else
    enforcements w' = enforcements w ∧ penalty_ledgers w' = penalty_ledgers w
    ∧ restrictions w' = restrictions w
    ∧ concluded d None c now corr [decision_recorded d corr] w out w'.

(** ** The texts *)

Lemma entity_type_text e : pg_text (entity_type_str e) = true.
Proof. by destruct e. Qed.
Lemma category_text c : pg_text (category_str c) = true.
Proof. by destruct c. Qed.
Lemma action_text a : pg_text (action_str a) = true.
Proof. by destruct a. Qed.
Lemma case_status_text s : pg_text (case_status_str s) = true.
Proof. by destruct s. Qed.

Lemma case_subject_texts c :
  forallb pg_text (case_texts (row_of_case c)) = true →
  pg_text (entity_id (Case.subject c)) = true ∧ pg_text (surface (Case.subject c)) = true.
Proof. simpl. rewrite entity_type_text. simpl. rewrite !andb_true_iff. tauto. Qed.

Lemma resolved_texts id action now corr c c' :
  Case.resolve id action now corr c = Ok c' →
  forallb pg_text (case_texts (row_of_case c)) = true →
  forallb pg_text (case_texts (row_of_case c')) = true.
Proof.
  unfold Case.resolve, Case.transition_to. intros Hr. apply result_bind_ok in Hr as (? & _ & Hr).
  apply result_bind_ok in Hr as (c1 & Hc1 & Hr). case_match; simplify_eq/=.
  rewrite !entity_type_text, !category_text, !case_status_text. done.
Qed.

(** ** The steps of a decision *)

(** The decision appended and published. *)
Definition with_decision (d : Decision.t) (corr : Uuid) (s : World) : World :=
  published (decision_recorded d corr)
    (s <| draws := S (draws s) |>
       <| decisions := <[Decision.id d := row_of_decision d]> (decisions s) |>).

Lemma does_record_decision cmd c now corr w Φ :
  calm w → decisions w !! now_v7 (draws w) = None → well_formed cmd c →
  (let d := decided cmd (Case.subject c) now (now_v7 (draws w)) in
   Φ (Ok d) (with_decision d corr w)) →
  does w (record_decision nobody (λ id, Decision.record id
            (decision_params cmd (Case.subject c) (dc_policy_version cmd) now)) corr) Φ.
Proof.
  intros Hc Hu [Ht _ Hr Htx _] HΦ. apply does_bind, does_new_id, does_bind, does_lift.
  unfold Decision.record, Decision.build. simpl. rewrite Hr.
  simpl in HΦ.
  assert (Hc1 : calm (w <| draws := S (draws w) |>)) by (by destruct Hc).
  apply case_subject_texts in Ht as [T1 T2]. simpl in Htx. rewrite !andb_true_iff in Htx.
  destruct Htx as (T3 & T4 & T5 & _).
  apply does_bind, does_execute; [done| |done|].
  { simpl. by rewrite entity_type_text, action_text, category_text, T1, T2, T3, T4, T5. }
  unfold insert_decision. simpl. rewrite Hu.
  apply does_bind, does_publish; [by destruct Hc|]. by apply does_ret.
Qed.

(** The enforcement inserted, before its publication. *)
Definition with_enforcement (e : Enforcement.t) (s : World) : World :=
  s <| draws := S (draws s) |>
    <| enforcements := <[Enforcement.id e := row_of_enforcement e]> (enforcements s) |>.

Lemma does_new_enforcement s action did now corr w Φ :
  calm w → enforcements w !! now_v7 (draws w) = None → is_enforced action = true →
  pg_text (entity_id s) = true →
  pg_text (surface s) = true →
  match expiry_for policy action now with Some t => now < t | None => True end →
  (∀ e, e = {| Enforcement.id := now_v7 (draws w); Enforcement.subject := s;
          Enforcement.action := action; Enforcement.status := EnforcementActive;
          Enforcement.version := next_after (max_version s (enforcements w));
          Enforcement.decision_id := did; Enforcement.applied_at := now;
          Enforcement.expires_at := expiry_for policy action now;
          Enforcement.reversed_at := None; Enforcement.pending_events := [] |} →
     Φ (Ok (e <| Enforcement.pending_events := [applied e corr] |>)) (with_enforcement e w)) →
  does w (new_enforcement nobody s action did now (expiry_for policy action now) corr) Φ.
Proof.
  intros Hc Hu Henf T1 T2 Hx HΦ. apply does_bind, does_fetch; [done..|].
  unfold check_texts. simpl. rewrite T1, T2. simpl.
  apply does_bind, does_new_id, does_bind, does_lift. unfold Enforcement.apply_new. simpl.
  rewrite Henf. simpl.
  destruct (match expiry_for policy action now with Some _ => _ | None => _ end) eqn:E.
  { destruct (expiry_for policy action now); [apply Z.leb_le in E; lia|done]. }
  apply does_bind, does_execute; [by destruct Hc| |done|].
  { simpl. by rewrite entity_type_text, action_text, T1, T2. }
  unfold upsert_enforcement. simpl. rewrite Hu. apply does_ret. by apply (HΦ _ eq_refl).
Qed.

Definition with_strike (cat : PolicyCategory) (actor : ActorId) (now : Z) (s : World) : World :=
  let l := ledger_of actor s in
  s <| penalty_ledgers := <[PenaltyLedger.actor_id l :=
         row_of_ledger (PenaltyLedger.record_strike cat now (penalty policy) l)]> (penalty_ledgers s) |>.

Lemma does_strike_and_publish cmd s now e ev w Φ :
  calm w → Enforcement.pending_events e = [ev] →
  Φ (Ok (e <| Enforcement.pending_events := [] |>))
    (published ev (with_strike (dc_category cmd) (actor_id s) now w)) →
  does w (strike_and_publish nobody policy cmd s now e) Φ.
Proof.
  intros Hc He HΦ. apply does_bind, does_bind, does_fetch; [done..|]. simpl.
  apply does_ret. apply does_bind, does_execute; [done..|]. simpl. rewrite He.
  apply does_bind, does_publish_one; [by destruct Hc|]. by apply does_ret.
Qed.

Definition projected (cmd : DecideCaseCommand) (s : SubjectRef) (e : Enforcement.t) (w : World) : World :=
  if is_actor_level (dc_action cmd)
  then restricted (actor_id s) (Enforcement.version e) (Enforcement.expires_at e) w else w.

Definition with_enforced (cmd : DecideCaseCommand) (s : SubjectRef) (e : Enforcement.t) (now : Z)
    (corr : Uuid) (w : World) : World :=
  published (applied e corr)
    (with_strike (dc_category cmd) (actor_id s) now (projected cmd s e (with_enforcement e w))).

Lemma does_enforce cmd d now corr w Φ :
  calm w → enforcements w !! now_v7 (draws w) = None → is_enforced (dc_action cmd) = true →
  Decision.action d = dc_action cmd →
  pg_text (entity_id (Decision.subject d)) = true → pg_text (surface (Decision.subject d)) = true →
  match expiry_for policy (dc_action cmd) now with Some t => now < t | None => True end →
  (let e := ordered d now (next_after (max_version (Decision.subject d) (enforcements w)))
              (now_v7 (draws w)) in
   Φ (Ok e) (with_enforced cmd (Decision.subject d) e now corr w)) →
  does w (enforce nobody policy cmd (Decision.subject d) (Decision.id d) now corr) Φ.
Proof.
  intros Hc Hu Henf Hact T1 T2 Hx HΦ. simpl in HΦ.
  apply does_bind, does_new_enforcement; [done..|]. intros e ->. unfold ordered in HΦ.
  rewrite Hact in HΦ. set (e := Enforcement.mk _ _ _ _ _ _ _ _ _ _) in *.
  assert (Hc1 : calm (with_enforcement e w)) by (by destruct Hc).
  assert (Hrest : does (projected cmd (Decision.subject d) e (with_enforcement e w))
    (strike_and_publish nobody policy cmd (Decision.subject d) now
       (e <| Enforcement.pending_events := [applied e corr] |>)) Φ).
  { eapply does_strike_and_publish; [|done|exact HΦ]. unfold projected.
    destruct (is_actor_level (dc_action cmd)); [by apply restricted_calm|done]. }
  apply does_bind. unfold projected in Hrest. destruct (is_actor_level (dc_action cmd)).
  - by apply does_set_restriction.
  - by apply does_ret.
Qed.

Lemma resolve_ok_events id action now corr c c' :
  Case.resolve id action now corr c = Ok c' → Case.pending_events c = [] →
  ∃ ev, Case.pending_events c' = [ev].
Proof.
  unfold Case.resolve, Case.transition_to. intros Hr Hp. apply result_bind_ok in Hr as (? & _ & Hr).
  apply result_bind_ok in Hr as (c1 & Hc1 & Hr). case_match; simplify_eq/=. rewrite Hp. by eexists.
Qed.

(** The handler's last step from [s], where [w] has been left but for the decision, its
    enforcement and the events [evs]. *)
Lemma does_conclude d enf c now corr evs w s :
  calm s → Case.pending_events c = [] → forallb pg_text (case_texts (row_of_case c)) = true →
  cases s = cases w →
  EventEnvelope.payload <$> topic s = (EventEnvelope.payload <$> topic w) ++ evs →
  does s (conclude nobody d enf c (Decision.action d) now corr) (λ out w',
    (decisions w' = decisions s ∧ enforcements w' = enforcements s ∧
     penalty_ledgers w' = penalty_ledgers s ∧ restrictions w' = restrictions s ∧
     concluded d enf c now corr evs w out w') ∧ calm w').
Proof.
  intros Hc Hp Ht Hcases Htopic. unfold concluded. apply does_bind, does_lift.
  destruct (Case.resolve _ _ _ _ _) as [c'|err] eqn:Hr; [|done].
  destruct (resolve_ok_events _ _ _ _ _ _ Hr Hp) as [ev Hev].
  apply does_bind, does_execute; [done|by eapply resolved_texts|done|].
  simpl. rewrite Hev. apply does_bind, does_publish_one; [by destruct Hc|]. apply does_ret.
  split; [|apply published_calm; by destruct Hc]. split_and!; [done..|simpl|].
  - by rewrite <- Hcases.
  - change (EventEnvelope.payload <$> topic s ++ [envelope_of ev] =
      (EventEnvelope.payload <$> topic w) ++ evs ++ [ev]).
    by rewrite fmap_app, Htopic, <- app_assoc.
Qed.

Lemma loaded_no_events o c : optional case_of_row o = Ok (Some c) → Case.pending_events c = [].
Proof.
  intros (r & _ & Hc)%optional_some. unfold case_of_row in Hc.
  apply result_bind_ok in Hc as (? & _ & Hc). apply result_bind_ok in Hc as (? & _ & Hc).
  apply result_bind_ok in Hc as (? & _ & Hc). by simplify_eq.
Qed.

Definition admitted (cmd : DecideCaseCommand) (w : World) : World :=
  if is_actor_level (dc_action cmd) then w <| directory := tail (directory w) |> else w.

Lemma does_admit cmd c w Φ :
  admissible cmd c w → Φ (Ok (c, dc_policy_version cmd)) (admitted cmd w) →
  does w (admit_decision nobody cmd) Φ.
Proof.
  intros [Hc _ Hcase Hform Hactor] HΦ. apply does_bind, does_bind, does_fetch; [done..|].
  rewrite Hcase. apply does_lift. apply does_bind, does_lift. unfold PolicyVersion_new.
  rewrite (f_version _ _ Hform). apply does_bind. unfold admitted in HΦ.
  destruct (is_actor_level (dc_action cmd)).
  - destruct (directory w) as [|a rest] eqn:Hd; [by specialize (Hactor eq_refl)|].
    injection (Hactor eq_refl) as ->. eapply does_actor_exists; [done|].
    apply does_bind, does_lift. by apply does_ret.
  - apply does_ret. apply does_bind, does_lift. by apply does_ret.
Qed.

(** Everything up to the effect on the case. *)
Definition punished (cmd : DecideCaseCommand) (d : Decision.t) (e : Enforcement.t) (now : Z)
    (corr : Uuid) (w : World) : World :=
  with_enforced cmd (Decision.subject d) e now corr (with_decision d corr (admitted cmd w)).

Lemma admitted_tables cmd w : ∃ dir, admitted cmd w = w <| directory := dir |>.
Proof.
  unfold admitted. destruct (is_actor_level _); [by eexists|]. exists (directory w). by destruct w.
Qed.

Lemma restricted_tables actor v ex w : ∃ m, restricted actor v ex w = w <| restrictions := m |>.
Proof.
  unfold restricted. destruct (match stored_version _ w with Some c => _ | None => _ end).
  - exists (restrictions w). by destruct w.
  - by eexists.
Qed.
Lemma projected_tables cmd s e w : ∃ m, projected cmd s e w = w <| restrictions := m |>.
Proof.
  unfold projected. destruct (is_actor_level _); [apply restricted_tables|].
  exists (restrictions w). by destruct w.
Qed.

Lemma restricted_restrictions actor v ex w1 w2 :
  restrictions w1 = restrictions w2 → clock w1 = clock w2 →
  restrictions (restricted actor v ex w1) = restrictions (restricted actor v ex w2).
Proof.
  intros E1 E2. unfold restricted, stored_version. rewrite E1, E2.
  by destruct (match (match restrictions w2 !! _ with Some _ => _ | None => _ end)
               with Some c => _ | None => _ end).
Qed.

Lemma punished_tables cmd d e now corr w :
  let s := Decision.subject d in
  let w' := punished cmd d e now corr w in
  cases w' = cases w
  ∧ decisions w' = <[Decision.id d := row_of_decision d]> (decisions w)
  ∧ enforcements w' = <[Enforcement.id e := row_of_enforcement e]> (enforcements w)
  ∧ penalty_ledgers w' = penalty_ledgers (with_strike (dc_category cmd) (actor_id s) now w)
  ∧ restrictions w' = restrictions (projected cmd s e w)
  ∧ topic w' = topic w ++ [envelope_of (decision_recorded d corr); envelope_of (applied e corr)].
Proof.
  simpl. unfold punished, with_enforced.
  destruct (admitted_tables cmd w) as [dir ->].
  set (w1 := with_enforcement e (with_decision d corr (w <| directory := dir |>))).
  assert (Hr : restrictions (projected cmd (Decision.subject d) e w1)
               = restrictions (projected cmd (Decision.subject d) e w)).
  { unfold projected. destruct (is_actor_level _); [by apply restricted_restrictions|done]. }
  destruct (projected_tables cmd (Decision.subject d) e w1) as [m E]. rewrite E in Hr |- *.
  simpl in Hr. rewrite <- Hr. split_and!; [done..|]. simpl. by rewrite <- app_assoc.
Qed.

Lemma punished_calm cmd d e now corr w : calm w → calm (punished cmd d e now corr w).
Proof.
  intros Hc. unfold punished, with_enforced. apply published_calm.
  destruct (projected_tables cmd (Decision.subject d) e
              (with_enforcement e (with_decision d corr (admitted cmd w)))) as [m ->].
  destruct (admitted_tables cmd w) as [dir ->].
  assert (Hc2 : calm (with_decision d corr (w <| directory := dir |>)))
    by (apply published_calm; by destruct Hc).
  by destruct Hc2.
Qed.

Lemma does_decide_case cmd c now corr w :
  admissible cmd c w →
  does w (decide_case nobody policy cmd now corr)
    (λ out w', decide_post cmd c now corr w out w' ∧ calm w').
Proof.
  intros Ha. apply does_bind, (does_admit _ _ _ _ Ha).
  destruct Ha as [Hc Hf Hcase Hform _]. destruct (admitted_tables cmd w) as [dir Hw1].
  assert (Hc1 : calm (admitted cmd w)) by (rewrite Hw1; by destruct Hc).
  assert (Ht := f_case_texts _ _ Hform). destruct (case_subject_texts _ Ht) as [T1 T2].
  apply does_bind, does_record_decision; [done| |done|].
  { rewrite Hw1. by apply (Hf (draws w)). }
  replace (draws (admitted cmd w)) with (draws w) by (by rewrite Hw1).
  unfold decide_post. set (d := decided _ _ _ _). cbv zeta.
  assert (Hc2 : calm (with_decision d corr (admitted cmd w))) by (apply published_calm; by destruct Hc1).
  apply does_bind. destruct (is_enforced (dc_action cmd)) eqn:Henf.
  - apply does_bind.
    apply (does_enforce cmd d now corr); [done| |done|done|done|done|apply (f_ttl _ _ Hform)|].
    { rewrite Hw1. apply (Hf (S (S (draws w)))). lia. }
    replace (draws (with_decision d corr (admitted cmd w))) with (2 + draws w)%nat by (by rewrite Hw1).
    replace (enforcements (with_decision d corr (admitted cmd w))) with (enforcements w) by (by rewrite Hw1).
    set (e := ordered _ _ _ _). cbv zeta. apply does_ret. fold (punished cmd d e now corr w).
    destruct (punished_tables cmd d e now corr w) as (P1 & P2 & P3 & P4 & P5 & P6).
    eapply does_weaken; [apply (does_conclude d (Some e) c now corr [decision_recorded d corr; applied e corr] w)|].
    + by apply punished_calm.
    + by eapply loaded_no_events.
    + done.
    + done.
    + by rewrite P6, fmap_app.
    + intros out w' [(E1 & E2 & E3 & E4 & Hconc) Hc']. split; [|done].
      split_and!; [etrans; [exact E1|exact P2]|etrans; [exact E2|exact P3]|
        etrans; [exact E3|exact P4]|etrans; [exact E4|exact P5]|exact Hconc].
  - apply does_ret. eapply does_weaken; [apply (does_conclude d None c now corr [decision_recorded d corr] w)|].
    + done.
    + by eapply loaded_no_events.
    + done.
    + by rewrite Hw1.
    + rewrite Hw1. simpl. by rewrite fmap_app.
    + intros out w' [(E1 & E2 & E3 & E4 & Hconc) Hc']. split; [|done]. rewrite Hw1 in *.
      by split_and!.
Qed.

Lemma decide_case_run cmd c now corr w w' out :
  admissible cmd c w → decide_case nobody policy cmd now corr w = (w', out) →
  decide_post cmd c now corr w out w' ∧ calm w'.
Proof.
  intros Ha Hrun. destruct (does_decide_case cmd c now corr w Ha (calls w)) as (n & s' & r & E & HΦ & Hc).
  replace (ticked (calls w) w) with w in E by (by destruct w).
  assert (w' = ticked n s' ∧ out = r) as [-> ->] by (split; congruence).
  split; [|by destruct Hc]. unfold decide_post, concluded in *.
  destruct (is_enforced _); by destruct (Case.resolve _ _ _ _ _).
Qed.

(** C38. What deciding a case does, run alone on a well-formed command while no backend
    fails and identifiers are fresh, for every action, in the order the handler carries it
    out.  The decision joins the ledger with its event.  A dismissal touches no
    enforcement, penalty or restriction.  Any other action joins the enforcements at the
    subject's next version, puts one strike on the actor's penalty ledger, reaches the
    projection if it is actor-level, and its event follows.  Only then the case is
    resolved: where its state does not allow it the call reports that, and all the rest
    has happened. *)
Theorem decide_case_effects cmd c now corr w w' out :
  admissible cmd c w → decide_case nobody policy cmd now corr w = (w', out) →
  decide_post cmd c now corr w out w'.
Proof.
  intros Ha Hrun. by apply (decide_case_run _ _ _ _ _ _ _ Ha).
Qed.

(** ** A decision retried *)

(** The same call, [k] times. *)
Fixpoint attempts (k : nat) (cmd : DecideCaseCommand) (now : Z) (corr : Uuid) (w : World) :
    World * list (outcome DecideOutcome) :=
  match k with
  | O => (w, [])
  | S k => let '(w1, out) := decide_case nobody policy cmd now corr w in
           let '(w2, outs) := attempts k cmd now corr w1 in (w2, out :: outs)
  end.

Definition strike_of (cmd : DecideCaseCommand) (now : Z) : Strike.t := {|
  Strike.category := dc_category cmd;
  Strike.points := PenaltyPolicy.weight_for (dc_category cmd) (penalty policy);
  Strike.recorded_at := now;
  Strike.expires_at := now + PenaltyPolicy.decay_window (penalty policy) |}.

Lemma resolved_case_refuses id action now corr c :
  case_is_resolved (Case.status c) = true → Case.resolve id action now corr c = Err CaseAlreadyResolved.
Proof. intros Hr. unfold Case.resolve, Case.ensure_not_resolved. by rewrite Hr. Qed.

Lemma ledger_actor actor w : sound w → PenaltyLedger.actor_id (ledger_of actor w) = actor.
Proof.
  intros Hs. unfold ledger_of. destruct (penalty_ledgers w !! actor) as [r|] eqn:Hr; [|done].
  by apply (s_penalty _ Hs).
Qed.

(** One attempt on a resolved case. *)
Lemma attempt_refused cmd c now corr w w' out :
  admissible cmd c w → sound w → is_enforced (dc_action cmd) = true →
  is_actor_level (dc_action cmd) = false →
  case_is_resolved (Case.status c) = true → decide_case nobody policy cmd now corr w = (w', out) →
  admissible cmd c w' ∧ sound w' ∧ out = Err CaseAlreadyResolved ∧ cases w' = cases w ∧
  size (decisions w') = S (size (decisions w)) ∧
  size (enforcements w') = S (size (enforcements w)) ∧
  PenaltyLedger.strikes (ledger_of (actor_id (Case.subject c)) w')
  = PenaltyLedger.strikes (ledger_of (actor_id (Case.subject c)) w) ++ [strike_of cmd now].
Proof.
  intros Ha Hs Henf Hlevel Hres Hrun. destruct (decide_case_run _ _ _ _ _ _ _ Ha Hrun) as [Hpost Hcalm].
  unfold decide_post in Hpost. rewrite Henf in Hpost. destruct Hpost as (Hd & He & Hp & _ & Hrest).
  unfold concluded in Hrest. rewrite resolved_case_refuses in Hrest by done. destruct Hrest as (-> & Hcases & _).
  destruct Ha as [Hc Hf Hcase Hform _].
  assert (Hg : good w') by (
    pose proof (wp_decide_case nobody policy nobody_neighbours cmd now corr w
                  {| good_sound := Hs; good_fresh := Hf |}) as Hwp;
    unfold wp in Hwp; rewrite Hrun in Hwp; apply Hwp).
  destruct (Hf (draws w) ltac:(done)) as (Hud & _ & _).
  destruct (Hf (2 + draws w)%nat ltac:(lia)) as (_ & Hue & _).
  split_and!; [|apply Hg|done|done| | |].
  - split; [done|apply Hg|by rewrite Hcases|done|congruence].
  - rewrite Hd. by apply map_size_insert_None.
  - rewrite He. by apply map_size_insert_None.
  - unfold ledger_of at 1. rewrite Hp, ledger_actor by done. by rewrite lookup_insert_eq.
Qed.

(** A case that is resolved cannot be decided again, and every attempt says so.  Each
    attempt has by then recorded one more decision and one more active enforcement on the
    subject and put one more strike on its actor's ledger, which escalates. *)
Theorem retried_decision_piles_up cmd c now corr k w w' outs :
  admissible cmd c w → sound w → is_enforced (dc_action cmd) = true →
  is_actor_level (dc_action cmd) = false →
  case_is_resolved (Case.status c) = true → attempts k cmd now corr w = (w', outs) →
  outs = replicate k (Err CaseAlreadyResolved) ∧ cases w' = cases w ∧
  size (decisions w') = (k + size (decisions w))%nat ∧
  size (enforcements w') = (k + size (enforcements w))%nat ∧
  PenaltyLedger.strikes (ledger_of (actor_id (Case.subject c)) w')
  = PenaltyLedger.strikes (ledger_of (actor_id (Case.subject c)) w) ++ replicate k (strike_of cmd now).
Proof.
  revert w outs. induction k as [|k IH]; intros w outs Ha Hs Henf Hlevel Hres Hrun; simpl in Hrun.
  { simplify_eq. split_and!; [done..|]. by rewrite app_nil_r. }
  destruct (decide_case nobody policy cmd now corr w) as [w1 out] eqn:E1.
  destruct (attempts k cmd now corr w1) as [w2 outs1] eqn:E2. simplify_eq.
  destruct (attempt_refused _ _ _ _ _ _ _ Ha Hs Henf Hlevel Hres E1)
    as (Ha1 & Hs1 & -> & Hc1 & Hd1 & He1 & Hp1).
  destruct (IH _ _ Ha1 Hs1 Henf Hlevel Hres E2) as (-> & Hc2 & Hd2 & He2 & Hp2).
  split_and!; [done|congruence|lia|lia|]. rewrite Hp2, Hp1, <- app_assoc. done.
Qed.
End Decide.
