(* ===== verification/ModerationRules.v ===== *)
(** * Moderation: the screen, the projection and the escalation

    The screen allows content only after every hash has missed the corpus; the projection
    keeps one version per actor where the versions count per subject; the escalation
    recommends the highest tier that the strikes in force reach. *)

From Stdlib Require Import Sorting.Sorted.
From S2P Require Import Prelude AccountDomain.
From S2P Require AccountStore.
From S2P Require Import ModerationDomain ModerationStore ModerationHandlers ModerationEdge.
From S2P Require Import ModerationSteps ModerationRuns ModerationAlone ModerationProofs.
From S2P Require Import ModerationSystem ModerationSpecs.
Local Open Scope Z_scope.

Section Rules.
Context `{UuidText} `{UuidV5} `{UuidV7} `{AccountStore.PgTime} `{CorpusJson}.
Context (policy : ModerationPolicy).

(** ** The screen *)

(** The entry of a hash. *)
Definition entry (w : World) (h : ContentHash) : option string :=
  corpus w !! corpus_key (algorithm h) (hash_value h).

(** The first hash the corpus knows. *)
Fixpoint first_hit (w : World) (hashes : list ContentHash) : option string :=
  match hashes with
  | [] => None
  | h :: hs => match entry w h with Some raw => Some raw | None => first_hit w hs end
  end.

Lemma first_hit_none w hashes : first_hit w hashes = None ↔ ∀ h, h ∈ hashes → entry w h = None.
Proof.
  induction hashes as [|h hs IH]; simpl; [set_solver|].
  destruct (entry w h) eqn:E; [set_solver|]. rewrite IH. set_solver.
Qed.

Lemma corpus_screen_ok others hashes w w' o :
  (∀ i x, corpus (others i x) = corpus x) → corpus_screen others hashes w = (w', Ok o) →
  match first_hit w hashes with
  | None => o = None
  | Some raw => ∃ m, o = Some m ∧ parse_entry raw = Ok m
  end.
Proof.
  intros Ho. revert w. induction hashes as [|h hs IH]; intros w Hrun; simpl in *.
  { by injection Hrun as <- <-. }
  rewrite act_bind_run in Hrun. unfold redis_call, next, turn, modify in Hrun.
  rewrite act_bind_run in Hrun. simpl in Hrun.
  set (w1 := others (calls w) (w <| calls := S (calls w) |>)) in *.
  assert (Hc : corpus w1 = corpus w) by exact (Ho _ _).
  destruct (match redis_faults w1 with [] => Healthy | f :: _ => f end); [|done|done].
  rewrite act_bind_run in Hrun. unfold gets in Hrun. simpl in Hrun. rewrite Hc in Hrun.
  unfold entry. destruct (corpus w !! corpus_key (algorithm h) (hash_value h)) as [raw|].
  - rewrite act_bind_run in Hrun. unfold lift in Hrun.
    destruct (parse_entry raw) as [m|]; [|done]. injection Hrun as <- <-. by exists m.
  - set (w2 := w1 <| redis_faults := tail (redis_faults w1) |>) in *.
    specialize (IH w2 Hrun).
    assert (E : ∀ l, first_hit w2 l = first_hit w l).
    { intros l. induction l as [|x l IHl]; [done|]. simpl. unfold entry in *.
      change (corpus w2) with (corpus w1). by rewrite Hc, IHl. }
    by rewrite E in IH.
Qed.

Lemma screen_match_ok others cmd m now corr w w' out :
  screen_match others policy cmd m now corr w = (w', Ok out) →
  verdict out = Block ∧ matched_categories out = match_categories m.
Proof.
  intros Hrun. unfold screen_match in Hrun.
  repeat (apply act_bind_ok in Hrun as (? & ? & _ & Hrun)). by injection Hrun as <- <-.
Qed.

Lemma screen_ok others elapsed cmd now corr w w' out :
  (∀ i x, corpus (others i x) = corpus x) →
  screen others policy elapsed cmd now corr w = (w', Ok out) →
  elapsed w = None ∧
  match first_hit w (sc_hashes cmd) with
  | None => verdict out = Allow
  | Some raw => verdict out = Block ∧ ∃ m, parse_entry raw = Ok m ∧ matched_categories out = match_categories m
  end.
Proof.
  intros Ho Hrun. unfold screen in Hrun. rewrite act_bind_run in Hrun. unfold timed_screen in Hrun.
  destruct (elapsed w) as [n|]; [done|]. split; [done|].
  destruct (corpus_screen others (sc_hashes cmd) w) as [w1 [o|]] eqn:E; [|done].
  apply corpus_screen_ok in E; [|done].
  destruct (first_hit w (sc_hashes cmd)) as [raw|].
  - destruct E as (m & -> & Hm).
    destruct (screen_match_ok _ _ _ _ _ _ _ _ Hrun) as [? ?].
    split; [done|]. by exists m.
  - subst o. by injection Hrun as <- <-.
Qed.

(** A removal of this subject without end, in force: it is active, or an appeal has had its
    decision reversed since. *)
Definition removal_stands (s : SubjectRef) (id : option EnforcementId) (w : World) : Prop :=
  ∃ eid row, id = Some eid ∧ enforcements w !! eid = Some row ∧ enforcement_about s row ∧
    EnforcementRow.action row = "remove_content" ∧ EnforcementRow.expires_at row = None ∧
    (EnforcementRow.status row = "active" ∨
     EnforcementRow.status row = "reversed" ∧ reversed_by_decision w row ∧
       appealed w (EnforcementRow.decision_id row)).

Lemma removed_stands s id w : sound w → removed s id w → removal_stands s id w.
Proof.
  intros Hs (eid & row & -> & Hrow & Ha & Hact & Hend). exists eid, row. split_and!; [done..|].
  destruct (s_enforcement _ Hs _ _ Hrow) as (_ & _ & [Hon|[Hrev Hby]]); [by left|right].
  split_and!; [done|done|]. destruct Hby as (rid & r & Hr & Ho).
  destruct (s_decision _ Hs _ _ Hr) as (_ & _ & Hsound). by destruct (Hsound _ Ho) as (_ & ? & _).
Qed.

(** C21. The screen fails closed.  A verdict is given only within the time limit, and then
    content is allowed exactly when none of its hashes is in the corpus.  Otherwise the
    verdict is to block, with the categories of the entry of the first hash that is, and
    at that point the removal of the content, without end, is on the books and active,
    unless an appeal filed meanwhile has had its decision reversed.  So a failed lookup,
    an entry that does not parse or a limit that passes never lets content through. *)
Theorem screen_fails_closed others elapsed cmd now corr w w' out :
  (∀ i x, corpus (others i x) = corpus x) → neighbours others → sound w → fresh w →
  trim_is_empty (screen_policy_version policy) = false →
  screen others policy elapsed cmd now corr w = (w', Ok out) →
  elapsed w = None ∧
  (verdict out = Allow ↔ ∀ h, h ∈ sc_hashes cmd → entry w h = None) ∧
  (verdict out ≠ Allow → verdict out = Block ∧
     removal_stands (sc_subject cmd) (out_enforcement_id out) w' ∧
     ∃ raw m, first_hit w (sc_hashes cmd) = Some raw ∧ parse_entry raw = Ok m ∧
       matched_categories out = match_categories m).
Proof.
  intros Ho Hn Hs Hf Hpv Hrun. destruct (screen_ok _ _ _ _ _ _ _ _ Ho Hrun) as [Hel Hout].
  assert (Hwp := wp_screen others policy Hn elapsed cmd now corr w {| good_sound := Hs; good_fresh := Hf |} Hpv).
  unfold wp in Hwp. rewrite Hrun in Hwp. destruct Hwp as (_ & Hg & HΦ). specialize (HΦ _ eq_refl).
  split; [done|]. rewrite <- first_hit_none. destruct (first_hit w (sc_hashes cmd)) as [raw|].
  - destruct Hout as (Hb & m & Hm & Hcat). rewrite Hb in *. split; [done|]. intros _.
    split; [done|]. split; [|by exists raw, m].
    apply removed_stands; [apply Hg|by destruct HΦ].
  - rewrite Hout. by split.
Qed.

(** ** The projection of restrictions *)

(** The projection orders restrictions by a version that counts per subject, under a
    key that is the actor's.  A ban without end for one subject, at a version below that of
    a passing restriction for another, is therefore recorded, reported as done and never
    projected: once the other has passed nothing restricts the actor. *)
Theorem ban_below_another_subjects_version_lapses cmd c now corr w w' out v ends :
  admissible policy cmd c w → dc_action cmd = Ban →
  case_can_transition_to (Case.status c) Actioned = true → case_is_resolved (Case.status c) = false →
  restrictions w !! enforcement_key (actor_id (Case.subject c)) = Some (mk_restriction v (Some ends)) →
  clock w < ends → next_after (max_version (Case.subject c) (enforcements w)) < v →
  decide_case nobody policy cmd now corr w = (w', out) →
  (∃ o e row, out = Ok o ∧ out_enforcement o = Some e ∧
     enforcements w' !! Enforcement.id e = Some row ∧ EnforcementRow.action row = "ban" ∧
     EnforcementRow.status row = "active" ∧ EnforcementRow.expires_at row = None) ∧
  ∀ w1, restrictions w1 = restrictions w' → ends ≤ clock w1 →
    stored_version (enforcement_key (actor_id (Case.subject c))) w1 = None.
Proof.
  intros Ha Hban Hmove Hopen Hr Hclock Hv Hrun.
  destruct (decide_case_run _ _ _ _ _ _ _ _ Ha Hrun) as [[_ Hpost] _].
  rewrite Hban in Hpost. destruct Hpost as (He & _ & Hres & Hrest).
  unfold restricted, stored_version in Hres. rewrite Hr in Hres. simpl in Hres. rewrite Hban in Hres.
  rewrite (proj2 (Z.ltb_lt _ _) Hclock), (proj2 (Z.ltb_lt _ _) Hv) in Hres.
  split.
  - assert (∃ c', Case.resolve (now_v7 (draws w)) (dc_action cmd) now corr c = Ok c') as [c' Hc'].
    { unfold Case.resolve, Case.ensure_not_resolved, Case.transition_to.
      rewrite Hopen, Hban. simpl. rewrite Hmove. by eexists. }
    unfold concluded in Hrest. simpl in Hrest. rewrite Hc' in Hrest. destruct Hrest as (-> & _).
    eexists _, _, _. split_and!; [done|done| | | |].
    + rewrite He. apply lookup_insert_eq.
    + simpl. by rewrite Hban.
    + done.
    + simpl. by rewrite Hban.
  - intros w1 E Hends. unfold stored_version. rewrite E, Hres, Hr. simpl.
    by rewrite (proj2 (Z.ltb_ge _ _) Hends).
Qed.
End Rules.

(** ** The escalation *)

Definition below (x y : Z * ActionType) : Prop := x.1 ≤ y.1.

Lemma insert_tier_perm x l : PenaltyPolicy.insert_tier x l ≡ₚ x :: l.
Proof.
  induction l as [|y l IH]; simpl; [done|]. destruct (x.1 <=? y.1); [done|].
  rewrite IH. apply Permutation_swap.
Qed.
Lemma sort_tiers_perm l : PenaltyPolicy.sort_tiers l ≡ₚ l.
Proof. induction l as [|x l IH]; simpl; [done|]. by rewrite insert_tier_perm, IH. Qed.

Lemma insert_tier_sorted x l : StronglySorted below l → StronglySorted below (PenaltyPolicy.insert_tier x l).
Proof.
  induction 1 as [|y l Hs IH Hy]; simpl; [by repeat constructor|].
  destruct (x.1 <=? y.1) eqn:E.
  - apply Z.leb_le in E. constructor; [by constructor|]. constructor; [done|].
    rewrite list.Forall_forall in Hy |- *. intros z Hz%Hy. unfold below in *. lia.
  - apply Z.leb_gt in E. constructor; [done|]. rewrite insert_tier_perm. constructor; [|done].
    unfold below. lia.
Qed.
Lemma sort_tiers_sorted l : StronglySorted below (PenaltyPolicy.sort_tiers l).
Proof. induction l as [|x l IH]; simpl; [constructor|]. by apply insert_tier_sorted. Qed.

(** The last entry of a sorted list is its greatest. *)
Lemma last_greatest l x : StronglySorted below l → list.last l = Some x → x ∈ l ∧ ∀ y, y ∈ l → below y x.
Proof.
  induction 1 as [|y l Hs IH Hy]; [done|]. destruct l as [|z l].
  - intros [= ->]. split; [set_solver|]. intros y ->%list_elem_of_singleton. unfold below. lia.
  - intros Hl. destruct (IH Hl) as [Hin Hmax]. split; [set_solver|].
    intros u [->|Hu]%elem_of_cons; [|by apply Hmax]. rewrite list.Forall_forall in Hy. by apply Hy.
Qed.

Lemma filter_sorted (f : Z * ActionType → bool) l :
  StronglySorted below l → StronglySorted below (filter (λ x, f x = true) l).
Proof.
  induction 1 as [|y l Hs IH Hy]; [constructor|]. rewrite filter_cons. case_decide; [|done].
  constructor; [done|]. apply list.Forall_forall. intros x [_ Hx]%list_elem_of_filter.
  rewrite list.Forall_forall in Hy. by apply Hy.
Qed.

Lemma fold_points l acc :
  foldl u32_add (acc mod 2 ^ 32) l = (acc + foldr Z.add 0 l) mod 2 ^ 32.
Proof.
  revert acc. induction l as [|x l IH]; intros acc; simpl; [by rewrite Z.add_0_r|].
  unfold u32_add at 2. rewrite Zplus_mod_idemp_l, IH. f_equal. lia.
Qed.

Lemma points_sum l : foldl u32_add 0 l = foldr Z.add 0 l mod 2 ^ 32.
Proof. apply (fold_points l 0). Qed.

(** The points in force. *)
Definition points_in_force (now : Z) (l : PenaltyLedger.t) : Z :=
  foldr Z.add 0 (Strike.points <$> filter (λ s, now < Strike.expires_at s) (PenaltyLedger.strikes l)).

(** C39. Enforcement is graduated.  Under a policy as [PenaltyPolicy::new] builds it, from
    tiers in any order, the action recommended for an actor is that of the highest tier
    that the points of the strikes in force reach, and none when they reach no tier;
    strikes that have decayed do not count.  The sum is a 32-bit one: it wraps. *)
Theorem graduated_enforcement window weight ws tiers p l now :
  PenaltyPolicy.new window weight ws tiers = Ok p →
  let points := points_in_force now l mod 2 ^ 32 in
  let a := PenaltyLedger.recommended_action now p l in
  (a = NoAction ∧ ∀ t b, (t, b) ∈ tiers → points < t) ∨
  (∃ t, (t, a) ∈ tiers ∧ t ≤ points ∧ ∀ t' b, (t', b) ∈ tiers → t' ≤ points → t' ≤ t).
Proof.
  unfold PenaltyPolicy.new. intros Hp. destruct (window <=? 0); [done|].
  assert (Ht : PenaltyPolicy.escalation p = PenaltyPolicy.sort_tiers tiers).
  { destruct tiers; by simplify_eq. }
  unfold PenaltyLedger.recommended_action, PenaltyPolicy.recommended_action, PenaltyLedger.active_points.
  rewrite points_sum, Ht. simpl.
  assert (Hf : filter (λ s, Strike.is_active now s = true) (PenaltyLedger.strikes l)
               = filter (λ s, now < Strike.expires_at s) (PenaltyLedger.strikes l)).
  { apply list_filter_iff. intros s. apply Z.ltb_lt. }
  rewrite Hf. change (foldr Z.add 0 (Strike.points <$> filter (λ s, now < Strike.expires_at s) (PenaltyLedger.strikes l))) with (points_in_force now l).
  set (points := points_in_force now l mod 2 ^ 32).
  set (reached := filter _ _).
  assert (Hin : ∀ t b, (t, b) ∈ reached ↔ (t, b) ∈ tiers ∧ t ≤ points).
  { intros t b. unfold reached. rewrite list_elem_of_filter, sort_tiers_perm. simpl. rewrite Z.leb_le. tauto. }
  assert (Hs : StronglySorted below reached).
  { apply (filter_sorted (λ ta, ta.1 <=? points)), sort_tiers_sorted. }
  destruct (list.last reached) as [[t a]|] eqn:Hl.
  - right. apply last_greatest in Hl as [Hel Hmax]; [|done]. apply Hin in Hel as [Hel Hle].
    exists t. split_and!; [done..|]. intros t' b Hb Hb'. by apply (Hmax (t', b)), Hin.
  - left. apply last_None in Hl. split; [done|]. intros t b Hb.
    destruct (decide (points < t)); [done|]. exfalso.
    assert (Hel : (t, b) ∈ reached) by (apply Hin; split; [done|lia]). rewrite Hl in Hel. set_solver.
Qed.

(** ** Runs *)

Module RulesDemo.
Import ModerationSystem.Demo.

Definition hate_case : Case.t := {|
  Case.id := case_id; Case.subject := mk_subject Post "p" 9%N "feed"; Case.status := Open;
  Case.category := Hate; Case.queue := "default"; Case.priority := "normal"; Case.assignee := None;
  Case.signals := [{| Signal.source := "report"; Signal.category := Hate;
                      Signal.confidence := f64_half; Signal.observed_at := 1000000 |}];
  Case.opened_at := 1000000; Case.version := 1; Case.pending_events := [] |}.

Definition order (a : ActionType) : DecideCaseCommand := {|
  dc_case_id := case_id; dc_action := a; dc_category := Hate; dc_rationale := "hateful";
  dc_reviewer_id := "r"; dc_policy_version := "v1" |}.

Lemma standard_ttl a now :
  match expiry_for standard_policy a now with Some t => now < t | None => True end.
Proof.
  destruct a; simpl; try done; unfold restrict_actor_ttl, suspend_ttl, standard_policy, PenaltyPolicy.DAYS; lia.
Qed.

Lemma order_well_formed a c :
  forallb pg_text (case_texts (row_of_case c)) = true → well_formed standard_policy (order a) c.
Proof. intros Hc. split; [done|reflexivity|reflexivity|by vm_compute|apply standard_ttl]. Qed.

Lemma reported_admits a : admissible standard_policy (order a) hate_case reported.
Proof.
  split; [by split; vm_compute|apply reported_good|by vm_compute|
    apply order_well_formed; by vm_compute|by vm_compute].
Qed.

Lemma decide_case_effects_witness :
  (∃ w' out, decide_case nobody standard_policy (order Ban) 2000000 50%N reported = (w', out) ∧
     decide_post standard_policy (order Ban) hate_case 2000000 50%N reported out w' ∧
     is_Some (enforcements w' !! 4%N)) ∧
  ∃ w' out, decide_case nobody standard_policy (order NoAction) 2000000 50%N reported = (w', out) ∧
     enforcements w' = enforcements reported ∧ penalty_ledgers w' = penalty_ledgers reported.
Proof.
  split; eexists _, _; (split; [apply surjective_pairing|]).
  - split; [|vm_compute; by eexists].
    apply (decide_case_effects standard_policy (order Ban) hate_case 2000000 50%N reported);
      [by apply reported_admits|apply surjective_pairing].
  - destruct (decide_case_effects standard_policy (order NoAction) hate_case 2000000 50%N reported _ _
      (reported_admits NoAction) (surjective_pairing _)) as (_ & He & Hp & _). by split.
Defined.

Definition actioned_case : Case.t := hate_case <| Case.status := Actioned |> <| Case.version := 2 |>.

Definition retried := attempts standard_policy 3 (order Warn) 2500000 50%N decided.

Lemma retried_decision_piles_up_witness :
  retried.2 = replicate 3 (Err CaseAlreadyResolved) ∧ size (enforcements retried.1) = 4%nat ∧
  PenaltyLedger.recommended_action 2500000 PenaltyPolicy.standard (ledger_of 9%N retried.1) = Ban.
Proof.
  assert (Ha : admissible standard_policy (order Warn) actioned_case decided).
  { split; [by split; vm_compute|apply decided_good|by vm_compute| |by vm_compute].
    apply order_well_formed; by vm_compute. }
  assert (Hrun : attempts standard_policy 3 (order Warn) 2500000 50%N decided = (retried.1, retried.2)).
  { unfold retried. apply surjective_pairing. }
  destruct (retried_decision_piles_up standard_policy (order Warn) actioned_case 2500000 50%N 3 decided
              retried.1 retried.2 Ha (good_sound _ decided_good) eq_refl eq_refl eq_refl Hrun)
    as (Houts & _ & _ & He & _).
  split; [exact Houts|]. split; [rewrite He; by vm_compute|by vm_compute].
Defined.

(** A banned hash. *)
Definition corpus_world : World := empty <| corpus := {[corpus_key "md5" "x" := "ncii"]} |>.
Definition upload (value : string) : ScreenCommand := {|
  sc_subject := mk_subject Media "m" 9%N "upload";
  sc_hashes := [{| algorithm := "sha256"; hash_value := "y" |};
                {| algorithm := "md5"; hash_value := value |}];
  sc_text := None; sc_categories := [] |}.

Lemma corpus_world_good : good corpus_world.
Proof.
  split; [|by intros n _; split_and!; apply lookup_empty].
  split; simpl; intros; [by simplify_map_eq..|set_solver].
Qed.

Definition screened (value : string) :=
  screen nobody standard_policy untimed (upload value) 1000000 50%N corpus_world.
Definition out_of (r : outcome ScreenOutcome) : ScreenOutcome :=
  match r with
  | Ok out => out
  | Err _ => {| verdict := Review; matched_categories := []; out_reference := None;
                out_enforcement_id := None |}
  end.

Lemma screen_fails_closed_witness :
  verdict (out_of (screened "z").2) = Allow ∧ verdict (out_of (screened "x").2) = Block ∧
  removal_stands (mk_subject Media "m" 9%N "upload") (out_enforcement_id (out_of (screened "x").2))
    (screened "x").1.
Proof.
  split; [by vm_compute|]. assert (Hb : verdict (out_of (screened "x").2) = Block) by (by vm_compute).
  split; [exact Hb|].
  destruct (screen_fails_closed standard_policy nobody untimed (upload "x") 1000000 50%N corpus_world
              (screened "x").1 (out_of (screened "x").2)) as (_ & _ & Hblock).
  - done.
  - apply nobody_neighbours.
  - apply corpus_world_good.
  - apply corpus_world_good.
  - reflexivity.
  - by vm_compute.
  - apply Hblock. by rewrite Hb.
Defined.

(** The actor is restricted over another subject until 100. *)
Definition elsewhere : World :=
  reported <| restrictions := {[enforcement_key 9%N := mk_restriction 5 (Some 100)]} |>.

Lemma later t (w : World) :
  restrictions (w <| clock := t |>) = restrictions w ∧ clock (w <| clock := t |>) = t.
Proof. done. Qed.

Definition banned := decide_case nobody standard_policy (order Ban) 2000000 50%N elsewhere.

Lemma ban_below_another_subjects_version_lapses_witness :
  (∃ o e row, banned.2 = Ok o ∧ out_enforcement o = Some e ∧
     enforcements banned.1 !! Enforcement.id e = Some row ∧ EnforcementRow.action row = "ban" ∧
     EnforcementRow.status row = "active" ∧ EnforcementRow.expires_at row = None) ∧
  stored_version (enforcement_key 9%N) (banned.1 <| clock := 200 |>) = None.
Proof.
  assert (Ha : admissible standard_policy (order Ban) hate_case elsewhere).
  { destruct (reported_admits Ban) as [[] ? ? ? ?]. by repeat split. }
  assert (Hrun : decide_case nobody standard_policy (order Ban) 2000000 50%N elsewhere = (banned.1, banned.2)).
  { unfold banned. apply surjective_pairing. }
  destruct (ban_below_another_subjects_version_lapses standard_policy (order Ban) hate_case 2000000
              50%N elsewhere banned.1 banned.2 5 100 Ha eq_refl eq_refl eq_refl) as [Hban Hlapse].
  - by vm_compute.
  - by vm_compute.
  - by vm_compute.
  - exact Hrun.
  - split; [exact Hban|]. destruct (later 200 banned.1) as [E1 E2].
    apply Hlapse; [exact E1|]. rewrite E2. clear. lia.
Defined.

Lemma graduated_enforcement_witness :
  let l := {| PenaltyLedger.actor_id := 9%N; PenaltyLedger.strikes :=
      [strike_of standard_policy (order Warn) 0; strike_of standard_policy (order Warn) 1];
    PenaltyLedger.version := 2 |} in
  PenaltyLedger.recommended_action (90 * PenaltyPolicy.DAYS) PenaltyPolicy.standard l = RestrictActor ∧
  ∃ t, (t, RestrictActor) ∈ PenaltyPolicy.standard_tiers ∧ t ≤ 3.
Proof.
  intros l. split; [by vm_compute|].
  destruct (graduated_enforcement (90 * PenaltyPolicy.DAYS) 1 PenaltyPolicy.standard_weights
    PenaltyPolicy.standard_tiers PenaltyPolicy.standard l (90 * PenaltyPolicy.DAYS) eq_refl)
    as [[Ha _]|(t & Ht & Hle & _)].
  - by vm_compute in Ha.
  - exists t. split; [exact Ht|]. by vm_compute in Hle |- *.
Defined.
End RulesDemo.
