(* ===== verification/ModerationAudit.v ===== *)
(** * Moderation and audit: what audit makes of moderation's events

    The events moderation publishes, as the audit worker's decoder reads them from their
    JSON, and what its mapping does with them: a decision is recorded under its own type
    with its reasons sealed, unless its author is blank. *)

From S2P Require Import Prelude AccountDomain AuditChain AuditLedger AuditDecode Consumer.
From S2P Require Import AuditFeeds.
From S2P Require AuditErasure ModerationDomain.
Local Open Scope Z_scope.
Module M := ModerationDomain.

Section Wire.
Context `{UuidText} `{FeedText}.

Definition subject_wire (s : M.SubjectRef) : SubjectRefWire.t := {|
  SubjectRefWire.entity_type := M.entity_type_str (M.entity_type s);
  SubjectRefWire.entity_id := M.entity_id s;
  SubjectRefWire.actor_id := hyphenated (M.actor_id s);
  SubjectRefWire.surface := M.surface s |}.

Definition author_wire (a : M.DecisionAuthor) : DecisionAuthorWire :=
  match a with M.Reviewer id => Reviewer id | M.Rule id => Rule id end.

(** The event through serde and back: [#[serde(tag = "type")]], transparent identifiers,
    snake-case enumerations. *)
Definition moderation_wire (e : M.DomainEvent) : ModerationEventWire.t :=
  match e with
  | M.DecisionRecorded id s author action cat pv text rev at_ corr =>
      ModerationEventWire.DecisionRecorded {|
        DecisionRecordedWire.decision_id := hyphenated id;
        DecisionRecordedWire.subject := subject_wire s;
        DecisionRecordedWire.author := author_wire author;
        DecisionRecordedWire.action := M.action_str action;
        DecisionRecordedWire.category := M.category_str cat;
        DecisionRecordedWire.policy_version := pv; DecisionRecordedWire.rationale := text;
        DecisionRecordedWire.reverses := hyphenated <$> rev;
        DecisionRecordedWire.occurred_at := at_;
        DecisionRecordedWire.correlation_id := hyphenated corr |}
  | M.EnforcementApplied id s _ action version _ expires at_ corr =>
      ModerationEventWire.EnforcementApplied {|
        EnforcementAppliedWire.enforcement_id := hyphenated id;
        EnforcementAppliedWire.subject := subject_wire s;
        EnforcementAppliedWire.action := M.action_str action;
        EnforcementAppliedWire.version := version;
        EnforcementAppliedWire.expires_at := expires;
        EnforcementAppliedWire.occurred_at := at_;
        EnforcementAppliedWire.correlation_id := hyphenated corr |}
  | _ => ModerationEventWire.Other
  end.

(** What audit records of the event, with [sealed] for its reasons. *)
Definition audited (e : M.DomainEvent) (sealed : PiiEnvelope) : option (result AuditError AuditEvent) :=
  match moderation_wire e with
  | ModerationEventWire.DecisionRecorded w => Some (map_decision_recorded w sealed)
  | ModerationEventWire.EnforcementApplied w => Some (map_enforcement_applied w)
  | ModerationEventWire.Other => None
  end.

Context (Hid : ∀ u, trim_is_empty (hyphenated u) = false).

Lemma feed_event_ok id cat subject ty author act res out basis src corr at_ env attrs :
  trim_is_empty id = false → trim_is_empty subject = false → trim_is_empty author = false →
  basis_is_specified basis = true → trim_is_empty act = false →
  feed_event id cat subject ty author "" act res out basis src corr at_ env attrs
  = Ok {| AuditChain.event_id := id; AuditChain.category := cat; AuditChain.subject := Some subject;
          tenant := None;
          actor := {| actor_type := ty; actor_pseudonym := author; session_ref := "" |};
          AuditChain.action := act; resource := res; AuditChain.outcome := out; lawful_basis := basis;
          source_service := src; correlation_id := corr; occurred_at := at_;
          pii := env; attributes := attrs |}.
Proof.
  intros E1 E2 E3 E4 E5. unfold feed_event, string_id. rewrite E1, E2, E3. simpl.
  unfold try_new. simpl. rewrite E4, E5. by rewrite andb_false_r.
Qed.

(** What audit makes of a decision.  If the author's name is not blank, the event maps,
    to an event under the type of the decision's action, about its actor and its entity, by
    its author, at its instant, permitted exactly when it enforces nothing, with the sealed
    reasons and the decision, the policy version and what it reverses among its attributes.
    If the name is blank, as moderation accepts a reviewer's to be, the event is rejected
    for good and goes to the dead letters. *)
Theorem decisions_are_audited id s author action cat pv text rev at_ corr sealed :
  let e := M.DecisionRecorded id s author action cat pv text rev at_ corr in
  (trim_is_empty (M.author_id author) = false →
   ∃ a, audited e sealed = Some (Ok a) ∧
     AuditChain.action a = "moderation.decide." +:+ M.action_str action ∧
     AuditChain.category a = Moderation ∧ subject a = Some (hyphenated (M.actor_id s)) ∧
     resource_id (resource a) = M.entity_id s ∧
     actor_pseudonym (actor a) = M.author_id author ∧
     (actor_type (actor a) = SystemActor ↔ M.author_is_automated author = true) ∧
     (AuditChain.outcome a = Permitted ↔ action = M.NoAction) ∧
     occurred_at a = at_ ∧ pii a = Some sealed ∧
     ("decision_id", hyphenated id) ∈ attributes a ∧ ("policy_version", pv) ∈ attributes a ∧
     (∀ o, rev = Some o → ("reverses", hyphenated o) ∈ attributes a)) ∧
  (trim_is_empty (M.author_id author) = true →
   ∃ err text, audited e sealed = Some (Err err) ∧ from_result (Err err) = Reject text).
Proof.
  split; intros Hauthor.
  - destruct author as [who|rule]; (eexists; split; [unfold audited; simpl; f_equal;
      apply feed_event_ok; [apply Hid|apply Hid|exact Hauthor|done|reflexivity]|]);
      simpl; split_and!; try done; try (by destruct action); try (by split; [|done]; destruct action);
      destruct rev as [o'|]; simpl; try set_solver; intros o; intros [= <-]; set_solver.
  - unfold audited. destruct author as [who|rule]; simpl in *; unfold map_decision_recorded, feed_event, string_id, derive_id;
      simpl; rewrite !Hid; simpl; rewrite Hauthor; simpl;
      (eexists _, _; split; reflexivity).
Qed.
End Wire.

(** ** An instance *)

Import AuditErasure.Demo.

Definition ban (author : string) : M.DomainEvent :=
  M.DecisionRecorded 3%N (M.mk_subject M.Post "p" 9%N "feed") (M.Reviewer author) M.Ban M.Hate "v1"
    "hateful" (Some 2%N) 5 7%N.
Definition no_envelope : PiiEnvelope := {|
  subject_key_ref := "dek:u9"; ciphertext := []; nonce := []; algorithm := "" |}.

Lemma decisions_are_audited_witness :
  (∃ a, audited (ban "r") no_envelope = Some (Ok a) ∧ ("reverses", "u2") ∈ attributes a) ∧
  (∃ err, audited (ban " ") no_envelope = Some (Err err)).
Proof.
  assert (Hid := AuditErasure.Demo.uuid_not_blank). split.
  - destruct (decisions_are_audited Hid 3%N (M.mk_subject M.Post "p" 9%N "feed") (M.Reviewer "r") M.Ban
      M.Hate "v1" "hateful" (Some 2%N) 5 7%N no_envelope) as [Hok _].
    destruct (Hok ltac:(reflexivity)) as (a & Ha & _ & _ & _ & _ & _ & _ & _ & _ & _ & _ & _ & Hrev).
    exists a. split; [exact Ha|exact (Hrev 2%N eq_refl)].
  - destruct (decisions_are_audited Hid 3%N (M.mk_subject M.Post "p" 9%N "feed") (M.Reviewer " ") M.Ban
      M.Hate "v1" "hateful" (Some 2%N) 5 7%N no_envelope) as [_ Hbad].
    destruct (Hbad ltac:(reflexivity)) as (err & _ & Herr & _). exists err. exact Herr.
Defined.
