(* ===== verification/Prog.v ===== *)
(** * Programs that wait for replies

    An async handler as data: [Ask c k] sends the call [c] and waits, [k] is the rest of
    the handler on the reply; [Race] is a choice the scheduler makes, which [join] uses for
    the branches of [tokio::join!].  A handler never sees the stores, only replies, so it
    can be run on its own ([alone]), against any replies at all ([traces]), or in a pool of
    tasks whose calls interleave ([run_moves]).  [rg] is the logic of such pools: what a
    program achieves while others take the steps it relies on, by steps it guarantees. *)

From S2P Require Import Prelude.

Declare Scope prog_scope.
Delimit Scope prog_scope with prog.

(** ** Programs *)

Section Programs.
Context {C : Type} {reply : C → Type}.

Inductive prog (A : Type) : Type :=
  | Ret (a : A)
  | Ask (c : C) (k : reply c → prog A)
  | Race (k : bool → prog A).
#[global] Arguments Ret {A} a.
#[global] Arguments Ask {A} c k.
#[global] Arguments Race {A} k.

Fixpoint prog_bind {A B} (f : A → prog B) (p : prog A) : prog B :=
  match p with
  | Ret a => f a
  | Ask c k => Ask c (λ r, prog_bind f (k r))
  | Race k => Race (λ b, prog_bind f (k b))
  end.

#[global] Instance prog_ret : MRet prog := @Ret.
#[global] Instance prog_mbind : MBind prog := @prog_bind.
#[global] Instance prog_fmap : FMap prog := λ A B f, prog_bind (λ a, Ret (f a)).

Definition ask (c : C) : prog (reply c) := Ask c Ret.

(** [e?]: an error ends the handler. *)
Definition attempt {E A B} (p : prog (result E A)) (f : A → prog (result E B)) :
    prog (result E B) :=
  prog_bind (λ r, match r with Ok a => f a | Err e => Ret (Err e) end) p.

(** [tokio::join!]: both branches wait at once and either reply may come first. *)
Fixpoint join {A B} (p : prog A) : prog B → prog (A * B) :=
  fix go (q : prog B) : prog (A * B) :=
    match p, q with
    | Ret a, _ => prog_bind (λ b, Ret (a, b)) q
    | _, Ret b => prog_bind (λ a, Ret (a, b)) p
    | Race k, _ => Race (λ x, join (k x) q)
    | _, Race l => Race (λ x, go (l x))
    | Ask c k, Ask d l =>
        Race (λ first, if first then Ask c (λ r, join (k r) q) else Ask d (λ r, go (l r)))
    end.

(** ** Every call a program can make, whatever it is told *)

Fixpoint all_calls {A} (P : C → Prop) (p : prog A) : Prop :=
  match p with
  | Ret _ => True
  | Ask c k => P c ∧ ∀ r, all_calls P (k r)
  | Race k => ∀ b, all_calls P (k b)
  end.

Lemma all_calls_bind {A B} P (f : A → prog B) (p : prog A) :
  all_calls P p → (∀ a, all_calls P (f a)) → all_calls P (prog_bind f p).
Proof. induction p as [a|c k IH|k IH]; simpl; naive_solver. Qed.

Lemma all_calls_join {A B} P (p : prog A) (q : prog B) :
  all_calls P p → all_calls P q → all_calls P (join p q).
Proof.
  revert q. induction p as [a|c k IHp|k IHp]; intros q Hp Hq.
  - destruct q; apply all_calls_bind; done.
  - induction q as [b|d l IHq|l IHq].
    + by apply all_calls_bind.
    + destruct Hp as [Hc Hk], Hq as [Hd Hl]. intros []; (split; [done|]); intros r.
      * by apply IHp.
      * by apply (IHq r).
    + intros x. by apply (IHq x).
  - induction q as [b|d l IHq|l IHq].
    + by apply all_calls_bind.
    + intros x. by apply IHp.
    + intros x. by apply IHp.
Qed.

Lemma all_calls_weaken {A} (P Q : C → Prop) (p : prog A) :
  (∀ c, P c → Q c) → all_calls P p → all_calls Q p.
Proof. intros HPQ. induction p; simpl; naive_solver. Qed.

(** Every value a program can return. *)
Fixpoint all_rets {A} (P : A → Prop) (p : prog A) : Prop :=
  match p with
  | Ret a => P a
  | Ask c k => ∀ r, all_rets P (k r)
  | Race k => ∀ b, all_rets P (k b)
  end.

Lemma all_rets_bind {A B} P (f : A → prog B) (p : prog A) :
  (∀ a, all_rets P (f a)) → all_rets P (prog_bind f p).
Proof. intros Hf. induction p as [a|c k IH|k IH]; simpl; auto. Qed.

Lemma all_rets_any {A} (P : A → Prop) (p : prog A) : (∀ a, P a) → all_rets P p.
Proof. intros HP. induction p; simpl; auto. Qed.

Lemma all_rets_then {A B} (P : B → Prop) (Q : A → Prop) (f : A → prog B) (p : prog A) :
  all_rets Q p → (∀ a, Q a → all_rets P (f a)) → all_rets P (prog_bind f p).
Proof. intros Hp Hf. induction p as [a|c k IH|k IH]; simpl in *; auto. Qed.

(** ** The exchanges of a program, whatever its backends reply *)

Abbreviation exchange := {c : C & reply c}.

Fixpoint traces {A} (p : prog A) (tr : list exchange) (a : A) : Prop :=
  match p with
  | Ret x => tr = [] ∧ a = x
  | Ask c k => ∃ r tr', tr = existT c r :: tr' ∧ traces (k r) tr' a
  | Race k => ∃ b, traces (k b) tr a
  end.

Lemma traces_bind {A B} (f : A → prog B) (p : prog A) tr b :
  traces (prog_bind f p) tr b →
  ∃ tr1 a tr2, tr = tr1 ++ tr2 ∧ traces p tr1 a ∧ traces (f a) tr2 b.
Proof.
  revert tr. induction p as [a|c k IH|k IH]; intros tr Ht; simpl in *.
  - by exists [], a, tr.
  - destruct Ht as (r & tr' & -> & Ht). destruct (IH r tr' Ht) as (tr1 & a & tr2 & -> & ? & ?).
    exists (existT c r :: tr1), a, tr2. split_and!; eauto.
  - destruct Ht as [x Ht]. destruct (IH x tr Ht) as (tr1 & a & tr2 & -> & ? & ?).
    exists tr1, a, tr2. eauto.
Qed.

Lemma traces_attempt {E A B} (f : A → prog (result E B)) (p : prog (result E A)) tr r :
  traces (attempt p f) tr r →
  (∃ tr1 a tr2, tr = tr1 ++ tr2 ∧ traces p tr1 (Ok a) ∧ traces (f a) tr2 r) ∨
  (∃ e, traces p tr (Err e) ∧ r = Err e).
Proof.
  intros (tr1 & [a|e] & tr2 & -> & Hp & Hf)%traces_bind; [left; by eauto 10|].
  right. destruct Hf as [-> ->]. exists e. by rewrite app_nil_r.
Qed.

Lemma traces_calls {A} P (p : prog A) tr a :
  all_calls P p → traces p tr a → Forall (λ x : exchange, P (projT1 x)) tr.
Proof.
  revert tr. induction p as [x|c k IH|k IH]; intros tr Hp Ht; simpl in *.
  - destruct Ht as [-> _]. constructor.
  - destruct Ht as (r & tr' & -> & Ht). destruct Hp as [Hc Hk]. constructor; [done|eauto].
  - destruct Ht as [b Ht]. eauto.
Qed.

Lemma traces_rets {A} P (p : prog A) tr a : all_rets P p → traces p tr a → P a.
Proof.
  revert tr. induction p as [x|c k IH|k IH]; intros tr Hp Ht; simpl in *.
  - by destruct Ht as [_ ->].
  - destruct Ht as (r & tr' & _ & Ht). eauto.
  - destruct Ht as [b Ht]. eauto.
Qed.
End Programs.

Arguments prog C reply A : clear implicits.

Notation "'let*' x := m 'in' k" := (prog_bind (λ x, k) m)
  (at level 10, x binder, m at level 100, k at level 200) : prog_scope.
Notation "'let?' x := m 'in' k" := (attempt m (λ x, k))
  (at level 10, x binder, m at level 100, k at level 200) : prog_scope.

(** ** A backend and a pool of tasks *)

Section Pool.
Context {C : Type} {reply : C → Type} {W F X A : Type}.
(** How a call is answered under a fault, and what happens to the stores by itself. *)
Context (answer : ∀ c, F → W → W * reply c) (nature : X → W → W).

Inductive move :=
  | Go (i : nat) (f : F)
  | Pick (i : nat) (b : bool)
  | Nature (x : X).

Abbreviation config := (list (prog C reply A) * W)%type.

Definition do_move (cfg : config) (m : move) : config :=
  let '(tasks, w) := cfg in
  match m with
  | Go i f =>
      match tasks !! i with
      | Some (Ask c k) => let '(w', r) := answer c f w in (<[i := k r]> tasks, w')
      | _ => cfg
      end
  | Pick i b =>
      match tasks !! i with Some (Race k) => (<[i := k b]> tasks, w) | _ => cfg end
  | Nature x => (tasks, nature x w)
  end.

Definition run_moves (cfg : config) (ms : list move) : config := foldl do_move cfg ms.

(** A condition on the faults that each task meets. *)
Definition lawful (allowed : nat → C → F → Prop) (cfg : config) (m : move) : Prop :=
  match m with
  | Go i f => match cfg.1 !! i with Some (Ask c _) => allowed i c f | _ => True end
  | _ => True
  end.

Fixpoint lawful_run (allowed : nat → C → F → Prop) (cfg : config) (ms : list move) : Prop :=
  match ms with
  | [] => True
  | m :: ms => lawful allowed cfg m ∧ lawful_run allowed (do_move cfg m) ms
  end.

Lemma run_moves_length cfg ms : length (run_moves cfg ms).1 = length cfg.1.
Proof.
  revert cfg. induction ms as [|m ms IH]; intros [ts w]; [done|].
  trans (length (do_move (ts, w) m).1); [apply IH|].
  destruct m as [i f|i b|x]; simpl; [| |done]; destruct (ts !! i) as [[a|c k|k]|]; try done.
  - destruct (answer c f w) as [w' r]. apply length_insert.
  - apply length_insert.
Qed.

Lemma run_moves_rets (P : A → Prop) cfg ms :
  Forall (all_rets P) cfg.1 → Forall (all_rets P) (run_moves cfg ms).1.
Proof.
  revert cfg. induction ms as [|m ms IH]; intros [ts w] Ht; [done|].
  apply IH. destruct m as [i f|i b|x]; simpl; [| |done];
    destruct (ts !! i) as [[a|c k|k]|] eqn:Hi; try done;
    pose proof (Forall_lookup_1 _ _ _ _ Ht Hi) as Hp; simpl in Hp.
  - destruct (answer c f w) as [w' r]. by apply Forall_insert.
  - by apply Forall_insert.
Qed.

(** A task that is given its turns returns, whatever the others left behind. *)
Lemma task_returns ts w i (p : prog C reply A) (f : F) :
  ts !! i = Some p →
  ∃ ms a w', run_moves (ts, w) ms = (<[i := Ret a]> ts, w').
Proof.
  revert ts w. induction p as [a|c k IH|k IH]; intros ts w Hi.
  - exists [], a, w. simpl. by rewrite list_insert_id.
  - destruct (answer c f w) as [w1 r] eqn:E.
    destruct (IH r (<[i := k r]> ts) w1) as (ms & a & w' & Hms).
    { apply list_lookup_insert_eq. by eapply lookup_lt_Some. }
    exists (Go i f :: ms), a, w'. simpl. rewrite Hi, E, Hms.
    by rewrite list_insert_insert_eq.
  - destruct (IH true (<[i := k true]> ts) w) as (ms & a & w' & Hms).
    { apply list_lookup_insert_eq. by eapply lookup_lt_Some. }
    exists (Pick i true :: ms), a, w'. simpl. rewrite Hi, Hms.
    by rewrite list_insert_insert_eq.
Qed.

(** What every call and every natural step keeps holds in any run. *)
Lemma run_moves_keeps (I : W → Prop) (P : C → Prop) cfg ms :
  (∀ c f w, P c → I w → I (answer c f w).1) → (∀ x w, I w → I (nature x w)) →
  Forall (all_calls P) cfg.1 → I cfg.2 →
  Forall (all_calls P) (run_moves cfg ms).1 ∧ I (run_moves cfg ms).2.
Proof.
  intros Hc Hn. revert cfg. induction ms as [|m ms IH]; intros [ts w] Ht Hw; [done|].
  apply IH; destruct m as [i f|i b|x]; simpl in *; auto;
    destruct (ts !! i) as [[a|c k|k]|] eqn:Hi; simpl; try done;
    pose proof (Forall_lookup_1 _ _ _ _ Ht Hi) as Hp; simpl in Hp.
  - destruct Hp as [Hpc Hk]. specialize (Hc c f w Hpc Hw).
    destruct (answer c f w) as [w' r]. by apply Forall_insert.
  - apply Forall_insert; auto.
  - destruct Hp as [Hpc Hk]. specialize (Hc c f w Hpc Hw).
    by destruct (answer c f w) as [w' r].
Qed.
End Pool.
Arguments move : clear implicits.

(** A task run on its own, its calls answered under the fault [f]; the first branch of a
    race goes first. *)
Fixpoint alone {C reply W F A} (answer : ∀ c : C, F → W → W * reply c) (f : F)
    (p : prog C reply A) (w : W) : W * A :=
  match p with
  | Ret a => (w, a)
  | Ask c k => let '(w', r) := answer c f w in alone answer f (k r) w'
  | Race k => alone answer f (k true) w
  end.

Lemma alone_bind {C reply W F A B} (answer : ∀ c : C, F → W → W * reply c) f
    (k : A → prog C reply B) p w :
  alone answer f (prog_bind k p) w =
    let '(w', a) := alone answer f p w in alone answer f (k a) w'.
Proof.
  revert w. induction p as [a|c k' IH|k' IH]; intros w; simpl; [done| |apply IH].
  destruct (answer c f w). apply IH.
Qed.

(** Its exchanges. *)
Fixpoint recorded {C reply W F A} (answer : ∀ c : C, F → W → W * reply c) (f : F)
    (p : prog C reply A) (w : W) : list {c : C & reply c} :=
  match p with
  | Ret _ => []
  | Ask c k => let '(w', r) := answer c f w in existT c r :: recorded answer f (k r) w'
  | Race k => recorded answer f (k true) w
  end.

Lemma recorded_traces {C reply W F A} (answer : ∀ c : C, F → W → W * reply c) f
    (p : prog C reply A) w : traces p (recorded answer f p w) (alone answer f p w).2.
Proof.
  revert w. induction p as [a|c k IH|k IH]; intros w; simpl; [done| |by exists true].
  destruct (answer c f w) as [w' r]. by exists r, (recorded answer f (k r) w').
Qed.

Lemma alone_traces {C reply W F A} (answer : ∀ c : C, F → W → W * reply c) f
    (p : prog C reply A) w : ∃ tr, traces p tr (alone answer f p w).2.
Proof. eexists. apply recorded_traces. Qed.

Lemma alone_attempt {C reply W F E A B} (answer : ∀ c : C, F → W → W * reply c) f
    (k : A → prog C reply (result E B)) p w :
  alone answer f (attempt p k) w =
    match alone answer f p w with
    | (w', Ok a) => alone answer f (k a) w'
    | (w', Err e) => (w', Err e)
    end.
Proof. unfold attempt. rewrite alone_bind. by destruct (alone answer f p w) as [w' []]. Qed.

(** What every call of a task run alone respects, the task does. *)
Lemma alone_respects {C reply W F A} (answer : ∀ c : C, F → W → W * reply c) (T : W → W → Prop)
    `{!Reflexive T, !Transitive T} f (p : prog C reply A) w :
  all_calls (λ c, ∀ w, T w (answer c f w).1) p → T w (alone answer f p w).1.
Proof.
  revert w. induction p as [a|c k IH|k IH]; intros w Hp; simpl in *; [done| |by apply IH].
  destruct Hp as [Hc Hk]. specialize (Hc w). destruct (answer c f w) as [w' r].
  trans w'; [done|]. by apply IH.
Qed.

Lemma alone_fmap {C reply W F A B} (answer : ∀ c : C, F → W → W * reply c) f (g : A → B)
    (p : prog C reply A) w :
  alone answer f (g <$> p) w = let '(w', a) := alone answer f p w in (w', g a).
Proof. apply (alone_bind answer f (λ a, Ret (g a))). Qed.

Lemma alone_join {C reply W F A B} (answer : ∀ c : C, F → W → W * reply c) f
    (p : prog C reply A) (q : prog C reply B) w :
  alone answer f (join p q) w =
    let '(w1, a) := alone answer f p w in let '(w2, b) := alone answer f q w1 in (w2, (a, b)).
Proof.
  assert (Hl : ∀ (a : A) (q : prog C reply B) w,
    alone answer f (prog_bind (λ b, Ret (a, b)) q) w =
    let '(w2, b) := alone answer f q w in (w2, (a, b))) 
    by (intros a q' w'; exact (alone_bind answer f (λ b, Ret (a, b)) q' w')).
  revert q w. induction p as [a|c k IH|k IH]; intros q w.
  - simpl. rewrite <-Hl. by destruct q.
  - induction q as [b|d l IHq|l IHq]; simpl.
    + destruct (answer c f w) as [w' r]. exact (alone_bind answer f (λ a, Ret (a, b)) (k r) w').
    + destruct (answer c f w) as [w' r]. apply IH.
    + apply IHq.
  - destruct q as [b|d l|l]; simpl;
      [exact (alone_bind answer f (λ a, Ret (a, b)) (k true) w)|apply (IH true (Ask d l))|apply (IH true (Race l))].
Qed.

(** ** Rely and guarantee *)

Section RelyGuarantee.
Context {C : Type} {reply : C → Type} {W F : Type}.
Context (answer : ∀ c, F → W → W * reply c) (allowed : C → F → Prop).

Fixpoint rg {A} (R G : W → W → Prop) (p : prog C reply A) (Φ : A → W → Prop) (w : W) : Prop :=
  ∀ w1, R w w1 →
    match p with
    | Ret a => Φ a w1
    | Ask c k => ∀ f, allowed c f →
        G w1 (answer c f w1).1 ∧ rg R G (k (answer c f w1).2) Φ (answer c f w1).1
    | Race k => ∀ b, rg R G (k b) Φ w1
    end.

Lemma rg_stable {A} R G (p : prog C reply A) Φ w w' :
  Transitive R → R w w' → rg R G p Φ w → rg R G p Φ w'.
Proof. intros HR Hw Hp. destruct p; intros w1 Hw1; apply Hp; by trans w'. Qed.

Lemma rg_weaken {A} (R R' G G' : W → W → Prop) (p : prog C reply A) (Φ Ψ : A → W → Prop) w :
  (∀ x y, R' x y → R x y) → (∀ x y, G x y → G' x y) → (∀ a x, Φ a x → Ψ a x) →
  rg R G p Φ w → rg R' G' p Ψ w.
Proof.
  intros HR HG HΦ. revert w. induction p as [a|c k IH|k IH]; intros w Hp w1 Hw1.
  - by apply HΦ, Hp, HR.
  - intros f Hf. destruct (Hp w1 (HR _ _ Hw1) f Hf) as [? ?]. split; [by apply HG|by apply IH].
  - intros b. by apply IH, Hp, HR.
Qed.

Lemma rg_bind {A B} R G (f : A → prog C reply B) (p : prog C reply A) Φ w :
  Reflexive R → rg R G p (λ a, rg R G (f a) Φ) w → rg R G (prog_bind f p) Φ w.
Proof.
  intros HR. revert w. induction p as [a|c k IH|k IH]; intros w Hp.
  - simpl in *. destruct (f a) as [b|c k|k]; intros w1 Hw1; apply (Hp w1 Hw1 w1); done.
  - intros w1 Hw1 x Hx. destruct (Hp w1 Hw1 x Hx). auto.
  - intros w1 Hw1 b. apply IH, (Hp w1 Hw1 b).
Qed.

Lemma rg_ask {B} R G (c : C) (k : reply c → prog C reply B) Φ w :
  (∀ w1 f, R w w1 → allowed c f →
    G w1 (answer c f w1).1 ∧ rg R G (k (answer c f w1).2) Φ (answer c f w1).1) →
  rg R G (prog_bind k (ask c)) Φ w.
Proof. intros Hk w1 Hw1 f Hf. by apply Hk. Qed.

Lemma rg_ret {A} R G (a : A) (Φ : A → W → Prop) w :
  (∀ w1, R w w1 → Φ a w1) → rg R G (Ret a) Φ w.
Proof. done. Qed.

(** Calls that are always answered by steps of [G] and change nothing that matters. *)
Lemma rg_quiet {A} R G (p : prog C reply A) w :
  all_calls (λ c, ∀ f x, allowed c f → G x (answer c f x).1) p →
  rg R G p (λ _ _, True) w.
Proof.
  revert w. induction p as [a|c k IH|k IH]; intros w Hp w1 Hw1; [done| |].
  - intros f Hf. destruct Hp as [Hc Hk]. auto.
  - intros b. auto.
Qed.

(** A program whose calls keep an assertion that survives its environment. *)
Lemma rg_keep {A} R G (p : prog C reply A) (I : W → Prop) (P : A → Prop) w :
  (∀ x y, R x y → I x → I y) →
  all_calls (λ c, ∀ f x, allowed c f → I x → G x (answer c f x).1 ∧ I (answer c f x).1) p →
  all_rets P p → I w → rg R G p (λ a w', P a ∧ I w') w.
Proof.
  intros HR. revert w. induction p as [a|c k IH|k IH]; intros w Hp Ha Hw w1 Hw1.
  - split; [done|by eapply HR].
  - intros f Hf. destruct Hp as [Hc Hk].
    destruct (Hc f w1 Hf (HR _ _ Hw1 Hw)) as [Hg Hi]. split; [done|]. by apply IH.
  - intros b. apply IH; [done..|]. by eapply HR.
Qed.

(** If the steps of a program are such as it relies on, so is the way to where it ends. *)
Lemma rg_track {A} R G (p : prog C reply A) Φ w0 w :
  Transitive R → (∀ x y, G x y → R x y) → R w0 w → rg R G p Φ w →
  rg R G p (λ a w', Φ a w' ∧ R w0 w') w.
Proof.
  intros HT HG. revert w. induction p as [a|c k IH|k IH]; intros w Hw Hp w1 Hw1.
  - split; [by apply Hp|by trans w].
  - intros f Hf. destruct (Hp w1 Hw1 f Hf) as [Hg Hk]. split; [done|]. apply IH; [|done].
    trans w; [done|]. trans w1; [done|by apply HG].
  - intros b. apply IH; [by trans w|by apply Hp].
Qed.

(** One branch has ended with a fact its environment keeps; the other goes on. *)
Lemma rg_settled {D E} (R1 R2 R G2 G : W → W → Prop) (p : prog C reply D) (f : D → E)
    (Φ : W → Prop) (Ψ : D → W → Prop) (Θ : E → W → Prop) w :
  Transitive R1 → (∀ x y, R x y → R1 x y ∧ R2 x y) → (∀ x y, G2 x y → G x y ∧ R1 x y) →
  (∀ d x, Φ x → Ψ d x → Θ (f d) x) →
  (∀ w1, R1 w w1 → Φ w1) → rg R2 G2 p Ψ w → rg R G (prog_bind (λ d, Ret (f d)) p) Θ w.
Proof.
  intros HT HR HG HΘ. revert w. induction p as [d|c k IH|k IH]; intros w HΦ Hp w1 Hw1; simpl.
  - apply HΘ; [by apply HΦ, HR|by apply Hp, HR].
  - intros x Hx. destruct (Hp w1 (proj2 (HR _ _ Hw1)) x Hx) as [Hg Hk].
    split; [by apply HG|]. apply IH; [|done]. intros w2 Hw2. apply HΦ.
    trans w1; [by apply HR|]. trans (answer c x w1).1; [by apply HG|done].
  - intros b. apply IH; [|by apply Hp, HR]. intros w2 Hw2. apply HΦ.
    trans w1; [by apply HR|done].
Qed.

(** The branches of [join] are each other's environment. *)
Lemma rg_join {A B} (R1 R2 G1 G2 R G : W → W → Prop) (p : prog C reply A) (q : prog C reply B)
    Φ Ψ w :
  Transitive R1 → Transitive R2 → (∀ x y, R x y → R1 x y ∧ R2 x y) →
  (∀ x y, G1 x y → G x y ∧ R2 x y) → (∀ x y, G2 x y → G x y ∧ R1 x y) →
  rg R1 G1 p Φ w → rg R2 G2 q Ψ w →
  rg R G (join p q) (λ ab w', Φ ab.1 w' ∧ Ψ ab.2 w') w.
Proof.
  intros HT1 HT2 HR HG1 HG2. revert q w. induction p as [a|c k IHp|k IHp]; intros q w Hp Hq.
  { assert (rg R G (prog_bind (λ b, Ret (a, b)) q) (λ ab w', Φ ab.1 w' ∧ Ψ ab.2 w') w).
    { by apply (rg_settled R1 R2 R G2 G q (pair a) (Φ a) Ψ). }
    by destruct q. }
  all: revert w Hp Hq; induction q as [b|d l IHq|l IHq]; intros w Hp Hq;
    try (apply (rg_settled R2 R1 R G1 G _ (λ a, (a, b)) (Ψ b) Φ); naive_solver).
  - intros w1 Hw1 [] w2 Hw2 f Hf.
    + assert (Hw : R1 w w2) by (trans w1; by apply HR).
      destruct (Hp w2 Hw f Hf) as [Hg Hk]. split; [by apply HG1|]. apply IHp; [done|].
      eapply rg_stable; [done| |exact Hq]. trans w1; [by apply HR|]. trans w2; [by apply HR|].
      by apply HG1.
    + assert (Hw : R2 w w2) by (trans w1; by apply HR).
      destruct (Hq w2 Hw f Hf) as [Hg Hk]. split; [by apply HG2|]. apply (IHq _ _); [|done].
      eapply rg_stable; [done| |exact Hp]. trans w1; [by apply HR|]. trans w2; [by apply HR|].
      by apply HG2.
  - intros w1 Hw1 b. apply (IHq b); [|by apply Hq, HR].
    eapply rg_stable; [done| |exact Hp]. by apply HR.
  - intros w1 Hw1 b. apply IHp; [by apply Hp, HR|].
    eapply rg_stable; [done| |exact Hq]. by apply HR.
  - intros w1 Hw1 b. apply IHp; [by apply Hp, HR|].
    eapply rg_stable; [done| |exact Hq]. by apply HR.
Qed.

End RelyGuarantee.

Lemma rg_weaken_allowed {C reply W F A} (answer : ∀ c : C, F → W → W * reply c)
    (al al' : C → F → Prop) R G (p : prog C reply A) Φ w :
  (∀ c f, al' c f → al c f) → rg answer al R G p Φ w → rg answer al' R G p Φ w.
Proof.
  intros Hal. revert w. induction p as [a|c k IH|k IH]; intros w Hp w1 Hw1; [by apply Hp| |].
  - intros f Hf. destruct (Hp w1 Hw1 f (Hal _ _ Hf)). auto.
  - intros b. apply IH, (Hp w1 Hw1 b).
Qed.

(** A pool: every task relies on what the others and nature guarantee. *)
Section Tasks.
Context {C : Type} {reply : C → Type} {W F : Type}.
Context (answer : ∀ c, F → W → W * reply c) (allowed : nat → C → F → Prop).
Context {X A : Type} (nature : X → W → W).
Context (R G : nat → W → W → Prop) (Φ : nat → A → W → Prop).
Context `{HT : ∀ i, Transitive (R i)}.
Context (HG : ∀ i j x y, i ≠ j → G i x y → R j x y).
Context (Hnature : ∀ i x w, R i w (nature x w)).

Definition on_track (cfg : list (prog C reply A) * W) : Prop :=
  ∀ i p, cfg.1 !! i = Some p → rg answer (allowed i) (R i) (G i) p (Φ i) cfg.2.

Lemma on_track_insert ts w w' i p p' :
  on_track (ts, w) → ts !! i = Some p → G i w w' ∨ w' = w →
  rg answer (allowed i) (R i) (G i) p' (Φ i) w' → on_track (<[i := p']> ts, w').
Proof.
  intros Ht Hi Hw Hp' j q. simpl. destruct (decide (j = i)) as [->|Hne].
  - rewrite list_lookup_insert_eq by (by eapply lookup_lt_Some). by intros [= <-].
  - rewrite list_lookup_insert_ne by done. intros Hj. specialize (Ht j q Hj).
    destruct Hw as [Hw| ->]; [|done]. eapply rg_stable; [done|by eapply HG|done].
Qed.

Lemma on_track_move `{∀ i, Reflexive (R i)} cfg m :
  lawful allowed cfg m → on_track cfg → on_track (do_move answer nature cfg m).
Proof.
  destruct cfg as [ts w]. intros Hl Ht. destruct m as [i f|i b|x]; simpl in *.
  - destruct (ts !! i) as [[a|c k|k]|] eqn:Hi; try done.
    pose proof (Ht i _ Hi w ltac:(done) f Hl) as [Hg Hk].
    destruct (answer c f w) as [w' r]. by eapply on_track_insert; [|done|left|].
  - destruct (ts !! i) as [[a|c k|k]|] eqn:Hi; try done.
    pose proof (Ht i _ Hi w ltac:(done) b) as Hk. by eapply on_track_insert; [|done|right|].
  - intros j q Hj. eapply rg_stable; [done|apply Hnature|]. by apply Ht.
Qed.

Lemma on_track_run `{∀ i, Reflexive (R i)} cfg (ms : list (move F X)) :
  lawful_run answer nature allowed cfg ms → on_track cfg →
  on_track (run_moves answer nature cfg ms).
Proof.
  revert cfg. induction ms as [|m ms IH]; intros cfg Hl Ht; [done|].
  destruct Hl as [Hl Hls]. apply IH; [done|]. by apply on_track_move.
Qed.
(** Where a pool gets to is reached by steps that its tasks guarantee and steps of nature. *)
Lemma on_track_reach `{∀ i, Reflexive (R i)} (T : W → W → Prop) `{!Reflexive T, !Transitive T}
    cfg (ms : list (move F X)) :
  (∀ i x y, G i x y → T x y) → (∀ x w, T w (nature x w)) →
  lawful_run answer nature allowed cfg ms → on_track cfg →
  T cfg.2 (run_moves answer nature cfg ms).2.
Proof.
  intros HGT HNT. revert cfg. induction ms as [|m ms IH]; intros cfg Hl Ht; [done|].
  destruct Hl as [Hl Hls]. trans (do_move answer nature cfg m).2.
  - destruct cfg as [ts w]. destruct m as [i f|i b|x]; simpl in *; [| |apply HNT].
    + destruct (ts !! i) as [[a|c k|k]|] eqn:Hi; try done.
      pose proof (Ht i _ Hi w ltac:(done) f Hl) as [Hg _].
      destruct (answer c f w) as [w' r]. by eapply HGT.
    + by destruct (ts !! i) as [[a|c k|k]|].
  - apply IH; [done|]. by apply on_track_move.
Qed.
End Tasks.

(** ** A monitor along a run: [ok] of each call, in the state the exchanges before it left *)

Section Monitor.
Context {C : Type} {reply : C → Type} {S : Type}.
Context (ok : S → C → Prop) (upd : S → ∀ c, reply c → S).

Fixpoint follows {A} (Φ : S → A → Prop) (s : S) (p : prog C reply A) : Prop :=
  match p with
  | Ret a => Φ s a
  | Ask c k => ok s c ∧ ∀ r, follows Φ (upd s c r) (k r)
  | Race k => ∀ b, follows Φ s (k b)
  end.

Lemma follows_bind {A B} (Φ : S → B → Prop) (f : A → prog C reply B) s p :
  follows (λ s a, follows Φ s (f a)) s p → follows Φ s (prog_bind f p).
Proof. revert s. induction p; simpl; naive_solver. Qed.

Lemma follows_weaken {A} (Φ Ψ : S → A → Prop) s p :
  (∀ s a, Φ s a → Ψ s a) → follows Φ s p → follows Ψ s p.
Proof. intros HΦ. revert s. induction p; simpl; naive_solver. Qed.

Lemma follows_attempt {E A B} (Φ : S → result E B → Prop) (f : A → prog C reply (result E B)) s p :
  follows (λ s r, match r with Ok a => follows Φ s (f a) | Err e => Φ s (Err e) end) s p →
  follows Φ s (attempt p f).
Proof. intros Hp. apply follows_bind. eapply follows_weaken; [|exact Hp]. by intros s' []. Qed.

(** Calls the monitor takes no notice of. *)
Definition unnoticed (c : C) : Prop := (∀ s, ok s c) ∧ ∀ s r, upd s c r = s.

Lemma follows_unnoticed {A} (Φ : S → A → Prop) s p :
  all_calls unnoticed p → (∀ a, Φ s a) → follows Φ s p.
Proof.
  intros Hp Ha. induction p as [a|c k IH|k IH]; simpl in *; [done| |auto].
  destruct Hp as [[Hok Hupd] Hk]. split; [done|]. intros r. rewrite Hupd. auto.
Qed.

Definition after (s : S) (tr : list {c : C & reply c}) : S :=
  foldl (λ s x, upd s (projT1 x) (projT2 x)) s tr.

Lemma follows_traces {A} (Φ : S → A → Prop) s (p : prog C reply A) tr a :
  follows Φ s p → traces p tr a →
  Φ (after s tr) a ∧ ∀ pre c r post, tr = pre ++ existT c r :: post → ok (after s pre) c.
Proof.
  revert s tr. induction p as [x|c k IH|k IH]; intros s tr Hp Ht; simpl in *.
  - destruct Ht as [-> ->]. split; [done|]. by intros [].
  - destruct Ht as (r & tr' & -> & Ht). destruct Hp as [Hc Hk].
    destruct (IH r _ tr' (Hk r) Ht) as [Ha Hpre]. split; [done|].
    intros [|x pre] d r' post [= E1 E2]; subst; [by simplify_eq|]. by eapply (Hpre pre).
  - destruct Ht as [b Ht]. by apply (IH b).
Qed.
End Monitor.
