(* ===== verification/Cqrs.v ===== *)
(** * The CQRS bus, its middleware and command validation

    Models [crates/platform/cqrs], [crates/platform/validation], the traits of
    [crates/foundation/error] and [crates/foundation/validate-core].  A message type is a
    key of type [K] ([TypeId]); the registries erase envelopes to a pair of key and value
    and recover them with a [downcast], whose [expect] panics ([None]).  Handlers and
    middleware run in any monad [M]: a state monad for calls one after another, [Prog]'s
    programs for calls that interleave. *)

From S2P Require Import Prelude Prog.
From S2P Require AccountDomain.
Import AccountDomain(Uuid).
Local Open Scope Z_scope.

(** ** [error]: the contract of a service error *)

Inductive Severity := Critical | High | Medium | Low | Info.
#[export] Instance severity_eq_dec : EqDecision Severity.
Proof. solve_decision. Defined.

Definition should_page (s : Severity) : bool :=
  match s with Critical | High => true | _ => false end.

Class AppError (E : Type) := {
  error_code : E → string;
  http_status : E → Z;
  severity : E → Severity;
  is_retryable : E → bool;
  category : E → string;
}.

(** ** [validate-core] and [validation] *)

Record FieldViolation := { fv_field : string; fv_code : string; fv_message : string }.

Record ValidationError := { violations : list FieldViolation }.

#[export] Instance validation_app_error : AppError ValidationError := {
  error_code _ := "VAL-0001";
  http_status _ := 422;
  severity _ := Low;
  is_retryable _ := false;
  category _ := "VALIDATION";
}.

(** Collected into a [HashMap]: the last violation of a field wins. *)
Definition to_details_map (e : ValidationError) : gmap string string :=
  foldl (λ m v, <[fv_field v := fv_code v +:+ ": " +:+ fv_message v]> m) ∅ (violations e).

(** ** Errors of the bus *)

(** What is kept of a handler's error behind the registry. *)
Record BoxedDynAppError := {
  boxed_error_code : string;
  boxed_http_status : Z;
  boxed_severity : Severity;
  boxed_is_retryable : bool;
  boxed_category : string;
}.

Definition BoxedDynAppError_new `{AppError E} (e : E) : BoxedDynAppError := {|
  boxed_error_code := error_code e;
  boxed_http_status := http_status e;
  boxed_severity := severity e;
  boxed_is_retryable := is_retryable e;
  boxed_category := category e;
|}.

Inductive CqrsError :=
  | HandlerNotFound (type_name : string)
  | DuplicateRegistration (type_name : string)
  | Handler (e : BoxedDynAppError).

Definition from_handler `{AppError E} (e : E) : CqrsError := Handler (BoxedDynAppError_new e).

#[export] Instance cqrs_app_error : AppError CqrsError := {
  error_code e :=
    match e with
    | HandlerNotFound _ => "CQRS_HANDLER_NOT_FOUND"
    | DuplicateRegistration _ => "CQRS_DUPLICATE_REGISTRATION"
    | Handler b => boxed_error_code b
    end;
  http_status e :=
    match e with
    | HandlerNotFound _ | DuplicateRegistration _ => 500
    | Handler b => boxed_http_status b
    end;
  severity e :=
    match e with
    | HandlerNotFound _ | DuplicateRegistration _ => Critical
    | Handler b => boxed_severity b
    end;
  is_retryable e :=
    match e with
    | HandlerNotFound _ | DuplicateRegistration _ => false
    | Handler b => boxed_is_retryable b
    end;
  category e :=
    match e with
    | HandlerNotFound _ | DuplicateRegistration _ => "CQRS"
    | Handler b => boxed_category b
    end;
}.

(** ** Envelopes *)

Record Envelope (T : Type) := {
  message_id : Uuid;
  correlation_id : Uuid;
  causation_id : option Uuid;
  issued_at : Z;
  metadata : gmap string string;
  payload_of : T;
}.
Arguments message_id {T} _.
Arguments correlation_id {T} _.
Arguments causation_id {T} _.
Arguments issued_at {T} _.
Arguments metadata {T} _.
Arguments payload_of {T} _.

(** [id] is [Uuid::now_v7()] and [now] is [Utc::now()]. *)
Definition Envelope_new {T} (id : Uuid) (now : Z) (correlation : Uuid) (p : T) : Envelope T := {|
  message_id := id; correlation_id := correlation; causation_id := None; issued_at := now;
  metadata := ∅; payload_of := p |}.

Definition new_caused_by {P T} (id : Uuid) (now : Z) (parent : Envelope P) (p : T) :
    Envelope T := {|
  message_id := id; correlation_id := correlation_id parent;
  causation_id := Some (message_id parent); issued_at := now;
  metadata := metadata parent; payload_of := p |}.

Definition with_metadata {T} (key value : string) (e : Envelope T) : Envelope T := {|
  message_id := message_id e; correlation_id := correlation_id e;
  causation_id := causation_id e; issued_at := issued_at e;
  metadata := <[key := value]> (metadata e); payload_of := payload_of e |}.

Definition envelope_map {T U} (f : T → U) (e : Envelope T) : Envelope U := {|
  message_id := message_id e; correlation_id := correlation_id e;
  causation_id := causation_id e; issued_at := issued_at e;
  metadata := metadata e; payload_of := f (payload_of e) |}.

(** ** Message types *)

Class Commands (K : Type) `{Countable K} := {
  payload : K → Type;
  type_name : K → string;
  validate k : payload k → result (list FieldViolation) unit;
}.

Class Queries (K : Type) `{Countable K} := {
  query : K → Type;
  response : K → Type;
  query_name : K → string;
}.

(** [Box<dyn Any>]: a value and the type it was boxed at. *)
Definition boxed {K} (T : K → Type) : Type := {k : K & T k}.

Definition downcast {K} `{EqDecision K} (T : K → Type) (k : K) (x : boxed T) : option (T k) :=
  match decide (projT1 x = k) with
  | left E => Some (eq_rect (projT1 x) T (projT2 x) k E)
  | right _ => None
  end.

Section Bus.
Context {M : Type → Type} `{MRet M, MBind M, FMap M}.

(** *** Commands *)

Section CommandBus.
Context `{Countable K, !Commands K}.

Definition CommandBus : Type :=
  ∀ k, Envelope (payload k) → M (option (result CqrsError unit)).

Record CommandHandler (k : K) := {
  ch_error : Type;
  ch_app_error : AppError ch_error;
  handle : Envelope (payload k) → M (result ch_error unit);
}.
#[global] Arguments ch_error {k} _.
#[global] Arguments ch_app_error {k} _.
#[global] Arguments handle {k} _ _.

Definition ErasedCommandHandler : Type :=
  boxed (λ k, Envelope (payload k)) → M (option (result CqrsError unit)).

Definition handle_erased {k} (h : CommandHandler k) : ErasedCommandHandler := λ envelope,
  match downcast (λ k, Envelope (payload k)) k envelope with
  | Some typed =>
      (λ r, Some (map_err (from_handler (H := ch_app_error h)) r)) <$> handle h typed
  | None => mret None
  end.

Definition CommandBusBuilder : Type := gmap K ErasedCommandHandler.
Definition CommandBusBuilder_new : CommandBusBuilder := ∅.

Definition register (b : CommandBusBuilder) (k : K) (h : CommandHandler k) :
    result CqrsError CommandBusBuilder :=
  match b !! k with
  | Some _ => Err (DuplicateRegistration (type_name k))
  | None => Ok (<[k := handle_erased h]> b)
  end.

(** [build] followed by [InMemoryCommandBus::dispatch]. *)
Definition dispatch (b : CommandBusBuilder) (k : K) (envelope : Envelope (payload k)) :
    M (option (result CqrsError unit)) :=
  match (b !! k : option ErasedCommandHandler) with
  | None => mret (Some (Err (HandlerNotFound (type_name k))))
  | Some h => h (existT k envelope)
  end.

(** *** Middleware *)

(** What [tracing]'s subscriber is told. *)
Inductive LogEvent :=
  | ValidationFailed (type_name : string) (count : nat)
  | DuplicateSkipped (id : Uuid) (type_name : string)
  | SpanOpened (type_name : string) (id correlation : Uuid)
  | DispatchStarted (type_name : string) (id correlation : Uuid)
  | DispatchCompleted (type_name : string) (id correlation : Uuid)
  | DispatchFailed (type_name : string) (id correlation : Uuid) (code : string).

Class Telemetry := emit : LogEvent → M unit.

Class IdempotencyStore := {
  is_processed : Uuid → M bool;
  mark_processed : Uuid → M unit;
}.

Definition Layer : Type := CommandBus → CommandBus.

Definition ValidationLayer `{Telemetry} : Layer := λ inner k envelope,
  match validate k (payload_of envelope) with
  | Err vs =>
      emit (ValidationFailed (type_name k) (length vs)) ≫= λ _,
      mret (Some (Err (from_handler {| violations := vs |})))
  | Ok _ => inner k envelope
  end.

Definition IdempotencyLayer `{Telemetry, IdempotencyStore} : Layer := λ inner k envelope,
  let id := message_id envelope in
  is_processed id ≫= λ seen : bool,
  if seen then
    emit (DuplicateSkipped id (type_name k)) ≫= λ _, mret (Some (Ok tt))
  else
    inner k envelope ≫= λ result,
    match result with
    | Some (Ok _) => mark_processed id ≫= λ _, mret result
    | _ => mret result
    end.

(** The span is open while the inner bus works. *)
Definition TracingLayer `{Telemetry} : Layer := λ inner k envelope,
  emit (SpanOpened (type_name k) (message_id envelope) (correlation_id envelope)) ≫= λ _,
  inner k envelope.

Definition LoggingLayer `{Telemetry} : Layer := λ inner k envelope,
  let id := message_id envelope in
  let correlation := correlation_id envelope in
  emit (DispatchStarted (type_name k) id correlation) ≫= λ _,
  inner k envelope ≫= λ result,
  match result with
  | Some (Ok _) => emit (DispatchCompleted (type_name k) id correlation) ≫= λ _, mret result
  | Some (Err e) =>
      emit (DispatchFailed (type_name k) id correlation (error_code e)) ≫= λ _, mret result
  | None => mret None
  end.

(** [MiddlewarePipeline::new(bus)], then [layer] by [layer], then [build]: each call wraps
    what is there already. *)
Definition pipeline (bus : CommandBus) (layers : list Layer) : CommandBus :=
  foldl (λ service layer, layer service) bus layers.

End CommandBus.

(** *** Queries *)

Section QueryBus.
Context `{Countable K, !Queries K}.

Record QueryHandler (k : K) := {
  qh_error : Type;
  qh_app_error : AppError qh_error;
  handle_query : Envelope (query k) → M (result qh_error (response k));
}.
#[global] Arguments qh_error {k} _.
#[global] Arguments qh_app_error {k} _.
#[global] Arguments handle_query {k} _ _.

Definition ErasedQueryHandler : Type :=
  boxed (λ k, Envelope (query k)) → M (option (result CqrsError (boxed response))).

Definition handle_query_erased {k} (h : QueryHandler k) : ErasedQueryHandler := λ envelope,
  match downcast (λ k, Envelope (query k)) k envelope with
  | Some typed =>
      (λ r, Some (existT k <$> map_err (from_handler (H := qh_app_error h)) r))
      <$> handle_query h typed
  | None => mret None
  end.

Definition QueryBusBuilder : Type := gmap K ErasedQueryHandler.
Definition QueryBusBuilder_new : QueryBusBuilder := ∅.

Definition register_query (b : QueryBusBuilder) (k : K) (h : QueryHandler k) :
    result CqrsError QueryBusBuilder :=
  match b !! k with
  | Some _ => Err (DuplicateRegistration (query_name k))
  | None => Ok (<[k := handle_query_erased h]> b)
  end.

Definition dispatch_query (b : QueryBusBuilder) (k : K) (envelope : Envelope (query k)) :
    M (option (result CqrsError (response k))) :=
  match (b !! k : option ErasedQueryHandler) with
  | None => mret (Some (Err (HandlerNotFound (query_name k))))
  | Some h =>
      (λ r, match r with
            | Some (Ok x) => Ok <$> downcast response k x
            | Some (Err e) => Some (Err e)
            | None => None
            end) <$> h (existT k envelope)
  end.

End QueryBus.
End Bus.

(** ** Routing *)

Lemma downcast_same {K} `{EqDecision K} (T : K → Type) (k : K) (x : T k) :
  downcast T k (existT k x) = Some x.
Proof.
  unfold downcast. simpl. destruct (decide (k = k)) as [E|]; [|done].
  by rewrite (Eqdep_dec.UIP_dec (A := K) (λ x y, decide (x = y)) E eq_refl).
Qed.

Section Routing.
Context {M : Type → Type} `{MRet M, MBind M, FMap M}.

Lemma dispatch_registered `{Countable K, !Commands K} (b : CommandBusBuilder (M := M))
    (k : K) (h : CommandHandler k) (e : Envelope (payload k)) :
  b !! k = Some (handle_erased h) →
  dispatch b k e =
    (λ r, Some (map_err (from_handler (H := ch_app_error h)) r)) <$> handle h e.
Proof.
  intros Hk. unfold dispatch. rewrite Hk. unfold handle_erased.
  by rewrite (downcast_same (λ k, Envelope (payload k))).
Qed.
End Routing.
