(* ===== verification/CqrsProofs.v ===== *)
(** * The CQRS bus: routing and idempotency

    [routed_to_its_handler]: a bus built from handlers of distinct messages routes each to
    its own and knows no other, and no erased envelope panics.
    [each_message_succeeds_once]: behind the idempotency layer, messages that come one
    after another reach a success at most once each. *)

From S2P Require Import Prelude Prog Cqrs.
From S2P Require AccountDomain.
Import AccountDomain(Uuid).
Local Open Scope Z_scope.

(** ** Routing *)

Section Register.
Context {M : Type → Type} `{MRet M, MBind M, FMap M} `{Countable K, !Commands K}.

(** A message type with its handler. *)
Definition handled : Type := {k : K & CommandHandler (M := M) k}.

(** [App::build]: the handlers registered in order, until one is refused. *)
Fixpoint register_all (hs : list handled) (b : CommandBusBuilder (M := M)) :
    result CqrsError (CommandBusBuilder (M := M)) :=
  match hs with
  | [] => Ok b
  | existT k h :: hs => b ← register b k h; register_all hs b
  end.

Lemma register_all_known hs b b' k e :
  register_all hs b = Ok b' → b !! k = Some e → b' !! k = Some e.
Proof.
  revert b. induction hs as [|[k' h] hs IH]; intros b; simpl; [by intros [= <-]|].
  unfold register. destruct (b !! k') eqn:Hk'; simpl; [done|]. intros Hall Hk.
  apply (IH _ Hall). etrans; [apply (lookup_insert_ne (M := gmap K)); congruence|done].
Qed.

Lemma register_all_lookup hs b b' k :
  register_all hs b = Ok b' →
  (∀ h, existT k h ∈ hs → b' !! k = Some (handle_erased h)) ∧
  (k ∉ projT1 <$> hs → b' !! k = b !! k).
Proof.
  revert b. induction hs as [|[k' h] hs IH]; intros b; simpl.
  { intros [= <-]. split; [set_solver|done]. }
  unfold register. destruct (b !! k') eqn:Hk'; simpl; [done|]. intros Hall.
  destruct (IH _ Hall) as [Hin Hout]. split.
  - intros h' [E|Hh]%elem_of_cons; [|by apply Hin].
    injection E as <- E. apply (Eqdep_dec.inj_pair2_eq_dec _ (λ x y, decide (x = y))) in E as ->.
    by eapply register_all_known; [|apply (lookup_insert_eq (M := gmap K))].
  - intros [Hne Hnot]%not_elem_of_cons. rewrite Hout by done.
    apply (lookup_insert_ne (M := gmap K)). by apply not_eq_sym.
Qed.

Lemma register_all_twice hs b k :
  is_Some (b !! k) → is_ok (register_all hs b) = true → k ∉ projT1 <$> hs.
Proof.
  revert b. induction hs as [|[k' h] hs IH]; intros b Hb; simpl; [set_solver|].
  unfold register. destruct (b !! k') eqn:Hk'; simpl; [done|]. intros Hok.
  apply not_elem_of_cons. split; [intros ->; rewrite Hk' in Hb; by destruct Hb|].
  eapply IH; [|exact Hok]. apply (lookup_insert_is_Some (M := gmap K)).
  destruct (decide (k' = k)); [by left|by right].
Qed.

(** Registration succeeds exactly when no message comes twice. *)
Lemma register_all_ok hs b :
  (∀ k, k ∈ projT1 <$> hs → b !! k = None) →
  is_ok (register_all hs b) = true ↔ NoDup (projT1 <$> hs).
Proof.
  revert b. induction hs as [|[k h] hs IH]; intros b Hb; simpl.
  { split; [constructor|done]. }
  unfold register. rewrite Hb by set_solver. simpl. rewrite list.NoDup_cons.
  destruct (decide (k ∈ projT1 <$> hs)) as [Hin|Hout].
  - split; [|naive_solver]. intros Hok. exfalso.
    eapply register_all_twice; [|exact Hok|exact Hin].
    exists (handle_erased h). apply (lookup_insert_eq (M := gmap K)).
  - rewrite IH; [naive_solver|]. intros k' Hk'.
    etrans; [apply (lookup_insert_ne (M := gmap K)); set_solver|]. apply Hb. set_solver.
Qed.

(** Registration succeeds exactly for distinct messages, and the bus then routes each to
    its handler and knows no other. *)
Theorem routed_to_its_handler hs :
  (is_ok (register_all hs CommandBusBuilder_new) = true ↔ NoDup (projT1 <$> hs)) ∧
  ∀ b, register_all hs CommandBusBuilder_new = Ok b →
    (∀ k (h : CommandHandler k) e, existT k h ∈ hs →
      dispatch b k e = (λ r, Some (map_err (from_handler (H := ch_app_error h)) r)) <$> handle h e) ∧
    (∀ k e, k ∉ projT1 <$> hs →
      dispatch b k e = mret (Some (Err (HandlerNotFound (type_name k))))).
Proof.
  split; [by apply register_all_ok|]. intros b Hb. split.
  - intros k h e Hh. apply dispatch_registered. by eapply register_all_lookup.
  - intros k e Hk. unfold dispatch.
    rewrite (proj2 (register_all_lookup hs _ b k Hb) Hk). done.
Qed.
End Register.

(** ** Idempotency *)

Section Idempotency.
Context `{Countable K, !Commands K} {T : Type}.

(** What the layer's store holds, what reached the inner bus and whether it succeeded, and
    the state [T] the handlers work on. *)
Record Books := { processed : gset Uuid; served : list (Uuid * bool); rest : T }.

Definition st (A : Type) : Type := Books → Books * A.
#[local] Instance st_ret : MRet st := λ A a s, (s, a).
#[local] Instance st_bind : MBind st := λ A B f m s, let '(s, a) := m s in f a s.
#[local] Instance st_fmap : FMap st := λ A B f m s, let '(s, a) := m s in (s, f a).

#[local] Instance st_store : IdempotencyStore (M := st) := {
  is_processed id := λ s, (s, bool_decide (id ∈ processed s));
  mark_processed id := λ s,
    ({| processed := {[id]} ∪ processed s; served := served s; rest := rest s |}, tt);
}.
#[local] Instance st_telemetry : Telemetry (M := st) := λ _ s, (s, tt).

(** Any inner bus, watched. *)
Context (inner : ∀ k, Envelope (payload k) → T → T * result CqrsError unit).

Definition watched : CommandBus (M := st) := λ k e s,
  let '(t, r) := inner k e (rest s) in
  ({| processed := processed s; served := served s ++ [(message_id e, is_ok r)]; rest := t |},
   Some r).

Definition protected : CommandBus (M := st) := IdempotencyLayer watched.

(** Messages one after another, and their answers. *)
Fixpoint deliver (ms : list {k : K & Envelope (payload k)}) (s : Books) :
    Books * list (option (result CqrsError unit)) :=
  match ms with
  | [] => (s, [])
  | existT k e :: ms =>
      let '(s, r) := protected k e s in let '(s, rs) := deliver ms s in (s, r :: rs)
  end.

(** A success is remembered, and it is the last time its message is served. *)
Record once (s : Books) : Prop := {
  on_processed id : id ∈ processed s ↔ (id, true) ∈ served s;
  on_last id pre post : served s = pre ++ (id, true) :: post → id ∉ post.*1;
}.

Lemma protected_step k e s :
  let id := message_id e in
  protected k e s =
    if decide (id ∈ processed s) then (s, Some (Ok tt))
    else
      let '(t, r) := inner k e (rest s) in
      ({| processed := if is_ok r then {[id]} ∪ processed s else processed s;
          served := served s ++ [(id, is_ok r)]; rest := t |}, Some r).
Proof.
  unfold protected, IdempotencyLayer, mbind, st_bind, mret, st_ret, watched, emit. simpl.
  case_bool_decide as Hp.
  - by rewrite decide_True.
  - rewrite decide_False by done. by destruct (inner k e (rest s)) as [t [[]|]].
Qed.

Lemma snoc_split {A} (l pre post : list A) x y :
  l ++ [x] = pre ++ y :: post →
  (post = [] ∧ x = y ∧ l = pre) ∨ ∃ post', post = post' ++ [x] ∧ l = pre ++ y :: post'.
Proof.
  destruct post as [|z post _] using rev_ind; intros E.
  - apply app_inj_tail in E as [-> ->]. by left.
  - rewrite app_comm_cons, app_assoc in E. apply app_inj_tail in E as [-> ->]. right. by eexists.
Qed.

Lemma protected_once k e s : once s → once (protected k e s).1.
Proof.
  intros [Hp Hl]. rewrite protected_step. case_decide as Hin; [by split|].
  destruct (inner k e (rest s)) as [t r]. simpl. split; simpl.
  - intros id. rewrite elem_of_app, list_elem_of_singleton.
    destruct r as [[]|]; simpl; rewrite ?elem_of_union, ?elem_of_singleton, Hp; naive_solver.
  - intros id pre post [(-> & _ & _)|(post' & -> & E)]%snoc_split; [set_solver|].
    rewrite fmap_app. intros [Hx|Hx]%elem_of_app; [by eapply Hl|].
    apply list_elem_of_singleton in Hx as ->. apply Hin, Hp. rewrite E. set_solver.
Qed.

Lemma deliver_once ms s : once s → once (deliver ms s).1.
Proof.
  revert s. induction ms as [|[k e] ms IH]; intros s Hs; [done|]. simpl.
  pose proof (protected_once k e s Hs) as Hp. destruct (protected k e s) as [s' r].
  specialize (IH s' Hp). by destruct (deliver ms s').
Qed.

Definition no_books (t : T) : Books := {| processed := ∅; served := []; rest := t |}.

(** Behind the idempotency layer a message succeeds at most once.  Whatever inner bus
    and whatever messages came before, one after another: the store remembers exactly the
    messages that succeeded, none of which reached the inner bus again; a message that
    succeeded before is answered with success and changes nothing, and any other is served,
    so that a failed one is tried again. *)
Theorem each_message_succeeds_once ms t k e :
  let s := (deliver ms (no_books t)).1 in
  let '(s', r) := protected k e s in
  once s ∧ r ≠ None ∧
  if decide ((message_id e, true) ∈ served s) then r = Some (Ok tt) ∧ s' = s
  else served s' = served s ++ [(message_id e, match r with Some (Ok _) => true | _ => false end)].
Proof.
  intros s.
  assert (Hs : once s).
  { apply deliver_once. split; simpl; [set_solver|]. by intros id []. }
  rewrite protected_step. pose proof (on_processed s Hs (message_id e)) as Hp.
  destruct (decide (message_id e ∈ processed s)) as [Hin|Hin].
  - simpl. split_and!; [done..|]. by rewrite decide_True by tauto.
  - destruct (inner k e (rest s)) as [t' r]. split_and!; [done..|].
    rewrite decide_False by tauto. simpl. by destruct r as [[]|].
Qed.
End Idempotency.
