(* ===== verification/SocialGraphDomain.v ===== *)
(** * Social graph: errors, tiers and the relation between two profiles

    Models [crates/services/social-graph/src/domain] and [error.rs], with the error type of
    [crates/storage/scylla].  Instants are [Z] nanoseconds since the epoch; what the code
    reads from the clock is an argument. *)

From S2P Require Import Prelude Cqrs.
From S2P Require AccountDomain ModerationDomain.
Import AccountDomain(Uuid, UuidText, parse_uuid, hyphenated).
Local Open Scope Z_scope.

(** ** Storage errors *)

Module Scylla.
Inductive ScyllaStorageError :=
  | WriteTimeout (consistency : string) (received required : Z)
  | ReadTimeout (consistency : string) (received required : Z)
  | Unavailable (consistency : string) (required alive : Z)
  | Overloaded
  | RateLimitReached
  | IsBootstrapping
  | ClientTimeout (millis : Z)
  | ConnectionPool (message : string)
  | Transport (message : string)
  | AuthenticationError (message : string)
  | Unauthorized (message : string)
  | AlreadyExists (keyspace table : string)
  | BadQuery (message : string)
  | QueryInvalid (message : string)
  | WriteFailure (numfailures : Z)
  | ReadFailure (numfailures : Z)
  | SchemaConflict (message : string)
  | Bootstrap (message : string)
  | Configuration (message : string)
  | ProtocolError (message : string)
  | Unknown (code message : string).

Definition scylla_error_code (e : ScyllaStorageError) : string :=
  match e with
  | WriteTimeout _ _ _ => "SDB-1001"
  | ReadTimeout _ _ _ => "SDB-1002"
  | Unavailable _ _ _ => "SDB-1003"
  | Overloaded => "SDB-1004"
  | RateLimitReached => "SDB-1005"
  | IsBootstrapping => "SDB-1006"
  | ClientTimeout _ => "SDB-1007"
  | ConnectionPool _ => "SDB-2001"
  | Transport _ => "SDB-2002"
  | AuthenticationError _ => "SDB-3001"
  | Unauthorized _ => "SDB-3002"
  | AlreadyExists _ _ => "SDB-4001"
  | BadQuery _ => "SDB-5001"
  | QueryInvalid _ => "SDB-5002"
  | WriteFailure _ => "SDB-5003"
  | ReadFailure _ => "SDB-5004"
  | SchemaConflict _ => "SDB-6001"
  | Bootstrap _ => "SDB-7001"
  | Configuration _ => "SDB-8001"
  | ProtocolError _ => "SDB-8002"
  | Unknown _ _ => "SDB-9000"
  end.

Definition scylla_http_status (e : ScyllaStorageError) : Z :=
  match e with
  | WriteTimeout _ _ _ | ReadTimeout _ _ _ | Unavailable _ _ _ | Overloaded | RateLimitReached
  | IsBootstrapping | ClientTimeout _ | ConnectionPool _ | Transport _ | WriteFailure _
  | ReadFailure _ | SchemaConflict _ | Bootstrap _ => 503
  | Unauthorized _ => 403
  | AlreadyExists _ _ => 409
  | QueryInvalid _ => 422
  | AuthenticationError _ | BadQuery _ | Configuration _ | ProtocolError _ | Unknown _ _ => 500
  end.

Definition scylla_severity (e : ScyllaStorageError) : Severity :=
  match e with
  | Unavailable _ _ _ | AuthenticationError _ | Bootstrap _ | Configuration _
  | ProtocolError _ | BadQuery _ => Critical
  | WriteTimeout _ _ _ | ReadTimeout _ _ _ | Overloaded | RateLimitReached | ClientTimeout _
  | ConnectionPool _ | Transport _ | WriteFailure _ | ReadFailure _ | SchemaConflict _ => High
  | IsBootstrapping | QueryInvalid _ | Unknown _ _ => Medium
  | Unauthorized _ | AlreadyExists _ _ => Low
  end.

Definition scylla_is_retryable (e : ScyllaStorageError) : bool :=
  match e with
  | WriteTimeout _ _ _ | ReadTimeout _ _ _ | Unavailable _ _ _ | Overloaded | RateLimitReached
  | IsBootstrapping | ClientTimeout _ | ConnectionPool _ | Transport _ => true
  | _ => false
  end.

#[global] Instance scylla_app_error : AppError ScyllaStorageError := {
  error_code := scylla_error_code;
  http_status := scylla_http_status;
  severity := scylla_severity;
  is_retryable := scylla_is_retryable;
  category _ := "SDB";
}.
End Scylla.

Module Redis.
Import ModerationDomain.

Definition redis_error_code (e : RedisStorageError) : string :=
  match e with
  | Timeout _ => "RDS-1001"
  | Disconnected _ => "RDS-1002"
  | Io _ => "RDS-1003"
  | Backpressure => "RDS-1004"
  | Canceled => "RDS-1005"
  | PoolExhausted _ => "RDS-2001"
  | Authentication _ => "RDS-3001"
  | WrongType _ => "RDS-4001"
  | InvalidRedisArgument _ => "RDS-4002"
  | InvalidCommand _ => "RDS-4003"
  | NotFound => "RDS-4004"
  | Cluster _ => "RDS-5001"
  | Sentinel _ => "RDS-7001"
  | RedisConfiguration _ => "RDS-8001"
  | Tls _ => "RDS-8002"
  | Protocol _ => "RDS-8003"
  | Parse _ => "RDS-8004"
  | Unknown _ => "RDS-9000"
  end.

Definition redis_severity (e : RedisStorageError) : Severity :=
  match e with
  | Authentication _ | RedisConfiguration _ | Tls _ | Protocol _ => Critical
  | Timeout _ | Disconnected _ | Io _ | Backpressure | PoolExhausted _ | Cluster _
  | Sentinel _ => High
  | Canceled | InvalidCommand _ | Parse _ | Unknown _ => Medium
  | WrongType _ | InvalidRedisArgument _ | NotFound => Low
  end.

#[global] Instance redis_app_error : AppError RedisStorageError := {
  error_code := redis_error_code;
  http_status := redis_http_status;
  severity := redis_severity;
  is_retryable := redis_is_retryable;
  category _ := "RDS";
}.
End Redis.

Abbreviation ScyllaStorageError := Scylla.ScyllaStorageError.
Abbreviation RedisStorageError := ModerationDomain.RedisStorageError.

(** ** [SocialGraphError] *)

Inductive SocialGraphError :=
  | Storage (e : ScyllaStorageError)
  | Cache (e : RedisStorageError)
  | Validation (e : ValidationError)
  | AlreadyFollowing (actor_id target_id : string)
  | NotFollowing (actor_id target_id : string)
  | AlreadyBlocked (actor_id target_id : string)
  | NotBlocked (actor_id target_id : string)
  | SelfInteraction
  | BlockGateDenied (actor_id target_id : string)
  | DomainViolation (field message : string)
  | InvalidProfileId (s : string).

Abbreviation outcome := (result SocialGraphError).

Definition graph_error_code (e : SocialGraphError) : string :=
  match e with
  | Storage e => error_code e
  | Cache e => error_code e
  | Validation e => error_code e
  | AlreadyFollowing _ _ => "SGR-1001"
  | NotFollowing _ _ => "SGR-1002"
  | AlreadyBlocked _ _ => "SGR-1003"
  | NotBlocked _ _ => "SGR-1004"
  | SelfInteraction => "SGR-2001"
  | BlockGateDenied _ _ => "SGR-2002"
  | DomainViolation _ _ => "SGR-9001"
  | InvalidProfileId _ => "SGR-9002"
  end.

Definition graph_http_status (e : SocialGraphError) : Z :=
  match e with
  | Storage e => http_status e
  | Cache e => http_status e
  | Validation e => http_status e
  | AlreadyFollowing _ _ | AlreadyBlocked _ _ => 409
  | NotFollowing _ _ | NotBlocked _ _ | SelfInteraction | BlockGateDenied _ _
  | DomainViolation _ _ | InvalidProfileId _ => 422
  end.

Definition graph_severity (e : SocialGraphError) : Severity :=
  match e with
  | Storage e => severity e
  | Cache e => severity e
  | Validation e => severity e
  | BlockGateDenied _ _ | DomainViolation _ _ => Medium
  | _ => Low
  end.

Definition graph_is_retryable (e : SocialGraphError) : bool :=
  match e with
  | Storage e => is_retryable e
  | Cache e => is_retryable e
  | _ => false
  end.

#[export] Instance graph_app_error : AppError SocialGraphError := {
  error_code := graph_error_code;
  http_status := graph_http_status;
  severity := graph_severity;
  is_retryable := graph_is_retryable;
  category e :=
    match e with
    | Storage e => category e
    | Cache e => category e
    | Validation e => category e
    | _ => "SGR"
    end;
}.

(** ** Author tiers *)

Inductive AuthorTier := Standard | Premium | Vip.
#[export] Instance author_tier_eq_dec : EqDecision AuthorTier.
Proof. solve_decision. Defined.

Definition as_u8 (t : AuthorTier) : Z := match t with Standard => 0 | Premium => 1 | Vip => 2 end.

Record TierThresholds := { premium : Z; vip : Z }.

Definition TierThresholds_new (p v : Z) : TierThresholds :=
  let p := Z.max p 1 in {| premium := p; vip := Z.max v p |}.

Definition from_follower_count (count : Z) (t : TierThresholds) : AuthorTier :=
  if vip t <=? count then Vip else if premium t <=? count then Premium else Standard.

Definition crossing (old new : Z) (t : TierThresholds) : option AuthorTier :=
  let old := from_follower_count old t in
  let new := from_follower_count new t in
  if decide (old = new) then None else Some new.

(** ** Identifiers and events *)

Abbreviation ProfileId := Uuid.

Definition profile_id_of `{UuidText} (s : string) : outcome ProfileId :=
  ok_or (parse_uuid s) (InvalidProfileId s).

Inductive DomainEvent :=
  | ProfileFollowed (actor_id target_id : ProfileId) (followed_at : Z)
  | ProfileUnfollowed (actor_id target_id : ProfileId) (unfollowed_at : Z)
  | ProfileBlocked (actor_id target_id : ProfileId) (blocked_at : Z)
      (severed_actor_follow severed_target_follow : bool)
  | ProfileUnblocked (actor_id target_id : ProfileId) (unblocked_at : Z)
  | AuthorTierChanged (profile_id : ProfileId) (new_tier : AuthorTier) (follower_count : Z)
      (changed_at : Z).

(** ** The relation between an actor and a target *)

Inductive RelationStatus :=
  | NoRelation | Following | FollowedBy | MutualFollow | Blocking | BlockedBy.
#[export] Instance relation_status_eq_dec : EqDecision RelationStatus.
Proof. solve_decision. Defined.

Module SeveredFollows.
Record t := mk { actor_to_target : option Z; target_to_actor : option Z }.
End SeveredFollows.

Module RelationContext.
Record t := mk {
  actor_follows_target_since : option Z;
  target_follows_actor_since : option Z;
  actor_blocks_target : bool;
  target_blocks_actor : bool;
}.
End RelationContext.

Module Relation.
Record t := mk {
  actor_id : ProfileId;
  target_id : ProfileId;
  actor_follows_target_since : option Z;
  target_follows_actor_since : option Z;
  actor_blocks_target : bool;
  target_blocks_actor : bool;
  pending_events : list DomainEvent;
}.
#[global] Instance fields : Fields t := λ r, {|
  actor_id := actor_id r; target_id := target_id r;
  actor_follows_target_since := actor_follows_target_since r;
  target_follows_actor_since := target_follows_actor_since r;
  actor_blocks_target := actor_blocks_target r; target_blocks_actor := target_blocks_actor r;
  pending_events := pending_events r |}.

Definition from_context (actor target : ProfileId) (ctx : RelationContext.t) : t := {|
  actor_id := actor; target_id := target;
  actor_follows_target_since := RelationContext.actor_follows_target_since ctx;
  target_follows_actor_since := RelationContext.target_follows_actor_since ctx;
  actor_blocks_target := RelationContext.actor_blocks_target ctx;
  target_blocks_actor := RelationContext.target_blocks_actor ctx;
  pending_events := [] |}.

Section Text.
Context `{UuidText}.

Definition push (e : DomainEvent) (r : t) : t := r <| pending_events := pending_events r ++ [e] |>.

Definition follow (now : Z) (r : t) : outcome (Z * t) :=
  let a := hyphenated (actor_id r) in
  let b := hyphenated (target_id r) in
  if actor_blocks_target r || target_blocks_actor r then Err (BlockGateDenied a b)
  else match actor_follows_target_since r with
       | Some _ => Err (AlreadyFollowing a b)
       | None =>
           Ok (now, push (ProfileFollowed (actor_id r) (target_id r) now)
                      (r <| actor_follows_target_since := Some now |>))
       end.

Definition unfollow (now : Z) (r : t) : outcome (Z * t) :=
  match actor_follows_target_since r with
  | None => Err (NotFollowing (hyphenated (actor_id r)) (hyphenated (target_id r)))
  | Some followed_at =>
      Ok (followed_at, push (ProfileUnfollowed (actor_id r) (target_id r) now)
                         (r <| actor_follows_target_since := None |>))
  end.

Definition block (now : Z) (r : t) : outcome (SeveredFollows.t * t) :=
  if actor_blocks_target r
  then Err (AlreadyBlocked (hyphenated (actor_id r)) (hyphenated (target_id r)))
  else
    let severed := SeveredFollows.mk (actor_follows_target_since r)
                     (target_follows_actor_since r) in
    let r := r <| actor_follows_target_since := None |> <| target_follows_actor_since := None |>
               <| actor_blocks_target := true |> in
    Ok (severed, push (ProfileBlocked (actor_id r) (target_id r) now
                         (bool_decide (is_Some (SeveredFollows.actor_to_target severed)))
                         (bool_decide (is_Some (SeveredFollows.target_to_actor severed)))) r).

Definition unblock (now : Z) (r : t) : outcome t :=
  if actor_blocks_target r
  then Ok (push (ProfileUnblocked (actor_id r) (target_id r) now)
             (r <| actor_blocks_target := false |>))
  else Err (NotBlocked (hyphenated (actor_id r)) (hyphenated (target_id r))).
End Text.

Definition status (r : t) : RelationStatus :=
  if actor_blocks_target r then Blocking
  else if target_blocks_actor r then BlockedBy
  else match actor_follows_target_since r, target_follows_actor_since r with
       | Some _, Some _ => MutualFollow
       | Some _, None => Following
       | None, Some _ => FollowedBy
       | None, None => NoRelation
       end.

(** [take_events]: the events, and the relation without them. *)
Definition take_events (r : t) : list DomainEvent * t := (pending_events r, r <| pending_events := [] |>).
End Relation.

(** The relation as the other profile sees it. *)
Definition seen_from_target (s : RelationStatus) : RelationStatus :=
  match s with
  | Following => FollowedBy
  | FollowedBy => Following
  | Blocking => BlockedBy
  | BlockedBy => Blocking
  | s => s
  end.
