(* ===== verification/SocialGraphStore.v ===== *)
(** * Social graph: the tables, the cache and the topics

    Models [crates/services/social-graph/src/infrastructure] down to the statements it
    sends: the four Scylla tables, the Redis sets and counters, the Kafka topics.  A
    statement is a [call], [answer] is what the backends do with it, and the adapters are
    programs over calls ([Prog]).  A statement takes effect at once or not at all; a failed
    one may have taken effect before its error reached the service.  A logged batch counts
    as one statement, so what a reader may see of a batch under way is not modelled. *)

From stdpp Require Import sorting.
From S2P Require Import Prelude Prog Cqrs SocialGraphDomain.
From S2P Require AccountDomain ModerationDomain.
Import AccountDomain(Uuid, UuidText, parse_uuid, hyphenated).
Local Open Scope Z_scope.
Local Open Scope prog_scope.

(** ** What the adapters rely on *)

(** The readings of [Utc::now()] in nanoseconds, and chrono's [timestamp_millis_opt]. *)
Class UtcClock := {
  utc : nat → Z;
  from_millis : Z → option Z;
  from_millis_utc n : is_Some (from_millis (utc n / 10 ^ 6));
  from_millis_inv ms t : from_millis ms = Some t → t = ms * 10 ^ 6;
}.

(** The order of a [uuid] clustering column. *)
Class UuidOrder := {
  uuid_le : relation Uuid;
  uuid_le_dec :: RelDecision uuid_le;
  uuid_le_po :: PartialOrder uuid_le;
  uuid_le_total :: Total uuid_le;
}.

(** [URL_SAFE_NO_PAD] and serde's JSON of the two page tokens. *)
Class PageTokens := {
  b64_encode : string → string;
  b64_decode : string → option string;
  b64_round s : b64_decode (b64_encode s) = Some s;
  b64_nonempty s : s ≠ "" → b64_encode s ≠ "";
  follow_json : Z → string;
  parse_follow_json : string → option Z;
  follow_json_round ms : parse_follow_json (follow_json ms) = Some ms;
  follow_json_nonempty ms : follow_json ms ≠ "";
  block_json : string → string;
  parse_block_json : string → option string;
  block_json_round s : parse_block_json (block_json s) = Some s;
  block_json_nonempty s : block_json s ≠ "";
}.

Definition timestamp_millis (t : Z) : Z := t / 10 ^ 6.

(** ** The stores *)

Module EventEnvelope.
(** The JSON payload, field by field; [ProfileUnblocked] has none. *)
Inductive Wire :=
  | Event (e : DomainEvent)
  | AuthorTierChangedWire (profile_id : string) (new_tier follower_count changed_at_ms : Z).
Record t := mk {
  topic : string; key : string; payload : Wire; headers : gmap string string;
}.
End EventEnvelope.

Record World := {
  follow_status : gmap (Uuid * Uuid) Z;       (* (follower, followee) ↦ followed_at *)
  following : gset (Uuid * Z * Uuid);         (* (follower, followed_at, followee) *)
  followers : gset (Uuid * Z * Uuid);         (* (followee, followed_at, follower) *)
  blocks : gmap (Uuid * Uuid) Z;              (* (blocker, blockee) ↦ blocked_at *)
  sets : gmap string (gset string);
  counts : gmap string Z;
  topic : list EventEnvelope.t;
  ticks : nat;
}.
#[export] Instance world_fields : Fields World := λ w, {|
  follow_status := follow_status w; following := following w; followers := followers w;
  blocks := blocks w; sets := sets w; counts := counts w; topic := topic w;
  ticks := ticks w |}.

(** ** Statements *)

Inductive call :=
  | Now
  | SelectFollowStatus (follower followee : Uuid)
  | SelectBlock (blocker blockee : Uuid)
  | BatchInsertFollow (follower followee : Uuid) (ts : Z)
  | BatchDeleteFollow (follower followee : Uuid) (ts : Z)
  | InsertBlock (blocker blockee : Uuid) (ts : Z)
  | DeleteBlock (blocker blockee : Uuid)
  | SelectFollowers (followee : Uuid) (before : option Z) (limit : Z)
  | SelectFollowing (follower : Uuid) (before : option Z) (limit : Z)
  | SelectBlocks (blocker : Uuid) (after : option Uuid) (limit : Z)
  | Sadd (key member : string)
  | Srem (key member : string)
  | Incr (key : string)
  | Decr (key : string)
  | SetCount (key : string) (v : Z)
  | GetCount (key : string)
  | Produce (e : EventEnvelope.t).

Definition reply (c : call) : Type :=
  match c with
  | Now => Z
  | SelectFollowStatus _ _ | SelectBlock _ _ | GetCount _ => outcome (option Z)
  | SelectFollowers _ _ _ | SelectFollowing _ _ _ | SelectBlocks _ _ _ => outcome (list (Uuid * Z))
  | Incr _ | Decr _ => outcome Z
  | _ => outcome unit
  end.

Abbreviation program := (prog call reply).

Inductive fault :=
  | Fine
  | ScyllaFault (applied : bool) (e : ScyllaStorageError)
  | RedisFault (applied : bool) (e : RedisStorageError)
  | KafkaFault (applied : bool) (message : string).

(** ** What the backends do *)

Section Backends.
Context `{UtcClock, UuidOrder}.

(** Clustering order [followed_at DESC, id ASC]. *)
Definition newer_first (x y : Uuid * Z) : Prop :=
  y.2 < x.2 ∨ (x.2 = y.2 ∧ uuid_le x.1 y.1).
#[global] Instance newer_first_dec : RelDecision newer_first.
Proof. intros x y. unfold newer_first. apply _. Defined.

Definition by_blockee (x y : Uuid * Z) : Prop := uuid_le x.1 y.1.
#[global] Instance by_blockee_dec : RelDecision by_blockee.
Proof. intros x y. unfold by_blockee. apply _. Defined.

(** The rows of one partition of an adjacency table, in clustering order. *)
Definition partition (p : Uuid) (rows : gset (Uuid * Z * Uuid)) : list (Uuid * Z) :=
  merge_sort newer_first
    ((λ r, (r.2, r.1.2)) <$> filter (λ r, r.1.1 = p) (elements rows)).

Definition block_partition (p : Uuid) (rows : gmap (Uuid * Uuid) Z) : list (Uuid * Z) :=
  merge_sort by_blockee
    ((λ r, (r.1.2, r.2)) <$> filter (λ r, r.1.1 = p) (map_to_list rows)).

Definition select_before (before : option Z) (limit : Z) (rows : list (Uuid * Z)) :
    list (Uuid * Z) :=
  take (Z.to_nat limit)
    (match before with Some t => filter (λ r, r.2 < t) rows | None => rows end).

Definition select_after (after : option Uuid) (limit : Z) (rows : list (Uuid * Z)) :
    list (Uuid * Z) :=
  take (Z.to_nat limit)
    (match after with Some u => filter (λ r, uuid_le u r.1 ∧ r.1 ≠ u) rows | None => rows end).

Definition insert_follow (a b : Uuid) (ts : Z) (w : World) : World :=
  w <| follow_status := <[(a, b) := ts]> (follow_status w) |>
    <| following := {[(a, ts, b)]} ∪ following w |>
    <| followers := {[(b, ts, a)]} ∪ followers w |>.

Definition delete_follow_rows (a b : Uuid) (ts : Z) (w : World) : World :=
  w <| follow_status := delete (a, b) (follow_status w) |>
    <| following := following w ∖ {[(a, ts, b)]} |>
    <| followers := followers w ∖ {[(b, ts, a)]} |>.

Definition set_of (key : string) (w : World) : gset string := default ∅ (sets w !! key).
(** A key that is not there counts as 0. *)
Definition count_of (key : string) (w : World) : Z := default 0 (counts w !! key).

(** A statement whose effect is [f] and whose answer is [r]. *)
Definition scylla {A} (f : fault) (effect : World → World) (r : World → A) (w : World) :
    World * outcome A :=
  match f with
  | ScyllaFault applied e => (if applied then effect w else w, Err (Storage e))
  | _ => (effect w, Ok (r w))
  end.

Definition redis {A} (f : fault) (effect : World → World) (r : World → A) (w : World) :
    World * outcome A :=
  match f with
  | RedisFault applied e => (if applied then effect w else w, Err (Cache e))
  | _ => (effect w, Ok (r w))
  end.

(** [INCR] and [DECR] by [d] refuse to leave the range of [i64]. *)
Definition add_count (f : fault) (key : string) (d : Z) (w : World) : World * outcome Z :=
  let v := count_of key w + d in
  if (- 2 ^ 63 <=? v) && (v <=? i64_max)
  then redis f (λ w, w <| counts := <[key := v]> (counts w) |>) (λ _, v) w
  else (w, Err (Cache (ModerationDomain.Unknown "increment or decrement would overflow"))).

(** [KafkaEventPublisher] reports a transport error as a domain violation. *)
Definition produce (f : fault) (e : EventEnvelope.t) (w : World) : World * outcome unit :=
  let sent := w <| topic := topic w ++ [e] |> in
  match f with
  | KafkaFault applied m => (if applied then sent else w, Err (DomainViolation "kafka" m))
  | _ => (sent, Ok tt)
  end.

Definition answer (c : call) (f : fault) : World → World * reply c :=
  match c with
  | Now => λ w, (w, utc (ticks w))
  | SelectFollowStatus a b => scylla f id (λ w, follow_status w !! (a, b))
  | SelectBlock a b => scylla f id (λ w, blocks w !! (a, b))
  | BatchInsertFollow a b ts => scylla f (insert_follow a b ts) (λ _, tt)
  | BatchDeleteFollow a b ts => scylla f (delete_follow_rows a b ts) (λ _, tt)
  | InsertBlock a b ts => scylla f (λ w, w <| blocks := <[(a, b) := ts]> (blocks w) |>) (λ _, tt)
  | DeleteBlock a b => scylla f (λ w, w <| blocks := delete (a, b) (blocks w) |>) (λ _, tt)
  | SelectFollowers p before limit =>
      scylla f id (λ w, select_before before limit (partition p (followers w)))
  | SelectFollowing p before limit =>
      scylla f id (λ w, select_before before limit (partition p (following w)))
  | SelectBlocks p after limit =>
      scylla f id (λ w, select_after after limit (block_partition p (blocks w)))
  | Sadd key m =>
      redis f (λ w, w <| sets := <[key := {[m]} ∪ set_of key w]> (sets w) |>) (λ _, tt)
  | Srem key m =>
      redis f (λ w, w <| sets := <[key := set_of key w ∖ {[m]}]> (sets w) |>) (λ _, tt)
  | Incr key => add_count f key 1
  | Decr key => add_count f key (-1)
  | SetCount key v => redis f (λ w, w <| counts := <[key := v]> (counts w) |>) (λ _, tt)
  | GetCount key => redis f id (λ w, counts w !! key)
  | Produce e => produce f e
  end.

(** What happens by itself: the clock is read elsewhere, Redis restarts empty. *)
Inductive happening := Tick (n : nat) | RedisRestart.

Definition nature (x : happening) (w : World) : World :=
  match x with
  | Tick n => w <| ticks := n |>
  | RedisRestart => w <| sets := ∅ |> <| counts := ∅ |>
  end.
End Backends.

(** ** [ScyllaSocialGraphRepository] *)

Section Repository.
Context `{UuidText, UtcClock, PageTokens}.

Definition dt_ms (t : Z) : Z := timestamp_millis t.

Definition invalid_timestamp (field : string) : SocialGraphError :=
  DomainViolation field "invalid timestamp".

Definition ms_to_dt (ms : Z) : outcome Z := ok_or (from_millis ms) (invalid_timestamp "timestamp").

Definition get_follow_since (follower followee : ProfileId) : program (outcome (option Z)) :=
  let? row := ask (SelectFollowStatus follower followee) in
  Ret (match row with
       | Some ms => Some <$> ms_to_dt ms
       | None => Ok None
       end).

Definition get_block_exists (blocker blockee : ProfileId) : program (outcome bool) :=
  let? row := ask (SelectBlock blocker blockee) in
  Ret (Ok (bool_decide (is_Some row))).

Definition load_relation (actor target : ProfileId) : program (outcome Relation.t) :=
  let* r := join (join (get_follow_since actor target) (get_follow_since target actor))
                 (join (get_block_exists actor target) (get_block_exists target actor)) in
  let '((r1, r2), (r3, r4)) := r in
  Ret (x1 ← r1; x2 ← r2; x3 ← r3; x4 ← r4;
       Ok (Relation.from_context actor target (RelationContext.mk x1 x2 x3 x4))).

Definition persist_follow (actor target : ProfileId) (followed_at : Z) : program (outcome unit) :=
  ask (BatchInsertFollow actor target (dt_ms followed_at)).

Definition delete_follow (actor target : ProfileId) (followed_at : Z) : program (outcome unit) :=
  ask (BatchDeleteFollow actor target (dt_ms followed_at)).

Definition persist_block (blocker blockee : ProfileId) (blocked_at : Z) :
    program (outcome unit) :=
  ask (InsertBlock blocker blockee (dt_ms blocked_at)).

Definition delete_block (blocker blockee : ProfileId) : program (outcome unit) :=
  ask (DeleteBlock blocker blockee).

(** *** Pages *)

Definition clamp (lo hi x : Z) : Z := Z.max lo (Z.min hi x).

(** [FollowEdge] and [BlockEdge]: whom, and since when. *)
Definition Edge : Type := ProfileId * Z.

Definition decode_token {T} (parse : string → option T) (kind : string)
    (page_token : option string) : outcome (option T) :=
  match page_token with
  | None => Ok None
  | Some t =>
      bytes ← ok_or (b64_decode t) (DomainViolation "page_token" "invalid base64 encoding");
      Some <$> ok_or (parse bytes) (DomainViolation "page_token" kind)
  end.

Definition decode_follow_token : option string → outcome (option Z) :=
  decode_token parse_follow_json "invalid follow page token format".

(** [for row in &rows]: the edges, or the first row chrono cannot represent. *)
Fixpoint edges_of (field : string) (rows : list (Uuid * Z)) : outcome (list Edge) :=
  match rows with
  | [] => Ok []
  | (u, ms) :: rows =>
      at_ ← ok_or (from_millis ms) (invalid_timestamp field);
      rest ← edges_of field rows;
      Ok ((u, at_) :: rest)
  end.

Definition build_follow_page (rows : list (Uuid * Z)) (limit : Z) :
    outcome (list Edge * option string) :=
  let last_followed_at_ms := match list.last rows with Some r => r.2 | None => 0 end in
  edges ← edges_of "followed_at" rows;
  Ok (edges, if Z.of_nat (length rows) =? limit
             then Some (b64_encode (follow_json last_followed_at_ms)) else None).

Definition list_followers (followee : ProfileId) (limit : Z) (page_token : option string) :
    program (outcome (list Edge * option string)) :=
  let limit := clamp 1 100 limit in
  let? token := Ret (decode_follow_token page_token) in
  let? rows := ask (SelectFollowers followee token limit) in
  Ret (build_follow_page rows limit).

Definition list_following (follower : ProfileId) (limit : Z) (page_token : option string) :
    program (outcome (list Edge * option string)) :=
  let limit := clamp 1 100 limit in
  let? token := Ret (decode_follow_token page_token) in
  let? rows := ask (SelectFollowing follower token limit) in
  Ret (build_follow_page rows limit).

Definition build_block_page (rows : list (Uuid * Z)) (limit : Z) :
    outcome (list Edge * option string) :=
  let last_blockee_id := match list.last rows with Some r => hyphenated r.1 | None => "" end in
  edges ← edges_of "blocked_at" rows;
  Ok (edges, if Z.of_nat (length rows) =? limit
             then Some (b64_encode (block_json last_blockee_id)) else None).

Definition list_blocks (blocker : ProfileId) (limit : Z) (page_token : option string) :
    program (outcome (list Edge * option string)) :=
  let limit := clamp 1 100 limit in
  let? token := Ret (decode_token parse_block_json "invalid block page token format" page_token) in
  let? after :=
    Ret (match token with
         | None => Ok None
         | Some id =>
             Some <$> ok_or (parse_uuid id)
               (DomainViolation "page_token.last_blockee_id" "invalid UUID in block page token")
         end) in
  let? rows := ask (SelectBlocks blocker after limit) in
  Ret (build_block_page rows limit).
End Repository.

(** ** [RedisSocialGraphCache] *)

Section Cache.
Context `{UuidText}.

Definition following_key (p : ProfileId) : string := "sg:following:v1:" +:+ hyphenated p.
Definition blocks_key (p : ProfileId) : string := "sg:blocks:v1:" +:+ hyphenated p.
Definition followers_count_key (p : ProfileId) : string := "sg:followers_count:v1:" +:+ hyphenated p.
Definition following_count_key (p : ProfileId) : string := "sg:following_count:v1:" +:+ hyphenated p.

Definition add_following (follower followee : ProfileId) : program (outcome unit) :=
  ask (Sadd (following_key follower) (hyphenated followee)).
Definition remove_following (follower followee : ProfileId) : program (outcome unit) :=
  ask (Srem (following_key follower) (hyphenated followee)).
Definition add_block (blocker blockee : ProfileId) : program (outcome unit) :=
  ask (Sadd (blocks_key blocker) (hyphenated blockee)).
Definition remove_block (blocker blockee : ProfileId) : program (outcome unit) :=
  ask (Srem (blocks_key blocker) (hyphenated blockee)).

Definition incr_followers_count (p : ProfileId) : program (outcome Z) :=
  ask (Incr (followers_count_key p)).

Definition decr_followers_count (p : ProfileId) : program (outcome Z) :=
  let key := followers_count_key p in
  let? value := ask (Decr key) in
  if value <? 0 then let* _ := ask (SetCount key 0) in Ret (Ok 0) else Ret (Ok value).

Definition incr_following_count (p : ProfileId) : program (outcome unit) :=
  let? _ := ask (Incr (following_count_key p)) in Ret (Ok tt).

Definition decr_following_count (p : ProfileId) : program (outcome unit) :=
  let key := following_count_key p in
  let? value := ask (Decr key) in
  if value <? 0 then let* _ := ask (SetCount key 0) in Ret (Ok tt) else Ret (Ok tt).

(** [RelationCounts]: followers and following. *)
Definition get_counts (p : ProfileId) : program (outcome (Z * Z)) :=
  let* r := join (ask (GetCount (followers_count_key p)) : program (outcome (option Z)))
                 (ask (GetCount (following_count_key p)) : program (outcome (option Z))) in
  Ret (x ← r.1; y ← r.2; Ok (default 0 x, default 0 y)).

(** ** [KafkaEventPublisher] *)

Definition TOPIC_FOLLOWED : string := "social-graph.followed".
Definition TOPIC_UNFOLLOWED : string := "social-graph.unfollowed".
Definition TOPIC_BLOCKED : string := "social-graph.blocked".
Definition TOPIC_AUTHOR_TIER_CHANGED : string := "social-graph.author_tier_changed".

Definition edge_envelope (t event_type : string) (actor target : ProfileId) (e : DomainEvent) :
    EventEnvelope.t := {|
  EventEnvelope.topic := t;
  EventEnvelope.key := hyphenated actor +:+ ":" +:+ hyphenated target;
  EventEnvelope.payload := EventEnvelope.Event e;
  EventEnvelope.headers :=
    <["target_id" := hyphenated target]> (<["actor_id" := hyphenated actor]>
      (<["event_type" := event_type]> ∅)) |}.

Definition tier_envelope (p : ProfileId) (t : AuthorTier) (count changed_at : Z) :
    EventEnvelope.t := {|
  EventEnvelope.topic := TOPIC_AUTHOR_TIER_CHANGED;
  EventEnvelope.key := hyphenated p;
  EventEnvelope.payload := EventEnvelope.AuthorTierChangedWire (hyphenated p) (as_u8 t) count
    (timestamp_millis changed_at);
  EventEnvelope.headers :=
    <["new_tier" := match t with Standard => "0" | Premium => "1" | Vip => "2" end]>
      (<["profile_id" := hyphenated p]> (<["event_type" := "AuthorTierChanged"]> ∅)) |}.

(** The record an event becomes, if any. *)
Definition envelope_of (e : DomainEvent) : option EventEnvelope.t :=
  match e with
  | ProfileFollowed a b _ => Some (edge_envelope TOPIC_FOLLOWED "ProfileFollowed" a b e)
  | ProfileUnfollowed a b _ => Some (edge_envelope TOPIC_UNFOLLOWED "ProfileUnfollowed" a b e)
  | ProfileBlocked a b _ _ _ => Some (edge_envelope TOPIC_BLOCKED "ProfileBlocked" a b e)
  | ProfileUnblocked _ _ _ => None
  | AuthorTierChanged p t n at_ => Some (tier_envelope p t n at_)
  end.

Definition publish (e : DomainEvent) : program (outcome unit) :=
  match envelope_of e with
  | Some envelope => ask (Produce envelope)
  | None => Ret (Ok tt)
  end.
End Cache.
