(* ===== verification/SocialGraphHandlers.v ===== *)
(** * Social graph: commands, queries, backfill and the gRPC edge

    Models [crates/services/social-graph/src/application], [app.rs] and the gRPC handler,
    as programs over the statements of [SocialGraphStore]; requests reach their handlers
    through the buses of [Cqrs]. *)

From S2P Require Import Prelude Prog Cqrs SocialGraphDomain SocialGraphStore.
From S2P Require AccountDomain.
Import AccountDomain(Uuid, UuidText, parse_uuid, hyphenated).
Local Open Scope Z_scope.
Local Open Scope prog_scope.

(** ** Messages *)

Inductive GraphCommand :=
  | FollowProfileCommand | UnfollowProfileCommand | BlockProfileCommand | UnblockProfileCommand.
#[export] Instance graph_command_eq_dec : EqDecision GraphCommand.
Proof. solve_decision. Defined.
#[export] Instance graph_command_countable : Countable GraphCommand.
Proof.
  refine (inj_countable'
    (λ c, match c with
          | FollowProfileCommand => 0 | UnfollowProfileCommand => 1
          | BlockProfileCommand => 2 | UnblockProfileCommand => 3
          end%nat)
    (λ n, match n with
          | 0 => FollowProfileCommand | 1 => UnfollowProfileCommand
          | 2 => BlockProfileCommand | _ => UnblockProfileCommand
          end%nat) _).
  by intros [].
Defined.

(** The fields of every command and of [GetRelationStatusQuery]. *)
Record ProfilePair := { actor_id : string; target_id : string }.

Definition validate_pair (c : ProfilePair) : result (list FieldViolation) unit :=
  let v :=
    (if trim_is_empty (actor_id c)
     then [{| fv_field := "actor_id"; fv_code := "VAL-4001";
              fv_message := "actor_id must not be empty" |}] else []) ++
    (if trim_is_empty (target_id c)
     then [{| fv_field := "target_id"; fv_code := "VAL-4002";
              fv_message := "target_id must not be empty" |}] else []) in
  match v with [] => Ok tt | _ => Err v end.

#[export] Instance graph_commands : Commands GraphCommand := {
  payload _ := ProfilePair;
  type_name c :=
    match c with
    | FollowProfileCommand => "FollowProfileCommand"
    | UnfollowProfileCommand => "UnfollowProfileCommand"
    | BlockProfileCommand => "BlockProfileCommand"
    | UnblockProfileCommand => "UnblockProfileCommand"
    end;
  validate _ := validate_pair;
}.

Inductive GraphQuery :=
  | GetRelationStatusQuery | ListFollowersQuery | ListFollowingQuery | ListBlocksQuery.
#[export] Instance graph_query_eq_dec : EqDecision GraphQuery.
Proof. solve_decision. Defined.
#[export] Instance graph_query_countable : Countable GraphQuery.
Proof.
  refine (inj_countable'
    (λ c, match c with
          | GetRelationStatusQuery => 0 | ListFollowersQuery => 1
          | ListFollowingQuery => 2 | ListBlocksQuery => 3
          end%nat)
    (λ n, match n with
          | 0 => GetRelationStatusQuery | 1 => ListFollowersQuery
          | 2 => ListFollowingQuery | _ => ListBlocksQuery
          end%nat) _).
  by intros [].
Defined.

(** The fields of the three list queries: whose list, how many, from where. *)
Record PageQuery := { page_of : string; page_limit : Z; page_token : option string }.

Record RelationStatusView := {
  view_actor : ProfileId;
  view_target : ProfileId;
  view_status : RelationStatus;
  target_followers_count : Z;
  target_following_count : Z;
}.

Definition Page : Type := list Edge * option string.

#[export] Instance graph_queries : Queries GraphQuery := {
  query q := match q with GetRelationStatusQuery => ProfilePair | _ => PageQuery end;
  response q := match q with GetRelationStatusQuery => RelationStatusView | _ => Page end;
  query_name q :=
    match q with
    | GetRelationStatusQuery => "GetRelationStatusQuery"
    | ListFollowersQuery => "ListFollowersQuery"
    | ListFollowingQuery => "ListFollowingQuery"
    | ListBlocksQuery => "ListBlocksQuery"
    end;
}.

Section Handlers.
Context `{UuidText, UtcClock, PageTokens} (tier_thresholds : TierThresholds).

(** ** Commands *)

(** [for event in relation.take_events()]: errors are ignored. *)
Fixpoint publish_all (events : list DomainEvent) : program unit :=
  match events with
  | [] => Ret tt
  | e :: events => let* _ := publish e in publish_all events
  end.

(** The author-tier signal of a change of the follower count. *)
Definition emit_crossing (p : ProfileId) (new_count : Z) (tier : option AuthorTier) :
    program unit :=
  match tier with
  | Some new_tier =>
      let* now := ask Now in
      let* _ := publish (AuthorTierChanged p new_tier new_count now) in
      Ret tt
  | None => Ret tt
  end.

Definition follow_profile (cmd : ProfilePair) : program (outcome unit) :=
  let? actor := Ret (profile_id_of (actor_id cmd)) in
  let? target := Ret (profile_id_of (target_id cmd)) in
  if decide (actor = target) then Ret (Err SelfInteraction)
  else
    let? relation := load_relation actor target in
    let* now := ask Now in
    let? followed := Ret (Relation.follow now relation) in
    let '(followed_at, relation) := followed in
    let? _ := persist_follow actor target followed_at in
    let* _ := add_following actor target in
    let* _ := incr_following_count actor in
    let* counted := incr_followers_count target in
    let* _ :=
      match counted with
      | Ok n => emit_crossing target n (crossing (i64_add n (-1)) n tier_thresholds)
      | Err _ => Ret tt
      end in
    let* _ := publish_all (Relation.take_events relation).1 in
    Ret (Ok tt).

Definition unfollow_profile (cmd : ProfilePair) : program (outcome unit) :=
  let? actor := Ret (profile_id_of (actor_id cmd)) in
  let? target := Ret (profile_id_of (target_id cmd)) in
  let? relation := load_relation actor target in
  let* now := ask Now in
  let? unfollowed := Ret (Relation.unfollow now relation) in
  let '(followed_at, relation) := unfollowed in
  let? _ := delete_follow actor target followed_at in
  let* _ := remove_following actor target in
  let* _ := decr_following_count actor in
  let* counted := decr_followers_count target in
  let* _ :=
    match counted with
    | Ok n => emit_crossing target n (crossing (i64_add n 1) n tier_thresholds)
    | Err _ => Ret tt
    end in
  let* _ := publish_all (Relation.take_events relation).1 in
  Ret (Ok tt).

(** One branch of the join in [BlockProfileHandler]. *)
Definition sever (follower followee : ProfileId) (since : option Z) : program (outcome unit) :=
  match since with
  | Some ts =>
      let? _ := delete_follow follower followee ts in
      let* _ := remove_following follower followee in
      let* _ := decr_followers_count followee in
      let* _ := decr_following_count follower in
      Ret (Ok tt)
  | None => Ret (Ok tt)
  end.

Definition block_profile (cmd : ProfilePair) : program (outcome unit) :=
  let? actor := Ret (profile_id_of (actor_id cmd)) in
  let? target := Ret (profile_id_of (target_id cmd)) in
  if decide (actor = target) then Ret (Err SelfInteraction)
  else
    let? relation := load_relation actor target in
    let* blocked_at := ask Now in
    let? blocked := Ret (Relation.block blocked_at relation) in
    let '(severed, relation) := blocked in
    let* now := ask Now in
    let? _ := persist_block actor target now in
    let* rs := join (sever actor target (SeveredFollows.actor_to_target severed))
                    (sever target actor (SeveredFollows.target_to_actor severed)) in
    let? _ := Ret rs.1 in
    let? _ := Ret rs.2 in
    let* _ := add_block actor target in
    let* _ := publish_all (Relation.take_events relation).1 in
    Ret (Ok tt).

Definition unblock_profile (cmd : ProfilePair) : program (outcome unit) :=
  let? actor := Ret (profile_id_of (actor_id cmd)) in
  let? target := Ret (profile_id_of (target_id cmd)) in
  let? relation := load_relation actor target in
  let* now := ask Now in
  let? _ := Ret (Relation.unblock now relation) in
  let? _ := delete_block actor target in
  let* _ := remove_block actor target in
  Ret (Ok tt).

(** ** Queries *)

Definition get_relation_status (q : ProfilePair) : program (outcome RelationStatusView) :=
  let? actor := Ret (profile_id_of (actor_id q)) in
  let? target := Ret (profile_id_of (target_id q)) in
  let* r := join (load_relation actor target) (get_counts target) in
  let '(relation, counts) := r in
  let? relation := Ret relation in
  let '(followers, following) := match counts with Ok c => c | Err _ => (0, 0) end in
  Ret (Ok {| view_actor := actor; view_target := target; view_status := Relation.status relation;
             target_followers_count := followers; target_following_count := following |}).

Definition list_followers_query (q : PageQuery) : program (outcome Page) :=
  let? followee := Ret (profile_id_of (page_of q)) in
  list_followers followee (clamp 1 100 (page_limit q)) (page_token q).
Definition list_following_query (q : PageQuery) : program (outcome Page) :=
  let? follower := Ret (profile_id_of (page_of q)) in
  list_following follower (clamp 1 100 (page_limit q)) (page_token q).
Definition list_blocks_query (q : PageQuery) : program (outcome Page) :=
  let? blocker := Ret (profile_id_of (page_of q)) in
  list_blocks blocker (clamp 1 100 (page_limit q)) (page_token q).

(** ** Backfill *)

Definition recompute_and_emit_tier (p : ProfileId) : program (outcome AuthorTier) :=
  let? counts := get_counts p in
  let tier := from_follower_count counts.1 tier_thresholds in
  if decide (tier = Standard) then Ret (Ok tier)
  else
    let* now := ask Now in
    let? _ := publish (AuthorTierChanged p tier counts.1 now) in
    Ret (Ok tier).

(** The number of tiers emitted; a failure skips its profile. *)
Fixpoint backfill_tiers (ps : list ProfileId) (emitted : Z) : program Z :=
  match ps with
  | [] => Ret emitted
  | p :: ps =>
      let* r := recompute_and_emit_tier p in
      match r with
      | Ok Premium | Ok Vip => backfill_tiers ps (emitted + 1)
      | _ => backfill_tiers ps emitted
      end
  end.

(** ** [App::build] *)

Definition command_handler (k : GraphCommand) (h : ProfilePair → program (outcome unit)) :
    CommandHandler (M := program) k :=
  {| ch_error := SocialGraphError; ch_app_error := graph_app_error;
     handle := λ envelope : Envelope (payload k), h (payload_of envelope) |}.

Definition build_command_bus : result CqrsError (CommandBusBuilder (M := program) (K := GraphCommand)) :=
  b ← register CommandBusBuilder_new FollowProfileCommand
        (command_handler FollowProfileCommand follow_profile);
  b ← register b UnfollowProfileCommand (command_handler UnfollowProfileCommand unfollow_profile);
  b ← register b BlockProfileCommand (command_handler BlockProfileCommand block_profile);
  register b UnblockProfileCommand (command_handler UnblockProfileCommand unblock_profile).

Definition query_handler (k : GraphQuery) (h : query k → program (outcome (response k))) :
    QueryHandler (M := program) k :=
  {| qh_error := SocialGraphError; qh_app_error := graph_app_error;
     handle_query := λ envelope, h (payload_of envelope) |}.

Definition build_query_bus : result CqrsError (QueryBusBuilder (M := program) (K := GraphQuery)) :=
  b ← register_query QueryBusBuilder_new GetRelationStatusQuery
        (query_handler GetRelationStatusQuery get_relation_status);
  b ← register_query b ListFollowersQuery (query_handler ListFollowersQuery list_followers_query);
  b ← register_query b ListFollowingQuery (query_handler ListFollowingQuery list_following_query);
  register_query b ListBlocksQuery (query_handler ListBlocksQuery list_blocks_query).
End Handlers.

Definition DEFAULT_PREMIUM_FOLLOWERS : Z := 10000.
Definition DEFAULT_VIP_FOLLOWERS : Z := 1000000.
