(* ===== verification/SocialGraphEdge.v ===== *)
(** * Social graph: the gRPC surface

    Models [infrastructure/grpc/handler/social_graph_service_handler.rs]: eight calls, each
    an envelope on a bus and a conversion of what comes back.  [None] is a panic. *)

From S2P Require Import Prelude Prog Cqrs SocialGraphDomain SocialGraphStore SocialGraphHandlers.
From S2P Require AccountDomain.
Import AccountDomain(Uuid, UuidText, parse_uuid, hyphenated).
Local Open Scope Z_scope.
Local Open Scope prog_scope.

Inductive StatusCode :=
  | Unimplemented | Internal | NotFound | Aborted | AlreadyExists | FailedPrecondition
  | Unavailable.

Definition cqrs_to_status (e : CqrsError) : StatusCode :=
  match e with
  | HandlerNotFound _ => Unimplemented
  | DuplicateRegistration _ => Internal
  | Handler b =>
      let s := boxed_http_status b in
      if s =? 404 then NotFound
      else if (s =? 409) && boxed_is_retryable b then Aborted
      else if s =? 409 then AlreadyExists
      else if (s =? 400) || (s =? 422) then FailedPrecondition
      else if (s =? 503) || (s =? 502) then Unavailable
      else Internal
  end.

(** ** Protobuf messages *)

Record Timestamp := { ts_seconds : Z; ts_nanos : Z }.
Definition dt_to_ts (t : Z) : Timestamp := {| ts_seconds := t / 10 ^ 9; ts_nanos := t mod 10 ^ 9 |}.

Definition relation_status_to_i32 (s : RelationStatus) : Z :=
  match s with
  | NoRelation => 1 | Following => 2 | FollowedBy => 3 | MutualFollow => 4 | Blocking => 5
  | BlockedBy => 6
  end.

Record ListRequest := { req_of : string; req_limit : Z; req_page_token : string }.

Inductive Request :=
  | FollowRequest (r : ProfilePair)
  | UnfollowRequest (r : ProfilePair)
  | BlockRequest (r : ProfilePair)
  | UnblockRequest (r : ProfilePair)
  | GetRelationStatusRequest (r : ProfilePair)
  | ListFollowersRequest (r : ListRequest)
  | ListFollowingRequest (r : ListRequest)
  | ListBlocksRequest (r : ListRequest).

Inductive Response :=
  | CommandResponse (success : bool) (actor_id target_id : string)
  | RelationStatusResponse (actor_id target_id : string) (status followers following : Z)
  | EdgesResponse (edges : list (string * Timestamp)) (next_page_token : string).

Section Edge.
Context `{UuidText, UtcClock, PageTokens}.

Definition relation_status_view_to_proto (v : RelationStatusView) : Response :=
  RelationStatusResponse (hyphenated (view_actor v)) (hyphenated (view_target v))
    (relation_status_to_i32 (view_status v)) (target_followers_count v) (target_following_count v).

(** [follow_edge_to_proto] and [block_edge_to_proto]. *)
Definition edge_to_proto (e : Edge) : string * Timestamp := (hyphenated e.1, dt_to_ts e.2).

Definition page_to_proto (p : Page) : Response :=
  EdgesResponse (edge_to_proto <$> p.1) (default "" p.2).

(** [Some(token).filter(|s| !s.is_empty())] *)
Definition token_of (s : string) : option string := if decide (s = "") then None else Some s.

Definition page_query (r : ListRequest) : PageQuery := {|
  page_of := req_of r; page_limit := clamp 1 100 (req_limit r);
  page_token := token_of (req_page_token r) |}.

(** [Envelope::new(Uuid::now_v7(), ...)]: the identifiers and the instant are [stamp]. *)
Definition Stamp : Type := Uuid * Z * Uuid.
Definition enveloped {T} (stamp : Stamp) (p : T) : Envelope T :=
  let '(id, now, correlation) := stamp in Envelope_new id now correlation p.

Context (commands : CommandBusBuilder (M := program) (K := GraphCommand)).
Context (queries : QueryBusBuilder (M := program) (K := GraphQuery)).

Definition command_rpc (stamp : Stamp) (k : GraphCommand) (req : ProfilePair) :
    program (option (result StatusCode Response)) :=
  let* r := dispatch commands k (enveloped stamp (req : payload k)) in
  Ret (match r with
       | Some (Ok _) => Some (Ok (CommandResponse true (actor_id req) (target_id req)))
       | Some (Err e) => Some (Err (cqrs_to_status e))
       | None => None
       end).

Definition query_rpc (stamp : Stamp) (k : GraphQuery) (q : query k) (f : response k → Response) :
    program (option (result StatusCode Response)) :=
  let* r := dispatch_query queries k (enveloped stamp q) in
  Ret (match r with
       | Some (Ok x) => Some (Ok (f x))
       | Some (Err e) => Some (Err (cqrs_to_status e))
       | None => None
       end).

Definition follow := λ s, command_rpc s FollowProfileCommand.
Definition unfollow := λ s, command_rpc s UnfollowProfileCommand.
Definition block := λ s, command_rpc s BlockProfileCommand.
Definition unblock := λ s, command_rpc s UnblockProfileCommand.

Definition relation_status (s : Stamp) (req : ProfilePair) :=
  query_rpc s GetRelationStatusQuery req relation_status_view_to_proto.
Definition followers_page (s : Stamp) (req : ListRequest) :=
  query_rpc s ListFollowersQuery (page_query req) page_to_proto.
Definition following_page (s : Stamp) (req : ListRequest) :=
  query_rpc s ListFollowingQuery (page_query req) page_to_proto.
Definition blocks_page (s : Stamp) (req : ListRequest) :=
  query_rpc s ListBlocksQuery (page_query req) page_to_proto.

Definition serve_with (stamp : Stamp) (r : Request) :
    program (option (result StatusCode Response)) :=
  match r with
  | FollowRequest r => follow stamp r
  | UnfollowRequest r => unfollow stamp r
  | BlockRequest r => block stamp r
  | UnblockRequest r => unblock stamp r
  | GetRelationStatusRequest r => relation_status stamp r
  | ListFollowersRequest r => followers_page stamp r
  | ListFollowingRequest r => following_page stamp r
  | ListBlocksRequest r => blocks_page stamp r
  end.
End Edge.

(** The service as [SocialGraphService::build] wires it; [None] if a bus cannot be built. *)
Definition serve `{UuidText, UtcClock, PageTokens} (thresholds : TierThresholds)
    (stamp : Stamp) (r : Request) : program (option (result StatusCode Response)) :=
  match build_command_bus thresholds, build_query_bus with
  | Ok commands, Ok queries => serve_with commands queries stamp r
  | _, _ => Ret None
  end.
