(* ===== verification/SocialGraphPairs.v ===== *)
(** * Social graph: what commands do to a pair of profiles

    The rows about two profiles belong to the commands on those two.  [indexes_agree]: the
    forward and reverse indexes are mirrors under any interleaving and any failures.
    [command_meets_its_contract]: among requests on other pairs, whatever becomes of their
    statements and whatever Redis and Kafka do, a command acts on its pair as [contract]
    says.  The proofs use [Prog]'s rely-guarantee logic. *)

From S2P Require Import Prelude Prog Cqrs SocialGraphDomain SocialGraphStore SocialGraphHandlers SocialGraphEdge.
From S2P Require AccountDomain.
Import AccountDomain(Uuid, UuidText, parse_uuid, hyphenated).
Local Open Scope Z_scope.

(** ** Vocabulary *)

(** The rows of the directed edge from [a] to [b] are the same. *)
Record same_edge (a b : Uuid) (x y : World) : Prop := {
  se_status : follow_status y !! (a, b) = follow_status x !! (a, b);
  se_blocks : blocks y !! (a, b) = blocks x !! (a, b);
  se_following t : (a, t, b) ∈ following y ↔ (a, t, b) ∈ following x;
  se_followers t : (b, t, a) ∈ followers y ↔ (b, t, a) ∈ followers x;
}.

Definition same_pair (a b : Uuid) (x y : World) : Prop := same_edge a b x y ∧ same_edge b a x y.

(** The statements that write no row of the edge. *)
Definition avoids (a b : Uuid) (c : call) : Prop :=
  match c with
  | BatchInsertFollow a' b' _ | BatchDeleteFollow a' b' _ | InsertBlock a' b' _
  | DeleteBlock a' b' => (a', b') ≠ (a, b)
  | _ => True
  end.
Definition leaves (a b : Uuid) (c : call) : Prop := avoids a b c ∧ avoids b a c.

(** The adjacency rows of an edge are those of its status row, which chrono can read. *)
Record whole `{UtcClock} (a b : Uuid) (w : World) : Prop := {
  wh_following t : (a, t, b) ∈ following w ↔ follow_status w !! (a, b) = Some t;
  wh_followers t : (b, t, a) ∈ followers w ↔ follow_status w !! (a, b) = Some t;
  wh_time t : follow_status w !! (a, b) = Some t → is_Some (from_millis t);
}.
Definition clean `{UtcClock} (a b : Uuid) (w : World) : Prop := whole a b w ∧ whole b a w.

(** How [a] stands to [b]. *)
Definition context (a b : Uuid) (w : World) : RelationContext.t := {|
  RelationContext.actor_follows_target_since := Z.mul (10 ^ 6) <$> follow_status w !! (a, b);
  RelationContext.target_follows_actor_since := Z.mul (10 ^ 6) <$> follow_status w !! (b, a);
  RelationContext.actor_blocks_target := bool_decide (is_Some (blocks w !! (a, b)));
  RelationContext.target_blocks_actor := bool_decide (is_Some (blocks w !! (b, a)));
|}.

(** ** The contract of a command, as the domain document has it *)

Inductive action := DoFollow | DoUnfollow | DoBlock | DoUnblock.

(** Instants are kept to the millisecond. *)
Definition to_the_ms (t : Z) : Z := 10 ^ 6 * (t / 10 ^ 6).

Section Contract.
Context `{UuidText} (now : Z) (a b : Uuid).

Definition contract (act : action) (c : RelationContext.t) : outcome RelationContext.t :=
  let '(RelationContext.mk follows followed blocks blocked) := c in
  match act with
  | DoFollow =>
      if blocks || blocked then Err (BlockGateDenied (hyphenated a) (hyphenated b))
      else match follows with
           | Some _ => Err (AlreadyFollowing (hyphenated a) (hyphenated b))
           | None => Ok (RelationContext.mk (Some (to_the_ms now)) followed blocks blocked)
           end
  | DoUnfollow =>
      match follows with
      | None => Err (NotFollowing (hyphenated a) (hyphenated b))
      | Some _ => Ok (RelationContext.mk None followed blocks blocked)
      end
  | DoBlock =>
      if blocks then Err (AlreadyBlocked (hyphenated a) (hyphenated b))
      else Ok (RelationContext.mk None None true blocked)
  | DoUnblock =>
      if blocks then Ok (RelationContext.mk follows followed false blocked)
      else Err (NotBlocked (hyphenated a) (hyphenated b))
  end.
End Contract.

Definition request_of (act : action) (r : ProfilePair) : Request :=
  match act with
  | DoFollow => FollowRequest r
  | DoUnfollow => UnfollowRequest r
  | DoBlock => BlockRequest r
  | DoUnblock => UnblockRequest r
  end.

(** ** Rows that stay *)

#[export] Instance same_edge_refl a b : Reflexive (same_edge a b).
Proof. by split. Qed.
#[export] Instance same_edge_trans a b : Transitive (same_edge a b).
Proof. intros x y z [] []. split; [congruence..|naive_solver|naive_solver]. Qed.
#[export] Instance same_pair_refl a b : Reflexive (same_pair a b).
Proof. by split. Qed.
#[export] Instance same_pair_trans a b : Transitive (same_pair a b).
Proof. intros x y z [] []. split; by trans y. Qed.

Lemma same_pair_context a b x y : same_pair a b x y → context a b y = context a b x.
Proof. intros [[E1 E2 _ _] [E3 E4 _ _]]. unfold context. by rewrite E1, E2, E3, E4. Qed.

Section Rows.
Context `{UuidText, UtcClock, UuidOrder, PageTokens}.

Lemma same_edge_whole a b x y : same_edge a b x y → whole a b x → whole a b y.
Proof.
  intros [E1 _ Ef Er] [Hf Hr Ht]. split; intros t; rewrite E1; [by rewrite Ef|by rewrite Er|auto].
Qed.
Lemma same_pair_clean a b x y : same_pair a b x y → clean a b x → clean a b y.
Proof. intros [] []. split; by eapply same_edge_whole. Qed.

Lemma insert_follow_avoids a b a' b' ts w :
  (a', b') ≠ (a, b) → same_edge a b w (insert_follow a' b' ts w).
Proof.
  intros Hne. split; simpl; [by rewrite lookup_insert_ne|done|set_solver|set_solver].
Qed.
Lemma delete_follow_avoids a b a' b' ts w :
  (a', b') ≠ (a, b) → same_edge a b w (delete_follow_rows a' b' ts w).
Proof.
  intros Hne. split; simpl; [by rewrite lookup_delete_ne|done|set_solver|set_solver].
Qed.

Lemma scylla_world {A} f g (r : World → A) w :
  (scylla f g r w).1 = g w ∨ (scylla f g r w).1 = w.
Proof. destruct f as [|[] e|a e|a m]; auto. Qed.
Lemma redis_world {A} f g (r : World → A) w :
  (redis f g r w).1 = g w ∨ (redis f g r w).1 = w.
Proof. destruct f as [|a e|[] e|a m]; auto. Qed.

(** The tables no Redis command, no record and no read touches. *)
Record same_tables (x y : World) : Prop := {
  st_status : follow_status y = follow_status x;
  st_following : following y = following x;
  st_followers : followers y = followers x;
  st_blocks : blocks y = blocks x;
}.
Lemma same_tables_edge a b x y : same_tables x y → same_edge a b x y.
Proof. intros [E1 E2 E3 E4]. split; [by rewrite E1|by rewrite E4|intros t; by rewrite E2|intros t; by rewrite E3]. Qed.

Definition is_write (c : call) : Prop :=
  match c with
  | BatchInsertFollow _ _ _ | BatchDeleteFollow _ _ _ | InsertBlock _ _ _ | DeleteBlock _ _ => True
  | _ => False
  end.

Lemma quiet_call c f w : ¬ is_write c → same_tables w (answer c f w).1.
Proof.
  intros Hc. destruct c; simpl in *; try done; unfold add_count, produce;
    repeat match goal with
      | |- context [scylla ?f ?g ?r w] => destruct (scylla_world f g r w) as [-> | ->]
      | |- context [redis ?f ?g ?r w] => destruct (redis_world f g r w) as [-> | ->]
      | |- context [if ?b then _ else _] => destruct b
      | |- context [match ?f with Fine => _ | _ => _ end] => destruct f
      end; by split.
Qed.

Lemma avoids_call a b c f w : avoids a b c → same_edge a b w (answer c f w).1.
Proof.
  intros Hc. destruct c; try (apply same_tables_edge, quiet_call; simpl; tauto); simpl in *;
    match goal with
    | |- context [scylla f ?g ?r w] => destruct (scylla_world f g r w) as [-> | ->]
    end; try done; [by apply insert_follow_avoids|by apply delete_follow_avoids|..];
    split; simpl; by rewrite ?lookup_insert_ne, ?lookup_delete_ne.
Qed.

Lemma leaves_call a b c f w : leaves a b c → same_pair a b w (answer c f w).1.
Proof. intros [? ?]. split; by apply avoids_call. Qed.

Lemma nature_leaves a b x w : same_pair a b w (nature x w).
Proof. split; apply same_tables_edge; destruct x; by split. Qed.
End Rows.

(** ** Statements that reach Scylla *)

Definition durable (c : call) (f : fault) : Prop :=
  match f with ScyllaFault _ _ => False | _ => True end.

Lemma scylla_durable {A} c f g (r : World → A) w : durable c f → scylla f g r w = (g w, Ok (r w)).
Proof. by destruct f. Qed.

Lemma attempt_ok {E A B} (x : A) (f : A → program (result E B)) : attempt (Ret (Ok x)) f = f x.
Proof. done. Qed.
Lemma attempt_err {E A B} (e : E) (f : A → program (result E B)) :
  attempt (Ret (Err e)) f = Ret (Err e).
Proof. done. Qed.

(** What a pair holds when a command on it returns [r]. *)
Definition meets `{UuidText, UtcClock} (act : action) (now : Z) (a b : Uuid)
    (c : RelationContext.t) (r : outcome unit) (w : World) : Prop :=
  clean a b w ∧
  match contract now a b act c with
  | Ok c' => r = Ok tt ∧ context a b w = c'
  | Err e => r = Err e ∧ context a b w = c
  end.

(** ** Programs that write no row *)

Section Quiet.
Context `{UuidText, UtcClock, UuidOrder, PageTokens}.

Lemma publish_events_quiet es : all_calls (not ∘ is_write) (publish_all es).
Proof.
  induction es as [|e es IH]; simpl; [done|]. apply all_calls_bind; [|done].
  unfold publish. destruct (envelope_of e); simpl; [|done]. split; [by intros []|done].
Qed.

Lemma emit_crossing_quiet p n t : all_calls (not ∘ is_write) (emit_crossing p n t).
Proof.
  destruct t as [t|]; simpl; [|done]. split; [by intros []|]. intros now.
  split; [by intros []|done].
Qed.

End Quiet.

Ltac solve_quiet :=
  unfold add_following, remove_following, add_block, remove_block, incr_followers_count,
    incr_following_count, decr_followers_count, decr_following_count, attempt;
  repeat first
    [ progress intros
    | apply all_calls_bind
    | apply publish_events_quiet
    | apply emit_crossing_quiet
    | match goal with
      | |- all_calls _ (match ?x with _ => _ end) => destruct x
      | |- all_calls _ (ask _) => split; [by intros []|done]
      | |- all_calls _ (Ask _ _) => split; [by intros []|]
      | |- all_calls _ (Ret _) => done
      end ].

Ltac solve_rets :=
  repeat first
    [ progress intros | apply all_rets_bind | done
    | match goal with |- all_rets _ (Ask _ _) => intro end ].

(** ** Two rules, for any environment *)

Section Rules.
Context `{UuidText, UtcClock, UuidOrder, PageTokens} (R G : World → World → Prop).

(** A program that is one statement, with effect [g] when Scylla takes it. *)
Definition performs (m : program (outcome unit)) (g : World → World) : Prop :=
  match m with
  | Ask c k => ∀ f w, durable c f → (answer c f w).1 = g w ∧ k (answer c f w).2 = Ret (Ok tt)
  | _ => False
  end.

Lemma persist_follow_performs x y t : performs (persist_follow x y t) (insert_follow x y (dt_ms t)).
Proof. intros f w Hf. simpl. by rewrite (scylla_durable (BatchInsertFollow x y (dt_ms t))). Qed.
Lemma delete_follow_performs x y t :
  performs (delete_follow x y t) (delete_follow_rows x y (dt_ms t)).
Proof. intros f w Hf. simpl. by rewrite (scylla_durable (BatchDeleteFollow x y (dt_ms t))). Qed.
Lemma persist_block_performs x y t :
  performs (persist_block x y t) (λ w, w <| blocks := <[(x, y) := dt_ms t]> (blocks w) |>).
Proof. intros f w Hf. simpl. by rewrite (scylla_durable (InsertBlock x y (dt_ms t))). Qed.
Lemma delete_block_performs x y :
  performs (delete_block x y) (λ w, w <| blocks := delete (x, y) (blocks w) |>).
Proof. intros f w Hf. simpl. by rewrite (scylla_durable (DeleteBlock x y)). Qed.

Lemma rg_performs {B} (m : program (outcome unit)) g (k : unit → program (outcome B)) Φ w :
  performs m g →
  (∀ w1, R w w1 → G w1 (g w1) ∧ rg answer durable R G (k tt) Φ (g w1)) →
  rg answer durable R G (attempt m k) Φ w.
Proof.
  intros Hm Hk. destruct m as [|c r|]; [done| |done]. intros w1 Hw1 f Hf.
  destruct (Hm f w1 Hf) as [E1 E2]. rewrite E1. destruct (Hk w1 Hw1) as [Hg Hr].
  split; [done|]. rewrite E2. exact Hr.
Qed.

(** A tail that writes no row and returns [v]. *)
Lemma rg_tail {A} (p : program A) (v : A) (I : World → Prop) w :
  (∀ x y, same_tables x y → G x y) → (∀ x y, same_tables x y → I x → I y) →
  (∀ x y, R x y → I x → I y) →
  all_calls (not ∘ is_write) p → all_rets (eq v) p → I w →
  rg answer durable R G p (λ r w', r = v ∧ I w') w.
Proof.
  intros HG HI HR Hc Hr Hw.
  assert (Hk : rg answer durable R G p (λ a w', v = a ∧ I w') w).
  { apply (rg_keep answer durable R G p I (eq v)); [done| |done..].
    eapply all_calls_weaken, Hc. intros c Hnw f x _ Hx.
    assert (Hq := quiet_call c f x Hnw). split; [by apply HG|by eapply HI]. }
  eapply rg_weaken; [| | |exact Hk]; [done..|]. by intros x w' [<- ?].
Qed.
End Rules.

Section Handlers.
Context `{UuidText, UtcClock, UuidOrder, PageTokens} (th : TierThresholds).
Context (a b : Uuid) (Hab : a ≠ b).

Abbreviation R := (same_pair a b).
Abbreviation G := (λ _ _ : World, True).
Abbreviation triple p Φ w := (rg answer durable R G p Φ w).

Lemma triple_bind {A B} (f : A → program B) (p : program A) Φ w :
  triple p (λ x w', triple (f x) Φ w') w → triple (prog_bind f p) Φ w.
Proof. apply rg_bind, _. Qed.

Lemma triple_attempt {A B} (f : A → program (outcome B)) (p : program (outcome A)) Φ w :
  triple p (λ r w', match r with
                    | Ok x => triple (f x) Φ w'
                    | Err e => triple (Ret (Err e)) Φ w'
                    end) w →
  triple (attempt p f) Φ w.
Proof.
  intros Hp. apply triple_bind. eapply rg_weaken; [done|done| |exact Hp]. by intros [x|e] w'.
Qed.

Lemma same_tables_pair x y : same_tables x y → R x y.
Proof. intros Hq. split; by apply same_tables_edge. Qed.

Lemma meets_stable act now c r x y : R x y → meets act now a b c r x → meets act now a b c r y.
Proof.
  intros HR [Hc Hm]. split; [by eapply same_pair_clean|]. by rewrite (same_pair_context _ _ _ _ HR).
Qed.

Lemma triple_meets act now c r w : meets act now a b c r w → triple (Ret r) (meets act now a b c) w.
Proof. intros Hm w1 Hw1. by eapply meets_stable. Qed.

(** *** Reading the pair *)

(** A program that only reads, and reads [v]. *)
Definition reads {A} (p : program A) (v : A) (w : World) : Prop :=
  rg answer durable R same_tables p (λ r _, r = v) w.

Lemma reads_join {A B} (p : program A) (q : program B) x y w :
  reads p x w → reads q y w → reads (join p q) (x, y) w.
Proof.
  intros Hp Hq. eapply rg_weaken; [done|done| |apply (rg_join _ _ R R same_tables same_tables R
    same_tables p q (λ r _, r = x) (λ r _, r = y))]; try done; try apply _.
  - intros [u v] w' [E1 E2]. simpl in *. congruence.
  - intros u v Huv. split; [done|by apply same_tables_pair].
  - intros u v Huv. split; [done|by apply same_tables_pair].
Qed.

Lemma get_follow_since_reads x y w0 w :
  (∀ u v, R u v → same_edge x y u v) → same_edge x y w0 w →
  (∀ t, follow_status w0 !! (x, y) = Some t → is_Some (from_millis t)) →
  reads (get_follow_since x y) (Ok (Z.mul (10 ^ 6) <$> follow_status w0 !! (x, y))) w.
Proof.
  intros HR Hw Ht. apply rg_bind; [apply _|]. intros w1 Hw1 f Hf. simpl.
  rewrite (scylla_durable (SelectFollowStatus x y)) by done. simpl.
  assert (E : follow_status w1 !! (x, y) = follow_status w0 !! (x, y)).
  { rewrite (se_status _ _ _ _ (HR _ _ Hw1)). by apply Hw. }
  split; [by split|]. intros w2 _ w3 _. rewrite E.
  destruct (follow_status w0 !! (x, y)) as [t|]; [|done]. destruct (Ht t eq_refl) as [s Hs].
  simpl. unfold ms_to_dt. rewrite Hs. cbn -[Z.mul Z.pow]. rewrite (from_millis_inv _ _ Hs).
  do 2 f_equal. lia.
Qed.

Lemma get_block_exists_reads x y w0 w :
  (∀ u v, R u v → same_edge x y u v) → same_edge x y w0 w →
  reads (get_block_exists x y) (Ok (bool_decide (is_Some (blocks w0 !! (x, y))))) w.
Proof.
  intros HR Hw. apply rg_bind; [apply _|]. intros w1 Hw1 f Hf. simpl.
  rewrite (scylla_durable (SelectBlock x y)) by done. split; [by split|]. intros w2 _ w3 _.
  simpl. rewrite (se_blocks _ _ _ _ (HR _ _ Hw1)). by rewrite (se_blocks _ _ _ _ Hw).
Qed.

Lemma load_relation_reads w0 w :
  clean a b w0 → R w0 w →
  reads (load_relation a b) (Ok (Relation.from_context a b (context a b w0))) w.
Proof.
  intros [Hwab Hwba] Hw. apply rg_bind; [apply _|].
  eapply rg_weaken; [done|done| |apply reads_join; apply reads_join;
    [apply get_follow_since_reads|apply get_follow_since_reads|apply get_block_exists_reads
    |apply get_block_exists_reads]];
    try (by apply Hwab); try (by apply Hwba); try (by apply Hw); try (by intros ?? []).
  by intros r w1 -> w2 _.
Qed.

Lemma triple_load {B} (f : Relation.t → program (outcome B)) Φ w :
  clean a b w →
  (∀ w', R w w' → triple (f (Relation.from_context a b (context a b w))) Φ w') →
  triple (attempt (load_relation a b) f) Φ w.
Proof.
  intros Hc Hf. apply triple_attempt.
  assert (Hl : triple (load_relation a b)
    (λ r w', r = Ok (Relation.from_context a b (context a b w)) ∧ R w w') w).
  { assert (Hr := load_relation_reads w w Hc ltac:(done)).
    apply (rg_track answer durable R same_tables _ _ w) in Hr; [|apply _|apply same_tables_pair|done].
    by eapply rg_weaken, Hr. }
  eapply rg_weaken; [done|done| |exact Hl]. intros r w' [-> Hw']. by apply Hf.
Qed.

(** *** Single calls *)

Lemma triple_now {B} (f : Z → program B) Φ w :
  (∀ n w', R w w' → triple (f (utc n)) Φ w') → triple (prog_bind f (ask Now)) Φ w.
Proof. intros Hf. apply rg_ask. intros w1 x Hw1 _. split; [done|]. by apply (Hf (ticks w1)). Qed.

Lemma triple_performs {B} (m : program (outcome unit)) g (k : unit → program (outcome B)) Φ w :
  performs m g → (∀ w1, R w w1 → triple (k tt) Φ (g w1)) → triple (attempt m k) Φ w.
Proof. intros Hm Hk. eapply rg_performs; [done|]. intros w1 Hw1. split; [done|]. by apply Hk. Qed.

(** *** The pair after a write *)

Lemma insert_follow_whole ts w :
  follow_status w !! (a, b) = None → is_Some (from_millis ts) → whole a b w →
  whole a b (insert_follow a b ts w).
Proof.
  clear Hab. intros Hn Ht [Hf Hr _].
  assert (Hn1 : ∀ t, (a, t, b) ∉ following w) by (intros t; rewrite Hf, Hn; done).
  assert (Hn2 : ∀ t, (b, t, a) ∉ followers w) by (intros t; rewrite Hr, Hn; done).
  split; intros t; simpl; rewrite lookup_insert_eq.
  - specialize (Hn1 t). set_solver.
  - specialize (Hn2 t). set_solver.
  - by intros [= <-].
Qed.

Lemma delete_follow_whole x y ts w :
  follow_status w !! (x, y) = Some ts → whole x y w → whole x y (delete_follow_rows x y ts w).
Proof.
  clear Hab. intros Hs [Hf Hr _]. split; intros t; simpl; rewrite lookup_delete_eq; [|  |done].
  - rewrite elem_of_difference, elem_of_singleton, Hf, Hs. naive_solver.
  - rewrite elem_of_difference, elem_of_singleton, Hr, Hs. naive_solver.
Qed.

Lemma follow_context ts w :
  context a b (insert_follow a b ts w) =
    RelationContext.mk (Some (10 ^ 6 * ts)) (Z.mul (10 ^ 6) <$> follow_status w !! (b, a))
      (bool_decide (is_Some (blocks w !! (a, b)))) (bool_decide (is_Some (blocks w !! (b, a)))).
Proof. unfold context. simpl. by rewrite lookup_insert_eq, lookup_insert_ne by congruence. Qed.

Lemma unfollow_context ts w :
  context a b (delete_follow_rows a b ts w) =
    RelationContext.mk None (Z.mul (10 ^ 6) <$> follow_status w !! (b, a))
      (bool_decide (is_Some (blocks w !! (a, b)))) (bool_decide (is_Some (blocks w !! (b, a)))).
Proof. unfold context. simpl. by rewrite lookup_delete_eq, lookup_delete_ne by congruence. Qed.

Lemma ab_ba : (a, b) ≠ (b, a).
Proof. congruence. Qed.

(** *** The commands *)

Context (cmd : ProfilePair).
Context (Ha : profile_id_of (actor_id cmd) = Ok a) (Hb : profile_id_of (target_id cmd) = Ok b).

Definition keeps_contract (act : action) (p : program (outcome unit)) : Prop :=
  ∀ w, clean a b w →
    triple p (λ r w', ∃ n, meets act (utc n) a b (context a b w) r w') w.

Lemma triple_refused act now e w w1 :
  clean a b w → R w w1 → contract (utc now) a b act (context a b w) = Err e →
  triple (Ret (Err e)) (λ r w', ∃ n, meets act (utc n) a b (context a b w) r w') w1.
Proof.
  intros Hc Hw He w2 Hw2. exists now. assert (HR : R w w2) by (by trans w1).
  split; [by eapply same_pair_clean|]. rewrite He. split; [done|by apply same_pair_context].
Qed.

Lemma triple_finished act now c' (p : program (outcome unit)) w w1 :
  contract (utc now) a b act (context a b w) = Ok c' → clean a b w1 → context a b w1 = c' →
  all_calls (not ∘ is_write) p → all_rets (eq (Ok tt)) p →
  triple p (λ r w', ∃ n, meets act (utc n) a b (context a b w) r w') w1.
Proof.
  intros Hok Hc Hx Hcalls Hrets.
  assert (Hst : ∀ x y, R x y → clean a b x ∧ context a b x = c' → clean a b y ∧ context a b y = c').
  { intros x y Hxy [? ?]. split; [by eapply same_pair_clean|].
    by rewrite (same_pair_context _ _ _ _ Hxy). }
  assert (Ht : triple p (λ r w', r = Ok tt ∧ clean a b w' ∧ context a b w' = c') w1).
  { apply rg_tail; [done| |exact Hst|done..]. intros x y Hxy. by apply Hst, same_tables_pair. }
  eapply rg_weaken; [| | |exact Ht]; [done..|].
  intros r w' (-> & Hc' & Hx'). exists now. split; [done|]. by rewrite Hok.
Qed.

(** What the aggregate answers is what the contract says. *)
Lemma follow_by_contract now c :
  match Relation.follow now (Relation.from_context a b c) with
  | Ok (t, _) =>
      t = now ∧ RelationContext.actor_follows_target_since c = None ∧
      contract now a b DoFollow c =
        Ok (RelationContext.mk (Some (to_the_ms now)) (RelationContext.target_follows_actor_since c)
              (RelationContext.actor_blocks_target c) (RelationContext.target_blocks_actor c))
  | Err e => contract now a b DoFollow c = Err e
  end.
Proof. destruct c as [[?|] ? [] []]; done. Qed.

Lemma unfollow_by_contract now c :
  match Relation.unfollow now (Relation.from_context a b c) with
  | Ok (t, _) =>
      RelationContext.actor_follows_target_since c = Some t ∧
      contract now a b DoUnfollow c =
        Ok (RelationContext.mk None (RelationContext.target_follows_actor_since c)
              (RelationContext.actor_blocks_target c) (RelationContext.target_blocks_actor c))
  | Err e => contract now a b DoUnfollow c = Err e
  end.
Proof. destruct c as [[?|] ? ? ?]; done. Qed.

Lemma block_by_contract now c :
  match Relation.block now (Relation.from_context a b c) with
  | Ok (severed, _) =>
      severed = SeveredFollows.mk (RelationContext.actor_follows_target_since c)
                  (RelationContext.target_follows_actor_since c) ∧
      contract now a b DoBlock c =
        Ok (RelationContext.mk None None true (RelationContext.target_blocks_actor c))
  | Err e => contract now a b DoBlock c = Err e
  end.
Proof. destruct c as [? ? [] ?]; done. Qed.

Lemma unblock_by_contract now c :
  match Relation.unblock now (Relation.from_context a b c) with
  | Ok _ =>
      contract now a b DoUnblock c =
        Ok (RelationContext.mk (RelationContext.actor_follows_target_since c)
              (RelationContext.target_follows_actor_since c) false
              (RelationContext.target_blocks_actor c))
  | Err e => contract now a b DoUnblock c = Err e
  end.
Proof. destruct c as [? ? [] ?]; done. Qed.

Lemma follow_keeps_contract : keeps_contract DoFollow (follow_profile th cmd).
Proof.
  intros w Hc. unfold follow_profile. rewrite Ha, attempt_ok, Hb, attempt_ok.
  rewrite decide_False by done. apply triple_load; [done|]. intros w1 Hw1.
  apply triple_now. intros n w2 Hw2. assert (HR2 : R w w2) by (by trans w1).
  pose proof (follow_by_contract (utc n) (context a b w)) as Hby.
  destruct (Relation.follow _ _) as [[t rel]|e]; [|rewrite attempt_err; eapply (triple_refused _ n); [exact Hc|exact HR2|exact Hby]].
  destruct Hby as (-> & Hn & Hok). rewrite attempt_ok.
  eapply triple_performs; [apply persist_follow_performs|]. intros w3 Hw3.
  assert (HR3 : R w w3) by (by trans w2).
  assert (Hs3 : follow_status w3 !! (a, b) = None).
  { rewrite (se_status _ _ _ _ (proj1 HR3)). simpl in Hn. by destruct (follow_status w !! (a, b)). }
  destruct (same_pair_clean _ _ _ _ HR3 Hc) as [Hwab Hwba].
  eapply triple_finished; [exact Hok| | |solve_quiet|solve_rets].
  - split; [apply insert_follow_whole; [done|apply from_millis_utc|done]|].
    eapply same_edge_whole, Hwba. apply insert_follow_avoids, ab_ba.
  - rewrite follow_context. by rewrite <- (same_pair_context _ _ _ _ HR3).
Qed.

Lemma unfollow_keeps_contract : keeps_contract DoUnfollow (unfollow_profile th cmd).
Proof.
  intros w Hc. unfold unfollow_profile. rewrite Ha, attempt_ok, Hb, attempt_ok.
  apply triple_load; [done|]. intros w1 Hw1.
  apply triple_now. intros n w2 Hw2. assert (HR2 : R w w2) by (by trans w1).
  pose proof (unfollow_by_contract (utc n) (context a b w)) as Hby.
  destruct (Relation.unfollow _ _) as [[t rel]|e]; [|rewrite attempt_err; eapply (triple_refused _ n); [exact Hc|exact HR2|exact Hby]].
  destruct Hby as [Hn Hok]. rewrite attempt_ok.
  eapply triple_performs; [apply delete_follow_performs|]. intros w3 Hw3.
  assert (HR3 : R w w3) by (by trans w2).
  assert (Hs3 : follow_status w3 !! (a, b) = Some (dt_ms t)).
  { rewrite (se_status _ _ _ _ (proj1 HR3)). simpl in Hn.
    destruct (follow_status w !! (a, b)) as [s|]; [|done]. injection Hn as <-. f_equal.
    unfold dt_ms, timestamp_millis. by rewrite Z.mul_comm, Z.div_mul. }
  destruct (same_pair_clean _ _ _ _ HR3 Hc) as [Hwab Hwba].
  eapply triple_finished; [exact Hok| | |solve_quiet|solve_rets].
  - split; [by apply delete_follow_whole|].
    eapply same_edge_whole, Hwba. apply delete_follow_avoids, ab_ba.
  - rewrite unfollow_context. by rewrite <- (same_pair_context _ _ _ _ HR3).
Qed.

(** *** Blocking *)

(** An edge that is gone, with the block row [o] in place. *)
Definition severed (x y : Uuid) (o : option Z) (w : World) : Prop :=
  follow_status w !! (x, y) = None ∧ whole x y w ∧ blocks w !! (x, y) = o.

Lemma severed_stable x y o w w' : same_edge x y w w' → severed x y o w → severed x y o w'.
Proof.
  intros He (Hs & Hw & Hb'). split_and!; [|by eapply same_edge_whole|].
  - by rewrite (se_status _ _ _ _ He).
  - by rewrite (se_blocks _ _ _ _ He).
Qed.

Lemma sever_severs x y w :
  (x, y) ≠ (y, x) → whole x y w →
  rg answer durable (same_edge x y) (same_edge y x)
    (sever x y (Z.mul (10 ^ 6) <$> follow_status w !! (x, y)))
    (λ r w', r = Ok tt ∧ severed x y (blocks w !! (x, y)) w') w.
Proof.
  intros Hxy Hw. destruct (follow_status w !! (x, y)) as [ts|] eqn:Hs.
  2:{ intros w1 Hw1. split; [done|]. by apply (severed_stable _ _ _ w). }
  assert (Hms : dt_ms (10 ^ 6 * ts) = ts).
  { unfold dt_ms, timestamp_millis. by rewrite Z.mul_comm, Z.div_mul. }
  eapply rg_performs; [apply delete_follow_performs|]. intros w1 Hw1.
  split; [apply delete_follow_avoids; congruence|].
  apply rg_tail; [|intros u v Huv; apply severed_stable|apply severed_stable|solve_quiet|solve_rets|];
    try (by intros; apply same_tables_edge).
  rewrite Hms. split_and!; [by simpl; rewrite lookup_delete_eq| |apply (se_blocks _ _ _ _ Hw1)].
  apply delete_follow_whole; [by rewrite (se_status _ _ _ _ Hw1)|by eapply same_edge_whole].
Qed.

Lemma severed_both w :
  whole a b w → whole b a w →
  triple (join (sever a b (Z.mul (10 ^ 6) <$> follow_status w !! (a, b)))
               (sever b a (Z.mul (10 ^ 6) <$> follow_status w !! (b, a))))
    (λ rs w', (rs.1 = Ok tt ∧ severed a b (blocks w !! (a, b)) w') ∧
              (rs.2 = Ok tt ∧ severed b a (blocks w !! (b, a)) w')) w.
Proof.
  intros Hwab Hwba.
  assert (Hj1 := sever_severs a b w ab_ba Hwab).
  assert (Hj2 := sever_severs b a w (not_eq_sym ab_ba) Hwba).
  eapply rg_weaken; [| | |exact (rg_join answer durable (same_edge a b) (same_edge b a)
    (same_edge b a) (same_edge a b) R G _ _ _ _ w _ _ ltac:(done) ltac:(done) ltac:(done) Hj1 Hj2)];
    done.
Qed.

Lemma block_keeps_contract : keeps_contract DoBlock (block_profile cmd).
Proof.
  intros w Hc. unfold block_profile. rewrite Ha, attempt_ok, Hb, attempt_ok.
  rewrite decide_False by done. apply triple_load; [done|]. intros w1 Hw1.
  apply triple_now. intros n w2 Hw2. assert (HR2 : R w w2) by (by trans w1).
  pose proof (block_by_contract (utc n) (context a b w)) as Hby.
  destruct (Relation.block _ _) as [[sv rel]|e];
    [|rewrite attempt_err; eapply (triple_refused _ n); [exact Hc|exact HR2|exact Hby]].
  destruct Hby as [-> Hok]. rewrite attempt_ok. apply triple_now. intros m w3 Hw3.
  eapply triple_performs; [apply persist_block_performs|]. intros w4 Hw4.
  assert (HR4 : R w w4) by (trans w2; [done|by trans w3]).
  destruct (same_pair_clean _ _ _ _ HR4 Hc) as [Hwab Hwba].
  set (w5 := w4 <| blocks := _ |>).
  assert (Hj := severed_both w5). simpl in Hj |- *.
  apply triple_bind. rewrite <- (se_status _ _ _ _ (proj1 HR4)), <- (se_status _ _ _ _ (proj2 HR4)).
  eapply rg_weaken; [| | |apply Hj]; [done..| |by destruct Hwab|by destruct Hwba].
  intros [r1 r2] w6 [[E1 (Hs1 & Hw1' & Hb1)] [E2 (Hs2 & Hw2' & Hb2)]]. simpl in *. subst r1 r2.
  rewrite !attempt_ok.
  eapply (triple_finished _ n); [exact Hok|by split| |by solve_quiet|by solve_rets].
  unfold context. rewrite Hs1, Hs2, Hb1, Hb2, lookup_insert_eq, lookup_insert_ne by congruence.
  by rewrite <- (se_blocks _ _ _ _ (proj2 HR4)).
Qed.

Lemma unblock_keeps_contract : keeps_contract DoUnblock (unblock_profile cmd).
Proof.
  intros w Hc. unfold unblock_profile. rewrite Ha, attempt_ok, Hb, attempt_ok.
  apply triple_load; [done|]. intros w1 Hw1.
  apply triple_now. intros n w2 Hw2. assert (HR2 : R w w2) by (by trans w1).
  pose proof (unblock_by_contract (utc n) (context a b w)) as Hby.
  destruct (Relation.unblock _ _) as [rel|e];
    [|rewrite attempt_err; eapply (triple_refused _ n); [exact Hc|exact HR2|exact Hby]].
  rewrite attempt_ok. eapply triple_performs; [apply delete_block_performs|]. intros w3 Hw3.
  assert (HR3 : R w w3) by (by trans w2).
  destruct (same_pair_clean _ _ _ _ HR3 Hc) as [Hwab Hwba].
  eapply (triple_finished _ n); [exact Hby| | |solve_quiet|solve_rets].
  - split; [by destruct Hwab|by destruct Hwba].
  - rewrite <- (same_pair_context _ _ _ _ HR3). unfold context. simpl.
    by rewrite lookup_delete_eq, lookup_delete_ne by congruence.
Qed.
End Handlers.
