(* ===== verification/SocialGraphContract.v ===== *)
(** * Social graph: requests in a pool

    [SocialGraphPairs] follows one command; here requests arrive at the gRPC surface and
    run together. *)

From S2P Require Import Prelude Prog Cqrs SocialGraphDomain SocialGraphStore SocialGraphHandlers SocialGraphEdge SocialGraphPairs.
From S2P Require AccountDomain.
Import AccountDomain(Uuid, UuidText, parse_uuid, hyphenated).
Local Open Scope Z_scope.

Section Service.
Context `{UuidText, UtcClock, UuidOrder, PageTokens} (th : TierThresholds).

(** *** The buses know every message *)

Definition handler_of (act : action) : ProfilePair → program (outcome unit) :=
  match act with
  | DoFollow => follow_profile th
  | DoUnfollow => unfollow_profile th
  | DoBlock => block_profile
  | DoUnblock => unblock_profile
  end.

Definition reply_to (cmd : ProfilePair) (r : outcome unit) : option (result StatusCode Response) :=
  match r with
  | Ok _ => Some (Ok (CommandResponse true (actor_id cmd) (target_id cmd)))
  | Err e => Some (Err (cqrs_to_status (from_handler e)))
  end.

Definition command_of (act : action) : GraphCommand :=
  match act with
  | DoFollow => FollowProfileCommand
  | DoUnfollow => UnfollowProfileCommand
  | DoBlock => BlockProfileCommand
  | DoUnblock => UnblockProfileCommand
  end.

Lemma command_bus_built :
  ∃ b, build_command_bus th = Ok b ∧
    ∀ act, b !! command_of act = Some (handle_erased (command_handler (command_of act) (handler_of act))).
Proof. eexists. split; [reflexivity|]. by intros []. Qed.

Lemma query_bus_built : is_ok build_query_bus = true.
Proof. reflexivity. Qed.

Lemma serve_command stamp act cmd :
  serve th stamp (request_of act cmd) =
    prog_bind (λ r, Ret (match r with
                         | Some (Ok _) => Some (Ok (CommandResponse true (actor_id cmd) (target_id cmd)))
                         | Some (Err e) => Some (Err (cqrs_to_status e))
                         | None => None
                         end))
      (prog_bind (λ r, Ret (Some (map_err from_handler r))) (handler_of act cmd)).
Proof. by destruct act, stamp as [[]]. Qed.

(** *** Requests on other pairs leave a pair's rows alone *)

(** The pair a command is about, or none if it names no pair. *)
Definition names (r : Request) (x y : Uuid) : Prop :=
  match r with
  | FollowRequest c | UnfollowRequest c | BlockRequest c | UnblockRequest c =>
      profile_id_of (actor_id c) = Ok x ∧ profile_id_of (target_id c) = Ok y
  | _ => False
  end.

Definition elsewhere (a b : Uuid) (r : Request) : Prop :=
  ∀ x y, names r x y → (x, y) ≠ (a, b) ∧ (x, y) ≠ (b, a).

Lemma quiet_leaves {A} a b (p : program A) :
  all_calls (not ∘ is_write) p → all_calls (leaves a b) p.
Proof. apply all_calls_weaken. intros c Hc. destruct c; first [by split | by destruct Hc]. Qed.

Lemma all_calls_attempt {A B} P (f : A → program (outcome B)) (p : program (outcome A)) :
  all_calls P p → (∀ a, all_calls P (f a)) → all_calls P (attempt p f).
Proof. intros Hp Hf. apply all_calls_bind; [done|]. by intros []. Qed.

Lemma ask_leaves a b (m : program (outcome unit)) x y :
  (x, y) ≠ (a, b) ∧ (x, y) ≠ (b, a) →
  (∃ t, m = persist_follow x y t ∨ m = delete_follow x y t ∨ m = persist_block x y t
        ∨ m = delete_block x y) → all_calls (leaves a b) m.
Proof. by intros [] (t & [-> |[-> |[-> | ->]]]). Qed.

(** Statements that change nothing. *)
Definition is_read (c : call) : Prop :=
  match c with
  | Now | SelectFollowStatus _ _ | SelectBlock _ _ | SelectFollowers _ _ _
  | SelectFollowing _ _ _ | SelectBlocks _ _ _ | GetCount _ => True
  | _ => False
  end.

Lemma read_quiet {A} (p : program A) : all_calls is_read p → all_calls (not ∘ is_write) p.
Proof. apply all_calls_weaken. intros c Hc. destruct c; first [by intros [] | by destruct Hc]. Qed.

Lemma load_relation_is_read x y : all_calls is_read (load_relation x y).
Proof.
  apply all_calls_bind.
  - apply all_calls_join; apply all_calls_join; (apply all_calls_bind; [by split|]);
      intros [[]|]; done.
  - by intros [[] []].
Qed.

Lemma load_relation_quiet x y : all_calls (not ∘ is_write) (load_relation x y).
Proof. apply read_quiet, load_relation_is_read. Qed.

Lemma sever_leaves a b x y o :
  (x, y) ≠ (a, b) ∧ (x, y) ≠ (b, a) → all_calls (leaves a b) (sever x y o).
Proof.
  intros Hxy. destruct o as [t|]; [|done]. apply all_calls_attempt; [by eapply ask_leaves; eauto|].
  intros _. apply quiet_leaves. solve_quiet.
Qed.

(** Splits a handler into its calls. *)
Ltac solve_leaves Hxy :=
  repeat first
    [ progress intros
    | apply all_calls_attempt
    | done
    | by apply quiet_leaves, load_relation_quiet
    | by eapply ask_leaves; [exact Hxy|eauto]
    | by apply quiet_leaves; solve_quiet
    | by apply all_calls_join; apply sever_leaves; naive_solver
    | apply all_calls_bind
    | match goal with
      | |- all_calls _ (match ?x with _ => _ end) => destruct x
      end ].

Lemma command_leaves act cmd a b :
  elsewhere a b (request_of act cmd) → all_calls (leaves a b) (handler_of act cmd).
Proof.
  intros He.
  assert (Hn : ∀ x y, profile_id_of (actor_id cmd) = Ok x → profile_id_of (target_id cmd) = Ok y →
    (x, y) ≠ (a, b) ∧ (x, y) ≠ (b, a)) by (intros x y Hx Hy; apply He; by destruct act).
  clear He. destruct (profile_id_of (actor_id cmd)) as [x|e] eqn:Hx; [|by destruct act; simpl; unfold follow_profile, unfollow_profile, block_profile, unblock_profile; rewrite Hx].
  destruct (profile_id_of (target_id cmd)) as [y|e] eqn:Hy; [|by destruct act; simpl; unfold follow_profile, unfollow_profile, block_profile, unblock_profile; rewrite Hx, attempt_ok, Hy].
  specialize (Hn x y eq_refl eq_refl).
  destruct act; simpl; unfold follow_profile, unfollow_profile, block_profile, unblock_profile;
    rewrite Hx, attempt_ok, Hy, attempt_ok; solve_leaves Hn.
Qed.

Lemma get_counts_reads p : all_calls is_read (get_counts p).
Proof.
  apply all_calls_bind; [|by intros []].
  apply all_calls_join; by split.
Qed.

Lemma relation_status_reads q : all_calls is_read (get_relation_status q).
Proof.
  unfold get_relation_status. apply all_calls_attempt; [done|]. intros x.
  apply all_calls_attempt; [done|]. intros y. apply all_calls_bind.
  - apply all_calls_join; [apply load_relation_is_read|apply get_counts_reads].
  - intros [r counts]. apply all_calls_attempt; [done|]. intros rel. by destruct counts as [[]|].
Qed.

Lemma pages_read q :
  all_calls is_read (list_followers_query q) ∧
  all_calls is_read (list_following_query q) ∧
  all_calls is_read (list_blocks_query q).
Proof.
  split_and!; repeat first
    [ progress intros | apply all_calls_attempt | done
    | match goal with |- all_calls _ (ask _) => by split end ].
Qed.

Lemma query_rpc_reads b stamp k (q : query k) f h :
  b !! k = Some (handle_query_erased (query_handler k h)) →
  (∀ e, all_calls is_read (h e)) → all_calls is_read (query_rpc b stamp k q f).
Proof.
  intros Hk Hh. apply all_calls_bind; [|done]. unfold dispatch_query. rewrite Hk.
  apply all_calls_bind; [|done]. unfold handle_query_erased.
  rewrite (downcast_same (λ k, Envelope (query k))). apply all_calls_bind; [|done]. apply Hh.
Qed.

Definition is_command (r : Request) : Prop :=
  match r with
  | FollowRequest _ | UnfollowRequest _ | BlockRequest _ | UnblockRequest _ => True
  | _ => False
  end.

Lemma query_reads stamp r : ¬ is_command r → all_calls is_read (serve th stamp r).
Proof.
  intros Hr. destruct r as [c|c|c|c|q|q|q|q]; try by destruct Hr.
  - eapply (query_rpc_reads _ stamp GetRelationStatusQuery); [reflexivity|apply relation_status_reads].
  - eapply (query_rpc_reads _ stamp ListFollowersQuery); [reflexivity|apply pages_read].
  - eapply (query_rpc_reads _ stamp ListFollowingQuery); [reflexivity|apply pages_read].
  - eapply (query_rpc_reads _ stamp ListBlocksQuery); [reflexivity|apply pages_read].
Qed.

Lemma serve_leaves a b stamp r : elsewhere a b r → all_calls (leaves a b) (serve th stamp r).
Proof.
  intros He.
  assert (Hcmd : ∀ act cmd, r = request_of act cmd → all_calls (leaves a b) (serve th stamp r)).
  { intros act cmd ->. rewrite serve_command. apply all_calls_bind; [|done].
    apply all_calls_bind; [|done]. by apply command_leaves. }
  destruct r as [c|c|c|c|q|q|q|q];
    [by apply (Hcmd DoFollow c)|by apply (Hcmd DoUnfollow c)|by apply (Hcmd DoBlock c)
    |by apply (Hcmd DoUnblock c)|..]; apply quiet_leaves, read_quiet, query_reads; by intros [].
Qed.

(** *** One command among requests on other pairs *)

(** The answer to a command and the pair it leaves. *)
Definition answered (act : action) (cmd : ProfilePair) (now : Z) (a b : Uuid)
    (c : RelationContext.t) (r : option (result StatusCode Response)) (w : World) : Prop :=
  clean a b w ∧
  match contract now a b act c with
  | Ok c' => r = reply_to cmd (Ok tt) ∧ context a b w = c'
  | Err e => r = reply_to cmd (Err e) ∧ context a b w = c
  end.

Definition pool (reqs : list (Stamp * Request)) : list (program (option (result StatusCode Response))) :=
  (λ sr, serve th sr.1 sr.2) <$> reqs.

Lemma handler_keeps_contract act cmd a b :
  a ≠ b → profile_id_of (actor_id cmd) = Ok a → profile_id_of (target_id cmd) = Ok b →
  keeps_contract a b act (handler_of act cmd).
Proof.
  intros Hab Ha Hb. destruct act; [by apply follow_keeps_contract|by apply unfollow_keeps_contract
    |by apply block_keeps_contract|by apply unblock_keeps_contract].
Qed.

Lemma serve_keeps_contract stamp act cmd a b w :
  a ≠ b → profile_id_of (actor_id cmd) = Ok a → profile_id_of (target_id cmd) = Ok b →
  clean a b w →
  rg answer durable (same_pair a b) (λ _ _, True) (serve th stamp (request_of act cmd))
    (λ r w', ∃ n, answered act cmd (utc n) a b (context a b w) r w') w.
Proof.
  intros Hab Ha Hb Hc. rewrite serve_command. apply rg_bind; [apply _|].
  apply rg_bind; [apply _|].
  eapply rg_weaken; [| | |exact (handler_keeps_contract act cmd a b Hab Ha Hb w Hc)]; [done..|].
  intros r w1 [n Hm] w2 Hw2 w3 Hw3. exists n.
  apply (meets_stable a b _ _ _ _ w1 w3) in Hm; [|by trans w2]. destruct Hm as [Hc3 Hm].
  split; [done|]. destruct (contract _ _ _ _ _); destruct Hm as [-> ?]; by split.
Qed.

(** C7. A command does to its pair what the domain says.  Let requests run in a pool, in
    any interleaving, with a clock that moves and a Redis that restarts whenever; let the
    others be about other pairs, and fail in any way; let Redis and Kafka fail the command
    too, while its own Scylla statements get through.  If the pair's rows were consistent
    and the command has returned, they still are, and for some reading of the clock the
    answer and the follows and blocks between the two are those of [contract]: the error
    and no change, or success and the new relation. *)
Theorem command_meets_its_contract reqs i stamp act cmd a b w ms r :
  a ≠ b → profile_id_of (actor_id cmd) = Ok a → profile_id_of (target_id cmd) = Ok b →
  reqs !! i = Some (stamp, request_of act cmd) →
  (∀ j sr, j ≠ i → reqs !! j = Some sr → elsewhere a b sr.2) →
  lawful_run answer nature (λ j c f, j = i → durable c f) (pool reqs, w) ms →
  clean a b w →
  (run_moves answer nature (pool reqs, w) ms).1 !! i = Some (Ret r) →
  ∃ n, answered act cmd (utc n) a b (context a b w) r (run_moves answer nature (pool reqs, w) ms).2.
Proof.
  intros Hab Ha Hb Hi Hothers Hl Hc Hr.
  set (Rs := λ j : nat, if decide (j = i) then same_pair a b else λ _ _, True).
  set (Gs := λ j : nat, if decide (j = i) then λ _ _, True else same_pair a b).
  set (Φs := λ (j : nat) r w', if decide (j = i)
             then ∃ n, answered act cmd (utc n) a b (context a b w) r w' else True).
  assert (Ht : on_track answer (λ j c f, j = i → durable c f) Rs Gs Φs
                 (run_moves answer nature (pool reqs, w) ms)).
  { assert (HT : ∀ j, Transitive (Rs j)) by (intros j; unfold Rs; case_decide; [apply _|by intros ?]).
    assert (HRf : ∀ j, Reflexive (Rs j)) by (intros j; unfold Rs; case_decide; [apply _|by intros ?]).
    apply on_track_run; [exact HT| | |exact HRf|done|].
    - intros j k x y Hjk. unfold Rs, Gs. repeat case_decide; congruence || done.
    - intros j x w'. unfold Rs. case_decide; [apply nature_leaves|done].
    - intros j p Hj. unfold pool in Hj. simpl in Hj. rewrite list_lookup_fmap in Hj.
      destruct (reqs !! j) as [sr|] eqn:Hsr; [|done]. injection Hj as <-. simpl.
      unfold Rs, Gs, Φs. destruct (decide (j = i)) as [->|Hne].
      + rewrite Hsr in Hi. injection Hi as ->. simpl.
        eapply rg_weaken_allowed; [|by apply serve_keeps_contract]. auto.
      + apply rg_quiet. eapply all_calls_weaken, serve_leaves, Hothers; [|done..].
        intros c Hlv f x _. by apply leaves_call. }
  specialize (Ht i _ Hr). unfold Rs, Φs in Ht. simpl in Ht.
  destruct (decide (i = i)) as [_|]; [|done]. by apply Ht.
Qed.

(** *** The two adjacency tables *)

(** [following] and [followers] mirror each other, and every follow has its rows. *)
Definition mirrored (w : World) : Prop :=
  (∀ a t b, (a, t, b) ∈ following w ↔ (b, t, a) ∈ followers w) ∧
  (∀ a b t, follow_status w !! (a, b) = Some t → (a, t, b) ∈ following w).

Lemma mirrored_same x y : same_tables x y → mirrored x → mirrored y.
Proof. intros [E1 E2 E3 _] [Hm Hs]. split; by rewrite ?E1, ?E2, ?E3. Qed.

Lemma insert_follow_mirrored x y ts w : mirrored w → mirrored (insert_follow x y ts w).
Proof.
  intros [Hm Hs]. split; simpl.
  - intros a t b. rewrite !elem_of_union, !elem_of_singleton, Hm. naive_solver.
  - intros a b t. destruct (decide ((x, y) = (a, b))) as [[= -> ->]|Hne].
    + rewrite lookup_insert_eq. intros [= ->]. set_solver.
    + rewrite lookup_insert_ne by done. intros Ht. apply elem_of_union_r. by apply Hs.
Qed.

Lemma delete_follow_mirrored x y ts w : mirrored w → mirrored (delete_follow_rows x y ts w).
Proof.
  intros [Hm Hs]. split; simpl.
  - intros a t b. rewrite !elem_of_difference, !elem_of_singleton, Hm. naive_solver.
  - intros a b t. destruct (decide ((x, y) = (a, b))) as [[= -> ->]|Hne].
    + by rewrite lookup_delete_eq.
    + rewrite lookup_delete_ne by done. intros Ht. apply elem_of_difference.
      split; [by apply Hs|]. set_solver.
Qed.

Lemma call_mirrored c f w : mirrored w → mirrored (answer c f w).1.
Proof.
  intros Hw.
  destruct c; try (by apply (mirrored_same w); [apply quiet_call; intros []|]); simpl;
    match goal with |- context [scylla ?f ?g ?r w] => destruct (scylla_world f g r w) as [-> | ->] end;
    try done; [by apply insert_follow_mirrored|by apply delete_follow_mirrored].
Qed.

Lemma all_calls_true {A} (p : program A) : all_calls (λ _, True) p.
Proof. induction p; simpl; auto. Qed.

(** C25. The two adjacency tables agree.  Whatever requests run together, however their
    statements interleave and whichever fail before or after taking effect, a follow is in
    the follower's partition exactly when it is in the followee's, and every follow the
    status table knows has its rows. *)
Theorem indexes_agree reqs w ms :
  mirrored w → mirrored (run_moves answer nature (pool reqs, w) ms).2.
Proof.
  intros Hw. apply (run_moves_keeps answer nature mirrored (λ _, True)); [| | |done].
  - intros c f x _. apply call_mirrored.
  - intros [n|] x; by apply mirrored_same.
  - apply Forall_forall. intros p _. apply all_calls_true.
Qed.

(** *** Every request is answered *)

Lemma query_rpc_returns b stamp k (q : query k) f h :
  b !! k = Some (handle_query_erased (query_handler k h)) →
  all_rets is_Some (query_rpc b stamp k q f).
Proof.
  intros Hk. apply all_rets_then with (Q := is_Some); [|intros ? [[x|e] ->]; by eexists].
  unfold dispatch_query. rewrite Hk.
  apply all_rets_then with (Q := λ r, ∃ o, r = Some (existT k <$> o)).
  - unfold handle_query_erased. rewrite (downcast_same (λ k, Envelope (query k))).
    apply all_rets_bind. intros r. by eexists.
  - intros r [[x|e] ->]; simpl; [|by eexists]. rewrite downcast_same. by eexists.
Qed.

Lemma serve_returns stamp r : all_rets is_Some (serve th stamp r).
Proof.
  assert (Hcmd : ∀ act cmd, all_rets is_Some (serve th stamp (request_of act cmd))).
  { intros act cmd. rewrite serve_command. apply all_rets_then with (Q := is_Some).
    - apply all_rets_bind. intros []; by eexists.
    - intros ? [[|] ->]; by eexists. }
  destruct r as [c|c|c|c|q|q|q|q];
    [apply (Hcmd DoFollow c)|apply (Hcmd DoUnfollow c)|apply (Hcmd DoBlock c)
    |apply (Hcmd DoUnblock c)|..].
  - by eapply (query_rpc_returns _ stamp GetRelationStatusQuery).
  - by eapply (query_rpc_returns _ stamp ListFollowersQuery).
  - by eapply (query_rpc_returns _ stamp ListFollowingQuery).
  - by eapply (query_rpc_returns _ stamp ListBlocksQuery).
Qed.

(** Every request is answered.  From any point of any run of a pool, a request given
    its turns returns a response or a gRPC status: it ends, and no [expect] behind the
    buses panics. *)
Theorem requests_are_answered reqs w ms i sr :
  reqs !! i = Some sr →
  ∃ ms' answer_i, (run_moves answer nature (pool reqs, w) (ms ++ ms')).1 !! i
                  = Some (Ret (Some answer_i)).
Proof.
  intros Hi.
  assert (Hr : Forall (all_rets is_Some) (run_moves answer nature (pool reqs, w) ms).1).
  { apply run_moves_rets, Forall_fmap, Forall_forall. intros x _. apply serve_returns. }
  destruct (run_moves answer nature (pool reqs, w) ms) as [ts w1] eqn:E. simpl in Hr.
  assert (Hlen : length ts = length reqs).
  { trans (length (run_moves answer nature (pool reqs, w) ms).1); [by rewrite E|].
    rewrite run_moves_length. simpl. apply length_fmap. }
  destruct (lookup_lt_is_Some_2 ts i) as [p Hp].
  { rewrite Hlen. by eapply lookup_lt_Some. }
  destruct (task_returns answer nature ts w1 i p Fine Hp) as (ms' & a & w' & Hms).
  assert (Ha : Forall (all_rets is_Some) (<[i := Ret a]> ts)).
  { change ts with (ts, w1).1 in Hr. apply (run_moves_rets answer nature is_Some _ ms') in Hr.
    by rewrite Hms in Hr. }
  assert (Hl : <[i := Ret a]> ts !! i = Some (Ret a)) by (by eapply list_lookup_insert_eq, lookup_lt_Some).
  pose proof (Forall_lookup_1 _ _ _ _ Ha Hl) as [x Hx]. simpl in Hx. subst a.
  exists ms', x. unfold run_moves. rewrite foldl_app. fold (run_moves answer nature (pool reqs, w) ms).
  rewrite E. fold (run_moves answer nature (ts, w1) ms'). by rewrite Hms.
Qed.
End Service.
