(* ===== verification/SocialGraphEvents.v ===== *)
(** * Social graph: what is published, and when

    Whatever the backends reply and however a task's calls fall among others': a command
    that fails publishes nothing, one that succeeds publishes its event after its write was
    acknowledged. *)

From S2P Require Import Prelude Prog Cqrs SocialGraphDomain SocialGraphStore SocialGraphHandlers SocialGraphEdge SocialGraphPairs SocialGraphContract.
From S2P Require AccountDomain.
Import AccountDomain(Uuid, UuidText, parse_uuid, hyphenated).
Local Open Scope Z_scope.

Abbreviation trace := (list {c : call & reply c}).

Definition record_of (x : {c : call & reply c}) : option EventEnvelope.t :=
  match projT1 x with Produce e => Some e | _ => None end.
(** The records a trace hands to the producer. *)
Definition records (tr : trace) : list EventEnvelope.t := omap record_of tr.

Definition is_tier_record (e : EventEnvelope.t) : Prop :=
  EventEnvelope.topic e = TOPIC_AUTHOR_TIER_CHANGED.
#[export] Instance is_tier_record_dec e : Decision (is_tier_record e).
Proof. unfold is_tier_record. apply _. Defined.
(** Those about edges. *)
Definition edge_records (tr : trace) : list EventEnvelope.t :=
  filter (not ∘ is_tier_record) (records tr).

(** An acknowledged statement. *)
Definition acked (x : {c : call & reply c}) : Prop :=
  match projT1 x as c return reply c → Prop with
  | BatchInsertFollow _ _ _ | BatchDeleteFollow _ _ _ | InsertBlock _ _ _ | DeleteBlock _ _ =>
      λ r, r = Ok tt
  | _ => λ _, False
  end (projT2 x).

(** The write of a command on the pair, and the records that tell of it. *)
Definition told `{UuidText} (act : action) (a b : Uuid) (c : call) (es : list EventEnvelope.t) :
    Prop :=
  match act with
  | DoFollow => ∃ t, c = BatchInsertFollow a b (dt_ms t) ∧
      es = [edge_envelope TOPIC_FOLLOWED "ProfileFollowed" a b (ProfileFollowed a b t)]
  | DoUnfollow => ∃ ts t, c = BatchDeleteFollow a b ts ∧
      es = [edge_envelope TOPIC_UNFOLLOWED "ProfileUnfollowed" a b (ProfileUnfollowed a b t)]
  | DoBlock => ∃ ts t s1 s2, c = InsertBlock a b ts ∧
      es = [edge_envelope TOPIC_BLOCKED "ProfileBlocked" a b (ProfileBlocked a b t s1 s2)]
  | DoUnblock => c = DeleteBlock a b ∧ es = []
  end.

Lemma records_app tr1 tr2 : records (tr1 ++ tr2) = records tr1 ++ records tr2.
Proof. apply omap_app. Qed.
Lemma edge_records_app tr1 tr2 : edge_records (tr1 ++ tr2) = edge_records tr1 ++ edge_records tr2.
Proof. unfold edge_records. by rewrite records_app, list.filter_app. Qed.

Definition silent (c : call) : Prop := match c with Produce _ => False | _ => True end.
(** Calls that produce nothing but tier signals. *)
Definition tier_only (c : call) : Prop :=
  match c with Produce e => is_tier_record e | _ => True end.

Lemma silent_records tr : Forall (λ x, silent (projT1 x)) tr → records tr = [].
Proof. induction 1 as [|[c r] tr Hx _ IH]; [done|]. simpl. unfold records in *. simpl. by destruct c. Qed.

Lemma acked_silent x : acked x → records [x] = [].
Proof. destruct x as [c r]. by destruct c. Qed.

Lemma silent_edge_records tr : Forall (λ x, silent (projT1 x)) tr → edge_records tr = [].
Proof. intros Ht. unfold edge_records. by rewrite silent_records. Qed.

Lemma tier_only_records tr : Forall (λ x, tier_only (projT1 x)) tr → edge_records tr = [].
Proof.
  induction 1 as [|[c r] tr Hx _ IH]; [done|]. unfold edge_records, records in *. simpl.
  destruct c; try done. simpl in *. rewrite list.filter_cons_False; [done|]. intros Hn. by apply Hn.
Qed.

Section Events.
Context `{UuidText, UtcClock, UuidOrder, PageTokens} (th : TierThresholds).
Context (a b : Uuid) (cmd : ProfilePair).
Context (Ha : profile_id_of (actor_id cmd) = Ok a) (Hb : profile_id_of (target_id cmd) = Ok b).

(** Everything before the write is silent; the write is acknowledged; then the event. *)
Definition protocol (act : action) (p : program (outcome unit)) : Prop :=
  ∀ tr r, traces p tr r →
    match r with
    | Err _ => records tr = []
    | Ok _ => ∃ pre x post, tr = pre ++ x :: post ∧ records pre = [] ∧ acked x ∧
                told act a b (projT1 x) (edge_records post)
    end.

Lemma load_relation_silent x y : all_calls silent (load_relation x y).
Proof.
  apply all_calls_bind.
  - apply all_calls_join; apply all_calls_join; apply all_calls_bind; try done; by intros [[]|].
  - by intros [[] []].
Qed.

(** A prefix that produces nothing. *)
Lemma protocol_silent {A} act (m : program (outcome A)) (f : A → program (outcome unit)) :
  all_calls silent m → (∀ x, protocol act (f x)) → protocol act (attempt m f).
Proof.
  intros Hm Hf tr r [(tr1 & x & tr2 & -> & Hm1 & Hf2)|(e & Hm1 & ->)]%traces_attempt.
  - assert (Hs := silent_records _ (traces_calls _ _ _ _ Hm Hm1)). specialize (Hf x tr2 r Hf2).
    destruct r as [[]|e]; [|by rewrite records_app, Hs].
    destruct Hf as (pre & y & post & -> & Hpre & ?). exists (tr1 ++ pre), y, post.
    split; [by rewrite app_assoc|]. by rewrite records_app, Hs.
  - by eapply silent_records, traces_calls.
Qed.

Lemma protocol_bind {A} act (m : program A) (f : A → program (outcome unit)) :
  all_calls silent m → (∀ x, protocol act (f x)) → protocol act (prog_bind f m).
Proof.
  intros Hm Hf tr r (tr1 & x & tr2 & -> & Hm1 & Hf2)%traces_bind.
  assert (Hs := silent_records _ (traces_calls _ _ _ _ Hm Hm1)). specialize (Hf x tr2 r Hf2).
  destruct r as [[]|e]; [|by rewrite records_app, Hs].
  destruct Hf as (pre & y & post & -> & Hpre & ?). exists (tr1 ++ pre), y, post.
  split; [by rewrite app_assoc|]. by rewrite records_app, Hs.
Qed.

Lemma protocol_err act e : protocol act (Ret (Err e)).
Proof. intros tr r [-> ->]. done. Qed.

(** A tail: it publishes [es] and tier signals if it succeeds, and else nothing. *)
Definition tail_records (p : program (outcome unit)) (es : list EventEnvelope.t) : Prop :=
  ∀ tr r, traces p tr r →
    match r with Ok _ => edge_records tr = es | Err _ => records tr = [] end.

Lemma tail_tier {A} (m : program A) (f : A → program (outcome unit)) es :
  all_calls tier_only m → (∀ x, all_rets (eq (Ok tt)) (f x)) → (∀ x, tail_records (f x) es) →
  tail_records (prog_bind f m) es.
Proof.
  intros Hm Hr Hf tr r (tr1 & x & tr2 & -> & Hm1 & Hf2)%traces_bind.
  assert (Ht := tier_only_records _ (traces_calls _ _ _ _ Hm Hm1)).
  assert (Hok := traces_rets _ _ _ _ (Hr x) Hf2). subst r. specialize (Hf x tr2 _ Hf2).
  simpl in Hf. by rewrite edge_records_app, Ht.
Qed.

(** A step that may fail, before anything is published. *)
Lemma tail_attempt {A} (m : program (outcome A)) (f : A → program (outcome unit)) es :
  all_calls silent m → (∀ x, tail_records (f x) es) → tail_records (attempt m f) es.
Proof.
  intros Hm Hf tr r [(tr1 & x & tr2 & -> & Hm1 & Hf2)|(e & Hm1 & ->)]%traces_attempt.
  - assert (Ht := silent_records _ (traces_calls _ _ _ _ Hm Hm1)). specialize (Hf x tr2 r Hf2).
    unfold edge_records in *. destruct r; by rewrite records_app, Ht.
  - by eapply silent_records, traces_calls.
Qed.

Lemma tail_silent {A} (m : program A) (f : A → program (outcome unit)) es :
  all_calls silent m → (∀ x, tail_records (f x) es) → tail_records (prog_bind f m) es.
Proof.
  intros Hm Hf tr r (tr1 & x & tr2 & -> & Hm1 & Hf2)%traces_bind.
  assert (Ht := silent_records _ (traces_calls _ _ _ _ Hm Hm1)). specialize (Hf x tr2 r Hf2).
  unfold edge_records in *. destruct r; by rewrite records_app, Ht.
Qed.

Lemma publish_all_one e env :
  envelope_of e = Some env → ¬ is_tier_record env →
  tail_records (prog_bind (λ _, Ret (Ok tt)) (publish_all [e])) [env].
Proof.
  intros He Hn tr r Ht. simpl in Ht. unfold publish in Ht. rewrite He in Ht. simpl in Ht.
  destruct Ht as (rep & tr' & -> & -> & ->). unfold edge_records, records. simpl.
  by rewrite list.filter_cons_True.
Qed.

(** A program that is the write [c]: it succeeds if the write is acknowledged. *)
Definition writes (m : program (outcome unit)) (c : call) : Prop :=
  (∀ tr, traces m tr (Ok tt) → ∃ x, tr = [x] ∧ projT1 x = c ∧ acked x) ∧
  (∀ tr e, traces m tr (Err e) → records tr = []).

(** The write of a command, then its tail. *)
Lemma protocol_write act (m : program (outcome unit)) (c : call) f es :
  writes m c → told act a b c es → tail_records f es → protocol act (attempt m (λ _, f)).
Proof.
  intros [Hok Herr] Htold Hf tr r [(tr1 & [] & tr2 & -> & Hm1 & Hf2)|(e & Hm1 & ->)]%traces_attempt.
  - destruct (Hok _ Hm1) as (x & -> & Hx & Hack). specialize (Hf tr2 r Hf2).
    assert (Hs := acked_silent _ Hack).
    destruct r as [[]|e]; [|by rewrite records_app, Hs].
    exists [], x, tr2. rewrite Hx. split_and!; [done|done|done|]. by rewrite Hf.
  - by eapply Herr.
Qed.


Lemma emit_crossing_tier_only p n t : all_calls tier_only (emit_crossing p n t).
Proof. destruct t as [t|]; [|done]. by split; [|intros now; split]. Qed.

Lemma silent_tier_only {A} (p : program A) : all_calls silent p → all_calls tier_only p.
Proof. apply all_calls_weaken. intros c Hc. by destruct c. Qed.

Ltac solve_silent :=
  unfold add_following, remove_following, add_block, remove_block, incr_followers_count,
    incr_following_count, decr_followers_count, decr_following_count, attempt;
  repeat first
    [ progress intros | done | apply load_relation_silent | apply all_calls_bind
    | match goal with |- all_calls _ (match ?x with _ => _ end) => destruct x end ].

Ltac tail_step :=
  apply tail_tier;
    [first [by apply silent_tier_only; solve_silent
           | intros; match goal with |- all_calls _ (match ?x with _ => _ end) => destruct x end;
             [apply emit_crossing_tier_only|done]
           | apply emit_crossing_tier_only]
    |intros; solve_rets|intros ?].

(** *** What is loaded, and the event a decision leaves *)

Definition about_pair (r : outcome Relation.t) : Prop :=
  ∀ rel, r = Ok rel → Relation.actor_id rel = a ∧ Relation.target_id rel = b ∧
                      Relation.pending_events rel = [].

Lemma load_relation_about : all_rets about_pair (load_relation a b).
Proof.
  apply all_rets_then with (Q := λ _, True); [by apply all_rets_any|].
  intros [[r1 r2] [r3 r4]] _. simpl. unfold about_pair.
  destruct r1, r2, r3, r4; try done. by intros ? [= <-].
Qed.

(** Loads the pair, reads the clock. *)
Lemma protocol_load act (f : Relation.t → Z → program (outcome unit)) :
  (∀ rel now, about_pair (Ok rel) → protocol act (f rel now)) →
  protocol act (attempt (load_relation a b) (λ rel, prog_bind (f rel) (ask Now))).
Proof.
  intros Hf tr r [(tr1 & rel & tr2 & -> & Hm1 & Hf2)|(e & Hm1 & ->)]%traces_attempt.
  - assert (Hs := silent_records _ (traces_calls _ _ _ _ (load_relation_silent a b) Hm1)).
    assert (Hrel := traces_rets _ _ _ _ load_relation_about Hm1).
    destruct Hf2 as (now & tr3 & -> & Hf2). specialize (Hf rel now Hrel tr3 r Hf2).
    destruct r as [[]|e]; [|by rewrite records_app, Hs].
    destruct Hf as (pre & y & post & -> & Hpre & ?).
    exists (tr1 ++ existT Now now :: pre), y, post.
    split; [by rewrite <-app_assoc|]. rewrite records_app, Hs. done.
  - eapply silent_records, traces_calls, Hm1. apply load_relation_silent.
Qed.

Lemma follow_event now rel t rel' :
  about_pair (Ok rel) → Relation.follow now rel = Ok (t, rel') →
  t = now ∧ (Relation.take_events rel').1 = [ProfileFollowed a b now].
Proof.
  intros Hp. destruct (Hp _ eq_refl) as (<- & <- & He). unfold Relation.follow.
  destruct (_ || _); [done|]. destruct (Relation.actor_follows_target_since rel); [done|].
  intros [= <- <-]. simpl. by rewrite He.
Qed.
Lemma unfollow_event now rel t rel' :
  about_pair (Ok rel) → Relation.unfollow now rel = Ok (t, rel') →
  (Relation.take_events rel').1 = [ProfileUnfollowed a b now].
Proof.
  intros Hp. destruct (Hp _ eq_refl) as (<- & <- & He). unfold Relation.unfollow.
  destruct (Relation.actor_follows_target_since rel); [|done].
  intros [= <- <-]. simpl. by rewrite He.
Qed.
Lemma block_event now rel s rel' :
  about_pair (Ok rel) → Relation.block now rel = Ok (s, rel') →
  ∃ s1 s2, (Relation.take_events rel').1 = [ProfileBlocked a b now s1 s2].
Proof.
  intros Hp. destruct (Hp _ eq_refl) as (<- & <- & He). unfold Relation.block.
  destruct (Relation.actor_blocks_target rel); [done|].
  intros [= <- <-]. simpl. rewrite He. by eexists _, _.
Qed.

(** *** The four commands *)

Lemma write_exchange (m : program (outcome unit)) c :
  (∀ tr r, traces m tr r → ∃ rep : reply c, tr = [existT c rep] ∧ (acked (existT c rep) ↔ r = Ok tt)) →
  silent c → writes m c.
Proof.
  intros Hm Hc. split.
  - intros tr Ht. destruct (Hm _ _ Ht) as (rep & -> & Hack). eexists. split_and!; [done..|].
    by apply Hack.
  - intros tr e Ht. destruct (Hm _ _ Ht) as (rep & -> & _). apply silent_records. by repeat constructor.
Qed.

Lemma persist_follow_writes x y t : writes (persist_follow x y t) (BatchInsertFollow x y (dt_ms t)).
Proof. apply write_exchange; [|done]. by intros tr r (rep & tr' & -> & -> & ->); exists rep. Qed.
Lemma delete_follow_writes x y t : writes (delete_follow x y t) (BatchDeleteFollow x y (dt_ms t)).
Proof. apply write_exchange; [|done]. by intros tr r (rep & tr' & -> & -> & ->); exists rep. Qed.
Lemma persist_block_writes x y t : writes (persist_block x y t) (InsertBlock x y (dt_ms t)).
Proof. apply write_exchange; [|done]. by intros tr r (rep & tr' & -> & -> & ->); exists rep. Qed.
Lemma delete_block_writes x y : writes (delete_block x y) (DeleteBlock x y).
Proof. apply write_exchange; [|done]. by intros tr r (rep & tr' & -> & -> & ->); exists rep. Qed.


Lemma follow_protocol : protocol DoFollow (follow_profile th cmd).
Proof.
  unfold follow_profile. rewrite Ha, attempt_ok, Hb, attempt_ok.
  case_decide; [apply protocol_err|]. apply protocol_load. intros rel now Hrel.
  destruct (Relation.follow now rel) as [[t rel']|e] eqn:E; [|apply protocol_err].
  rewrite attempt_ok. destruct (follow_event _ _ _ _ Hrel E) as [-> ->].
  eapply protocol_write; [apply persist_follow_writes|by exists now|].
  do 4 tail_step. by apply publish_all_one.
Qed.

Lemma unfollow_protocol : protocol DoUnfollow (unfollow_profile th cmd).
Proof.
  unfold unfollow_profile. rewrite Ha, attempt_ok, Hb, attempt_ok.
  apply protocol_load. intros rel now Hrel.
  destruct (Relation.unfollow now rel) as [[t rel']|e] eqn:E; [|apply protocol_err].
  rewrite attempt_ok. rewrite (unfollow_event _ _ _ _ Hrel E).
  eapply protocol_write; [apply delete_follow_writes|by eexists _, now|].
  do 4 tail_step. by apply publish_all_one.
Qed.

Lemma sever_silent x y o : all_calls silent (sever x y o).
Proof. destruct o; [|done]. solve_silent. Qed.

Lemma block_protocol : protocol DoBlock (block_profile cmd).
Proof.
  unfold block_profile. rewrite Ha, attempt_ok, Hb, attempt_ok.
  case_decide; [apply protocol_err|]. apply protocol_load. intros rel now Hrel.
  destruct (Relation.block now rel) as [[s rel']|e] eqn:E; [|apply protocol_err].
  rewrite attempt_ok. destruct (block_event _ _ _ _ Hrel E) as (s1 & s2 & ->).
  apply protocol_bind; [done|]. intros t.
  eapply protocol_write; [apply persist_block_writes|by eexists _, now, s1, s2|].
  apply tail_silent; [apply all_calls_join; apply sever_silent|]. intros rs.
  apply tail_attempt; [by destruct rs.1|]. intros _.
  apply tail_attempt; [by destruct rs.2|]. intros _.
  apply tail_silent; [by solve_silent|]. intros _. by apply publish_all_one.
Qed.

Lemma unblock_protocol : protocol DoUnblock (unblock_profile cmd).
Proof.
  unfold unblock_profile. rewrite Ha, attempt_ok, Hb, attempt_ok.
  apply protocol_load. intros rel now _.
  destruct (Relation.unblock now rel) as [rel'|e]; [|apply protocol_err].
  rewrite attempt_ok. eapply protocol_write; [apply delete_block_writes|by split|].
  apply tail_silent; [by solve_silent|]. intros _ tr r [-> ->]. done.
Qed.

Lemma command_protocol act : protocol act (handler_of th act cmd).
Proof.
  destruct act; [apply follow_protocol|apply unfollow_protocol|apply block_protocol
    |apply unblock_protocol].
Qed.

(** C28. A command publishes its event after its write and never without.  Whatever the
    backends reply to its calls: a command that fails has handed nothing to the producer;
    one that succeeds handed over nothing before its statement was acknowledged, and then
    exactly its own event, tier signals aside (none for an unblock, whose event has no
    topic). *)
Theorem events_follow_their_writes act stamp tr r :
  traces (serve th stamp (request_of act cmd)) tr r →
  match r with
  | Some (Ok _) => ∃ pre write post, tr = pre ++ write :: post ∧ records pre = [] ∧
      acked write ∧ told act a b (projT1 write) (edge_records post)
  | _ => records tr = []
  end.
Proof.
  rewrite serve_command. intros (tr1 & x & tr2 & -> & Ht & [-> ->])%traces_bind.
  apply traces_bind in Ht as (tr3 & y & tr4 & -> & Hy & [-> ->]).
  rewrite !app_nil_r. specialize (command_protocol act _ _ Hy). by destruct y.
Qed.
End Events.
