(* ===== verification/SocialGraphPages.v ===== *)
(** * Social graph: walking a list page by page

    A client follows [next_page_token] until it is empty, and the tables may change between
    two pages.  [Keyset] is the argument for any table read in key order from a row on; the
    theorems apply it to the three list calls. *)

From stdpp Require Import sorting.
From S2P Require Import Prelude Prog Cqrs SocialGraphDomain SocialGraphStore SocialGraphHandlers SocialGraphEdge SocialGraphPairs.
From S2P Require AccountDomain.
From stdpp Require Import list.
Import SocialGraphStore(partition).
Import AccountDomain(Uuid, UuidText, parse_uuid, hyphenated).
Local Open Scope Z_scope.

(** ** Rows read in key order *)

Lemma filter_none {A} (P : A → Prop) `{∀ x, Decision (P x)} (l : list A) :
  (∀ x, x ∈ l → ¬ P x) → filter P l = [].
Proof.
  induction l as [|x l IH]; intros Hl; [done|].
  rewrite list.filter_cons_False by set_solver. apply IH. set_solver.
Qed.

Lemma filter_all {A} (P : A → Prop) `{∀ x, Decision (P x)} (l : list A) :
  (∀ x, P x) → filter P l = l.
Proof. intros HP. induction l as [|x l IH]; [done|]. by rewrite list.filter_cons_True, IH. Qed.

Section Keyset.
Context {Row : Type} (lt : relation Row) `{!RelDecision lt, !StrictOrder lt}.

Definition beyond (after : option Row) (r : Row) : Prop :=
  match after with Some k => lt k r | None => True end.
#[local] Instance beyond_dec after r : Decision (beyond after r).
Proof. destruct after; simpl; apply _. Defined.

Definition page_rows (after : option Row) (limit : nat) (rows : list Row) : list Row :=
  take limit (filter (beyond after) rows).

(** Pages from [after] on, each of the rows the table then has; [None] if they run out. *)
Fixpoint walk_rows (limit : nat) (after : option Row) (tables : list (list Row)) :
    option (list Row) :=
  match tables with
  | [] => None
  | rows :: tables =>
      let p := page_rows after limit rows in
      match list.last p with
      | Some r =>
          if decide (length p = limit) then app p <$> walk_rows limit (Some r) tables
          else Some p
      | None => Some p
      end
  end.

Definition in_order : list Row → Prop := StronglySorted (λ x y, lt x y).

Lemma in_order_filter (P : Row → Prop) `{∀ x, Decision (P x)} rows :
  in_order rows → in_order (filter P rows).
Proof.
  induction 1 as [|x rows Hs IH Hx]; [constructor|]. rewrite list.filter_cons.
  case_decide; [|done]. constructor; [done|]. apply Forall_forall. intros y [_ Hy]%list_elem_of_filter.
  by eapply Forall_forall in Hx.
Qed.

Lemma in_order_app l1 l2 :
  in_order (l1 ++ l2) ↔
  in_order l1 ∧ in_order l2 ∧ ∀ x y, x ∈ l1 → y ∈ l2 → lt x y.
Proof.
  induction l1 as [|z l1 IH]; simpl.
  - split; [|naive_solver]. intros Hl. split_and!; [constructor|done|set_solver].
  - split.
    + intros [Hl Hz]%StronglySorted_inv. apply IH in Hl as (?&?&?).
      rewrite Forall_app, !Forall_forall in Hz. destruct Hz.
      split_and!; [constructor; [done|by apply Forall_forall]|done|set_solver].
    + intros ([Hl Hz]%StronglySorted_inv & ? & Hx). constructor; [apply IH; set_solver|].
      apply Forall_app. split; [done|]. apply Forall_forall. set_solver.
Qed.

Lemma page_in_order after limit rows : in_order rows → in_order (page_rows after limit rows).
Proof.
  intros Hr. apply (in_order_filter (beyond after)) in Hr.
  rewrite <-(take_drop limit (filter (beyond after) rows)) in Hr. by apply in_order_app in Hr as [].
Qed.

Lemma page_beyond after limit rows r : r ∈ page_rows after limit rows → beyond after r ∧ r ∈ rows.
Proof. intros Hr%elem_of_take. destruct Hr as (i & Hr%list_elem_of_lookup_2 & _). by apply list_elem_of_filter in Hr. Qed.

(** Rows come in key order, so none comes twice. *)
Lemma walk_in_order limit after tables out :
  Forall in_order tables → walk_rows limit after tables = Some out →
  in_order out ∧ Forall (beyond after) out.
Proof.
  revert after out. induction tables as [|rows tables IH]; intros after out Ht; [done|].
  apply Forall_cons in Ht as [Hr Ht]. simpl. intros Hw.
  assert (Hp : in_order (page_rows after limit rows) ∧ Forall (beyond after) (page_rows after limit rows)).
  { split; [by apply page_in_order|]. apply Forall_forall. by intros r [??]%page_beyond. }
  destruct (list.last (page_rows after limit rows)) as [r|] eqn:Hlast; [|by simplify_eq].
  case_decide; [|by simplify_eq].
  destruct (walk_rows limit (Some r) tables) as [out'|] eqn:Hw'; simplify_eq/=.
  destruct (IH _ _ Ht Hw') as [Ho Hb]. destruct Hp as [Hp Hpb].
  apply last_Some in Hlast as [l' Hl]. rewrite Hl in *.
  assert (Hlt : ∀ x, x ∈ out' → lt r x) by (by apply Forall_forall).
  apply in_order_app in Hp as (? & ? & Hlr). split.
  - rewrite in_order_app. split_and!; [by apply in_order_app|done|]. intros x y Hx Hy.
    apply elem_of_app in Hx as [Hx|Hx]; [trans r; [apply Hlr; set_solver|by apply Hlt]|].
    apply list_elem_of_singleton in Hx as ->. by apply Hlt.
  - apply Forall_app. split; [done|]. apply Forall_forall. intros x Hx.
    destruct after as [k|]; [|done]. simpl. apply Forall_app in Hpb as [_ [Hrk _]%Forall_cons].
    trans r; [done|by apply Hlt].
Qed.

(** A row that comes up was there. *)
Lemma walk_from limit after tables out :
  walk_rows limit after tables = Some out → Forall (λ r, ∃ rows, rows ∈ tables ∧ r ∈ rows) out.
Proof.
  revert after out. induction tables as [|rows tables IH]; intros after out; [done|]. simpl.
  assert (Hp : Forall (λ r, ∃ rows', rows' ∈ rows :: tables ∧ r ∈ rows') (page_rows after limit rows)).
  { apply Forall_forall. intros r [_ Hr]%page_beyond. exists rows. set_solver. }
  destruct (list.last _) as [x|]; [|by intros [= <-]]. case_decide; [|by intros [= <-]].
  destruct (walk_rows _ _ _) as [out'|] eqn:Hw; [|done]. intros [= <-]. apply Forall_app.
  split; [done|]. eapply Forall_impl; [by eapply IH|]. intros r (rows' & ? & ?). exists rows'. set_solver.
Qed.

Lemma in_order_NoDup rows : in_order rows → NoDup rows.
Proof.
  induction 1 as [|x rows Hs IH Hx]; constructor; [|done].
  intros Hin. rewrite Forall_forall in Hx. by apply (irreflexivity lt x), Hx.
Qed.

(** A row that is there throughout comes up. *)
Lemma walk_finds limit after tables out r :
  (0 < limit)%nat →
  Forall in_order tables → walk_rows limit after tables = Some out →
  Forall (λ rows, r ∈ rows) tables → beyond after r → r ∈ out.
Proof.
  intros Hpos. revert after out. induction tables as [|rows tables IH]; intros after out Ht; [done|].
  apply Forall_cons in Ht as [Hs Ht]. simpl. intros Hw [Hr Hrs]%Forall_cons Hb.
  assert (Hf : r ∈ filter (beyond after) rows) by (by apply list_elem_of_filter).
  rewrite <-(take_drop limit (filter (beyond after) rows)), elem_of_app in Hf.
  fold (page_rows after limit rows) in Hf.
  assert (Hp := in_order_filter (beyond after) _ Hs).
  rewrite <-(take_drop limit (filter (beyond after) rows)) in Hp. fold (page_rows after limit rows) in Hp.
  apply in_order_app in Hp as (_ & _ & Hlt).
  destruct Hf as [Hf|Hd].
  - destruct (list.last _) as [x|]; [|by simplify_eq]. case_decide; [|by simplify_eq].
    destruct (walk_rows _ _ _); simplify_eq/=. set_solver.
  - assert (Hlen : length (page_rows after limit rows) = limit).
    { unfold page_rows. rewrite length_take_le; [done|].
      destruct (decide (limit ≤ length (filter (beyond after) rows))%nat); [done|].
      rewrite drop_ge in Hd by lia. by apply not_elem_of_nil in Hd. }
    destruct (list.last _) as [x|] eqn:Hlast.
    + rewrite decide_True in Hw by done. apply last_Some in Hlast as [l' Hl].
      destruct (walk_rows limit (Some x) tables) as [out'|] eqn:Hw'; simplify_eq/=.
      apply elem_of_app. right. eapply IH; [done..|]. simpl. apply Hlt; [|done]. rewrite Hl. set_solver.
    + apply last_None in Hlast. rewrite Hlast in Hlen. simpl in Hlen. lia.
Qed.

(** Over a table that does not change, the walk ends. *)
Lemma walk_ends limit after rows n :
  (0 < limit)%nat → in_order rows → (length (filter (beyond after) rows) < n)%nat →
  is_Some (walk_rows limit after (replicate n rows)).
Proof.
  intros Hpos Hs. revert after. induction n as [|n IH]; intros after Hn; [lia|]. simpl.
  destruct (list.last _) as [r|] eqn:Hlast; [|by eexists]. case_decide as Hlen; [|by eexists].
  apply fmap_is_Some, IH. eapply Nat.lt_le_trans; [|apply Nat.lt_succ_r, Hn].
  apply last_Some in Hlast as [l' Hl].
  assert (Hf := take_drop limit (filter (beyond after) rows)).
  fold (page_rows after limit rows) in Hf. rewrite <-Hf, length_app, Hlen.
  assert (Hr : beyond after r).
  { apply (page_beyond after limit rows). rewrite Hl. set_solver. }
  assert (Hs' := in_order_filter (beyond after) _ Hs).
  rewrite <-Hf, Hl in Hs'. apply in_order_app in Hs' as (Hs' & _).
  apply in_order_app in Hs' as (_ & _ & Hlast').
  set (d := drop limit _) in *. clearbody d.
  rewrite <-(list_filter_filter_l (beyond (Some r)) (beyond after)), <-Hf, Hl, list.filter_app.
  - rewrite filter_none; [simpl; pose proof (length_filter (beyond (Some r)) d); lia|].
    intros x [Hx| ->%list_elem_of_singleton]%elem_of_app; simpl; [|apply irreflexivity, _].
    intros Hxr. apply (irreflexivity lt r). trans x; [done|]. apply Hlast'; set_solver.
  - intros x Hx. destruct after as [k|]; [|done]. simpl in *. by trans r.
Qed.
End Keyset.

(** ** The three lists *)

Inductive listing := Followers | Followees | Blockees.

Definition list_request (l : listing) (s : string) (limit : Z) (token : string) : Request :=
  let r := {| req_of := s; req_limit := limit; req_page_token := token |} in
  match l with
  | Followers => ListFollowersRequest r
  | Followees => ListFollowingRequest r
  | Blockees => ListBlocksRequest r
  end.

(** Whom the tables say [p]'s list holds, and since which millisecond. *)
Definition listed (l : listing) (p : Uuid) (w : World) (r : Uuid * Z) : Prop :=
  match l with
  | Followers => (p, r.2, r.1) ∈ followers w
  | Followees => (p, r.2, r.1) ∈ following w
  | Blockees => blocks w !! (p, r.1) = Some r.2
  end.

(** What a token can tell apart: the instants of follows, the profiles of blocks. *)
Definition precedes `{UuidOrder} (l : listing) (x y : Uuid * Z) : Prop :=
  match l with
  | Blockees => uuid_le x.1 y.1 ∧ x.1 ≠ y.1
  | _ => y.2 < x.2
  end.

(** Instants are readable, and no two follows of a list are of one millisecond. *)
Record listable `{UtcClock} (l : listing) (p : Uuid) (w : World) : Prop := {
  li_time r : listed l p w r → is_Some (from_millis r.2);
  li_apart x y : l ≠ Blockees → listed l p w x → listed l p w y → x.2 = y.2 → x = y;
}.

Definition shown `{UuidText} (r : Uuid * Z) : string * Timestamp :=
  (hyphenated r.1, dt_to_ts (r.2 * 10 ^ 6)).

Section Lists.
Context `{UuidText, UtcClock, UuidOrder, PageTokens} (th : TierThresholds) (stamp : Stamp).

(** A client that follows the tokens; each page finds the next of the worlds [ws]. *)
Fixpoint walk (req : string → Request) (token : string) (ws : list World) :
    option (list (string * Timestamp)) :=
  match ws with
  | [] => None
  | w :: ws =>
      match (alone answer Fine (serve th stamp (req token)) w).2 with
      | Some (Ok (EdgesResponse es next)) =>
          if decide (next = "") then Some es else app es <$> walk req next ws
      | _ => None
      end
  end.

(** *** Partitions are in order *)

#[local] Instance precedes_dec l : RelDecision (precedes l).
Proof. intros x y. destruct l; simpl; apply _. Defined.
#[local] Instance precedes_strict l : StrictOrder (precedes l).
Proof.
  split.
  - intros x Hx. destruct l; simpl in Hx; [lia..|by destruct Hx].
  - intros x y z Hxy Hyz. destruct l; simpl in *; [lia..|]. destruct Hxy as [Hxy Hne], Hyz as [Hyz _].
    split; [by trans y.1|]. intros E. apply Hne, (anti_symm uuid_le); [done|by rewrite E].
Qed.

Definition rows_of (l : listing) (p : Uuid) (w : World) : list (Uuid * Z) :=
  match l with
  | Followers => partition p (followers w)
  | Followees => partition p (following w)
  | Blockees => block_partition p (blocks w)
  end.

Lemma elem_of_partition p rows r : r ∈ partition p rows ↔ (p, r.2, r.1) ∈ rows.
Proof.
  unfold partition. rewrite merge_sort_Permutation, list_elem_of_fmap. split.
  - intros ([[q t] u] & -> & [<- Hr]%list_elem_of_filter). simpl. by apply elem_of_elements.
  - intros Hr. exists (p, r.2, r.1). split; [by destruct r|].
    apply list_elem_of_filter. split; [done|by apply elem_of_elements].
Qed.

Lemma elem_of_block_partition p rows r : r ∈ block_partition p rows ↔ rows !! (p, r.1) = Some r.2.
Proof.
  unfold block_partition. rewrite merge_sort_Permutation, list_elem_of_fmap. split.
  - intros ([[q u] t] & -> & [<- Hr]%list_elem_of_filter). by apply elem_of_map_to_list.
  - intros Hr. exists ((p, r.1), r.2). split; [by destruct r|].
    apply list_elem_of_filter. split; [done|by apply elem_of_map_to_list].
Qed.

Lemma elem_of_rows_of l p w r : r ∈ rows_of l p w ↔ listed l p w r.
Proof. destruct l; [apply elem_of_partition..|apply elem_of_block_partition]. Qed.

#[local] Instance newer_first_po : Transitive newer_first.
Proof.
  intros x y z [Hxy|[Exy Hxy]] [Hyz|[Eyz Hyz]]; unfold newer_first; [left; lia..|].
  right. split; [congruence|by trans y.1].
Qed.
#[local] Instance newer_first_total : Total newer_first.
Proof.
  intros x y. unfold newer_first. destruct (Z.lt_trichotomy x.2 y.2) as [?|[?|?]]; [by auto| |by auto].
  destruct (total uuid_le x.1 y.1); auto.
Qed.
#[local] Instance by_blockee_trans : Transitive by_blockee.
Proof. intros x y z ??. unfold by_blockee in *. by trans y.1. Qed.
#[local] Instance by_blockee_total : Total by_blockee.
Proof. intros x y. apply (total uuid_le). Qed.

Lemma sorted_strictly l (R : relation (Uuid * Z)) rows :
  StronglySorted R rows → NoDup rows →
  (∀ x y, x ∈ rows → y ∈ rows → R x y → x ≠ y → precedes l x y) → in_order (precedes l) rows.
Proof.
  intros Hs. induction Hs as [|x rows Hs IH Hx]; [constructor|].
  intros [Hnx Hnd]%NoDup_cons HR. constructor; [apply IH; [done|set_solver]|].
  rewrite Forall_forall in Hx |- *. intros y Hy. apply HR; [set_solver..|by apply Hx|set_solver].
Qed.

Lemma rows_of_NoDup l p w : NoDup (rows_of l p w).
Proof.
  assert (Hp : ∀ rows, NoDup (partition p rows)).
  { intros rows. unfold partition. rewrite merge_sort_Permutation.
    apply NoDup_fmap_2_strong; [|apply NoDup_filter, NoDup_elements].
    intros [[q t] u] [[q' t'] u'] [E _]%list_elem_of_filter [E' _]%list_elem_of_filter.
    simpl in *. congruence. }
  destruct l; [apply Hp..|]. simpl. unfold block_partition. rewrite merge_sort_Permutation.
  apply NoDup_fmap_2_strong; [|apply NoDup_filter, NoDup_map_to_list].
  intros [[q u] t] [[q' u'] t'] [E _]%list_elem_of_filter [E' _]%list_elem_of_filter.
  simpl in *. congruence.
Qed.

Lemma rows_of_in_order l p w : listable l p w → in_order (precedes l) (rows_of l p w).
Proof.
  intros [_ Hapart].
  assert (Hnew : ∀ rows, l ≠ Blockees → partition p rows = rows_of l p w →
    in_order (precedes l) (rows_of l p w)).
  { intros rows Hl E. apply (sorted_strictly l newer_first); [|apply rows_of_NoDup|].
    - rewrite <-E. apply (StronglySorted_merge_sort newer_first).
    - intros x y Hx%elem_of_rows_of Hy%elem_of_rows_of [Hlt|[Heq _]] Hne;
        [by destruct l|]. destruct Hne. by apply Hapart. }
  destruct l; [by eapply Hnew..|].
  apply (sorted_strictly Blockees by_blockee); [|apply rows_of_NoDup|].
  - apply (StronglySorted_merge_sort by_blockee).
  - intros [u t] [v t'] Hx%elem_of_rows_of Hy%elem_of_rows_of Hle Hne. split; [done|].
    simpl in *. intros ->. simplify_eq.
Qed.

(** *** A page *)

(** A text is read back as the profile it came from. *)
Context (uuid_round : ∀ u : Uuid, parse_uuid (hyphenated u) = Some u).

Definition token_at (l : listing) (r : Uuid * Z) : string :=
  b64_encode (match l with Blockees => block_json (hyphenated r.1) | _ => follow_json r.2 end).
Definition token_after (l : listing) (after : option (Uuid * Z)) : string :=
  match after with Some r => token_at l r | None => "" end.

Lemma token_at_nonempty l r : token_at l r ≠ "".
Proof. apply b64_nonempty. destruct l; [apply follow_json_nonempty..|apply block_json_nonempty]. Qed.

Lemma token_of_after l after : token_of (token_after l after) = token_at l <$> after.
Proof.
  unfold token_of. destruct after as [r|]; simpl; [|done].
  rewrite decide_False; [done|apply token_at_nonempty].
Qed.

Definition page_size (limit : Z) : nat := Z.to_nat (clamp 1 100 limit).
Lemma page_size_pos limit : (0 < page_size limit)%nat.
Proof. unfold page_size, clamp. lia. Qed.
Lemma clamp_clamp x : clamp 1 100 (clamp 1 100 x) = clamp 1 100 x.
Proof. unfold clamp. lia. Qed.

Lemma edges_of_rows field rows :
  Forall (λ r, is_Some (from_millis r.2)) rows →
  edges_of field rows = Ok ((λ r, (r.1, r.2 * 10 ^ 6)) <$> rows).
Proof.
  induction 1 as [|[u ms] rows [t Ht] _ IH]; [done|]. simpl in *.
  rewrite Ht, IH. simpl. by rewrite (from_millis_inv _ _ Ht).
Qed.

Definition next_token (l : listing) (limit : nat) (rows : list (Uuid * Z)) : string :=
  match list.last rows with
  | Some r => if decide (length rows = limit) then token_at l r else ""
  | None => ""
  end.

Definition list_query_of (l : listing) : PageQuery → program (outcome Page) :=
  match l with
  | Followers => list_followers_query
  | Followees => list_following_query
  | Blockees => list_blocks_query
  end.

(** A query through its bus. *)
Lemma alone_query_rpc f b k (q : query k) g h w :
  b !! k = Some (handle_query_erased (query_handler k h)) →
  (alone answer f (query_rpc b stamp k q g) w).2
  = Some (match (alone answer f (h q) w).2 with
          | Ok x => Ok (g x)
          | Err e => Err (cqrs_to_status (from_handler e))
          end).
Proof.
  intros Hb. unfold query_rpc, dispatch_query. rewrite Hb.
  rewrite alone_bind, alone_fmap. unfold handle_query_erased.
  rewrite (downcast_same (λ k, Envelope (query k))), alone_fmap.
  change (handle_query (query_handler k h) (enveloped stamp q))
    with (h (payload_of (enveloped stamp q))).
  replace (payload_of (enveloped stamp q)) with q by (by destruct stamp as [[]]).
  change (qh_error (query_handler k h)) with SocialGraphError.
  destruct (alone answer f (h q) w) as [w' [x|e]]; cbn [snd]; [|done].
  cbn. by rewrite downcast_same.
Qed.

Lemma serve_list l s limit tok w :
  (alone answer Fine (serve th stamp (list_request l s limit tok)) w).2 =
  Some (match (alone answer Fine (list_query_of l {| page_of := s; page_limit := clamp 1 100 limit;
                                                     page_token := token_of tok |}) w).2 with
        | Ok pg => Ok (page_to_proto pg)
        | Err e => Err (cqrs_to_status (from_handler e))
        end).
Proof.
  destruct l; [by apply (alone_query_rpc Fine _ ListFollowersQuery)|by apply (alone_query_rpc Fine _ ListFollowingQuery)
    |by apply (alone_query_rpc Fine _ ListBlocksQuery)].
Qed.

Lemma decode_follow l after :
  l ≠ Blockees → decode_follow_token (token_at l <$> after) = Ok (snd <$> after).
Proof.
  intros Hl. unfold decode_follow_token, decode_token. destruct after as [r|]; simpl; [|done].
  unfold token_at. rewrite b64_round. simpl. destruct l; [|rewrite follow_json_round|done];
    simpl; by rewrite ?follow_json_round.
Qed.

Lemma decode_block after :
  decode_token parse_block_json "invalid block page token format" (token_at Blockees <$> after)
  = Ok (hyphenated ∘ fst <$> after).
Proof.
  unfold decode_token. destruct after as [r|]; simpl; [|done].
  unfold token_at. by rewrite b64_round; simpl; rewrite block_json_round.
Qed.

Lemma parse_after (after : option (Uuid * Z)) :
  match hyphenated ∘ fst <$> after with
  | None => Ok None
  | Some id =>
      Some <$> ok_or (parse_uuid id)
        (DomainViolation "page_token.last_blockee_id" "invalid UUID in block page token")
  end = Ok (fst <$> after).
Proof. destruct after as [r|]; simpl; by rewrite ?uuid_round. Qed.

Lemma select_before_page l after limit rows :
  l ≠ Blockees →
  select_before (snd <$> after) (clamp 1 100 limit) rows
  = page_rows (precedes l) after (page_size limit) rows.
Proof.
  intros Hl. unfold select_before, page_rows, page_size. f_equal.
  destruct after as [r|]; simpl.
  - apply list_filter_iff. intros x. by destruct l.
  - symmetry. by apply filter_all.
Qed.

Lemma select_after_page after limit rows :
  select_after (fst <$> after) (clamp 1 100 limit) rows
  = page_rows (precedes Blockees) after (page_size limit) rows.
Proof.
  unfold select_after, page_rows, page_size. f_equal. destruct after as [r|]; simpl.
  - apply list_filter_iff. intros x. naive_solver.
  - symmetry. by apply filter_all.
Qed.

(** A page of rows as the repository builds it, whatever its token says. *)
Lemma page_shown l limit rows (encode : option (Uuid * Z) → string) :
  (∀ r, b64_encode (encode (Some r)) = token_at l r) →
  page_to_proto ((λ r, (r.1, r.2 * 10 ^ 6)) <$> rows,
    if Z.of_nat (length rows) =? clamp 1 100 limit
    then Some (b64_encode (encode (list.last rows))) else None)
  = EdgesResponse (shown <$> rows) (next_token l (page_size limit) rows).
Proof.
  intros He. unfold page_to_proto, next_token. simpl. rewrite <-list_fmap_compose. f_equal.
  assert (Hsize : Z.of_nat (page_size limit) = clamp 1 100 limit) by (unfold page_size, clamp; lia).
  assert (Hpos := page_size_pos limit). rewrite <-Hsize.
  destruct (Z.eqb_spec (Z.of_nat (length rows)) (Z.of_nat (page_size limit))) as [E|E].
  - destruct (list.last rows) as [r|] eqn:Hl; [rewrite decide_True by lia; apply He|].
    apply last_None in Hl. subst. simpl in E. lia.
  - destruct (list.last rows); [|done]. by rewrite decide_False by lia.
Qed.

Lemma serve_page l s p limit after w :
  profile_id_of s = Ok p → listable l p w →
  let rows := page_rows (precedes l) after (page_size limit) (rows_of l p w) in
  (alone answer Fine (serve th stamp (list_request l s limit (token_after l after))) w).2
  = Some (Ok (EdgesResponse (shown <$> rows) (next_token l (page_size limit) rows))).
Proof.
  intros Hs Hl rows.
  assert (Ht : Forall (λ r, is_Some (from_millis r.2)) rows).
  { apply Forall_forall. intros r [_ Hr]%page_beyond. by apply (li_time l p w), elem_of_rows_of. }
  rewrite serve_list, token_of_after.
  destruct l; unfold list_query_of, list_followers_query, list_following_query,
    list_blocks_query, list_followers, list_following, list_blocks, build_follow_page,
    build_block_page; cbn [page_of page_limit page_token];
    rewrite Hs, attempt_ok, !clamp_clamp.
  - rewrite (decode_follow Followers), attempt_ok by done. simpl.
    rewrite (select_before_page Followers) by done. fold rows.
    rewrite (edges_of_rows _ _ Ht). simpl. do 2 f_equal.
    by apply (page_shown Followers limit rows
      (λ o, follow_json match o with Some r => r.2 | None => 0 end)).
  - rewrite (decode_follow Followees), attempt_ok by done. simpl.
    rewrite (select_before_page Followees) by done. fold rows.
    rewrite (edges_of_rows _ _ Ht). simpl. do 2 f_equal.
    by apply (page_shown Followees limit rows
      (λ o, follow_json match o with Some r => r.2 | None => 0 end)).
  - rewrite decode_block, attempt_ok.
    rewrite parse_after, attempt_ok. simpl. rewrite select_after_page. fold rows.
    rewrite (edges_of_rows _ _ Ht). simpl. do 2 f_equal.
    by apply (page_shown Blockees limit rows
      (λ o, block_json match o with Some r => hyphenated r.1 | None => "" end)).
Qed.

(** *** The walk *)

Lemma walk_is_walk_rows l s p limit after ws :
  profile_id_of s = Ok p → Forall (listable l p) ws →
  walk (list_request l s limit) (token_after l after) ws
  = (λ rows : list (Uuid * Z), shown <$> rows) <$> walk_rows (precedes l) (page_size limit) after (rows_of l p <$> ws).
Proof.
  intros Hs Hws. revert after. induction Hws as [|w ws Hw _ IH]; intros after; [done|]. simpl.
  rewrite (serve_page l s p) by done. unfold next_token.
  set (rows := page_rows _ _ _ _). destruct (list.last rows) as [r|]; [|done].
  destruct (decide (length rows = page_size limit)); [|done].
  rewrite decide_False by apply token_at_nonempty.
  change (token_at l r) with (token_after l (Some r)). rewrite IH.
  destruct (walk_rows _ _ _ _) as [out|]; simpl; [|done]. by rewrite fmap_app.
Qed.

Lemma rows_in_order l p ws :
  Forall (listable l p) ws → Forall (in_order (precedes l)) (rows_of l p <$> ws).
Proof. intros Hws. apply Forall_fmap. eapply Forall_impl; [exact Hws|]. intros w. apply rows_of_in_order. Qed.

(** C29. Following the page tokens shows the list.  Whatever the tables are changed to
    between the pages of a walk that ends, provided that no two follows of the list are of
    one millisecond, the client sees rows in the list's order, none twice, and among them
    every row that was there throughout.  Over tables that do not change the walk ends and
    shows exactly the followers, the followees or the blocked profiles. *)
Theorem pages_cover_the_list l s p limit :
  profile_id_of s = Ok p →
  (∀ ws out, Forall (listable l p) ws → walk (list_request l s limit) "" ws = Some out →
    ∃ rows, out = shown <$> rows ∧ StronglySorted (precedes l) rows ∧
      ∀ r, (∀ w, w ∈ ws → listed l p w r) → r ∈ rows) ∧
  (∀ w, listable l p w →
    ∃ n rows, walk (list_request l s limit) "" (replicate n w) = Some (shown <$> rows) ∧
      NoDup rows ∧ ∀ r, r ∈ rows ↔ listed l p w r).
Proof.
  intros Hs.
  assert (Hw : ∀ ws out, Forall (listable l p) ws → walk (list_request l s limit) "" ws = Some out →
    ∃ rows, out = shown <$> rows ∧ walk_rows (precedes l) (page_size limit) None (rows_of l p <$> ws) = Some rows).
  { intros ws out Hws. change "" with (token_after l None). rewrite (walk_is_walk_rows l s p) by done.
    destruct (walk_rows _ _ _ _) as [rows|]; [|done]. intros [= <-]. by exists rows. }
  split.
  - intros ws out Hws (rows & -> & Hr)%Hw; [|done]. exists rows. split; [done|].
    assert (Ho := rows_in_order l p ws Hws). split.
    + eapply walk_in_order; [apply _|exact Ho|exact Hr].
    + intros r Hin. eapply walk_finds; [apply _|apply page_size_pos|exact Ho|exact Hr| |done].
      apply Forall_fmap, Forall_forall. intros w Hiw. by apply elem_of_rows_of, Hin.
  - intros w Hl. set (n := S (length (rows_of l p w))).
    assert (Hws : Forall (listable l p) (replicate n w)) by (by apply Forall_replicate).
    assert (Ho := rows_of_in_order l p w Hl).
    destruct (walk_ends (precedes l) (page_size limit) None (rows_of l p w) n) as [rows Hrows];
      [apply page_size_pos|done|by rewrite filter_all; [apply Nat.lt_succ_diag_r|]|].
    exists n, rows. change "" with (token_after l None).
    rewrite (walk_is_walk_rows l s p), fmap_replicate, Hrows by done. split; [done|].
    assert (Hos : Forall (in_order (precedes l)) (replicate n (rows_of l p w)))
      by (by apply Forall_replicate).
    split.
    { eapply (in_order_NoDup (precedes l)), (walk_in_order (precedes l)); [exact Hos|exact Hrows]. }
    intros r.
    rewrite <-elem_of_rows_of. split; intros Hr.
    + assert (Hfrom := walk_from (precedes l) _ _ _ _ Hrows).
      destruct (proj1 (Forall_forall _ _) Hfrom r Hr) as (? & [-> _]%elem_of_replicate & ?). done.
    + eapply walk_finds; [apply _|apply page_size_pos|exact Hos|exact Hrows| |done].
      by apply Forall_replicate.
Qed.
End Lists.
