(* ===== verification/SocialGraphBooks.v ===== *)
(** * Social graph: the cache when requests come one at a time

    Served one after another by backends that do not fail, the requests leave Redis' sets
    and counters equal to the tables, and the last author tier told of a profile is that of
    its followers. *)

From S2P Require Import Prelude Prog Cqrs SocialGraphDomain SocialGraphStore SocialGraphHandlers SocialGraphEdge SocialGraphPairs SocialGraphContract.
From S2P Require AccountDomain.
Import AccountDomain(Uuid, UuidText, parse_uuid, hyphenated).
Local Open Scope Z_scope.

(** ** The books *)

Definition edges (w : World) : gset (Uuid * Uuid) := dom (follow_status w).

(** How many follow [p], and how many [p] follows. *)
Definition followers_n (p : Uuid) (w : World) : Z :=
  Z.of_nat (size (filter (λ e, e.2 = p) (edges w))).
Definition following_n (p : Uuid) (w : World) : Z :=
  Z.of_nat (size (filter (λ e, e.1 = p) (edges w))).

(** The tier a record tells of [p], and the last one told. *)
Definition tier_told `{UuidText} (p : Uuid) (e : EventEnvelope.t) : option Z :=
  match EventEnvelope.payload e with
  | EventEnvelope.AuthorTierChangedWire id t _ _ => if decide (id = hyphenated p) then Some t else None
  | _ => None
  end.
Definition last_tier `{UuidText} (p : Uuid) (w : World) : Z :=
  default (as_u8 Standard) (list.last (omap (tier_told p) (topic w))).

Record tallied `{UuidText, UtcClock} (w : World) : Prop := {
  ac_rows a b : whole a b w;
  ac_followers p : count_of (followers_count_key p) w = followers_n p w;
  ac_following p : count_of (following_count_key p) w = following_n p w;
  ac_follow_set p x :
    hyphenated x ∈ set_of (following_key p) w ↔ is_Some (follow_status w !! (p, x));
}.
Definition blocks_held `{UuidText} (w : World) : Prop :=
  ∀ p x, hyphenated x ∈ set_of (blocks_key p) w ↔ is_Some (blocks w !! (p, x)).
Definition accounted `{UuidText, UtcClock} (w : World) : Prop := tallied w ∧ blocks_held w.

Definition tiers_told `{UuidText} (th : TierThresholds) (w : World) : Prop :=
  ∀ p, last_tier p w = as_u8 (from_follower_count (followers_n p w) th).

(** ** Running alone *)

Section Alone.
Context `{UuidText, UtcClock, UuidOrder, PageTokens}.

Lemma alone_follow_since f x y w :
  durable Now f → whole x y w →
  alone answer f (get_follow_since x y) w
  = (w, Ok (Z.mul (10 ^ 6) <$> follow_status w !! (x, y))).
Proof.
  intros Hf [_ _ Ht]. unfold get_follow_since. simpl.
  rewrite (scylla_durable Now f) by done. simpl.
  destruct (follow_status w !! (x, y)) as [t|]; simpl; [|done].
  destruct (Ht t eq_refl) as [u Hu]. unfold ms_to_dt. rewrite Hu. simpl.
  by rewrite (from_millis_inv _ _ Hu), Z.mul_comm.
Qed.

Lemma alone_block_exists f x y w :
  durable Now f →
  alone answer f (get_block_exists x y) w = (w, Ok (bool_decide (is_Some (blocks w !! (x, y))))).
Proof. intros Hf. simpl. by rewrite (scylla_durable Now f). Qed.

Lemma alone_load f a b w :
  durable Now f → clean a b w →
  alone answer f (load_relation a b) w
  = (w, Ok (Relation.from_context a b (context a b w))).
Proof.
  intros Hf [Hab Hba]. unfold load_relation. rewrite alone_bind.
  by repeat (first [rewrite alone_join | rewrite alone_follow_since by done
    | rewrite alone_block_exists by done]; cbv beta iota).
Qed.
End Alone.

(** ** Adding and removing an edge *)

Section Edges.
Context `{UuidText, UtcClock}.

(** The rows, the set and the counters of a new edge. *)
Definition tie (a b : Uuid) (ts : Z) (w : World) : World :=
  insert_follow a b ts w
    <| sets := <[following_key a := {[hyphenated b]} ∪ set_of (following_key a) w]> (sets w) |>
    <| counts := <[followers_count_key b := count_of (followers_count_key b) w + 1]>
                 (<[following_count_key a := count_of (following_count_key a) w + 1]> (counts w)) |>.

Definition cut (a b : Uuid) (ts : Z) (w : World) : World :=
  delete_follow_rows a b ts w
    <| sets := <[following_key a := set_of (following_key a) w ∖ {[hyphenated b]}]> (sets w) |>
    <| counts := <[followers_count_key b := count_of (followers_count_key b) w + -1]>
                 (<[following_count_key a := count_of (following_count_key a) w + -1]> (counts w)) |>.

Definition tell (es : list EventEnvelope.t) (w : World) : World := w <| topic := topic w ++ es |>.

(** A text tells its profile. *)
Context (hyphenated_inj : Inj (=) (=) hyphenated).

Lemma append_inj (s t u : string) : s +:+ t = s +:+ u → t = u.
Proof. induction s as [|c s IH]; simpl; [done|]. intros [= E]. auto. Qed.

Lemma followers_count_key_inj p q : followers_count_key p = followers_count_key q → p = q.
Proof. intros E%append_inj. by apply hyphenated_inj. Qed.
Lemma following_count_key_inj p q : following_count_key p = following_count_key q → p = q.
Proof. intros E%append_inj. by apply hyphenated_inj. Qed.
Lemma following_key_inj p q : following_key p = following_key q → p = q.
Proof. intros E%append_inj. by apply hyphenated_inj. Qed.
Lemma blocks_key_inj p q : blocks_key p = blocks_key q → p = q.
Proof. intros E%append_inj. by apply hyphenated_inj. Qed.
Lemma count_keys_differ p q : followers_count_key p ≠ following_count_key q.
Proof. done. Qed.
Lemma set_keys_differ p q : following_key p ≠ blocks_key q.
Proof. done. Qed.

Lemma size_filter_insert (P : Uuid * Uuid → Prop) `{∀ e, Decision (P e)} (s : gset (Uuid * Uuid)) e :
  e ∉ s →
  Z.of_nat (size (filter P ({[e]} ∪ s)))
  = Z.of_nat (size (filter P s)) + (if decide (P e) then 1 else 0).
Proof.
  intros He. assert (filter P ({[e]} ∪ s) = filter P {[e]} ∪ filter P s) as -> by set_solver. destruct (decide (P e)) as [HP|HP].
  - assert (filter P {[e]} =@{gset _} {[e]}) as -> by set_solver. rewrite size_union by set_solver.
    rewrite size_singleton. lia.
  - assert (filter P {[e]} =@{gset _} ∅) as -> by set_solver. rewrite union_empty_l_L. lia.
Qed.

Lemma size_filter_delete (P : Uuid * Uuid → Prop) `{∀ e, Decision (P e)} (s : gset (Uuid * Uuid)) e :
  e ∈ s →
  Z.of_nat (size (filter P (s ∖ {[e]})))
  = Z.of_nat (size (filter P s)) + (if decide (P e) then -1 else 0).
Proof.
  intros He. assert (Hs := union_difference_singleton_L e s He).
  pose proof (size_filter_insert P (s ∖ {[e]}) e ltac:(set_solver)) as Hz. rewrite <-Hs in Hz.
  destruct (decide (P e)); lia.
Qed.

Lemma followers_n_tie p a b ts w :
  follow_status w !! (a, b) = None →
  followers_n p (tie a b ts w) = followers_n p w + (if decide (b = p) then 1 else 0).
Proof.
  intros Hn. unfold followers_n, edges. simpl. rewrite dom_insert_L.
  by rewrite size_filter_insert by by apply not_elem_of_dom.
Qed.
Lemma following_n_tie p a b ts w :
  follow_status w !! (a, b) = None →
  following_n p (tie a b ts w) = following_n p w + (if decide (a = p) then 1 else 0).
Proof.
  intros Hn. unfold following_n, edges. simpl. rewrite dom_insert_L.
  by rewrite size_filter_insert by by apply not_elem_of_dom.
Qed.
Lemma followers_n_cut p a b ts w :
  is_Some (follow_status w !! (a, b)) →
  followers_n p (cut a b ts w) = followers_n p w + (if decide (b = p) then -1 else 0).
Proof.
  intros Hn. unfold followers_n, edges. simpl. rewrite dom_delete_L.
  by rewrite size_filter_delete by by apply elem_of_dom.
Qed.
Lemma following_n_cut p a b ts w :
  is_Some (follow_status w !! (a, b)) →
  following_n p (cut a b ts w) = following_n p w + (if decide (a = p) then -1 else 0).
Proof.
  intros Hn. unfold following_n, edges. simpl. rewrite dom_delete_L.
  by rewrite size_filter_delete by by apply elem_of_dom.
Qed.

(** *** The books stay right *)

Lemma count_of_tie p a b ts w :
  count_of (followers_count_key p) (tie a b ts w)
  = count_of (followers_count_key p) w + (if decide (b = p) then 1 else 0) ∧
  count_of (following_count_key p) (tie a b ts w)
  = count_of (following_count_key p) w + (if decide (a = p) then 1 else 0).
Proof.
  unfold count_of at 1 3. simpl. split.
  - destruct (decide (b = p)) as [->|Hne]; [by rewrite lookup_insert_eq|].
    rewrite lookup_insert_ne by (by intros ?%followers_count_key_inj).
    rewrite lookup_insert_ne by done. unfold count_of. lia.
  - rewrite lookup_insert_ne by done.
    destruct (decide (a = p)) as [->|Hne]; [by rewrite lookup_insert_eq|].
    rewrite lookup_insert_ne by (by intros ?%following_count_key_inj). unfold count_of. lia.
Qed.

Lemma count_of_cut p a b ts w :
  count_of (followers_count_key p) (cut a b ts w)
  = count_of (followers_count_key p) w + (if decide (b = p) then -1 else 0) ∧
  count_of (following_count_key p) (cut a b ts w)
  = count_of (following_count_key p) w + (if decide (a = p) then -1 else 0).
Proof.
  unfold count_of at 1 3. simpl. split.
  - destruct (decide (b = p)) as [->|Hne]; [by rewrite lookup_insert_eq|].
    rewrite lookup_insert_ne by (by intros ?%followers_count_key_inj).
    rewrite lookup_insert_ne by done. unfold count_of. lia.
  - rewrite lookup_insert_ne by done.
    destruct (decide (a = p)) as [->|Hne]; [by rewrite lookup_insert_eq|].
    rewrite lookup_insert_ne by (by intros ?%following_count_key_inj). unfold count_of. lia.
Qed.

(** Inserting or removing a member at a key, and looking at another. *)
Lemma member_insert (key : Uuid → string) (m : gmap string (gset string)) p a b x :
  (∀ p q, key p = key q → p = q) →
  hyphenated x ∈ default ∅ (<[key a := {[hyphenated b]} ∪ default ∅ (m !! key a)]> m !! key p)
  ↔ (a, b) = (p, x) ∨ hyphenated x ∈ default ∅ (m !! key p).
Proof.
  intros Hkey. destruct (decide (a = p)) as [->|Hne].
  - rewrite lookup_insert_eq. simpl. rewrite elem_of_union, elem_of_singleton.
    split; (intros [E|?]; [left|by right]); [by apply hyphenated_inj in E as ->|by injection E as ->].
  - rewrite lookup_insert_ne by (by intros ?%Hkey). naive_solver.
Qed.

Lemma member_delete (key : Uuid → string) (m : gmap string (gset string)) p a b x :
  (∀ p q, key p = key q → p = q) →
  hyphenated x ∈ default ∅ (<[key a := default ∅ (m !! key a) ∖ {[hyphenated b]}]> m !! key p)
  ↔ (a, b) ≠ (p, x) ∧ hyphenated x ∈ default ∅ (m !! key p).
Proof.
  intros Hkey. destruct (decide (a = p)) as [->|Hne].
  - rewrite lookup_insert_eq. simpl. rewrite elem_of_difference, elem_of_singleton.
    split; [intros [? Hn]; split; [by intros [= ->]|done]|].
    intros [Hn ?]. split; [done|]. by intros ->%hyphenated_inj.
  - rewrite lookup_insert_ne by (by intros ?%Hkey). naive_solver.
Qed.

Lemma lookup_insert_some {V} (m : gmap (Uuid * Uuid) V) e v e' :
  is_Some (<[e := v]> m !! e') ↔ e = e' ∨ is_Some (m !! e').
Proof. rewrite lookup_insert_is_Some. destruct (decide (e = e')); naive_solver. Qed.
Lemma lookup_delete_some {V} (m : gmap (Uuid * Uuid) V) e e' :
  is_Some (delete e m !! e') ↔ e ≠ e' ∧ is_Some (m !! e').
Proof. apply lookup_delete_is_Some. Qed.

(** Books whose rows are right are right if sets and counters are. *)
Lemma whole_elsewhere a b x y w w' :
  ((x, y) ≠ (a, b) → same_edge a b w w') → whole x y w' → (∀ c d, whole c d w) → whole a b w'.
Proof.
  intros He Hxy Hw. destruct (decide ((x, y) = (a, b))) as [[= -> ->]|Hne]; [done|].
  eapply same_edge_whole; [by apply He|done].
Qed.

Lemma tallied_tie a b ts w :
  tallied w → follow_status w !! (a, b) = None → is_Some (from_millis ts) →
  tallied (tie a b ts w).
Proof.
  intros Hw Hn Hts. split.
  - intros c d. eapply same_edge_whole; [by apply (same_tables_edge c d (insert_follow a b ts w))|].
    eapply whole_elsewhere; [apply insert_follow_avoids| |apply (ac_rows w Hw)].
    apply insert_follow_whole; [done..|apply (ac_rows w Hw)].
  - intros p. rewrite (proj1 (count_of_tie p a b ts w)), followers_n_tie by done.
    by rewrite (ac_followers w Hw).
  - intros p. rewrite (proj2 (count_of_tie p a b ts w)), following_n_tie by done.
    by rewrite (ac_following w Hw).
  - intros p x. unfold set_of. simpl. unfold set_of.
    rewrite (member_insert following_key) by apply following_key_inj.
    rewrite lookup_insert_some. apply or_iff_compat_l, (ac_follow_set w Hw p x).
Qed.

Lemma tallied_cut a b ts w :
  tallied w → follow_status w !! (a, b) = Some ts → tallied (cut a b ts w).
Proof.
  intros Hw Hs. assert (Hsome : is_Some (follow_status w !! (a, b))) by (by rewrite Hs). split.
  - intros c d. eapply same_edge_whole; [by apply (same_tables_edge c d (delete_follow_rows a b ts w))|].
    eapply whole_elsewhere; [apply delete_follow_avoids| |apply (ac_rows w Hw)].
    apply delete_follow_whole; [done..|apply (ac_rows w Hw)].
  - intros p. rewrite (proj1 (count_of_cut p a b ts w)), followers_n_cut by done.
    by rewrite (ac_followers w Hw).
  - intros p. rewrite (proj2 (count_of_cut p a b ts w)), following_n_cut by done.
    by rewrite (ac_following w Hw).
  - intros p x. unfold set_of. simpl. unfold set_of.
    rewrite (member_delete following_key) by apply following_key_inj.
    rewrite lookup_delete_some. apply and_iff_compat_l, (ac_follow_set w Hw p x).
Qed.

(** Changes that leave edges, the sets of followings and the counters alone. *)
Lemma tallied_same w w' :
  (∀ a b, same_edge a b w w') → (∀ p, set_of (following_key p) w' = set_of (following_key p) w) →
  counts w' = counts w → edges w' = edges w → tallied w → tallied w'.
Proof.
  intros He Hs Hc Hd [Hr Hf Hg Hm]. unfold count_of, followers_n, following_n in *. split.
  - intros a b. eapply same_edge_whole; [apply He|apply Hr].
  - intros p. unfold count_of, followers_n. by rewrite Hc, Hd.
  - intros p. unfold count_of, following_n. by rewrite Hc, Hd.
  - intros p x. rewrite Hs, (se_status _ _ _ _ (He p x)). apply Hm.
Qed.

Lemma tallied_sets w a m :
  tallied w → tallied (w <| sets := <[blocks_key a := m]> (sets w) |>).
Proof.
  apply tallied_same; [by intros c d; apply same_tables_edge; split| |done|done].
  intros p. unfold set_of. simpl. by rewrite lookup_insert_ne.
Qed.
Lemma tallied_blocks w bs : tallied w → tallied (w <| blocks := bs |>).
Proof. intros [Hr Hf Hg Hm]. split; [|done..]. intros c d. by destruct (Hr c d). Qed.
Lemma tallied_tell es w : tallied w → tallied (tell es w).
Proof. apply tallied_same; [by intros c d; apply same_tables_edge; split|done..]. Qed.

Lemma held_sadd w w' a b ts :
  blocks_held w → blocks w' = <[(a, b) := ts]> (blocks w) →
  (∀ p, set_of (blocks_key p) w' = set_of (blocks_key p) w) →
  blocks_held (w' <| sets := <[blocks_key a := {[hyphenated b]} ∪ set_of (blocks_key a) w']> (sets w') |>).
Proof.
  intros Hh Hb Hs p x. unfold set_of. simpl. unfold set_of.
  rewrite (member_insert blocks_key) by apply blocks_key_inj. rewrite Hb, lookup_insert_some.
  apply or_iff_compat_l. change (hyphenated x ∈ set_of (blocks_key p) w' ↔ is_Some (blocks w !! (p, x))).
  rewrite Hs. apply Hh.
Qed.

Lemma held_srem w w' a b :
  blocks_held w → blocks w' = delete (a, b) (blocks w) →
  (∀ p, set_of (blocks_key p) w' = set_of (blocks_key p) w) →
  blocks_held (w' <| sets := <[blocks_key a := set_of (blocks_key a) w' ∖ {[hyphenated b]}]> (sets w') |>).
Proof.
  intros Hh Hb Hs p x. unfold set_of. simpl. unfold set_of.
  rewrite (member_delete blocks_key) by apply blocks_key_inj. rewrite Hb, lookup_delete_some.
  apply and_iff_compat_l. change (hyphenated x ∈ set_of (blocks_key p) w' ↔ is_Some (blocks w !! (p, x))).
  rewrite Hs. apply Hh.
Qed.

Lemma held_edge w w' :
  blocks w' = blocks w → (∀ p, set_of (blocks_key p) w' = set_of (blocks_key p) w) →
  blocks_held w → blocks_held w'.
Proof. intros Hb Hs Hh p x. rewrite Hb, Hs. apply Hh. Qed.

Lemma set_of_blocks_tie p a b ts w : set_of (blocks_key p) (tie a b ts w) = set_of (blocks_key p) w.
Proof. unfold set_of. simpl. by rewrite lookup_insert_ne. Qed.
Lemma set_of_blocks_cut p a b ts w : set_of (blocks_key p) (cut a b ts w) = set_of (blocks_key p) w.
Proof. unfold set_of. simpl. by rewrite lookup_insert_ne. Qed.
End Edges.

(** ** Commands, served alone *)

Section Commands.
Context `{UuidText, UtcClock, UuidOrder, PageTokens} (th : TierThresholds).
Context (hyphenated_inj : Inj (=) (=) hyphenated).

(** The signal of a change of [p]'s followers. *)
Definition tier_records (p : Uuid) (old new now : Z) : list EventEnvelope.t :=
  match crossing old new th with
  | Some t => [tier_envelope p t new now]
  | None => []
  end.

(** There is room for one more follow in an [i64]. *)
Definition room (w : World) : Prop := Z.of_nat (size (edges w)) < i64_max.

Lemma counts_in_range p w :
  room w → 0 ≤ followers_n p w < i64_max ∧ 0 ≤ following_n p w < i64_max.
Proof.
  unfold room, followers_n, following_n. intros Hr.
  assert (∀ (P : Uuid * Uuid → Prop) `{∀ e, Decision (P e)},
    (size (filter P (edges w)) ≤ size (edges w))%nat) by (intros P ?; apply subseteq_size; set_solver).
  split; (split; [lia|]).
  - specialize (H3 (λ e, e.2 = p) _). lia.
  - specialize (H3 (λ e, e.1 = p) _). lia.
Qed.

Definition bump (key : string) (d : Z) (w : World) : World :=
  w <| counts := <[key := count_of key w + d]> (counts w) |>.

Lemma add_count_fine key d w n :
  count_of key w = n → - 2 ^ 63 ≤ n + d ≤ i64_max →
  add_count Fine key d w = (bump key d w, Ok (n + d)).
Proof.
  intros <- Hd. unfold add_count.
  by rewrite (proj2 (Z.leb_le _ _) (proj1 Hd)), (proj2 (Z.leb_le _ _) (proj2 Hd)).
Qed.
Lemma count_of_bump_ne key key' d w : key ≠ key' → count_of key (bump key' d w) = count_of key w.
Proof. intros Hk. unfold count_of, bump. simpl. by rewrite lookup_insert_ne. Qed.

Lemma bump_tie a b ts w :
  bump (followers_count_key b) 1 (bump (following_count_key a) 1
    (insert_follow a b ts w
       <| sets := <[following_key a := {[hyphenated b]} ∪ set_of (following_key a) (insert_follow a b ts w)]> (sets w) |>))
  = tie a b ts w.
Proof. unfold tie. rewrite <-(count_of_bump_ne (followers_count_key b) (following_count_key a) 1 w); done. Qed.
Lemma bump_cut a b ts w :
  bump (followers_count_key b) (-1) (bump (following_count_key a) (-1)
    (delete_follow_rows a b ts w
       <| sets := <[following_key a := set_of (following_key a) (delete_follow_rows a b ts w) ∖ {[hyphenated b]}]> (sets w) |>))
  = cut a b ts w.
Proof. unfold cut. rewrite <-(count_of_bump_ne (followers_count_key b) (following_count_key a) (-1) w); done. Qed.

Lemma bump_bump key key' d d' w :
  key ≠ key' → bump key d (bump key' d' w) = bump key' d' (bump key d w).
Proof.
  intros Hk. unfold bump at 1 3. rewrite !count_of_bump_ne by done. unfold bump. simpl.
  by rewrite insert_insert_ne.
Qed.

Lemma dt_ms_ms ts : dt_ms (10 ^ 6 * ts) = ts.
Proof. unfold dt_ms, timestamp_millis. rewrite Z.mul_comm. by apply Z.div_mul. Qed.

(** An edge counts. *)
Lemma counted a b w :
  is_Some (follow_status w !! (a, b)) → 1 ≤ following_n a w ∧ 1 ≤ followers_n b w.
Proof.
  intros Hs%elem_of_dom. unfold following_n, followers_n.
  assert (∀ (P : Uuid * Uuid → Prop) `{∀ e, Decision (P e)}, P (a, b) →
    (0 < size (filter P (edges w)))%nat).
  { intros P ? HP. apply Nat.neq_0_lt_0. intros E%size_empty_inv. set_solver. }
  split; [specialize (H3 (λ e, e.1 = a) _)|specialize (H3 (λ e, e.2 = b) _)]; simpl in *; lia.
Qed.

Lemma follow_alone a b cmd w :
  tallied w → room w →
  profile_id_of (actor_id cmd) = Ok a → profile_id_of (target_id cmd) = Ok b →
  (∃ e, alone answer Fine (follow_profile th cmd) w = (w, Err e)) ∨
  (follow_status w !! (a, b) = None ∧
   let now := utc (ticks w) in let n := followers_n b w in
   alone answer Fine (follow_profile th cmd) w
   = (tell (tier_records b n (n + 1) now ++
            [edge_envelope TOPIC_FOLLOWED "ProfileFollowed" a b (ProfileFollowed a b now)])
        (tie a b (dt_ms now) w), Ok tt)).
Proof.
  intros Hw Hroom Ha Hb. unfold follow_profile. rewrite Ha, attempt_ok, Hb, attempt_ok.
  case_decide as Hab; [left; by eexists|].
  rewrite alone_attempt, alone_load by (done || split; apply (ac_rows w Hw)).
  rewrite alone_bind. simpl. unfold Relation.follow. simpl.
  destruct (bool_decide _ || bool_decide _); [left; by eexists|].
  destruct (follow_status w !! (a, b)) as [t|] eqn:Hs; [left; by eexists|]. right. split; [done|].
  simpl. destruct (counts_in_range a w Hroom) as [_ Hra], (counts_in_range b w Hroom) as [Hrb _].
  rewrite (add_count_fine _ _ _ (following_n a w)); [|exact (ac_following w Hw a)|lia]. simpl.
  rewrite (add_count_fine _ _ _ (followers_n b w));
    [|rewrite count_of_bump_ne by done; exact (ac_followers w Hw b)|lia]. simpl.
  rewrite i64_add_small by lia.
  replace (followers_n b w + 1 + -1) with (followers_n b w) by lia.
  rewrite bump_tie. unfold tier_records, tell. destruct (crossing _ _ _) as [t|]; simpl; [|done].
  by rewrite <-app_assoc.
Qed.

Lemma unfollow_alone a b cmd w :
  tallied w → room w →
  profile_id_of (actor_id cmd) = Ok a → profile_id_of (target_id cmd) = Ok b →
  (∃ e, alone answer Fine (unfollow_profile th cmd) w = (w, Err e)) ∨
  (∃ ts, follow_status w !! (a, b) = Some ts ∧
   let now := utc (ticks w) in let n := followers_n b w in
   alone answer Fine (unfollow_profile th cmd) w
   = (tell (tier_records b n (n - 1) now ++
            [edge_envelope TOPIC_UNFOLLOWED "ProfileUnfollowed" a b (ProfileUnfollowed a b now)])
        (cut a b ts w), Ok tt)).
Proof.
  intros Hw Hroom Ha Hb. unfold unfollow_profile. rewrite Ha, attempt_ok, Hb, attempt_ok.
  rewrite alone_attempt, alone_load by (done || split; apply (ac_rows w Hw)).
  rewrite alone_bind. simpl. unfold Relation.unfollow. simpl.
  destruct (follow_status w !! (a, b)) as [ts|] eqn:Hs; [|left; by eexists]. right.
  exists ts. split; [done|]. simpl.
  destruct (counts_in_range a w Hroom) as [_ Hra], (counts_in_range b w Hroom) as [Hrb _].
  destruct (counted a b w) as [Hpa Hpb]; [by rewrite Hs|].
  rewrite dt_ms_ms.
  rewrite (add_count_fine _ _ _ (following_n a w)); [|exact (ac_following w Hw a)|lia]. simpl.
  rewrite (proj2 (Z.ltb_ge _ 0)) by lia. simpl.
  rewrite (add_count_fine _ _ _ (followers_n b w));
    [|rewrite count_of_bump_ne by done; exact (ac_followers w Hw b)|lia]. simpl.
  rewrite (proj2 (Z.ltb_ge _ 0)) by lia. simpl. rewrite bump_cut, i64_add_small by lia.
  replace (followers_n b w + -1 + 1) with (followers_n b w) by lia.
  change (followers_n b w - 1) with (followers_n b w + -1).
  unfold tier_records, tell. destruct (crossing _ _ _) as [t|]; simpl; [|done].
  by rewrite <-app_assoc.
Qed.

(** A branch of a block. *)
Lemma sever_alone a b w :
  tallied w → room w →
  alone answer Fine (sever a b (Z.mul (10 ^ 6) <$> follow_status w !! (a, b))) w
  = (match follow_status w !! (a, b) with Some ts => cut a b ts w | None => w end, Ok tt).
Proof.
  intros Hw Hroom. destruct (follow_status w !! (a, b)) as [ts|] eqn:Hs; [|done]. simpl.
  destruct (counts_in_range a w Hroom) as [_ Hra], (counts_in_range b w Hroom) as [Hrb _].
  destruct (counted a b w) as [Hpa Hpb]; [by rewrite Hs|]. rewrite dt_ms_ms.
  rewrite (add_count_fine _ _ _ (followers_n b w)); [|exact (ac_followers w Hw b)|lia]. simpl.
  rewrite (proj2 (Z.ltb_ge _ 0)) by lia. simpl.
  rewrite (add_count_fine _ _ _ (following_n a w));
    [|rewrite count_of_bump_ne by done; exact (ac_following w Hw a)|lia]. simpl.
  rewrite (proj2 (Z.ltb_ge _ 0)) by lia. simpl. rewrite bump_bump by done. by rewrite bump_cut.
Qed.

Lemma room_fewer w w' : edges w' ⊆ edges w → room w → room w'.
Proof. intros Hs%subseteq_size. unfold room. lia. Qed.

(** What a branch of a block keeps. *)
Definition severed (w w' : World) : Prop :=
  tallied w' ∧ edges w' ⊆ edges w ∧ blocks w' = blocks w ∧
  ∀ p, set_of (blocks_key p) w' = set_of (blocks_key p) w.

Lemma sever_severed a b w o :
  tallied w → room w → o = Z.mul (10 ^ 6) <$> follow_status w !! (a, b) →
  ∃ w', alone answer Fine (sever a b o) w = (w', Ok tt) ∧ severed w w' ∧
    ((a, b) ≠ (b, a) → follow_status w' !! (b, a) = follow_status w !! (b, a)).
Proof.
  intros Hw Hr ->. rewrite sever_alone by done. eexists. split; [done|].
  destruct (follow_status w !! (a, b)) as [ts|] eqn:Hs; [|by split].
  split; [split_and!|].
  - by apply tallied_cut.
  - unfold edges. simpl. rewrite dom_delete_L. set_solver.
  - done.
  - intros p. apply set_of_blocks_cut.
  - intros Hne. simpl. by rewrite lookup_delete_ne.
Qed.

Lemma block_alone cmd w :
  accounted w → room w →
  let w' := (alone answer Fine (block_profile cmd) w).1 in accounted w' ∧ edges w' ⊆ edges w.
Proof.
  intros [Hw Hh] Hroom. unfold block_profile.
  destruct (profile_id_of (actor_id cmd)) as [a|]; [|done]. rewrite attempt_ok.
  destruct (profile_id_of (target_id cmd)) as [b|]; [|done]. rewrite attempt_ok.
  case_decide as Hab; [done|].
  rewrite alone_attempt, alone_load by (done || split; apply (ac_rows w Hw)).
  rewrite alone_bind. simpl. unfold Relation.block. simpl. case_bool_decide; [done|]. simpl.
  rewrite alone_bind, alone_join.
  set (w1 := w <| blocks := _ |>).
  assert (Hw1 : tallied w1) by by apply tallied_blocks.
  destruct (sever_severed a b w1 (Z.mul (10 ^ 6) <$> follow_status w !! (a, b)))
    as (w2 & -> & (Hw2 & Hs2 & Hb2 & Hk2) & Hba); [done..|].
  destruct (sever_severed b a w2 (Z.mul (10 ^ 6) <$> follow_status w !! (b, a)))
    as (w3 & -> & (Hw3 & Hs3 & Hb3 & Hk3) & _); [done|by eapply room_fewer| |].
  { rewrite Hba; [done|]. by intros [= ? ?]. }
  simpl.
  set (w4 := w3 <| sets := <[blocks_key a := {[hyphenated b]} ∪ set_of (blocks_key a) w3]> (sets w3) |>).
  split; [split|].
  - eapply (tallied_tell _ w4), tallied_sets, Hw3.
  - apply (held_edge w4); [done..|]. eapply (held_sadd _ w w3 a b); [done| |].
    + by rewrite Hb3, Hb2.
    + intros p. by rewrite Hk3, Hk2.
  - change (edges w3 ⊆ edges w). by trans (edges w2).
Qed.

Lemma unblock_alone cmd w :
  accounted w →
  let w' := (alone answer Fine (unblock_profile cmd) w).1 in
  accounted w' ∧ edges w' = edges w ∧ topic w' = topic w.
Proof.
  intros [Hw Hh]. unfold unblock_profile.
  destruct (profile_id_of (actor_id cmd)) as [a|]; [|done]. rewrite attempt_ok.
  destruct (profile_id_of (target_id cmd)) as [b|]; [|done]. rewrite attempt_ok.
  rewrite alone_attempt, alone_load by (done || split; apply (ac_rows w Hw)).
  rewrite alone_bind. simpl. unfold Relation.unblock. simpl. case_bool_decide; [|done]. simpl.
  set (w1 := w <| blocks := delete (a, b) (blocks w) |>).
  split; [split|done].
  - exact (tallied_sets w1 a _ (tallied_blocks w _ Hw)).
  - refine (held_srem _ w w1 a b Hh _ _); done.
Qed.

(** *** Tiers *)

Lemma last_tier_tell p es w :
  last_tier p (tell es w) = default (last_tier p w) (list.last (omap (tier_told p) es)).
Proof.
  unfold last_tier. simpl. rewrite omap_app, last_app. by destruct (list.last (omap (tier_told p) es)).
Qed.

Lemma tier_told_records p q old new now e :
  tier_told p e = None →
  list.last (omap (tier_told p) (tier_records q old new now ++ [e]))
  = if decide (q = p) then as_u8 <$> crossing old new th else None.
Proof.
  intros He. rewrite omap_app. simpl. rewrite He, app_nil_r. unfold tier_records.
  destruct (crossing old new th) as [t|]; simpl; [|by case_decide].
  unfold tier_told. simpl. destruct (decide (q = p)) as [->|Hne]; [by rewrite decide_True|].
  rewrite decide_False; [done|]. by intros ?%hyphenated_inj.
Qed.

(** A signal is due exactly when the tier changes. *)
Lemma tiers_told_step q old new now e w w' :
  (∀ p, tier_told p e = None) → topic w' = topic w → followers_n q w = old →
  (∀ p, followers_n p w' = if decide (q = p) then new else followers_n p w) →
  tiers_told th w → tiers_told th (tell (tier_records q old new now ++ [e]) w').
Proof.
  intros He Ht Hold Hn Hw p. rewrite last_tier_tell, tier_told_records by apply He.
  assert (Hl : last_tier p w' = last_tier p w) by (unfold last_tier; by rewrite Ht).
  rewrite Hl. change (followers_n p (tell _ w')) with (followers_n p w'). rewrite Hn.
  destruct (decide (q = p)) as [->|]; [|apply Hw]. unfold crossing.
  case_decide as Hc; simpl; [|done]. rewrite <-Hc, <-Hold. apply Hw.
Qed.

(** *** Requests one after another *)

(** A request at the reading [n] of the clock. *)
Definition serve_at (x : nat * Stamp * Request) (w : World) : World :=
  (alone answer Fine (serve th x.1.2 x.2) (nature (Tick x.1.1) w)).1.
Definition serve_all (xs : list (nat * Stamp * Request)) (w : World) : World :=
  foldl (λ w x, serve_at x w) w xs.

Definition is_block (r : Request) : Prop := match r with BlockRequest _ => True | _ => False end.

(** What a request keeps. *)
Definition steady (r : Request) (w w' : World) : Prop :=
  accounted w' ∧ (size (edges w') ≤ S (size (edges w)))%nat ∧
  (¬ is_block r → tiers_told th w → tiers_told th w').

Lemma steady_refl r w : accounted w → steady r w w.
Proof. intros Hw. split_and!; [done|lia|done]. Qed.

Lemma alone_command act stamp cmd w :
  (alone answer Fine (serve th stamp (request_of act cmd)) w).1
  = (alone answer Fine (handler_of th act cmd) w).1.
Proof.
  rewrite serve_command, !alone_bind. by destruct (alone answer Fine (handler_of th act cmd) w).
Qed.

Lemma alone_reads {A} (p : program A) w : all_calls is_read p → (alone answer Fine p w).1 = w.
Proof.
  revert w. induction p as [a|c k IH|k IH]; intros w Hp; [done| |apply (IH true), Hp].
  destruct Hp as [Hc Hk]. simpl. destruct (answer c Fine w) as [w' r] eqn:E.
  rewrite IH by apply Hk. change w' with (w', r).1. rewrite <-E. by destruct c.
Qed.

Lemma follow_steady cmd w :
  accounted w → room w → steady (FollowRequest cmd) w (alone answer Fine (follow_profile th cmd) w).1.
Proof.
  intros [Hw Hh] Hroom.
  destruct (profile_id_of (actor_id cmd)) as [a|e] eqn:Ha;
    [|unfold follow_profile; rewrite Ha; by apply steady_refl].
  destruct (profile_id_of (target_id cmd)) as [b|e] eqn:Hb;
    [|unfold follow_profile; rewrite Ha, attempt_ok, Hb; by apply steady_refl].
  destruct (follow_alone a b cmd w Hw Hroom Ha Hb) as [[e ->]|[Hn ->]]; [by apply steady_refl|].
  simpl. split; [split|split].
  - apply tallied_tell, tallied_tie; [done..|apply from_millis_utc].
  - eapply held_edge, Hh; [done|]. intros p. apply (set_of_blocks_tie p a b _ w).
  - unfold edges. simpl. rewrite dom_insert_L, size_union_alt, size_singleton.
    pose proof (subseteq_size (dom (follow_status w) ∖ {[(a, b)]}) (dom (follow_status w))
      ltac:(set_solver)). lia.
  - intros _. apply tiers_told_step with (w := w); [done..|]. intros p.
    rewrite followers_n_tie by done. case_decide as E; [by rewrite E|lia].
Qed.

Lemma unfollow_steady cmd w :
  accounted w → room w →
  steady (UnfollowRequest cmd) w (alone answer Fine (unfollow_profile th cmd) w).1.
Proof.
  intros [Hw Hh] Hroom.
  destruct (profile_id_of (actor_id cmd)) as [a|e] eqn:Ha;
    [|unfold unfollow_profile; rewrite Ha; by apply steady_refl].
  destruct (profile_id_of (target_id cmd)) as [b|e] eqn:Hb;
    [|unfold unfollow_profile; rewrite Ha, attempt_ok, Hb; by apply steady_refl].
  destruct (unfollow_alone a b cmd w Hw Hroom Ha Hb) as [[e ->]|(ts & Hs & ->)];
    [by apply steady_refl|].
  assert (Hsome : is_Some (follow_status w !! (a, b))) by (by rewrite Hs).
  simpl. split; [split|split].
  - by apply tallied_tell, tallied_cut.
  - eapply held_edge, Hh; [done|]. intros p. apply (set_of_blocks_cut p a b _ w).
  - unfold edges. simpl. rewrite dom_delete_L.
    pose proof (subseteq_size (dom (follow_status w) ∖ {[(a, b)]}) (dom (follow_status w))
      ltac:(set_solver)). lia.
  - intros _. apply tiers_told_step with (w := w); [done..|]. intros p.
    rewrite followers_n_cut by done. case_decide as E; [by rewrite E|lia].
Qed.

Lemma serve_steady x w : accounted w → room w → steady x.2 w (serve_at x w).
Proof.
  intros Hw Hroom. destruct x as [[n stamp] r].
  assert (Hw' : accounted (nature (Tick n) w)).
  { destruct Hw as [Hw Hh]. split; [|done]. revert Hw.
    by apply tallied_same; [intros c d; apply same_tables_edge; split|..]. }
  change (steady r (nature (Tick n) w) (alone answer Fine (serve th stamp r) (nature (Tick n) w)).1).
  change (room (nature (Tick n) w)) in Hroom. generalize dependent (nature (Tick n) w).
  clear w Hw. intros w Hroom Hw. destruct r as [c|c|c|c|q|q|q|q];
    [rewrite (alone_command DoFollow); by apply follow_steady
    |rewrite (alone_command DoUnfollow); by apply unfollow_steady|..].
  - rewrite (alone_command DoBlock). destruct (block_alone c w Hw Hroom) as [Hb Hs%subseteq_size].
    split_and!; [done|simpl in *; lia|]. by intros [].
  - rewrite (alone_command DoUnblock). destruct (unblock_alone c w Hw) as (Hb & Hs & Ht).
    split_and!; [done|simpl in *; rewrite Hs; lia|]. intros _ Htold p.
    unfold last_tier, followers_n. simpl in *. rewrite Ht, Hs. apply Htold.
  - rewrite alone_reads by (apply query_reads; by intros []). by apply steady_refl.
  - rewrite alone_reads by (apply query_reads; by intros []). by apply steady_refl.
  - rewrite alone_reads by (apply query_reads; by intros []). by apply steady_refl.
  - rewrite alone_reads by (apply query_reads; by intros []). by apply steady_refl.
Qed.

(** Stores that hold nothing. *)
Definition fresh : World := {|
  follow_status := ∅; following := ∅; followers := ∅; blocks := ∅; sets := ∅; counts := ∅;
  topic := []; ticks := 0 |}.

Lemma fresh_accounted : accounted fresh.
Proof.
  split; [split|].
  - intros a b. split; intros t; simpl; [set_solver..|done].
  - intros p. by vm_compute.
  - intros p. by vm_compute.
  - intros p x. split; [set_solver|by intros []].
  - intros p x. split; [set_solver|by intros []].
Qed.

Lemma serve_all_steady xs w :
  accounted w → Z.of_nat (size (edges w)) + Z.of_nat (length xs) ≤ i64_max →
  accounted (serve_all xs w) ∧
  (size (edges (serve_all xs w)) ≤ size (edges w) + length xs)%nat ∧
  (Forall (λ x, ¬ is_block x.2) xs → tiers_told th w → tiers_told th (serve_all xs w)).
Proof.
  revert w. induction xs as [|x xs IH]; intros w Hw Hsize; [split_and!; [done|simpl; lia|done]|].
  simpl in Hsize.
  destruct (serve_steady x w Hw) as (Hw' & Hs & Ht); [unfold room; lia|].
  destruct (IH (serve_at x w) Hw') as (Ha & Hsz & Hti); [lia|].
  split_and!; [done|simpl in *; lia|]. intros [Hb Hbs]%list.Forall_cons Htold. apply Hti; auto.
Qed.

(** C26. Served one after another by backends that do not fail, from empty stores, the
    requests leave Redis and Scylla in agreement: every pair's rows are consistent, each
    counter is the number of edges and each set holds the followees or the blocked
    profiles.  If none of them is a block, the last tier published for every profile
    (Standard if none was) is the tier of its number of followers. *)
Theorem cache_matches_the_tables xs :
  Z.of_nat (length xs) ≤ i64_max →
  accounted (serve_all xs fresh) ∧
  (1 ≤ premium th ≤ vip th → Forall (λ x, ¬ is_block x.2) xs → tiers_told th (serve_all xs fresh)).
Proof.
  intros Hxs. destruct (serve_all_steady xs fresh fresh_accounted) as (Ha & _ & Ht); [done|].
  split; [done|]. intros Hth Hxb. apply Ht; [done|]. intros p. unfold last_tier, followers_n. simpl.
  change (size _) with 0%nat. unfold from_follower_count.
  rewrite !(proj2 (Z.leb_gt _ _)) by lia. done.
Qed.
End Commands.
