(* ===== verification/SocialGraphCounter.v ===== *)
(** * Social graph as the counter service's source

    [GrpcReconciliationSource] asks social-graph for the counts of a profile, by the
    relation of the profile to itself.  The theorems put the two models together: the
    counter's [SocialGraph] is the gRPC call served by [SocialGraphEdge]. *)

From S2P Require Import Prelude Prog Cqrs SocialGraphDomain SocialGraphStore SocialGraphHandlers SocialGraphEdge SocialGraphPairs SocialGraphContract SocialGraphPages SocialGraphBooks.
From S2P Require AccountDomain Counter CounterStores CounterSweep.
Import AccountDomain(Uuid, UuidText, parse_uuid, hyphenated).
Local Open Scope Z_scope.

Section Source.
Context `{UuidText, UtcClock, UuidOrder, PageTokens} (th : TierThresholds) (stamp : Stamp).

(** The relation of a profile to itself, asked of the service in world [g] under [f]. *)
Definition graph_source (f : fault) (g : World) : CounterStores.SocialGraph := {|
  CounterStores.get_relation_status id :=
    let q := {| actor_id := id; target_id := id |} in
    match (alone answer f (serve th stamp (GetRelationStatusRequest q)) g).2 with
    | Some (Ok (RelationStatusResponse _ _ _ followers following)) => Ok (followers, following)
    | Some (Err NotFound) => Err CounterStores.NotFound
    | _ => Err CounterStores.OtherStatus
    end;
|}.

Lemma alone_serve_status f q g :
  (alone answer f (serve th stamp (GetRelationStatusRequest q)) g).2 =
  Some (match (alone answer f (get_relation_status q) g).2 with
        | Ok v => Ok (relation_status_view_to_proto v)
        | Err e => Err (cqrs_to_status (from_handler e))
        end).
Proof.
  by apply (alone_query_rpc stamp f _ GetRelationStatusQuery q).
Qed.

(** What the service says of a profile's followers and followings. *)
Definition seen (f : fault) (p : Uuid) (g : World) : Z * Z :=
  match f with
  | RedisFault _ _ => (0, 0)
  | _ => (count_of (followers_count_key p) g, count_of (following_count_key p) g)
  end.

Lemma alone_counts f p g :
  (alone answer f (get_counts p) g) =
  (g, match f with RedisFault _ e => Err (Cache e) | _ => Ok (seen f p g) end).
Proof. unfold get_counts. rewrite alone_bind, alone_join. by destruct f as [| |[] e|]. Qed.

Lemma source_says f id p g :
  profile_id_of id = Ok p → durable Now f → (∀ a b, whole a b g) →
  CounterStores.get_relation_status (SocialGraph := graph_source f g) id = Ok (seen f p g).
Proof.
  intros Hid Hf Hg. cbn -[serve]. rewrite alone_serve_status. unfold get_relation_status.
  cbn [actor_id target_id]. rewrite Hid, !attempt_ok, alone_bind, alone_join, alone_load, alone_counts by (done || by split).
  by destruct f as [| |[] e|].
Qed.

Lemma source_unknown f id e g :
  profile_id_of id = Err e →
  CounterStores.get_relation_status (SocialGraph := graph_source f g) id = Err CounterStores.OtherStatus.
Proof.
  intros Hid. simpl. rewrite alone_serve_status. unfold get_relation_status. simpl.
  rewrite Hid. unfold profile_id_of in Hid. destruct (parse_uuid id); [done|]. by injection Hid as <-.
Qed.

(** *** The reconciler's sweep over this source *)

Definition profile_of (id : string) : Counter.EntityRef :=
  {| Counter.entity_kind := Counter.Profile; Counter.entity_id := id |}.

Definition part (m : Counter.Metric) (counts : Z * Z) : Z :=
  match m with Counter.Follower => counts.1 | _ => counts.2 end.

Context `{!CounterStores.Collation, !PartialOrder CounterStores.collate_le, !Total CounterStores.collate_le}.

(** A ledger the loop can page through, and [n] ticks enough to. *)
Record ledger_ready (n : nat) (w : CounterStores.World) : Prop := {
  lr_faults : CounterStores.faults w = [];
  lr_rows : CounterSweep.valid_rows w;
  lr_totals r c : CounterStores.totals w !! r = Some c → 0 ≤ c ≤ i64_max;
  lr_ticks : (length (CounterStores.reconcilable_rows None w)
              ≤ n * CounterStores.RECONCILE_BATCH)%nat;
}.

Lemma source_in_range f g e m c :
  durable Now f → (∀ a b, whole a b g) →
  (∀ q, 0 ≤ (seen f q g).1 ≤ i64_max ∧ 0 ≤ (seen f q g).2 ≤ i64_max) →
  0 ≤ c ≤ i64_max → CounterSweep.in_range (H := graph_source f g) e m c.
Proof.
  intros Hf Hg Hseen Hc. unfold CounterSweep.in_range, CounterStores.authoritative_count.
  destruct m; try done; (destruct (decide _); [done|]);
    (destruct (profile_id_of (Counter.entity_id e)) as [q|] eqn:Hq;
      [rewrite (source_says f _ q) by done|by rewrite (source_unknown f _ _ g Hq)]);
    destruct (seen f q g) as [x y] eqn:Es; specialize (Hseen q); rewrite Es in Hseen; simpl in *; lia.
Qed.

Lemma sweep_over f g tolerance n w id p m c :
  durable Now f → (∀ a b, whole a b g) →
  (∀ q, 0 ≤ (seen f q g).1 ≤ i64_max ∧ 0 ≤ (seen f q g).2 ≤ i64_max) →
  0 ≤ tolerance → ledger_ready n w → profile_id_of id = Ok p →
  m = Counter.Follower ∨ m = Counter.Following →
  CounterStores.totals w !! CounterStores.row_key (profile_of id) m = Some c →
  let v := part m (seen f p g) in
  let w' := (CounterSweep.sweep (H := graph_source f g) tolerance w n).2 in
  CounterStores.totals w' !! CounterStores.row_key (profile_of id) m
    = Some (if Z.abs (v - c) <=? tolerance then c else v).
Proof.
  intros Hf Hg Hseen Htol [Hfaults Hrows Htot Hn] Hid Hm Hc v w'.
  assert (Hv : CounterStores.authoritative_count (H := graph_source f g) (profile_of id) m = Ok (Some v)).
  { unfold CounterStores.authoritative_count. destruct Hm as [-> | ->];
      (rewrite decide_False by (intros Hk; by apply Hk));
      change (Counter.entity_id (profile_of id)) with id;
      rewrite (source_says f id p) by done; unfold v; by destruct (seen f p g). }
  pose proof (CounterSweep.sweep_heals_every_pair (H := graph_source f g) tolerance w n (profile_of id) m c v
    Htol Hfaults Hrows) as Hs.
  assert (Hrange : ∀ e m c, CounterStores.totals w !! CounterStores.row_key e m = Some c →
    CounterSweep.in_range (H := graph_source f g) e m c).
  { intros e m' c' Hc'%Htot. by apply source_in_range. }
  specialize (Hs Hrange Hn Hc Hv). simpl in Hs. fold v w' in Hs.
  by destruct (Z.abs (v - c) <=? tolerance); destruct Hs.
Qed.

(** C27. The counter service converges to the graph.  Let social-graph have served any
    requests one after another from empty stores without a failure; and let the counter's
    reconciliation loop ask it for the counts while nothing changes, social-graph's Redis
    answers and the counter's own stores do, over a ledger of valid rows whose totals are
    not negative.  After ticks enough to page through the reconcilable rows, the total of
    every profile's followers or followings that has a row is the number of edges in social-graph's tables, or as it was if within the tolerance
    of that. *)
Theorem sweep_brings_the_graphs_counts xs tolerance n w id p m c :
  Inj (=) (=) hyphenated → Z.of_nat (length xs) < i64_max →
  0 ≤ tolerance → ledger_ready n w → profile_id_of id = Ok p →
  m = Counter.Follower ∨ m = Counter.Following →
  CounterStores.totals w !! CounterStores.row_key (profile_of id) m = Some c →
  let g := serve_all th xs fresh in
  let v := part m (followers_n p g, following_n p g) in
  let w' := (CounterSweep.sweep (H := graph_source Fine g) tolerance w n).2 in
  CounterStores.totals w' !! CounterStores.row_key (profile_of id) m
    = Some (if Z.abs (v - c) <=? tolerance then c else v).
Proof.
  intros Hinj Hxs Htol Hw Hid Hm Hc g v w'.
  destruct (serve_all_steady th Hinj xs fresh (fresh_accounted Hinj)) as ([Ha _] & Hsz & _);
    [change (size (edges fresh)) with 0%nat; lia|]. fold g in Ha, Hsz.
  assert (Hroom : room g) by (unfold room; change (size (edges fresh)) with 0%nat in Hsz; lia).
  assert (Hs : ∀ q, seen Fine q g = (followers_n q g, following_n q g)).
  { intros q. simpl. by rewrite (ac_followers g Ha), (ac_following g Ha). }
  pose proof (sweep_over Fine g tolerance n w id p m c) as Hz. rewrite Hs in Hz.
  unfold w'. rewrite Hz; try done; [apply (ac_rows g Ha)|].
  intros q. rewrite Hs. simpl. pose proof (counts_in_range Hinj q g Hroom). lia.
Qed.

(** A Redis outage of social-graph zeroes the counters.  While its Redis answers with
    errors, or after it restarted empty, social-graph reports 0 followers and followings
    with success, and a sweep of the counter's reconciliation sets the total of every
    profile beyond the tolerance to 0, whatever the tables hold. *)
Theorem redis_outage_zeroes_the_counters f g tolerance n w id p m c :
  (∀ a b, whole a b g) →
  (∃ applied e, f = RedisFault applied e) ∨ (f = Fine ∧ counts g = ∅) →
  0 ≤ tolerance < c → ledger_ready n w → profile_id_of id = Ok p →
  m = Counter.Follower ∨ m = Counter.Following →
  CounterStores.totals w !! CounterStores.row_key (profile_of id) m = Some c →
  let w' := (CounterSweep.sweep (H := graph_source f g) tolerance w n).2 in
  CounterStores.totals w' !! CounterStores.row_key (profile_of id) m = Some 0.
Proof.
  intros Hg Hf Htol Hw Hid Hm Hc w'.
  assert (Hs : ∀ q, seen f q g = (0, 0)).
  { intros q. destruct Hf as [(a & e & ->)|[-> Hg0]]; [done|]. simpl. unfold count_of. by rewrite Hg0. }
  assert (Hd : durable Now f) by (destruct Hf as [(a & e & ->)|[-> _]]; done).
  pose proof (sweep_over f g tolerance n w id p m c Hd Hg) as Hz.
  rewrite Hs in Hz. unfold w'. rewrite Hz; try done; [|by intros q; rewrite Hs|lia].
  rewrite (proj2 (Z.leb_gt _ _)); [by destruct m|]. destruct Hm as [-> | ->]; simpl; lia.
Qed.
End Source.
