(* ===== verification/SocialGraphRaces.v ===== *)
(** * Social graph: runs

    Concrete runs of the service: the theorems at work, and what concurrent commands and
    failures do to a pair that the contract does not allow. *)

From S2P Require Import Prelude Prog Cqrs SocialGraphDomain SocialGraphStore SocialGraphHandlers SocialGraphEdge SocialGraphPairs SocialGraphContract SocialGraphEvents SocialGraphPages SocialGraphBooks SocialGraphCounter.
From S2P Require AccountDomain ModerationDomain Counter CounterStores CounterSweep.
Import AccountDomain(Uuid, UuidText, parse_uuid, hyphenated).
Local Open Scope Z_scope.

Module Demo.

(** ** Concrete texts, clocks and tokens *)

(** [n] strokes. *)
Fixpoint strokes (n : nat) : string :=
  match n with O => "" | S n => String "x" (strokes n) end.
Lemma length_strokes n : String.length (strokes n) = n.
Proof. induction n; simpl; congruence. Qed.

(** The profile [n] is written with [n + 1] strokes. *)
#[export] Instance stroke_uuid : UuidText := {
  parse_uuid s := match String.length s with O => None | S n => Some (N.of_nat n) end;
  hyphenated u := strokes (S (N.to_nat u));
}.
Lemma uuid_round (u : Uuid) : parse_uuid (hyphenated u) = Some u.
Proof. simpl. by rewrite length_strokes, N2Nat.id. Qed.
#[export] Instance hyphenated_inj : Inj (=) (=) hyphenated.
Proof.
  intros u v E. pose proof (uuid_round u) as Hu. rewrite E, uuid_round in Hu. congruence.
Qed.

(** A reading every second; every millisecond is an instant. *)
#[export, program] Instance seconds : UtcClock := {|
  utc n := Z.of_nat n * 10 ^ 9; from_millis ms := Some (ms * 10 ^ 6) |}.
Next Obligation. by eexists. Qed.
Next Obligation. by intros ms t [= <-]. Qed.

#[export, program] Instance numeric : UuidOrder := {| uuid_le := N.le |}.

(** A token is its text behind a [t]; an instant is its sign and that many strokes. *)
Definition drop_first (s : string) : option string :=
  match s with EmptyString => None | String _ s => Some s end.
Definition signed (ms : Z) : string :=
  if ms <? 0 then String "-" (strokes (Z.to_nat (- ms))) else String "+" (strokes (Z.to_nat ms)).
Definition parse_signed (s : string) : option Z :=
  match s with
  | EmptyString => None
  | String c s =>
      Some (if decide (c = "-"%char) then - Z.of_nat (String.length s) else Z.of_nat (String.length s))
  end.
#[export, program] Instance plain_tokens : PageTokens := {|
  b64_encode s := String "t" s; b64_decode := drop_first;
  follow_json := signed; parse_follow_json := parse_signed;
  block_json s := String "b" s; parse_block_json := drop_first |}.
Next Obligation. done. Qed.
Next Obligation. done. Qed.
Next Obligation.
  intros ms. unfold signed, parse_signed. destruct (Z.ltb_spec ms 0); simpl;
    rewrite length_strokes; f_equal; lia.
Qed.
Next Obligation. intros ms. unfold signed. by destruct (ms <? 0). Qed.
Next Obligation. done. Qed.
Next Obligation. done. Qed.

(** ** Profiles and requests *)

Definition ana : Uuid := 0%N.
Definition bo : Uuid := 1%N.
Definition cy : Uuid := 2%N.
Definition pair (a b : Uuid) : ProfilePair := {| actor_id := hyphenated a; target_id := hyphenated b |}.
Definition stamp0 : Stamp := (9%N, 0, 9%N).
Definition tiers : TierThresholds := TierThresholds_new 2 3.
Abbreviation service := (pool tiers).
Abbreviation play := (run_moves answer nature).

Definition of_command (act : action) (a b : Uuid) : Stamp * Request := (stamp0, request_of act (pair a b)).

(** [n] turns of the task [i]. *)
Definition turns (i n : nat) : list (move fault happening) :=
  concat (replicate n [Go i Fine; Pick i true]).

Definition success (act : action) (a b : Uuid) : option (result StatusCode Response) :=
  reply_to (pair a b) (Ok tt).

(** ** What the contract does not allow *)

(** Two follows of one profile load the pair before either writes; an unfollow comes later. *)
Definition twice : list (Stamp * Request) :=
  [of_command DoFollow ana bo; of_command DoFollow ana bo; of_command DoUnfollow ana bo;
   of_command DoUnfollow ana bo].
Definition double_follow : list (move fault happening) :=
  turns 0 7 ++ turns 1 7 ++ [Nature (Tick 1)] ++ turns 0 20 ++ [Nature (Tick 2)] ++ turns 1 20 ++
  turns 2 30 ++ turns 3 30.

(** A follow loads the pair; the block that runs meanwhile finds no follow to sever. *)
Definition crossed : list (Stamp * Request) := [of_command DoFollow ana bo; of_command DoBlock bo ana].
Definition follow_past_block : list (move fault happening) :=
  turns 0 7 ++ turns 1 40 ++ [Nature (Tick 1)] ++ turns 0 20.

(** A block whose sever fails, and its retry. *)
Definition blocked_twice : list (Stamp * Request) :=
  [of_command DoFollow ana bo; of_command DoBlock bo ana; of_command DoBlock bo ana].
Definition failed_sever : list (move fault happening) :=
  turns 0 30 ++ turns 1 10 ++ [Go 1 (ScyllaFault false Scylla.Overloaded)] ++ turns 1 30 ++ turns 2 30.

Abbreviation tasks := (list (program (option (result StatusCode Response)))).
Definition replies (cfg : tasks * World) : list (option (result StatusCode Response)) :=
  (λ p : program (option (result StatusCode Response)),
     match p with Ret r => r | _ => None end) <$> cfg.1.

(** What concurrency and a failure do to one pair.  Two follows that load the pair
    together both succeed, with rows of two instants: after an unfollow that succeeds the
    profiles have no relation, the follower is still listed and counted, and no further
    unfollow is accepted.  A follow that loaded the pair before a block succeeds after it:
    the one profile is blocked and follows.  A block whose sever fails has blocked, leaves
    the follow, and its retry is refused as a repetition. *)
Theorem concurrent_commands_break_a_pair :
  (let cfg := play (service twice, fresh) double_follow in
   replies cfg = [success DoFollow ana bo; success DoFollow ana bo; success DoUnfollow ana bo;
                  Some (Err FailedPrecondition)] ∧
   context ana bo cfg.2 = RelationContext.mk None None false false ∧
   rows_of Followers bo cfg.2 = [(ana, 1000)] ∧ count_of (followers_count_key bo) cfg.2 = 1) ∧
  (let cfg := play (service crossed, fresh) follow_past_block in
   replies cfg = [success DoFollow ana bo; success DoBlock bo ana] ∧
   context ana bo cfg.2 = RelationContext.mk (Some (10 ^ 9)) None false true) ∧
  (let cfg := play (service blocked_twice, fresh) failed_sever in
   replies cfg = [success DoFollow ana bo; Some (Err Unavailable); Some (Err AlreadyExists)] ∧
   context ana bo cfg.2 = RelationContext.mk (Some 0) None false true).
Proof. by vm_compute. Qed.

(** Follows of one millisecond on both sides of a page boundary: the second page starts
    below that millisecond. *)
Definition crowd : World :=
  foldr (λ u, insert_follow u bo 5) fresh [10%N; 11%N; 12%N].
Definition two_at_a_time : string → Request := list_request Followers (hyphenated bo) 2.

Lemma follows_of_one_millisecond_are_skipped :
  rows_of Followers bo crowd = [(10%N, 5); (11%N, 5); (12%N, 5)] ∧
  walk tiers stamp0 two_at_a_time "" [crowd; crowd; crowd]
  = Some [(hyphenated 10%N, dt_to_ts (5 * 10 ^ 6)); (hyphenated 11%N, dt_to_ts (5 * 10 ^ 6))].
Proof. by vm_compute. Qed.

(** A block takes a follower away without a word about the tier. *)
Definition lost_follower : list (nat * Stamp * Request) :=
  (λ r, (O, stamp0, request_of r.1.1 (pair r.1.2 r.2)))
  <$> [(DoFollow, ana, bo); (DoFollow, cy, bo); (DoBlock, bo, ana)].

Lemma blocks_leave_tiers_behind :
  let w := serve_all tiers lost_follower fresh in
  last_tier bo w = as_u8 Premium ∧ followers_n bo w = 1 ∧
  from_follower_count 1 tiers = Standard.
Proof. by vm_compute. Qed.

(** A counter that Redis lost goes below zero when the clamp is lost too. *)
Lemma counts_go_below_zero :
  let w := (play (service [of_command DoFollow ana bo; of_command DoUnfollow ana bo], fresh)
    (turns 0 30 ++ [Nature RedisRestart] ++ turns 1 13 ++
     [Go 1 (RedisFault false ModerationDomain.NotFound)] ++ turns 1 20)).2 in
  counts w !! followers_count_key bo = Some (-1).
Proof. by vm_compute. Qed.

(** ** The theorems at work *)

Lemma fresh_whole a b : whole a b fresh.
Proof. apply (ac_rows fresh), (fresh_accounted hyphenated_inj). Qed.

Definition two_fans : list (Stamp * Request) := [of_command DoFollow ana bo; of_command DoFollow cy bo].
Definition interleaved : list (move fault happening) :=
  turns 0 9 ++ turns 1 12 ++ [Nature (Tick 4)] ++ turns 0 20.

Lemma command_meets_its_contract_witness :
  replies (play (service two_fans, fresh) interleaved) !! O = Some (success DoFollow ana bo) ∧
  ∃ n, answered DoFollow (pair ana bo) (utc n) ana bo (context ana bo fresh) (success DoFollow ana bo)
         (play (service two_fans, fresh) interleaved).2.
Proof.
  split; [by vm_compute|].
  refine (command_meets_its_contract tiers two_fans 0 stamp0 DoFollow (pair ana bo) ana bo fresh
    interleaved _ _ eq_refl eq_refl eq_refl _ _ (conj (fresh_whole _ _) (fresh_whole _ _)) _).
  - done.
  - intros [|[|j]] sr Hj; [done| |done]. intros [= <-] x y. simpl. by intros [[= <-] [= <-]].
  - vm_compute. repeat split; by intros.
  - by vm_compute.
Defined.

Lemma indexes_agree_witness : mirrored (play (service twice, fresh) double_follow).2.
Proof. apply (indexes_agree tiers twice fresh double_follow). split; simpl; [set_solver|done]. Defined.

Lemma requests_are_answered_witness :
  ∃ ms' answer_i, (play (service crossed, fresh) (turns 0 7 ++ ms')).1 !! 1%nat = Some (Ret (Some answer_i)).
Proof.
  by apply (requests_are_answered tiers crossed fresh (turns 0 7) 1 (of_command DoBlock bo ana)).
Defined.

Lemma events_follow_their_writes_witness :
  ∃ tr r, traces (serve tiers stamp0 (request_of DoFollow (pair ana bo))) tr r ∧
    match r with
    | Some (Ok _) => ∃ pre write post, tr = pre ++ write :: post ∧ records pre = [] ∧
        acked write ∧ told DoFollow ana bo (projT1 write) (edge_records post)
    | _ => records tr = []
    end.
Proof.
  destruct (alone_traces answer Fine (serve tiers stamp0 (request_of DoFollow (pair ana bo))) fresh)
    as [tr Htr]. exists tr. eexists. split; [exact Htr|].
  refine (events_follow_their_writes tiers ana bo (pair ana bo) _ _ DoFollow stamp0 tr _ Htr);
    reflexivity.
Defined.

Definition fans : World := insert_follow ana bo 5 (insert_follow cy bo 7 fresh).
Lemma fan r : listed Followers bo fans r → r = (ana, 5) ∨ r = (cy, 7).
Proof.
  destruct r as [u t]. unfold listed, fans. simpl.
  rewrite !elem_of_union, !elem_of_singleton, elem_of_empty. naive_solver.
Qed.
Lemma pages_cover_the_list_witness :
  walk tiers stamp0 (list_request Followers (hyphenated bo) 1) "" [fans; fans; fans]
  = Some [(hyphenated cy, dt_to_ts (7 * 10 ^ 6)); (hyphenated ana, dt_to_ts (5 * 10 ^ 6))] ∧
  ∃ n rows, walk tiers stamp0 (list_request Followers (hyphenated bo) 1) "" (replicate n fans)
    = Some (shown <$> rows) ∧ NoDup rows ∧ ∀ r, r ∈ rows ↔ listed Followers bo fans r.
Proof.
  split; [by vm_compute|].
  refine (proj2 (pages_cover_the_list tiers stamp0 uuid_round Followers (hyphenated bo) bo 1 _) fans _);
    [done|].
  split; [by eexists|]. intros [x tx] [y ty] _ Hx%fan Hy%fan. naive_solver.
Defined.

Definition served : list (nat * Stamp * Request) :=
  (λ r, (O, stamp0, request_of r.1.1 (pair r.1.2 r.2)))
  <$> [(DoFollow, ana, bo); (DoFollow, cy, bo); (DoUnfollow, ana, bo)].
Lemma cache_matches_the_tables_witness :
  accounted (serve_all tiers served fresh) ∧ tiers_told tiers (serve_all tiers served fresh).
Proof.
  destruct (cache_matches_the_tables tiers hyphenated_inj served) as [Ha Ht]; [done|].
  split; [done|]. apply Ht; [done|]. by repeat constructor; intros [].
Defined.

(** The counter's ledger has [bo] at ten followers; the graph has two. *)
#[export] Instance bytewise : CounterStores.Collation := {| CounterStores.collate_le := string_le |}.
#[export] Instance bytewise_order : PartialOrder (CounterStores.collate_le (Collation := bytewise)) :=
  string_le_po.
#[export] Instance bytewise_total : Total (CounterStores.collate_le (Collation := bytewise)) :=
  string_le_total.

Definition bo_row : CounterStores.RowKey :=
  CounterStores.row_key (profile_of (hyphenated bo)) Counter.Follower.
Definition ledger : CounterStores.World :=
  CounterStores.set_ledger ∅ {[bo_row := 10]} CounterStores.empty_world.

Lemma ledger_row r c : CounterStores.totals ledger !! r = Some c → r = bo_row ∧ c = 10.
Proof. simpl. intros [<- <-]%lookup_singleton_Some. done. Qed.

Lemma ledger_is_ready : ledger_ready 1 ledger.
Proof.
  split; [done| | |].
  - intros r [c [-> _]%ledger_row]. by exists (profile_of (hyphenated bo)), Counter.Follower.
  - intros r c [_ ->]%ledger_row. unfold i64_max. lia.
  - apply Nat.leb_le. vm_compute. reflexivity.
Qed.

Definition followed_twice : list (nat * Stamp * Request) := take 2 served.

Lemma sweep_brings_the_graphs_counts_witness :
  CounterStores.totals (CounterSweep.sweep (H := graph_source tiers stamp0 Fine
    (serve_all tiers followed_twice fresh)) 1 ledger 1).2 !! bo_row = Some 2.
Proof.
  assert (Hc : CounterStores.totals ledger !! bo_row = Some 10) by (vm_compute; reflexivity).
  etrans; [refine (sweep_brings_the_graphs_counts tiers stamp0 followed_twice 1 1 ledger
    (hyphenated bo) bo Counter.Follower 10 hyphenated_inj _ _ ledger_is_ready _ (or_introl eq_refl) Hc);
    [done|lia|done]|by vm_compute].
Defined.

Lemma redis_outage_zeroes_the_counters_witness :
  CounterStores.totals (CounterSweep.sweep (H := graph_source tiers stamp0
    (RedisFault false ModerationDomain.NotFound) fresh) 1 ledger 1).2 !! bo_row = Some 0.
Proof.
  assert (Hc : CounterStores.totals ledger !! bo_row = Some 10) by (vm_compute; reflexivity).
  refine (redis_outage_zeroes_the_counters tiers stamp0 _ fresh 1 1 ledger (hyphenated bo) bo
    Counter.Follower 10 fresh_whole _ _ ledger_is_ready _ (or_introl eq_refl) Hc);
    [left; by eexists _, _|lia|done].
Defined.
End Demo.
