(* ===== verification/EdgeToken.v ===== *)
(** * Edge tokens: minted by [auth], read through [auth-context]

    The ES256 minter of [crates/services/auth/src/infrastructure/token] and the decoder of
    [crates/platform/auth-context] that the gateways of the other services run: key ring
    and JWKS, the cache with its refresher, claim sets and their extraction.  The crates
    [jsonwebtoken], [p256] and [base64] are the parameters of [Jwt], with [JwtLaws] for
    what they document.  Instants are nanoseconds, claims are in seconds. *)

From S2P Require Import Prelude.
From S2P Require Import AuthDomain.
From stdpp Require Import sorting.
From stdpp Require Import list.
Local Open Scope Z_scope.

(** ** [serde_json::Value]; an object has each key once *)

Inductive Number := Int (z : Z) | Float (bits : Z).

Inductive json :=
  | JNull
  | JBool (b : bool)
  | JNumber (n : Number)
  | JString (s : string)
  | JArray (l : list json)
  | JObject (m : list (string * json)).

Definition as_str (v : json) : option string := match v with JString s => Some s | _ => None end.
Definition as_array (v : json) : option (list json) := match v with JArray l => Some l | _ => None end.

Notation object := (gmap string json).

(** What [derive(Deserialize)] reads: a required field, an optional one (absent or null),
    and the types of the fields. *)
Definition required {A} (de : json → option A) (k : string) (o : object) : option A := o !! k ≫= de.
Definition optional {A} (de : json → option A) (k : string) (o : object) : option (option A) :=
  match o !! k with
  | None | Some JNull => Some None
  | Some v => Some <$> de v
  end.

Definition de_i64 (v : json) : option Z :=
  match v with
  | JNumber (Int z) => if bool_decide (- 2 ^ 63 ≤ z ≤ i64_max) then Some z else None
  | _ => None
  end.
Definition de_strings (v : json) : option (list string) := as_array v ≫= mapM as_str.

(** ** [jsonwebtoken] and the key formats *)

Inductive Algorithm := ES256 | RS256 | OtherAlgorithm.
#[export] Instance Algorithm_eq_dec : EqDecision Algorithm.
Proof. solve_decision. Defined.

Record Header := { alg : Algorithm; kid : option string }.

Record Validation := {
  algorithms : list Algorithm;
  leeway : Z;
  validate_aud : bool;
  aud_set : option (list string);
  iss_set : option (list string);
  required_spec_claims : list string;
}.

(** [Validation::new]: 60 s of leeway, [exp] required, audiences checked. *)
Definition Validation_new (a : Algorithm) : Validation := {|
  algorithms := [a]; leeway := 60; validate_aud := true; aud_set := None; iss_set := None;
  required_spec_claims := ["exp"] |}.

Inductive ErrorKind :=
  | ExpiredSignature | ImmatureSignature | InvalidSignatureKind | InvalidAudienceKind
  | InvalidIssuerKind | OtherKind (text : string).

Class Jwt := {
  EncodingKey : Type;
  DecodingKey : Type;
  encode_token : Header → object → EncodingKey → option string;
  decode_header : string → result string Header;
  decode_token : ∀ C : Type, (object → option C) → Z → string → DecodingKey → Validation →
    result ErrorKind C;
  encoding_from_ec_pem : list ascii → option EncodingKey;
  decoding_from_ec_pem : list ascii → option DecodingKey;
  from_ec_components : string → string → result string DecodingKey;
  from_rsa_components : string → string → result string DecodingKey;
  public_point : list ascii → option (list ascii * list ascii);
  b64url : list ascii → string;
}.

(** The checks the validator documents, at a clock of [now] seconds. *)
Definition accepts (v : Validation) (o : object) (now : Z) : Prop :=
  Forall (λ k, is_Some (o !! k)) (required_spec_claims v) ∧
  (∃ e, o !! "exp" = Some (JNumber (Int e)) ∧ now - leeway v ≤ e) ∧
  (validate_aud v = true →
     ∃ a l, o !! "aud" = Some (JString a) ∧ aud_set v = Some l ∧ a ∈ l) ∧
  (∀ l, iss_set v = Some l → ∃ i, o !! "iss" = Some (JString i) ∧ i ∈ l).

(** [pairs k d]: what [k] signs, [d] verifies. *)
Class JwtLaws `{Jwt} := {
  pairs : EncodingKey → DecodingKey → Prop;
  header_round h o k t : encode_token h o k = Some t → decode_header t = Ok h;
  decode_sound C (from : object → option C) h o k t now d v c :
    encode_token h o k = Some t → decode_token C from now t d v = Ok c → from o = Some c;
  decode_complete C (from : object → option C) h o k t now d v c :
    encode_token h o k = Some t → pairs k d → alg h ∈ algorithms v → accepts v o now →
    from o = Some c → decode_token C from now t d v = Ok c;
  components_pair pem d : decoding_from_ec_pem pem = Some d →
    ∃ x y d', public_point pem = Some (x, y) ∧ from_ec_components (b64url x) (b64url y) = Ok d' ∧
      ∀ k, pairs k d → pairs k d';
}.

(** ** [crates/platform/auth-context] *)

Module AuthContext.

Inductive AuthError :=
  | InvalidSignature
  | TokenExpired
  | TokenNotYetValid
  | MissingKid
  | UnknownKid (k : string)
  | JwksUnavailable (text : string)
  | MalformedToken (text : string)
  | InvalidAudience
  | InvalidIssuer
  | ClaimsExtractionFailed (text : string).

Definition to_string (e : AuthError) : string :=
  match e with
  | InvalidSignature => "JWT signature is invalid"
  | TokenExpired => "JWT has expired"
  | TokenNotYetValid => "JWT is not yet valid (nbf constraint violated)"
  | MissingKid => "JWT header is missing the required 'kid' field"
  | UnknownKid k => "no JWKS key found for kid '" +:+ k +:+ "'"
  | JwksUnavailable t => "JWKS endpoint is unavailable: " +:+ t
  | MalformedToken t => "JWT is malformed: " +:+ t
  | InvalidAudience => "JWT audience validation failed"
  | InvalidIssuer => "JWT issuer validation failed"
  | ClaimsExtractionFailed t => "claims extraction failed: " +:+ t
  end.

Record AuthContextConfig := {
  refresh_interval : Z;
  max_backoff : Z;
  expected_audience : option string;
  expected_issuer : option string;
  clock_skew : Z;
}.

Definition default_config : AuthContextConfig := {|
  refresh_interval := 300 * NS; max_backoff := 60 * NS;
  expected_audience := None; expected_issuer := None; clock_skew := 5 * NS |}.

Record CurrentPrincipal {C : Type} := {
  user_id : string;
  tenant_id : option string;
  permissions : list string;
  raw_claims : C;
}.
Arguments CurrentPrincipal : clear implicits.

Definition has_permission {C} (p : CurrentPrincipal C) (permission : string) : bool :=
  existsb (λ q, bool_decide (q = permission)) (permissions p).
Definition has_all_permissions {C} (p : CurrentPrincipal C) (needed : list string) : bool :=
  forallb (has_permission p) needed.
Definition has_any_permission {C} (p : CurrentPrincipal C) (candidates : list string) : bool :=
  existsb (has_permission p) candidates.

Section Decoder.
Context `{Jwt}.

(** *** The key cache, its client and its refresher *)

Record JwkKey := {
  jwk_kid : string; jwk_kty : string;
  jwk_n : option string; jwk_e : option string;
  jwk_crv : option string; jwk_x : option string; jwk_y : option string;
}.

Definition JwkKey_from (v : json) : option JwkKey :=
  match v with
  | JObject m =>
      let o : object := list_to_map m in
      k ← required as_str "kid" o; t ← required as_str "kty" o;
      n ← optional as_str "n" o; e ← optional as_str "e" o;
      c ← optional as_str "crv" o; x ← optional as_str "x" o; y ← optional as_str "y" o;
      Some {| jwk_kid := k; jwk_kty := t; jwk_n := n; jwk_e := e; jwk_crv := c; jwk_x := x; jwk_y := y |}
  | _ => None
  end.

(** [JwksResponse] *)
Definition JwksResponse_from (v : json) : option (list JwkKey) :=
  match v with
  | JObject m => required as_array "keys" (list_to_map m) ≫= mapM JwkKey_from
  | _ => None
  end.

Definition build_decoding_key (jwk : JwkKey) : result string DecodingKey :=
  if decide (jwk_kty jwk = "RSA") then
    n ← ok_or (jwk_n jwk) "RSA key missing 'n'";
    e ← ok_or (jwk_e jwk) "RSA key missing 'e'";
    map_err (λ t, "RSA key construction failed: " +:+ t) (from_rsa_components n e)
  else if decide (jwk_kty jwk = "EC") then
    x ← ok_or (jwk_x jwk) "EC key missing 'x'";
    y ← ok_or (jwk_y jwk) "EC key missing 'y'";
    map_err (λ t, "EC key construction failed: " +:+ t) (from_ec_components x y)
  else Err ("unsupported key type: " +:+ jwk_kty jwk).

(** The keys that decode, the last one for a [kid]. *)
Definition load_keys (jwks : list JwkKey) : gmap string DecodingKey :=
  foldl (λ keys jwk,
    match build_decoding_key jwk with Ok key => <[jwk_kid jwk := key]> keys | Err _ => keys end)
    ∅ jwks.

(** What came back: an error of the HTTP client, or a status and a body, which parses or
    not. *)
Record HttpReply := { status_text : string; is_success : bool; body : result string json }.

Definition fetch (reply : result string HttpReply) : result AuthError (gmap string DecodingKey) :=
  response ← map_err JwksUnavailable reply;
  _ ← Prelude.guard (is_success response)
        (JwksUnavailable ("JWKS endpoint returned HTTP " +:+ status_text response));
  value ← map_err (λ t, JwksUnavailable ("JWKS parse error: " +:+ t)) (body response);
  jwks ← ok_or (JwksResponse_from value) (JwksUnavailable "JWKS parse error: unexpected shape");
  Ok (load_keys jwks).

(** [JwksRefresher::run]: the shared cache and the loop's two locals. *)
Record Refresher := { cache : gmap string DecodingKey; backoff : Z; delay : Z }.

#[export] Instance Refresher_fields : Fields Refresher :=
  λ r, {| cache := cache r; backoff := backoff r; delay := delay r |}.

Definition spawned : Refresher := {| cache := ∅; backoff := NS; delay := 0 |}.

Definition refresh (config : AuthContextConfig) (reply : result string HttpReply)
    (r : Refresher) : Refresher :=
  match fetch reply with
  | Ok keys => {| cache := keys; backoff := NS; delay := refresh_interval config |}
  | Err _ => r <| delay := backoff r |> <| backoff := Z.min (backoff r * 2) (max_backoff config) |>
  end.

(** *** [JwtDecoder] *)

(** [Duration::as_secs]. *)
Definition as_secs (d : Z) : Z := d / NS.

Definition validation_of (config : AuthContextConfig) (algs : list Algorithm) : Validation := {|
  algorithms := algs;
  leeway := as_secs (clock_skew config);
  validate_aud := bool_decide (is_Some (expected_audience config));
  aud_set := (λ a, [a]) <$> expected_audience config;
  iss_set := (λ i, [i]) <$> expected_issuer config;
  required_spec_claims := ["exp"];
|}.

Definition map_jwt_error (e : ErrorKind) : AuthError :=
  match e with
  | ExpiredSignature => TokenExpired
  | ImmatureSignature => TokenNotYetValid
  | InvalidSignatureKind => InvalidSignature
  | InvalidAudienceKind => InvalidAudience
  | InvalidIssuerKind => InvalidIssuer
  | OtherKind text => MalformedToken text
  end.

Definition decode {C} (from : object → option C)
    (extract : C → result AuthError (CurrentPrincipal C))
    (keys : gmap string DecodingKey) (v : Validation) (now : Z) (token : string) :
    result AuthError (CurrentPrincipal C) :=
  header ← map_err MalformedToken (decode_header token);
  k ← ok_or (kid header) MissingKid;
  key ← ok_or (keys !! k) (UnknownKid k);
  claims ← map_err map_jwt_error (decode_token C from now token key v);
  extract claims.

End Decoder.

(** *** Claims *)

Record RealmAccess := { roles : option (list string) }.

Definition RealmAccess_from (v : json) : option RealmAccess :=
  match v with
  | JObject m => r ← optional de_strings "roles" (list_to_map m); Some {| roles := r |}
  | JArray [JNull] => Some {| roles := None |}
  | JArray [r] => l ← de_strings r; Some {| roles := Some l |}
  | _ => None
  end.

Definition de_realms (v : json) : option (gmap string RealmAccess) :=
  match v with
  | JObject m => list_to_map <$> mapM (λ kv, pair kv.1 <$> RealmAccess_from kv.2) m
  | _ => None
  end.

Record OidcClaims := {
  sub : string; iss : option string; aud : option json; exp : Z;
  nbf : option Z; iat : option Z; jti : option string; scope : option string;
  realm_access : option RealmAccess; resource_access : option (gmap string RealmAccess);
  permissions_claim : option (list string); groups : option (list string);
  tid : option string; extra : object;
}.

Definition OIDC_KEYS : list string :=
  ["sub"; "iss"; "aud"; "exp"; "nbf"; "iat"; "jti"; "scope"; "realm_access"; "resource_access";
   "permissions"; "groups"; "tid"].

(** [#[serde(flatten)] extra]: the keys that no field claims. *)
Definition OidcClaims_from (o : object) : option OidcClaims :=
  s ← required as_str "sub" o; i ← optional as_str "iss" o; a ← optional Some "aud" o;
  e ← required de_i64 "exp" o; n ← optional de_i64 "nbf" o; t ← optional de_i64 "iat" o;
  j ← optional as_str "jti" o; sc ← optional as_str "scope" o;
  r ← optional RealmAccess_from "realm_access" o; rs ← optional de_realms "resource_access" o;
  p ← optional de_strings "permissions" o; g ← optional de_strings "groups" o;
  ti ← optional as_str "tid" o;
  Some {| sub := s; iss := i; aud := a; exp := e; nbf := n; iat := t; jti := j; scope := sc;
          realm_access := r; resource_access := rs; permissions_claim := p; groups := g;
          tid := ti; extra := filter (λ kv, kv.1 ∉ OIDC_KEYS) o |}.

Inductive RoleSource :=
  | Scope | RealmAccessRoles | PermissionsClaim | Groups | Custom (key : string).

Record OidcExtractorConfig := {
  tenant_id_claim : string;
  role_sources : list RoleSource;
}.

Definition default_extractor : OidcExtractorConfig := {|
  tenant_id_claim := "tid"; role_sources := [Scope; RealmAccessRoles; PermissionsClaim] |}.

(** [split_whitespace] on UTF-8: what follows a leading White_Space character. *)
Definition after_space (s : string) : option string :=
  match s with
  | String a rest =>
      if byte_in a 9 13 || byte_is a 32 then Some rest
      else match rest with
           | String b rest2 =>
               if byte_is a 194 && (byte_is b 133 || byte_is b 160) then Some rest2
               else match rest2 with
                    | String c rest3 =>
                        if (byte_is a 225 && byte_is b 154 && byte_is c 128)
                           || (byte_is a 226 && byte_is b 128
                               && (byte_in c 128 138 || byte_in c 168 169 || byte_is c 175))
                           || (byte_is a 226 && byte_is b 129 && byte_is c 159)
                           || (byte_is a 227 && byte_is b 128 && byte_is c 128)
                        then Some rest3 else None
                    | "" => None
                    end
           | "" => None
           end
  | "" => None
  end.

Definition emit (word : string) (words : list string) : list string :=
  if decide (word = "") then words else word :: words.

(** The text is consumed by at least a byte a round. *)
Fixpoint split_from (fuel : nat) (word s : string) : list string :=
  match fuel with
  | O => emit word []
  | S n =>
      match after_space s with
      | Some rest => emit word (split_from n "" rest)
      | None => match s with
                | String c rest => split_from n (word +:+ String c "") rest
                | "" => emit word []
                end
      end
  end.

Definition split_whitespace (s : string) : list string := split_from (S (String.length s)) "" s.

(** The strings a source offers, in its order. *)
Definition source_values (raw : OidcClaims) (s : RoleSource) : list string :=
  match s with
  | Scope => from_option split_whitespace [] (scope raw)
  | RealmAccessRoles => default [] (realm_access raw ≫= roles)
  | PermissionsClaim => default [] (permissions_claim raw)
  | Groups => default [] (groups raw)
  | Custom key => omap as_str (default [] (extra raw !! key ≫= as_array))
  end.

(** [push]: the permissions so far and the set of those seen. *)
Definition push (acc : list string * gset string) (value : string) : list string * gset string :=
  if decide (value ∈ acc.2) then acc else (acc.1 ++ [value], {[value]} ∪ acc.2).

Definition extract (config : OidcExtractorConfig) (raw : OidcClaims) :
    result AuthError (CurrentPrincipal OidcClaims) :=
  if decide (sub raw = "")
  then Err (ClaimsExtractionFailed "JWT 'sub' claim is absent or empty")
  else Ok {|
    user_id := sub raw;
    tenant_id := match extra raw !! tenant_id_claim config ≫= as_str with
                 | Some t => Some t
                 | None => tid raw
                 end;
    permissions := (foldl (λ acc s, foldl push acc (source_values raw s)) ([], ∅)
                      (role_sources config)).1;
    raw_claims := raw |}.

(** The decoder that the gateways build: OIDC claims, ES256 or RS256. *)
Definition gateway_decode `{Jwt} (config : AuthContextConfig) (keys : gmap string DecodingKey)
    (now : Z) (token : string) : result AuthError (CurrentPrincipal OidcClaims) :=
  decode OidcClaims_from (extract default_extractor) keys
    (validation_of config [ES256; RS256]) now token.

End AuthContext.

(** ** The minter of [auth] *)

(** [Uuid]'s text and [DateTime::from_timestamp], which refuses what [chrono] cannot
    represent. *)
Class UuidText := {
  parse_uuid : string → option Uuid;
  hyphenated : Uuid → string;
}.
Class UtcText := { from_timestamp : Z → Z → option Z }.

Class TextLaws `{UuidText, UtcText} := {
  uuid_round u : parse_uuid (hyphenated u) = Some u;
  uuid_nonempty u : hyphenated u ≠ "";
  from_timestamp_range s n : 0 ≤ s ≤ 2 ^ 38 → 0 ≤ n < NS → from_timestamp s n = Some (s * NS + n);
}.

(** [DateTime::timestamp]: whole seconds, toward the past. *)
Definition timestamp (t : Z) : Z := t / NS.

Module Minter.

Record EsKeyMaterial := {
  private_pem : list ascii; public_pem : list ascii;
  key_id : string; issuer : string; audience : string;
}.

Record EsVerifyingKey := { retiring_id : string; retiring_pem : list ascii }.

Record EdgeClaims := {
  sub : string; sid : string; generation : Z; iss : string; aud : string;
  iat : Z; exp : Z; perms : list string;
}.

Definition to_object (c : EdgeClaims) : object := list_to_map [
  ("sub", JString (sub c)); ("sid", JString (sid c)); ("gen", JNumber (Int (generation c)));
  ("iss", JString (iss c)); ("aud", JString (aud c)); ("iat", JNumber (Int (iat c)));
  ("exp", JNumber (Int (exp c))); ("perms", JArray (JString <$> perms c))].

Definition from_object (o : object) : option EdgeClaims :=
  s ← required as_str "sub" o; i ← required as_str "sid" o; g ← required de_i64 "gen" o;
  i2 ← required as_str "iss" o; a ← required as_str "aud" o; t ← required de_i64 "iat" o;
  e ← required de_i64 "exp" o; p ← required de_strings "perms" o;
  Some {| sub := s; sid := i; generation := g; iss := i2; aud := a; iat := t; exp := e; perms := p |}.

Section Minter.
Context `{Jwt} `{UuidText} `{UtcText}.

Record VerifyEntry := { decoding_key : DecodingKey; entry_pem : list ascii }.

Record Es256TokenMinter := {
  encoding_key : EncodingKey;
  header : Header;
  verifying : gmap string VerifyEntry;
  validation : Validation;
  minter_issuer : string;
  minter_audience : string;
}.

Definition verify_entry (pem : list ascii) : result AuthError VerifyEntry :=
  d ← ok_or (decoding_from_ec_pem pem) SigningKeyUnavailable;
  Ok {| decoding_key := d; entry_pem := pem |}.

(** The ring of a rotation: a retiring key replaces an entry of the same [kid]. *)
Fixpoint add_retiring (retiring : list EsVerifyingKey) (ring : gmap string VerifyEntry) :
    result AuthError (gmap string VerifyEntry) :=
  match retiring with
  | [] => Ok ring
  | k :: rest => e ← verify_entry (retiring_pem k); add_retiring rest (<[retiring_id k := e]> ring)
  end.

Definition from_key_ring (active : EsKeyMaterial) (retiring : list EsVerifyingKey) :
    result AuthError Es256TokenMinter :=
  ek ← ok_or (encoding_from_ec_pem (private_pem active)) SigningKeyUnavailable;
  e ← verify_entry (public_pem active);
  ring ← add_retiring retiring {[key_id active := e]};
  Ok {| encoding_key := ek;
        header := {| alg := ES256; kid := Some (key_id active) |};
        verifying := ring;
        validation := {|
          algorithms := [ES256]; leeway := 60; validate_aud := true;
          aud_set := Some [audience active]; iss_set := Some [issuer active];
          required_spec_claims := ["exp"; "iss"; "aud"; "sub"] |};
        minter_issuer := issuer active; minter_audience := audience active |}.

Definition from_pem (material : EsKeyMaterial) : result AuthError Es256TokenMinter :=
  from_key_ring material [].

Record Jwk := { jwk_id : string; jwk_point_x : string; jwk_point_y : string }.

Definition jwk_from_pem (id : string) (pem : list ascii) : result AuthError Jwk :=
  p ← ok_or (public_point pem) SigningKeyUnavailable;
  Ok {| jwk_id := id; jwk_point_x := b64url p.1; jwk_point_y := b64url p.2 |}.

(** [sort_by(|a, b| a.kid.cmp(&b.kid))] *)
Definition jwk_le (a b : Jwk) : Prop := string_le (jwk_id a) (jwk_id b).
#[export] Instance jwk_le_dec : RelDecision jwk_le := λ a b, string_le_dec (jwk_id a) (jwk_id b).

Definition jwks (m : Es256TokenMinter) : result AuthError (list Jwk) :=
  keys ← mapM (λ ke : string * VerifyEntry, jwk_from_pem ke.1 (entry_pem ke.2))
           (map_to_list (verifying m));
  Ok (merge_sort jwk_le keys).

Definition jwk_json (k : Jwk) : json := JObject [
  ("kty", JString "EC"); ("crv", JString "P-256"); ("use", JString "sig"); ("alg", JString "ES256");
  ("kid", JString (jwk_id k)); ("x", JString (jwk_point_x k)); ("y", JString (jwk_point_y k))].

(** The document that [serve_jwks] answers with. *)
Definition jwks_json (m : Es256TokenMinter) : result AuthError json :=
  keys ← jwks m; Ok (JObject [("keys", JArray (jwk_json <$> keys))]).

Definition edge_claims (m : Es256TokenMinter) (c : AccessTokenClaims) : EdgeClaims := {|
  sub := hyphenated (claims_account_id c); sid := hyphenated (claims_session_id c);
  generation := claims_generation c; iss := minter_issuer m; aud := minter_audience m;
  iat := timestamp (claims_issued_at c); exp := timestamp (claims_expires_at c);
  perms := claims_permissions c |}.

Definition mint_access (m : Es256TokenMinter) (c : AccessTokenClaims) : result AuthError string :=
  ok_or (encode_token (header m) (to_object (edge_claims m c)) (encoding_key m)) TokenSigningFailed.

Definition to_utc (secs : Z) : result AuthError Z :=
  ok_or (from_timestamp secs 0)
    (DomainViolation "token.timestamp" "out-of-range timestamp claim").

Definition verify_access (m : Es256TokenMinter) (now : Z) (token : string) :
    result AuthError AccessTokenClaims :=
  h ← map_err (λ _, IdpTokenRejected) (decode_header token);
  k ← ok_or (kid h) IdpTokenRejected;
  entry ← ok_or (verifying m !! k) IdpTokenRejected;
  c ← map_err (λ _, IdpTokenRejected)
        (decode_token EdgeClaims from_object now token (decoding_key entry) (validation m));
  account_id ← ok_or (parse_uuid (sub c)) (InvalidAccountId (sub c));
  session_id ← ok_or (parse_uuid (sid c)) (InvalidSessionId (sid c));
  issued_at ← to_utc (iat c);
  expires_at ← to_utc (exp c);
  Ok {| claims_account_id := account_id; claims_session_id := session_id;
        claims_generation := generation c; claims_permissions := perms c;
        claims_issued_at := issued_at; claims_expires_at := expires_at |}.

(** Refresh handles: 32 random bytes, stored as the digest of their text. *)
Definition hash_refresh (sha256 : list ascii → list ascii) (plaintext : string) :
    result AuthError string :=
  refresh_token_hash_new (b64url (sha256 (String.list_ascii_of_string plaintext))).

Definition generate_refresh (sha256 : list ascii → list ascii) (bytes : list ascii) :
    result AuthError (string * string) :=
  h ← hash_refresh sha256 (b64url bytes); Ok (b64url bytes, h).

End Minter.
End Minter.
