(* ===== verification/EdgeTokenProofs.v ===== *)
(** * Edge tokens: what verifies, who is identified, what is authorised

    A minted token verifies under every ring that still holds its key; the JWKS publishes
    the ring; the refresher keeps the last keys through an outage.  Behind the decoder of
    the gateways a token names its account and carries no permission, so the caller gate
    of [AuditAccess] denies it every call. *)

From S2P Require Import Prelude.
From S2P Require Import AuthDomain.
From S2P Require Import EdgeToken.
From stdpp Require Import sorting.
From stdpp Require Import list.
Local Open Scope Z_scope.

(** ** Permissions of an OIDC principal *)

(** Each value where it is first seen. *)
Fixpoint first_seen (seen : gset string) (l : list string) : list string :=
  match l with
  | [] => []
  | x :: l' => if decide (x ∈ seen) then first_seen seen l' else x :: first_seen ({[x]} ∪ seen) l'
  end.

Lemma push_first_seen l acc :
  foldl AuthContext.push acc l = (acc.1 ++ first_seen acc.2 l, list_to_set l ∪ acc.2).
Proof.
  revert acc. induction l as [|x l IH]; intros [ps seen]; simpl.
  - by rewrite app_nil_r, (left_id_L ∅ (∪)).
  - rewrite IH. unfold AuthContext.push. simpl. destruct (decide (x ∈ seen)); simpl.
    + f_equal. set_solver.
    + rewrite <- app_assoc. simpl. f_equal. set_solver.
Qed.

Lemma elem_of_first_seen seen l x : x ∈ first_seen seen l ↔ x ∈ l ∧ x ∉ seen.
Proof.
  revert seen. induction l as [|y l IH]; intros seen; simpl.
  - rewrite elem_of_nil. tauto.
  - destruct (decide (y ∈ seen)) as [Hy|Hy]; rewrite ?elem_of_cons, IH, ?elem_of_cons.
    + destruct (decide (x = y)) as [->|]; tauto.
    + rewrite elem_of_union, elem_of_singleton. destruct (decide (x = y)) as [->|]; tauto.
Qed.

Lemma NoDup_first_seen seen l : NoDup (first_seen seen l).
Proof.
  revert seen. induction l as [|x l IH]; intros seen; simpl; [constructor|].
  destruct (decide (x ∈ seen)); [done|]. constructor; [|done].
  rewrite elem_of_first_seen, elem_of_union, elem_of_singleton. tauto.
Qed.

Lemma permissions_are_first_seen raw sources :
  (foldl (λ acc s, foldl AuthContext.push acc (AuthContext.source_values raw s)) ([], ∅) sources).1 =
  first_seen ∅ (sources ≫= AuthContext.source_values raw).
Proof.
  assert (Hgen : ∀ acc,
    foldl (λ acc s, foldl AuthContext.push acc (AuthContext.source_values raw s)) acc sources =
    foldl AuthContext.push acc (sources ≫= AuthContext.source_values raw)).
  { induction sources as [|s ss IH]; intros acc; simpl; [done|]. by rewrite IH, foldl_app. }
  by rewrite Hgen, push_first_seen.
Qed.

(** *** [split_whitespace] inverts joining with blanks *)

Definition visible (w : string) : Prop :=
  w ≠ "" ∧ Forall (λ c, byte_in c 33 126 = true) (String.list_ascii_of_string w).

Lemma text_app_cons c (s t : string) : String c s +:+ t = String c (s +:+ t).
Proof. reflexivity. Qed.
Lemma text_app_nil (s : string) : s +:+ "" = s.
Proof. induction s as [|c s IH]; [done|]. by rewrite text_app_cons, IH. Qed.
Lemma text_app_assoc (s t u : string) : s +:+ t +:+ u = (s +:+ t) +:+ u.
Proof. induction s as [|c s IH]; [done|]. by rewrite !text_app_cons, IH. Qed.
Lemma text_length_app (s t : string) :
  String.length (s +:+ t) = (String.length s + String.length t)%nat.
Proof. induction s as [|c s IH]; [done|]. rewrite text_app_cons. simpl. by rewrite IH. Qed.

Lemma visible_not_space c s : byte_in c 33 126 = true → AuthContext.after_space (String c s) = None.
Proof.
  unfold AuthContext.after_space, byte_in, byte_is.
  generalize (nat_of_ascii c). intros n [H1%Nat.leb_le H2%Nat.leb_le]%andb_true_iff.
  replace (Nat.leb n 13) with false by (symmetry; apply Nat.leb_gt; lia).
  repeat match goal with
    | |- context [Nat.eqb n ?k] =>
        replace (Nat.eqb n k) with false by (symmetry; apply Nat.eqb_neq; lia)
    end.
  rewrite andb_false_r. by destruct s as [|b [|c' s]].
Qed.

Lemma split_word w n acc s :
  Forall (λ c, byte_in c 33 126 = true) (String.list_ascii_of_string w) →
  AuthContext.split_from (String.length w + n) acc (w +:+ s) =
  AuthContext.split_from n (acc +:+ w) s.
Proof.
  revert acc. induction w as [|c w IH]; intros acc.
  - intros _. by rewrite text_app_nil.
  - intros [Hc Hw]%Forall_cons. rewrite text_app_cons.
    change (String.length (String c w) + n)%nat with (S (String.length w + n)).
    cbn [AuthContext.split_from]. rewrite (visible_not_space c (w +:+ s) Hc), IH by done.
    by rewrite <- text_app_assoc.
Qed.

Lemma split_words ws : Forall visible ws →
  AuthContext.split_whitespace (String.concat " " ws) = ws.
Proof.
  intros Hws. unfold AuthContext.split_whitespace.
  assert (Hgen : ∀ n, AuthContext.split_from (S (String.length (String.concat " " ws) + n)) ""
                        (String.concat " " ws) = ws).
  2:{ specialize (Hgen 0%nat). by rewrite Nat.add_0_r in Hgen. }
  induction Hws as [|w ws [Hne Hw] Hws IH]; intros n; [done|].
  destruct ws as [|w' ws'].
  - change (String.concat " " [w]) with w. rewrite <- (text_app_nil w) at 2.
    replace (S (String.length w + n))%nat with (String.length w + S n)%nat by lia.
    rewrite split_word by done. simpl. unfold AuthContext.emit. by rewrite decide_False.
  - set (rest := String.concat " " (w' :: ws')) in *.
    change (String.concat " " (w :: w' :: ws')) with (w +:+ String " " rest).
    rewrite text_length_app. simpl String.length.
    replace (S (String.length w + S (String.length rest) + n))%nat
      with (String.length w + S (S (String.length rest + n)))%nat by lia.
    rewrite split_word by done. simpl.
    unfold AuthContext.emit at 1. rewrite decide_False by done. f_equal. apply IH.
Qed.

Section Tokens.
Context `{JwtLaws} `{TextLaws}.
Import Minter.

(** ** The key ring and its publication *)

Definition entry_of (pem : list ascii) (e : VerifyEntry) : Prop :=
  decoding_from_ec_pem pem = Some (decoding_key e) ∧ entry_pem e = pem.

Lemma verify_entry_ok pem e : verify_entry pem = Ok e → entry_of pem e.
Proof.
  intros (d & Hd & He)%result_bind_ok. apply ok_or_ok in Hd. by simplify_eq.
Qed.

Lemma add_retiring_ok retiring ring ring' :
  add_retiring retiring ring = Ok ring' →
  (∀ k, k ∉ retiring_id <$> retiring → ring' !! k = ring !! k) ∧
  ((∀ k e, ring !! k = Some e → entry_of (entry_pem e) e) →
   ∀ k e, ring' !! k = Some e → entry_of (entry_pem e) e) ∧
  (NoDup (retiring_id <$> retiring) → ∀ r, r ∈ retiring →
     ∃ e, ring' !! retiring_id r = Some e ∧ entry_of (retiring_pem r) e).
Proof.
  revert ring. induction retiring as [|r rest IH]; intros ring.
  - intros [= <-]. split_and!; [done|auto|]. intros _ r Hr%elem_of_nil. done.
  - intros (e & He%verify_entry_ok & Hrest)%result_bind_ok.
    destruct (IH _ Hrest) as (Hkeep & Hwf & Hin). split_and!.
    + rewrite fmap_cons. intros k [Hne Hk]%not_elem_of_cons.
      rewrite Hkeep by done. by rewrite lookup_insert_ne.
    + intros Hring. apply Hwf. intros k e' [[<- <-]|[_ Hk]]%lookup_insert_Some; [|by eauto].
      destruct He as [? Hpem]. by split; [rewrite Hpem|].
    + rewrite fmap_cons. intros [Hfresh Hnd]%NoDup_cons r' [->|Hr']%elem_of_cons; [|by auto].
      exists e. by rewrite Hkeep, lookup_insert_eq.
Qed.

Lemma key_ring_ok active retiring m :
  from_key_ring active retiring = Ok m →
  ∃ ek ring e, encoding_from_ec_pem (private_pem active) = Some ek ∧
    entry_of (public_pem active) e ∧ add_retiring retiring {[key_id active := e]} = Ok ring ∧
    encoding_key m = ek ∧ verifying m = ring ∧
    header m = {| alg := ES256; kid := Some (key_id active) |} ∧
    minter_issuer m = issuer active ∧ minter_audience m = audience active ∧
    validation m = {|
      algorithms := [ES256]; leeway := 60; validate_aud := true;
      aud_set := Some [audience active]; iss_set := Some [issuer active];
      required_spec_claims := ["exp"; "iss"; "aud"; "sub"] |}.
Proof.
  unfold from_key_ring.
  intros (ek & Hek%ok_or_ok & (e & He%verify_entry_ok & (ring & Hring & Hm)%result_bind_ok)
    %result_bind_ok)%result_bind_ok.
  simplify_eq/=. eauto 12.
Qed.

(** Every entry of a ring was read from its own PEM. *)
Lemma ring_entries active retiring m : from_key_ring active retiring = Ok m →
  ∀ k e, verifying m !! k = Some e → entry_of (entry_pem e) e.
Proof.
  intros (ek & ring & e & _ & He & Hring & _ & -> & _)%key_ring_ok.
  apply (add_retiring_ok _ _ _ Hring). intros k e' [<- <-]%lookup_singleton_Some.
  destruct He as [? Hpem]. by split; [rewrite Hpem|].
Qed.

Lemma active_entry active retiring m : from_key_ring active retiring = Ok m →
  key_id active ∉ retiring_id <$> retiring →
  ∃ e, verifying m !! key_id active = Some e ∧ entry_of (public_pem active) e.
Proof.
  intros (ek & ring & e & _ & He & Hring & _ & -> & _)%key_ring_ok Hk.
  exists e. destruct (add_retiring_ok _ _ _ Hring) as [Hkeep _].
  by rewrite Hkeep, lookup_singleton_eq.
Qed.

Lemma retiring_entry active retiring m r : from_key_ring active retiring = Ok m →
  NoDup (retiring_id <$> retiring) → r ∈ retiring →
  ∃ e, verifying m !! retiring_id r = Some e ∧ entry_of (retiring_pem r) e.
Proof.
  intros (ek & ring & e & _ & He & Hring & _ & -> & _)%key_ring_ok Hnd Hr.
  by apply (add_retiring_ok _ _ _ Hring).
Qed.

(** ** Verifying a minted token *)

(** The claims as they come back: instants in whole seconds. *)
Definition in_seconds (c : AccessTokenClaims) : AccessTokenClaims := {|
  claims_account_id := claims_account_id c; claims_session_id := claims_session_id c;
  claims_generation := claims_generation c; claims_permissions := claims_permissions c;
  claims_issued_at := timestamp (claims_issued_at c) * NS;
  claims_expires_at := timestamp (claims_expires_at c) * NS |}.

Definition representable (c : AccessTokenClaims) : Prop :=
  - 2 ^ 63 ≤ claims_generation c ≤ i64_max ∧
  0 ≤ timestamp (claims_issued_at c) ≤ 2 ^ 38 ∧ 0 ≤ timestamp (claims_expires_at c) ≤ 2 ^ 38.

Lemma de_i64_ok z : - 2 ^ 63 ≤ z ≤ i64_max → de_i64 (JNumber (Int z)) = Some z.
Proof. intros Hz. simpl. by rewrite bool_decide_true. Qed.

Lemma small_i64 z : 0 ≤ z ≤ 2 ^ 38 → - 2 ^ 63 ≤ z ≤ i64_max.
Proof. unfold i64_max. lia. Qed.

Lemma de_strings_round l : de_strings (JArray (JString <$> l)) = Some l.
Proof.
  change (mapM as_str (JString <$> l) = Some l). induction l as [|x l IH]; [done|].
  change (mapM as_str (JString <$> x :: l)) with
    (k ← mapM as_str (JString <$> l); Some (x :: k)). by rewrite IH.
Qed.

Lemma edge_claims_round m c : representable c →
  from_object (to_object (edge_claims m c)) = Some (edge_claims m c).
Proof.
  intros (Hg & Hi & He). set (x := edge_claims m c). unfold from_object, required.
  change (to_object x !! "sub") with (Some (JString (sub x))).
  change (to_object x !! "sid") with (Some (JString (sid x))).
  change (to_object x !! "gen") with (Some (JNumber (Int (generation x)))).
  change (to_object x !! "iss") with (Some (JString (iss x))).
  change (to_object x !! "aud") with (Some (JString (aud x))).
  change (to_object x !! "iat") with (Some (JNumber (Int (iat x)))).
  change (to_object x !! "exp") with (Some (JNumber (Int (exp x)))).
  change (to_object x !! "perms") with (Some (JArray (JString <$> perms x))).
  cbn -[de_i64 de_strings]. rewrite de_strings_round.
  by rewrite !de_i64_ok by auto using small_i64.
Qed.

Lemma minted_accepted m c now v :
  now - leeway v ≤ timestamp (claims_expires_at c) →
  required_spec_claims v ⊆ ["exp"; "iss"; "aud"; "sub"] →
  (validate_aud v = true → ∃ l, aud_set v = Some l ∧ minter_audience m ∈ l) →
  (∀ l, iss_set v = Some l → minter_issuer m ∈ l) →
  accepts v (to_object (edge_claims m c)) now.
Proof.
  intros Hnow Hreq Haud Hiss. split_and!.
  - apply Forall_forall. intros k Hk%Hreq. rewrite !elem_of_cons in Hk.
    destruct Hk as [->|[->|[->|[->|Hk%elem_of_nil]]]]; [by eexists..|done].
  - by eexists.
  - intros Hv%Haud. destruct Hv as (l & Hl & Hin). by exists (minter_audience m), l.
  - intros l Hl%Hiss. by exists (minter_issuer m).
Qed.

(** A ring that holds the key of [m] under its [kid], for the same issuer and audience. *)
Record trusts (m m' : Es256TokenMinter) : Prop := {
  trusts_kid : kid (header m) = None → False;
  trusts_key k : kid (header m) = Some k →
    ∃ e, verifying m' !! k = Some e ∧ pairs (encoding_key m) (decoding_key e);
  trusts_alg : alg (header m) ∈ algorithms (validation m');
  trusts_claims c now : now ≤ timestamp (claims_expires_at c) + 60 →
    accepts (validation m') (to_object (edge_claims m c)) now;
}.

Lemma verify_minted m m' c t now : trusts m m' → representable c →
  mint_access m c = Ok t → now ≤ timestamp (claims_expires_at c) + 60 →
  verify_access m' now t = Ok (in_seconds c).
Proof.
  intros Ht Hc Hmint%ok_or_ok Hnow. unfold verify_access.
  rewrite (header_round _ _ _ _ Hmint). simpl.
  destruct (kid (header m)) as [k|] eqn:Hk; [|by destruct (trusts_kid _ _ Ht)].
  destruct (trusts_key _ _ Ht k Hk) as (e & He & Hpair). simpl. rewrite He. simpl.
  rewrite (decode_complete _ from_object _ _ _ _ now _ (validation m') _ Hmint Hpair
    (trusts_alg _ _ Ht) (trusts_claims _ _ Ht c now Hnow) (edge_claims_round m c Hc)).
  simpl. rewrite !uuid_round. simpl. unfold to_utc. destruct Hc as (_ & Hi & He').
  rewrite !from_timestamp_range by (unfold NS; lia). simpl. by rewrite !Z.add_0_r.
Qed.

Lemma ring_trusts active retiring m active' retiring' m' e ek :
  from_key_ring active retiring = Ok m → from_key_ring active' retiring' = Ok m' →
  issuer active' = issuer active → audience active' = audience active →
  verifying m' !! key_id active = Some e → entry_of (public_pem active) e →
  encoding_from_ec_pem (private_pem active) = Some ek →
  (∀ d, decoding_from_ec_pem (public_pem active) = Some d → pairs ek d) →
  trusts m m'.
Proof.
  intros Hm Hm' Hi Ha Hin He Hek Hpair.
  apply key_ring_ok in Hm as (ek' & r & e1 & Hek' & _ & _ & Hk & _ & Hh & Hmi & Hma & _).
  apply key_ring_ok in Hm' as (_ & _ & _ & _ & _ & _ & _ & _ & _ & _ & _ & Hv).
  split; rewrite ?Hh, ?Hv; simpl; [done| |set_solver|].
  - intros k [= <-]. exists e. split; [done|]. rewrite Hk. simplify_eq. apply Hpair, He.
  - intros c now Hnow. apply minted_accepted; simpl; [lia|done| |].
    + intros _. exists [audience active']. split; [done|]. rewrite Hma, Ha. set_solver.
    + intros l [= <-]. rewrite Hmi, Hi. set_solver.
Qed.

Definition key_pair (k : EsKeyMaterial) : Prop :=
  ∃ ek, encoding_from_ec_pem (private_pem k) = Some ek ∧
    ∀ d, decoding_from_ec_pem (public_pem k) = Some d → pairs ek d.

(** A minter of the same issuer and audience whose ring holds [k], as the active key or as
    one that a rotation retired. *)
Definition ring_holds (k : EsKeyMaterial) (m' : Es256TokenMinter) : Prop :=
  ∃ active' retiring',
    from_key_ring active' retiring' = Ok m' ∧
    issuer active' = issuer k ∧ audience active' = audience k ∧
    NoDup (retiring_id <$> retiring') ∧
    ((active' = k ∧ key_id k ∉ retiring_id <$> retiring') ∨
     {| retiring_id := key_id k; retiring_pem := public_pem k |} ∈ retiring').

Lemma holds_trusts active retiring m m' : from_key_ring active retiring = Ok m →
  key_pair active → ring_holds active m' → trusts m m'.
Proof.
  intros Hm (ek & Hek & Hpair) (active' & retiring' & Hm' & Hi & Ha & Hnd & Hin).
  assert (∃ e, verifying m' !! key_id active = Some e ∧ entry_of (public_pem active) e)
    as (e & He & Heo).
  { destruct Hin as [[-> Hfresh]|Hin]; [by eapply active_entry|].
    by apply (retiring_entry _ _ _ _ Hm' Hnd Hin). }
  by eapply ring_trusts.
Qed.

(** C18. An edge token survives key rotation: until it has been expired for a minute, every
    minter whose ring holds the key it was signed with, as the active key or as one that
    later rotations retired, verifies it and recovers its claims, the instants cut to whole
    seconds. *)
Theorem minted_tokens_verify active retiring m m' c t now :
  from_key_ring active retiring = Ok m → key_pair active → ring_holds active m' →
  representable c → mint_access m c = Ok t → now ≤ timestamp (claims_expires_at c) + 60 →
  verify_access m' now t = Ok (in_seconds c).
Proof. intros Hm Hp Hr. apply verify_minted. by eapply holds_trusts. Qed.

(** ** The JWKS and the verifiers that fetch it *)

Definition as_jwk_key (j : Jwk) : AuthContext.JwkKey := {|
  AuthContext.jwk_kid := jwk_id j; AuthContext.jwk_kty := "EC";
  AuthContext.jwk_n := None; AuthContext.jwk_e := None; AuthContext.jwk_crv := Some "P-256";
  AuthContext.jwk_x := Some (jwk_point_x j); AuthContext.jwk_y := Some (jwk_point_y j) |}.

Lemma jwks_response_round js :
  AuthContext.JwksResponse_from (JObject [("keys", JArray (jwk_json <$> js))]) =
  Some (as_jwk_key <$> js).
Proof.
  change (mapM AuthContext.JwkKey_from (jwk_json <$> js) = Some (as_jwk_key <$> js)).
  apply mapM_Some. rewrite Forall2_fmap. by apply Forall_Forall2_diag, Forall_true.
Qed.

(** A key of the document, of an entry of the ring. *)
Definition published (m : Es256TokenMinter) (j : Jwk) : Prop :=
  ∃ e, verifying m !! jwk_id j = Some e ∧ jwk_from_pem (jwk_id j) (entry_pem e) = Ok j.

Lemma jwk_of_entry id e : entry_of (entry_pem e) e →
  ∃ j d, jwk_from_pem id (entry_pem e) = Ok j ∧ jwk_id j = id ∧
    AuthContext.build_decoding_key (as_jwk_key j) = Ok d ∧
    ∀ ek, pairs ek (decoding_key e) → pairs ek d.
Proof.
  intros [Hd _]. destruct (components_pair _ _ Hd) as (x & y & d & Hp & Hc & Hpair).
  unfold jwk_from_pem. rewrite Hp. simpl. eexists _, d. split_and!; [done|done| |done].
  unfold AuthContext.build_decoding_key. simpl. by rewrite Hc.
Qed.

Lemma mapM_step {E A B} (f : A → result E B) x l :
  mapM f (x :: l) = (y ← f x; k ← mapM f l; Ok (y :: k)).
Proof. reflexivity. Qed.

Lemma jwks_lists_the_ring m : (∀ k e, verifying m !! k = Some e → entry_of (entry_pem e) e) →
  ∃ js, jwks m = Ok js ∧ Forall (published m) js ∧ NoDup (jwk_id <$> js) ∧
    ∀ k, k ∈ jwk_id <$> js ↔ is_Some (verifying m !! k).
Proof.
  intros Hwf.
  assert (∃ js, mapM (λ ke : string * VerifyEntry, jwk_from_pem ke.1 (entry_pem ke.2))
                  (map_to_list (verifying m)) = Ok js ∧ Forall (published m) js ∧
                jwk_id <$> js = (map_to_list (verifying m)).*1) as (js & Hjs & Hpub & Hids).
  { assert (Hall : ∀ ke, ke ∈ map_to_list (verifying m) → verifying m !! ke.1 = Some ke.2)
      by (intros [k e]; apply elem_of_map_to_list).
    induction (map_to_list (verifying m)) as [|[k e] l IH]; [by exists []|].
    destruct IH as (js & Hjs & Hpub & Hids); [intros ke Hke; apply Hall; set_solver|].
    assert (He : verifying m !! k = Some e) by (apply (Hall (k, e)); set_solver).
    destruct (jwk_of_entry k e (Hwf _ _ He)) as (j & d & Hj & Hid & _).
    exists (j :: js). rewrite mapM_step. simpl. rewrite Hj. simpl. rewrite Hjs. split_and!.
    - done.
    - constructor; [|done]. exists e. by rewrite Hid.
    - change (jwk_id j :: (jwk_id <$> js) = k :: l.*1). by rewrite Hid, Hids. }
  pose proof (merge_sort_Permutation jwk_le js) as Hperm.
  exists (merge_sort jwk_le js). unfold jwks. rewrite Hjs. split_and!; [done| | |].
  - by rewrite Hperm.
  - rewrite Hperm, Hids. apply NoDup_fst_map_to_list.
  - intros k. rewrite Hperm, Hids. rewrite list_elem_of_fmap. split.
    + intros ([k' e] & -> & He%elem_of_map_to_list). by exists e.
    + intros [e He]. exists (k, e). by rewrite elem_of_map_to_list.
Qed.

Lemma load_keys_of js (good : Jwk → DecodingKey → Prop) :
  NoDup (jwk_id <$> js) →
  Forall (λ j, ∃ d, AuthContext.build_decoding_key (as_jwk_key j) = Ok d ∧ good j d) js →
  (∀ k, is_Some (AuthContext.load_keys (as_jwk_key <$> js) !! k) ↔ k ∈ jwk_id <$> js) ∧
  ∀ j, j ∈ js → ∃ d, AuthContext.load_keys (as_jwk_key <$> js) !! jwk_id j = Some d ∧ good j d.
Proof.
  induction js as [|j js IH] using rev_ind; intros Hnd Hall.
  - split; [|by intros j ?%elem_of_nil]. intros k.
    change (is_Some ((∅ : gmap string DecodingKey) !! k) ↔ k ∈ []).
    rewrite lookup_empty, elem_of_nil, is_Some_alt. done.
  - rewrite fmap_app in Hnd. apply NoDup_app in Hnd as (Hnd & Hfresh & _).
    apply Forall_app in Hall as [Hall [(d & Hd & Hg) _]%Forall_cons].
    destruct (IH Hnd Hall) as [Hdom Hin]. clear IH.
    assert (E : AuthContext.load_keys (as_jwk_key <$> js ++ [j]) =
                <[jwk_id j := d]> (AuthContext.load_keys (as_jwk_key <$> js))).
    { unfold AuthContext.load_keys. rewrite fmap_app, foldl_app. simpl. by rewrite Hd. }
    rewrite E. split.
    + intros k. rewrite lookup_insert_is_Some', Hdom, fmap_app, elem_of_app. simpl.
      rewrite list_elem_of_singleton. naive_solver.
    + intros j' [Hj'|Hj']%elem_of_app.
      * rewrite lookup_insert_ne; [by apply Hin|]. intros Heq.
        apply (Hfresh (jwk_id j')); [by apply list_elem_of_fmap_2|].
        rewrite <- Heq. by apply list_elem_of_singleton.
      * apply list_elem_of_singleton in Hj' as ->. exists d. by rewrite lookup_insert_eq.
Qed.

Lemma fetched_ring active retiring m :
  from_key_ring active retiring = Ok m →
  ∃ document keys, jwks_json m = Ok document ∧
    AuthContext.fetch (Ok {| AuthContext.status_text := "200 OK"; AuthContext.is_success := true;
                             AuthContext.body := Ok document |}) = Ok keys ∧
    (∀ k, is_Some (keys !! k) ↔ is_Some (verifying m !! k)) ∧
    ∀ k e, verifying m !! k = Some e →
      ∃ d, keys !! k = Some d ∧ ∀ ek, pairs ek (decoding_key e) → pairs ek d.
Proof.
  intros Hm. pose proof (ring_entries _ _ _ Hm) as Hwf.
  destruct (jwks_lists_the_ring m Hwf) as (js & Hjs & Hpub & Hnd & Hids).
  destruct (load_keys_of js (λ j d, ∀ e, verifying m !! jwk_id j = Some e →
    ∀ ek, pairs ek (decoding_key e) → pairs ek d) Hnd) as [Hdom Hgood].
  { eapply Forall_impl; [exact Hpub|]. intros j (e & He & Hj).
    destruct (jwk_of_entry (jwk_id j) e (Hwf _ _ He)) as (j' & d & Hj' & _ & Hd & Hpair).
    assert (j' = j) as -> by congruence.
    exists d. split; [done|]. intros e' He'. by simplify_eq. }
  eexists _, (AuthContext.load_keys (as_jwk_key <$> js)). unfold jwks_json. rewrite Hjs. split_and!.
  - done.
  - unfold AuthContext.fetch. cbn -[AuthContext.JwksResponse_from].
    by rewrite jwks_response_round.
  - intros k. by rewrite Hdom, Hids.
  - intros k e He. assert (Hk : k ∈ jwk_id <$> js) by (apply Hids; by eexists).
    apply list_elem_of_fmap in Hk as (j & -> & Hj).
    destruct (Hgood j Hj) as (d & Hd & Hp). exists d. split; [done|]. by apply Hp.
Qed.

(** What [auth] publishes is what the verifiers load: a fetch of the well-known document
    of a minter's ring yields exactly the [kid]s of the ring, each with a key that verifies
    what the ring's key verifies. *)
Theorem jwks_publishes_the_ring active retiring m :
  from_key_ring active retiring = Ok m →
  ∃ document keys, jwks_json m = Ok document ∧
    AuthContext.fetch (Ok {| AuthContext.status_text := "200 OK"; AuthContext.is_success := true;
                             AuthContext.body := Ok document |}) = Ok keys ∧
    (∀ k, is_Some (keys !! k) ↔ is_Some (verifying m !! k)) ∧
    ∀ k e, verifying m !! k = Some e →
      ∃ d, keys !! k = Some d ∧ ∀ ek, pairs ek (decoding_key e) → pairs ek d.
Proof. apply fetched_ring. Qed.

(** ** The principal the gateways see *)

(** The claims that [OidcClaims] has no field for. *)
Definition other_claims (x : EdgeClaims) : object :=
  filter (λ kv, kv.1 ∉ AuthContext.OIDC_KEYS) (to_object x).

Lemma other_claims_None x k : to_object x !! k = None → other_claims x !! k = None.
Proof.
  unfold other_claims. generalize (to_object x) as o. intros o Hk.
  apply map_lookup_filter_None. by left.
Qed.

Definition oidc_view (x : EdgeClaims) : AuthContext.OidcClaims := {|
  AuthContext.sub := sub x; AuthContext.iss := Some (iss x);
  AuthContext.aud := Some (JString (aud x)); AuthContext.exp := exp x; AuthContext.nbf := None;
  AuthContext.iat := Some (iat x); AuthContext.jti := None; AuthContext.scope := None;
  AuthContext.realm_access := None; AuthContext.resource_access := None;
  AuthContext.permissions_claim := None; AuthContext.groups := None; AuthContext.tid := None;
  AuthContext.extra := other_claims x |}.

Lemma oidc_round m c : representable c →
  AuthContext.OidcClaims_from (to_object (edge_claims m c)) = Some (oidc_view (edge_claims m c)).
Proof.
  intros (_ & Hi & He). set (x := edge_claims m c).
  unfold AuthContext.OidcClaims_from, required, optional.
  change (to_object x !! "sub") with (Some (JString (sub x))).
  change (to_object x !! "iss") with (Some (JString (iss x))).
  change (to_object x !! "aud") with (Some (JString (aud x))).
  change (to_object x !! "iat") with (Some (JNumber (Int (iat x)))).
  change (to_object x !! "exp") with (Some (JNumber (Int (exp x)))).
  repeat match goal with
    | |- context [to_object x !! ?k] => change (to_object x !! k) with (@None json)
    end.
  cbn -[de_i64]. by rewrite !de_i64_ok by auto using small_i64.
Qed.

Definition edge_principal (x : EdgeClaims) :
    AuthContext.CurrentPrincipal AuthContext.OidcClaims := {|
  AuthContext.user_id := sub x; AuthContext.tenant_id := None; AuthContext.permissions := [];
  AuthContext.raw_claims := oidc_view x |}.

Lemma extract_edge x : sub x ≠ "" →
  AuthContext.extract AuthContext.default_extractor (oidc_view x) = Ok (edge_principal x).
Proof.
  intros Hs. unfold AuthContext.extract, edge_principal. simpl. rewrite decide_False by done.
  by rewrite (other_claims_None x "tid") by reflexivity.
Qed.

Lemma gateway_decode_minted m c t config keys now p :
  representable c → mint_access m c = Ok t →
  AuthContext.gateway_decode config keys now t = Ok p → p = edge_principal (edge_claims m c).
Proof.
  intros Hc Hmint%ok_or_ok. unfold AuthContext.gateway_decode, AuthContext.decode.
  rewrite (header_round _ _ _ _ Hmint). simpl.
  destruct (kid (header m)) as [k|]; [|done]. simpl. destruct (keys !! k) as [d|]; [|done]. simpl.
  destruct (decode_token _ _ _ _ _ _) as [o|] eqn:Ho; [|done].
  apply (decode_sound _ _ _ _ _ _ _ _ _ _ Hmint) in Ho. rewrite (oidc_round _ _ Hc) in Ho.
  simplify_eq/=. rewrite extract_edge by apply uuid_nonempty. by intros [= <-].
Qed.

(** Between [auth] and a gateway that has fetched its JWKS: until the token has been
    expired for the configured skew, it decodes to the account it was minted for, whatever
    rotations the ring has seen.  The principal has no permission: the claim [perms] that
    the minter writes is in none of the places the default extractor looks. *)
Theorem gateways_identify_the_account active retiring m m' c t config document keys now :
  from_key_ring active retiring = Ok m → key_pair active → ring_holds active m' →
  representable c → mint_access m c = Ok t →
  jwks_json m' = Ok document →
  AuthContext.fetch (Ok {| AuthContext.status_text := "200 OK"; AuthContext.is_success := true;
                           AuthContext.body := Ok document |}) = Ok keys →
  AuthContext.expected_audience config ∈ [None; Some (audience active)] →
  AuthContext.expected_issuer config ∈ [None; Some (issuer active)] →
  now ≤ timestamp (claims_expires_at c) + AuthContext.as_secs (AuthContext.clock_skew config) →
  ∃ p, AuthContext.gateway_decode config keys now t = Ok p ∧
    AuthContext.user_id p = hyphenated (claims_account_id c) ∧ AuthContext.permissions p = [].
Proof.
  intros Hm Hpair Hring Hc Hmint Hdoc Hfetch Haud Hiss Hnow.
  pose proof (holds_trusts _ _ _ _ Hm Hpair Hring) as Ht.
  destruct Hring as (active' & retiring' & Hm' & _).
  destruct (key_ring_ok _ _ _ Hm) as (_ & _ & _ & _ & _ & _ & _ & _ & Hh & Hmi & Hma & _).
  destruct (trusts_key _ _ Ht (key_id active)) as (e & He & Hek); [by rewrite Hh|].
  destruct (fetched_ring _ _ _ Hm') as (doc & keys' & Hdoc' & Hf & _ & Hkeys).
  assert (doc = document) as -> by congruence. assert (keys' = keys) as -> by congruence.
  destruct (Hkeys _ _ He) as (d & Hd & Hp).
  exists (edge_principal (edge_claims m c)). split; [|done].
  apply ok_or_ok in Hmint. unfold AuthContext.gateway_decode, AuthContext.decode.
  rewrite (header_round _ _ _ _ Hmint), Hh. simpl. rewrite Hd. simpl.
  rewrite (decode_complete _ AuthContext.OidcClaims_from _ _ _ _ now d _
    (oidc_view (edge_claims m c)) Hmint (Hp _ Hek)).
  - simpl. by rewrite extract_edge by apply uuid_nonempty.
  - rewrite Hh. simpl. set_solver.
  - apply minted_accepted; simpl; [lia|set_solver| |].
    + intros Hs. apply bool_decide_eq_true in Hs. rewrite !elem_of_cons, elem_of_nil in Haud.
      destruct Haud as [E|[E|[]]]; rewrite E in *; [by destruct Hs|].
      exists [audience active]. rewrite Hma. set_solver.
    + intros l Hl. rewrite !elem_of_cons, elem_of_nil in Hiss.
      destruct Hiss as [E|[E|[]]]; rewrite E in Hl; simplify_eq/=. rewrite Hmi. set_solver.
  - by apply oidc_round.
Qed.

End Tokens.

(** ** The refresher through an outage *)

Definition run_refresher `{Jwt} (config : AuthContext.AuthContextConfig)
    (replies : list (result string AuthContext.HttpReply)) (r : AuthContext.Refresher) :
    AuthContext.Refresher :=
  foldl (λ r reply, AuthContext.refresh config reply r) r replies.

Lemma outage_backoff `{Jwt} config replies r :
  0 < AuthContext.backoff r ≤ AuthContext.max_backoff config →
  Forall (λ reply, is_ok (AuthContext.fetch reply) = false) replies →
  AuthContext.cache (run_refresher config replies r) = AuthContext.cache r ∧
  AuthContext.backoff (run_refresher config replies r) =
    Z.min (AuthContext.backoff r * 2 ^ Z.of_nat (length replies)) (AuthContext.max_backoff config).
Proof.
  intros Hb. induction replies as [|reply replies IH] using rev_ind; intros Hall.
  - simpl. rewrite Z.mul_1_r. split; [done|lia].
  - apply Forall_app in Hall as [Hall [Hf _]%Forall_cons]. destruct (IH Hall) as [Hc Hk].
    unfold run_refresher. rewrite foldl_app. fold (run_refresher config replies r). simpl.
    unfold AuthContext.refresh. destruct (AuthContext.fetch reply); [done|].
    change (AuthContext.cache (run_refresher config replies r) = AuthContext.cache r ∧
      Z.min (AuthContext.backoff (run_refresher config replies r) * 2)
        (AuthContext.max_backoff config) =
      Z.min (AuthContext.backoff r * 2 ^ Z.of_nat (length (replies ++ [reply])))
        (AuthContext.max_backoff config)).
    split; [done|]. rewrite Hk, length_app, Nat.add_1_r, Nat2Z.inj_succ, Z.pow_succ_r by lia. lia.
Qed.

(** An outage of the JWKS endpoint takes no key away: through any run of failed fetches
    the cache stays as the last success left it, and the waits grow from a second by
    doubling up to the configured bound. *)
Theorem keys_outlive_an_outage `{Jwt} config replies reply r :
  AuthContext.backoff r = NS → NS ≤ AuthContext.max_backoff config →
  Forall (λ reply, is_ok (AuthContext.fetch reply) = false) (replies ++ [reply]) →
  AuthContext.cache (run_refresher config (replies ++ [reply]) r) = AuthContext.cache r ∧
  AuthContext.delay (run_refresher config (replies ++ [reply]) r) =
    Z.min (NS * 2 ^ Z.of_nat (length replies)) (AuthContext.max_backoff config).
Proof.
  intros Hb Hmax Hall. split; [apply outage_backoff; [unfold NS in *; lia|done]|].
  apply Forall_app in Hall as [Hall [Hf _]%Forall_cons].
  destruct (outage_backoff config replies r) as [_ Hk]; [unfold NS in *; lia|done|].
  unfold run_refresher. rewrite foldl_app. fold (run_refresher config replies r). simpl.
  unfold AuthContext.refresh. destruct (AuthContext.fetch reply); [done|].
  change (AuthContext.backoff (run_refresher config replies r) =
    Z.min (NS * 2 ^ Z.of_nat (length replies)) (AuthContext.max_backoff config)).
  by rewrite Hk, Hb.
Qed.

(** ** Witnesses: keys are numbers and one token exists *)

Section Compare.
Variable eq : ∀ x y : json, Decision (x = y).

Fixpoint compare_list (l k : list json) : Decision (l = k).
Proof.
  refine match l, k with
  | [], [] => left eq_refl
  | a :: l', b :: k' => cast_if_and (eq a b) (compare_list l' k')
  | _, _ => right _
  end; clear compare_list; congruence.
Defined.

Fixpoint compare_members (l k : list (string * json)) : Decision (l = k).
Proof.
  refine match l, k with
  | [], [] => left eq_refl
  | (s, a) :: l', (t, b) :: k' =>
      cast_if_and3 (decide (s = t)) (eq a b) (compare_members l' k')
  | _, _ => right _
  end; clear compare_members; congruence.
Defined.
End Compare.

Fixpoint compare_json (x y : json) : Decision (x = y).
Proof.
  refine match x, y with
  | JNull, JNull => left eq_refl
  | JBool a, JBool b => cast_if (decide (a = b))
  | JNumber (Int a), JNumber (Int b) => cast_if (decide (a = b))
  | JNumber (Float a), JNumber (Float b) => cast_if (decide (a = b))
  | JString a, JString b => cast_if (decide (a = b))
  | JArray l, JArray k => cast_if (compare_list compare_json l k)
  | JObject l, JObject k => cast_if (compare_members compare_json l k)
  | _, _ => right _
  end; clear compare_json; congruence.
Defined.
#[export] Instance json_eq_dec : EqDecision json := compare_json.

(** [n] strokes; the identifier [n] is written with one more. *)
Fixpoint tally (n : nat) : string := match n with O => "" | S n => String "|" (tally n) end.
Lemma length_tally n : String.length (tally n) = n.
Proof. induction n; simpl; auto. Qed.

Definition demo_material : Minter.EsKeyMaterial := {|
  Minter.private_pem := []; Minter.public_pem := []; Minter.key_id := "k1";
  Minter.issuer := "auth"; Minter.audience := "core" |}.
Definition next_material : Minter.EsKeyMaterial := {|
  Minter.private_pem := []; Minter.public_pem := []; Minter.key_id := "k2";
  Minter.issuer := "auth"; Minter.audience := "core" |}.

Definition demo_header : Header := {| alg := ES256; kid := Some "k1" |}.
Definition demo_access : AccessTokenClaims := {|
  claims_account_id := 2%N; claims_session_id := 1%N; claims_generation := 3;
  claims_permissions := ["audit:read"]; claims_issued_at := 5 * NS; claims_expires_at := 605 * NS |}.
Definition demo_object : object := Minter.to_object {|
  Minter.sub := "|||"; Minter.sid := "||"; Minter.generation := 3; Minter.iss := "auth";
  Minter.aud := "core"; Minter.iat := 5; Minter.exp := 605; Minter.perms := ["audit:read"] |}.

(** One token, ["edge"], of the demo claims under key 0. *)
#[export] Instance demo_jwt : Jwt := {|
  EncodingKey := nat; DecodingKey := nat;
  encode_token h o k :=
    if decide (alg h = ES256 ∧ kid h = Some "k1" ∧ map_to_list o = map_to_list demo_object ∧ k = 0%nat)
    then Some "edge" else None;
  decode_header t := if decide (t = "edge") then Ok demo_header else Err "header";
  decode_token C from now t d v :=
    if decide (t = "edge" ∧ d = 0%nat)
    then match from demo_object with Some c => Ok c | None => Err (OtherKind "claims") end
    else Err InvalidSignatureKind;
  encoding_from_ec_pem _ := Some 0%nat;
  decoding_from_ec_pem _ := Some 0%nat;
  from_ec_components _ _ := Ok 0%nat;
  from_rsa_components _ _ := Err "none";
  public_point _ := Some ([], []);
  b64url _ := "AA" |}.

Lemma demo_encode h o k t : encode_token h o k = Some t →
  h = demo_header ∧ o = demo_object ∧ k = 0%nat ∧ t = "edge".
Proof.
  simpl. destruct (decide _) as [(Ha & Hk & Ho & ->)|]; [|done]. intros [= <-].
  destruct h. simpl in *. subst. split_and!; [done| |done..].
  by apply map_to_list_inj; rewrite Ho.
Qed.

#[export] Instance demo_laws : JwtLaws.
Proof.
  refine {| pairs := λ k d, k = 0%nat → d = 0%nat |}.
  - by intros h o k t (-> & _ & _ & ->)%demo_encode.
  - intros C from h o k t now d v c (_ & -> & _ & ->)%demo_encode. simpl.
    destruct (decide _); [|done]. destruct (from demo_object); [by intros [= ->]|done].
  - intros C from h o k t now d v c (_ & -> & -> & ->)%demo_encode Hd _ _ Hc. simpl.
    rewrite decide_True by auto. by rewrite Hc.
  - intros pem d [= <-]. by exists [], [], 0%nat.
Defined.

#[export] Instance demo_uuid : UuidText := {|
  parse_uuid s := match String.length s with O => None | S n => Some (N.of_nat n) end;
  hyphenated u := tally (S (N.to_nat u)) |}.
#[export] Instance demo_utc : UtcText := {| from_timestamp s n := Some (s * NS + n) |}.
#[export] Instance demo_text_laws : TextLaws.
Proof.
  split; [|done|done]. intros u. unfold parse_uuid, hyphenated. simpl. by rewrite length_tally, N2Nat.id.
Qed.

Definition demo_entry : Minter.VerifyEntry := {| Minter.decoding_key := 0%nat; Minter.entry_pem := [] |}.
Definition ring_validation : Validation := {|
  algorithms := [ES256]; leeway := 60; validate_aud := true; aud_set := Some ["core"];
  iss_set := Some ["auth"]; required_spec_claims := ["exp"; "iss"; "aud"; "sub"] |}.

(** The minter of ["k1"], and the one of ["k2"] that still verifies ["k1"]. *)
Definition demo_minter : Minter.Es256TokenMinter := {|
  Minter.encoding_key := 0%nat; Minter.header := demo_header;
  Minter.verifying := {["k1" := demo_entry]}; Minter.validation := ring_validation;
  Minter.minter_issuer := "auth"; Minter.minter_audience := "core" |}.
Definition rotated : Minter.Es256TokenMinter := {|
  Minter.encoding_key := 0%nat; Minter.header := {| alg := ES256; kid := Some "k2" |};
  Minter.verifying := <["k1" := demo_entry]> {["k2" := demo_entry]};
  Minter.validation := ring_validation;
  Minter.minter_issuer := "auth"; Minter.minter_audience := "core" |}.
Definition retired : Minter.EsVerifyingKey := {| Minter.retiring_id := "k1"; Minter.retiring_pem := [] |}.

Lemma demo_ring : Minter.from_key_ring demo_material [] = Ok demo_minter.
Proof. reflexivity. Qed.
Lemma rotated_ring : Minter.from_key_ring next_material [retired] = Ok rotated.
Proof. reflexivity. Qed.
Lemma demo_pair : key_pair demo_material.
Proof. exists 0%nat. split; [done|]. by intros d [= <-]. Qed.
Lemma rotated_holds : ring_holds demo_material rotated.
Proof.
  exists next_material, [retired]. split_and!; [done..| |].
  - apply NoDup_singleton.
  - right. by apply list_elem_of_singleton.
Qed.
Lemma demo_representable : representable demo_access.
Proof. by vm_compute. Qed.
Lemma demo_minted : Minter.mint_access demo_minter demo_access = Ok "edge".
Proof. by vm_compute. Qed.

Lemma minted_tokens_verify_witness :
  Minter.verify_access rotated 660 "edge" = Ok demo_access.
Proof.
  refine (minted_tokens_verify _ _ _ _ _ _ _ demo_ring demo_pair rotated_holds
    demo_representable demo_minted _). by vm_compute.
Defined.

Lemma jwks_publishes_the_ring_witness :
  ∃ document keys, Minter.jwks_json rotated = Ok document ∧
    AuthContext.fetch (Ok {| AuthContext.status_text := "200 OK"; AuthContext.is_success := true;
                             AuthContext.body := Ok document |}) = Ok keys ∧
    is_Some (keys !! "k1") ∧ is_Some (keys !! "k2").
Proof.
  destruct (jwks_publishes_the_ring _ _ _ rotated_ring) as (doc & keys & Hd & Hf & Hdom & _).
  exists doc, keys. split_and!; [done|done| |]; apply Hdom; by eexists.
Defined.

Definition demo_jwk (id : string) : json :=
  Minter.jwk_json {| Minter.jwk_id := id; Minter.jwk_point_x := "AA"; Minter.jwk_point_y := "AA" |}.
Definition rotated_document : json := JObject [("keys", JArray [demo_jwk "k1"; demo_jwk "k2"])].

Lemma gateways_identify_the_account_witness :
  ∃ p, AuthContext.gateway_decode AuthContext.default_config {["k1" := 0%nat; "k2" := 0%nat]} 610 "edge" =
         Ok p ∧ AuthContext.user_id p = "|||" ∧ AuthContext.permissions p = [].
Proof.
  refine (gateways_identify_the_account _ _ _ _ _ _ AuthContext.default_config rotated_document _ _
    demo_ring demo_pair rotated_holds demo_representable demo_minted _ _ _ _ _);
    [by vm_compute|by vm_compute|set_solver|set_solver|by vm_compute].
Defined.

Lemma keys_outlive_an_outage_witness :
  let down := Err "connection refused" in
  let r := run_refresher AuthContext.default_config [down; down; down]
             {| AuthContext.cache := {["k1" := 0%nat]}; AuthContext.backoff := NS;
                AuthContext.delay := 300 * NS |} in
  AuthContext.cache r = {["k1" := 0%nat]} ∧ AuthContext.delay r = 4 * NS.
Proof.
  refine (keys_outlive_an_outage AuthContext.default_config [Err "connection refused"; Err "connection refused"]
    (Err "connection refused") _ _ _ _); [done|by vm_compute|]. by repeat constructor.
Defined.
