(* ===== verification/RealtimeDomain.v ===== *)
(** * Realtime: the domain of a live connection

    Models [crates/services/realtime/src/domain] and its error type: identifiers and
    channels, the per-channel sequence with its acknowledgement watermark, the bounded
    subscription set, the pinned session and the connection's state machine.  Instants and
    durations are nanoseconds; a method on [&mut self] is an [act] on the record. *)

From S2P Require Import Prelude.
From S2P Require Cqrs.
Import Cqrs(AppError, Severity(..), ValidationError, error_code, http_status, severity,
  is_retryable, category, validation_app_error).
From stdpp Require Import pretty.
#[local] Existing Instance validation_app_error.
Local Open Scope Z_scope.

(** ** Errors: [error.rs] *)

Inductive RealtimeError :=
  | Validation (e : ValidationError)
  | HandshakeRejected (reason : string)
  | TokenExpired
  | UnsupportedProtocolVersion (version : string)
  | OriginNotAllowed (origin : string)
  | MalformedFrame (reason : string)
  | UnknownChannel (channel : string)
  | FrameTooLarge (size : N)
  | SequenceViolation (reason : string)
  | ChannelForbidden (channel : string)
  | SubscriptionLimitExceeded
  | NotSubscribed (channel : string)
  | RegistryUnavailable
  | NodeChannelUnavailable
  | DeliveryTimeout
  | SendQueueOverflow
  | HeartbeatTimeout
  | ConnectionDraining
  | ConnectionClosed
  | EventDecodeFailed (topic reason : string)
  | UnroutableEvent (reason : string)
  | UnknownEventType (event_type : string)
  | DomainViolation (field message : string)
  | InvalidIdentifier (what : string)
  | EventConsumeFailed (text : string).

(** [Display]; the text of a validation error is [validation]'s. *)
Definition display (validation_text : ValidationError → string) (e : RealtimeError) : string :=
  match e with
  | Validation v => validation_text v
  | HandshakeRejected reason => "connection handshake rejected: " +:+ reason
  | TokenExpired => "session token expired"
  | UnsupportedProtocolVersion v => "unsupported client protocol version: '" +:+ v +:+ "'"
  | OriginNotAllowed o => "connection origin not allowed: '" +:+ o +:+ "'"
  | MalformedFrame reason => "malformed transport frame: " +:+ reason
  | UnknownChannel c => "unknown multiplex channel: '" +:+ c +:+ "'"
  | FrameTooLarge size => "inbound frame exceeds the size cap: " +:+ pretty size +:+ " bytes"
  | SequenceViolation reason => "resume/ack sequence out of range: " +:+ reason
  | ChannelForbidden c => "subscription to channel '" +:+ c +:+ "' is forbidden for this identity"
  | SubscriptionLimitExceeded => "per-connection subscription limit exceeded"
  | NotSubscribed c => "not subscribed to channel '" +:+ c +:+ "'"
  | RegistryUnavailable => "the connection registry is unavailable"
  | NodeChannelUnavailable => "the node-delivery channel is unavailable"
  | DeliveryTimeout => "delivery to the owning node timed out"
  | SendQueueOverflow => "connection send queue overflowed; shedding slow consumer"
  | HeartbeatTimeout => "heartbeat deadline exceeded; reaping connection"
  | ConnectionDraining => "connection draining; reconnect with backoff"
  | ConnectionClosed => "connection closed by peer"
  | EventDecodeFailed topic reason =>
      "failed to decode event from topic '" +:+ topic +:+ "': " +:+ reason
  | UnroutableEvent reason => "event has no routable recipient: " +:+ reason
  | UnknownEventType t => "unknown event type: '" +:+ t +:+ "'"
  | DomainViolation field message =>
      "domain invariant violated on '" +:+ field +:+ "': " +:+ message
  | InvalidIdentifier what => "invalid identifier: '" +:+ what +:+ "'"
  | EventConsumeFailed text => "failed to consume event: " +:+ text
  end.

#[export] Instance realtime_app_error : AppError RealtimeError := {
  error_code e :=
    match e with
    | Validation v => error_code v
    | HandshakeRejected _ => "RTM-1001" | TokenExpired => "RTM-1002"
    | UnsupportedProtocolVersion _ => "RTM-1003" | OriginNotAllowed _ => "RTM-1004"
    | MalformedFrame _ => "RTM-2001" | UnknownChannel _ => "RTM-2002"
    | FrameTooLarge _ => "RTM-2003" | SequenceViolation _ => "RTM-2004"
    | ChannelForbidden _ => "RTM-3001" | SubscriptionLimitExceeded => "RTM-3002"
    | NotSubscribed _ => "RTM-3003"
    | RegistryUnavailable => "RTM-4001" | NodeChannelUnavailable => "RTM-4002"
    | DeliveryTimeout => "RTM-4003"
    | SendQueueOverflow => "RTM-5001" | HeartbeatTimeout => "RTM-5002"
    | ConnectionDraining => "RTM-5003" | ConnectionClosed => "RTM-5004"
    | EventDecodeFailed _ _ => "RTM-8001" | UnroutableEvent _ => "RTM-8002"
    | UnknownEventType _ => "RTM-8003"
    | DomainViolation _ _ => "RTM-9001" | InvalidIdentifier _ => "RTM-9002"
    | EventConsumeFailed _ => "RTM-9003"
    end;
  http_status e :=
    match e with
    | Validation v => http_status v
    | HandshakeRejected _ | TokenExpired => 401
    | UnsupportedProtocolVersion _ => 426
    | OriginNotAllowed _ | ChannelForbidden _ => 403
    | MalformedFrame _ => 400
    | FrameTooLarge _ => 413
    | SubscriptionLimitExceeded => 429
    | NotSubscribed _ => 409
    | RegistryUnavailable | NodeChannelUnavailable | SendQueueOverflow | ConnectionDraining => 503
    | DeliveryTimeout => 504
    | HeartbeatTimeout => 408
    | ConnectionClosed => 410
    | EventConsumeFailed _ => 500
    | _ => 422
    end;
  severity e :=
    match e with
    | Validation v => severity v
    | ChannelForbidden _ | RegistryUnavailable | NodeChannelUnavailable | DeliveryTimeout => High
    | HandshakeRejected _ | OriginNotAllowed _ | SendQueueOverflow | EventDecodeFailed _ _
    | DomainViolation _ _ | EventConsumeFailed _ => Medium
    | _ => Low
    end;
  is_retryable e :=
    match e with
    | Validation v => is_retryable v
    | RegistryUnavailable | NodeChannelUnavailable | DeliveryTimeout | ConnectionDraining => true
    | _ => false
    end;
  category e := match e with Validation v => category v | _ => "RTM" end;
}.

(** ** Identifiers and channels *)

(** [string_id!]: any text but a blank one. *)
Definition string_id (field value : string) : result RealtimeError string :=
  if trim_is_empty value then Err (InvalidIdentifier field) else Ok value.

Definition UserId : Type := string.
Definition DeviceId : Type := string.
Definition ConnectionId : Type := string.
Definition NodeId : Type := string.

Definition UserId_new : string → result RealtimeError UserId := string_id "user_id".
Definition DeviceId_new : string → result RealtimeError DeviceId := string_id "device_id".
Definition ConnectionId_new : string → result RealtimeError ConnectionId := string_id "connection_id".
Definition NodeId_new : string → result RealtimeError NodeId := string_id "node_id".
Definition ChannelKey_new : string → result RealtimeError string := string_id "channel_key".

Inductive DeliveryGuarantee := AtLeastOnce | FireAndForget.
#[export] Instance DeliveryGuarantee_eq_dec : EqDecision DeliveryGuarantee.
Proof. solve_decision. Defined.

Inductive ChannelClass := Dm | Notification | Presence | Counter | Feed.
#[export] Instance ChannelClass_eq_dec : EqDecision ChannelClass.
Proof. solve_decision. Defined.

Definition class_str (c : ChannelClass) : string :=
  match c with
  | Dm => "dm" | Notification => "notif" | Presence => "presence" | Counter => "counter"
  | Feed => "feed"
  end.

Definition class_try_from_str (s : string) : result RealtimeError ChannelClass :=
  if decide (s = "dm") then Ok Dm
  else if decide (s = "notif") then Ok Notification
  else if decide (s = "presence") then Ok Presence
  else if decide (s = "counter") then Ok Counter
  else if decide (s = "feed") then Ok Feed
  else Err (DomainViolation "channel_class" ("unknown channel class '" +:+ s +:+ "'")).

Definition is_identity_scoped (c : ChannelClass) : bool :=
  match c with Dm | Notification | Presence => true | _ => false end.

Definition delivery (c : ChannelClass) : DeliveryGuarantee :=
  match c with Dm | Notification => AtLeastOnce | Presence | Counter | Feed => FireAndForget end.

Definition ack_required (c : ChannelClass) : bool := bool_decide (delivery c = AtLeastOnce).

Record ChannelRef := { class : ChannelClass; key : string }.
#[export] Instance ChannelRef_eq_dec : EqDecision ChannelRef.
Proof. solve_decision. Defined.

(** [Display]: [class:key], which is also how the broadcast index names a channel. *)
Definition channel_str (c : ChannelRef) : string := class_str (class c) +:+ ":" +:+ key c.

Definition class_code (c : ChannelClass) : nat :=
  match c with Dm => 0 | Notification => 1 | Presence => 2 | Counter => 3 | Feed => 4 end%nat.
Definition class_of_code (n : nat) : ChannelClass :=
  match n with 0 => Dm | 1 => Notification | 2 => Presence | 3 => Counter | _ => Feed end%nat.
#[export] Instance ChannelRef_countable : Countable ChannelRef.
Proof.
  refine (inj_countable' (λ c, (class_code (class c), key c))
    (λ p, {| class := class_of_code p.1; key := p.2 |}) _).
  by intros [[] k].
Defined.

Inductive PresenceState := Online | Away | Offline.

Definition presence_str (p : PresenceState) : string :=
  match p with Online => "online" | Away => "away" | Offline => "offline" end.

(** ** The sequence of one channel on one connection: [u64] counters *)

Record SequenceState := { next : Z; ack_watermark : Z }.
#[export] Instance SequenceState_fields : Fields SequenceState :=
  λ s, {| next := next s; ack_watermark := ack_watermark s |}.

Definition SequenceState_new : SequenceState := {| next := 1; ack_watermark := 0 |}.

Definition issue : act SequenceState RealtimeError Z := λ s,
  (s <| next := u64_add (next s) 1 |>, Ok (next s)).

Definition last_issued (s : SequenceState) : Z := (next s - 1) mod 2 ^ 64.

Definition seq_ack (seq : Z) : act SequenceState RealtimeError unit := λ s,
  if last_issued s <? seq
  then (s, Err (SequenceViolation ("ack " +:+ pretty seq +:+ " exceeds last issued "
                                   +:+ pretty (last_issued s))))
  else if ack_watermark s <? seq then (s <| ack_watermark := seq |>, Ok tt)
  else (s, Ok tt).

(** ** The subscription set *)

Record SubscriptionSet := { channels : gmap ChannelRef SequenceState; cap : nat }.
#[export] Instance SubscriptionSet_fields : Fields SubscriptionSet :=
  λ s, {| channels := channels s; cap := cap s |}.

Definition SubscriptionSet_new (n : nat) : SubscriptionSet := {| channels := ∅; cap := n |}.

Definition set_is_subscribed (s : SubscriptionSet) (c : ChannelRef) : bool :=
  bool_decide (is_Some (channels s !! c)).

Definition set_subscribe (c : ChannelRef) : act SubscriptionSet RealtimeError bool := λ s,
  if set_is_subscribed s c then (s, Ok false)
  else if Nat.leb (cap s) (size (channels s)) then (s, Err SubscriptionLimitExceeded)
  else (s <| channels := <[c := SequenceState_new]> (channels s) |>, Ok true).

Definition set_unsubscribe (c : ChannelRef) : act SubscriptionSet RealtimeError unit := λ s,
  match channels s !! c with
  | Some _ => (s <| channels := delete c (channels s) |>, Ok tt)
  | None => (s, Err (NotSubscribed (channel_str c)))
  end.

(** [get_mut(channel)], then the operation on what is there. *)
Definition on_sequence {A} (c : ChannelRef) (op : act SequenceState RealtimeError A) :
    act SubscriptionSet RealtimeError A := λ s,
  match channels s !! c with
  | Some q => ((s <| channels := <[c := (op q).1]> (channels s) |>), (op q).2)
  | None => (s, Err (NotSubscribed (channel_str c)))
  end.

Definition set_issue_seq (c : ChannelRef) : act SubscriptionSet RealtimeError Z := on_sequence c issue.
Definition set_ack (c : ChannelRef) (seq : Z) : act SubscriptionSet RealtimeError unit :=
  on_sequence c (seq_ack seq).

(** ** The session, pinned at the handshake *)

Record Session := { user_id : UserId; device_id : DeviceId; expires_at : Z }.

Definition is_expired (s : Session) (now : Z) : bool := expires_at s <=? now.

(** The plane's only authorization rule. *)
Definition authorize (s : Session) (c : ChannelRef) : result RealtimeError unit :=
  if is_identity_scoped (class c) && negb (bool_decide (key c = user_id s))
  then Err (ChannelForbidden (channel_str c)) else Ok tt.

(** ** The connection *)

Inductive ConnectionState := Active | Draining | Closed.
#[export] Instance ConnectionState_eq_dec : EqDecision ConnectionState.
Proof. solve_decision. Defined.

Inductive CloseReason :=
  | DrainingReason | HeartbeatTimeoutReason | SendQueueOverflowReason | AuthExpired | ProtocolError.

Definition close_reason_str (r : CloseReason) : string :=
  match r with
  | DrainingReason => "draining" | HeartbeatTimeoutReason => "heartbeat_timeout"
  | SendQueueOverflowReason => "send_queue_overflow" | AuthExpired => "auth_expired"
  | ProtocolError => "protocol_error"
  end.

Record Connection := {
  id : ConnectionId;
  node_id : NodeId;
  session : Session;
  subscriptions : SubscriptionSet;
  state : ConnectionState;
  last_heartbeat : Z;
}.
#[export] Instance Connection_fields : Fields Connection :=
  λ c, {| id := id c; node_id := node_id c; session := session c;
          subscriptions := subscriptions c; state := state c; last_heartbeat := last_heartbeat c |}.

Definition open (i : ConnectionId) (n : NodeId) (s : Session) (subscription_cap : nat) (now : Z) :
    Connection := {|
  id := i; node_id := n; session := s; subscriptions := SubscriptionSet_new subscription_cap;
  state := Active; last_heartbeat := now |}.

Definition is_subscribed (c : Connection) (ch : ChannelRef) : bool :=
  set_is_subscribed (subscriptions c) ch.

(** In no particular order. *)
Definition subscribed_channels (c : Connection) : list ChannelRef :=
  (map_to_list (channels (subscriptions c))).*1.

Definition subscription_count (c : Connection) : nat := size (channels (subscriptions c)).

Definition on_subscriptions {A} (op : act SubscriptionSet RealtimeError A) :
    act Connection RealtimeError A := λ c,
  (c <| subscriptions := (op (subscriptions c)).1 |>, (op (subscriptions c)).2).

Definition subscribe (ch : ChannelRef) : act Connection RealtimeError bool := λ c,
  match state c with
  | Draining => (c, Err ConnectionDraining)
  | Closed => (c, Err (DomainViolation "connection_state" "cannot subscribe on a closed connection"))
  | Active =>
      match authorize (session c) ch with
      | Err e => (c, Err e)
      | Ok _ => on_subscriptions (set_subscribe ch) c
      end
  end.

Definition unsubscribe (ch : ChannelRef) : act Connection RealtimeError unit := λ c,
  if decide (state c = Closed)
  then (c, Err (DomainViolation "connection_state" "cannot unsubscribe on a closed connection"))
  else on_subscriptions (set_unsubscribe ch) c.

Definition issue_seq (ch : ChannelRef) : act Connection RealtimeError Z := λ c,
  if decide (state c = Closed)
  then (c, Err (DomainViolation "connection_state" "cannot deliver to a closed connection"))
  else on_subscriptions (set_issue_seq ch) c.

Definition ack (ch : ChannelRef) (seq : Z) : act Connection RealtimeError unit :=
  on_subscriptions (set_ack ch seq).

Definition heartbeat (now : Z) (c : Connection) : Connection :=
  if decide (state c = Closed) then c else c <| last_heartbeat := now |>.

Definition should_reap (c : Connection) (now timeout : Z) : bool :=
  negb (bool_decide (state c = Closed)) && (timeout <? now - last_heartbeat c).

Definition needs_reauth (c : Connection) (now : Z) : bool := is_expired (session c) now.

Definition begin_drain : act Connection RealtimeError unit := λ c,
  match state c with
  | Active | Draining => (c <| state := Draining |>, Ok tt)
  | Closed => (c, Err (DomainViolation "connection_state" "cannot drain a closed connection"))
  end.

Definition close (reason : CloseReason) (c : Connection) : Connection := c <| state := Closed |>.

Definition presence (c : Connection) (now heartbeat_timeout : Z) : PresenceState :=
  if decide (state c = Closed) then Offline
  else if heartbeat_timeout <? now - last_heartbeat c then Away else Online.
