(* ===== verification/RealtimeCodec.v ===== *)
(** * Realtime: events, wire types and the mailbox

    [application/event.rs] and the pure part of [crates/services/realtime/src/infrastructure]:
    the codec between domain and protobuf ([codec.rs], the messages of
    [crates/contracts/realtime-api]), the mappings of the three upstream topics
    ([decode.rs]), and the bounded mailbox ([mailbox.rs]).  Generated structs are records,
    an enum field is its number; [prost], [serde_json] and [chrono] are parameters. *)

From S2P Require Import Prelude.
From S2P Require EdgeToken.
From S2P Require Import RealtimeDomain.
From stdpp Require Import pretty.
Import EdgeToken(json, JNull, JString, JNumber, JObject, Number(..), UtcText, from_timestamp).
Local Open Scope Z_scope.

(** A second in nanoseconds. *)
Definition SECOND : Z := 10 ^ 9.

(** ** [DeliverableEvent] *)

Record DeliverableEvent := {
  recipient : option UserId;
  event_device : option DeviceId;
  channel : ChannelRef;
  payload : list ascii;
  event_type : string;
  emitted_at : Z;
  idempotency_key : string;
}.

Definition is_broadcast (e : DeliverableEvent) : bool :=
  match recipient e with None => true | Some _ => false end.

(** ** The messages of [realtime.v1] *)

Module Pb.

Record Timestamp := { seconds : Z; nanos : Z }.

(** [class] is a [ChannelClass] number. *)
Record ChannelRef := { class : Z; key : string }.

Record ChannelCursor := { cursor_channel : option ChannelRef; cursor_seq : Z }.

Inductive ClientBody :=
  | Subscribe (channels : list ChannelRef)
  | Unsubscribe (channels : list ChannelRef)
  | ClientAck (channel : option ChannelRef) (stream_seq : Z)
  | Pong (nonce : Z)
  | AuthRefresh (edge_token : string)
  | Resume (cursors : list ChannelCursor).

Record ClientFrame := { client_body : option ClientBody }.

Record Event := {
  channel : option ChannelRef; stream_seq : Z; ack_required : bool; payload : list ascii;
  event_type : string; emitted_at : option Timestamp }.

Inductive ServerControl :=
  | Unspecified | Subscribed | Unsubscribed | ReauthRequired | Reconnect | RateLimited | ErrorControl.

Record Control := {
  control : ServerControl; control_channel : option ChannelRef; code : string; message : string;
  reconnect_after_ms : Z }.

Inductive ServerFrame :=
  | EventFrame (e : Event)
  | PingFrame (nonce : Z)
  | ControlFrame (c : Control).

Record DeliverEnvelope := {
  recipient_user_id : string; recipient_device_id : string; envelope_channel : option ChannelRef;
  envelope_ack_required : bool; envelope_payload : list ascii; envelope_event_type : string;
  envelope_emitted_at : option Timestamp; envelope_idempotency_key : string; broadcast : bool }.

End Pb.

(** ** [codec.rs] *)

Section Codec.
Context `{UtcText}.

Definition epoch : Z := 0.

(** [timestamp] and [timestamp_subsec_nanos]. *)
Definition ts_to_pb (t : Z) : Pb.Timestamp :=
  {| Pb.seconds := t / SECOND; Pb.nanos := t mod SECOND |}.

Definition ts_from_pb (ts : Pb.Timestamp) : Z :=
  default epoch (from_timestamp (Pb.seconds ts) (Z.max (Pb.nanos ts) 0)).

Definition channel_class_to_pb (c : ChannelClass) : Z :=
  match c with Dm => 1 | Notification => 2 | Presence => 3 | Counter => 4 | Feed => 5 end.

Definition channel_class_from_pb (value : Z) : result RealtimeError ChannelClass :=
  if decide (value = 1) then Ok Dm
  else if decide (value = 2) then Ok Notification
  else if decide (value = 3) then Ok Presence
  else if decide (value = 4) then Ok Counter
  else if decide (value = 5) then Ok Feed
  else Err (MalformedFrame ("unknown channel class " +:+ pretty value)).

Definition channel_to_pb (c : ChannelRef) : Pb.ChannelRef :=
  {| Pb.class := channel_class_to_pb (class c); Pb.key := key c |}.

Definition channel_from_pb (c : Pb.ChannelRef) : result RealtimeError ChannelRef :=
  cl ← channel_class_from_pb (Pb.class c);
  k ← ChannelKey_new (Pb.key c);
  Ok {| class := cl; key := k |}.

Definition channels_from_pb (cs : list Pb.ChannelRef) : result RealtimeError (list ChannelRef) :=
  mapM channel_from_pb cs.

(** *** Server frames *)

Definition event_frame (c : ChannelRef) (stream_seq : Z) (e : DeliverableEvent) : Pb.ServerFrame :=
  Pb.EventFrame {|
    Pb.channel := Some (channel_to_pb c); Pb.stream_seq := stream_seq;
    Pb.ack_required := ack_required (class c); Pb.payload := payload e;
    Pb.event_type := event_type e; Pb.emitted_at := Some (ts_to_pb (emitted_at e)) |}.

Definition ping_frame (nonce : Z) : Pb.ServerFrame := Pb.PingFrame nonce.

Definition control_frame (c : Pb.ServerControl) (ch : option ChannelRef) (code message : string)
    (reconnect_after_ms : Z) : Pb.ServerFrame :=
  Pb.ControlFrame {|
    Pb.control := c; Pb.control_channel := channel_to_pb <$> ch; Pb.code := code;
    Pb.message := message; Pb.reconnect_after_ms := reconnect_after_ms |}.

(** *** Client frames *)

Inductive ClientIntent :=
  | SubscribeIntent (channels : list ChannelRef)
  | UnsubscribeIntent (channels : list ChannelRef)
  | AckIntent (channel : ChannelRef) (stream_seq : Z)
  | PongIntent (nonce : Z)
  | AuthRefreshIntent (edge_token : string)
  | ResumeIntent (cursors : list (ChannelRef * Z)).

Definition require {A} (field : option A) (name : string) : result RealtimeError A :=
  ok_or field (MalformedFrame ("missing required field '" +:+ name +:+ "'")).

Definition cursor_from_pb (c : Pb.ChannelCursor) : result RealtimeError (ChannelRef * Z) :=
  ch ← require (Pb.cursor_channel c) "resume.channel";
  ch ← channel_from_pb ch;
  Ok (ch, Pb.cursor_seq c).

Definition decode_client_frame (f : Pb.ClientFrame) : result RealtimeError ClientIntent :=
  body ← ok_or (Pb.client_body f) (MalformedFrame "client frame has no body");
  match body with
  | Pb.Subscribe cs => l ← channels_from_pb cs; Ok (SubscribeIntent l)
  | Pb.Unsubscribe cs => l ← channels_from_pb cs; Ok (UnsubscribeIntent l)
  | Pb.ClientAck c seq =>
      ch ← require c "ack.channel"; ch ← channel_from_pb ch; Ok (AckIntent ch seq)
  | Pb.Pong nonce => Ok (PongIntent nonce)
  | Pb.AuthRefresh token => Ok (AuthRefreshIntent token)
  | Pb.Resume cs => l ← mapM cursor_from_pb cs; Ok (ResumeIntent l)
  end.

(** *** The node hop *)

Definition envelope_to_pb (e : DeliverableEvent) : Pb.DeliverEnvelope := {|
  Pb.recipient_user_id := default "" (recipient e);
  Pb.recipient_device_id := default "" (event_device e);
  Pb.envelope_channel := Some (channel_to_pb (channel e));
  Pb.envelope_ack_required := ack_required (class (channel e));
  Pb.envelope_payload := payload e;
  Pb.envelope_event_type := event_type e;
  Pb.envelope_emitted_at := Some (ts_to_pb (emitted_at e));
  Pb.envelope_idempotency_key := idempotency_key e;
  Pb.broadcast := is_broadcast e |}.

Definition envelope_from_pb (env : Pb.DeliverEnvelope) : result RealtimeError DeliverableEvent :=
  c ← require (Pb.envelope_channel env) "envelope.channel";
  ch ← channel_from_pb c;
  device ← (if decide (Pb.recipient_device_id env = "") then Ok None
            else d ← DeviceId_new (Pb.recipient_device_id env); Ok (Some d));
  user ← (if Pb.broadcast env || bool_decide (Pb.recipient_user_id env = "") then Ok None
          else u ← UserId_new (Pb.recipient_user_id env); Ok (Some u));
  Ok {| recipient := user; event_device := device; channel := ch;
        payload := Pb.envelope_payload env; event_type := Pb.envelope_event_type env;
        emitted_at := from_option ts_from_pb epoch (Pb.envelope_emitted_at env);
        idempotency_key := Pb.envelope_idempotency_key env |}.

End Codec.

(** ** [decode.rs]: the upstream topics *)

Class WireText := {
  to_vec : json → result string (list ascii);
  from_timestamp_millis : Z → option Z;
  is_finite : Z → bool;
}.

Record NotificationWire := {
  recipient_id : string;
  notified_device : option string;
  notification_id : string;
  kind : string;
  created_at_ms : Z;
  body : json;
}.

(** [score] is an [f64], by its bits. *)
Record PopularityWire := { entity_type : string; entity_id : string; score : Z }.

Record PostWire := { post_event : string; post_id : string; profile_id : string }.

Section Decode.
Context `{WireText}.

Definition TOPIC_NOTIFICATION : string := "notification.v1.events".
Definition TOPIC_POPULARITY : string := "counter.v1.popularity".
Definition TOPIC_POST : string := "post.v1.events".

Definition payload_bytes (topic : string) (v : json) : result RealtimeError (list ascii) :=
  map_err (EventDecodeFailed topic) (to_vec v).

Definition map_notification (w : NotificationWire) : result RealtimeError (option DeliverableEvent) :=
  user ← UserId_new (recipient_id w);
  k ← ChannelKey_new user;
  bytes ← payload_bytes TOPIC_NOTIFICATION (body w);
  device ← (match notified_device w with
            | Some d => d' ← DeviceId_new d; Ok (Some d')
            | None => Ok None
            end);
  Ok (Some {|
    recipient := Some user; event_device := device;
    channel := {| class := Notification; key := k |}; payload := bytes;
    event_type := "notif." +:+ kind w;
    emitted_at := default epoch (from_timestamp_millis (created_at_ms w));
    idempotency_key := notification_id w |}).

(** [json!] on an [f64]: what is not finite has no number. *)
Definition json_of_f64 (bits : Z) : json :=
  if is_finite bits then JNumber (Float bits) else JNull.

Definition map_counter_popularity (now : Z) (w : PopularityWire) :
    result RealtimeError (option DeliverableEvent) :=
  if trim_is_empty (entity_id w) then Ok None
  else
    k ← ChannelKey_new (entity_id w);
    bytes ← payload_bytes TOPIC_POPULARITY
      (JObject [("entity_id", JString (entity_id w)); ("entity_type", JString (entity_type w));
                ("score", json_of_f64 (score w))]);
    Ok (Some {|
      recipient := None; event_device := None; channel := {| class := Counter; key := k |};
      payload := bytes; event_type := "counter.popularity"; emitted_at := now;
      idempotency_key := "pop:" +:+ entity_type w +:+ ":" +:+ entity_id w |}).

Definition map_post (now : Z) (w : PostWire) : result RealtimeError (option DeliverableEvent) :=
  if trim_is_empty (profile_id w) then Ok None
  else
    k ← ChannelKey_new (profile_id w);
    bytes ← payload_bytes TOPIC_POST
      (JObject [("author_id", JString (profile_id w)); ("post_id", JString (post_id w));
                ("type", JString (post_event w))]);
    Ok (Some {|
      recipient := None; event_device := None; channel := {| class := Feed; key := k |};
      payload := bytes; event_type := "post." +:+ post_event w; emitted_at := now;
      idempotency_key := "post:" +:+ post_event w +:+ ":" +:+ post_id w |}).

End Decode.

(** ** [mailbox.rs] *)

Inductive EnqueueOutcome := Accepted | SheddedOldest.

Record ConnectionMailbox := { queue : list (list ascii); capacity : nat; shed_total : Z }.
#[export] Instance ConnectionMailbox_fields : Fields ConnectionMailbox :=
  λ m, {| queue := queue m; capacity := capacity m; shed_total := shed_total m |}.

Definition ConnectionMailbox_new (n : nat) : ConnectionMailbox :=
  {| queue := []; capacity := Nat.max n 1; shed_total := 0 |}.

Definition is_full (m : ConnectionMailbox) : bool := Nat.leb (capacity m) (length (queue m)).

Definition enqueue (frame : list ascii) (m : ConnectionMailbox) : ConnectionMailbox * EnqueueOutcome :=
  if is_full m
  then (m <| queue := tail (queue m) ++ [frame] |> <| shed_total := u64_add (shed_total m) 1 |>,
        SheddedOldest)
  else (m <| queue := queue m ++ [frame] |>, Accepted).

Definition dequeue (m : ConnectionMailbox) : ConnectionMailbox * option (list ascii) :=
  match queue m with
  | [] => (m, None)
  | f :: rest => (m <| queue := rest |>, Some f)
  end.
