(* ===== verification/RealtimeGateway.v ===== *)
(** * Realtime: gateways, registry, fan-out

    The application layer and the runtime of [crates/services/realtime]: the handshake, the
    presence registry and the node channels on Redis, the fan-out and its consumer, the
    connection table of a gateway node, the life of a socket and the node's subscriber.

    A [Live] is what a connection's [Arc]s point to: its mutex-protected state, its mpsc
    channel and its socket.  A handle in the tables is the connection's identifier, so the
    two indexes, the socket task and a delivery in progress share one [Live].  It stays in
    the store after its task ended, as it does for whoever still holds a clone. *)

From S2P Require Import Prelude.
From S2P Require Import Consumer.
From S2P Require EdgeToken.
From S2P Require Import RealtimeDomain RealtimeCodec.
From S2P Require Cqrs.
Import Cqrs(error_code, is_retryable).
Import EdgeToken(as_str, UtcText, from_timestamp).
Local Open Scope Z_scope.

Class Prost := {
  encode_envelope : Pb.DeliverEnvelope → list ascii;
  decode_envelope : list ascii → option Pb.DeliverEnvelope;
  decode_client : list ascii → result string Pb.ClientFrame;
}.

(** [PlacementValue] as JSON. *)
Class PlacementText := {
  placement_json : string → string → result string string;
  parse_placement : string → option (string * string);
}.

(** ** State *)

Record Live := {
  conn : Connection;
  pinned_device : DeviceId;
  outbox : list Pb.ServerFrame;
  receiving : bool;
  written : list Pb.ServerFrame;
  shed : list Pb.ServerFrame;
  nonce : Z;
}.
#[export] Instance Live_fields : Fields Live := λ l,
  {| conn := conn l; pinned_device := pinned_device l; outbox := outbox l;
     receiving := receiving l; written := written l; shed := shed l; nonce := nonce l |}.

Record Node := {
  by_user : gmap string (list ConnectionId);
  by_channel : gmap string (list ConnectionId);
  lives : gmap ConnectionId Live;
  listening : list string;
  inbox : list (list ascii);
}.
#[export] Instance Node_fields : Fields Node := λ n,
  {| by_user := by_user n; by_channel := by_channel n; lives := lives n;
     listening := listening n; inbox := inbox n |}.

(** A presence hash and the millisecond it expires at. *)
Record PresenceHash := { fields : gmap string string; deadline : Z }.

(** A call that Redis refuses, or that it serves without its reply arriving. *)
Inductive Fault := Refused | AckLost.

Record World := {
  presence_keys : gmap string PresenceHash;
  redis_ms : Z;
  nodes : gmap NodeId Node;
  faults : list (option Fault);
}.
#[export] Instance World_fields : Fields World := λ w,
  {| presence_keys := presence_keys w; redis_ms := redis_ms w; nodes := nodes w;
     faults := faults w |}.

Notation rt A := (act World RealtimeError A).

(** A call to Redis: its effect and its reply, under the next entry of the script. *)
Definition redis {A} (on_error : RealtimeError) (effect : World → World * A) : rt A := λ w,
  match faults w with
  | Some Refused :: fs => (w <| faults := fs |>, Err on_error)
  | Some AckLost :: fs => ((effect (w <| faults := fs |>)).1, Err on_error)
  | None :: fs => ((effect (w <| faults := fs |>)).1, Ok (effect (w <| faults := fs |>)).2)
  | [] => ((effect w).1, Ok (effect w).2)
  end.

(** ** [redis_connection_registry.rs] *)

Record ConnectionLocation := {
  loc_user : UserId;
  loc_device : DeviceId;
  loc_connection : ConnectionId;
  loc_node : NodeId;
}.

Definition presence_key (u : UserId) : string := "rt:presence:{" +:+ u +:+ "}".

(** A hash past its deadline is gone. *)
Definition live_fields (k : string) (w : World) : gmap string string :=
  match presence_keys w !! k with
  | Some h => if redis_ms w <? deadline h then fields h else ∅
  | None => ∅
  end.

Section Registry.
Context `{PlacementText} (ttl_ms : Z) (scan : list (string * string) → list (string * string)).

(** [HSET], then [PEXPIRE] of the whole hash. *)
Definition bind (l : ConnectionLocation) : rt unit :=
  let! value := lift (map_err (DomainViolation "placement") (placement_json (loc_device l) (loc_node l))) in
  redis RegistryUnavailable (λ w,
    let k := presence_key (loc_user l) in
    (w <| presence_keys := <[k := {| fields := <[loc_connection l := value]> (live_fields k w);
                                     deadline := redis_ms w + ttl_ms |}]> (presence_keys w) |>, tt)).

(** [HDEL]; a hash without fields is deleted. *)
Definition evict (u : UserId) (c : ConnectionId) : rt unit :=
  redis RegistryUnavailable (λ w,
    let k := presence_key u in
    match presence_keys w !! k with
    | Some h =>
        let rest := delete c (live_fields k w) in
        if decide (rest = ∅) then (w <| presence_keys := delete k (presence_keys w) |>, tt)
        else (w <| presence_keys := <[k := {| fields := rest; deadline := deadline h |}]>
                                      (presence_keys w) |>, tt)
    | None => (w, tt)
    end).

(** A field that does not parse is skipped. *)
Definition location_of (u : UserId) (field : string * string) : option ConnectionLocation :=
  p ← parse_placement field.2;
  match DeviceId_new p.1, NodeId_new p.2, ConnectionId_new field.1 with
  | Ok d, Ok n, Ok c =>
      Some {| loc_user := u; loc_device := d; loc_connection := c; loc_node := n |}
  | _, _, _ => None
  end.

(** [HGETALL], in the order of the client's [HashMap]. *)
Definition resolve (u : UserId) : rt (list ConnectionLocation) :=
  let! found := redis RegistryUnavailable
    (λ w, (w, scan (map_to_list (live_fields (presence_key u) w)))) in
  done_with (omap (location_of u) found).

End Registry.

(** ** [redis_node_channel.rs]: sharded publish *)

Definition node_channel (n : NodeId) : string := "rt:node:{" +:+ n +:+ "}".
Definition BROADCAST_CHANNEL : string := "rt:broadcast:{0}".

Definition hears (ch : string) (n : Node) : bool := existsb (String.eqb ch) (listening n).

Definition spublish (ch : string) (bytes : list ascii) : rt unit :=
  redis NodeChannelUnavailable (λ w,
    (w <| nodes := (λ n, if hears ch n then n <| inbox := inbox n ++ [bytes] |> else n) <$> nodes w |>, tt)).

Section Publish.
Context `{Prost} `{UtcText}.

Definition publish (n : NodeId) (e : DeliverableEvent) : rt unit :=
  spublish (node_channel n) (encode_envelope (envelope_to_pb e)).

Definition broadcast (e : DeliverableEvent) : rt unit :=
  spublish BROADCAST_CHANNEL (encode_envelope (envelope_to_pb e)).

End Publish.

(** ** [fanout.rs] and [dispatcher.rs] *)

(** The optional restriction to one device. *)
Definition device_matches (only : option DeviceId) (d : DeviceId) : bool :=
  match only with Some o => bool_decide (d = o) | None => true end.

Record FanOutOutcome := { nodes_published : nat; offline : bool; was_broadcast : bool }.

Section FanOut.
Context `{Prost} `{UtcText} `{PlacementText} (scan : list (string * string) → list (string * string)).

Definition targets (e : DeliverableEvent) (locations : list ConnectionLocation) :
    list ConnectionLocation :=
  filter (λ l, device_matches (event_device e) (loc_device l) = true) locations.

(** The loop over the targets with its [HashSet] of nodes. *)
Fixpoint publish_to (e : DeliverableEvent) (published : gset NodeId) (ts : list ConnectionLocation) :
    rt (gset NodeId) :=
  match ts with
  | [] => done_with published
  | l :: rest =>
      if decide (loc_node l ∈ published) then publish_to e published rest
      else
        let! _ := publish (loc_node l) e in
        publish_to e ({[loc_node l]} ∪ published) rest
  end.

Definition fan_out (e : DeliverableEvent) : rt FanOutOutcome :=
  match recipient e with
  | None =>
      let! _ := broadcast e in
      done_with {| nodes_published := 0; offline := false; was_broadcast := true |}
  | Some u =>
      let! locations := resolve scan u in
      let! published := publish_to e ∅ (targets e locations) in
      done_with {| nodes_published := size published; offline := bool_decide (published = ∅);
                   was_broadcast := false |}
  end.

(** [run_dispatch]: until the source is drained. *)
Fixpoint run_dispatch (events : list (result RealtimeError DeliverableEvent)) : rt unit :=
  match events with
  | [] => done_with tt
  | Err e :: _ => throw e
  | Ok e :: rest => let! _ := fan_out e in run_dispatch rest
  end.

Context (validation_text : Cqrs.ValidationError → string).

#[export] Instance realtime_classify : ClassifyError RealtimeError := {|
  error_is_retryable := is_retryable;
  error_text := display validation_text |}.

(** What [run_fanout_consumer] gives the runner for a record that [map] reads. *)
Definition fanout_process {T} (map : T → result RealtimeError (option DeliverableEvent)) (record : T)
    (w : World) : World * ProcessOutcome :=
  let r := match map record with
           | Err e => (w, Err e)
           | Ok None => (w, Ok tt)
           | Ok (Some e) => (let! _ := fan_out e in done_with tt) w
           end in
  (r.1, from_result r.2).

End FanOut.

(** ** [handshake.rs], [auth_context_verifier.rs], [lifecycle.rs] *)

Section Handshake.
Context `{EdgeToken.Jwt} `{UtcText}.

Definition map_auth_err (e : EdgeToken.AuthContext.AuthError) : RealtimeError :=
  match e with
  | EdgeToken.AuthContext.TokenExpired => TokenExpired
  | other => HandshakeRejected (EdgeToken.AuthContext.to_string other)
  end.

(** The decoder reads its own clock, in seconds. *)
Definition verify (config : EdgeToken.AuthContext.AuthContextConfig)
    (keys : gmap string EdgeToken.DecodingKey) (device_claim : string) (edge_token : string) (now : Z) :
    result RealtimeError Session :=
  principal ← map_err map_auth_err
    (EdgeToken.AuthContext.gateway_decode config keys (now / SECOND) edge_token);
  u ← UserId_new (EdgeToken.AuthContext.user_id principal);
  let claims := EdgeToken.AuthContext.raw_claims principal in
  expiry ← ok_or (from_timestamp (EdgeToken.AuthContext.exp claims) 0)
    (HandshakeRejected "edge token has an invalid 'exp'");
  if expiry <=? now then Err TokenExpired
  else
    device ← ok_or (EdgeToken.AuthContext.extra claims !! device_claim ≫= as_str)
      (HandshakeRejected ("edge token is missing the '" +:+ device_claim +:+ "' device claim"));
    d ← DeviceId_new device;
    Ok {| user_id := u; device_id := d; expires_at := expiry |}.

End Handshake.

(** [HandshakeHandler::accept] against any verifier. *)
Definition accept `{PlacementText} (ttl_ms : Z) (verifier : string → Z → result RealtimeError Session)
    (node : NodeId) (subscription_cap : nat) (edge_token : string) (c : ConnectionId) (now : Z) :
    rt Connection :=
  let! s := lift (verifier edge_token now) in
  let connection := open c node s subscription_cap now in
  let! _ := bind ttl_ms {| loc_user := user_id s; loc_device := device_id s; loc_connection := c;
                           loc_node := node |} in
  done_with connection.

Definition reap_evict (u : UserId) (c : ConnectionId) : rt unit := evict u c.

(** ** [connection_table.rs] *)

Definition with_live (c : ConnectionId) (f : Live → Live) (n : Node) : Node :=
  n <| lives := alter f c (lives n) |>.

Definition table_insert (u : string) (c : ConnectionId) (n : Node) : Node :=
  n <| by_user := <[u := default [] (by_user n !! u) ++ [c]]> (by_user n) |>.

(** [retain], then [remove_if] what became empty. *)
Definition without (c : ConnectionId) (k : string) (index : gmap string (list ConnectionId)) :
    gmap string (list ConnectionId) :=
  match index !! k with
  | None => index
  | Some hs =>
      let rest := filter (λ h, h ≠ c) hs in
      if decide (rest = []) then delete k index else <[k := rest]> index
  end.

Definition table_remove (u : string) (c : ConnectionId) (n : Node) : Node :=
  n <| by_user := without c u (by_user n) |>.

Definition subscribe_channel (ch : string) (c : ConnectionId) (n : Node) : Node :=
  let hs := default [] (by_channel n !! ch) in
  n <| by_channel := <[ch := if decide (c ∈ hs) then hs else hs ++ [c]]> (by_channel n) |>.

Definition unsubscribe_channel (ch : string) (c : ConnectionId) (n : Node) : Node :=
  n <| by_channel := without c ch (by_channel n) |>.

Definition connection_count (n : Node) : nat := sum_list_with length (map_to_list (by_user n)).*2.

Section Table.
Context (send_queue_cap : nat) (validation_text : Cqrs.ValidationError → string).

(** [mpsc::Sender::try_send]: a full or closed channel refuses the frame. *)
Definition try_send (f : Pb.ServerFrame) (l : Live) : Live * bool :=
  if receiving l && Nat.ltb (length (outbox l)) send_queue_cap
  then (l <| outbox := outbox l ++ [f] |>, true)
  else (l <| shed := shed l ++ [f] |>, false).

Definition sent (f : Pb.ServerFrame) (l : Live) : Live := (try_send f l).1.

(** Under the connection's lock: the frame for the event, if the connection takes it. *)
Definition stamp (e : DeliverableEvent) (l : Live) : Live * option Pb.ServerFrame :=
  if is_subscribed (conn l) (channel e) then
    match issue_seq (channel e) (conn l) with
    | (c, Ok seq) => (l <| conn := c |>, Some (event_frame (channel e) seq e))
    | (c, Err _) => (l <| conn := c |>, None)
    end
  else (l, None).

Definition deliver_one (e : DeliverableEvent) (only : option DeviceId) (l : Live) : Live * nat :=
  if device_matches only (pinned_device l) then
    match stamp e l with
    | (l', Some f) => ((try_send f l').1, if (try_send f l').2 then 1 else 0)%nat
    | (l', None) => (l', 0%nat)
    end
  else (l, 0%nat).

Fixpoint deliver_to (handles : list ConnectionId) (e : DeliverableEvent) (only : option DeviceId)
    (n : Node) : Node * nat :=
  match handles with
  | [] => (n, 0%nat)
  | h :: rest =>
      match lives n !! h with
      | Some l =>
          let n' := n <| lives := <[h := (deliver_one e only l).1]> (lives n) |> in
          ((deliver_to rest e only n').1,
           (deliver_one e only l).2 + (deliver_to rest e only n').2)%nat
      | None => deliver_to rest e only n
      end
  end.

Definition deliver (e : DeliverableEvent) (n : Node) : Node * nat :=
  match recipient e with
  | None => (n, 0%nat)
  | Some u => match by_user n !! u with
              | None => (n, 0%nat)
              | Some hs => deliver_to hs e (event_device e) n
              end
  end.

Definition deliver_broadcast (e : DeliverableEvent) (n : Node) : Node * nat :=
  match by_channel n !! channel_str (channel e) with
  | None => (n, 0%nat)
  | Some hs => deliver_to hs e None n
  end.

Definition drain_frame (reconnect_after_ms : Z) : Pb.ServerFrame :=
  control_frame Pb.Reconnect None "RTM-5003" "node draining; reconnect with backoff" reconnect_after_ms.

Fixpoint drain_handles (ms : Z) (handles : list ConnectionId) (n : Node) : Node * nat :=
  match handles with
  | [] => (n, 0%nat)
  | h :: rest =>
      match lives n !! h with
      | Some l =>
          let l' := l <| conn := (begin_drain (conn l)).1 |> in
          let n' := n <| lives := <[h := sent (drain_frame ms) l']> (lives n) |> in
          ((drain_handles ms rest n').1,
           (if (try_send (drain_frame ms) l').2 then 1 else 0) + (drain_handles ms rest n').2)%nat
      | None => drain_handles ms rest n
      end
  end.

Definition broadcast_drain (reconnect_after_ms : Z) (n : Node) : Node * nat :=
  drain_handles reconnect_after_ms (concat (map_to_list (by_user n)).*2) n.

(** ** [gateway.rs] *)

(** *** One iteration of a loop over channels, under the connection's lock *)

Definition send_control (c : Pb.ServerControl) (ch : option ChannelRef) (code message : string) :
    Live → Live := sent (control_frame c ch code message 0).

Definition subscribe_one (c : ConnectionId) (ch : ChannelRef) (n : Node) : Node :=
  match lives n !! c with
  | None => n
  | Some l =>
      match subscribe ch (conn l) with
      | (k, Ok _) =>
          let l' := send_control Pb.Subscribed (Some ch) "" "" (l <| conn := k |>) in
          subscribe_channel (channel_str ch) c n <| lives := <[c := l']> (lives n) |>
      | (k, Err e) =>
          let l' := send_control Pb.ErrorControl (Some ch) (error_code e)
                      (display validation_text e) (l <| conn := k |>) in
          n <| lives := <[c := l']> (lives n) |>
      end
  end.

Definition unsubscribe_one (c : ConnectionId) (ch : ChannelRef) (n : Node) : Node :=
  match lives n !! c with
  | None => n
  | Some l =>
      match unsubscribe ch (conn l) with
      | (k, Ok _) =>
          let l' := send_control Pb.Unsubscribed (Some ch) "" "" (l <| conn := k |>) in
          unsubscribe_channel (channel_str ch) c n <| lives := <[c := l']> (lives n) |>
      | (k, Err _) => n <| lives := <[c := l <| conn := k |>]> (lives n) |>
      end
  end.

Definition resume_one (c : ConnectionId) (ch : ChannelRef) (n : Node) : Node :=
  match lives n !! c with
  | None => n
  | Some l =>
      match subscribe ch (conn l) with
      | (k, Ok _) => subscribe_channel (channel_str ch) c n <| lives := <[c := l <| conn := k |>]> (lives n) |>
      | (k, Err _) => n <| lives := <[c := l <| conn := k |>]> (lives n) |>
      end
  end.

(** What is left to do for a client frame. *)
Inductive Task :=
  | DoSubscribe (ch : ChannelRef)
  | DoUnsubscribe (ch : ChannelRef)
  | DoAck (ch : ChannelRef) (seq : Z)
  | DoPong
  | DoResume (ch : ChannelRef).

Definition tasks_of (i : ClientIntent) : list Task :=
  match i with
  | SubscribeIntent cs => DoSubscribe <$> cs
  | UnsubscribeIntent cs => DoUnsubscribe <$> cs
  | AckIntent ch seq => [DoAck ch seq]
  | PongIntent _ => [DoPong]
  | AuthRefreshIntent _ => []
  | ResumeIntent cs => DoResume <$> cs.*1
  end.

Definition perform (now : Z) (c : ConnectionId) (t : Task) (n : Node) : Node :=
  match t with
  | DoSubscribe ch => subscribe_one c ch n
  | DoUnsubscribe ch => unsubscribe_one c ch n
  | DoAck ch seq => with_live c (λ l, l <| conn := (ack ch seq (conn l)).1 |>) n
  | DoPong => with_live c (λ l, l <| conn := heartbeat now (conn l) |>) n
  | DoResume ch => resume_one c ch n
  end.

Definition perform_all (now : Z) (c : ConnectionId) (ts : list Task) (n : Node) : Node :=
  foldl (λ n t, perform now c t n) n ts.

Definition handle_client_frame `{Prost} (now : Z) (c : ConnectionId) (data : list ascii) (n : Node) :
    Node * result RealtimeError unit :=
  match (f ← map_err MalformedFrame (decode_client data); decode_client_frame f) with
  | Ok intent => (perform_all now c (tasks_of intent) n, Ok tt)
  | Err e => (n, Err e)
  end.

(** *** The life of a socket *)

(** After the handshake: the mpsc channel, the handle, the index by user. *)
Definition start_socket (k : Connection) (n : Node) : Node :=
  table_insert (user_id (session k)) (id k) (n <| lives := <[id k := {|
    conn := k; pinned_device := device_id (session k); outbox := []; receiving := true;
    written := []; shed := []; nonce := 0 |}]> (lives n) |>).

(** The writer takes a frame from the channel and puts it on the socket. *)
Definition write_one (l : Live) : Live :=
  match outbox l with
  | [] => l
  | f :: rest => if receiving l then l <| outbox := rest |> <| written := written l ++ [f] |> else l
  end.

(** A binary message: the heartbeat, then the frame; a failure is logged. *)
Definition on_binary `{Prost} (now : Z) (c : ConnectionId) (data : list ascii) (n : Node) : Node :=
  (handle_client_frame now c data (with_live c (λ l, l <| conn := heartbeat now (conn l) |>) n)).1.

Definition on_pong (now : Z) (c : ConnectionId) (n : Node) : Node :=
  with_live c (λ l, l <| conn := heartbeat now (conn l) |>) n.

Definition reauth_frame : Pb.ServerFrame :=
  control_frame Pb.ReauthRequired None "RTM-1002" "edge token expired; refresh and re-handshake" 0.

(** A tick of the heartbeat: [true] breaks the loop. *)
Definition tick (now timeout : Z) (l : Live) : Live * bool :=
  if should_reap (conn l) now timeout then (l, true)
  else
    let l := if needs_reauth (conn l) now then sent reauth_frame l else l in
    let l := l <| nonce := u64_add (nonce l) 1 |> in
    (sent (ping_frame (nonce l)) l, false).

(** The teardown: every index entry, the registry, then the writer. *)
Definition drop_channels (c : ConnectionId) (chs : list ChannelRef) (n : Node) : Node :=
  foldl (λ n ch, unsubscribe_channel (channel_str ch) c n) n chs.

Definition leave_table (c : ConnectionId) (n : Node) : Node :=
  match lives n !! c with
  | None => n
  | Some l => table_remove (user_id (session (conn l))) c
                (drop_channels c (subscribed_channels (conn l)) n)
  end.

Definition stop_writer (c : ConnectionId) (n : Node) : Node :=
  with_live c (λ l, l <| receiving := false |>) n.

(** *** The node subscriber *)

Definition subscriptions_of (node : NodeId) : list string := [node_channel node; BROADCAST_CHANNEL].

Definition handle_message `{Prost} `{UtcText} (bytes : list ascii) (n : Node) : Node :=
  match decode_envelope bytes with
  | None => n
  | Some env =>
      match envelope_from_pb env with
      | Err _ => n
      | Ok e => if is_broadcast e then (deliver_broadcast e n).1 else (deliver e n).1
      end
  end.

(** One turn of the loop on [message_rx]. *)
Definition subscriber_turn `{Prost} `{UtcText} (n : Node) : Node :=
  match inbox n with
  | [] => n
  | m :: rest => handle_message m (n <| inbox := rest |>)
  end.

End Table.

(** ** The socket task on its node, with the registry *)

Definition on_node (node : NodeId) (f : Node → Node) : rt unit :=
  modify (λ w, w <| nodes := alter f node (nodes w) |>).

(** The first half of [handle_socket]: a rejected handshake ends the task. *)
Definition open_socket `{PlacementText} (ttl_ms : Z)
    (verifier : string → Z → result RealtimeError Session) (node : NodeId) (subscription_cap : nat)
    (edge_token : string) (c : ConnectionId) (now : Z) : rt unit :=
  let! k := accept ttl_ms verifier node subscription_cap edge_token c now in
  on_node node (start_socket k).

(** The second half; a failed eviction is logged. *)
Definition close_socket (node : NodeId) (u : UserId) (c : ConnectionId) : rt unit := λ w,
  let w1 := (on_node node (leave_table c) w).1 in
  let w2 := (reap_evict u c w1).1 in
  on_node node (stop_writer c) w2.
