(* ===== verification/RealtimeProofs.v ===== *)
(** * Realtime: one connection, one event, one mailbox

    Channel names are injective; a connection's invariant (authorized channels, the cap,
    watermarks below the next number) under each of its operations; the codec loses
    nothing an event carries; the mailbox keeps the newest frames; what a fan-out publishes. *)

From S2P Require Import Prelude.
From S2P Require EdgeToken.
From S2P Require Import RealtimeDomain RealtimeCodec RealtimeGateway.
Import EdgeToken(UtcText, from_timestamp).
From stdpp Require Import list.
Local Open Scope Z_scope.

(** ** Names *)

Lemma channel_str_inj a b : channel_str a = channel_str b → a = b.
Proof.
  destruct a as [[] k], b as [[] k']; 
    cbv [channel_str class_str class key String.append]; intros E; first
      [discriminate E | by injection E as ->].
Qed.
#[export] Instance channel_str_Inj : Inj (=) (=) channel_str := channel_str_inj.

Lemma class_round c : class_try_from_str (class_str c) = Ok c.
Proof. by destruct c. Qed.

Lemma string_id_ok f v v' : string_id f v = Ok v' ↔ v' = v ∧ trim_is_empty v = false.
Proof.
  unfold string_id. destruct (trim_is_empty v); split; [done|by intros [_ ?]|by intros [= ->]|].
  by intros [-> _].
Qed.

(** ** The connection's invariant *)

Definition seq_wf (q : SequenceState) : Prop := 0 ≤ ack_watermark q < next q ∧ next q ≤ u64_max.

Record conn_wf (c : Connection) : Prop := {
  wf_authorized ch : is_subscribed c ch = true → authorize (session c) ch = Ok tt;
  wf_cap : (subscription_count c ≤ cap (subscriptions c))%nat;
}.

Lemma open_wf i n s k now : conn_wf (open i n s k now).
Proof.
  split; [|simpl; unfold subscription_count; simpl; rewrite map_size_empty; lia].
  intros ch H. unfold is_subscribed, set_is_subscribed in H. apply bool_decide_eq_true in H.
  simpl in H. rewrite lookup_empty in H. by destruct H.
Qed.

Lemma is_subscribed_true c ch :
  is_subscribed c ch = true ↔ is_Some (channels (subscriptions c) !! ch).
Proof. unfold is_subscribed, set_is_subscribed. apply bool_decide_eq_true. Qed.

Lemma subscribed_elem c ch : ch ∈ subscribed_channels c ↔ is_subscribed c ch = true.
Proof.
  rewrite is_subscribed_true. unfold subscribed_channels. rewrite list_elem_of_fmap. split.
  - intros ([ch' q] & -> & H%elem_of_map_to_list). by exists q.
  - intros [q H]. exists (ch, q). by rewrite elem_of_map_to_list.
Qed.

Lemma NoDup_subscribed c : NoDup (subscribed_channels c).
Proof. apply NoDup_fst_map_to_list. Qed.

(** A subscription that succeeds leaves the channel subscribed, the rest as it was. *)
Lemma subscribe_ok ch c c' b : subscribe ch c = (c', Ok b) →
  state c = Active ∧ authorize (session c) ch = Ok tt ∧
  session c' = session c ∧ id c' = id c ∧ state c' = state c ∧
  cap (subscriptions c') = cap (subscriptions c) ∧
  ((b = false ∧ c' = c ∧ is_subscribed c ch = true) ∨
   (b = true ∧ is_subscribed c ch = false ∧
    (subscription_count c < cap (subscriptions c))%nat ∧
    channels (subscriptions c') = <[ch := SequenceState_new]> (channels (subscriptions c)))).
Proof.
  unfold subscribe, is_subscribed. destruct (state c) eqn:Hs; [|done|done].
  destruct (authorize (session c) ch) as [[]|]; [|done].
  unfold on_subscriptions, set_subscribe.
  destruct (set_is_subscribed (subscriptions c) ch) eqn:E; simpl.
  - intros [= <- <-]. destruct c as [? ? ? [] ? ?]. split_and!; try done. by left.
  - destruct (Nat.leb_spec (cap (subscriptions c)) (size (channels (subscriptions c)))) as [|Hlt];
      simpl; [done|].
    intros [= <- <-]. split_and!; try done. right. by split_and!.
Qed.

Lemma subscribe_err ch c c' e : subscribe ch c = (c', Err e) → c' = c.
Proof.
  unfold subscribe. destruct (state c) eqn:Hs; [|by intros [= <- _]..].
  destruct (authorize (session c) ch); [|by intros [= <- _]].
  unfold on_subscriptions, set_subscribe.
  destruct (set_is_subscribed _ _); simpl; [done|]. destruct (Nat.leb _ _); simpl; [|done].
  intros [= <- _]. by destruct c as [? ? ? [] ? ?].
Qed.

Lemma unsubscribe_ok ch c c' : unsubscribe ch c = (c', Ok tt) →
  is_subscribed c ch = true ∧ session c' = session c ∧ id c' = id c ∧
  cap (subscriptions c') = cap (subscriptions c) ∧
  channels (subscriptions c') = delete ch (channels (subscriptions c)).
Proof.
  unfold unsubscribe. destruct (decide (state c = Closed)); [done|].
  unfold on_subscriptions, set_unsubscribe. rewrite is_subscribed_true.
  destruct (channels (subscriptions c) !! ch) eqn:E; simpl; [|done]. by intros [= <-].
Qed.

Lemma unsubscribe_err ch c c' e : unsubscribe ch c = (c', Err e) → c' = c.
Proof.
  unfold unsubscribe. destruct (decide (state c = Closed)); [by intros [= <- _]|].
  unfold on_subscriptions, set_unsubscribe.
  destruct (channels (subscriptions c) !! ch); simpl; [done|].
  intros [= <- _]. by destruct c as [? ? ? [] ? ?].
Qed.

(** Operations that touch one sequence only. *)
Record same_channels (c c' : Connection) : Prop := {
  same_session : session c' = session c;
  same_id : id c' = id c;
  same_cap : cap (subscriptions c') = cap (subscriptions c);
  same_dom ch : is_subscribed c' ch = is_subscribed c ch;
  same_count : subscription_count c' = subscription_count c;
}.

Lemma same_channels_refl c : same_channels c c.
Proof. by split. Qed.

Lemma on_sequence_same {A} ch (op : act SequenceState RealtimeError A) c :
  same_channels c (on_subscriptions (on_sequence ch op) c).1.
Proof.
  unfold on_subscriptions, on_sequence. destruct (channels (subscriptions c) !! ch) as [q|] eqn:E.
  - split; try done; simpl.
    + intros ch'. unfold is_subscribed, set_is_subscribed. simpl. apply bool_decide_ext.
      destruct (decide (ch' = ch)) as [->|].
      * rewrite lookup_insert_eq, E. split; intros _; by eexists.
      * by rewrite lookup_insert_ne.
    + unfold subscription_count. simpl. rewrite map_size_insert, E. done.
  - by split.
Qed.

Lemma issue_seq_same ch c : same_channels c (issue_seq ch c).1.
Proof.
  unfold issue_seq. destruct (decide _); [apply same_channels_refl|apply on_sequence_same].
Qed.
Lemma ack_same ch seq c : same_channels c (ack ch seq c).1.
Proof. apply on_sequence_same. Qed.
Lemma heartbeat_same now c : same_channels c (heartbeat now c).
Proof. unfold heartbeat. destruct (decide _); by split. Qed.
Lemma begin_drain_same c : same_channels c (begin_drain c).1.
Proof. unfold begin_drain. destruct (state c); by split. Qed.

Lemma same_wf c c' : same_channels c c' → conn_wf c → conn_wf c'.
Proof.
  intros [Hs Hi Hc Hd Hn] [Ha Hk]. split.
  - intros ch. rewrite Hd, Hs. apply Ha.
  - by rewrite Hn, Hc.
Qed.

Lemma subscribe_wf ch c : conn_wf c → conn_wf (subscribe ch c).1.
Proof.
  intros Hwf. destruct (subscribe ch c) as [c' [b|e]] eqn:E; simpl.
  - apply subscribe_ok in E as (_ & Ha & Hs & _ & _ & Hc & [(-> & -> & _)|(-> & Hn & Hlt & Hch)]);
      [done|]. split.
    + intros ch'. rewrite is_subscribed_true, Hch, Hs.
      destruct (decide (ch' = ch)) as [->|]; [done|].
      rewrite lookup_insert_ne, <- is_subscribed_true by done. apply Hwf.
    + unfold subscription_count in *. rewrite Hch, Hc, map_size_insert_None; [lia|].
      apply eq_None_not_Some. rewrite <- is_subscribed_true. by rewrite Hn.
  - by rewrite (subscribe_err _ _ _ _ E).
Qed.

Lemma unsubscribe_wf ch c : conn_wf c → conn_wf (unsubscribe ch c).1.
Proof.
  intros Hwf. destruct (unsubscribe ch c) as [c' [[]|e]] eqn:E; simpl.
  - apply unsubscribe_ok in E as (Hsub & Hs & _ & Hc & Hch). split.
    + intros ch'. rewrite is_subscribed_true, Hch, Hs, lookup_delete_is_Some.
      rewrite <- is_subscribed_true. intros [_ H]. by apply Hwf.
    + pose proof (wf_cap _ Hwf). unfold subscription_count in *. rewrite Hch, Hc.
      pose proof (map_size_delete ch (channels (subscriptions c))).
      destruct (channels (subscriptions c) !! ch); unfold Datatypes.id in *; lia.
  - by rewrite (unsubscribe_err _ _ _ _ E).
Qed.

(** ** Sequence numbers *)

Lemma issue_wf q : seq_wf q → next q < u64_max →
  issue q = ({| next := next q + 1; ack_watermark := ack_watermark q |}, Ok (next q)) ∧
  seq_wf (issue q).1.
Proof.
  unfold seq_wf, u64_max. intros [H1 H2] H3.
  assert (E : u64_add (next q) 1 = next q + 1) by (unfold u64_add; apply Z.mod_small; lia).
  unfold issue. rewrite E. destruct q; simpl in *. split; [reflexivity|lia].
Qed.

Lemma last_issued_wf q : seq_wf q → last_issued q = next q - 1.
Proof. unfold seq_wf, last_issued, u64_max. intros [? ?]. apply Z.mod_small. lia. Qed.

(** An acknowledgement is accepted exactly up to the last number handed out; it moves
    the watermark forward, or leaves it when it repeats an earlier one, and never past a
    frame that was not issued. *)
Theorem acknowledgements_move_forward seq q q' r :
  seq_wf q → seq_ack seq q = (q', r) →
  seq_wf q' ∧ next q' = next q ∧
  (is_ok r = true ↔ seq < next q) ∧
  ack_watermark q' = (if is_ok r then Z.max (ack_watermark q) seq else ack_watermark q).
Proof.
  intros Hq. pose proof (last_issued_wf q Hq) as Hl. unfold seq_wf in Hq. unfold seq_ack.
  rewrite Hl. destruct (Z.ltb_spec (next q - 1) seq); [|destruct (Z.ltb_spec (ack_watermark q) seq)];
    intros [= <- <-]; simpl; unfold seq_wf; simpl; split_and!; try lia; try done; split; intros; try done; lia.
Qed.

(** ** The node hop *)

Definition text_ok (s : string) : Prop := trim_is_empty s = false.

(** An event as the mappings build it, at an instant that [chrono] represents. *)
Record event_wf `{UtcText} (e : DeliverableEvent) : Prop := {
  wf_recipient u : recipient e = Some u → text_ok u;
  wf_device d : event_device e = Some d → text_ok d;
  wf_key : text_ok (key (channel e));
  wf_instant : from_timestamp (emitted_at e / SECOND) (emitted_at e mod SECOND) = Some (emitted_at e);
}.

Lemma string_id_text f v : text_ok v → string_id f v = Ok v.
Proof. intros Hv. by apply string_id_ok. Qed.

Lemma text_ok_nonempty v : text_ok v → v ≠ "".
Proof. by intros H ->. Qed.

Lemma channel_round c : text_ok (key c) → channel_from_pb (channel_to_pb c) = Ok c.
Proof.
  intros Hk. unfold channel_from_pb, channel_to_pb, ChannelKey_new. simpl.
  rewrite (string_id_text _ _ Hk). by destruct c as [[] k].
Qed.

(** The hop between dispatcher and gateway loses nothing: an event comes out of its
    envelope as it went in, recipient, device, channel, payload, type, instant and key. *)
Theorem envelope_round_trip `{UtcText} e : event_wf e →
  envelope_from_pb (envelope_to_pb e) = Ok e.
Proof.
  intros [Hr Hd Hk Ht]. unfold envelope_from_pb, envelope_to_pb. simpl.
  rewrite (channel_round _ Hk). simpl. unfold ts_from_pb, ts_to_pb. simpl.
  rewrite Z.max_l by (apply Z.mod_pos_bound; unfold SECOND; lia). rewrite Ht. simpl.
  destruct e as [[u|] [d|] c p t at' k]; simpl in *;
    repeat match goal with
      | |- context [decide (?x = "")] => rewrite (decide_False (P:=x = "")) by (apply text_ok_nonempty; auto)
      | |- context [bool_decide (?x = "")] => rewrite (bool_decide_false (x = "")) by (apply text_ok_nonempty; auto)
      end; simpl; unfold DeviceId_new, UserId_new;
    rewrite ?string_id_text by auto; done.
Qed.

(** ** The mailbox *)

Definition enqueue_all (fs : list (list ascii)) (m : ConnectionMailbox) : ConnectionMailbox :=
  foldl (λ m f, (enqueue f m).1) m fs.

Definition mailbox_wf (m : ConnectionMailbox) : Prop :=
  (1 ≤ capacity m)%nat ∧ (length (queue m) ≤ capacity m)%nat.

Lemma enqueue_full f m : (1 ≤ capacity m)%nat → length (queue m) = capacity m →
  (enqueue f m).1 = {| queue := drop 1 (queue m ++ [f]); capacity := capacity m;
                       shed_total := u64_add (shed_total m) 1 |}.
Proof.
  intros H1 H2. unfold enqueue, is_full.
  destruct (Nat.leb_spec (capacity m) (length (queue m))) as [_|]; [|lia].
  destruct m as [[|g q] c s]; simpl in *; [lia|done].
Qed.

Lemma enqueue_room f m : (length (queue m) < capacity m)%nat →
  (enqueue f m).1 = {| queue := queue m ++ [f]; capacity := capacity m; shed_total := shed_total m |}.
Proof.
  intros H. unfold enqueue, is_full.
  by destruct (Nat.leb_spec (capacity m) (length (queue m))) as [|_]; [lia|destruct m].
Qed.

(** The mailbox refines an unbounded queue cut to its newest frames: whatever is
    enqueued, it holds the last [capacity] frames of the whole, in order, and the total it
    reports grows by the number of those it dropped. *)
Theorem mailbox_keeps_the_newest fs m : mailbox_wf m → is_u64 (shed_total m) →
  let lost := (length (queue m ++ fs) - capacity m)%nat in
  enqueue_all fs m = {|
    queue := drop lost (queue m ++ fs); capacity := capacity m;
    shed_total := (shed_total m + Z.of_nat lost) mod 2 ^ 64 |}.
Proof.
  intros [H1 H2] H3. simpl. induction fs as [|f fs IH] using rev_ind.
  - rewrite app_nil_r. replace (length (queue m) - capacity m)%nat with 0%nat by lia.
    unfold is_u64, u64_max in H3. rewrite Z.add_0_r, Z.mod_small by lia. by destruct m.
  - unfold enqueue_all in *. rewrite foldl_app, IH. simpl. rewrite !length_app in *. simpl in *.
    destruct (decide (capacity m ≤ length (queue m) + length fs)%nat) as [Hge|Hlt].
    + rewrite enqueue_full; simpl; [|done|rewrite length_drop, ?length_app; lia]. f_equal.
      * rewrite app_assoc, <- (drop_app_le (queue m ++ fs) [f]), drop_drop by (rewrite length_app; lia).
        f_equal. lia.
      * unfold u64_add. rewrite Z.add_mod_idemp_l by lia. f_equal. lia.
    + replace (length (queue m) + length fs - capacity m)%nat with 0%nat by lia.
      rewrite enqueue_room; simpl; [|rewrite drop_0, length_app; lia].
      replace (length (queue m) + (length fs + 1) - capacity m)%nat with 0%nat by lia.
      by rewrite !drop_0, app_assoc.
Qed.
