(* ===== verification/RealtimeRuns.v ===== *)
(** * Realtime: a gateway node as a step relation

    Socket tasks, their writers and the node's subscriber run at once.  A step is what one
    task does under a connection's lock or on a table entry; the model lets others in
    between two of them even where the code keeps the lock.  The two halves of [remove]
    ([retain], [remove_if]) are one step, since no one tells an empty entry from none.
    What arrives on the node's channels is arbitrary.

    Two invariants: what a connection may ever be sent ([sound]), and that the indexes are
    the subscriptions of the sockets being served ([in_sync]). *)

From S2P Require Import Prelude.
From S2P Require EdgeToken.
From S2P Require Import RealtimeDomain RealtimeCodec RealtimeGateway RealtimeProofs.
From S2P Require Cqrs.
Import EdgeToken(UtcText, from_timestamp).
From stdpp Require Import list.
Local Open Scope Z_scope.

(** Where a socket task is: the loop, with what is left of a client frame; the teardown,
    with the channels to drop; the eviction; over. *)
Inductive Phase := Serving (todo : list Task) | Leaving (chs : list ChannelRef) | Evicting | Ended.

(** Where the subscriber is: waiting; before the next handle; with a stamped frame. *)
Inductive Subscriber :=
  | Idle
  | Delivering (e : DeliverableEvent) (only : option DeviceId) (hs : list ConnectionId)
  | Sending (e : DeliverableEvent) (only : option DeviceId) (hs : list ConnectionId)
      (c : ConnectionId) (f : Pb.ServerFrame).

Record Sys := { node : Node; phases : gmap ConnectionId Phase; subscriber : Subscriber }.
#[export] Instance Sys_fields : Fields Sys := λ s,
  {| node := node s; phases := phases s; subscriber := subscriber s |}.

Section Runs.
Context `{Prost} `{UtcText} (send_queue_cap : nat) (validation_text : Cqrs.ValidationError → string).

Definition put (c : ConnectionId) (l : Live) (s : Sys) : Sys :=
  s <| node := node s <| lives := <[c := l]> (lives (node s)) |> |>.
Definition at_phase (c : ConnectionId) (p : Phase) (s : Sys) : Sys :=
  s <| phases := <[c := p]> (phases s) |>.

(** The handles a message is for, cloned from the index. *)
Definition taken (m : list ascii) (n : Node) : Subscriber :=
  match decode_envelope m with
  | None => Idle
  | Some env =>
      match envelope_from_pb env with
      | Err _ => Idle
      | Ok e =>
          match recipient e with
          | None => from_option (Delivering e None) Idle (by_channel n !! channel_str (channel e))
          | Some u => from_option (Delivering e (event_device e)) Idle (by_user n !! u)
          end
      end
  end.

(** The next handle of a delivery: its connection stamps the event, or is passed over. *)
Definition stamp_for (e : DeliverableEvent) (only : option DeviceId) (l : Live) :
    Live * option Pb.ServerFrame :=
  if device_matches only (pinned_device l) then stamp e l else (l, None).

Inductive step (s : Sys) : Sys → Prop :=
  | step_open c i sess k now :
      lives (node s) !! c = None →
      step s (at_phase c (Serving []) (s <| node := start_socket (open c i sess k now) (node s) |>))
  | step_binary c l now ts :
      phases s !! c = Some (Serving []) → lives (node s) !! c = Some l →
      step s (at_phase c (Serving ts) (put c (l <| conn := heartbeat now (conn l) |>) s))
  | step_task c now t ts :
      phases s !! c = Some (Serving (t :: ts)) →
      step s (at_phase c (Serving ts)
                (s <| node := perform send_queue_cap validation_text now c t (node s) |>))
  | step_pong c l now :
      phases s !! c = Some (Serving []) → lives (node s) !! c = Some l →
      step s (put c (l <| conn := heartbeat now (conn l) |>) s)
  | step_tick c l l' now timeout :
      phases s !! c = Some (Serving []) → lives (node s) !! c = Some l →
      tick send_queue_cap now timeout l = (l', false) → step s (put c l' s)
  | step_leave c l :
      phases s !! c = Some (Serving []) → lives (node s) !! c = Some l →
      step s (at_phase c (Leaving (subscribed_channels (conn l))) s)
  | step_drop c ch chs :
      phases s !! c = Some (Leaving (ch :: chs)) →
      step s (at_phase c (Leaving chs)
                (s <| node := unsubscribe_channel (channel_str ch) c (node s) |>))
  | step_remove c l :
      phases s !! c = Some (Leaving []) → lives (node s) !! c = Some l →
      step s (at_phase c Evicting
                (s <| node := table_remove (user_id (session (conn l))) c (node s) |>))
  | step_end c l :
      phases s !! c = Some Evicting → lives (node s) !! c = Some l →
      step s (at_phase c Ended (put c (l <| receiving := false |>) s))
  | step_write c l : lives (node s) !! c = Some l → step s (put c (write_one l) s)
  | step_writer_stops c l :
      lives (node s) !! c = Some l → step s (put c (l <| receiving := false |>) s)
  | step_arrive m : step s (s <| node := node s <| inbox := inbox (node s) ++ [m] |> |>)
  | step_lag k : step s (s <| node := node s <| inbox := drop k (inbox (node s)) |> |>)
  | step_message m rest :
      subscriber s = Idle → inbox (node s) = m :: rest →
      step s (s <| node := node s <| inbox := rest |> |> <| subscriber := taken m (node s) |>)
  | step_handle e only h hs l :
      subscriber s = Delivering e only (h :: hs) → lives (node s) !! h = Some l →
      step s (put h (stamp_for e only l).1 s
                <| subscriber := match (stamp_for e only l).2 with
                                 | Some f => Sending e only hs h f
                                 | None => Delivering e only hs
                                 end |>)
  | step_send e only hs c f l :
      subscriber s = Sending e only hs c f → lives (node s) !! c = Some l →
      step s (put c (sent send_queue_cap f l) s <| subscriber := Delivering e only hs |>)
  | step_done e only :
      subscriber s = Delivering e only [] → step s (s <| subscriber := Idle |>)
  | step_drain c l ms :
      lives (node s) !! c = Some l →
      step s (put c (sent send_queue_cap (drain_frame ms) (l <| conn := (begin_drain (conn l)).1 |>)) s).

Definition idle_node (channels : list string) : Sys := {|
  node := {| by_user := ∅; by_channel := ∅; lives := ∅; listening := channels; inbox := [] |};
  phases := ∅; subscriber := Idle |}.

(** ** What a connection may be sent *)

(** An event frame is on a channel that the session may subscribe to. *)
Definition allowed (s : Session) (f : Pb.ServerFrame) : Prop :=
  match f with
  | Pb.EventFrame e =>
      ∃ ch, Pb.channel e = Some (channel_to_pb ch) ∧ authorize s ch = Ok tt
  | _ => True
  end.

Record live_ok (l : Live) : Prop := {
  ok_conn : conn_wf (conn l);
  ok_device : pinned_device l = device_id (session (conn l));
  ok_frames f : f ∈ written l ++ outbox l → allowed (session (conn l)) f;
  ok_room : (length (outbox l) ≤ send_queue_cap)%nat;
}.

Record sound (s : Sys) : Prop := {
  sound_live c l : lives (node s) !! c = Some l → live_ok l;
  sound_pending e only hs c f : subscriber s = Sending e only hs c f →
    ∃ l, lives (node s) !! c = Some l ∧ allowed (session (conn l)) f;
}.

(** *** Operations on one [Live] *)

Record same_live (l l' : Live) : Prop := {
  live_conn : same_channels (conn l) (conn l');
  live_device : pinned_device l' = pinned_device l;
}.

Lemma same_live_refl l : same_live l l.
Proof. by split. Qed.

Lemma same_channels_trans a b c : same_channels a b → same_channels b c → same_channels a c.
Proof. intros [] []; split; etrans; eauto. Qed.

Lemma same_live_trans a b c : same_live a b → same_live b c → same_live a c.
Proof. intros [? ?] [? ?]; split; [by eapply same_channels_trans|by etrans]. Qed.

Lemma set_conn_same l k : same_channels (conn l) k → same_live l (l <| conn := k |>).
Proof. by split. Qed.

Lemma sent_same f l : same_live l (sent send_queue_cap f l).
Proof. unfold sent, try_send. destruct (_ && _); by split. Qed.

Lemma sent_ok f l : allowed (session (conn l)) f → live_ok l → live_ok (sent send_queue_cap f l).
Proof.
  intros Hf [Hc Hd Hfr Hr]. unfold sent, try_send.
  destruct (receiving l && _) eqn:E; [|by split].
  apply andb_true_iff in E as [_ E%Nat.ltb_lt]. split; simpl.
  - done.
  - done.
  - intros g. rewrite app_assoc, elem_of_app, list_elem_of_singleton. intros [Hg| ->]; auto.
  - rewrite length_app. simpl. lia.
Qed.

Lemma set_conn_ok l k : same_channels (conn l) k → live_ok l → live_ok (l <| conn := k |>).
Proof.
  intros Hk [Hc Hd Hfr Hr]. split; simpl.
  - by apply (same_wf (conn l)).
  - by rewrite (same_session _ _ Hk).
  - rewrite (same_session _ _ Hk). done.
  - done.
Qed.

Lemma stamp_same e l : same_live l (stamp e l).1.
Proof.
  unfold stamp. destruct (is_subscribed _ _); [|apply same_live_refl].
  pose proof (issue_seq_same (channel e) (conn l)) as Hs.
  destruct (issue_seq (channel e) (conn l)) as [k [q|]]; by apply set_conn_same.
Qed.

Lemma stamp_ok e l : live_ok l → live_ok (stamp e l).1.
Proof.
  intros Hl. unfold stamp. destruct (is_subscribed _ _); [|done].
  pose proof (issue_seq_same (channel e) (conn l)) as Hs.
  destruct (issue_seq (channel e) (conn l)) as [k [q|]]; by apply set_conn_ok.
Qed.

Lemma stamp_allowed e l f : live_ok l → (stamp e l).2 = Some f → allowed (session (conn l)) f.
Proof.
  intros Hl. unfold stamp. destruct (is_subscribed _ _) eqn:E; [|done].
  destruct (issue_seq _ _) as [k [q|]]; [|done]. intros [= <-].
  exists (channel e). split; [done|]. by apply (wf_authorized _ (ok_conn _ Hl)).
Qed.

Lemma tick_same l l' now timeout : tick send_queue_cap now timeout l = (l', false) → same_live l l'.
Proof.
  unfold tick. destruct (should_reap _ _ _); [done|]. intros [= <-].
  eapply same_live_trans; [|apply sent_same].
  destruct (needs_reauth _ _); [|by split]. pose proof (sent_same reauth_frame l) as [? ?]. by split.
Qed.

Lemma tick_ok l l' now timeout : tick send_queue_cap now timeout l = (l', false) →
  live_ok l → live_ok l'.
Proof.
  unfold tick. destruct (should_reap _ _ _); [done|]. intros [= <-] Hl. apply sent_ok; [done|].
  assert (Hl' : live_ok (if needs_reauth (conn l) now then sent send_queue_cap reauth_frame l else l)).
  { destruct (needs_reauth _ _); [|done]. by apply sent_ok. }
  destruct Hl' as [Hc Hd Hf Hr]. by split.
Qed.

Lemma write_same l : same_live l (write_one l).
Proof. unfold write_one. destruct (outbox l); [by split|]. destruct (receiving l); by split. Qed.

Lemma write_ok l : live_ok l → live_ok (write_one l).
Proof.
  intros [Hc Hd Hf Hr]. unfold write_one. destruct (outbox l) as [|f q] eqn:E; [by split; rewrite ?E|].
  destruct (receiving l); [|by split; rewrite ?E]. split; simpl in *; [done|done| |lia].
  intros g. rewrite <- app_assoc. apply Hf.
Qed.

Lemma stop_ok l : live_ok l → live_ok (l <| receiving := false |>).
Proof. by intros [Hc Hd Hf Hr]; split. Qed.

(** *** What a task of a socket does to its [Live] *)

Record moved (l l' : Live) : Prop := {
  moved_session : session (conn l') = session (conn l);
  moved_ok : live_ok l → live_ok l';
}.

Lemma alter_known (f : Live → Live) c (m : gmap ConnectionId Live) l :
  m !! c = Some l → alter f c m = <[c := f l]> m.
Proof.
  intros Hc. apply map_eq. intros i. destruct (decide (i = c)) as [->|].
  - by rewrite lookup_alter_eq, lookup_insert_eq, Hc.
  - by rewrite lookup_alter_ne, lookup_insert_ne.
Qed.

Lemma moved_same l k : same_channels (conn l) k → moved l (l <| conn := k |>).
Proof. intros Hk. split; [apply Hk|]. by apply set_conn_ok. Qed.

Lemma moved_control l k c ch code msg :
  session k = session (conn l) → (conn_wf (conn l) → conn_wf k) →
  moved l (send_control send_queue_cap c ch code msg (l <| conn := k |>)).
Proof.
  intros Hs Hk. unfold send_control. split.
  - by rewrite (same_session _ _ (live_conn _ _ (sent_same _ _))).
  - intros [Hc Hd Hf Hr]. apply sent_ok; [done|]. split; simpl; rewrite ?Hs; auto.
Qed.

Lemma moved_conn l k : session k = session (conn l) → (conn_wf (conn l) → conn_wf k) →
  moved l (l <| conn := k |>).
Proof. intros Hs Hk. split; [done|]. intros [Hc Hd Hf Hr]. split; simpl; rewrite ?Hs; auto. Qed.

Lemma subscribe_session ch k : session (subscribe ch k).1 = session k.
Proof.
  destruct (subscribe ch k) as [k' [b|e]] eqn:E; simpl.
  - by apply subscribe_ok in E as (_ & _ & -> & _).
  - by rewrite (subscribe_err _ _ _ _ E).
Qed.
Lemma unsubscribe_session ch k : session (unsubscribe ch k).1 = session k.
Proof.
  destruct (unsubscribe ch k) as [k' [[]|e]] eqn:E; simpl.
  - by apply unsubscribe_ok in E as (_ & -> & _).
  - by rewrite (unsubscribe_err _ _ _ _ E).
Qed.

Lemma perform_live now c t n l : lives n !! c = Some l →
  ∃ l', lives (perform send_queue_cap validation_text now c t n) = <[c := l']> (lives n) ∧ moved l l'.
Proof.
  intros Hl. destruct t as [ch|ch|ch seq| |ch]; simpl.
  - unfold subscribe_one. rewrite Hl. pose proof (subscribe_session ch (conn l)) as Hs.
    pose proof (subscribe_wf ch (conn l)) as Hw.
    destruct (subscribe ch (conn l)) as [k [b|e]]; eexists; (split; [reflexivity|]);
      by apply moved_control.
  - unfold unsubscribe_one. rewrite Hl. pose proof (unsubscribe_session ch (conn l)) as Hs.
    pose proof (unsubscribe_wf ch (conn l)) as Hw.
    destruct (unsubscribe ch (conn l)) as [k [b|e]]; eexists; (split; [reflexivity|]);
      [by apply moved_control|by apply moved_conn].
  - eexists. split; [by apply alter_known|]. apply moved_same, ack_same.
  - eexists. split; [by apply alter_known|]. apply moved_same, heartbeat_same.
  - unfold resume_one. rewrite Hl. pose proof (subscribe_session ch (conn l)) as Hs.
    pose proof (subscribe_wf ch (conn l)) as Hw.
    destruct (subscribe ch (conn l)) as [k [b|e]]; eexists; (split; [reflexivity|]);
      by apply moved_conn.
Qed.

Lemma perform_none now c t n : lives n !! c = None →
  lives (perform send_queue_cap validation_text now c t n) = lives n.
Proof.
  intros Hl. destruct t; simpl; unfold subscribe_one, unsubscribe_one, resume_one; rewrite ?Hl; try done;
    apply map_eq; intros i; (destruct (decide (i = c)) as [->|];
      [by rewrite lookup_alter_eq, Hl|by rewrite lookup_alter_ne]).
Qed.

(** *** [sound] is an invariant *)

(** The stores agree but for one [Live] that moved. *)
Lemma sound_update s s' c l l' :
  sound s → lives (node s) !! c = Some l → lives (node s') = <[c := l']> (lives (node s)) →
  moved l l' →
  (∀ e only hs c' f, subscriber s' = Sending e only hs c' f →
     subscriber s' = subscriber s ∨ (c' = c ∧ allowed (session (conn l)) f)) →
  sound s'.
Proof.
  intros [Hlive Hpend] Hl Hlives [Hs Hok] Hsub. split.
  - intros c' l0. rewrite Hlives. intros [[<- <-]|[_ Hc0]]%lookup_insert_Some; eauto.
  - intros e only hs c' f He. rewrite Hlives.
    destruct (Hsub _ _ _ _ _ He) as [Heq|[-> Hf]].
    + rewrite Heq in He. destruct (Hpend _ _ _ _ _ He) as (l0 & Hl0 & Hf).
      destruct (decide (c' = c)) as [->|]; [|by rewrite lookup_insert_ne by done; eauto].
      rewrite lookup_insert_eq. simplify_eq. exists l'. by rewrite Hs.
    + rewrite lookup_insert_eq. exists l'. by rewrite Hs.
Qed.

Lemma sound_same_pending s s' c l l' :
  sound s → lives (node s) !! c = Some l → lives (node s') = <[c := l']> (lives (node s)) →
  moved l l' → subscriber s' = subscriber s → sound s'.
Proof. intros Hs Hl Hlives Hm Hsub. eapply sound_update; [done..|]. intros. by left. Qed.

Lemma sound_quiet s s' : sound s → lives (node s') = lives (node s) →
  (subscriber s' = subscriber s ∨ ∀ e only hs c f, subscriber s' ≠ Sending e only hs c f) → sound s'.
Proof.
  intros [Hlive Hpend] Hl Hsub. split; rewrite Hl; [done|].
  intros e only hs c f He. destruct Hsub as [Hsub|Hsub]; [|by destruct (Hsub _ _ _ _ _ He)].
  rewrite Hsub in He. eauto.
Qed.

Lemma taken_not_sending m n e only hs c f : taken m n ≠ Sending e only hs c f.
Proof.
  unfold taken. destruct (decode_envelope m) as [env|]; [|done].
  destruct (envelope_from_pb env) as [e'|]; [|done].
  destruct (recipient e'); [destruct (_ !! _)|destruct (_ !! _)]; done.
Qed.

Lemma fresh_ok c i sess k now : live_ok {|
  conn := open c i sess k now; pinned_device := device_id sess; outbox := []; receiving := true;
  written := []; shed := []; nonce := 0 |}.
Proof. split; simpl; [apply open_wf|done|by intros f ?%elem_of_nil|lia]. Qed.

Lemma same_moved l l' : same_live l l' → (live_ok l → live_ok l') → moved l l'.
Proof. intros [Hc Hd] Hok. split; [apply Hc|done]. Qed.

Lemma sound_step s s' : step s s' → sound s → sound s'.
Proof.
  intros Hstep Hs. destruct Hstep as
    [c i sess k now Hn|c l now ts _ Hl|c now t ts Hp|c l now _ Hl|c l l' now timeout _ Hl Ht|c l _ Hl
    |c ch chs _|c l _ _|c l _ Hl|c l Hl|c l Hl|m|k|m rest Hsub _|e only h hs l Hsub Hl
    |e only hs c f l Hsub Hl|e only Hsub|c l ms Hl].
  - split; simpl.
    + intros c' l'. intros [[<- <-]|[_ Hc']]%lookup_insert_Some; [apply fresh_ok|by eapply sound_live].
    + intros e only hs c' f He. destruct (sound_pending _ Hs _ _ _ _ _ He) as (l & Hl & Hf).
      exists l. by rewrite lookup_insert_ne by congruence.
  - eapply sound_same_pending; [done|done|reflexivity| |done]. apply moved_same, heartbeat_same.
  - destruct (lives (node s) !! c) as [l|] eqn:Hl.
    + destruct (perform_live now c t _ _ Hl) as (l' & Hl' & Hm). by eapply sound_same_pending.
    + apply (sound_quiet s); [done|by apply perform_none|by left].
  - eapply sound_same_pending; [done|done|reflexivity| |done]. apply moved_same, heartbeat_same.
  - eapply sound_same_pending; [done|done|reflexivity| |done].
    apply same_moved; [by eapply tick_same|by eapply tick_ok].
  - apply (sound_quiet s); [done..|by left].
  - apply (sound_quiet s); [done..|by left].
  - apply (sound_quiet s); [done..|by left].
  - eapply sound_same_pending; [done|done|reflexivity| |done]. split; [done|apply stop_ok].
  - eapply sound_same_pending; [done|done|reflexivity| |done].
    apply same_moved; [apply write_same|apply write_ok].
  - eapply sound_same_pending; [done|done|reflexivity| |done]. split; [done|apply stop_ok].
  - apply (sound_quiet s); [done..|by left].
  - apply (sound_quiet s); [done..|by left].
  - apply (sound_quiet s); [done..|]. right. apply taken_not_sending.
  - eapply sound_update; [done|done|reflexivity| |].
    + unfold stamp_for. destruct (device_matches _ _).
      * apply same_moved; [apply stamp_same|apply stamp_ok].
      * by split.
    + simpl. intros e' only' hs' c' f' He. unfold stamp_for in He.
      destruct (device_matches _ _); [|done]. destruct (stamp e l).2 as [f|] eqn:Ef; [|done].
      simplify_eq. right. split; [done|]. eapply stamp_allowed; [by eapply sound_live|done].
  - eapply sound_update; [done|done|reflexivity| |done].
    destruct (sound_pending _ Hs _ _ _ _ _ Hsub) as (l0 & Hl0 & Hf). simplify_eq.
    apply same_moved; [apply sent_same|by apply sent_ok].
  - apply (sound_quiet s); [done..|]. by right.
  - eapply sound_same_pending; [done|done|reflexivity| |done].
    pose proof (begin_drain_same (conn l)) as Hd. split.
    + rewrite (same_session _ _ (live_conn _ _ (sent_same _ _))). apply Hd.
    + intros Hok. apply sent_ok; [done|]. by apply set_conn_ok.
Qed.

Lemma sound_idle channels : sound (idle_node channels).
Proof. split; simpl; [by intros c l; rewrite lookup_empty|done]. Qed.

Lemma sound_runs s s' : rtc step s s' → sound s → sound s'.
Proof. induction 1; eauto using sound_step. Qed.

(** C15. Whatever the tasks of a node do and whatever arrives on its channels, a private
    stream goes to its owner only: every event frame on a socket or waiting for it names a
    channel that is public or keyed by the session's own user; the same holds of every
    subscription; and neither the queue nor the subscriptions outgrow their caps. *)
Theorem private_streams_stay_private channels s c l :
  rtc step (idle_node channels) s → lives (node s) !! c = Some l →
  let owner := user_id (session (conn l)) in
  (∀ e, Pb.EventFrame e ∈ written l ++ outbox l →
     ∃ ch, Pb.channel e = Some (channel_to_pb ch) ∧
           (is_identity_scoped (class ch) = true → key ch = owner)) ∧
  (∀ ch, is_subscribed (conn l) ch = true → is_identity_scoped (class ch) = true → key ch = owner) ∧
  (length (outbox l) ≤ send_queue_cap)%nat ∧
  (subscription_count (conn l) ≤ cap (subscriptions (conn l)))%nat.
Proof.
  intros Hrun Hl owner.
  destruct (sound_live _ (sound_runs _ _ Hrun (sound_idle channels)) _ _ Hl) as [Hc _ Hf Hr].
  assert (Hown : ∀ ch, authorize (session (conn l)) ch = Ok tt →
                       is_identity_scoped (class ch) = true → key ch = owner).
  { unfold authorize. intros ch Ha Hi. rewrite Hi in Ha. simpl in Ha. by case_bool_decide. }
  split_and!; [|by eauto using wf_authorized|done|apply Hc].
  intros e He. destruct (Hf _ He) as (ch & ? & ?). exists ch. auto.
Qed.

End Runs.

(** ** A run, step by step *)

Module Demo.

(** Whatever arrives is a notification for alice. *)
Definition alert : DeliverableEvent := {|
  recipient := Some "alice"; event_device := None;
  channel := {| class := Notification; key := "alice" |}; payload := []; event_type := "notif.new";
  emitted_at := 0; idempotency_key := "n1" |}.

#[export] Instance demo_clock : UtcText := {| from_timestamp s n := Some (s * SECOND + n) |}.
#[export] Instance demo_prost : Prost := {|
  encode_envelope _ := [];
  decode_envelope _ := Some (envelope_to_pb alert);
  decode_client _ := Err "" |}.

Definition no_text (_ : Cqrs.ValidationError) : string := "".
Definition alices : Session := {| user_id := "alice"; device_id := "phone"; expires_at := 60 |}.
Definition at_home : Connection := open "c1" "node-1" alices 4 0.

(** Alice connects, subscribes, and a message arrives and is written to her socket. *)
Definition turns : list (Sys → Sys) :=
  let on_live f (s : Sys) := match lives (node s) !! "c1" with
                             | Some l => put "c1" (f l) s | None => s end in
  [ λ s, at_phase "c1" (Serving []) (s <| node := start_socket at_home (node s) |>);
    λ s, at_phase "c1" (Serving [DoSubscribe (channel alert)])
           (on_live (λ l, l <| conn := heartbeat 1 (conn l) |>) s);
    λ s, at_phase "c1" (Serving [])
           (s <| node := perform 2 no_text 1 "c1" (DoSubscribe (channel alert)) (node s) |>);
    on_live write_one;
    λ s, s <| node := node s <| inbox := inbox (node s) ++ [[]] |> |>;
    λ s, s <| node := node s <| inbox := [] |> |> <| subscriber := taken [] (node s) |>;
    λ s, match lives (node s) !! "c1" with
         | Some l => put "c1" (stamp_for alert None l).1 s
                       <| subscriber := match (stamp_for alert None l).2 with
                                        | Some f => Sending alert None [] "c1" f
                                        | None => Delivering alert None []
                                        end |>
         | None => s end;
    λ s, match subscriber s with
         | Sending e only hs c f => on_live (sent 2 f) s <| subscriber := Delivering e only hs |>
         | _ => s end;
    on_live write_one ].

Definition tuned_to : list string := subscriptions_of "node-1".

Definition after (n : nat) : Sys := foldl (λ s f, f s) (idle_node tuned_to) (take n turns).

(** The steps are checked by evaluation. *)
Lemma turn n s' : step 2 no_text (after n) s' → s' = after (S n) → step 2 no_text (after n) (after (S n)).
Proof. by intros Hs <-. Qed.

Tactic Notation "turn_by" uconstr(st) := eapply turn; [eapply st; vm_compute; reflexivity|by vm_compute].

Lemma after_step n : (n < 9)%nat → step 2 no_text (after n) (after (S n)).
Proof.
  intros Hn. destruct n as [|[|[|[|[|[|[|[|[|n]]]]]]]]]; [..|lia].
  - turn_by (step_open 2 no_text (after 0) "c1" "node-1" alices 4 0).
  - turn_by (step_binary 2 no_text (after 1) "c1" _ 1 [DoSubscribe (channel alert)]).
  - turn_by (step_task 2 no_text (after 2) "c1" 1).
  - turn_by (step_write 2 no_text (after 3) "c1").
  - eapply turn; [eapply (step_arrive 2 no_text (after 4) [])|by vm_compute].
  - turn_by (step_message 2 no_text (after 5)).
  - turn_by (step_handle 2 no_text (after 6)).
  - turn_by (step_send 2 no_text (after 7)).
  - turn_by (step_write 2 no_text (after 8) "c1").
Qed.

Lemma after_chain {R : relation Sys} n : (∀ m, (m < n)%nat → R (after m) (after (S m))) →
  rtc R (after 0) (after n).
Proof.
  induction n as [|n IH]; intros HR; [reflexivity|].
  eapply rtc_r; [apply IH; intros m Hm; apply HR|apply HR]; lia.
Qed.

Lemma after_runs n : (n ≤ 9)%nat → rtc (step 2 no_text) (idle_node tuned_to) (after n).
Proof. intros Hn. apply (after_chain n). intros m Hm. apply after_step. lia. Qed.

Definition served : Live := default
  {| conn := at_home; pinned_device := ""; outbox := []; receiving := false; written := [];
     shed := []; nonce := 0 |} (lives (node (after 9)) !! "c1").

Lemma served_frames : length (written served) = 2%nat ∧ outbox served = [].
Proof. by vm_compute. Qed.

Lemma private_streams_stay_private_witness :
  key (channel alert) = user_id (session (conn served)) ∧ (length (outbox served) ≤ 2)%nat.
Proof.
  destruct (private_streams_stay_private 2 no_text tuned_to (after 9) "c1" served) as (_ & Hs & Hr & _).
  - apply after_runs. lia.
  - vm_compute. reflexivity.
  - split; [|exact Hr]. apply Hs; vm_compute; reflexivity.
Defined.

End Demo.
