(* ===== verification/RealtimeSync.v ===== *)
(** * Realtime: the routing tables follow the sockets

    The two indexes of a gateway node against the phases of its socket tasks: a connection
    being served is listed under its user and under exactly its subscriptions; one that is
    leaving under what it has not dropped yet; one that left nowhere. *)

From S2P Require Import Prelude.
From S2P Require EdgeToken.
From S2P Require Import RealtimeDomain RealtimeCodec RealtimeGateway RealtimeProofs RealtimeRuns.
From S2P Require Cqrs.
Import EdgeToken(UtcText, from_timestamp).
From stdpp Require Import list.
Local Open Scope Z_scope.

(** ** An index and the relation it lists *)

Record index_ok (idx : gmap string (list ConnectionId)) (P : string → ConnectionId → Prop) : Prop := {
  index_elem k c : c ∈ default [] (idx !! k) ↔ P k c;
  index_entry k hs : idx !! k = Some hs → NoDup hs ∧ hs ≠ [];
}.

Lemma index_empty (P : string → ConnectionId → Prop) : (∀ k c, ¬ P k c) → index_ok ∅ P.
Proof.
  intros HP. split; intros k ?; rewrite lookup_empty; [|done].
  split; [by intros ?%elem_of_nil|by intros ?%HP].
Qed.

Lemma index_NoDup idx P k : index_ok idx P → NoDup (default [] (idx !! k)).
Proof.
  intros [_ Hn]. destruct (idx !! k) eqn:E; simpl; [by apply (Hn k)|constructor].
Qed.

Lemma index_insert idx P k c hs :
  index_ok idx P → NoDup hs → c ∈ hs →
  (∀ d, d ∈ hs ↔ d ∈ default [] (idx !! k) ∨ d = c) →
  index_ok (<[k := hs]> idx) (λ k' d, P k' d ∨ (k' = k ∧ d = c)).
Proof.
  intros [He Hn] Hhs Hc Hd. split; intros k'.
  - intros d. destruct (decide (k' = k)) as [->|]; rewrite <- He.
    + rewrite lookup_insert_eq. simpl. rewrite Hd. naive_solver.
    + rewrite lookup_insert_ne by done. naive_solver.
  - intros hs'. destruct (decide (k' = k)) as [->|].
    + rewrite lookup_insert_eq. intros [= <-]. split; [done|]. by intros ->; apply elem_of_nil in Hc.
    + rewrite lookup_insert_ne by done. apply Hn.
Qed.

Lemma index_push idx P k c : index_ok idx P → ¬ P k c →
  index_ok (<[k := default [] (idx !! k) ++ [c]]> idx) (λ k' d, P k' d ∨ (k' = k ∧ d = c)).
Proof.
  intros Hi Hc. rewrite <- (index_elem _ _ Hi) in Hc. apply index_insert; [done|..].
  - apply NoDup_app. split_and!; [by eapply index_NoDup| |apply NoDup_singleton].
    by intros d Hd ->%list_elem_of_singleton.
  - apply elem_of_app. right. by apply list_elem_of_singleton.
  - intros d. by rewrite elem_of_app, list_elem_of_singleton.
Qed.

Lemma index_add idx P k c : index_ok idx P →
  index_ok (<[k := if decide (c ∈ default [] (idx !! k)) then default [] (idx !! k)
                   else default [] (idx !! k) ++ [c]]> idx) (λ k' d, P k' d ∨ (k' = k ∧ d = c)).
Proof.
  intros Hi. destruct (decide _) as [Hc|Hc].
  - apply index_insert; [done|by eapply index_NoDup|done|]. naive_solver.
  - apply index_push; [done|]. by rewrite <- (index_elem _ _ Hi).
Qed.

Lemma index_without idx P k c : index_ok idx P →
  index_ok (without c k idx) (λ k' d, P k' d ∧ ¬ (k' = k ∧ d = c)).
Proof.
  intros [He Hn]. unfold without. destruct (idx !! k) as [hs|] eqn:E.
  - assert (Hrest : ∀ d, d ∈ filter (λ h, h ≠ c) hs ↔ P k d ∧ d ≠ c).
    { intros d. rewrite list_elem_of_filter, <- He, E. simpl. naive_solver. }
    destruct (decide (filter (λ h, h ≠ c) hs = [])) as [E'|E']; split; intros k'.
    + intros d. destruct (decide (k' = k)) as [->|].
      * rewrite lookup_delete_eq. simpl. rewrite E' in Hrest. specialize (Hrest d). naive_solver.
      * rewrite lookup_delete_ne, He by done. naive_solver.
    + intros hs' [_ Hk']%lookup_delete_Some. by apply (Hn k').
    + intros d. destruct (decide (k' = k)) as [->|].
      * rewrite lookup_insert_eq. simpl. rewrite Hrest. naive_solver.
      * rewrite lookup_insert_ne, He by done. naive_solver.
    + intros hs'. destruct (decide (k' = k)) as [->|].
      * rewrite lookup_insert_eq. intros [= <-]. split; [|done]. apply NoDup_filter. by apply (Hn k).
      * rewrite lookup_insert_ne by done. apply Hn.
  - split; [|done]. intros k' d. rewrite He. split; [|naive_solver]. intros Hp. split; [done|].
    intros [-> ->]. apply He in Hp. rewrite E in Hp. by apply elem_of_nil in Hp.
Qed.

Lemma index_ext idx P Q : (∀ k c, P k c ↔ Q k c) → index_ok idx P → index_ok idx Q.
Proof. intros HPQ [He Hn]. split; [|done]. intros k c. by rewrite He. Qed.

(** ** What the tables should list *)

Definition listed_user (p : Phase) : Prop :=
  match p with Serving _ | Leaving _ => True | Evicting | Ended => False end.

Definition listed_channel (p : Phase) (k : Connection) (ch : ChannelRef) : Prop :=
  match p with
  | Serving _ => is_subscribed k ch = true
  | Leaving chs => ch ∈ chs
  | Evicting | Ended => False
  end.

Definition users_of (s : Sys) (u : string) (c : ConnectionId) : Prop :=
  ∃ l p, lives (node s) !! c = Some l ∧ phases s !! c = Some p ∧
         listed_user p ∧ user_id (session (conn l)) = u.

Definition channels_of (s : Sys) (name : string) (c : ConnectionId) : Prop :=
  ∃ l p ch, lives (node s) !! c = Some l ∧ phases s !! c = Some p ∧
            listed_channel p (conn l) ch ∧ channel_str ch = name.

Record in_sync (s : Sys) : Prop := {
  sync_dom c : is_Some (lives (node s) !! c) ↔ is_Some (phases s !! c);
  sync_users : index_ok (by_user (node s)) (users_of s);
  sync_channels : index_ok (by_channel (node s)) (channels_of s);
  sync_leaving c chs : phases s !! c = Some (Leaving chs) → NoDup chs;
}.

Lemma users_known s u c l p : lives (node s) !! c = Some l → phases s !! c = Some p →
  users_of s u c ↔ listed_user p ∧ user_id (session (conn l)) = u.
Proof. intros Hl Hp. unfold users_of. rewrite Hl, Hp. naive_solver. Qed.

Lemma channels_known s n c l p : lives (node s) !! c = Some l → phases s !! c = Some p →
  channels_of s n c ↔ ∃ ch, listed_channel p (conn l) ch ∧ channel_str ch = n.
Proof. intros Hl Hp. unfold channels_of. rewrite Hl, Hp. naive_solver. Qed.

Lemma unknown_unlisted s c : lives (node s) !! c = None → (∀ u, ¬ users_of s u c) ∧ ∀ n, ¬ channels_of s n c.
Proof. intros Hl. split; [intros u (l & p & ? & _)|intros n (l & p & ch & ? & _)]; by simplify_eq. Qed.

Lemma users_other s s' u d :
  lives (node s') !! d = lives (node s) !! d → phases s' !! d = phases s !! d →
  users_of s' u d ↔ users_of s u d.
Proof. intros Hl Hp. unfold users_of. by rewrite Hl, Hp. Qed.

Lemma channels_other s s' n d :
  lives (node s') !! d = lives (node s) !! d → phases s' !! d = phases s !! d →
  channels_of s' n d ↔ channels_of s n d.
Proof. intros Hl Hp. unfold channels_of. by rewrite Hl, Hp. Qed.

(** *** Moves of one connection *)

(** The relation listed changes at [c] only, to what its new phase and state call for. *)
Lemma sync_move s s' c l' p' U V :
  in_sync s →
  lives (node s') = <[c := l']> (lives (node s)) → phases s' = <[c := p']> (phases s) →
  (∀ chs, p' = Leaving chs → NoDup chs) →
  index_ok (by_user (node s')) U →
  (∀ u d, d ≠ c → U u d ↔ users_of s u d) →
  (∀ u, U u c ↔ listed_user p' ∧ user_id (session (conn l')) = u) →
  index_ok (by_channel (node s')) V →
  (∀ n d, d ≠ c → V n d ↔ channels_of s n d) →
  (∀ n, V n c ↔ ∃ ch, listed_channel p' (conn l') ch ∧ channel_str ch = n) →
  in_sync s'.
Proof.
  intros [Hdom _ _ Hlv] Hl Hp Hnd HU HU1 HU2 HV HV1 HV2.
  assert (lives (node s') !! c = Some l' ∧ phases s' !! c = Some p') as [Hat Hph]
    by (by rewrite Hl, Hp, !lookup_insert_eq).
  assert (Hne : ∀ d, d ≠ c → lives (node s') !! d = lives (node s) !! d ∧ phases s' !! d = phases s !! d)
    by (intros d Hd; by rewrite Hl, Hp, !lookup_insert_ne by done).
  split.
  - intros d. destruct (decide (d = c)) as [->|Hd]; [rewrite Hat, Hph; split; by eexists|].
    destruct (Hne d Hd) as [-> ->]. apply Hdom.
  - eapply index_ext, HU. intros u d. destruct (decide (d = c)) as [->|Hd].
    + rewrite HU2. symmetry. by apply (users_known s' u c l' p').
    + rewrite HU1 by done. symmetry. by apply users_other; apply Hne.
  - eapply index_ext, HV. intros n d. destruct (decide (d = c)) as [->|Hd].
    + rewrite HV2. symmetry. by apply (channels_known s' n c l' p').
    + rewrite HV1 by done. symmetry. by apply channels_other; apply Hne.
  - intros d chs. rewrite Hp. intros [[<- E]|[_ E]]%lookup_insert_Some; [by apply Hnd|by eapply Hlv].
Qed.

(** Neither index changes, and what they should list at [c] does not either. *)
Lemma sync_quiet s s' c l p l' p' :
  in_sync s → lives (node s) !! c = Some l → phases s !! c = Some p →
  lives (node s') = <[c := l']> (lives (node s)) → phases s' = <[c := p']> (phases s) →
  by_user (node s') = by_user (node s) → by_channel (node s') = by_channel (node s) →
  (∀ chs, p' = Leaving chs → NoDup chs) →
  session (conn l') = session (conn l) → (listed_user p' ↔ listed_user p) →
  (∀ ch, listed_channel p' (conn l') ch ↔ listed_channel p (conn l) ch) →
  in_sync s'.
Proof.
  intros Hs Hl Hp Hl' Hp' Hu Hc Hnd Hse Hlu Hlc.
  eapply (sync_move s s' c l' p' (users_of s) (channels_of s)); try done.
  - rewrite Hu. apply Hs.
  - intros u. rewrite (users_known s u c l p Hl Hp). by rewrite Hlu, Hse.
  - rewrite Hc. apply Hs.
  - intros n. rewrite (channels_known s n c l p Hl Hp). by setoid_rewrite Hlc.
Qed.

(** The state of a connection changes, its channels do not. *)
Lemma sync_same s s' c l l' p :
  in_sync s → lives (node s) !! c = Some l → phases s !! c = Some p → same_channels (conn l) (conn l') →
  lives (node s') = <[c := l']> (lives (node s)) → phases s' = phases s →
  by_user (node s') = by_user (node s) → by_channel (node s') = by_channel (node s) →
  in_sync s'.
Proof.
  intros Hs Hl Hp Hsame Hl' Hp' Hu Hc.
  eapply (sync_quiet s s' c l p l' p); try done.
  - by rewrite Hp', insert_id.
  - intros chs ->. by eapply sync_leaving.
  - apply Hsame.
  - intros ch. destruct p; simpl; [|done..]. by rewrite (same_dom _ _ Hsame).
Qed.

(** ** Every step keeps the tables in line *)

Section Sync.
Context `{Prost} `{UtcText} (send_queue_cap : nat) (validation_text : Cqrs.ValidationError → string).

Notation step := (step send_queue_cap validation_text).
Notation perform := (perform send_queue_cap validation_text).

(** What an index by channel lists for [c] while it is served with state [k]. *)
Definition lists (V : string → ConnectionId → Prop) (c : ConnectionId) (k : Connection) : Prop :=
  ∀ n, V n c ↔ ∃ ch, is_subscribed k ch = true ∧ channel_str ch = n.

Lemma lists_same V c k k' : same_channels k k' → lists V c k → lists V c k'.
Proof. intros Hs HV n. rewrite (HV n). by setoid_rewrite (same_dom _ _ Hs). Qed.

Lemma subscribe_lists ch k k' b c V : subscribe ch k = (k', Ok b) → lists V c k →
  lists (λ n d, V n d ∨ (n = channel_str ch ∧ d = c)) c k'.
Proof.
  intros Hsub HV n. rewrite (HV n).
  assert (Hk : ∀ ch', is_subscribed k' ch' = true ↔ is_subscribed k ch' = true ∨ ch' = ch).
  { apply subscribe_ok in Hsub as (_ & _ & _ & _ & _ & _ & [(_ & -> & ?)|(_ & Hn & _ & Hc)]).
    - naive_solver.
    - intros ch'. rewrite !is_subscribed_true, Hc, lookup_insert_is_Some'. naive_solver. }
  setoid_rewrite Hk. naive_solver.
Qed.

Lemma unsubscribe_lists ch k k' c V : unsubscribe ch k = (k', Ok tt) → lists V c k →
  lists (λ n d, V n d ∧ ¬ (n = channel_str ch ∧ d = c)) c k'.
Proof.
  intros (_ & _ & _ & _ & Hc)%unsubscribe_ok HV n. rewrite (HV n).
  assert (Hk : ∀ ch', is_subscribed k' ch' = true ↔ is_subscribed k ch' = true ∧ ch' ≠ ch).
  { intros ch'. rewrite !is_subscribed_true, Hc, lookup_delete_is_Some. naive_solver. }
  setoid_rewrite Hk. split.
  - intros [(ch' & Hs & <-) Hn]. exists ch'. split_and!; try done. by intros ->; apply Hn.
  - intros (ch' & [Hs Hne] & <-). split; [eauto|]. by intros [?%channel_str_inj _].
Qed.

Lemma conn_sent f l : conn (sent send_queue_cap f l) = conn l.
Proof. unfold sent, try_send. by destruct (_ && _). Qed.

Lemma perform_sync now c t n l V :
  lives n !! c = Some l → index_ok (by_channel n) V → lists V c (conn l) →
  ∃ l' V', lives (perform now c t n) = <[c := l']> (lives n) ∧
    by_user (perform now c t n) = by_user n ∧ index_ok (by_channel (perform now c t n)) V' ∧
    session (conn l') = session (conn l) ∧ (∀ k d, d ≠ c → V' k d ↔ V k d) ∧ lists V' c (conn l').
Proof.
  intros Hl Hi HV. destruct t as [ch|ch|ch seq| |ch]; simpl.
  - unfold subscribe_one. rewrite Hl. pose proof (subscribe_session ch (conn l)) as Hse.
    destruct (subscribe ch (conn l)) as [k [b|e]] eqn:E; eexists _, _;
      (split; [reflexivity|]); unfold send_control; rewrite conn_sent; simpl in *.
    + split_and!; [done|by apply index_add|done| |by eapply subscribe_lists]. naive_solver.
    + split_and!; [done|done|done|done|]. by rewrite (subscribe_err _ _ _ _ E).
  - unfold unsubscribe_one. rewrite Hl. pose proof (unsubscribe_session ch (conn l)) as Hse.
    destruct (unsubscribe ch (conn l)) as [k [[]|e]] eqn:E; eexists _, _;
      (split; [reflexivity|]); unfold send_control; rewrite ?conn_sent; simpl in *.
    + split_and!; [done|by apply index_without|done| |by eapply unsubscribe_lists]. naive_solver.
    + split_and!; [done|done|done|done|]. by rewrite (unsubscribe_err _ _ _ _ E).
  - eexists _, V. split; [by apply alter_known|]. split_and!; try done.
    eapply lists_same, HV. apply ack_same.
  - eexists _, V. split; [by apply alter_known|]. split_and!; try done; [apply heartbeat_same|].
    eapply lists_same, HV. apply heartbeat_same.
  - unfold resume_one. rewrite Hl. pose proof (subscribe_session ch (conn l)) as Hse.
    destruct (subscribe ch (conn l)) as [k [b|e]] eqn:E; eexists _, _;
      (split; [reflexivity|]); simpl in *.
    + split_and!; [done|by apply index_add|done| |by eapply subscribe_lists]. naive_solver.
    + split_and!; [done|done|done|done|]. by rewrite (subscribe_err _ _ _ _ E).
Qed.

(** The phase of a connection that has a live state. *)
Lemma live_phase s c l : in_sync s → lives (node s) !! c = Some l → ∃ p, phases s !! c = Some p.
Proof. intros Hs Hl. apply (sync_dom _ Hs). by exists l. Qed.

Lemma phase_live s c p : in_sync s → phases s !! c = Some p → ∃ l, lives (node s) !! c = Some l.
Proof. intros Hs Hp. apply (sync_dom _ Hs). by exists p. Qed.

Lemma sync_open s c i sess k now : lives (node s) !! c = None → in_sync s →
  in_sync (at_phase c (Serving []) (s <| node := start_socket (open c i sess k now) (node s) |>)).
Proof.
  intros Hn Hs. destruct (unknown_unlisted s c Hn) as [Hu Hc].
  eapply (sync_move s _ c _ (Serving []));
    [done|reflexivity|reflexivity|done|simpl; apply index_push; [apply Hs|apply Hu]| | |apply Hs| |];
    simpl.
  - naive_solver.
  - intros u. naive_solver.
  - done.
  - intros n. split; [by intros ?%Hc|]. intros (ch & Hsub & _).
    by apply is_subscribed_true in Hsub as [? Hsub]; simpl in Hsub; rewrite lookup_empty in Hsub.
Qed.

Lemma sync_task s c now t ts : phases s !! c = Some (Serving (t :: ts)) → in_sync s →
  in_sync (at_phase c (Serving ts) (s <| node := perform now c t (node s) |>)).
Proof.
  intros Hp Hs. destruct (phase_live _ _ _ Hs Hp) as [l Hl].
  assert (HV : lists (channels_of s) c (conn l)) by (intros n; by rewrite (channels_known s n c l _ Hl Hp)).
  destruct (perform_sync now c t _ _ _ Hl (sync_channels _ Hs) HV) as (l' & V' & Hl' & Hu & Hi & Hse & Ho & HV').
  eapply (sync_move s _ c l' (Serving ts) (users_of s) V'); simpl; try done.
  - rewrite Hu. apply Hs.
  - intros u. rewrite (users_known s u c l _ Hl Hp), Hse. done.
Qed.

Lemma sync_drop s c ch chs : phases s !! c = Some (Leaving (ch :: chs)) → in_sync s →
  in_sync (at_phase c (Leaving chs) (s <| node := unsubscribe_channel (channel_str ch) c (node s) |>)).
Proof.
  intros Hp Hs. destruct (phase_live _ _ _ Hs Hp) as [l Hl].
  pose proof (sync_leaving _ Hs _ _ Hp) as [Hnin Hnd]%NoDup_cons.
  eapply (sync_move s _ c l (Leaving chs) (users_of s));
    [done|simpl; by rewrite insert_id|reflexivity|by intros ? [= <-]|apply Hs|done| |
     simpl; apply index_without, Hs| |]; simpl.
  - intros u. by rewrite (users_known s u c l _ Hl Hp).
  - naive_solver.
  - intros n. rewrite (channels_known s n c l _ Hl Hp). simpl. split.
    + intros [(ch' & [->|Hin]%elem_of_cons & <-) Hne]; [by destruct Hne|eauto].
    + intros (ch' & Hin & <-). split; [exists ch'; split; [by right|done]|].
      by intros [->%channel_str_inj _].
Qed.

Lemma sync_remove s c l : phases s !! c = Some (Leaving []) → lives (node s) !! c = Some l → in_sync s →
  in_sync (at_phase c Evicting (s <| node := table_remove (user_id (session (conn l))) c (node s) |>)).
Proof.
  intros Hp Hl Hs.
  eapply (sync_move s _ c l Evicting _ (channels_of s));
    [done|simpl; by rewrite insert_id|reflexivity|done|simpl; apply index_without, Hs| | |apply Hs|done|]; simpl.
  - naive_solver.
  - intros u. rewrite (users_known s u c l _ Hl Hp). naive_solver.
  - intros n. rewrite (channels_known s n c l _ Hl Hp). simpl.
    split; [intros (ch & ?%elem_of_nil & _)|intros (ch & [] & _)]; done.
Qed.

Lemma sync_leave s c l : phases s !! c = Some (Serving []) → lives (node s) !! c = Some l → in_sync s →
  in_sync (at_phase c (Leaving (subscribed_channels (conn l))) s).
Proof.
  intros Hp Hl Hs.
  eapply (sync_quiet s _ c l (Serving []) l (Leaving (subscribed_channels (conn l)))); try done.
  - simpl. by rewrite insert_id.
  - intros chs [= <-]. apply NoDup_subscribed.
  - apply subscribed_elem.
Qed.

(** Neither the tables nor the sockets. *)
Lemma sync_still s s' : lives (node s') = lives (node s) → phases s' = phases s →
  by_user (node s') = by_user (node s) → by_channel (node s') = by_channel (node s) →
  in_sync s → in_sync s'.
Proof.
  intros Hl Hp Hu Hc [H1 H2 H3 H4]. split; unfold users_of, channels_of; rewrite ?Hl, ?Hp, ?Hu, ?Hc; done.
Qed.

Lemma sync_put s s' c l l' : in_sync s → lives (node s) !! c = Some l → same_channels (conn l) (conn l') →
  lives (node s') = <[c := l']> (lives (node s)) → phases s' = phases s →
  by_user (node s') = by_user (node s) → by_channel (node s') = by_channel (node s) → in_sync s'.
Proof.
  intros Hs Hl Hsame ? ? ? ?. destruct (live_phase _ _ _ Hs Hl) as [p Hp].
  by eapply (sync_same s s' c l l' p).
Qed.

Lemma sync_step s s' : step s s' → in_sync s → in_sync s'.
Proof.
  intros Hstep Hs. destruct Hstep as
    [c i sess k now Hn|c l now ts Hp Hl|c now t ts Hp|c l now _ Hl|c l l' now timeout _ Hl Ht|c l Hp Hl
    |c ch chs Hp|c l Hp Hl|c l Hp Hl|c l Hl|c l Hl|m|k|m rest Hsub _|e only h hs l Hsub Hl
    |e only hs c f l Hsub Hl|e only Hsub|c l ms Hl].
  - by apply sync_open.
  - eapply (sync_quiet s _ c l _ _ (Serving ts));
      [done|exact Hl|exact Hp|reflexivity|reflexivity|done|done|done| |done|].
    + apply heartbeat_same.
    + intros ch. simpl. by rewrite (same_dom _ _ (heartbeat_same now (conn l))).
  - by apply sync_task.
  - eapply (sync_put s _ c l); [done|done| |reflexivity..]. apply heartbeat_same.
  - eapply (sync_put s _ c l); [done|done| |reflexivity..]. by eapply live_conn, tick_same.
  - by apply sync_leave.
  - by apply sync_drop.
  - by apply sync_remove.
  - by eapply (sync_quiet s _ c l Evicting _ Ended).
  - eapply (sync_put s _ c l); [done|done| |reflexivity..]. apply live_conn, write_same.
  - eapply (sync_put s _ c l); [done|done| |reflexivity..]. apply same_channels_refl.
  - by apply (sync_still s).
  - by apply (sync_still s).
  - by apply (sync_still s).
  - eapply (sync_put s _ h l); [done|done| |reflexivity..]. simpl. unfold stamp_for.
    destruct (device_matches _ _); [apply live_conn, stamp_same|apply same_channels_refl].
  - eapply (sync_put s _ c l); [done|done| |reflexivity..]. rewrite conn_sent. apply same_channels_refl.
  - by apply (sync_still s).
  - eapply (sync_put s _ c l); [done|done| |reflexivity..]. rewrite conn_sent. apply begin_drain_same.
Qed.

Lemma sync_idle channels : in_sync (idle_node channels).
Proof.
  split; simpl.
  - intros c. by rewrite !lookup_empty.
  - apply index_empty. intros u c (l & p & Hl & _). simpl in Hl. by rewrite lookup_empty in Hl.
  - apply index_empty. intros u c (l & p & ch & Hl & _). simpl in Hl. by rewrite lookup_empty in Hl.
  - intros c chs. by rewrite lookup_empty.
Qed.

Lemma sync_runs s s' : rtc step s s' → in_sync s → in_sync s'.
Proof. induction 1; eauto using sync_step. Qed.

(** C14. At every point of every run the tables of a node route to the sockets it serves
    and to no other: a connection being served is listed once, under its user and under
    the names of its subscriptions; one that is past its teardown nowhere; no entry is
    empty, so that a node whose sockets have all ended holds empty tables. *)
Theorem tables_match_subscriptions channels s :
  rtc step (idle_node channels) s →
  (∀ c l todo, lives (node s) !! c = Some l → phases s !! c = Some (Serving todo) →
    (∀ u, c ∈ default [] (by_user (node s) !! u) ↔ u = user_id (session (conn l))) ∧
    (∀ ch, c ∈ default [] (by_channel (node s) !! channel_str ch) ↔ is_subscribed (conn l) ch = true)) ∧
  (∀ c u, phases s !! c = Some Evicting ∨ phases s !! c = Some Ended →
    c ∉ default [] (by_user (node s) !! u) ∧ c ∉ default [] (by_channel (node s) !! u)) ∧
  (∀ u hs, by_user (node s) !! u = Some hs ∨ by_channel (node s) !! u = Some hs → NoDup hs ∧ hs ≠ []) ∧
  ((∀ c p, phases s !! c = Some p → p = Ended) → by_user (node s) = ∅ ∧ by_channel (node s) = ∅).
Proof.
  intros Hrun. pose proof (sync_runs _ _ Hrun (sync_idle channels)) as Hs.
  pose proof (index_elem _ _ (sync_users _ Hs)) as Hu.
  pose proof (index_elem _ _ (sync_channels _ Hs)) as Hc.
  split_and!.
  - intros c l todo Hl Hp. split; intros k.
    + rewrite Hu, (users_known s _ c l _ Hl Hp). naive_solver.
    + rewrite Hc, (channels_known s _ c l _ Hl Hp). simpl.
      split; [by intros (ch & ? & ->%channel_str_inj)|eauto].
  - intros c u Hp. rewrite Hu, Hc.
    split; [intros (l & p & ? & ? & ? & _)|intros (l & p & ch & ? & ? & ? & _)]; destruct Hp; by simplify_eq.
  - intros u hs [H'|H']; by eapply index_entry in H'; [|apply Hs].
  - intros Hend. split; apply map_empty; intros k.
    + destruct (by_user (node s) !! k) as [hs|] eqn:E; [|done].
      pose proof (index_entry _ _ (sync_users _ Hs) _ _ E) as [_ Hne].
      destruct hs as [|c hs]; [done|]. exfalso.
      assert (c ∈ default [] (by_user (node s) !! k)) as (l & p & _ & Hp & Hlu & _)%Hu
        by (rewrite E; left).
      by rewrite (Hend _ _ Hp) in Hlu.
    + destruct (by_channel (node s) !! k) as [hs|] eqn:E; [|done].
      pose proof (index_entry _ _ (sync_channels _ Hs) _ _ E) as [_ Hne].
      destruct hs as [|c hs]; [done|]. exfalso.
      assert (c ∈ default [] (by_channel (node s) !! k)) as (l & p & ch & _ & Hp & Hlu & _)%Hc
        by (rewrite E; left).
      by rewrite (Hend _ _ Hp) in Hlu.
Qed.

End Sync.

#[local] Existing Instances Demo.demo_clock Demo.demo_prost.

Lemma tables_match_subscriptions_witness :
  phases (Demo.after 9) !! "c1" = Some (Serving []) ∧
  "c1" ∈ default [] (by_user (node (Demo.after 9)) !! "alice") ∧
  "c1" ∈ default [] (by_channel (node (Demo.after 9)) !! "notif:alice").
Proof.
  destruct (tables_match_subscriptions 2 Demo.no_text Demo.tuned_to (Demo.after 9) (Demo.after_runs 9 ltac:(lia))) as (Hs & _).
  assert (Hp : phases (Demo.after 9) !! "c1" = Some (Serving [])) by (vm_compute; reflexivity).
  destruct (Hs "c1" Demo.served [] ltac:(vm_compute; reflexivity) Hp) as [Hu Hc].
  split_and!; [exact Hp|by apply Hu|]. apply (Hc (channel Demo.alert)). vm_compute. reflexivity.
Defined.
