(* ===== verification/RealtimeSequence.v ===== *)
(** * Realtime: the numbers of a stream

    The sequence numbers a connection is sent on one channel, over any run of its node in
    which it keeps the subscription: they increase, and what is missing among them was
    shed from a full queue. *)

From S2P Require Import Prelude.
From S2P Require EdgeToken.
From S2P Require Import RealtimeDomain RealtimeCodec RealtimeGateway RealtimeProofs RealtimeRuns RealtimeSync.
From S2P Require Cqrs.
Import EdgeToken(UtcText, from_timestamp).
From stdpp Require Import sorting numbers list.
Local Open Scope Z_scope.

#[export] Instance Pb_ChannelRef_eq_dec : EqDecision Pb.ChannelRef.
Proof. solve_decision. Defined.

Lemma channel_to_pb_inj a b : channel_to_pb a = channel_to_pb b → a = b.
Proof. destruct a as [[] k], b as [[] k']; unfold channel_to_pb; simpl; congruence. Qed.

Lemma seqZ_sorted m n : StronglySorted Z.lt (seqZ m n).
Proof.
  destruct (decide (n ≤ 0)); [rewrite seqZ_nil by done; constructor|].
  replace n with (Z.of_nat (Z.to_nat n)) by lia. generalize (Z.to_nat n). clear n n0. intros n.
  revert m. induction n as [|n IH]; intros m; [constructor|].
  rewrite seqZ_cons by lia. replace (Z.pred (Z.of_nat (S n))) with (Z.of_nat n) by lia.
  constructor; [done|]. apply Forall_forall. intros q Hq%elem_of_seqZ. lia.
Qed.

(** The numbers of the event frames on [ch]. *)
Definition seq_of (ch : ChannelRef) (f : Pb.ServerFrame) : option Z :=
  match f with
  | Pb.EventFrame e =>
      if decide (Pb.channel e = Some (channel_to_pb ch)) then Some (Pb.stream_seq e) else None
  | _ => None
  end.
Definition seqs_of (ch : ChannelRef) (fs : list Pb.ServerFrame) : list Z := omap (seq_of ch) fs.

Lemma seqs_app ch fs gs : seqs_of ch (fs ++ gs) = seqs_of ch fs ++ seqs_of ch gs.
Proof. apply omap_app. Qed.

Lemma seqs_length ch fs : (length (seqs_of ch fs) ≤ length fs)%nat.
Proof. unfold seqs_of. induction fs as [|f fs IH]; csimpl; [done|]. destruct (seq_of ch f); simpl; lia. Qed.

Lemma seqs_event ch c q e : seqs_of ch [event_frame c q e] = if decide (c = ch) then [q] else [].
Proof.
  unfold seqs_of. simpl. destruct (decide (c = ch)) as [->|Hne].
  - by rewrite decide_True.
  - rewrite decide_False; [done|]. intros [= E1 E2]. apply Hne, channel_to_pb_inj.
    unfold channel_to_pb. by rewrite E1, E2.
Qed.

Lemma seqs_control ch c o code msg ms : seqs_of ch [control_frame c o code msg ms] = [].
Proof. done. Qed.

(** How many numbers a connection has handed out on [ch]. *)
Definition issued (k : Connection) (ch : ChannelRef) : Z :=
  from_option (λ q, next q - 1) 0 (channels (subscriptions k) !! ch).

(** Every frame a connection was given. *)
Definition total (l : Live) : nat := length (written l ++ outbox l ++ shed l).

(** ** What leaves the numbers alone *)

Record quiet (ch : ChannelRef) (l l' : Live) : Prop := {
  quiet_got : seqs_of ch (written l' ++ outbox l') = seqs_of ch (written l ++ outbox l);
  quiet_shed : seqs_of ch (shed l') = seqs_of ch (shed l);
  quiet_issued : issued (conn l') ch = issued (conn l) ch;
  quiet_total : (total l ≤ total l')%nat;
}.

Lemma quiet_refl ch l : quiet ch l l.
Proof. by split. Qed.
Lemma quiet_trans ch l1 l2 l3 : quiet ch l1 l2 → quiet ch l2 l3 → quiet ch l1 l3.
Proof. intros [] []; split; [by etrans..|lia]. Qed.

Lemma quiet_conn ch l k : issued k ch = issued (conn l) ch → quiet ch l (l <| conn := k |>).
Proof. by split. Qed.

Lemma heartbeat_issued now k ch : issued (heartbeat now k) ch = issued k ch.
Proof. unfold heartbeat. by destruct (decide _). Qed.
Lemma drain_issued k ch : issued (begin_drain k).1 ch = issued k ch.
Proof. unfold begin_drain. by destruct (state k). Qed.

Lemma ack_issued c seq k ch : issued (ack c seq k).1 ch = issued k ch.
Proof.
  unfold ack, on_subscriptions, set_ack, on_sequence, issued.
  destruct (channels (subscriptions k) !! c) as [q|] eqn:E; [|done]. simpl.
  destruct (decide (c = ch)) as [->|]; [|by rewrite lookup_insert_ne].
  rewrite lookup_insert_eq, E. simpl. unfold seq_ack.
  destruct (_ <? _); [done|]. by destruct (_ <? _).
Qed.

Lemma subscribe_issued c k ch : issued (subscribe c k).1 ch = issued k ch.
Proof.
  destruct (subscribe c k) as [k' [b|e]] eqn:E; simpl; [|by rewrite (subscribe_err _ _ _ _ E)].
  apply subscribe_ok in E as (_ & _ & _ & _ & _ & _ & [(_ & -> & _)|(_ & Hn & _ & Hc)]); [done|].
  unfold issued. rewrite Hc. destruct (decide (c = ch)) as [->|]; [|by rewrite lookup_insert_ne].
  rewrite lookup_insert_eq. destruct (channels (subscriptions k) !! ch) eqn:E; [|done].
  assert (is_subscribed k ch = true) by (apply is_subscribed_true; by rewrite E). congruence.
Qed.

(** An unsubscription that leaves [ch] subscribed. *)
Lemma unsubscribe_issued c k ch :
  (is_subscribed k ch = true → is_subscribed (unsubscribe c k).1 ch = true) →
  issued (unsubscribe c k).1 ch = issued k ch.
Proof.
  destruct (unsubscribe c k) as [k' [[]|e]] eqn:E; simpl; [|by rewrite (unsubscribe_err _ _ _ _ E)].
  apply unsubscribe_ok in E as (Hs & _ & _ & _ & Hc). intros Hk. unfold issued. rewrite Hc.
  destruct (decide (c = ch)) as [->|]; [|by rewrite lookup_delete_ne].
  specialize (Hk Hs). apply is_subscribed_true in Hk as [? Hk]. by rewrite Hc, lookup_delete_eq in Hk.
Qed.

Section Numbers.
Context `{Prost} `{UtcText} (send_queue_cap : nat) (validation_text : Cqrs.ValidationError → string).
Context (c : ConnectionId) (ch : ChannelRef).

Notation step := (step send_queue_cap validation_text).
Notation perform := (perform send_queue_cap validation_text).
Notation sent := (sent send_queue_cap).

Lemma total_sent f l : total (sent f l) = S (total l).
Proof.
  unfold RealtimeGateway.sent, try_send, total.
  destruct (_ && _); simpl; rewrite !length_app; simpl; lia.
Qed.

Lemma quiet_sent f l : seqs_of ch [f] = [] → quiet ch l (sent f l).
Proof.
  intros Hf. pose proof (total_sent f l) as Ht.
  assert (total l ≤ total (sent f l))%nat by lia. revert H1.
  unfold RealtimeGateway.sent, try_send. destruct (_ && _); split; simpl; try done.
  - by rewrite app_assoc, (seqs_app _ (_ ++ _)), Hf, app_nil_r.
  - by rewrite seqs_app, Hf, app_nil_r.
Qed.

Lemma quiet_control l k t o code msg : issued k ch = issued (conn l) ch →
  quiet ch l (send_control send_queue_cap t o code msg (l <| conn := k |>)).
Proof. intros Hk. eapply quiet_trans; [by apply quiet_conn|]. by apply quiet_sent. Qed.

Lemma quiet_write l : quiet ch l (write_one l).
Proof.
  unfold write_one. destruct (outbox l) as [|f q] eqn:E; [apply quiet_refl|].
  destruct (receiving l); [|apply quiet_refl]. split; simpl; try done.
  - by rewrite E, <- app_assoc.
  - unfold total. rewrite E. simpl. rewrite <- !app_assoc. done.
Qed.

Lemma quiet_tick l l' now timeout : tick send_queue_cap now timeout l = (l', false) → quiet ch l l'.
Proof.
  unfold tick. destruct (should_reap _ _ _); [done|]. intros [= <-].
  eapply quiet_trans; [|by apply quiet_sent].
  destruct (needs_reauth _ _); [|by split]. pose proof (quiet_sent reauth_frame l eq_refl) as []. by split.
Qed.

Lemma quiet_perform now t n l l' : lives n !! c = Some l →
  lives (perform now c t n) !! c = Some l' →
  (is_subscribed (conn l) ch = true → is_subscribed (conn l') ch = true) → quiet ch l l'.
Proof.
  intros Hl. destruct t as [d|d|d seq| |d]; simpl.
  - unfold subscribe_one. rewrite Hl. pose proof (subscribe_issued d (conn l) ch) as Hi.
    destruct (subscribe d (conn l)) as [k [b|e]]; simpl; rewrite lookup_insert_eq; intros [= <-] _;
      by apply quiet_control.
  - unfold unsubscribe_one. rewrite Hl. pose proof (unsubscribe_issued d (conn l) ch) as Hi.
    destruct (unsubscribe d (conn l)) as [k [[]|e]]; simpl; rewrite lookup_insert_eq; intros [= <-];
      unfold send_control; rewrite ?conn_sent; intros Hk;
      [by apply quiet_control, Hi|by apply quiet_conn, Hi].
  - unfold with_live. simpl. rewrite (alter_known _ _ _ _ Hl), lookup_insert_eq. intros [= <-] _.
    apply quiet_conn, ack_issued.
  - unfold with_live. simpl. rewrite (alter_known _ _ _ _ Hl), lookup_insert_eq. intros [= <-] _.
    apply quiet_conn, heartbeat_issued.
  - unfold resume_one. rewrite Hl. pose proof (subscribe_issued d (conn l) ch) as Hi.
    destruct (subscribe d (conn l)) as [k [b|e]]; simpl; rewrite lookup_insert_eq; intros [= <-] _;
      by apply quiet_conn.
Qed.

(** ** The numbers of the connection *)

(** The number stamped on a frame that is not in the queue yet. *)
Definition pending (s : Sys) : list Z :=
  match subscriber s with
  | Sending _ _ _ d f => if decide (d = c) then seqs_of ch [f] else []
  | _ => []
  end.

Record in_order (l : Live) (p : list Z) : Prop := {
  order_sorted : StronglySorted Z.lt (seqs_of ch (written l ++ outbox l) ++ p);
  order_all : seqs_of ch (written l ++ outbox l) ++ p ++ seqs_of ch (shed l) ≡ₚ
              seqZ 1 (issued (conn l) ch);
  order_range : 0 ≤ issued (conn l) ch < u64_max;
}.

(** Until [u64] could run out. *)
Definition numbered (s : Sys) : Prop :=
  ∀ l, lives (node s) !! c = Some l → in_order l (pending s) ∨ u64_max - 1 ≤ Z.of_nat (total l).

Lemma in_order_quiet l l' p : quiet ch l l' → in_order l p → in_order l' p.
Proof. intros [Hg Hs Hi _] [H1 H2 H3]. by split; rewrite ?Hg, ?Hs, ?Hi. Qed.

Lemma numbered_move s s' l l' :
  lives (node s) !! c = Some l → lives (node s') !! c = Some l' → (total l ≤ total l')%nat →
  (in_order l (pending s) → Z.of_nat (total l) < u64_max - 1 → in_order l' (pending s')) →
  numbered s → numbered s'.
Proof.
  intros Hl Hl' Ht Ho Hs l0 Hl0. simplify_eq.
  destruct (Hs l Hl) as [Hord|]; [|right; lia].
  destruct (decide (u64_max - 1 ≤ Z.of_nat (total l))); [right; lia|].
  left. apply Ho; [done|lia].
Qed.

Lemma numbered_still s s' : lives (node s') !! c = lives (node s) !! c → pending s' = pending s →
  numbered s → numbered s'.
Proof. intros Hl Hp Hs l. rewrite Hl, Hp. apply Hs. Qed.

Lemma numbered_put s s' d l l' :
  lives (node s) !! d = Some l → lives (node s') = <[d := l']> (lives (node s)) →
  pending s' = pending s → (d = c → quiet ch l l') → numbered s → numbered s'.
Proof.
  intros Hl Hl' Hp Hq Hs. destruct (decide (d = c)) as [->|Hne].
  - apply (numbered_move s _ l l'); try done.
    + by rewrite Hl', lookup_insert_eq.
    + by apply quiet_total with ch, Hq.
    + intros Ho _. rewrite Hp. by eapply in_order_quiet; [apply Hq|].
  - apply (numbered_still s); [by rewrite Hl', lookup_insert_ne|done|done].
Qed.

(** A stamp takes the next number for the event's channel. *)
Lemma stamp_spec e l l' o : stamp e l = (l', o) →
  (o = None ∧ conn l' = conn l ∧ quiet ch l l') ∨
  ∃ q, channels (subscriptions (conn l)) !! channel e = Some q ∧
       o = Some (event_frame (channel e) (next q) e) ∧
       written l' = written l ∧ outbox l' = outbox l ∧ shed l' = shed l ∧
       channels (subscriptions (conn l')) =
         <[channel e := (issue q).1]> (channels (subscriptions (conn l))).
Proof.
  unfold stamp. destruct (is_subscribed (conn l) (channel e)) eqn:Hs.
  - apply is_subscribed_true in Hs as [q Hq]. unfold issue_seq.
    destruct (decide (state (conn l) = Closed)).
    + intros [= <- <-]. left. by destruct l.
    + unfold on_subscriptions, set_issue_seq, on_sequence. rewrite Hq. simpl.
      intros [= <- <-]. right. by exists q.
  - intros [= <- <-]. by left.
Qed.

Lemma in_order_stamp e l l' f : in_order l [] → Z.of_nat (total l) < u64_max - 1 →
  stamp e l = (l', Some f) → in_order l' (seqs_of ch [f]).
Proof.
  intros [H1 H2 H3] Ht [(? & _)|(q & Hq & [= ->] & Hw & Hout & Hsh & Hc)]%stamp_spec; [done|].
  unfold issued in *. rewrite seqs_event.
  destruct (decide (channel e = ch)) as [E|Hne].
  - rewrite E in Hq, Hc. rewrite Hq in H2, H3. simpl in H2, H3. rewrite app_nil_r in H1. simpl in H2.
    assert (Hlen : (Z.to_nat (next q - 1) ≤ total l)%nat).
    { apply Permutation_length in H2. rewrite length_seqZ, <- seqs_app in H2. rewrite <- H2.
      unfold total. rewrite app_assoc. apply seqs_length. }
    assert (En : u64_add (next q) 1 = next q + 1) by (apply Z.mod_small; unfold u64_max in *; lia).
    split; unfold issued; rewrite ?Hw, ?Hout, ?Hsh, ?Hc, ?lookup_insert_eq; simpl; rewrite ?En;
      [..|unfold u64_max in *; lia].
    + apply StronglySorted_app_2; [|done|by repeat constructor].
      intros x y Hx. rewrite list_elem_of_singleton. intros ->.
      assert (Hx' : x ∈ seqZ 1 (next q - 1)) by (rewrite <- H2; apply elem_of_app; by left).
      apply elem_of_seqZ in Hx'. lia.
    + replace (next q + 1 - 1) with (next q - 1 + 1) by lia.
      rewrite (seqZ_app _ _ 1), <- H2 by lia. simpl. unfold seqZ at 1. simpl.
      rewrite <- !app_assoc. apply Permutation_app_head. rewrite Permutation_app_comm. simpl.
      replace (Z.of_nat 0 + (1 + (next q - 1))) with (next q) by lia. done.
  - split; unfold issued; rewrite ?Hw, ?Hout, ?Hsh, ?Hc, ?lookup_insert_ne by done; done.
Qed.

Lemma in_order_send f l : in_order l (seqs_of ch [f]) → in_order (sent f l) [].
Proof.
  intros [H1 H2 H3]. assert (Hi : issued (conn (sent f l)) ch = issued (conn l) ch) by (by rewrite conn_sent).
  split; rewrite ?Hi; [..|done]; unfold RealtimeGateway.sent, try_send; destruct (_ && _); simpl;
    rewrite ?app_nil_r.
  - by rewrite app_assoc, seqs_app.
  - by apply StronglySorted_app_1_l in H1.
  - by rewrite app_assoc, seqs_app, <- app_assoc.
  - rewrite <- H2, (seqs_app _ (shed l)). apply Permutation_app_head, Permutation_app_comm.
Qed.

Lemma total_stamp e l : total (stamp e l).1 = total l.
Proof.
  destruct (stamp e l) as [l' o] eqn:E. simpl. unfold stamp in E.
  destruct (is_subscribed _ _); [|by injection E as <- _].
  destruct (issue_seq _ _) as [k [q|]]; by injection E as <- _.
Qed.

Lemma pending_taken s m : pending (s <| subscriber := taken m (node s) |>) = [].
Proof.
  unfold pending. simpl. destruct (taken m (node s)) as [| |e only hs d f] eqn:E; [done..|].
  by apply taken_not_sending in E.
Qed.

Lemma pending_fresh s : sound send_queue_cap s → lives (node s) !! c = None → pending s = [].
Proof.
  intros Hs Hn. unfold pending. destruct (subscriber s) as [| |e only hs d f] eqn:E; [done..|].
  destruct (decide (d = c)) as [->|]; [|done].
  by destruct (sound_pending _ _ Hs _ _ _ _ _ E) as (l & Hl & _); rewrite Hn in Hl.
Qed.

Lemma numbered_open s d i sess k now : sound send_queue_cap s → lives (node s) !! d = None → numbered s →
  numbered (at_phase d (Serving []) (s <| node := start_socket (open d i sess k now) (node s) |>)).
Proof.
  intros Hsound Hn Hs. destruct (decide (d = c)) as [->|Hne].
  - intros l. simpl. rewrite lookup_insert_eq. intros [= <-]. left.
    change (pending _) with (pending s). rewrite pending_fresh by done. split; unfold issued; simpl; rewrite ?lookup_empty; [constructor|done|by unfold u64_max].
  - apply (numbered_still s); [by simpl; rewrite lookup_insert_ne|done|done].
Qed.

(** A step of the node during which the connection does not give [ch] up. *)
Definition kept (s s' : Sys) : Prop :=
  step s s' ∧ ∀ l l', lives (node s) !! c = Some l → lives (node s') !! c = Some l' →
    is_subscribed (conn l) ch = true → is_subscribed (conn l') ch = true.

Lemma numbered_task s d now t ts :
  (∀ l l', lives (node s) !! c = Some l → lives (perform now d t (node s)) !! c = Some l' →
     is_subscribed (conn l) ch = true → is_subscribed (conn l') ch = true) →
  numbered s → numbered (at_phase d (Serving ts) (s <| node := perform now d t (node s) |>)).
Proof.
  intros Hk Hs. destruct (lives (node s) !! d) as [l|] eqn:Hl.
  - destruct (perform_live send_queue_cap validation_text now d t _ _ Hl) as (l' & Hl' & _).
    eapply (numbered_put s _ d l l'); [done|exact Hl'|done| |done]. intros ->.
    assert (Hc : lives (perform now c t (node s)) !! c = Some l') by (by rewrite Hl', lookup_insert_eq).
    eapply quiet_perform; [done|exact Hc|by apply Hk].
  - apply (numbered_still s); [simpl; by rewrite perform_none|done|done].
Qed.

Lemma numbered_handle s e only h hs l : subscriber s = Delivering e only (h :: hs) →
  lives (node s) !! h = Some l → numbered s →
  numbered (put h (stamp_for e only l).1 s
              <| subscriber := match (stamp_for e only l).2 with
                               | Some f => Sending e only hs h f
                               | None => Delivering e only hs
                               end |>).
Proof.
  intros Hsub Hl Hs. assert (Hp : pending s = []) by (unfold pending; by rewrite Hsub).
  destruct (decide (h = c)) as [->|Hne].
  - unfold stamp_for. destruct (device_matches only (pinned_device l)); simpl; cycle 1.
    { eapply (numbered_put s _ c l l); [done|reflexivity|by rewrite Hp| |done]. intros _. apply quiet_refl. }
    eapply (numbered_move s _ l); [done|simpl; by rewrite lookup_insert_eq| | |done].
    + by rewrite total_stamp.
    + rewrite Hp. intros Ho Ht. unfold pending. simpl.
      destruct (stamp e l) as [l' [f|]] eqn:E; simpl.
      * rewrite decide_True by done. by eapply in_order_stamp.
      * apply stamp_spec in E as [(_ & _ & Hq)|(q & _ & ? & _)]; [by eapply in_order_quiet|done].
  - apply (numbered_still s); [simpl; by rewrite lookup_insert_ne| |done].
    rewrite Hp. unfold pending. simpl. destruct (stamp_for e only l).2; [|done]. by rewrite decide_False.
Qed.

Lemma numbered_send s e only hs d f l : subscriber s = Sending e only hs d f →
  lives (node s) !! d = Some l → numbered s →
  numbered (put d (sent f l) s <| subscriber := Delivering e only hs |>).
Proof.
  intros Hsub Hl Hs. destruct (decide (d = c)) as [->|Hne].
  - eapply (numbered_move s _ l); [done|simpl; by rewrite lookup_insert_eq|rewrite total_sent; lia| |done].
    unfold pending at 1. rewrite Hsub, decide_True by done. intros Ho _. by apply in_order_send.
  - apply (numbered_still s); [simpl; by rewrite lookup_insert_ne| |done].
    unfold pending. rewrite Hsub. simpl. by rewrite decide_False.
Qed.

Lemma numbered_step s s' : kept s s' → sound send_queue_cap s → numbered s → numbered s'.
Proof.
  intros [Hstep Hk] Hsound Hs. destruct Hstep as
    [d i sess k now Hn|d l now ts Hp Hl|d now t ts Hp|d l now _ Hl|d l l' now timeout _ Hl Ht|d l Hp Hl
    |d ch' chs Hp|d l Hp Hl|d l Hp Hl|d l Hl|d l Hl|m|k|m rest Hsub _|e only h hs l Hsub Hl
    |e only hs d f l Hsub Hl|e only Hsub|d l ms Hl].
  - by apply numbered_open.
  - eapply (numbered_put s _ d l); [done|reflexivity|done| |done].
    intros _. apply quiet_conn, heartbeat_issued.
  - by apply numbered_task.
  - eapply (numbered_put s _ d l); [done|reflexivity|done| |done].
    intros _. apply quiet_conn, heartbeat_issued.
  - eapply (numbered_put s _ d l); [done|reflexivity|done| |done]. intros _. by eapply quiet_tick.
  - by apply (numbered_still s).
  - by apply (numbered_still s).
  - by apply (numbered_still s).
  - eapply (numbered_put s _ d l); [done|reflexivity|done| |done]. by split.
  - eapply (numbered_put s _ d l); [done|reflexivity|done| |done]. intros _. apply quiet_write.
  - eapply (numbered_put s _ d l); [done|reflexivity|done| |done]. by split.
  - by apply (numbered_still s).
  - by apply (numbered_still s).
  - apply (numbered_still s); [done| |done]. etrans; [apply (pending_taken s)|].
    unfold pending. by rewrite Hsub.
  - by apply numbered_handle.
  - by apply numbered_send.
  - apply (numbered_still s); [done| |done]. unfold pending. simpl. by rewrite Hsub.
  - eapply (numbered_put s _ d l); [done|reflexivity|done| |done].
    intros _. eapply quiet_trans; [by apply quiet_conn, drain_issued|by apply quiet_sent].
Qed.

Lemma numbered_runs s s' : rtc kept s s' → sound send_queue_cap s → numbered s → numbered s'.
Proof.
  induction 1 as [|s1 s2 s3 Hk _ IH]; [done|]. intros Hs Hn. apply IH.
  - eapply sound_step; [apply Hk|done].
  - by eapply numbered_step.
Qed.

(** C13. As long as a connection keeps its subscription, the event frames of the channel
    reach its socket with increasing numbers, all of them handed out; and each number
    handed out is on the way exactly once or was shed with its frame from a full queue.
    A client that sees the numbers from 1 on without a gap has therefore missed nothing. *)
Theorem event_frames_are_in_sequence channels s l :
  rtc kept (idle_node channels) s → lives (node s) !! c = Some l →
  Z.of_nat (total l) < u64_max - 1 →
  let got := seqs_of ch (written l ++ outbox l) in
  let n := issued (conn l) ch in
  StronglySorted Z.lt got ∧
  got ++ pending s ++ seqs_of ch (shed l) ≡ₚ seqZ 1 n ∧
  (∀ q, q ∈ seqs_of ch (written l) → ∀ q', q' ∈ seqs_of ch (outbox l) → q < q') ∧
  (seqs_of ch (shed l) = [] → pending s = [] → got = seqZ 1 n).
Proof.
  intros Hrun Hl Ht got n.
  destruct (numbered_runs _ _ Hrun (sound_idle _ channels)) with (l := l) as [[H1 H2 H3]|]; [|done| |lia].
  { intros l0. simpl. by rewrite lookup_empty. }
  assert (Hsort : StronglySorted Z.lt got) by (by apply StronglySorted_app_1_l in H1).
  split_and!; [done|done| |].
  - intros q Hq q' Hq'. unfold got in Hsort. rewrite seqs_app in Hsort.
    by eapply StronglySorted_app_1_elem_of.
  - intros Hsh Hp. rewrite Hsh, Hp, !app_nil_r in H2.
    apply (StronglySorted_unique_strong Z.lt); [lia|done|apply seqZ_sorted|done].
Qed.

End Numbers.


#[local] Existing Instances Demo.demo_clock Demo.demo_prost.

Definition listens (c : ConnectionId) (ch : ChannelRef) (s : Sys) : bool :=
  match lives (node s) !! c with Some l => is_subscribed (conn l) ch | None => false end.

Lemma listens_kept c ch s s' : implb (listens c ch s) (listens c ch s') = true →
  ∀ l l', lives (node s) !! c = Some l → lives (node s') !! c = Some l' →
    is_subscribed (conn l) ch = true → is_subscribed (conn l') ch = true.
Proof. unfold listens. intros Hi l l' Hl Hl' Hs. by rewrite Hl, Hl', Hs in Hi. Qed.

(** Alice's notifications, at every point of the run. *)
Lemma alice_keeps n : (n < 9)%nat →
  implb (listens "c1" (channel Demo.alert) (Demo.after n))
    (listens "c1" (channel Demo.alert) (Demo.after (S n))) = true.
Proof. intros Hn. destruct n as [|[|[|[|[|[|[|[|[|n]]]]]]]]]; [..|lia]; vm_compute; reflexivity. Qed.

Lemma demo_kept n : (n < 9)%nat →
  kept 2 Demo.no_text "c1" (channel Demo.alert) (Demo.after n) (Demo.after (S n)).
Proof.
  intros Hn. split; [by apply Demo.after_step|]. by apply listens_kept, alice_keeps.
Qed.

Lemma event_frames_are_in_sequence_witness :
  total Demo.served = 2%nat ∧ seqs_of (channel Demo.alert) (written Demo.served ++ outbox Demo.served) = [1].
Proof.
  assert (Hr : rtc (kept 2 Demo.no_text "c1" (channel Demo.alert)) (idle_node Demo.tuned_to) (Demo.after 9))
    by exact (Demo.after_chain 9 demo_kept).
  assert (Hl : lives (node (Demo.after 9)) !! "c1" = Some Demo.served) by (vm_compute; reflexivity).
  assert (Ht : Z.of_nat (total Demo.served) < u64_max - 1) by (vm_compute; reflexivity).
  destruct (event_frames_are_in_sequence 2 Demo.no_text "c1" (channel Demo.alert) Demo.tuned_to (Demo.after 9)
              Demo.served Hr Hl Ht) as (_ & _ & _ & Hall).
  split; [vm_compute; reflexivity|]. rewrite Hall; vm_compute; reflexivity.
Defined.
