(* ===== verification/RealtimeDelivery.v ===== *)
(** * Realtime: from an event to the sockets

    The fan-out against the registry and the node channels, its errors under any fault
    script, what a gateway makes of a message, and both together: an event handed to the
    dispatcher reaches the queues of the connections it is for. *)

From S2P Require Import Prelude.
From S2P Require Import Consumer.
From S2P Require EdgeToken.
From S2P Require Import RealtimeDomain RealtimeCodec RealtimeGateway RealtimeProofs RealtimeRuns RealtimeSync.
From S2P Require Cqrs.
Import Cqrs(error_code, is_retryable).
Import EdgeToken(UtcText, from_timestamp).
From stdpp Require Import list.
Local Open Scope Z_scope.

(** ** Channels of the fabric *)

Lemma close_inj (s t : string) : s +:+ "}" = t +:+ "}" → s = t.
Proof.
  revert t. induction s as [|a s IH]; intros [|b t]; cbn [String.append]; intros E; [done| | |].
  - by destruct t.
  - by destruct s.
  - injection E as -> E. f_equal. by apply IH.
Qed.

Lemma node_channel_inj m n : node_channel m = node_channel n → m = n.
Proof.
  unfold node_channel. intros E. cbn [String.append] in E. repeat (injection E as E). by apply close_inj.
Qed.

Definition tuned (N : NodeId) (n : Node) : Prop := listening n = subscriptions_of N.

(** A subscriber asks for the channels of its own node and no others; any of its
    subscriptions may have failed. *)
Definition own_channels (N : NodeId) (n : Node) : Prop :=
  ∀ ch, hears ch n = true → ch ∈ subscriptions_of N.

Lemma node_channel_own N m : node_channel m ∈ subscriptions_of N ↔ m = N.
Proof.
  unfold subscriptions_of. rewrite !elem_of_cons. split.
  - intros [->%node_channel_inj|[E|[]%not_elem_of_nil]]; [done|].
    unfold node_channel, BROADCAST_CHANNEL in E. cbn [String.append] in E. discriminate.
  - intros ->. by left.
Qed.

Lemma tuned_hears N n ch : tuned N n → hears ch n = bool_decide (ch ∈ subscriptions_of N).
Proof.
  unfold tuned, hears. intros ->. apply eq_bool_prop_intro.
  rewrite bool_decide_spec, Is_true_true, existsb_exists. setoid_rewrite list_elem_of_In.
  split; [intros (x & Hx & ->%String.eqb_eq)|intros Hx; exists ch; rewrite String.eqb_refl]; done.
Qed.

Lemma tuned_own N n : tuned N n → own_channels N n.
Proof. intros Ht ch. by rewrite (tuned_hears N) by done; intros ?%bool_decide_eq_true. Qed.

(** A frame of the hop at the end of a node's inbox. *)
Definition push (b : list ascii) (n : Node) : Node := n <| inbox := inbox n ++ [b] |>.

(** A call to Redis succeeds when nothing is scripted to fail; its error is the one named. *)
Lemma redis_outcome {A} er (eff : World → World * A) w w' r : redis er eff w = (w', r) →
  (∃ fs, (w' = (eff (w <| faults := fs |>)).1 ∧ r = Ok (eff (w <| faults := fs |>)).2) ∨
         (w' = (eff (w <| faults := fs |>)).1 ∧ r = Err er) ∨ (w' = w <| faults := fs |> ∧ r = Err er)) ∧
  (faults w = [] → w' = (eff w).1 ∧ r = Ok (eff w).2).
Proof.
  unfold redis. destruct (faults w) as [|[[]|] fs] eqn:E; intros [= <- <-]; (split; [|done]).
  - exists []. left. assert (w <| faults := [] |> = w) as -> by (destruct w; simpl in *; by subst). done.
  - exists fs. auto.
  - exists fs. auto.
  - exists fs. auto.
Qed.

Section Delivery.
Context `{Prost} `{UtcText} `{PlacementText} (scan : list (string * string) → list (string * string)).

Notation frame e := (encode_envelope (envelope_to_pb e)).

(** ** The fan-out without faults *)

(** A node after the publications to [hit]. *)
Definition told (e : DeliverableEvent) (hit : gset NodeId) (N : NodeId) (n : Node) : Node :=
  if decide (N ∈ hit) then push (frame e) n else n.

Definition owners (e : DeliverableEvent) (locs : list ConnectionLocation) : gset NodeId :=
  list_to_set (loc_node <$> targets e locs).

(** Same world, but for the inboxes of [hit]. *)
Record tells (e : DeliverableEvent) (hit : gset NodeId) (w w' : World) : Prop := {
  tells_presence : presence_keys w' = presence_keys w;
  tells_time : redis_ms w' = redis_ms w;
  tells_nodes N : nodes w' !! N = told e hit N <$> nodes w !! N;
}.

Definition all_tuned (w : World) : Prop := ∀ N n, nodes w !! N = Some n → tuned N n.
Definition all_own (w : World) : Prop := ∀ N n, nodes w !! N = Some n → own_channels N n.

Lemma all_tuned_own w : all_tuned w → all_own w.
Proof. intros Ht N n Hn. by apply tuned_own, Ht. Qed.

(** Those of these nodes that are subscribed to a channel. *)
Definition subscribed (ch : NodeId → string) (X : gset NodeId) (w : World) : gset NodeId :=
  filter (λ N, from_option (hears (ch N)) false (nodes w !! N) = true) X.

Lemma subscribed_empty ch w : subscribed ch ∅ w = ∅.
Proof. set_solver. Qed.

Lemma subscribed_union ch X Y w : subscribed ch (X ∪ Y) w = subscribed ch X w ∪ subscribed ch Y w.
Proof.
  apply set_eq. intros N. unfold subscribed. rewrite elem_of_union, !elem_of_filter, elem_of_union.
  naive_solver.
Qed.

Lemma tells_refl e w : tells e ∅ w w.
Proof.
  split; try done. intros N. destruct (nodes w !! N) as [n|]; [|done]. simpl.
  unfold told. by rewrite decide_False by set_solver.
Qed.

(** A publication on a channel is pushed to those that hear it, or it fails. *)
Lemma spublish_outcome e ch X w w' r :
  spublish ch (frame e) w = (w', r) →
  (∀ N n, nodes w !! N = Some n → hears ch n = true → N ∈ X) →
  (tells e ∅ w w' ∨ tells e (subscribed (λ _, ch) X w) w w') ∧
  match r with
  | Ok _ => tells e (subscribed (λ _, ch) X w) w w'
  | Err er => er = NodeChannelUnavailable
  end ∧ (faults w = [] → faults w' = [] ∧ r = Ok tt).
Proof.
  intros Hp Hx. apply redis_outcome in Hp as [(fs & Hr) Hnf]. simpl in *.
  assert (Hhit : tells e (subscribed (λ _, ch) X w) w (w <| faults := fs |> <| nodes := (λ n,
      if hears ch n then push (frame e) n else n) <$> nodes w |>)).
  { split; [done..|]. intros N. simpl. rewrite lookup_fmap.
    destruct (nodes w !! N) as [n|] eqn:E; [|done]. simpl. f_equal.
    unfold told, subscribed. rewrite (decide_ext _ (hears ch n = true)).
    - by destruct (hears ch n).
    - rewrite elem_of_filter, E. simpl. split; [by intros []|]. intros Hh. split; [done|]. by eapply Hx. }
  split_and!.
  - destruct Hr as [[-> _]|[[-> _]|[-> _]]]; [by right..|left]. by destruct (tells_refl e w).
  - destruct Hr as [[-> ->]|[[_ ->]|[_ ->]]]; done.
  - intros Hf. destruct (Hnf Hf) as [-> ->]. done.
Qed.

Lemma publish_outcome e M w w' r : publish M e w = (w', r) → all_own w →
  (tells e ∅ w w' ∨ tells e (subscribed node_channel {[M]} w) w w') ∧
  match r with
  | Ok _ => tells e (subscribed node_channel {[M]} w) w w'
  | Err er => er = NodeChannelUnavailable
  end ∧ (faults w = [] → faults w' = [] ∧ r = Ok tt).
Proof.
  intros Hp Ho.
  assert (subscribed node_channel {[M]} w = subscribed (λ _, node_channel M) {[M]} w) as ->.
  { apply set_eq. intros N. unfold subscribed. rewrite !elem_of_filter, elem_of_singleton. naive_solver. }
  apply (spublish_outcome e (node_channel M)); [done|]. intros N n Hn Hh.
  apply (Ho _ _ Hn), node_channel_own in Hh as ->. set_solver.
Qed.

Lemma told_own e hit N n : own_channels N n → own_channels N (told e hit N n).
Proof. unfold told. by destruct (decide _). Qed.

Lemma tells_own e hit w w' : tells e hit w w' → all_own w → all_own w'.
Proof.
  intros [_ _ Hn] Ho N n. rewrite Hn, fmap_Some. intros (n0 & E & ->). by apply told_own, Ho.
Qed.

Lemma tells_subscribed e hit w w' ch X : tells e hit w w' → subscribed ch X w' = subscribed ch X w.
Proof.
  intros [_ _ Hn]. apply set_eq. intros N. unfold subscribed. rewrite !elem_of_filter, Hn.
  destruct (nodes w !! N) as [n|]; [|done]. simpl. unfold told. by destruct (decide _).
Qed.

Lemma tells_trans e X Y w1 w2 w3 : X ## Y → tells e X w1 w2 → tells e Y w2 w3 → tells e (X ∪ Y) w1 w3.
Proof.
  intros Hd [Hp Ht Hn] [Hp' Ht' Hn']. split; [by rewrite Hp'|by rewrite Ht'|].
  intros N. rewrite Hn', Hn. destruct (nodes w1 !! N) as [n|]; [|done]. simpl. f_equal. unfold told.
  specialize (Hd N). rewrite (decide_ext (N ∈ X ∪ Y) (N ∈ X ∨ N ∈ Y)) by apply elem_of_union.
  destruct (decide (N ∈ X)) as [HX|HX], (decide (N ∈ Y)) as [HY|HY];
    [by destruct (Hd HX HY)|rewrite decide_True by auto..|rewrite decide_False by tauto]; done.
Qed.

Lemma publish_to_outcome e ts published w w' r :
  publish_to e published ts w = (w', r) → all_own w →
  let owed := subscribed node_channel ((list_to_set (loc_node <$> ts) : gset NodeId) ∖ published) w in
  (∃ hit, hit ⊆ owed ∧ tells e hit w w' ∧
     match r with
     | Ok all => hit = owed ∧ all = published ∪ list_to_set (loc_node <$> ts)
     | Err er => er = NodeChannelUnavailable
     end) ∧ (faults w = [] → is_ok r = true).
Proof.
  revert published w. induction ts as [|l ts IH]; intros published w; simpl.
  - intros [= <- <-] _. assert (∅ ∖ published = ∅) as -> by set_solver.
    rewrite subscribed_empty. split; [|done].
    exists ∅. split_and!; [set_solver|apply tells_refl|set_solver|set_solver].
  - destruct (decide (loc_node l ∈ published)) as [Hin|Hnin]; intros Hp Ho.
    + replace (_ ∖ published) with ((list_to_set (loc_node <$> ts) : gset NodeId) ∖ published) by set_solver.
      replace (published ∪ _) with (published ∪ (list_to_set (loc_node <$> ts) : gset NodeId)) by set_solver.
      by apply IH.
    + assert (Hsplit : ({[loc_node l]} ∪ list_to_set (loc_node <$> ts) : gset NodeId) ∖ published =
        {[loc_node l]} ∪ (list_to_set (loc_node <$> ts) : gset NodeId) ∖ ({[loc_node l]} ∪ published)).
      { apply set_eq. intros N. destruct (decide (N = loc_node l)); set_solver. }
      change (list_fmap _ _ loc_node ts) with (loc_node <$> ts).
      rewrite Hsplit, subscribed_union. unfold act_bind in Hp.
      destruct (publish (loc_node l) e w) as [w1 [[]|er]] eqn:E1.
      * apply publish_outcome in E1 as (_ & Hw1 & Hnf1); [|done].
        apply IH in Hp as ((hit & Hsub & Hw & Hr) & Hnf); [|by eapply tells_own].
        rewrite (tells_subscribed _ _ _ _ _ _ Hw1) in Hsub, Hr.
        split; [|intros Hf; apply Hnf; by apply Hnf1].
        eexists. split_and!; [|eapply tells_trans; [|exact Hw1|exact Hw]|].
        -- by apply union_mono_l.
        -- intros N HN HN'. apply Hsub in HN'. unfold subscribed in *. set_solver.
        -- destruct r as [all|]; [|done]. destruct Hr as [-> ->]. split; [done|set_solver].
      * injection Hp as <- <-. apply publish_outcome in E1 as (Hw1 & -> & Hnf1); [|done].
        split; [|intros Hf; by destruct (Hnf1 Hf)].
        destruct Hw1 as [Hw1|Hw1]; eexists; (split_and!; [|exact Hw1|done]); set_solver.
Qed.

(** Where the registry has a user's connections. *)
Definition placed (u : UserId) (w : World) : list ConnectionLocation :=
  omap (location_of u) (scan (map_to_list (live_fields (presence_key u) w))).

(** The nodes an event is for. *)
Definition audience (e : DeliverableEvent) (w : World) : gset NodeId :=
  match recipient e with Some u => owners e (placed u w) | None => dom (nodes w) end.

(** Those of them whose subscriber is subscribed to the channel the event goes out on. *)
Definition listeners (e : DeliverableEvent) (w : World) : gset NodeId :=
  subscribed (λ N, match recipient e with Some _ => node_channel N | None => BROADCAST_CHANNEL end)
    (audience e w) w.

Definition outcome_of (e : DeliverableEvent) (hit : gset NodeId) : FanOutOutcome :=
  match recipient e with
  | Some _ => {| nodes_published := size hit; offline := bool_decide (hit = ∅); was_broadcast := false |}
  | None => {| nodes_published := 0; offline := false; was_broadcast := true |}
  end.

Lemma fan_out_outcome e w w' r : all_own w → fan_out scan e w = (w', r) →
  (∃ hit, hit ⊆ listeners e w ∧ tells e hit w w' ∧
     match r with
     | Ok out => hit = listeners e w ∧ out = outcome_of e (audience e w)
     | Err er => is_retryable er = true
     end) ∧
  (faults w = [] → is_ok r = true).
Proof.
  unfold fan_out, act_bind, listeners, audience, outcome_of. intros Ho. destruct (recipient e) as [u|].
  - unfold resolve, act_bind.
    destruct (redis RegistryUnavailable _ w) as [w1 [found|er]] eqn:E;
      apply redis_outcome in E as [(fs & Hr) Hnf]; simpl in *.
    + assert (w1 = w <| faults := fs |> ∧ found = scan (map_to_list (live_fields (presence_key u) w)))
        as [-> ->] by (destruct Hr as [[-> [= ->]]|[[_ ?]|[_ ?]]]; done).
      destruct (publish_to e ∅ _ _) as [w2 r2] eqn:E2. apply publish_to_outcome in E2 as [Hh Hok]; [|done].
      rewrite difference_empty_L in Hh. destruct Hh as (hit & Hsub & [Hw1 Hw2 Hw3] & Hr2).
      assert (Htells : tells e hit w w2) by (by split).
      destruct r2 as [all|er2]; intros [= <- <-]; split.
      * exists hit. destruct Hr2 as [-> ->]. by rewrite (left_id_L ∅ (∪)).
      * done.
      * exists hit. by subst.
      * intros Hf. apply Hok. by destruct (Hnf Hf) as [[= ->] _].
    + intros [= <- <-]. split; [|intros Hf; by destruct (Hnf Hf)].
      exists ∅. assert (er = RegistryUnavailable ∧ w1 = w <| faults := fs |>) as [-> ->]
        by (destruct Hr as [[_ ?]|[[-> [= ->]]|[-> [= ->]]]]; done).
      split_and!; [set_solver| |done]. destruct (tells_refl e w). by split.
  - unfold broadcast. destruct (spublish BROADCAST_CHANNEL (frame e) w) as [w1 r1] eqn:E.
    apply (spublish_outcome e _ (dom (nodes w))) in E as (Hw & Hr & Hnf).
    2: { intros N n Hn _. by eapply elem_of_dom_2. }
    destruct r1 as [[]|er]; intros [= <- <-]; split; try done.
    + eexists. split; [|split; [exact Hr|done]]. done.
    + subst. destruct Hw as [Hw|Hw]; eexists; (split_and!; [|exact Hw|done]); set_solver.
    + intros Hf. by destruct (Hnf Hf).
Qed.

(** C17. A record of an upstream topic is acknowledged only once Redis has accepted its
    event for every node it is for: the event is then at the end of the inbox of each of
    those nodes that is subscribed, once, and a node whose subscription has failed gets
    nothing, since a publication reaches whoever is subscribed and confirms nothing.  A
    failure of the registry or of a publication leaves the record to be retried, with the
    event in some of those inboxes already; only a record that does not map is rejected. *)
Theorem records_are_acknowledged_once_published {T} validation_text
    (map : T → result RealtimeError (option DeliverableEvent)) record w w' o :
  all_own w → fanout_process scan validation_text map record w = (w', o) →
  match map record with
  | Ok None => w' = w ∧ o = Done
  | Ok (Some e) =>
      ∃ hit, hit ⊆ listeners e w ∧ tells e hit w w' ∧
        (o = Done ∧ hit = listeners e w ∨ ∃ reason, o = Retry reason) ∧
        (faults w = [] → o = Done)
  | Err er => w' = w ∧ (is_retryable er = false → ∃ reason, o = Reject reason)
  end.
Proof.
  intros Ho. unfold fanout_process. destruct (map record) as [[e|]|er]; simpl.
  - unfold act_bind. destruct (fan_out scan e w) as [w1 r] eqn:E.
    apply fan_out_outcome in E as [(hit & Hsub & Hw & Hr) Hok]; [|done].
    destruct r as [out|er]; simpl; intros [= <- <-]; exists hit; (split_and!; [done|done| |]).
    + left. by destruct Hr as [-> _].
    + done.
    + right. unfold from_result. simpl in *. rewrite Hr. by eexists.
    + intros Hf. by specialize (Hok Hf).
  - by intros [= <- <-].
  - intros [= <- <-]. split; [done|]. intros Hr. unfold from_result. simpl in *. rewrite Hr. by eexists.
Qed.

(** With every subscriber up, the nodes of the audience are the ones told. *)
Lemma tuned_listeners e w N n :
  nodes w !! N = Some n → tuned N n → N ∈ audience e w → N ∈ listeners e w.
Proof.
  intros Hn Ht Ha. unfold listeners, subscribed. rewrite elem_of_filter, Hn. split; [|done]. simpl.
  rewrite (tuned_hears N) by done. apply bool_decide_eq_true. unfold subscriptions_of.
  destruct (recipient e); set_solver.
Qed.

(** ** The gateway *)

Section Gateway.
Context (send_queue_cap : nat) (validation_text : Cqrs.ValidationError → string).

Notation deliver_one := (deliver_one send_queue_cap).
Notation deliver_to := (deliver_to send_queue_cap).
Notation subscriber_turn := (subscriber_turn send_queue_cap).
Notation step := (step send_queue_cap validation_text).

Lemma deliver_to_lives e only hs n c : NoDup hs →
  lives (deliver_to hs e only n).1 !! c =
    if decide (c ∈ hs) then (λ l, (deliver_one e only l).1) <$> lives n !! c else lives n !! c.
Proof.
  intros Hnd. revert n. induction Hnd as [|h hs Hnin _ IH]; intros n; simpl; [done|].
  destruct (lives n !! h) as [l|] eqn:E; simpl; rewrite IH; simpl.
  - destruct (decide (c = h)) as [->|Hne].
    + rewrite decide_False, decide_True by (done || left). by rewrite lookup_insert_eq, E.
    + rewrite lookup_insert_ne by done. apply decide_ext. rewrite elem_of_cons. tauto.
  - destruct (decide (c ∈ hs)), (decide (c ∈ h :: hs)); try set_solver.
    assert (c = h) as -> by set_solver. by rewrite E.
Qed.

(** The tables and the inbox are not touched. *)
Lemma deliver_to_tables e only hs n :
  let n' := (deliver_to hs e only n).1 in
  by_user n' = by_user n ∧ by_channel n' = by_channel n ∧ listening n' = listening n ∧ inbox n' = inbox n.
Proof.
  revert n. induction hs as [|h hs IH]; intros n; simpl; [done|].
  destruct (lives n !! h) as [l|]; simpl; [|apply IH]. exact (IH (n <| lives := <[h := (deliver_one e only l).1]> (lives n) |>)).
Qed.

(** Whether a connection takes an event, and what it then gets. *)
Definition takes (e : DeliverableEvent) (only : option DeviceId) (l : Live) : bool :=
  device_matches only (pinned_device l) && is_subscribed (conn l) (channel e) &&
  negb (bool_decide (state (conn l) = Closed)).

Definition next_on (k : Connection) (ch : ChannelRef) : Z :=
  from_option next 0 (channels (subscriptions k) !! ch).

Definition roomy (l : Live) : bool := receiving l && Nat.ltb (length (outbox l)) send_queue_cap.

Lemma deliver_one_spec e only l :
  let l' := (deliver_one e only l).1 in
  let f := event_frame (channel e) (next_on (conn l) (channel e)) e in
  outbox l' = (if takes e only l && roomy l then outbox l ++ [f] else outbox l) ∧
  shed l' = (if takes e only l && negb (roomy l) then shed l ++ [f] else shed l) ∧
  written l' = written l ∧ pinned_device l' = pinned_device l.
Proof.
  unfold RealtimeGateway.deliver_one, takes, stamp. destruct (device_matches _ _); simpl; [|done].
  destruct (is_subscribed (conn l) (channel e)) eqn:Hs; simpl; [|done].
  apply is_subscribed_true in Hs as [q Hq]. unfold issue_seq.
  destruct (decide (state (conn l) = Closed)) as [Hc|Hc].
  - by rewrite bool_decide_true.
  - rewrite bool_decide_false by done. unfold on_subscriptions, set_issue_seq, on_sequence, next_on.
    rewrite Hq. simpl. unfold try_send, roomy. simpl. by destruct (_ && _).
Qed.

(** The handles a node delivers an event to. *)
Definition handles (e : DeliverableEvent) (n : Node) : list ConnectionId :=
  match recipient e with
  | Some u => default [] (by_user n !! u)
  | None => default [] (by_channel n !! channel_str (channel e))
  end.

Definition filter_of (e : DeliverableEvent) : option DeviceId :=
  match recipient e with Some _ => event_device e | None => None end.

(** A turn of the subscriber on a message that carries [e]. *)
Lemma subscriber_turn_event e n rest :
  event_wf e → decode_envelope (frame e) = Some (envelope_to_pb e) → inbox n = frame e :: rest →
  subscriber_turn n = (deliver_to (handles e n) e (filter_of e) (n <| inbox := rest |>)).1.
Proof.
  intros Hwf Hd Hi. unfold RealtimeGateway.subscriber_turn, handle_message. rewrite Hi, Hd.
  assert (Hr : envelope_from_pb (envelope_to_pb e) = Ok e) by (by apply envelope_round_trip).
  rewrite Hr. unfold is_broadcast, deliver, deliver_broadcast, handles, filter_of.
  destruct (recipient e) as [u|]; simpl; [by destruct (by_user n !! u)|].
  by destruct (by_channel n !! channel_str (channel e)).
Qed.

(** ** A handler of the node, run alone, is a run of steps *)

Lemma delivery_runs e only hs s : subscriber s = Delivering e only hs →
  (∀ h, h ∈ hs → is_Some (lives (node s) !! h)) →
  rtc step s (s <| node := (deliver_to hs e only (node s)).1 |> <| subscriber := Idle |>).
Proof.
  revert s. induction hs as [|h hs IH]; intros s Hsub Hl; simpl.
  - apply rtc_once. destruct s. by apply step_done with e only.
  - destruct (Hl h) as [l E]; [left|]. rewrite E. simpl.
    assert (Hrest : ∀ l' h', h' ∈ hs → is_Some (<[h := l']> (lives (node s)) !! h')).
    { intros l' h' Hh'. apply lookup_insert_is_Some'. right. apply Hl. by right. }
    assert (Hnext : ∀ l', rtc step (put h l' s <| subscriber := Delivering e only hs |>)
      (s <| node := (deliver_to hs e only (node s <| lives := <[h := l']> (lives (node s)) |>)).1 |>
         <| subscriber := Idle |>)).
    { intros l'. exact (IH (put h l' s <| subscriber := Delivering e only hs |>) eq_refl (Hrest l')). }
    eapply rtc_l; [by eapply step_handle|]. unfold stamp_for, RealtimeGateway.deliver_one.
    destruct (device_matches only (pinned_device l)); [|apply Hnext].
    destruct (stamp e l) as [l' [f|]] eqn:Est; simpl; [|apply Hnext].
    eapply rtc_l; [eapply (step_send _ _ _ e only hs h f l'); [done|apply lookup_insert_eq]|].
    unfold put at 1. simpl. rewrite insert_insert_eq. apply Hnext.
Qed.

(** Every handle in the tables has its connection. *)
Lemma handles_live s e h : in_sync s → h ∈ handles e (node s) → is_Some (lives (node s) !! h).
Proof.
  intros Hs. unfold handles. destruct (recipient e) as [u|].
  - intros (l & p & Hl & _)%(index_elem _ _ (sync_users _ Hs)). by exists l.
  - intros (l & p & ch & Hl & _)%(index_elem _ _ (sync_channels _ Hs)). by exists l.
Qed.

Lemma turn_runs s m rest : in_sync s → subscriber s = Idle → inbox (node s) = m :: rest →
  rtc step s (s <| node := subscriber_turn (node s) |>).
Proof.
  intros Hs Hsub Hi. unfold RealtimeGateway.subscriber_turn. rewrite Hi. unfold handle_message.
  set (s1 := s <| node := node s <| inbox := rest |> |>).
  assert (Hfirst : step s (s1 <| subscriber := taken m (node s) |>)) by (by eapply step_message).
  assert (Hidle : s1 <| subscriber := Idle |> = s1) by (unfold s1; destruct s; simpl in *; by subst).
  assert (Hgo : ∀ e, taken m (node s) = Delivering e (filter_of e) (handles e (node s)) →
    rtc step s (s1 <| node := (deliver_to (handles e (node s)) e (filter_of e) (node s1)).1 |>)).
  { intros e He. rewrite He in Hfirst. eapply rtc_l; [exact Hfirst|].
    pose proof (delivery_runs e (filter_of e) (handles e (node s))
      (s1 <| subscriber := Delivering e (filter_of e) (handles e (node s)) |>) eq_refl) as Hr.
    simpl in Hr. rewrite <- Hsub in Hr. apply Hr. intros h Hh. by eapply handles_live. }
  unfold taken in Hfirst, Hgo. destruct (decode_envelope m) as [env|].
  2: { rewrite Hidle in Hfirst. by apply rtc_once. }
  destruct (envelope_from_pb env) as [e|].
  2: { rewrite Hidle in Hfirst. by apply rtc_once. }
  specialize (Hgo e). unfold handles, filter_of in Hgo. unfold is_broadcast, deliver, deliver_broadcast.
  simpl. destruct (recipient e) as [u|].
  - destruct (by_user (node s) !! u) as [hs|] eqn:E; simpl in *; rewrite ?E; [by apply Hgo|].
    rewrite Hidle in Hfirst. by apply rtc_once.
  - destruct (by_channel (node s) !! channel_str (channel e)) as [hs|] eqn:E; simpl in *; rewrite ?E;
      [by apply Hgo|]. rewrite Hidle in Hfirst. by apply rtc_once.
Qed.

Lemma perform_runs now c ts s : phases s !! c = Some (Serving ts) →
  rtc step s (at_phase c (Serving [])
                (s <| node := perform_all send_queue_cap validation_text now c ts (node s) |>)).
Proof.
  revert s. induction ts as [|t ts IH]; intros s Hp; simpl.
  - unfold at_phase. rewrite insert_id by done. by destruct s.
  - eapply rtc_l; [by apply (step_task _ _ s c now t ts)|].
    pose proof (IH (at_phase c (Serving ts)
      (s <| node := perform send_queue_cap validation_text now c t (node s) |>))) as Hr.
    unfold at_phase in *. simpl in *. rewrite insert_insert_eq in Hr. apply Hr. apply lookup_insert_eq.
Qed.

Lemma binary_runs now c data s : in_sync s → phases s !! c = Some (Serving []) →
  rtc step s (s <| node := on_binary send_queue_cap validation_text now c data (node s) |>).
Proof.
  intros Hs Hp. destruct (phase_live _ _ _ Hs Hp) as [l Hl].
  unfold on_binary, handle_client_frame, with_live. rewrite (alter_known _ _ _ _ Hl).
  destruct (_ ← map_err MalformedFrame (decode_client data); _) as [intent|e]; simpl.
  - eapply rtc_l; [by apply (step_binary _ _ s c l now (tasks_of intent))|].
    pose proof (perform_runs now c (tasks_of intent) (at_phase c (Serving (tasks_of intent))
      (put c (l <| conn := heartbeat now (conn l) |>) s))) as Hr.
    unfold at_phase in *. simpl in *. rewrite insert_insert_eq, (insert_id _ _ _ Hp) in Hr.
    apply Hr, lookup_insert_eq.
  - apply rtc_once. by apply (step_pong _ _ s c l now).
Qed.

Lemma drop_runs c chs s : phases s !! c = Some (Leaving chs) →
  rtc step s (at_phase c (Leaving []) (s <| node := drop_channels c chs (node s) |>)).
Proof.
  revert s. induction chs as [|ch chs IH]; intros s Hp; simpl.
  - unfold at_phase. rewrite insert_id by done. by destruct s.
  - eapply rtc_l; [by apply (step_drop _ _ s c ch chs)|].
    pose proof (IH (at_phase c (Leaving chs)
      (s <| node := unsubscribe_channel (channel_str ch) c (node s) |>))) as Hr.
    unfold at_phase in *. simpl in *. rewrite insert_insert_eq in Hr. apply Hr. apply lookup_insert_eq.
Qed.

Lemma drop_channels_lives c chs n : lives (drop_channels c chs n) = lives n.
Proof. revert n. induction chs as [|ch chs IH]; intros n; [done|].
  exact (IH (unsubscribe_channel (channel_str ch) c n)). Qed.

Lemma leave_runs c s : in_sync s → phases s !! c = Some (Serving []) →
  rtc step s (at_phase c Ended (s <| node := stop_writer c (leave_table c (node s)) |>)).
Proof.
  intros Hs Hp. destruct (phase_live _ _ _ Hs Hp) as [l Hl]. unfold leave_table. rewrite Hl.
  eapply rtc_l; [by apply (step_leave _ _ s c l)|].
  set (chs := subscribed_channels (conn l)).
  etrans; [apply (drop_runs c chs); apply lookup_insert_eq|].
  eapply rtc_l; [eapply (step_remove _ _ _ c l); simpl; [apply lookup_insert_eq|by rewrite drop_channels_lives]|].
  assert (Hl' : lives (drop_channels c chs (node s)) !! c = Some l) by (by rewrite drop_channels_lives).
  eapply rtc_once. unfold stop_writer, with_live. simpl.
  rewrite (alter_known (λ l, l <| receiving := false |>) _ _ _ Hl').
  match goal with |- step ?a ?b => assert (Heq : b = at_phase c Ended (put c (l <| receiving := false |>) a)) end.
  { unfold at_phase, put. simpl. by rewrite !insert_insert_eq. }
  rewrite Heq. eapply step_end; [simpl; apply lookup_insert_eq|done].
Qed.

(** The step relation of a node has each of its handlers as written among its runs: a
    turn of the subscriber, a binary message of a client from its heartbeat to its last
    channel, and the teardown of a socket, each left undisturbed. *)
Theorem handlers_are_runs s : in_sync s →
  (∀ m rest, subscriber s = Idle → inbox (node s) = m :: rest →
     rtc step s (s <| node := subscriber_turn (node s) |>)) ∧
  (∀ now c data, phases s !! c = Some (Serving []) →
     rtc step s (s <| node := on_binary send_queue_cap validation_text now c data (node s) |>)) ∧
  (∀ c, phases s !! c = Some (Serving []) →
     rtc step s (at_phase c Ended (s <| node := stop_writer c (leave_table c (node s)) |>))).
Proof. intros Hs. split_and!; eauto using turn_runs, binary_runs, leave_runs. Qed.

(** ** From the dispatcher to the queues *)

(** Whether a connection is one the event is for. *)
Definition addressed (e : DeliverableEvent) (l : Live) : bool :=
  takes e (filter_of e) l &&
  match recipient e with Some u => bool_decide (user_id (session (conn l)) = u) | None => true end.

(** A served connection among the handles is one of the recipient's, or one subscribed. *)
Lemma served_handle s e c l todo : in_sync s →
  lives (node s) !! c = Some l → phases s !! c = Some (Serving todo) →
  takes e (filter_of e) l && bool_decide (c ∈ handles e (node s)) = addressed e l.
Proof.
  intros Hs Hl Hp. unfold addressed, handles. destruct (takes e (filter_of e) l) eqn:Ht; [|done]. simpl.
  destruct (recipient e) as [u|].
  - apply bool_decide_ext.
    rewrite (index_elem _ _ (sync_users _ Hs)), (users_known s u c l _ Hl Hp). naive_solver.
  - apply bool_decide_eq_true. apply (index_elem _ _ (sync_channels _ Hs)).
    apply (channels_known s _ c l _ Hl Hp). exists (channel e). split; [|done]. simpl.
    unfold takes in Ht. by apply andb_prop in Ht as [[_ ?]%andb_prop _].
Qed.

(** C16. An event given to the dispatcher while Redis works arrives: on each node it is for,
    whose subscriber has caught up, every connection being served ends up with exactly one
    frame more, the event under the next number of its channel, if the event is for it and
    its queue has room, and with none otherwise. *)
Theorem events_reach_their_connections e w N s channels :
  rtc step (idle_node channels) s → nodes w !! N = Some (node s) → inbox (node s) = [] →
  all_tuned w → faults w = [] → N ∈ audience e w →
  event_wf e → decode_envelope (frame e) = Some (envelope_to_pb e) →
  ∃ w' n', fan_out scan e w = (w', Ok (outcome_of e (audience e w))) ∧
    nodes w' !! N = Some n' ∧ inbox (subscriber_turn n') = [] ∧
    ∀ c l todo, lives (node s) !! c = Some l → phases s !! c = Some (Serving todo) →
      ∃ l', lives (subscriber_turn n') !! c = Some l' ∧ written l' = written l ∧
        outbox l' = if addressed e l && roomy l
                    then outbox l ++ [event_frame (channel e) (next_on (conn l) (channel e)) e]
                    else outbox l.
Proof.
  intros Hrun HN Hin Ht Hf Haud Hwf Hd.
  pose proof (sync_runs _ _ _ _ Hrun (sync_idle channels)) as Hs.
  destruct (fan_out scan e w) as [w' r] eqn:E.
  apply fan_out_outcome in E as [(hit & _ & Hw & Hr) Hok]; [|by apply all_tuned_own].
  specialize (Hok Hf). destruct r as [out|]; [|done]. destruct Hr as [-> ->].
  exists w', (push (frame e) (node s)). split_and!; [done| | |].
  - rewrite (tells_nodes _ _ _ _ Hw), HN. simpl. unfold told. rewrite decide_True; [done|].
    eapply tuned_listeners; [exact HN|by apply Ht|exact Haud].
  - rewrite (subscriber_turn_event e _ []); [|done|done|by simpl; rewrite Hin].
    by rewrite (proj2 (proj2 (proj2 (deliver_to_tables e (filter_of e) _ _)))).
  - intros c l todo Hl Hp. rewrite (subscriber_turn_event e _ []); [|done|done|by simpl; rewrite Hin].
    change (handles e (push (frame e) (node s))) with (handles e (node s)).
    rewrite deliver_to_lives; simpl.
    2: { unfold handles. destruct (recipient e); [eapply index_NoDup, Hs|eapply index_NoDup, Hs]. }
    rewrite <- (served_handle s e c l todo Hs Hl Hp), Hl.
    destruct (deliver_one_spec e (filter_of e) l) as (Ho & _ & Hw1 & _).
    destruct (decide (c ∈ handles e (node s))) as [Hc|Hc]; simpl; eexists; (split_and!; [done| |]).
    + done.
    + by rewrite (bool_decide_true (c ∈ _)), andb_true_r.
    + done.
    + by rewrite (bool_decide_false (c ∈ _)), andb_false_r.
Qed.

End Gateway.

(** A placement in the registry counts until its hash expires. *)
Lemma bound_is_placed ttl_ms u d c N v w w' :
  (∀ l, scan l ≡ₚ l) → placement_json d N = Ok v → parse_placement v = Some (d, N) →
  text_ok d → text_ok N → text_ok c → faults w = [] → 0 < ttl_ms →
  bind ttl_ms {| loc_user := u; loc_device := d; loc_connection := c; loc_node := N |} w = (w', Ok tt) →
  {| loc_user := u; loc_device := d; loc_connection := c; loc_node := N |} ∈ placed u w'.
Proof.
  intros Hscan Hj Hp Hd HN Hc Hf Ht. unfold bind, act_bind, lift. simpl. rewrite Hj. simpl.
  unfold redis. rewrite Hf. intros [= <-]. unfold placed. rewrite list_elem_of_omap.
  exists (c, v). split.
  - rewrite Hscan, elem_of_map_to_list. unfold live_fields at 1. simpl.
    rewrite lookup_insert_eq. simpl. destruct (Z.ltb_spec (redis_ms w) (redis_ms w + ttl_ms)); [|lia].
    apply lookup_insert_eq.
  - unfold location_of. simpl. rewrite Hp. simpl. unfold DeviceId_new, NodeId_new, ConnectionId_new.
    by rewrite !string_id_text.
Qed.

(** Whatever a node does of its own leaves the registry as it is. *)
Lemma node_keeps_presence N f w : presence_keys (on_node N f w).1 = presence_keys w.
Proof. done. Qed.

(** Only a handshake refreshes a placement.  Once the lifetime of the hash has passed
    since the last one of a user, his events are acknowledged as for a user offline and
    reach no node, however alive his connections are: heartbeats stay on their node. *)
Theorem presence_lapses_under_live_connections ttl_ms l w w1 w2 e :
  (∀ fields, scan fields ≡ₚ fields) → faults w = [] →
  bind ttl_ms l w = (w1, Ok tt) →
  presence_keys w2 = presence_keys w1 → redis_ms w + ttl_ms ≤ redis_ms w2 →
  faults w2 = [] → recipient e = Some (loc_user l) →
  fan_out scan e w2 = (w2, Ok {| nodes_published := 0; offline := true; was_broadcast := false |}).
Proof.
  intros Hscan Hf Hb Hp Ht Hf2 He. unfold bind, act_bind, lift in Hb.
  destruct (map_err _ _) as [v|]; [|done]. unfold redis in Hb. rewrite Hf in Hb.
  injection Hb as <-. simpl in Hp. unfold fan_out. rewrite He. unfold act_bind, resolve, act_bind, redis.
  rewrite Hf2. unfold live_fields. rewrite Hp, lookup_insert_eq. simpl.
  destruct (Z.ltb_spec (redis_ms w2) (redis_ms w + ttl_ms)); [lia|].
  rewrite map_to_list_empty. rewrite (proj1 (Permutation_nil_r _) (Hscan [])). simpl.
  done.
Qed.

End Delivery.

(** ** One node, one connection, one notification *)

#[local] Existing Instances Demo.demo_clock Demo.demo_prost.

Module Fabric.

(** A placement as two lines of text. *)
Fixpoint cut_line (s : string) : option (string * string) :=
  match s with
  | EmptyString => None
  | String a rest =>
      if Ascii.eqb a "010" then Some ("", rest)
      else p ← cut_line rest; Some (String a p.1, p.2)
  end.
#[export] Instance demo_placement : PlacementText := {|
  placement_json d n := Ok (d +:+ String "010" n);
  parse_placement := cut_line |}.

Definition in_order_of (fields : list (string * string)) : list (string * string) := fields.

Definition unbound : World := {|
  presence_keys := ∅; redis_ms := 0; nodes := {["node-1" := node (Demo.after 4)]}; faults := [] |}.
Definition home : World := (bind 120000 {| loc_user := "alice"; loc_device := "phone";
  loc_connection := "c1"; loc_node := "node-1" |} unbound).1.

Lemma home_tuned : all_tuned home.
Proof.
  assert (Hn : nodes home = {["node-1" := node (Demo.after 4)]}) by (vm_compute; reflexivity).
  intros N n. rewrite Hn, lookup_singleton_Some. intros [<- <-]. vm_compute. reflexivity.
Qed.

Lemma home_with fs : all_tuned (home <| faults := fs |>).
Proof.
  generalize home home_tuned. intros w Hw. exact Hw.
Qed.

Lemma alert_wf : event_wf Demo.alert.
Proof. split; [by intros ? [= <-]|by intros ? [=]|done|vm_compute; reflexivity]. Qed.

Definition subscribed_home : Live := default Demo.served (lives (node (Demo.after 4)) !! "c1").

Lemma events_reach_their_connections_witness : ∃ w' n' l',
  fan_out in_order_of Demo.alert home =
    (w', Ok {| nodes_published := 1; offline := false; was_broadcast := false |}) ∧
  nodes w' !! "node-1" = Some n' ∧ lives (subscriber_turn 2 n') !! "c1" = Some l' ∧
  outbox l' = [event_frame (channel Demo.alert) 1 Demo.alert].
Proof.
  destruct (events_reach_their_connections in_order_of 2 Demo.no_text Demo.alert home "node-1" (Demo.after 4)
              Demo.tuned_to) as (w' & n' & Hf & Hn & _ & Hl).
  - apply Demo.after_runs. lia.
  - vm_compute. reflexivity.
  - vm_compute. reflexivity.
  - exact home_tuned.
  - vm_compute. reflexivity.
  - apply (bool_decide_unpack _). vm_compute. exact I.
  - exact alert_wf.
  - reflexivity.
  - destruct (Hl "c1" subscribed_home []) as (l' & Hl' & _ & Ho); [vm_compute; reflexivity..|].
    exists w', n', l'. split_and!; [|done|done|].
    + rewrite Hf. do 2 f_equal.
    + rewrite Ho. vm_compute. reflexivity.
Defined.

(** Two minutes later, her socket answering pings all along. *)
Lemma presence_lapses_under_live_connections_witness :
  let later := (on_node "node-1" (on_pong (119 * SECOND) "c1") home).1 <| redis_ms := 120000 |> in
  fan_out in_order_of Demo.alert later =
    (later, Ok {| nodes_published := 0; offline := true; was_broadcast := false |}).
Proof.
  apply (presence_lapses_under_live_connections in_order_of 120000
    {| loc_user := "alice"; loc_device := "phone"; loc_connection := "c1"; loc_node := "node-1" |}
    unbound home); [done|done|reflexivity|reflexivity|by vm_compute|by vm_compute|done].
Defined.

(** The same record while the node channel is down. *)
Lemma records_are_acknowledged_once_published_witness : ∃ reason,
  (fanout_process in_order_of Demo.no_text (λ e, Ok (Some e)) Demo.alert
     (home <| faults := [None; Some Refused] |>)).2 = Retry reason.
Proof.
  destruct (fanout_process in_order_of Demo.no_text (λ e, Ok (Some e)) Demo.alert
     (home <| faults := [None; Some Refused] |>)) as [w' o] eqn:E.
  pose proof (records_are_acknowledged_once_published in_order_of Demo.no_text (λ e, Ok (Some e))
    Demo.alert _ w' o (all_tuned_own _ (home_with _)) E) as (hit & _ & _ & [[-> _]|Hr] & _); [|exact Hr].
  vm_compute in E. discriminate E.
Defined.

Lemma handlers_are_runs_witness :
  rtc (step 2 Demo.no_text) (Demo.after 5)
    (Demo.after 5 <| node := subscriber_turn 2 (node (Demo.after 5)) |>).
Proof.
  apply (handlers_are_runs 2 Demo.no_text (Demo.after 5)) with [] [].
  - eapply sync_runs; [|apply sync_idle].
    apply Demo.after_runs. lia.
  - vm_compute. reflexivity.
  - vm_compute. reflexivity.
Defined.

End Fabric.
