(* ===== verification/EdgeTokenGates.v ===== *)
(** * Edge tokens at the gates of other services

    The tokens that [auth] mints, at the two gates of this library that verify them with
    the default claims extractor: the gRPC surface of [audit] and the handshake of
    [realtime]. *)

From S2P Require Import Prelude.
From S2P Require AuthDomain AuditAccess RealtimeDomain RealtimeGateway.
From S2P Require Import EdgeToken EdgeTokenProofs.
From stdpp Require Import list.
Import EdgeToken.Minter.
Local Open Scope Z_scope.

(** The claim that names the device, in [realtime]'s default configuration. *)
Definition DEFAULT_DEVICE_CLAIM : string := "did".

Section Gates.
Context `{JwtLaws} `{TextLaws}.

(** The decoder of audit's gate: the principal and its permissions. *)
Definition audit_decode (config : AuthContext.AuthContextConfig) (keys : gmap string DecodingKey)
    (now : Z) (token : string) : option (string * list string) :=
  match AuthContext.gateway_decode config keys now token with
  | Ok p => Some (AuthContext.user_id p, AuthContext.permissions p)
  | Err _ => None
  end.

(** C40. Whatever its permissions, no token that [auth] mints opens either gate: the minter
    writes no device claim, so that the realtime handshake of the default configuration
    rejects it, and it writes the permissions where the default extractor does not look, so
    that every guarded audit call is denied to its bearer. *)
Theorem minted_tokens_open_no_gate m c t config keys now :
  representable c → mint_access m c = Ok t →
  (∀ s, RealtimeGateway.verify config keys DEFAULT_DEVICE_CLAIM t now ≠ Ok s) ∧
  (∀ header permission denial caller, AuditAccess.bearer_of header = Some t →
     AuditAccess.authorize (AuditAccess.AuthContextCallerGate (audit_decode config keys now))
       header permission denial ≠ Ok caller).
Proof.
  intros Hc Hm. split.
  - intros s. unfold RealtimeGateway.verify.
    destruct (AuthContext.gateway_decode config keys _ t) as [p|e] eqn:E; [|done].
    apply (gateway_decode_minted m c) in E as ->; [|done..]. simpl.
    destruct (RealtimeDomain.UserId_new _) as [u|]; [|done]. simpl.
    destruct (from_timestamp _ 0) as [expiry|]; [|done]. simpl.
    destruct (expiry <=? now); [done|].
    by rewrite (other_claims_None (edge_claims m c) DEFAULT_DEVICE_CLAIM) by reflexivity.
  - intros header permission denial caller Hb. unfold AuditAccess.authorize, AuditAccess.AuthContextCallerGate.
    rewrite Hb. simpl. unfold audit_decode.
    destruct (AuthContext.gateway_decode config keys now t) as [p|e] eqn:E; [|done].
    apply (gateway_decode_minted m c) in E as ->; [|done..]. simpl.
    unfold AuditAccess.require. simpl. by rewrite bool_decide_false by set_solver.
Qed.

End Gates.

(** A token that verifies, of an account that may record. *)
Lemma minted_tokens_open_no_gate_witness :
  audit_decode AuthContext.default_config {["k1" := 0%nat; "k2" := 0%nat]} 600 "edge" = Some ("|||", []) ∧
  (∀ caller, AuditAccess.authorize (AuditAccess.AuthContextCallerGate
     (audit_decode AuthContext.default_config {["k1" := 0%nat; "k2" := 0%nat]} 600))
     (Some "Bearer edge") AuditAccess.PERM_RECORD AuditChain.CallerUnauthenticated ≠ Ok caller).
Proof.
  destruct (minted_tokens_open_no_gate demo_minter demo_access "edge" AuthContext.default_config
    {["k1" := 0%nat; "k2" := 0%nat]} 600 demo_representable demo_minted) as [_ Ha].
  split; [by vm_compute|]. intros caller. apply Ha. by vm_compute.
Defined.
