(* ===== verification/MediaDomain.v ===== *)
(** * Media: the asset and the values it is made of

    Models [crates/services/media/src/domain] and [error.rs]: kinds, states, the upload
    constraints, content hashes and storage keys, the upload ticket, the [Asset] aggregate
    with its lifecycle and the events it raises.  Instants and durations are nanoseconds; a
    method on [&mut self] returns the asset it leaves, which on an error is the one it got.
    [drain_events] is [pending_events] and the field's reset at its callers. *)

From S2P Require Import Prelude.
From S2P Require Cqrs AccountDomain ModerationDomain SocialGraphDomain.
Import Cqrs(AppError, Severity(..), ValidationError, error_code, http_status, severity,
  is_retryable, category, validation_app_error).
Import AccountDomain(Uuid, UuidText, parse_uuid, hyphenated, StorageError, map_bytes,
  ascii_lower, trim, contains_byte, str_len, storage_http_status, storage_is_retryable).
Import SocialGraphDomain(RedisStorageError).
From stdpp Require Import pretty.
#[local] Existing Instances validation_app_error SocialGraphDomain.Redis.redis_app_error.
Local Open Scope Z_scope.

(** ** Errors: [error.rs], and the rest of [postgres-storage]'s *)

Definition storage_error_code (e : StorageError) : string :=
  match e with
  | AccountDomain.UniqueViolation _ => "DB-1001"
  | AccountDomain.ForeignKeyViolation _ => "DB-1002"
  | AccountDomain.NotNullViolation _ => "DB-1003"
  | AccountDomain.CheckViolation _ => "DB-1004"
  | AccountDomain.Deadlock => "DB-2001"
  | AccountDomain.SerializationFailure => "DB-2002"
  | AccountDomain.PoolTimedOut => "DB-3001"
  | AccountDomain.PoolClosed => "DB-3002"
  | AccountDomain.RowNotFound => "DB-4001"
  | AccountDomain.Migration _ => "DB-5001"
  | AccountDomain.Connection _ => "DB-6001"
  | AccountDomain.Configuration _ => "DB-7001"
  | AccountDomain.ShardNotFound _ => "DB-8001"
  | AccountDomain.ShardRoutingFailed _ => "DB-8002"
  | AccountDomain.Database _ _ => "DB-9000"
  end.

Definition storage_severity (e : StorageError) : Severity :=
  match e with
  | AccountDomain.UniqueViolation _ | AccountDomain.CheckViolation _
  | AccountDomain.RowNotFound => Low
  | AccountDomain.ForeignKeyViolation _ | AccountDomain.NotNullViolation _
  | AccountDomain.Database _ _ => Medium
  | AccountDomain.Deadlock | AccountDomain.SerializationFailure | AccountDomain.PoolTimedOut
  | AccountDomain.Connection _ => High
  | AccountDomain.PoolClosed | AccountDomain.Migration _ | AccountDomain.Configuration _
  | AccountDomain.ShardNotFound _ | AccountDomain.ShardRoutingFailed _ => Critical
  end.

#[export] Instance storage_app_error : AppError StorageError := {
  error_code := storage_error_code;
  http_status := storage_http_status;
  severity := storage_severity;
  is_retryable := storage_is_retryable;
  category _ := "DB";
}.

Inductive MediaError :=
  | Storage (e : StorageError)
  | Cache (e : RedisStorageError)
  | Validation (e : ValidationError)
  | InvalidMediaKind (kind : string)
  | UnsupportedMimeType (mime : string)
  | UploadSizeExceeded (limit actual : Z)
  | UploadTicketExpired
  | UploadNotFinalized
  | AssetNotFound (id : string)
  | InvalidStateTransition (from to : string)
  | ConcurrentModification
  | AssetAlreadyExists (id : string)
  | TranscodeFailed (reason : string)
  | UnsupportedCodec (codec : string)
  | RenditionNotFound (spec : string)
  | ProcessingFailed (reason : string)
  | ObjectStoreUnavailable
  | ObjectStoreTimeout
  | PresignFailed (reason : string)
  | ObjectNotFound (key : string)
  | DeliverySigningFailed (reason : string)
  | CdnInvalidationFailed (reason : string)
  | ManifestBuildFailed (reason : string)
  | ContentTypeMismatch (declared actual : string)
  | CorruptMedia (reason : string)
  | DimensionLimitExceeded
  | MalwareDetected
  | AssetQuarantinedError
  | ScreenUnavailable
  | LegalHoldActive
  | EventDecodeFailed (topic reason : string)
  | UnknownEventType (event_type : string)
  | UnmappedSource (reason : string)
  | DomainViolation (field message : string)
  | InvalidIdentifier (s : string)
  | EventPublishFailed (text : string)
  | EventConsumeFailed (text : string).

Abbreviation outcome := (result MediaError).

#[export] Instance media_app_error : AppError MediaError := {
  error_code e :=
    match e with
    | Storage e => error_code e | Cache e => error_code e | Validation e => error_code e
    | InvalidMediaKind _ => "MED-1001" | UnsupportedMimeType _ => "MED-1002"
    | UploadSizeExceeded _ _ => "MED-1003" | UploadTicketExpired => "MED-1004"
    | UploadNotFinalized => "MED-1005"
    | AssetNotFound _ => "MED-2001" | InvalidStateTransition _ _ => "MED-2002"
    | ConcurrentModification => "MED-2003" | AssetAlreadyExists _ => "MED-2004"
    | TranscodeFailed _ => "MED-3001" | UnsupportedCodec _ => "MED-3002"
    | RenditionNotFound _ => "MED-3003" | ProcessingFailed _ => "MED-3004"
    | ObjectStoreUnavailable => "MED-4001" | ObjectStoreTimeout => "MED-4002"
    | PresignFailed _ => "MED-4003" | ObjectNotFound _ => "MED-4004"
    | DeliverySigningFailed _ => "MED-5001" | CdnInvalidationFailed _ => "MED-5002"
    | ManifestBuildFailed _ => "MED-5003"
    | ContentTypeMismatch _ _ => "MED-6001" | CorruptMedia _ => "MED-6002"
    | DimensionLimitExceeded => "MED-6003" | MalwareDetected => "MED-6004"
    | AssetQuarantinedError => "MED-7001" | ScreenUnavailable => "MED-7002"
    | LegalHoldActive => "MED-7003"
    | EventDecodeFailed _ _ => "MED-8001" | UnknownEventType _ => "MED-8002"
    | UnmappedSource _ => "MED-8003"
    | DomainViolation _ _ => "MED-9001" | InvalidIdentifier _ => "MED-9002"
    | EventPublishFailed _ => "MED-9003" | EventConsumeFailed _ => "MED-9004"
    end;
  http_status e :=
    match e with
    | Storage e => http_status e | Cache e => http_status e | Validation e => http_status e
    | AssetNotFound _ | RenditionNotFound _ | ObjectNotFound _ => 404
    | UploadNotFinalized | InvalidStateTransition _ _ | ConcurrentModification
    | AssetAlreadyExists _ => 409
    | UploadTicketExpired => 410
    | UploadSizeExceeded _ _ => 413
    | UnsupportedMimeType _ => 415
    | ObjectStoreUnavailable | ScreenUnavailable => 503
    | ObjectStoreTimeout => 504
    | AssetQuarantinedError | LegalHoldActive => 451
    | TranscodeFailed _ | ProcessingFailed _ | PresignFailed _ | DeliverySigningFailed _
    | CdnInvalidationFailed _ | ManifestBuildFailed _ | EventPublishFailed _
    | EventConsumeFailed _ => 500
    | _ => 422
    end;
  severity e :=
    match e with
    | Storage e => severity e | Cache e => severity e | Validation e => severity e
    | ConcurrentModification | ObjectStoreUnavailable | ObjectStoreTimeout
    | CdnInvalidationFailed _ | MalwareDetected | AssetQuarantinedError | ScreenUnavailable
    | LegalHoldActive => High
    | InvalidStateTransition _ _ | TranscodeFailed _ | UnsupportedCodec _ | ProcessingFailed _
    | PresignFailed _ | DeliverySigningFailed _ | ManifestBuildFailed _
    | ContentTypeMismatch _ _ | CorruptMedia _ | EventDecodeFailed _ _ | UnmappedSource _
    | DomainViolation _ _ | EventPublishFailed _ | EventConsumeFailed _ => Medium
    | _ => Low
    end;
  is_retryable e :=
    match e with
    | Storage e => is_retryable e | Cache e => is_retryable e | Validation e => is_retryable e
    | ConcurrentModification | TranscodeFailed _ | ProcessingFailed _ | ObjectStoreUnavailable
    | ObjectStoreTimeout | PresignFailed _ | DeliverySigningFailed _ | CdnInvalidationFailed _
    | ScreenUnavailable => true
    | _ => false
    end;
  category e :=
    match e with
    | Storage e => category e | Cache e => category e | Validation e => category e
    | _ => "MED"
    end;
}.

(** ** Enumerations *)

(** Reading back a value from its text. *)
Definition of_str {A} (to_str : A → string) (all : list A) (s : string) : option A :=
  snd <$> list_find (λ a, to_str a = s) all.

Inductive MediaKind := Avatar | PostImage | Video.
#[export] Instance media_kind_eq_dec : EqDecision MediaKind.
Proof. solve_decision. Defined.

Definition kind_str (k : MediaKind) : string :=
  match k with Avatar => "avatar" | PostImage => "post_image" | Video => "video" end.
Definition path_segment (k : MediaKind) : string :=
  match k with Avatar => "avatars" | PostImage => "post-images" | Video => "post-videos" end.
Definition allowed_mime_types (k : MediaKind) : list string :=
  match k with
  | Avatar | PostImage => ["image/jpeg"; "image/png"; "image/webp"; "image/avif"]
  | Video => ["video/mp4"; "video/quicktime"]
  end.
Definition kind_max_bytes (k : MediaKind) : Z :=
  match k with
  | Avatar => 10 * 1024 * 1024 | PostImage => 25 * 1024 * 1024 | Video => 200 * 1024 * 1024
  end.
Definition kind_try_from (s : string) : outcome MediaKind :=
  ok_or (of_str kind_str [Avatar; PostImage; Video] s) (InvalidMediaKind s).

Inductive AssetState :=
  | Pending | Uploaded | Processing | Ready | Failed | Quarantined | Deleted.
#[export] Instance asset_state_eq_dec : EqDecision AssetState.
Proof. solve_decision. Defined.

Definition state_str (s : AssetState) : string :=
  match s with
  | Pending => "pending" | Uploaded => "uploaded" | Processing => "processing"
  | Ready => "ready" | Failed => "failed" | Quarantined => "quarantined" | Deleted => "deleted"
  end.
Definition all_states : list AssetState :=
  [Pending; Uploaded; Processing; Ready; Failed; Quarantined; Deleted].
Definition state_try_from (s : string) : outcome AssetState :=
  ok_or (of_str state_str all_states s)
    (DomainViolation "asset_state" ("unknown asset state: '" +:+ s +:+ "'")).

Definition can_transition_to (s next : AssetState) : bool :=
  match s, next with
  | Pending, Uploaded | Uploaded, Processing | Uploaded, Failed | Processing, Ready
  | Processing, Failed => true
  | _, _ => false
  end.
Definition is_terminal (s : AssetState) : bool := bool_decide (s = Deleted).
Definition state_is_deliverable (s : AssetState) : bool := bool_decide (s = Ready).

Inductive RenditionKind :=
  | Original | Thumbnail | Small | MediumSize | Large | Manifest | Poster.
#[export] Instance rendition_kind_eq_dec : EqDecision RenditionKind.
Proof. solve_decision. Defined.

Definition rendition_str (k : RenditionKind) : string :=
  match k with
  | Original => "original" | Thumbnail => "thumbnail" | Small => "small"
  | MediumSize => "medium" | Large => "large" | Manifest => "manifest" | Poster => "poster"
  end.
Definition slug : RenditionKind → string := rendition_str.
Definition is_original (k : RenditionKind) : bool := bool_decide (k = Original).
Definition rendition_try_from (s : string) : outcome RenditionKind :=
  ok_or (of_str rendition_str
           [Original; Thumbnail; Small; MediumSize; Large; Manifest; Poster] s)
    (DomainViolation "rendition_kind" ("unknown rendition kind: '" +:+ s +:+ "'")).

Inductive DeliveryVisibility := Public | Signed.
#[export] Instance visibility_eq_dec : EqDecision DeliveryVisibility.
Proof. solve_decision. Defined.

Definition visibility_str (v : DeliveryVisibility) : string :=
  match v with Public => "public" | Signed => "signed" end.
Definition is_expiring (v : DeliveryVisibility) : bool := bool_decide (v = Signed).
Definition default_visibility : DeliveryVisibility := Public.
Definition visibility_try_from (s : string) : outcome DeliveryVisibility :=
  ok_or (of_str visibility_str [Public; Signed] s)
    (DomainViolation "delivery_visibility" ("unknown delivery visibility: '" +:+ s +:+ "'")).

(** ** Text values *)

Abbreviation AssetId := Uuid.
Abbreviation OwnerId := Uuid.

Definition id_try_from `{UuidText} (s : string) : outcome Uuid :=
  ok_or (parse_uuid s) (InvalidIdentifier s).

(** [str::to_ascii_lowercase] *)
Definition to_ascii_lowercase (s : string) : string := map_bytes ascii_lower s.

(** [s.splitn(2, c)]: what is before the first [c], and what is after it if there is one. *)
Fixpoint splitn2 (c : nat) (s : string) : string * option string :=
  match s with
  | "" => ("", None)
  | String a rest =>
      if byte_is a c then ("", Some rest)
      else let '(t, u) := splitn2 c rest in (String a t, u)
  end%string.

Definition SLASH : nat := 47.

Definition MimeType : Type := string.
Definition mime_new (value : string) : outcome MimeType :=
  let normalized := to_ascii_lowercase (trim value) in
  let ok := match splitn2 SLASH normalized with
            | (t, Some s) => bool_decide (t ≠ "") && bool_decide (s ≠ "")
                             && negb (contains_byte SLASH s)
            | _ => false
            end in
  if ok then Ok normalized else Err (UnsupportedMimeType normalized).

Definition is_image (m : MimeType) : bool := String.prefix "image/" m.
Definition is_video (m : MimeType) : bool := String.prefix "video/" m.

(** [other.split('/').nth(1).unwrap_or(bin)] *)
Definition extension (m : MimeType) : string :=
  if decide (m = "image/jpeg") then "jpg"
  else if decide (m = "image/png") then "png"
  else if decide (m = "image/webp") then "webp"
  else if decide (m = "image/avif") then "avif"
  else if decide (m = "image/gif") then "gif"
  else match splitn2 SLASH m with (_, Some s) => (splitn2 SLASH s).1 | _ => "bin" end.

Definition is_ascii_hexdigit (c : ascii) : bool :=
  byte_in c 48 57 || byte_in c 97 102 || byte_in c 65 70.

Definition ContentHash : Type := string.
Definition hash_new (value : string) : outcome ContentHash :=
  let normalized := to_ascii_lowercase (trim value) in
  if negb (str_len normalized =? 64)
     || negb (forallb is_ascii_hexdigit (String.list_ascii_of_string normalized))
  then Err (DomainViolation "content_hash" "expected a 64-character hex SHA-256 digest")
  else Ok normalized.

Definition Blurhash : Type := string.
Definition BLURHASH_MAX_LEN : Z := 128.
Definition blurhash_new (value : string) : outcome Blurhash :=
  let trimmed := trim value in
  if bool_decide (trimmed = "") || (BLURHASH_MAX_LEN <? str_len trimmed)
  then Err (DomainViolation "blurhash" "blurhash must be non-empty and reasonably short")
  else Ok trimmed.

Record Dimensions := { width : Z; height : Z }.
#[export] Instance dimensions_eq_dec : EqDecision Dimensions.
Proof. solve_decision. Defined.

Definition MAX_PIXELS : Z := 100000000.
(** The sides are [u32], so the product fits a [u64]. *)
Definition pixels (d : Dimensions) : Z := width d * height d.
Definition dimensions_new (w h : Z) : outcome Dimensions :=
  if (w =? 0) || (h =? 0) then Err (CorruptMedia "image has a zero dimension")
  else if MAX_PIXELS <? w * h then Err DimensionLimitExceeded
  else Ok {| width := w; height := h |}.

(** ** Storage keys *)

Definition StorageKey : Type := string.

Definition staging `{UuidText} (id : AssetId) : StorageKey := "uploads/" +:+ hyphenated id.

Definition rendition_key (kind : MediaKind) (hash : ContentHash) (rendition : RenditionKind)
    (ext : string) : StorageKey :=
  path_segment kind +:+ "/" +:+ hash +:+ "/" +:+ slug rendition +:+ "." +:+ ext.

(** [trim_start_matches] of one character. *)
Fixpoint trim_start_matches (c : nat) (s : string) : string :=
  match s with
  | "" => ""
  | String a rest => if byte_is a c then trim_start_matches c rest else s
  end%string.

Definition video_object (kind : MediaKind) (hash : ContentHash) (relative : string) : StorageKey :=
  path_segment kind +:+ "/" +:+ hash +:+ "/" +:+ trim_start_matches SLASH relative.

(** ** Constraints and tickets *)

Record UploadConstraints := { allowed : list string; max_bytes : Z }.

Definition for_kind (k : MediaKind) : UploadConstraints :=
  {| allowed := allowed_mime_types k; max_bytes := kind_max_bytes k |}.

Definition allows (c : UploadConstraints) (m : MimeType) : bool :=
  existsb (λ a, bool_decide (a = m)) (allowed c).

Definition validate (c : UploadConstraints) (m : MimeType) (size_bytes : Z) : outcome unit :=
  if negb (allows c m) then Err (UnsupportedMimeType m)
  else if max_bytes c <? size_bytes then Err (UploadSizeExceeded (max_bytes c) size_bytes)
  else Ok tt.

Record UploadTicket := {
  ticket_asset : AssetId;
  storage_key : StorageKey;
  constraints : UploadConstraints;
  issued_at : Z;
  expires_at : Z;
}.

(** [now + ttl] is chrono's, which panics past its range; clocks stay within it. *)
Definition issue `{UuidText} (id : AssetId) (c : UploadConstraints) (ttl now : Z) :
    outcome UploadTicket :=
  if ttl <=? 0 then Err (DomainViolation "upload_ticket.ttl" "ticket TTL must be positive")
  else Ok {| ticket_asset := id; storage_key := staging id; constraints := c;
             issued_at := now; expires_at := now + ttl |}.

Definition is_valid_at (t : UploadTicket) (now : Z) : bool := now <? expires_at t.

(** ** Events *)

Inductive DomainEvent :=
  | AssetUploaded (asset_id : AssetId) (owner_id : OwnerId) (kind : MediaKind)
      (content_hash : ContentHash) (byte_size : Z) (occurred_at : Z)
  | AssetVariantReady (asset_id : AssetId) (owner_id : OwnerId) (rendition : RenditionKind)
      (occurred_at : Z)
  | AssetReady (asset_id : AssetId) (owner_id : OwnerId) (occurred_at : Z)
  | AssetFailed (asset_id : AssetId) (owner_id : OwnerId) (reason : string) (occurred_at : Z)
  | AssetQuarantined (asset_id : AssetId) (owner_id : OwnerId) (occurred_at : Z)
  | AssetRestored (asset_id : AssetId) (owner_id : OwnerId) (occurred_at : Z)
  | AssetDeleted (asset_id : AssetId) (owner_id : OwnerId) (occurred_at : Z).

Definition event_type (e : DomainEvent) : string :=
  match e with
  | AssetUploaded _ _ _ _ _ _ => "media.asset_uploaded"
  | AssetVariantReady _ _ _ _ => "media.asset_variant_ready"
  | AssetReady _ _ _ => "media.asset_ready"
  | AssetFailed _ _ _ _ => "media.asset_failed"
  | AssetQuarantined _ _ _ => "media.asset_quarantined"
  | AssetRestored _ _ _ => "media.asset_restored"
  | AssetDeleted _ _ _ => "media.asset_deleted"
  end.

Definition event_asset_id (e : DomainEvent) : AssetId :=
  match e with
  | AssetUploaded i _ _ _ _ _ | AssetVariantReady i _ _ _ | AssetReady i _ _
  | AssetFailed i _ _ _ | AssetQuarantined i _ _ | AssetRestored i _ _ | AssetDeleted i _ _ => i
  end.

Definition event_owner_id (e : DomainEvent) : OwnerId :=
  match e with
  | AssetUploaded _ o _ _ _ _ | AssetVariantReady _ o _ _ | AssetReady _ o _
  | AssetFailed _ o _ _ | AssetQuarantined _ o _ | AssetRestored _ o _ | AssetDeleted _ o _ => o
  end.

(** ** The aggregate: [aggregate/asset.rs] *)

Module Rendition.
Record t := mk {
  kind : RenditionKind;
  mime_type : MimeType;
  storage_key : StorageKey;
  dimensions : Dimensions;
  byte_size : Z;
}.
End Rendition.

Record ReserveParams := {
  rp_id : AssetId;
  rp_owner_id : OwnerId;
  rp_kind : MediaKind;
  rp_declared_mime : MimeType;
  rp_declared_size : Z;
}.

Record FinalizeParams := {
  fp_mime_type : MimeType;
  fp_byte_size : Z;
  fp_dimensions : Dimensions;
  fp_content_hash : ContentHash;
}.

Module Asset.
Record t := mk {
  id : AssetId;
  owner_id : OwnerId;
  kind : MediaKind;
  state : AssetState;
  declared_mime : MimeType;
  declared_size : Z;
  mime_type : option MimeType;
  byte_size : option Z;
  dimensions : option Dimensions;
  content_hash : option ContentHash;
  blurhash : option Blurhash;
  renditions : list Rendition.t;
  legal_hold : bool;
  prior_state : option AssetState;
  created_at : Z;
  updated_at : Z;
  pending_events : list DomainEvent;
}.
#[global] Instance fields : Fields t := λ a, {|
  id := id a; owner_id := owner_id a; kind := kind a; state := state a;
  declared_mime := declared_mime a; declared_size := declared_size a; mime_type := mime_type a;
  byte_size := byte_size a; dimensions := dimensions a; content_hash := content_hash a;
  blurhash := blurhash a; renditions := renditions a; legal_hold := legal_hold a;
  prior_state := prior_state a; created_at := created_at a; updated_at := updated_at a;
  pending_events := pending_events a |}.

Definition reserve (p : ReserveParams) (c : UploadConstraints) (now : Z) : outcome t :=
  _ ← validate c (rp_declared_mime p) (rp_declared_size p);
  Ok {| id := rp_id p; owner_id := rp_owner_id p; kind := rp_kind p; state := Pending;
        declared_mime := rp_declared_mime p; declared_size := rp_declared_size p;
        mime_type := None; byte_size := None; dimensions := None; content_hash := None;
        blurhash := None; renditions := []; legal_hold := false; prior_state := None;
        created_at := now; updated_at := now; pending_events := [] |}.

Definition rendition (k : RenditionKind) (a : t) : option Rendition.t :=
  snd <$> list_find (λ r, Rendition.kind r = k) (renditions a).

Definition is_deliverable (a : t) : bool := state_is_deliverable (state a).

Definition transition (next : AssetState) (now : Z) (a : t) : t :=
  a <| state := next |> <| updated_at := now |>.

Definition emit (e : DomainEvent) (a : t) : t :=
  a <| pending_events := pending_events a ++ [e] |>.

Definition ensure_state (expected target : AssetState) (a : t) : outcome unit :=
  if decide (state a = expected) then Ok tt
  else Err (InvalidStateTransition (state_str (state a)) (state_str target)).

Definition finalize (p : FinalizeParams) (c : UploadConstraints) (now : Z) (a : t) : outcome t :=
  _ ← ensure_state Pending Uploaded a;
  _ ← validate c (fp_mime_type p) (fp_byte_size p);
  let a := a <| mime_type := Some (fp_mime_type p) |> <| byte_size := Some (fp_byte_size p) |>
             <| dimensions := Some (fp_dimensions p) |>
             <| content_hash := Some (fp_content_hash p) |> in
  let a := transition Uploaded now a in
  Ok (emit (AssetUploaded (id a) (owner_id a) (kind a) (fp_content_hash p) (fp_byte_size p) now) a).

Definition begin_processing (now : Z) (a : t) : outcome t :=
  _ ← ensure_state Uploaded Processing a; Ok (transition Processing now a).

Definition set_blurhash (b : Blurhash) (now : Z) (a : t) : outcome t :=
  if decide (state a = Uploaded ∨ state a = Processing)
  then Ok (a <| blurhash := Some b |> <| updated_at := now |>)
  else Err (DomainViolation "blurhash"
              ("cannot set a blurhash while '" +:+ state_str (state a) +:+ "'")).

Definition attach_rendition (r : Rendition.t) (now : Z) (a : t) : outcome t :=
  if decide (state a ≠ Processing)
  then Err (InvalidStateTransition (state_str (state a)) "attach_rendition(processing)")
  else match rendition (Rendition.kind r) a with
  | Some _ => Err (DomainViolation "rendition"
      ("a '" +:+ rendition_str (Rendition.kind r) +:+ "' rendition already exists"))
  | None =>
      let a := a <| renditions := renditions a ++ [r] |> <| updated_at := now |> in
      Ok (emit (AssetVariantReady (id a) (owner_id a) (Rendition.kind r) now) a)
  end.

(** The rendition a READY asset of the kind must carry. *)
Definition master (k : MediaKind) : RenditionKind :=
  match k with Video => Manifest | _ => Original end.

Definition mark_ready (now : Z) (a : t) : outcome t :=
  _ ← ensure_state Processing Ready a;
  if decide (content_hash a = None)
  then Err (DomainViolation "content_hash" "cannot mark ready without a finalized content hash")
  else if decide (rendition (master (kind a)) a = None)
  then Err (DomainViolation "renditions"
      ("cannot mark ready without the " +:+ rendition_str (master (kind a)) +:+ " rendition"))
  else Ok (emit (AssetReady (id a) (owner_id a) now) (transition Ready now a)).

Definition mark_failed (reason : string) (now : Z) (a : t) : outcome t :=
  if decide (state a = Uploaded ∨ state a = Processing)
  then Ok (emit (AssetFailed (id a) (owner_id a) reason now) (transition Failed now a))
  else Err (InvalidStateTransition (state_str (state a)) (state_str Failed)).

Definition quarantine (now : Z) (a : t) : outcome t :=
  match state a with
  | Quarantined => Ok a
  | Deleted => Err (InvalidStateTransition (state_str (state a)) (state_str Quarantined))
  | s => Ok (emit (AssetQuarantined (id a) (owner_id a) now)
               (transition Quarantined now (a <| prior_state := Some s |>)))
  end.

Definition restore (now : Z) (a : t) : outcome t :=
  if decide (state a ≠ Quarantined)
  then Err (InvalidStateTransition (state_str (state a)) "restore")
  else
    let target := default Ready (prior_state a) in
    Ok (emit (AssetRestored (id a) (owner_id a) now)
          (transition target now (a <| prior_state := None |>))).

Definition place_legal_hold (now : Z) (a : t) : t :=
  a <| legal_hold := true |> <| updated_at := now |>.
Definition lift_legal_hold (now : Z) (a : t) : t :=
  a <| legal_hold := false |> <| updated_at := now |>.

Definition delete (now : Z) (a : t) : outcome t :=
  if legal_hold a then Err LegalHoldActive
  else if decide (state a = Deleted) then Ok a
  else Ok (emit (AssetDeleted (id a) (owner_id a) now) (transition Deleted now a)).

(** What serde keeps of an asset: [pending_events] is skipped and comes back empty. *)
Definition stored (a : t) : t := a <| pending_events := [] |>.

(** [for rendition in renditions { asset.attach_rendition(rendition, now)?; }] *)
Fixpoint attach_all (rs : list Rendition.t) (now : Z) (a : t) : outcome t :=
  match rs with
  | [] => Ok a
  | r :: rs => a ← attach_rendition r now a; attach_all rs now a
  end.
End Asset.
