(* ===== verification/MediaStore.v ===== *)
(** * Media: the stores behind the ports

    Models [crates/services/media/src/infrastructure] down to the calls it makes: the
    [assets] table, the Redis delivery cache, the object store with its pre-signed URLs, the
    Kafka topic, the moderation gate.  A call is a [call], [answer] is what the backends do
    with it under a fault, and the adapters are programs over calls ([Prog]).  A failed call
    may have taken effect before its error reached the service.  The clock is one for the
    service and its backends. *)

From S2P Require Import Prelude Prog MediaDomain.
From S2P Require AccountDomain ModerationStore ModerationEdge SocialGraphDomain.
Import AccountDomain(Uuid, UuidText, parse_uuid, hyphenated, StorageError).
Import SocialGraphDomain(RedisStorageError).
From stdpp Require Import pretty.
Local Open Scope Z_scope.
Local Open Scope prog_scope.

Definition Bytes : Type := string.
Definition SECONDS : Z := 10 ^ 9.

(** [rusty_s3]: the URL that grants a PUT or a GET of a key for [ttl], signed at an instant
    for the internal or the public host. *)
Class UrlSigner := {
  sign_put : bool → StorageKey → Z → Z → string;
  sign_get : bool → StorageKey → Z → Z → string;
}.

(** ** The world *)

(** A row of [assets]; only [doc], [state] and [content_hash] are ever read. *)
Record AssetRow := {
  row_owner_id : Uuid; row_kind : string; row_state : string; row_content_hash : option string;
  row_created_at : Z; row_updated_at : Z; doc : Asset.t;
}.
#[export] Instance row_fields : Fields AssetRow := λ r, {|
  row_owner_id := row_owner_id r; row_kind := row_kind r; row_state := row_state r;
  row_content_hash := row_content_hash r; row_created_at := row_created_at r;
  row_updated_at := row_updated_at r; doc := doc r |}.

Module EventEnvelope.
Record t := mk {
  topic : string; key : string; payload : DomainEvent; headers : gmap string string;
}.
End EventEnvelope.

(** What moderation answers a [Screen] call. *)
Record ScreenResponse := {
  verdict : Z; matched_categories : list Z; match_reference : string;
}.

Record World := {
  assets : gmap Uuid AssetRow;
  cache : gmap string (Asset.t * Z);              (* the cached asset, and when it expires *)
  objects : gmap StorageKey Bytes;
  grants : list (StorageKey * Z);                 (* upload URLs handed out, and their end *)
  topic : list EventEnvelope.t;
  screened : list (ModerationEdge.Pb.ScreenRequest * ScreenResponse);   (* moderation's answers *)
  clock : Z;
}.
#[export] Instance world_fields : Fields World := λ w, {|
  assets := assets w; cache := cache w; objects := objects w; grants := grants w;
  topic := topic w; screened := screened w; clock := clock w |}.

(** ** Calls *)

Record Response := {
  status : Z; content_range : option string; content_length : option string; body : Bytes;
}.

(** What [reqwest] reports: a timeout or anything else. *)
Inductive HttpError := HttpTimeout | HttpFailed.

Inductive call :=
  | Now
  | SelectAsset (id : Uuid)
  | SelectReady (content_hash : string)
  | UpsertAsset (id : Uuid) (row : AssetRow)
  | RedisGet (key : string)
  | RedisSet (key : string) (value : Asset.t) (ttl : Z)
  | RedisDel (key : string)
  | HttpGet (key : StorageKey) (ranged : bool)
  | HttpPut (key : StorageKey) (content : Bytes) (content_type : string)
  | HttpDelete (key : StorageKey)
  | SignUpload (key : StorageKey) (ttl : Z)
  | SignDownload (key : StorageKey) (ttl : Z)
  | Screen (req : ModerationEdge.Pb.ScreenRequest)
  | Produce (e : EventEnvelope.t).

Definition reply (c : call) : Type :=
  match c with
  | Now => Z
  | SelectAsset _ | SelectReady _ => result StorageError (option Asset.t)
  | UpsertAsset _ _ => result StorageError unit
  | RedisGet _ => result RedisStorageError (option Asset.t)
  | RedisSet _ _ _ => result RedisStorageError unit
  | RedisDel _ => result RedisStorageError Z
  | HttpGet _ _ | HttpPut _ _ _ | HttpDelete _ => result HttpError Response
  | SignUpload _ _ | SignDownload _ _ => string
  | Screen _ => option (result unit ScreenResponse)       (* [None]: the timer was first *)
  | Produce _ => result string unit
  end.

Abbreviation program := (prog call reply).

(** Statuses with which an object store turns a request down. *)
Inductive Refusal := Forbidden | InternalError | SlowDown.
Definition refusal_status (r : Refusal) : Z :=
  match r with Forbidden => 403 | InternalError => 500 | SlowDown => 503 end.

Inductive fault :=
  | Fine
  | PgFault (applied : bool) (e : StorageError)
  | PgRow (n : nat)                    (* which row a [LIMIT 1] without an order yields *)
  | RedisFault (applied : bool) (e : RedisStorageError)
  | HttpFault (applied : bool) (e : HttpError)
  | HttpRefused (r : Refusal)
  | ScreenSays (r : ScreenResponse)
  | ScreenElapsed
  | KafkaFault (applied : bool) (text : string).

Section Backends.
Context `{UrlSigner}.

Definition postgres {A} (f : fault) (effect : World → World) (r : World → A) (w : World) :
    World * result StorageError A :=
  match f with
  | PgFault applied e => (if applied then effect w else w, Err e)
  | _ => (effect w, Ok (r w))
  end.

Definition redis {A} (f : fault) (effect : World → World) (r : World → A) (w : World) :
    World * result RedisStorageError A :=
  match f with
  | RedisFault applied e => (if applied then effect w else w, Err e)
  | _ => (effect w, Ok (r w))
  end.

Definition http (f : fault) (effect : World → World) (r : World → Response) (w : World) :
    World * result HttpError Response :=
  match f with
  | HttpFault applied e => (if applied then effect w else w, Err e)
  | HttpRefused x =>
      (w, Ok {| status := refusal_status x; content_range := None; content_length := None;
                body := "" |})
  | _ => (effect w, Ok (r w))
  end.

Definition plain (s : Z) (b : Bytes) : Response :=
  {| status := s; content_range := None;
     content_length := Some (pretty (Z.of_nat (String.length b))); body := b |}.

(** S3's GET: [bytes=0-0] of an empty object is not satisfiable. *)
Definition get_object (key : StorageKey) (ranged : bool) (w : World) : Response :=
  match objects w !! key with
  | None => plain 404 ""
  | Some b =>
      if ranged then
        match b with
        | "" => plain 416 ""
        | String c _ =>
            {| status := 206;
               content_range := Some ("bytes 0-0/" +:+ pretty (Z.of_nat (String.length b)));
               content_length := Some "1"; body := String c "" |}
        end%string
      else plain 200 b
  end.

Definition ready_rows (hash : string) (w : World) : list AssetRow :=
  filter (λ r, row_content_hash r = Some hash ∧ row_state r = "ready") (map_to_list (assets w)).*2.

(** A key that is there and has not expired. *)
Definition cached (key : string) (w : World) : option Asset.t :=
  entry ← cache w !! key; if clock w <? entry.2 then Some entry.1 else None.

Definition answer (c : call) (f : fault) : World → World * reply c :=
  match c with
  | Now => λ w, (w, clock w)
  | SelectAsset id => postgres f (λ w, w) (λ w, doc <$> assets w !! id)
  | SelectReady hash =>
      postgres f (λ w, w)
        (λ w, doc <$> ready_rows hash w !! (match f with PgRow n => n | _ => 0%nat end))
  | UpsertAsset id row =>
      postgres f
        (λ w, w <| assets := <[id := match assets w !! id with
            | None => row
            | Some old => old <| row_state := row_state row |>
                <| row_content_hash := row_content_hash row |>
                <| row_updated_at := row_updated_at row |> <| doc := doc row |>
            end]> (assets w) |>) (λ _, tt)
  | RedisGet key => redis f (λ w, w) (cached key)
  | RedisSet key a ttl =>
      redis f (λ w, w <| cache := <[key := (a, clock w + ttl)]> (cache w) |>) (λ _, tt)
  | RedisDel key =>
      redis f (λ w, w <| cache := delete key (cache w) |>)
        (λ w, if decide (is_Some (cached key w)) then 1 else 0)
  | HttpGet key ranged => http f (λ w, w) (get_object key ranged)
  | HttpPut key content _ =>
      http f (λ w, w <| objects := <[key := content]> (objects w) |>) (λ _, plain 200 "")
  | HttpDelete key =>
      http f (λ w, w <| objects := delete key (objects w) |>) (λ _, plain 204 "")
  | SignUpload key ttl =>
      λ w, (w <| grants := (key, clock w + ttl) :: grants w |>, sign_put true key ttl (clock w))
  | SignDownload key ttl => λ w, (w, sign_get true key ttl (clock w))
  | Screen req =>
      λ w, match f with
           | ScreenSays r => (w <| screened := (req, r) :: screened w |>, Some (Ok r))
           | ScreenElapsed => (w, None)
           | _ => (w, Some (Err tt))
           end
  | Produce e =>
      λ w, match f with
           | KafkaFault applied text =>
               (if applied then w <| topic := topic w ++ [e] |> else w, Err text)
           | _ => (w <| topic := topic w ++ [e] |>, Ok tt)
           end
  end.

(** What happens by itself: time passes, Redis evicts, a client uses an upload URL. *)
Inductive happening := Tick (d : N) | Evict (key : string) | Upload (key : StorageKey) (b : Bytes).

Definition granted (key : StorageKey) (w : World) : bool :=
  existsb (λ g, bool_decide (g.1 = key) && (clock w <? g.2)) (grants w).

Definition nature (x : happening) (w : World) : World :=
  match x with
  | Tick d => w <| clock := clock w + Z.of_N d |>
  | Evict key => w <| cache := delete key (cache w) |>
  | Upload key b => if granted key w then w <| objects := <[key := b]> (objects w) |> else w
  end.
End Backends.

(** ** [PgAssetRepository] *)

Definition storage_err {A} (r : result StorageError A) : outcome A := map_err Storage r.

Definition row_of (a : Asset.t) : AssetRow := {|
  row_owner_id := Asset.owner_id a; row_kind := kind_str (Asset.kind a);
  row_state := state_str (Asset.state a); row_content_hash := Asset.content_hash a;
  row_created_at := Asset.created_at a; row_updated_at := Asset.updated_at a;
  doc := Asset.stored a |}.

Definition save (a : Asset.t) : program (outcome unit) :=
  storage_err <$> ask (UpsertAsset (Asset.id a) (row_of a)).

Definition find_by_id (id : AssetId) : program (outcome (option Asset.t)) :=
  storage_err <$> ask (SelectAsset id).

Definition find_ready_by_content_hash (hash : ContentHash) : program (outcome (option Asset.t)) :=
  storage_err <$> ask (SelectReady hash).

(** ** [RedisDeliveryCache] *)

Definition asset_key `{UuidText} (id : AssetId) : string :=
  "media:asset:{" +:+ hyphenated id +:+ "}".

Definition CACHE_TTL_SECS : Z := 3600.

Definition cache_err {A} (r : result RedisStorageError A) : outcome A := map_err Cache r.

Definition cache_get `{UuidText} (id : AssetId) : program (outcome (option Asset.t)) :=
  cache_err <$> ask (RedisGet (asset_key id)).

Definition cache_put `{UuidText} (a : Asset.t) : program (outcome unit) :=
  cache_err <$> ask (RedisSet (asset_key (Asset.id a)) (Asset.stored a) (CACHE_TTL_SECS * SECONDS)).

Definition cache_invalidate `{UuidText} (id : AssetId) : program (outcome unit) :=
  let? _ := cache_err <$> ask (RedisDel (asset_key id)) in Ret (Ok tt).

(** ** [S3Client] *)

Definition reqwest_err (e : HttpError) : MediaError :=
  match e with HttpTimeout => ObjectStoreTimeout | HttpFailed => ObjectStoreUnavailable end.

Definition is_success (s : Z) : bool := (200 <=? s) && (s <? 300).

Definition sent (c : program (result HttpError Response)) : program (outcome Response) :=
  map_err reqwest_err <$> c.

Definition get_bytes (key : StorageKey) : program (outcome Bytes) :=
  let? resp := sent (ask (HttpGet key false)) in
  Ret (if status resp =? 404 then Err (ObjectNotFound key)
       else if negb (is_success (status resp)) then Err ObjectStoreUnavailable
       else Ok (body resp)).

Definition put_bytes (key : StorageKey) (content : Bytes) (content_type : string) :
    program (outcome unit) :=
  let? resp := sent (ask (HttpPut key content content_type)) in
  Ret (if negb (is_success (status resp)) then Err ObjectStoreUnavailable else Ok tt).

Definition object_delete (key : StorageKey) : program (outcome unit) :=
  let? resp := sent (ask (HttpDelete key)) in
  Ret (if is_success (status resp) || (status resp =? 404) then Ok tt
       else Err ObjectStoreUnavailable).

(** [str::parse::<u64>] *)
Definition digits_value (s : string) : option Z :=
  foldl (λ acc c, v ← acc; if byte_in c 48 57
           then Some (v * 10 + (Z.of_nat (nat_of_ascii c) - 48)) else None)
    (Some 0) (String.list_ascii_of_string s).

Definition parse_u64 (s : string) : option Z :=
  let digits := match s with String c rest => if byte_is c 43 then rest else s | "" => "" end in
  if decide (digits = "") then None
  else v ← digits_value digits; if v <=? u64_max then Some v else None.

(** [s.rsplit('/').next()] *)
Fixpoint after_last_slash (s : string) : string :=
  match s with
  | "" => ""
  | String c rest =>
      if AccountDomain.contains_byte SLASH rest then after_last_slash rest
      else if byte_is c SLASH then rest else s
  end%string.

Definition object_size (key : StorageKey) : program (outcome (option Z)) :=
  let? resp := sent (ask (HttpGet key true)) in
  Ret (if status resp =? 404 then Ok None
       else if negb (is_success (status resp) || (status resp =? 206))
       then Err ObjectStoreUnavailable
       else Ok (Some (default 0
              (match content_range resp ≫= λ s, parse_u64 (after_last_slash s) with
               | Some v => Some v
               | None => content_length resp ≫= parse_u64
               end)))).

Definition health : program (outcome unit) :=
  let? _ := object_size "__healthcheck__" in Ret (Ok tt).

(** ** [S3ObjectStore] and [CloudFrontCdnGateway] *)

Record PresignedUpload := {
  url : string; method : string; required_headers : gmap string string;
}.

Record ObjectHead := { size_bytes : Z; etag : string }.

(** [to_std().unwrap_or(fallback)]: a negative duration has no standard counterpart. *)
Definition to_std_or (fallback d : Z) : Z := if d <? 0 then fallback else d.

Definition presign_put (key : StorageKey) (content_type : MimeType) (max_bytes expires_in : Z) :
    program (outcome PresignedUpload) :=
  let* u := ask (SignUpload key (to_std_or (900 * SECONDS) expires_in)) in
  Ret (Ok {| url := u; method := "PUT";
             required_headers := {["Content-Type" := content_type]} |}).

Definition head (key : StorageKey) : program (outcome (option ObjectHead)) :=
  let? size := object_size key in
  Ret (Ok ((λ s, {| size_bytes := s; etag := "" |}) <$> size)).

Record CdnGateway := { base_url : string; signed_ttl : Z }.
Record ResolvedUrl := { resolved_url : string; resolved_expires_at : option Z }.

(** [trim_end_matches] of one character. *)
Fixpoint trim_end_matches (c : nat) (s : string) : string :=
  match s with
  | "" => ""
  | String a rest =>
      match trim_end_matches c rest with
      | "" => if byte_is a c then "" else String a ""
      | t => String a t
      end
  end%string.

Definition cdn_resolve (g : CdnGateway) (key : StorageKey) (v : DeliveryVisibility) (now : Z) :
    program (outcome ResolvedUrl) :=
  match v with
  | Public =>
      Ret (Ok {| resolved_url := trim_end_matches SLASH (base_url g) +:+ "/" +:+ key;
                 resolved_expires_at := None |})
  | Signed =>
      let* u := ask (SignDownload key (to_std_or (300 * SECONDS) (signed_ttl g))) in
      Ret (Ok {| resolved_url := u; resolved_expires_at := Some (now + signed_ttl g) |})
  end.

(** A log line. *)
Definition cdn_invalidate (keys : list StorageKey) : program (outcome unit) := Ret (Ok tt).

(** ** [KafkaEventPublisher] *)

Definition TOPIC_MEDIA_EVENTS : string := "media.v1.events".

Definition envelope_of `{UuidText} (e : DomainEvent) : EventEnvelope.t :=
  let key := hyphenated (event_asset_id e) in {|
    EventEnvelope.topic := TOPIC_MEDIA_EVENTS; EventEnvelope.key := key;
    EventEnvelope.payload := e;
    EventEnvelope.headers := <["asset_id" := key]> {["event_type" := event_type e]} |}.

Definition publish `{UuidText} (e : DomainEvent) : program (outcome unit) :=
  map_err EventPublishFailed <$> ask (Produce (envelope_of e)).

(** ** [GrpcModerationScreen] and [LogMalwareScanner] *)

Record ScreenDecision := { blocked : bool; csam : bool; reference : option string }.

Definition screen_request `{UuidText} (id : AssetId) (owner : OwnerId) (hash : ContentHash) :
    ModerationEdge.Pb.ScreenRequest := {|
  ModerationEdge.Pb.screen_subject := Some {|
    ModerationEdge.Pb.entity_type := 4; ModerationEdge.Pb.entity_id := hyphenated id;
    ModerationEdge.Pb.actor_id := hyphenated owner; ModerationEdge.Pb.surface := "upload" |};
  ModerationEdge.Pb.hashes :=
    [{| ModerationStore.algorithm := "sha256"; ModerationStore.hash_value := hash |}];
  ModerationEdge.Pb.text := ""; ModerationEdge.Pb.categories := [] |}.

(** [Block] is 2, [Review] 3; [PolicyCategory::Csam] is 5. *)
Definition decision_of (r : ScreenResponse) : ScreenDecision := {|
  blocked := (verdict r =? 2) || (verdict r =? 3);
  csam := bool_decide (5 ∈ matched_categories r);
  reference := if String.eqb (match_reference r) "" then None else Some (match_reference r) |}.

(** The call under [tokio::time::timeout]: [None] is [Err(_elapsed)]. *)
Definition grpc_screen `{UuidText} (id : AssetId) (owner : OwnerId) (hash : ContentHash)
    (kind : MediaKind) : program (option (outcome ScreenDecision)) :=
  let* r := ask (Screen (screen_request id owner hash)) in
  Ret (match r with
       | Some (Ok r) => Some (Ok (decision_of r))
       | Some (Err _) => Some (Err ScreenUnavailable)
       | None => None
       end).

Inductive ScanVerdict := Clean | Infected.
#[export] Instance scan_verdict_eq_dec : EqDecision ScanVerdict.
Proof. solve_decision. Defined.

(** The port, and the stub the composition root plugs in. *)
Class MalwareScanner := { scan : StorageKey → program (outcome ScanVerdict) }.
Definition log_malware_scanner : MalwareScanner := {| scan _ := Ret (Ok Clean) |}.
