(* ===== verification/MediaPipeline.v ===== *)
(** * Media: probing an upload and deriving what is delivered

    Models [infrastructure/probe] and [infrastructure/processor] of the media service: the
    image and video probes behind the dispatching one, the resize ladder, the HLS ladder.
    The image library, ffmpeg and ffprobe are parameters; so is the file system they work
    in, one directory per content hash.  Sizes in bits per second and pixels are integers. *)

From S2P Require Import Prelude Prog MediaDomain MediaStore.
From S2P Require AccountDomain.
Import AccountDomain(UuidText, trim).
From stdpp Require Import pretty.
Local Open Scope Z_scope.
Local Open Scope prog_scope.

(** ** What the adapters rely on *)

(** SHA-256 in lower-case hex: sixty-four digits, which [ContentHash::new] keeps. *)
Class Sha256Hex := {
  sha256_hex : Bytes → string;
  sha256_hex_ok b : hash_new (sha256_hex b) = Ok (sha256_hex b);
}.

(** The [image] and [blurhash] crates; the sides of an image are [u32]. *)
Class ImageLib := {
  Image : Type;
  img_width : Image → Z;
  img_height : Image → Z;
  guess_format : Bytes → result string string;
  load_from_memory : Bytes → result string Image;
  resize : Z → Image → Image;
  thumbnail : Z → Image → Image;
  encode_jpeg : Image → result string Bytes;
  blurhash_encode : Z → Z → Image → result string string;
  img_sides i : is_u32 (img_width i) ∧ is_u32 (img_height i);
}.

(** A subprocess: it could not be started, or it ended with its output. *)
Inductive process := CannotRun (text : string) | Exited (success : bool) (stdout stderr : string).

Record FfprobeStream := {
  codec_type : option string; codec_name : option string;
  stream_width : option Z; stream_height : option Z;
}.

(** ffmpeg, ffprobe, serde's reading of a report, and the directory they work in. *)
Class Ffmpeg := {
  create_dir : string → result string unit;
  write_file : string → Bytes → result string unit;
  ffprobe : Bytes → process;
  parse_report : string → result string (list FfprobeStream);
  ffmpeg_poster : Bytes → process;
  poster_file : Bytes → result string Bytes;
  ffmpeg_rung : Bytes → Z → Z → Z → Z → process;
  rung_files : Bytes → Z → result string (list (string * Bytes));
}.

(** ** The probes *)

Record MediaProbeReport := {
  mr_mime_type : MimeType; mr_byte_size : Z; mr_dimensions : Dimensions;
  mr_content_hash : ContentHash;
}.

Definition byte_len (b : Bytes) : Z := Z.of_nat (String.length b).

Section ImageProbe.
Context `{Sha256Hex} `{ImageLib}.

Definition inspect_image (bytes : Bytes) (declared_mime : MimeType) : outcome MediaProbeReport :=
  content_hash ← hash_new (sha256_hex bytes);
  format ← map_err (λ e, CorruptMedia ("unrecognized media format: " +:+ e)) (guess_format bytes);
  mime_type ← mime_new format;
  if negb (is_image mime_type) then Err (ContentTypeMismatch declared_mime mime_type)
  else
    img ← map_err (λ e, CorruptMedia ("decode failed: " +:+ e)) (load_from_memory bytes);
    dimensions ← dimensions_new (img_width img) (img_height img);
    Ok {| mr_mime_type := mime_type; mr_byte_size := byte_len bytes;
          mr_dimensions := dimensions; mr_content_hash := content_hash |}.

Definition probe_image (key : StorageKey) (declared_mime : MimeType) :
    program (outcome MediaProbeReport) :=
  let? bytes := get_bytes key in Ret (inspect_image bytes declared_mime).
End ImageProbe.

Definition ALLOWED_VIDEO_CODECS : list string := ["h264"; "hevc"].

(** [VideoFacts]: the width and the height. *)
Definition interpret_streams (streams : list FfprobeStream) : outcome (Z * Z) :=
  match list_find (λ s, codec_type s = Some "video") streams with
  | None => Err (CorruptMedia "no video stream found in the uploaded object")
  | Some (_, video) =>
      let codec := default "unknown" (codec_name video) in
      if negb (existsb (λ a, bool_decide (a = codec)) ALLOWED_VIDEO_CODECS)
      then Err (UnsupportedCodec codec)
      else match stream_width video, stream_height video with
      | Some w, Some h =>
          if (0 <? w) && (0 <? h) then Ok (w, h)
          else Err (CorruptMedia "video stream is missing valid dimensions")
      | _, _ => Err (CorruptMedia "video stream is missing valid dimensions")
      end
  end.

Section VideoProbe.
Context `{Sha256Hex} `{Ffmpeg}.

Definition interpret_ffprobe (json : string) : outcome (Z * Z) :=
  streams ← map_err (λ e, CorruptMedia ("unparseable ffprobe report: " +:+ e)) (parse_report json);
  interpret_streams streams.

Definition run_ffprobe (bytes : Bytes) : outcome string :=
  match ffprobe bytes with
  | CannotRun e => Err (ProcessingFailed ("ffprobe could not run: " +:+ e))
  | Exited false _ stderr => Err (CorruptMedia ("ffprobe rejected the input: " +:+ trim stderr))
  | Exited true stdout _ => Ok stdout
  end.

Definition probe_bytes_with_ffprobe (bytes : Bytes) (name : string) : outcome (Z * Z) :=
  _ ← map_err (λ e, ProcessingFailed ("failed to stage probe input: " +:+ e))
        (write_file ("media-probe-" +:+ name +:+ ".bin") bytes);
  json ← run_ffprobe bytes;
  interpret_ffprobe json.

Definition inspect_video (bytes : Bytes) (declared_mime : MimeType) : outcome MediaProbeReport :=
  content_hash ← hash_new (sha256_hex bytes);
  '(w, h) ← probe_bytes_with_ffprobe bytes (sha256_hex bytes);
  dimensions ← dimensions_new w h;
  Ok {| mr_mime_type := declared_mime; mr_byte_size := byte_len bytes;
        mr_dimensions := dimensions; mr_content_hash := content_hash |}.

Definition probe_video (key : StorageKey) (declared_mime : MimeType) :
    program (outcome MediaProbeReport) :=
  let? bytes := get_bytes key in Ret (inspect_video bytes declared_mime).
End VideoProbe.

(** [DispatchingMediaProbe] *)
Definition probe `{Sha256Hex} `{ImageLib} `{Ffmpeg} (key : StorageKey) (declared_mime : MimeType) :
    program (outcome MediaProbeReport) :=
  if is_video declared_mime then probe_video key declared_mime else probe_image key declared_mime.

(** ** Images: [ImageRenditionProcessor] *)

Section Images.
Context `{ImageLib}.

Definition IMAGE_LADDER : list (RenditionKind * Z) :=
  [(Thumbnail, 320); (Small, 640); (MediumSize, 1280); (Large, 1920)].

Definition encode_put (img : Image) (kind : MediaKind) (hash : ContentHash) (rk : RenditionKind) :
    program (outcome Rendition.t) :=
  let? buf := Ret (map_err (λ e, ProcessingFailed ("jpeg encode failed: " +:+ e))
                     (encode_jpeg img)) in
  let key := rendition_key kind hash rk "jpg" in
  let? _ := put_bytes key buf "image/jpeg" in
  Ret (mime ← mime_new "image/jpeg";
       d ← dimensions_new (img_width img) (img_height img);
       Ok (Rendition.mk rk mime key d (byte_len buf))).

(** The rungs of the ladder for a source whose longer side is [longest]. *)
Definition applies (longest : Z) (rung : RenditionKind * Z) : bool :=
  bool_decide (rung.1 = Thumbnail) || (rung.2 <? longest).

Fixpoint encode_ladder (img : Image) (kind : MediaKind) (hash : ContentHash) (longest : Z)
    (ladder : list (RenditionKind * Z)) : program (outcome (list Rendition.t)) :=
  match ladder with
  | [] => Ret (Ok [])
  | rung :: ladder =>
      if applies longest rung then
        let? r := encode_put (resize rung.2 img) kind hash rung.1 in
        let? rs := encode_ladder img kind hash longest ladder in
        Ret (Ok (r :: rs))
      else encode_ladder img kind hash longest ladder
  end.

Definition derive (source : StorageKey) (kind : MediaKind) (hash : ContentHash) :
    program (outcome (list Rendition.t * Blurhash)) :=
  let? bytes := get_bytes source in
  let? img := Ret (map_err (λ e, CorruptMedia ("decode failed: " +:+ e)) (load_from_memory bytes)) in
  let longest := Z.max (img_width img) (img_height img) in
  let? original := encode_put img kind hash Original in
  let? rest := encode_ladder img kind hash longest IMAGE_LADDER in
  Ret (blur ← map_err (λ e, ProcessingFailed ("blurhash: " +:+ e))
                (blurhash_encode 4 3 (thumbnail 64 img));
       b ← blurhash_new blur;
       Ok (original :: rest, b)).
End Images.

(** ** Video: [FfmpegVideoTranscoder] *)

Record Rung := { label : string; rung_width : Z; bitrate_k : Z }.

Definition VIDEO_LADDER : list Rung :=
  [{| label := "1080w"; rung_width := 1080; bitrate_k := 4500 |};
   {| label := "720w"; rung_width := 720; bitrate_k := 2200 |};
   {| label := "480w"; rung_width := 480; bitrate_k := 900 |}].

Definition AUDIO_BITRATE_K : Z := 128.
Definition MANIFEST_MIME : string := "application/vnd.apple.mpegurl".

Record OutputFile := { relative : string; content : Bytes; file_content_type : string }.

Definition plan_ladder (src_w : Z) : list Rung :=
  match filter (λ r, rung_width r ≤ src_w) VIDEO_LADDER with
  | [] => match list.last VIDEO_LADDER with Some r => [r] | None => [] end
  | rungs => rungs
  end.

(** The quotient is taken in [u64] and cut to [u32]. *)
Definition even_height (w src_w src_h : Z) : Z :=
  if src_w =? 0 then 0
  else let h := (w * src_h / src_w) mod 2 ^ 32 in h - h mod 2.

Record Variant := { variant_rung : Rung; variant_height : Z }.

Definition QUOTE : string := String (ascii_of_nat 34) "".
Definition NEWLINE : string := String (ascii_of_nat 10) "".

Definition bandwidth (r : Rung) : Z := (bitrate_k r * 107 / 100 + AUDIO_BITRATE_K) * 1000.

Definition playlist_entry (v : Variant) : string :=
  "#EXT-X-STREAM-INF:BANDWIDTH=" +:+ pretty (bandwidth (variant_rung v)) +:+ ",RESOLUTION="
  +:+ pretty (rung_width (variant_rung v)) +:+ "x" +:+ pretty (variant_height v) +:+ ",CODECS="
  +:+ QUOTE +:+ "avc1.640028,mp4a.40.2" +:+ QUOTE +:+ NEWLINE
  +:+ label (variant_rung v) +:+ "/playlist.m3u8" +:+ NEWLINE.

Definition build_master_playlist (vs : list Variant) : string :=
  foldl (λ out v, out +:+ playlist_entry v)
    ("#EXTM3U" +:+ NEWLINE +:+ "#EXT-X-VERSION:7" +:+ NEWLINE) vs.

(** [name.rsplit('.').next()]: what is after the last dot, the whole name if there is none. *)
Fixpoint after_last (c : nat) (s : string) : string :=
  match s with
  | "" => ""
  | String a rest =>
      if AccountDomain.contains_byte c rest then after_last c rest
      else if byte_is a c then rest else s
  end%string.

Definition content_type_for (name : string) : string :=
  let e := after_last 46 name in
  if decide (e = "m3u8") then "application/vnd.apple.mpegurl"
  else if decide (e = "m4s") then "video/iso.segment"
  else if decide (e = "mp4") then "video/mp4"
  else if decide (e = "jpg" ∨ e = "jpeg") then "image/jpeg"
  else "application/octet-stream".

(** [str::lines] *)
Definition strip_cr (s : string) : string :=
  if AccountDomain.ends_with_byte 13 s then String.substring 0 (String.length s - 1) s else s.
Fixpoint lines (s : string) : list string :=
  match s with
  | "" => []
  | String c rest =>
      if byte_is c 10 then "" :: lines rest
      else match lines rest with
           | [] => [String c ""]
           | l :: ls => String c l :: ls
           end
  end%string.

Definition run_ffmpeg (p : process) : outcome unit :=
  match p with
  | CannotRun e => Err (ProcessingFailed ("ffmpeg could not run: " +:+ e))
  | Exited true _ _ => Ok tt
  | Exited false _ stderr =>
      Err (TranscodeFailed (default "ffmpeg failed" (strip_cr <$> list.last (lines stderr))))
  end.

Section Transcode.
Context `{ImageLib} `{Ffmpeg}.

Record TranscodeArtifacts := {
  files : list OutputFile; top_dimensions : Dimensions; poster_dimensions : Dimensions;
  master_size : Z; poster_size : Z; art_blurhash : string;
}.

Definition collect_dir (prefix : string) (entries : list (string * Bytes)) : list OutputFile :=
  (λ e, {| relative := prefix +:+ "/" +:+ e.1; content := e.2;
           file_content_type := content_type_for e.1 |}) <$> entries.

(** [for rung in &rungs]: the files of each and its variant. *)
Fixpoint transcode_rungs (input : Bytes) (src_w src_h : Z) (rungs : list Rung) :
    outcome (list OutputFile * list Variant) :=
  match rungs with
  | [] => Ok ([], [])
  | r :: rungs =>
      let out_h := even_height (rung_width r) src_w src_h in
      _ ← map_err (λ e, ProcessingFailed ("rung dir: " +:+ e)) (create_dir (label r));
      _ ← run_ffmpeg (ffmpeg_rung input (rung_width r) (bitrate_k r) (bitrate_k r * 107 / 100)
                        (bitrate_k r * 3 / 2));
      entries ← map_err (λ e, ProcessingFailed ("read rung dir: " +:+ e))
                  (rung_files input (rung_width r));
      '(fs, vs) ← transcode_rungs input src_w src_h rungs;
      Ok (collect_dir (label r) entries ++ fs,
          {| variant_rung := r; variant_height := out_h |} :: vs)
  end.

Definition build_ladder (input : Bytes) : outcome TranscodeArtifacts :=
  _ ← run_ffmpeg (ffmpeg_poster input);
  poster_bytes ← map_err (λ e, ProcessingFailed ("read poster: " +:+ e)) (poster_file input);
  poster_img ← map_err (λ e, CorruptMedia ("poster decode: " +:+ e)) (load_from_memory poster_bytes);
  let src_w := img_width poster_img in
  let src_h := img_height poster_img in
  poster_dims ← dimensions_new src_w src_h;
  let rungs := plan_ladder src_w in
  let poster := {| relative := "poster.jpg"; content := poster_bytes;
                   file_content_type := "image/jpeg" |} in
  '(fs, variants) ← transcode_rungs input src_w src_h rungs;
  let master := build_master_playlist variants in
  let master_file := {| relative := "master.m3u8"; content := master;
                        file_content_type := MANIFEST_MIME |} in
  blur ← map_err (λ e, ProcessingFailed ("blurhash: " +:+ e))
           (blurhash_encode 4 3 (thumbnail 64 poster_img));
  top ← ok_or (head variants) (ProcessingFailed "no rungs produced");
  top_dims ← dimensions_new (rung_width (variant_rung top)) (variant_height top);
  Ok {| files := (poster :: fs) ++ [master_file]; top_dimensions := top_dims;
        poster_dimensions := poster_dims; master_size := byte_len master;
        poster_size := byte_len poster_bytes; art_blurhash := blur |}.

Definition generate_artifacts (source : Bytes) (hash_hex : string) : outcome TranscodeArtifacts :=
  let work := "media-transcode-" +:+ hash_hex in
  _ ← map_err (λ e, ProcessingFailed ("workdir: " +:+ e)) (create_dir work);
  _ ← map_err (λ e, ProcessingFailed ("stage input: " +:+ e)) (write_file (work +:+ "/input") source);
  build_ladder source.

(** [for file in &artifacts.files { put_bytes(..)?; }] *)
Fixpoint put_files (hash : ContentHash) (fs : list OutputFile) : program (outcome unit) :=
  match fs with
  | [] => Ret (Ok tt)
  | f :: fs =>
      let? _ := put_bytes (video_object Video hash (relative f)) (content f) (file_content_type f) in
      put_files hash fs
  end.

Definition transcode (source : StorageKey) (hash : ContentHash) :
    program (outcome (list Rendition.t * Blurhash)) :=
  let? bytes := get_bytes source in
  let? art := Ret (generate_artifacts bytes hash) in
  let? _ := put_files hash (files art) in
  Ret (manifest_mime ← mime_new MANIFEST_MIME;
       poster_mime ← mime_new "image/jpeg";
       b ← blurhash_new (art_blurhash art);
       Ok ([Rendition.mk Manifest manifest_mime (video_object Video hash "master.m3u8")
              (top_dimensions art) (master_size art);
            Rendition.mk Poster poster_mime (video_object Video hash "poster.jpg")
              (poster_dimensions art) (poster_size art)], b)).
End Transcode.
