(* ===== verification/MediaHandlers.v ===== *)
(** * Media: the use cases, the gRPC surface and the consumers

    Models [crates/services/media/src/application], [infrastructure/grpc/handler.rs] and
    [infrastructure/consumer]: the handlers as programs over the calls of [MediaStore], the
    conversions of the edge, and what the three consumers do with an event.  [now] is what
    the edge read from the clock; the id of a new asset is an argument. *)

From S2P Require Import Prelude Prog Consumer MediaDomain MediaStore MediaPipeline.
From S2P Require AccountDomain Cqrs.
Import AccountDomain(Uuid, UuidText, parse_uuid, hyphenated).
Local Open Scope Z_scope.
Local Open Scope prog_scope.

(** [screen_timeout] bounds the wait for the gate; the call's reply says who was first. *)
Record MediaPolicy := {
  upload_ticket_ttl : Z; signed_url_ttl : Z; dedup_enabled : bool; screen_timeout : Z;
}.

Definition standard : MediaPolicy := {|
  upload_ticket_ttl := 15 * 60 * SECONDS; signed_url_ttl := 5 * 60 * SECONDS;
  dedup_enabled := false; screen_timeout := 200 * 10 ^ 6 |}.

(** ** Commands *)

Section Commands.
Context `{UuidText} `{Sha256Hex} `{ImageLib} `{Ffmpeg} `{MalwareScanner}.

Record IssueUploadTicketCommand := {
  it_owner_id : OwnerId; it_kind : MediaKind; it_declared_mime : MimeType;
  it_declared_size : Z; it_content_sha256 : option string; it_idempotency_key : option string;
}.
Record PreparedUpload := { presigned : PresignedUpload; max_size_bytes : Z; upload_expires_at : Z }.
Record IssueUploadTicketOutcome := {
  io_asset_id : AssetId; io_upload : option PreparedUpload; deduplicated : bool;
}.

Definition reserve_and_presign (policy : MediaPolicy) (cmd : IssueUploadTicketCommand) (id : AssetId)
    (now : Z) : program (outcome IssueUploadTicketOutcome) :=
  let constraints := for_kind (it_kind cmd) in
  let? asset := Ret (Asset.reserve
      {| rp_id := id; rp_owner_id := it_owner_id cmd; rp_kind := it_kind cmd;
         rp_declared_mime := it_declared_mime cmd; rp_declared_size := it_declared_size cmd |}
      constraints now) in
  let? _ := save asset in
  let? ticket := Ret (issue id constraints (upload_ticket_ttl policy) now) in
  let? u := presign_put (storage_key ticket) (it_declared_mime cmd)
              (max_bytes (MediaDomain.constraints ticket)) (upload_ticket_ttl policy) in
  Ret (Ok {| io_asset_id := id;
             io_upload := Some {| presigned := u;
                                  max_size_bytes := max_bytes (MediaDomain.constraints ticket);
                                  upload_expires_at := expires_at ticket |};
             deduplicated := false |}).

Definition issue_ticket (policy : MediaPolicy) (cmd : IssueUploadTicketCommand) (id : AssetId)
    (now : Z) : program (outcome IssueUploadTicketOutcome) :=
  match it_content_sha256 cmd with
  | Some sha =>
      if dedup_enabled policy then
        let? hash := Ret (hash_new sha) in
        let? existing := find_ready_by_content_hash hash in
        match existing with
        | Some a => Ret (Ok {| io_asset_id := Asset.id a; io_upload := None; deduplicated := true |})
        | None => reserve_and_presign policy cmd id now
        end
      else reserve_and_presign policy cmd id now
  | None => reserve_and_presign policy cmd id now
  end.

(** [for event in asset.drain_events() { publish(&event)?; }] *)
Fixpoint publish_all (es : list DomainEvent) : program (outcome unit) :=
  match es with
  | [] => Ret (Ok tt)
  | e :: es => let? _ := publish e in publish_all es
  end.

Definition persist_and_publish (a : Asset.t) : program (outcome unit) :=
  let? _ := save a in publish_all (Asset.pending_events a).

(** [find_by_id(..).await?.ok_or_else(AssetNotFound)] *)
Definition find_or_404 (id : AssetId) : program (outcome Asset.t) :=
  let? found := find_by_id id in Ret (ok_or found (AssetNotFound (hyphenated id))).

Record CommitUploadCommand := {
  cu_asset_id : AssetId; cu_etag : option string; cu_content_sha256 : option string;
}.

Definition check_declared (declared : option string) (actual : ContentHash) : outcome unit :=
  match declared with
  | None => Ok tt
  | Some s =>
      h ← hash_new s;
      if decide (h = actual) then Ok tt
      else Err (CorruptMedia "client-declared content hash does not match the stored object")
  end.

Definition commit_upload (cmd : CommitUploadCommand) (now : Z) : program (outcome Asset.t) :=
  let? asset := find_or_404 (cu_asset_id cmd) in
  if decide (Asset.state asset ≠ Pending) then Ret (Ok asset)
  else
    let key := staging (Asset.id asset) in
    let? there := MediaStore.head key in
    match there with
    | None => Ret (Err UploadNotFinalized)
    | Some _ =>
        let? report := probe key (Asset.declared_mime asset) in
        let? _ := Ret (check_declared (cu_content_sha256 cmd) (mr_content_hash report)) in
        let? asset := Ret (Asset.finalize
            {| fp_mime_type := mr_mime_type report; fp_byte_size := mr_byte_size report;
               fp_dimensions := mr_dimensions report;
               fp_content_hash := mr_content_hash report |}
            (for_kind (Asset.kind asset)) now asset) in
        let? _ := persist_and_publish asset in
        Ret (Ok (Asset.stored asset))
    end.

Inductive ProcessingOutcome :=
  | ReadyOutcome | QuarantinedOutcome | FailedOutcome (reason : string) | Skipped.

(** What both pipelines do once they hold the asset: scan, screen, derive, publish. *)
Definition pipeline (engine : StorageKey → ContentHash → program (outcome (list Rendition.t * Blurhash)))
    (asset : Asset.t) (now : Z) : program (outcome ProcessingOutcome) :=
  let key := staging (Asset.id asset) in
  let? hash := Ret (ok_or (Asset.content_hash asset)
      (DomainViolation "content_hash" "a finalized asset must carry a content hash")) in
  let? scanned := scan key in
  if decide (scanned = Infected) then
    let? asset := Ret (Asset.mark_failed "malware detected" now asset) in
    let? _ := persist_and_publish asset in
    Ret (Ok (FailedOutcome "malware detected"))
  else
    let* lookup := grpc_screen (Asset.id asset) (Asset.owner_id asset) hash (Asset.kind asset) in
    let? decision := Ret (match lookup with Some r => r | None => Err ScreenUnavailable end) in
    if blocked decision then
      let? asset := Ret (Asset.quarantine now asset) in
      let asset := if csam decision then Asset.place_legal_hold now asset else asset in
      let? _ := cache_invalidate (Asset.id asset) in
      let? _ := persist_and_publish asset in
      Ret (Ok QuarantinedOutcome)
    else
      let? asset := Ret (Asset.begin_processing now asset) in
      let? derived := engine key hash in
      let? asset := Ret (a ← Asset.set_blurhash derived.2 now asset;
                         a ← Asset.attach_all derived.1 now a; Asset.mark_ready now a) in
      let? _ := persist_and_publish asset in
      let* _ := cache_put asset in
      Ret (Ok ReadyOutcome).

Definition process_asset (id : AssetId) (now : Z) : program (outcome ProcessingOutcome) :=
  let? asset := find_or_404 id in
  if decide (Asset.state asset ≠ Uploaded) then Ret (Ok Skipped)
  else pipeline (λ key hash, derive key (Asset.kind asset) hash) asset now.

Definition transcode_asset (id : AssetId) (now : Z) : program (outcome ProcessingOutcome) :=
  let? asset := find_or_404 id in
  if decide (Asset.kind asset ≠ Video ∨ Asset.state asset ≠ Uploaded) then Ret (Ok Skipped)
  else pipeline transcode asset now.

Inductive ModerationAction := Quarantine | Restore.

(** [ApplyModerationOutcome]: [None] when the asset is unknown. *)
Definition revoke (asset : Asset.t) : program (outcome unit) :=
  let keys := Rendition.storage_key <$> Asset.renditions asset in
  let? _ := match keys with [] => Ret (Ok tt) | _ => cdn_invalidate keys end in
  cache_invalidate (Asset.id asset).

Definition apply_moderation (id : AssetId) (action : ModerationAction) (now : Z) :
    program (outcome (option AssetState)) :=
  let? found := find_by_id id in
  match found with
  | None => Ret (Ok None)
  | Some asset =>
      let? asset := match action with
        | Quarantine =>
            let? asset := Ret (Asset.quarantine now asset) in
            let? _ := revoke asset in Ret (Ok asset)
        | Restore =>
            let? asset := Ret (Asset.restore now asset) in
            let? _ := cache_invalidate (Asset.id asset) in Ret (Ok asset)
        end in
      let? _ := persist_and_publish asset in
      Ret (Ok (Some (Asset.state asset)))
  end.

(** [for key in &keys { self.store.delete(key).await?; }] *)
Fixpoint purge (keys : list StorageKey) : program (outcome unit) :=
  match keys with
  | [] => Ret (Ok tt)
  | k :: keys => let? _ := object_delete k in purge keys
  end.

Definition delete_asset (id : AssetId) (owner : OwnerId) (now : Z) : program (outcome unit) :=
  let? asset := find_or_404 id in
  if decide (Asset.owner_id asset ≠ owner) then Ret (Err (AssetNotFound (hyphenated id)))
  else
    let? asset := Ret (Asset.delete now asset) in
    let keys := (Rendition.storage_key <$> Asset.renditions asset) ++ [staging (Asset.id asset)] in
    let? _ := purge keys in
    let? _ := cdn_invalidate keys in
    let? _ := cache_invalidate (Asset.id asset) in
    persist_and_publish asset.

(** ** Queries *)

Definition get_asset (id : AssetId) : program (outcome Asset.t) := find_or_404 id.

Record DeliveredRenditionView := {
  dr_kind : RenditionKind; dr_url : string; dr_visibility : DeliveryVisibility;
  dr_expires_at : option Z; dr_width : Z; dr_height : Z;
}.
Record DeliveredMediaView := {
  dm_asset_id : AssetId; dm_state : AssetState; dm_blurhash : option string;
  dm_renditions : list DeliveredRenditionView; degraded : bool;
}.

Definition load (id : AssetId) : program (outcome (option Asset.t)) :=
  let* hit := cache_get id in
  match hit with
  | Ok (Some a) => Ret (Ok (Some a))
  | _ =>
      let? found := find_by_id id in
      match found with
      | Some a => let* _ := cache_put a in Ret (Ok (Some a))
      | None => Ret (Ok None)
      end
  end.

(** The loop over the renditions: the views, and whether one could not be resolved. *)
Fixpoint resolve_renditions (g : CdnGateway) (preferred : option RenditionKind)
    (v : DeliveryVisibility) (now : Z) (rs : list Rendition.t) :
    program (list DeliveredRenditionView * bool) :=
  match rs with
  | [] => Ret ([], false)
  | r :: rs =>
      if match preferred with Some k => bool_decide (k ≠ Rendition.kind r) | None => false end
      then resolve_renditions g preferred v now rs
      else
        let* u := cdn_resolve g (Rendition.storage_key r) v now in
        let* rest := resolve_renditions g preferred v now rs in
        Ret (match u with
             | Ok u =>
                 ({| dr_kind := Rendition.kind r; dr_url := resolved_url u; dr_visibility := v;
                     dr_expires_at := resolved_expires_at u;
                     dr_width := width (Rendition.dimensions r);
                     dr_height := height (Rendition.dimensions r) |} :: rest.1, rest.2)
             | Err _ => (rest.1, true)
             end)
  end.

Definition resolve_asset (g : CdnGateway) (a : Asset.t) (preferred : option RenditionKind)
    (visibility : option DeliveryVisibility) (now : Z) : program DeliveredMediaView :=
  if negb (Asset.is_deliverable a) then
    Ret {| dm_asset_id := Asset.id a; dm_state := Asset.state a; dm_blurhash := Asset.blurhash a;
           dm_renditions := []; degraded := true |}
  else
    let* r := resolve_renditions g preferred (default default_visibility visibility) now
                (Asset.renditions a) in
    let '(views, failed) := r in
    Ret {| dm_asset_id := Asset.id a; dm_state := Asset.state a; dm_blurhash := Asset.blurhash a;
           dm_renditions := views;
           degraded := failed || (bool_decide (is_Some preferred) && bool_decide (views = [])) |}.

Definition resolve_delivery (g : CdnGateway) (id : AssetId) (preferred : option RenditionKind)
    (visibility : option DeliveryVisibility) (now : Z) : program (outcome DeliveredMediaView) :=
  let? found := load id in
  let? a := Ret (ok_or found (AssetNotFound (hyphenated id))) in
  let* view := resolve_asset g a preferred visibility now in Ret (Ok view).

Fixpoint resolve_batch (g : CdnGateway) (ids : list AssetId) (preferred : option RenditionKind)
    (visibility : option DeliveryVisibility) (now : Z) :
    program (outcome (list DeliveredMediaView)) :=
  match ids with
  | [] => Ret (Ok [])
  | id :: ids =>
      let? found := load id in
      match found with
      | None => resolve_batch g ids preferred visibility now
      | Some a =>
          let* view := resolve_asset g a preferred visibility now in
          let? rest := resolve_batch g ids preferred visibility now in
          Ret (Ok (view :: rest))
      end
  end.
End Commands.
