(* ===== verification/MediaEdge.v ===== *)
(** * Media: the gRPC surface, the consumers, and the tasks of a service

    Models [infrastructure/grpc/handler.rs] and [infrastructure/consumer] of the media
    service.  [run_task] is everything the service does when it is called or handed a
    record: it reads the clock as the edge does and runs the handler. *)

From S2P Require Import Prelude Prog Consumer MediaDomain MediaStore MediaPipeline MediaHandlers.
From S2P Require AccountDomain Cqrs.
Import AccountDomain(Uuid, UuidText, parse_uuid, hyphenated).
Import Cqrs(http_status, is_retryable).
From stdpp Require Import pretty.
Local Open Scope Z_scope.
Local Open Scope prog_scope.

(** ** Messages *)

Module Pb.
Record Timestamp := { seconds : Z; nanos : Z }.
Record IssueUploadTicketRequest := {
  iu_owner_id : string; iu_kind : Z; iu_declared_mime_type : string; iu_declared_size_bytes : Z;
  iu_content_sha256 : string; iu_idempotency_key : string }.
Record UploadTicket := {
  upload_url : string; ticket_method : string; ticket_headers : gmap string string;
  ticket_max_size_bytes : Z; ticket_expires_at : Timestamp }.
Record IssueUploadTicketResponse := {
  ir_asset_id : string; ir_ticket : option UploadTicket; ir_deduplicated : bool }.
Record CommitUploadRequest := { cr_asset_id : string; cr_etag : string; cr_content_sha256 : string }.
Record Rendition := {
  r_kind : Z; r_mime_type : string; r_storage_key : string; r_width : Z; r_height : Z;
  r_byte_size : Z }.
Record Asset := {
  id : string; owner_id : string; kind : Z; state : Z; mime_type : string; byte_size : Z;
  width : Z; height : Z; content_hash : string; blurhash : string; renditions : list Rendition;
  created_at : Timestamp; updated_at : Timestamp }.
Record OwnedRequest := { or_asset_id : string; or_owner_id : string }.
Record ResolveDeliveryRequest := { rd_asset_id : string; rd_preferred : Z; rd_visibility : Z }.
Record BatchResolveDeliveryRequest := {
  br_asset_ids : list string; br_preferred : Z; br_visibility : Z }.
Record DeliveredRendition := {
  dlr_kind : Z; dlr_url : string; dlr_visibility : Z; dlr_url_expires_at : option Timestamp;
  dlr_width : Z; dlr_height : Z }.
Record DeliveredMedia := {
  dlm_asset_id : string; dlm_state : Z; dlm_blurhash : string;
  dlm_renditions : list DeliveredRendition; dlm_degraded : bool }.
End Pb.

(** The code of a [Status]; its message carries no decision. *)
Inductive Status :=
  | InvalidArgument | NotFound | FailedPrecondition | PermissionDenied | Unavailable
  | DeadlineExceeded | Internal.

Definition to_status (e : MediaError) : Status :=
  match http_status e with
  | 400 | 410 | 413 | 415 | 422 => InvalidArgument
  | 404 => NotFound
  | 409 => FailedPrecondition
  | 451 => PermissionDenied
  | 503 => Unavailable
  | 504 => DeadlineExceeded
  | _ => Internal
  end.

(** ** Conversions *)

Definition optional (s : string) : option string := if String.eqb s "" then None else Some s.

Definition kind_from_proto (v : Z) : result Status MediaKind :=
  match v with
  | 1 => Ok Avatar | 2 => Ok PostImage | 3 => Ok Video | _ => Err InvalidArgument
  end.
Definition rendition_from_proto (v : Z) : option RenditionKind :=
  match v with
  | 1 => Some Original | 2 => Some Thumbnail | 3 => Some Small | 4 => Some MediumSize
  | 5 => Some Large | 6 => Some Manifest | 7 => Some Poster | _ => None
  end.
Definition visibility_from_proto (v : Z) : option DeliveryVisibility :=
  match v with 1 => Some Public | 2 => Some Signed | _ => None end.

Definition kind_to_proto (k : MediaKind) : Z :=
  match k with Avatar => 1 | PostImage => 2 | Video => 3 end.
Definition state_to_proto (s : AssetState) : Z :=
  match s with
  | Pending => 1 | Uploaded => 2 | Processing => 3 | Ready => 4 | Failed => 5
  | Quarantined => 6 | Deleted => 7
  end.
Definition rendition_kind_to_proto (k : RenditionKind) : Z :=
  match k with
  | Original => 1 | Thumbnail => 2 | Small => 3 | MediumSize => 4 | Large => 5
  | Manifest => 6 | Poster => 7
  end.
Definition visibility_to_proto (v : DeliveryVisibility) : Z :=
  match v with Public => 1 | Signed => 2 end.

Definition to_timestamp (t : Z) : Pb.Timestamp :=
  {| Pb.seconds := t / SECONDS; Pb.nanos := t mod SECONDS |}.

Definition issue_outcome_to_proto `{UuidText} (o : IssueUploadTicketOutcome) :
    Pb.IssueUploadTicketResponse := {|
  Pb.ir_asset_id := hyphenated (io_asset_id o);
  Pb.ir_ticket := (λ u, {|
    Pb.upload_url := url (presigned u); Pb.ticket_method := method (presigned u);
    Pb.ticket_headers := required_headers (presigned u);
    Pb.ticket_max_size_bytes := max_size_bytes u;
    Pb.ticket_expires_at := to_timestamp (upload_expires_at u) |}) <$> io_upload o;
  Pb.ir_deduplicated := deduplicated o |}.

Definition rendition_to_proto (r : Rendition.t) : Pb.Rendition := {|
  Pb.r_kind := rendition_kind_to_proto (Rendition.kind r); Pb.r_mime_type := Rendition.mime_type r;
  Pb.r_storage_key := Rendition.storage_key r; Pb.r_width := width (Rendition.dimensions r);
  Pb.r_height := height (Rendition.dimensions r); Pb.r_byte_size := Rendition.byte_size r |}.

Definition asset_to_proto `{UuidText} (a : Asset.t) : Pb.Asset := {|
  Pb.id := hyphenated (Asset.id a); Pb.owner_id := hyphenated (Asset.owner_id a);
  Pb.kind := kind_to_proto (Asset.kind a); Pb.state := state_to_proto (Asset.state a);
  Pb.mime_type := default "" (Asset.mime_type a); Pb.byte_size := default 0 (Asset.byte_size a);
  Pb.width := from_option width 0 (Asset.dimensions a);
  Pb.height := from_option height 0 (Asset.dimensions a);
  Pb.content_hash := default "" (Asset.content_hash a);
  Pb.blurhash := default "" (Asset.blurhash a);
  Pb.renditions := rendition_to_proto <$> Asset.renditions a;
  Pb.created_at := to_timestamp (Asset.created_at a);
  Pb.updated_at := to_timestamp (Asset.updated_at a) |}.

Definition delivered_to_proto `{UuidText} (v : DeliveredMediaView) : Pb.DeliveredMedia := {|
  Pb.dlm_asset_id := hyphenated (dm_asset_id v); Pb.dlm_state := state_to_proto (dm_state v);
  Pb.dlm_blurhash := default "" (dm_blurhash v);
  Pb.dlm_renditions := (λ r, {|
    Pb.dlr_kind := rendition_kind_to_proto (dr_kind r); Pb.dlr_url := dr_url r;
    Pb.dlr_visibility := visibility_to_proto (dr_visibility r);
    Pb.dlr_url_expires_at := to_timestamp <$> dr_expires_at r;
    Pb.dlr_width := dr_width r; Pb.dlr_height := dr_height r |}) <$> dm_renditions v;
  Pb.dlm_degraded := degraded v |}.

(** ** The calls *)

Abbreviation served A := (program (result Status A)).

Definition with_status {A} (p : program (outcome A)) : served A := map_err to_status <$> p.

Section Calls.
Context `{UuidText} `{Sha256Hex} `{ImageLib} `{Ffmpeg} `{MalwareScanner}.
Context (policy : MediaPolicy) (cdn : CdnGateway).

Definition parsed_id (s : string) : served Uuid := Ret (map_err to_status (id_try_from s)).

Definition issue_upload_ticket_rpc (fresh : Uuid) (req : Pb.IssueUploadTicketRequest) :
    served Pb.IssueUploadTicketResponse :=
  let? owner := parsed_id (Pb.iu_owner_id req) in
  let? kind := Ret (kind_from_proto (Pb.iu_kind req)) in
  let? mime := Ret (map_err to_status (mime_new (Pb.iu_declared_mime_type req))) in
  let cmd := {| it_owner_id := owner; it_kind := kind; it_declared_mime := mime;
                it_declared_size := Pb.iu_declared_size_bytes req;
                it_content_sha256 := optional (Pb.iu_content_sha256 req);
                it_idempotency_key := optional (Pb.iu_idempotency_key req) |} in
  let* now := ask Now in
  let? o := with_status (issue_ticket policy cmd fresh now) in
  Ret (Ok (issue_outcome_to_proto o)).

Definition commit_upload_rpc (req : Pb.CommitUploadRequest) : served Pb.Asset :=
  let? id := parsed_id (Pb.cr_asset_id req) in
  let cmd := {| cu_asset_id := id; cu_etag := optional (Pb.cr_etag req);
                cu_content_sha256 := optional (Pb.cr_content_sha256 req) |} in
  let* now := ask Now in
  let? a := with_status (commit_upload cmd now) in Ret (Ok (asset_to_proto a)).

(** [abort_upload] and [delete_asset] run the same command. *)
Definition delete_asset_rpc (req : Pb.OwnedRequest) : served unit :=
  let? id := parsed_id (Pb.or_asset_id req) in
  let? owner := parsed_id (Pb.or_owner_id req) in
  let* now := ask Now in
  with_status (delete_asset id owner now).

Definition abort_upload_rpc : Pb.OwnedRequest → served unit := delete_asset_rpc.

Definition get_asset_rpc (asset_id : string) : served Pb.Asset :=
  let? id := parsed_id asset_id in
  let? a := with_status (get_asset id) in Ret (Ok (asset_to_proto a)).

Definition resolve_delivery_rpc (req : Pb.ResolveDeliveryRequest) : served Pb.DeliveredMedia :=
  let? id := parsed_id (Pb.rd_asset_id req) in
  let* now := ask Now in
  let? v := with_status (resolve_delivery cdn id (rendition_from_proto (Pb.rd_preferred req))
              (visibility_from_proto (Pb.rd_visibility req)) now) in
  Ret (Ok (delivered_to_proto v)).

Definition batch_resolve_delivery_rpc (req : Pb.BatchResolveDeliveryRequest) :
    served (list Pb.DeliveredMedia) :=
  let ids := omap parse_uuid (Pb.br_asset_ids req) in
  let* now := ask Now in
  let? vs := with_status (resolve_batch cdn ids (rendition_from_proto (Pb.br_preferred req))
               (visibility_from_proto (Pb.br_visibility req)) now) in
  Ret (Ok (delivered_to_proto <$> vs)).

Definition reprocess_rpc (asset_id : string) : served Pb.Asset :=
  let? id := parsed_id asset_id in
  let* now := ask Now in
  let? _ := with_status (process_asset id now) in
  let? a := with_status (get_asset id) in Ret (Ok (asset_to_proto a)).

(** ** The consumers *)

(** serde's view of [moderation.v1.events]. *)
Record WireSubject := { wire_entity_type : string; wire_entity_id : string }.
Inductive ModerationWireEvent :=
  | EnforcementApplied (subject : WireSubject) (action : string)
  | EnforcementReversed (subject : WireSubject)
  | Other.

Definition map_moderation (e : ModerationWireEvent) : option (AssetId * ModerationAction) :=
  match e with
  | EnforcementApplied s action =>
      if String.eqb (wire_entity_type s) "media"
         && (String.eqb action "remove_content" || String.eqb action "visibility_limit")
      then (λ id, (id, Quarantine)) <$> parse_uuid (wire_entity_id s) else None
  | EnforcementReversed s =>
      if String.eqb (wire_entity_type s) "media"
      then (λ id, (id, Restore)) <$> parse_uuid (wire_entity_id s) else None
  | Other => None
  end.

Definition on_moderation_event (e : ModerationWireEvent) : program (outcome unit) :=
  match map_moderation e with
  | None => Ret (Ok tt)
  | Some (id, action) =>
      let* now := ask Now in
      let? _ := apply_moderation id action now in Ret (Ok tt)
  end.

Definition on_uploaded_image (e : DomainEvent) : program (outcome unit) :=
  match e with
  | AssetUploaded id _ kind _ _ _ =>
      if decide (kind ≠ Video) then
        let* now := ask Now in
        let? _ := process_asset id now in Ret (Ok tt)
      else Ret (Ok tt)
  | _ => Ret (Ok tt)
  end.

Definition on_uploaded_video (e : DomainEvent) : program (outcome unit) :=
  match e with
  | AssetUploaded id _ kind _ _ _ =>
      if decide (kind = Video) then
        let* now := ask Now in
        let? _ := transcode_asset id now in Ret (Ok tt)
      else Ret (Ok tt)
  | _ => Ret (Ok tt)
  end.

Section Outcomes.
Context (text : MediaError → string).

#[export] Instance media_classify : ClassifyError MediaError :=
  {| error_is_retryable := is_retryable; error_text := text |}.

(** What the runner is given for a record. *)
Definition consumed (p : program (outcome unit)) : program ProcessOutcome := from_result <$> p.
End Outcomes.

(** ** Everything the service does *)

Inductive task :=
  | IssueTicket (fresh : Uuid) (req : Pb.IssueUploadTicketRequest)
  | CommitUpload (req : Pb.CommitUploadRequest)
  | AbortUpload (req : Pb.OwnedRequest)
  | GetAsset (asset_id : string)
  | DeleteAsset (req : Pb.OwnedRequest)
  | ResolveDelivery (req : Pb.ResolveDeliveryRequest)
  | BatchResolve (req : Pb.BatchResolveDeliveryRequest)
  | Reprocess (asset_id : string)
  | MediaEvent (e : DomainEvent)
  | VideoEvent (e : DomainEvent)
  | ModerationEvent (e : ModerationWireEvent).

Inductive result_of :=
  | Ticket (r : result Status Pb.IssueUploadTicketResponse)
  | OneAsset (r : result Status Pb.Asset)
  | Emptied (r : result Status unit)
  | Delivered (r : result Status Pb.DeliveredMedia)
  | DeliveredAll (r : result Status (list Pb.DeliveredMedia))
  | Consumed (r : outcome unit).

Definition run_task (t : task) : program result_of :=
  match t with
  | IssueTicket fresh req => Ticket <$> issue_upload_ticket_rpc fresh req
  | CommitUpload req => OneAsset <$> commit_upload_rpc req
  | AbortUpload req => Emptied <$> abort_upload_rpc req
  | GetAsset s => OneAsset <$> get_asset_rpc s
  | DeleteAsset req => Emptied <$> delete_asset_rpc req
  | ResolveDelivery req => Delivered <$> resolve_delivery_rpc req
  | BatchResolve req => DeliveredAll <$> batch_resolve_delivery_rpc req
  | Reprocess s => OneAsset <$> reprocess_rpc s
  | MediaEvent e => Consumed <$> on_uploaded_image e
  | VideoEvent e => Consumed <$> on_uploaded_video e
  | ModerationEvent e => Consumed <$> on_moderation_event e
  end.
End Calls.
