(* ===== verification/MediaKeep.v ===== *)
(** * Media: what every task of the service keeps, whatever runs beside it

    A [Keeper] is a property of assets, relative to what moderation has answered so far,
    that every use case preserves, and a set of objects that no use case deletes.  If the
    stored and the cached assets of a world have the property, they have it after any run of
    any pool of tasks, under any failures, and every view delivered is that of such an
    asset.  The instances are in [MediaProofs]. *)

From S2P Require Import Prelude Prog Consumer MediaDomain MediaStore MediaPipeline MediaHandlers MediaEdge.
From S2P Require AccountDomain ModerationEdge.
Import AccountDomain(Uuid, UuidText, parse_uuid, hyphenated).
From stdpp Require Import list.
Local Open Scope Z_scope.
Local Open Scope prog_scope.

Abbreviation answers := (list (ModerationEdge.Pb.ScreenRequest * ScreenResponse)).

(** Moderation has answered, for the asset, its owner and its hash, without holding it. *)
Definition passed `{UuidText} (s : answers) (a : Asset.t) : Prop :=
  ∃ h r, Asset.content_hash a = Some h ∧
    (screen_request (Asset.id a) (Asset.owner_id a) h, r) ∈ s ∧ blocked (decision_of r) = false.

(** The keys of derived objects: under the segment of a kind. *)
Definition derived_key (k : StorageKey) : Prop := ∃ kind rest, k = path_segment kind +:+ "/" +:+ rest.

Definition sound_dims (d : Dimensions) : Prop := 0 < width d ∧ 0 < height d ∧ pixels d ≤ MAX_PIXELS.
Definition sound_hash (h : ContentHash) : Prop := hash_new h = Ok h.
Definition sound_rendition (r : Rendition.t) : Prop :=
  derived_key (Rendition.storage_key r) ∧ sound_dims (Rendition.dimensions r).

(** From an [Uploaded] asset to what the pipeline stores. *)
Definition finish (derived : list Rendition.t * Blurhash) (now : Z) (a : Asset.t) : outcome Asset.t :=
  a ← Asset.begin_processing now a;
  a ← Asset.set_blurhash derived.2 now a;
  a ← Asset.attach_all derived.1 now a; Asset.mark_ready now a.

Definition purged_keys `{UuidText} (a : Asset.t) : list StorageKey :=
  (Rendition.storage_key <$> Asset.renditions a) ++ [staging (Asset.id a)].

Class Keeper `{UuidText} := {
  good : answers → Asset.t → Prop;
  kept : StorageKey → Prop;
  may_issue : Uuid → Prop;
  may_restore : Uuid → Prop;
  good_mono s s' a : s ⊆ s' → good s a → good s' a;
  good_stored s a : good s a → good s (Asset.stored a);
  good_reserve s p now a :
    may_issue (rp_id p) → Asset.reserve p (for_kind (rp_kind p)) now = Ok a → good s a;
  good_finalize s p now a a' :
    good s a → sound_dims (fp_dimensions p) → sound_hash (fp_content_hash p) →
    Asset.finalize p (for_kind (Asset.kind a)) now a = Ok a' → good s a';
  good_failed s reason now a a' : good s a → Asset.mark_failed reason now a = Ok a' → good s a';
  good_quarantine s now a a' : good s a → Asset.quarantine now a = Ok a' → good s a';
  good_hold s now a : good s a → good s (Asset.place_legal_hold now a);
  good_ready s derived now a a' :
    good s a → passed s a → Forall sound_rendition derived.1 →
    finish derived now a = Ok a' → good s a';
  good_restore s now a a' :
    may_restore (Asset.id a) → good s a → Asset.restore now a = Ok a' → good s a';
  good_delete s now a a' :
    good s a → Asset.delete now a = Ok a' → good s a' ∧ Forall (λ k, ¬ kept k) (purged_keys a');
}.

(** The aggregate's methods leave the identity of an asset alone. *)
Definition same_identity (a a' : Asset.t) : Prop := Asset.id a' = Asset.id a.

Section Identity.
Implicit Types (a : Asset.t).

Lemma mark_failed_id m now a a' : Asset.mark_failed m now a = Ok a' → Asset.id a' = Asset.id a.
Proof. unfold Asset.mark_failed. case_decide; intros; by simplify_eq/=. Qed.
Lemma quarantine_id now a a' : Asset.quarantine now a = Ok a' → Asset.id a' = Asset.id a.
Proof. unfold Asset.quarantine. destruct (Asset.state a); intros; by simplify_eq/=. Qed.
Lemma restore_id now a a' : Asset.restore now a = Ok a' → Asset.id a' = Asset.id a.
Proof. unfold Asset.restore. case_decide; intros; by simplify_eq/=. Qed.
Lemma delete_id now a a' : Asset.delete now a = Ok a' → Asset.id a' = Asset.id a.
Proof.
  unfold Asset.delete. destruct (Asset.legal_hold a); [done|]. case_decide; intros; by simplify_eq/=.
Qed.
Lemma reserve_id p c now a : Asset.reserve p c now = Ok a → Asset.id a = rp_id p.
Proof. unfold Asset.reserve. intros (u & _ & ?)%result_bind_ok. by simplify_eq/=. Qed.
Lemma finalize_id p c now a a' : Asset.finalize p c now a = Ok a' → Asset.id a' = Asset.id a.
Proof.
  unfold Asset.finalize. intros (? & _ & H)%result_bind_ok.
  apply result_bind_ok in H as (? & _ & ?). by simplify_eq/=.
Qed.
Lemma attach_rendition_id r now a a' :
  Asset.attach_rendition r now a = Ok a' → Asset.id a' = Asset.id a.
Proof. unfold Asset.attach_rendition. case_decide; [done|]. case_match; intros; by simplify_eq/=. Qed.
Lemma attach_all_id rs now a a' : Asset.attach_all rs now a = Ok a' → Asset.id a' = Asset.id a.
Proof.
  revert a. induction rs as [|r rs IH]; intros a; simpl; [by intros [= <-]|].
  intros (a1 & H1 & H2)%result_bind_ok. rewrite (IH _ H2). by eapply attach_rendition_id.
Qed.
Lemma finish_id d now a a' : finish d now a = Ok a' → Asset.id a' = Asset.id a.
Proof.
  unfold finish. intros (a1 & H1 & H)%result_bind_ok. apply result_bind_ok in H as (a2 & H2 & H).
  apply result_bind_ok in H as (a3 & H3 & H4).
  assert (Asset.id a1 = Asset.id a) as <-.
  { unfold Asset.begin_processing in H1. apply result_bind_ok in H1 as (? & _ & ?). by simplify_eq/=. }
  assert (Asset.id a2 = Asset.id a1) as <-.
  { unfold Asset.set_blurhash in H2. case_decide; by simplify_eq/=. }
  rewrite <-(attach_all_id _ _ _ _ H3).
  unfold Asset.mark_ready in H4. apply result_bind_ok in H4 as (? & _ & H4).
  repeat case_decide; by simplify_eq/=.
Qed.
End Identity.

(** ** What the probes and the engines answer *)

Lemma all_rets_attempt {E A B} (P : result E B → Prop) (Q : A → Prop) (p : program (result E A)) f :
  all_rets (λ r, ∀ a, r = Ok a → Q a) p → (∀ a, Q a → all_rets P (f a)) → (∀ e, P (Err e)) →
  all_rets P (attempt p f).
Proof.
  intros Hp Hf He. eapply all_rets_then; [exact Hp|]. intros [a|e] Ha; [by apply Hf, Ha|apply He].
Qed.

Lemma all_rets_after {E A B} (P : result E B → Prop) (p : program (result E A)) f :
  (∀ a, all_rets P (f a)) → (∀ e, P (Err e)) → all_rets P (attempt p f).
Proof.
  intros Hf He. apply (all_rets_attempt _ (λ _, True)); [|by auto|done].
  by apply all_rets_any.
Qed.

Lemma dimensions_sound w h d : dimensions_new w h = Ok d → 0 ≤ w → 0 ≤ h → sound_dims d.
Proof.
  unfold dimensions_new, sound_dims, pixels. intros Hd Hw Hh.
  destruct ((w =? 0) || (h =? 0)) eqn:E; [done|]. destruct (MAX_PIXELS <? w * h) eqn:E2; [done|].
  injection Hd as <-. zbool. simpl. lia.
Qed.

Definition sound_report (r : outcome MediaProbeReport) : Prop :=
  ∀ rep, r = Ok rep → sound_dims (mr_dimensions rep) ∧ sound_hash (mr_content_hash rep).

Section Engines.
Context `{UrlSigner} `{Sha256Hex} `{ImageLib} `{Ffmpeg}.

Lemma hash_sound b h : hash_new (sha256_hex b) = Ok h → sound_hash h.
Proof. rewrite sha256_hex_ok. intros [= <-]. apply sha256_hex_ok. Qed.

Lemma probe_sound k m : all_rets sound_report (probe k m).
Proof.
  unfold probe. case_match; (apply all_rets_after; [|done]); intros b rep Hr.
  - unfold inspect_video in Hr. apply result_bind_ok in Hr as (h & Hh & Hr).
    apply result_bind_ok in Hr as ([w' h'] & Hp & Hr).
    apply result_bind_ok in Hr as (d & Hd & Hr). simplify_eq/=. split; [|by eapply hash_sound].
    unfold probe_bytes_with_ffprobe in Hp. apply result_bind_ok in Hp as (? & _ & Hp).
    apply result_bind_ok in Hp as (? & _ & Hp). apply result_bind_ok in Hp as (ss & _ & Hp).
    unfold interpret_streams in Hp. split_guards; zbool.
    eapply dimensions_sound; [exact Hd|lia..].
  - unfold inspect_image in Hr. apply result_bind_ok in Hr as (h & Hh & Hr).
    apply result_bind_ok in Hr as (f & _ & Hr). apply result_bind_ok in Hr as (mt & _ & Hr).
    destruct (is_image mt); [|done]. simpl in Hr.
    apply result_bind_ok in Hr as (img & _ & Hr). apply result_bind_ok in Hr as (d & Hd & Hr).
    simplify_eq/=. split; [|by eapply hash_sound]. destruct (img_sides img) as [[] []].
    by eapply dimensions_sound.
Qed.

Definition sound_derived (r : outcome (list Rendition.t * Blurhash)) : Prop :=
  ∀ d, r = Ok d → Forall sound_rendition d.1.

Lemma encode_put_sound img kind h rk :
  all_rets (λ r, ∀ a, r = Ok a → sound_rendition a) (encode_put img kind h rk).
Proof.
  unfold encode_put. apply all_rets_after; [|done]. intros b. apply all_rets_after; [|done].
  intros _ r Hr. apply result_bind_ok in Hr as (m & _ & Hr). apply result_bind_ok in Hr as (d & Hd & Hr).
  simplify_eq. split; simpl.
  - by exists kind, (h +:+ "/" +:+ slug rk +:+ "." +:+ "jpg").
  - destruct (img_sides img) as [[] []]. by eapply dimensions_sound.
Qed.

Lemma ladder_sound img kind h n l :
  all_rets (λ r, ∀ rs, r = Ok rs → Forall sound_rendition rs) (encode_ladder img kind h n l).
Proof.
  induction l as [|r l IH]; [by intros rs [= <-]|]. cbn [encode_ladder]. case_match; [|done].
  eapply all_rets_attempt; [apply encode_put_sound| |done]. intros x Hx.
  eapply all_rets_attempt; [apply IH| |done]. intros rs Hrs rs' [= <-]. by constructor.
Qed.

Lemma derive_sound k kind h : all_rets sound_derived (derive k kind h).
Proof.
  unfold derive. apply all_rets_after; [|done]. intros b. apply all_rets_after; [|done]. intros img.
  eapply all_rets_attempt; [apply encode_put_sound| |done]. intros o Ho.
  eapply all_rets_attempt; [apply ladder_sound| |done]. intros rs Hrs d Hd.
  apply result_bind_ok in Hd as (bl & _ & Hd). apply result_bind_ok in Hd as (bh & _ & Hd).
  simplify_eq. by constructor.
Qed.

Lemma even_height_nonneg w sw sh : 0 ≤ even_height w sw sh.
Proof.
  unfold even_height. case_match; [done|].
  pose proof (Z.mod_pos_bound (w * sh / sw) (2 ^ 32) ltac:(lia)).
  pose proof (Z.mod_le ((w * sh / sw) mod 2 ^ 32) 2 ltac:(lia) ltac:(lia)). lia.
Qed.

Lemma rungs_nonneg input sw sh rs fs vs :
  Forall (λ r, 0 ≤ rung_width r) rs → transcode_rungs input sw sh rs = Ok (fs, vs) →
  Forall (λ v, 0 ≤ rung_width (variant_rung v) ∧ 0 ≤ variant_height v) vs.
Proof.
  intros Hrs. revert fs vs. induction Hrs as [|r rs Hr Hrs IH]; intros fs vs; cbn [transcode_rungs].
  { by intros [= <- <-]. }
  intros (? & _ & Ht)%result_bind_ok. apply result_bind_ok in Ht as (? & _ & Ht).
  apply result_bind_ok in Ht as (? & _ & Ht). apply result_bind_ok in Ht as ([fs' vs'] & Hrec & Ht).
  simplify_eq. constructor; [split; [done|apply even_height_nonneg]|by eapply IH].
Qed.

Lemma plan_nonneg w : Forall (λ r, 0 ≤ rung_width r) (plan_ladder w).
Proof.
  assert (Hall : Forall (λ r, 0 ≤ rung_width r) VIDEO_LADDER) by (repeat constructor; done).
  unfold plan_ladder. destruct (filter _ VIDEO_LADDER) as [|r rs] eqn:E; [repeat constructor; done|].
  rewrite <-E. rewrite Forall_forall in *. intros x [_ Hx]%list_elem_of_filter. by apply Hall.
Qed.

Lemma artifacts_sound b h art : generate_artifacts b h = Ok art →
  sound_dims (top_dimensions art) ∧ sound_dims (poster_dimensions art).
Proof.
  unfold generate_artifacts, build_ladder. intros (? & _ & Ha)%result_bind_ok.
  apply result_bind_ok in Ha as (? & _ & Ha). apply result_bind_ok in Ha as (? & _ & Ha).
  apply result_bind_ok in Ha as (pb & _ & Ha). apply result_bind_ok in Ha as (img & _ & Ha).
  apply result_bind_ok in Ha as (pd & Hpd & Ha). apply result_bind_ok in Ha as ([fs vs] & Hvs & Ha).
  apply result_bind_ok in Ha as (bl & _ & Ha). apply result_bind_ok in Ha as (top & Htop & Ha).
  apply result_bind_ok in Ha as (td & Htd & Ha). simplify_eq/=.
  destruct (img_sides img) as [[] []]. split; [|by eapply dimensions_sound].
  apply rungs_nonneg in Hvs; [|apply plan_nonneg]. destruct vs as [|v vs]; [done|].
  simplify_eq/=. apply Forall_cons in Hvs as [[] _]. by eapply dimensions_sound.
Qed.

Lemma transcode_sound k h : all_rets sound_derived (transcode k h).
Proof.
  unfold transcode. apply all_rets_after; [|done]. intros b.
  apply (all_rets_attempt _ (λ art, sound_dims (top_dimensions art) ∧ sound_dims (poster_dimensions art))).
  { intros art Ha. by eapply artifacts_sound. }
  2: { done. }
  intros art [Ht Hp]. apply all_rets_after; [|done]. intros _ d Hd.
  apply result_bind_ok in Hd as (m1 & _ & Hd). apply result_bind_ok in Hd as (m2 & _ & Hd).
  apply result_bind_ok in Hd as (bh & _ & Hd). simplify_eq/=.
  rewrite !Forall_cons, Forall_nil. unfold sound_rendition, derived_key. simpl.
  split_and!; [|done| |done|done]; by eexists Video, _.
Qed.
End Engines.

(** ** Worlds and steps *)

Section Keep.
Context `{UrlSigner} `{HK : Keeper} `{Sha256Hex} `{ImageLib} `{Ffmpeg} `{MalwareScanner}.
Context (uuid_text : ∀ u v, hyphenated u = hyphenated v → u = v).

Lemma asset_key_inj u v : asset_key u = asset_key v → u = v.
Proof.
  unfold asset_key. intros E%string_app_inj_l. apply uuid_text.
  by apply string_app_inj_r in E.
Qed.

Record keeps (w : World) : Prop := {
  keeps_assets id row : assets w !! id = Some row →
    Asset.id (doc row) = id ∧ good (screened w) (doc row);
  keeps_cache k a e : cache w !! k = Some (a, e) →
    k = asset_key (Asset.id a) ∧ good (screened w) a;
}.

Definition R (w w' : World) : Prop :=
  (keeps w → keeps w') ∧ screened w ⊆ screened w' ∧
  ∀ k, kept k → is_Some (objects w !! k) → is_Some (objects w' !! k).

#[local] Instance R_refl : Reflexive R.
Proof. intros w. by split_and!. Qed.
#[local] Instance R_trans : Transitive R.
Proof. intros x y z (? & ? & ?) (? & ? & ?). split_and!; [auto|by etrans|auto]. Qed.

Lemma keeps_same w w' :
  assets w' = assets w → cache w' = cache w → screened w ⊆ screened w' → keeps w → keeps w'.
Proof.
  intros Ea Ec Hs [Ha Hc]. split; rewrite ?Ea, ?Ec.
  - intros id row Hr. destruct (Ha id row Hr). split; [done|by eapply good_mono].
  - intros k a e Hk. destruct (Hc k a e Hk). split; [done|by eapply good_mono].
Qed.

Lemma keeps_fewer w k : keeps w → keeps (w <| cache := delete k (cache w) |>).
Proof.
  intros [Ha Hc]. split; simpl; [done|]. intros k' a e Hk.
  apply lookup_delete_Some in Hk as [_ Hk]. eauto.
Qed.

(** Everything but the three calls that write an asset or remove an object. *)
Definition mild (c : call) : Prop :=
  match c with
  | UpsertAsset _ _ | RedisSet _ _ _ => False
  | HttpDelete k => ¬ kept k
  | _ => True
  end.

Ltac step_same := split_and!; [apply keeps_same; set_solver|set_solver|done].

Lemma mild_step c f w : mild c → R w (answer c f w).1.
Proof.
  destruct c as [|id|h|id row|k|k a t|k|k r|k b t|k|k t|k t|rq|e]; intros Hm; try done; simpl;
    try (destruct f; simpl; repeat case_match; reflexivity).
  - assert (Hd : R w (w <| cache := delete k (cache w) |>)).
    { split_and!; [apply keeps_fewer|done|done]. }
    destruct f; simpl; try done. by destruct applied.
  - assert (Hp : R w (w <| objects := <[k := b]> (objects w) |>)).
    { split_and!; [by apply keeps_same|done|]. intros k' _ Hk. simpl.
      destruct (decide (k' = k)) as [->|]; [by rewrite lookup_insert_eq|by rewrite lookup_insert_ne]. }
    destruct f; simpl; try done. by destruct applied.
  - assert (Hp : R w (w <| objects := delete k (objects w) |>)).
    { split_and!; [by apply keeps_same|done|]. intros k' Hk' Hk. simpl.
      rewrite lookup_delete_ne; [done|]. by intros ->. }
    destruct f; simpl; try done. by destruct applied.
  - split_and!; [by apply keeps_same|done|done].
  - destruct f; simpl; try reflexivity.
    split_and!; [apply keeps_same; set_solver|set_solver|done].
  - assert (Hp : R w (w <| topic := topic w ++ [e] |>)).
    { split_and!; [by apply keeps_same|done|done]. }
    destruct f; simpl; try done. by destruct applied.
Qed.

Lemma nature_step x w : R w (nature x w).
Proof.
  destruct x as [d|k|k b]; simpl.
  - split_and!; [by apply keeps_same|done|done].
  - split_and!; [apply keeps_fewer|done|done].
  - destruct (granted k w); [|reflexivity].
    split_and!; [by apply keeps_same|done|]. intros k' _ Hk. simpl.
    destruct (decide (k' = k)) as [->|]; [by rewrite lookup_insert_eq|by rewrite lookup_insert_ne].
Qed.

(** ** Programs that keep *)

Definition safe {A} (p : program A) (Q : A → answers → Prop) (w : World) : Prop :=
  rg answer (λ _ _, True) R R p (λ a w', keeps w' ∧ Q a (screened w')) w.

(** A fact that more answers of moderation leave true. *)
Definition lasting {A} (Q : A → answers → Prop) : Prop := ∀ a s s', s ⊆ s' → Q a s → Q a s'.

Lemma safe_ret {A} (a : A) (Q : A → answers → Prop) w :
  keeps w → (∀ s, screened w ⊆ s → Q a s) → safe (Ret a) Q w.
Proof. intros Hw HQ w1 (Hk & Hs & _). split; [auto|by apply HQ]. Qed.

Lemma safe_bind {A B} (p : program A) (f : A → program B) Q1 Q w :
  safe p Q1 w →
  (∀ a w', keeps w' → screened w ⊆ screened w' → Q1 a (screened w') → safe (f a) Q w') →
  safe (prog_bind f p) Q w.
Proof.
  intros Hp Hf. apply rg_bind; [apply _|].
  eapply (rg_weaken answer (λ _ _, True) R R R R p
    (λ a x, (keeps x ∧ Q1 a (screened x)) ∧ R w x)); [done|done| |by apply rg_track; [apply _| | |]].
  intros a x [[Hk HQ] HR]. apply Hf; [done|apply HR|done].
Qed.

Lemma safe_attempt {E A B} (p : program (result E A)) (f : A → program (result E B)) Q1 Q w :
  safe p (λ r s, ∀ a, r = Ok a → Q1 a s) w →
  (∀ a w', keeps w' → screened w ⊆ screened w' → Q1 a (screened w') → safe (f a) Q w') →
  (∀ e s, Q (Err e) s) →
  safe (attempt p f) Q w.
Proof.
  intros Hp Hf He. eapply safe_bind; [exact Hp|]. intros [a|e] w' Hk Hs HQ.
  - apply Hf; auto.
  - by apply safe_ret.
Qed.

Lemma safe_pure {E A B} (r : result E A) (f : A → program (result E B)) Q w :
  keeps w → (∀ a, r = Ok a → safe (f a) Q w) → (∀ e s, Q (Err e) s) →
  safe (attempt (Ret r) f) Q w.
Proof. intros Hw Hf He. destruct r as [a|e]; [by apply Hf|]. by apply safe_ret. Qed.

Lemma safe_weaken {A} (p : program A) (Q Q' : A → answers → Prop) w :
  (∀ a s, Q a s → Q' a s) → safe p Q w → safe p Q' w.
Proof. intros HQ. apply rg_weaken; [done|done|]. intros a x []. auto. Qed.

Lemma safe_fmap {A B} (g : A → B) (p : program A) Q w :
  safe p (λ a, Q (g a)) w → safe (g <$> p) Q w.
Proof.
  unfold safe. revert w. induction p as [a|c k IH|k IH]; intros w Hp w1 Hw1; simpl.
  - by apply Hp.
  - intros f Hf. destruct (Hp w1 Hw1 f Hf) as [Hg Hk]. split; [done|]. by apply IH.
  - intros b. apply IH, Hp, Hw1.
Qed.

(** Programs of mild calls, with what is known of their results. *)
Lemma safe_mild {A} (p : program A) (P : A → Prop) w :
  keeps w → all_calls mild p → all_rets P p → safe p (λ a _, P a) w.
Proof.
  intros Hw Hc Hr. apply (rg_weaken _ _ R R R R p (λ a x, P a ∧ keeps x)); [done|done| |].
  - intros a x [HP Hx]. split; [exact Hx|exact HP].
  - apply rg_keep; [by intros x y []| |done|done].
    eapply all_calls_weaken; [|exact Hc]. intros c Hm f x _ Hx.
    pose proof (mild_step c f x Hm) as HR. split; [done|]. by apply HR.
Qed.

Lemma safe_still {A} (p : program A) w :
  keeps w → all_calls mild p → safe p (λ _ _, True) w.
Proof. intros. by apply (safe_mild p (λ _, True)); [..|apply all_rets_any]. Qed.

(** One call. *)
Lemma safe_ask (c : call) Q w :
  keeps w →
  (∀ f w1, keeps w1 → screened w ⊆ screened w1 →
    R w1 (answer c f w1).1 ∧
    ∀ s, screened (answer c f w1).1 ⊆ s → Q (answer c f w1).2 s) →
  safe (ask c) Q w.
Proof.
  intros Hw Hc w1 Hw1 f _. destruct (Hc f w1) as [HR HQ]; [by apply Hw1|by apply Hw1|].
  split; [done|]. intros w2 Hw2. split; [by apply Hw2, HR, Hw1|]. apply HQ, Hw2.
Qed.

(** ** The adapters *)

Lemma safe_save a w :
  keeps w → good (screened w) a → safe (save a) (λ _ _, True) w.
Proof.
  intros Hw Ha. apply safe_fmap, safe_ask; [done|]. intros f w1 [Ka Kc] Hs.
  assert (Hg : good (screened w1) (Asset.stored a)).
  { apply good_stored. by eapply good_mono. }
  assert (HR : ∀ row, doc row = Asset.stored a →
    R w1 (w1 <| assets := <[Asset.id a := row]> (assets w1) |>)).
  { intros row Hrow. split_and!; [|done|done]. intros _. split; simpl; [|done].
    intros id r Hr. destruct (decide (id = Asset.id a)) as [->|Hne].
    - rewrite lookup_insert_eq in Hr. simplify_eq. by rewrite Hrow.
    - rewrite lookup_insert_ne in Hr by done. by apply Ka. }
  split; [|done]. destruct f; simpl; try (by apply HR; case_match).
  destruct applied; [by apply HR; case_match|reflexivity].
Qed.

Lemma safe_cache_put a w :
  keeps w → good (screened w) a → safe (cache_put a) (λ _ _, True) w.
Proof.
  intros Hw Ha. apply safe_fmap, safe_ask; [done|]. intros f w1 [Ka Kc] Hs.
  assert (Hg : good (screened w1) (Asset.stored a)).
  { apply good_stored. by eapply good_mono. }
  assert (HR : ∀ e, R w1 (w1 <| cache := <[asset_key (Asset.id a) := (Asset.stored a, e)]> (cache w1) |>)).
  { intros e. split_and!; [|done|done]. intros _. split; simpl; [done|].
    intros k b e' Hk. destruct (decide (k = asset_key (Asset.id a))) as [->|Hne].
    - rewrite lookup_insert_eq in Hk. by simplify_eq.
    - rewrite lookup_insert_ne in Hk by done. by eapply Kc. }
  split; [|done]. destruct f; simpl; try apply HR. destruct applied; [apply HR|reflexivity].
Qed.

Definition found (id : AssetId) (r : outcome (option Asset.t)) (s : answers) : Prop :=
  ∀ a, r = Ok (Some a) → Asset.id a = id ∧ good s a.

Lemma safe_find id w : keeps w → safe (find_by_id id) (found id) w.
Proof.
  intros Hw. apply safe_fmap, safe_ask; [done|]. intros f w1 [Ka _] _.
  assert (Hf : ∀ s, screened w1 ⊆ s → found id (Ok (doc <$> assets w1 !! id)) s).
  { intros s Hs a [= Ha]. destruct (assets w1 !! id) as [row|] eqn:E; simplify_eq/=.
    destruct (Ka _ _ E) as [-> ?]. split; [done|by eapply good_mono]. }
  destruct f; simpl; split; try done; try reflexivity; try apply Hf; by destruct applied.
Qed.

Lemma safe_cache_get id w : keeps w → safe (cache_get id) (found id) w.
Proof.
  intros Hw. apply safe_fmap, safe_ask; [done|]. intros f w1 [_ Kc] _.
  assert (Hf : ∀ s, screened w1 ⊆ s → found id (Ok (cached (asset_key id) w1)) s).
  { intros s Hs a [= Ha]. unfold cached in Ha.
    destruct (cache w1 !! asset_key id) as [[b e]|] eqn:E; simplify_eq/=. case_match; simplify_eq.
    destruct (Kc _ _ _ E) as [Hk ?]. split; [by apply asset_key_inj|by eapply good_mono]. }
  destruct f; simpl; split; try done; try reflexivity; try apply Hf; by destruct applied.
Qed.

Lemma safe_find_ready h w : keeps w → safe (find_ready_by_content_hash h) (λ _ _, True) w.
Proof. intros Hw. apply safe_fmap, safe_still; [done|]. by split. Qed.

Lemma safe_screen id owner h kind w :
  keeps w →
  safe (grpc_screen id owner h kind)
    (λ r s, ∀ d, r = Some (Ok d) → blocked d = false →
       ∃ x, (screen_request id owner h, x) ∈ s ∧ blocked (decision_of x) = false) w.
Proof.
  intros Hw. unfold grpc_screen.
  eapply (safe_bind _ _ (λ r s, ∀ x, r = Some (Ok x) → (screen_request id owner h, x) ∈ s)).
  - apply safe_ask; [done|]. intros f w1 Hk Hs. split; [by apply mild_step|].
    destruct f; simpl; try done. intros s Hin x' [= ->]. set_solver.
  - intros r w' Hk Hs Hr. apply safe_ret; [done|]. intros s Hs' d.
    destruct r as [[x|]|]; try done. intros [= <-] Hb. exists x. split; [|done]. apply Hs'. by apply Hr.
Qed.

Lemma mild_attempt {E A B} (p : program (result E A)) (f : A → program (result E B)) :
  all_calls mild p → (∀ a, all_calls mild (f a)) → all_calls mild (attempt p f).
Proof. intros Hp Hf. apply all_calls_bind; [done|]. by intros [a|e]; [apply Hf|]. Qed.

Lemma mild_fmap {A B} (g : A → B) (p : program A) : all_calls mild p → all_calls mild (g <$> p).
Proof. intros Hp. by apply all_calls_bind. Qed.

Lemma mild_ask c : mild c → all_calls mild (reply := reply) (ask c).
Proof. by split. Qed.

Ltac mild_step := first
  [ assumption | apply mild_attempt; [|intros ?] | apply mild_fmap | apply all_calls_bind; [|intros ?]
  | apply mild_ask; done | done ].
Ltac mild := repeat (mild_step || case_match).

Lemma mild_get_bytes k : all_calls mild (get_bytes k).
Proof. unfold get_bytes, MediaStore.sent. mild. Qed.
Lemma mild_put_bytes k b t : all_calls mild (put_bytes k b t).
Proof. unfold put_bytes, MediaStore.sent. mild. Qed.
Lemma mild_head k : all_calls mild (MediaStore.head k).
Proof. unfold MediaStore.head, object_size, MediaStore.sent. mild. Qed.
Lemma mild_delete k : ¬ kept k → all_calls mild (object_delete k).
Proof. intros Hk. unfold object_delete, MediaStore.sent. mild. Qed.
Lemma mild_invalidate id : all_calls mild (cache_invalidate id).
Proof. unfold cache_invalidate. mild. Qed.
Lemma mild_presign k t m e : all_calls mild (presign_put k t m e).
Proof. unfold presign_put. mild. Qed.
Lemma mild_resolve g k v now : all_calls mild (cdn_resolve g k v now).
Proof. unfold cdn_resolve. mild. Qed.

Lemma mild_publish_all es : all_calls mild (publish_all es).
Proof. induction es as [|e es IH]; [done|]. cbn [publish_all]. unfold publish. mild. Qed.

Lemma mild_purge keys : Forall (λ k, ¬ kept k) keys → all_calls mild (purge keys).
Proof. induction 1; [done|]. cbn [purge]. apply mild_attempt; [by apply mild_delete|done]. Qed.

Lemma mild_probe k m : all_calls mild (probe k m).
Proof.
  unfold probe, probe_video, probe_image. case_match; (apply mild_attempt; [apply mild_get_bytes|done]).
Qed.

Lemma mild_encode_put img kind h rk : all_calls mild (encode_put img kind h rk).
Proof. unfold encode_put. mild. Qed.

Lemma mild_ladder img kind h n l : all_calls mild (encode_ladder img kind h n l).
Proof.
  induction l as [|r l IH]; [done|]. cbn [encode_ladder]. case_match; [|done].
  apply mild_attempt; [apply mild_encode_put|]. intros x. by apply mild_attempt.
Qed.

Lemma mild_derive k kind h : all_calls mild (derive k kind h).
Proof.
  unfold derive. apply mild_attempt; [apply mild_get_bytes|]. intros b. apply mild_attempt; [done|].
  intros img. apply mild_attempt; [apply mild_encode_put|]. intros o.
  apply mild_attempt; [apply mild_ladder|done].
Qed.

Lemma mild_put_files h fs : all_calls mild (put_files h fs).
Proof. induction fs as [|f fs IH]; [done|]. cbn [put_files]. by apply mild_attempt; [apply mild_put_bytes|]. Qed.

Lemma mild_transcode k h : all_calls mild (transcode k h).
Proof.
  unfold transcode. apply mild_attempt; [apply mild_get_bytes|]. intros b. apply mild_attempt; [done|].
  intros art. apply mild_attempt; [apply mild_put_files|done].
Qed.

(** ** The use cases *)

Lemma safe_anything {A} (p : program A) (Q : A → answers → Prop) w :
  safe p Q w → safe p (λ _ _, True) w.
Proof. by apply safe_weaken. Qed.

Lemma safe_then {E A B} (p : program (result E A)) (f : A → program (result E B)) Q w :
  safe p (λ _ _, True) w →
  (∀ a w', keeps w' → screened w ⊆ screened w' → safe (f a) Q w') → (∀ e s, Q (Err e) s) →
  safe (attempt p f) Q w.
Proof.
  intros Hp Hf He. apply (safe_attempt p f (λ _ _, True)); [|by auto|done].
  by apply (safe_weaken _ (λ _ _, True)).
Qed.

Lemma safe_mild_then {E A B} (p : program (result E A)) (f : A → program (result E B)) Q w :
  keeps w → all_calls mild p →
  (∀ a w', keeps w' → screened w ⊆ screened w' → safe (f a) Q w') → (∀ e s, Q (Err e) s) →
  safe (attempt p f) Q w.
Proof. intros Hw Hp. apply safe_then. by apply safe_still. Qed.

Lemma safe_found id {B} (f : Asset.t → program (outcome B)) Q w :
  keeps w →
  (∀ a w', keeps w' → Asset.id a = id → good (screened w') a → safe (f a) Q w') →
  (∀ e s, Q (Err e) s) → safe (attempt (find_or_404 id) f) Q w.
Proof.
  intros Hw Hf He. apply (safe_attempt _ _ (λ a s, Asset.id a = id ∧ good s a)); [| |done].
  - unfold find_or_404. apply (safe_attempt _ _ (λ o s, ∀ a, o = Some a → Asset.id a = id ∧ good s a)).
    + eapply safe_weaken; [|by apply safe_find]. intros r s Hr o -> a ->. by apply Hr.
    + intros o w' Hk Hs Ho. apply safe_ret; [done|]. intros s Hs' a Ha.
      apply ok_or_ok in Ha. destruct (Ho a Ha) as [? ?]. split; [done|by eapply good_mono].
    + done.
  - intros a w' Hk _ [? ?]. by apply Hf.
Qed.

Lemma safe_persist a w :
  keeps w → good (screened w) a → safe (persist_and_publish a) (λ _ _, True) w.
Proof.
  intros Hw Ha. apply safe_then; [by apply safe_save| |done].
  intros _ w' Hk _. apply safe_still; [done|apply mild_publish_all].
Qed.

Lemma safe_issue policy cmd id now w :
  keeps w → may_issue id → safe (issue_ticket policy cmd id now) (λ _ _, True) w.
Proof.
  intros Hw Hid.
  assert (Hr : ∀ w, keeps w → safe (reserve_and_presign policy cmd id now) (λ _ _, True) w).
  { clear w Hw. intros w Hw. apply safe_pure; [done| |done]. intros a Ha.
    apply safe_then; [| |done].
    { apply safe_save; [done|]. exact (good_reserve _ {| rp_id := id |} now a Hid Ha). }
    intros _ w1 Hw1 _. apply safe_pure; [done| |done]. intros t Ht.
    apply safe_mild_then; [done|apply mild_presign| |done]. intros u w2 Hw2 _. by apply safe_ret. }
  unfold issue_ticket. destruct (it_content_sha256 cmd) as [sha|]; [|by apply Hr].
  destruct (dedup_enabled policy); [|by apply Hr].
  apply safe_pure; [done| |done]. intros h Hh. apply safe_then; [by apply safe_find_ready| |done].
  intros [a|] w1 Hw1 _; [by apply safe_ret|by apply Hr].
Qed.

Lemma safe_commit cmd now w : keeps w → safe (commit_upload cmd now) (λ _ _, True) w.
Proof.
  intros Hw. apply safe_found; [done| |done]. intros a w1 Hw1 _ Ha. case_decide; [by apply safe_ret|].
  apply safe_mild_then; [done|apply mild_head| |done]. intros [hd|] w2 Hw2 Hs2; [|by apply safe_ret].
  apply (safe_attempt _ _ (λ rep _, sound_dims (mr_dimensions rep) ∧ sound_hash (mr_content_hash rep))); [| |done].
  { apply (safe_mild _ sound_report); [done|apply mild_probe|apply probe_sound]. }
  intros rep w3 Hw3 Hs3 [Hd Hh]. apply safe_pure; [done| |done]. intros u _.
  apply safe_pure; [done| |done]. intros a' Ha'. apply safe_then; [| |done].
  - apply safe_persist; [done|]. eapply (good_finalize _ _ _ a); [|..|exact Ha']; [|done|done].
    eapply good_mono; [|exact Ha]. by etrans.
  - intros _ w4 Hw4 _. by apply safe_ret.
Qed.

Context (scan_mild : ∀ k, all_calls mild (scan k)).

Lemma finish_of now derived a a1 a2 :
  Asset.begin_processing now a = Ok a1 →
  (a ← Asset.set_blurhash derived.2 now a1;
   a ← Asset.attach_all derived.1 now a; Asset.mark_ready now a) = Ok a2 →
  finish derived now a = Ok a2.
Proof. intros E1 E2. unfold finish. rewrite E1. exact E2. Qed.

Lemma begin_id now a a1 : Asset.begin_processing now a = Ok a1 → Asset.id a1 = Asset.id a.
Proof. unfold Asset.begin_processing. intros (? & _ & ?)%result_bind_ok. by simplify_eq/=. Qed.

Lemma safe_pipeline engine a now w :
  keeps w → good (screened w) a →
  (∀ k h, all_calls mild (engine k h)) → (∀ k h, all_rets sound_derived (engine k h)) →
  safe (pipeline engine a now) (λ _ _, True) w.
Proof.
  intros Hw Ha Hmild Hsound. unfold pipeline. apply safe_pure; [done| |done]. intros h Hh.
  apply ok_or_ok in Hh. apply safe_mild_then; [done|apply scan_mild| |done]. intros v w1 Hw1 Hs1.
  assert (Ha1 : good (screened w1) a) by by eapply good_mono. case_decide.
  { apply safe_pure; [done| |done]. intros a' Ha'. apply safe_then; [| |done].
    - apply safe_persist; [done|]. by eapply good_failed.
    - intros _ w2 Hw2 _. by apply safe_ret. }
  eapply safe_bind; [by apply safe_screen|]. intros r w2 Hw2 Hs2 Hr.
  assert (Ha2 : good (screened w2) a) by by eapply good_mono.
  apply safe_pure; [done| |done]. intros d Hd. destruct (blocked d) eqn:Hb.
  - apply safe_pure; [done| |done]. intros a' Ha'.
    assert (Hq : good (screened w2) (if csam d then Asset.place_legal_hold now a' else a')).
    { destruct (csam d); [apply good_hold|]; by eapply good_quarantine. }
    apply safe_mild_then; [done|apply mild_invalidate| |done]. intros _ w3 Hw3 Hs3.
    apply safe_then; [apply safe_persist; [done|by eapply good_mono]| |done].
    intros _ w4 Hw4 _. by apply safe_ret.
  - assert (Hp : passed (screened w2) a).
    { destruct (Hr d) as (x & Hx & Hbx); [by destruct r as [r|]; simplify_eq/=|done|]. by exists h, x. }
    apply safe_pure; [done| |done]. intros a1 E1.
    apply (safe_attempt _ _ (λ d _, Forall sound_rendition d.1)); [| |done].
    { apply (safe_mild _ sound_derived); [done|apply Hmild|apply Hsound]. }
    intros dv w3 Hw3 Hs3 Hdv. apply safe_pure; [done| |done]. intros a2 E2.
    assert (Hg : good (screened w3) a2).
    { eapply good_mono; [exact Hs3|]. eapply (good_ready _ dv); [exact Ha2|done..|].
      by eapply finish_of. }
    apply safe_then; [by apply safe_persist| |done]. intros _ w4 Hw4 Hs4.
    eapply safe_bind; [apply safe_cache_put; [done|by eapply good_mono]|].
    intros _ w5 Hw5 _ _. by apply safe_ret.
Qed.

Lemma safe_process id now w : keeps w → safe (process_asset id now) (λ _ _, True) w.
Proof.
  intros Hw. apply safe_found; [done| |done]. intros a w1 Hw1 _ Ha. case_decide; [by apply safe_ret|].
  apply safe_pipeline; [done|done|intros; apply mild_derive|intros; apply derive_sound].
Qed.

Lemma safe_transcode id now w : keeps w → safe (transcode_asset id now) (λ _ _, True) w.
Proof.
  intros Hw. apply safe_found; [done| |done]. intros a w1 Hw1 _ Ha. case_decide; [by apply safe_ret|].
  apply safe_pipeline; [done|done|intros; apply mild_transcode|intros; apply transcode_sound].
Qed.

Lemma safe_moderation id action now w :
  keeps w → (action = Restore → may_restore id) →
  safe (apply_moderation id action now) (λ _ _, True) w.
Proof.
  intros Hw Hr. unfold apply_moderation.
  apply (safe_attempt _ _ (λ o s, ∀ a, o = Some a → Asset.id a = id ∧ good s a)); [| |done].
  { eapply safe_weaken; [|by apply safe_find]. intros r s Hf o -> a ->. by apply Hf. }
  intros [a|] w1 Hw1 _ Ha; [|by apply safe_ret]. destruct (Ha a eq_refl) as [Hid Hg].
  apply (safe_attempt _ _ (λ a s, good s a)); [| |done].
  - destruct action.
    + apply safe_pure; [done| |done]. intros a' Ha'. apply safe_mild_then; [done| | |done].
      { unfold revoke. apply mild_attempt; [by destruct (Rendition.storage_key <$> _)|].
        intros _. apply mild_invalidate. }
      intros _ w2 Hw2 Hs2. apply safe_ret; [done|]. intros s Hs x [= <-].
      eapply good_mono; [exact Hs|]. eapply good_mono; [exact Hs2|]. by eapply good_quarantine.
    + apply safe_pure; [done| |done]. intros a' Ha'.
      apply safe_mild_then; [done|apply mild_invalidate| |done].
      intros _ w2 Hw2 Hs2. apply safe_ret; [done|]. intros s Hs x [= <-].
      eapply good_mono; [exact Hs|]. eapply good_mono; [exact Hs2|].
      eapply good_restore; [|done..]. rewrite Hid. by apply Hr.
  - intros a' w2 Hw2 _ Ha'. apply safe_then; [by apply safe_persist| |done].
    intros _ w3 Hw3 _. by apply safe_ret.
Qed.

Lemma safe_delete id owner now w : keeps w → safe (delete_asset id owner now) (λ _ _, True) w.
Proof.
  intros Hw. apply safe_found; [done| |done]. intros a w1 Hw1 _ Ha. case_decide; [by apply safe_ret|].
  apply safe_pure; [done| |done]. intros a' Ha'.
  destruct (good_delete _ _ _ _ Ha Ha') as [Hg Hk].
  apply safe_mild_then; [done|by apply mild_purge| |done]. intros _ w2 Hw2 Hs2.
  apply safe_mild_then; [done|done| |done]. intros _ w3 Hw3 Hs3.
  apply safe_mild_then; [done|apply mild_invalidate| |done]. intros _ w4 Hw4 Hs4.
  apply safe_persist; [done|]. eapply good_mono; [|exact Hg]. by do 2 etrans.
Qed.

(** ** The queries *)

Lemma safe_load id w :
  keeps w → safe (load id) (λ r s, ∀ a, r = Ok (Some a) → good s a) w.
Proof.
  intros Hw. eapply safe_bind; [by apply safe_cache_get|]. intros r w1 Hw1 Hs1 Hr.
  assert (Hrest : safe (attempt (find_by_id id) (λ found, match found with
      | Some a => prog_bind (λ _, Ret (Ok (Some a))) (cache_put a)
      | None => Ret (Ok None) end)) (λ r s, ∀ a, r = Ok (Some a) → good s a) w1).
  { apply (safe_attempt _ _ (λ o s, ∀ a, o = Some a → good s a)); [| |done].
    { eapply safe_weaken; [|by apply safe_find]. intros o s Hf x -> a ->. by apply Hf. }
    intros [a|] w2 Hw2 _ Ha; [|by apply safe_ret]. pose proof (Ha a eq_refl) as Hg.
    eapply safe_bind; [by apply safe_cache_put|]. intros _ w3 Hw3 Hs3 _. apply safe_ret; [done|].
    intros s Hs b [= <-]. eapply good_mono; [|exact Hg]. by etrans. }
  destruct r as [[a|]|e]; try exact Hrest. apply safe_ret; [done|]. intros s Hs b [= <-].
  eapply good_mono; [exact Hs|]. by apply Hr.
Qed.

Lemma mild_renditions g p v now rs : all_calls mild (resolve_renditions g p v now rs).
Proof.
  induction rs as [|r rs IH]; [done|]. cbn [resolve_renditions].
  destruct (match p with Some k => bool_decide (k ≠ Rendition.kind r) | None => false end); [done|].
  apply all_calls_bind; [apply mild_resolve|]. intros u. by apply all_calls_bind.
Qed.

Definition shown (s : answers) (id : AssetId) : Prop :=
  ∃ a, good s a ∧ Asset.state a = Ready ∧ Asset.id a = id.

Definition view_ok (s : answers) (v : DeliveredMediaView) : Prop :=
  dm_renditions v ≠ [] → shown s (dm_asset_id v).

Lemma shown_mono s s' id : s ⊆ s' → shown s id → shown s' id.
Proof. intros Hs (a & Ha & ? & ?). exists a. split_and!; [by eapply good_mono|done..]. Qed.

Lemma safe_view g a p v now w :
  keeps w → good (screened w) a → safe (resolve_asset g a p v now) (λ r s, view_ok s r) w.
Proof.
  intros Hw Ha. unfold resolve_asset. destruct (Asset.is_deliverable a) eqn:E; simpl.
  - eapply safe_bind; [apply safe_still; [done|apply mild_renditions]|].
    intros [vs failed] w1 Hw1 Hs1 _. apply safe_ret; [done|]. intros s Hs _.
    exists a. apply bool_decide_eq_true in E. split_and!; [|done..].
    eapply good_mono; [|exact Ha]. by etrans.
  - apply safe_ret; [done|]. by intros s _ [].
Qed.

Lemma safe_resolve g id p v now w :
  keeps w → safe (resolve_delivery g id p v now) (λ r s, ∀ m, r = Ok m → view_ok s m) w.
Proof.
  intros Hw. apply (safe_attempt _ _ (λ o s, ∀ a, o = Some a → good s a)); [| |done].
  { eapply safe_weaken; [|by apply safe_load]. intros r s Hl o -> a ->. by apply Hl. }
  intros o w1 Hw1 _ Ho. apply safe_pure; [done| |done]. intros a ->%ok_or_ok.
  eapply safe_bind; [apply safe_view; [done|by apply Ho]|]. intros m w2 Hw2 _ Hm.
  apply safe_ret; [done|]. intros s Hs m' [= <-] Hne. by eapply shown_mono, Hm.
Qed.

Lemma safe_batch g ids p v now w :
  keeps w → safe (resolve_batch g ids p v now) (λ r s, ∀ ms, r = Ok ms → Forall (view_ok s) ms) w.
Proof.
  revert w. induction ids as [|id ids IH]; intros w Hw.
  { apply safe_ret; [done|]. by intros s _ ms [= <-]. }
  cbn [resolve_batch].
  apply (safe_attempt _ _ (λ o s, ∀ a, o = Some a → good s a)); [| |done].
  { eapply safe_weaken; [|by apply safe_load]. intros r s Hl o -> a ->. by apply Hl. }
  intros [a|] w1 Hw1 _ Ho; [|by apply IH].
  eapply safe_bind; [apply safe_view; [done|by apply Ho]|]. intros m w2 Hw2 _ Hm.
  apply (safe_attempt _ _ (λ ms s, Forall (view_ok s) ms)); [by apply IH| |done].
  intros ms w3 Hw3 Hs3 Hms. apply safe_ret; [done|]. intros s Hs ms' [= <-]. constructor.
  - intros Hne. eapply shown_mono; [|by apply Hm]. by etrans.
  - eapply Forall_impl; [exact Hms|]. intros x Hx Hne. by eapply shown_mono, Hx.
Qed.

(** ** Tasks and pools *)

Context (policy : MediaPolicy) (cdn : CdnGateway).

Definition admitted (t : task) : Prop :=
  match t with
  | IssueTicket fresh _ => may_issue fresh
  | ModerationEvent e => ∀ id, map_moderation e = Some (id, Restore) → may_restore id
  | _ => True
  end.

Definition media_ok (s : answers) (m : Pb.DeliveredMedia) : Prop :=
  Pb.dlm_renditions m ≠ [] → ∃ id, Pb.dlm_asset_id m = hyphenated id ∧ shown s id.

Definition result_ok (r : result_of) (s : answers) : Prop :=
  match r with
  | Delivered (Ok m) => media_ok s m
  | DeliveredAll (Ok ms) => Forall (media_ok s) ms
  | _ => True
  end.

Lemma media_ok_view s v : view_ok s v → media_ok s (delivered_to_proto v).
Proof.
  intros Hv Hne. exists (dm_asset_id v). split; [done|]. apply Hv. intros E. apply Hne. simpl. by rewrite E.
Qed.

Lemma safe_status {A} (p : program (outcome A)) (Q : A → answers → Prop) w :
  safe p (λ r s, ∀ a, r = Ok a → Q a s) w →
  safe (with_status p) (λ r s, ∀ a, r = Ok a → Q a s) w.
Proof.
  intros Hp. apply safe_fmap. eapply safe_weaken; [|exact Hp]. intros [a|e] s Ha b Hb; by simplify_eq/=; auto.
Qed.

Lemma safe_now {B} (f : Z → program B) Q w :
  keeps w → (∀ now w', keeps w' → safe (f now) Q w') → safe (prog_bind f (ask Now)) Q w.
Proof.
  intros Hw Hf. eapply safe_bind; [by apply safe_still, mild_ask|]. intros now w' Hw' _ _. by apply Hf.
Qed.

Lemma safe_served {A B} (p : program (outcome A)) (f : A → program (result Status B)) Q w :
  safe p (λ _ _, True) w →
  (∀ a w', keeps w' → safe (f a) Q w') → (∀ e s, Q (Err e) s) →
  safe (attempt (with_status p) f) Q w.
Proof.
  intros Hp Hf He. apply safe_then; [by apply safe_fmap| |done]. intros a w' Hw' _. by apply Hf.
Qed.

Lemma task_keeps t w : keeps w → admitted t → safe (run_task policy cdn t) result_ok w.
Proof.
  intros Hw Ht.
  assert (Hone : ∀ id w, keeps w → safe (get_asset id) (λ _ _, True) w).
  { intros id w' Hw'. apply safe_still; [done|]. unfold get_asset, find_or_404. mild. }
  destruct t as [fresh req|req|req|s|req|req|req|s|e|e|e]; simpl; apply safe_fmap; simpl.
  - unfold issue_upload_ticket_rpc. apply safe_pure; [done| |done]. intros owner _.
    apply safe_pure; [done| |done]. intros kind _. apply safe_pure; [done| |done]. intros mime _.
    apply safe_now; [done|]. intros now w1 Hw1. apply safe_served; [by apply safe_issue| |done].
    intros o w2 Hw2. by apply safe_ret.
  - unfold commit_upload_rpc. apply safe_pure; [done| |done]. intros id _.
    apply safe_now; [done|]. intros now w1 Hw1. apply safe_served; [by apply safe_commit| |done].
    intros o w2 Hw2. by apply safe_ret.
  - unfold abort_upload_rpc, delete_asset_rpc. apply safe_pure; [done| |done]. intros id _.
    apply safe_pure; [done| |done]. intros owner _. apply safe_now; [done|]. intros now w1 Hw1.
    apply safe_fmap. by apply safe_delete.
  - unfold get_asset_rpc. apply safe_pure; [done| |done]. intros id _.
    apply safe_served; [by apply Hone| |done]. intros a w1 Hw1. by apply safe_ret.
  - unfold delete_asset_rpc. apply safe_pure; [done| |done]. intros id _.
    apply safe_pure; [done| |done]. intros owner _. apply safe_now; [done|]. intros now w1 Hw1.
    apply safe_fmap. by apply safe_delete.
  - unfold resolve_delivery_rpc. apply safe_pure; [done| |done]. intros id _.
    apply safe_now; [done|]. intros now w1 Hw1.
    apply (safe_attempt _ _ (λ m s, view_ok s m)); [by apply safe_status, safe_resolve| |done].
    intros m w2 Hw2 _ Hm. apply safe_ret; [done|]. intros s Hs.
    apply media_ok_view. intros Hne. by eapply shown_mono, Hm.
  - unfold batch_resolve_delivery_rpc. apply safe_now; [done|]. intros now w1 Hw1.
    apply (safe_attempt _ _ (λ ms s, Forall (view_ok s) ms)); [by apply safe_status, safe_batch| |done].
    intros ms w2 Hw2 _ Hms. apply safe_ret; [done|]. intros s Hs. simpl. apply Forall_fmap.
    eapply Forall_impl; [exact Hms|]. intros m Hm. apply media_ok_view. intros Hne.
    by eapply shown_mono, Hm.
  - unfold reprocess_rpc. apply safe_pure; [done| |done]. intros id _.
    apply safe_now; [done|]. intros now w1 Hw1. apply safe_served; [by apply safe_process| |done].
    intros o w2 Hw2. apply safe_served; [by apply Hone| |done]. intros a w3 Hw3. by apply safe_ret.
  - unfold on_uploaded_image. destruct e; try by apply safe_ret. case_decide; [|by apply safe_ret].
    apply safe_now; [done|]. intros now w1 Hw1. apply safe_then; [by apply safe_process| |done].
    intros o w2 Hw2 _. by apply safe_ret.
  - unfold on_uploaded_video. destruct e; try by apply safe_ret. case_decide; [|by apply safe_ret].
    apply safe_now; [done|]. intros now w1 Hw1. apply safe_then; [by apply safe_transcode| |done].
    intros o w2 Hw2 _. by apply safe_ret.
  - unfold on_moderation_event. destruct (map_moderation e) as [[id action]|] eqn:E; [|by apply safe_ret].
    apply safe_now; [done|]. intros now w1 Hw1. apply safe_then; [| |done].
    { apply safe_moderation; [done|]. intros ->. by apply Ht. }
    intros o w2 Hw2 _. by apply safe_ret.
Qed.

(** A run of a pool: the world keeps what it kept, and so does every result. *)
Theorem pool_keeps (ts : list task) w (ms : list (move fault happening)) :
  keeps w → Forall admitted ts →
  let cfg := run_moves answer nature (run_task policy cdn <$> ts, w) ms in
  keeps cfg.2 ∧ R w cfg.2 ∧
  ∀ i r, cfg.1 !! i = Some (Ret r) → result_ok r (screened cfg.2).
Proof.
  intros Hw Hts cfg.
  assert (Ht : on_track answer (λ _ _ _, True) (λ _, R) (λ _, R)
                 (λ _ r w', keeps w' ∧ result_ok r (screened w')) (run_task policy cdn <$> ts, w)).
  { intros i p Hp. simpl in Hp. apply list_lookup_fmap_Some in Hp as (t & -> & Hi).
    apply task_keeps; [done|]. by eapply Forall_lookup_1. }
  assert (Hl : lawful_run answer nature (λ _ _ _, True) (run_task policy cdn <$> ts, w) ms).
  { generalize (run_task policy cdn <$> ts, w). clear. induction ms as [|m ms IH]; intros cfg; [done|].
    split; [|by apply IH]. destruct m; simpl; [|done..]. by destruct (cfg.1 !! i) as [[]|]. }
  assert (HR : R w cfg.2).
  { apply (on_track_reach answer (λ _ _ _, True) nature (λ _, R) (λ _, R) _ (λ _ _ _ _ _ H, H)
             (λ _, nature_step) R (run_task policy cdn <$> ts, w) ms (λ _ _ _ H, H) nature_step Hl Ht). }
  pose proof (on_track_run answer (λ _ _ _, True) nature (λ _, R) (λ _, R) _ (λ _ _ _ _ _ H, H)
                (λ _, nature_step) _ ms Hl Ht) as Hend.
  split_and!; [by apply HR|done|]. intros i r Hi.
  by destruct (Hend i (Ret r) Hi cfg.2) as [_ ?].
Qed.
End Keep.
