(* ===== verification/MediaProofs.v ===== *)
(** * Media: what holds of the service under any interleaving and any failures

    Three instances of [Keeper]: stored assets are sound and a READY one passed the screen
    ([screening]); a takedown that has ended holds ([takedown]); the evidence of a held
    asset is not purged ([holding]).  The theorems are about any pool of tasks. *)

From S2P Require Import Prelude Prog Consumer MediaDomain MediaStore MediaPipeline MediaHandlers.
From S2P Require Import MediaEdge MediaKeep.
From S2P Require AccountDomain ModerationEdge.
Import AccountDomain(Uuid, UuidText, parse_uuid, hyphenated).
From stdpp Require Import list.
Local Open Scope Z_scope.
Local Open Scope prog_scope.

(** ** Sound assets *)

(** The state an asset is in, or is to be restored to. *)
Definition reached (a : Asset.t) (st : AssetState) : Prop :=
  Asset.state a = st ∨ (Asset.state a = Quarantined ∧ Asset.prior_state a = Some st).

(** The facts of a finalized upload: what was probed meets the constraints of the kind. *)
Definition verified (a : Asset.t) : Prop :=
  ∃ m n d h, Asset.mime_type a = Some m ∧ Asset.byte_size a = Some n ∧
    Asset.dimensions a = Some d ∧ Asset.content_hash a = Some h ∧
    validate (for_kind (Asset.kind a)) m n = Ok tt ∧ sound_dims d ∧ sound_hash h.

Record sound `{UuidText} (s : answers) (a : Asset.t) : Prop := {
  so_declared : validate (for_kind (Asset.kind a)) (Asset.declared_mime a) (Asset.declared_size a) = Ok tt;
  so_verified st : reached a st → st ≠ Pending → st ≠ Quarantined → st ≠ Deleted → verified a;
  so_ready : reached a Ready →
    is_Some (Asset.rendition (Asset.master (Asset.kind a)) a) ∧ is_Some (Asset.blurhash a) ∧ passed s a;
  so_processing : ¬ reached a Processing;
  so_bare : ¬ reached a Ready → Asset.state a ≠ Deleted → Asset.renditions a = [];
  so_prior : Asset.state a = Quarantined →
    ∃ st, Asset.prior_state a = Some st ∧ st ≠ Quarantined ∧ st ≠ Deleted;
  so_kinds : NoDup (Rendition.kind <$> Asset.renditions a);
  so_renditions : Forall sound_rendition (Asset.renditions a);
}.

Lemma validate_unit c m n u : validate c m n = Ok u → validate c m n = Ok tt.
Proof. by destruct u. Qed.

Lemma rendition_none k a :
  Asset.rendition k a = None ↔ k ∉ (Rendition.kind <$> Asset.renditions a).
Proof.
  unfold Asset.rendition. destruct (list_find _ _) as [[i r]|] eqn:E; simpl.
  - apply list_find_Some in E as (Hi & <- & _). split; [done|]. intros [].
    apply list_elem_of_fmap. exists r. split; [done|]. by eapply list_elem_of_lookup_2.
  - apply list_find_None in E. split; [|done]. intros _ (r & -> & Hr)%list_elem_of_fmap.
    rewrite Forall_forall in E. by apply (E r).
Qed.

(** What no method but [finalize] and the legal hold touches. *)
Record same_facts (a a' : Asset.t) : Prop := {
  sf_id : Asset.id a' = Asset.id a;
  sf_owner : Asset.owner_id a' = Asset.owner_id a;
  sf_kind : Asset.kind a' = Asset.kind a;
  sf_declared_mime : Asset.declared_mime a' = Asset.declared_mime a;
  sf_declared_size : Asset.declared_size a' = Asset.declared_size a;
  sf_mime : Asset.mime_type a' = Asset.mime_type a;
  sf_size : Asset.byte_size a' = Asset.byte_size a;
  sf_dims : Asset.dimensions a' = Asset.dimensions a;
  sf_hash : Asset.content_hash a' = Asset.content_hash a;
  sf_hold : Asset.legal_hold a' = Asset.legal_hold a;
}.
#[export] Instance same_facts_refl : Reflexive same_facts.
Proof. by split. Qed.
#[export] Instance same_facts_trans : Transitive same_facts.
Proof. intros x y z [] []. split; by etrans. Qed.

Lemma begin_ok now a a' :
  Asset.begin_processing now a = Ok a' →
  same_facts a a' ∧ Asset.state a = Uploaded ∧ Asset.state a' = Processing ∧
  Asset.renditions a' = Asset.renditions a ∧ Asset.prior_state a' = Asset.prior_state a.
Proof.
  unfold Asset.begin_processing, Asset.ensure_state. case_decide; [|done]. intros [= <-]. by split_and!.
Qed.

Lemma set_blurhash_ok b now a a' :
  Asset.set_blurhash b now a = Ok a' →
  same_facts a a' ∧ Asset.state a' = Asset.state a ∧ Asset.blurhash a' = Some b ∧
  Asset.renditions a' = Asset.renditions a ∧ Asset.prior_state a' = Asset.prior_state a.
Proof. unfold Asset.set_blurhash. case_decide; [|done]. intros [= <-]. by split_and!. Qed.

Lemma attach_ok r now a a' :
  Asset.attach_rendition r now a = Ok a' →
  same_facts a a' ∧ Asset.state a' = Asset.state a ∧ Asset.blurhash a' = Asset.blurhash a ∧
  Asset.renditions a' = Asset.renditions a ++ [r] ∧ Asset.prior_state a' = Asset.prior_state a ∧
  Rendition.kind r ∉ (Rendition.kind <$> Asset.renditions a).
Proof.
  unfold Asset.attach_rendition. case_decide; [done|].
  destruct (Asset.rendition (Rendition.kind r) a) eqn:E; [done|]. intros [= <-].
  split_and!; try done. by apply rendition_none.
Qed.

Lemma attach_all_ok rs now a a' :
  Asset.attach_all rs now a = Ok a' →
  same_facts a a' ∧ Asset.state a' = Asset.state a ∧ Asset.blurhash a' = Asset.blurhash a ∧
  Asset.renditions a' = Asset.renditions a ++ rs ∧ Asset.prior_state a' = Asset.prior_state a ∧
  (NoDup (Rendition.kind <$> Asset.renditions a) → NoDup (Rendition.kind <$> Asset.renditions a')).
Proof.
  revert a. induction rs as [|r rs IH]; intros a; cbn [Asset.attach_all].
  { intros [= <-]. rewrite app_nil_r. by split_and!. }
  intros (a1 & (F1 & S1 & B1 & R1 & P1 & N1)%attach_ok & (F & S & B & E & P & N)%IH)%result_bind_ok.
  split_and!; [by etrans|congruence|congruence| |congruence|].
  - by rewrite E, R1, <-app_assoc.
  - intros Hd. apply N. rewrite R1, fmap_app. apply NoDup_app.
    split_and!; [done|set_solver|by apply NoDup_singleton].
Qed.

Lemma mark_ready_ok now a a' :
  Asset.mark_ready now a = Ok a' →
  same_facts a a' ∧ Asset.state a' = Ready ∧ Asset.blurhash a' = Asset.blurhash a ∧
  Asset.renditions a' = Asset.renditions a ∧ Asset.prior_state a' = Asset.prior_state a ∧
  is_Some (Asset.rendition (Asset.master (Asset.kind a)) a).
Proof.
  unfold Asset.mark_ready. intros (u & _ & Hr)%result_bind_ok.
  case_decide; [done|]. case_decide as Hm; [done|]. injection Hr as <-. split_and!; try done.
  by destruct (Asset.rendition _ a).
Qed.

(** What the pipeline stores. *)
Lemma finish_ok derived now a a' :
  finish derived now a = Ok a' →
  same_facts a a' ∧ Asset.state a = Uploaded ∧ Asset.state a' = Ready ∧
  Asset.blurhash a' = Some derived.2 ∧ Asset.renditions a' = Asset.renditions a ++ derived.1 ∧
  (NoDup (Rendition.kind <$> Asset.renditions a) → NoDup (Rendition.kind <$> Asset.renditions a')) ∧
  is_Some (Asset.rendition (Asset.master (Asset.kind a')) a').
Proof.
  unfold finish. intros (a1 & (F1 & S1 & S1' & R1 & _)%begin_ok & H)%result_bind_ok.
  apply result_bind_ok in H as (a2 & (F2 & S2 & B2 & R2 & _)%set_blurhash_ok & H).
  apply result_bind_ok in H as
    (a3 & (F3 & S3 & B3 & R3 & _ & N3)%attach_all_ok & (F4 & S4 & B4 & R4 & _ & M4)%mark_ready_ok).
  split_and!; [|done|done|congruence| | |].
  - do 3 (etrans; [eassumption|]). done.
  - by rewrite R4, R3, R2, R1.
  - intros Hn. rewrite R4. apply N3. by rewrite R2, R1.
  - rewrite (sf_kind _ _ F4). unfold Asset.rendition in *. by rewrite R4.
Qed.

Lemma finalize_ok p c now a a' :
  Asset.finalize p c now a = Ok a' →
  Asset.state a = Pending ∧ Asset.state a' = Uploaded ∧ Asset.id a' = Asset.id a ∧
  Asset.owner_id a' = Asset.owner_id a ∧ Asset.kind a' = Asset.kind a ∧
  Asset.declared_mime a' = Asset.declared_mime a ∧ Asset.declared_size a' = Asset.declared_size a ∧
  Asset.mime_type a' = Some (fp_mime_type p) ∧ Asset.byte_size a' = Some (fp_byte_size p) ∧
  Asset.dimensions a' = Some (fp_dimensions p) ∧
  Asset.content_hash a' = Some (fp_content_hash p) ∧ Asset.renditions a' = Asset.renditions a ∧
  Asset.legal_hold a' = Asset.legal_hold a ∧
  validate c (fp_mime_type p) (fp_byte_size p) = Ok tt.
Proof.
  unfold Asset.finalize, Asset.ensure_state. intros (u & Hu & H)%result_bind_ok.
  case_decide; [|done]. apply result_bind_ok in H as ([] & Hv & H). injection H as <-. by split_and!.
Qed.

Lemma mark_failed_ok reason now a a' :
  Asset.mark_failed reason now a = Ok a' →
  same_facts a a' ∧ (Asset.state a = Uploaded ∨ Asset.state a = Processing) ∧
  Asset.state a' = Failed ∧ Asset.renditions a' = Asset.renditions a.
Proof. unfold Asset.mark_failed. case_decide; [|done]. intros [= <-]. by split_and!. Qed.

Lemma quarantine_ok now a a' :
  Asset.quarantine now a = Ok a' →
  (a' = a ∧ Asset.state a = Quarantined) ∨
  same_facts a a' ∧ Asset.state a ≠ Quarantined ∧ Asset.state a ≠ Deleted ∧
  Asset.state a' = Quarantined ∧ Asset.prior_state a' = Some (Asset.state a) ∧
  Asset.renditions a' = Asset.renditions a ∧ Asset.blurhash a' = Asset.blurhash a.
Proof.
  unfold Asset.quarantine. destruct (Asset.state a) eqn:E; intros; simplify_eq;
    try (by left); right; by split_and!.
Qed.

Lemma hold_ok now a :
  let a' := Asset.place_legal_hold now a in
  Asset.id a' = Asset.id a ∧ Asset.state a' = Asset.state a ∧ Asset.legal_hold a' = true ∧
  Asset.renditions a' = Asset.renditions a.
Proof. by split_and!. Qed.

Lemma restore_ok now a a' :
  Asset.restore now a = Ok a' →
  same_facts a a' ∧ Asset.state a = Quarantined ∧
  Asset.state a' = default Ready (Asset.prior_state a) ∧ Asset.prior_state a' = None ∧
  Asset.renditions a' = Asset.renditions a ∧ Asset.blurhash a' = Asset.blurhash a.
Proof. unfold Asset.restore. case_decide as E; [done|]. intros [= <-]. by split_and!. Qed.

Lemma delete_ok now a a' :
  Asset.delete now a = Ok a' →
  same_facts a a' ∧ Asset.legal_hold a = false ∧ Asset.state a' = Deleted ∧
  Asset.renditions a' = Asset.renditions a.
Proof.
  unfold Asset.delete. destruct (Asset.legal_hold a); [done|].
  case_decide; intros [= <-]; by split_and!.
Qed.

(** ** The screen *)

Section Screening.
Context `{UuidText}.

Lemma passed_same s a a' : same_facts a a' → passed s a → passed s a'.
Proof.
  intros F (h & r & Hh & Hr & Hb). exists h, r.
  by rewrite (sf_hash _ _ F), (sf_id _ _ F), (sf_owner _ _ F).
Qed.

Lemma verified_same a a' : same_facts a a' → verified a → verified a'.
Proof.
  intros F (m & n & d & h & ? & ? & ? & ? & ? & ?). exists m, n, d, h.
  by rewrite (sf_hash _ _ F), (sf_mime _ _ F), (sf_size _ _ F), (sf_dims _ _ F), (sf_kind _ _ F).
Qed.

Lemma declared_same a a' :
  same_facts a a' →
  validate (for_kind (Asset.kind a)) (Asset.declared_mime a) (Asset.declared_size a) = Ok tt →
  validate (for_kind (Asset.kind a')) (Asset.declared_mime a') (Asset.declared_size a') = Ok tt.
Proof. intros F. by rewrite (sf_kind _ _ F), (sf_declared_mime _ _ F), (sf_declared_size _ _ F). Qed.

Lemma rendition_same k a a' :
  Asset.renditions a' = Asset.renditions a → Asset.rendition k a' = Asset.rendition k a.
Proof. unfold Asset.rendition. by intros ->. Qed.

(** A method that leaves the facts and the catalogue and only changes where the asset is. *)
Lemma sound_moves s a a' :
  sound s a → same_facts a a' → Asset.renditions a' = Asset.renditions a →
  (∀ st, reached a' st → st ≠ Pending → st ≠ Quarantined → st ≠ Deleted → verified a) →
  (reached a' Ready → reached a Ready ∧ Asset.blurhash a' = Asset.blurhash a) →
  ¬ reached a' Processing →
  (¬ reached a' Ready → Asset.state a' ≠ Deleted → Asset.renditions a = []) →
  (Asset.state a' = Quarantined →
     ∃ st, Asset.prior_state a' = Some st ∧ st ≠ Quarantined ∧ st ≠ Deleted) →
  sound s a'.
Proof.
  intros Ha F Er Hv Hr Hp Hb Hq. split.
  - eapply declared_same, so_declared; done.
  - intros st Hst ? ? ?. eapply verified_same; [done|]. by apply (Hv st).
  - intros Hst. destruct (Hr Hst) as [Hst' Eb]. destruct (so_ready _ _ Ha Hst') as (? & ? & ?).
    split_and!; [by rewrite (rendition_same _ _ _ Er), (sf_kind _ _ F)|by rewrite Eb|by eapply passed_same].
  - done.
  - intros ? ?. rewrite Er. by apply Hb.
  - done.
  - rewrite Er. apply Ha.
  - rewrite Er. apply Ha.
Qed.

Lemma sound_mono s s' a : s ⊆ s' → sound s a → sound s' a.
Proof.
  intros Hs [? ? Hr ? ? ? ? ?]. split; try done. intros Hst.
  destruct (Hr Hst) as (? & ? & h & r & ? & ? & ?). split_and!; [done|done|]. exists h, r. set_solver.
Qed.

Lemma sound_reserve s p now a : Asset.reserve p (for_kind (rp_kind p)) now = Ok a → sound s a.
Proof.
  unfold Asset.reserve. intros ([] & Hv & [= <-])%result_bind_ok.
  split; unfold reached; cbn; try done; try naive_solver.
  all: constructor.
Qed.

Lemma sound_finalize s p now a a' :
  sound s a → sound_dims (fp_dimensions p) → sound_hash (fp_content_hash p) →
  Asset.finalize p (for_kind (Asset.kind a)) now a = Ok a' → sound s a'.
Proof.
  intros Ha Hd Hh (S & S' & I & O & K & Dm & Ds & M & N & D & C & R' & L & V)%finalize_ok.
  assert (Hbare : Asset.renditions a = []).
  { apply (so_bare _ _ Ha); [|by rewrite S]. unfold reached. rewrite S. naive_solver. }
  split; unfold reached; rewrite ?S', ?R', ?Hbare, ?K, ?Dm, ?Ds; try naive_solver.
  - apply Ha.
  - intros _ _ _ _ _. exists (fp_mime_type p), (fp_byte_size p), (fp_dimensions p), (fp_content_hash p).
    by rewrite K.
  - constructor.
Qed.

Lemma sound_failed s reason now a a' : sound s a → Asset.mark_failed reason now a = Ok a' → sound s a'.
Proof.
  intros Ha (F & [S|S] & S' & R')%mark_failed_ok; [|by destruct (so_processing _ _ Ha); left].
  apply (sound_moves s a); try done; unfold reached; rewrite ?S'; try naive_solver.
  - intros _ _ _ _ _. apply (so_verified _ _ Ha Uploaded); [by left|done..].
  - intros _ _. apply (so_bare _ _ Ha); [unfold reached; rewrite S; naive_solver|by rewrite S].
Qed.

Lemma sound_quarantine s now a a' : sound s a → Asset.quarantine now a = Ok a' → sound s a'.
Proof.
  intros Ha [[-> _]|(F & Nq & Nd & S' & P' & R' & B')]%quarantine_ok; [done|].
  apply (sound_moves s a); try done; unfold reached; rewrite ?S', ?P'.
  - intros st [<-|[_ [= <-]]] ? ? ?; [done|]. apply (so_verified _ _ Ha (Asset.state a)); [by left|done..].
  - intros [?|[_ [= ?]]]; [done|]. split; [by left|done].
  - intros [?|[_ [= ?]]]; [done|]. destruct (so_processing _ _ Ha). by left.
  - intros Hn _. apply (so_bare _ _ Ha); [|done]. intros [E|[E _]]; [|done]. apply Hn. right. by rewrite E.
  - naive_solver.
Qed.

Lemma sound_hold s now a : sound s a → sound s (Asset.place_legal_hold now a).
Proof.
  intros [D V R0 P B Q K S]. split; [exact D| |exact R0|exact P|exact B|exact Q|exact K|exact S].
  intros st Hst ? ? ?. exact (V st Hst ltac:(done) ltac:(done) ltac:(done)).
Qed.

Lemma sound_stored s a : sound s a → sound s (Asset.stored a).
Proof.
  intros [D V R0 P B Q K S]. split; [exact D| |exact R0|exact P|exact B|exact Q|exact K|exact S].
  intros st Hst ? ? ?. exact (V st Hst ltac:(done) ltac:(done) ltac:(done)).
Qed.

Lemma sound_finish s derived now a a' :
  sound s a → passed s a → Forall sound_rendition derived.1 →
  finish derived now a = Ok a' → sound s a'.
Proof.
  intros Ha Hp Hd (F & S & S' & B' & R' & N' & M')%finish_ok.
  split; unfold reached; rewrite ?S'; try naive_solver.
  - eapply declared_same, so_declared; done.
  - intros _ _ _ _ _. eapply verified_same; [done|].
    apply (so_verified _ _ Ha Uploaded); [by left|done..].
  - intros _. split_and!; [done|by rewrite B'|by eapply passed_same].
  - apply N', Ha.
  - rewrite R'. apply Forall_app. split; [apply Ha|done].
Qed.

Lemma sound_restore s now a a' : sound s a → Asset.restore now a = Ok a' → sound s a'.
Proof.
  intros Ha (F & S & S' & P' & R' & B')%restore_ok.
  destruct (so_prior _ _ Ha S) as (st & Hst & Nq & Nd). rewrite Hst in S'. simpl in S'.
  assert (Hr : reached a st) by by right.
  apply (sound_moves s a); try done; unfold reached; rewrite ?S', ?P'.
  - intros st' [<-|[? ?]] ? ? ?; [|done]. by apply (so_verified _ _ Ha st).
  - intros [->|[? ?]]; [|done]. by split.
  - intros [->|[? ?]]; [|done]. by apply (so_processing _ _ Ha).
  - intros Hn _. apply (so_bare _ _ Ha); [|by rewrite S].
    intros [E|[_ E]]; [congruence|]. apply Hn. left. congruence.
  - done.
Qed.

Lemma sound_delete s now a a' : sound s a → Asset.delete now a = Ok a' → sound s a'.
Proof.
  intros Ha (F & L & S' & R')%delete_ok.
  apply (sound_moves s a); try done; unfold reached; rewrite ?S'; naive_solver.
Qed.

Lemma purge_nothing (ks : list StorageKey) : Forall (λ k, ¬ (λ _, False) k) ks.
Proof. apply Forall_true. by intros x []. Qed.

Definition screening : Keeper := {|
  good := sound; kept _ := False; may_issue _ := True; may_restore _ := True;
  good_mono := sound_mono; good_stored := sound_stored;
  good_reserve s p now a _ := sound_reserve s p now a;
  good_finalize := sound_finalize; good_failed := sound_failed;
  good_quarantine := sound_quarantine; good_hold := sound_hold; good_ready := sound_finish;
  good_restore s now a a' _ := sound_restore s now a a';
  good_delete s now a a' Ha Hd := conj (sound_delete s now a a' Ha Hd) (purge_nothing _) |}.
End Screening.

(** ** The theorems *)

(** A scanner that looks at objects and writes nothing. *)
Definition looks_only (c : call) : Prop :=
  match c with
  | UpsertAsset _ _ | RedisSet _ _ _ | HttpPut _ _ _ | HttpDelete _ | Screen _ => False
  | _ => True
  end.

Lemma looks_mild `{UuidText} (HK : Keeper) c : looks_only c → mild c.
Proof. by destruct c. Qed.

Section Theorems.
Context `{UrlSigner} `{UuidText} `{Sha256Hex} `{ImageLib} `{Ffmpeg} `{MalwareScanner}.
Context (uuid_text : ∀ u v, hyphenated u = hyphenated v → u = v).
Context (scan_looks : ∀ k, all_calls looks_only (scan k)).
Context (policy : MediaPolicy) (cdn : CdnGateway).

Lemma scan_mild (HK : Keeper) k : all_calls mild (scan k).
Proof. eapply all_calls_weaken; [|apply scan_looks]. intros c. apply looks_mild. Qed.

(** The stored and the cached assets are sound, under their own keys. *)
Definition healthy (w : World) : Prop := keeps (HK := screening) w.

Definition service (ts : list task) : list (program result_of) := run_task policy cdn <$> ts.

(** What a task was answered. *)
Definition answered (cfg : list (program result_of) * World) (r : result_of) : Prop :=
  ∃ i, cfg.1 !! i = Some (Ret r).

(** The media in an answer. *)
Definition media_in (r : result_of) : list Pb.DeliveredMedia :=
  match r with Delivered (Ok m) => [m] | DeliveredAll (Ok ms) => ms | _ => [] end.

Lemma media_in_ok (HK : Keeper) r s m : result_ok r s → m ∈ media_in r → media_ok s m.
Proof.
  destruct r as [| | |[x|]|[xs|]|]; simpl; intros Hr Hm; try by apply not_elem_of_nil in Hm.
  - apply list_elem_of_singleton in Hm. by subst.
  - rewrite Forall_forall in Hr. by apply Hr.
Qed.

Lemma run_keeps (HK : Keeper) ts w ms :
  keeps w → Forall admitted ts →
  keeps (run_moves answer nature (service ts, w) ms).2 ∧
  R w (run_moves answer nature (service ts, w) ms).2 ∧
  ∀ r m, answered (run_moves answer nature (service ts, w) ms) r → m ∈ media_in r →
    media_ok (screened (run_moves answer nature (service ts, w) ms).2) m.
Proof.
  intros Hw Hts. destruct (pool_keeps uuid_text (scan_mild HK) policy cdn ts w ms Hw Hts) as (Hk & HR & Hr).
  split_and!; [done|done|]. intros r m [i Hi] Hm. eapply media_in_ok; [by eapply Hr|done].
Qed.

(** C8. In any pool of requests and events, interleaved in any way and failing in any way:
    an asset that is stored as READY was probed and found to meet the constraints of its
    kind, carries the master rendition of its kind and a placeholder, and moderation has
    answered a screen of its owner and content hash without holding it; and moderation has
    so answered for whatever asset a view with URLs was delivered of. *)
Theorem only_screened_assets_are_published ts w ms :
  healthy w →
  let cfg := run_moves answer nature (service ts, w) ms in
  (∀ id row, assets cfg.2 !! id = Some row → Asset.state (doc row) = Ready →
    Asset.id (doc row) = id ∧ verified (doc row) ∧
    is_Some (Asset.rendition (Asset.master (Asset.kind (doc row))) (doc row)) ∧
    is_Some (Asset.blurhash (doc row)) ∧ passed (screened cfg.2) (doc row)) ∧
  (∀ r m, answered cfg r → m ∈ media_in r → Pb.dlm_renditions m ≠ [] →
    ∃ id owner hash x, Pb.dlm_asset_id m = hyphenated id ∧
      (screen_request id owner hash, x) ∈ screened cfg.2 ∧ blocked (decision_of x) = false).
Proof.
  intros Hw cfg. destruct (run_keeps screening ts w ms Hw) as ([Ha _] & _ & Hm).
  { apply Forall_true. by intros []. }
  split.
  - intros id row Hrow Hst. destruct (Ha id row Hrow) as [Hid Hs].
    assert (Hr : reached (doc row) Ready) by by left.
    destruct (so_ready _ _ Hs Hr) as (? & ? & ?). split_and!; try done.
    by apply (so_verified _ _ Hs Ready).
  - intros r m Hr Hin Hne. destruct (Hm r m Hr Hin Hne) as (id & Hid & a & Hs & Hst & <-).
    destruct (so_ready _ _ Hs) as (_ & _ & h & x & _ & Hx & Hb); [by left|].
    by exists (Asset.id a), (Asset.owner_id a), h, x.
Qed.

(** ** Takedowns *)

Section Takedown.
Context (x : AssetId).

(** The asset is not deliverable and is not to be restored. *)
Definition down (s : answers) (a : Asset.t) : Prop :=
  Asset.id a = x → Asset.state a = Quarantined ∨ Asset.state a = Deleted.

Lemma down_finalize s p now a a' :
  down s a → sound_dims (fp_dimensions p) → sound_hash (fp_content_hash p) →
  Asset.finalize p (for_kind (Asset.kind a)) now a = Ok a' → down s a'.
Proof.
  intros Ha _ _ (S & _ & I & _)%finalize_ok E. rewrite I in E. destruct (Ha E); congruence.
Qed.
Lemma down_failed s reason now a a' : down s a → Asset.mark_failed reason now a = Ok a' → down s a'.
Proof.
  intros Ha (F & S & _)%mark_failed_ok E. rewrite (sf_id _ _ F) in E. destruct (Ha E), S; congruence.
Qed.
Lemma down_quarantine s now a a' : down s a → Asset.quarantine now a = Ok a' → down s a'.
Proof. intros Ha [[-> _]|(_ & _ & _ & S & _)]%quarantine_ok; [done|]. by left. Qed.
Lemma down_finish s derived now a a' :
  down s a → passed s a → Forall sound_rendition derived.1 → finish derived now a = Ok a' → down s a'.
Proof.
  intros Ha _ _ (F & S & _)%finish_ok E. rewrite (sf_id _ _ F) in E. destruct (Ha E); congruence.
Qed.
Lemma down_restore s now a a' :
  Asset.id a ≠ x → down s a → Asset.restore now a = Ok a' → down s a'.
Proof. intros Hne _ (F & _)%restore_ok E. by rewrite (sf_id _ _ F) in E. Qed.
Lemma down_delete s now a a' : down s a → Asset.delete now a = Ok a' → down s a'.
Proof. intros _ (_ & _ & S & _)%delete_ok. by right. Qed.
Lemma down_reserve s p now a :
  rp_id p ≠ x → Asset.reserve p (for_kind (rp_kind p)) now = Ok a → down s a.
Proof. intros Hne I%reserve_id E. congruence. Qed.

Definition takedown : Keeper := {|
  good := down; kept _ := False; may_issue u := u ≠ x; may_restore u := u ≠ x;
  good_mono s s' a _ Ha := Ha; good_stored s a Ha := Ha;
  good_reserve := down_reserve; good_finalize := down_finalize; good_failed := down_failed;
  good_quarantine := down_quarantine; good_hold s now a Ha := Ha; good_ready := down_finish;
  good_restore := down_restore;
  good_delete s now a a' Ha Hd := conj (down_delete s now a a' Ha Hd) (purge_nothing _) |}.
End Takedown.

(** ** Legal holds *)

Section Holding.
Context (x : AssetId).

(** The keys in the catalogue are derived ones, and the asset [x] is held. *)
Definition held (s : answers) (a : Asset.t) : Prop :=
  Forall sound_rendition (Asset.renditions a) ∧ (Asset.id a = x → Asset.legal_hold a = true).

Lemma held_same s a a' :
  same_facts a a' → Asset.renditions a' = Asset.renditions a → held s a → held s a'.
Proof. intros F E [Hr Hh]. split; [by rewrite E|]. by rewrite (sf_id _ _ F), (sf_hold _ _ F). Qed.

Lemma held_reserve s p now a :
  rp_id p ≠ x → Asset.reserve p (for_kind (rp_kind p)) now = Ok a → held s a.
Proof.
  intros Hne Ha. pose proof (reserve_id _ _ _ _ Ha) as I. split; [|congruence].
  unfold Asset.reserve in Ha. apply result_bind_ok in Ha as (u & _ & ?). by simplify_eq/=.
Qed.
Lemma held_finalize s p now a a' :
  held s a → sound_dims (fp_dimensions p) → sound_hash (fp_content_hash p) →
  Asset.finalize p (for_kind (Asset.kind a)) now a = Ok a' → held s a'.
Proof.
  intros [Hr Hh] _ _ (_ & _ & I & _ & _ & _ & _ & _ & _ & _ & _ & R' & L & _)%finalize_ok.
  split; [by rewrite R'|]. by rewrite I, L.
Qed.
Lemma held_failed s reason now a a' : held s a → Asset.mark_failed reason now a = Ok a' → held s a'.
Proof. intros Ha (F & _ & _ & R')%mark_failed_ok. by eapply held_same. Qed.
Lemma held_quarantine s now a a' : held s a → Asset.quarantine now a = Ok a' → held s a'.
Proof.
  intros Ha [[-> _]|(F & _ & _ & _ & _ & R' & _)]%quarantine_ok; [done|]. by eapply held_same.
Qed.
Lemma held_hold s now a : held s a → held s (Asset.place_legal_hold now a).
Proof. intros [Hr _]. by split. Qed.
Lemma held_finish s derived now a a' :
  held s a → passed s a → Forall sound_rendition derived.1 → finish derived now a = Ok a' → held s a'.
Proof.
  intros [Hr Hh] _ Hd (F & _ & _ & _ & R' & _)%finish_ok.
  split; [by rewrite R'; apply Forall_app|]. by rewrite (sf_id _ _ F), (sf_hold _ _ F).
Qed.
Lemma held_restore s now a a' : held s a → Asset.restore now a = Ok a' → held s a'.
Proof. intros Ha (F & _ & _ & _ & R' & _)%restore_ok. by eapply held_same. Qed.

Lemma derived_not_staging k : derived_key k → k ≠ staging x.
Proof. intros (kind & rest & ->) E. unfold staging in E. destruct kind; simpl in E; discriminate E. Qed.

Lemma held_delete s now a a' :
  held s a → Asset.delete now a = Ok a' → held s a' ∧ Forall (λ k, k ≠ staging x) (purged_keys a').
Proof.
  intros Ha (F & L & _ & R')%delete_ok. split; [by eapply held_same|]. destruct Ha as [Hr Hh].
  unfold purged_keys. rewrite R'. apply Forall_app. split.
  - apply Forall_fmap. eapply Forall_impl; [exact Hr|]. intros r [Hk _]. by apply derived_not_staging.
  - constructor; [|constructor]. unfold staging. intros E%string_app_inj_l%uuid_text.
    rewrite (sf_id _ _ F) in E. by rewrite Hh in L.
Qed.

Definition holding : Keeper := {|
  good := held; kept k := k = staging x; may_issue u := u ≠ x; may_restore _ := True;
  good_mono s s' a _ Ha := Ha; good_stored s a Ha := Ha;
  good_reserve := held_reserve; good_finalize := held_finalize; good_failed := held_failed;
  good_quarantine := held_quarantine; good_hold := held_hold; good_ready := held_finish;
  good_restore s now a a' _ := held_restore s now a a'; good_delete := held_delete |}.
End Holding.

(** Every row and every cached asset is under its own id, with derived keys only: what the
    service has written, at any time ([healthy] implies it). *)
Record filed (w : World) : Prop := {
  filed_assets id row : assets w !! id = Some row →
    Asset.id (doc row) = id ∧ Forall sound_rendition (Asset.renditions (doc row));
  filed_cache k a e : cache w !! k = Some (a, e) →
    k = asset_key (Asset.id a) ∧ Forall sound_rendition (Asset.renditions a);
}.

Lemma healthy_filed w : healthy w → filed w.
Proof.
  intros [Ha Hc]. split.
  - intros id row Hr. destruct (Ha id row Hr) as [? Hs]. split; [done|apply Hs].
  - intros k a e Hk. destruct (Hc k a e Hk) as [? Hs]. split; [done|apply Hs].
Qed.

(** Tasks that neither mint the id again nor restore the asset. *)
Definition spares (x : AssetId) (t : task) : Prop :=
  match t with
  | IssueTicket fresh _ => fresh ≠ x
  | ModerationEvent e => map_moderation e ≠ Some (x, Restore)
  | _ => True
  end.

Definition fresh_ids (x : AssetId) (t : task) : Prop :=
  match t with IssueTicket fresh _ => fresh ≠ x | _ => True end.

Lemma row_stays x ts w ms :
  is_Some (assets w !! x) → is_Some (assets (run_moves answer nature (service ts, w) ms).2 !! x).
Proof.
  intros Hw.
  apply (run_moves_keeps answer nature (λ w, is_Some (assets w !! x)) (λ _, True) (service ts, w) ms); [| | |done].
  - intros c f v _ Hv. destruct c; try by (destruct f; simpl; repeat case_match).
    assert (Hi : ∀ r, is_Some (<[id := r]> (assets v) !! x)).
    { intros r. destruct (decide (id = x)) as [->|]; [by rewrite lookup_insert_eq|by rewrite lookup_insert_ne]. }
    destruct f; simpl; try apply Hi. by destruct applied; [apply Hi|].
  - intros [d|k|k b] v Hv; simpl; try done. by case_match.
  - apply Forall_forall. intros p _. clear. induction p; simpl; auto.
Qed.

(** The calls that leave the rows and the cache alone. *)
Definition same_records (w w' : World) : Prop := assets w' = assets w ∧ cache w' = cache w.
#[local] Instance same_records_refl : Reflexive same_records.
Proof. by split. Qed.
#[local] Instance same_records_trans : Transitive same_records.
Proof. intros x y z [] []. split; congruence. Qed.

Lemma published_alone f es w :
  same_records w (alone answer f (publish_all es) w).1.
Proof.
  apply alone_respects; [apply _|apply _|]. induction es as [|e es IH]; [done|].
  cbn [publish_all]. apply all_calls_bind; [|by intros []].
  split; [|done]. intros v. destruct f; simpl; try done. by destruct applied.
Qed.

Lemma find_alone f x w w' o :
  alone answer f (find_by_id x) w = (w', Ok o) → w' = w ∧ o = doc <$> assets w !! x.
Proof. destruct f; simpl; intros; by simplify_eq. Qed.

Lemma invalidate_alone f id w w' u :
  alone answer f (cache_invalidate id) w = (w', Ok u) →
  assets w' = assets w ∧ cache w' = delete (asset_key id) (cache w).
Proof. destruct f; simpl; intros; by simplify_eq. Qed.

Lemma save_alone f a w w' u :
  alone answer f (save a) w = (w', Ok u) →
  cache w' = cache w ∧
  ∃ row, assets w' = <[Asset.id a := row]> (assets w) ∧ doc row = Asset.stored a.
Proof.
  destruct f; simpl; intros; simplify_eq; (split; [done|]); simpl;
    destruct (assets w !! Asset.id a); by eexists.
Qed.

Lemma persist_alone f a w w' u :
  alone answer f (persist_and_publish a) w = (w', Ok u) →
  cache w' = cache w ∧
  ∃ row, assets w' = <[Asset.id a := row]> (assets w) ∧ doc row = Asset.stored a.
Proof.
  unfold persist_and_publish. rewrite alone_attempt.
  destruct (alone answer f (save a) w) as [w1 [[]|e]] eqn:E; [|done]. intros Hp.
  destruct (published_alone f (Asset.pending_events a) w1) as [P1 P2]. rewrite Hp in P1, P2.
  cbn [fst] in P1, P2. rewrite P1, P2. by eapply save_alone.
Qed.

(** A takedown that ran alone to its end: the row is not deliverable, the cache is empty. *)
Lemma takedown_records f x now w w' st :
  filed w → alone answer f (apply_moderation x Quarantine now) w = (w', Ok (Some st)) →
  ∃ row row', assets w !! x = Some row ∧ assets w' = <[x := row']> (assets w) ∧
    cache w' = delete (asset_key x) (cache w) ∧ Asset.id (doc row') = x ∧
    Asset.renditions (doc row') = Asset.renditions (doc row) ∧ Asset.state (doc row') = Quarantined.
Proof.
  intros Hw. unfold apply_moderation. rewrite alone_attempt.
  destruct (alone answer f (find_by_id x) w) as [w1 [o|e]] eqn:E1; [|done].
  apply find_alone in E1 as [-> ->].
  destruct (assets w !! x) as [row|] eqn:Erow; [|done]. change (doc <$> Some row) with (Some (doc row)).
  cbv iota. destruct (filed_assets _ Hw x row Erow) as [Hid _]. rewrite !alone_attempt.
  change (alone answer f (Ret (Asset.quarantine now (doc row))) w)
    with (w, Asset.quarantine now (doc row)).
  destruct (Asset.quarantine now (doc row)) as [a|e] eqn:Eq; [|done].
  assert (Hq : Asset.id a = x ∧ Asset.state a = Quarantined ∧
               Asset.renditions a = Asset.renditions (doc row)).
  { apply quarantine_ok in Eq as [[-> ?]|(F & _ & _ & ? & _ & ? & _)]; split_and!; try done.
    by rewrite (sf_id _ _ F). }
  destruct Hq as (Ha & Hst & Hren). rewrite alone_attempt.
  destruct (alone answer f (revoke a) w) as [w2 [[]|e]] eqn:E2; [|done].
  change (alone answer f (Ret (Ok a)) w2) with (w2, Ok (E:=MediaError) a). cbv iota.
  rewrite alone_attempt.
  destruct (alone answer f (persist_and_publish a) w2) as [w3 [[]|e]] eqn:E3; [|done].
  intros [= <- _]. exists row. apply persist_alone in E3 as (Ec & row' & Er' & Ed'). exists row'.
  assert (E4 : assets w2 = assets w ∧ cache w2 = delete (asset_key (Asset.id a)) (cache w)).
  { unfold revoke in E2. rewrite alone_attempt in E2.
    destruct (Rendition.storage_key <$> Asset.renditions a); exact (invalidate_alone _ _ _ _ _ E2). }
  destruct E4 as [Ea2 Ec2]. rewrite Er', Ec, Ec2, Ea2, Ed', Ha. by split_and!.
Qed.

Lemma takedown_alone f x now w w' st :
  filed w → alone answer f (apply_moderation x Quarantine now) w = (w', Ok (Some st)) →
  filed w' ∧ is_Some (assets w' !! x) ∧ keeps (HK := takedown x) w'.
Proof.
  intros Hw Hrun. pose proof (takedown_records _ _ _ _ _ _ Hw Hrun) as Hr.
  destruct Hr as (row & row' & Erow & Ea & Ec & Hid & Hren & Hst).
  destruct (filed_assets _ Hw x row Erow) as [_ Hds].
  assert (Hf : filed w').
  { split; rewrite ?Ea, ?Ec.
    - intros i r Hi. destruct (decide (i = x)) as [->|Hne].
      + rewrite lookup_insert_eq in Hi. injection Hi as <-. by rewrite Hren.
      + rewrite lookup_insert_ne in Hi by done. by apply (filed_assets _ Hw).
    - intros k a e [_ Hk]%lookup_delete_Some. by eapply (filed_cache _ Hw). }
  split_and!; [done|by rewrite Ea, lookup_insert_eq|].
  split.
  - intros i r Hi. split; [by apply (filed_assets _ Hf)|]. intros Ei.
    destruct (filed_assets _ Hf i r Hi) as [Ei' _]. assert (i = x) as -> by congruence.
    rewrite Ea, lookup_insert_eq in Hi. injection Hi as <-. by left.
  - intros k a e Hk. destruct (filed_cache _ Hf k a e Hk) as [-> _]. split; [done|].
    intros Ei. rewrite Ec, Ei in Hk. by rewrite lookup_delete_eq in Hk.
Qed.

(** C10. A takedown that has ended holds: once the removal of an asset has been applied with
    nothing else under way, no request and no event but a restoration of that asset makes it
    deliverable again or delivers a URL of it, in any interleaving of any number of them,
    whatever fails. *)
Theorem a_finished_takedown_holds f x now w w1 st ts ms :
  filed w → alone answer f (apply_moderation x Quarantine now) w = (w1, Ok (Some st)) →
  Forall (spares x) ts →
  let cfg := run_moves answer nature (service ts, w1) ms in
  (∃ row, assets cfg.2 !! x = Some row ∧
     (Asset.state (doc row) = Quarantined ∨ Asset.state (doc row) = Deleted)) ∧
  (∀ r m, answered cfg r → m ∈ media_in r → Pb.dlm_asset_id m = hyphenated x →
     Pb.dlm_renditions m = []).
Proof.
  intros Hw Hrun Hts cfg. destruct (takedown_alone _ _ _ _ _ _ Hw Hrun) as (Hf & Hx & Hk).
  destruct (run_keeps (takedown x) ts w1 ms Hk) as ([Ha _] & _ & Hm).
  { eapply Forall_impl; [exact Hts|]. intros t Ht. destruct t; simpl in *; try done.
    intros id Hid ->. by rewrite Hid in Ht. }
  split.
  - destruct (row_stays x ts w1 ms Hx) as [row Hrow]. exists row. split; [done|].
    destruct (Ha x row Hrow) as [Hid Hd]. by apply Hd.
  - intros r m Hr Hin Hid. destruct (decide (Pb.dlm_renditions m = [])) as [|Hne]; [done|].
    destruct (Hm r m Hr Hin Hne) as (i & Hi & a & Hd & Hst & <-).
    rewrite Hid in Hi. apply uuid_text in Hi. destruct (Hd (eq_sym Hi)); congruence.
Qed.

(** C11. Held evidence is kept.  Take an asset stored under a legal hold at a point where
    no request or event is under way and the delivery cache has no copy of it.  Whatever
    requests and events come after, interleaved and failing in any way, deletions by its
    owner included: it stays under the hold, and the object its owner uploaded is not
    purged.  (A deletion that was under way when the hold was placed does both.) *)
Theorem held_evidence_is_kept x w row ts ms :
  filed w → assets w !! x = Some row → Asset.legal_hold (doc row) = true →
  cache w !! asset_key x = None → Forall (fresh_ids x) ts →
  let cfg := run_moves answer nature (service ts, w) ms in
  (∃ row', assets cfg.2 !! x = Some row' ∧ Asset.legal_hold (doc row') = true) ∧
  (is_Some (objects w !! staging x) → is_Some (objects cfg.2 !! staging x)).
Proof.
  intros Hw Hrow Hh Hc Hts cfg.
  assert (Hk : keeps (HK := holding x) w).
  { split.
    - intros id r Hr. destruct (filed_assets _ Hw id r Hr) as [Hid Hs]. split; [done|]. split; [done|].
      intros E. assert (id = x) as -> by congruence. by simplify_eq.
    - intros k a e Hk. destruct (filed_cache _ Hw k a e Hk) as [-> Hs]. split; [done|]. split; [done|].
      intros E. by rewrite E, Hc in Hk. }
  destruct (run_keeps (holding x) ts w ms Hk) as ([Ha _] & (_ & _ & Ho) & _).
  { eapply Forall_impl; [exact Hts|]. by intros []. }
  split; [|by apply Ho].
  destruct (row_stays x ts w ms ltac:(by eexists)) as [row' Hrow']. exists row'. split; [done|].
  destruct (Ha x row' Hrow') as [Hid [_ Hl]]. by apply Hl.
Qed.
End Theorems.
