(* ===== verification/MediaGate.v ===== *)
(** * Media: the screen before anything derived

    Along any run of a task, whatever the backends reply: no object is written before
    moderation has let the upload of that hash through ([cleared], a monitor of [Prog]).
    And what moderation's own [Screen] ([ModerationEdge.screen_rpc]) answers for a hash of
    its corpus holds the upload. *)

From S2P Require Import Prelude Prog Consumer MediaDomain MediaStore MediaPipeline MediaHandlers MediaEdge MediaProofs.
From S2P Require AccountDomain ModerationDomain ModerationStore ModerationHandlers ModerationEdge ModerationRules.
Import AccountDomain(Uuid, UuidText, parse_uuid, hyphenated).
From stdpp Require Import list.
Local Open Scope Z_scope.
Local Open Scope prog_scope.

(** The hashes of which an upload was let through. *)
Abbreviation cleared := (list ContentHash).

Definition requested_hashes (req : ModerationEdge.Pb.ScreenRequest) : list ContentHash :=
  ModerationStore.hash_value <$> ModerationEdge.Pb.hashes req.

Definition clears (s : cleared) (c : call) (r : reply c) : cleared :=
  match c, r with
  | Screen req, Some (Ok x) => if blocked (decision_of x) then s else requested_hashes req ++ s
  | _, _ => s
  end.

(** An object may be written under a hash that is cleared. *)
Definition may_write (s : cleared) (c : call) : Prop :=
  match c with
  | HttpPut k _ _ => ∃ kind h rest, h ∈ s ∧ k = path_segment kind +:+ "/" +:+ h +:+ "/" +:+ rest
  | _ => True
  end.

Abbreviation gated := (follows may_write clears).

Definition writes_nothing (c : call) : Prop :=
  match c with HttpPut _ _ _ | Screen _ => False | _ => True end.

Lemma nothing_unnoticed c : writes_nothing c → unnoticed may_write clears c.
Proof. by destruct c. Qed.

Lemma gated_quiet {A} (Φ : cleared → A → Prop) s (p : program A) :
  all_calls writes_nothing p → (∀ a, Φ s a) → gated Φ s p.
Proof.
  intros Hp. apply follows_unnoticed. eapply all_calls_weaken; [|exact Hp]. apply nothing_unnoticed.
Qed.

Ltac quiet := repeat first
  [ done | apply all_calls_bind; [|intros ?] | case_match | case_decide | progress simpl ].

Section Gate.
Context `{UrlSigner} `{UuidText} `{Sha256Hex} `{ImageLib} `{Ffmpeg} `{MalwareScanner}.
Context (scan_looks : ∀ k, all_calls looks_only (scan k)).

Lemma quiet_get k : all_calls writes_nothing (get_bytes k).
Proof. unfold get_bytes, sent. quiet. Qed.
Lemma quiet_scan k : all_calls writes_nothing (scan k).
Proof. eapply all_calls_weaken; [|apply scan_looks]. by intros []. Qed.
Lemma quiet_publish es : all_calls writes_nothing (publish_all es).
Proof. induction es as [|e es IH]; [done|]. cbn [publish_all]. unfold publish. quiet. Qed.
Lemma quiet_persist a : all_calls writes_nothing (persist_and_publish a).
Proof.
  unfold persist_and_publish, save. apply all_calls_bind; [quiet|]. intros [[]|]; [apply quiet_publish|done].
Qed.
Lemma quiet_find id : all_calls writes_nothing (find_or_404 id).
Proof. unfold find_or_404, find_by_id. quiet. Qed.
Lemma quiet_object_size k : all_calls writes_nothing (object_size k).
Proof. unfold object_size, sent. quiet. Qed.

Ltac quieter := repeat first
  [ done | apply quiet_persist | apply quiet_scan | apply quiet_get | apply quiet_find
  | apply quiet_object_size | apply all_calls_bind; [|intros ?] | case_match | case_decide
  | progress simpl ].

(** Writing under a cleared hash. *)
Lemma gated_put s k b m : may_write s (HttpPut k b m) → gated (λ s' _, s' = s) s (put_bytes k b m).
Proof.
  intros Hk. unfold put_bytes, sent. apply follows_attempt. simpl. split; [done|]. intros [r|e]; done.
Qed.

Lemma gated_then {A B} s (p : program (outcome A)) (f : A → program (outcome B)) :
  gated (λ s' _, s' = s) s p → (∀ a, gated (λ s' _, s' = s) s (f a)) →
  gated (λ s' _, s' = s) s (attempt p f).
Proof.
  intros Hp Hf. apply follows_attempt. eapply follows_weaken; [|exact Hp]. by intros s' [a|e] ->.
Qed.

Lemma gated_ret {A} s (a : A) : gated (λ s' _, s' = s) s (Ret a).
Proof. done. Qed.

Lemma gated_encode s img kind h rk : h ∈ s → gated (λ s' _, s' = s) s (encode_put img kind h rk).
Proof.
  intros Hh. unfold encode_put. apply gated_then; [done|]. intros b. apply gated_then; [|done].
  apply gated_put. by exists kind, h, (slug rk +:+ "." +:+ "jpg").
Qed.

Lemma gated_ladder s img kind h n l : h ∈ s → gated (λ s' _, s' = s) s (encode_ladder img kind h n l).
Proof.
  intros Hh. induction l as [|r l IH]; [done|]. cbn [encode_ladder]. case_match; [|done].
  apply gated_then; [by apply gated_encode|]. intros x. by apply gated_then.
Qed.

Lemma gated_derive s k kind h : h ∈ s → gated (λ s' _, s' = s) s (derive k kind h).
Proof.
  intros Hh. unfold derive. apply gated_then; [by apply gated_quiet; [apply quiet_get|]|]. intros b.
  apply gated_then; [done|]. intros img. apply gated_then; [by apply gated_encode|]. intros o.
  by apply gated_then; [apply gated_ladder|].
Qed.

Lemma gated_files s h fs : h ∈ s → gated (λ s' _, s' = s) s (put_files h fs).
Proof.
  intros Hh. induction fs as [|f fs IH]; [done|]. cbn [put_files]. apply gated_then; [|done].
  apply gated_put. by exists Video, h, (trim_start_matches SLASH (relative f)).
Qed.

Lemma gated_transcode s k h : h ∈ s → gated (λ s' _, s' = s) s (transcode k h).
Proof.
  intros Hh. unfold transcode. apply gated_then; [by apply gated_quiet; [apply quiet_get|]|]. intros b.
  apply gated_then; [done|]. intros art. by apply gated_then; [apply gated_files|].
Qed.

Lemma gated_pipeline s engine a now :
  (∀ k h s', h ∈ s' → gated (λ s'' _, s'' = s') s' (engine k h)) →
  gated (λ _ _, True) s (pipeline engine a now).
Proof.
  intros He. unfold pipeline. cbv zeta. apply follows_attempt. simpl.
  destruct (ok_or (Asset.content_hash a) _) as [h|]; [|done].
  apply follows_attempt, gated_quiet; [apply quiet_scan|]. intros [v|]; [|done].
  case_decide.
  { apply gated_quiet; [|done]. quieter. }
  split; [done|]. intros r. cbv beta. apply follows_attempt.
  destruct r as [[x|[]]|]; cbn [follows clears]; [|done|done].
  destruct (blocked (decision_of x)).
  { apply gated_quiet; [|done]. unfold cache_invalidate. quieter. }
  apply follows_attempt. simpl. destruct (Asset.begin_processing now a) as [a1|]; [|done].
  apply follows_attempt. eapply follows_weaken; [|apply He; set_solver].
  intros s' [d|e] ->; [|done]. apply gated_quiet; [|done].
  unfold cache_put. quieter.
Qed.

Lemma gated_process s id now : gated (λ _ _, True) s (process_asset id now).
Proof.
  unfold process_asset. apply follows_attempt, gated_quiet; [apply quiet_find|]. intros [a|]; [|done].
  case_decide; [done|]. apply gated_pipeline. intros. by apply gated_derive.
Qed.
Lemma gated_transcoding s id now : gated (λ _ _, True) s (transcode_asset id now).
Proof.
  unfold transcode_asset. apply follows_attempt, gated_quiet; [apply quiet_find|]. intros [a|]; [|done].
  case_decide; [done|]. apply gated_pipeline. intros. by apply gated_transcode.
Qed.

(** ** Every task *)

Abbreviation gated_any := (gated (λ _ _, True)).

Lemma any_bind {A B} s (p : program A) (f : A → program B) :
  gated_any s p → (∀ a s', gated_any s' (f a)) → gated_any s (prog_bind f p).
Proof. intros Hp Hf. apply follows_bind. eapply follows_weaken; [|exact Hp]. intros s' a _. apply Hf. Qed.

Lemma any_attempt {E A B} s (p : program (result E A)) (f : A → program (result E B)) :
  gated_any s p → (∀ a s', gated_any s' (f a)) → gated_any s (attempt p f).
Proof. intros Hp Hf. apply any_bind; [done|]. by intros [] s'. Qed.

Lemma any_quiet {A} s (p : program A) : all_calls writes_nothing p → gated_any s p.
Proof. intros Hp. by apply gated_quiet. Qed.

Context (policy : MediaPolicy) (cdn : CdnGateway).

Lemma quiet_reserve cmd id now : all_calls writes_nothing (reserve_and_presign policy cmd id now).
Proof. unfold reserve_and_presign, save, presign_put. quieter. Qed.
Lemma quiet_issue cmd id now : all_calls writes_nothing (issue_ticket policy cmd id now).
Proof.
  unfold issue_ticket, find_ready_by_content_hash. pose proof (quiet_reserve cmd id now).
  repeat case_match; quieter.
Qed.
Lemma quiet_probe k m : all_calls writes_nothing (probe k m).
Proof. unfold probe, probe_video, probe_image. quieter. Qed.
Lemma quiet_commit cmd now : all_calls writes_nothing (commit_upload cmd now).
Proof.
  unfold commit_upload. apply all_calls_bind; [apply quiet_find|]. intros [a|]; [|done]. case_decide; [done|].
  apply all_calls_bind; [unfold MediaStore.head; quieter|]. intros [[h|]|]; [|done|done].
  apply all_calls_bind; [apply quiet_probe|]. intros [rep|]; [|done]. quieter.
Qed.
Lemma quiet_moderation id action now : all_calls writes_nothing (apply_moderation id action now).
Proof.
  unfold apply_moderation, find_by_id. apply all_calls_bind; [quieter|]. intros [[a|]|]; [|done|done].
  apply all_calls_bind; [|intros [a'|]; [quieter|done]]. destruct action.
  - apply all_calls_bind; [done|]. intros [a'|]; [|done]. unfold revoke, cache_invalidate, cdn_invalidate.
    destruct (Rendition.storage_key <$> Asset.renditions a'); quieter.
  - unfold cache_invalidate. quieter.
Qed.
Lemma quiet_purge ks : all_calls writes_nothing (purge ks).
Proof. induction ks as [|k ks IH]; [done|]. cbn [purge]. unfold object_delete, sent. quiet. Qed.
Lemma quiet_delete id owner now : all_calls writes_nothing (delete_asset id owner now).
Proof.
  unfold delete_asset. apply all_calls_bind; [apply quiet_find|]. intros [a|]; [|done]. case_decide; [done|].
  apply all_calls_bind; [quieter|]. intros [a'|]; [|done].
  apply all_calls_bind; [apply quiet_purge|]. intros [[]|]; [|done]. unfold cache_invalidate. quieter.
Qed.
Lemma quiet_load id : all_calls writes_nothing (load id).
Proof. unfold load, cache_get, cache_put, find_by_id. quieter. Qed.
Lemma quiet_renditions g p v now rs : all_calls writes_nothing (resolve_renditions g p v now rs).
Proof.
  induction rs as [|r rs IH]; [done|]. cbn [resolve_renditions].
  destruct (match p with Some k => bool_decide (k ≠ Rendition.kind r) | None => false end); [done|].
  apply all_calls_bind; [unfold cdn_resolve; quieter|]. intros u. by apply all_calls_bind.
Qed.
Lemma quiet_view g a p v now : all_calls writes_nothing (resolve_asset g a p v now).
Proof.
  unfold resolve_asset. case_match; [done|]. apply all_calls_bind; [apply quiet_renditions|]. by intros [].
Qed.
Lemma quiet_resolve g id p v now : all_calls writes_nothing (resolve_delivery g id p v now).
Proof.
  unfold resolve_delivery. apply all_calls_bind; [apply quiet_load|]. intros [o|]; [|done].
  apply all_calls_bind; [done|]. intros [a|]; [|done]. apply all_calls_bind; [apply quiet_view|done].
Qed.
Lemma quiet_batch g ids p v now : all_calls writes_nothing (resolve_batch g ids p v now).
Proof.
  induction ids as [|id ids IH]; [done|]. cbn [resolve_batch].
  apply all_calls_bind; [apply quiet_load|]. intros [[a|]|]; [|done|done].
  apply all_calls_bind; [apply quiet_view|]. intros x. apply all_calls_bind; [done|]. by intros [].
Qed.

Lemma any_status {A} s (p : program (outcome A)) : gated_any s p → gated_any s (with_status p).
Proof. intros Hp. by apply any_bind. Qed.

Lemma gated_task s t : gated_any s (run_task policy cdn t).
Proof.
  destruct t as [fresh req|req|req|id|req|req|req|id|e|e|e]; cbn [run_task];
    (apply any_bind; [|done]).
  - unfold issue_upload_ticket_rpc. do 3 (apply any_attempt; [done|]; intros ? ?).
    apply any_bind; [done|]. intros now s4. apply any_attempt; [|done].
    apply any_status, any_quiet, quiet_issue.
  - apply any_attempt; [done|]. intros i s1. apply any_bind; [done|]. intros now s2.
    apply any_attempt; [|done]. apply any_status, any_quiet, quiet_commit.
  - do 2 (apply any_attempt; [done|]; intros ? ?). apply any_bind; [done|]. intros now s3.
    apply any_status, any_quiet, quiet_delete.
  - apply any_attempt; [done|]. intros i s1. apply any_attempt; [|done].
    apply any_status, any_quiet, quiet_find.
  - do 2 (apply any_attempt; [done|]; intros ? ?). apply any_bind; [done|]. intros now s3.
    apply any_status, any_quiet, quiet_delete.
  - apply any_attempt; [done|]. intros i s1. apply any_bind; [done|]. intros now s2.
    apply any_attempt; [|done]. apply any_status, any_quiet, quiet_resolve.
  - apply any_bind; [done|]. intros now s2. apply any_attempt; [|done].
    apply any_status, any_quiet, quiet_batch.
  - apply any_attempt; [done|]. intros i s1. apply any_bind; [done|]. intros now s2.
    apply any_attempt; [apply any_status, gated_process|]. intros o s3. apply any_attempt; [|done].
    apply any_status, any_quiet, quiet_find.
  - unfold on_uploaded_image. destruct e; try done. case_decide; [|done]. apply any_bind; [done|].
    intros now s1. apply any_attempt; [apply gated_process|done].
  - unfold on_uploaded_video. destruct e; try done. case_decide; [|done]. apply any_bind; [done|].
    intros now s1. apply any_attempt; [apply gated_transcoding|done].
  - unfold on_moderation_event. destruct (map_moderation e) as [[id action]|]; [|done].
    apply any_bind; [done|]. intros now s1. apply any_attempt; [|done].
    apply any_quiet, quiet_moderation.
Qed.

Lemma cleared_by tr h : h ∈ after clears [] tr →
  ∃ req x, existT (Screen req) (Some (Ok x)) ∈ tr ∧ blocked (decision_of x) = false ∧
    h ∈ requested_hashes req.
Proof.
  assert (Hg : ∀ s, h ∈ after clears s tr → h ∈ s ∨
    ∃ req x, existT (Screen req) (Some (Ok x)) ∈ tr ∧ blocked (decision_of x) = false ∧
      h ∈ requested_hashes req).
  { induction tr as [|[c r] tr IH]; intros s Hs; [by left|]. destruct (IH _ Hs) as [Hc|(q & x & ? & ?)].
    - destruct c as [| | | | | | | | | | | |req|]; try by left.
      destruct r as [[x|]|]; [|by left..].
      change (h ∈ if blocked (decision_of x) then s else requested_hashes req ++ s) in Hc.
      destruct (blocked (decision_of x)) eqn:Eb; [by left|].
      apply elem_of_app in Hc as [Hc|]; [|by left]. right. exists req, x. split_and!; [by left|done..].
    - right. exists q, x. split; [by right|done]. }
  intros [[]%not_elem_of_nil|]%Hg; done.
Qed.

(** C9. The pipeline writes nothing unscreened: whatever the backends reply to a task, an
    object is written only after moderation has been asked about the hash in its key and
    has let it through.  An answer that holds, an error and an elapsed timer let nothing
    be derived. *)
Theorem nothing_is_written_unscreened t tr r pre k b m x post :
  traces (run_task policy cdn t) tr r → tr = pre ++ existT (HttpPut k b m) x :: post →
  ∃ kind h rest req resp, k = path_segment kind +:+ "/" +:+ h +:+ "/" +:+ rest ∧
    existT (Screen req) (Some (Ok resp)) ∈ pre ∧ blocked (decision_of resp) = false ∧
    h ∈ requested_hashes req.
Proof.
  intros Ht E. destruct (follows_traces may_write clears _ [] _ _ _ (gated_task [] t) Ht) as [_ Hok].
  destruct (Hok _ _ _ _ E) as (kind & h & rest & Hh & ->).
  destruct (cleared_by pre h Hh) as (req & resp & ? & ? & ?). by exists kind, h, rest, req, resp.
Qed.

(** ** What a pipeline does with the answer *)

(** The answers of the screen, and the rows that are saved. *)
Abbreviation notes := (list (ModerationEdge.Pb.ScreenRequest * ScreenResponse) * list AssetRow)%type.

Definition note (s : notes) (c : call) (r : reply c) : notes :=
  match c, r with
  | Screen req, Some (Ok x) => ((req, x) :: s.1, s.2)
  | UpsertAsset _ row, Ok _ => (s.1, row :: s.2)
  | _, _ => s
  end.

Abbreviation noted := (follows (λ _ _, True) note).

Definition unrecorded (c : call) : Prop :=
  match c with Screen _ | UpsertAsset _ _ => False | _ => True end.

Lemma noted_quiet {A} (Φ : notes → A → Prop) s (p : program A) :
  all_calls unrecorded p → (∀ a, Φ s a) → noted Φ s p.
Proof.
  intros Hp. apply follows_unnoticed. eapply all_calls_weaken; [|exact Hp]. by intros [].
Qed.

Lemma unrecorded_put k b m : all_calls unrecorded (put_bytes k b m).
Proof. unfold put_bytes, sent. quiet. Qed.
Lemma unrecorded_get k : all_calls unrecorded (get_bytes k).
Proof. unfold get_bytes, sent. quiet. Qed.
Lemma unrecorded_find id : all_calls unrecorded (find_or_404 id).
Proof. unfold find_or_404, find_by_id. quiet. Qed.
Lemma unrecorded_publish es : all_calls unrecorded (publish_all es).
Proof. induction es as [|e es IH]; [done|]. cbn [publish_all]. unfold publish. quiet. Qed.
Lemma unrecorded_encode img kind h rk : all_calls unrecorded (encode_put img kind h rk).
Proof.
  unfold encode_put. apply all_calls_bind; [done|]. intros [b|]; [|done].
  apply all_calls_bind; [apply unrecorded_put|]. by intros [].
Qed.
Lemma unrecorded_derive k kind h : all_calls unrecorded (derive k kind h).
Proof.
  unfold derive. apply all_calls_bind; [apply unrecorded_get|]. intros [b|]; [|done].
  apply all_calls_bind; [done|]. intros [img|]; [|done].
  apply all_calls_bind; [apply unrecorded_encode|]. intros [o|]; [|done].
  apply all_calls_bind; [|by intros []]. generalize (Z.max (img_width img) (img_height img)).
  intros n. induction IMAGE_LADDER as [|r l IH]; [done|]. cbn [encode_ladder]. case_match; [|done].
  apply all_calls_bind; [apply unrecorded_encode|]. intros [x|]; [|done].
  apply all_calls_bind; [done|]. by intros [].
Qed.

Lemma noted_persist s a :
  noted (λ s' r, ∀ u, r = Ok u → s'.1 = s.1 ∧ row_of a ∈ s'.2) s (persist_and_publish a).
Proof.
  unfold persist_and_publish. apply follows_attempt. simpl. split; [done|]. intros [[]|e]; [|done].
  simpl. apply noted_quiet; [apply unrecorded_publish|]. intros _ u _. split; [done|by left].
Qed.

Definition settled (s : notes) (r : outcome ProcessingOutcome) : Prop :=
  ∀ o, r = Ok o →
  match s.1 with
  | [] => o = Skipped ∨ ∃ m, o = FailedOutcome m
  | [(req, x)] =>
      if blocked (decision_of x) then
        o = QuarantinedOutcome ∧ ∃ row, row ∈ s.2 ∧ Asset.state (doc row) = Quarantined ∧
          (csam (decision_of x) = true → Asset.legal_hold (doc row) = true)
      else o = ReadyOutcome
  | _ => False
  end.

Lemma settled_pipeline engine a now :
  Asset.state a = Uploaded → (∀ k h, all_calls unrecorded (engine k h)) →
  noted settled ([], []) (pipeline engine a now).
Proof.
  intros Hst He. unfold pipeline. cbv zeta. apply follows_attempt. simpl.
  destruct (ok_or (Asset.content_hash a) _) as [h|]; [|done].
  apply follows_attempt, noted_quiet.
  { eapply all_calls_weaken; [|apply scan_looks]. by intros []. }
  intros [v|]; [|done]. case_decide.
  { apply follows_attempt. cbn [follows]. destruct (Asset.mark_failed _ now a) as [a1|]; [|done].
    apply follows_attempt. eapply follows_weaken; [|apply noted_persist].
    intros s' [u|] Hs; [|done]. destruct (Hs u eq_refl) as [E _]. simpl in *.
    intros o [= <-]. rewrite E. right. by eexists. }
  split; [done|]. intros r. cbv beta. apply follows_attempt.
  destruct r as [[x|[]]|]; cbn [follows note]; [|done|done].
  destruct (blocked (decision_of x)) eqn:Eb.
  - apply follows_attempt. cbn [follows].
    destruct (Asset.quarantine now a) as [a1|] eqn:Eq; [|done].
    apply follows_attempt. unfold cache_invalidate. apply noted_quiet; [quiet|].
    intros [u|]; [|done]. apply follows_attempt. eapply follows_weaken; [|apply noted_persist].
    intros s' [u'|] Hs; [|done]. destruct (Hs u' eq_refl) as [E Hrow]. cbn [follows].
    intros o [= <-]. rewrite E. cbn [fst]. rewrite Eb. split; [done|]. eexists. split; [exact Hrow|].
    apply quarantine_ok in Eq as [[_ ?]|(_ & _ & _ & S & _)]; [congruence|].
    by destruct (csam (decision_of x)).
  - apply follows_attempt. cbn [follows]. destruct (Asset.begin_processing now a) as [a1|]; [|done].
    apply follows_attempt, noted_quiet; [apply He|]. intros [d|]; [|done].
    apply follows_attempt. cbn [follows]. destruct (_ ← Asset.set_blurhash _ _ _; _) as [a2|]; [|done].
    apply follows_attempt. eapply follows_weaken; [|apply noted_persist].
    intros s' [u|] Hs; [|done]. destruct (Hs u eq_refl) as [E _].
    split; [done|]. intros c o [= <-]. cbn [note]. rewrite E. cbn [fst]. by rewrite Eb.
Qed.

Lemma settled_process id now : noted settled ([], []) (process_asset id now).
Proof.
  unfold process_asset. apply follows_attempt, noted_quiet; [apply unrecorded_find|].
  intros [a|]; [|done]. case_decide as Hst; [intros o [= <-]; simpl; by left|].
  apply settled_pipeline; [done|]. intros k h. apply unrecorded_derive.
Qed.

Lemma notes_grow s tr : s.1 ⊆ (after note s tr).1.
Proof.
  revert s. induction tr as [|[c r] tr IH]; intros s; [done|]. etrans; [|apply IH].
  destruct c; simpl; repeat case_match; set_solver.
Qed.

Definition answer_in (e : {c : call & reply c}) : option (ModerationEdge.Pb.ScreenRequest * ScreenResponse) :=
  match e with existT (Screen req) (Some (Ok x)) => Some (req, x) | _ => None end.

Lemma noted_answer s tr req x :
  existT (Screen req) (Some (Ok x)) ∈ tr → (req, x) ∈ (after note s tr).1.
Proof.
  revert s. induction tr as [|[c r] tr IH]; intros s Hin; [by apply not_elem_of_nil in Hin|].
  apply elem_of_cons in Hin as [E|Hin]; [|by apply IH]. apply (f_equal answer_in) in E.
  destruct c; try done. destruct r as [[y|]|]; simplify_eq/=. apply (notes_grow (_, _) tr). by left.
Qed.

Lemma noted_row s tr row :
  row ∈ (after note s tr).2 → row ∈ s.2 ∨ ∃ id, existT (UpsertAsset id row) (Ok tt) ∈ tr.
Proof.
  revert s. induction tr as [|[c r] tr IH]; intros s Hin; [by left|].
  destruct (IH _ Hin) as [H'|[id ?]]; [|right; exists id; by right].
  destruct c; try by left.
  - destruct r as [[]|]; [|by left]. apply elem_of_cons in H' as [->|]; [|by left].
    right. eexists. by left.
  - destruct r as [[]|]; by left.
Qed.

(** ** Moderation's answer *)

Context `{ModerationDomain.UuidV7} `{AccountStore.PgTime} `{ModerationStore.CorpusJson}.
Context (screening_policy : ModerationDomain.ModerationPolicy).

(** What moderation's [Screen] said to the request is [x]. *)
Definition moderation_said others elapsed wall (mw : ModerationStore.World)
    (req : ModerationEdge.Pb.ScreenRequest) (x : ScreenResponse) : Prop :=
  ∃ mw', ModerationEdge.screen_rpc others screening_policy elapsed wall req mw
         = (mw', Ok (verdict x, matched_categories x, match_reference x)).

Lemma category_proto_inj c :
  ModerationEdge.category_to_proto c = 5 ↔ c = ModerationDomain.Csam.
Proof. by destruct c. Qed.

Lemma first_hit_draws n mw hashes :
  ModerationRules.first_hit (mw <| ModerationStore.draws := n |>) hashes
  = ModerationRules.first_hit mw hashes.
Proof. induction hashes as [|h hs IH]; [done|]. simpl. by rewrite IH. Qed.

(** The screen that media makes of moderation's answer. *)
Lemma moderation_decides others elapsed wall mw req x :
  (∀ i w, ModerationStore.corpus (others i w) = ModerationStore.corpus w) →
  moderation_said others elapsed wall mw req x →
  match ModerationRules.first_hit mw (ModerationEdge.Pb.hashes req) with
  | None => blocked (decision_of x) = false
  | Some raw => blocked (decision_of x) = true ∧
      ∃ m, ModerationStore.parse_entry raw = Ok m ∧
        (csam (decision_of x) = true ↔ ModerationDomain.Csam ∈ ModerationStore.match_categories m)
  end.
Proof.
  intros Ho [mw' Hrun]. unfold ModerationEdge.screen_rpc in Hrun.
  apply act_bind_ok in Hrun as (w1 & subject & Hs & Hrun).
  apply act_bind_ok in Hrun as (w2 & cats & Hc & Hrun). injection Hs as <- _. injection Hc as <- _.
  apply act_bind_ok in Hrun as (w3 & out & Hscr & Hrun). injection Hrun as <- Hv Hm _.
  unfold ModerationEdge.with_envelope, ModerationEdge.serving in Hscr.
  rewrite act_bind_run in Hscr. simpl in Hscr.
  destruct (ModerationHandlers.screen _ _ _ _ _ _ _) as [w4 [o|e]] eqn:E in Hscr; [|done].
  injection Hscr as -> ->. apply ModerationRules.screen_ok in E as [_ Hout]; [|done].
  cbn [ModerationHandlers.sc_hashes] in Hout. rewrite first_hit_draws in Hout.
  unfold decision_of. cbn [blocked csam]. rewrite <-Hv, <-Hm.
  destruct (ModerationRules.first_hit mw _) as [raw|]; [|by rewrite Hout].
  destruct Hout as (-> & m & Hp & ->). split; [done|]. exists m. split; [done|].
  rewrite bool_decide_eq_true, list_elem_of_fmap. split.
  - intros (c & Hc & Hin). symmetry in Hc. apply category_proto_inj in Hc. by subst.
  - intros Hin. by exists ModerationDomain.Csam.
Qed.

(** C12. A known upload is held.  Let the processing of an image report an outcome, after
    moderation has answered its screen.  If the moderation corpus knows one of the hashes
    that were screened, the outcome is that the image is quarantined; it was stored so, and
    under a legal hold where the entry is of child abuse.  If the corpus knows none of
    them the outcome is that the image is READY. *)
Theorem known_uploads_are_held others elapsed wall mw id now tr o req x :
  (∀ i w, ModerationStore.corpus (others i w) = ModerationStore.corpus w) →
  traces (process_asset id now) tr (Ok o) → existT (Screen req) (Some (Ok x)) ∈ tr →
  moderation_said others elapsed wall mw req x →
  match ModerationRules.first_hit mw (ModerationEdge.Pb.hashes req) with
  | None => o = ReadyOutcome
  | Some raw => o = QuarantinedOutcome ∧
      ∃ m id' row, ModerationStore.parse_entry raw = Ok m ∧
        existT (UpsertAsset id' row) (Ok tt) ∈ tr ∧ Asset.state (doc row) = Quarantined ∧
        (ModerationDomain.Csam ∈ ModerationStore.match_categories m → Asset.legal_hold (doc row) = true)
  end.
Proof.
  intros Ho Ht Hin Hsaid. apply moderation_decides in Hsaid; [|done].
  destruct (follows_traces _ note _ _ _ _ _ (settled_process id now) Ht) as [Hend _].
  specialize (Hend o eq_refl). apply (noted_answer ([], [])) in Hin.
  destruct (after note ([], []) tr).1 as [|[q y] [|]] eqn:E; [by apply not_elem_of_nil in Hin| |done].
  apply list_elem_of_singleton in Hin as [= <- <-].
  destruct (ModerationRules.first_hit mw _) as [raw|]; [|by rewrite Hsaid in Hend].
  destruct Hsaid as (Hb & m & Hm & Hc). rewrite Hb in Hend. destruct Hend as (-> & row & Hrow & Hst & Hh).
  split; [done|]. apply noted_row in Hrow as [[]%not_elem_of_nil|[id' Hrow]].
  exists m, id', row. split_and!; [done..|]. intros Hcs. by apply Hh, Hc.
Qed.
End Gate.
