(* ===== verification/MediaRuns.v ===== *)
(** * Media: runs

    Concrete runs of the service: the theorems of [MediaProofs] at work, and what handlers
    that overlap, and URLs that outlive a commit, do to what they promise. *)

From S2P Require Import Prelude Prog Consumer MediaDomain MediaStore MediaPipeline MediaHandlers MediaEdge MediaKeep MediaProofs MediaGate.
From S2P Require AccountDomain ModerationDomain ModerationStore ModerationEdge ModerationRules ModerationAlone ModerationSystem.
Import AccountDomain(Uuid, UuidText, parse_uuid, hyphenated).
From stdpp Require Import pretty list.
Local Open Scope Z_scope.
Local Open Scope prog_scope.

Module Demo.

(** ** Concrete texts, images and processes *)

#[export] Existing Instances ModerationSystem.Demo.decimal_uuid ModerationSystem.Demo.counting_v7
  ModerationSystem.Demo.micros ModerationSystem.Demo.one_category.
Lemma uuid_text (u v : Uuid) : hyphenated u = hyphenated v → u = v.
Proof. apply (inj pretty). Qed.

#[export] Instance plain_urls : UrlSigner := {|
  sign_put _ key ttl now := "put:" +:+ key +:+ "@" +:+ pretty (now + ttl);
  sign_get _ key ttl now := "get:" +:+ key +:+ "@" +:+ pretty (now + ttl) |}.

(** Up to sixty-four hex digits are their own digest. *)
Fixpoint strokes (n : nat) : string := match n with O => "" | S n => String "0" (strokes n) end.
Definition own_digest (b : Bytes) : string :=
  let s := String.substring 0 64 (b +:+ strokes 64) in
  match hash_new s with Ok h => if String.eqb h s then s else strokes 64 | _ => strokes 64 end.
#[export, program] Instance digests : Sha256Hex := {| sha256_hex := own_digest |}.
Next Obligation.
  intros b. unfold own_digest. cbv zeta.
  destruct (hash_new (String.substring 0 64 (b +:+ strokes 64))) as [h|] eqn:E; [|reflexivity].
  destruct (String.eqb h _) eqn:Eh; [|reflexivity]. apply String.eqb_eq in Eh. by rewrite <-Eh in E |- *.
Qed.

(** Every object is a PNG of 800 by 600 whose pixels are its bytes. *)
#[export, program] Instance pictures : ImageLib := {|
  Image := Z * Z * Bytes; img_width i := i.1.1 mod 2 ^ 32; img_height i := i.1.2 mod 2 ^ 32;
  guess_format _ := Ok "image/png"; load_from_memory b := Ok (800, 600, b);
  MediaPipeline.resize n i := (n, n * 3 / 4, i.2); thumbnail n i := (n, n * 3 / 4, i.2);
  encode_jpeg i := Ok (E:=string) ("jpeg of " +:+ i.2);
  blurhash_encode _ _ _ := Ok "LEHV6nWB2yk8" |}.
Next Obligation.
  intros i. unfold is_u32, u32_max.
  split; [pose proof (Z.mod_pos_bound i.1.1 (2 ^ 32) ltac:(lia))
         |pose proof (Z.mod_pos_bound i.1.2 (2 ^ 32) ltac:(lia))]; simpl; lia.
Qed.

Definition went_well : process := Exited true "" "".
#[export] Instance tools : Ffmpeg := {|
  create_dir _ := Ok tt; write_file _ _ := Ok tt; ffprobe _ := went_well;
  parse_report _ := Ok (E:=string) [{| codec_type := Some "video"; codec_name := Some "h264";
                            stream_width := Some 1280; stream_height := Some 720 |}];
  ffmpeg_poster _ := went_well; poster_file b := Ok (E:=string) b;
  ffmpeg_rung _ _ _ _ _ := went_well;
  rung_files b _ := Ok (E:=string) [("playlist.m3u8", "list"); ("seg0.m4s", b)] |}.
#[export] Existing Instance log_malware_scanner.

Lemma scan_looks k : all_calls looks_only (scan k).
Proof. done. Qed.

(** ** Requests *)

Definition cdn : CdnGateway := {| base_url := "https://cdn/"; signed_ttl := 300 * SECONDS |}.
Abbreviation serve := (service standard cdn).
Abbreviation play := (run_moves answer nature).

Definition ana : Uuid := 7%N.
Definition photo : Uuid := 1%N.

Definition ticket_for (id : Uuid) : task :=
  IssueTicket id {| Pb.iu_owner_id := hyphenated ana; Pb.iu_kind := 2;
    Pb.iu_declared_mime_type := "image/png"; Pb.iu_declared_size_bytes := 4;
    Pb.iu_content_sha256 := ""; Pb.iu_idempotency_key := "" |}.
Definition commit_of (id : Uuid) : task :=
  CommitUpload {| Pb.cr_asset_id := hyphenated id; Pb.cr_etag := ""; Pb.cr_content_sha256 := "" |}.
Definition uploaded (id : Uuid) : task := MediaEvent (AssetUploaded id ana PostImage "" 4 0).
Definition resolved (id : Uuid) : task :=
  ResolveDelivery {| Pb.rd_asset_id := hyphenated id; Pb.rd_preferred := 0; Pb.rd_visibility := 0 |}.
Definition deletion (id : Uuid) : task :=
  DeleteAsset {| Pb.or_asset_id := hyphenated id; Pb.or_owner_id := hyphenated ana |}.
Definition subject (id : Uuid) : WireSubject :=
  {| wire_entity_type := "media"; wire_entity_id := hyphenated id |}.
Definition removal (id : Uuid) : task := ModerationEvent (EnforcementApplied (subject id) "remove_content").

Definition fresh : World := {|
  assets := ∅; cache := ∅; objects := ∅; grants := []; topic := []; screened := []; clock := 0 |}.

(** [n] turns of the task [i], at which nothing fails. *)
Definition turns (i n : nat) : list (move fault happening) := replicate n (Go i Fine).
(** A turn at which moderation answers the screen. *)
Definition says (v : Z) (cats : list Z) : fault :=
  ScreenSays {| verdict := v; matched_categories := cats; match_reference := "" |}.
Definition put (id : Uuid) (b : Bytes) : move fault happening := Nature (Upload (staging id) b).

(** An asset whose upload is committed: tasks 0 and 1. *)
Definition upload_tasks : list task := [ticket_for photo; commit_of photo].
Definition upload_moves : list (move fault happening) := turns 0 4 ++ [put photo "aaaa"] ++ turns 1 8.

Definition at_hand : World := (play (serve upload_tasks, fresh) upload_moves).2.

(** The state and the hold of an asset, its bytes, and the URLs that an answer delivers. *)
Definition fate (id : Uuid) (w : World) : option (AssetState * bool) :=
  (λ row, (Asset.state (doc row), Asset.legal_hold (doc row))) <$> assets w !! id.
Definition evidence (id : Uuid) (w : World) : option Bytes := objects w !! staging id.
Definition urls (p : program result_of) : option (list Z) :=
  match p with
  | Ret (Delivered (Ok m)) => Some (Pb.dlr_kind <$> Pb.dlm_renditions m)
  | _ => None
  end.

(** Moderation lets the upload through, or finds it in a corpus of child abuse. *)
Definition accepted (i : nat) : list (move fault happening) := turns i 2 ++ [Go i (says 1 [])].
Definition matched (i : nat) : list (move fault happening) := turns i 2 ++ [Go i (says 2 [5])].

Definition published : World := (play (serve [uploaded photo], at_hand) (accepted 0 ++ turns 0 40)).2.

(** ** Overlapping handlers *)

(** The removal comes while the renditions are being derived. *)
Definition removed_midway := play (serve [uploaded photo; removal photo; resolved photo], at_hand)
  (accepted 0 ++ turns 0 1 ++ turns 1 20 ++ turns 0 40 ++ turns 2 10).

(** The owner's deletion has loaded the asset when the screen matches it. *)
Definition deleted_meanwhile (n : nat) := play (serve [uploaded photo; deletion photo], at_hand)
  (turns 1 2 ++ matched 0 ++ turns 0 40 ++ turns 1 n).

(** A read has loaded the asset when it is taken down; another read comes an hour later. *)
Definition read_meanwhile := play (serve [resolved photo; removal photo; resolved photo], published)
  ([Nature (Evict (asset_key photo))] ++ turns 0 3 ++ turns 1 20 ++ turns 0 10 ++
   [Nature (Tick (3599 * 10 ^ 9))] ++ turns 2 10).

(** Handlers that load an asset and save it later overwrite what was saved in between.  A
    removal that is applied, and acknowledged, while the pipeline derives the renditions is
    overwritten: the asset ends READY and is delivered.  A deletion by the owner that had
    loaded the asset when the screen found it in a corpus of abuse and put it on hold purges
    the evidence and lifts the hold.  A read that had loaded the asset when it was taken
    down caches it: its URLs are delivered for the next hour, though the row is
    QUARANTINED. *)
Theorem overlapping_handlers_undo_moderation :
  (removed_midway.1 !! 1%nat = Some (Ret (Consumed (Ok tt))) ∧
   fate photo removed_midway.2 = Some (Ready, false) ∧
   removed_midway.1 !! 2%nat ≫= urls = Some [1; 2; 3]) ∧
  (fate photo (deleted_meanwhile 0).2 = Some (Quarantined, true) ∧
   evidence photo (deleted_meanwhile 0).2 = Some "aaaa" ∧
   (deleted_meanwhile 20).1 !! 1%nat = Some (Ret (Emptied (Ok tt))) ∧
   fate photo (deleted_meanwhile 20).2 = Some (Deleted, false) ∧
   evidence photo (deleted_meanwhile 20).2 = None) ∧
  (read_meanwhile.1 !! 1%nat = Some (Ret (Consumed (Ok tt))) ∧
   fate photo read_meanwhile.2 = Some (Quarantined, false) ∧
   read_meanwhile.1 !! 2%nat ≫= urls = Some [1; 2; 3]).
Proof. by vm_compute. Qed.

(** ** An upload URL that outlives the commit *)

(** The URL is used again once the screen has answered for the hash of the first bytes. *)
Definition swapped := play (serve [uploaded photo], at_hand)
  (accepted 0 ++ [put photo "bbbb"] ++ turns 0 40).
(** It is used again on an asset held as evidence. *)
Definition tampered := play (serve [uploaded photo], at_hand)
  (matched 0 ++ turns 0 40 ++ [put photo "cccc"]).

Definition original_of (id : Uuid) (w : World) : option Bytes :=
  row ← assets w !! id; r ← Asset.rendition Original (doc row); objects w !! Rendition.storage_key r.

(** The upload URL grants the staging key until the ticket's end, commit or not.  Used
    again after the screen, it decides what is published: the READY asset bears the hash
    that moderation was asked about and renditions of bytes it never saw.  Used again on an
    asset under a legal hold, it replaces the evidence. *)
Theorem upload_urls_outlive_the_screen :
  (fate photo swapped.2 = Some (Ready, false) ∧
   (Asset.content_hash ∘ doc <$> assets swapped.2 !! photo) = Some (Some (sha256_hex "aaaa")) ∧
   screened swapped.2 =
     [(screen_request photo ana (sha256_hex "aaaa"),
       {| verdict := 1; matched_categories := []; match_reference := "" |})] ∧
   original_of photo swapped.2 = Some "jpeg of bbbb") ∧
  (fate photo tampered.2 = Some (Quarantined, true) ∧ evidence photo tampered.2 = Some "cccc").
Proof. by vm_compute. Qed.

(** ** The theorems at work *)

Lemma fresh_healthy : healthy fresh.
Proof. split; by intros. Qed.

Lemma run_healthy ts w ms : healthy w → healthy (play (serve ts, w) ms).2.
Proof.
  intros Hw. destruct (run_keeps uuid_text scan_looks standard cdn screening ts w ms Hw) as [Hk _].
  { apply Forall_true. by intros []. }
  exact Hk.
Qed.
Lemma at_hand_healthy : healthy at_hand.
Proof. apply run_healthy, fresh_healthy. Qed.
Lemma published_healthy : healthy published.
Proof. apply run_healthy, at_hand_healthy. Qed.

Lemma fate_row id w st h : fate id w = Some (st, h) →
  ∃ row, assets w !! id = Some row ∧ Asset.state (doc row) = st ∧ Asset.legal_hold (doc row) = h.
Proof.
  unfold fate. destruct (assets w !! id) as [row|]; [|done]. intros [= <- <-]. by exists row.
Qed.

Definition story_tasks : list task := upload_tasks ++ [uploaded photo; resolved photo].
Definition story_moves : list (move fault happening) :=
  upload_moves ++ accepted 2 ++ turns 2 40 ++ turns 3 10.
Abbreviation whole_story := (play (serve story_tasks, fresh) story_moves).

Lemma only_screened_assets_are_published_witness :
  fate photo whole_story.2 = Some (Ready, false) ∧ whole_story.1 !! 3%nat ≫= urls = Some [1; 2; 3] ∧
  ∃ row, assets whole_story.2 !! photo = Some row ∧ verified (doc row) ∧
    passed (screened whole_story.2) (doc row).
Proof.
  assert (Hf : fate photo whole_story.2 = Some (Ready, false)) by (by vm_compute).
  split; [exact Hf|]. split; [by vm_compute|].
  destruct (only_screened_assets_are_published uuid_text scan_looks standard cdn
              story_tasks fresh story_moves fresh_healthy) as [Hall _].
  destruct (fate_row _ _ _ _ Hf) as (row & E & Hst & _).
  destruct (Hall photo row E Hst) as (_ & Hv & _ & _ & Hp).
  exists row. split; [exact E|]. split; [exact Hv|exact Hp].
Defined.

Abbreviation taken_down := (alone answer Fine (apply_moderation photo Quarantine 5) published).
Definition late_tasks : list task := [uploaded photo; deletion photo; resolved photo].
Definition late_moves : list (move fault happening) := turns 2 10 ++ turns 0 20 ++ turns 1 20.
Abbreviation after_takedown := (play (serve late_tasks, taken_down.1) late_moves).

Lemma a_finished_takedown_holds_witness :
  taken_down.2 = Ok (Some Quarantined) ∧ fate photo after_takedown.2 = Some (Deleted, false) ∧
  ∃ row, assets after_takedown.2 !! photo = Some row ∧
    (Asset.state (doc row) = Quarantined ∨ Asset.state (doc row) = Deleted).
Proof.
  assert (Hrun : taken_down.2 = Ok (Some Quarantined)) by (by vm_compute).
  split; [exact Hrun|]. split; [by vm_compute|].
  destruct (a_finished_takedown_holds uuid_text scan_looks standard cdn Fine photo 5 published
              taken_down.1 Quarantined late_tasks late_moves) as [Hrow _].
  - apply healthy_filed, published_healthy.
  - rewrite <-Hrun. apply surjective_pairing.
  - by repeat constructor.
  - exact Hrow.
Defined.

Definition held_world : World := (play (serve [uploaded photo], at_hand) (matched 0 ++ turns 0 40)).2.

Definition purge_tasks : list task := [deletion photo; uploaded photo].
Definition purge_moves : list (move fault happening) := turns 0 20 ++ turns 1 20.
Abbreviation after_purge := (play (serve purge_tasks, held_world) purge_moves).

Lemma held_evidence_is_kept_witness :
  after_purge.1 !! 0%nat = Some (Ret (Emptied (Err PermissionDenied))) ∧
  (∃ row, assets after_purge.2 !! photo = Some row ∧ Asset.legal_hold (doc row) = true) ∧
  is_Some (objects after_purge.2 !! staging photo).
Proof.
  split; [by vm_compute|].
  assert (Hf : fate photo held_world = Some (Quarantined, true)) by (by vm_compute).
  destruct (fate_row _ _ _ _ Hf) as (row & E & _ & Hh).
  destruct (held_evidence_is_kept uuid_text scan_looks standard cdn photo held_world row
              purge_tasks purge_moves) as [Hrow Ho].
  - apply healthy_filed, run_healthy, at_hand_healthy.
  - exact E.
  - exact Hh.
  - by vm_compute.
  - by repeat constructor.
  - split; [exact Hrow|]. apply Ho. exists "aaaa". by vm_compute.
Defined.

Definition let_through : fault := says 1 [].
Definition recording : list {c : call & reply c} :=
  recorded answer let_through (run_task standard cdn (uploaded photo)) at_hand.

Lemma nothing_is_written_unscreened_witness :
  length recording = 13%nat ∧
  ∃ kind h rest req resp, 
    rendition_key PostImage (sha256_hex "aaaa") Original "jpg" = path_segment kind +:+ "/" +:+ h +:+ "/" +:+ rest ∧
    existT (Screen req) (Some (Ok resp)) ∈ take 4 recording ∧ blocked (decision_of resp) = false ∧
    h ∈ requested_hashes req.
Proof.
  split; [by vm_compute|].
  apply (nothing_is_written_unscreened scan_looks standard cdn (uploaded photo) recording
           (alone answer let_through (run_task standard cdn (uploaded photo)) at_hand).2
           (take 4 recording) (rendition_key PostImage (sha256_hex "aaaa") Original "jpg")
           "jpeg of aaaa" "image/jpeg" (Ok (plain 200 "")) (drop 5 recording)).
  - apply recorded_traces.
  - by vm_compute.
Defined.

(** Moderation's corpus with the hash of the upload, and what it says. *)
Definition corpus_world : ModerationStore.World :=
  ModerationSystem.Demo.empty <| ModerationStore.corpus :=
    {[ModerationStore.corpus_key "sha256" (sha256_hex "aaaa") := "csam"]} |>.
Definition request : ModerationEdge.Pb.ScreenRequest := screen_request photo ana (sha256_hex "aaaa").
Abbreviation said := (ModerationEdge.screen_rpc ModerationAlone.nobody ModerationDomain.standard_policy
  ModerationSystem.Demo.untimed 1000000 request corpus_world).
Definition said_response : ScreenResponse :=
  match said.2 with
  | Ok (v, cats, reference) =>
      {| verdict := v; matched_categories := cats; match_reference := reference |}
  | Err _ => {| verdict := 0; matched_categories := []; match_reference := "" |}
  end.

Lemma known_uploads_are_held_witness :
  verdict said_response = 2 ∧ matched_categories said_response = [5] ∧
  ∃ row, Asset.state (doc row) = Quarantined ∧ Asset.legal_hold (doc row) = true.
Proof.
  split; [by vm_compute|]. split; [by vm_compute|].
  pose proof (known_uploads_are_held scan_looks ModerationDomain.standard_policy
    ModerationAlone.nobody ModerationSystem.Demo.untimed 1000000 corpus_world photo 5
    (recorded answer (ScreenSays said_response) (process_asset photo 5) at_hand)
    QuarantinedOutcome request said_response) as Hheld.
  assert (Hhit : ModerationRules.first_hit corpus_world (ModerationEdge.Pb.hashes request) = Some "csam")
    by (by vm_compute).
  rewrite Hhit in Hheld. destruct Hheld as (_ & m & i & row & Hm & _ & Hst & Hh).
  - done.
  - assert (Ho : (alone answer (ScreenSays said_response) (process_asset photo 5) at_hand).2
                 = Ok QuarantinedOutcome) by (by vm_compute).
    rewrite <-Ho. apply recorded_traces.
  - apply (list_elem_of_lookup_2 _ 1). by vm_compute.
  - assert (Hsaid : said.2 = Ok (verdict said_response, matched_categories said_response,
                                 match_reference said_response)) by (by vm_compute).
    exists said.1. rewrite <-Hsaid. apply surjective_pairing.
  - exists row. split; [exact Hst|]. apply Hh. vm_compute in Hm. injection Hm as <-. by left.
Defined.
End Demo.
